(* ===== verification/_CoqProject ===== *)
-Q . S2P
Prelude.v
Float.v
Ip.v
Strings.v
Bytes.v
Wire.v
Hpack.v
HpackSpec.v
Http2.v
Http2Facts.v
Url.v
Solver.v
Host.v
Date.v
Tls.v
TlsFacts.v
Core.v
ThirdParty.v
Traps.v
TlsEdge.v
Config.v
Validation.v
Firewall.v
Store.v
StoreFacts.v
StoreSpec.v
Detector.v
Defense.v
DefenseFacts.v
Tail.v
TailFacts.v
ValidationFacts.v
Admission.v
Proto.v
Endpoints.v
Admin.v
Html.v
Rate.v
Rule.v
Scoring.v
Pending.v
Maze.v
MazeFacts.v
Condition.v
Census.v
Challenge.v
TlsEdgeFacts.v
Proxy.v
Document.v
Policy.v
Networks.v
Deception.v
Renderer.v
NetworksFacts.v
WebConfig.v
Kdl.v
State.v
ConfigFacts.v
ProxyFacts.v
StateFacts.v
Crawler.v
Reload.v
Control.v
ReloadFacts.v
Session.v
Evaluate.v
Finalize.v
Pipeline.v
PipelineFacts.v
Listen.v
Offense.v
Verify.v
Page.v
Lookups.v
Routes.v
RoutesFacts.v
Monitor.v
EndpointsFacts.v
Daemon.v
DaemonFacts.v
