(* ===== verification/Prelude.v ===== *)
(** * Bagel

    A verification of Bagel, an HTTP proxy and SSH tarpit daemon in Rust. The
    program has two planes. The defense plane watches log sources and its own
    listeners for offenses, keeps windows of them and the leases they earn in a
    SQLite database, and reconciles the leases in force with a table of
    nftables. The web plane sits in front of HTTP backends: it works out who the
    client is, fingerprints its connection, counts its requests, runs them through
    rules and scorecards, hands out challenges, and leads what it distrusts into
    mazes. Offenses of the web plane reach the defense plane through a channel. Paths
    below are relative to [crates/].

    ** The files

    What the others share:
    - [Prelude]: results with the [?] operator as their bind, integers of fixed
      width with saturating arithmetic, strings as the program's functions see
      them (bytes of UTF-8), ordered maps, lists, and the tactics and hints the
      other files use. [Strings], [Bytes], [Float]: facts on strings and
      trimming, on arrays of bytes, and the operations on [f64]. [Core]: the error type
      of [bagel-core], loops that fail, and a monad for methods that change [self] and
      return a [Result].
    - [Ip]: [std::net] addresses with their parsers and printers, and the
      interface of the [ipnetwork] crate with a model of it. [ThirdParty]: the
      interfaces of [regex], [serde_json] and [jiff]. [Url]: percent encoding, query
      parameters and the addresses of challenges ([bagel-web/src/challenge/url.rs]).
      [Date]: both formatters of HTTP dates. [Html]: a reader of HTML, by which pages
      are judged.

    The defense plane:
    - [Config], [Validation], [ValidationFacts]: the defense configuration of
      [bagel-config/src/lib.rs] with its defaults and overrides, the checks of
      [validation.rs], and what a validated configuration guarantees to the rest.
    - [Firewall]: [bagel-runtime/src/firewall.rs]. Scopes, the normalisation
      that lets blocks win over redirects, the grouping and the text of the
      ruleset, reconciliation against [nft].
    - [Store]: [bagel-runtime/src/store.rs]. The tables as lists of rows and
      every operation on them, transactions included. [StoreFacts] has the
      invariant of the tables, [StoreSpec] what one event does and what
      sequences of operations can observe.
    - [Detector], [Defense], [DefenseFacts]: [detector.rs], [defense.rs] and
      [defense_maintenance.rs] of [bagel-runtime/src]. Compiled detectors, opening,
      processing of records, listener offenses, reconciliation, expiry, manual blocks.
    - [Tail], [TailFacts]: the log sources ([source.rs],
      [source_file.rs], [source_address_set.rs], [source_journal.rs]). [Offense]: the
      channel of web offenses ([offense.rs]).
    - [Traps]: [bagel-traps/src]. [Admission]: [state.rs], [tarpit.rs] and
      [bagel-web/src/smear.rs]. [Proto]: [bagel-proto/src].
    - [Endpoints]: [server.rs], the accept loops and connections of the tarpit. [Admin]:
      the control socket ([admin.rs], [bagel-admin], [bagel-cli]). [Monitor]: the metrics
      server ([metrics.rs]). [EndpointsFacts] has the theorems on all three.

    Reading configurations:
    - [Document], [Policy], [WebConfig], [Kdl], [ConfigFacts]: [bagel-config/src],
      from the nodes of a document to the configurations of both planes.
    - [State], [StateFacts]: the checks that compile a web configuration
      ([bagel-web/src/state.rs], [state_validation.rs]). [Reload],
      [Control], [ReloadFacts]: the state built of it, and its reloading.
      [Networks], [NetworksFacts]: the lists of networks a policy loads
      ([net/loader.rs], [net/radb.rs], [cache.rs]).
    - [Daemon], [DaemonFacts]: [bagel-daemon/src/main.rs], which starts all of it.

    Connections and fingerprints, in [bagel-web/src]:
    - [Listen]: [tls/peek.rs] and [server/listen.rs]. [Wire], [Hpack],
      [HpackSpec], [Http2], [Http2Facts]: the readers of HTTP/2. [Tls],
      [TlsFacts], [TlsEdge], [TlsEdgeFacts]: the readers of a ClientHello and
      what proxies relay of one. [Host]: host names.

    Requests, in [bagel-web/src]:
    - [Pipeline], [PipelineFacts], [Finalize]: [server/pipeline.rs],
      from a connection's request to its reply. [Evaluate]: the decision, with
      [server/pipeline_evaluate.rs] and the tags a challenge fetches from the origin
      ([tag_fetcher.rs]). [Routes], [RoutesFacts], [Verify]: [routes.rs].
    - [Rate], [Census], [Crawler]: what is
      counted and looked up about clients. [Rule], [Scoring], [Condition]: rules,
      scorecards and the facts they see.
    - [Pending], [Challenge], [Session]: challenges handed out, passes and cookies.
      [Solver]: [bagel-solver/src], with SHA-256. [Page], [Lookups]:
      the pages of challenges ([template.rs], [challenge/]), what they repeat of the
      origin's page, and what blocklists answer.
    - [Maze], [MazeFacts], [Renderer]: [maze/] and [server/maze.rs].
      [Deception]: [bagel-deception/src].
    - [Proxy], [ProxyFacts]: [proxy/], the backends and what is sent to them.

    State is explicit: a component's struct is a record, a method with [&mut
    self] or interior mutability is a function to the record after it, and an
    asynchronous method is its sequence of steps between awaits with what it
    reads from outside as arguments. Where tasks share a state and theorems depend on
    the interleaving - crawler look-ups, the tarpit's endpoints, the calls of a
    renderer, visits, connection slots - each access is an action and a theorem holds
    for every order of them. Machine integers are values of [N] or [Z] with the width
    written out where it matters.

    ** What is shown

    - Enforcement ([DefenseFacts], [StoreSpec], [EndpointsFacts]): a
      reconciliation gives [nft] a ruleset that blocks what the leases in force ask for
      and nothing protected, shared or local; the tables stay sound under any sequence
      of operations; an offense earns a lease exactly at the threshold; events are
      atomic, new, and replay as duplicates; an answer of the control socket tells what
      became of the leases.
    - Sources ([TailFacts], [Offense]): every complete line of a
      file that grows once and in order, across restarts; no two records share an id.
    - The tarpit ([EndpointsFacts], [Admission]): counters, slots and
      places are those of the connections held; the probe of readiness follows sockets,
      sources and firewall.
    - Agreement of the parts ([ValidationFacts], [ConfigFacts], [StateFacts],
      [ReloadFacts], [NetworksFacts], [DaemonFacts]): what validation
      accepts, the runtime opens, compiles and serves; references of actions resolve;
      a reload keeps identity and takes over what is unchanged; networks load all or
      not at all; a configuration that passes its check starts, given what the check does not
      look at.
    - Connections ([Listen], [HpackSpec], [Http2Facts], [TlsFacts],
      [TlsEdgeFacts]): the bytes handed over are those of the socket;
      fingerprints do not depend on segments, records, or what a client varies; readers
      end without panics; relayed fingerprints count only from trusted peers.
    - Requests ([PipelineFacts], [Finalize], [ProxyFacts], [RoutesFacts]): a
      challenge in front of a policy stands between clients and backends, which see of
      other clients only bagel's request for its tags; a request that leaves has the
      headers bagel writes and, but for cookies that are not text, none of bagel's state;
      personal replies are private;
      mazes and internal endpoints stand apart.
    - Challenges ([Verify], [Pending], [Session], [Solver], [Page],
      [Lookups]): passes are earned, bound and kept; keys are single use; the
      solver's answers verify; pages keep the structure of their templates whatever is
      put in them, and repeat only listed tags of the origin.
    - Mazes and text ([MazeFacts], [Renderer], [Deception]): links come back
      as valid returns for their network, path and time alone; pages finish and hold
      the links they were given; renderers stay within their limits and cooldowns.
    - Clients ([Census], [Crawler], [Rate]): counts are those of
      the log of what happened; a crawler is one by forward-confirmed reverse DNS.

    ** Parameters

    Code of other crates and the world outside are parameters. The functions of other
    crates are the members of classes: [IpNetworkApi], [RegexApi], [RegexSetApi],
    [RegexIter], [RegexGroups], [RegexExpand], [JsonApi], [JsonMessage], [AdminJson],
    [TimeApi], [RhaiApi], [RhaiScript], [ScopeApi], [HeaderApi], [HeaderText],
    [UriApi], [UriParts], [UriRewrite], [SealApi], [HexApi], [MazeApi], [PrefixTable],
    [StoreCodec], and for documents [Knead], [Decode], [SectionDecoders] and
    [WebDecoders]. Classes named [...Laws] state the documented behaviour a theorem
    relies on: how networks compare, that what is encoded or sealed can be decoded or
    opened again and nothing else can ([SealBinding]: under no other key), that a set of good patterns compiles. Each has a
    concrete instance ([Cidr], [Literal], [LiteralRule], [TextCodec], [Toy] and those of
    the modules of examples) on which the witnesses are evaluated.

    Functions that are arguments: SHA-1 and SHA-256 of the web plane, base64 and
    hexadecimal decoders, the Huffman code of HPACK, [ppp] and [httparse], the hashes of
    shards and texts, the script engine that may enhance a deceptive page. What comes
    from outside is an argument where it is read: clocks, random draws, the interfaces'
    addresses, the answers of [nft], DNS, whois and HTTP exchanges, the contents of
    files, key pairs and roots, TLS handshakes, embedded assets and style sheets, the
    pool of prepared solvers. [Pipeline] and [Finalize] take the page of a maze's
    renderer and the text of a fragment as arguments; [Renderer] and [Page] define them.

    ** Fuel

    Loops that wait for something outside consume a list of what it answers and
    give no result when the list is too short; [Proto.proxy_read] ends within 537 reads,
    and [Listen] bounds the passes over the first bytes of a connection. Loops
    over data that are not structural have the length of the data, or one more, as
    their fuel, and theorems that it is enough: the drains of [Wire] and [Http2], the
    blocks of [Hpack], the records of [Tls], UTF-8 readers, trimming, words and chunks
    of [Deception], the lines of [Tail], the arguments of a node in [Document]. The loop
    over years in [Date] takes its fuel as an argument, and any above one for each 365 days will
    do; [Maze.render_fuel] is one pass per byte a page may have, each pass writing at
    least one. [Defense.record_listener] takes the attempts it is given; its theorems
    hold for every list.

    ** Not modelled

    Sockets, timers, TLS handshakes, certificates and ACME, and the HTTP
    implementation; the names and the registry of metrics, and logs; failures of the
    disk; the text of KDL and JSON, and decoders that are generated; the cryptography
    behind seals, tokens and keys; the functions registered with the script engine, and
    the scripts of [enhance.rs]; the semaphore that bounds verification; signals and
    the parsing of the command line; the build of the assets and the scenario that
    compares rewritten solvers ([bagel-solver/src/host.rs]). These are other crates'
    code, or input and output around the parts above, with nothing of the program's
    own to state about them. *)

From stdpp Require Export base gmap strings list fin_maps pretty sorting.
From Stdlib Require Export ZArith NArith Lia.
From Stdlib Require Export Ascii.

#[global] Open Scope general_if_scope.

(** ** Results *)

(** [std::result::Result]: a value or an error, with the [?] operator as the
    monadic bind. *)
Inductive result (E A : Type) : Type :=
| Ok (a : A)
| Err (e : E).
Arguments Ok {E A} _.
Arguments Err {E A} _.

#[global] Instance result_ret E : MRet (result E) := fun A a => Ok a.
#[global] Instance result_bind E : MBind (result E) := fun A B f r =>
  match r with Ok a => f a | Err e => Err e end.
#[global] Instance result_fmap E : FMap (result E) := fun A B f r =>
  match r with Ok a => Ok (f a) | Err e => Err e end.

(** [Result::is_ok]. *)
Definition is_ok {E A} (r : result E A) : bool :=
  match r with Ok _ => true | Err _ => false end.

(** [Option::ok_or]. *)
Definition ok_or {E A} (e : E) (o : option A) : result E A :=
  match o with Some a => Ok a | None => Err e end.

(** [Result::map_err]. *)
Definition map_err {E F A} (f : E -> F) (r : result E A) : result F A :=
  match r with Ok a => Ok a | Err e => Err (f e) end.

(** [Iterator::collect::<Result<Vec<_>, _>>]: the first error wins. *)
Fixpoint traverse {E A B} (f : A -> result E B) (l : list A) : result E (list B) :=
  match l with
  | [] => Ok []
  | a :: l => b ← f a; bs ← traverse f l; Ok (b :: bs)
  end.

Lemma bind_ok {E A B} (m : result E A) (f : A -> result E B) b :
  m ≫= f = Ok b <-> exists a, m = Ok a /\ f a = Ok b.
Proof.
  destruct m as [a|e]; cbn; split.
  - intros Hf. by exists a.
  - by intros (? & [= <-] & ?).
  - done.
  - by intros (? & ? & _).
Qed.

Lemma bind_err {E A B} (m : result E A) (f : A -> result E B) e :
  m ≫= f = Err e <-> m = Err e \/ exists a, m = Ok a /\ f a = Err e.
Proof.
  destruct m as [a|e']; cbn; split.
  - intros Hf. right. by exists a.
  - by intros [?|(? & [= <-] & ?)].
  - intros [= ->]. by left.
  - intros [[= ->]|(? & ? & _)]; done.
Qed.

Lemma traverse_ok {E A B} (f : A -> result E B) l bs :
  traverse f l = Ok bs <-> Forall2 (fun a b => f a = Ok b) l bs.
Proof.
  revert bs; induction l as [|a l IH]; intros bs; simpl.
  - split; [intros [= <-]; constructor | inversion 1; done].
  - rewrite bind_ok. split.
    + intros (b & Hb & H). apply bind_ok in H as (bs' & Hbs & [= <-]).
      constructor; [done|]. by apply IH.
    + inversion 1 as [|? b ? bs' Hb Hbs]; subst. exists b. split; [done|].
      apply bind_ok. exists bs'. split; [by apply IH | done].
Qed.

(** Opens a hypothesis about a chain of [?] operators. *)
Ltac inv_result :=
  repeat match goal with
  | H : Ok _ = Ok _ |- _ => injection H as H; subst
  | H : Err _ = Err _ |- _ => injection H as H; subst
  | H : Ok _ = Err _ |- _ => discriminate H
  | H : Err _ = Ok _ |- _ => discriminate H
  | H : mret _ = Ok _ |- _ => injection H as H; subst
  | H : (_ ≫= _) = Ok _ |- _ =>
      let a := fresh "a" in let Ha := fresh "Ha" in
      apply bind_ok in H as (a & Ha & H)
  end.

Lemma traverse_total {E A B} (f : A -> result E B) l :
  Forall (fun a => exists b, f a = Ok b) l ->
  exists bs, traverse f l = Ok bs /\ Forall2 (fun a b => f a = Ok b) l bs.
Proof.
  induction 1 as [|a l [b Hb] _ (bs & IH & H2)]; cbn; [by exists []|].
  rewrite Hb, IH. cbn. exists (b :: bs). by split; [|constructor].
Qed.

(** The value of a result known to be [Ok]. *)
Definition from_ok {E A} (r : result E A) : is_ok r = true -> A :=
  match r return is_ok r = true -> A with
  | Ok a => fun _ => a
  | Err _ => fun H => match Bool.diff_false_true H with end
  end.
Lemma from_ok_eq {E A} (r : result E A) (H : is_ok r = true) : r = Ok (from_ok r H).
Proof. by destruct r. Qed.

(** The same through the pairs a bind takes apart. *)
Ltac inv_all :=
  inv_result;
  repeat (match goal with
          | H : match ?p with (_, _) => _ end = Ok _ |- _ =>
              let x := fresh "x" in let y := fresh "y" in let E := fresh "Ep" in
              first [is_var p; destruct p as [x y] | destruct p as [x y] eqn:E]
          end; inv_result).

(** Equality of closed terms by evaluation, without normalising the types in
    them. *)
Ltac vm_refl :=
  match goal with |- @eq ?T ?a ?b => vm_cast_no_check (@eq_refl T b) end.

Definition is_some {A} (o : option A) : bool := match o with Some _ => true | None => false end.
Lemma is_some_spec {A} (o : option A) : is_some o = true -> is_Some o.
Proof. destruct o; [by eexists|done]. Qed.

(** Case analysis on every [if] and [match] scrutinee of the goal. *)
Ltac case_all := repeat (case_match; simplify_eq/=; try done).

(** ** Fixed-width unsigned integers

    [u8], [u16], [u32], [u64] and [usize] are values of [N]; an operation that
    can leave its width is written out with the width's maximum. The
    saturating subtraction of the unsigned types is [N.sub]. *)
Definition u8_max : N := 255.
Definition u16_max : N := 65535.
Definition u32_max : N := 4294967295.
Definition u64_max : N := 18446744073709551615.
Definition i64_max : N := 9223372036854775807.
(** The targets of the program are 64-bit. *)
Definition usize_max : N := u64_max.

Definition sat_add (max a b : N) : N := (a + b) `min` max.
Definition sat_mul (max a b : N) : N := (a * b) `min` max.
(** [saturating_pow]: the power, clamped at the width's maximum. *)
Definition sat_pow (max a b : N) : N := (a ^ b) `min` max.

Lemma sat_add_le max a b : (sat_add max a b <= max)%N.
Proof. unfold sat_add; lia. Qed.
Lemma sat_mul_le max a b : (sat_mul max a b <= max)%N.
Proof. unfold sat_mul; lia. Qed.
Lemma sat_pow_le max a b : (sat_pow max a b <= max)%N.
Proof. unfold sat_pow; lia. Qed.
Lemma sat_add_exact a b : (a + b <= u64_max)%N -> sat_add u64_max a b = (a + b)%N.
Proof. unfold sat_add. lia. Qed.
Lemma sat_add_mono max a b c : (b <= c)%N -> (sat_add max a b <= sat_add max a c)%N.
Proof. unfold sat_add; lia. Qed.
Lemma sat_mul_mono max a b c : (b <= c)%N -> (sat_mul max a b <= sat_mul max a c)%N.
Proof. unfold sat_mul; nia. Qed.
Lemma sat_pow_mono max a b c : (a <> 0 -> b <= c -> sat_pow max a b <= sat_pow max a c)%N.
Proof. intros Ha Hbc. unfold sat_pow. pose proof (N.pow_le_mono_r a b c Ha Hbc). lia. Qed.

(** The facts about saturating arithmetic the components use. *)
Create HintDb bagel.
#[export] Hint Resolve sat_add_le sat_mul_le sat_pow_le sat_add_mono sat_mul_mono : bagel.

(** ** Strings

    A Rust [str] is its UTF-8 bytes; a [string] is a sequence of 8-bit
    characters. Every pattern the source searches for is ASCII, so the byte
    search below is the [str] search. *)
Definition byte_of (c : ascii) : N := N_of_ascii c.

Fixpoint string_chars (s : string) : list ascii :=
  match s with EmptyString => [] | String c s => c :: string_chars s end.
Fixpoint chars_string (l : list ascii) : string :=
  match l with [] => EmptyString | c :: l => String c (chars_string l) end.

Definition str_is_empty (s : string) : bool :=
  match s with EmptyString => true | _ => false end.

(** [str::bytes().all(p)] and [str::bytes().any(p)]. *)
Fixpoint str_all (p : ascii -> bool) (s : string) : bool :=
  match s with EmptyString => true | String c s => p c && str_all p s end.
Fixpoint str_any (p : ascii -> bool) (s : string) : bool :=
  match s with EmptyString => false | String c s => p c || str_any p s end.

Definition char_eqb (c d : ascii) : bool := Ascii.eqb c d.
(** [str::contains(char)]. *)
Definition str_contains_char (c : ascii) (s : string) : bool := str_any (char_eqb c) s.

Definition in_range (lo hi : N) (c : ascii) : bool :=
  (lo <=? byte_of c)%N && (byte_of c <=? hi)%N.
Definition is_ascii_digit : ascii -> bool := in_range 48 57.
Definition is_ascii_lowercase : ascii -> bool := in_range 97 122.
Definition is_ascii_uppercase : ascii -> bool := in_range 65 90.
Definition is_ascii_alphanumeric (c : ascii) : bool :=
  is_ascii_digit c || is_ascii_lowercase c || is_ascii_uppercase c.
Definition is_ascii (c : ascii) : bool := (byte_of c <? 128)%N.

(** [u8::to_ascii_lowercase], lifted to strings. *)
Definition char_to_ascii_lowercase (c : ascii) : ascii :=
  if is_ascii_uppercase c then ascii_of_N (byte_of c + 32) else c.
Fixpoint to_ascii_lowercase (s : string) : string :=
  match s with
  | EmptyString => EmptyString
  | String c s => String (char_to_ascii_lowercase c) (to_ascii_lowercase s)
  end.
Definition eq_ignore_ascii_case (s t : string) : bool :=
  String.eqb (to_ascii_lowercase s) (to_ascii_lowercase t).

(** [str::strip_prefix] and [str::starts_with]. *)
Fixpoint strip_prefix (p s : string) : option string :=
  match p, s with
  | EmptyString, _ => Some s
  | String a p, String b s => if char_eqb a b then strip_prefix p s else None
  | String _ _, EmptyString => None
  end.
Definition starts_with (p s : string) : bool :=
  match strip_prefix p s with Some _ => true | None => false end.

Definition str_rev (s : string) : string := chars_string (rev (string_chars s)).
(** [str::strip_suffix] and [str::ends_with]. *)
Definition strip_suffix (p s : string) : option string :=
  str_rev <$> strip_prefix (str_rev p) (str_rev s).
Definition ends_with (p s : string) : bool :=
  match strip_suffix p s with Some _ => true | None => false end.

(** What follows the first occurrence of [p] in [s]: [str::find] plus the
    slice past the match. *)
Fixpoint after_first (p s : string) : option string :=
  match strip_prefix p s with
  | Some rest => Some rest
  | None => match s with EmptyString => None | String _ s => after_first p s end
  end.
(** [str::contains(&str)]. *)
Definition str_contains (p s : string) : bool :=
  match after_first p s with Some _ => true | None => false end.

(** [str::split(char)]: always at least one piece. *)
Fixpoint str_split (sep : ascii) (s : string) : list string :=
  match s with
  | EmptyString => [EmptyString]
  | String c s =>
      if char_eqb c sep then EmptyString :: str_split sep s
      else match str_split sep s with
           | [] => [String c EmptyString]
           | w :: ws => String c w :: ws
           end
  end.
(** [str::split_once(char)]. *)
Fixpoint split_once (sep : ascii) (s : string) : option (string * string) :=
  match s with
  | EmptyString => None
  | String c s =>
      if char_eqb c sep then Some (EmptyString, s)
      else '(a, b) ← split_once sep s; Some (String c a, b)
  end.

(** [slice::join]. *)
Fixpoint str_join (sep : string) (l : list string) : string :=
  match l with
  | [] => EmptyString
  | [s] => s
  | s :: l => s +:+ sep +:+ str_join sep l
  end.

(** The UTF-8 encodings of the characters with the Unicode [White_Space]
    property, which [str::trim] removes. *)
Definition bytes_string (l : list N) : string := chars_string (ascii_of_N <$> l).
Definition white_space : list string :=
  bytes_string <$>
    [[9]; [10]; [11]; [12]; [13]; [32]; [194; 133]; [194; 160]; [225; 154; 128];
     [226; 128; 128]; [226; 128; 129]; [226; 128; 130]; [226; 128; 131];
     [226; 128; 132]; [226; 128; 133]; [226; 128; 134]; [226; 128; 135];
     [226; 128; 136]; [226; 128; 137]; [226; 128; 138]; [226; 128; 168];
     [226; 128; 169]; [226; 128; 175]; [226; 129; 159]; [227; 128; 128]]%N.

Fixpoint first_some {A B} (f : A -> option B) (l : list A) : option B :=
  match l with
  | [] => None
  | a :: l => match f a with Some b => Some b | None => first_some f l end
  end.

(** Removes a leading element of [pats] as long as there is one; the length of
    the string bounds the number of rounds. *)
Fixpoint trim_start_go (pats : list string) (fuel : nat) (s : string) : string :=
  match fuel with
  | O => s
  | S fuel =>
      match first_some (fun p => strip_prefix p s) pats with
      | Some rest => trim_start_go pats fuel rest
      | None => s
      end
  end.
Definition trim_start_of (pats : list string) (s : string) : string :=
  trim_start_go pats (String.length s) s.
Definition trim_end_of (pats : list string) (s : string) : string :=
  str_rev (trim_start_of (str_rev <$> pats) (str_rev s)).
(** [str::trim]. *)
Definition str_trim (s : string) : string :=
  trim_end_of white_space (trim_start_of white_space s).

(** ** Decimal numbers *)

Definition digit_value (c : ascii) : option N :=
  if is_ascii_digit c then Some (byte_of c - 48)%N else None.

(** The digits of [from_str_radix(_, 10)], with its overflow check after each
    digit. *)
Fixpoint parse_digits (max acc : N) (s : string) : option N :=
  match s with
  | EmptyString => Some acc
  | String c s =>
      d ← digit_value c;
      let acc := (acc * 10 + d)%N in
      if (acc <=? max)%N then parse_digits max acc s else None
  end.
(** [str::parse] at an unsigned type of maximum [max]: an optional [+], then at
    least one digit. *)
Definition parse_unsigned (max : N) (s : string) : option N :=
  match s with
  | EmptyString => None
  | String c rest =>
      if char_eqb c "+"%char then
        (if str_is_empty rest then None else parse_digits max 0 rest)
      else parse_digits max 0 s
  end.

(** [str::parse::<i64>]: an optional sign, then at least one digit. *)
Definition parse_i64 (s : string) : option Z :=
  match s with
  | EmptyString => None
  | String c rest =>
      if char_eqb c "-"%char then
        (if str_is_empty rest then None
         else n ← parse_digits (i64_max + 1) 0 rest; Some (- Z.of_N n)%Z)
      else n ← parse_unsigned i64_max s; Some (Z.of_N n)
  end.

(** Decimal rendering, [Display] of the unsigned integer types. *)
Definition show_N (n : N) : string := pretty n.

(** ** Lemmas on strings and numbers *)

Lemma strip_prefix_app p s : strip_prefix p (p +:+ s) = Some s.
Proof.
  induction p as [|c p IH]; simpl; [done|].
  unfold char_eqb. by rewrite Ascii.eqb_refl.
Qed.

Lemma strip_prefix_some p s r : strip_prefix p s = Some r <-> s = p +:+ r.
Proof.
  split; [|intros ->; apply strip_prefix_app].
  revert s; induction p as [|c p IH]; intros s; [by intros [= ->]|].
  destruct s as [|d s]; [done|]. cbn. unfold char_eqb.
  destruct (Ascii.eqb_spec c d) as [->|]; [|done].
  intros H. by rewrite (IH _ H).
Qed.

Lemma string_app_assoc (a b c : string) : (a +:+ b) +:+ c = a +:+ (b +:+ c).
Proof. induction a as [|x a IH]; [done|]. change (String x ((a +:+ b) +:+ c) = String x (a +:+ (b +:+ c))). by rewrite IH. Qed.

Lemma string_app_inv_head (a b c : string) : a +:+ b = a +:+ c -> b = c.
Proof. induction a as [|x a IH]; [done|]. intros [= H]. by apply IH. Qed.

Lemma string_chars_string l : string_chars (chars_string l) = l.
Proof. induction l; simpl; congruence. Qed.
Lemma chars_string_chars s : chars_string (string_chars s) = s.
Proof. induction s; simpl; congruence. Qed.

Lemma str_rev_involutive s : str_rev (str_rev s) = s.
Proof.
  unfold str_rev. by rewrite string_chars_string, rev_involutive, chars_string_chars.
Qed.

Lemma string_eqb_eq (s t : string) : String.eqb s t = true <-> s = t.
Proof. apply String.eqb_eq. Qed.

Lemma str_all_forall p s : str_all p s = true <-> Forall (fun c => p c = true) (string_chars s).
Proof.
  induction s as [|c s IH]; simpl; [by split|].
  rewrite andb_true_iff, Forall_cons, IH. done.
Qed.

Lemma str_any_exists p s : str_any p s = true <-> Exists (fun c => p c = true) (string_chars s).
Proof.
  induction s as [|c s IH]; simpl; [by rewrite Exists_nil|].
  rewrite orb_true_iff, Exists_cons, IH. done.
Qed.

Lemma digit_value_pretty d : (d < 10)%N -> digit_value (pretty_N_char d) = Some d.
Proof.
  intros H.
  assert (d = 0 \/ d = 1 \/ d = 2 \/ d = 3 \/ d = 4 \/ d = 5 \/ d = 6 \/ d = 7 \/ d = 8 \/ d = 9)%N
    as Hd by lia.
  repeat destruct Hd as [->|Hd]; [done..|]. by rewrite Hd.
Qed.

Lemma parse_digits_pretty_go max n s :
  (n <= max)%N -> parse_digits max 0 (pretty_N_go n s) = parse_digits max n s.
Proof.
  revert s. induction (N.lt_wf_0 n) as [n _ IH]; intros s Hn.
  destruct (decide (n = 0)%N) as [->|Hpos]; [done|].
  rewrite pretty_N_go_step by lia.
  assert (n `div` 10 <= n)%N by (apply N.Div0.div_le_upper_bound; lia).
  rewrite IH; [|apply N.div_lt; lia|lia].
  cbn [parse_digits]. rewrite digit_value_pretty by (apply N.mod_lt; lia).
  cbn [mbind option_bind].
  replace (n `div` 10 * 10 + n `mod` 10)%N with n
    by (rewrite N.mul_comm; apply N.div_mod; lia).
  by rewrite (proj2 (N.leb_le _ _) Hn).
Qed.

Lemma pretty_N_go_head n s :
  (0 < n)%N -> exists d r, pretty_N_go n s = String d r /\ is_ascii_digit d = true.
Proof.
  revert s. induction (N.lt_wf_0 n) as [n _ IH]; intros s Hn.
  rewrite pretty_N_go_step by lia.
  destruct (decide (n `div` 10 = 0)%N) as [->|Hq].
  - exists (pretty_N_char (n `mod` 10)), s. split; [done|].
    pose proof (digit_value_pretty (n `mod` 10)) as Hd. unfold digit_value in Hd.
    destruct (is_ascii_digit _); [done|]. discriminate Hd. apply N.mod_lt; lia.
  - apply IH; [apply N.div_lt; lia|]. by apply N.neq_0_lt_0.
Qed.

(** Parsing reads back what [Display] prints. *)
Lemma parse_show_N max n : (n <= max)%N -> parse_unsigned max (show_N n) = Some n.
Proof.
  intros Hn. unfold show_N, pretty, pretty_N.
  destruct (decide (n = 0)%N) as [->|Hpos].
  { by destruct max. }
  pose proof (parse_digits_pretty_go max n "" Hn) as Hgo.
  destruct (pretty_N_go_head n "" ltac:(lia)) as (d & r & E & Hd).
  rewrite E in *. unfold parse_unsigned.
  assert (char_eqb d "+" = false) as ->; [|done].
  unfold char_eqb. destruct (Ascii.eqb_spec d "+") as [->|]; done.
Qed.

Lemma show_N_inj n m : show_N n = show_N m -> n = m.
Proof. apply (inj pretty). Qed.

(** ** Lists *)

(** [Iterator::find]. *)
Definition list_find_bool {A} (p : A -> bool) (l : list A) : option A :=
  first_some (fun a => if p a then Some a else None) l.

Lemma list_find_bool_some {A} (p : A -> bool) l a :
  list_find_bool p l = Some a -> a ∈ l /\ p a = true.
Proof.
  unfold list_find_bool. induction l as [|b l IH]; simpl; [done|].
  destruct (p b) eqn:E; [intros [= <-]; split; [left|done]|].
  intros H. destruct (IH H). split; [by right|done].
Qed.

Lemma list_find_bool_none {A} (p : A -> bool) l :
  list_find_bool p l = None <-> forall a, a ∈ l -> p a = false.
Proof.
  unfold list_find_bool. induction l as [|b l IH]; simpl.
  - split; [intros _ a Ha; by apply elem_of_nil in Ha | done].
  - destruct (p b) eqn:E; split.
    + done.
    + intros H. rewrite H in E; [done|left].
    + intros H a [->|Ha]%elem_of_cons; [done|]. by apply IH.
    + intros H. apply IH. intros a Ha. apply H. by right.
Qed.

Lemma existsb_elem {A} (p : A -> bool) l :
  existsb p l = true <-> exists a, a ∈ l /\ p a = true.
Proof.
  rewrite existsb_exists. split; intros (a & H & Hp); exists a; (split; [|done]);
    by apply list_elem_of_In.
Qed.

Lemma existsb_false {A} (p : A -> bool) l :
  existsb p l = false <-> forall a, a ∈ l -> p a = false.
Proof.
  rewrite <- not_true_iff_false, existsb_elem. split.
  - intros H a Ha. destruct (p a) eqn:E; [|done]. destruct H; by exists a.
  - intros H (a & Ha & Hp). by rewrite H in Hp.
Qed.

(** [BTreeMap] with string keys, as the association list its iterator yields:
    keys strictly increasing. *)
Fixpoint assoc {V} (k : string) (m : list (string * V)) : option V :=
  match m with
  | [] => None
  | (k', v) :: m => if String.eqb k k' then Some v else assoc k m
  end.

Lemma assoc_elem {V} k (m : list (string * V)) v : assoc k m = Some v -> (k, v) ∈ m.
Proof.
  induction m as [|[k' v'] m IH]; simpl; [done|].
  destruct (String.eqb_spec k k') as [->|]; [intros [= ->]; left|].
  intros H. right. auto.
Qed.

Lemma assoc_nodup {V} k (m : list (string * V)) v :
  NoDup m.*1 -> (k, v) ∈ m -> assoc k m = Some v.
Proof.
  induction m as [|[k' v'] m IH]; simpl; [by intros _ ?%elem_of_nil|].
  intros [Hk Hm]%NoDup_cons [[= -> ->]|H]%elem_of_cons.
  - by rewrite String.eqb_refl.
  - destruct (String.eqb_spec k k') as [->|]; [|auto].
    destruct Hk. apply list_elem_of_fmap. by exists (k', v).
Qed.

(** ** Ordered maps with string keys

    A [BTreeMap<String, V>] is the list of its entries in increasing key
    order, which is the order its iterators give. *)

Section BTree.
Context {V : Type}.

Fixpoint bt_insert (k : string) (v : V) (m : list (string * V)) : list (string * V) :=
  match m with
  | [] => [(k, v)]
  | (k', v') :: m' =>
      match String.compare k k' with
      | Lt => (k, v) :: m
      | Eq => (k, v) :: m'
      | Gt => (k', v') :: bt_insert k v m'
      end
  end.
Definition bt_remove (k : string) (m : list (string * V)) : list (string * V) :=
  List.filter (fun e => negb (String.eqb e.1 k)) m.
Definition bt_retain (p : string -> V -> bool) (m : list (string * V)) : list (string * V) :=
  List.filter (fun e => p e.1 e.2) m.

(** [min_by_key]: the first of the least entries. *)
Fixpoint bt_min_by (f : V -> N) (m : list (string * V)) : option (string * V) :=
  match m with
  | [] => None
  | e :: m =>
      match bt_min_by f m with
      | Some e' => if (f e'.2 <? f e.2)%N then Some e' else Some e
      | None => Some e
      end
  end.

(** Keys strictly increasing. *)
Definition key_lt : relation string := strict String.le.
Definition bt_sorted (m : list (string * V)) : Prop := StronglySorted key_lt m.*1.

Lemma compare_lt k k' : String.compare k k' = Lt -> key_lt k k'.
Proof.
  intros H. split; unfold String.le, String.leb; [by rewrite H|].
  rewrite String.compare_antisym, H. by intros [].
Qed.
Lemma compare_gt k k' : String.compare k k' = Gt -> key_lt k' k.
Proof. intros H. apply compare_lt. by rewrite String.compare_antisym, H. Qed.
Lemma compare_refl k : String.compare k k = Eq.
Proof.
  pose proof (String.compare_antisym k k) as H. destruct (String.compare k k); cbn in H; congruence.
Qed.

Lemma bt_insert_keys k v m x : x ∈ (bt_insert k v m).*1 <-> x = k \/ x ∈ m.*1.
Proof.
  induction m as [|[k' v'] m IH]; cbn; [by rewrite elem_of_cons|].
  destruct (String.compare k k') eqn:E; cbn; rewrite !elem_of_cons.
  - apply String.compare_eq_iff in E as ->. tauto.
  - done.
  - rewrite IH. tauto.
Qed.

Lemma bt_insert_sorted k v m : bt_sorted m -> bt_sorted (bt_insert k v m).
Proof.
  unfold bt_sorted. induction m as [|[k' v'] m IH]; cbn; [by repeat constructor|].
  intros Hs. inversion Hs as [|? ? Hm Hk]; subst.
  destruct (String.compare k k') eqn:E; cbn.
  - apply String.compare_eq_iff in E as ->. by constructor.
  - apply compare_lt in E. constructor; [done|]. constructor; [done|].
    eapply Forall_impl; [exact Hk|]. cbn. intros x Hx. by etrans.
  - apply compare_gt in E. constructor; [auto|]. apply Forall_forall.
    intros x [->|Hx]%bt_insert_keys; [done|]. by eapply Forall_forall in Hk.
Qed.

Lemma bt_filter_sorted p m : bt_sorted m -> bt_sorted (List.filter p m).
Proof.
  unfold bt_sorted. induction m as [|[k v] m IH]; cbn; [done|]. intros Hs.
  inversion Hs as [|? ? Hm Hk]; subst. destruct (p (k, v)); cbn; [|auto].
  constructor; [auto|]. rewrite Forall_forall in *. intros x (e & -> & He)%list_elem_of_fmap.
  apply Hk, list_elem_of_fmap. exists e. split; [done|].
  rewrite list_elem_of_In, filter_In, <- list_elem_of_In in He. tauto.
Qed.

Lemma bt_insert_length k v m : length (bt_insert k v m) <= S (length m).
Proof.
  induction m as [|[k' v'] m IH]; cbn; [done|]. destruct (String.compare k k'); cbn; lia.
Qed.

Lemma bt_insert_length_present k v m :
  bt_sorted m -> k ∈ m.*1 -> length (bt_insert k v m) = length m.
Proof.
  unfold bt_sorted. induction m as [|[k' v'] m IH]; cbn; [by intros _ ?%elem_of_nil|].
  intros Hs Hk. inversion Hs as [|? ? Hm Hlt]; subst.
  destruct (String.compare k k') eqn:E; cbn; [done| |].
  - exfalso. apply compare_lt in E.
    apply elem_of_cons in Hk as [->|Hk]; [by destruct E|].
    eapply Forall_forall in Hlt; [|exact Hk]. destruct E, Hlt. tauto.
  - f_equal. apply IH; [done|]. apply elem_of_cons in Hk as [->|]; [|done].
    by rewrite compare_refl in E.
Qed.

Lemma assoc_bt_insert k v m k' :
  assoc k' (bt_insert k v m) = if String.eqb k' k then Some v else assoc k' m.
Proof.
  induction m as [|[x y] m IH]; cbn; [done|].
  destruct (String.compare k x) eqn:E; cbn; [|done|].
  - apply String.compare_eq_iff in E as ->. by destruct (String.eqb k' x).
  - rewrite IH. destruct (String.eqb_spec k' x) as [->|]; [|done].
    destruct (String.eqb_spec x k) as [->|]; [|done]. by rewrite compare_refl in E.
Qed.

Lemma assoc_some_key k (m : list (string * V)) : is_Some (assoc k m) <-> k ∈ m.*1.
Proof.
  induction m as [|[x y] m IH]; cbn; [by rewrite elem_of_nil, is_Some_alt|].
  rewrite elem_of_cons. destruct (String.eqb_spec k x) as [->|Hne].
  - split; [by left|by eexists].
  - rewrite IH. split; [by right|by intros []].
Qed.

Lemma bt_min_by_elem f m e : bt_min_by f m = Some e -> e ∈ m.
Proof.
  revert e. induction m as [|x m IH]; intros e; cbn; [done|].
  destruct (bt_min_by f m) as [e'|]; [destruct (_ <? _)%N|]; intros [= <-];
    rewrite elem_of_cons; auto.
Qed.
Lemma bt_min_by_some f m : m <> [] -> is_Some (bt_min_by f m).
Proof. destruct m as [|x m]; [done|]. cbn. destruct (bt_min_by f m) as [e'|]; [|done].
  by destruct (_ <? _)%N. Qed.
Lemma bt_remove_length k (m : list (string * V)) : k ∈ m.*1 -> length (bt_remove k m) < length m.
Proof.
  unfold bt_remove. induction m as [|[x y] m IH]; cbn; [by intros ?%elem_of_nil|].
  intros [->|H]%elem_of_cons.
  - rewrite String.eqb_refl. cbn. clear. induction m as [|e m IH]; cbn; [lia|].
    destruct (negb _); cbn; lia.
  - specialize (IH H). destruct (negb _); cbn; lia.
Qed.
End BTree.
