(* ===== verification/Float.v ===== *)
(** * Numbers with fractions

    The operations on [f64] the program uses, as the floating-point numbers of the
    standard library compute them. *)

From Stdlib Require Import SpecFloat.
From S2P Require Import Prelude.

Local Open Scope N_scope.

(** [f64]: a 53-bit mantissa, rounded to even. *)
Definition f64 : Type := spec_float.
Definition f64_of (n : N) : f64 := binary_normalize 53 1024 (Z.of_N n) 0 false.
Definition f64_div : f64 -> f64 -> f64 := SFdiv 53 1024.
Definition f64_mul : f64 -> f64 -> f64 := SFmul 53 1024.
Definition f64_sub : f64 -> f64 -> f64 := SFsub 53 1024.
Definition f64_add : f64 -> f64 -> f64 := SFadd 53 1024.
(** [f64::min] of numbers. *)
Definition f64_min (x y : f64) : f64 := if SFltb x y then x else y.
(** [f64::mul_add]: of finite numbers the exact product and sum, rounded once. *)
Definition f64_mul_add (x y z : f64) : f64 :=
  let term s m e low := ((if (s : bool) then Z.neg m else Z.pos m) * 2 ^ (e - low))%Z in
  match x, y, z with
  | S754_finite sx mx ex, S754_finite sy my ey, S754_finite sz mz ez =>
      let low := Z.min (ex + ey)%Z ez in
      binary_normalize 53 1024 (term (xorb sx sy) (mx * my)%positive (ex + ey)%Z low + term sz mz ez low)%Z low false
  | _, _, _ => f64_add (f64_mul x y) z
  end.
(** [Duration::as_secs_f64], of nanoseconds. *)
Definition as_secs_f64 (ns : N) : f64 :=
  f64_add (f64_of (ns / 1000000000)) (f64_div (f64_of (ns mod 1000000000)) (f64_of 1000000000)).

(** A third of a second three times is less than one in two roundings and one in one. *)
Example mul_add_rounds_once :
  let third := f64_div (f64_of 1) (f64_of 3) in
  let minus_one := f64_sub (f64_of 0) (f64_of 1) in
  (SFeqb (f64_add (f64_mul third (f64_of 3)) minus_one) (f64_of 0), SFltb (f64_mul_add third (f64_of 3) minus_one) (f64_of 0)) =
  (true, true).
Proof. cbv zeta. vm_refl. Qed.
