(* ===== verification/Ip.v ===== *)
(** * IP addresses and networks

    [std::net] as the program uses it (addresses, their textual forms, socket
    addresses), and the interface of the [ipnetwork] crate: the operations the
    program calls as the class [IpNetworkApi], the documented behaviour its
    theorems rely on as the class [IpNetworkLaws], and [Cidr], a concrete
    network type that satisfies both. *)

From S2P Require Import Prelude.
Local Open Scope N_scope.

(** ** [std::net::IpAddr] *)

(** An address is its 32 or 128 bits, most significant first. *)
Inductive IpAddr : Type :=
| V4 (bits : N)
| V6 (bits : N).

#[global] Instance ip_eq_dec : EqDecision IpAddr.
Proof. solve_decision. Defined.
#[global] Instance ip_countable : Countable IpAddr.
Proof.
  refine (inj_countable' (fun a => match a with V4 b => inl b | V6 b => inr b end)
    (fun s => match s with inl b => V4 b | inr b => V6 b end) _); by intros [].
Defined.

Definition ip_eqb (a b : IpAddr) : bool := bool_decide (a = b).
Definition is_ipv4 (a : IpAddr) : bool := match a with V4 _ => true | V6 _ => false end.
Definition ip_bits (a : IpAddr) : N := match a with V4 b => b | V6 b => b end.
Definition ip_width (a : IpAddr) : N := if is_ipv4 a then 32 else 128.
(** Every value of the Rust type has its bits within the width. *)
Definition ip_wf (a : IpAddr) : Prop := ip_bits a < 2 ^ ip_width a.

(** [u16::to_be_bytes], [octets] and the like: [n] bytes, most significant
    first, and their inverse. *)
Fixpoint be_bytes (n : nat) (v : N) : list N :=
  match n with
  | O => []
  | S n => N.land (N.shiftr v (8 * N.of_nat n)) 255 :: be_bytes n v
  end.
Definition of_be_bytes (l : list N) : N := foldl (fun acc b => acc * 256 + b) 0 l.

Definition v4_octets (bits : N) : list N := be_bytes 4 bits.
Definition v6_octets (bits : N) : list N := be_bytes 16 bits.
Definition of_octets4 (a b c d : N) : IpAddr := V4 (of_be_bytes [a; b; c; d]).
(** The eight 16-bit groups of an IPv6 address. *)
Definition v6_segments (bits : N) : list N :=
  (fun i => N.land (N.shiftr bits (16 * (7 - N.of_nat i))) 65535) <$> seq 0 8.
Definition v6_of_segments (l : list N) : N := foldl (fun acc s => acc * 65536 + s) 0 l.

(** ** Parsing, as [core::net::parser] does it *)

Definition to_digit (radix : N) (c : ascii) : option N :=
  let v :=
    if is_ascii_digit c then Some (byte_of c - 48)
    else if is_ascii_lowercase c then Some (byte_of c - 97 + 10)
    else if is_ascii_uppercase c then Some (byte_of c - 65 + 10)
    else None in
  d ← v; if d <? radix then Some d else None.

(** The longest run of digits and what follows it. *)
Fixpoint span_digits (radix : N) (s : string) : list N * string :=
  match s with
  | EmptyString => ([], s)
  | String c rest =>
      match to_digit radix c with
      | Some d => let '(ds, r) := span_digits radix rest in (d :: ds, r)
      | None => ([], s)
      end
  end.

Definition digits_value (radix : N) (ds : list N) : N :=
  foldl (fun acc d => acc * radix + d) 0 ds.

Definition read_number (radix : N) (max_digits : option nat) (allow_zero_prefix : bool)
    (max : N) (s : string) : option (N * string) :=
  let '(ds, rest) := span_digits radix s in
  let has_leading_zero := match ds with 0 :: _ => true | _ => false end in
  if match max_digits with Some m => (m <? length ds)%nat | None => false end then None
  else if (length ds =? 0)%nat then None
  else if negb allow_zero_prefix && has_leading_zero && (1 <? length ds)%nat then None
  else let v := digits_value radix ds in
       if v <=? max then Some (v, rest) else None.

Definition read_given_char (c : ascii) (s : string) : option string :=
  strip_prefix (String c EmptyString) s.

Definition read_separator {A} (sep : ascii) (index : nat)
    (inner : string -> option (A * string)) (s : string) : option (A * string) :=
  match index with
  | O => inner s
  | S _ => s ← read_given_char sep s; inner s
  end.

Fixpoint read_octets (n index : nat) (s : string) : option (list N * string) :=
  match n with
  | O => Some ([], s)
  | S n =>
      '(d, s) ← read_separator "."%char index (read_number 10 (Some 3%nat) false 255) s;
      '(ds, s) ← read_octets n (S index) s;
      Some (d :: ds, s)
  end.
Definition read_ipv4_addr (s : string) : option (N * string) :=
  '(ds, s) ← read_octets 4 0 s; Some (of_be_bytes ds, s).

(** [read_groups]: [n] slots are left, [index] are filled; the flag says the
    groups ended with an embedded IPv4 address. *)
Fixpoint read_groups (n index : nat) (s : string) : list N * bool * string :=
  match n with
  | O => ([], false, s)
  | S n' =>
      match
        (if (1 <? n)%nat then read_separator ":"%char index read_ipv4_addr s else None)
      with
      | Some (v4, rest) => ([N.shiftr v4 16; N.land v4 65535], true, rest)
      | None =>
          match read_separator ":"%char index (read_number 16 (Some 4%nat) true 65535) s with
          | Some (g, rest) =>
              let '(gs, v4, rest) := read_groups n' (S index) rest in (g :: gs, v4, rest)
          | None => ([], false, s)
          end
      end
  end.

Definition read_ipv6_addr (s : string) : option (N * string) :=
  let '(head, head_ipv4, s) := read_groups 8 0 s in
  if (length head =? 8)%nat then Some (v6_of_segments head, s)
  else if head_ipv4 then None
  else
    s ← read_given_char ":"%char s;
    s ← read_given_char ":"%char s;
    let limit := (8 - (length head + 1))%nat in
    let '(tail, _, s) := read_groups limit 0 s in
    let zeros := replicate (8 - length head - length tail)%nat 0 in
    Some (v6_of_segments (head ++ zeros ++ tail), s).

Definition whole {A} (p : string -> option (A * string)) (s : string) : option A :=
  '(a, rest) ← p s; if str_is_empty rest then Some a else None.

(** [str::parse::<Ipv4Addr>], [::<Ipv6Addr>] and [::<IpAddr>]. *)
Definition parse_ipv4 (s : string) : option N :=
  if (15 <? String.length s)%nat then None else whole read_ipv4_addr s.
Definition parse_ipv6 (s : string) : option N := whole read_ipv6_addr s.
Definition parse_ip (s : string) : option IpAddr :=
  whole (fun s => match read_ipv4_addr s with
                  | Some (b, r) => Some (V4 b, r)
                  | None => '(b, r) ← read_ipv6_addr s; Some (V6 b, r)
                  end) s.

(** [std::net::SocketAddr]; the flow label and the scope of an IPv6 socket
    address are never read by the program. *)
Record SocketAddr : Type := { sa_ip : IpAddr; sa_port : N }.
#[global] Instance sock_eq_dec : EqDecision SocketAddr.
Proof. solve_decision. Defined.

Definition read_port (s : string) : option (N * string) :=
  s ← read_given_char ":"%char s; read_number 10 None true u16_max s.
Definition read_socket_v4 (s : string) : option (SocketAddr * string) :=
  '(a, s) ← read_ipv4_addr s; '(p, s) ← read_port s;
  Some ({| sa_ip := V4 a; sa_port := p |}, s).
Definition read_scope_id (s : string) : option (N * string) :=
  s ← read_given_char "%"%char s; read_number 10 None true u32_max s.
Definition read_socket_v6 (s : string) : option (SocketAddr * string) :=
  s ← read_given_char "["%char s; '(a, s) ← read_ipv6_addr s;
  let s := match read_scope_id s with Some (_, s) => s | None => s end in
  s ← read_given_char "]"%char s; '(p, s) ← read_port s;
  Some ({| sa_ip := V6 a; sa_port := p |}, s).
Definition parse_socket (s : string) : option SocketAddr :=
  whole (fun s => match read_socket_v4 s with Some r => Some r | None => read_socket_v6 s end) s.

(** ** [Display] *)

Definition hex_digit (d : N) : ascii :=
  ascii_of_N (if d <? 10 then 48 + d else 87 + d).
(** Leading zeros go, the last digit stays. *)
Fixpoint drop_zeros (l : list N) : list N :=
  match l with
  | [] => []
  | d :: l' => match l' with [] => l | _ => if d =? 0 then drop_zeros l' else l end
  end.
(** [{:x}] of a 16-bit group: no leading zeros. *)
Definition show_hex16 (v : N) : string :=
  let ds := [N.land (N.shiftr v 12) 15; N.land (N.shiftr v 8) 15;
             N.land (N.shiftr v 4) 15; N.land v 15] in
  chars_string (hex_digit <$> drop_zeros ds).

#[global] Arguments parse_ip : simpl never.
#[global] Arguments parse_socket : simpl never.

Definition show_ipv4 (bits : N) : string := str_join "." (show_N <$> v4_octets bits).

(** Start and length of the first longest run of zero groups. *)
Fixpoint longest_zeros (i : nat) (current longest : nat * nat) (l : list N) : nat * nat :=
  match l with
  | [] => longest
  | 0 :: l =>
      let start := if (current.2 =? 0)%nat then i else current.1 in
      let current := (start, S current.2) in
      longest_zeros (S i) current (if (longest.2 <? current.2)%nat then current else longest) l
  | _ :: l => longest_zeros (S i) (O, O) longest l
  end.

Definition show_ipv6 (bits : N) : string :=
  let segs := v6_segments bits in
  if (N.shiftr bits 32 =? 65535) then "::ffff:" +:+ show_ipv4 (N.land bits u32_max)
  else
    let '(start, len) := longest_zeros 0 (O, O) (O, O) segs in
    if (1 <? len)%nat then
      str_join ":" (show_hex16 <$> take start segs) +:+ "::" +:+
      str_join ":" (show_hex16 <$> drop (start + len) segs)
    else str_join ":" (show_hex16 <$> segs).

Definition show_ip (a : IpAddr) : string :=
  match a with V4 b => show_ipv4 b | V6 b => show_ipv6 b end.
Definition show_socket (a : SocketAddr) : string :=
  match sa_ip a with
  | V4 b => show_ipv4 b +:+ ":" +:+ show_N (sa_port a)
  | V6 b => "[" +:+ show_ipv6 b +:+ "]:" +:+ show_N (sa_port a)
  end.

(** ** The [ipnetwork] crate *)

(** The operations of [ipnetwork::IpNetwork] the program calls. [net_leb] is
    its derived order, the order of a [BTreeSet]. *)
Class IpNetworkApi : Type := {
  IpNetwork : Type;
  net_eq_dec :: EqDecision IpNetwork;
  net_new : IpAddr -> N -> option IpNetwork;
  net_ip : IpNetwork -> IpAddr;
  net_prefix : IpNetwork -> N;
  net_contains : IpNetwork -> IpAddr -> bool;
  net_parse : string -> option IpNetwork;
  net_show : IpNetwork -> string;
  net_leb : IpNetwork -> IpNetwork -> bool;
}.

(** The high [prefix] bits of an address: what the network mask keeps. *)
Definition high_bits (prefix : N) (a : IpAddr) : N :=
  N.shiftr (ip_bits a) (ip_width a - prefix).

(** The crate's documented behaviour. [contains] compares the masked bits of
    two addresses of one family; [new] accepts a prefix up to the family's
    width and keeps the address it was given; [Display] and [FromStr] are
    inverse. *)
Class IpNetworkLaws `{!IpNetworkApi} : Prop := {
  net_new_some a p : p <= ip_width a -> exists n, net_new a p = Some n;
  net_new_none a p : ip_width a < p -> net_new a p = None;
  net_ip_new a p n : net_new a p = Some n -> net_ip n = a;
  net_prefix_new a p n : net_new a p = Some n -> net_prefix n = p;
  net_prefix_le n : net_prefix n <= ip_width (net_ip n);
  net_contains_spec n a :
    net_contains n a =
      Bool.eqb (is_ipv4 (net_ip n)) (is_ipv4 a) &&
      (high_bits (net_prefix n) (net_ip n) =? high_bits (net_prefix n) a);
  net_show_parse n : net_parse (net_show n) = Some n;
  net_leb_total a b : net_leb a b = true \/ net_leb b a = true;
  net_leb_trans a b c : net_leb a b = true -> net_leb b c = true -> net_leb a c = true;
  net_leb_antisym a b : net_leb a b = true -> net_leb b a = true -> a = b;
}.

Section NetworkFacts.
Context {NA : IpNetworkApi} {NL : IpNetworkLaws}.

Definition net_is_ipv4 (n : IpNetwork) : bool := is_ipv4 (net_ip n).

Lemma net_show_inj n m : net_show n = net_show m -> n = m.
Proof.
  intros H. pose proof (net_show_parse n) as Hn. rewrite H, net_show_parse in Hn.
  by injection Hn.
Qed.

Lemma net_contains_family n a :
  net_contains n a = true -> is_ipv4 (net_ip n) = is_ipv4 a.
Proof. rewrite net_contains_spec, andb_true_iff, eqb_true_iff. tauto. Qed.

Lemma net_contains_ip n : net_contains n (net_ip n) = true.
Proof. rewrite net_contains_spec, eqb_reflx, N.eqb_refl. done. Qed.

Lemma ip_width_family a b : is_ipv4 a = is_ipv4 b -> ip_width a = ip_width b.
Proof. unfold ip_width. by intros ->. Qed.

(** Agreeing on more high bits means agreeing on fewer. *)
Lemma high_bits_mono p q a b :
  p <= q -> q <= ip_width a -> is_ipv4 a = is_ipv4 b ->
  high_bits q a = high_bits q b -> high_bits p a = high_bits p b.
Proof.
  intros Hpq Hq Hf. unfold high_bits. rewrite <- (ip_width_family a b Hf).
  set (w := ip_width a) in *. intros H.
  replace (w - p) with ((w - q) + (q - p)) by lia.
  by rewrite <- !N.shiftr_shiftr, H.
Qed.

Lemma net_contains_iff n a :
  net_contains n a = true <->
  is_ipv4 (net_ip n) = is_ipv4 a /\
  high_bits (net_prefix n) (net_ip n) = high_bits (net_prefix n) a.
Proof. by rewrite net_contains_spec, andb_true_iff, eqb_true_iff, N.eqb_eq. Qed.

(** A host network contains its address only. *)
Lemma host_contains a n b :
  net_new a (ip_width a) = Some n -> net_contains n b = true <-> b = a.
Proof.
  intros Hn. rewrite net_contains_iff, (net_ip_new _ _ _ Hn), (net_prefix_new _ _ _ Hn).
  unfold high_bits. split.
  - intros [Hf H]. rewrite <- (ip_width_family a b Hf) in H.
    rewrite N.sub_diag, !N.shiftr_0_r in H. destruct a, b; simpl in *; congruence.
  - intros ->. done.
Qed.
End NetworkFacts.

(** ** A concrete network type

    An address and a prefix within its width. Its text form is one decimal
    number; parsing also reads the usual [address/prefix] notation. *)
Record Cidr : Type := {
  cidr_ip : IpAddr;
  cidr_prefix : N;
  cidr_ok : (cidr_prefix <=? ip_width cidr_ip) = true;
}.

Lemma cidr_eq c d : cidr_ip c = cidr_ip d -> cidr_prefix c = cidr_prefix d -> c = d.
Proof.
  destruct c as [a p H], d as [b q H']; simpl. intros <- <-. f_equal. apply proof_irrel.
Qed.

#[global] Instance cidr_eq_dec : EqDecision Cidr.
Proof.
  intros c d.
  destruct (decide (cidr_ip c = cidr_ip d /\ cidr_prefix c = cidr_prefix d)) as [[]|H].
  - left. by apply cidr_eq.
  - right. by intros ->; destruct H.
Defined.

Definition cidr_new (a : IpAddr) (p : N) : option Cidr :=
  match (p <=? ip_width a) as b return ((p <=? ip_width a) = b -> option Cidr) with
  | true => fun H => Some {| cidr_ip := a; cidr_prefix := p; cidr_ok := H |}
  | false => fun _ => None
  end eq_refl.

Lemma cidr_new_some a p (H : (p <=? ip_width a) = true) :
  cidr_new a p = Some {| cidr_ip := a; cidr_prefix := p; cidr_ok := H |}.
Proof.
  unfold cidr_new. generalize (@eq_refl bool (p <=? ip_width a)).
  generalize (p <=? ip_width a) at 2 3. intros [] E; [|congruence].
  f_equal. by apply cidr_eq.
Qed.

Lemma cidr_new_inv a p c : cidr_new a p = Some c -> cidr_ip c = a /\ cidr_prefix c = p.
Proof.
  destruct (p <=? ip_width a) eqn:E.
  - rewrite (cidr_new_some a p E). by intros [= <-].
  - unfold cidr_new. generalize (@eq_refl bool (p <=? ip_width a)).
    generalize (p <=? ip_width a) at 2 3. intros [] E'; congruence.
Qed.

Definition cidr_contains (c : Cidr) (a : IpAddr) : bool :=
  Bool.eqb (is_ipv4 (cidr_ip c)) (is_ipv4 a) &&
  (high_bits (cidr_prefix c) (cidr_ip c) =? high_bits (cidr_prefix c) a).

Definition cidr_code (c : Cidr) : N :=
  (ip_bits (cidr_ip c) * 256 + cidr_prefix c) * 2 + (if is_ipv4 (cidr_ip c) then 0 else 1).
Definition cidr_decode (n : N) : option Cidr :=
  let bits := n / 2 / 256 in
  cidr_new (if n mod 2 =? 0 then V4 bits else V6 bits) ((n / 2) mod 256).
Definition cidr_show (c : Cidr) : string := show_N (cidr_code c).
(** A decimal reader without a width. *)
Fixpoint read_decimal (acc : N) (s : string) : option N :=
  match s with
  | EmptyString => Some acc
  | String c s => d ← digit_value c; read_decimal (acc * 10 + d) s
  end.
Definition cidr_parse (s : string) : option Cidr :=
  match split_once "/"%char s with
  | Some (a, p) => a ← parse_ip a; p ← parse_unsigned u8_max p; cidr_new a p
  | None => n ← read_decimal 0 s; cidr_decode n
  end.
Definition cidr_leb (c d : Cidr) : bool := cidr_code c <=? cidr_code d.

Lemma read_decimal_pretty_go n s :
  read_decimal 0 (pretty_N_go n s) = read_decimal n s /\
  (split_once "/"%char s = None -> split_once "/"%char (pretty_N_go n s) = None).
Proof.
  revert s. induction (N.lt_wf_0 n) as [n _ IH]; intros s.
  destruct (decide (n = 0)) as [->|Hpos]; [done|].
  rewrite pretty_N_go_step by lia.
  destruct (IH (n `div` 10) ltac:(apply N.div_lt; lia)
              (String (pretty_N_char (n `mod` 10)) s)) as [-> H2].
  pose proof (digit_value_pretty (n `mod` 10) ltac:(apply N.mod_lt; lia)) as Hd.
  split.
  - cbn [read_decimal]. rewrite Hd. cbn [mbind option_bind]. f_equal.
    rewrite N.mul_comm. symmetry. apply N.div_mod. lia.
  - intros Hs. apply H2. cbn [split_once].
    assert (char_eqb (pretty_N_char (n `mod` 10)) "/" = false) as ->.
    { unfold char_eqb. destruct (Ascii.eqb_spec (pretty_N_char (n `mod` 10)) "/") as [E|]; [|done].
      by rewrite E in Hd. }
    by rewrite Hs.
Qed.

Lemma read_decimal_show n :
  read_decimal 0 (show_N n) = Some n /\ split_once "/"%char (show_N n) = None.
Proof.
  unfold show_N, pretty, pretty_N. destruct (decide (n = 0)) as [->|]; [done|].
  destruct (read_decimal_pretty_go n "") as [-> H]. auto.
Qed.

Lemma cidr_decode_code c : cidr_decode (cidr_code c) = Some c.
Proof.
  destruct c as [a p H]. unfold cidr_decode, cidr_code; cbn [cidr_ip cidr_prefix].
  assert (p < 256) as Hp.
  { apply N.leb_le in H. unfold ip_width in H. destruct (is_ipv4 a); lia. }
  set (f := if is_ipv4 a then 0 else 1). assert (f < 2) as Hf by (subst f; destruct (is_ipv4 a); lia).
  replace (((ip_bits a * 256 + p) * 2 + f) / 2) with (ip_bits a * 256 + p)
    by (apply (N.div_unique _ _ _ f); lia).
  replace ((ip_bits a * 256 + p) / 256) with (ip_bits a)
    by (apply (N.div_unique _ _ _ p); lia).
  replace ((ip_bits a * 256 + p) mod 256) with p
    by (apply (N.mod_unique _ _ (ip_bits a)); lia).
  replace (((ip_bits a * 256 + p) * 2 + f) mod 2) with f
    by (apply (N.mod_unique _ _ (ip_bits a * 256 + p)); lia).
  replace (if f =? 0 then V4 (ip_bits a) else V6 (ip_bits a)) with a
    by (subst f; by destruct a).
  by rewrite (cidr_new_some a p H).
Qed.

Definition cidr_api : IpNetworkApi := {|
  IpNetwork := Cidr;
  net_new := cidr_new;
  net_ip := cidr_ip;
  net_prefix := cidr_prefix;
  net_contains := cidr_contains;
  net_parse := cidr_parse;
  net_show := cidr_show;
  net_leb := cidr_leb;
|}.

Lemma cidr_laws : @IpNetworkLaws cidr_api.
Proof.
  split; cbn.
  - intros a p H%N.leb_le. by eexists; apply (cidr_new_some a p H).
  - intros a p H. destruct (cidr_new a p) as [c|] eqn:E; [|done].
    apply cidr_new_inv in E as [E1 E2]. pose proof (cidr_ok c) as Hc. apply N.leb_le in Hc.
    subst. lia.
  - intros a p n H. by apply cidr_new_inv in H as [].
  - intros a p n H. by apply cidr_new_inv in H as [].
  - intros n. apply N.leb_le, cidr_ok.
  - done.
  - intros n. unfold cidr_parse, cidr_show. destruct (read_decimal_show (cidr_code n)) as [H1 H2].
    rewrite H2, H1. apply cidr_decode_code.
  - intros a b. unfold cidr_leb. rewrite !N.leb_le. lia.
  - intros a b c. unfold cidr_leb. rewrite !N.leb_le. lia.
  - intros a b. unfold cidr_leb. rewrite !N.leb_le. intros H1 H2.
    assert (cidr_code a = cidr_code b) as E by lia.
    pose proof (cidr_decode_code a) as Ha. rewrite E, cidr_decode_code in Ha. by injection Ha.
Qed.
