(* ===== verification/Strings.v ===== *)
(** * Facts on strings

    Lemmas on the string functions of [Prelude] that parsers of names, paths and
    addresses share: prefixes and suffixes, splitting and joining, letter case,
    and the characters of printed numbers. *)

From S2P Require Import Prelude Ip.

(** Decides a closed statement about one character by its 256 cases. *)
Ltac by_char c := destruct c as [[] [] [] [] [] [] [] []]; vm_compute; try done; try (by intros).

Lemma string_app_nil_r (s : string) : s +:+ "" = s.
Proof. induction s as [|c s IH]; [done|]. change (String c (s +:+ "") = String c s). by rewrite IH. Qed.

Lemma string_chars_app s t : string_chars (s +:+ t) = string_chars s ++ string_chars t.
Proof.
  induction s as [|c s IH]; [done|].
  change (c :: string_chars (s +:+ t) = c :: (string_chars s ++ string_chars t)). by rewrite IH.
Qed.
Lemma chars_string_app l k : chars_string (l ++ k) = chars_string l +:+ chars_string k.
Proof.
  rewrite <- (chars_string_chars (chars_string l +:+ chars_string k)).
  by rewrite string_chars_app, !string_chars_string.
Qed.
Lemma length_string_chars s : length (string_chars s) = String.length s.
Proof. induction s as [|c s IH]; [done|]. cbn. by rewrite IH. Qed.
Lemma string_length_app s t : String.length (s +:+ t) = (String.length s + String.length t)%nat.
Proof.
  induction s as [|c s IH]; [done|].
  change (S (String.length (s +:+ t)) = S (String.length s + String.length t)). by rewrite IH.
Qed.

Lemma string_app_inv_tail (a b c : string) : a +:+ c = b +:+ c -> a = b.
Proof.
  intros H. apply (f_equal string_chars) in H. rewrite !string_chars_app in H.
  apply app_inv_tail in H. by rewrite <- (chars_string_chars a), H, chars_string_chars.
Qed.

Lemma str_all_app p s t : str_all p (s +:+ t) = str_all p s && str_all p t.
Proof.
  induction s as [|c s IH]; [done|].
  change (p c && str_all p (s +:+ t) = p c && str_all p s && str_all p t). by rewrite IH, andb_assoc.
Qed.
Lemma str_all_impl (p q : ascii -> bool) s :
  (forall c, p c = true -> q c = true) -> str_all p s = true -> str_all q s = true.
Proof.
  intros H. induction s as [|c s IH]; [done|]. cbn. rewrite !andb_true_iff. intros [Hc Hs].
  split; [by apply H|by apply IH].
Qed.
Lemma str_any_app p s t : str_any p (s +:+ t) = str_any p s || str_any p t.
Proof.
  induction s as [|c s IH]; [done|].
  change (p c || str_any p (s +:+ t) = p c || str_any p s || str_any p t). by rewrite IH, orb_assoc.
Qed.
Lemma str_all_not_any (p q : ascii -> bool) s :
  (forall c, p c = true -> q c = false) -> str_all p s = true -> str_any q s = false.
Proof.
  intros H. induction s as [|c s IH]; [done|]. cbn. rewrite andb_true_iff. intros [Hc Hs].
  by rewrite (H c Hc), IH.
Qed.

(** ** Prefixes and suffixes *)

Lemma str_rev_app s t : str_rev (s +:+ t) = str_rev t +:+ str_rev s.
Proof. unfold str_rev. by rewrite string_chars_app, rev_app_distr, chars_string_app. Qed.

Lemma strip_suffix_some p s r : strip_suffix p s = Some r <-> s = r +:+ p.
Proof.
  unfold strip_suffix. rewrite fmap_Some. split.
  - intros (x & Hx & ->). apply strip_prefix_some in Hx.
    rewrite <- (str_rev_involutive s), Hx, str_rev_app, str_rev_involutive. done.
  - intros ->. exists (str_rev r). rewrite str_rev_app. split; [apply strip_prefix_app|].
    by rewrite str_rev_involutive.
Qed.
Lemma strip_suffix_app s p : strip_suffix p (s +:+ p) = Some s.
Proof. by apply strip_suffix_some. Qed.

(** ** Splitting *)

Lemma char_eqb_spec c d : char_eqb c d = true <-> c = d.
Proof. apply Ascii.eqb_eq. Qed.
Lemma char_eqb_refl c : char_eqb c c = true.
Proof. by apply char_eqb_spec. Qed.

Lemma str_split_cons sep s : exists w ws, str_split sep s = w :: ws.
Proof.
  induction s as [|c s (w & ws & IH)]; [by exists "", []|]. cbn.
  destruct (char_eqb c sep); [by eexists _, _|]. rewrite IH. by eexists _, _.
Qed.

Lemma str_split_app sep s t :
  str_split sep (s +:+ String sep t) = str_split sep s ++ str_split sep t.
Proof.
  induction s as [|c s IH].
  - change (str_split sep (String sep t) = [""] ++ str_split sep t).
    cbn [str_split]. by rewrite char_eqb_refl.
  - change (str_split sep (String c (s +:+ String sep t)) = str_split sep (String c s) ++ str_split sep t).
    cbn [str_split]. rewrite IH. destruct (char_eqb c sep); [done|].
    destruct (str_split_cons sep s) as (w & ws & ->). done.
Qed.

(** The pieces joined again are the string. *)
Lemma str_join_cons sep w w' ws : str_join sep (w :: w' :: ws) = w +:+ sep +:+ str_join sep (w' :: ws).
Proof. done. Qed.
Lemma str_join_split sep s : str_join (String sep "") (str_split sep s) = s.
Proof.
  induction s as [|c s IH]; [done|]. cbn [str_split].
  destruct (str_split_cons sep s) as (w & ws & E). rewrite E in IH |- *.
  destruct (char_eqb c sep) eqn:Ec.
  - apply char_eqb_spec in Ec as ->. rewrite str_join_cons, IH. done.
  - destruct ws as [|w' ws]; [cbn in *; by rewrite IH|].
    rewrite str_join_cons in *. rewrite <- IH. done.
Qed.

Lemma str_split_none sep s : str_any (char_eqb sep) s = false -> str_split sep s = [s].
Proof.
  induction s as [|c s IH]; [done|]. cbn [str_any]. rewrite orb_false_iff. intros [Hc Hs].
  cbn [str_split]. rewrite (IH Hs). unfold char_eqb in *. by rewrite Ascii.eqb_sym, Hc.
Qed.

Lemma str_split_pieces sep s w : w ∈ str_split sep s -> str_any (char_eqb sep) w = false.
Proof.
  revert w. induction s as [|c s IH]; intros w; cbn [str_split].
  - by intros ->%list_elem_of_singleton.
  - destruct (str_split_cons sep s) as (v & vs & E). rewrite E in *.
    destruct (char_eqb c sep) eqn:Ec; rewrite elem_of_cons.
    + intros [->|Hw]; [done|]. by apply IH.
    + intros [->|Hw]; [|by apply IH; right]. cbn. rewrite (IH v) by left.
      unfold char_eqb in *. by rewrite Ascii.eqb_sym, Ec.
Qed.

Lemma str_all_split (p : ascii -> bool) sep s :
  forallb (str_all p) (str_split sep s) = true ->
  str_all (fun c => p c || char_eqb c sep) s = true.
Proof.
  induction s as [|c s IH]; [done|]. cbn [str_split str_all].
  destruct (str_split_cons sep s) as (w & ws & E). rewrite E in *.
  destruct (char_eqb c sep) eqn:Ec; cbn [forallb str_all].
  - rewrite orb_true_r. exact IH.
  - rewrite !andb_true_iff. intros [[Hc Hw] Hws]. rewrite Hc. split; [done|]. apply IH. cbn. by rewrite Hw.
Qed.

Lemma split_once_app sep a b :
  str_any (char_eqb sep) a = false -> split_once sep (a +:+ String sep b) = Some (a, b).
Proof.
  induction a as [|c a IH]; cbn [str_any].
  - intros _. change (split_once sep (String sep b) = Some ("", b)).
    cbn [split_once]. by rewrite char_eqb_refl.
  - rewrite orb_false_iff. intros [Hc Ha].
    change (split_once sep (String c (a +:+ String sep b)) = Some (String c a, b)). cbn [split_once].
    unfold char_eqb in *. rewrite Ascii.eqb_sym, Hc. by rewrite (IH Ha).
Qed.
Lemma split_once_none sep s : str_any (char_eqb sep) s = false -> split_once sep s = None.
Proof.
  induction s as [|c s IH]; [done|]. cbn. rewrite orb_false_iff. intros [Hc Hs].
  unfold char_eqb in *. by rewrite Ascii.eqb_sym, Hc, IH.
Qed.
Lemma split_once_some sep s a b :
  split_once sep s = Some (a, b) -> s = a +:+ String sep b /\ str_any (char_eqb sep) a = false.
Proof.
  revert a. induction s as [|c s IH]; intros a; [done|]. cbn [split_once].
  destruct (char_eqb c sep) eqn:Ec.
  - intros [= <- <-]. apply char_eqb_spec in Ec as ->. done.
  - intros ([x y] & Hs & [= <- <-])%bind_Some. destruct (IH _ Hs) as [-> Hx]. split; [done|].
    cbn. rewrite Hx. unfold char_eqb in *. by rewrite Ascii.eqb_sym, Ec.
Qed.

(** ** Letter case *)

Lemma to_ascii_lowercase_app s t :
  to_ascii_lowercase (s +:+ t) = to_ascii_lowercase s +:+ to_ascii_lowercase t.
Proof.
  induction s as [|c s IH]; [done|].
  change (String (char_to_ascii_lowercase c) (to_ascii_lowercase (s +:+ t)) =
          String (char_to_ascii_lowercase c) (to_ascii_lowercase s +:+ to_ascii_lowercase t)).
  by rewrite IH.
Qed.
(** A property of the lowered characters, pulled back to the characters. *)
Lemma str_all_lowercase (p q : ascii -> bool) s :
  (forall c, p (char_to_ascii_lowercase c) = true -> q c = true) ->
  str_all p (to_ascii_lowercase s) = true -> str_all q s = true.
Proof.
  intros H. induction s as [|c s IH]; [done|]. cbn. rewrite !andb_true_iff. intros [Hc Hs].
  split; [by apply H|by apply IH].
Qed.
Lemma to_ascii_lowercase_fixed p s :
  (forall c, p c = true -> char_to_ascii_lowercase c = c) ->
  str_all p s = true -> to_ascii_lowercase s = s.
Proof.
  intros H. induction s as [|c s IH]; [done|]. cbn. rewrite andb_true_iff. intros [Hc Hs].
  by rewrite (H c Hc), IH.
Qed.

(** ** Numbers *)

Lemma parse_digits_all max acc s n : parse_digits max acc s = Some n -> str_all is_ascii_digit s = true.
Proof.
  revert acc. induction s as [|c s IH]; intros acc; [done|]. cbn [parse_digits str_all].
  unfold digit_value. destruct (is_ascii_digit c); [|done]. cbn [mbind option_bind].
  destruct (_ <=? _)%N; [apply IH|done].
Qed.
Lemma parse_unsigned_chars max s n :
  parse_unsigned max s = Some n ->
  s <> "" /\ str_all (fun c => is_ascii_digit c || char_eqb c "+") s = true.
Proof.
  destruct s as [|c s]; [done|]. unfold parse_unsigned. split; [done|].
  assert (Hd : forall d, is_ascii_digit d = true -> is_ascii_digit d || char_eqb d "+" = true)
    by (intros d ->; done).
  destruct (char_eqb c "+") eqn:E.
  - destruct (str_is_empty s); [done|]. apply parse_digits_all in H.
    cbn. rewrite E, orb_true_r. by eapply str_all_impl.
  - apply parse_digits_all in H. by eapply str_all_impl.
Qed.

Lemma pretty_N_char_digit d : (d < 10)%N -> is_ascii_digit (pretty_N_char d) = true.
Proof.
  intros H. pose proof (digit_value_pretty d H) as E. unfold digit_value in E.
  by destruct (is_ascii_digit (pretty_N_char d)).
Qed.
Lemma show_N_digits n : str_all is_ascii_digit (show_N n) = true.
Proof.
  assert (Hgo : forall s, str_all is_ascii_digit s = true ->
            str_all is_ascii_digit (pretty_N_go n s) = true).
  { induction (N.lt_wf_0 n) as [n _ IH]. intros s Hs.
    destruct (decide (n = 0)%N) as [->|Hn]; [done|].
    rewrite pretty_N_go_step by lia. apply IH; [apply N.div_lt; lia|].
    cbn. rewrite Hs, pretty_N_char_digit; [done|]. apply N.mod_lt. lia. }
  unfold show_N, pretty, pretty_N. destruct (decide _); [done|]. by apply Hgo.
Qed.

Lemma strip_char_app c s t :
  s <> "" -> strip_prefix (String c "") s = None -> strip_prefix (String c "") (s +:+ t) = None.
Proof.
  destruct s as [|d s]; [done|]. intros _.
  change (strip_prefix (String c "") (String d s +:+ t)) with
    (if char_eqb c d then Some (s +:+ t) else None).
  change (strip_prefix (String c "") (String d s)) with (if char_eqb c d then Some s else None).
  by destruct (char_eqb c d).
Qed.

(** * Trimming

    What [str::trim] leaves, and lists of trimmed pieces joined and split again, as
    header values and cookies are. *)

Local Open Scope nat_scope.

(** No pattern is a prefix. *)
Definition stuck (pats : list string) (s : string) : Prop := first_some (fun p => strip_prefix p s) pats = None.
Definition nonempty (pats : list string) : Prop := Forall (fun p => p <> "") pats.

Lemma first_prefix_inv {A B} (f : A -> option B) l b : first_some f l = Some b -> exists a, a ∈ l /\ f a = Some b.
Proof.
  induction l as [|a l IH]; cbn; [done|]. destruct (f a) as [b'|] eqn:E.
  - intros [= ->]. exists a. split; [by left|done].
  - intros (x & Hx & Hf)%IH. exists x. split; [by right|done].
Qed.
Lemma first_prefix_none {A B} (f : A -> option B) l : first_some f l = None <-> forall a, a ∈ l -> f a = None.
Proof.
  induction l as [|a l IH]; cbn.
  - split; [|done]. intros _ a Ha. by apply not_elem_of_nil in Ha.
  - destruct (f a) as [b|] eqn:E.
    + split; [done|]. intros H. specialize (H a). rewrite E in H. discriminate H. by left.
    + rewrite IH. split; [intros H x [->|Hx]%elem_of_cons; auto|]. intros H x Hx. apply H. by right.
Qed.
Lemma strip_prefix_shorter p s r : p <> "" -> strip_prefix p s = Some r -> String.length r < String.length s.
Proof.
  intros Hp ->%strip_prefix_some. rewrite string_length_app. destruct p; [done|]. cbn. lia.
Qed.

Lemma trim_start_go_stuck pats n s :
  nonempty pats -> String.length s <= n -> stuck pats (trim_start_go pats n s).
Proof.
  intros Hp. revert s. induction n as [|n IH]; intros s Hn; cbn [trim_start_go].
  - destruct s; [|cbn in Hn; lia]. apply first_prefix_none. intros p Hin. unfold nonempty in Hp.
    rewrite Forall_forall in Hp. specialize (Hp p Hin). by destruct p.
  - destruct (first_some _ pats) as [r|] eqn:E; [|exact E]. apply IH.
    apply first_prefix_inv in E as (p & Hin & Hr). unfold nonempty in Hp. rewrite Forall_forall in Hp.
    pose proof (strip_prefix_shorter _ _ _ (Hp p Hin) Hr). lia.
Qed.
Lemma trim_start_go_fixed pats n s : stuck pats s -> trim_start_go pats n s = s.
Proof. unfold stuck. destruct n as [|n]; cbn; [done|]. by intros ->. Qed.
Lemma trim_start_go_suffix pats n s : exists p, s = p +:+ trim_start_go pats n s.
Proof.
  revert s. induction n as [|n IH]; intros s; cbn [trim_start_go]; [by exists ""|].
  destruct (first_some _ pats) as [r|] eqn:E; [|by exists ""].
  apply first_prefix_inv in E as (p & _ & ->%strip_prefix_some). destruct (IH r) as [q Hq].
  exists (p +:+ q). by rewrite string_app_assoc, <- Hq.
Qed.
(** A prefix of a stuck string is stuck. *)
Lemma stuck_prefix pats s t : stuck pats (s +:+ t) -> stuck pats s.
Proof.
  unfold stuck. rewrite !first_prefix_none. intros H p Hin. specialize (H p Hin).
  destruct (strip_prefix p s) as [r|] eqn:E; [|done]. apply strip_prefix_some in E as ->.
  by rewrite string_app_assoc, strip_prefix_app in H.
Qed.

Lemma white_nonempty : nonempty white_space /\ nonempty (str_rev <$> white_space).
Proof. split; repeat constructor; discriminate. Qed.

(** What is left neither starts nor ends with white space. *)
Definition trimmed (s : string) : Prop := stuck white_space s /\ stuck (str_rev <$> white_space) (str_rev s).
Lemma str_trim_trimmed s : trimmed (str_trim s).
Proof.
  unfold str_trim, trim_end_of, trim_start_of. set (t := trim_start_go white_space _ s).
  assert (Ht : stuck white_space t) by (apply trim_start_go_stuck; [apply white_nonempty|done]).
  split.
  - destruct (trim_start_go_suffix (str_rev <$> white_space) (String.length (str_rev t)) (str_rev t)) as [p Hp].
    apply (f_equal str_rev) in Hp. rewrite str_rev_involutive, str_rev_app in Hp. rewrite Hp in Ht.
    by eapply stuck_prefix.
  - rewrite str_rev_involutive. apply trim_start_go_stuck; [apply white_nonempty|done].
Qed.
Lemma trimmed_fixed s : trimmed s -> str_trim s = s.
Proof.
  intros [Hs He]. unfold str_trim, trim_end_of, trim_start_of. rewrite (trim_start_go_fixed white_space) by done.
  rewrite trim_start_go_fixed by done. apply str_rev_involutive.
Qed.
Lemma str_trim_idem s : str_trim (str_trim s) = str_trim s.
Proof. apply trimmed_fixed, str_trim_trimmed. Qed.
Lemma str_trim_space s : str_trim (" " +:+ s) = str_trim s.
Proof. reflexivity. Qed.

(** Trimming takes characters away only. *)
Lemma str_trim_part s : exists a b, s = a +:+ str_trim s +:+ b.
Proof.
  unfold str_trim, trim_end_of, trim_start_of. set (t := trim_start_go white_space _ s).
  destruct (trim_start_go_suffix white_space (String.length s) s) as [a Ha]. fold t in Ha.
  destruct (trim_start_go_suffix (str_rev <$> white_space) (String.length (str_rev t)) (str_rev t)) as [b Hb].
  apply (f_equal str_rev) in Hb. rewrite str_rev_involutive, str_rev_app in Hb.
  exists a, (str_rev b). by rewrite <- Hb.
Qed.
Lemma str_all_trim p s : str_all p s = true -> str_all p (str_trim s) = true.
Proof.
  destruct (str_trim_part s) as (a & b & H). rewrite H at 1. rewrite !str_all_app, !andb_true_iff. tauto.
Qed.
Lemma str_any_trim p s : str_any p s = false -> str_any p (str_trim s) = false.
Proof.
  destruct (str_trim_part s) as (a & b & H). rewrite H at 1. rewrite !str_any_app, !orb_false_iff. tauto.
Qed.
Lemma str_all_pieces p sep s w : str_all p s = true -> w ∈ str_split sep s -> str_all p w = true.
Proof.
  revert w. induction s as [|c s IH]; intros w; cbn [str_split].
  - by intros _ ->%list_elem_of_singleton.
  - cbn [str_all]. rewrite andb_true_iff. intros [Hc Hs].
    destruct (str_split_cons sep s) as (v & vs & E). rewrite E in *.
    destruct (char_eqb c sep); rewrite elem_of_cons.
    + intros [->|Hw]; [done|]. by apply IH.
    + intros [->|Hw]; [|by apply IH; [|right]]. cbn [str_all]. rewrite Hc. by rewrite IH by (done || by left).
Qed.

(** Pieces without the separator, joined by it and a space, come back by splitting
    and trimming. *)
Lemma split_join_trim sep l :
  char_eqb " " sep = false -> l <> [] -> Forall (fun s => str_any (char_eqb sep) s = false /\ str_trim s = s) l ->
  str_trim <$> str_split sep (str_join (String sep " ") l) = l.
Proof.
  intros Hsp Hne Hl. induction Hl as [|s l [Hs Ht] Hl IH]; [done|]. clear Hne.
  destruct l as [|s' l]; [cbn [str_join]; rewrite str_split_none, fmap_cons, Ht by done; done|].
  rewrite str_join_cons. change (s +:+ String sep " " +:+ ?j) with (s +:+ String sep (String " " j)).
  rewrite str_split_app, str_split_none by done. cbn [app]. rewrite fmap_cons, Ht. f_equal.
  specialize (IH ltac:(done)). revert IH. set (j := str_join _ _). cbn [str_split]. rewrite Hsp.
  destruct (str_split_cons sep j) as (w & ws & ->). rewrite !fmap_cons. intros <-. f_equal.
Qed.
Lemma split_join sep l :
  l <> [] -> Forall (fun s => str_any (char_eqb sep) s = false) l -> str_split sep (str_join (String sep "") l) = l.
Proof.
  intros Hne Hl. induction Hl as [|s l Hs Hl IH]; [done|]. clear Hne.
  destruct l as [|s' l]; [by apply str_split_none|].
  rewrite str_join_cons. change (s +:+ String sep "" +:+ ?j) with (s +:+ String sep j).
  rewrite str_split_app, str_split_none by done. by rewrite IH.
Qed.
