(* ===== verification/Bytes.v ===== *)
(** * Bytes

    Arrays of bytes as lists of numbers below 256: the conversions of machine
    integers, 32-bit arithmetic, and the lemmas that relate a big-endian array
    to the number it spells. Used by the codecs and the byte readers. *)

From S2P Require Import Prelude Ip.

Local Open Scope N_scope.

Definition is_byte (b : N) : Prop := b < 256.
#[global] Arguments is_byte _ /.
Notation bytes l := (Forall is_byte l).

(** [to_le_bytes], [from_le_bytes] and [as_bytes]. *)
Fixpoint le_bytes (n : nat) (v : N) : list N :=
  match n with O => [] | S n => v mod 256 :: le_bytes n (v / 256) end.
Definition string_bytes (s : string) : list N := byte_of <$> string_chars s.
Fixpoint of_le_bytes (l : list N) : N :=
  match l with [] => 0 | b :: l => b + 256 * of_le_bytes l end.

(** 32-bit operations. [wrapping_add] is the sum modulo the width; a left shift
    drops the bits that leave the word. *)
Definition wrap32 (x : N) : N := x mod 2 ^ 32.
Definition add32 (x y : N) : N := wrap32 (x + y).
Definition shl32 (x k : N) : N := wrap32 (N.shiftl x k).
Definition not32 (x : N) : N := N.ldiff (2 ^ 32 - 1) x.
Definition rotate_right (x k : N) : N := N.lor (N.shiftr x k) (shl32 x (32 - k)).

(** [u8::leading_zeros]. *)
Definition leading_zeros8 (b : N) : N := 8 - N.size b.

(** ** Lemmas *)

Lemma land_255 x : N.land x 255 = x mod 256.
Proof. exact (N.land_ones x 8). Qed.

Lemma be_bytes_S n v : be_bytes (S n) v = (v / 256 ^ N.of_nat n) mod 256 :: be_bytes n v.
Proof.
  cbn [be_bytes]. rewrite land_255, N.shiftr_div_pow2. do 3 f_equal.
  rewrite N.pow_mul_r. done.
Qed.

Lemma be_bytes_length n v : length (be_bytes n v) = n.
Proof. induction n as [|n IH]; [done|]. cbn. by rewrite IH. Qed.

Lemma be_bytes_bytes n v : bytes (be_bytes n v).
Proof.
  induction n as [|n IH]; [constructor|]. rewrite be_bytes_S. constructor; [|done].
  apply N.mod_lt. done.
Qed.

Lemma foldl_be l acc :
  foldl (fun acc b => acc * 256 + b) acc l = acc * 256 ^ N.of_nat (length l) + of_be_bytes l.
Proof.
  unfold of_be_bytes. revert acc. induction l as [|b l IH]; intros acc; cbn [foldl length].
  - cbn. lia.
  - rewrite IH, (IH (0 * 256 + b)). rewrite Nat2N.inj_succ, N.pow_succ_r'. lia.
Qed.

Lemma of_be_bytes_cons b l : of_be_bytes (b :: l) = b * 256 ^ N.of_nat (length l) + of_be_bytes l.
Proof. unfold of_be_bytes. cbn [foldl]. by rewrite foldl_be. Qed.

Lemma of_be_bytes_lt l : bytes l -> of_be_bytes l < 256 ^ N.of_nat (length l).
Proof.
  induction 1 as [|b l Hb Hl IH]; [done|]. rewrite of_be_bytes_cons. cbn [length].
  rewrite Nat2N.inj_succ, N.pow_succ_r'. cbn in Hb. nia.
Qed.

(** A number is read back from its bytes, modulo the width. *)
Lemma of_be_bytes_be n v : of_be_bytes (be_bytes n v) = v mod 256 ^ N.of_nat n.
Proof.
  induction n as [|n IH]; [by rewrite N.mod_1_r|].
  rewrite be_bytes_S, of_be_bytes_cons, be_bytes_length, IH, Nat2N.inj_succ, N.pow_succ_r'.
  rewrite (N.mul_comm 256), N.Div0.mod_mul_r by (try apply N.pow_nonzero; done). lia.
Qed.

Lemma be_bytes_id n v : v < 256 ^ N.of_nat n -> of_be_bytes (be_bytes n v) = v.
Proof. intros H. by rewrite of_be_bytes_be, N.mod_small. Qed.

Lemma be_bytes_inj n v w :
  v < 256 ^ N.of_nat n -> w < 256 ^ N.of_nat n -> be_bytes n v = be_bytes n w -> v = w.
Proof. intros Hv Hw H. rewrite <- (be_bytes_id n v), <- (be_bytes_id n w) by done. by rewrite H. Qed.

Lemma be_bytes_mod n v : be_bytes n (v mod 256 ^ N.of_nat n) = be_bytes n v.
Proof.
  enough (forall m, (n <= m)%nat -> be_bytes n (v mod 256 ^ N.of_nat m) = be_bytes n v) by auto.
  induction n as [|n IH]; intros m Hm; [done|].
  rewrite !be_bytes_S, IH by lia. f_equal.
  replace (256 ^ N.of_nat m) with (256 ^ N.of_nat n * (256 * 256 ^ N.of_nat (m - S n))).
  - rewrite N.Div0.mod_mul_r, N.mul_comm, N.div_add by (apply N.pow_nonzero; done).
    rewrite N.div_small by (apply N.mod_lt, N.pow_nonzero; done). rewrite N.add_0_l.
    rewrite N.Div0.mod_mul_r, N.Div0.add_mod, (N.mul_comm 256), N.Div0.mod_mul.
    by rewrite N.add_0_r, !N.Div0.mod_mod.
  - rewrite <- N.pow_succ_r', <- N.pow_add_r. f_equal. lia.
Qed.

Lemma of_be_bytes_inv l : bytes l -> be_bytes (length l) (of_be_bytes l) = l.
Proof.
  induction 1 as [|b l Hb Hl IH]; [done|]. cbn [length]. rewrite be_bytes_S.
  pose proof (of_be_bytes_lt l Hl) as Hlt. rewrite of_be_bytes_cons. f_equal.
  - rewrite N.div_add_l by (apply N.pow_nonzero; done). rewrite N.div_small by done.
    rewrite N.add_0_r, N.mod_small; done.
  - rewrite <- be_bytes_mod, N.add_comm, N.Div0.mod_add, N.mod_small by done. exact IH.
Qed.

Lemma of_be_bytes_inj l k :
  bytes l -> bytes k -> length l = length k -> of_be_bytes l = of_be_bytes k -> l = k.
Proof.
  intros Hl Hk Hlen H. rewrite <- (of_be_bytes_inv l), <- (of_be_bytes_inv k) by done. congruence.
Qed.

Lemma wrap32_lt x : wrap32 x < 2 ^ 32.
Proof. apply N.mod_lt. done. Qed.

Lemma lxor_lt n x y : x < 2 ^ n -> y < 2 ^ n -> N.lxor x y < 2 ^ n.
Proof.
  intros Hx Hy. destruct (N.eq_dec (N.lxor x y) 0) as [->|E]; [by apply N.neq_0_lt_0, N.pow_nonzero|].
  apply N.log2_lt_pow2; [lia|].
  assert (Hlog : forall z, z < 2 ^ n -> n <> 0 -> N.log2 z < n).
  { intros z Hz Hn. destruct (N.eq_dec z 0) as [->|]; [cbn; lia|]. apply N.log2_lt_pow2; lia. }
  assert (n <> 0).
  { intros ->. cbn in Hx, Hy. assert (x = 0) as -> by lia. assert (y = 0) as -> by lia. done. }
  pose proof (N.log2_lxor x y). pose proof (Hlog x). pose proof (Hlog y). lia.
Qed.

Lemma lxor_byte x y : is_byte x -> is_byte y -> is_byte (N.lxor x y).
Proof. exact (lxor_lt 8 x y). Qed.

Lemma shiftr_lt x k w : x < 2 ^ (w + k) -> N.shiftr x k < 2 ^ w.
Proof.
  intros H. rewrite N.shiftr_div_pow2. apply N.Div0.div_lt_upper_bound.
  by rewrite <- N.pow_add_r, N.add_comm.
Qed.

(** The leading zeros of a byte say how small it is. *)
Lemma leading_zeros8_spec b k : is_byte b -> k <= 8 -> (k <= leading_zeros8 b <-> b < 2 ^ (8 - k)).
Proof.
  intros Hb Hk. unfold leading_zeros8.
  assert (Hs : N.size b <= 8).
  { destruct (N.eq_dec b 0) as [->|E]; [cbn; lia|]. rewrite N.size_log2 by done.
    enough (N.log2 b < 8) by lia. apply N.log2_lt_pow2; [lia|exact Hb]. }
  destruct (N.eq_dec b 0) as [->|E].
  - cbn [N.size]. split; [|lia]. intros _. apply N.neq_0_lt_0, N.pow_nonzero. done.
  - rewrite N.size_log2 in * by done. split; intros H.
    + apply N.log2_lt_pow2; lia.
    + apply N.log2_lt_pow2 in H; lia.
Qed.

Lemma le_bytes_length n v : length (le_bytes n v) = n.
Proof. revert v. induction n as [|n IH]; intros v; cbn; [done|]. by rewrite IH. Qed.

Lemma le_bytes_inj n v w :
  v < 256 ^ N.of_nat n -> w < 256 ^ N.of_nat n -> le_bytes n v = le_bytes n w -> v = w.
Proof.
  revert v w. induction n as [|n IH]; intros v w Hv Hw; cbn [le_bytes].
  - cbn in Hv, Hw. lia.
  - rewrite Nat2N.inj_succ, N.pow_succ_r' in Hv, Hw. intros [= Hm Hd].
    apply IH in Hd; [|apply N.Div0.div_lt_upper_bound; lia..].
    rewrite (N.div_mod v 256), (N.div_mod w 256) by done. congruence.
Qed.

Lemma le_bytes_bytes n v : bytes (le_bytes n v).
Proof. revert v. induction n as [|n IH]; intros v; constructor; [by apply N.mod_lt|done]. Qed.

Lemma of_le_bytes_le n v : v < 256 ^ N.of_nat n -> of_le_bytes (le_bytes n v) = v.
Proof.
  revert v. induction n as [|n IH]; intros v Hv; [cbn in *; lia|].
  cbn [le_bytes of_le_bytes]. rewrite Nat2N.inj_succ, N.pow_succ_r' in Hv.
  rewrite IH by (apply N.Div0.div_lt_upper_bound; lia). pose proof (N.div_mod v 256). lia.
Qed.

#[global] Instance byte_of_inj : Inj (=) (=) byte_of.
Proof.
  intros a b E. unfold byte_of in E. by rewrite <- (ascii_N_embedding a), E, ascii_N_embedding.
Qed.

Lemma string_bytes_inj s t : string_bytes s = string_bytes t -> s = t.
Proof.
  unfold string_bytes. intros H.
  apply (list_fmap_eq_inj byte_of) in H; [|apply _].
  by rewrite <- (chars_string_chars s), H, chars_string_chars.
Qed.

Lemma byte_of_byte c : is_byte (byte_of c).
Proof. apply N_ascii_bounded. Qed.

Lemma string_bytes_bytes s : bytes (string_bytes s).
Proof. apply Forall_fmap, Forall_true. intros c. apply byte_of_byte. Qed.
