(* ===== verification/Wire.v ===== *)
(** * Byte readers

    [crates/bagel-web/src/wire.rs] and [fingerprint.rs]: the cursor the transport
    readers share, and what a capture can be. A cursor is the bytes that remain;
    an operation gives what it read and the cursor after it. *)

From S2P Require Import Prelude Strings Ip Bytes.

Local Open Scope N_scope.

(** ** Captures *)

Inductive CaptureError : Type := Incomplete | Invalid | Limited | Untrusted.
#[global] Instance capture_error_eq_dec : EqDecision CaptureError.
Proof. solve_decision. Defined.
Definition show_capture_error (e : CaptureError) : string :=
  match e with
  | Incomplete => "incomplete" | Invalid => "invalid" | Limited => "limited" | Untrusted => "untrusted"
  end.

Inductive Capture (Value : Type) : Type :=
| Unavailable
| Failed (e : CaptureError)
| Complete (v : Value).
Arguments Unavailable {Value}.
Arguments Failed {Value} _.
Arguments Complete {Value} _.

Definition capture_of {V} (r : result CaptureError V) : Capture V :=
  match r with Ok v => Complete v | Err e => Failed e end.
Definition show_capture {V} (c : Capture V) : string :=
  match c with Unavailable => "unavailable" | Failed e => show_capture_error e | Complete _ => "complete" end.

(** ** The cursor *)

Notation Read A := (result CaptureError (A * list N)).

(** [Cursor::take]. *)
Definition take_ (length : N) (input : list N) : Read (list N) :=
  if length <=? N.of_nat (List.length input)
  then Ok (take (N.to_nat length) input, drop (N.to_nat length) input)
  else Err Invalid.
(** [Cursor::array] read as a big-endian number: [byte], [u16], [u24], [u32]. *)
Definition uint (size : N) (input : list N) : Read N :=
  '(value, tail) ← take_ size input; Ok (of_be_bytes value, tail).
Definition read_byte : list N -> Read N := uint 1.
Definition u16 : list N -> Read N := uint 2.
Definition u24 : list N -> Read N := uint 3.
Definition u32 : list N -> Read N := uint 4.
Definition vector_u8 (input : list N) : Read (list N) :=
  '(length, input) ← read_byte input; take_ length input.
Definition vector_u16 (input : list N) : Read (list N) :=
  '(length, input) ← u16 input; take_ length input.
Definition finish (input : list N) : result CaptureError unit :=
  match input with [] => Ok tt | _ => Err Invalid end.

(** ** Loops over a cursor

    [while !input.is_empty()]: a pass reads from the cursor and changes the state
    of the loop. Fuel is the number of bytes: [drain_eq] shows it is enough when
    every pass reads at least one. *)

Section Drain.
Context {S : Type} (pass : S -> list N -> Read S).

Fixpoint drain_go (fuel : nat) (s : S) (input : list N) : option (result CaptureError S) :=
  match input with
  | [] => Some (Ok s)
  | _ =>
      match fuel with
      | O => None
      | Datatypes.S fuel =>
          match pass s input with
          | Err e => Some (Err e)
          | Ok (s, input) => drain_go fuel s input
          end
      end
  end.
Definition drain (s : S) (input : list N) : result CaptureError S :=
  default (Err Invalid) (drain_go (length input) s input).

(** Every pass that succeeds reads something. *)
Definition consumes : Prop :=
  forall s input s' rest, pass s input = Ok (s', rest) -> (length rest < length input)%nat.

Hypothesis Hc : consumes.

Lemma drain_go_enough fuel s input :
  (length input <= fuel)%nat -> exists r, drain_go fuel s input = Some r.
Proof.
  revert s input. induction fuel as [|fuel IH]; intros s input Hl.
  - destruct input; [by eexists|cbn in Hl; lia].
  - destruct input as [|b input]; [by eexists|]. cbn [drain_go].
    destruct (pass s (b :: input)) as [[s' rest]|e] eqn:E; [|by eexists].
    apply IH. apply Hc in E. cbn [length] in *. lia.
Qed.
Lemma drain_go_mono fuel fuel' s input r :
  (fuel <= fuel')%nat -> drain_go fuel s input = Some r -> drain_go fuel' s input = Some r.
Proof.
  revert fuel' s input. induction fuel as [|fuel IH]; intros fuel' s input Hl.
  - destruct input; [|done]. by destruct fuel'.
  - destruct input as [|b input]; [by destruct fuel'|]. destruct fuel' as [|fuel']; [lia|].
    cbn [drain_go]. destruct (pass s (b :: input)) as [[s' rest]|e]; [|done]. apply IH. lia.
Qed.

(** The loop is its unfolding. *)
Lemma drain_eq s input :
  drain s input = match input with
                  | [] => Ok s
                  | _ => '(s, rest) ← pass s input; drain s rest
                  end.
Proof.
  unfold drain. destruct input as [|b input]; [done|]. cbn [length drain_go].
  destruct (pass s (b :: input)) as [[s' rest]|e] eqn:E; [|done]. cbn [mbind result_bind].
  apply Hc in E. cbn [length] in E. destruct (drain_go_enough (length rest) s' rest) as [r Hr]; [lia|].
  rewrite Hr. by rewrite (drain_go_mono (length rest) _ _ _ r) by (done || lia).
Qed.

(** An invariant of the state that every pass keeps holds of the outcome. *)
Lemma drain_inv (P : S -> Prop) s input s' :
  (forall s input s' rest, P s -> pass s input = Ok (s', rest) -> P s') ->
  P s -> drain s input = Ok s' -> P s'.
Proof.
  intros Hstep. remember (length input) as n eqn:En. revert s input En.
  induction n as [n IH] using lt_wf_ind. intros s input -> Hs. rewrite drain_eq.
  destruct input as [|b input]; [by intros [= <-]|].
  destruct (pass s (b :: input)) as [[s1 rest]|e] eqn:E; [|done]. cbn [mbind result_bind].
  intros Hd. eapply (IH (length rest)); [by eapply Hc|done| |exact Hd]. by eapply Hstep.
Qed.
End Drain.

(** ** Lemmas *)

Lemma take_spec n input value rest :
  take_ n input = Ok (value, rest) <-> input = value ++ rest /\ N.of_nat (length value) = n.
Proof.
  unfold take_. destruct (N.leb_spec n (N.of_nat (length input))) as [Hn|Hn]; split.
  - intros [= <- <-]. rewrite take_drop, length_take. split; [done|lia].
  - intros [-> <-]. rewrite Nat2N.id, take_app_length, drop_app_length. done.
  - done.
  - intros [-> <-]. rewrite length_app in Hn. lia.
Qed.
Lemma take_app_cursor value rest :
  take_ (N.of_nat (length value)) (value ++ rest) = Ok (value, rest).
Proof. by apply take_spec. Qed.
(** What a read of a prefix gives, more bytes behind it do not change. *)
Lemma take_more n input value rest more :
  take_ n input = Ok (value, rest) -> take_ n (input ++ more) = Ok (value, rest ++ more).
Proof. rewrite !take_spec. intros [-> ?]. by rewrite <- app_assoc. Qed.
Lemma take_err n input e : take_ n input = Err e <-> e = Invalid /\ N.of_nat (length input) < n.
Proof.
  unfold take_. destruct (N.leb_spec n (N.of_nat (length input))) as [Hn|Hn]; split.
  - done.
  - intros [_ ?]. lia.
  - intros H. injection H as <-. done.
  - by intros [-> _].
Qed.

Lemma uint_spec n input v rest :
  uint n input = Ok (v, rest) <->
  exists value, input = value ++ rest /\ N.of_nat (length value) = n /\ v = of_be_bytes value.
Proof.
  unfold uint. rewrite bind_ok. split.
  - intros ([value tail] & Ht & [= <- <-]). apply take_spec in Ht as [-> Hl]. by exists value.
  - intros (value & -> & Hl & ->). exists (value, rest). split; [by apply take_spec|done].
Qed.
Lemma uint_more n input v rest more :
  uint n input = Ok (v, rest) -> uint n (input ++ more) = Ok (v, rest ++ more).
Proof.
  rewrite !uint_spec. intros (value & -> & Hl & ->). exists value. by rewrite <- app_assoc.
Qed.
Lemma uint_err n input e : uint n input = Err e <-> e = Invalid /\ N.of_nat (length input) < n.
Proof.
  unfold uint. rewrite bind_err, take_err. split; [|by left]. intros [?|([? ?] & _ & ?)]; done.
Qed.
Lemma uint_bytes n v rest :
  v < 256 ^ n -> uint n (be_bytes (N.to_nat n) v ++ rest) = Ok (v, rest).
Proof.
  intros Hv. apply uint_spec. exists (be_bytes (N.to_nat n) v). split_and!; [done| |].
  - rewrite be_bytes_length. lia.
  - rewrite be_bytes_id; [done|]. by rewrite N2Nat.id.
Qed.
Lemma uint_length n input v rest :
  uint n input = Ok (v, rest) -> (length input = N.to_nat n + length rest)%nat.
Proof. rewrite uint_spec. intros (value & -> & Hl & _). rewrite length_app. lia. Qed.
Lemma take_length_rest n input v rest :
  take_ n input = Ok (v, rest) -> (length input = N.to_nat n + length rest)%nat.
Proof. rewrite take_spec. intros (-> & Hl). rewrite length_app. lia. Qed.
Lemma vector_u8_length input v rest :
  vector_u8 input = Ok (v, rest) -> (length rest < length input)%nat.
Proof.
  unfold vector_u8, read_byte. rewrite bind_ok. intros ([n tail] & Hn & Ht).
  apply uint_length in Hn. apply take_length_rest in Ht. lia.
Qed.
Lemma vector_u16_length input v rest :
  vector_u16 input = Ok (v, rest) -> (length rest < length input)%nat.
Proof.
  unfold vector_u16, u16. rewrite bind_ok. intros ([n tail] & Hn & Ht).
  apply uint_length in Hn. apply take_length_rest in Ht. lia.
Qed.
