(* ===== verification/Hpack.v ===== *)
(** * Header compression

    [crates/bagel-web/src/http2/hpack.rs]: the reader of an HPACK block that keeps
    the order of the pseudo headers. Sizes are [usize] of 64 bits; the Huffman
    code is [httlib_huffman]'s. *)

From S2P Require Import Prelude Strings Ip Bytes Wire.

Local Open Scope N_scope.

Definition MAX_BLOCK : N := 65536.
Definition MAX_DECODED : N := 65536.
Definition MAX_HEADERS : N := 256.
Definition MAX_TABLE : N := 4096.
Definition ENTRY_OVERHEAD : N := 32.

Definition STATIC_TABLE : list (string * string) := [
  (":authority", ""); (":method", "GET"); (":method", "POST"); (":path", "/"); (":path", "/index.html");
  (":scheme", "http"); (":scheme", "https"); (":status", "200"); (":status", "204"); (":status", "206");
  (":status", "304"); (":status", "400"); (":status", "404"); (":status", "500"); ("accept-charset", "");
  ("accept-encoding", "gzip, deflate"); ("accept-language", ""); ("accept-ranges", ""); ("accept", "");
  ("access-control-allow-origin", ""); ("age", ""); ("allow", ""); ("authorization", "");
  ("cache-control", ""); ("content-disposition", ""); ("content-encoding", ""); ("content-language", "");
  ("content-length", ""); ("content-location", ""); ("content-range", ""); ("content-type", "");
  ("cookie", ""); ("date", ""); ("etag", ""); ("expect", ""); ("expires", ""); ("from", ""); ("host", "");
  ("if-match", ""); ("if-modified-since", ""); ("if-none-match", ""); ("if-range", "");
  ("if-unmodified-since", ""); ("last-modified", ""); ("link", ""); ("location", ""); ("max-forwards", "");
  ("proxy-authenticate", ""); ("proxy-authorization", ""); ("range", ""); ("referer", ""); ("refresh", "");
  ("retry-after", ""); ("server", ""); ("set-cookie", ""); ("strict-transport-security", "");
  ("transfer-encoding", ""); ("user-agent", ""); ("vary", ""); ("via", ""); ("www-authenticate", "")].

(** ** The dynamic table *)

Record TableEntry : Type := { te_name : list N; te_size : N }.
(** The front of the queue first. *)
Record DynamicTable : Type := { entries : list TableEntry; dt_size : N; capacity : N }.
Definition table_default : DynamicTable := {| entries := []; dt_size := 0; capacity := MAX_TABLE |}.

Definition blen (l : list N) : N := N.of_nat (length l).

Definition table_get (t : DynamicTable) (index : N) : result CaptureError (list N * N) :=
  offset ← ok_or Invalid (if index =? 0 then None else Some (index - 1));
  match STATIC_TABLE !! N.to_nat offset with
  | Some (name, value) => Ok (string_bytes name, blen (string_bytes name) + blen (string_bytes value) + ENTRY_OVERHEAD)
  | None =>
      entry ← ok_or Invalid (entries t !! N.to_nat (offset - N.of_nat (length STATIC_TABLE)));
      Ok (te_name entry, te_size entry)
  end.

(** [pop_back] until the size is within the limit; an [expect] that fails or a
    subtraction that wraps is [None]. *)
Fixpoint evict_back (oldest_first : list TableEntry) (size limit : N) : option (list TableEntry * N) :=
  if limit <? size then
    match oldest_first with
    | [] => None
    | removed :: rest => if size <? te_size removed then None else evict_back rest (size - te_size removed) limit
    end
  else Some (oldest_first, size).
Definition evict_to (t : DynamicTable) (limit : N) : option DynamicTable :=
  '(kept, size) ← evict_back (rev (entries t)) (dt_size t) limit;
  Some {| entries := rev kept; dt_size := size; capacity := capacity t |}.

(** What ends the reading of a block early: an error, or a panic. *)
Inductive Stop : Type := Fail (e : CaptureError) | Panic.
Definition failing {A} (r : result CaptureError A) : result Stop A := map_err Fail r.
Definition expecting {A} (o : option A) : result Stop A := ok_or Panic o.

Definition resize (t : DynamicTable) (c : N) : result Stop DynamicTable :=
  if MAX_TABLE <? c then Err (Fail Invalid)
  else expecting (evict_to {| entries := entries t; dt_size := dt_size t; capacity := c |} c).
Definition table_insert (t : DynamicTable) (entry : TableEntry) : result Stop DynamicTable :=
  if capacity t <? te_size entry then expecting (evict_to t 0)
  else
    t ← expecting (evict_to t (capacity t - te_size entry));
    Ok {| entries := entry :: entries t; dt_size := dt_size t + te_size entry; capacity := capacity t |}.

(** ** Pseudo headers *)

Inductive PseudoHeader : Type := Method | Authority | Scheme | Path | Protocol.
#[global] Instance pseudo_header_eq_dec : EqDecision PseudoHeader.
Proof. solve_decision. Defined.
Definition pseudo_of (name : list N) : result CaptureError PseudoHeader :=
  if bool_decide (name = string_bytes ":method") then Ok Method
  else if bool_decide (name = string_bytes ":authority") then Ok Authority
  else if bool_decide (name = string_bytes ":scheme") then Ok Scheme
  else if bool_decide (name = string_bytes ":path") then Ok Path
  else if bool_decide (name = string_bytes ":protocol") then Ok Protocol
  else Err Invalid.
Definition pseudo_letter (h : PseudoHeader) : string :=
  match h with Method => "m" | Authority => "a" | Scheme => "s" | Path => "p" | Protocol => "r" end.
Definition show_order (order : list PseudoHeader) : string := str_join "," (pseudo_letter <$> order).

(** ** Representations *)

Inductive Representation : Type := Indexed | LiteralIndexed | Literal | TableSize.
#[global] Instance representation_eq_dec : EqDecision Representation.
Proof. solve_decision. Defined.
Definition representation (first : N) : Representation :=
  if 128 <=? first then Indexed else if 64 <=? first then LiteralIndexed
  else if 32 <=? first then TableSize else Literal.
Inductive IntegerPrefix : Type := Four | Five | Six | Seven.
Definition prefix_of (r : Representation) : IntegerPrefix :=
  match r with Indexed => Seven | LiteralIndexed => Six | Literal => Four | TableSize => Five end.
Definition mask (p : IntegerPrefix) : N :=
  match p with Four => 15 | Five => 31 | Six => 63 | Seven => 127 end.

(** ** The decoder *)

(** [1_usize.checked_shl(shift)], [checked_mul] and [checked_add]. *)
Definition checked_shl1 (shift : N) : option N := if shift <? 64 then Some (2 ^ shift) else None.
Definition checked_usize (x : N) : option N := if x <=? usize_max then Some x else None.

(** The loop reads a byte in each pass. *)
Fixpoint integer_go (value shift : N) (input : list N) : Read N :=
  match input with
  | [] => Err Invalid
  | byte :: rest =>
      factor ← ok_or Invalid (checked_shl1 shift);
      part ← ok_or Invalid (checked_usize (N.land byte 127 * factor));
      value ← ok_or Invalid (checked_usize (value + part));
      if N.land byte 128 =? 0 then Ok (value, rest) else integer_go value (shift + 7) rest
  end.
Definition integer (p : IntegerPrefix) (input : list N) : Read N :=
  '(byte, input) ← read_byte input;
  let value := N.land byte (mask p) in
  if value <? mask p then Ok (value, input) else integer_go value 0 input.

Section Hpack.
(** [httlib_huffman::decode]. *)
Variable huffman : list N -> option (list N).

Definition read_string (input : list N) : Read (list N) :=
  first ← ok_or Invalid (head input);
  '(length, input) ← integer Seven input;
  '(raw, input) ← take_ length input;
  if N.land first 128 =? 0 then Ok (raw, input)
  else decoded ← ok_or Invalid (huffman raw); Ok (decoded, input).

(** What the loop over a block keeps. *)
Record Progress : Type := {
  table : DynamicTable; decoded_total : N; header_count : N;
  order : list PseudoHeader; seen_regular : bool }.
Definition progress_init : Progress :=
  {| table := table_default; decoded_total := 0; header_count := 0; order := []; seen_regular := false |}.

(** Name and size of the field, and the bytes after it. *)
Definition field (r : Representation) (t : DynamicTable) (input : list N) : Read (list N * N) :=
  '(index, input) ← integer (prefix_of r) input;
  if bool_decide (r = Indexed) then
    stored ← table_get t index; Ok (stored, input)
  else
    '(name, input) ← (if index =? 0 then read_string input
                      else stored ← table_get t index; Ok (stored.1, input));
    '(value, input) ← read_string input;
    Ok ((name, blen name + blen value + ENTRY_OVERHEAD), input).

(** The order of the pseudo headers after one more field. *)
Definition note (name : list N) (order : list PseudoHeader) (seen_regular : bool) :
    result CaptureError (list PseudoHeader * bool) :=
  match name with
  | [] => Err Invalid
  | c :: _ =>
      if c =? byte_of ":" then
        header ← pseudo_of name;
        if seen_regular || bool_decide (header ∈ order) then Err Invalid
        else Ok (order ++ [header], seen_regular)
      else Ok (order, true)
  end.

Definition table_size_pass (p : Progress) (input : list N) : result Stop (Progress * list N) :=
  if negb (header_count p =? 0) then Err (Fail Invalid)
  else
    '(c, input) ← failing (integer Five input);
    t ← resize (table p) c;
    Ok ({| table := t; decoded_total := decoded_total p; header_count := header_count p;
           order := order p; seen_regular := seen_regular p |}, input).
Definition field_pass (r : Representation) (p : Progress) (input : list N) : result Stop (Progress * list N) :=
  let header_count := header_count p + 1 in
  if MAX_HEADERS <? header_count then Err (Fail Limited)
  else
    '(name, size, input) ← failing (field r (table p) input);
    let decoded_total := decoded_total p + size in
    if MAX_DECODED <? decoded_total then Err (Fail Limited)
    else
      '(order, seen_regular) ← failing (note name (order p) (seen_regular p));
      t ← (if bool_decide (r = LiteralIndexed)
           then table_insert (table p) {| te_name := name; te_size := size |} else Ok (table p));
      Ok ({| table := t; decoded_total := decoded_total; header_count := header_count;
             order := order; seen_regular := seen_regular |}, input).
Definition pass (p : Progress) (first : N) (input : list N) : result Stop (Progress * list N) :=
  let r := representation first in
  if bool_decide (r = TableSize) then table_size_pass p input else field_pass r p input.

(** The loop over the block, which ends when no byte is left; every pass reads a
    byte, so as many passes as bytes are enough. *)
Fixpoint block_go (fuel : nat) (p : Progress) (input : list N) : option (result Stop Progress) :=
  match input with
  | [] => Some (Ok p)
  | first :: _ =>
      match fuel with
      | O => None
      | S fuel =>
          match pass p first input with
          | Err e => Some (Err e)
          | Ok (p, input) => block_go fuel p input
          end
      end
  end.
Definition pseudo_header_order (block : list N) : option (result Stop (list PseudoHeader)) :=
  if MAX_BLOCK <? blen block then Some (Err (Fail Limited))
  else match block_go (length block) progress_init block with
       | Some r => Some (fmap order r)
       | None => None
       end.
End Hpack.

(** ** The table stays sound, and a block always ends *)

Definition total (l : list TableEntry) : N := foldr (fun e n => te_size e + n) 0 l.
Lemma total_app l k : total (l ++ k) = total l + total k.
Proof. induction l as [|e l IH]; [done|]. cbn [app total foldr]. fold (total (l ++ k)) (total l). lia. Qed.
Lemma total_snoc l e : total (l ++ [e]) = total l + te_size e.
Proof. rewrite total_app. cbn. lia. Qed.

(** The front entries that fit. *)
Fixpoint fit (limit : N) (l : list TableEntry) : list TableEntry :=
  match l with
  | [] => []
  | e :: l => if te_size e <=? limit then e :: fit (limit - te_size e) l else []
  end.
Lemma fit_all limit l : total l <= limit -> fit limit l = l.
Proof.
  revert limit. induction l as [|e l IH]; intros limit Hl; [done|]. cbn [fit total foldr] in *.
  fold (total l) in Hl. destruct (N.leb_spec (te_size e) limit); [|lia]. by rewrite IH by lia.
Qed.
Lemma fit_snoc limit l e : limit < total l + te_size e -> fit limit (l ++ [e]) = fit limit l.
Proof.
  revert limit. induction l as [|d l IH]; intros limit Hl; cbn [app fit].
  - cbn in Hl. destruct (N.leb_spec (te_size e) limit); [lia|done].
  - cbn [total foldr] in Hl. fold (total l) in Hl. destruct (N.leb_spec (te_size d) limit); [|done].
    by rewrite IH by lia.
Qed.
Lemma fit_total limit l : total (fit limit l) <= limit.
Proof.
  revert limit. induction l as [|e l IH]; intros limit; cbn [fit]; [cbn; lia|].
  destruct (N.leb_spec (te_size e) limit); [|cbn; lia].
  cbn [total foldr]. fold (total (fit (limit - te_size e) l)). specialize (IH (limit - te_size e)). lia.
Qed.

Lemma evict_back_fit l limit :
  evict_back (rev l) (total l) limit = Some (rev (fit limit l), total (fit limit l)).
Proof.
  induction l as [|e l IH] using rev_ind.
  { cbn. by destruct limit. }
  rewrite rev_app_distr, total_snoc. cbn [rev app evict_back].
  destruct (N.ltb_spec limit (total l + te_size e)).
  - destruct (N.ltb_spec (total l + te_size e) (te_size e)); [lia|].
    by rewrite N.add_sub, IH, fit_snoc.
  - rewrite fit_all by (rewrite total_snoc; lia). by rewrite total_snoc, rev_app_distr.
Qed.

Record table_ok (t : DynamicTable) : Prop := {
  to_positive : Forall (fun e => 0 < te_size e) (entries t);
  to_size : dt_size t = total (entries t);
  to_fits : dt_size t <= capacity t;
  to_capacity : capacity t <= MAX_TABLE }.

Lemma evict_to_fit t limit :
  dt_size t = total (entries t) ->
  evict_to t limit = Some {| entries := fit limit (entries t); dt_size := total (fit limit (entries t));
                             capacity := capacity t |}.
Proof. intros E. unfold evict_to. rewrite E, evict_back_fit. cbn [mbind option_bind]. by rewrite rev_involutive. Qed.

Lemma resize_spec t c :
  table_ok t -> c <= MAX_TABLE ->
  resize t c = Ok {| entries := fit c (entries t); dt_size := total (fit c (entries t)); capacity := c |}.
Proof.
  intros [_ Hs _ _] Hc. unfold resize. destruct (N.ltb_spec MAX_TABLE c); [lia|]. by rewrite evict_to_fit.
Qed.
Lemma fit_zero l : Forall (fun e => 0 < te_size e) l -> fit 0 l = [].
Proof. destruct 1 as [|e l He]; [done|]. cbn [fit]. destruct (N.leb_spec (te_size e) 0); [lia|done]. Qed.
Lemma fit_forall (P : TableEntry -> Prop) limit l : Forall P l -> Forall P (fit limit l).
Proof.
  intros Hl. revert limit. induction Hl as [|e l He Hl IH]; intros limit; cbn [fit]; [done|].
  destruct (_ <=? _); by constructor.
Qed.
Lemma insert_spec t e :
  table_ok t ->
  table_insert t e = Ok {| entries := fit (capacity t) (e :: entries t);
                           dt_size := total (fit (capacity t) (e :: entries t)); capacity := capacity t |}.
Proof.
  intros [Hp Hs _ _]. unfold table_insert. cbn [fit]. destruct (N.ltb_spec (capacity t) (te_size e)).
  - destruct (N.leb_spec (te_size e) (capacity t)); [lia|]. rewrite evict_to_fit by done. by rewrite fit_zero.
  - destruct (N.leb_spec (te_size e) (capacity t)); [|lia]. rewrite evict_to_fit by done.
    cbn [expecting ok_or mbind result_bind total foldr entries dt_size capacity].
    fold (total (fit (capacity t - te_size e) (entries t))). by rewrite N.add_comm.
Qed.

Lemma table_ok_fit l c :
  Forall (fun e => 0 < te_size e) l -> c <= MAX_TABLE ->
  table_ok {| entries := fit c l; dt_size := total (fit c l); capacity := c |}.
Proof. intros Hl Hc. constructor; cbn [entries dt_size capacity]; [by apply fit_forall|done|apply fit_total|done]. Qed.

(** ** What the loop keeps *)

Record progress_ok (p : Progress) : Prop := {
  po_table : table_ok (table p);
  po_count : header_count p <= MAX_HEADERS;
  po_decoded : decoded_total p <= MAX_DECODED;
  po_order : NoDup (order p) }.

Lemma progress_init_ok : progress_ok progress_init.
Proof. repeat constructor; done. Qed.

Lemma note_nodup name o s o' s' : note name o s = Ok (o', s') -> NoDup o -> NoDup o'.
Proof.
  unfold note. destruct name as [|c name]; [done|]. destruct (c =? byte_of ":").
  - rewrite bind_ok. intros (h & _ & H). destruct s; [done|]. cbn [orb] in H. case_bool_decide as Hin; [done|].
    injection H as <- <-. intros Hn. apply NoDup_app. split_and!; [done| |apply NoDup_singleton].
    intros x Hx ->%list_elem_of_singleton. done.
  - by intros [= <- <-].
Qed.

Lemma integer_go_length v shift input n rest :
  integer_go v shift input = Ok (n, rest) -> (length rest < length input)%nat.
Proof.
  revert v shift. induction input as [|b input IH]; intros v shift; cbn [integer_go]; [done|].
  rewrite bind_ok. intros (f & _ & H). apply bind_ok in H as (part & _ & H).
  apply bind_ok in H as (v' & _ & H). destruct (N.land b 128 =? 0).
  - injection H as _ <-. cbn. lia.
  - apply IH in H. cbn. lia.
Qed.
Lemma integer_length p input n rest : integer p input = Ok (n, rest) -> (length rest < length input)%nat.
Proof.
  unfold integer. rewrite bind_ok. intros ([b tail] & Hb & H). apply uint_length in Hb.
  destruct (_ <? _); [injection H as _ <-; lia|]. apply integer_go_length in H. lia.
Qed.
Lemma read_string_length huffman input s rest :
  read_string huffman input = Ok (s, rest) -> (length rest < length input)%nat.
Proof.
  unfold read_string. rewrite bind_ok. intros (first & _ & H). apply bind_ok in H as ([n i1] & Hn & H).
  apply integer_length in Hn. apply bind_ok in H as ([raw i2] & Hr & H). apply take_length_rest in Hr.
  destruct (_ =? 0); [injection H as _ <-; lia|]. apply bind_ok in H as (d & _ & H). injection H as _ <-. lia.
Qed.
Lemma field_length huffman r t input f rest :
  field huffman r t input = Ok (f, rest) -> (length rest < length input)%nat.
Proof.
  unfold field. rewrite bind_ok. intros ([i tail] & Hi & H). apply integer_length in Hi.
  case_bool_decide.
  - apply bind_ok in H as (s & _ & H). injection H as _ <-. lia.
  - apply bind_ok in H as ([name i2] & Hn & H). apply bind_ok in H as ([v i3] & Hv & H).
    injection H as _ <-. apply read_string_length in Hv. destruct (i =? 0).
    + apply read_string_length in Hn. lia.
    + apply bind_ok in Hn as (s & _ & Hn). injection Hn as _ <-. lia.
Qed.

(** The size of a field is at least the overhead. *)
Lemma table_get_positive t i n s : table_ok t -> table_get t i = Ok (n, s) -> 0 < s.
Proof.
  intros [Hp _ _ _]. unfold table_get. rewrite bind_ok. intros (off & _ & H).
  destruct (STATIC_TABLE !! _) as [[a b]|]; [injection H as _ <-; unfold ENTRY_OVERHEAD; lia|].
  apply bind_ok in H as (e & He & H). injection H as _ <-. destruct (entries t !! _) as [e'|] eqn:E; [|done].
  cbn [ok_or] in He. injection He as <-. exact (proj1 (Forall_lookup _ _) Hp _ _ E).
Qed.
Lemma field_positive huffman r t input n s rest :
  table_ok t -> field huffman r t input = Ok ((n, s), rest) -> 0 < s.
Proof.
  intros Ht. unfold field. rewrite bind_ok. intros ([i tail] & _ & H). case_bool_decide.
  - apply bind_ok in H as ([n' s'] & Hg & H). injection H as <- <- <-. by eapply table_get_positive.
  - apply bind_ok in H as ([name i2] & _ & H). apply bind_ok in H as ([v i3] & _ & H).
    injection H as _ <- _. unfold ENTRY_OVERHEAD. lia.
Qed.

Lemma ok_inj {E A} (a b : A) : @Ok E A a = Ok b -> a = b.
Proof. by intros [= ->]. Qed.

Lemma pass_ok huffman p first input p' rest :
  progress_ok p -> pass huffman p first input = Ok (p', rest) ->
  progress_ok p' /\ (length rest < length input)%nat.
Proof.
  intros [Ht Hc Hd Ho]. unfold pass. case_bool_decide.
  - unfold table_size_pass. destruct (negb _); [done|]. rewrite bind_ok. intros ([c tail] & Hi & H1).
    destruct (integer Five input) as [[c' tail']|] eqn:Ei; [|done]. unfold failing in Hi. cbn [map_err] in Hi. injection Hi as <- <-. apply integer_length in Ei.
    apply bind_ok in H1 as (t & Hr & H1). injection H1 as <- <-. split; [|done].
    assert (c' <= MAX_TABLE) as Hcap.
    { unfold resize in Hr. by destruct (N.ltb_spec MAX_TABLE c'). }
    rewrite resize_spec in Hr by done. apply ok_inj in Hr as <-. constructor; cbn [table header_count decoded_total order]; [|done..].
    apply table_ok_fit; [apply Ht|done].
  - unfold field_pass. destruct (N.ltb_spec MAX_HEADERS (header_count p + 1)); [done|]. rewrite bind_ok.
    intros ([[name size] tail] & Hf & H2). destruct (field _ _ _ _) as [[[n s] tl]|] eqn:Ef; [|done].
    unfold failing in Hf. cbn [map_err] in Hf. injection Hf as -> -> ->. pose proof (field_length _ _ _ _ _ _ Ef) as Hl.
    pose proof (field_positive _ _ _ _ _ _ _ Ht Ef) as Hpos.
    destruct (N.ltb_spec MAX_DECODED (decoded_total p + size)); [done|].
    apply bind_ok in H2 as ([o sr] & Hn & H2). destruct (note _ _ _) as [[o' sr']|] eqn:En; [|done].
    unfold failing in Hn. cbn [map_err] in Hn. injection Hn as -> ->. apply note_nodup in En; [|done]. apply bind_ok in H2 as (t & Hi & H2).
    injection H2 as <- <-. split; [|done]. constructor; cbn [table header_count decoded_total order]; [|done..].
    case_bool_decide; [|by injection Hi as <-]. rewrite insert_spec in Hi by done. apply ok_inj in Hi as <-.
    apply table_ok_fit; [constructor; [done|apply Ht]|apply Ht].
Qed.

Lemma pass_no_panic huffman p first input : progress_ok p -> pass huffman p first input <> Err Panic.
Proof.
  intros [Ht Hc Hd Ho]. unfold pass. case_bool_decide.
  - unfold table_size_pass. destruct (negb _); [done|]. rewrite bind_err. intros [H1|([c tail] & Hi & H1)].
    { by destruct (integer Five input). }
    rewrite bind_err in H1. destruct H1 as [H1|(t & _ & H1)]; [|done].
    destruct (N.le_gt_cases c MAX_TABLE) as [Hcap|Hcap].
    + by rewrite resize_spec in H1.
    + unfold resize in H1. destruct (N.ltb_spec MAX_TABLE c); [done|lia].
  - unfold field_pass. destruct (_ <? _); [done|]. rewrite bind_err. intros [H1|([[name size] tail] & _ & H1)].
    { by destruct (field _ _ _ _). }
    destruct (_ <? _); [done|]. rewrite bind_err in H1. destruct H1 as [H1|([o sr] & _ & H1)].
    { by destruct (note _ _ _). }
    rewrite bind_err in H1. destruct H1 as [H1|(t & _ & H1)]; [|done].
    case_bool_decide; [|done]. by rewrite insert_spec in H1.
Qed.

Lemma block_go_ends huffman fuel p input :
  progress_ok p -> (length input <= fuel)%nat ->
  exists r, block_go huffman fuel p input = Some r /\ r <> Err Panic /\
    forall p', r = Ok p' -> progress_ok p'.
Proof.
  revert p input. induction fuel as [|fuel IH]; intros p input Hp Hl.
  - destruct input; [|cbn in Hl; lia]. exists (Ok p). split_and!; [done..|]. by intros p' [= <-].
  - destruct input as [|b input]; cbn [block_go].
    { exists (Ok p). split_and!; [done..|]. by intros p' [= <-]. }
    pose proof (pass_no_panic huffman p b (b :: input) Hp) as Hn.
    destruct (pass huffman p b (b :: input)) as [[p1 rest]|e] eqn:E.
    + destruct (pass_ok _ _ _ _ _ _ Hp E) as [Hp1 Hr]. apply IH; [done|]. cbn [length] in *. lia.
    + exists (Err e). split_and!; [done|by intros [= ->]|done].
Qed.

(** C12: reading an HPACK block always ends, without a panic. Whatever the bytes
    and whatever the Huffman code decodes, the loop is over within as many passes
    as there are bytes; the table's size is always the sum of its entries and
    within its capacity, so the eviction never runs out of entries; and an order
    that is read names each pseudo header at most once. *)
Theorem block_always_ends huffman block :
  exists r, pseudo_header_order huffman block = Some r /\ r <> Err Panic /\
    forall o, r = Ok o -> NoDup o /\ (length o <= 5)%nat.
Proof.
  unfold pseudo_header_order. destruct (_ <? _).
  { exists (Err (Fail Limited)). by split_and!. }
  destruct (block_go_ends huffman (length block) progress_init block progress_init_ok (le_n _)) as (r & -> & Hn & Ho).
  exists (fmap order r). split_and!; [done| |].
  - destruct r as [p|e]; [done|]. cbn. intros E. apply Hn. by injection E as ->.
  - intros o. destruct r as [p|e]; [|done]. cbn. intros [= <-].
    assert (Hnd : NoDup (order p)) by (by apply Ho). split; [done|].
    apply (submseteq_length _ [Method; Authority; Scheme; Path; Protocol]). apply NoDup_submseteq; [done|].
    intros h _. destruct h; set_solver.
Qed.
