(* ===== verification/HpackSpec.v ===== *)
(** * What a header block means

    RFC 7541 as a relation between the bytes of a block and the fields it encodes,
    over a table of fields, and the theorem that the reader of [Hpack] reports the
    pseudo headers of the fields in their order, for every encoding of them. *)

From S2P Require Import Prelude Strings Ip Bytes Wire Hpack.

Local Open Scope N_scope.

(** ** The specification *)

Notation Field := (list N * list N)%type.
Definition field_size (f : Field) : N := blen f.1 + blen f.2 + 32.
Definition static_fields : list Field :=
  (fun p => (string_bytes p.1, string_bytes p.2)) <$> STATIC_TABLE.
(** Entries are numbered from one, the static ones first. *)
Definition lookup_field (dynamic : list Field) (index : N) : option Field :=
  if index =? 0 then None else (static_fields ++ dynamic) !! N.to_nat (index - 1).
(** The newest fields that fit. *)
Fixpoint keep (limit : N) (l : list Field) : list Field :=
  match l with
  | [] => []
  | f :: l => if field_size f <=? limit then f :: keep (limit - field_size f) l else []
  end.

(** Integers with a prefix, after the bits of [flags]. *)
Fixpoint int_tail (fuel : nat) (x : N) : list N :=
  match fuel with
  | O => [x]
  | S fuel => if x <? 128 then [x] else (128 + x mod 128) :: int_tail fuel (x / 128)
  end.
Definition encode_int (flags : N) (p : IntegerPrefix) (n : N) : list N :=
  if n <? mask p then [flags + n] else (flags + mask p) :: int_tail 9 (n - mask p).

Section Spec.
Variable huffman : list N -> option (list N).

(** A string as it is or in the Huffman code. *)
Inductive encodes_string : list N -> list N -> Prop :=
| enc_raw s : blen s <= usize_max -> encodes_string (encode_int 0 Seven (blen s) ++ s) s
| enc_huffman h s : blen h <= usize_max -> huffman h = Some s ->
    encodes_string (encode_int 128 Seven (blen h) ++ h) s.

(** The name of a literal: of an entry, or spelled. *)
Inductive encodes_name (flags : N) (p : IntegerPrefix) (dynamic : list Field) : list N -> list N -> Prop :=
| enc_name_index i f : i <= usize_max -> lookup_field dynamic i = Some f ->
    encodes_name flags p dynamic (encode_int flags p i) f.1
| enc_name_spelled b name : encodes_string b name ->
    encodes_name flags p dynamic (encode_int flags p 0 ++ b) name.

(** Fields, from a dynamic table of a capacity. *)
Inductive encodes (capacity : N) : list Field -> list N -> list Field -> Prop :=
| enc_end dynamic : encodes capacity dynamic [] []
| enc_indexed dynamic i f block fields :
    i <= usize_max -> lookup_field dynamic i = Some f -> encodes capacity dynamic block fields ->
    encodes capacity dynamic (encode_int 128 Seven i ++ block) (f :: fields)
| enc_incremental dynamic n v name value block fields :
    encodes_name 64 Six dynamic n name -> encodes_string v value ->
    encodes capacity (keep capacity ((name, value) :: dynamic)) block fields ->
    encodes capacity dynamic (n ++ v ++ block) ((name, value) :: fields)
| enc_literal flags dynamic n v name value block fields :
    flags = 0 \/ flags = 16 ->
    encodes_name flags Four dynamic n name -> encodes_string v value ->
    encodes capacity dynamic block fields ->
    encodes capacity dynamic (n ++ v ++ block) ((name, value) :: fields).

(** A block may open with changes of the capacity. *)
Inductive encodes_block : N -> list N -> list Field -> Prop :=
| enc_fields capacity block fields : encodes capacity [] block fields -> encodes_block capacity block fields
| enc_resize capacity c block fields :
    c <= MAX_TABLE -> encodes_block c block fields ->
    encodes_block capacity (encode_int 32 Five c ++ block) fields.
End Spec.

(** Names of pseudo headers and of others. *)
Definition pseudo_name (h : PseudoHeader) : list N :=
  string_bytes match h with
  | Method => ":method" | Authority => ":authority" | Scheme => ":scheme" | Path => ":path"
  | Protocol => ":protocol" end.
Definition regular_name (name : list N) : Prop :=
  exists c rest, name = c :: rest /\ c <> byte_of ":".

(** ** Integers come back *)

Lemma byte_cases (P : N -> bool) :
  forallb P (N.of_nat <$> seq 0 256) = true -> forall b, b < 256 -> P b = true.
Proof.
  intros Hall b Hb. rewrite forallb_forall in Hall. apply Hall. apply list_elem_of_In, list_elem_of_fmap.
  exists (N.to_nat b). rewrite elem_of_seq. lia.
Qed.
Lemma low_bits b : b < 128 -> N.land b 127 = b /\ N.land b 128 = 0 /\
  N.land (128 + b) 127 = b /\ N.land (128 + b) 128 = 128.
Proof.
  intros Hb. pose proof (byte_cases (fun b => negb (b <? 128) ||
    ((N.land b 127 =? b) && (N.land b 128 =? 0) && (N.land (128 + b) 127 =? b) &&
     (N.land (128 + b) 128 =? 128))) ltac:(vm_refl) b ltac:(lia)) as H.
  cbv beta in H. apply N.ltb_lt in Hb. rewrite Hb in H. cbn [negb orb] in H. rewrite !andb_true_iff, !N.eqb_eq in H.
  destruct H as [[[? ?] ?] ?]. done.
Qed.

Lemma int_tail_reads fuel v shift x rest :
  x < 128 ^ N.of_nat (S fuel) -> shift < 64 -> v + x * 2 ^ shift <= usize_max ->
  integer_go v shift (int_tail fuel x ++ rest) = Ok (v + x * 2 ^ shift, rest).
Proof.
  revert v shift x. induction fuel as [|fuel IH]; intros v shift x Hx Hs Hm.
  - change (128 ^ N.of_nat 1) with 128 in Hx. cbn [int_tail app integer_go]. unfold checked_shl1, checked_usize.
    destruct (low_bits x Hx) as (-> & -> & _). destruct (N.ltb_spec shift 64); [|lia]. cbn [ok_or mbind result_bind].
    destruct (N.leb_spec (x * 2 ^ shift) usize_max); [|lia]. cbn [ok_or mbind result_bind].
    destruct (N.leb_spec (v + x * 2 ^ shift) usize_max); [done|lia].
  - cbn [int_tail]. destruct (N.ltb_spec x 128) as [Hlt|Hge].
    + cbn [app integer_go]. unfold checked_shl1, checked_usize.
      destruct (low_bits x Hlt) as (-> & -> & _). destruct (N.ltb_spec shift 64); [|lia]. cbn [ok_or mbind result_bind].
      destruct (N.leb_spec (x * 2 ^ shift) usize_max); [|lia]. cbn [ok_or mbind result_bind].
      destruct (N.leb_spec (v + x * 2 ^ shift) usize_max); [done|lia].
    + pose proof (N.div_mod x 128 ltac:(done)) as Hd. pose proof (N.mod_lt x 128 ltac:(done)) as Hml.
      set (q := x / 128) in *. set (m := x mod 128) in *.
      assert (Hp : 2 ^ (shift + 7) = 128 * 2 ^ shift) by (rewrite N.pow_add_r; change (2 ^ 7) with 128; lia).
      assert (Hs7 : shift + 7 < 64).
      { destruct (N.lt_ge_cases (shift + 7) 64) as [|Hbig]; [done|]. exfalso.
        assert (2 ^ 64 <= 2 ^ (shift + 7)) by (by apply N.pow_le_mono_r).
        assert (2 ^ (shift + 7) <= x * 2 ^ shift) by (rewrite Hp; by apply N.mul_le_mono_r).
        unfold usize_max, u64_max in Hm. change (2 ^ 64) with 18446744073709551616 in *. lia. }
      assert (Hsplit : x * 2 ^ shift = m * 2 ^ shift + q * 2 ^ (shift + 7)) by (rewrite Hp, Hd at 1; nia).
      cbn [app integer_go]. unfold checked_shl1, checked_usize.
      destruct (low_bits m Hml) as (_ & _ & -> & ->). destruct (N.ltb_spec shift 64); [|lia]. cbn [ok_or mbind result_bind].
      destruct (N.leb_spec (m * 2 ^ shift) usize_max); [|lia]. cbn [ok_or mbind result_bind].
      destruct (N.leb_spec (v + m * 2 ^ shift) usize_max); [|lia]. cbn [ok_or mbind result_bind].
      change (128 =? 0) with false. cbn match. rewrite IH; [|  |done|lia].
      * f_equal. f_equal. lia.
      * rewrite Nat2N.inj_succ, N.pow_succ_r' in Hx. apply (N.mul_lt_mono_pos_l 128); [done|]. lia.
Qed.

(** A first byte of flags and a prefix. *)
Definition flags_ok (flags : N) (p : IntegerPrefix) : Prop :=
  flags + mask p < 256 /\ forall x, x <= mask p -> N.land (flags + x) (mask p) = x.
Lemma flags_fine flags p :
  match p with
  | Seven => flags = 0 \/ flags = 128 | Six => flags = 64 | Five => flags = 32 | Four => flags = 0 \/ flags = 16
  end -> flags_ok flags p.
Proof.
  intros Hf. split; [destruct p; cbn [mask]; lia|]. intros x Hx.
  pose proof (byte_cases (fun x => negb (x <=? mask p) || (N.land (flags + x) (mask p) =? x))) as H.
  assert (forallb (fun x => negb (x <=? mask p) || (N.land (flags + x) (mask p) =? x)) (N.of_nat <$> seq 0 256) = true) as Ha.
  { destruct p; [destruct Hf as [-> | ->]|subst flags|subst flags|destruct Hf as [-> | ->]]; vm_refl. }
  specialize (H Ha x). cbv beta in H. apply N.leb_le in Hx. rewrite Hx in H. apply N.eqb_eq, H.
  apply N.leb_le in Hx. destruct p; cbn [mask] in Hx; lia.
Qed.

Lemma integer_reads flags p n rest :
  flags_ok flags p -> n <= usize_max -> integer p (encode_int flags p n ++ rest) = Ok (n, rest).
Proof.
  intros [Hb Hf] Hn. unfold integer, encode_int, read_byte.
  assert (H1 : forall b l, uint 1 (b :: l) = Ok (b, l)).
  { intros b l. apply uint_spec. exists [b]. split_and!; [done..|]. rewrite of_be_bytes_cons. cbn. lia. }
  destruct (N.ltb_spec n (mask p)) as [Hlt|Hge].
  - cbn [app]. rewrite H1. cbn [mbind result_bind]. rewrite Hf by lia.
    by destruct (N.ltb_spec n (mask p)); [|lia].
  - cbn [app]. rewrite H1. cbn [mbind result_bind]. rewrite Hf by lia. rewrite N.ltb_irrefl.
    rewrite int_tail_reads; [|  |done|].
    + f_equal. f_equal. rewrite N.pow_0_r. lia.
    + change (128 ^ N.of_nat 10) with (2 ^ 70). unfold usize_max, u64_max in Hn.
      change (2 ^ 70) with 1180591620717411303424. lia.
    + rewrite N.pow_0_r. lia.
Qed.

Lemma encode_int_head flags p n :
  exists b t, encode_int flags p n = b :: t /\ flags <= b <= flags + mask p.
Proof.
  unfold encode_int. destruct (N.ltb_spec n (mask p)); eexists _, _; (split; [done|lia]).
Qed.

(** ** The reader agrees *)

Definition entry (f : Field) : TableEntry := {| te_name := f.1; te_size := field_size f |}.
(** The reader's table holds what the specification's does. *)
Record agrees (c : N) (dynamic : list Field) (t : DynamicTable) : Prop := {
  ag_ok : table_ok t;
  ag_entries : entries t = entry <$> dynamic;
  ag_capacity : capacity t = c }.

Lemma keep_fit c l : fit c (entry <$> l) = entry <$> keep c l.
Proof.
  revert c. induction l as [|f l IH]; intros c; [done|]. cbn [fmap list_fmap fit keep entry te_size].
  destruct (field_size f <=? c); [|done]. cbn [fmap list_fmap]. f_equal. apply IH.
Qed.

Lemma agrees_get c dynamic t i f :
  agrees c dynamic t -> lookup_field dynamic i = Some f -> table_get t i = Ok (f.1, field_size f).
Proof.
  intros [_ He _]. unfold lookup_field, table_get. destruct (i =? 0); [done|]. cbn [ok_or mbind result_bind].
  assert (Hlen : length static_fields = length STATIC_TABLE) by (unfold static_fields; apply length_fmap).
  destruct (STATIC_TABLE !! N.to_nat (i - 1)) as [[a b]|] eqn:Es.
  - rewrite lookup_app_l by (rewrite Hlen; by eapply lookup_lt_Some).
    unfold static_fields. rewrite list_lookup_fmap, Es. by intros [= <-].
  - apply lookup_ge_None in Es. rewrite lookup_app_r by (rewrite Hlen; lia). intros Hf.
    rewrite He, list_lookup_fmap. rewrite Hlen in Hf.
    replace (N.to_nat (i - 1 - N.of_nat (length STATIC_TABLE))) with (N.to_nat (i - 1) - length STATIC_TABLE)%nat by lia.
    by rewrite Hf.
Qed.

Lemma agrees_insert c dynamic t f t' :
  agrees c dynamic t -> table_insert t (entry f) = Ok t' -> agrees c (keep c (f :: dynamic)) t'.
Proof.
  intros [Ht He Hc] Hi. rewrite insert_spec in Hi by done. apply ok_inj in Hi as <-.
  change (entry f :: entries t) with ([entry f] ++ entries t). rewrite He.
  change ([entry f] ++ (entry <$> dynamic)) with (entry <$> (f :: dynamic)). rewrite keep_fit, Hc. constructor; [|done..].
  rewrite <- keep_fit. apply table_ok_fit; [|rewrite <- Hc; apply Ht].
  cbn [fmap list_fmap]. constructor; [unfold entry, field_size; cbn; lia|]. rewrite <- He. apply Ht.
Qed.

Section Reader.
Variable huffman : list N -> option (list N).

Lemma read_string_spec b s rest :
  encodes_string huffman b s -> read_string huffman (b ++ rest) = Ok (s, rest).
Proof.
  intros Hb. unfold read_string. inversion Hb as [s' Hl|h s' Hl Hh]; subst; clear Hb.
  - destruct (encode_int_head 0 Seven (blen s)) as (x & t & E & Hx). rewrite <- app_assoc.
    replace (head (encode_int 0 Seven (blen s) ++ s ++ rest)) with (Some x) by (by rewrite E).
    cbn [ok_or mbind result_bind]. rewrite integer_reads; [|apply flags_fine; by left|done].
    cbn [mbind result_bind]. unfold blen. rewrite take_app_cursor. cbn [mbind result_bind].
    cbn [mask] in Hx. destruct (low_bits x) as (_ & -> & _); [lia|]. done.
  - destruct (encode_int_head 128 Seven (blen h)) as (x & t & E & Hx). rewrite <- app_assoc.
    replace (head (encode_int 128 Seven (blen h) ++ h ++ rest)) with (Some x) by (by rewrite E).
    cbn [ok_or mbind result_bind]. rewrite integer_reads; [|apply flags_fine; by right|done].
    cbn [mbind result_bind]. unfold blen. rewrite take_app_cursor. cbn [mbind result_bind].
    cbn [mask] in Hx. destruct (low_bits (x - 128)) as (_ & _ & _ & Hbit); [lia|].
    replace (128 + (x - 128)) with x in Hbit by lia. rewrite Hbit. change (128 =? 0) with false. cbn match.
    by rewrite Hh.
Qed.

(** The pass over one field, once its first bytes are known. *)
Lemma representation_of flags p r x :
  match r with Indexed => flags = 128 /\ p = Seven | LiteralIndexed => flags = 64 /\ p = Six
          | Literal => (flags = 0 \/ flags = 16) /\ p = Four | TableSize => flags = 32 /\ p = Five end ->
  flags <= x <= flags + mask p -> representation x = r.
Proof.
  intros Hr Hx. unfold representation.
  destruct r; destruct Hr as [Hf ->]; cbn [mask] in Hx;
    (destruct (N.leb_spec 128 x); [try done; lia|]);
    (destruct (N.leb_spec 64 x); [try done; lia|]);
    (destruct (N.leb_spec 32 x); [try done; lia|]); try done; lia.
Qed.

(** The bytes of a field, and what the specification's table becomes. *)
Inductive one_field (c : N) (dynamic : list Field) : list N -> Field -> list Field -> Prop :=
| one_indexed i f : i <= usize_max -> lookup_field dynamic i = Some f ->
    one_field c dynamic (encode_int 128 Seven i) f dynamic
| one_incremental n v name value :
    encodes_name huffman 64 Six dynamic n name -> encodes_string huffman v value ->
    one_field c dynamic (n ++ v) (name, value) (keep c ((name, value) :: dynamic))
| one_literal flags n v name value : flags = 0 \/ flags = 16 ->
    encodes_name huffman flags Four dynamic n name -> encodes_string huffman v value ->
    one_field c dynamic (n ++ v) (name, value) dynamic.

Lemma name_head flags p dynamic n name :
  encodes_name huffman flags p dynamic n name -> exists b t, n = b :: t /\ flags <= b <= flags + mask p.
Proof.
  intros H. inversion H as [i f _ _|b name' _]; subst; clear H.
  - apply encode_int_head.
  - destruct (encode_int_head flags p 0) as (x & t & E & Hx). exists x, (t ++ b). by rewrite E.
Qed.

(** Reading a literal. *)
Lemma field_literal flags p r c dynamic t n v name value rest :
  agrees c dynamic t -> prefix_of r = p -> r <> Indexed -> flags_ok flags p ->
  encodes_name huffman flags p dynamic n name -> encodes_string huffman v value ->
  field huffman r t (n ++ v ++ rest) = Ok ((name, field_size (name, value)), rest).
Proof.
  intros Ha <- Hr Hf Hn Hv. unfold field. inversion Hn as [i f Hi Hl|b name' Hb]; subst; clear Hn.
  - rewrite integer_reads by done. cbn [mbind result_bind]. rewrite bool_decide_eq_false_2 by done.
    assert (Hz : (i =? 0) = false) by (unfold lookup_field in Hl; by destruct (i =? 0)). rewrite Hz.
    rewrite (agrees_get _ _ _ _ _ Ha Hl). cbn [mbind result_bind fst]. by rewrite (read_string_spec _ _ _ Hv).
  - rewrite <- app_assoc, integer_reads by (done || lia). cbn [mbind result_bind].
    rewrite bool_decide_eq_false_2 by done. rewrite N.eqb_refl.
    rewrite (read_string_spec _ _ _ Hb). cbn [mbind result_bind]. by rewrite (read_string_spec _ _ _ Hv).
Qed.

Lemma field_pass_spec c dynamic dynamic' b f p rest o s :
  one_field c dynamic b f dynamic' -> agrees c dynamic (table p) ->
  header_count p < MAX_HEADERS -> decoded_total p + field_size f <= MAX_DECODED ->
  note f.1 (order p) (seen_regular p) = Ok (o, s) ->
  exists x p', head (b ++ rest) = Some x /\ pass huffman p x (b ++ rest) = Ok (p', rest) /\
    agrees c dynamic' (table p') /\ order p' = o /\ seen_regular p' = s /\
    header_count p' = header_count p + 1 /\ decoded_total p' = decoded_total p + field_size f.
Proof.
  intros Ho Ha Hc Hd Hn.
  assert (Hgen : forall x r t', head (b ++ rest) = Some x -> representation x = r -> r <> TableSize ->
    field huffman r (table p) (b ++ rest) = Ok ((f.1, field_size f), rest) ->
    (if bool_decide (r = LiteralIndexed)
     then table_insert (table p) {| te_name := f.1; te_size := field_size f |} else Ok (table p)) = Ok t' ->
    agrees c dynamic' t' ->
    exists x p', head (b ++ rest) = Some x /\ pass huffman p x (b ++ rest) = Ok (p', rest) /\
      agrees c dynamic' (table p') /\ order p' = o /\ seen_regular p' = s /\
      header_count p' = header_count p + 1 /\ decoded_total p' = decoded_total p + field_size f).
  { intros x r t' Hx Hr Hts Hf Ht Hag. eexists x, _. split; [done|]. unfold pass. rewrite Hr.
    rewrite bool_decide_eq_false_2 by done. unfold field_pass.
    destruct (N.ltb_spec MAX_HEADERS (header_count p + 1)); [lia|]. rewrite Hf. cbn [failing map_err mbind result_bind].
    destruct (N.ltb_spec MAX_DECODED (decoded_total p + field_size f)); [lia|].
    rewrite Hn. cbn [failing map_err mbind result_bind]. rewrite Ht. cbn [mbind result_bind].
    split; [done|]. by split_and!. }
  inversion Ho as [i f' Hi Hl|n v name value Hnm Hv|flags n v name value Hfl Hnm Hv]; subst; clear Ho.
  - destruct (encode_int_head 128 Seven i) as (x & t & E & Hx).
    apply (Hgen x Indexed (table p)); [by rewrite E| |done| |by rewrite bool_decide_eq_false_2|done].
    + by apply (representation_of 128 Seven Indexed).
    + unfold field. cbn [prefix_of]. rewrite integer_reads; [|apply flags_fine; by right|done]. cbn [mbind result_bind].
      rewrite bool_decide_eq_true_2 by done. by rewrite (agrees_get _ _ _ _ _ Ha Hl).
  - destruct (name_head _ _ _ _ _ Hnm) as (x & t & E & Hx).
    pose proof (insert_spec (table p) (entry (name, value)) (ag_ok _ _ _ Ha)) as Hins.
    eapply (Hgen x LiteralIndexed _); [by rewrite E| |done| |rewrite bool_decide_eq_true_2 by done; exact Hins|].
    + by apply (representation_of 64 Six LiteralIndexed).
    + rewrite <- app_assoc. by eapply (field_literal 64 Six LiteralIndexed); [|..|apply flags_fine| |].
    + by eapply agrees_insert.
  - destruct (name_head _ _ _ _ _ Hnm) as (x & t & E & Hx).
    apply (Hgen x Literal (table p)); [by rewrite E| |done| |by rewrite bool_decide_eq_false_2|done].
    + by apply (representation_of flags Four Literal).
    + rewrite <- app_assoc. by eapply (field_literal flags Four Literal); [|..|apply flags_fine| |].
Qed.
End Reader.

Definition fields_size (l : list Field) : N := foldr (fun f n => field_size f + n) 0 l.
(** The order after a list of fields. *)
Fixpoint notes (l : list Field) (o : list PseudoHeader) (s : bool) : result CaptureError (list PseudoHeader * bool) :=
  match l with
  | [] => Ok (o, s)
  | f :: l => '(o, s) ← note f.1 o s; notes l o s
  end.

Section Blocks.
Variable huffman : list N -> option (list N).

(** One more pass of the loop. *)
Lemma block_go_pass fuel p x input p' rest :
  head input = Some x -> pass huffman p x input = Ok (p', rest) ->
  block_go huffman (S fuel) p input = block_go huffman fuel p' rest.
Proof. destruct input as [|b input]; [done|]. intros [= ->] H. cbn [block_go]. by rewrite H. Qed.

Lemma one_field_length c dynamic b f dynamic' : one_field huffman c dynamic b f dynamic' -> (1 <= length b)%nat.
Proof.
  intros H. inversion H as [i f' _ _|n v name value Hn _|flags n v name value _ Hn _]; subst; clear H.
  - destruct (encode_int_head 128 Seven i) as (x & t & -> & _). cbn. lia.
  - destruct (name_head _ _ _ _ _ _ Hn) as (x & t & -> & _). cbn. lia.
  - destruct (name_head _ _ _ _ _ _ Hn) as (x & t & -> & _). cbn. lia.
Qed.

Lemma encodes_cons c dynamic block f fields :
  encodes huffman c dynamic block (f :: fields) ->
  exists b dynamic' rest, block = b ++ rest /\ one_field huffman c dynamic b f dynamic' /\
    encodes huffman c dynamic' rest fields.
Proof.
  intros H. inversion H as [|d i f' block' fields' Hi Hl Hr|d n v name value block' fields' Hn Hv Hr|
    flags d n v name value block' fields' Hf Hn Hv Hr]; subst; clear H.
  - eexists _, _, _. split; [done|]. split; [by constructor|done].
  - eexists (n ++ v), _, _. rewrite <- app_assoc. split; [done|]. split; [by apply one_incremental|done].
  - eexists (n ++ v), _, _. rewrite <- app_assoc. split; [done|]. split; [by eapply one_literal|done].
Qed.

Lemma encodes_read c fields dynamic block p fuel o s :
  encodes huffman c dynamic block fields -> agrees c dynamic (table p) ->
  header_count p + N.of_nat (length fields) <= MAX_HEADERS ->
  decoded_total p + fields_size fields <= MAX_DECODED ->
  notes fields (order p) (seen_regular p) = Ok (o, s) -> (length block <= fuel)%nat ->
  exists p', block_go huffman fuel p block = Some (Ok p') /\ order p' = o.
Proof.
  revert dynamic block p fuel. induction fields as [|f fields IH]; intros dynamic block p fuel He Ha Hc Hd Hn Hl.
  - inversion He; subst. exists p. cbn in Hn. injection Hn as <- <-. by destruct fuel.
  - apply encodes_cons in He as (b & dynamic' & rest & -> & Ho & He).
    cbn [notes] in Hn. apply bind_ok in Hn as ([o1 s1] & Hn1 & Hn2).
    cbn [length fields_size foldr] in *. fold (fields_size fields) in Hd.
    destruct (field_pass_spec huffman c dynamic dynamic' b f p rest o1 s1 Ho Ha ltac:(lia) ltac:(lia) Hn1)
      as (x & p' & Hx & Hp & Ha' & <- & <- & Hc' & Hd').
    apply one_field_length in Ho. rewrite length_app in Hl. destruct fuel as [|fuel]; [lia|].
    rewrite (block_go_pass _ _ _ _ _ _ Hx Hp). apply (IH dynamic'); try done; lia.
Qed.

Lemma encodes_block_read c fields block p fuel o s :
  encodes_block huffman c block fields -> agrees c [] (table p) -> header_count p = 0 ->
  N.of_nat (length fields) <= MAX_HEADERS -> decoded_total p + fields_size fields <= MAX_DECODED ->
  notes fields (order p) (seen_regular p) = Ok (o, s) -> (length block <= fuel)%nat ->
  exists p', block_go huffman fuel p block = Some (Ok p') /\ order p' = o.
Proof.
  intros He. revert p fuel. induction He as [c block fields He|c c' block fields Hc' He IH];
    intros p fuel Ha Hz Hc Hd Hn Hl.
  - eapply encodes_read; try done. by rewrite Hz.
  - destruct (encode_int_head 32 Five c') as (x & t & E & Hx).
    assert (Hpass : exists p', pass huffman p x (encode_int 32 Five c' ++ block) = Ok (p', block) /\
              agrees c' [] (table p') /\ header_count p' = 0 /\ decoded_total p' = decoded_total p /\
              order p' = order p /\ seen_regular p' = seen_regular p).
    { eexists. unfold pass. rewrite (representation_of 32 Five TableSize x) by done.
      rewrite bool_decide_eq_true_2 by done. unfold table_size_pass. rewrite Hz. cbn [negb N.eqb].
      rewrite integer_reads; [|by apply flags_fine|unfold MAX_TABLE, usize_max, u64_max in *; lia].
      cbn [failing map_err mbind result_bind]. rewrite resize_spec by (done || apply Ha). cbn [mbind result_bind].
      split; [done|]. split_and!; try done. constructor; cbn [table]; [|by rewrite (ag_entries _ _ _ Ha)|done].
      apply table_ok_fit; [rewrite (ag_entries _ _ _ Ha); constructor|done]. }
    destruct Hpass as (p' & Hp & Ha' & Hz' & Hd' & Ho' & Hs').
    rewrite E in Hl. cbn [app length] in Hl. destruct fuel as [|fuel]; [lia|].
    rewrite (block_go_pass _ _ x _ p' block); [|by rewrite E|done].
    apply IH; try done; [by rewrite Hd'|by rewrite Ho', Hs'|rewrite length_app in Hl; lia].
Qed.

Lemma pseudo_name_head h : exists rest, pseudo_name h = byte_of ":" :: rest.
Proof. destruct h; by eexists. Qed.
Lemma pseudo_of_name h : pseudo_of (pseudo_name h) = Ok h.
Proof. destruct h; vm_refl. Qed.

Lemma notes_regular fields o s :
  Forall (fun f : Field => regular_name f.1) fields -> exists s', notes fields o s = Ok (o, s').
Proof.
  intros Hf. revert s. induction Hf as [|[n v] fields (c & rest & En & Hc) Hf IH]; intros s; [by eexists|].
  cbn [notes fst] in *. rewrite En. unfold note. destruct (N.eqb_spec c (byte_of ":")); [done|]. apply IH.
Qed.
Lemma notes_pseudo (pseudo : list (PseudoHeader * list N)) regular o :
  NoDup (o ++ pseudo.*1) -> Forall (fun f : Field => regular_name f.1) regular ->
  exists s, notes (((fun p => (pseudo_name p.1, p.2)) <$> pseudo) ++ regular) o false = Ok (o ++ pseudo.*1, s).
Proof.
  intros Hnd Hr. revert o Hnd. induction pseudo as [|[h v] pseudo IH]; intros o Hnd.
  - cbn [fmap list_fmap app]. rewrite app_nil_r. by apply notes_regular.
  - cbn [fmap list_fmap app notes fst snd] in *. destruct (pseudo_name_head h) as [rest E].
    assert (Hn : note (pseudo_name h) o false = Ok (o ++ [h], false)).
    { unfold note. pose proof (pseudo_of_name h) as Hp. rewrite E in Hp |- *. rewrite N.eqb_refl, Hp.
      cbn [mbind result_bind orb]. rewrite bool_decide_eq_false_2; [done|]. intros Hin.
      apply NoDup_app in Hnd as (_ & Hd & _). apply (Hd h Hin). by left. }
    rewrite Hn. cbn [mbind result_bind].
    replace (o ++ h :: pseudo.*1) with ((o ++ [h]) ++ pseudo.*1) by by rewrite <- app_assoc.
    apply IH. by rewrite <- app_assoc.
Qed.

(** C9: the reader reports the order of the pseudo headers. For every block that
    encodes, by RFC 7541 and with whatever indexing, Huffman coding and changes of
    the table's capacity, pseudo headers once each followed by other fields,
    within the limits on a block, its fields and their size, the reader gives the
    pseudo headers in the order of the fields. *)
Theorem order_of_encoded block (pseudo : list (PseudoHeader * list N)) regular :
  let fields := ((fun p => (pseudo_name p.1, p.2)) <$> pseudo) ++ regular in
  encodes_block huffman MAX_TABLE block fields ->
  NoDup pseudo.*1 -> Forall (fun f : Field => regular_name f.1) regular ->
  blen block <= MAX_BLOCK -> N.of_nat (length fields) <= MAX_HEADERS -> fields_size fields <= MAX_DECODED ->
  pseudo_header_order huffman block = Some (Ok pseudo.*1).
Proof.
  intros fields He Hnd Hr Hb Hc Hd. unfold pseudo_header_order. destruct (N.ltb_spec MAX_BLOCK (blen block)); [lia|].
  destruct (notes_pseudo pseudo regular [] Hnd Hr) as [s Hn].
  destruct (encodes_block_read MAX_TABLE fields block progress_init (length block) pseudo.*1 s He) as (p' & -> & Ho);
    try done.
  change (Some (Ok (order p') : result Stop (list PseudoHeader)) = Some (Ok pseudo.*1)). by rewrite Ho.
Qed.
End Blocks.

(** A block of each kind of field, as a browser sends it. *)
Definition example_huffman (l : list N) : option (list N) :=
  if bool_decide (l = [1]) then Some (string_bytes "agent") else None.
Definition example_pseudo : list (PseudoHeader * list N) :=
  [(Method, string_bytes "GET"); (Authority, string_bytes "example.org"); (Scheme, string_bytes "https");
   (Path, string_bytes "/")].
Definition example_block : list N :=
  encode_int 32 Five 100 ++ encode_int 128 Seven 2 ++
  encode_int 64 Six 1 ++ (encode_int 0 Seven 11 ++ string_bytes "example.org") ++
  encode_int 128 Seven 7 ++ encode_int 128 Seven 4 ++
  encode_int 16 Four 58 ++ (encode_int 128 Seven 1 ++ [1]).
Lemma order_of_encoded_witness :
  pseudo_header_order example_huffman example_block = Some (Ok [Method; Authority; Scheme; Path]).
Proof.
  apply (order_of_encoded example_huffman example_block example_pseudo
           [(string_bytes "user-agent", string_bytes "agent")]).
  - unfold example_block. apply enc_resize; [by vm_compute|]. apply enc_fields.
    apply (enc_indexed _ _ _ 2); [by vm_compute|vm_refl|].
    apply (enc_incremental _ _ _ (encode_int 64 Six 1) (encode_int 0 Seven 11 ++ string_bytes "example.org")).
    + apply (enc_name_index _ 64 Six _ 1 (string_bytes ":authority", [])); [by vm_compute|vm_refl].
    + by apply (enc_raw _ (string_bytes "example.org")).
    + apply (enc_indexed _ _ _ 7); [by vm_compute|vm_refl|].
      apply (enc_indexed _ _ _ 4); [by vm_compute|vm_refl|].
      replace (encode_int 16 Four 58 ++ encode_int 128 Seven 1 ++ [1])
        with (encode_int 16 Four 58 ++ (encode_int 128 Seven 1 ++ [1]) ++ []) by vm_refl.
      apply (enc_literal _ _ 16); [by right| | |apply enc_end].
      * apply (enc_name_index _ 16 Four _ 58 (string_bytes "user-agent", [])); [by vm_compute|vm_refl].
      * by apply (enc_huffman _ [1]).
  - apply (bool_decide_unpack _). by vm_compute.
  - repeat constructor. by eexists _, _.
  - by vm_compute.
  - by vm_compute.
  - by vm_compute.
Defined.
