(* ===== verification/Http2.v ===== *)
(** * HTTP/2 fingerprints

    [crates/bagel-web/src/http2/mod.rs] and [frame.rs]: the frames at the start of
    a connection, the capture made of them, and the stream that observes what is
    read through it. A non-zero number is a number the reader has checked. *)

From S2P Require Import Prelude Strings Ip Bytes Wire Hpack.

Local Open Scope N_scope.

(** ** Frames *)

Definition Settings : Type := list (N * N).
Definition bad_setting (identifier value : N) : bool :=
  (((identifier =? 2) || (identifier =? 8) || (identifier =? 9)) && (1 <? value)) ||
  ((identifier =? 4) && (2147483647 <? value)) ||
  ((identifier =? 5) && negb ((16384 <=? value) && (value <=? 16777215))).
Definition setting_pass (entries : Settings) (input : list N) : Read Settings :=
  '(identifier, input) ← u16 input;
  '(value, input) ← u32 input;
  if bad_setting identifier value then Err Invalid else Ok (entries ++ [(identifier, value)], input).
Definition settings_of (payload : list N) : result CaptureError Settings := drain setting_pass [] payload.
Definition show_settings (s : Settings) : string :=
  str_join ";" ((fun e => show_N e.1 +:+ ":" +:+ show_N e.2) <$> s).

Record Priority : Type := { pr_stream : N; exclusive : bool; parent : N; weight : N }.
Definition nonzero (n : N) : option N := if n =? 0 then None else Some n.
Definition priority_decode (stream : N) (input : list N) : Read Priority :=
  '(dependency, input) ← u32 input;
  let parent := N.land dependency 2147483647 in
  stream ← ok_or Invalid (s ← nonzero stream; if s =? parent then None else Some s);
  '(weight, input) ← read_byte input;
  Ok ({| pr_stream := stream; exclusive := negb (N.shiftr dependency 31 =? 0); parent := parent;
         weight := weight |}, input).
Definition show_priority (p : Priority) : string :=
  show_N (pr_stream p) +:+ ":" +:+ (if exclusive p then "1" else "0") +:+ ":" +:+ show_N (parent p) +:+ ":" +:+
  show_N (weight p + 1).

Record HeaderFragment : Type := { hf_stream : N; hf_block : list N; hf_complete : bool }.

Inductive Frame : Type :=
| FSettings (s : Settings)
| FSettingsAck
| FWindowUpdate (stream increment : N)
| FPriority (p : Priority)
| FHeaders (f : HeaderFragment)
| FContinuation (f : HeaderFragment)
| FOther.

Definition flag (flags bit : N) : bool := negb (N.land flags bit =? 0).
(** The fragment of a HEADERS or CONTINUATION frame. *)
Definition header_fragment (kind flags stream : N) (body : list N) : result CaptureError HeaderFragment :=
  stream ← ok_or Invalid (s ← nonzero stream; if N.even s then None else Some s);
  body ← (if (kind =? 1) && flag flags 8 then
            '(padding, body) ← read_byte body;
            unpadded ← ok_or Invalid (if blen body <? padding then None else Some (blen body - padding));
            '(body, _) ← take_ unpadded body; Ok body
          else Ok body);
  body ← (if (kind =? 1) && flag flags 32 then '(_, body) ← priority_decode stream body; Ok body else Ok body);
  Ok {| hf_stream := stream; hf_block := body; hf_complete := flag flags 4 |}.
(** A frame from its header and its payload. *)
Definition frame_body (kind flags stream : N) (payload : list N) : result CaptureError Frame :=
  if kind =? 4 then
    if negb (stream =? 0) then Err Invalid
    else if negb (flag flags 1) then s ← settings_of payload; Ok (FSettings s)
    else finish payload ;; Ok FSettingsAck
  else if kind =? 8 then
    '(word, body) ← u32 payload;
    increment ← ok_or Invalid (nonzero (N.land word 2147483647));
    finish body ;; Ok (FWindowUpdate stream increment)
  else if kind =? 2 then
    '(priority, body) ← priority_decode stream payload; finish body ;; Ok (FPriority priority)
  else if (kind =? 1) || (kind =? 9) then
    fragment ← header_fragment kind flags stream payload;
    Ok (if kind =? 1 then FHeaders fragment else FContinuation fragment)
  else if (kind =? 0) || (kind =? 5) then Err Invalid
  else Ok FOther.
Definition frame_decode (data : list N) : result CaptureError (option (Frame * N)) :=
  if blen data <? 9 then Ok None
  else
    '(length, input) ← u24 data;
    if 16384 <? length then Err Limited
    else
      '(kind, input) ← read_byte input;
      '(flags, input) ← read_byte input;
      '(word, input) ← u32 input;
      match take_ length input with
      | Err _ => Ok None
      | Ok (payload, _) =>
          frame ← frame_body kind flags (N.land word 2147483647) payload;
          Ok (Some (frame, 9 + length))
      end.

(** ** Fingerprints *)

Record Http2Fingerprint : Type := {
  settings : Settings; window_update : option N; priorities : list Priority;
  pseudo_headers : list PseudoHeader }.
Definition window_update_text (f : Http2Fingerprint) : string :=
  match window_update f with Some n => show_N n | None => "00" end.
Definition priority_text (f : Http2Fingerprint) : string :=
  match priorities f with [] => "0" | ps => str_join "," (show_priority <$> ps) end.
Definition show_fingerprint (f : Http2Fingerprint) : string :=
  show_settings (settings f) +:+ "|" +:+ window_update_text f +:+ "|" +:+ priority_text f +:+ "|" +:+
  show_order (pseudo_headers f).
Definition http2_policy_fields (f : Http2Fingerprint) : gmap string string :=
  list_to_map [("http2_source", "transport"); ("http2", show_fingerprint f);
    ("http2_settings", show_settings (settings f)); ("http2_window_update", window_update_text f);
    ("http2_priority", priority_text f); ("http2_pseudo_headers", show_order (pseudo_headers f))].

(** ** The capture of a connection *)

Inductive HeaderBlock : Type := Pending | Continuing (stream : N) (encoded : list N).
Record ConnectionCapture : Type := {
  cc_settings : Settings; cc_window_update : option N; cc_priorities : list Priority;
  cc_headers : HeaderBlock }.
Definition capture_new (s : Settings) : ConnectionCapture :=
  {| cc_settings := s; cc_window_update := None; cc_priorities := []; cc_headers := Pending |}.

Definition PREFACE : list N := Eval vm_compute in
  string_bytes "PRI * HTTP/2.0" ++ [13; 10; 13; 10] ++ string_bytes "SM" ++ [13; 10; 13; 10].
Definition CAPTURE_LIMIT : N := 65536.
Definition FRAME_LIMIT : N := 128.

Section Observer.
Variable huffman : list N -> option (list N).

(** The order a block gives; a panic would be one of the connection's task. *)
Definition order_of (block : list N) : result Stop (list PseudoHeader) :=
  default (Err Panic) (pseudo_header_order huffman block).

(** [ConnectionCapture::frame]. *)
Definition with_headers (c : ConnectionCapture) (h : HeaderBlock) : ConnectionCapture :=
  {| cc_settings := cc_settings c; cc_window_update := cc_window_update c;
     cc_priorities := cc_priorities c; cc_headers := h |}.
Definition capture_frame (c : ConnectionCapture) (f : Frame) :
    result Stop (option (list PseudoHeader) * ConnectionCapture) :=
  match cc_headers c, f with
  | Pending, FHeaders fragment =>
      if hf_complete fragment then o ← order_of (hf_block fragment); Ok (Some o, c)
      else Ok (None, with_headers c (Continuing (hf_stream fragment) (hf_block fragment)))
  | Continuing stream encoded, FContinuation fragment =>
      if negb (stream =? hf_stream fragment) then Err (Fail Invalid)
      else
        let encoded := encoded ++ hf_block fragment in
        let c := with_headers c (Continuing stream encoded) in
        if hf_complete fragment then o ← order_of encoded; Ok (Some o, c) else Ok (None, c)
  | Pending, FWindowUpdate stream increment =>
      Ok (None, if stream =? 0
                then {| cc_settings := cc_settings c;
                        cc_window_update := Some (default increment (cc_window_update c));
                        cc_priorities := cc_priorities c; cc_headers := cc_headers c |}
                else c)
  | Pending, FPriority p =>
      Ok (None, {| cc_settings := cc_settings c; cc_window_update := cc_window_update c;
                   cc_priorities := cc_priorities c ++ [p]; cc_headers := cc_headers c |})
  | Pending, (FSettings _ | FSettingsAck | FOther) => Ok (None, c)
  | Pending, FContinuation _ | Continuing _ _, _ => Err (Fail Invalid)
  end.

(** ** The observer *)

Record Observer : Type := {
  buffer : list N; position : N; frames : N; capture : option ConnectionCapture }.
Definition observer_default : Observer := {| buffer := []; position := 0; frames := 0; capture := None |}.

(** What a feed comes to: waiting for more, or an answer. *)
Inductive Fed : Type :=
| More (position frames : N) (capture : option ConnectionCapture)
| Answer (r : result Stop (Capture Http2Fingerprint)).

Definition fingerprint_of (c : ConnectionCapture) (o : list PseudoHeader) : Http2Fingerprint :=
  {| settings := cc_settings c; window_update := cc_window_update c; priorities := cc_priorities c;
     pseudo_headers := o |}.

(** One turn of the loop of [feed]. *)
Definition feed_turn (data : list N) (position frames : N) (capture : option ConnectionCapture) :
    Fed + (N * N * option ConnectionCapture) :=
  match frame_decode (drop (N.to_nat position) data) with
  | Err e => inl (Answer (Err (Fail e)))
  | Ok None => inl (More position frames capture)
  | Ok (Some (frame, consumed)) =>
      if FRAME_LIMIT <=? frames then inl (Answer (Err (Fail Limited)))
      else
        let frames := frames + 1 in
        let position := position + consumed in
        match capture with
        | None =>
            match frame with
            | FSettings s => inr (position, frames, Some (capture_new s))
            | _ => inl (Answer (Err (Fail Invalid)))
            end
        | Some c =>
            match capture_frame c frame with
            | Err e => inl (Answer (Err e))
            | Ok (None, c) => inr (position, frames, Some c)
            | Ok (Some o, c) =>
                let f := fingerprint_of c o in
                inl (Answer (if 4096 <? N.of_nat (String.length (show_fingerprint f))
                             then Err (Fail Limited) else Ok (Complete f)))
            end
        end
  end.
(** The loop; a turn that goes on counts a frame, so one more turn than the limit
    is enough ([feed_loop_ends]). *)
Fixpoint feed_loop (fuel : nat) (data : list N) (position frames : N) (capture : option ConnectionCapture) :
    option Fed :=
  match fuel with
  | O => None
  | S fuel =>
      match feed_turn data position frames capture with
      | inl fed => Some fed
      | inr (position, frames, capture) => feed_loop fuel data position frames capture
      end
  end.
Definition feed_fuel : nat := S (N.to_nat FRAME_LIMIT).

(** [Observer::feed]: [Ok(None)] is [None]. *)
Definition feed (incoming : list N) (ob : Observer) : option (result Stop (Capture Http2Fingerprint)) * Observer :=
  let data := buffer ob ++ take (N.to_nat (CAPTURE_LIMIT - blen (buffer ob))) incoming in
  let waiting := {| buffer := data; position := position ob; frames := frames ob; capture := capture ob |} in
  let prefix := take (length PREFACE) data in
  if (position ob =? 0) && negb (bool_decide (prefix = take (length prefix) PREFACE))
  then (Some (Ok Unavailable), waiting)
  else if (position ob =? 0) && (blen data <? blen PREFACE) then (None, waiting)
  else
    let start := if position ob =? 0 then blen PREFACE else position ob in
    match default (Answer (Err Panic)) (feed_loop feed_fuel data start (frames ob) (capture ob)) with
    | Answer r => (Some r, waiting)
    | More position frames capture =>
        (if blen data =? CAPTURE_LIMIT then Some (Err (Fail Limited)) else None,
         {| buffer := data; position := position; frames := frames; capture := capture |})
    end.

(** ** The stream *)

Record FingerprintStream : Type := { observer : option Observer; fingerprint : Capture Http2Fingerprint }.
Definition stream_new : FingerprintStream :=
  {| observer := Some observer_default; fingerprint := Failed Incomplete |}.
(** [poll_read] once bytes arrived; [None] if the task panics. *)
Definition stream_read (incoming : list N) (s : FingerprintStream) : option FingerprintStream :=
  match observer s, incoming with
  | Some ob, _ :: _ =>
      match feed incoming ob with
      | (Some (Ok c), _) => Some {| observer := None; fingerprint := c |}
      | (Some (Err (Fail e)), _) => Some {| observer := None; fingerprint := Failed e |}
      | (Some (Err Panic), _) => None
      | (None, ob) => Some {| observer := Some ob; fingerprint := fingerprint s |}
      end
  | _, _ => Some s
  end.
Fixpoint stream_reads (reads : list (list N)) (s : FingerprintStream) : option FingerprintStream :=
  match reads with
  | [] => Some s
  | incoming :: reads => s ← stream_read incoming s; stream_reads reads s
  end.
End Observer.
