(* ===== verification/Http2Facts.v ===== *)
(** * HTTP/2 captures do not depend on the reads

    What a connection's fingerprint is depends on the bytes of the connection, not
    on how they arrive; and observing them never panics. *)

From S2P Require Import Prelude Strings Ip Bytes Wire Hpack HpackSpec Http2.

Local Open Scope N_scope.

(** ** Frames of a longer buffer *)

Lemma blen_app (a b : list N) : blen (a ++ b) = blen a + blen b.
Proof. unfold blen. rewrite length_app. lia. Qed.

Lemma frame_decode_more d more :
  match frame_decode d with
  | Ok None => True
  | Ok (Some (f, n)) => frame_decode (d ++ more) = Ok (Some (f, n)) /\ 9 <= n <= blen d
  | Err e => frame_decode (d ++ more) = Err e
  end.
Proof.
  unfold frame_decode. destruct (N.ltb_spec (blen d) 9) as [Hs|Hl]; [done|].
  rewrite blen_app. destruct (N.ltb_spec (blen d + blen more) 9); [lia|].
  destruct (u24 d) as [[n i1]|e] eqn:E1.
  2:{ unfold u24 in *. apply uint_err in E1 as [_ ?]. unfold blen in *. lia. }
  unfold u24, read_byte, u32 in *. rewrite (uint_more _ _ _ _ more E1). cbn [mbind result_bind].
  destruct (N.ltb_spec 16384 n); [done|].
  apply uint_length in E1. unfold blen in Hl.
  destruct (uint 1 i1) as [[k i2]|e] eqn:E2; [|apply uint_err in E2 as [_ ?]; lia].
  rewrite (uint_more _ _ _ _ more E2). cbn [mbind result_bind]. apply uint_length in E2.
  destruct (uint 1 i2) as [[fl i3]|e] eqn:E3; [|apply uint_err in E3 as [_ ?]; lia].
  rewrite (uint_more _ _ _ _ more E3). cbn [mbind result_bind]. apply uint_length in E3.
  destruct (uint 4 i3) as [[w i4]|e] eqn:E4; [|apply uint_err in E4 as [_ ?]; lia].
  rewrite (uint_more _ _ _ _ more E4). cbn [mbind result_bind]. apply uint_length in E4.
  destruct (take_ n i4) as [[payload i5]|e] eqn:E5; [|done].
  rewrite (take_more _ _ _ _ more E5). apply take_length_rest in E5.
  destruct (frame_body _ _ _ payload) as [f|e]; cbn [mbind result_bind]; [|done].
  split; [done|]. unfold blen. lia.
Qed.

(** ** The loop *)

Section Loop.
Variable huffman : list N -> option (list N).

Notation Capture_ := (option ConnectionCapture).

(** Within a buffer and the frame limit. *)
Definition within (d : list N) (pos fr : N) : Prop := pos <= blen d /\ fr <= FRAME_LIMIT.

Lemma turn_more d more pos fr (cap : Capture_) :
  within d pos fr ->
  match feed_turn huffman d pos fr cap with
  | inl (More p f c) => p = pos /\ f = fr /\ c = cap
  | inl (Answer r) => feed_turn huffman (d ++ more) pos fr cap = inl (Answer r)
  | inr (p, f, c) => feed_turn huffman (d ++ more) pos fr cap = inr (p, f, c) /\
      within d p f /\ f = fr + 1 /\ pos < p
  end.
Proof.
  intros [Hp Hf]. unfold feed_turn. unfold blen in Hp.
  rewrite (drop_app_le d more) by lia.
  pose proof (frame_decode_more (drop (N.to_nat pos) d) more) as Hm.
  destruct (frame_decode (drop (N.to_nat pos) d)) as [[[f n]|]|e]; [|done|by rewrite Hm].
  destruct Hm as [-> Hn]. unfold blen in Hn. rewrite length_drop in Hn.
  destruct (N.leb_spec FRAME_LIMIT fr); [done|].
  assert (Hw : within d (pos + n) (fr + 1)) by (unfold within, blen; lia).
  destruct cap as [c|].
  - destruct (capture_frame huffman c f) as [[[o|] c']|e]; [done| |done]. split_and!; [done..|lia].
  - destruct f; try done. split_and!; [done..|lia].
Qed.

Lemma loop_enough fuel d pos fr (cap : Capture_) :
  within d pos fr -> FRAME_LIMIT - fr < N.of_nat fuel -> exists fed, feed_loop huffman fuel d pos fr cap = Some fed.
Proof.
  revert pos fr cap. induction fuel as [|fuel IH]; intros pos fr cap Hw Hf; [lia|].
  cbn [feed_loop]. pose proof (turn_more d [] pos fr cap Hw) as Ht.
  destruct (feed_turn huffman d pos fr cap) as [fed|[[p f] c]]; [by eexists|].
  destruct Ht as (_ & Hw' & -> & _). apply IH; [done|]. destruct Hw'. lia.
Qed.
Lemma loop_mono fuel fuel' d pos fr (cap : Capture_) fed :
  (fuel <= fuel')%nat -> feed_loop huffman fuel d pos fr cap = Some fed ->
  feed_loop huffman fuel' d pos fr cap = Some fed.
Proof.
  revert fuel' pos fr cap. induction fuel as [|fuel IH]; intros fuel' pos fr cap Hl; [done|].
  destruct fuel' as [|fuel']; [lia|]. cbn [feed_loop].
  destruct (feed_turn huffman d pos fr cap) as [?|[[p f] c]]; [done|]. apply IH. lia.
Qed.

(** The loop with the fuel [feed] gives it, and its unfolding. *)
Definition run (d : list N) (pos fr : N) (cap : Capture_) : Fed :=
  default (Answer (Err Panic)) (feed_loop huffman feed_fuel d pos fr cap).
Lemma run_eq d pos fr cap :
  within d pos fr ->
  run d pos fr cap = match feed_turn huffman d pos fr cap with
                     | inl fed => fed
                     | inr (p, f, c) => run d p f c
                     end.
Proof.
  intros Hw. unfold run at 1. unfold feed_fuel at 1. cbn [feed_loop]. pose proof (turn_more d [] pos fr cap Hw) as Ht.
  destruct (feed_turn huffman d pos fr cap) as [fed|[[p f] c]]; [done|].
  destruct Ht as (_ & Hw' & -> & _).
  destruct (loop_enough (N.to_nat FRAME_LIMIT) d p (fr + 1) c Hw') as [fed E]; [destruct Hw, Hw'; lia|].
  unfold run, feed_fuel. rewrite E. by rewrite (loop_mono _ (S (N.to_nat FRAME_LIMIT)) _ _ _ _ _ (Nat.le_succ_diag_r _) E).
Qed.

Lemma run_more d more pos fr (cap : Capture_) :
  within d pos fr ->
  match run d pos fr cap with
  | Answer r => run (d ++ more) pos fr cap = Answer r
  | More p f c => run (d ++ more) pos fr cap = run (d ++ more) p f c /\ within d p f /\ pos <= p
  end.
Proof.
  remember (N.to_nat (FRAME_LIMIT - fr)) as k eqn:Ek. revert pos fr cap Ek.
  induction k as [k IH] using lt_wf_ind. intros pos fr cap -> Hw.
  assert (Hw' : within (d ++ more) pos fr) by (destruct Hw; split; [rewrite blen_app; lia|done]).
  rewrite (run_eq d), (run_eq (d ++ more)) by done. pose proof (turn_more d more pos fr cap Hw) as Ht.
  destruct (feed_turn huffman d pos fr cap) as [[p f c|r]|[[p f] c]].
  - destruct Ht as (-> & -> & ->). split; [by rewrite <- run_eq|]. split; [done|lia].
  - by rewrite Ht.
  - destruct Ht as (-> & Hw1 & -> & Hp). pose proof (IH (N.to_nat (FRAME_LIMIT - (fr + 1)))) as IH1.
    specialize (IH1 ltac:(destruct Hw1; lia) p (fr + 1) c eq_refl Hw1).
    destruct (run d p (fr + 1) c) as [p' f' c'|r]; [|done]. destruct IH1 as (-> & ? & ?). split; [done|]. split; [done|lia].
Qed.

(** Nothing in the loop panics. *)
Lemma order_of_no_panic block : order_of huffman block <> Err Panic.
Proof. unfold order_of. destruct (block_always_ends huffman block) as (r & -> & Hn & _). done. Qed.
Lemma capture_frame_no_panic c f : capture_frame huffman c f <> Err Panic.
Proof.
  unfold capture_frame. destruct (cc_headers c), f; try done.
  - destruct (hf_complete _); [|done]. rewrite bind_err. intros [H|(o & _ & H)]; [by apply order_of_no_panic in H|done].
  - destruct (negb _); [done|]. destruct (hf_complete _); [|done]. rewrite bind_err.
    intros [H|(o & _ & H)]; [by apply order_of_no_panic in H|done].
Qed.
Lemma turn_no_panic d pos fr cap : feed_turn huffman d pos fr cap <> inl (Answer (Err Panic)).
Proof.
  unfold feed_turn. destruct (frame_decode _) as [[[f n]|]|e]; [|done..].
  destruct (_ <=? _); [done|]. destruct cap as [c|]; [|by destruct f].
  pose proof (capture_frame_no_panic c f) as Hc. destruct (capture_frame huffman c f) as [[[o|] c']|e]; [|done|].
  - by destruct (_ <? _).
  - intros [= ->]. by apply Hc.
Qed.
Lemma run_no_panic d pos fr cap : within d pos fr -> run d pos fr cap <> Answer (Err Panic).
Proof.
  remember (N.to_nat (FRAME_LIMIT - fr)) as k eqn:Ek. revert pos fr cap Ek.
  induction k as [k IH] using lt_wf_ind. intros pos fr cap -> Hw. rewrite run_eq by done.
  pose proof (turn_more d [] pos fr cap Hw) as Ht. pose proof (turn_no_panic d pos fr cap) as Hn.
  destruct (feed_turn huffman d pos fr cap) as [[p f c|r]|[[p f] c]]; [done|by intros [= ->]|].
  destruct Ht as (_ & Hw1 & -> & _). eapply IH; [|done|done]. destruct Hw1. lia.
Qed.
End Loop.

(** ** Feeding *)

Section Feeding.
Variable huffman : list N -> option (list N).

(** [feed] after the bytes are taken in. *)
Definition settle (data : list N) (ob : Observer) : option (result Stop (Capture Http2Fingerprint)) * Observer :=
  let waiting := {| buffer := data; position := position ob; frames := frames ob; capture := capture ob |} in
  let prefix := take (length PREFACE) data in
  if (position ob =? 0) && negb (bool_decide (prefix = take (length prefix) PREFACE))
  then (Some (Ok Unavailable), waiting)
  else if (position ob =? 0) && (blen data <? blen PREFACE) then (None, waiting)
  else
    let start := if position ob =? 0 then blen PREFACE else position ob in
    match run huffman data start (frames ob) (capture ob) with
    | Answer r => (Some r, waiting)
    | More position frames capture =>
        (if blen data =? CAPTURE_LIMIT then Some (Err (Fail Limited)) else None,
         {| buffer := data; position := position; frames := frames; capture := capture |})
    end.
Definition room (ob : Observer) : N := CAPTURE_LIMIT - blen (buffer ob).
Lemma feed_settle incoming ob :
  feed huffman incoming ob = settle (buffer ob ++ take (N.to_nat (room ob)) incoming) ob.
Proof. done. Qed.

Record observer_ok (ob : Observer) : Prop := {
  oo_within : within (buffer ob) (position ob) (frames ob);
  oo_limit : blen (buffer ob) < CAPTURE_LIMIT }.

Lemma prefix_shorter (d x : list N) :
  take (length PREFACE) (d ++ x) = take (length (take (length PREFACE) (d ++ x))) PREFACE ->
  take (length PREFACE) d = take (length (take (length PREFACE) d)) PREFACE.
Proof.
  intros H. assert (E : take (length PREFACE) d = take (length (take (length PREFACE) d)) (take (length PREFACE) (d ++ x))).
  { rewrite take_take, length_take. generalize (length PREFACE). intros n. destruct (Nat.le_gt_cases n (length d)).
    - replace (Nat.min (Nat.min n (length d)) n) with n by lia. by rewrite take_app_le.
    - rewrite (take_ge d) by lia. replace (Nat.min (Nat.min n (length d)) n) with (length d) by lia.
      by rewrite take_app_length. }
  rewrite E at 1. rewrite H at 1. rewrite take_take. f_equal. rewrite !length_take, length_app. lia.
Qed.

(** The same, for two feeds: equal answers, and equal states while waiting. *)
Definition same_feed (a b : option (result Stop (Capture Http2Fingerprint)) * Observer) : Prop :=
  a.1 = b.1 /\ (a.1 = None -> a.2 = b.2).

Lemma start_within ob d :
  ((position ob =? 0) = true -> blen PREFACE <= blen d) -> within d (position ob) (frames ob) ->
  within d (if position ob =? 0 then blen PREFACE else position ob) (frames ob).
Proof. intros Hs [Hp Hf]. split; [|done]. destruct (position ob =? 0); [by apply Hs|done]. Qed.

Lemma settle_more d x ob :
  within d (position ob) (frames ob) -> blen (d ++ x) <= CAPTURE_LIMIT -> x <> [] ->
  match settle d ob with
  | (Some r, _) => (settle (d ++ x) ob).1 = Some r
  | (None, ob') => buffer ob' = d /\ observer_ok ob' /\ same_feed (settle (d ++ x) ob') (settle (d ++ x) ob)
  end.
Proof.
  intros Hw Hl Hx. assert (Hxl : 0 < blen x) by (destruct x; [done|]; unfold blen; cbn [length]; lia).
  rewrite blen_app in Hl. unfold settle at 1. cbv zeta.
  destruct ((position ob =? 0) && negb (bool_decide _)) eqn:Epre.
  { apply andb_true_iff in Epre as [Ep Em]. apply negb_true_iff, bool_decide_eq_false_1 in Em.
    unfold settle. cbv zeta. rewrite Ep, bool_decide_eq_false_2; [done|]. intros E. by apply Em, (prefix_shorter d x). }
  destruct ((position ob =? 0) && (blen d <? blen PREFACE)) eqn:Eshort.
  { split; [done|]. split; [|by split]. constructor; cbn [buffer position frames]; [done|]. lia. }
  assert (Hst : (position ob =? 0) = true -> blen PREFACE <= blen d).
  { intros Ep. rewrite Ep in Eshort. cbn [andb] in Eshort. by apply N.ltb_ge. }
  assert (Hmore : settle (d ++ x) ob =
    match run huffman (d ++ x) (if position ob =? 0 then blen PREFACE else position ob) (frames ob) (capture ob) with
    | Answer r => (Some r, {| buffer := d ++ x; position := position ob; frames := frames ob; capture := capture ob |})
    | More position frames capture =>
        (if blen (d ++ x) =? CAPTURE_LIMIT then Some (Err (Fail Limited)) else None,
         {| buffer := d ++ x; position := position; frames := frames; capture := capture |})
    end).
  { unfold settle. cbv zeta. destruct (position ob =? 0); [|done]. specialize (Hst eq_refl). cbn [andb] in *.
    unfold blen in Hst. rewrite (take_app_le d x) by lia. rewrite Epre.
    rewrite blen_app. destruct (N.ltb_spec (blen d + blen x) (blen PREFACE)); [unfold blen in *; lia|done]. }
  pose proof (run_more huffman d x _ (frames ob) (capture ob) (start_within ob d Hst Hw)) as Hr.
  destruct (run huffman d _ (frames ob) (capture ob)) as [p f c|r]; [|by rewrite Hmore, Hr].
  destruct (N.eqb_spec (blen d) CAPTURE_LIMIT); [lia|]. destruct Hr as (Hr & Hw' & Hge).
  split; [done|]. split; [constructor; cbn [buffer position frames]; [done|lia]|].
  rewrite Hmore, Hr. unfold settle. cbn [position frames capture]. cbv zeta.
  assert (Hp0 : (p =? 0) = false).
  { apply N.eqb_neq. destruct (N.eqb_spec (position ob) 0); [change (blen PREFACE) with 24 in Hge; lia|lia]. }
  rewrite Hp0. cbn [andb]. destruct (run huffman (d ++ x) p f c); by split.
Qed.

Lemma settle_no_panic d ob :
  within d (position ob) (frames ob) -> (settle d ob).1 <> Some (Err Panic).
Proof.
  intros Hw. unfold settle. cbv zeta. destruct ((position ob =? 0) && negb _); [done|].
  destruct ((position ob =? 0) && (blen d <? blen PREFACE)) eqn:Eshort; [done|].
  assert (Hst : (position ob =? 0) = true -> blen PREFACE <= blen d).
  { intros Ep. rewrite Ep in Eshort. cbn [andb] in Eshort. by apply N.ltb_ge. }
  pose proof (run_no_panic huffman d _ (frames ob) (capture ob) (start_within ob d Hst Hw)) as Hn.
  destruct (run huffman d _ _ _) as [p f c|r]; [cbn [fst]; by destruct (blen d =? CAPTURE_LIMIT)|].
  cbn [fst]. intros [= ->]. by apply Hn.
Qed.

(** A full buffer always gives an answer. *)
Lemma settle_full d ob : blen d = CAPTURE_LIMIT -> exists r ob', settle d ob = (Some r, ob').
Proof.
  intros Hl. unfold settle. cbv zeta. rewrite Hl. destruct ((position ob =? 0) && negb _); [by eexists _, _|].
  change (CAPTURE_LIMIT <? blen PREFACE) with false. rewrite andb_false_r.
  destruct (run huffman d _ _ _) as [p f c|r]; by eexists _, _.
Qed.

Lemma within_more d x pos fr : within d pos fr -> within (d ++ x) pos fr.
Proof. intros [? ?]. split; [rewrite blen_app; lia|done]. Qed.

Lemma feed_split x y ob :
  observer_ok ob -> x <> [] -> y <> [] ->
  match feed huffman x ob with
  | (Some r, _) => (feed huffman (x ++ y) ob).1 = Some r
  | (None, ob') => observer_ok ob' /\ same_feed (feed huffman y ob') (feed huffman (x ++ y) ob)
  end.
Proof.
  intros [Hw Hlim] Hx Hy. rewrite !feed_settle.
  destruct (N.le_gt_cases (room ob) (blen x)) as [Hfull|Hfits].
  - rewrite take_app_le by (unfold blen in Hfull; lia).
    destruct (settle_full (buffer ob ++ take (N.to_nat (room ob)) x) ob) as (r & ob' & E).
    { rewrite blen_app. unfold blen at 2. rewrite length_take. unfold room, blen in *. lia. }
    by rewrite E.
  - rewrite (take_ge x) by (unfold blen in Hfits; lia).
    assert (Ht : take (N.to_nat (room ob)) (x ++ y) = x ++ take (N.to_nat (room ob) - length x) y).
    { rewrite take_app, take_ge by (unfold blen in Hfits; lia). done. }
    rewrite Ht, app_assoc. set (y' := take (N.to_nat (room ob) - length x) y).
    assert (Hy' : y' <> []).
    { intros E. apply (f_equal length) in E. unfold y' in E. rewrite length_take in E. unfold blen in Hfits.
      destruct y; [done|]. cbn [length] in E. lia. }
    assert (Hlen : blen ((buffer ob ++ x) ++ y') <= CAPTURE_LIMIT).
    { rewrite !blen_app. unfold y', blen. rewrite length_take. unfold room, blen in *. lia. }
    pose proof (settle_more (buffer ob ++ x) y' ob (within_more _ _ _ _ Hw) Hlen Hy') as Hm.
    destruct (settle (buffer ob ++ x) ob) as [[r|] ob']; [done|]. destruct Hm as (Hb & Hok & Hs).
    split; [done|]. rewrite feed_settle. replace (buffer ob' ++ take (N.to_nat (room ob')) y) with ((buffer ob ++ x) ++ y'); [done|].
    rewrite Hb. f_equal. unfold y', room. rewrite Hb, blen_app. unfold blen. f_equal. lia.
Qed.

(** ** The stream *)

Definition stream_ok (s : FingerprintStream) : Prop :=
  match observer s with Some ob => observer_ok ob | None => True end.
Lemma stream_new_ok : stream_ok stream_new.
Proof. constructor; [split; done|done]. Qed.

(** What becomes of a stream with an observer. *)
Definition after_feed (s : FingerprintStream) (fed : option (result Stop (Capture Http2Fingerprint)) * Observer) :
    option FingerprintStream :=
  match fed with
  | (Some (Ok c), _) => Some {| observer := None; fingerprint := c |}
  | (Some (Err (Fail e)), _) => Some {| observer := None; fingerprint := Failed e |}
  | (Some (Err Panic), _) => None
  | (None, ob) => Some {| observer := Some ob; fingerprint := fingerprint s |}
  end.
Lemma stream_read_feed x s ob : x <> [] -> observer s = Some ob -> stream_read huffman x s = after_feed s (feed huffman x ob).
Proof. intros Hx Ho. unfold stream_read. rewrite Ho. by destruct x. Qed.
Lemma same_after s a b : same_feed a b -> after_feed s a = after_feed s b.
Proof. destruct a as [[[?|[]]|] ?], b as [[[?|[]]|] ?]; intros [Hf Hs]; cbn in *; try done; try (by injection Hf as <-).
  by rewrite (Hs eq_refl).
Qed.

Lemma stream_read_split x y s :
  stream_ok s -> x <> [] -> y <> [] ->
  exists s1, stream_read huffman x s = Some s1 /\ stream_ok s1 /\
    stream_read huffman (x ++ y) s = stream_read huffman y s1.
Proof.
  unfold stream_ok. intros Hs Hx Hy. destruct (observer s) as [ob|] eqn:Eo.
  2:{ exists s. unfold stream_read. rewrite Eo. by split_and!. }
  rewrite (stream_read_feed x s ob), (stream_read_feed (x ++ y) s ob) by (done || by destruct x).
  pose proof (feed_split x y ob Hs Hx Hy) as Hf.
  pose proof (settle_no_panic _ ob (within_more _ (take (N.to_nat (room ob)) x) _ _ (oo_within _ Hs))) as Hn.
  rewrite <- feed_settle in Hn.
  destruct (feed huffman x ob) as [[[c|[e|]]|] ob'].
  - eexists. split; [done|]. split; [done|]. destruct (feed huffman (x ++ y) ob) as [r ?]. cbn [fst] in Hf. by subst r.
  - eexists. split; [done|]. split; [done|]. destruct (feed huffman (x ++ y) ob) as [r ?]. cbn [fst] in Hf. by subst r.
  - by destruct Hn.
  - destruct Hf as [Hok Hsame]. eexists. split; [done|]. split; [done|].
    rewrite (stream_read_feed y _ ob') by done. cbn [fingerprint].
    rewrite <- (same_after _ _ _ Hsame). done.
Qed.

Lemma stream_read_total x s : stream_ok s -> is_Some (stream_read huffman x s).
Proof.
  intros Hs. destruct x as [|b x]; [unfold stream_read; by destruct (observer s)|].
  unfold stream_ok in Hs. destruct (observer s) as [ob|] eqn:Eo; [|unfold stream_read; by rewrite Eo].
  rewrite (stream_read_feed (b :: x) s ob) by done.
  pose proof (settle_no_panic _ ob (within_more _ (take (N.to_nat (room ob)) (b :: x)) _ _ (oo_within _ Hs))) as Hn.
  rewrite <- feed_settle in Hn. by destruct (feed huffman (b :: x) ob) as [[[c|[e|]]|] ob'].
Qed.

Lemma stream_reads_concat reads s :
  stream_ok s -> stream_reads huffman reads s = stream_read huffman (concat reads) s.
Proof.
  revert s. induction reads as [|x reads IH]; intros s Hs; cbn [stream_reads concat].
  { unfold stream_read. by destruct (observer s). }
  destruct x as [|b x].
  { replace (stream_read huffman [] s) with (Some s) by (unfold stream_read; by destruct (observer s)).
    cbn [mbind option_bind app]. by apply IH. }
  destruct (concat reads) as [|c rest] eqn:Ec.
  { rewrite app_nil_r. destruct (stream_read_total (b :: x) s Hs) as [s1 E1]. rewrite E1. cbn [mbind option_bind].
    destruct (stream_read_split (b :: x) [0] s Hs) as (s2 & E2 & Hok & _); [done..|]. rewrite E1 in E2. injection E2 as <-.
    rewrite IH by done. unfold stream_read. by destruct (observer s1). }
  destruct (stream_read_split (b :: x) (c :: rest) s Hs) as (s1 & E1 & Hok & ->); [done..|].
  rewrite E1. cbn [mbind option_bind]. by apply IH.
Qed.

(** C10: a fingerprint does not depend on the reads. However the bytes of a
    connection are cut into reads, the observer ends in the same state and with
    the same capture as if they had come in one, without a panic: what it waits
    for, where it gives up, what is too long and the fingerprint itself are of the
    bytes alone. *)
Theorem reads_do_not_matter reads :
  exists s, stream_reads huffman reads stream_new = Some s /\
    stream_read huffman (concat reads) stream_new = Some s.
Proof.
  rewrite (stream_reads_concat reads stream_new stream_new_ok).
  destruct (stream_read_total (concat reads) stream_new stream_new_ok) as [s ->]. by exists s.
Qed.
End Feeding.

(** * The fingerprint of a connection is read back

    The start of an HTTP/2 connection written from its settings, window update,
    priorities and header block, and the theorem that observing it completes with
    exactly those. *)

Local Open Scope N_scope.

(** ** Writing *)

Definition write_frame (kind flags stream : N) (payload : list N) : list N :=
  be_bytes 3 (blen payload) ++ [kind; flags] ++ be_bytes 4 stream ++ payload.
Definition write_settings (s : Settings) : list N :=
  flat_map (fun e => be_bytes 2 e.1 ++ be_bytes 4 e.2) s.
Definition write_priority (p : Priority) : list N :=
  be_bytes 4 ((if exclusive p then 2147483648 else 0) + parent p) ++ [weight p].

(** What may come between SETTINGS and HEADERS. *)
Inductive Event : Type := EAck | EWindow (stream increment : N) | EPriority (p : Priority).
Definition write_event (e : Event) : list N :=
  match e with
  | EAck => write_frame 4 1 0 []
  | EWindow stream increment => write_frame 8 0 stream (be_bytes 4 increment)
  | EPriority p => write_frame 2 0 (pr_stream p) (write_priority p)
  end.
Definition write_connection (s : Settings) (events : list Event) (stream : N) (block : list N) : list N :=
  PREFACE ++ write_frame 4 0 0 (write_settings s) ++ flat_map write_event events ++
  write_frame 1 4 stream block.

Definition setting_ok (e : N * N) : Prop := e.1 < 2 ^ 16 /\ e.2 < 2 ^ 32 /\ bad_setting e.1 e.2 = false.
Definition event_ok (e : Event) : Prop :=
  match e with
  | EAck => True
  | EWindow stream increment => stream < 2 ^ 31 /\ 0 < increment < 2 ^ 31
  | EPriority p => 0 < pr_stream p < 2 ^ 31 /\ parent p < 2 ^ 31 /\ parent p <> pr_stream p /\ weight p < 256
  end.
(** The first window update of the connection, and the priorities. *)
Definition window_of (events : list Event) : option N :=
  first_some (fun e => match e with EWindow 0 increment => Some increment | _ => None end) events.
Definition priorities_of (events : list Event) : list Priority :=
  omap (fun e => match e with EPriority p => Some p | _ => None end) events.

(** ** Reading *)

Lemma blen_be n v : blen (be_bytes n v) = N.of_nat n.
Proof. unfold blen. by rewrite be_bytes_length. Qed.
Lemma read_byte_cons b rest : read_byte (b :: rest) = Ok (b, rest).
Proof. apply uint_spec. exists [b]. split_and!; [done..|]. rewrite of_be_bytes_cons. cbn. lia. Qed.
Lemma land_31 x : N.land x 2147483647 = x mod 2 ^ 31.
Proof. exact (N.land_ones x 31). Qed.

Lemma frame_decode_written kind flags stream payload rest :
  kind < 256 -> flags < 256 -> stream < 2 ^ 31 -> blen payload <= 16384 ->
  frame_decode (write_frame kind flags stream payload ++ rest) =
    (frame ← frame_body kind flags stream payload; Ok (Some (frame, 9 + blen payload))).
Proof.
  intros Hk Hf Hs Hp. unfold write_frame, frame_decode. rewrite <- !app_assoc.
  assert (Hlen : 9 <= blen (be_bytes 3 (blen payload) ++ [kind; flags] ++ be_bytes 4 stream ++ payload ++ rest)).
  { rewrite !blen_app, !blen_be. change (blen [kind; flags]) with 2. lia. }
  destruct (N.ltb_spec (blen (be_bytes 3 (blen payload) ++ [kind; flags] ++ be_bytes 4 stream ++ payload ++ rest)) 9); [lia|].
  unfold u24. rewrite (uint_bytes 3) by (change (256 ^ 3) with 16777216; lia). cbn [mbind result_bind].
  destruct (N.ltb_spec 16384 (blen payload)); [lia|]. cbn [app]. rewrite !read_byte_cons. cbn [mbind result_bind].
  rewrite read_byte_cons. cbn [mbind result_bind]. unfold u32. rewrite (uint_bytes 4).
  2:{ change (256 ^ 4) with (2 ^ 32). apply (N.lt_trans _ (2 ^ 31)); done. }
  cbn [mbind result_bind]. unfold blen at 1. rewrite take_app_cursor. by rewrite land_31, N.mod_small.
Qed.

Lemma setting_pass_consumes : consumes setting_pass.
Proof.
  intros s input s' rest. unfold setting_pass, u16, u32. rewrite bind_ok. intros ([i t] & Hi & H).
  apply bind_ok in H as ([v t'] & Hv & H). apply uint_length in Hi, Hv. destruct (bad_setting i v); [done|].
  injection H as _ <-. lia.
Qed.
Lemma setting_written acc i v rest :
  setting_ok (i, v) ->
  setting_pass acc (be_bytes 2 i ++ be_bytes 4 v ++ rest) = Ok (acc ++ [(i, v)], rest).
Proof.
  intros (Hi & Hv & Hb). unfold setting_pass, u16, u32. cbn [fst snd] in *. rewrite (uint_bytes 2) by done.
  cbn [mbind result_bind]. rewrite (uint_bytes 4) by done. cbn [mbind result_bind]. by rewrite Hb.
Qed.
Lemma settings_back s : Forall setting_ok s -> settings_of (write_settings s) = Ok s.
Proof.
  intros Hs. unfold settings_of. change s with ([] ++ s) at 2. generalize (@nil (N * N)) as acc.
  induction Hs as [|[i v] s Hi Hs IH]; intros acc; [by rewrite app_nil_r|].
  unfold write_settings. cbn [flat_map fst snd] in *. fold (write_settings s).
  rewrite (drain_eq _ setting_pass_consumes).
  destruct ((be_bytes 2 i ++ be_bytes 4 v) ++ write_settings s) as [|b l] eqn:E.
  { apply (f_equal length) in E. rewrite !length_app, be_bytes_length in E. done. }
  rewrite <- E, <- app_assoc, setting_written by done. cbn [mbind result_bind].
  rewrite (IH (acc ++ [(i, v)])). by rewrite <- app_assoc.
Qed.

Lemma priority_back p rest :
  event_ok (EPriority p) -> priority_decode (pr_stream p) (write_priority p ++ rest) = Ok (p, rest).
Proof.
  intros (Hs & Hp & Hne & Hw). unfold priority_decode, write_priority, u32. rewrite <- app_assoc.
  assert (Hd : (if exclusive p then 2147483648 else 0) + parent p < 2 ^ 32).
  { change (2 ^ 32) with (2147483648 + 2147483648). change (2 ^ 31) with 2147483648 in Hp. destruct (exclusive p); lia. }
  rewrite (uint_bytes 4) by done. cbn [mbind result_bind]. rewrite land_31.
  assert (Hm : ((if exclusive p then 2147483648 else 0) + parent p) mod 2 ^ 31 = parent p).
  { change 2147483648 with (1 * 2 ^ 31). destruct (exclusive p); [|by apply N.mod_small].
    rewrite N.add_comm, N.Div0.mod_add. by apply N.mod_small. }
  rewrite Hm. unfold nonzero. destruct (N.eqb_spec (pr_stream p) 0); [lia|]. cbn [mbind option_bind].
  destruct (N.eqb_spec (pr_stream p) (parent p)); [congruence|]. cbn [ok_or mbind result_bind app].
  rewrite read_byte_cons. cbn [mbind result_bind].
  assert (Hx : negb (N.shiftr ((if exclusive p then 2147483648 else 0) + parent p) 31 =? 0) = exclusive p).
  { rewrite N.shiftr_div_pow2. change 2147483648 with (1 * 2 ^ 31). destruct (exclusive p).
    - by rewrite N.div_add_l, N.div_small.
    - by rewrite N.add_0_l, N.div_small. }
  rewrite Hx. by destruct p.
Qed.

(** The frame an event is. *)
Definition event_frame (e : Event) : Frame :=
  match e with EAck => FSettingsAck | EWindow stream increment => FWindowUpdate stream increment | EPriority p => FPriority p end.
Definition frame_len (e : Event) : N := blen (write_event e).

Lemma blen_frame kind flags stream payload : blen (write_frame kind flags stream payload) = 9 + blen payload.
Proof. unfold write_frame. rewrite !blen_app, !blen_be. change (blen [kind; flags]) with 2. lia. Qed.

Lemma event_decode e rest :
  event_ok e -> frame_decode (write_event e ++ rest) = Ok (Some (event_frame e, frame_len e)).
Proof.
  intros He. unfold frame_len. destruct e as [|stream increment|p]; cbn [write_event]; rewrite blen_frame.
  - rewrite frame_decode_written by done. done.
  - destruct He as [Hs Hi]. rewrite frame_decode_written by (done || rewrite blen_be; lia).
    unfold frame_body. change (8 =? 4) with false. change (8 =? 8) with true. cbn match.
    unfold u32. rewrite <- (app_nil_r (be_bytes 4 increment)) at 1. rewrite (uint_bytes 4).
    2:{ change (256 ^ 4) with (2 ^ 32). apply (N.lt_trans _ (2 ^ 31)); [apply Hi|done]. }
    cbn [mbind result_bind]. rewrite land_31, N.mod_small by apply Hi. unfold nonzero.
    by destruct (N.eqb_spec increment 0); [lia|].
  - pose proof He as (Hs & _). rewrite frame_decode_written; [|done..|apply Hs|].
    2:{ unfold write_priority. rewrite blen_app, blen_be. change (blen [weight p]) with 1. lia. }
    unfold frame_body. change (2 =? 4) with false. change (2 =? 8) with false. change (2 =? 2) with true. cbn match.
    rewrite <- (app_nil_r (write_priority p)) at 1. by rewrite (priority_back p [] He).
Qed.

Section Connection.
Variable huffman : list N -> option (list N).

(** The capture after some events. *)
Definition after_event (c : ConnectionCapture) (e : Event) : ConnectionCapture :=
  match e with
  | EAck => c
  | EWindow stream increment =>
      if stream =? 0 then {| cc_settings := cc_settings c; cc_window_update := Some (default increment (cc_window_update c));
                             cc_priorities := cc_priorities c; cc_headers := cc_headers c |} else c
  | EPriority p => {| cc_settings := cc_settings c; cc_window_update := cc_window_update c;
                      cc_priorities := cc_priorities c ++ [p]; cc_headers := cc_headers c |}
  end.
Lemma event_capture c e : cc_headers c = Pending -> capture_frame huffman c (event_frame e) = Ok (None, after_event c e).
Proof. intros Hc. unfold capture_frame. destruct e; cbn [event_frame after_event]; by rewrite ?Hc. Qed.
Lemma after_event_pending c e : cc_headers c = Pending -> cc_headers (after_event c e) = Pending.
Proof. intros Hc. destruct e as [|s i|p]; cbn; [done| |done]. by destruct (s =? 0). Qed.

Lemma after_events events c :
  foldl after_event c events =
    {| cc_settings := cc_settings c;
       cc_window_update := match cc_window_update c with Some n => Some n | None => window_of events end;
       cc_priorities := cc_priorities c ++ priorities_of events; cc_headers := cc_headers c |}.
Proof.
  revert c. induction events as [|e events IH]; intros c; cbn [foldl].
  { unfold priorities_of. cbn [omap list_omap]. rewrite app_nil_r. destruct c as [? [?|] ? ?]; done. }
  rewrite IH. destruct e as [|s i|p]; cbn [after_event].
  - done.
  - destruct (N.eqb_spec s 0) as [->|Hs]; cbn [cc_settings cc_window_update cc_priorities cc_headers].
    + by destruct (cc_window_update c).
    + assert (window_of (EWindow s i :: events) = window_of events) as -> by (by destruct s). done.
  - cbn [cc_settings cc_window_update cc_priorities cc_headers]. unfold priorities_of. cbn [omap list_omap]. by rewrite <- app_assoc.
Qed.

(** Running over the events, from the middle of a buffer. *)
Lemma run_events events pre post fr c :
  Forall event_ok events -> cc_headers c = Pending -> fr + N.of_nat (length events) <= FRAME_LIMIT ->
  run huffman (pre ++ flat_map write_event events ++ post) (blen pre) fr (Some c) =
  run huffman (pre ++ flat_map write_event events ++ post) (blen (pre ++ flat_map write_event events))
    (fr + N.of_nat (length events)) (Some (foldl after_event c events)).
Proof.
  intros He. revert pre fr c. induction He as [|e events He Hes IH]; intros pre fr c Hc Hfr.
  { cbn [flat_map length foldl]. by rewrite app_nil_r, N.add_0_r. }
  cbn [flat_map length foldl] in *.
  rewrite run_eq by (split; [rewrite blen_app|]; lia). unfold feed_turn at 1.
  unfold blen at 1. rewrite Nat2N.id, drop_app_length, <- app_assoc, (event_decode e) by done.
  destruct (N.leb_spec FRAME_LIMIT fr); [lia|]. rewrite event_capture by done. cbn match.
  specialize (IH (pre ++ write_event e) (fr + 1) (after_event c e) (after_event_pending c e Hc) ltac:(lia)).
  rewrite <- !app_assoc in IH. rewrite blen_app in IH. fold (frame_len e) in IH.
  rewrite IH. f_equal; try done; rewrite ?blen_app; lia.
Qed.

Definition captured (s : Settings) (events : list Event) (o : list PseudoHeader) : Http2Fingerprint :=
  {| settings := s; window_update := window_of events; priorities := priorities_of events; pseudo_headers := o |}.

Record connection_ok (s : Settings) (events : list Event) (stream : N) (block : list N) : Prop := {
  co_settings : Forall setting_ok s;
  co_settings_len : blen (write_settings s) <= 16384;
  co_events : Forall event_ok events;
  co_count : N.of_nat (length events) <= 126;
  co_stream : 0 < stream < 2 ^ 31 /\ N.even stream = false;
  co_block : blen block <= 16384;
  co_len : blen (write_connection s events stream block) <= CAPTURE_LIMIT }.

Lemma run_connection s events stream block rest o :
  connection_ok s events stream block -> pseudo_header_order huffman block = Some (Ok o) ->
  N.of_nat (String.length (show_fingerprint (captured s events o))) <= 4096 ->
  run huffman (write_connection s events stream block ++ rest) (blen PREFACE) 0 None =
    Answer (Ok (Complete (captured s events o))).
Proof.
  intros [Hs Hsl He Hn [Hst Hodd] Hb Hl] Ho Hshow. unfold write_connection. rewrite <- !app_assoc.
  set (sf := write_frame 4 0 0 (write_settings s)). set (hf := write_frame 1 4 stream block).
  rewrite run_eq by (split; [rewrite blen_app; lia|done]). unfold feed_turn at 1.
  unfold blen at 1. rewrite Nat2N.id, drop_app_length. unfold sf at 1. rewrite frame_decode_written by done.
  assert (Hfs : frame_body 4 0 0 (write_settings s) = Ok (FSettings s)).
  { unfold frame_body. change (flag 0 1) with false. cbn [N.eqb Pos.eqb negb]. by rewrite settings_back. }
  rewrite Hfs. cbn [mbind result_bind]. change (FRAME_LIMIT <=? 0) with false. cbn match.
  replace (blen PREFACE + (9 + blen (write_settings s))) with (blen (PREFACE ++ sf))
    by (unfold sf; by rewrite blen_app, blen_frame).
  pose proof (run_events events (PREFACE ++ sf) (hf ++ rest) (0 + 1) (capture_new s) He eq_refl) as Hr.
  rewrite <- !app_assoc in Hr. rewrite Hr by (unfold FRAME_LIMIT; lia). clear Hr.
  set (pre := PREFACE ++ sf ++ flat_map write_event events).
  replace (PREFACE ++ sf ++ flat_map write_event events ++ hf ++ rest) with (pre ++ hf ++ rest)
    by (unfold pre; by rewrite <- !app_assoc).
  rewrite run_eq by (split; [rewrite blen_app; lia|unfold FRAME_LIMIT; lia]). unfold feed_turn at 1.
  unfold blen at 1. rewrite Nat2N.id, drop_app_length. unfold hf at 1. rewrite frame_decode_written by (done || apply Hst).
  assert (Hfh : frame_body 1 4 stream block = Ok (FHeaders {| hf_stream := stream; hf_block := block; hf_complete := true |})).
  { unfold frame_body, header_fragment, nonzero. change (flag 4 8) with false. change (flag 4 32) with false.
    change (flag 4 4) with true. cbn [N.eqb Pos.eqb andb orb]. destruct (N.eqb_spec stream 0); [lia|].
    cbn [mbind option_bind]. by rewrite Hodd. }
  rewrite Hfh. cbn [mbind result_bind]. destruct (N.leb_spec FRAME_LIMIT (0 + 1 + N.of_nat (length events))).
  { unfold FRAME_LIMIT in *. lia. }
  rewrite after_events. unfold capture_frame. cbn [cc_headers capture_new hf_complete hf_block].
  unfold order_of. rewrite Ho. cbn [default mbind result_bind id]. cbv zeta.
  change (fingerprint_of _ o) with (captured s events o).
  destruct (N.ltb_spec 4096 (N.of_nat (String.length (show_fingerprint (captured s events o))))); [lia|]. done.
Qed.

(** C11: the fingerprint of a connection is the one it was written with. Write the
    preface, any admissible settings, acknowledgements, window updates and
    priorities, and a complete header block; then however the bytes arrive and
    whatever follows them, the capture is complete and holds those settings, the
    first window update of the connection, those priorities, and the order the
    block gives. *)
Theorem connection_captured s events stream block o reads rest :
  connection_ok s events stream block -> pseudo_header_order huffman block = Some (Ok o) ->
  N.of_nat (String.length (show_fingerprint (captured s events o))) <= 4096 ->
  concat reads = write_connection s events stream block ++ rest ->
  stream_reads huffman reads stream_new =
    Some {| observer := None; fingerprint := Complete (captured s events o) |}.
Proof.
  intros Hok Ho Hshow Hc. rewrite stream_reads_concat by apply stream_new_ok. rewrite Hc.
  rewrite (stream_read_feed huffman _ stream_new observer_default); [|by destruct rest|done].
  rewrite feed_settle. change (buffer observer_default) with (@nil N). cbn [app].
  change (room observer_default) with CAPTURE_LIMIT. pose proof (co_len _ _ _ _ Hok) as Hl. unfold blen in Hl.
  rewrite take_app, take_ge by lia. generalize (take (N.to_nat CAPTURE_LIMIT - length (write_connection s events stream block)) rest).
  clear Hc rest. intros rest. unfold settle. change (position observer_default) with 0. cbn [N.eqb andb]. cbv zeta.
  assert (Hpre : take (length PREFACE) (write_connection s events stream block ++ rest) = PREFACE).
  { unfold write_connection. by rewrite <- !app_assoc, take_app_length. }
  rewrite Hpre, bool_decide_eq_true_2 by by rewrite firstn_all. cbn [negb].
  assert (Hlen : blen PREFACE <= blen (write_connection s events stream block ++ rest)).
  { unfold write_connection. rewrite !blen_app. lia. }
  destruct (N.ltb_spec (blen (write_connection s events stream block ++ rest)) (blen PREFACE)); [lia|].
  change (frames observer_default) with 0. change (capture observer_default) with (@None ConnectionCapture).
  by rewrite (run_connection s events stream block rest o).
Qed.
End Connection.

(** A connection as a browser opens it, read in two pieces. *)
Definition example_settings : Settings := [(1, 65536); (2, 0); (4, 6291456); (6, 262144)].
Definition example_events : list Event :=
  [EWindow 0 15663105; EPriority {| pr_stream := 3; exclusive := false; parent := 0; weight := 200 |}].
Definition example_connection : list N := write_connection example_settings example_events 1 example_block.
Lemma example_connection_ok : connection_ok example_settings example_events 1 example_block.
Proof.
  constructor.
  - repeat (constructor; [split; [reflexivity|split; [reflexivity|vm_refl]]|]). constructor.
  - by vm_compute.
  - constructor; [by split|]. constructor; [by split_and!|]. constructor.
  - by vm_compute.
  - by split.
  - by vm_compute.
  - by vm_compute.
Qed.
Lemma connection_captured_witness :
  stream_reads example_huffman [take 30 example_connection; drop 30 example_connection] stream_new =
    Some {| observer := None;
            fingerprint := Complete (captured example_settings example_events [Method; Authority; Scheme; Path]) |}.
Proof.
  apply (connection_captured example_huffman example_settings example_events 1 example_block _ _ []).
  - exact example_connection_ok.
  - vm_refl.
  - by vm_compute.
  - vm_refl.
Defined.
Example example_fingerprint :
  show_fingerprint (captured example_settings example_events [Method; Authority; Scheme; Path]) =
  "1:65536;2:0;4:6291456;6:262144|15663105|3:0:0:201|m,a,s,p".
Proof. vm_refl. Qed.
