(* ===== verification/Url.v ===== *)
(** * Challenge addresses

    [crates/bagel-web/src/challenge/url.rs], with [hex_encode] of [lib.rs]: the
    URL a challenge redirects through, percent encoding, query parameters; and
    the parts of [routes.rs] that read such a URL back: the internal routes and
    the confinement of the final redirect. Strings are bytes of UTF-8. The type
    [http::Uri] is an interface. *)

From S2P Require Import Prelude Strings Ip Bytes.

Local Open Scope N_scope.

(** ** Encoding *)

Definition hex_encode (bytes : list N) : string :=
  chars_string (mjoin ((fun b => [hex_digit (b / 16); hex_digit (b mod 16)]) <$> bytes)).
Definition upper_hex (d : N) : ascii := nth (N.to_nat d) (string_chars "0123456789ABCDEF") "0"%char.
Definition url_safe (c : ascii) : bool :=
  is_ascii_alphanumeric c || str_contains_char c "-_.~/".
Definition percent_encode (s : string) : string :=
  chars_string (mjoin ((fun c => if url_safe c then [c]
    else ["%"%char; upper_hex (byte_of c / 16); upper_hex (byte_of c mod 16)]) <$> string_chars s)).
Definition verify_url (challenge_name token_hex redirect : string) : string :=
  "/__bagel/" +:+ challenge_name +:+ "/verify?__bagel_token=" +:+ token_hex +:+
  "&__bagel_redirect=" +:+ percent_encode redirect.

(** ** Decoding *)

Definition hex_nibble (c : ascii) : option N :=
  let b := byte_of c in
  if in_range 48 57 c then Some (b - 48)
  else if in_range 97 102 c then Some (b - 97 + 10)
  else if in_range 65 70 c then Some (b - 65 + 10)
  else None.

(** The loop of [percent_decode] over the bytes. *)
Fixpoint percent_decode_bytes (l : list ascii) : list N :=
  match l with
  | [] => []
  | c :: rest =>
      match rest with
      | h :: k :: rest' =>
          if char_eqb c "%" then
            match hex_nibble h, hex_nibble k with
            | Some hi, Some lo => N.lor (N.shiftl hi 4) lo :: percent_decode_bytes rest'
            | _, _ => byte_of c :: percent_decode_bytes rest
            end
          else byte_of c :: percent_decode_bytes rest
      | _ => byte_of c :: percent_decode_bytes rest
      end
  end.

(** [String::from_utf8_lossy]: at the head of the bytes, whether a character
    starts there and how many bytes it, or the longest start of one, takes. *)
Definition between (lo hi b : N) : bool := (lo <=? b) && (b <=? hi).
Definition utf8_head (l : list N) : bool * nat :=
  let at_ i := nth i l 0 in
  let cont i := between 128 191 (at_ i) in
  let b := at_ 0%nat in
  if b <? 128 then (true, 1%nat)
  else if between 194 223 b then (if cont 1%nat then (true, 2%nat) else (false, 1%nat))
  else if between 224 239 b then
    let ok1 := if b =? 224 then between 160 191 (at_ 1%nat)
               else if b =? 237 then between 128 159 (at_ 1%nat) else cont 1%nat in
    if negb ok1 then (false, 1%nat) else if cont 2%nat then (true, 3%nat) else (false, 2%nat)
  else if between 240 244 b then
    let ok1 := if b =? 240 then between 144 191 (at_ 1%nat)
               else if b =? 244 then between 128 143 (at_ 1%nat) else cont 1%nat in
    if negb ok1 then (false, 1%nat) else if negb (cont 2%nat) then (false, 2%nat)
    else if cont 3%nat then (true, 4%nat) else (false, 3%nat)
  else (false, 1%nat).
Fixpoint lossy_go (fuel : nat) (l : list N) : list N :=
  match fuel, l with
  | S fuel, _ :: _ =>
      let '(ok, n) := utf8_head l in
      (if (ok : bool) then take n l else [239; 191; 189]) ++ lossy_go fuel (drop n l)
  | _, _ => []
  end.
Definition from_utf8_lossy (l : list N) : string := bytes_string (lossy_go (length l) l).

Definition percent_decode (s : string) : string :=
  from_utf8_lossy (percent_decode_bytes (string_chars s)).

Definition parse_query_params (query : string) : list (string * string) :=
  omap (split_once "=") (List.filter (fun seg => negb (str_is_empty seg)) (str_split "&" query)).
(** [query_param] of [routes.rs] on the query of a URI. *)
Definition query_param (query : option string) (key : string) : option string :=
  q ← query; assoc key (parse_query_params q).

(** ** Stripping *)

(** [http::Uri]: its parts, its text, and the builder, given the parts and the
    text of path and query. *)
Class UriApi : Type := {
  Uri : Type;
  uri_scheme : Uri -> option string; uri_authority : Uri -> option string;
  uri_path : Uri -> string; uri_query : Uri -> option string; uri_show : Uri -> string;
  uri_build : option string -> option string -> string -> option Uri }.

Definition bagel_param (pair : string) : bool := starts_with "__bagel_" pair.

Section Strip.
Context `{UriApi}.
Definition strip_bagel_params (uri : Uri) : Uri :=
  match uri_query uri with
  | None => uri
  | Some query =>
      let cleaned := List.filter (fun pair => negb (bagel_param pair)) (str_split "&" query) in
      let pq := match cleaned with
                | [] => uri_path uri
                | _ => uri_path uri +:+ "?" +:+ str_join "&" cleaned
                end in
      default uri (uri_build (uri_scheme uri) (uri_authority uri) pq)
  end.
End Strip.

(** ** Routes *)

Inductive Internal : Type :=
| RCss | RRuntime | RWorker | RGpu | RSolver | RBeacon (id : string) | RVerify (name : string).

Definition BEACON_PREFIX : string := "/__bagel/static/t/".
Definition is_ascii_hexdigit (c : ascii) : bool :=
  is_ascii_digit c || in_range 97 102 c || in_range 65 70 c.
Definition beacon_route (path : string) : option string :=
  id ← strip_prefix BEACON_PREFIX path ≫= strip_suffix ".svg";
  if (String.length id =? 32)%nat && str_all is_ascii_hexdigit id then Some id else None.
Definition internal_route (path : string) : option Internal :=
  if String.eqb path "/__bagel/static/widget.css" then Some RCss
  else if String.eqb path "/__bagel/static/runtime.mjs" then Some RRuntime
  else if String.eqb path "/__bagel/static/worker.mjs" then Some RWorker
  else if String.eqb path "/__bagel/static/gpu.mjs" then Some RGpu
  else if String.eqb path "/__bagel/static/solver.wasm" then Some RSolver
  else match beacon_route path with
  | Some id => Some (RBeacon id)
  | None =>
      name ← strip_prefix "/__bagel/" path ≫= strip_suffix "/verify";
      if negb (str_is_empty name) && negb (str_contains_char "/" name)
      then Some (RVerify (percent_decode name)) else None
  end.

(** [u8::is_ascii_graphic]. *)
Definition is_ascii_graphic : ascii -> bool := in_range 33 126.
Definition safe_redirect (raw : string) : option string :=
  let looks_relative := starts_with "/" raw && negb (starts_with "//" raw) in
  let printable := str_all (fun c => is_ascii_graphic c || char_eqb c " ") raw in
  if looks_relative && printable then Some raw else None.

Example percent_decode_examples :
  percent_decode <$> ["a%20b"; "%zz%4"; "100%"; "%C3%A9"; "%ff"] =
  ["a b"; "%zz%4"; "100%"; bytes_string [195; 169]; bytes_string [239; 191; 189]].
Proof. vm_refl. Qed.

(** ** Decoding inverts encoding *)

Definition encode_char (c : ascii) : list ascii :=
  if url_safe c then [c] else ["%"%char; upper_hex (byte_of c / 16); upper_hex (byte_of c mod 16)].

Lemma percent_decode_char c rest :
  percent_decode_bytes (encode_char c ++ rest) = byte_of c :: percent_decode_bytes rest.
Proof.
  unfold encode_char. destruct (url_safe c) eqn:E.
  - assert (Hc : char_eqb c "%" = false) by (revert E; by_char c).
    cbn [app percent_decode_bytes]. rewrite Hc. by destruct rest as [|h [|k rest]].
  - assert (H1 : hex_nibble (upper_hex (byte_of c / 16)) = Some (byte_of c / 16)) by (clear; by_char c).
    assert (H2 : hex_nibble (upper_hex (byte_of c mod 16)) = Some (byte_of c mod 16)) by (clear; by_char c).
    assert (H3 : N.lor (N.shiftl (byte_of c / 16) 4) (byte_of c mod 16) = byte_of c) by (clear; by_char c).
    cbn [app percent_decode_bytes]. by rewrite char_eqb_refl, H1, H2, H3.
Qed.

Lemma percent_decode_encoded s :
  percent_decode_bytes (string_chars (percent_encode s)) = string_bytes s.
Proof.
  unfold percent_encode, string_bytes. rewrite string_chars_string.
  change (percent_decode_bytes (mjoin (encode_char <$> string_chars s)) = byte_of <$> string_chars s).
  induction (string_chars s) as [|c l IH]; [done|].
  change (percent_decode_bytes (encode_char c ++ mjoin (encode_char <$> l)) = byte_of c :: (byte_of <$> l)).
  by rewrite percent_decode_char, IH.
Qed.

Lemma lossy_go_ascii l fuel :
  (length l <= fuel)%nat -> Forall (fun b => b < 128) l -> lossy_go fuel l = l.
Proof.
  intros Hf Hl. revert fuel Hf. induction Hl as [|b l Hb Hl IH]; intros fuel Hf.
  - by destruct fuel.
  - destruct fuel as [|fuel]; [cbn in Hf; lia|]. cbn [lossy_go]. unfold utf8_head. cbn [nth].
    rewrite (proj2 (N.ltb_lt _ _) Hb). cbn [take drop app]. rewrite IH; [done|cbn in Hf; lia].
Qed.

Lemma bytes_string_bytes s : bytes_string (string_bytes s) = s.
Proof.
  unfold bytes_string, string_bytes. rewrite <- list_fmap_compose.
  rewrite (list_fmap_ext _ id) by (intros ? c _; apply ascii_N_embedding).
  by rewrite list_fmap_id, chars_string_chars.
Qed.

Lemma from_utf8_lossy_ascii s : str_all is_ascii s = true -> from_utf8_lossy (string_bytes s) = s.
Proof.
  intros H. unfold from_utf8_lossy. rewrite lossy_go_ascii; [apply bytes_string_bytes|done|].
  apply Forall_fmap. apply str_all_forall in H. eapply Forall_impl; [exact H|].
  intros c Hc. by apply N.ltb_lt.
Qed.

Lemma percent_roundtrip s : str_all is_ascii s = true -> percent_decode (percent_encode s) = s.
Proof. intros H. unfold percent_decode. by rewrite percent_decode_encoded, from_utf8_lossy_ascii. Qed.

(** Without a percent sign decoding has nothing to do. *)
Lemma percent_decode_plain s :
  str_all is_ascii s = true -> str_any (char_eqb "%") s = false -> percent_decode s = s.
Proof.
  intros Ha Hp. unfold percent_decode.
  enough (percent_decode_bytes (string_chars s) = string_bytes s) as ->
    by (by apply from_utf8_lossy_ascii).
  clear Ha. unfold string_bytes. induction s as [|c s IH]; [done|].
  cbn [str_any] in Hp. apply orb_false_iff in Hp as [Hc Hp]. specialize (IH Hp).
  assert (Hc' : char_eqb c "%" = false) by (unfold char_eqb in *; by rewrite Ascii.eqb_sym).
  cbn [string_chars percent_decode_bytes]. rewrite fmap_cons, <- IH, Hc'.
  by destruct (string_chars s) as [|h [|k l]].
Qed.

(** ** What a verify URL says *)

Lemma encode_char_safe c : Forall (fun d => url_safe d || char_eqb d "%" = true) (encode_char c).
Proof.
  assert (H : forallb (fun d => url_safe d || char_eqb d "%") (encode_char c) = true) by by_char c.
  apply Forall_forall. intros d Hd. by apply (proj1 (forallb_forall _ _) H), list_elem_of_In.
Qed.
Lemma percent_encode_chars s : str_all (fun c => url_safe c || char_eqb c "%") (percent_encode s) = true.
Proof.
  apply str_all_forall. unfold percent_encode. rewrite string_chars_string.
  induction (string_chars s) as [|c l IH]; [constructor|]. apply Forall_app_2; [apply encode_char_safe|exact IH].
Qed.

Lemma hex_encode_chars bs : bytes bs -> str_all is_ascii_hexdigit (hex_encode bs) = true.
Proof.
  intros H. apply str_all_forall. unfold hex_encode. rewrite string_chars_string.
  assert (Hd : forall d, d < 16 -> is_ascii_hexdigit (hex_digit d) = true).
  { intros d Hd. assert (exists i, d = N.of_nat i /\ (i < 16)%nat) as (i & -> & Hi) by (exists (N.to_nat d); lia).
    do 16 (destruct i as [|i]; [vm_refl|]). lia. }
  induction H as [|b l Hb Hl IH]; [constructor|]. cbn in Hb.
  constructor; [apply Hd, N.Div0.div_lt_upper_bound; lia|].
  constructor; [apply Hd, N.mod_lt; done|exact IH].
Qed.

Definition verify_path (name : string) : string := "/__bagel/" +:+ name +:+ "/verify".
Definition verify_query (token_hex redirect : string) : string :=
  "__bagel_token=" +:+ token_hex +:+ "&__bagel_redirect=" +:+ percent_encode redirect.

Lemma verify_url_split name hex r :
  str_any (char_eqb "?") name = false ->
  split_once "?" (verify_url name hex r) = Some (verify_path name, verify_query hex r).
Proof.
  intros Hn. replace (verify_url name hex r) with (verify_path name +:+ String "?" (verify_query hex r)).
  - apply split_once_app. unfold verify_path. rewrite !str_any_app, Hn. done.
  - unfold verify_url, verify_path, verify_query. rewrite !string_app_assoc. done.
Qed.

Lemma ends_with_last s p q c d : s = p +:+ String c "" -> s = q +:+ String d "" -> c = d.
Proof.
  intros -> H. apply (f_equal (fun s => rev (string_chars s))) in H.
  rewrite !string_chars_app, !rev_app_distr in H. by injection H.
Qed.

Lemma verify_path_route name :
  name <> "" -> str_any (char_eqb "/") name = false ->
  internal_route (verify_path name) = Some (RVerify (percent_decode name)).
Proof.
  intros Hne Hs.
  assert (Hlast : verify_path name = ("/__bagel/" +:+ name +:+ "/verif") +:+ "y").
  { unfold verify_path. by rewrite !string_app_assoc. }
  assert (Hy : forall s, strip_suffix "y" s = None -> String.eqb (verify_path name) s = false).
  { intros s Hs'. destruct (String.eqb_spec (verify_path name) s) as [E|]; [|done].
    rewrite <- E, Hlast, strip_suffix_app in Hs'. done. }
  unfold internal_route. rewrite !Hy by vm_refl.
  assert (beacon_route (verify_path name) = None) as ->.
  { unfold beacon_route. destruct (strip_prefix BEACON_PREFIX (verify_path name)) as [r|] eqn:E; [|done].
    cbn [mbind option_bind]. destruct (strip_suffix ".svg" r) as [x|] eqn:E2; [|done]. exfalso.
    apply strip_prefix_some in E. apply strip_suffix_some in E2 as ->.
    assert (H : "y"%char = "g"%char); [|done].
    eapply (ends_with_last (verify_path name)); [exact Hlast|].
    rewrite E. change ".svg" with (".sv" +:+ "g"). by rewrite <- !string_app_assoc. }
  unfold verify_path. rewrite strip_prefix_app. cbn [mbind option_bind]. rewrite strip_suffix_app.
  cbn [mbind option_bind]. unfold str_contains_char. rewrite Hs. by destruct name.
Qed.

Lemma verify_query_params hex r :
  str_all is_ascii_hexdigit hex = true ->
  parse_query_params (verify_query hex r) =
  [("__bagel_token", hex); ("__bagel_redirect", percent_encode r)].
Proof.
  intros Hh. unfold parse_query_params, verify_query.
  assert (Hx : forall c, (c = "&"%char \/ c = "="%char) -> str_any (char_eqb c) hex = false).
  { intros c Hc. eapply str_all_not_any; [|exact Hh]. destruct Hc as [-> | ->]; intros d; by_char d. }
  assert (Hp : forall c, (c = "&"%char \/ c = "="%char) -> str_any (char_eqb c) (percent_encode r) = false).
  { intros c Hc. eapply str_all_not_any; [|apply percent_encode_chars].
    destruct Hc as [-> | ->]; intros d; by_char d. }
  change ("__bagel_token=" +:+ hex +:+ "&__bagel_redirect=" +:+ percent_encode r) with
    (("__bagel_token" +:+ String "=" hex +:+ String "&" ("__bagel_redirect" +:+ String "=" (percent_encode r)))).
  rewrite <- string_app_assoc, str_split_app.
  rewrite !str_split_none by (rewrite !str_any_app; cbn [str_any]; rewrite ?Hx, ?Hp by auto; done).
  change (omap (split_once "=") ["__bagel_token" +:+ String "=" hex;
            "__bagel_redirect" +:+ String "=" (percent_encode r)] =
          [("__bagel_token", hex); ("__bagel_redirect", percent_encode r)]).
  cbn [omap list_omap]. rewrite !split_once_app by done. done.
Qed.

Lemma safe_redirect_some raw x :
  safe_redirect raw = Some x <->
  x = raw /\ starts_with "/" raw = true /\ starts_with "//" raw = false /\
  str_all (fun c => is_ascii_graphic c || char_eqb c " ") raw = true.
Proof.
  unfold safe_redirect. destruct (starts_with "/" raw), (starts_with "//" raw), (str_all _ raw);
    cbn; split; try done; try (intros (-> & ? & ? & ?); done). by intros [= ->].
Qed.

(** The address a challenge sends a client to is read back as it was meant:
    the internal route of the challenge, the token, and the page to return to,
    which is accepted exactly when it is printable and starts with a single slash,
    so that a request whose target is in absolute form is refused. *)
Theorem verify_url_roundtrip name key redirect :
  name <> "" -> str_all (fun c => is_ascii c && negb (str_contains_char c "/?%")) name = true ->
  bytes key -> str_all is_ascii redirect = true ->
  exists path query,
    split_once "?" (verify_url name (hex_encode key) redirect) = Some (path, query) /\
    internal_route path = Some (RVerify name) /\
    query_param (Some query) "__bagel_token" = Some (hex_encode key) /\
    percent_decode <$> query_param (Some query) "__bagel_redirect" = Some redirect /\
    (safe_redirect redirect = Some redirect <->
     starts_with "/" redirect = true /\ starts_with "//" redirect = false /\
     str_all (fun c => is_ascii_graphic c || char_eqb c " ") redirect = true).
Proof.
  intros Hne Hn Hk Hr.
  assert (Hc : forall c, (c = "/"%char \/ c = "?"%char \/ c = "%"%char) -> str_any (char_eqb c) name = false).
  { intros c Hc. eapply str_all_not_any; [|exact Hn].
    destruct Hc as [-> | [-> | ->]]; intros d; by_char d. }
  exists (verify_path name), (verify_query (hex_encode key) redirect). split_and!.
  - apply verify_url_split. auto.
  - rewrite verify_path_route by auto. rewrite percent_decode_plain; [done| |auto].
    eapply str_all_impl; [|exact Hn]. intros c H. by apply andb_true_iff in H as [? _].
  - unfold query_param. cbn [mbind option_bind]. by rewrite verify_query_params by (by apply hex_encode_chars).
  - unfold query_param. cbn [mbind option_bind]. rewrite verify_query_params by (by apply hex_encode_chars).
    change (Some (percent_decode (percent_encode redirect)) = Some redirect). by rewrite percent_roundtrip.
  - rewrite safe_redirect_some. tauto.
Qed.

Lemma verify_url_roundtrip_witness :
  safe_redirect "/a b?c=d&e=%41" = Some "/a b?c=d&e=%41".
Proof.
  destruct (verify_url_roundtrip "pow" [1; 171] "/a b?c=d&e=%41") as (p & q & _ & _ & _ & _ & H);
    [done|vm_refl|repeat constructor; done|vm_refl|]. apply H. split_and!; vm_refl.
Defined.

(** An absolute target, as an HTTP/2 request has, and a backslash where browsers
    read a slash. *)
Example safe_redirect_absolute : safe_redirect "https://example.com/page" = None.
Proof. vm_refl. Qed.
Example safe_redirect_backslash : safe_redirect "/\evil.example" = Some "/\evil.example".
Proof. vm_refl. Qed.
