(* ===== verification/Solver.v ===== *)
(** * The solver

    [crates/bagel-solver/src]: the codec of the blobs the page and the solver
    exchange, the scratchpad proof, and the exports of the wasm module with the state they
    share. Arrays of bytes are lists, and an array type of length [n] is the
    hypothesis that the list has that length. *)

From S2P Require Import Prelude Ip Bytes.

(** * SHA-256 of the solver

    [crates/bagel-solver/src/sha256.rs]: the compression function, the digest of
    a pair of blocks, the padded key block whose nonce an attempt rewrites, and
    the test for leading zero bits; with a reference definition of SHA-256 for
    messages of any length, the digest of every message of which the shortcuts
    are instances. An array of bytes is a list, and its length a hypothesis. *)

Local Open Scope N_scope.

(** ** The source *)

Definition K : list N := [
  0x428a_2f98; 0x7137_4491; 0xb5c0_fbcf; 0xe9b5_dba5; 0x3956_c25b; 0x59f1_11f1; 0x923f_82a4; 0xab1c_5ed5;
  0xd807_aa98; 0x1283_5b01; 0x2431_85be; 0x550c_7dc3; 0x72be_5d74; 0x80de_b1fe; 0x9bdc_06a7; 0xc19b_f174;
  0xe49b_69c1; 0xefbe_4786; 0x0fc1_9dc6; 0x240c_a1cc; 0x2de9_2c6f; 0x4a74_84aa; 0x5cb0_a9dc; 0x76f9_88da;
  0x983e_5152; 0xa831_c66d; 0xb003_27c8; 0xbf59_7fc7; 0xc6e0_0bf3; 0xd5a7_9147; 0x06ca_6351; 0x1429_2967;
  0x27b7_0a85; 0x2e1b_2138; 0x4d2c_6dfc; 0x5338_0d13; 0x650a_7354; 0x766a_0abb; 0x81c2_c92e; 0x9272_2c85;
  0xa2bf_e8a1; 0xa81a_664b; 0xc24b_8b70; 0xc76c_51a3; 0xd192_e819; 0xd699_0624; 0xf40e_3585; 0x106a_a070;
  0x19a4_c116; 0x1e37_6c08; 0x2748_774c; 0x34b0_bcb5; 0x391c_0cb3; 0x4ed8_aa4a; 0x5b9c_ca4f; 0x682e_6ff3;
  0x748f_82ee; 0x78a5_636f; 0x84c8_7814; 0x8cc7_0208; 0x90be_fffa; 0xa450_6ceb; 0xbef9_a3f7; 0xc671_78f2].

(** The working variables [a] to [h]. *)
Record Sha : Type := {
  v_a : N; v_b : N; v_c : N; v_d : N; v_e : N; v_f : N; v_g : N; v_h : N }.

Definition H0 : Sha := {|
  v_a := 0x6a09_e667; v_b := 0xbb67_ae85; v_c := 0x3c6e_f372; v_d := 0xa54f_f53a;
  v_e := 0x510e_527f; v_f := 0x9b05_688c; v_g := 0x1f83_d9ab; v_h := 0x5be0_cd19 |}.

(** [block.as_chunks::<4>] as big-endian words. *)
Fixpoint chunk_words (n : nat) (block : list N) : list N :=
  match n with
  | O => []
  | S n => of_be_bytes (take 4 block) :: chunk_words n (drop 4 block)
  end.

Definition extend_schedule (w : list N) (i : nat) : list N :=
  let w15 := w !!! (i - 15)%nat in
  let w2 := w !!! (i - 2)%nat in
  let s0 := N.lxor (N.lxor (rotate_right w15 7) (rotate_right w15 18)) (N.shiftr w15 3) in
  let s1 := N.lxor (N.lxor (rotate_right w2 17) (rotate_right w2 19)) (N.shiftr w2 10) in
  <[i := add32 (add32 (add32 (w !!! (i - 16)%nat) s0) (w !!! (i - 7)%nat)) s1]> w.
Definition schedule (block : list N) : list N :=
  foldl extend_schedule (chunk_words 16 block ++ replicate 48 0) (seq 16 48).

Definition sha_round (s : Sha) (kw : N * N) : Sha :=
  let 'Build_Sha a b c d e f g h := s in
  let s1 := N.lxor (N.lxor (rotate_right e 6) (rotate_right e 11)) (rotate_right e 25) in
  let ch := N.lxor (N.land e f) (N.land (not32 e) g) in
  let t1 := add32 (add32 (add32 (add32 h s1) ch) kw.1) kw.2 in
  let s0 := N.lxor (N.lxor (rotate_right a 2) (rotate_right a 13)) (rotate_right a 22) in
  let maj := N.lxor (N.lxor (N.land a b) (N.land a c)) (N.land b c) in
  let t2 := add32 s0 maj in
  {| v_a := add32 t1 t2; v_b := a; v_c := b; v_d := c; v_e := add32 d t1; v_f := e; v_g := f;
     v_h := g |}.

Definition compress (state : Sha) (block : list N) : Sha :=
  let r := foldl sha_round state (zip K (schedule block)) in
  {| v_a := add32 (v_a state) (v_a r); v_b := add32 (v_b state) (v_b r);
     v_c := add32 (v_c state) (v_c r); v_d := add32 (v_d state) (v_d r);
     v_e := add32 (v_e state) (v_e r); v_f := add32 (v_f state) (v_f r);
     v_g := add32 (v_g state) (v_g r); v_h := add32 (v_h state) (v_h r) |}.

Definition sha_words (s : Sha) : list N :=
  [v_a s; v_b s; v_c s; v_d s; v_e s; v_f s; v_g s; v_h s].
(** [to_bytes]. *)
Definition sha_bytes (s : Sha) : list N := mjoin (be_bytes 4 <$> sha_words s).

Definition hash_pair (left right : list N) : list N :=
  let state := compress H0 (left ++ right) in
  let tail := [0x80] ++ replicate 61 0 ++ be_bytes 2 (64 * 8) in
  sha_bytes (compress state tail).

Fixpoint leading_zero_bits (digest : list N) (remaining : N) : bool :=
  match digest with
  | [] => remaining =? 0
  | byte :: digest =>
      if remaining =? 0 then true
      else if leading_zeros8 byte <? N.min remaining 8 then false
      else leading_zero_bits digest (remaining - 8)
  end.

(** [KeyBlock]: the padded block, of which an attempt rewrites the nonce. *)
Definition key_block_new (key : list N) : list N :=
  key ++ replicate 8 0 ++ [0x80] ++ replicate 21 0 ++ be_bytes 2 (40 * 8).
Definition write_nonce (block : list N) (nonce : N) : list N :=
  take 32 block ++ be_bytes 8 nonce ++ drop 40 block.
Definition key_digest (block : list N) (nonce : N) : list N * list N :=
  let block := write_nonce block nonce in (sha_bytes (compress H0 block), block).
Definition key_satisfies (block : list N) (nonce bits : N) : bool * list N :=
  let '(digest, block) := key_digest block nonce in (leading_zero_bits digest bits, block).

(** ** The reference *)

(** FIPS 180-4: a one bit, zeros up to 56 modulo 64 bytes, and the length in
    bits as a 64-bit number; the blocks are compressed in order. *)
Definition sha_padding (len : nat) : list N :=
  [0x80] ++ replicate ((119 - len mod 64) mod 64) 0 ++ be_bytes 8 (8 * N.of_nat len).
Fixpoint sha_blocks (n : nat) (m : list N) : list (list N) :=
  match n with O => [] | S n => take 64 m :: sha_blocks n (drop 64 m) end.
Definition sha256 (message : list N) : list N :=
  let padded := message ++ sha_padding (length message) in
  sha_bytes (foldl compress H0 (sha_blocks (length padded / 64) padded)).

(** The vectors of the standard: the empty message, one block, two blocks. *)
Example sha256_empty :
  of_be_bytes (sha256 []) = 0xe3b0c44298fc1c149afbf4c8996fb92427ae41e4649b934ca495991b7852b855.
Proof. vm_refl. Qed.
Example sha256_abc :
  of_be_bytes (sha256 (string_bytes "abc")) =
    0xba7816bf8f01cfea414140de5dae2223b00361a396177a9cb410ff61f20015ad.
Proof. vm_refl. Qed.
Example sha256_two_blocks :
  of_be_bytes (sha256 (string_bytes "abcdbcdecdefdefgefghfghighijhijkijkljklmklmnlmnomnopnopq")) =
    0x248d6a61d20638b8e5c026930c3e6039a33ce45964ff2167f6ecedd419db06c1.
Proof. vm_refl. Qed.

(** ** The shortcuts are the hash *)

Lemma hash_pair_sha256 l r :
  length l = 32%nat -> length r = 32%nat -> hash_pair l r = sha256 (l ++ r).
Proof.
  intros Hl Hr. unfold sha256, hash_pair.
  assert (Hlen : length (l ++ r) = 64%nat) by (rewrite length_app; lia).
  rewrite length_app, Hlen. change (sha_padding 64) with ([128] ++ replicate 61 0 ++ be_bytes 2 (64 * 8)).
  set (tail := [128] ++ _). change (_ / 64)%nat with 2%nat. cbn [sha_blocks].
  rewrite take_app_length', drop_app_length' by done. done.
Qed.

(** A block is for a key when it holds the key and the padding; the bytes
    between are those of the last nonce. *)
Definition block_for (key block : list N) : Prop :=
  take 32 block = key /\ drop 40 block = drop 40 (key_block_new key) /\ length block = 64%nat.

Lemma key_block_new_for key : length key = 32%nat -> block_for key (key_block_new key).
Proof.
  intros Hk. unfold key_block_new. split_and!; [by rewrite take_app_length'|done|].
  rewrite !length_app, Hk. vm_refl.
Qed.

Lemma key_digest_for key block nonce :
  length key = 32%nat -> block_for key block ->
  key_digest block nonce = (sha256 (key ++ be_bytes 8 nonce), write_nonce block nonce) /\
  block_for key (write_nonce block nonce).
Proof.
  intros Hk (Ht & Hd & Hl).
  assert (Hw : write_nonce block nonce = key ++ be_bytes 8 nonce ++ drop 40 (key_block_new key)).
  { unfold write_nonce. by rewrite Ht, Hd. }
  assert (Hn : drop 40 (key_block_new key) = [128] ++ replicate 21 0 ++ be_bytes 2 (40 * 8)).
  { unfold key_block_new. rewrite app_assoc.
    apply drop_app_length'. rewrite length_app, Hk. done. }
  split.
  - unfold key_digest. f_equal. rewrite Hw, Hn. unfold sha256.
    assert (Hm : length (key ++ be_bytes 8 nonce) = 40%nat)
      by (rewrite length_app, be_bytes_length; lia).
    rewrite length_app, Hm. change (sha_padding 40) with ([128] ++ replicate 21 0 ++ be_bytes 2 (40 * 8)).
    change (_ / 64)%nat with 1%nat. cbn [sha_blocks foldl]. rewrite take_ge; [by rewrite <- app_assoc|].
    rewrite length_app, Hm. vm_compute. lia.
  - rewrite Hw. split_and!; [by rewrite take_app_length'| |].
    + rewrite app_assoc. apply drop_app_length'. rewrite length_app, be_bytes_length. lia.
    + rewrite !length_app, Hn, Hk, be_bytes_length. vm_refl.
Qed.

(** ** Zero bits *)

Lemma pow256_pow2 n : 256 ^ n = 2 ^ (8 * n).
Proof. rewrite N.pow_mul_r. done. Qed.

Lemma leading_zero_bits_lt l bits :
  bytes l ->
  leading_zero_bits l bits = true <->
  bits <= 8 * N.of_nat (length l) /\ of_be_bytes l < 2 ^ (8 * N.of_nat (length l) - bits).
Proof.
  intros Hl. revert bits. induction Hl as [|b l Hb Hl IH]; intros bits.
  { cbn. rewrite N.eqb_eq. destruct (N.eq_dec bits 0) as [->|]; [done|lia]. }
  pose proof (of_be_bytes_lt l Hl) as Hlt. rewrite pow256_pow2 in Hlt.
  cbn [leading_zero_bits length]. rewrite of_be_bytes_cons, Nat2N.inj_succ, pow256_pow2.
  set (n := N.of_nat (length l)) in *. set (v := of_be_bytes l) in *.
  assert (Hp : 0 < 2 ^ (8 * n)) by (apply N.neq_0_lt_0, N.pow_nonzero; done).
  destruct (N.eqb_spec bits 0) as [->|Hb0].
  { split; [|done]. intros _. split; [lia|].
    replace (8 * N.succ n - 0) with (8 + 8 * n) by lia. rewrite N.pow_add_r. cbn in Hb. nia. }
  destruct (N.ltb_spec (leading_zeros8 b) (bits `min` 8)) as [Hz|Hz].
  - split; [done|]. intros [Hle H]. exfalso.
    destruct (leading_zeros8_spec b (bits `min` 8) Hb ltac:(lia)) as [_ Hspec].
    assert (2 ^ (8 - bits `min` 8) <= b) as Hbig by (apply N.nlt_ge; intros Hx; specialize (Hspec Hx); lia).
    assert (2 ^ (8 * N.succ n - bits) <= 2 ^ (8 - bits `min` 8) * 2 ^ (8 * n)) as Hle2
      by (rewrite <- N.pow_add_r; apply N.pow_le_mono_r; [done|]; lia).
    nia.
  - rewrite IH.
    destruct (leading_zeros8_spec b (bits `min` 8) Hb ltac:(lia)) as [Hspec _]. specialize (Hspec Hz).
    destruct (N.le_gt_cases bits 8) as [Hb8|Hb8].
    + rewrite N.min_l in Hspec by done. replace (bits - 8) with 0 by lia. rewrite N.sub_0_r.
      replace (8 * N.succ n - bits) with ((8 - bits) + 8 * n) by lia. rewrite N.pow_add_r.
      split; [|intros _; split; [lia|done]]. intros _. split; [lia|].
      revert Hspec Hlt Hp. generalize (2 ^ (8 - bits)) (2 ^ (8 * n)). clearbody v. clear. intros Q P Hb Hv _.
      enough (N.succ b * P <= Q * P) by lia. apply N.mul_le_mono_r. lia.
    + rewrite N.min_r in Hspec by lia. change (2 ^ (8 - 8)) with 1 in Hspec. assert (b = 0) as -> by lia.
      rewrite N.mul_0_l, N.add_0_l. replace (8 * N.succ n - bits) with (8 * n - (bits - 8)) by lia.
      split; intros [? ?]; (split; [lia|done]).
Qed.

Lemma sha_bytes_spec s : length (sha_bytes s) = 32%nat /\ bytes (sha_bytes s).
Proof.
  split; [done|]. unfold sha_bytes, sha_words. cbn [fmap list_fmap mjoin list_join].
  repeat apply Forall_app_2; first [apply be_bytes_bytes|constructor].
Qed.

Lemma sha256_length m : length (sha256 m) = 32%nat.
Proof. apply sha_bytes_spec. Qed.
Lemma hash_pair_length l r : length (hash_pair l r) = 32%nat.
Proof. apply sha_bytes_spec. Qed.

(** Whatever nonces the block has been through, one more attempt hashes the
    key and the nonce with SHA-256 and accepts when the digest, read as a number
    of 256 bits, is below [2 ^ (256 - bits)]. *)
Theorem attempt_is_sha256 key nonces nonce bits :
  length key = 32%nat ->
  let block := foldl (fun b n => (key_digest b n).2) (key_block_new key) nonces in
  (key_digest block nonce).1 = sha256 (key ++ be_bytes 8 nonce) /\
  ((key_satisfies block nonce bits).1 = true <->
   bits <= 256 /\ of_be_bytes (sha256 (key ++ be_bytes 8 nonce)) < 2 ^ (256 - bits)).
Proof.
  cbv zeta. intros Hk. set (block := foldl _ _ _).
  assert (Hb : block_for key block).
  { subst block. pose proof (key_block_new_for key Hk) as H. revert H.
    generalize (key_block_new key). induction nonces as [|n ns IH]; intros b H; [done|].
    apply IH. destruct (key_digest_for key b n Hk H) as [-> Hw]. exact Hw. }
  destruct (key_digest_for key block nonce Hk Hb) as [E _].
  unfold key_satisfies. rewrite E. split; [done|]. cbn [fst].
  rewrite leading_zero_bits_lt by apply sha_bytes_spec. by rewrite sha256_length.
Qed.

Lemma attempt_is_sha256_witness :
  (key_satisfies (foldl (fun b n => (key_digest b n).2) (key_block_new (replicate 32 7)) [1; 2]) 3 0).1
    = true.
Proof.
  apply (attempt_is_sha256 (replicate 32 7) [1; 2] 3 0 eq_refl). split; [lia|].
  apply (of_be_bytes_lt (sha256 _)), sha_bytes_spec.
Defined.

Local Open Scope N_scope.

(** ** The codec *)

Inductive Kind : Type := Sha256 | Scratch.
#[global] Instance kind_eq_dec : EqDecision Kind.
Proof. solve_decision. Defined.

Definition kind_tag (k : Kind) : N := match k with Sha256 => 0 | Scratch => 1 end.
Definition from_tag (t : N) : option Kind :=
  match t with 0 => Some Sha256 | 1 => Some Scratch | _ => None end.

Definition IV_LEN : nat := 4.
Definition KEY_LEN : nat := 32.
Definition HANDOFF_LEN : nat := IV_LEN + KEY_LEN + 4.
Definition SOLUTION_LEN : nat := IV_LEN + KEY_LEN + 17.

Record Handoff : Type := {
  h_key : list N; h_kind : Kind; h_difficulty : N; h_blocks_log2 : N; h_gpu_difficulty : N }.
Record Solution : Type := { s_key : list N; s_nonce : N; s_difficulty : N; s_probe : N }.

(** One step of [xorshift32]. *)
Definition xorshift32 (state : N) : N :=
  let state := N.lxor state (shl32 state 13) in
  let state := N.lxor state (N.shiftr state 17) in
  N.lxor state (shl32 state 5).
Fixpoint keystream_from (state : N) (data : list N) : list N :=
  match data with
  | [] => []
  | byte :: data =>
      let state := xorshift32 state in
      N.lxor byte (N.shiftr state 24) :: keystream_from state data
  end.
Definition keystream (iv data : list N) : list N := keystream_from (N.lor (of_le_bytes iv) 1) data.

(** [keystream(iv, out.iter_mut().skip(IV_LEN))]. *)
Definition seal_tail (iv out : list N) : list N :=
  take IV_LEN out ++ keystream iv (drop IV_LEN out).

Definition pack_handoff (iv : list N) (h : Handoff) : list N :=
  let tail := [kind_tag (h_kind h); h_difficulty h; h_blocks_log2 h; h_gpu_difficulty h] in
  seal_tail iv (iv ++ h_key h ++ tail).

(** [split_first_chunk] and the key stream over the rest. *)
Definition open_blob (len : nat) (blob : list N) : option (list N) :=
  if bool_decide (length blob = len)
  then Some (keystream (take IV_LEN blob) (drop IV_LEN blob)) else None.

Definition unpack_handoff (blob : list N) : option Handoff :=
  body ← open_blob HANDOFF_LEN blob;
  t ← body !! KEY_LEN; kind ← from_tag t;
  difficulty ← body !! (KEY_LEN + 1)%nat;
  blocks ← body !! (KEY_LEN + 2)%nat;
  gpu ← body !! (KEY_LEN + 3)%nat;
  Some {| h_key := take KEY_LEN body; h_kind := kind; h_difficulty := difficulty;
          h_blocks_log2 := blocks; h_gpu_difficulty := gpu |}.

Definition pack_solution (iv : list N) (s : Solution) : list N :=
  seal_tail iv (iv ++ s_key s ++ be_bytes 8 (s_nonce s) ++ [s_difficulty s] ++
                be_bytes 8 (s_probe s)).

Definition unpack_solution (blob : list N) : option Solution :=
  body ← open_blob SOLUTION_LEN blob;
  let rest := drop KEY_LEN body in
  difficulty ← drop 8 rest !! 0%nat;
  Some {| s_key := take KEY_LEN body; s_nonce := of_be_bytes (take 8 rest);
          s_difficulty := difficulty; s_probe := of_be_bytes (take 8 (drop 9 rest)) |}.

(** ** The scratchpad proof *)

Definition MIN_BLOCKS_LOG2 : N := 11.
Definition MAX_BLOCKS_LOG2 : N := 15.

Definition fill_step (seed : list N) (pad : list (list N)) (index : nat) : list (list N) :=
  <[index := hash_pair (pad !!! (index - 1)%nat) seed]> pad.
(** [u32::from_le_bytes(acc[0..4]) as usize & (blocks - 1)]. *)
Definition pick_of (acc : list N) (blocks : N) : nat :=
  N.to_nat (N.land (of_le_bytes (take 4 acc)) (blocks - 1)).
Definition walk_step (blocks : N) (st : list N * list (list N)) : list N * list (list N) :=
  let '(acc, pad) := st in
  let pick := pick_of acc blocks in
  let acc := hash_pair acc (pad !!! pick) in
  (acc, <[pick := acc]> pad).

(** [satisfies]; the pad and the key block are left changed. *)
Definition pad_satisfies (pad : list (list N)) (key : list N) (nonce blocks_log2 bits : N)
    : bool * list (list N) * list N :=
  let blocks := N.shiftl 1 blocks_log2 in
  if N.of_nat (length pad) <? blocks then (false, pad, key)
  else
    let '(seed, key) := key_digest key nonce in
    let n := N.to_nat blocks in
    let used := <[0%nat := seed]> (take n pad) in
    let used := foldl (fill_step seed) used (seq 1 (n - 1)) in
    let '(acc, used) := Nat.iter n (walk_step blocks) (seed, used) in
    (leading_zero_bits acc bits, used ++ drop n pad, key).

(** ** The exports of the module *)

Module Exports.

Definition BUF_LEN : nat := 64.
Record Solver : Type := { buf : list N; handoff : Handoff; pad : list (list N) }.

Definition solver_init : Solver := {|
  buf := replicate BUF_LEN 0;
  handoff := {| h_key := replicate KEY_LEN 0; h_kind := Sha256; h_difficulty := 0;
                h_blocks_log2 := 0; h_gpu_difficulty := 0 |};
  pad := replicate (N.to_nat (2 ^ MAX_BLOCKS_LOG2)) (replicate 32 0) |}.

(** What the page may do with the pointer [buf] returns: write over the
    start of the buffer. *)
Definition host_write (bs : list N) (st : Solver) : Solver :=
  {| buf := bs ++ drop (length bs) (buf st); handoff := handoff st; pad := pad st |}.

Definition unpack (len : N) (st : Solver) : Z * Solver :=
  let blob := if len <=? N.of_nat (length (buf st)) then Some (take (N.to_nat len) (buf st)) else None in
  match blob ≫= unpack_handoff with
  | None => ((-1)%Z, st)
  | Some h =>
      if bool_decide (h_kind h = Scratch) && (MAX_BLOCKS_LOG2 <? h_blocks_log2 h) then ((-1)%Z, st)
      else (Z.of_N (N.lor (h_difficulty h) (N.shiftl (h_gpu_difficulty h) 8)),
            {| buf := buf st; handoff := h; pad := pad st |})
  end.

Definition key (st : Solver) : N * Solver :=
  (N.of_nat KEY_LEN,
   {| buf := h_key (handoff st) ++ drop KEY_LEN (buf st); handoff := handoff st; pad := pad st |}).

(** [(start..end).find(..)] for either proof, with the block and the pad as the
    attempts leave them. *)
Fixpoint find_sha (n : nat) (nonce bits : N) (block : list N) : option N :=
  match n with
  | O => None
  | S n =>
      let '(ok, block) := key_satisfies block nonce bits in
      if (ok : bool) then Some nonce else find_sha n (nonce + 1) bits block
  end.
Fixpoint find_pad (n : nat) (nonce blocks_log2 bits : N) (pad : list (list N)) (block : list N)
    : option N * list (list N) :=
  match n with
  | O => (None, pad)
  | S n =>
      let '(ok, pad, block) := pad_satisfies pad block nonce blocks_log2 bits in
      if (ok : bool) then (Some nonce, pad) else find_pad n (nonce + 1) blocks_log2 bits pad block
  end.

Definition solve (start count : N) (st : Solver) : Z * Solver :=
  let h := handoff st in
  let block := key_block_new (h_key h) in
  let bits := h_difficulty h in
  let tries := N.to_nat (sat_add u64_max start count - start) in
  let '(found, pad') :=
    match h_kind h with
    | Sha256 => (find_sha tries start bits block, pad st)
    | Scratch => find_pad tries start (h_blocks_log2 h) bits (pad st) block
    end in
  (match found with
   | Some nonce => if nonce <=? i64_max then Z.of_N nonce else (-1)%Z
   | None => (-1)%Z
   end, {| buf := buf st; handoff := h; pad := pad' |}).

Definition seal_solution (nonce probe_hi probe_lo level : N) (st : Solver) : Solution := {|
  s_key := h_key (handoff st); s_nonce := nonce; s_difficulty := N.min level 32;
  s_probe := N.lor (N.shiftl probe_hi 32) probe_lo |}.
Definition seal (nonce iv probe_hi probe_lo level : N) (st : Solver) : N * Solver :=
  let sealed := pack_solution (le_bytes 4 iv) (seal_solution nonce probe_hi probe_lo level st) in
  (N.of_nat SOLUTION_LEN,
   {| buf := sealed ++ drop SOLUTION_LEN (buf st); handoff := handoff st; pad := pad st |}).
End Exports.

(** ** The codec round trips *)

Lemma lxor_cancel x y : N.lxor (N.lxor x y) y = x.
Proof. by rewrite N.lxor_assoc, N.lxor_nilpotent, N.lxor_0_r. Qed.

Lemma keystream_from_involutive s l : keystream_from s (keystream_from s l) = l.
Proof.
  revert s. induction l as [|b l IH]; intros s; cbn [keystream_from]; [done|].
  by rewrite lxor_cancel, IH.
Qed.
Lemma keystream_involutive iv l : keystream iv (keystream iv l) = l.
Proof. apply keystream_from_involutive. Qed.
Lemma keystream_length iv l : length (keystream iv l) = length l.
Proof.
  unfold keystream. generalize (N.lor (of_le_bytes iv) 1).
  induction l as [|b l IH]; intros s; cbn; [done|]. by rewrite IH.
Qed.

Lemma seal_tail_app iv body :
  length iv = IV_LEN -> seal_tail iv (iv ++ body) = iv ++ keystream iv body.
Proof. intros H. unfold seal_tail. by rewrite take_app_length', drop_app_length'. Qed.

Lemma open_sealed n iv body :
  length iv = IV_LEN -> (IV_LEN + length body)%nat = n ->
  open_blob n (seal_tail iv (iv ++ body)) = Some body.
Proof.
  intros Hiv Hn. rewrite seal_tail_app by done. unfold open_blob.
  rewrite length_app, keystream_length, Hiv, bool_decide_eq_true_2 by done.
  by rewrite take_app_length', drop_app_length', keystream_involutive.
Qed.

Definition solution_wf (s : Solution) : Prop :=
  length (s_key s) = KEY_LEN /\ s_nonce s <= u64_max /\ s_probe s <= u64_max.

Lemma seal_tail_length iv body :
  length iv = IV_LEN -> length (seal_tail iv (iv ++ body)) = (IV_LEN + length body)%nat.
Proof. intros H. by rewrite seal_tail_app, length_app, keystream_length, H. Qed.

Lemma unpack_pack_handoff_eq iv h :
  length iv = IV_LEN -> length (h_key h) = KEY_LEN ->
  unpack_handoff (pack_handoff iv h) = Some h /\ length (pack_handoff iv h) = HANDOFF_LEN.
Proof.
  intros Hiv Hk. unfold pack_handoff. split; [|rewrite seal_tail_length, length_app, Hk by done; done].
  unfold unpack_handoff. rewrite open_sealed by (done || by rewrite length_app, Hk). cbn [mbind option_bind].
  rewrite !lookup_app_r by (rewrite Hk; unfold KEY_LEN; lia). rewrite Hk, take_app_length' by done.
  destruct h as [k [] d b g]; vm_refl || done.
Qed.

Lemma unpack_pack_solution_eq iv s :
  length iv = IV_LEN -> solution_wf s ->
  unpack_solution (pack_solution iv s) = Some s /\ length (pack_solution iv s) = SOLUTION_LEN.
Proof.
  intros Hiv (Hk & Hn & Hp). unfold pack_solution.
  assert (Hlen : length (s_key s ++ be_bytes 8 (s_nonce s) ++ [s_difficulty s] ++ be_bytes 8 (s_probe s))
                 = (KEY_LEN + 17)%nat) by (rewrite !length_app, Hk, !be_bytes_length; done).
  split; [|by rewrite seal_tail_length, Hlen].
  unfold unpack_solution. rewrite open_sealed by (done || rewrite Hlen; done). cbn [mbind option_bind].
  rewrite drop_app_length', take_app_length', (drop_app_length' _ _ 8),
    (take_app_length' _ _ 8) by (done || by rewrite be_bytes_length).
  cbn [lookup list_lookup app mbind option_bind].
  replace (be_bytes 8 (s_nonce s) ++ s_difficulty s :: be_bytes 8 (s_probe s))
    with ((be_bytes 8 (s_nonce s) ++ [s_difficulty s]) ++ be_bytes 8 (s_probe s)) by (by rewrite <- app_assoc).
  rewrite drop_app_length' by (by rewrite length_app, be_bytes_length).
  rewrite take_ge by (rewrite be_bytes_length; lia).
  rewrite !be_bytes_id by (unfold u64_max in *; cbn; lia). by destruct s.
Qed.

(** ** The scratchpad proof depends on the seed only *)

(** The pad as filling makes it: each block hashes the one before with the seed. *)
Fixpoint chain (prev seed : list N) (n : nat) : list (list N) :=
  match n with O => [] | S n => let x := hash_pair prev seed in x :: chain x seed n end.
Definition filled (seed : list N) (n : nat) : list (list N) := seed :: chain seed seed (n - 1).
Definition walk_digest (seed : list N) (blocks_log2 : N) : list N :=
  let n := N.to_nat (2 ^ blocks_log2) in
  (Nat.iter n (walk_step (2 ^ blocks_log2)) (seed, filled seed n)).1.

Lemma fill_spec seed pre last rest :
  foldl (fill_step seed) (pre ++ last :: rest) (seq (S (length pre)) (length rest)) =
  pre ++ last :: chain last seed (length rest).
Proof.
  revert pre last. induction rest as [|r rest IH]; intros pre last; [done|].
  cbn [length seq foldl chain]. unfold fill_step at 2.
  replace (S (length pre) - 1)%nat with (length pre) by lia.
  rewrite list_lookup_total_middle by done.
  rewrite insert_app_r_alt by lia. replace (S (length pre) - length pre)%nat with 1%nat by lia.
  cbn [insert list_insert].
  specialize (IH (pre ++ [last]) (hash_pair last seed)).
  rewrite length_app, Nat.add_1_r, <- !app_assoc in IH. exact IH.
Qed.

Lemma chain_length a seed n : length (chain a seed n) = n.
Proof. revert a. induction n as [|n IH]; intros a; [done|]. cbn [chain length]. by rewrite IH. Qed.

Lemma walk_step_length blocks st : length (walk_step blocks st).2 = length st.2.
Proof. destruct st as [acc p]. apply length_insert. Qed.
Lemma walk_length blocks n st : length (Nat.iter n (walk_step blocks) st).2 = length st.2.
Proof. induction n as [|n IH]; [done|]. rewrite Nat.iter_succ, walk_step_length. exact IH. Qed.

Lemma fill_fresh seed u :
  u <> [] ->
  foldl (fill_step seed) (<[0%nat := seed]> u) (seq 1 (length u - 1)) = filled seed (length u).
Proof.
  intros Hu. destruct u as [|x u]; [done|]. cbn [insert list_insert length].
  rewrite Nat.sub_succ, Nat.sub_0_r. unfold filled. cbn [length]. rewrite Nat.sub_succ, Nat.sub_0_r.
  exact (fill_spec seed [] seed u).
Qed.

Lemma pow2_to_nat k : N.to_nat (2 ^ k) <> 0%nat.
Proof. assert (2 ^ k <> 0) by (apply N.pow_nonzero; done). lia. Qed.

Lemma pad_satisfies_spec k p block nonce blocks_log2 bits :
  length k = 32%nat -> block_for k block -> 2 ^ blocks_log2 <= N.of_nat (length p) ->
  exists p',
    pad_satisfies p block nonce blocks_log2 bits =
      (leading_zero_bits (walk_digest (sha256 (k ++ be_bytes 8 nonce)) blocks_log2) bits, p',
       write_nonce block nonce) /\
    length p' = length p /\ block_for k (write_nonce block nonce).
Proof.
  intros Hk Hb Hp. destruct (key_digest_for k block nonce Hk Hb) as [E Hb'].
  unfold pad_satisfies. rewrite N.shiftl_1_l.
  destruct (N.ltb_spec (N.of_nat (length p)) (2 ^ blocks_log2)); [lia|]. rewrite E.
  generalize (sha256 (k ++ be_bytes 8 nonce)). intros seed. set (n := N.to_nat (2 ^ blocks_log2)).
  assert (Hn : length (take n p) = n) by (rewrite length_take; subst n; lia).
  assert (Hne : take n p <> []).
  { intros Ht. rewrite Ht in Hn. by apply (pow2_to_nat blocks_log2). }
  replace (seq 1 (n - 1)) with (seq 1 (length (take n p) - 1)) by (by rewrite Hn).
  rewrite fill_fresh, Hn by done. unfold walk_digest. fold n.
  destruct (Nat.iter n _ _) as [acc used] eqn:Ew. cbn [fst].
  exists (used ++ drop n p). split_and!; [done| |done].
  pose proof (walk_length (2 ^ blocks_log2) n (seed, filled seed n)) as Hl. rewrite Ew in Hl.
  cbn [snd] in Hl.
  assert (length (filled seed n) = n) as Hf.
  { unfold filled. cbn [length]. rewrite chain_length.
    pose proof (pow2_to_nat blocks_log2). subst n. lia. }
  rewrite length_app, Hl, Hf, length_drop. lia.
Qed.

(** ** Searching for a nonce *)

(** What the solver and the server accept as a proof. *)
Definition proof_accepts (kind : Kind) (k : list N) (blocks_log2 nonce bits : N) : bool :=
  let seed := sha256 (k ++ be_bytes 8 nonce) in
  leading_zero_bits match kind with Sha256 => seed | Scratch => walk_digest seed blocks_log2 end bits.

Fixpoint first_from (p : N -> bool) (n : nat) (start : N) : option N :=
  match n with O => None | S n => if p start then Some start else first_from p n (start + 1) end.

Lemma first_from_some p n start x :
  first_from p n start = Some x <->
  start <= x < start + N.of_nat n /\ p x = true /\ forall y, start <= y < x -> p y = false.
Proof.
  revert start. induction n as [|n IH]; intros start; cbn [first_from]; [split; [done|lia]|].
  destruct (p start) eqn:E.
  - split; [intros [= <-]; split_and!; [lia|lia|done|lia]|]. intros (H & Hx & Hmin).
    destruct (N.eq_dec x start) as [->|]; [done|]. rewrite Hmin in E by lia. done.
  - rewrite IH. split; intros (H & Hx & Hmin).
    + split_and!; [lia|lia|done|]. intros y Hy.
      destruct (N.eq_dec y start) as [->|]; [done|]. apply Hmin. lia.
    + assert (x <> start) by (intros ->; congruence). split_and!; [lia|lia|done|].
      intros y Hy. apply Hmin. lia.
Qed.

Lemma first_from_none p n start :
  first_from p n start = None <-> forall y, start <= y < start + N.of_nat n -> p y = false.
Proof.
  revert start. induction n as [|n IH]; intros start; cbn [first_from]; [split; [lia|done]|].
  destruct (p start) eqn:E.
  - split; [done|]. intros H. rewrite H in E by lia. done.
  - rewrite IH. split; intros H y Hy; [|apply H; lia].
    destruct (N.eq_dec y start) as [->|]; [done|]. apply H. lia.
Qed.

Section Search.
Variables (k : list N) (bits : N).
Hypothesis Hk : length k = 32%nat.

Lemma find_sha_first n start block :
  block_for k block ->
  Exports.find_sha n start bits block =
  first_from (fun x => proof_accepts Sha256 k 0 x bits) n start.
Proof.
  revert start block. induction n as [|n IH]; intros start block Hb; [done|].
  cbn [Exports.find_sha first_from]. unfold key_satisfies.
  destruct (key_digest_for k block start Hk Hb) as [-> Hb']. unfold proof_accepts at 1.
  destruct (leading_zero_bits _ _); [done|]. by apply IH.
Qed.

Lemma find_pad_first blocks_log2 n start p block :
  block_for k block -> 2 ^ blocks_log2 <= N.of_nat (length p) ->
  (Exports.find_pad n start blocks_log2 bits p block).1 =
  first_from (fun x => proof_accepts Scratch k blocks_log2 x bits) n start /\
  length (Exports.find_pad n start blocks_log2 bits p block).2 = length p.
Proof.
  revert start p block. induction n as [|n IH]; intros start p block Hb Hp; [done|].
  cbn [Exports.find_pad first_from].
  destruct (pad_satisfies_spec k p block start blocks_log2 bits Hk Hb Hp) as (p' & -> & Hl & Hb').
  unfold proof_accepts at 1. destruct (leading_zero_bits _ _); [done|].
  rewrite <- Hl. apply IH; [done|]. by rewrite Hl.
Qed.
End Search.

(** ** The module keeps its state sound *)

Definition handoff_wf (h : Handoff) : Prop :=
  length (h_key h) = KEY_LEN /\ (h_kind h = Scratch -> h_blocks_log2 h <= MAX_BLOCKS_LOG2).
Record solver_wf (st : Exports.Solver) : Prop := {
  sw_buf : length (Exports.buf st) = Exports.BUF_LEN;
  sw_handoff : handoff_wf (Exports.handoff st);
  sw_pad : N.of_nat (length (Exports.pad st)) = 2 ^ MAX_BLOCKS_LOG2 }.

Lemma unpack_handoff_key blob h : unpack_handoff blob = Some h -> length (h_key h) = KEY_LEN.
Proof.
  unfold unpack_handoff, open_blob. case_bool_decide as Hl; [|done]. cbn [mbind option_bind]. intros H.
  repeat (apply bind_Some in H as (? & ? & H)). injection H as <-. cbn [h_key].
  rewrite length_take, keystream_length, length_drop, Hl. done.
Qed.

Section Wf.
Import Exports.

Lemma solver_init_wf : solver_wf solver_init.
Proof.
  split; [done|by split|]. unfold solver_init. cbn [pad]. rewrite length_replicate. apply N2Nat.id.
Qed.

Lemma host_write_wf bs st : (length bs <= BUF_LEN)%nat -> solver_wf st -> solver_wf (host_write bs st).
Proof.
  intros Hl [Hb Hh Hp]. split; [|done|done]. cbn [host_write buf].
  rewrite length_app, length_drop, Hb. lia.
Qed.

Lemma unpack_wf len st : solver_wf st -> solver_wf (unpack len st).2.
Proof.
  intros Hw. unfold unpack. destruct (_ ≫= unpack_handoff) as [h|] eqn:E; [|done].
  apply bind_Some in E as (blob & _ & E). apply unpack_handoff_key in E.
  destruct (bool_decide _ && _) eqn:Eb; [done|]. destruct Hw as [Hb _ Hp].
  split; [done| |done]. split; [done|]. cbn [handoff]. intros Hs.
  rewrite (bool_decide_eq_true_2 _ Hs) in Eb. apply N.ltb_ge. exact Eb.
Qed.

Lemma solve_search start count st :
  solver_wf st ->
  let h := handoff st in
  let tries := N.to_nat (sat_add u64_max start count - start) in
  let found := first_from
    (fun x => proof_accepts (h_kind h) (h_key h) (h_blocks_log2 h) x (h_difficulty h)) tries start in
  (solve start count st).1 =
    match found with
    | Some nonce => if nonce <=? i64_max then Z.of_N nonce else (-1)%Z
    | None => (-1)%Z
    end /\
  solver_wf (solve start count st).2.
Proof.
  cbv zeta. intros [Hb [Hk Hl] Hp]. unfold solve.
  pose proof (key_block_new_for _ Hk) as Hblk.
  destruct (h_kind (handoff st)) eqn:Ek.
  - rewrite (find_sha_first _ _ Hk) by done. split; [done|]. split; [done| |done]. split; [exact Hk|].
    intros Hs. change (h_kind (handoff st) = Scratch) in Hs. congruence.
  - assert (Hfit : 2 ^ h_blocks_log2 (handoff st) <= N.of_nat (length (pad st))).
    { rewrite Hp. apply N.pow_le_mono_r; [done|]. by apply Hl. }
    match goal with |- context [find_pad ?n ?s ?l ?b ?p ?k] =>
      destruct (find_pad_first (h_key (handoff st)) b Hk l n s p k Hblk Hfit) as [Hf Hlen];
      destruct (find_pad n s l b p k) as [found p'] end.
    cbn [fst snd] in Hf, Hlen |- *. rewrite Hf. split; [done|].
    split; [done| |cbn [pad]; by rewrite Hlen]. split; [exact Hk|]. intros _. by apply Hl.
Qed.

Lemma seal_wf nonce iv hi lo level st :
  solver_wf st -> nonce <= u64_max -> hi <= u32_max -> lo <= u32_max ->
  let '(len, st') := seal nonce iv hi lo level st in
  unpack_solution (take (N.to_nat len) (buf st')) = Some (seal_solution nonce hi lo level st) /\
  solver_wf st'.
Proof.
  intros [Hb Hh Hp] Hn Hhi Hlo. unfold seal.
  destruct (unpack_pack_solution_eq (le_bytes 4 iv) (seal_solution nonce hi lo level st)) as [Hr Hl].
  - apply le_bytes_length.
  - split_and!; [apply Hh|done|]. unfold seal_solution, u64_max, u32_max in *. cbn [s_probe].
    enough (N.lor (N.shiftl hi 32) lo < 2 ^ 64) by lia.
    destruct (N.eq_dec (N.lor (N.shiftl hi 32) lo) 0) as [->|Hz]; [done|].
    apply N.log2_lt_pow2; [lia|]. rewrite N.log2_lor.
    assert (forall x, x < 2 ^ 64 -> N.log2 x < 64) as Hlog.
    { intros x Hx. destruct (N.eq_dec x 0) as [->|]; [done|]. apply N.log2_lt_pow2; lia. }
    apply N.max_lub_lt; apply Hlog; [rewrite N.shiftl_mul_pow2|]; lia.
  - cbn [buf]. rewrite Nat2N.id, take_app_length' by done. split; [exact Hr|].
    split; [|done|done]. cbn [buf]. rewrite length_app, Hl, length_drop, Hb. done.
Qed.

End Wf.

(** What [solve] answers, for any test of nonces. *)
Lemma answer_exact (p : N -> bool) n start stop :
  (forall x, start <= x < stop <-> start <= x < start + N.of_nat n) ->
  let r := match first_from p n start with
           | Some nonce => if nonce <=? i64_max then Z.of_N nonce else (-1)%Z
           | None => (-1)%Z
           end in
  (forall x, r = Z.of_N x <->
     start <= x < stop /\ x <= i64_max /\ p x = true /\ forall y, start <= y < x -> p y = false) /\
  (r = (-1)%Z <-> forall x, start <= x < stop -> x <= i64_max -> p x = false).
Proof.
  cbv zeta. intros Hr. split.
  - intros x. rewrite Hr. destruct (first_from p n start) as [y|] eqn:E.
    + apply first_from_some in E as (Hy & Hp & Hmin). destruct (N.leb_spec y i64_max).
      * split; [intros ->%N2Z.inj; done|]. intros (Hx & _ & Hpx & Hminx).
        destruct (N.lt_trichotomy x y) as [Hlt|[->|Hlt]]; [|done|].
        -- by rewrite Hmin in Hpx by lia.
        -- by rewrite Hminx in Hp by lia.
      * split; [lia|]. intros (Hx & Hxm & Hpx & Hminx). rewrite Hmin in Hpx by lia. done.
    + split; [lia|]. intros (Hx & _ & Hpx & _).
      apply (proj1 (first_from_none p n start)) with (y := x) in E; [congruence|done].
  - destruct (first_from p n start) as [y|] eqn:E.
    + apply first_from_some in E as (Hy & Hp & Hmin). destruct (N.leb_spec y i64_max).
      * split; [lia|]. intros H1. by rewrite (H1 y) in Hp by (done || by apply Hr).
      * split; [|done]. intros _ x Hx Hm. apply Hmin. lia.
    + split; [|done]. intros _ x Hx _. apply (proj1 (first_from_none p n start) E). by apply Hr.
Qed.

(** The module's search is exact. From a sound state, [solve] returns the
    first nonce of its range whose proof reaches the difficulty of the handoff,
    for either kind of proof, whatever earlier attempts left in the scratchpad;
    it answers -1 exactly when no nonce that fits 63 bits qualifies; and the state
    stays sound. *)
Theorem solve_exact start count (st : Exports.Solver) :
  solver_wf st ->
  let h := Exports.handoff st in
  let ok x := proof_accepts (h_kind h) (h_key h) (h_blocks_log2 h) x (h_difficulty h) in
  let stop := N.max start (sat_add u64_max start count) in
  let r := (Exports.solve start count st).1 in
  (forall x, r = Z.of_N x <->
     start <= x < stop /\ x <= i64_max /\ ok x = true /\ forall y, start <= y < x -> ok y = false) /\
  (r = (-1)%Z <-> forall x, start <= x < stop -> x <= i64_max -> ok x = false) /\
  solver_wf (Exports.solve start count st).2.
Proof.
  cbv zeta. intros Hw. destruct (solve_search start count st Hw) as [-> Hw'].
  edestruct (answer_exact (fun x => proof_accepts (h_kind (Exports.handoff st))
    (h_key (Exports.handoff st)) (h_blocks_log2 (Exports.handoff st)) x
    (h_difficulty (Exports.handoff st)))) as [H1 H2];
    [|split_and!; [exact H1|exact H2|exact Hw']].
  intros x. lia.
Qed.

(** A handoff of difficulty two, which the third nonce solves. *)
Definition example_handoff (kind : Kind) : Handoff := {|
  h_key := replicate 32 7; h_kind := kind; h_difficulty := 2; h_blocks_log2 := 1;
  h_gpu_difficulty := 0 |}.
Definition example_solver : Exports.Solver := {|
  Exports.buf := replicate 64 0; Exports.handoff := example_handoff Sha256;
  Exports.pad := Exports.pad Exports.solver_init |}.
Lemma example_solver_wf : solver_wf example_solver.
Proof. destruct solver_init_wf. by split. Qed.

Lemma solve_exact_witness :
  proof_accepts Sha256 (replicate 32 7) 1 4 2 = true /\
  forall y, 0 <= y < 4 -> proof_accepts Sha256 (replicate 32 7) 1 y 2 = false.
Proof.
  destruct (solve_exact 0 40 example_solver example_solver_wf) as (H & _).
  assert (E : (Exports.solve 0 40 example_solver).1 = Z.of_N 4) by vm_refl.
  destruct (proj1 (H 4) E) as (_ & _ & Hok & Hmin). split; [exact Hok|exact Hmin].
Defined.

(** The blobs the page and the solver exchange lose nothing: a handoff and a
    solution come back whole from their sealed bytes, under any initialisation
    vector, and have the length the reader insists on. *)
Theorem codec_roundtrip iv h s :
  length iv = IV_LEN -> length (h_key h) = KEY_LEN -> solution_wf s ->
  (unpack_handoff (pack_handoff iv h) = Some h /\ length (pack_handoff iv h) = HANDOFF_LEN) /\
  (unpack_solution (pack_solution iv s) = Some s /\ length (pack_solution iv s) = SOLUTION_LEN).
Proof. intros Hiv Hk Hs. split; [by apply unpack_pack_handoff_eq|by apply unpack_pack_solution_eq]. Qed.

Lemma codec_roundtrip_witness :
  unpack_solution (pack_solution [1; 2; 3; 4]
    {| s_key := replicate 32 9; s_nonce := u64_max; s_difficulty := 20; s_probe := 5 |}) =
  Some {| s_key := replicate 32 9; s_nonce := u64_max; s_difficulty := 20; s_probe := 5 |}.
Proof.
  apply (codec_roundtrip [1; 2; 3; 4] (example_handoff Scratch)); [done|done|].
  split_and!; [done|vm_compute; done|vm_compute; done].
Defined.

(** A handoff written to the buffer and unpacked is the one the module works on. *)
Lemma unpack_written iv h st :
  solver_wf st -> length iv = IV_LEN -> handoff_wf h ->
  Exports.unpack (N.of_nat HANDOFF_LEN) (Exports.host_write (pack_handoff iv h) st) =
    (Z.of_N (N.lor (h_difficulty h) (N.shiftl (h_gpu_difficulty h) 8)),
     {| Exports.buf := Exports.buf (Exports.host_write (pack_handoff iv h) st);
        Exports.handoff := h; Exports.pad := Exports.pad st |}).
Proof.
  intros [Hb _ _] Hiv [Hk Hs]. destruct (unpack_pack_handoff_eq iv h Hiv Hk) as [Hu Hl].
  unfold Exports.unpack, Exports.host_write. cbn [Exports.buf Exports.handoff Exports.pad].
  rewrite length_app, length_drop, Hb, Hl. change (N.of_nat HANDOFF_LEN <=? _) with true. cbn [mbind option_bind].
  rewrite Nat2N.id, take_app_length' by done. rewrite Hu.
  replace (bool_decide (h_kind h = Scratch) && (MAX_BLOCKS_LOG2 <? h_blocks_log2 h)) with false; [done|].
  case_bool_decide as E; [|done]. symmetry. apply N.ltb_ge. by apply Hs.
Qed.
