(* ===== verification/Host.v ===== *)
(** * Host names

    [crates/bagel-web/src/host.rs]: the canonical form of a request's authority
    that routing, policy, cookies and logs share, and [canonicalize_authority] of
    [server/pipeline.rs], which takes it from the URI and the Host header. *)

From S2P Require Import Prelude Strings Ip.

Local Open Scope N_scope.

Record CanonicalHost : Type := { host_text : string; host_ip : option IpAddr }.
#[global] Instance canonical_host_eq_dec : EqDecision CanonicalHost.
Proof. solve_decision. Defined.

Definition host_from_ip (ip : IpAddr) : CanonicalHost :=
  {| host_text := show_ip ip; host_ip := Some ip |}.
Definition is_ip (h : CanonicalHost) : bool := is_some (host_ip h).

Definition dns_char (c : ascii) : bool :=
  is_ascii_lowercase c || is_ascii_digit c || char_eqb c "-" || char_eqb c "_".
Definition dns_label (label : string) : bool :=
  negb (str_is_empty label) && (String.length label <=? 63)%nat && str_all dns_char label.
Definition is_valid_dns_name (name : string) : bool :=
  negb (str_is_empty name) && (String.length name <=? 253)%nat &&
  forallb dns_label (str_split "." name).

Definition validate_port (port : string) : result string unit :=
  if str_is_empty port || negb (is_some (parse_unsigned u16_max port))
  then Err ("invalid port '" +:+ port +:+ "'") else Ok tt.

(** An authority that starts with a bracket, after it. *)
Definition parse_bracketed (rest : string) : result string CanonicalHost :=
  '(literal, tail) ← ok_or "unterminated IPv6 literal" (split_once "]" rest);
  (if str_is_empty tail then Ok tt
   else port ← ok_or "malformed authority after IPv6 literal" (strip_prefix ":" tail);
        validate_port port) ;;
  if str_contains_char "%" literal then Err "scoped IPv6 zone identifiers are not allowed"
  else bits ← ok_or "invalid IPv6 literal" (parse_ipv6 literal); Ok (host_from_ip (V6 bits)).

(** The host before the port. *)
Definition authority_host (authority : string) : result string string :=
  match split_once ":" authority with
  | Some (host, port) =>
      if str_contains_char ":" port then Err "IPv6 literals require brackets"
      else validate_port port ;; Ok host
  | None => Ok authority
  end.

Definition parse_name (host : string) : result string CanonicalHost :=
  if str_is_empty host then Err "empty host"
  else match parse_ipv4 host with
  | Some bits => Ok (host_from_ip (V4 bits))
  | None =>
      if negb (str_all is_ascii host) then Err "non-ASCII host, expected the punycode A-label form"
      else
        let ascii := to_ascii_lowercase host in
        let ascii := default ascii (strip_suffix "." ascii) in
        if is_valid_dns_name ascii then Ok {| host_text := ascii; host_ip := None |}
        else Err "invalid DNS host"
  end.

(** [CanonicalHost::parse]. *)
Definition host_parse (authority : string) : result string CanonicalHost :=
  if str_contains_char "@" authority then Err "authority must not contain user information"
  else match strip_prefix "[" authority with
       | Some rest => parse_bracketed rest
       | None => host ← authority_host authority; parse_name host
       end.

(** [canonicalize_authority]. *)
Definition canonicalize_authority (uri header : option string) : result string CanonicalHost :=
  match uri, header with
  | Some uri, Some header =>
      from_uri ← host_parse uri;
      from_header ← host_parse header;
      if bool_decide (from_uri = from_header) then Ok from_uri
      else Err "URI authority and Host header disagree"
  | Some authority, None | None, Some authority => host_parse authority
  | None, None => Err "no usable authority"
  end.

(** [canonical_request_host] of [routes.rs]: the Host header alone when there is
    one that is text, and otherwise the URI. *)
Definition canonical_request_host (uri header : option string) : option CanonicalHost :=
  raw ← (match header with Some h => Some h | None => uri end);
  match host_parse raw with Ok h => Some h | Err _ => None end.

(** The examples of the module's tests. *)
Example equivalent_spellings_produce_one_host :
  host_parse <$> ["EXAMPLE.com"; "example.com:8080"; "example.com."; "eXaMpLe.CoM:443"; "example.com.:80"]
  = replicate 5 (Ok {| host_text := "example.com"; host_ip := None |}).
Proof. vm_refl. Qed.
Example malformed_authorities_are_rejected :
  forallb (fun s => negb (is_ok (host_parse s)))
    [""; "user@example.com"; "example.com:notaport"; "example.com:"; "[::1"; "[::1%eth0]"; "::1";
     "exa mple.com"; "a..b"; ".."] = true.
Proof. vm_refl. Qed.

(** A trailing dot hides an IPv4 literal: the text is that of the address, but the
    host is not an address any more. *)
Example dotted_ipv4 :
  host_parse "192.0.2.7." = Ok {| host_text := "192.0.2.7"; host_ip := None |} /\
  host_parse "192.0.2.7" = Ok (host_from_ip (V4 0xC0000207)).
Proof. split; vm_refl. Qed.

(** ** What a canonical host is made of *)

(** The characters of names and of printed addresses. *)
Definition host_char (c : ascii) : bool := dns_char c || char_eqb c "." || char_eqb c ":".

Lemma str_all_join p sep l :
  str_all p sep = true -> Forall (fun s => str_all p s = true) l -> str_all p (str_join sep l) = true.
Proof.
  intros Hsep. induction 1 as [|s [|s' l] Hs Hl IH]; [done|done|].
  rewrite str_join_cons, !str_all_app, Hs, Hsep. exact IH.
Qed.

Lemma digit_host_char c : is_ascii_digit c = true -> host_char c = true.
Proof. by_char c. Qed.
Lemma show_N_host n : str_all host_char (show_N n) = true.
Proof. eapply str_all_impl; [exact digit_host_char|apply show_N_digits]. Qed.

Lemma hex_digit_host d : d < 16 -> host_char (hex_digit d) = true.
Proof.
  intros H. assert (exists i, d = N.of_nat i /\ (i < 16)%nat) as (i & -> & Hi) by (exists (N.to_nat d); lia).
  do 16 (destruct i as [|i]; [vm_refl|]). lia.
Qed.

Lemma drop_zeros_sub l d : d ∈ drop_zeros l -> d ∈ l.
Proof.
  induction l as [|x l IH]; [done|]. cbn [drop_zeros]. destruct l as [|y l]; [done|].
  destruct (x =? 0); [|done]. intros H. right. by apply IH.
Qed.

Lemma show_hex16_host v : str_all host_char (show_hex16 v) = true.
Proof.
  apply str_all_forall. unfold show_hex16. rewrite string_chars_string.
  apply Forall_fmap, Forall_forall. intros d Hd%drop_zeros_sub. apply hex_digit_host.
  assert (Hland : forall x, N.land x 15 < 16).
  { intros x. change 15 with (N.ones 4). rewrite N.land_ones. apply N.mod_lt. done. }
  repeat (apply elem_of_cons in Hd as [->|Hd]; [apply Hland|]). by apply not_elem_of_nil in Hd.
Qed.

Lemma show_ip_host ip : str_all host_char (show_ip ip) = true.
Proof.
  assert (H4 : forall b, str_all host_char (show_ipv4 b) = true).
  { intros b. apply str_all_join; [done|]. apply Forall_fmap, Forall_true. intros n. apply show_N_host. }
  assert (H6 : forall l, str_all host_char (str_join ":" (show_hex16 <$> l)) = true).
  { intros l. apply str_all_join; [done|]. apply Forall_fmap, Forall_true. intros n. apply show_hex16_host. }
  destruct ip as [b|b]; cbn [show_ip]; [done|]. unfold show_ipv6.
  destruct (_ =? 65535); [rewrite str_all_app, H4; done|].
  destruct (longest_zeros _ _ _ _) as [start len]. destruct (1 <? len)%nat; [|done].
  by rewrite !str_all_app, !H6.
Qed.

(** An address with its text, or a valid name. *)
Definition canonical (h : CanonicalHost) : Prop :=
  match host_ip h with
  | Some ip => host_text h = show_ip ip
  | None => is_valid_dns_name (host_text h) = true
  end.

Lemma dns_label_chars l : dns_label l = true -> str_all dns_char l = true.
Proof. unfold dns_label. rewrite !andb_true_iff. tauto. Qed.
Lemma dns_name_chars s :
  is_valid_dns_name s = true -> str_all (fun c => dns_char c || char_eqb c ".") s = true.
Proof.
  unfold is_valid_dns_name. rewrite !andb_true_iff. intros [_ H]. apply str_all_split.
  apply forallb_forall. intros w Hw. apply dns_label_chars. by apply (proj1 (forallb_forall _ _) H).
Qed.

Lemma canonical_chars h : canonical h -> str_all host_char (host_text h) = true.
Proof.
  unfold canonical. destruct (host_ip h); intros Hh; [rewrite Hh; apply show_ip_host|].
  eapply str_all_impl; [|by apply dns_name_chars]. intros c. unfold host_char. intros ->. done.
Qed.

Lemma parse_name_canonical s h : parse_name s = Ok h -> canonical h.
Proof.
  unfold parse_name. destruct (str_is_empty s); [done|].
  destruct (parse_ipv4 s); [by intros [= <-]|]. destruct (negb _); [done|].
  destruct (is_valid_dns_name _) eqn:E; [|done]. by intros [= <-].
Qed.

Lemma host_parse_canonical raw h : host_parse raw = Ok h -> canonical h.
Proof.
  unfold host_parse. destruct (str_contains_char _ raw); [done|].
  destruct (strip_prefix "[" raw) as [rest|].
  - unfold parse_bracketed. intros ([l t] & _ & (u & _ & H)%bind_ok)%bind_ok.
    destruct (str_contains_char "%" l); [done|]. apply bind_ok in H as (bits & _ & [= <-]). done.
  - intros (s & _ & H)%bind_ok. by eapply parse_name_canonical.
Qed.

(** ** Spellings of a name *)

Definition decimal_dot (c : ascii) : bool := is_ascii_digit c || char_eqb c ".".

Lemma to_digit_10 c d : to_digit 10 c = Some d -> is_ascii_digit c = true.
Proof.
  unfold to_digit. destruct (is_ascii_digit c) eqn:E; [done|].
  assert (H : forall x, 10 <= x -> (if x <? 10 then Some x else None) = @None N).
  { intros x Hx. by rewrite (proj2 (N.ltb_ge x 10) Hx). }
  destruct (is_ascii_lowercase c); [|destruct (is_ascii_uppercase c); [|done]];
    cbn [mbind option_bind]; rewrite H by lia; done.
Qed.

Lemma span_digits_10 s ds r :
  span_digits 10 s = (ds, r) ->
  exists t, s = t +:+ r /\ String.length t = length ds /\ str_all is_ascii_digit t = true.
Proof.
  revert ds. induction s as [|c s IH]; intros ds; cbn [span_digits].
  { intros [= <- <-]. by exists "". }
  destruct (to_digit 10 c) as [d|] eqn:E; [|intros [= <- <-]; by exists ""].
  destruct (span_digits 10 s) as [ds' r'] eqn:Es. intros [= <- <-].
  destruct (IH ds' eq_refl) as (t & -> & Hl & Ht). exists (String c t).
  split_and!; [done|cbn; by rewrite Hl|]. cbn. by rewrite (to_digit_10 c d E).
Qed.

(** A run of digits that is not empty: what [read_number] takes. *)
Definition digits_text (t : string) : Prop := t <> "" /\ str_all is_ascii_digit t = true.

Lemma read_number_10 z max m s v r :
  read_number 10 m z max s = Some (v, r) -> exists t, s = t +:+ r /\ digits_text t.
Proof.
  unfold read_number. destruct (span_digits 10 s) as [ds rest] eqn:E.
  destruct (match m with Some k => (k <? length ds)%nat | None => false end); [done|].
  destruct (Nat.eqb_spec (length ds) 0); [done|].
  destruct (negb z && _ && _); [done|]. destruct (_ <=? max); [|done]. intros [= <- <-].
  destruct (span_digits_10 s ds rest E) as (t & -> & Hl & Ht). exists t. split; [done|].
  split; [|done]. intros ->. cbn in Hl. lia.
Qed.

Lemma read_octets_shape n i s ds r :
  (0 < n)%nat -> read_octets n i s = Some (ds, r) ->
  exists pre t, s = pre +:+ t +:+ r /\ str_all decimal_dot pre = true /\ digits_text t.
Proof.
  revert i s ds. induction n as [|n IH]; intros i s ds Hn; [lia|]. cbn [read_octets].
  intros ([d s'] & Hd & H)%bind_Some. apply bind_Some in H as ([ds' r'] & Hr & [= <- <-]).
  assert (exists pre t, s = pre +:+ t +:+ s' /\ str_all decimal_dot pre = true /\ digits_text t)
    as (pre & t & -> & Hpre & Ht).
  { unfold read_separator in Hd. destruct i as [|i].
    - apply read_number_10 in Hd as (t & -> & Ht). by exists "", t.
    - apply bind_Some in Hd as (s1 & Hs1 & Hd). apply strip_prefix_some in Hs1 as ->.
      apply read_number_10 in Hd as (t & -> & Ht). by exists ".", t. }
  destruct n as [|n].
  { injection Hr as <- <-. by exists pre, t. }
  destruct (IH (S i) s' ds' ltac:(lia) Hr) as (pre' & t' & -> & Hpre' & Ht').
  exists (pre +:+ t +:+ pre'), t'. rewrite !string_app_assoc. split_and!; [done| |done].
  rewrite !str_all_app, Hpre, Hpre', andb_true_r. cbn [andb].
  eapply str_all_impl; [|exact (proj2 Ht)]. intros c Hc. unfold decimal_dot. by rewrite Hc.
Qed.

Lemma parse_ipv4_shape s b :
  parse_ipv4 s = Some b -> str_all decimal_dot s = true /\ strip_suffix "." s = None.
Proof.
  unfold parse_ipv4. destruct (15 <? String.length s)%nat; [done|]. unfold whole, read_ipv4_addr.
  intros ([b' r] & H & Hr)%bind_Some. apply bind_Some in H as ([ds r'] & H & [= <- <-]).
  destruct r' as [|c r']; [|done].
  apply read_octets_shape in H as (pre & t & -> & Hpre & Hne & Ht); [|lia].
  rewrite string_app_nil_r. split.
  - rewrite str_all_app, Hpre. cbn [andb]. eapply str_all_impl; [|exact Ht].
    intros c Hc. unfold decimal_dot. by rewrite Hc.
  - destruct (strip_suffix "." _) as [x|] eqn:E; [|done]. exfalso.
    apply strip_suffix_some in E.
    assert (Hs : str_any (fun c => negb (is_ascii_digit c)) t = false).
    { eapply str_all_not_any; [|exact Ht]. intros c. by intros ->. }
    apply (f_equal (fun s => rev (string_chars s))) in E.
    rewrite !string_chars_app, !rev_app_distr in E. cbn in E.
    destruct (rev (string_chars t)) as [|c l] eqn:Er.
    + apply (f_equal (@length _)) in Er. rewrite length_rev in Er. by destruct t.
    + cbn in E. injection E as -> _. apply str_all_forall in Ht.
      assert (Hin : "."%char ∈ string_chars t).
      { apply list_elem_of_In, in_rev. rewrite Er. by left. }
      by apply (proj1 (Forall_forall _ _) Ht) in Hin.
Qed.

Lemma validate_port_chars p :
  validate_port p = Ok tt -> str_any (fun c => char_eqb ":" c || char_eqb "@" c) p = false.
Proof.
  unfold validate_port. destruct (parse_unsigned u16_max p) as [n|] eqn:E.
  - intros _. apply parse_unsigned_chars in E as [_ Hp]. eapply str_all_not_any; [|exact Hp].
    intros c. by_char c.
  - by destruct (str_is_empty p).
Qed.

Lemma dns_name_no_final_dot s : is_valid_dns_name s = true -> strip_suffix "." s = None.
Proof.
  intros H. destruct (strip_suffix "." s) as [r|] eqn:E; [|done].
  apply strip_suffix_some in E as ->. exfalso. unfold is_valid_dns_name in H.
  rewrite !andb_true_iff, (str_split_app "." r ""), forallb_app in H. cbn in H. rewrite andb_false_r in H.
  by destruct H as [_ ?].
Qed.

(** How a name may be written: in any letter case, with a final dot, with a port. *)
Inductive spelling (name : string) : string -> Prop :=
| spell_bare s : to_ascii_lowercase s = name -> spelling name s
| spell_dot s : to_ascii_lowercase s = name -> spelling name (s +:+ ".")
| spell_port s p : spelling name s -> str_any (char_eqb ":") s = false ->
    validate_port p = Ok tt -> spelling name (s +:+ String ":" p).

Section Spelling.
Variable name : string.
Hypothesis Hname : is_valid_dns_name name = true.
Hypothesis Hip : parse_ipv4 name = None.

Lemma spelled_chars s :
  to_ascii_lowercase s = name ->
  s <> "" /\ str_all (fun c => is_ascii c && negb (char_eqb c "@" || char_eqb c "[" || char_eqb c ":")) s = true.
Proof.
  intros <-. split; [by intros ->|].
  eapply str_all_lowercase; [|by apply dns_name_chars]. intros c. by_char c.
Qed.

Lemma parse_name_spelled s :
  to_ascii_lowercase s = name ->
  parse_name s = Ok {| host_text := name; host_ip := None |} /\
  parse_name (s +:+ ".") = Ok {| host_text := name; host_ip := None |}.
Proof.
  intros Hs. destruct (spelled_chars s Hs) as [Hne Hc].
  assert (Ha : str_all is_ascii s = true).
  { eapply str_all_impl; [|exact Hc]. intros c H. by apply andb_true_iff in H as [? _]. }
  unfold parse_name. split.
  - destruct s as [|c s]; [done|]. cbn [str_is_empty].
    destruct (parse_ipv4 (String c s)) as [b|] eqn:E.
    { exfalso. pose proof E as [Hd _]%parse_ipv4_shape.
      rewrite (to_ascii_lowercase_fixed decimal_dot) in Hs; [congruence| |done].
      intros x. by_char x. }
    rewrite Ha, Hs, dns_name_no_final_dot by done. cbn [negb from_option]. unfold id. by rewrite Hname.
  - replace (str_is_empty (s +:+ ".")) with false by (by destruct s).
    destruct (parse_ipv4 (s +:+ ".")) as [b|] eqn:E.
    { apply parse_ipv4_shape in E as [_ E]. by rewrite strip_suffix_app in E. }
    rewrite str_all_app, Ha. cbn [str_all andb negb].
    replace (is_ascii "." && true) with true by vm_refl. cbn [negb].
    rewrite to_ascii_lowercase_app, Hs. change (to_ascii_lowercase ".") with ".".
    rewrite strip_suffix_app. cbn [from_option]. unfold id. by rewrite Hname.
Qed.

(** Before the port a spelling has no at sign, no bracket first and no colon. *)
Lemma spelling_parse s :
  spelling name s ->
  str_any (char_eqb "@") s = false /\ strip_prefix "[" s = None /\
  (str_any (char_eqb ":") s = false -> parse_name s = Ok {| host_text := name; host_ip := None |}) /\
  host_parse s = Ok {| host_text := name; host_ip := None |}.
Proof.
  assert (Hbase : forall s, to_ascii_lowercase s = name ->
    str_any (char_eqb "@") s = false /\ strip_prefix "[" s = None /\ str_any (char_eqb ":") s = false).
  { intros t Ht. destruct (spelled_chars t Ht) as [Hne Hc]. split_and!.
    - eapply str_all_not_any; [|exact Hc]. intros c. by_char c.
    - destruct t as [|c t]; [done|]. cbn in Hc. apply andb_true_iff in Hc as [Hc _].
      destruct (strip_prefix "[" (String c t)) as [r|] eqn:E; [|done].
      apply strip_prefix_some in E. injection E as -> ->. done.
    - eapply str_all_not_any; [|exact Hc]. intros c. by_char c. }
  assert (Hwhole : forall s, str_any (char_eqb "@") s = false -> strip_prefix "[" s = None ->
    str_any (char_eqb ":") s = false -> parse_name s = Ok {| host_text := name; host_ip := None |} ->
    host_parse s = Ok {| host_text := name; host_ip := None |}).
  { intros t H1 H2 H3 H4. unfold host_parse, str_contains_char. rewrite H1, H2. unfold authority_host.
    by rewrite split_once_none. }
  induction 1 as [s Hs|s Hs|s p Hs IH Hcolon Hp].
  - destruct (Hbase s Hs) as (H1 & H2 & H3). destruct (parse_name_spelled s Hs) as [Hn _].
    split_and!; auto.
  - destruct (Hbase s Hs) as (H1 & H2 & H3). destruct (parse_name_spelled s Hs) as [_ Hn].
    assert (H1' : str_any (char_eqb "@") (s +:+ ".") = false) by (by rewrite str_any_app, H1).
    assert (H2' : strip_prefix "[" (s +:+ ".") = None).
    { destruct (decide (s = "")) as [->|]; [done|by apply strip_char_app]. }
    assert (H3' : str_any (char_eqb ":") (s +:+ ".") = false) by (by rewrite str_any_app, H3).
    split_and!; auto.
  - destruct IH as (H1 & H2 & Hn & _). specialize (Hn Hcolon). pose proof (validate_port_chars p Hp) as Hpc.
    assert (Hsplit : forall q, (forall c, q c = true -> char_eqb ":" c || char_eqb "@" c = true) ->
              str_any q p = false).
    { intros q Hq. revert Hpc. clear -Hq. induction p as [|c p IH]; [done|]. cbn [str_any]. intros H.
      apply orb_false_iff in H as [Hc Hp']. rewrite (IH Hp'). destruct (q c) eqn:E; [|done].
      by rewrite Hq in Hc. }
    assert (H1' : str_any (char_eqb "@") (s +:+ String ":" p) = false).
    { rewrite str_any_app, H1. cbn [orb str_any]. apply Hsplit. intros c ->. by rewrite orb_true_r. }
    assert (H2' : strip_prefix "[" (s +:+ String ":" p) = None).
    { destruct (decide (s = "")) as [->|]; [done|by apply strip_char_app]. }
    split_and!; [done|done| |].
    + rewrite str_any_app. cbn [str_any]. rewrite char_eqb_refl. cbn [orb]. by rewrite orb_true_r.
    + unfold host_parse, str_contains_char. rewrite H1', H2'. unfold authority_host.
      rewrite split_once_app by done. unfold str_contains_char.
      rewrite (Hsplit (char_eqb ":")) by (intros c ->; done). by rewrite Hp.
Qed.
End Spelling.

(** C16: What the rest of the program takes for a host is in canonical form: an
    address with the text it prints as, or a valid lower-case name, of characters
    that cannot leave a cookie attribute or a URL. A host that is a name, with a text
    that is not that of an IPv4 address, is found again from every one of its spellings:
    in other case, with the final dot, with a port. *)
Theorem host_canonicalized raw h :
  host_parse raw = Ok h ->
  canonical h /\ str_all host_char (host_text h) = true /\
  (host_ip h = None -> parse_ipv4 (host_text h) = None ->
   forall s, spelling (host_text h) s -> host_parse s = Ok h).
Proof.
  intros H. pose proof (host_parse_canonical raw h H) as Hc. split_and!; [done|by apply canonical_chars|].
  destruct h as [text ip]. cbn in *. intros -> Hip s Hs.
  by destruct (spelling_parse text Hc Hip s Hs) as (_ & _ & _ & Hp).
Qed.

Lemma host_canonicalized_witness :
  host_parse "EXAMPLE.Com.:80" = Ok {| host_text := "example.com"; host_ip := None |}.
Proof.
  apply (host_canonicalized "example.com" {| host_text := "example.com"; host_ip := None |});
    [vm_refl|done|vm_refl|].
  apply (spell_port _ "EXAMPLE.Com."); [apply (spell_dot _ "EXAMPLE.Com")|..]; vm_refl.
Defined.
