(* ===== verification/Date.v ===== *)
(** * HTTP dates

    The two formatters of [Date] and [Expires] headers: [format_http_date] of
    [crates/bagel-web/src/challenge/token.rs], which counts years and months off,
    and [imf_fixdate] of [crates/bagel-deception/src/date.rs], which computes the
    civil date. They agree on every time from the epoch on. *)

From S2P Require Import Prelude.

Local Open Scope Z_scope.

(** [{:0w}] of an integer. *)
Definition zeros (n : nat) : string := chars_string (replicate n "0"%char).
Definition pad_N (w : nat) (n : N) : string :=
  let s := show_N n in zeros (w - String.length s) +:+ s.
Definition pad_Z (w : nat) (z : Z) : string :=
  if z <? 0 then "-" +:+ pad_N (w - 1) (Z.to_N (- z)) else pad_N w (Z.to_N z).

Definition MONTHS : list string :=
  ["Jan"; "Feb"; "Mar"; "Apr"; "May"; "Jun"; "Jul"; "Aug"; "Sep"; "Oct"; "Nov"; "Dec"].
Definition date_text (weekday : string) (day month year hr min sec : Z) : string :=
  weekday +:+ ", " +:+ pad_Z 2 day +:+ " " +:+ nth (Z.to_nat month) MONTHS "" +:+ " " +:+
  pad_Z 4 year +:+ " " +:+ pad_Z 2 hr +:+ ":" +:+ pad_Z 2 min +:+ ":" +:+ pad_Z 2 sec +:+ " GMT".

(** ** Counting off *)

Module Token.

Definition WDAYS : list string := ["Thu"; "Fri"; "Sat"; "Sun"; "Mon"; "Tue"; "Wed"].
Definition is_leap (yr : Z) : bool :=
  (yr mod 4 =? 0) && (negb (yr mod 100 =? 0) || (yr mod 400 =? 0)).
Definition DAYS_PER_MONTH (leap : bool) : list Z :=
  [31; if leap then 29 else 28; 31; 30; 31; 30; 31; 31; 30; 31; 30; 31].
Definition days_in_year (year : Z) : Z := if is_leap year then 366 else 365.

Fixpoint year_loop (fuel : nat) (year days : Z) : option (Z * Z) :=
  match fuel with
  | O => None
  | S fuel =>
      if days <? days_in_year year then Some (year, days)
      else year_loop fuel (year + 1) (days - days_in_year year)
  end.
(** The lengths of the months before the last one. *)
Fixpoint month_loop (lengths : list Z) (month days : Z) : Z * Z :=
  match lengths with
  | [] => (month, days)
  | len :: lengths => if len <=? days then month_loop lengths (month + 1) (days - len) else (month, days)
  end.

Definition format_http_date (fuel : nat) (epoch_secs : Z) : option string :=
  let secs := epoch_secs in
  let wday := secs mod (86400 * 7) / 86400 in
  let time_of_day := secs mod 86400 in
  let hr := time_of_day / 3600 in
  let min := time_of_day mod 3600 / 60 in
  let sec := time_of_day mod 60 in
  '(year, days) ← year_loop fuel 1970 (secs / 86400);
  let '(month, days) := month_loop (take 11 (DAYS_PER_MONTH (is_leap year))) 0 days in
  let day := days + 1 in
  Some (date_text (nth (Z.to_nat wday) WDAYS "") day month year hr min sec).

End Token.

(** ** Computing *)

Module Civil.

Definition WEEKDAYS : list string := ["Sun"; "Mon"; "Tue"; "Wed"; "Thu"; "Fri"; "Sat"].

(** Euclidean and truncated division agree on the numbers that occur, except for
    the era, which is written out. *)
Definition civil_from_days (z : Z) : Z * Z * Z :=
  let z := z + 719468 in
  let era := Z.quot (if 0 <=? z then z else z - 146096) 146097 in
  let doe := z - era * 146097 in
  let yoe := (doe - doe / 1460 + doe / 36524 - doe / 146096) / 365 in
  let year := yoe + era * 400 in
  let doy := doe - (365 * yoe + yoe / 4 - yoe / 100) in
  let mp := (5 * doy + 2) / 153 in
  let day := doy - (153 * mp + 2) / 5 + 1 in
  let month := if mp <? 10 then mp + 3 else mp - 9 in
  (if month <=? 2 then year + 1 else year, month, day).

Definition imf_fixdate (secs : Z) : string :=
  let days := secs / 86400 in
  let rem := secs mod 86400 in
  let weekday := (days + 4) mod 7 in
  let '(year, month, day) := civil_from_days days in
  date_text (nth (Z.to_nat weekday) WEEKDAYS "") day (month - 1) year (rem / 3600)
    (rem mod 3600 / 60) (rem mod 60).

End Civil.

(** The examples of the tests. *)
Example known_timestamps_format_correctly :
  (Civil.imf_fixdate <$> [0; 784111777; 1582934400]) =
  ["Thu, 01 Jan 1970 00:00:00 GMT"; "Sun, 06 Nov 1994 08:49:37 GMT"; "Sat, 29 Feb 2020 00:00:00 GMT"].
Proof. vm_refl. Qed.
Example known_timestamps_of_tokens :
  (Token.format_http_date 100 <$> [0; 784111777; 1582934400]) =
  Some <$> (Civil.imf_fixdate <$> [0; 784111777; 1582934400]).
Proof. vm_refl. Qed.

(** ** Facts *)

(** The days from the epoch to the first of January of a year. *)
Definition year_start (y : Z) : Z :=
  365 * (y - 1) + (y - 1) / 4 - (y - 1) / 100 + (y - 1) / 400 - 719162.

Lemma is_leap_spec y :
  Token.is_leap y = true <-> y mod 4 = 0 /\ (y mod 100 <> 0 \/ y mod 400 = 0).
Proof.
  unfold Token.is_leap. rewrite andb_true_iff, orb_true_iff, negb_true_iff, !Z.eqb_eq, Z.eqb_neq. done.
Qed.

Lemma year_start_next y : year_start (y + 1) = year_start y + Token.days_in_year y.
Proof.
  unfold year_start, Token.days_in_year. replace (y + 1 - 1) with y by lia.
  destruct (Token.is_leap y) eqn:E.
  - apply is_leap_spec in E. Z.to_euclidean_division_equations. lia.
  - assert (~ (y mod 4 = 0 /\ (y mod 100 <> 0 \/ y mod 400 = 0))) by (rewrite <- is_leap_spec; congruence).
    Z.to_euclidean_division_equations. lia.
Qed.

Lemma days_in_year_bounds y : 365 <= Token.days_in_year y <= 366.
Proof. unfold Token.days_in_year. destruct (Token.is_leap y); lia. Qed.

Lemma year_start_mono y k : 0 <= k -> year_start y + 365 * k <= year_start (y + k).
Proof.
  intros Hk. pattern k. apply natlike_ind; [rewrite Z.mul_0_r, !Z.add_0_r; lia|..|done].
  intros x Hx IH. unfold Z.succ. rewrite Z.add_assoc, year_start_next.
  pose proof (days_in_year_bounds (y + x)). lia.
Qed.

(** Year and day of the year are determined by the day. *)
Lemma year_unique y y' d d' :
  0 <= d < Token.days_in_year y -> 0 <= d' < Token.days_in_year y' ->
  year_start y + d = year_start y' + d' -> y = y' /\ d = d'.
Proof.
  intros Hd Hd' H.
  assert (Hlt : forall a b da db, a < b -> 0 <= da < Token.days_in_year a -> 0 <= db ->
            year_start a + da = year_start b + db -> False).
  { intros a b da db Hab Ha Hb E. pose proof (year_start_mono (a + 1) (b - (a + 1)) ltac:(lia)) as Hm.
    replace (a + 1 + (b - (a + 1))) with b in Hm by lia. rewrite year_start_next in Hm. lia. }
  destruct (Z.lt_trichotomy y y') as [?|[->|?]]; [|split; lia|]; exfalso.
  - apply (Hlt y y' d d'); lia.
  - apply (Hlt y' y d' d); lia.
Qed.

Lemma year_loop_spec fuel y days :
  0 <= days -> days / 365 < Z.of_nat fuel ->
  exists y' d', Token.year_loop fuel y days = Some (y', d') /\
    year_start y + days = year_start y' + d' /\ 0 <= d' < Token.days_in_year y'.
Proof.
  revert y days. induction fuel as [|fuel IH]; intros y days Hd Hf.
  { Z.to_euclidean_division_equations. lia. }
  cbn [Token.year_loop]. destruct (Z.ltb_spec days (Token.days_in_year y)) as [|Hge].
  - exists y, days. by split_and!.
  - pose proof (days_in_year_bounds y).
    destruct (IH (y + 1) (days - Token.days_in_year y)) as (y' & d' & -> & He & Hd'); [lia| |].
    + assert ((days - Token.days_in_year y) / 365 <= (days - 365) / 365) by (apply Z.div_le_mono; lia).
      replace (days - 365) with (days + (-1) * 365) in H0 by lia. rewrite Z.div_add in H0 by lia. lia.
    + exists y', d'. split_and!; [done| |lia..]. rewrite year_start_next in He. lia.
Qed.

(** *** The civil date *)

Definition yoe_scale (d : Z) : Z := d - d / 1460 + d / 36524 - d / 146096.
Definition march_start (y : Z) : Z := 365 * y + y / 4 - y / 100.

Lemma yoe_scale_step d : 0 <= d < 146096 -> yoe_scale d <= yoe_scale (d + 1).
Proof. unfold yoe_scale. intros H. Z.to_euclidean_division_equations. lia. Qed.
Lemma yoe_scale_mono d k : 0 <= d -> 0 <= k -> d + k <= 146096 -> yoe_scale d <= yoe_scale (d + k).
Proof.
  intros Hd Hk. pattern k. apply natlike_ind; [rewrite Z.add_0_r; lia|..|done].
  intros x Hx IH Hle. unfold Z.succ. rewrite Z.add_assoc.
  pose proof (yoe_scale_step (d + x) ltac:(lia)). lia.
Qed.

(** The ends of the 400 years of an era. *)
Lemma yoe_scale_ends y :
  0 <= y < 400 ->
  365 * y <= yoe_scale (march_start y) /\
  yoe_scale (if y =? 399 then 146096 else march_start (y + 1) - 1) < 365 * (y + 1).
Proof.
  intros Hy.
  assert (H : forallb (fun n => let y := Z.of_nat n in
    (365 * y <=? yoe_scale (march_start y)) &&
    (yoe_scale (if y =? 399 then 146096 else march_start (y + 1) - 1) <? 365 * (y + 1))) (seq 0 400) = true)
    by vm_refl.
  pose proof (proj1 (forallb_forall _ _) H (Z.to_nat y) ltac:(apply in_seq; lia)) as Hb.
  cbv beta zeta in Hb. rewrite Z2Nat.id in Hb by lia.
  apply andb_true_iff in Hb as [H1 H2]. split; [by apply Z.leb_le|by apply Z.ltb_lt].
Qed.

Lemma yoe_spec doe :
  0 <= doe < 146097 ->
  let yoe := yoe_scale doe / 365 in
  0 <= yoe < 400 /\ march_start yoe <= doe /\ (yoe = 399 \/ doe < march_start (yoe + 1)).
Proof.
  cbv zeta. intros Hd. set (yoe := yoe_scale doe / 365).
  assert (H0 : 0 <= yoe_scale doe) by (unfold yoe_scale; Z.to_euclidean_division_equations; lia).
  assert (Hlo : 365 * yoe <= yoe_scale doe < 365 * (yoe + 1)).
  { subst yoe. generalize dependent (yoe_scale doe). intros s Hs. Z.to_euclidean_division_equations. lia. }
  assert (Hmax : yoe_scale doe <= yoe_scale 146096).
  { pose proof (yoe_scale_mono doe (146096 - doe) ltac:(lia) ltac:(lia) ltac:(lia)) as Hm.
    by replace (doe + (146096 - doe)) with 146096 in Hm by lia. }
  change (yoe_scale 146096) with 145999 in Hmax.
  assert (Hy : 0 <= yoe < 400) by lia. clearbody yoe. split; [done|].
  assert (Hms : forall y, 0 <= y <= 399 -> 0 <= march_start y <= 146096).
  { intros y ?. unfold march_start. Z.to_euclidean_division_equations. lia. }
  split.
  - destruct (Z.le_gt_cases (march_start yoe) doe) as [|Hlt]; [done|exfalso].
    assert (yoe <> 0) by (intros ->; change (march_start 0) with 0 in Hlt; lia).
    destruct (yoe_scale_ends (yoe - 1) ltac:(lia)) as [_ He].
    destruct (Z.eqb_spec (yoe - 1) 399); [lia|]. replace (yoe - 1 + 1) with yoe in He by lia.
    pose proof (Hms yoe ltac:(lia)).
    pose proof (yoe_scale_mono doe (march_start yoe - 1 - doe) ltac:(lia) ltac:(lia) ltac:(lia)) as Hm.
    replace (doe + (march_start yoe - 1 - doe)) with (march_start yoe - 1) in Hm by lia. lia.
  - destruct (Z.eq_dec yoe 399) as [|Hne]; [by left|right].
    destruct (Z.lt_ge_cases doe (march_start (yoe + 1))) as [|Hge]; [done|exfalso].
    destruct (yoe_scale_ends (yoe + 1) ltac:(lia)) as [He _].
    pose proof (Hms (yoe + 1) ltac:(lia)).
    pose proof (yoe_scale_mono (march_start (yoe + 1)) (doe - march_start (yoe + 1))
      ltac:(lia) ltac:(lia) ltac:(lia)) as Hm.
    replace (march_start (yoe + 1) + (doe - march_start (yoe + 1))) with doe in Hm by lia. lia.
Qed.

(** Month and day of the month from the day of a year that starts in March, and
    from the day of the calendar year. *)
Definition march_month (doy : Z) : Z * Z :=
  let mp := (5 * doy + 2) / 153 in
  (if mp <? 10 then mp + 3 else mp - 9, doy - (153 * mp + 2) / 5 + 1).
Definition january_month (leap : bool) (d : Z) : Z * Z :=
  Token.month_loop (take 11 (Token.DAYS_PER_MONTH leap)) 0 d.

Lemma months_agree leap doy :
  0 <= doy < 366 ->
  (doy < 306 ->
   january_month leap ((if leap then 60 else 59) + doy) = ((march_month doy).1 - 1, (march_month doy).2 - 1)
   /\ 2 < (march_month doy).1) /\
  (306 <= doy -> (doy = 365 -> leap = true) ->
   january_month leap (doy - 306) = ((march_month doy).1 - 1, (march_month doy).2 - 1)
   /\ (march_month doy).1 <= 2).
Proof.
  intros Hd.
  assert (H : forallb (fun n => forallb (fun leap : bool => let doy := Z.of_nat n in
     let '(m, d) := march_month doy in
     if doy <? 306 then
       bool_decide (january_month leap ((if leap then 60 else 59) + doy) = (m - 1, d - 1)) && (2 <? m)
     else ((doy =? 365) && negb leap) ||
       (bool_decide (january_month leap (doy - 306) = (m - 1, d - 1)) && (m <=? 2)))
     [true; false]) (seq 0 366) = true) by vm_refl.
  pose proof (proj1 (forallb_forall _ _) H (Z.to_nat doy) ltac:(apply in_seq; lia)) as Hb.
  pose proof (proj1 (forallb_forall _ _) Hb leap ltac:(destruct leap; cbn; auto)) as Hc.
  cbv beta zeta in Hc. rewrite Z2Nat.id in Hc by lia.
  destruct (march_month doy) as [m d]. cbn [fst snd].
  destruct (Z.ltb_spec doy 306); (split; [intros ?|intros ? Hleap]; try lia).
  - apply andb_true_iff in Hc as [Hx%bool_decide_eq_true_1 Hy]. split; [done|by apply Z.ltb_lt].
  - apply orb_true_iff in Hc as [[Hx%Z.eqb_eq Hy]%andb_true_iff|Hc].
    + by rewrite Hleap in Hy.
    + apply andb_true_iff in Hc as [Hx%bool_decide_eq_true_1 Hy]. split; [done|by apply Z.leb_le].
Qed.

Lemma leap_of_march yoe era :
  0 <= yoe < 400 -> yoe = 399 \/ march_start (yoe + 1) = march_start yoe + 366 ->
  Token.is_leap (yoe + era * 400 + 1) = true.
Proof.
  intros Hy H. apply is_leap_spec. unfold march_start in H. Z.to_euclidean_division_equations. lia.
Qed.

(** The civil date is the year and the day of the year that count. *)
Lemma civil_spec z :
  0 <= z ->
  let '(y, m, day) := Civil.civil_from_days z in
  exists d, z = year_start y + d /\ 0 <= d < Token.days_in_year y /\
    january_month (Token.is_leap y) d = (m - 1, day - 1).
Proof.
  intros Hz. unfold Civil.civil_from_days. rewrite (proj2 (Z.leb_le 0 (z + 719468))) by lia.
  rewrite Z.quot_div_nonneg by lia. set (era := (z + 719468) / 146097).
  set (doe := z + 719468 - era * 146097).
  assert (Hdoe : 0 <= doe < 146097) by (subst doe era; Z.to_euclidean_division_equations; lia).
  assert (Hera : z + 719468 = era * 146097 + doe) by (subst doe; lia). clearbody era doe.
  destruct (yoe_spec doe Hdoe) as (Hyoe & Hlo & Hhi). unfold yoe_scale in *.
  set (yoe := (doe - doe / 1460 + doe / 36524 - doe / 146096) / 365) in *. clearbody yoe.
  set (doy := doe - (365 * yoe + yoe / 4 - yoe / 100)).
  change (let '(y, m, day) := (if (march_month doy).1 <=? 2 then yoe + era * 400 + 1 else yoe + era * 400,
            (march_month doy).1, (march_month doy).2) in
    exists d, z = year_start y + d /\ 0 <= d < Token.days_in_year y /\
      january_month (Token.is_leap y) d = (m - 1, day - 1)).
  cbv iota beta.
  assert (Hstart : z = year_start (yoe + era * 400 + 1) - 306 + doy).
  { unfold year_start. replace (yoe + era * 400 + 1 - 1) with (yoe + era * 400) by lia.
    subst doy. Z.to_euclidean_division_equations. lia. }
  assert (Hdoy : 0 <= doy < 366).
  { subst doy. unfold march_start in *. Z.to_euclidean_division_equations. lia. }
  assert (Hleap : doy = 365 -> Token.is_leap (yoe + era * 400 + 1) = true).
  { intros E. apply leap_of_march; [done|]. destruct Hhi as [|Hhi]; [by left|right].
    subst doy. unfold march_start in *. Z.to_euclidean_division_equations. lia. }
  clearbody doy. clear Hlo Hhi Hdoe Hera doe.
  destruct (Z.lt_ge_cases doy 306) as [Hlt|Hge].
  - destruct (months_agree (Token.is_leap (yoe + era * 400)) doy Hdoy) as [Hm _].
    destruct (Hm Hlt) as [Hm1 Hm2]. destruct (Z.leb_spec (march_month doy).1 2); [lia|].
    exists (Token.days_in_year (yoe + era * 400) - 306 + doy). rewrite year_start_next in Hstart.
    split_and!; [lia| |lia|].
    + pose proof (days_in_year_bounds (yoe + era * 400)). lia.
    + rewrite <- Hm1. unfold Token.days_in_year. by destruct (Token.is_leap (yoe + era * 400)).
  - destruct (months_agree (Token.is_leap (yoe + era * 400 + 1)) doy Hdoy) as [_ Hm].
    destruct (Hm Hge Hleap) as [Hm1 Hm2]. destruct (Z.leb_spec (march_month doy).1 2); [|lia].
    exists (doy - 306). pose proof (days_in_year_bounds (yoe + era * 400 + 1)).
    split_and!; [lia|lia|lia|exact Hm1].
Qed.

Lemma weekdays_agree secs :
  nth (Z.to_nat (secs mod (86400 * 7) / 86400)) Token.WDAYS "" =
  nth (Z.to_nat ((secs / 86400 + 4) mod 7)) Civil.WEEKDAYS "".
Proof.
  replace (secs mod (86400 * 7) / 86400) with ((secs / 86400) mod 7)
    by (Z.to_euclidean_division_equations; lia).
  rewrite Z.add_mod by lia. pose proof (Z.mod_pos_bound (secs / 86400) 7 ltac:(lia)) as H.
  set (w := (secs / 86400) mod 7) in *. clearbody w.
  assert (w = 0 \/ w = 1 \/ w = 2 \/ w = 3 \/ w = 4 \/ w = 5 \/ w = 6) as Hw by lia.
  repeat destruct Hw as [-> | Hw]; [vm_refl..|]. subst w. vm_refl.
Qed.

(** The program's two date formatters give the same text for every time from
    the epoch on; in particular counting years off ends, within one round for
    each 365 days. *)
Theorem dates_agree fuel secs :
  0 <= secs -> secs / 86400 / 365 < Z.of_nat fuel ->
  Token.format_http_date fuel secs = Some (Civil.imf_fixdate secs).
Proof.
  intros Hs Hf. assert (Hd : 0 <= secs / 86400) by (apply Z.div_pos; lia).
  unfold Token.format_http_date, Civil.imf_fixdate. pose proof (civil_spec _ Hd) as Hc.
  destruct (Civil.civil_from_days _) as [[y m] day]. destruct Hc as (d & Hz & Hdb & Hm).
  destruct (year_loop_spec fuel 1970 (secs / 86400) Hd Hf) as (y' & d' & -> & He & Hd').
  change (year_start 1970) with 0 in He.
  destruct (year_unique y' y d' d Hd' Hdb ltac:(lia)) as [-> ->].
  cbn [mbind option_bind]. unfold january_month in Hm. rewrite Hm, weekdays_agree.
  by replace (day - 1 + 1) with day by lia.
Qed.

Lemma dates_agree_witness :
  Token.format_http_date 200 4102444799 = Some "Thu, 31 Dec 2099 23:59:59 GMT".
Proof.
  assert (E : Civil.imf_fixdate 4102444799 = "Thu, 31 Dec 2099 23:59:59 GMT") by vm_refl.
  rewrite <- E. apply (dates_agree 200 4102444799); [lia|vm_compute; done].
Defined.
