(* ===== verification/Tls.v ===== *)
(** * TLS fingerprints

    [crates/bagel-web/src/tls/fingerprint.rs], [cloudflare.rs] and [reference.rs]:
    the reader of a ClientHello and its JA4, what a proxy or the edge relays, the
    table of known stacks, and the identity and stack of a client. SHA-256 gives a
    number of 256 bits, as elsewhere; SHA-1, base64 and hexadecimal decoding are
    arguments. *)

From S2P Require Import Prelude Strings Ip Bytes Url Date Wire Hpack.

Local Open Scope N_scope.

(** ** Values *)

(** [is_grease]. *)
Definition is_grease (value : N) : bool :=
  (N.land value 3855 =? 2570) && (N.shiftr value 8 =? N.land value 255).

Inductive TlsVersion : Type := Ssl2 | Ssl3 | Tls10 | Tls11 | Tls12 | Tls13 | Unknown.
Definition tls_version_of (version : N) : TlsVersion :=
  if version =? 772 then Tls13 else if version =? 771 then Tls12 else if version =? 770 then Tls11
  else if version =? 769 then Tls10 else if version =? 768 then Ssl3 else if version =? 2 then Ssl2 else Unknown.
Definition show_tls_version (v : TlsVersion) : string :=
  match v with
  | Tls13 => "13" | Tls12 => "12" | Tls11 => "11" | Tls10 => "10" | Ssl3 => "s3" | Ssl2 => "s2" | Unknown => "00"
  end.

(** Pairs of bytes, GREASE dropped. *)
Fixpoint pairs (data : list N) : option (list N) :=
  match data with
  | [] => Some []
  | [_] => None
  | a :: b :: rest => l ← pairs rest; Some (of_be_bytes [a; b] :: l)
  end.
Definition identifiers_of (data : list N) : result CaptureError (list N) :=
  l ← ok_or Invalid (pairs data);
  if 1024 <? blen data then Err Limited else Ok (List.filter (fun v => negb (is_grease v)) l).
(** [{value:04x}]. *)
Definition hex4 (v : N) : string :=
  chars_string [hex_digit (N.land (N.shiftr v 12) 15); hex_digit (N.land (N.shiftr v 8) 15);
                hex_digit (N.land (N.shiftr v 4) 15); hex_digit (N.land v 15)].
Definition show_identifiers (l : list N) : string := str_join "," (hex4 <$> l).

Inductive ExtensionKind : Type :=
| ServerName | SupportedGroups | PointFormats | SignatureAlgorithms | Alpn | SupportedVersions | UnknownExtension.
Definition extension_kind (kind : N) : ExtensionKind :=
  if kind =? 0 then ServerName else if kind =? 10 then SupportedGroups else if kind =? 11 then PointFormats
  else if kind =? 13 then SignatureAlgorithms else if kind =? 16 then Alpn
  else if kind =? 43 then SupportedVersions else UnknownExtension.

(** [std::str::from_utf8(..).is_ok()]. *)
Fixpoint utf8_go (fuel : nat) (l : list N) : bool :=
  match fuel, l with
  | _, [] => true
  | O, _ => false
  | S fuel, _ => let '(ok, n) := utf8_head l in ok && utf8_go fuel (drop n l)
  end.
Definition is_utf8 (l : list N) : bool := utf8_go (length l) l.

(** ** Hellos *)

Record ClientHello : Type := {
  ja4 : string; tls_version : TlsVersion; cipher_suites : list N; extensions : list N;
  elliptic_curves : list N; ec_point_formats : list N; sni : string; alpn : list (list N);
  signature_algorithms : list N }.
Definition MAX_CAPTURE : N := 65536.

(** [alpn_tag]. *)
Definition byte_alphanumeric (b : N) : bool := is_ascii_alphanumeric (ascii_of_N b).
Definition alpn_tag (protocol : list N) : string :=
  match head protocol, last protocol with
  | Some first, Some last =>
      if byte_alphanumeric first && byte_alphanumeric last
      then chars_string [ascii_of_N first; ascii_of_N last]
      else chars_string [hex_digit (N.shiftr first 4); hex_digit (N.land last 15)]
  | _, _ => "00"
  end.

(** The setters of the reader. *)
Definition set_sni (h : ClientHello) (s : string) : ClientHello :=
  {| ja4 := ja4 h; tls_version := tls_version h; cipher_suites := cipher_suites h; extensions := extensions h;
     elliptic_curves := elliptic_curves h; ec_point_formats := ec_point_formats h; sni := s; alpn := alpn h;
     signature_algorithms := signature_algorithms h |}.
Definition set_curves (h : ClientHello) (l : list N) : ClientHello :=
  {| ja4 := ja4 h; tls_version := tls_version h; cipher_suites := cipher_suites h; extensions := extensions h;
     elliptic_curves := l; ec_point_formats := ec_point_formats h; sni := sni h; alpn := alpn h;
     signature_algorithms := signature_algorithms h |}.
Definition set_points (h : ClientHello) (l : list N) : ClientHello :=
  {| ja4 := ja4 h; tls_version := tls_version h; cipher_suites := cipher_suites h; extensions := extensions h;
     elliptic_curves := elliptic_curves h; ec_point_formats := l; sni := sni h; alpn := alpn h;
     signature_algorithms := signature_algorithms h |}.
Definition set_signatures (h : ClientHello) (l : list N) : ClientHello :=
  {| ja4 := ja4 h; tls_version := tls_version h; cipher_suites := cipher_suites h; extensions := extensions h;
     elliptic_curves := elliptic_curves h; ec_point_formats := ec_point_formats h; sni := sni h; alpn := alpn h;
     signature_algorithms := l |}.
Definition set_alpn (h : ClientHello) (l : list (list N)) : ClientHello :=
  {| ja4 := ja4 h; tls_version := tls_version h; cipher_suites := cipher_suites h; extensions := extensions h;
     elliptic_curves := elliptic_curves h; ec_point_formats := ec_point_formats h; sni := sni h; alpn := l;
     signature_algorithms := signature_algorithms h |}.
Definition set_version (h : ClientHello) (v : TlsVersion) : ClientHello :=
  {| ja4 := ja4 h; tls_version := v; cipher_suites := cipher_suites h; extensions := extensions h;
     elliptic_curves := elliptic_curves h; ec_point_formats := ec_point_formats h; sni := sni h; alpn := alpn h;
     signature_algorithms := signature_algorithms h |}.
Definition set_extensions (h : ClientHello) (l : list N) : ClientHello :=
  {| ja4 := ja4 h; tls_version := tls_version h; cipher_suites := cipher_suites h; extensions := l;
     elliptic_curves := elliptic_curves h; ec_point_formats := ec_point_formats h; sni := sni h; alpn := alpn h;
     signature_algorithms := signature_algorithms h |}.
Definition set_ja4 (h : ClientHello) (s : string) : ClientHello :=
  {| ja4 := s; tls_version := tls_version h; cipher_suites := cipher_suites h; extensions := extensions h;
     elliptic_curves := elliptic_curves h; ec_point_formats := ec_point_formats h; sni := sni h; alpn := alpn h;
     signature_algorithms := signature_algorithms h |}.

(** The loops inside the server name and ALPN extensions. *)
Definition server_name_pass (st : list N * string) (names : list N) : Read (list N * string) :=
  let '(name_types, sni) := st in
  '(name_type, names) ← read_byte names;
  '(name, names) ← vector_u16 names;
  if bool_decide (name = []) || bool_decide (name_type ∈ name_types) then Err Invalid
  else if name_type =? 0
  then if is_utf8 name then Ok ((name_type :: name_types, bytes_string name), names) else Err Invalid
  else Ok ((name_type :: name_types, sni), names).
Definition alpn_grease (protocol : list N) : bool :=
  match protocol with [a; b] => is_grease (of_be_bytes [a; b]) | _ => false end.
Definition alpn_pass (alpn : list (list N)) (protocols : list N) : Read (list (list N)) :=
  '(protocol, protocols) ← vector_u8 protocols;
  match protocol with
  | [] => Err Invalid
  | _ => Ok (if alpn_grease protocol then alpn else alpn ++ [protocol], protocols)
  end.

(** [ClientHello::extension] once its payload has been read. *)
Definition extension_payload (kind : ExtensionKind) (data payload : list N) (h : ClientHello) :
    result CaptureError ClientHello :=
  match kind with
  | ServerName => '(_, sni) ← drain server_name_pass ([], sni h) payload; Ok (set_sni h sni)
  | SupportedGroups => l ← identifiers_of payload; Ok (set_curves h l)
  | PointFormats => Ok (set_points h payload)
  | SignatureAlgorithms => l ← identifiers_of payload; Ok (set_signatures h l)
  | Alpn => if 2048 <? blen data then Err Limited else l ← drain alpn_pass (alpn h) payload; Ok (set_alpn h l)
  | SupportedVersions =>
      versions ← identifiers_of payload;
      newest ← ok_or Invalid (match versions with [] => None | v :: l => Some (foldl N.max v l) end);
      Ok (set_version h (tls_version_of newest))
  | UnknownExtension => Ok h
  end.
Definition extension (kind : ExtensionKind) (data : list N) (h : ClientHello) : result CaptureError ClientHello :=
  match kind with
  | UnknownExtension => Ok h
  | _ =>
      '(payload, input) ←
        match kind with PointFormats | SupportedVersions => vector_u8 data | _ => vector_u16 data end;
      finish input ;;
      match payload with [] => Err Invalid | _ => extension_payload kind data payload h end
  end.

(** One pass of the loop over the extensions. *)
Definition extension_pass (st : list N * ClientHello) (input : list N) : Read (list N * ClientHello) :=
  let '(seen, h) := st in
  '(kind, input) ← u16 input;
  '(data, input) ← vector_u16 input;
  if bool_decide (kind ∈ seen) then Err Invalid
  else if 512 <? blen (kind :: seen) then Err Limited
  else
    let h := if is_grease kind then h else set_extensions h (extensions h ++ [kind]) in
    h ← extension (extension_kind kind) data h;
    Ok ((kind :: seen, h), input).

Definition hello_new (version : TlsVersion) (ciphers : list N) : ClientHello :=
  {| ja4 := ""; tls_version := version; cipher_suites := ciphers; extensions := []; elliptic_curves := [];
     ec_point_formats := []; sni := ""; alpn := []; signature_algorithms := [] |}.

Section Hello.
Variable sha256 : list N -> N.

Definition truncated_hash (value : string) : string :=
  if str_is_empty value then "000000000000"
  else hex_encode (take 6 (be_bytes 32 (sha256 (string_bytes value)))).

(** [compute_ja4]. *)
Definition sorted (l : list N) : list N := merge_sort N.le l.
Definition count2 (l : list N) : string := pad_N 2 (N.min (blen l) 99).
Definition ja4_extensions (h : ClientHello) : string :=
  let ext_str := show_identifiers
    (sorted (List.filter (fun e => negb ((e =? 0) || (e =? 16))) (extensions h))) in
  if negb (str_is_empty ext_str) && negb (bool_decide (signature_algorithms h = []))
  then ext_str +:+ "_" +:+ show_identifiers (signature_algorithms h) else ext_str.
Definition compute_ja4 (h : ClientHello) : string :=
  "t" +:+ show_tls_version (tls_version h) +:+ (if bool_decide (0 ∈ extensions h) then "d" else "i") +:+
  count2 (cipher_suites h) +:+ count2 (extensions h) +:+ alpn_tag (default [] (head (alpn h))) +:+ "_" +:+
  truncated_hash (show_identifiers (sorted (cipher_suites h))) +:+ "_" +:+ truncated_hash (ja4_extensions h).

(** [ClientHello::decode]. *)
Definition hello_decode (body : list N) : result CaptureError ClientHello :=
  '(version, input) ← u16 body;
  '(_, input) ← take_ 32 input;
  '(session, input) ← vector_u8 input;
  if 32 <? blen session then Err Invalid
  else
    '(cipher_bytes, input) ← vector_u16 input;
    if bool_decide (cipher_bytes = []) then Err Invalid
    else
      ciphers ← identifiers_of cipher_bytes;
      '(compression, input) ← vector_u8 input;
      if bool_decide (compression = []) then Err Invalid
      else
        let h := hello_new (tls_version_of version) ciphers in
        h ← match input with
            | [] => Ok h
            | _ =>
                '(exts, input) ← vector_u16 input;
                finish input ;;
                '(_, h) ← drain extension_pass ([], h) exts; Ok h
            end;
        Ok (set_ja4 h (compute_ja4 h)).

(** [ClientHello::try_from]: one record, then what the handshake so far gives. The
    position is what [data.len() - records.remaining().len()] counts. *)
Definition message (handshake : list N) : result CaptureError (option ClientHello) :=
  if blen handshake <? 4 then Ok None
  else
    '(kind, input) ← read_byte handshake;
    if negb (kind =? 1) then Err Invalid
    else
      '(body_length, input) ← u24 input;
      if MAX_CAPTURE <? body_length + 4 then Err Limited
      else if body_length <=? blen input
      then '(body, _) ← take_ body_length input; h ← hello_decode body; Ok (Some h)
      else Ok None.
Definition record_header (input : list N) : Read N :=
  '(kind, input) ← read_byte input;
  if negb (kind =? 22) then Err Invalid
  else
    '(_, input) ← take_ 2 input;
    '(length, input) ← u16 input;
    if negb ((1 <=? length) && (length <=? 16384)) then Err Invalid else Ok (length, input).
(** Every record takes at least its header, so as many passes as bytes do. *)
Fixpoint records_go (fuel : nat) (position : N) (handshake input : list N) : result CaptureError ClientHello :=
  if blen input <? 5 then Err Incomplete
  else match fuel with
  | O => Err Incomplete
  | S fuel =>
      '(length, input) ← record_header input;
      if MAX_CAPTURE <? position + 5 + length then Err Limited
      else match take_ length input with
      | Err _ => Err Incomplete
      | Ok (fragment, input) =>
          let handshake := handshake ++ fragment in
          m ← message handshake;
          match m with
          | Some h => Ok h
          | None => records_go fuel (position + 5 + length) handshake input
          end
      end
  end.
Definition hello_try_from (data : list N) : result CaptureError ClientHello :=
  if blen data <? 11 then Err Incomplete else records_go (length data) 0 [] data.
End Hello.
