(* ===== verification/TlsFacts.v ===== *)
(** * What a ClientHello's fingerprint depends on

    A hello is read the same however its handshake is cut into records and
    whatever follows, and its JA4 does not depend on the order of the cipher suites
    and extensions, on GREASE, or on the random parts. *)

From S2P Require Import Prelude Strings Ip Bytes Url Date Wire Hpack.
From S2P Require Import HpackSpec Http2 Http2Facts Tls.

Local Open Scope N_scope.

(** ** Records *)

Definition write_record (fragment : list N) : list N :=
  [22; 3; 1] ++ be_bytes 2 (blen fragment) ++ fragment.
Definition write_handshake (body : list N) : list N := 1 :: be_bytes 3 (blen body) ++ body.

Section Records.
Variable sha256 : list N -> N.

(** Fuel: a record takes six bytes or more. *)
Lemma record_header_length input n rest :
  record_header input = Ok (n, rest) -> length input = (5 + length rest)%nat /\ 1 <= n <= 16384.
Proof.
  unfold record_header, read_byte, u16. rewrite bind_ok. intros ([k i1] & H1 & H). apply uint_length in H1.
  destruct (negb (k =? 22)); [done|]. apply bind_ok in H as ([v i2] & H2 & H). apply take_length_rest in H2.
  apply bind_ok in H as ([n' i3] & H3 & H). apply uint_length in H3.
  destruct ((1 <=? n') && (n' <=? 16384)) eqn:E; [|done]. cbn [negb] in H. injection H as <- <-.
  apply andb_true_iff in E as [E1%N.leb_le E2%N.leb_le]. split; [lia|done].
Qed.
Lemma records_fuel fuel fuel' position handshake input :
  (length input <= fuel)%nat -> (length input <= fuel')%nat ->
  records_go sha256 fuel position handshake input = records_go sha256 fuel' position handshake input.
Proof.
  revert fuel' position handshake input. induction fuel as [|fuel IH]; intros fuel' position handshake input Hf Hf'.
  - assert ((blen input <? 5) = true) as E by (apply N.ltb_lt; unfold blen; lia).
    destruct fuel'; cbn [records_go]; by rewrite E.
  - destruct fuel' as [|fuel'].
    { assert ((blen input <? 5) = true) as E by (apply N.ltb_lt; unfold blen; lia). cbn [records_go]. by rewrite E. }
    cbn [records_go]. destruct (_ <? 5); [done|].
    destruct (record_header input) as [[n rest]|e] eqn:Eh; [|done]. cbn [mbind result_bind].
    apply record_header_length in Eh as [El Hn]. destruct (_ <? _); [done|].
    destruct (take_ n rest) as [[fragment rest']|e] eqn:Et; [|done]. apply take_length_rest in Et.
    destruct (message sha256 (handshake ++ fragment)) as [[h|]|e]; [done| |done]. cbn [mbind result_bind].
    apply IH; lia.
Qed.

Lemma record_header_written fragment rest :
  1 <= blen fragment <= 16384 ->
  record_header (write_record fragment ++ rest) = Ok (blen fragment, fragment ++ rest).
Proof.
  intros Hl. unfold write_record, record_header. cbn [app]. rewrite read_byte_cons. cbn [mbind result_bind N.eqb Pos.eqb negb].
  assert (Ht : take_ 2 (3 :: 1 :: (be_bytes 2 (blen fragment) ++ fragment) ++ rest) =
    Ok ([3; 1], be_bytes 2 (blen fragment) ++ fragment ++ rest)).
  { apply take_spec. split; [by rewrite <- app_assoc|done]. }
  rewrite Ht. cbn [mbind result_bind]. unfold u16. rewrite (uint_bytes 2) by (change (256 ^ 2) with 65536; lia).
  cbn [mbind result_bind]. destruct (N.leb_spec 1 (blen fragment)), (N.leb_spec (blen fragment) 16384); by try lia.
Qed.

(** What the handshake so far gives: nothing until it is whole. *)
Lemma message_partial handshake more body :
  handshake ++ more = write_handshake body -> more <> [] -> blen body + 4 <= MAX_CAPTURE ->
  message sha256 handshake = Ok None.
Proof.
  intros E Hm Hl. unfold message. destruct (N.ltb_spec (blen handshake) 4) as [|H4]; [done|].
  unfold write_handshake in E. destruct handshake as [|k handshake]; [unfold blen in H4; cbn in H4; lia|].
  assert (Ek : k = 1) by (by apply (f_equal head) in E; injection E). subst k.
  apply (f_equal tail) in E. cbn [app tail] in E. rewrite read_byte_cons. cbn [mbind result_bind N.eqb Pos.eqb negb].
  unfold blen in H4. cbn [length] in H4.
  assert (Hlen : length (be_bytes 3 (blen body)) = 3%nat) by apply be_bytes_length.
  assert (Hh : handshake = be_bytes 3 (blen body) ++ drop 3 handshake).
  { rewrite <- (take_drop 3 handshake) at 1. f_equal.
    assert (Et : take 3 (handshake ++ more) = take 3 (be_bytes 3 (blen body) ++ body)) by by rewrite E.
    rewrite take_app_le in Et by lia. rewrite take_app_length' in Et by lia. done. }
  rewrite Hh at 1. unfold u24. rewrite (uint_bytes 3) by (unfold MAX_CAPTURE in Hl; change (256 ^ 3) with 16777216; lia).
  cbn [mbind result_bind]. destruct (N.ltb_spec MAX_CAPTURE (blen body + 4)); [lia|].
  apply (f_equal length) in E. rewrite !length_app, Hlen in E.
  destruct (N.leb_spec (blen body) (blen (drop 3 handshake))) as [Hge|]; [|done].
  unfold blen in Hge. rewrite length_drop in Hge. destruct more; [done|]. cbn [length] in E. lia.
Qed.
Lemma message_whole body :
  blen body + 4 <= MAX_CAPTURE ->
  message sha256 (write_handshake body) = (h ← hello_decode sha256 body; Ok (Some h)).
Proof.
  intros Hl. unfold message. destruct (N.ltb_spec (blen (write_handshake body)) 4) as [H4|_].
  { unfold write_handshake, blen in H4. cbn [length] in H4. rewrite length_app, be_bytes_length in H4. lia. }
  unfold write_handshake. rewrite read_byte_cons. cbn [mbind result_bind N.eqb Pos.eqb negb].
  unfold u24. rewrite (uint_bytes 3) by (unfold MAX_CAPTURE in Hl; change (256 ^ 3) with 16777216; lia).
  cbn [mbind result_bind]. destruct (N.ltb_spec MAX_CAPTURE (blen body + 4)); [lia|]. rewrite N.leb_refl.
  rewrite <- (app_nil_r body) at 2. unfold blen. rewrite take_app_cursor. done.
Qed.

Lemma write_record_len f : blen (write_record f) = 5 + blen f.
Proof. unfold write_record. rewrite !blen_app, blen_be. change (blen [22; 3; 1]) with 3. lia. Qed.

Definition fragment_ok (fragment : list N) : Prop := 1 <= blen fragment <= 16384.
Definition records_len (fragments : list (list N)) : N := foldr (fun f n => 5 + blen f + n) 0 fragments.

Lemma records_read fuel fragments position handshake body rest :
  fragments <> [] -> Forall fragment_ok fragments -> handshake ++ concat fragments = write_handshake body ->
  blen body + 4 <= MAX_CAPTURE -> position + records_len fragments <= MAX_CAPTURE ->
  (length (flat_map write_record fragments ++ rest) <= fuel)%nat ->
  records_go sha256 fuel position handshake (flat_map write_record fragments ++ rest) = hello_decode sha256 body.
Proof.
  intros Hne Hf. revert fuel position handshake Hne. induction Hf as [|fragment fragments Hfr Hf IH];
    intros fuel position handshake Hne E Hb Hp Hfuel; [done|].
  cbn [flat_map concat records_len foldr] in *. fold (records_len fragments) in Hp. rewrite <- app_assoc in *.
  assert (Hlen : (length (flat_map write_record fragments ++ rest) + 6 <= fuel)%nat).
  { unfold write_record, fragment_ok, blen in *. rewrite !length_app, be_bytes_length in Hfuel. cbn [length] in Hfuel.
    rewrite length_app. lia. }
  destruct fuel as [|fuel]; [lia|]. cbn [records_go].
  assert (Hbig : (blen (write_record fragment ++ flat_map write_record fragments ++ rest) <? 5) = false).
  { apply N.ltb_ge. unfold write_record. rewrite !blen_app, blen_be. change (blen [22; 3; 1]) with 3. lia. }
  rewrite Hbig, record_header_written by done. cbn [mbind result_bind].
  destruct (N.ltb_spec MAX_CAPTURE (position + 5 + blen fragment)); [lia|].
  unfold blen at 1. rewrite take_app_cursor. destruct fragments as [|next fragments].
  - cbn [concat] in E. rewrite app_nil_r in E. rewrite E, message_whole by done.
    by destruct (hello_decode sha256 body).
  - rewrite (message_partial _ (concat (next :: fragments)) body).
    + cbn [mbind result_bind]. apply IH; [done| |done|lia|lia]. by rewrite <- app_assoc.
    + by rewrite <- app_assoc.
    + apply Forall_cons in Hf as [Hn _]. unfold fragment_ok in Hn. cbn [concat]. destruct next; [|done].
      unfold blen in Hn. cbn in Hn. lia.
    + done.
Qed.

(** The records do not matter. A ClientHello is read from its handshake
    message, however that is cut into records and whatever follows it, as long as
    its records fit the capture. *)
Theorem records_do_not_matter fragments body rest :
  Forall fragment_ok fragments -> concat fragments = write_handshake body -> 2 <= blen body ->
  records_len fragments <= MAX_CAPTURE ->
  hello_try_from sha256 (flat_map write_record fragments ++ rest) = hello_decode sha256 body.
Proof.
  intros Hf E Hb Hl. destruct fragments as [|fragment fragments]; [done|].
  assert (Htotal : blen (flat_map write_record (fragment :: fragments)) = records_len (fragment :: fragments)).
  { clear. induction (fragment :: fragments) as [|f l IH]; [done|]. cbn [flat_map records_len foldr]. fold (records_len l).
    rewrite blen_app, write_record_len, IH. lia. }
  assert (Hc : blen (concat (fragment :: fragments)) + 5 <= records_len (fragment :: fragments)).
  { clear. revert fragment. induction fragments as [|f l IH]; intros fragment.
    - cbn [concat records_len foldr]. rewrite app_nil_r. lia.
    - specialize (IH f). cbn [concat records_len foldr] in *. fold (records_len l) in *. rewrite !blen_app in *. lia. }
  assert (Hw : blen (write_handshake body) = 4 + blen body).
  { change (write_handshake body) with ([1] ++ be_bytes 3 (blen body) ++ body). rewrite !blen_app, blen_be.
    change (blen [1]) with 1. lia. }
  unfold hello_try_from. rewrite blen_app, Htotal. rewrite E, Hw in Hc.
  destruct (N.ltb_spec (records_len (fragment :: fragments) + blen rest) 11); [lia|].
  apply records_read; [done|done|done|lia|lia|done].
Qed.
End Records.

(** A hello of one cipher suite, cut into three records and followed by noise. *)
Definition small_hello : list N :=
  [3; 3] ++ replicate 32 7 ++ [0] ++ [0; 2; 19; 1] ++ [1; 0].
Definition small_fragments : list (list N) :=
  [take 3 (write_handshake small_hello); take 20 (drop 3 (write_handshake small_hello));
   drop 23 (write_handshake small_hello)].
Lemma records_do_not_matter_witness :
  let sha256 (l : list N) := blen l in
  hello_try_from sha256 (flat_map write_record small_fragments ++ [0; 99]) = hello_decode sha256 small_hello /\
  (ja4 <$> hello_decode sha256 small_hello) = Ok "t12i010000_000000000000_000000000000".
Proof.
  cbv zeta. split; [|by vm_compute].
  apply (records_do_not_matter (fun l => blen l) small_fragments small_hello [0; 99]).
  - apply (bool_decide_unpack _). by vm_compute.
  - by vm_compute.
  - by vm_compute.
  - by vm_compute.
Defined.

(** * JA4 is stable

    A hello written from its parts, what reading it gives, and the theorem that two
    hellos of one client, whose random parts, GREASE values and orders differ, have
    one JA4. *)

Local Open Scope N_scope.

(** ** What an extension changes *)

#[global] Instance extension_kind_eq_dec : EqDecision ExtensionKind.
Proof. solve_decision. Defined.

Inductive Update : Type :=
| USni (s : string) | UCurves (l : list N) | UPoints (l : list N) | USignatures (l : list N)
| UAlpn (l : list (list N)) | UVersion (v : TlsVersion).
Definition apply_update (u : Update) (h : ClientHello) : ClientHello :=
  match u with
  | USni s => set_sni h s | UCurves l => set_curves h l | UPoints l => set_points h l
  | USignatures l => set_signatures h l | UAlpn l => set_alpn h l | UVersion v => set_version h v
  end.
Definition update_kind (u : Update) : ExtensionKind :=
  match u with
  | USni _ => ServerName | UCurves _ => SupportedGroups | UPoints _ => PointFormats
  | USignatures _ => SignatureAlgorithms | UAlpn _ => Alpn | UVersion _ => SupportedVersions
  end.

(** Takes apart what reading one extension does. *)
Ltac ext_cases :=
  cbn [sni alpn set_sni set_curves set_points set_signatures set_alpn set_version set_extensions];
  repeat (cbn [mbind result_bind fmap result_fmap ok_or] in *; try done;
    match goal with
    | |- context [match ?x with _ => _ end] => destruct x
    | |- context [?m ≫= _] => destruct m
    end).

Lemma extension_update k d h h1 :
  k <> UnknownExtension -> extension k d h = Ok h1 -> exists u, update_kind u = k /\ h1 = apply_update u h.
Proof.
  intros Hk. unfold extension, extension_payload. destruct k; [..|done]; intros H; inv_all;
    repeat match goal with H : context [match ?x with _ => _ end] |- _ => destruct x; try done end; inv_all.
  - by eexists (USni _).
  - by eexists (UCurves _).
  - by eexists (UPoints _).
  - by eexists (USignatures _).
  - by eexists (UAlpn _).
  - by eexists (UVersion _).
Qed.

(** An extension reads and writes its own field only. *)
Lemma extension_apply k d u h :
  update_kind u <> k -> extension k d (apply_update u h) = apply_update u <$> extension k d h.
Proof.
  intros Hk. unfold extension, extension_payload.
  destruct k, u; try (exfalso; by apply Hk); cbn [apply_update]; ext_cases.
Qed.
Lemma extension_extensions k d l h :
  extension k d (set_extensions h l) = (fun h => set_extensions h l) <$> extension k d h.
Proof. unfold extension, extension_payload. destruct k; ext_cases. Qed.
Lemma update_comm u v h :
  update_kind u <> update_kind v -> apply_update u (apply_update v h) = apply_update v (apply_update u h).
Proof. intros Hk. destruct u, v; try (exfalso; by apply Hk); done. Qed.

(** ** Extensions in any order *)

Notation Ext := (N * list N)%type.
Fixpoint ext_fold (exts : list Ext) (h : ClientHello) : result CaptureError ClientHello :=
  match exts with
  | [] => Ok h
  | e :: exts => h ← extension (extension_kind e.1) e.2 h; ext_fold exts h
  end.

(** Kinds that are told apart have different numbers, the unknown ones aside. *)
Lemma extension_kind_inj a b : extension_kind a = extension_kind b -> a = b \/ extension_kind a = UnknownExtension.
Proof.
  unfold extension_kind.
  destruct (N.eqb_spec a 0), (N.eqb_spec b 0), (N.eqb_spec a 10), (N.eqb_spec b 10), (N.eqb_spec a 11), (N.eqb_spec b 11);
    try (intros; left; congruence); try (by intros [=]);
  destruct (N.eqb_spec a 13), (N.eqb_spec b 13), (N.eqb_spec a 16), (N.eqb_spec b 16), (N.eqb_spec a 43), (N.eqb_spec b 43);
    try (intros; left; congruence); try (by intros [=]); by right.
Qed.

Lemma extension_unknown d h : extension UnknownExtension d h = Ok h.
Proof. done. Qed.

Lemma extension_swap a b h h2 :
  a.1 <> b.1 ->
  (h1 ← extension (extension_kind a.1) a.2 h; extension (extension_kind b.1) b.2 h1) = Ok h2 ->
  (h1 ← extension (extension_kind b.1) b.2 h; extension (extension_kind a.1) a.2 h1) = Ok h2.
Proof.
  intros Hne. destruct (decide (extension_kind a.1 = UnknownExtension)) as [Ea|Ea].
  { rewrite Ea, extension_unknown. cbn [mbind result_bind]. intros ->. done. }
  destruct (decide (extension_kind b.1 = UnknownExtension)) as [Eb|Eb].
  { rewrite Eb, extension_unknown. cbn [mbind result_bind]. rewrite bind_ok. intros (h1 & -> & H). exact H. }
  assert (Hab : extension_kind a.1 <> extension_kind b.1) by (intros E; by destruct (extension_kind_inj _ _ E)).
  rewrite !bind_ok. intros (h1 & H1 & H2). destruct (extension_update _ _ _ _ Ea H1) as (u & Hu & ->).
  rewrite extension_apply in H2 by (by rewrite Hu).
  destruct (extension (extension_kind b.1) b.2 h) as [h3|] eqn:E3; [|done]. cbn [fmap result_fmap] in H2.
  apply ok_inj in H2 as <-. destruct (extension_update _ _ _ _ Eb E3) as (v & Hv & ->).
  eexists. split; [done|]. rewrite extension_apply by (rewrite Hv; congruence). rewrite H1. cbn [fmap result_fmap].
  by rewrite update_comm by (by rewrite Hu, Hv).
Qed.

Lemma ext_fold_perm exts exts' h h' :
  exts ≡ₚ exts' -> NoDup exts.*1 -> ext_fold exts h = Ok h' -> ext_fold exts' h = Ok h'.
Proof.
  intros Hp. revert h. induction Hp as [|e exts exts' Hp IH|a b exts|exts1 exts2 exts3 Hp1 IH1 Hp2 IH2];
    intros h Hnd; [done| | |].
  - cbn [fmap list_fmap] in Hnd. apply NoDup_cons in Hnd as [_ Hnd]. cbn [ext_fold]. rewrite !bind_ok.
    intros (h1 & H1 & H2). exists h1. split; [done|]. by apply IH.
  - cbn [fmap list_fmap] in Hnd. apply NoDup_cons in Hnd as [Hni _].
    cbn [ext_fold]. rewrite !bind_ok. intros (h1 & H1 & H2). apply bind_ok in H2 as (h2 & H2 & H3).
    assert (Hs : (h1 ← extension (extension_kind a.1) a.2 h; extension (extension_kind b.1) b.2 h1) = Ok h2).
    { apply (extension_swap b a); [|by apply bind_ok; exists h1]. intros E. apply Hni. rewrite E. by left. }
    apply bind_ok in Hs as (h3 & H4 & H5). exists h3. split; [done|]. apply bind_ok. by exists h2.
  - intros H. apply IH2; [by rewrite <- Hp1|]. by apply IH1.
Qed.

(** GREASE extensions do nothing. *)
Lemma grease_unknown k : is_grease k = true -> extension_kind k = UnknownExtension.
Proof.
  intros Hg. unfold extension_kind.
  destruct (N.eqb_spec k 0) as [->|]; [done|]. destruct (N.eqb_spec k 10) as [->|]; [done|].
  destruct (N.eqb_spec k 11) as [->|]; [done|]. destruct (N.eqb_spec k 13) as [->|]; [done|].
  destruct (N.eqb_spec k 16) as [->|]; [done|]. by destruct (N.eqb_spec k 43) as [->|].
Qed.
Definition no_grease (l : list N) : list N := List.filter (fun v => negb (is_grease v)) l.
Definition known (exts : list Ext) : list Ext := List.filter (fun e => negb (is_grease e.1)) exts.
Lemma ext_fold_known exts h : ext_fold (known exts) h = ext_fold exts h.
Proof.
  revert h. induction exts as [|e exts IH]; intros h; [done|]. unfold known. cbn [List.filter ext_fold]. fold (known exts).
  destruct (is_grease e.1) eqn:Eg; cbn [negb].
  - rewrite (grease_unknown _ Eg), extension_unknown. apply IH.
  - cbn [ext_fold]. destruct (extension _ _ h); [|done]. apply IH.
Qed.

(** Payloads that do the same, like lists of groups that differ in GREASE. *)
Definition same_effect (a b : Ext) : Prop :=
  a.1 = b.1 /\ forall h, extension (extension_kind a.1) a.2 h = extension (extension_kind a.1) b.2 h.
Lemma ext_fold_effect exts exts' h : Forall2 same_effect exts exts' -> ext_fold exts h = ext_fold exts' h.
Proof.
  intros Hf. revert h. induction Hf as [|a b exts exts' [Hk He] Hf IH]; intros h; [done|].
  cbn [ext_fold]. rewrite He, Hk. destruct (extension _ _ h); [|done]. apply IH.
Qed.

(** ** JA4 of equivalent hellos *)

Lemma sorted_perm l k : l ≡ₚ k -> sorted l = sorted k.
Proof.
  intros Hp. unfold sorted.
  apply (Sorted_unique N.le); [apply (Sorted_merge_sort N.le)..|].
  etransitivity; [apply (merge_sort_Permutation N.le)|]. rewrite Hp. symmetry. apply (merge_sort_Permutation N.le).
Qed.
Lemma filter_perm (f : N -> bool) l k : l ≡ₚ k -> List.filter f l ≡ₚ List.filter f k.
Proof.
  induction 1 as [|a l k Hp IH|a b l|l1 l2 l3 Hp1 IH1 Hp2 IH2]; cbn [List.filter]; [done| | |by rewrite IH1].
  - destruct (f a); by rewrite IH.
  - destruct (f a), (f b); try done. constructor.
Qed.

Section Ja4.
Variable sha256 : list N -> N.

Lemma compute_ja4_perm h exts exts' ciphers' :
  exts ≡ₚ exts' -> cipher_suites h ≡ₚ ciphers' ->
  compute_ja4 sha256 (set_extensions h exts) =
  compute_ja4 sha256 (set_extensions {| ja4 := ja4 h; tls_version := tls_version h; cipher_suites := ciphers';
    extensions := extensions h; elliptic_curves := elliptic_curves h; ec_point_formats := ec_point_formats h;
    sni := sni h; alpn := alpn h; signature_algorithms := signature_algorithms h |} exts').
Proof.
  intros He Hc. unfold compute_ja4, ja4_extensions, count2, blen.
  cbn [set_extensions extensions cipher_suites tls_version alpn signature_algorithms].
  rewrite (sorted_perm _ _ Hc), (sorted_perm _ _ (filter_perm _ _ _ He)), (Permutation_length He), (Permutation_length Hc).
  rewrite (bool_decide_ext (0 ∈ exts) (0 ∈ exts')) by by rewrite He. done.
Qed.
End Ja4.

(** ** Writing a hello *)

Record HelloParts : Type := {
  hp_version : N; hp_random : list N; hp_session : list N; hp_ciphers : list N;
  hp_compression : list N; hp_extensions : list Ext }.
Definition write_u16s (l : list N) : list N := flat_map (be_bytes 2) l.
Definition write_ext (e : Ext) : list N := be_bytes 2 e.1 ++ be_bytes 2 (blen e.2) ++ e.2.
Definition write_exts (l : list Ext) : list N := flat_map write_ext l.
Definition write_hello (p : HelloParts) : list N :=
  be_bytes 2 (hp_version p) ++ hp_random p ++
  (be_bytes 1 (blen (hp_session p)) ++ hp_session p) ++
  (be_bytes 2 (blen (write_u16s (hp_ciphers p))) ++ write_u16s (hp_ciphers p)) ++
  (be_bytes 1 (blen (hp_compression p)) ++ hp_compression p) ++
  be_bytes 2 (blen (write_exts (hp_extensions p))) ++ write_exts (hp_extensions p).

Definition ext_ok (e : Ext) : Prop := e.1 < 2 ^ 16 /\ blen e.2 < 2 ^ 16.
Record parts_ok (p : HelloParts) : Prop := {
  pa_version : hp_version p < 2 ^ 16;
  pa_random : blen (hp_random p) = 32;
  pa_session : blen (hp_session p) <= 32;
  pa_ciphers : Forall (fun v => v < 2 ^ 16) (hp_ciphers p);
  pa_count : 0 < blen (hp_ciphers p) <= 512;
  pa_compression : 0 < blen (hp_compression p) < 256;
  pa_exts : Forall ext_ok (hp_extensions p);
  pa_exts_count : blen ((hp_extensions p).*1) <= 512;
  pa_exts_len : blen (write_exts (hp_extensions p)) < 2 ^ 16;
  pa_distinct : NoDup (hp_extensions p).*1 }.

Lemma take_written n value rest : blen value = n -> take_ n (value ++ rest) = Ok (value, rest).
Proof. intros <-. apply take_app_cursor. Qed.
Lemma vector_u8_written data rest :
  blen data < 256 -> vector_u8 (be_bytes 1 (blen data) ++ data ++ rest) = Ok (data, rest).
Proof.
  intros Hl. unfold vector_u8, read_byte. rewrite (uint_bytes 1) by done. cbn [mbind result_bind].
  apply take_app_cursor.
Qed.
Lemma vector_u16_written data rest :
  blen data < 2 ^ 16 -> vector_u16 (be_bytes 2 (blen data) ++ data ++ rest) = Ok (data, rest).
Proof.
  intros Hl. unfold vector_u16, u16. rewrite (uint_bytes 2) by done. cbn [mbind result_bind].
  apply take_app_cursor.
Qed.

Lemma be_bytes_2 v : be_bytes 2 v = [v / 256 mod 256; v mod 256].
Proof. rewrite !be_bytes_S. change (256 ^ N.of_nat 1) with 256. change (256 ^ N.of_nat 0) with 1. by rewrite N.div_1_r. Qed.
Lemma pairs_written l : Forall (fun v => v < 2 ^ 16) l -> pairs (write_u16s l) = Some l.
Proof.
  induction 1 as [|v l Hv Hl IH]; [done|]. unfold write_u16s. cbn [flat_map]. fold (write_u16s l).
  pose proof (be_bytes_id 2 v Hv) as Hid. rewrite be_bytes_2 in *. cbn [app pairs]. rewrite IH. cbn [mbind option_bind].
  by rewrite Hid.
Qed.
Lemma write_u16s_len l : blen (write_u16s l) = 2 * blen l.
Proof.
  induction l as [|v l IH]; [done|]. unfold write_u16s. cbn [flat_map]. fold (write_u16s l).
  rewrite blen_app, blen_be, IH. unfold blen. cbn [length]. lia.
Qed.
Lemma identifiers_written l :
  Forall (fun v => v < 2 ^ 16) l -> blen l <= 512 -> identifiers_of (write_u16s l) = Ok (no_grease l).
Proof.
  intros Hl Hn. unfold identifiers_of. rewrite pairs_written by done. cbn [ok_or mbind result_bind].
  rewrite write_u16s_len. by destruct (N.ltb_spec 1024 (2 * blen l)); [lia|].
Qed.

(** ** Reading it *)

Lemma extension_pass_consumes : consumes extension_pass.
Proof.
  intros [seen h] input s' rest. unfold extension_pass. rewrite bind_ok. intros ([k i1] & H1 & H).
  apply uint_length in H1. apply bind_ok in H as ([d i2] & H2 & H). apply vector_u16_length in H2.
  case_bool_decide; [done|]. destruct (_ <? _); [done|]. apply bind_ok in H as (h' & _ & H). injection H as _ <-. lia.
Qed.

Lemma extension_pass_written seen h e rest :
  ext_ok e -> e.1 ∉ seen -> blen (e.1 :: seen) <= 512 ->
  extension_pass (seen, h) (write_ext e ++ rest) =
    (h ← extension (extension_kind e.1) e.2
           (if is_grease e.1 then h else set_extensions h (extensions h ++ [e.1]));
     Ok ((e.1 :: seen, h), rest)).
Proof.
  intros [Hk Hd] Hn Hs. unfold extension_pass, write_ext. rewrite <- !app_assoc. unfold u16.
  rewrite (uint_bytes 2) by done. cbn [mbind result_bind]. rewrite vector_u16_written by done. cbn [mbind result_bind].
  rewrite bool_decide_eq_false_2 by done. by destruct (N.ltb_spec 512 (blen (e.1 :: seen))); [lia|].
Qed.

Lemma drain_extensions exts seen h :
  Forall ext_ok exts -> NoDup (exts.*1 ++ seen) -> blen (exts.*1 ++ seen) <= 512 ->
  drain extension_pass (seen, h) (write_exts exts) =
    (h' ← ext_fold exts h;
     Ok (rev exts.*1 ++ seen, set_extensions h' (extensions h ++ no_grease exts.*1))).
Proof.
  intros He. revert seen h. induction He as [|e exts Hok He IH]; intros seen h Hnd Hl.
  { cbn. rewrite app_nil_r. by destruct h. }
  unfold write_exts. cbn [flat_map]. fold (write_exts exts). rewrite (drain_eq _ extension_pass_consumes).
  destruct (write_ext e ++ write_exts exts) as [|b l] eqn:E.
  { apply (f_equal length) in E. unfold write_ext in E. rewrite !length_app, be_bytes_length in E. done. }
  rewrite <- E. cbn [fmap list_fmap app] in Hnd, Hl. apply NoDup_cons in Hnd as [Hni Hnd].
  rewrite elem_of_app in Hni. unfold blen in Hl. cbn [length] in Hl. rewrite length_app in Hl.
  rewrite extension_pass_written; [|done|tauto|unfold blen; cbn [length]; lia].
  cbn [ext_fold fmap list_fmap]. unfold no_grease. cbn [List.filter]. fold (no_grease exts.*1).
  assert (Hgen : forall h0, (forall l, set_extensions h0 l = set_extensions h l) ->
    extension (extension_kind e.1) e.2 h0 = (fun h' => set_extensions h' (extensions h0)) <$> extension (extension_kind e.1) e.2 h).
  { intros h0 Hh. assert (E0 : h0 = set_extensions h (extensions h0)) by (rewrite <- Hh; by destruct h0).
    rewrite E0 at 1. apply extension_extensions. }
  set (h0 := if is_grease e.1 then h else set_extensions h (extensions h ++ [e.1])).
  rewrite (Hgen h0) by (by unfold h0; destruct (is_grease e.1)).
  destruct (extension (extension_kind e.1) e.2 h) as [h1|err]; [|done]. cbn [fmap result_fmap mbind result_bind].
  rewrite IH; [| |unfold blen; rewrite length_app; cbn [length]; lia].
  - assert (Hf : forall l, ext_fold exts (set_extensions h1 l) = (fun h' => set_extensions h' l) <$> ext_fold exts h1).
    { clear. intros l. revert h1. induction exts as [|e exts IH]; intros h1; [done|]. cbn [ext_fold].
      rewrite extension_extensions. destruct (extension _ _ h1); [|done]. cbn [fmap result_fmap mbind result_bind]. apply IH. }
    rewrite Hf. destruct (ext_fold exts h1) as [h2|]; [|done]. cbn [fmap result_fmap mbind result_bind rev].
    rewrite <- app_assoc. cbn [app]. do 2 f_equal. unfold h0. cbn [extensions set_extensions].
    destruct (is_grease e.1); cbn [negb extensions set_extensions]; [done|]. by rewrite <- app_assoc.
  - apply NoDup_app. apply NoDup_app in Hnd as (H1 & H2 & H3). split_and!; [done| |].
    + intros x Hx [->|Hs]%elem_of_cons; [tauto|]. by apply (H2 x).
    + constructor; [tauto|done].
Qed.

Section Stable.
Variable sha256 : list N -> N.

Lemma hello_decode_written p :
  parts_ok p ->
  hello_decode sha256 (write_hello p) =
    (h ← ext_fold (hp_extensions p) (hello_new (tls_version_of (hp_version p)) (no_grease (hp_ciphers p)));
     let h := set_extensions h (no_grease (hp_extensions p).*1) in
     Ok (set_ja4 h (compute_ja4 sha256 h))).
Proof.
  intros [Hv Hr Hs Hc Hn Hm He Hec Hel Hd]. unfold hello_decode, write_hello. rewrite <- !app_assoc.
  unfold u16. rewrite (uint_bytes 2) by done. cbn [mbind result_bind]. rewrite take_written by done.
  cbn [mbind result_bind]. rewrite vector_u8_written by lia. cbn [mbind result_bind].
  destruct (N.ltb_spec 32 (blen (hp_session p))); [lia|].
  rewrite vector_u16_written.
  2:{ rewrite write_u16s_len. change (2 ^ 16) with 65536. lia. }
  cbn [mbind result_bind]. rewrite bool_decide_eq_false_2.
  2:{ intros E. apply (f_equal blen) in E. rewrite write_u16s_len in E. change (blen []) with 0 in E. lia. }
  rewrite identifiers_written by (done || lia). cbn [mbind result_bind].
  rewrite vector_u8_written by lia. cbn [mbind result_bind]. rewrite bool_decide_eq_false_2.
  2:{ intros E. rewrite E in Hm. change (blen []) with 0 in Hm. lia. }
  set (tail := be_bytes 2 (blen (write_exts (hp_extensions p))) ++ write_exts (hp_extensions p)).
  destruct tail as [|b l] eqn:E.
  { apply (f_equal length) in E. unfold tail in E. rewrite length_app, be_bytes_length in E. done. }
  rewrite <- E. unfold tail. rewrite <- (app_nil_r (write_exts (hp_extensions p))) at 2.
  rewrite vector_u16_written by done. cbn [mbind result_bind finish].
  rewrite drain_extensions; [|done|by rewrite app_nil_r|by rewrite app_nil_r].
  by destruct (ext_fold _ _).
Qed.

(** Two hellos of one client. *)
Record alike (p q : HelloParts) : Prop := {
  al_version : hp_version p = hp_version q;
  al_ciphers : no_grease (hp_ciphers p) ≡ₚ no_grease (hp_ciphers q);
  al_exts : exists exts, known (hp_extensions p) ≡ₚ exts /\ Forall2 same_effect exts (known (hp_extensions q)) }.

Definition set_ciphers (h : ClientHello) (l : list N) : ClientHello :=
  {| ja4 := ja4 h; tls_version := tls_version h; cipher_suites := l; extensions := extensions h;
     elliptic_curves := elliptic_curves h; ec_point_formats := ec_point_formats h; sni := sni h; alpn := alpn h;
     signature_algorithms := signature_algorithms h |}.
Lemma extension_ciphers k d l h :
  extension k d (set_ciphers h l) = (fun h => set_ciphers h l) <$> extension k d h.
Proof.
  unfold extension, extension_payload. unfold set_ciphers at 2. destruct k; cbn [sni alpn set_ciphers]; ext_cases.
Qed.
Lemma ext_fold_ciphers exts l h :
  ext_fold exts (set_ciphers h l) = (fun h => set_ciphers h l) <$> ext_fold exts h.
Proof.
  revert h. induction exts as [|e exts IH]; intros h; [done|]. cbn [ext_fold]. rewrite extension_ciphers.
  destruct (extension _ _ h); [|done]. cbn [fmap result_fmap mbind result_bind]. apply IH.
Qed.
Lemma ext_fold_keeps exts h h' : ext_fold exts h = Ok h' -> cipher_suites h' = cipher_suites h.
Proof.
  intros H. pose proof (ext_fold_ciphers exts (cipher_suites h) h) as E.
  replace (set_ciphers h (cipher_suites h)) with h in E by (by destruct h). rewrite H in E.
  cbn [fmap result_fmap] in E. apply ok_inj in E. by rewrite E.
Qed.

Lemma known_kinds exts : (known exts).*1 = no_grease exts.*1.
Proof.
  induction exts as [|e exts IH]; [done|]. unfold known, no_grease. cbn [fmap list_fmap List.filter].
  fold (known exts) (no_grease exts.*1). destruct (is_grease e.1); cbn [negb]; [done|]. cbn [fmap list_fmap]. by rewrite <- IH.
Qed.
Lemma no_grease_sublist l : no_grease l `sublist_of` l.
Proof.
  induction l as [|v l IH]; [done|]. unfold no_grease. cbn [List.filter]. fold (no_grease l).
  destruct (negb (is_grease v)); by constructor.
Qed.
Lemma effect_kinds exts exts' : Forall2 same_effect exts exts' -> exts.*1 = exts'.*1.
Proof. induction 1 as [|a b exts exts' [Hk _] _ IH]; [done|]. cbn [fmap list_fmap]. by rewrite Hk, IH. Qed.

(** C13: JA4 is stable. Two hellos of one version, whose cipher suites and extensions
    are the same but for their order and GREASE, whose payloads do the same (GREASE
    inside the lists of groups included) and whose random values, sessions and
    compression methods are whatever they are, are both read or both refused, and
    have the same JA4. *)
Theorem ja4_stable p q h :
  parts_ok p -> parts_ok q -> alike p q -> hello_decode sha256 (write_hello p) = Ok h ->
  exists h', hello_decode sha256 (write_hello q) = Ok h' /\ ja4 h' = ja4 h.
Proof.
  intros Hp Hq [Hv Hc (exts & Hperm & Heff)]. rewrite !hello_decode_written by done. rewrite bind_ok.
  intros (h1 & H1 & E). cbv zeta in E. apply ok_inj in E as <-.
  set (new := hello_new (tls_version_of (hp_version p)) (no_grease (hp_ciphers p))) in *.
  assert (Hnew : hello_new (tls_version_of (hp_version q)) (no_grease (hp_ciphers q)) =
                 set_ciphers new (no_grease (hp_ciphers q))) by (by rewrite <- Hv).
  rewrite Hnew, ext_fold_ciphers. rewrite <- ext_fold_known in H1.
  assert (Hnd : NoDup (known (hp_extensions p)).*1).
  { rewrite known_kinds. eapply sublist_NoDup; [apply (pa_distinct _ Hp)|apply no_grease_sublist]. }
  apply (ext_fold_perm _ _ _ _ Hperm Hnd) in H1. rewrite (ext_fold_effect _ _ _ Heff), ext_fold_known in H1.
  rewrite H1. cbn [fmap result_fmap mbind result_bind]. eexists. split; [done|]. cbn [ja4 set_ja4].
  apply ext_fold_keeps in H1. symmetry.
  apply (compute_ja4_perm sha256 h1 (no_grease (hp_extensions p).*1) (no_grease (hp_extensions q).*1)).
  - rewrite <- !known_kinds, <- (effect_kinds _ _ Heff). by rewrite Hperm.
  - by rewrite H1.
Qed.
End Stable.

(** One client twice: its suites and extensions in other orders, GREASE at other
    places and inside the list of groups, other random bytes and another session. *)
Definition hello_a : HelloParts :=
  {| hp_version := 771; hp_random := replicate 32 1; hp_session := []; hp_ciphers := [2570; 4865; 4866];
     hp_compression := [0];
     hp_extensions := [(6682, []); (10, [0; 4; 10; 10; 0; 29]); (0, [0; 6; 0; 0; 3; 97; 46; 98]); (43, [2; 3; 4])] |}.
Definition hello_b : HelloParts :=
  {| hp_version := 771; hp_random := replicate 32 9; hp_session := replicate 16 5; hp_ciphers := [4866; 4865];
     hp_compression := [1; 0];
     hp_extensions := [(0, [0; 6; 0; 0; 3; 97; 46; 98]); (43, [2; 3; 4]); (10, [0; 2; 0; 29]); (60138, [1])] |}.
Ltac parts_tac :=
  constructor; first [by vm_compute | apply (bool_decide_unpack _); by vm_compute
    | repeat constructor; by vm_compute | split; by vm_compute].
Lemma hello_ab_alike : alike hello_a hello_b.
Proof.
  constructor; [done|by constructor|].
  exists [(0, [0; 6; 0; 0; 3; 97; 46; 98]); (43, [2; 3; 4]); (10, [0; 4; 10; 10; 0; 29])]. split.
  - change (known (hp_extensions hello_a)) with
      [(10, [0; 4; 10; 10; 0; 29]); (0, [0; 6; 0; 0; 3; 97; 46; 98]); (43, [2; 3; 4])].
    by rewrite (Permutation_cons_append _ (10, _)).
  - by repeat constructor.
Qed.
Lemma hello_a_ok : parts_ok hello_a.
Proof. parts_tac. Qed.
Lemma hello_b_ok : parts_ok hello_b.
Proof. parts_tac. Qed.
Lemma ja4_stable_witness :
  let sha256 (l : list N) := blen l in
  exists h h', hello_decode sha256 (write_hello hello_a) = Ok h /\
    hello_decode sha256 (write_hello hello_b) = Ok h' /\ ja4 h' = ja4 h /\
    ja4 h = "t13d0203" +:+ "00_000000000000_000000000000".
Proof.
  cbv zeta. destruct (hello_decode (fun l => blen l) (write_hello hello_a)) as [h|e] eqn:E.
  - destruct (ja4_stable (fun l => blen l) hello_a hello_b h hello_a_ok hello_b_ok hello_ab_alike E) as (h' & E' & J).
    exists h, h'. split; [done|]. split; [done|]. split; [done|].
    assert (Hj : (ja4 <$> hello_decode (fun l => blen l) (write_hello hello_a)) =
      Ok ("t13d0203" +:+ "00_000000000000_000000000000")%string) by by vm_compute.
    rewrite E in Hj. by injection Hj.
  - exfalso. assert (Hj : (hello_decode (fun l => blen l) (write_hello hello_a)) <> Err e) by by vm_compute. done.
Defined.
