(* ===== verification/Core.v ===== *)
(** * The shared error type of [bagel-core]

    [Error] and [Error::config_at] of [crates/bagel-core/src/lib.rs]; the
    result type every fallible operation of the program returns. Errors that
    wrap another crate's error value keep its message. *)

From S2P Require Import Prelude.

Module Error.
Inductive t : Type :=
| Config (message : string)
| ConfigAt (offset : N) (message : string)
| ConfigParse (path source : string)
| Io (message : string)
| Pattern (message : string)
| Network (message : string)
| Tls (message : string)
| Proxy (message : string)
| Challenge (message : string)
| Template (message : string)
| Crypto (message : string)
| Other (message : string).

Definition config_at (node_offset : N) (message : string) : t :=
  ConfigAt node_offset message.
End Error.

(** [Display for Error]; the wrapped errors show their own message. *)
Definition show_error (e : Error.t) : string :=
  match e with
  | Error.Config m => "config error: " +:+ m
  | Error.ConfigAt offset m => "config error at byte " +:+ show_N offset +:+ ": " +:+ m
  | Error.ConfigParse path source => "failed to parse config at " +:+ path +:+ ": " +:+ source
  | Error.Io m => m
  | Error.Pattern m => "invalid trap pattern: " +:+ m
  | Error.Network m => "invalid network: " +:+ m
  | Error.Tls m => "TLS error: " +:+ m
  | Error.Proxy m => "proxy error: " +:+ m
  | Error.Challenge m => "challenge error: " +:+ m
  | Error.Template m => "template error: " +:+ m
  | Error.Crypto m => "crypto error: " +:+ m
  | Error.Other m => m
  end.

(** [bagel_core::Result]. *)
Notation Result := (result Error.t).

(** [if b { return Err(Error::Config(message)) }]. *)
Definition fail_if (b : bool) (message : string) : Result unit :=
  if b then Err (Error.Config message) else Ok tt.

(** [for a in l { f(a)?; }]. *)
Fixpoint for_each {E A} (f : A -> result E unit) (l : list A) : result E unit :=
  match l with
  | [] => Ok tt
  | a :: l => f a ;; for_each f l
  end.

Lemma fail_if_ok b m u : fail_if b m = Ok u <-> b = false.
Proof. destruct b, u; by cbn. Qed.

Lemma for_each_ok {E A} (f : A -> result E unit) l u :
  for_each f l = Ok u <-> Forall (fun a => f a = Ok tt) l.
Proof.
  destruct u. induction l as [|a l IH]; cbn; [by rewrite Forall_nil|].
  rewrite Forall_cons, <- IH. destruct (f a) as [[]|e]; cbn; [tauto|].
  split; [done|by intros []].
Qed.

(** [Debug for str]: quoted, with the ASCII control characters, quotes and
    backslashes the messages can meet escaped. *)
Fixpoint debug_chars (s : string) : string :=
  match s with
  | EmptyString => EmptyString
  | String c s =>
      let e :=
        if (byte_of c =? 34)%N then bytes_string [92; 34]%N
        else if (byte_of c =? 92)%N then bytes_string [92; 92]%N
        else if (byte_of c =? 9)%N then bytes_string [92; 116]%N
        else if (byte_of c =? 10)%N then bytes_string [92; 110]%N
        else if (byte_of c =? 13)%N then bytes_string [92; 114]%N
        else if (byte_of c =? 0)%N then bytes_string [92; 48]%N
        else String c EmptyString in
      e +:+ debug_chars s
  end.
Definition debug_str (s : string) : string :=
  bytes_string [34]%N +:+ debug_chars s +:+ bytes_string [34]%N.

(** ** Stateful operations that can fail

    A method that mutates [self] and returns a [Result]: the state after it is
    kept on error too, as the early return of [?] leaves it. *)
Definition st (S A : Type) : Type := S -> Result A * S.

#[global] Instance st_ret S : MRet (st S) := fun A a s => (Ok a, s).
#[global] Instance st_bind S : MBind (st S) := fun A B f m s =>
  match m s with
  | (Ok a, s') => f a s'
  | (Err e, s') => (Err e, s')
  end.

Definition lift {S A} (r : Result A) : st S A := fun s => (r, s).
Definition get {S} : st S S := fun s => (Ok s, s).
Definition modify {S} (f : S -> S) : st S unit := fun s => (Ok tt, f s).

Fixpoint st_each {S A} (f : A -> st S unit) (l : list A) : st S unit :=
  match l with
  | [] => mret tt
  | a :: l => f a ;; st_each f l
  end.

Lemma st_bind_ok {S A B} (m : st S A) (f : A -> st S B) s b s' :
  (m ≫= f) s = (Ok b, s') <-> exists a s1, m s = (Ok a, s1) /\ f a s1 = (Ok b, s').
Proof.
  unfold mbind, st_bind. destruct (m s) as [[a|e] s1]; split.
  - eauto.
  - by intros (? & ? & [= <- <-] & ?).
  - done.
  - by intros (? & ? & ? & _).
Qed.

(** The state on every outcome. *)
Lemma st_bind_inv {S A B} (P : S -> Prop) (m : st S A) (f : A -> st S B) s :
  (forall r s1, m s = (r, s1) -> P s1) ->
  (forall a s1, m s = (Ok a, s1) -> P (f a s1).2) -> P ((m ≫= f) s).2.
Proof.
  intros Hm Hf. unfold mbind, st_bind. destruct (m s) as [[a|e] s1] eqn:E; [by apply Hf|].
  by eapply Hm.
Qed.
