(* ===== verification/ThirdParty.v ===== *)
(** * Interfaces of other crates

    The operations of the [regex], [serde_json], [jiff] and [rhai] crates the
    program calls, as classes whose members are the crates' functions. The
    definitions of the program take them as parameters; nothing is assumed of
    them unless a theorem names it. *)

From S2P Require Import Prelude.

(** ** [regex] *)

(** The named groups that took part in a match, with their text. *)
Definition Captures : Type := string -> option string.

Class RegexApi : Type := {
  Regex : Type;
  (** [Regex::new], an error being its message. *)
  regex_new : string -> result string Regex;
  (** [Regex::capture_names]. *)
  regex_capture_names : Regex -> list (option string);
  (** [Regex::captures], by group name. *)
  regex_captures : Regex -> string -> option Captures;
  (** [Regex::is_match]. *)
  regex_is_match : Regex -> string -> bool;
  (** [RegexSet::new] and [RegexSet::is_match]. *)
  RegexSet : Type;
  regex_set_new : list string -> result string RegexSet;
  regex_set_is_match : RegexSet -> string -> bool;
}.

(** A set compiles when each of its members does. *)
Class RegexLaws `{!RegexApi} : Prop := {
  regex_set_ok ps : Forall (fun p => exists r, regex_new p = Ok r) ps ->
    exists s, regex_set_new ps = Ok s;
}.

(** ** [serde_json] *)

(** A JSON number as [serde_json::Number] presents it: its [as_i64], [as_u64]
    and [as_f64] views, the last one as its 64 bits. *)
Record Number : Type := { num_i64 : option Z; num_u64 : option N; num_f64 : option N }.

Inductive Value : Type :=
| VNull
| VBool (b : bool)
| VNumber (n : Number)
| VString (s : string)
| VArray (l : list Value)
| VObject (m : list (string * Value)).

Class JsonApi : Type := {
  (** [serde_json::from_str::<Value>]. *)
  json_from_str : string -> option Value;
  (** [Value::pointer]. *)
  json_pointer : Value -> string -> option Value;
  (** [str::parse::<f64>] and equality of floats, on their bits. *)
  parse_f64 : string -> option N;
  f64_eqb : N -> N -> bool;
}.

(** ** [jiff] *)

Class TimeApi : Type := {
  (** [raw.parse::<jiff::Timestamp>()] as seconds since the epoch. *)
  jiff_parse : string -> option Z;
  (** [jiff::fmt::strtime::format] on the epoch succeeds. *)
  strtime_valid : string -> bool;
  (** [strtime::parse] then a timestamp, by its zone or the system's. *)
  strtime_parse : string -> string -> option Z;
}.

(** [Timestamp::as_second] is an [i64]. *)
Class TimeLaws `{!TimeApi} : Prop := {
  jiff_parse_i64 s t : jiff_parse s = Some t -> (t <= Z.of_N i64_max)%Z;
  strtime_parse_i64 f s t : strtime_parse f s = Some t -> (t <= Z.of_N i64_max)%Z;
}.

(** ** Concrete instances

    Small instances of the interfaces, for evaluating the program on examples:
    a pattern is a literal prefix and captures what follows it; a JSON text is
    its own [/address] member; a timestamp is a decimal number. *)
Module Literal.
Definition groups : list (option string) := [None; Some "address"; Some "content"].
Definition captures (pattern text : string) : option Captures :=
  rest ← strip_prefix pattern text;
  Some (fun name => if String.eqb name "address" || String.eqb name "content"
                    then Some rest else None).
Definition regex : RegexApi := {|
  Regex := string;
  regex_new := Ok;
  regex_capture_names := fun _ => groups;
  regex_captures := captures;
  regex_is_match := fun p s => starts_with p s;
  RegexSet := list string;
  regex_set_new := Ok;
  regex_set_is_match := fun ps s => existsb (fun p => starts_with p s) ps;
|}.
Lemma regex_laws : @RegexLaws regex.
Proof. split. intros ps _. by eexists. Qed.

Definition json : JsonApi := {|
  json_from_str := fun s => Some (VObject [("/address", VString s)]);
  json_pointer := fun v p => match v with VObject m => assoc p m | _ => None end;
  parse_f64 := parse_unsigned u64_max;
  f64_eqb := N.eqb;
|}.

Definition seconds (s : string) : option Z := n ← parse_unsigned i64_max s; Some (Z.of_N n).
Definition time : TimeApi := {|
  jiff_parse := seconds; strtime_valid := fun _ => true; strtime_parse := fun _ => seconds |}.

Lemma parse_digits_le max acc s n :
  (acc <= max)%N -> parse_digits max acc s = Some n -> (n <= max)%N.
Proof.
  revert acc. induction s as [|c s IH]; intros acc Ha; cbn; [by intros [= <-]|].
  destruct (digit_value c) as [d|]; cbn; [|done].
  destruct (N.leb_spec (acc * 10 + d) max); [|done]. by apply IH.
Qed.
Lemma parse_unsigned_le max s n : parse_unsigned max s = Some n -> (n <= max)%N.
Proof.
  unfold parse_unsigned. destruct s as [|c s]; [done|]. destruct (char_eqb c "+").
  - destruct (str_is_empty s); [done|]. apply parse_digits_le. lia.
  - apply parse_digits_le. lia.
Qed.
Lemma seconds_le s t : seconds s = Some t -> (t <= Z.of_N i64_max)%Z.
Proof.
  unfold seconds. intros (n & Hn & [= <-])%bind_Some. apply parse_unsigned_le in Hn. lia.
Qed.
Lemma time_laws : @TimeLaws time.
Proof. split; cbn; [apply seconds_le|intros _; apply seconds_le]. Qed.
End Literal.
