(* ===== verification/Traps.v ===== *)
(** * Traps

    [crates/bagel-traps/src]: the classification of a request by the networks that
    are never trapped, the crawlers that have to come from theirs, and the patterns
    of paths and user agents, and the categories of trapped paths. *)

From S2P Require Import Prelude Core Ip Strings Bytes Url ThirdParty.

Local Open Scope N_scope.

(** [RegexSet::matches]: the indices of the patterns that match, in their order. *)
Class RegexSetApi {RX : RegexApi} : Type := { regex_set_matches : RegexSet -> string -> list nat }.
Class RegexSetLaws {RX : RegexApi} {RS : RegexSetApi} : Prop := {
  (** A set matches when one of its patterns does. *)
  set_matches_any (s : RegexSet) (t : string) :
    regex_set_is_match s t = match regex_set_matches s t with [] => false | _ => true end;
  (** An index is that of a pattern of the set. *)
  set_matches_bound (ps : list string) (s : RegexSet) (t : string) i :
    regex_set_new ps = Ok s -> i ∈ regex_set_matches s t -> (i < length ps)%nat }.

(** ** Decoding ([decode_path]) *)

Fixpoint decode_bytes (l : list ascii) : list N :=
  match l with
  | [] => []
  | c :: rest =>
      match rest with
      | h :: k :: rest' =>
          if char_eqb c "%" then
            match hex_nibble h, hex_nibble k with
            | Some hi, Some lo => hi * 16 + lo :: decode_bytes rest'
            | _, _ => byte_of c :: decode_bytes rest
            end
          else byte_of c :: decode_bytes rest
      | _ => byte_of c :: decode_bytes rest
      end
  end.
Definition decode_path (path : string) : string :=
  if str_contains_char "%" path then from_utf8_lossy (decode_bytes (string_chars path)) else path.

(** A text that encodes another: each byte as it is, unless a percent sign, or as
    two digits of either case. *)
Inductive encodes : list ascii -> list ascii -> Prop :=
| enc_nil : encodes [] []
| enc_plain c s t : c <> "%"%char -> encodes s t -> encodes (c :: s) (c :: t)
| enc_hex c h k s t :
    hex_nibble h = Some (byte_of c / 16) -> hex_nibble k = Some (byte_of c mod 16) ->
    encodes s t -> encodes ("%"%char :: h :: k :: s) (c :: t).
(** A text as a [str] holds it: valid UTF-8. *)
Definition utf8 (s : string) : Prop := from_utf8_lossy (string_bytes s) = s.

(** ** Categories *)

Module Category.
Inductive t : Type :=
| PathTraversal | CgiRce | VcsLeak | ContainerInfra | Wordpress | EnvSecrets | AdminPanel | Php | Other | Ssh | Scraper.
Definition ALL : list t :=
  [PathTraversal; CgiRce; VcsLeak; ContainerInfra; Wordpress; EnvSecrets; AdminPanel; Php; Other; Ssh; Scraper].
Definition category_label (c : t) : string :=
  match c with
  | PathTraversal => "path_traversal" | CgiRce => "cgi_rce" | VcsLeak => "vcs_leak"
  | ContainerInfra => "container_infra" | Wordpress => "wordpress" | EnvSecrets => "env_secrets"
  | AdminPanel => "admin_panel" | Php => "php" | Other => "other" | Ssh => "ssh" | Scraper => "scraper"
  end.
(** [self as usize]. *)
Definition category_index (c : t) : nat :=
  match c with
  | PathTraversal => 0 | CgiRce => 1 | VcsLeak => 2 | ContainerInfra => 3 | Wordpress => 4 | EnvSecrets => 5
  | AdminPanel => 6 | Php => 7 | Other => 8 | Ssh => 9 | Scraper => 10
  end%nat.
Definition from_index (idx : nat) : t := default Other (ALL !! idx).
Definition COUNT : nat := length ALL.
Lemma index_back c : from_index (category_index c) = c /\ (category_index c < COUNT)%nat.
Proof. destruct c; (split; [done|cbn; lia]). Qed.
End Category.

Definition PATTERNS : list string := [
  "(?i)\.\./|%2e%2e|/etc/passwd|/proc/self|/windows/win\.ini";
  "(?i)/cgi-bin/|vendor/phpunit|eval-stdin|/thinkphp|/struts|ognl|nashorn|jndi:|\$\{|\$\(";
  "(?i)/\.git|/\.svn|/\.hg|/\.bzr";
  "(?i):2375|/containers/json|docker-compose|/\.kube|/\.docker|terraform|\.tfstate|\.tfvars";
  "(?i)/wp-admin|/wp-login|/wp-config|/wp-content|/wp-includes|/wp-json|xmlrpc\.php";
  "(?i)\.env|/config\.|/settings\.|/secrets\.|/credentials\.|/\.aws|appsettings|application[.-]|/\.ssh|id_rsa|id_ed25519|\.pem|/\.npmrc|/\.yarnrc|/\.htpasswd";
  "(?i)phpmyadmin|/adminer|/solr/|/actuator|/manager/html|/phpinfo";
  "(?i)\.php"].

(** ** Classification *)

Inductive TrapReason : Type := TrapPath (index : nat) | TrapUserAgent (index : nat) | TrapRate | TrapImpersonator (index : nat).
Inductive Verdict : Type := VProxy | VTarpit (reason : TrapReason).

Section Traps.
Context {RX : RegexApi} {RS : RegexSetApi} {NA : IpNetworkApi}.

(** [categorize]; [None] when the built-in patterns do not compile or an index is
    out of range, where the code panics. *)
Definition categorize (path : string) : option Category.t :=
  match regex_set_new PATTERNS with
  | Err _ => None
  | Ok set => match regex_set_matches set path with
              | [] => Some Category.Other
              | idx :: _ => Category.ALL !! idx
              end
  end.

Record VerifiedCrawler : Type := { vc_ua : Regex; vc_nets : list IpNetwork }.
Record Classifier : Type := {
  cl_traps : RegexSet; cl_ua_traps : RegexSet; cl_whitelist : list IpNetwork; cl_verified : list VerifiedCrawler }.

Definition trap_network (s : string) : Result IpNetwork := ok_or (Error.Network "invalid network") (net_parse s).
Definition classifier_new (patterns ua_patterns whitelist : list string) : Result Classifier :=
  traps ← map_err Error.Pattern (regex_set_new patterns);
  ua_traps ← map_err Error.Pattern (regex_set_new ua_patterns);
  whitelist ← traverse trap_network whitelist;
  Ok {| cl_traps := traps; cl_ua_traps := ua_traps; cl_whitelist := whitelist; cl_verified := [] |}.

Definition build_crawler (c : string * string * list string) : Result VerifiedCrawler :=
  ua ← map_err Error.Pattern (regex_new c.1.2);
  networks ← traverse trap_network c.2;
  Ok {| vc_ua := ua; vc_nets := networks |}.
Definition with_crawler_policy (c : Classifier) (verified_crawlers : list (string * string * list string)) : Result Classifier :=
  verified ← traverse build_crawler verified_crawlers;
  Ok {| cl_traps := cl_traps c; cl_ua_traps := cl_ua_traps c; cl_whitelist := cl_whitelist c; cl_verified := verified |}.

Definition any_contains (nets : list IpNetwork) (ip : IpAddr) : bool := existsb (fun net => net_contains net ip) nets.
Definition is_whitelisted (c : Classifier) (ip : IpAddr) : bool := any_contains (cl_whitelist c) ip.
(** The loop over the crawlers: the first whose pattern matches returns. *)
Fixpoint crawler_verdict (i : nat) (crawlers : list VerifiedCrawler) (ua : string) (ip : IpAddr) : option Verdict :=
  match crawlers with
  | [] => None
  | crawler :: crawlers =>
      if regex_is_match (vc_ua crawler) ua
      then Some (if any_contains (vc_nets crawler) ip then VProxy else VTarpit (TrapImpersonator i))
      else crawler_verdict (S i) crawlers ua ip
  end.
Definition first_match (set : RegexSet) (text : string) : nat := default 0%nat (head (regex_set_matches set text)).
Definition trap_classify (c : Classifier) (path : string) (user_agent : option string) (ip : IpAddr) : Verdict :=
  if is_whitelisted c ip then VProxy
  else match ua ← user_agent; crawler_verdict 0 (cl_verified c) ua ip with
  | Some v => v
  | None =>
      let decoded := decode_path path in
      if regex_set_is_match (cl_traps c) decoded then VTarpit (TrapPath (first_match (cl_traps c) decoded))
      else match user_agent with
           | Some ua => if regex_set_is_match (cl_ua_traps c) ua
                        then VTarpit (TrapUserAgent (first_match (cl_ua_traps c) ua)) else VProxy
           | None => VProxy
           end
  end.

(** ** Encoded probes *)

Lemma decode_encoded s t : encodes s t -> decode_bytes s = byte_of <$> t.
Proof.
  induction 1 as [|c s t Hc H IH|c h k s t Hh Hk H IH]; [done| |].
  - assert (E : char_eqb c "%" = false) by (apply not_true_iff_false; by rewrite char_eqb_spec).
    rewrite fmap_cons, <- IH. cbn [decode_bytes]. rewrite E. by destruct s as [|h [|k s]].
  - cbn [decode_bytes]. rewrite char_eqb_refl, Hh, Hk, IH, fmap_cons. f_equal.
    pose proof (N.div_mod (byte_of c) 16). lia.
Qed.
Lemma encodes_plain s t : Forall (fun c => c <> "%"%char) s -> encodes s t -> s = t.
Proof.
  intros Hs. induction 1 as [|c s t Hc H IH|c h k s t Hh Hk H IH]; [done| |].
  - f_equal. apply IH. by inversion Hs.
  - by inversion Hs.
Qed.
Lemma encodes_refl s : Forall (fun c => c <> "%"%char) s -> encodes s s.
Proof. induction 1; by constructor. Qed.
Lemma contains_percent s : str_contains_char "%" s = false <-> Forall (fun c => c <> "%"%char) (string_chars s).
Proof.
  unfold str_contains_char. induction s as [|c s IH]; cbn [str_any string_chars].
  - split; [constructor|done].
  - rewrite orb_false_iff, IH, Forall_cons. apply and_iff_compat_r.
    rewrite <- not_true_iff_false, char_eqb_spec. split; intros H ?; apply H; congruence.
Qed.
Lemma decode_path_encoded s t : encodes (string_chars s) (string_chars t) -> utf8 t -> decode_path s = t.
Proof.
  intros He Ht. unfold decode_path. destruct (str_contains_char "%" s) eqn:E.
  - rewrite (decode_encoded _ _ He). exact Ht.
  - apply contains_percent in E. apply (encodes_plain _ _ E) in He.
    by rewrite <- (chars_string_chars s), <- (chars_string_chars t), He.
Qed.

(** Encoding a probe does not get it past the traps: a path in which any bytes
    are written as percent escapes, in either case of digits, is given the verdict
    of the path itself, whatever the user agent, the address and the patterns. *)
Theorem encoding_does_not_evade (c : Classifier) (probe path : string) user_agent ip :
  encodes (string_chars probe) (string_chars path) -> utf8 path -> str_contains_char "%" path = false ->
  trap_classify c probe user_agent ip = trap_classify c path user_agent ip.
Proof.
  intros He Hu Hp. unfold trap_classify. rewrite (decode_path_encoded _ _ He Hu).
  rewrite (decode_path_encoded path path); [done| |done]. by apply encodes_refl, contains_percent.
Qed.

(** ** Crawlers *)

Lemma crawler_verdict_first i k crawlers ua ip crawler :
  crawlers !! k = Some crawler -> regex_is_match (vc_ua crawler) ua = true ->
  (forall j other, (j < k)%nat -> crawlers !! j = Some other -> regex_is_match (vc_ua other) ua = false) ->
  crawler_verdict i crawlers ua ip =
    Some (if any_contains (vc_nets crawler) ip then VProxy else VTarpit (TrapImpersonator (i + k))).
Proof.
  revert i k. induction crawlers as [|c crawlers IH]; intros i k Hk Hm Hf; [done|]. cbn [crawler_verdict].
  destruct k as [|k].
  - injection Hk as ->. by rewrite Hm, Nat.add_0_r.
  - rewrite (Hf 0%nat c) by (done || lia). rewrite (IH (S i) k); [by rewrite Nat.add_succ_r| done|done|].
    intros j other Hj. apply (Hf (S j)). lia.
Qed.
Lemma crawler_verdict_none i crawlers ua ip :
  Forall (fun k => regex_is_match (vc_ua k) ua = false) crawlers -> crawler_verdict i crawlers ua ip = None.
Proof. intros H. revert i. induction H as [|k l Hk _ IH]; intros i; cbn; [done|]. by rewrite Hk. Qed.

(** Who claims to be a known crawler is judged by where it comes from and by
    nothing else: outside the networks never trapped, with the first crawler whose
    pattern the user agent matches, it passes on every path from that crawler's
    networks, and is an impersonator on every path from elsewhere. *)
Theorem crawler_claim_decides (c : Classifier) k crawler path ua ip :
  is_whitelisted c ip = false -> cl_verified c !! k = Some crawler -> regex_is_match (vc_ua crawler) ua = true ->
  (forall j other, (j < k)%nat -> cl_verified c !! j = Some other -> regex_is_match (vc_ua other) ua = false) ->
  trap_classify c path (Some ua) ip =
    if any_contains (vc_nets crawler) ip then VProxy else VTarpit (TrapImpersonator k).
Proof.
  intros Hw Hk Hm Hf. unfold trap_classify. rewrite Hw. cbn [mbind option_bind].
  by rewrite (crawler_verdict_first 0 k _ _ _ _ Hk Hm Hf).
Qed.

(** ** Verdicts of a compiled classifier *)

Context {RL : RegexSetLaws}.

Lemma first_match_some set t : regex_set_is_match set t = true -> first_match set t ∈ regex_set_matches set t.
Proof.
  rewrite set_matches_any. unfold first_match. destruct (regex_set_matches set t) as [|i l]; [done|].
  intros _. apply list_elem_of_here.
Qed.
Lemma crawler_verdict_cases i crawlers ua ip v :
  crawler_verdict i crawlers ua ip = Some v -> v = VProxy \/ exists k, v = VTarpit (TrapImpersonator k) /\ (i <= k < i + length crawlers)%nat.
Proof.
  revert i. induction crawlers as [|c crawlers IH]; intros i; cbn; [done|]. destruct (regex_is_match _ _).
  - intros [= <-]. destruct (any_contains _ _); [by left|]. right. eexists. split; [done|lia].
  - intros [->|(k & -> & Hk)]%IH; [by left|right]. eexists. split; [done|lia].
Qed.

(** What a verdict says of the request. *)
Definition verdict_means (patterns ua_patterns : list string) (c : Classifier) (path : string) (ua : option string)
    (ip : IpAddr) (v : Verdict) : Prop :=
  match v with
  | VProxy => True
  | VTarpit (TrapPath i) => (i < length patterns)%nat /\ i ∈ regex_set_matches (cl_traps c) (decode_path path)
  | VTarpit (TrapUserAgent i) =>
      (i < length ua_patterns)%nat /\ regex_set_matches (cl_traps c) (decode_path path) = [] /\
      exists u, ua = Some u /\ i ∈ regex_set_matches (cl_ua_traps c) u
  | VTarpit (TrapImpersonator i) => (i < length (cl_verified c))%nat /\ is_some ua = true
  | VTarpit TrapRate => False
  end.

(** The index a verdict carries is one of the configured patterns or crawlers,
    the pattern matches, a path trap is reported before a user agent's, an address
    of the networks never trapped only ever passes, and the rate is never the
    reason given here. *)
Theorem verdict_sound patterns ua_patterns whitelist crawlers c0 c path ua ip :
  classifier_new patterns ua_patterns whitelist = Ok c0 -> with_crawler_policy c0 crawlers = Ok c ->
  let v := trap_classify c path ua ip in
  verdict_means patterns ua_patterns c path ua ip v /\ length (cl_verified c) = length crawlers /\
  (is_whitelisted c ip = true -> v = VProxy).
Proof.
  intros H0 H1 v. unfold classifier_new in H0.
  destruct (regex_set_new patterns) as [traps|] eqn:E1; [|done]. cbn in H0.
  destruct (regex_set_new ua_patterns) as [ua_traps|] eqn:E2; [|done]. cbn in H0.
  apply bind_ok in H0 as (nets & E3 & [= <-]).
  apply bind_ok in H1 as (ks & E4 & [= <-]). cbn in *.
  apply traverse_ok, Forall2_length in E4. split; [|split; [symmetry; exact E4|]]; subst v; unfold trap_classify, is_whitelisted; cbn.
  2: by intros ->.
  destruct (existsb _ nets); [done|].
  destruct (ua ≫= _) as [v|] eqn:Ev.
  - apply bind_Some in Ev as (u & -> & [->|(k & -> & Hk)]%crawler_verdict_cases); cbn; [done|]. split; [lia|done].
  - destruct (regex_set_is_match traps (decode_path path)) eqn:Em; cbn.
    + apply first_match_some in Em. split; [|done]. by apply (set_matches_bound patterns traps (decode_path path)).
    + destruct ua as [u|]; [|done]. destruct (regex_set_is_match ua_traps u) eqn:Eu; [|done]. cbn.
      apply first_match_some in Eu. split; [by apply (set_matches_bound ua_patterns ua_traps u)|].
      split; [|by eexists]. rewrite set_matches_any in Em. by destruct (regex_set_matches traps (decode_path path)).
Qed.

(** [categorize] never panics: every pattern of the built-in set has a category
    at its index, and the label it gives is one of the eleven. *)
Theorem categorize_total path set :
  regex_set_new PATTERNS = Ok set -> exists k, categorize path = Some k /\ k ∈ Category.ALL.
Proof.
  intros Hs. unfold categorize. rewrite Hs. destruct (regex_set_matches set path) as [|i l] eqn:E.
  - exists Category.Other. split; [done|]. by apply (list_elem_of_lookup_2 _ 8).
  - assert (Hi : (i < length PATTERNS)%nat).
    { apply (set_matches_bound _ set path); [done|]. rewrite E. apply list_elem_of_here. }
    destruct (lookup_lt_is_Some_2 Category.ALL i) as [k Hk]; [cbn in *; lia|].
    exists k. split; [done|]. by apply (list_elem_of_lookup_2 _ i).
Qed.
End Traps.

(** ** Examples *)

Module TrapExample.
Definition matches (ps : list string) (s : string) : list nat :=
  (fun e : nat * string => e.1) <$> List.filter (fun e => str_contains e.2 s) (imap pair ps).
Lemma matches_bound ps s i : i ∈ matches ps s -> (i < length ps)%nat.
Proof.
  unfold matches. intros ([j p] & -> & Hin)%list_elem_of_fmap.
  apply list_elem_of_In, filter_In in Hin as [Hin _]. apply list_elem_of_In, list_elem_of_lookup in Hin as [k Hk].
  rewrite list_lookup_imap in Hk. apply fmap_Some in Hk as (q & Hq & [= -> ->]). by eapply lookup_lt_Some.
Qed.
(** A pattern is a text to be found. *)
Definition regex : RegexApi := {|
  Regex := string; regex_new := Ok; regex_capture_names := fun _ => []; regex_captures := fun _ _ => None;
  regex_is_match := str_contains; RegexSet := list string; regex_set_new := Ok;
  regex_set_is_match := fun ps s => match matches ps s with [] => false | _ => true end |}.
Definition set : @RegexSetApi regex := {| regex_set_matches := matches : @RegexSet regex -> _ |}.
Lemma set_laws : @RegexSetLaws regex set.
Proof. split; [done|]. intros ps s t i [= <-]. apply matches_bound. Qed.
Definition net (a b c d p : N) : string :=
  match cidr_new (V4 (of_be_bytes [a; b; c; d])) p with Some n => cidr_show n | None => "" end.
Definition ip (a b c d : N) : IpAddr := V4 (of_be_bytes [a; b; c; d]).
Definition built : Result (@Classifier regex cidr_api) :=
  c ← @classifier_new regex cidr_api ["/wp-admin"; "/.env"] ["ClaudeBot"; "Firefox/47.0"]
        [net 127 0 0 0 8; net 10 0 0 0 8];
  @with_crawler_policy regex cidr_api c [("Googlebot", "Googlebot", [net 66 249 64 0 19])].
Definition fallback : @Classifier regex cidr_api :=
  {| cl_traps := [] : @RegexSet regex; cl_ua_traps := [] : @RegexSet regex; cl_whitelist := []; cl_verified := [] |}.
Definition c : Classifier := match built with Ok c => c | Err _ => fallback end.
Definition google : @VerifiedCrawler regex cidr_api :=
  default {| vc_ua := "" : @Regex regex; vc_nets := [] |} (head (cl_verified c)).
Definition judge := @trap_classify regex set cidr_api c.
(** The tests of [classify.rs]. *)
Example classify_tests :
  [judge "/wp-admin/index.php" None (ip 8 8 8 8); judge "/.env" None (ip 8 8 8 8);
   judge "/index.html" None (ip 8 8 8 8); judge "/notashelf/beer" (Some "ClaudeBot/1.0") (ip 8 8 8 8);
   judge "/" (Some "Mozilla/5.0 ... Firefox/47.0") (ip 8 8 8 8); judge "/.env" (Some "ClaudeBot/1.0") (ip 8 8 8 8);
   judge "/.env" (Some "Googlebot/2.1") (ip 66 249 66 1); judge "/" (Some "Googlebot/2.1") (ip 45 33 1 1);
   judge "/%2eenv" None (ip 8 8 8 8); judge "/wp-admin" None (ip 127 0 0 1);
   judge "/%252eenv" None (ip 8 8 8 8)] =
  [VTarpit (TrapPath 0); VTarpit (TrapPath 1); VProxy; VTarpit (TrapUserAgent 0); VTarpit (TrapUserAgent 1);
   VTarpit (TrapPath 1); VProxy; VTarpit (TrapImpersonator 0); VTarpit (TrapPath 1); VProxy; VProxy].
Proof. by vm_compute. Qed.
Example decode_tests : decode_path <$> ["/%2egit/config"; "/%2E%2e%2f"; "/a%2"; "/%zz%25"] =
  ["/.git/config"; "/../"; "/a%2"; "/%zz%"].
Proof. by vm_compute. Qed.
End TrapExample.

Lemma encoding_does_not_evade_witness :
  @trap_classify TrapExample.regex TrapExample.set cidr_api TrapExample.c "/%2eEnv" (Some "curl") (V4 134744072) =
  @trap_classify TrapExample.regex TrapExample.set cidr_api TrapExample.c "/.Env" (Some "curl") (V4 134744072).
Proof.
  apply encoding_does_not_evade; [|by vm_compute|by vm_compute].
  apply enc_plain; [done|]. apply enc_hex; [by vm_compute|by vm_compute|].
  apply encodes_refl. by repeat constructor.
Defined.
Lemma crawler_claim_decides_witness :
  @trap_classify TrapExample.regex TrapExample.set cidr_api TrapExample.c "/.env" (Some "Googlebot/2.1")
    (TrapExample.ip 66 249 66 1) =
  (if @any_contains cidr_api (vc_nets TrapExample.google) (TrapExample.ip 66 249 66 1) then VProxy
   else VTarpit (TrapImpersonator 0)).
Proof.
  refine (@crawler_claim_decides TrapExample.regex TrapExample.set cidr_api TrapExample.c 0 TrapExample.google
    "/.env" "Googlebot/2.1" (TrapExample.ip 66 249 66 1) _ _ _ _); [vm_refl|reflexivity|vm_refl|].
  intros j other Hj. exfalso. lia.
Defined.
Lemma verdict_sound_witness :
  length (cl_verified TrapExample.c) = 1%nat /\
  @trap_classify TrapExample.regex TrapExample.set cidr_api TrapExample.c "/.env" None (TrapExample.ip 10 0 0 1) = VProxy.
Proof.
  destruct (@verdict_sound TrapExample.regex TrapExample.set cidr_api TrapExample.set_laws
    ["/wp-admin"; "/.env"] ["ClaudeBot"; "Firefox/47.0"] [TrapExample.net 127 0 0 0 8; TrapExample.net 10 0 0 0 8]
    [("Googlebot", "Googlebot", [TrapExample.net 66 249 64 0 19])]
    (match @classifier_new TrapExample.regex cidr_api ["/wp-admin"; "/.env"] ["ClaudeBot"; "Firefox/47.0"]
        [TrapExample.net 127 0 0 0 8; TrapExample.net 10 0 0 0 8] with Ok c => c | Err _ => TrapExample.fallback end)
    TrapExample.c "/.env" None (TrapExample.ip 10 0 0 1)) as (_ & H1 & H2).
  - reflexivity.
  - reflexivity.
  - split; [exact H1|]. apply H2. vm_refl.
Defined.
Lemma categorize_total_witness :
  exists k, @categorize TrapExample.regex TrapExample.set "/.git" = Some k /\ k ∈ Category.ALL.
Proof.
  apply (@categorize_total TrapExample.regex TrapExample.set TrapExample.set_laws "/.git" (PATTERNS : @RegexSet TrapExample.regex)).
  reflexivity.
Defined.
