(* ===== verification/TlsEdge.v ===== *)
(** * What proxies and the edge relay of a handshake

    [crates/bagel-web/src/tls/fingerprint.rs], [tls/cloudflare.rs],
    [tls/reference.rs] and [capture_client_tls] of [server/pipeline.rs]: the digest a
    TLS-terminating proxy relays, the fields Cloudflare sends, the table of cipher
    lists of known stacks, and the identity and stack of a client. A header map is
    the list of its values with their lower-case names; [HeaderValue::to_str], SHA-1,
    SHA-256, base64 and hexadecimal decoding are arguments. *)

From S2P Require Import Prelude Core Strings Ip Bytes Url Date Wire.
From S2P Require Import Hpack Tls.

Local Open Scope N_scope.

(** ** Header maps *)

Notation Headers := (list (string * string)).
(** [get_all] and [remove], with the name read as a header name. *)
Definition get_all (name : string) (h : Headers) : list string :=
  snd <$> List.filter (fun kv => String.eqb kv.1 (to_ascii_lowercase name)) h.
Definition remove_all (name : string) (h : Headers) : Headers :=
  List.filter (fun kv => negb (String.eqb kv.1 (to_ascii_lowercase name))) h.

(** ** Relayed lists ([ProxiedList]) *)

(** [u16::from_str_radix(_, 16)] on a text without a sign. *)
Fixpoint parse_hex_go (acc : N) (s : string) : option N :=
  match s with
  | EmptyString => Some acc
  | String c s =>
      d ← hex_nibble c; if u16_max <? acc * 16 + d then None else parse_hex_go (acc * 16 + d) s
  end.
Definition parse_hex16 (s : string) : option N := if str_is_empty s then None else parse_hex_go 0 s.

Definition item_char (c : ascii) : bool := is_ascii_alphanumeric c || str_contains_char c "-_.".
(** One pass of the loop: what it pushes. *)
Definition proxied_item (item : string) : result CaptureError (list string) :=
  if str_is_empty item || (128 <? N.of_nat (String.length item)) || negb (str_all item_char item) then Err Invalid
  else
    match (match strip_prefix "0x" item with Some hex => Some hex | None => strip_prefix "0X" item end) with
    | Some hex =>
        value ← ok_or Invalid (parse_hex16 hex);
        Ok (if is_grease value then [] else ["0x" +:+ hex4 value])
    | None => Ok [item]
    end.
Fixpoint proxied_items (pieces items : list string) : result CaptureError (list string) :=
  match pieces with
  | [] => Ok items
  | piece :: pieces =>
      pushed ← proxied_item (str_trim piece);
      let items := items ++ pushed in
      if (256 <? length items)%nat then Err Limited else proxied_items pieces items
  end.
Definition proxied_list (text : string) : result CaptureError (list string) :=
  if str_is_empty (str_trim text) then Ok []
  else
    items ← proxied_items (str_split ":" text) [];
    if 4096 <? foldr (fun i n => N.of_nat (String.length i) + 1 + n) 0 items then Err Limited else Ok items.
Definition show_list (l : list string) : string := str_join ":" l.

(** ** Relayed handshakes ([ProxiedFingerprint]) *)

Record ProxiedFingerprint : Type := {
  px_version : TlsVersion; px_ciphers : list string; px_curves : list string; px_alpn : string; px_resumed : bool }.
Definition protocol_version (protocol : string) : option TlsVersion :=
  if String.eqb protocol "TLSv1.3" then Some Tls13 else if String.eqb protocol "TLSv1.2" then Some Tls12
  else if String.eqb protocol "TLSv1.1" then Some Tls11 else if String.eqb protocol "TLSv1" then Some Tls10 else None.
(** [FromStr]: what the iterator over the parts gives, in its order. *)
Definition proxied_parse (value : string) : result CaptureError ProxiedFingerprint :=
  if 8192 <? N.of_nat (String.length value) then Err Limited
  else
    let parts := str_split ";" value in
    protocol ← ok_or Invalid (parts !! 0%nat);
    ciphers ← ok_or Invalid (parts !! 1%nat) ≫= proxied_list;
    curves ← ok_or Invalid (parts !! 2%nat) ≫= proxied_list;
    alpn ← ok_or Invalid (parts !! 3%nat);
    let alpn := str_trim alpn in
    reused ← ok_or Invalid (parts !! 4%nat);
    resumed ← (if String.eqb (str_trim reused) "r" then Ok true
               else if String.eqb (str_trim reused) "." then Ok false else Err Invalid);
    if (5 <? length parts)%nat || bool_decide (ciphers = []) || (255 <? N.of_nat (String.length alpn))
       || negb (str_all is_ascii_graphic alpn)
    then Err Invalid
    else
      version ← ok_or Invalid (protocol_version (str_trim protocol));
      Ok {| px_version := version; px_ciphers := ciphers; px_curves := curves; px_alpn := alpn; px_resumed := resumed |}.

(** ** Cipher lists of known stacks ([reference.rs]) *)

Record Reference : Type := { families : list string; rf_list : string; rf_grease : bool }.
Definition reference_family (r : Reference) : option string :=
  match families r with [one] => Some one | _ => None end.
Definition GREASE : list N :=
  [0x0A0A; 0x1A1A; 0x2A2A; 0x3A3A; 0x4A4A; 0x5A5A; 0x6A6A; 0x7A7A; 0x8A8A; 0x9A9A; 0xAAAA; 0xBABA;
   0xCACA; 0xDADA; 0xEAEA; 0xFAFA].
Definition LISTS : list (list string * string * list N) := [
  (["chromium"], "chromium",
   [0x1301; 0x1302; 0x1303; 0xC02B; 0xC02F; 0xC02C; 0xC030; 0xCCA9; 0xCCA8; 0xC013; 0xC014;
    0x009C; 0x009D; 0x002F; 0x0035]);
  (["chromium"], "chromium-tls13", [0x1301; 0x1302; 0x1303]);
  (["firefox"], "firefox",
   [0x1301; 0x1303; 0x1302; 0xC02B; 0xC02F; 0xCCA9; 0xCCA8; 0xC02C; 0xC030; 0xC013; 0xC014;
    0x009C; 0x009D; 0x002F; 0x0035]);
  (["firefox"], "firefox-legacy",
   [0x1301; 0x1303; 0x1302; 0xC02B; 0xC02F; 0xCCA9; 0xCCA8; 0xC02C; 0xC030; 0xC00A; 0xC009;
    0xC013; 0xC014; 0x009C; 0x009D; 0x002F; 0x0035]);
  (["firefox"], "firefox-151",
   [0x1301; 0x1303; 0x1302; 0xC02B; 0xC02F; 0xCCA9; 0xCCA8; 0xC02C; 0xC030; 0xC00A; 0xC013;
    0xC014; 0x009C; 0x009D; 0x002F; 0x0035]);
  (["firefox"], "firefox-3des",
   [0x1301; 0x1303; 0x1302; 0xC02B; 0xC02F; 0xCCA9; 0xCCA8; 0xC02C; 0xC030; 0xC013; 0xC014;
    0x009C; 0x009D; 0x002F; 0x0035; 0x000A]);
  (["firefox"], "firefox-tls13", [0x1301; 0x1303; 0x1302]);
  (["safari"], "safari",
   [0x1302; 0x1303; 0x1301; 0xC02C; 0xC02B; 0xCCA9; 0xC030; 0xC02F; 0xCCA8; 0xC00A; 0xC009;
    0xC014; 0xC013; 0x009D; 0x009C; 0x0035; 0x002F; 0xC008; 0xC012; 0x000A]);
  (["safari"], "safari-legacy",
   [0x1301; 0x1302; 0x1303; 0xC02C; 0xC02B; 0xCCA9; 0xC030; 0xC02F; 0xCCA8; 0xC00A; 0xC009;
    0xC014; 0xC013; 0x009D; 0x009C; 0x0035; 0x002F; 0xC008; 0xC012; 0x000A]);
  (["safari"], "safari-old",
   [0x1301; 0x1302; 0x1303; 0xC02C; 0xC02B; 0xCCA9; 0xC030; 0xC02F; 0xCCA8; 0xC024; 0xC023;
    0xC00A; 0xC009; 0xC028; 0xC027; 0xC014; 0xC013; 0x009D; 0x009C; 0x003D; 0x003C; 0x0035;
    0x002F; 0xC008; 0xC012; 0x000A]);
  (["safari"], "safari-tls13", [0x1302; 0x1303; 0x1301]);
  (["okhttp"], "okhttp",
   [0x1301; 0x1302; 0x1303; 0xC02B; 0xC02F; 0xC02C; 0xC030; 0xCCA9; 0xCCA8; 0xC013; 0xC014;
    0x009C; 0x009D; 0x002F; 0x0035; 0x000A])].
Definition SHARED_WITH_GREASE : string := "chromium-tls13".
Definition SHARED_FAMILIES : list string := ["chromium"; "safari"].

(** The bytes hashed for a list. *)
Definition cipher_bytes (grease : option N) (ciphers : list N) : list N :=
  flat_map (be_bytes 2) (match grease with Some g => g :: ciphers | None => ciphers end).
(** What a list, with or without a GREASE value in front, stands for. *)
Definition reference_of (entry : list string * string * list N) (grease : option N) : Reference :=
  {| families := if is_some grease && String.eqb entry.1.2 SHARED_WITH_GREASE then SHARED_FAMILIES else entry.1.1;
     rf_list := entry.1.2; rf_grease := is_some grease |}.

Section Edge.
Variable sha1 : list N -> list N.
Variable sha256 : list N -> N.
Variable to_str : string -> option string.
Variable base64_decode : string -> option (list N).
Variable hex_decode : list N -> option (list N).

(** The insertions of [TABLE], in their order: a later one replaces an earlier. *)
Definition reference_insertions : list (list N * Reference) :=
  flat_map (fun entry =>
    (fun grease => (sha1 (cipher_bytes grease entry.2), reference_of entry grease)) <$> None :: (Some <$> GREASE)) LISTS.
Definition reference_table : gmap (list N) Reference :=
  foldl (fun t kv => <[kv.1 := kv.2]> t) ∅ reference_insertions.
Definition reference_lookup (ciphers_sha1 : list N) : option Reference := reference_table !! ciphers_sha1.

(** ** The edge ([cloudflare.rs]) *)

Definition ORIGIN_TOKEN_HEADER : string := "x-bagel-origin-token".
Definition client_hash (encoded : string) : result CaptureError (list N) :=
  decoded ← ok_or Invalid (base64_decode encoded);
  bytes ← (if (length decoded =? 40)%nat then ok_or Invalid (hex_decode decoded) else Ok decoded);
  if (length bytes =? 20)%nat then Ok bytes else Err Invalid.

Inductive Version : Type := V10 | V11 | V12 | V13.
Definition show_version (v : Version) : string :=
  match v with V10 => "10" | V11 => "11" | V12 => "12" | V13 => "13" end.
Inductive HttpProtocol : Type := Http10 | Http11 | Http2 | Http3.
Definition show_protocol (p : HttpProtocol) : string :=
  match p with Http10 => "HTTP/1.0" | Http11 => "HTTP/1.1" | Http2 => "HTTP/2" | Http3 => "HTTP/3" end.
Record CloudflareFingerprint : Type := {
  cf_version : Version; cf_cipher : string; cf_protocol : HttpProtocol; cf_ciphers : option (list N);
  cf_extensions : option (list N); cf_hello_length : option N }.

Definition edge_version (s : string) : option Version :=
  if String.eqb s "TLSv1" then Some V10 else if String.eqb s "TLSv1.1" then Some V11
  else if String.eqb s "TLSv1.2" then Some V12 else if String.eqb s "TLSv1.3" then Some V13 else None.
Definition edge_protocol (s : string) : option HttpProtocol :=
  if String.eqb s "HTTP/1.0" then Some Http10 else if String.eqb s "HTTP/1.1" then Some Http11
  else if String.eqb s "HTTP/2" then Some Http2 else if String.eqb s "HTTP/3" then Some Http3 else None.
Definition edge_cipher_ok (cipher : string) : bool :=
  negb (str_is_empty cipher || (128 <? N.of_nat (String.length cipher)) ||
        negb (str_all (fun c => is_ascii_alphanumeric c || str_contains_char c "-_") cipher)).
Definition edge_length (s : string) : result CaptureError (option N) :=
  if str_is_empty s then Ok None
  else
    parsed ← ok_or Invalid (parse_unsigned u32_max s);
    if (1 <=? parsed) && (parsed <=? 65536) then Ok (Some parsed) else Err Invalid.
Definition optional_hash (s : string) : result CaptureError (option (list N)) :=
  if str_is_empty s then Ok None else Some <$> client_hash s.
Definition edge_parse (value : string) : result CaptureError CloudflareFingerprint :=
  if 1024 <? N.of_nat (String.length value) then Err Limited
  else
    let parts := str_split ";" value in
    version ← ok_or Invalid (parts !! 0%nat ≫= edge_version);
    cipher ← ok_or Invalid (parts !! 1%nat);
    if negb (edge_cipher_ok cipher) then Err Invalid
    else
      protocol ← ok_or Invalid (parts !! 2%nat ≫= edge_protocol);
      ciphers ← ok_or Invalid (parts !! 3%nat);
      extensions ← ok_or Invalid (parts !! 4%nat);
      hello_length ← ok_or Invalid (parts !! 5%nat) ≫= edge_length;
      if (6 <? length parts)%nat then Err Invalid
      else
        ciphers ← optional_hash ciphers;
        extensions ← optional_hash extensions;
        Ok {| cf_version := version; cf_cipher := cipher; cf_protocol := protocol; cf_ciphers := ciphers;
              cf_extensions := extensions; cf_hello_length := hello_length |}.

(** [CloudflareFingerprint::capture]. *)
Definition edge_capture (h : Headers) (name : string) (token_sha256 : list N) (trusted : bool) :
    Capture CloudflareFingerprint :=
  match get_all name h with
  | [] => Unavailable
  | value :: more =>
      if negb trusted then Failed Untrusted
      else match more with
      | _ :: _ => Failed Invalid
      | [] =>
          match get_all ORIGIN_TOKEN_HEADER h with
          | [token] =>
              if negb (String.length token =? 64)%nat then Failed Untrusted
              else if negb (bool_decide (be_bytes 32 (sha256 (string_bytes token)) = token_sha256)) then Failed Untrusted
              else capture_of (ok_or Invalid (to_str value) ≫= edge_parse)
          | _ => Failed Untrusted
          end
      end
  end.
Definition edge_reference (e : CloudflareFingerprint) : option Reference := cf_ciphers e ≫= reference_lookup.
Definition ciphers_hex (e : CloudflareFingerprint) : option string := hex_encode <$> cf_ciphers e.
Definition edge_families (e : CloudflareFingerprint) : option (list string) := families <$> edge_reference e.
Definition show_bool (b : bool) : string := if b then "true" else "false".
(** What [policy_fields] inserts, in order. *)
Definition edge_fields (e : CloudflareFingerprint) : list (string * string) :=
  ("edge_status", if is_some (cf_ciphers e) && is_some (cf_extensions e) && is_some (cf_hello_length e)
                  then "complete" else "partial") ::
  omap (fun '(name, value) => (fun v => (name, v)) <$> value)
    [("edge_tls_version", Some (show_version (cf_version e))); ("edge_cipher", Some (cf_cipher e));
     ("edge_http", Some (show_protocol (cf_protocol e)));
     ("edge_ciphers_sha1", ciphers_hex e); ("edge_extensions_sha1", hex_encode <$> cf_extensions e);
     ("edge_hello_length", show_N <$> cf_hello_length e)] ++
  match edge_reference e with
  | Some known =>
      match reference_family known with Some f => [("edge_family", f)] | None => [] end ++
      [("edge_list", rf_list known); ("edge_grease", show_bool (rf_grease known))]
  | None => []
  end.

(** ** The client's fingerprint ([TlsFingerprint]) *)

Record TlsFingerprint : Type := {
  native : Capture ClientHello; proxied : Capture ProxiedFingerprint; cloudflare : Capture CloudflareFingerprint }.
Definition tls_default : TlsFingerprint := {| native := Unavailable; proxied := Unavailable; cloudflare := Unavailable |}.
Definition tls_of (native : Capture ClientHello) : TlsFingerprint :=
  {| native := native; proxied := Unavailable; cloudflare := Unavailable |}.
Definition set_proxied (t : TlsFingerprint) (p : Capture ProxiedFingerprint) : TlsFingerprint :=
  {| native := native t; proxied := p; cloudflare := cloudflare t |}.
Definition set_cloudflare (t : TlsFingerprint) (c : Capture CloudflareFingerprint) : TlsFingerprint :=
  {| native := native t; proxied := proxied t; cloudflare := c |}.

(** [ProxiedFingerprint::digest]. *)
Definition count_str (l : list string) : string := pad_N 2 (N.min (N.of_nat (length l)) 99).
Definition digest (p : ProxiedFingerprint) : option string :=
  if bool_decide (px_curves p = []) then None
  else Some ("p" +:+ show_tls_version (px_version p) +:+ count_str (px_ciphers p) +:+ count_str (px_curves p) +:+
             alpn_tag (string_bytes (px_alpn p)) +:+ "_" +:+ truncated_hash sha256 (show_list (px_ciphers p)) +:+ "_" +:+
             truncated_hash sha256 (show_list (px_curves p))).

Definition identity (t : TlsFingerprint) : option string :=
  match native t, proxied t, cloudflare t with
  | Complete hello, _, _ => Some (ja4 hello)
  | _, Complete relayed, edge =>
      match digest relayed with
      | Some d => Some d
      | None => match edge with Complete edge => ciphers_hex edge | _ => None end
      end
  | _, _, Complete edge => ciphers_hex edge
  | _, _, _ => None
  end.
Definition tls_stack (t : TlsFingerprint) : option string :=
  match native t, cloudflare t with
  | Complete hello, _ => Some ("ja4:" +:+ ja4 hello)
  | _, Complete edge => str_join "," <$> edge_families edge
  | _, _ => None
  end.

Definition is_complete {A} (c : Capture A) : bool := match c with Complete _ => true | _ => false end.
Definition is_unavailable {A} (c : Capture A) : bool := match c with Unavailable => true | _ => false end.
(** [TlsFingerprint::policy_fields]. *)
Definition when (b : bool) (s : string) : list string := if b then [s] else [].
Definition tls_source (t : TlsFingerprint) : string :=
  match (when (negb (is_unavailable (native t))) "native" ++ when (is_complete (proxied t)) "proxy" ++
         when (is_complete (cloudflare t)) "cloudflare")%list with
  | [] => "none"
  | sources => str_join "+" sources
  end.
Definition hello_fields (hello : ClientHello) : list (string * string) :=
  [("ja4", ja4 hello); ("tls_version", show_tls_version (tls_version hello));
   ("ciphers", show_identifiers (cipher_suites hello)); ("extensions", show_identifiers (extensions hello));
   ("groups", show_identifiers (elliptic_curves hello));
   ("signature_algorithms", show_identifiers (signature_algorithms hello));
   ("alpn", str_join "," (hex_encode <$> alpn hello))].
Definition proxied_fields (p : ProxiedFingerprint) : list (string * string) :=
  [("proxied_version", show_tls_version (px_version p)); ("proxied_ciphers", show_list (px_ciphers p));
   ("proxied_curves", show_list (px_curves p)); ("proxied_alpn", px_alpn p);
   ("proxied_resumed", show_bool (px_resumed p));
   match digest p with Some d => ("proxied", d) | None => ("proxied_status", "partial") end].
Definition insert_all (l : list (string * string)) (m : gmap string string) : gmap string string :=
  foldl (fun m kv => <[kv.1 := kv.2]> m) m l.
Definition of_complete {A B} (f : A -> list B) (c : Capture A) : list B :=
  match c with Complete a => f a | _ => [] end.
Definition tls_policy_fields (t : TlsFingerprint) : gmap string string :=
  insert_all
    ([("source", tls_source t); ("tls_status", show_capture (native t)); ("proxied_status", show_capture (proxied t));
      ("edge_status", show_capture (cloudflare t))] ++
     of_complete hello_fields (native t) ++ of_complete proxied_fields (proxied t) ++
     of_complete edge_fields (cloudflare t)) ∅.

(** ** [capture_client_tls] *)

Record ClientTlsHeader : Type := { th_name : string; cloudflare_token_sha256 : option (list N) }.
(** The capture of what a plain proxy relays. *)
Definition proxied_capture (h : Headers) (name : string) (trusted : bool) : Capture ProxiedFingerprint :=
  match get_all name h with
  | [] => Unavailable
  | value :: more =>
      if negb trusted then Failed Untrusted
      else match more with
      | _ :: _ => Failed Invalid
      | [] => capture_of (ok_or Invalid (to_str value) ≫= proxied_parse)
      end
  end.
Definition capture_client_tls (config : option ClientTlsHeader) (trusted : bool) (tls : option TlsFingerprint)
    (h : Headers) : option TlsFingerprint * Headers :=
  match config with
  | None => (tls, remove_all ORIGIN_TOKEN_HEADER h)
  | Some forwarded =>
      let name := th_name forwarded in
      let tls := default tls_default tls in
      let tls := match cloudflare_token_sha256 forwarded with
                 | Some token_sha256 => set_cloudflare tls (edge_capture h name token_sha256 trusted)
                 | None => set_proxied tls (proxied_capture h name trusted)
                 end in
      (Some tls, remove_all ORIGIN_TOKEN_HEADER (remove_all name h))
  end.
End Edge.
(** The address trust is decided on: the transport's, and for a connection without
    one the loopback's. *)
Definition transport_ip (peer : option (option IpAddr)) (addr : IpAddr) : IpAddr :=
  match peer with
  | None => addr
  | Some transport => default (V4 2130706433) transport
  end.
