(* ===== verification/Config.v ===== *)
(** * Defense configuration

    The configuration types of [crates/bagel-config/src/lib.rs], the decoded
    network effect of a policy ([Action::block_parts] and its [Display]), the
    defaults, and the layering of command-line overrides
    ([Config::apply_args]). A [BTreeMap] is the association list its iterator
    yields; a [PathBuf] is its text. *)

From S2P Require Import Prelude Core Ip.

(** ** Sources, detectors, listeners *)

Inductive StartPosition : Type := Beginning | End_.

#[global] Instance start_position_eq_dec : EqDecision StartPosition.
Proof. solve_decision. Defined.

(** One independently-admitted tarpit endpoint. *)
Record Listener : Type := {
  l_name : string;
  l_listen_addr : string;
  l_policy : option string;
  l_max_tarpit_conns : option N;
  l_min_delay_ms : option N;
  l_max_delay_ms : option N;
  l_max_tarpit_secs : option N;
  l_line_length : option N;
}.

(** [Listener::max_tarpit_conns]. *)
Definition listener_cap (l : Listener) (default_cap : N) : N :=
  default default_cap (l_max_tarpit_conns l).

Module Source.
Inductive t : Type :=
| Journal (match_groups : list (list (string * string))) (start : StartPosition)
    (max_entry_bytes : N)
| File (path : string) (start : StartPosition) (poll_interval_ms max_line_bytes : N)
| AddressSet (path : string)
| Listener (listener : string)
| Web.
End Source.

Module Detector.
Inductive t : Type :=
| Regex (prefilter : option string) (patterns context_patterns : list string)
    (max_context_lines context_window_secs : N) (ignore_patterns : list string)
    (address_capture : string) (timestamp_capture timestamp_format : option string)
| Json (equals : list (string * string)) (address_pointer : string)
    (timestamp_pointer group_key_pointer timestamp_format : option string).
End Detector.

(** ** Actions *)

Inductive TransportProtocol : Type := Tcp | Udp.

#[global] Instance transport_eq_dec : EqDecision TransportProtocol.
Proof. solve_decision. Defined.

Definition show_transport (p : TransportProtocol) : string :=
  match p with Tcp => "tcp" | Udp => "udp" end.

(** Network effect produced by a policy ban. *)
Module Action.
Inductive t : Type :=
| Observe
| Drop (protocol : TransportProtocol) (ports : list N)
| DropProtocol (protocol : TransportProtocol)
| DropAll
| Reject (protocol : TransportProtocol) (ports : list N)
| RejectProtocol (protocol : TransportProtocol)
| RejectAll
| TarpitRedirect (protocol : TransportProtocol) (ports : list N) (listener : string).

#[global] Instance eq_dec : EqDecision t.
Proof. solve_decision. Defined.
End Action.

Module BlockVerdict.
Inductive t : Type := Drop | Reject.
Definition show (v : t) : string := match v with Drop => "drop" | Reject => "reject" end.
End BlockVerdict.

Module BlockTarget.
Inductive t : Type :=
| Ports (protocol : TransportProtocol) (ports : list N)
| Protocol (protocol : TransportProtocol)
| All.
End BlockTarget.

(** What a firewall rule needs, or [None] for the actions that produce no
    rule. *)
Definition block_parts (a : Action.t) : option (BlockVerdict.t * BlockTarget.t) :=
  match a with
  | Action.Observe | Action.TarpitRedirect _ _ _ => None
  | Action.Drop protocol ports => Some (BlockVerdict.Drop, BlockTarget.Ports protocol ports)
  | Action.DropProtocol protocol => Some (BlockVerdict.Drop, BlockTarget.Protocol protocol)
  | Action.DropAll => Some (BlockVerdict.Drop, BlockTarget.All)
  | Action.Reject protocol ports => Some (BlockVerdict.Reject, BlockTarget.Ports protocol ports)
  | Action.RejectProtocol protocol => Some (BlockVerdict.Reject, BlockTarget.Protocol protocol)
  | Action.RejectAll => Some (BlockVerdict.Reject, BlockTarget.All)
  end.

Definition is_block (a : Action.t) : bool :=
  match block_parts a with Some _ => true | None => false end.

Definition is_observe (a : Action.t) : bool :=
  match a with Action.Observe => true | _ => false end.

Definition format_ports (ports : list N) : string := str_join "," (show_N <$> ports).

(** [Display for Action]. *)
Definition show_action (a : Action.t) : string :=
  match block_parts a with
  | Some (verdict, BlockTarget.Ports protocol ports) =>
      BlockVerdict.show verdict +:+ " " +:+ show_transport protocol +:+ " " +:+ format_ports ports
  | Some (verdict, BlockTarget.Protocol protocol) =>
      BlockVerdict.show verdict +:+ "_protocol " +:+ show_transport protocol
  | Some (verdict, BlockTarget.All) => BlockVerdict.show verdict +:+ "_all"
  | None =>
      match a with
      | Action.TarpitRedirect protocol ports listener =>
          "tarpit_redirect " +:+ show_transport protocol +:+ " " +:+ format_ports ports +:+
          " -> " +:+ listener
      | _ => "observe"
      end
  end.

(** ** Policies *)

Record BanSchedule : Type := {
  duration_secs : option N;  (** [None] creates a permanent ban. *)
  factor : N;
  multipliers : list N;
  jitter_secs : N;
  max_duration_secs : N;
  overall : bool;
}.

Definition default_ban_schedule : BanSchedule := {|
  duration_secs := Some 600%N;
  factor := 4;
  multipliers := [4; 8; 16; 32; 64; 128; 256; 512; 1024; 2048]%N;
  jitter_secs := 720;
  max_duration_secs := 18000000;
  overall := true;
|}.

Record Policy : Type := {
  p_source : string;
  p_detector : Detector.t;
  p_ignore_networks : list string;
  p_max_attempts : N;
  p_findtime_secs : N;
  p_ban : BanSchedule;
  p_action : Action.t;
}.

(** A policy whose action is replaced, [policy.action = action]. *)
Definition with_action (p : Policy) (a : Action.t) : Policy := {|
  p_source := p_source p; p_detector := p_detector p;
  p_ignore_networks := p_ignore_networks p; p_max_attempts := p_max_attempts p;
  p_findtime_secs := p_findtime_secs p; p_ban := p_ban p; p_action := a |}.

(** ** Enforcement *)

Module EnforcementMode.
Inductive t : Type := Required | Observe.
#[global] Instance eq_dec : EqDecision t.
Proof. solve_decision. Defined.
End EnforcementMode.

Record Enforcement : Type := {
  mode : EnforcementMode.t;
  table : string;
  chain_priority : Z;
  reconcile_interval_secs : N;
}.

Definition default_enforcement : Enforcement := {|
  mode := EnforcementMode.Required;
  table := "bagel";
  chain_priority := -10;
  reconcile_interval_secs := 15;
|}.

Definition default_context_window_secs : N := 120.
Definition default_max_entry_bytes : N := 1048576.
Definition default_poll_interval_ms : N := 250.
Definition default_max_line_bytes : N := 1048576.
Definition default_address_capture : string := "address".
Definition default_max_attempts : N := 7.
Definition default_findtime_secs : N := 600.

(** A search crawler and its allowed source networks. *)
Record VerifiedCrawler : Type := {
  vc_name : string;
  vc_ua_pattern : string;
  vc_networks : list string;
}.

(** ** The resolved configuration *)

Record Config : Type := {
  metrics_addr : string;
  disable_metrics : bool;
  admin_socket : string;
  disable_admin : bool;
  listeners : list Listener;
  sources : list (string * Source.t);
  policies : list (string * Policy);
  enforcement : Enforcement;
  database_path : string;
  history_retention_secs : N;
  journalctl_path : string;
  nft_path : string;
  protected_networks : list string;
  min_delay_ms : N;
  max_delay_ms : N;
  max_tarpit_secs : N;
  tarpit_chunk_min_bytes : N;
  tarpit_chunk_max_bytes : N;
  max_tarpit_conns : N;
  max_tarpit_conns_per_ip : N;
  tarpit_write_timeout_secs : N;
  max_connections : N;
  drain_timeout_secs : N;
  proxy_protocol : bool;
  trusted_proxies : list string;
  enable_firewall : bool;
  trap_patterns : list string;
  trap_user_agents : list string;
  whitelist_networks : list string;
  verified_crawlers : list VerifiedCrawler;
  no_block_networks : list string;
  corpora_dir : string;
  scripts_dir : string;
  data_dir : string;
  cache_dir : string;
}.

(** Command-line arguments and environment overrides. *)
Record Args : Type := {
  a_config : option string;
  a_check_config : bool;
  a_generate_key : bool;
  a_key_seed : option string;
  a_key_seed_file : option string;
  a_metrics_addr : option string;
  a_disable_metrics : bool;
  a_admin_socket : option string;
  a_disable_admin : bool;
  a_min_delay_ms : option N;
  a_max_delay_ms : option N;
  a_max_tarpit_secs : option N;
  a_max_tarpit_conns : option N;
  a_max_connections : option N;
  a_proxy_protocol : bool;
  a_trusted_proxy : list string;
  a_disable_firewall : bool;
  a_base_dir : option string;
  a_log_level : string;
}.

(** [Path::join]: an absolute second part replaces the first. *)
Definition path_join (base part : string) : string :=
  if starts_with "/" part then part
  else if str_is_empty base || ends_with "/" base then base +:+ part
  else base +:+ "/" +:+ part.

(** ** Defaults *)

Definition default_patterns : list string :=
  ["/vendor/phpunit";
   "eval-stdin\.php";
   "/wp-admin";
   "/wp-login\.php";
   "/xmlrpc\.php";
   "/wp-config";
   "/wp-content";
   "/wp-includes";
   "/wp-json";
   "/phpMyAdmin";
   "/phpmyadmin";
   "/adminer";
   "/phpinfo";
   "/solr/";
   "/cgi-bin/";
   "/\.env";
   "/\.git";
   "/\.svn";
   "/\.hg";
   "/\.bzr";
   "/\.aws";
   "/\.yarnrc";
   "/\.npmrc";
   "/\.netrc";
   "/config\.";
   "/settings\.";
   "/secrets\.";
   "/credentials\.";
   "/appsettings";
   "/application[.-]";
   "/docker-compose";
   "/web\.config";
   "(?i)WEB-INF";
   "/_next/";
   "/actuator/";
   "/manager/html";
   "\.\./";
   "%2e";
   "/etc/passwd";
   "/etc/shadow";
   "/etc/hosts";
   "/etc/ssh";
   "/etc/nginx";
   "/etc/apache";
   "/proc/";
   "/\.bash_history";
   "/\.mysql_history";
   "/containers/json";
   ":2375";
   "/\.kube";
   "/\.docker";
   "/\.terraform";
   "\.tfstate";
   "\.tfvars";
   "/\.ssh";
   "/id_rsa";
   "/id_ed25519";
   "/\.htpasswd";
   "/\.vscode";
   "/(?:shell\d*|\w*wso\w*|c99\w*|r57\w*|alfa\w*|b374k)\.php";
   "makeasmtp"].

Definition default_ua_patterns : list string :=
  ["(?i)ClaudeBot";
   "(?i)anthropic-ai";
   "(?i)Claude-Web";
   "(?i)GPTBot";
   "(?i)OAI-SearchBot";
   "(?i)ChatGPT-User";
   "(?i)CCBot";
   "(?i)Google-Extended";
   "(?i)Bytespider";
   "(?i)Amazonbot";
   "(?i)Meta-?External(?:Agent|Fetcher)";
   "(?i)FacebookBot";
   "(?i)Applebot-Extended";
   "(?i)PerplexityBot";
   "(?i)YouBot";
   "(?i)Diffbot";
   "(?i)ImagesiftBot";
   "(?i)Omgili(?:bot)?";
   "(?i)DataForSeoBot";
   "(?i)Timpibot";
   "(?i)cohere-ai";
   "(?i)Scrapy";
   "(?i)python-requests";
   "(?i)\bGo-http-client\b";
   "(?i)\bnode-fetch\b";
   "(?i)\baiohttp\b";
   "(?i)\bokhttp\b";
   "(?i)libwww-perl";
   "(?i)\b(?:zgrab|masscan|nikto|nuclei|sqlmap|Nmap|WPScan)\b";
   "\bFirefox/(?:[1-9]|[1-8][0-9])\.0\b"].

Definition default_no_block_networks : list string :=
  ["127.0.0.0/8";
   "::1/128";
   "173.245.48.0/20";
   "103.21.244.0/22";
   "103.22.200.0/22";
   "103.31.4.0/22";
   "141.101.64.0/18";
   "108.162.192.0/18";
   "190.93.240.0/20";
   "188.114.96.0/20";
   "197.234.240.0/22";
   "198.41.128.0/17";
   "162.158.0.0/15";
   "104.16.0.0/13";
   "104.24.0.0/14";
   "172.64.0.0/13";
   "131.0.72.0/22";
   "2400:cb00::/32";
   "2606:4700::/32";
   "2803:f800::/32";
   "2405:b500::/32";
   "2405:8100::/32";
   "2a06:98c0::/29";
   "2c0f:f248::/32"].

Definition default_whitelist : list string :=
  ["127.0.0.0/8";
   "::1/128";
   "10.0.0.0/8";
   "172.16.0.0/12";
   "192.168.0.0/16";
   "fc00::/7"].

(** Major search crawlers with their published source ranges. *)
Definition default_verified_crawlers : list VerifiedCrawler :=
  [{| vc_name := "Googlebot";
      vc_ua_pattern := "(?i)Googlebot|APIs-Google|AdsBot-Google|Google-InspectionTool";
      vc_networks := ["66.249.64.0/19"; "34.100.182.96/28"; "35.247.243.240/28"] |};
   {| vc_name := "Bingbot";
      vc_ua_pattern := "(?i)bingbot|BingPreview|msnbot|adidxbot";
      vc_networks := ["40.77.0.0/16"; "157.55.0.0/16"; "207.46.0.0/16"; "13.66.0.0/16";
                      "204.79.197.0/24"] |};
   {| vc_name := "DuckDuckBot";
      vc_ua_pattern := "(?i)DuckDuckBot|DuckAssistBot";
      vc_networks := ["20.191.45.212/32"; "40.88.21.235/32"; "51.116.131.0/24"] |};
   {| vc_name := "Applebot";
      vc_ua_pattern := "(?i)Applebot(?:[^-]|$)";
      vc_networks := ["17.0.0.0/8"] |}].

Definition DEFAULT_ADMIN_SOCKET : string := "/run/bagel/admin.sock".

(** [Config::default]; the base directories come from the platform. *)
Definition default_config (default_dirs : string * string) : Config :=
  let '(data, cache) := default_dirs in {|
  metrics_addr := "127.0.0.1:9100";
  disable_metrics := false;
  admin_socket := DEFAULT_ADMIN_SOCKET;
  disable_admin := false;
  listeners := [];
  sources := [];
  policies := [];
  enforcement := default_enforcement;
  database_path := path_join data "bagel.sqlite3";
  history_retention_secs := 86400;
  journalctl_path := "journalctl";
  nft_path := "nft";
  protected_networks := ["127.0.0.0/8"; "::1/128"];
  min_delay_ms := 1000;
  max_delay_ms := 15000;
  max_tarpit_secs := 600;
  tarpit_chunk_min_bytes := 64;
  tarpit_chunk_max_bytes := 1400;
  max_tarpit_conns := 4096;
  max_tarpit_conns_per_ip := 16;
  tarpit_write_timeout_secs := 15;
  max_connections := 8192;
  drain_timeout_secs := 10;
  proxy_protocol := false;
  trusted_proxies := [];
  enable_firewall := true;
  trap_patterns := default_patterns;
  trap_user_agents := default_ua_patterns;
  whitelist_networks := default_whitelist;
  verified_crawlers := default_verified_crawlers;
  no_block_networks := default_no_block_networks;
  corpora_dir := path_join data "corpora";
  scripts_dir := path_join data "scripts";
  data_dir := data;
  cache_dir := cache;
|}.

(** [Config::apply_args]: each provided command-line value overrides the
    layered one. *)
Definition apply_args (cfg : Config) (args : Args) : Config :=
  let data := match a_base_dir args with
              | Some base => path_join base "data" | None => data_dir cfg end in
  let moved (part old : string) := match a_base_dir args with
              | Some _ => path_join data part | None => old end in {|
  metrics_addr := default (metrics_addr cfg) (a_metrics_addr args);
  disable_metrics := disable_metrics cfg || a_disable_metrics args;
  admin_socket := default (admin_socket cfg) (a_admin_socket args);
  disable_admin := disable_admin cfg || a_disable_admin args;
  listeners := listeners cfg;
  sources := sources cfg;
  policies := policies cfg;
  enforcement :=
    if a_disable_firewall args then
      {| mode := EnforcementMode.Observe;
         table := table (enforcement cfg);
         chain_priority := chain_priority (enforcement cfg);
         reconcile_interval_secs := reconcile_interval_secs (enforcement cfg) |}
    else enforcement cfg;
  database_path := moved "bagel.sqlite3" (database_path cfg);
  history_retention_secs := history_retention_secs cfg;
  journalctl_path := journalctl_path cfg;
  nft_path := nft_path cfg;
  protected_networks := protected_networks cfg;
  min_delay_ms := default (min_delay_ms cfg) (a_min_delay_ms args);
  max_delay_ms := default (max_delay_ms cfg) (a_max_delay_ms args);
  max_tarpit_secs := default (max_tarpit_secs cfg) (a_max_tarpit_secs args);
  tarpit_chunk_min_bytes := tarpit_chunk_min_bytes cfg;
  tarpit_chunk_max_bytes := tarpit_chunk_max_bytes cfg;
  max_tarpit_conns := default (max_tarpit_conns cfg) (a_max_tarpit_conns args);
  max_tarpit_conns_per_ip := max_tarpit_conns_per_ip cfg;
  tarpit_write_timeout_secs := tarpit_write_timeout_secs cfg;
  max_connections := default (max_connections cfg) (a_max_connections args);
  drain_timeout_secs := drain_timeout_secs cfg;
  proxy_protocol := proxy_protocol cfg || a_proxy_protocol args;
  trusted_proxies := trusted_proxies cfg;
  enable_firewall := enable_firewall cfg && negb (a_disable_firewall args);
  trap_patterns := trap_patterns cfg;
  trap_user_agents := trap_user_agents cfg;
  whitelist_networks := whitelist_networks cfg;
  verified_crawlers := verified_crawlers cfg;
  no_block_networks := no_block_networks cfg;
  corpora_dir := moved "corpora" (corpora_dir cfg);
  scripts_dir := moved "scripts" (scripts_dir cfg);
  data_dir := data;
  cache_dir := match a_base_dir args with
               | Some base => path_join base "cache" | None => cache_dir cfg end;
|}.

(** [locate]: a byte offset as a 1-based line and column. A byte that
    continues a multi-byte character starts no new one. *)
Definition char_start (c : ascii) : bool :=
  (byte_of c <? 128)%N || (192 <=? byte_of c)%N.
Fixpoint locate_go (index offset : N) (line column : N) (text : string) : N * N :=
  match text with
  | EmptyString => (line, column)
  | String c text =>
      if char_start c then
        if (offset <=? index)%N then (line, column)
        else if char_eqb c "010"%char then locate_go (index + 1) offset (line + 1) 1 text
        else locate_go (index + 1) offset line (column + 1) text
      else locate_go (index + 1) offset line column text
  end.
Definition locate (text : string) (offset : N) : N * N := locate_go 0 offset 1 1 text.

(** [relocate]: turns a located error into one that names line and column. *)
Definition relocate (text path : string) (err : Error.t) : Error.t :=
  match err with
  | Error.ConfigAt offset message =>
      let '(line, column) := locate text offset in
      Error.Config (path +:+ ":" +:+ show_N line +:+ ":" +:+ show_N column +:+ ": " +:+ message)
  | other => other
  end.
