(* ===== verification/Validation.v ===== *)
(** * Configuration validation

    [crates/bagel-config/src/validation.rs], function by function, with
    [kdl::validate_dribble] and the plane checks of [Bagel]. Each rejected
    condition is a branch; messages are the source's. *)

From S2P Require Import Prelude Core Ip ThirdParty Config.

Local Open Scope N_scope.

(** [kdl::validate_dribble]. *)
Definition validate_dribble (ctx : string) (min_delay max_delay chunk_min chunk_max : N) :
    Result unit :=
  fail_if (max_delay <? min_delay) (ctx +:+ ": min-delay-ms exceeds max-delay-ms") ;;
  fail_if (chunk_min =? 0) (ctx +:+ ": chunk-min must not be zero") ;;
  fail_if (chunk_max <? chunk_min) (ctx +:+ ": chunk-min exceeds chunk-max").

(** Bytes of an nftables identifier or of a capture name. *)
Definition is_word_byte (c : ascii) : bool := is_ascii_alphanumeric c || char_eqb c "_"%char.

Section Validation.
Context {NA : IpNetworkApi} {RX : RegexApi}.

Definition validate_cidrs (field : string) (cidrs : list string) : Result unit :=
  for_each (fun cidr =>
    fail_if (negb (str_contains_char "/"%char cidr))
      (field +:+ " contains invalid CIDR " +:+ debug_str cidr) ;;
    match net_parse cidr with
    | Some _ => Ok tt
    | None => Err (Error.Config (field +:+ " contains invalid CIDR " +:+ debug_str cidr))
    end) cidrs.

Definition compile_regex (scope field pattern : string) : Result Regex :=
  map_err (fun error =>
    Error.Config (scope +:+ " has an invalid regex " +:+ field +:+ " " +:+ debug_str pattern
                  +:+ ": " +:+ error)) (regex_new pattern).

Definition has_capture (regex : Regex) (name : string) : bool :=
  existsb (fun o => match o with Some n => String.eqb n name | None => false end)
    (regex_capture_names regex).

Definition validate_capture_name (policy field capture : string) : Result unit :=
  fail_if (str_is_empty capture || negb (str_all is_word_byte capture) ||
           match capture with String c _ => is_ascii_digit c | EmptyString => false end)
    ("policy " +:+ policy +:+ " " +:+ field +:+ " is not a valid capture name").

Definition validate_timestamp_format (policy : string) (format : option string) : Result unit :=
  match format with
  | None => Ok tt
  | Some candidate =>
      let known := String.eqb candidate "rfc3339" || String.eqb candidate "unix" ||
        match strip_prefix "strptime:" candidate with
        | Some rest => negb (str_is_empty rest) | None => false end in
      fail_if (negb known) ("policy " +:+ policy +:+
        " timestamp_format must be rfc3339, unix, or strptime:<format>")
  end.

(** [pointer.as_bytes().windows(2).any(..)]: a tilde that starts no escape. *)
Fixpoint bad_escape (s : string) : bool :=
  match s with
  | String a ((String b _) as s') =>
      (char_eqb a "~" && negb (char_eqb b "0" || char_eqb b "1")) || bad_escape s'
  | _ => false
  end.

Definition validate_json_pointer (policy field pointer : string) : Result unit :=
  fail_if (str_is_empty pointer || negb (starts_with "/" pointer) || bad_escape pointer ||
           ends_with "~" pointer)
    ("policy " +:+ policy +:+ " " +:+ field +:+ " must be a non-empty JSON pointer").

Definition validate_regex_patterns (policy : string) (patterns context_patterns : list string)
    (address_capture : string) (timestamp_capture : option string) : Result unit :=
  for_each (fun pattern =>
    regex ← compile_regex ("policy " +:+ policy) "pattern" pattern;
    fail_if (negb (has_capture regex address_capture))
      ("every policy " +:+ policy +:+ " regex pattern must contain the named address capture "
       +:+ address_capture) ;;
    match timestamp_capture with
    | Some capture =>
        fail_if (negb (has_capture regex capture))
          ("every policy " +:+ policy +:+
           " regex pattern must contain the named timestamp capture " +:+ capture)
    | None => Ok tt
    end) patterns ;;
  for_each (fun pattern =>
    regex ← compile_regex ("policy " +:+ policy) "context pattern" pattern;
    fail_if (negb (has_capture regex address_capture))
      ("every policy " +:+ policy +:+ " context pattern must contain the named address capture "
       +:+ address_capture)) context_patterns.

Definition validate_detector (policy : string) (detector : Detector.t) : Result unit :=
  match detector with
  | Detector.Regex prefilter patterns context_patterns max_context_lines context_window
      ignore_patterns address_capture timestamp_capture timestamp_format =>
      fail_if (bool_decide (patterns = []) || existsb str_is_empty patterns)
        ("policy " +:+ policy +:+ " regex detector requires non-empty patterns") ;;
      fail_if (existsb str_is_empty ignore_patterns)
        ("policy " +:+ policy +:+ " ignore patterns must not be empty") ;;
      fail_if (existsb str_is_empty context_patterns ||
               negb (Bool.eqb (bool_decide (context_patterns = [])) (max_context_lines =? 0)) ||
               (64 <? max_context_lines) || (context_window =? 0))
        ("policy " +:+ policy +:+
         " context patterns require 1 to 64 context lines and a non-zero window") ;;
      validate_capture_name policy "address_capture" address_capture ;;
      match timestamp_capture with
      | Some capture => validate_capture_name policy "timestamp_capture" capture
      | None => Ok tt
      end ;;
      validate_regex_patterns policy patterns context_patterns address_capture
        timestamp_capture ;;
      for_each (fun pattern =>
        compile_regex ("policy " +:+ policy) "ignore pattern" pattern ;; Ok tt)
        ignore_patterns ;;
      match prefilter with
      | Some prefilter =>
          regex ← compile_regex ("policy " +:+ policy) "prefilter" prefilter;
          fail_if (negb (has_capture regex "content"))
            ("policy " +:+ policy +:+ " prefilter must contain a named content capture")
      | None => Ok tt
      end ;;
      validate_timestamp_format policy timestamp_format
  | Detector.Json equals address_pointer timestamp_pointer group_key_pointer timestamp_format =>
      validate_json_pointer policy "address_pointer" address_pointer ;;
      match timestamp_pointer with
      | Some pointer => validate_json_pointer policy "timestamp_pointer" pointer
      | None => Ok tt
      end ;;
      match group_key_pointer with
      | Some pointer => validate_json_pointer policy "group_key_pointer" pointer
      | None => Ok tt
      end ;;
      for_each (fun pointer => validate_json_pointer policy "equals key" pointer) equals.*1 ;;
      validate_timestamp_format policy timestamp_format
  end.

Definition validate_ports (policy : string) (ports : list N) : Result unit :=
  fail_if (bool_decide (ports = []) || existsb (N.eqb 0) ports)
    ("policy " +:+ policy +:+ " scoped action requires non-zero ports").

Definition validate_action (policy : string) (action : Action.t) (ls : list Listener) :
    Result unit :=
  match action with
  | Action.Observe | Action.DropProtocol _ | Action.DropAll | Action.RejectProtocol _
  | Action.RejectAll => Ok tt
  | Action.Drop _ ports | Action.Reject _ ports => validate_ports policy ports
  | Action.TarpitRedirect protocol ports listener =>
      fail_if (negb (bool_decide (protocol = Tcp)))
        ("policy " +:+ policy +:+ " tarpit redirect must use TCP") ;;
      validate_ports policy ports ;;
      target ← ok_or (Error.Config ("policy " +:+ policy +:+
          " references unknown tarpit listener " +:+ listener))
        (list_find_bool (fun candidate => String.eqb (l_name candidate) listener) ls);
      address ← ok_or (Error.Config ("policy " +:+ policy +:+ " tarpit listener " +:+ listener
          +:+ " has invalid address")) (parse_socket (l_listen_addr target));
      fail_if (sa_port address =? 0)
        ("policy " +:+ policy +:+ " tarpit listener " +:+ listener +:+ " uses port zero")
  end.

Definition validate_ban_schedule (policy : string) (ban : BanSchedule) : Result unit :=
  fail_if (match duration_secs ban with Some d => d =? 0 | None => false end ||
           (factor ban =? 0) || existsb (N.eqb 0) (multipliers ban) ||
           (max_duration_secs ban =? 0))
    ("policy " +:+ policy +:+ " ban durations, factor, and multipliers must be non-zero").

(** [validate_sources]: returns the source of each listener. *)
Fixpoint validate_sources_go (listener_names : list string)
    (listener_sources : list (string * string)) (l : list (string * Source.t)) :
    Result (list (string * string)) :=
  match l with
  | [] => Ok listener_sources
  | (name, source) :: l =>
      fail_if (str_is_empty name) "source names must not be empty" ;;
      listener_sources ←
        match source with
        | Source.Journal match_groups _ max_entry_bytes =>
            fail_if (max_entry_bytes =? 0)
              ("source " +:+ name +:+ " max_entry_bytes must be non-zero") ;;
            fail_if (existsb (existsb (fun fv => str_is_empty fv.1 || str_is_empty fv.2))
                       match_groups)
              ("source " +:+ name +:+ " journal match fields and values must not be empty") ;;
            Ok listener_sources
        | Source.File path _ poll_interval_ms max_line_bytes =>
            fail_if (str_is_empty path) ("source " +:+ name +:+ " path must not be empty") ;;
            fail_if ((poll_interval_ms =? 0) || (max_line_bytes =? 0))
              ("source " +:+ name +:+ " polling interval and line limit must be non-zero") ;;
            Ok listener_sources
        | Source.AddressSet path =>
            fail_if (str_is_empty path) ("source " +:+ name +:+ " path must not be empty") ;;
            Ok listener_sources
        | Source.Listener listener =>
            fail_if (negb (existsb (String.eqb listener) listener_names))
              ("source " +:+ name +:+ " references unknown listener " +:+ listener) ;;
            fail_if (existsb (fun kv => String.eqb listener kv.1) listener_sources)
              ("listener " +:+ listener +:+ " has more than one source") ;;
            Ok ((listener, name) :: listener_sources)
        | Source.Web => Ok listener_sources
        end;
      validate_sources_go listener_names listener_sources l
  end.
Definition validate_sources (config : Config) : Result (list (string * string)) :=
  validate_sources_go (l_name <$> listeners config) [] (sources config).

Definition validate_policy (config : Config) (np : string * Policy) : Result unit :=
  let '(name, policy) := np in
  fail_if (str_is_empty name) "policy names must not be empty" ;;
  fail_if (match assoc (p_source policy) (sources config) with Some _ => false | None => true end)
    ("policy " +:+ name +:+ " references unknown source " +:+ p_source policy) ;;
  fail_if ((p_max_attempts policy =? 0) || (p_findtime_secs policy =? 0))
    ("policy " +:+ name +:+ " max_attempts and findtime_secs must be non-zero") ;;
  validate_ban_schedule name (p_ban policy) ;;
  validate_detector name (p_detector policy) ;;
  validate_cidrs ("policies." +:+ name +:+ ".ignore_networks") (p_ignore_networks policy) ;;
  validate_action name (p_action policy) (listeners config).

Definition validate_listener_policy (config : Config) (listener_sources : list (string * string))
    (listener : Listener) : Result unit :=
  match l_policy listener with
  | None => Ok tt
  | Some policy_name =>
      policy ← ok_or (Error.Config ("listener " +:+ l_name listener +:+
        " references unknown policy " +:+ policy_name)) (assoc policy_name (policies config));
      expected_source ← ok_or (Error.Config ("listener " +:+ l_name listener +:+
        " has a policy but no listener source")) (assoc (l_name listener) listener_sources);
      fail_if (negb (String.eqb (p_source policy) expected_source))
        ("listener " +:+ l_name listener +:+ " policy " +:+ policy_name +:+ " uses source "
         +:+ p_source policy +:+ ", expected " +:+ expected_source)
  end.

Definition validate_policies (config : Config) (listener_sources : list (string * string)) :
    Result unit :=
  for_each (validate_policy config) (policies config) ;;
  for_each (validate_listener_policy config listener_sources) (listeners config).

Definition validate_crawler (crawler : VerifiedCrawler) : Result unit :=
  fail_if (str_is_empty (vc_ua_pattern crawler))
    ("verified_crawlers." +:+ vc_name crawler +:+
     " ua_pattern must not be empty, it would match every agent") ;;
  compile_regex ("verified_crawlers." +:+ vc_name crawler) "ua_pattern"
    (vc_ua_pattern crawler) ;;
  validate_cidrs ("verified_crawlers." +:+ vc_name crawler +:+ ".networks")
    (vc_networks crawler).

Definition validate_defense (config : Config) : Result unit :=
  fail_if (str_is_empty (table (enforcement config)) ||
           negb (str_all is_word_byte (table (enforcement config))))
    "enforcement.table must be a non-empty nftables identifier" ;;
  fail_if (reconcile_interval_secs (enforcement config) =? 0)
    "enforcement.reconcile_interval_secs must be non-zero" ;;
  for_each (fun np => fail_if (str_is_empty np.2) (np.1 +:+ " must not be empty"))
    [("database_path", database_path config); ("journalctl_path", journalctl_path config);
     ("nft_path", nft_path config)] ;;
  validate_cidrs "protected_networks" (protected_networks config) ;;
  validate_cidrs "trusted_proxies" (trusted_proxies config) ;;
  validate_cidrs "whitelist_networks" (whitelist_networks config) ;;
  validate_cidrs "no_block_networks" (no_block_networks config) ;;
  for_each (fun pattern => compile_regex "trap_patterns" "pattern" pattern ;; Ok tt)
    (trap_patterns config) ;;
  for_each (fun pattern => compile_regex "trap_user_agents" "pattern" pattern ;; Ok tt)
    (trap_user_agents config) ;;
  for_each validate_crawler (verified_crawlers config) ;;
  listener_sources ← validate_sources config;
  validate_policies config listener_sources.

Definition MAX_TARPIT_SECS : N := 24 * 60 * 60.
Definition in_tarpit_range (n : N) : bool := (1 <=? n) && (n <=? MAX_TARPIT_SECS).

(** The listener loop of [validate_config]: the names and addresses seen so
    far and the capacity summed so far. *)
Fixpoint validate_listeners (config : Config) (names addrs : list string)
    (endpoint_capacity : N) (l : list Listener) : Result N :=
  match l with
  | [] => Ok endpoint_capacity
  | listener :: l =>
      fail_if (str_is_empty (l_name listener) || existsb (String.eqb (l_name listener)) names)
        "listener names must be non-empty and unique" ;;
      fail_if (existsb (String.eqb (l_listen_addr listener)) addrs)
        "listener addresses must be unique" ;;
      let cap := listener_cap listener (max_tarpit_conns config) in
      fail_if ((cap =? 0) || (max_connections config <? cap))
        ("listener " +:+ l_name listener +:+ " has an invalid max_tarpit_conns") ;;
      fail_if (match l_line_length listener with Some n => n =? 0 | None => false end ||
               match l_max_tarpit_secs listener with
               | Some n => negb (in_tarpit_range n) | None => false end ||
               (default (max_delay_ms config) (l_max_delay_ms listener) <?
                default (min_delay_ms config) (l_min_delay_ms listener)))
        ("invalid SSH listener " +:+ l_name listener) ;;
      validate_listeners config (l_name listener :: names) (l_listen_addr listener :: addrs)
        (sat_add usize_max endpoint_capacity cap) l
  end.

Definition validate_config (config : Config) : Result unit :=
  validate_dribble "defense: tarpit" (min_delay_ms config) (max_delay_ms config)
    (tarpit_chunk_min_bytes config) (tarpit_chunk_max_bytes config) ;;
  fail_if (negb (in_tarpit_range (max_tarpit_secs config)))
    "max_tarpit_secs must be between 1 second and 24 hours" ;;
  fail_if (history_retention_secs config =? 0) "history_retention_secs must be non-zero" ;;
  for_each (fun nv => fail_if (nv.2 =? 0) (nv.1 +:+ " must be non-zero"))
    [("max_tarpit_conns", max_tarpit_conns config);
     ("max_tarpit_conns_per_ip", max_tarpit_conns_per_ip config);
     ("max_connections", max_connections config)] ;;
  fail_if (tarpit_write_timeout_secs config =? 0)
    "tarpit_write_timeout_secs must be non-zero" ;;
  fail_if (proxy_protocol config && bool_decide (trusted_proxies config = []))
    "proxy_protocol requires at least one trusted_proxies entry" ;;
  endpoint_capacity ← validate_listeners config [] [] 0 (listeners config);
  fail_if (max_connections config <? endpoint_capacity)
    "sum of listener max_tarpit_conns exceeds max_connections" ;;
  validate_defense config.
End Validation.

(** ** Checks across the two planes *)

(** The fields of the web plane's configuration that decide client identity. *)
Record WebTrust : Type := {
  wt_trusted_proxies : option (list string);
  wt_client_ip_header : option string;
  wt_client_tls_header : option string;
  wt_bind_proxy_protocol : bool;
}.

Definition validate_web_trust (web : WebTrust) : Result unit :=
  match wt_trusted_proxies web with
  | Some _ => Ok tt
  | None =>
      fail_if (bool_decide (is_Some (wt_client_ip_header web)))
        "client-ip-header requires trusted-proxies, an untrusted forwarding header never supplies identity" ;;
      fail_if (bool_decide (is_Some (wt_client_tls_header web)))
        "client-tls-header requires trusted-proxies, an untrusted forwarding header never supplies a fingerprint" ;;
      fail_if (wt_bind_proxy_protocol web)
        "bind proxy-protocol requires trusted-proxies so only listed peers can supply a source address"
  end.

Definition is_web (s : Source.t) : bool := match s with Source.Web => true | _ => false end.

(** [Bagel::validate_planes]. *)
Definition validate_planes (web : WebTrust) (defense : Config) : Result unit :=
  validate_web_trust web ;;
  let web_sources := length (List.filter (fun ns => is_web ns.2) (sources defense)) in
  fail_if (1 <? N.of_nat web_sources)
    "only one web source may be configured, the web plane attaches to a single one".
