(* ===== verification/Firewall.v ===== *)
(** * Atomic nftables enforcement

    [crates/bagel-runtime/src/firewall.rs]: enforcement scopes, the
    normalisation that lets blocks win over tarpit redirects, the rendering of
    the whole ruleset, and [Firewall::reconcile]. The [nft] process is a
    parameter: the text it is given and what it answers. An [io::Error] is its
    message. *)

From S2P Require Import Prelude Core Ip Config Validation.

(** ** Scopes *)

Module Protocol.
Inductive t : Type := Tcp | Udp.
#[global] Instance eq_dec : EqDecision t.
Proof. solve_decision. Defined.
Definition nft (p : t) : string := match p with Tcp => "tcp" | Udp => "udp" end.
Definition rank (p : t) : N := match p with Tcp => 0 | Udp => 1 end.
End Protocol.

Module Verdict.
Inductive t : Type := Drop | Reject | Redirect (port : N).
#[global] Instance eq_dec : EqDecision t.
Proof. solve_decision. Defined.
Definition is_redirect (v : t) : bool := match v with Redirect _ => true | _ => false end.
End Verdict.

(** A canonical enforcement scope. Empty ports means every input port. *)
Record Scope : Type := {
  s_protocol : option Protocol.t;
  s_ports : list N;
  s_verdict : Verdict.t;
}.
#[global] Instance scope_eq_dec : EqDecision Scope.
Proof. solve_decision. Defined.

Definition scope_all_ports (v : Verdict.t) : Scope :=
  {| s_protocol := None; s_ports := []; s_verdict := v |}.
Definition scope_protocol (p : Protocol.t) (v : Verdict.t) : Scope :=
  {| s_protocol := Some p; s_ports := []; s_verdict := v |}.

(** [Vec::dedup]: consecutive repeated elements. *)
Fixpoint dedup (l : list N) : list N :=
  match l with
  | [] => []
  | x :: l' => match l' with
               | [] => [x]
               | y :: _ => if (x =? y)%N then dedup l' else x :: dedup l'
               end
  end.

(** [Scope::new]. *)
Definition scope_new (protocol : Protocol.t) (ports : list N) (verdict : Verdict.t) :
    result string Scope :=
  let ports := dedup (merge_sort N.le ports) in
  if bool_decide (ports = []) then
    Err "a protocol-scoped firewall rule requires at least one port"
  else if Verdict.is_redirect verdict && negb (bool_decide (protocol = Protocol.Tcp)) then
    Err "only TCP bans can redirect to a tarpit"
  else Ok {| s_protocol := Some protocol; s_ports := ports; s_verdict := verdict |}.

Section Firewall.
Context {NA : IpNetworkApi}.

Record Membership : Type := { m_network : IpNetwork; m_scope : Scope }.

(** ** Overlap *)

Definition networks_overlap (left right : IpNetwork) : bool :=
  if negb (Bool.eqb (is_ipv4 (net_ip left)) (is_ipv4 (net_ip right))) then false
  else net_contains left (net_ip right) || net_contains right (net_ip left).

Definition protocols_overlap (left right : Scope) : bool :=
  bool_decide (s_protocol left = None) || bool_decide (s_protocol right = None) ||
  bool_decide (s_protocol left = s_protocol right).

(** ** Normalisation *)

Definition is_redirect (m : Membership) : bool := Verdict.is_redirect (s_verdict (m_scope m)).

(** The blockers a redirect meets. *)
Definition blocks (membership candidate : Membership) : bool :=
  negb (is_redirect candidate) &&
  networks_overlap (m_network candidate) (m_network membership) &&
  protocols_overlap (m_scope candidate) (m_scope membership).

(** The loop over the blockers: an all-port blocker clears the ports and
    ends it, another one removes its own ports. *)
Fixpoint retain_ports (blockers : list Membership) (ports : list N) : list N :=
  match blockers with
  | [] => ports
  | blocker :: blockers =>
      if bool_decide (s_protocol (m_scope blocker) = None) ||
         bool_decide (s_ports (m_scope blocker) = [])
      then []
      else retain_ports blockers
             (List.filter (fun port => negb (existsb (N.eqb port) (s_ports (m_scope blocker))))
                ports)
  end.

(** A later redirect that claims one of the ports for another target. *)
Definition conflicts (membership : Membership) (target : N) (ports : list N)
    (other : Membership) : bool :=
  match s_verdict (m_scope other) with
  | Verdict.Redirect other_target =>
      negb (target =? other_target)%N &&
      networks_overlap (m_network other) (m_network membership) &&
      protocols_overlap (m_scope other) (m_scope membership) &&
      existsb (fun port => existsb (N.eqb port) (s_ports (m_scope other))) ports
  | _ => false
  end.

Definition with_ports (m : Membership) (ports : list N) : Membership :=
  {| m_network := m_network m;
     m_scope := {| s_protocol := s_protocol (m_scope m); s_ports := ports;
                   s_verdict := s_verdict (m_scope m) |} |}.

(** The loop over the redirects; [rest] is what [skip(index + 1)] leaves. *)
Fixpoint normalize_redirects (all rest : list Membership) : result string (list Membership) :=
  match rest with
  | [] => Ok []
  | membership :: rest =>
      match s_verdict (m_scope membership) with
      | Verdict.Redirect target =>
          let ports := retain_ports (List.filter (blocks membership) all)
                         (s_ports (m_scope membership)) in
          if bool_decide (ports = []) then normalize_redirects all rest
          else if existsb (conflicts membership target ports) rest then
            Err ("conflicting tarpit redirects for overlapping network " +:+
                 net_show (m_network membership))
          else
            adjusted ← normalize_redirects all rest;
            Ok (with_ports membership ports :: adjusted)
      | _ => normalize_redirects all rest
      end
  end.

Definition normalize_memberships (memberships : list Membership) :
    result string (list Membership) :=
  redirects ← normalize_redirects memberships memberships;
  Ok (List.filter (fun m => negb (is_redirect m)) memberships ++ redirects).

(** ** Rendering *)

(** The derived order of [Scope]: protocol ([None] first), ports, verdict. *)
Definition protocol_rank (p : option Protocol.t) : N :=
  match p with None => 0 | Some p => 1 + Protocol.rank p end.
Fixpoint ports_compare (l r : list N) : comparison :=
  match l, r with
  | [], [] => Eq
  | [], _ :: _ => Lt
  | _ :: _, [] => Gt
  | x :: l, y :: r => match (x ?= y)%N with Eq => ports_compare l r | c => c end
  end.
Definition verdict_key (v : Verdict.t) : N :=
  match v with Verdict.Drop => 0 | Verdict.Reject => 1 | Verdict.Redirect p => 2 + p end.
Definition scope_compare (l r : Scope) : comparison :=
  match (protocol_rank (s_protocol l) ?= protocol_rank (s_protocol r))%N with
  | Eq => match ports_compare (s_ports l) (s_ports r) with
          | Eq => (verdict_key (s_verdict l) ?= verdict_key (s_verdict r))%N
          | c => c
          end
  | c => c
  end.

(** [BTreeSet<IpNetwork>::insert]. *)
Fixpoint set_insert (n : IpNetwork) (l : list IpNetwork) : list IpNetwork :=
  match l with
  | [] => [n]
  | m :: l' => if decide (n = m) then l
               else if net_leb n m then n :: l else m :: set_insert n l'
  end.

Record Families : Type := { f_v4 : list IpNetwork; f_v6 : list IpNetwork }.
Definition families_default : Families := {| f_v4 := []; f_v6 := [] |}.
Definition families_insert (n : IpNetwork) (f : Families) : Families :=
  if is_ipv4 (net_ip n) then {| f_v4 := set_insert n (f_v4 f); f_v6 := f_v6 f |}
  else {| f_v4 := f_v4 f; f_v6 := set_insert n (f_v6 f) |}.

(** [grouped.entry(&membership.scope).or_default()] and the family insert. *)
Fixpoint group_insert (scope : Scope) (n : IpNetwork) (g : list (Scope * Families)) :
    list (Scope * Families) :=
  match g with
  | [] => [(scope, families_insert n families_default)]
  | (s, f) :: g' =>
      match scope_compare scope s with
      | Eq => (s, families_insert n f) :: g'
      | Lt => (scope, families_insert n families_default) :: g
      | Gt => (s, f) :: group_insert scope n g'
      end
  end.
Definition group_memberships (ms : list Membership) : list (Scope * Families) :=
  foldl (fun g m => group_insert (m_scope m) (m_network m) g) [] ms.

Definition nl : string := bytes_string [10%N].

Definition write_set (index : N) (family kind : string) (elements : list IpNetwork) : string :=
  match elements with
  | [] => "  set scope_" +:+ show_N index +:+ "_" +:+ family +:+ " { type " +:+ kind +:+
          "; flags interval; auto-merge; }" +:+ nl
  | _ => "  set scope_" +:+ show_N index +:+ "_" +:+ family +:+ " { type " +:+ kind +:+
         "; flags interval; auto-merge; elements = { " +:+
         str_join ", " (net_show <$> elements) +:+ " }; }" +:+ nl
  end.

Definition port_predicate (scope : Scope) : string :=
  match s_protocol scope with
  | None => ""
  | Some protocol =>
      match s_ports scope with
      | [] => " meta l4proto " +:+ Protocol.nft protocol
      | ports => " " +:+ Protocol.nft protocol +:+ " dport { " +:+
                 str_join ", " (show_N <$> ports) +:+ " }"
      end
  end.

Definition write_filter_rules (index : N) (scope : Scope) : string :=
  let rules (verdict : string) :=
    "    ip saddr @scope_" +:+ show_N index +:+ "_v4" +:+ port_predicate scope +:+ " " +:+
    verdict +:+ nl +:+
    "    ip6 saddr @scope_" +:+ show_N index +:+ "_v6" +:+ port_predicate scope +:+ " " +:+
    verdict +:+ nl in
  match s_verdict scope with
  | Verdict.Drop => rules "drop"
  | Verdict.Reject => rules "reject"
  | Verdict.Redirect _ => ""
  end.

Definition write_redirect_rules (index : N) (scope : Scope) : string :=
  match s_verdict scope with
  | Verdict.Redirect port =>
      "    ip saddr @scope_" +:+ show_N index +:+ "_v4" +:+ port_predicate scope +:+
      " redirect to :" +:+ show_N port +:+ nl +:+
      "    ip6 saddr @scope_" +:+ show_N index +:+ "_v6" +:+ port_predicate scope +:+
      " redirect to :" +:+ show_N port +:+ nl
  | _ => ""
  end.

Definition validate_name (name : string) : result string unit :=
  if str_is_empty name || negb (str_all is_word_byte name) then
    Err ("invalid nftables table name " +:+ debug_str name)
  else Ok tt.

Definition concat_str (l : list string) : string := foldr String.append "" l.

(** [enumerate] over the grouped scopes. *)
Definition enumerate {A} (l : list A) : list (N * A) := imap (fun i a => (N.of_nat i, a)) l.

Definition show_Z (z : Z) : string := pretty z.

Definition render_grouped (tbl : string) (priority : Z) (grouped : list (Scope * Families)) :
    string :=
  let indexed := enumerate grouped in
  "destroy table inet " +:+ tbl +:+ nl +:+ "table inet " +:+ tbl +:+ " {" +:+ nl +:+
  concat_str ((fun '(index, (_, families)) =>
    write_set index "v4" "ipv4_addr" (f_v4 families) +:+
    write_set index "v6" "ipv6_addr" (f_v6 families)) <$> indexed) +:+
  "  chain input { type filter hook input priority " +:+ show_Z priority +:+
  "; policy accept;" +:+ nl +:+
  "    fib saddr type local accept" +:+ nl +:+
  concat_str ((fun verdict =>
    concat_str ((fun '(index, (scope, _)) =>
      if bool_decide (s_verdict scope = verdict) then write_filter_rules index scope else "")
      <$> indexed)) <$> [Verdict.Drop; Verdict.Reject]) +:+
  "  }" +:+ nl +:+
  (if existsb (fun sf => Verdict.is_redirect (s_verdict sf.1)) grouped then
    "  chain prerouting { type nat hook prerouting priority dstnat; policy accept;" +:+ nl +:+
    concat_str ((fun '(index, (scope, _)) =>
      if Verdict.is_redirect (s_verdict scope) then write_redirect_rules index scope else "")
      <$> indexed) +:+
    "  }" +:+ nl
   else "") +:+
  "}" +:+ nl.

Definition render_ruleset (tbl : string) (priority : Z) (memberships : list Membership) :
    result string string :=
  validate_name tbl ;;
  memberships ← normalize_memberships memberships;
  Ok (render_grouped tbl priority (group_memberships memberships)).

(** ** Reconciliation *)

Record Firewall : Type := {
  fw_nft_path : string;
  fw_table : string;
  fw_priority : Z;
  fw_required : bool;
  fw_ready : bool;
}.
(** [Firewall::new]. *)
Definition firewall_new (nft_path tbl : string) (priority : Z) (required : bool) : Firewall :=
  {| fw_nft_path := nft_path; fw_table := tbl; fw_priority := priority;
     fw_required := required; fw_ready := false |}.
Definition set_ready (fw : Firewall) (ready : bool) : Firewall :=
  {| fw_nft_path := fw_nft_path fw; fw_table := fw_table fw; fw_priority := fw_priority fw;
     fw_required := fw_required fw; fw_ready := ready |}.

(** [Firewall::reconcile]; [run_nft] runs [nft] on a ruleset. *)
Definition firewall_reconcile (run_nft : string -> string -> result string unit)
    (fw : Firewall) (memberships : list Membership) : Firewall * result string unit :=
  if negb (fw_required fw) then (set_ready fw true, Ok tt)
  else
    match render_ruleset (fw_table fw) (fw_priority fw) memberships with
    | Err e => (fw, Err e)
    | Ok ruleset =>
        let result := run_nft (fw_nft_path fw) ruleset in
        (set_ready fw (is_ok result), result)
    end.
End Firewall.

(** ** What the rules mean for a packet *)

(** The parts of an incoming packet the rules look at. *)
Record Packet : Type := { pk_source : IpAddr; pk_protocol : Protocol.t; pk_port : N }.

Definition scope_matches (s : Scope) (p : Packet) : bool :=
  match s_protocol s with
  | None => true
  | Some protocol =>
      bool_decide (protocol = pk_protocol p) &&
      (bool_decide (s_ports s = []) || existsb (N.eqb (pk_port p)) (s_ports s))
  end.

Section PacketMeaning.
Context {NA : IpNetworkApi}.

Definition member_matches (m : Membership) (p : Packet) : bool :=
  net_contains (m_network m) (pk_source p) && scope_matches (m_scope m) p.

(** A rendered scope: the address set of the packet's family, and the port
    predicate. *)
Definition entry_matches (e : Scope * Families) (p : Packet) : bool :=
  existsb (fun n => net_contains n (pk_source p))
    (if is_ipv4 (pk_source p) then f_v4 e.2 else f_v6 e.2) &&
  scope_matches e.1 p.

(** Redirect scopes name TCP ports: [Scope::new] builds no other. *)
Definition redirect_wf (m : Membership) : Prop :=
  is_redirect m = true -> s_protocol (m_scope m) = Some Protocol.Tcp /\ s_ports (m_scope m) <> [].
End PacketMeaning.

Section FirewallFacts.
Context {NA : IpNetworkApi} {NL : IpNetworkLaws}.

Lemma networks_overlap_both l r a :
  net_contains l a = true -> net_contains r a = true -> networks_overlap l r = true.
Proof.
  rewrite !net_contains_iff. intros [Fl Hl] [Fr Hr]. unfold networks_overlap.
  assert (is_ipv4 (net_ip l) = is_ipv4 (net_ip r)) as F by congruence.
  rewrite F, eqb_reflx. cbn. apply orb_true_iff. rewrite !net_contains_iff.
  pose proof (net_prefix_le l) as Pl. pose proof (net_prefix_le r) as Pr.
  destruct (N.le_gt_cases (net_prefix l) (net_prefix r)) as [H|H]; [left|right]; split;
    try congruence.
  - rewrite Hl. symmetry. by apply (high_bits_mono _ (net_prefix r)).
  - rewrite Hr. symmetry. by apply (high_bits_mono _ (net_prefix l)); [lia|..].
Qed.

(** [networks_overlap] decides whether two networks share an address: it
    answers true exactly when some address lies in both. *)
Lemma networks_overlap_spec l r :
  networks_overlap l r = true <->
  exists a, net_contains l a = true /\ net_contains r a = true.
Proof.
  split; [|intros (a & Hl & Hr); by apply (networks_overlap_both l r a)].
  unfold networks_overlap. case_match; [done|]. rewrite orb_true_iff.
  intros [H'|H']; [exists (net_ip r) | exists (net_ip l)]; split;
    auto using net_contains_ip.
Qed.

Lemma scope_matches_overlap s t p :
  scope_matches s p = true -> scope_matches t p = true -> protocols_overlap s t = true.
Proof.
  unfold scope_matches, protocols_overlap. destruct (s_protocol s), (s_protocol t); try done.
  intros [H1 _]%andb_true_iff [H2 _]%andb_true_iff.
  apply bool_decide_eq_true in H1, H2. apply orb_true_iff. right.
  apply bool_decide_eq_true. congruence.
Qed.

Lemma retain_ports_in blockers ports q :
  q ∈ retain_ports blockers ports <->
  q ∈ ports /\ Forall (fun b => s_protocol (m_scope b) <> None /\ s_ports (m_scope b) <> [] /\
                                q ∉ s_ports (m_scope b)) blockers.
Proof.
  revert ports; induction blockers as [|b bs IH]; intros ports; cbn [retain_ports].
  { rewrite Forall_nil. tauto. }
  rewrite Forall_cons. destruct (bool_decide (s_protocol (m_scope b) = None)) eqn:E1;
    [apply bool_decide_eq_true in E1; cbn; rewrite elem_of_nil; tauto|].
  destruct (bool_decide (s_ports (m_scope b) = [])) eqn:E2;
    [apply bool_decide_eq_true in E2; cbn; rewrite elem_of_nil; tauto|].
  apply bool_decide_eq_false in E1, E2. cbn. rewrite IH.
  rewrite !list_elem_of_In, filter_In, <- !list_elem_of_In, negb_true_iff, existsb_false.
  split.
  - intros ((Hq & Hb) & Hbs). repeat split; try done. intros Hin.
    specialize (Hb _ Hin). by rewrite N.eqb_refl in Hb.
  - intros (Hq & (_ & _ & Hb) & Hbs). repeat split; try done.
    intros x Hx. apply N.eqb_neq. by intros <-.
Qed.

(** What [normalize_redirects] returns: each result is a redirect of the
    input with its retained ports, in order, without conflicts. *)
Lemma normalize_redirects_inv all rest out :
  normalize_redirects all rest = Ok out ->
  Forall (fun r => exists m target, m ∈ rest /\ s_verdict (m_scope m) = Verdict.Redirect target /\
    r = with_ports m (retain_ports (List.filter (blocks m) all) (s_ports (m_scope m)))) out.
Proof.
  revert out; induction rest as [|m rest IH]; intros out; cbn [normalize_redirects].
  { intros [= <-]. constructor. }
  assert (forall out', normalize_redirects all rest = Ok out' ->
    Forall (fun r => exists m' target, m' ∈ m :: rest /\
      s_verdict (m_scope m') = Verdict.Redirect target /\
      r = with_ports m' (retain_ports (List.filter (blocks m') all) (s_ports (m_scope m')))) out')
    as Hrec.
  { intros out' H. eapply Forall_impl; [by apply IH|]. intros r (m' & t & ? & ?).
    exists m', t. split; [by right|done]. }
  destruct (s_verdict (m_scope m)) as [| |target] eqn:E; [by apply Hrec..|].
  case_match; [by apply Hrec|]. case_match; [done|].
  intros H'. inv_result. constructor; [|by apply Hrec].
  exists m, target. split; [left|done].
Qed.

Lemma scope_matches_with_ports m ports p :
  s_protocol (m_scope m) = Some Protocol.Tcp ->
  scope_matches (m_scope (with_ports m ports)) p = true ->
  ports <> [] -> pk_protocol p = Protocol.Tcp /\ pk_port p ∈ ports.
Proof.
  intros Hp. unfold scope_matches; cbn. rewrite Hp.
  intros [H1 H2]%andb_true_iff Hne. apply bool_decide_eq_true in H1. split; [done|].
  apply orb_true_iff in H2 as [H2|H2]; [by apply bool_decide_eq_true in H2|].
  apply existsb_elem in H2 as (x & Hx & E). apply N.eqb_eq in E. by subst.
Qed.

Lemma normalize_redirects_nonempty all rest out r :
  normalize_redirects all rest = Ok out -> r ∈ out -> s_ports (m_scope r) <> [].
Proof.
  revert out; induction rest as [|m rest IH]; intros out; cbn [normalize_redirects].
  { intros [= <-] H%elem_of_nil. done. }
  destruct (s_verdict (m_scope m)) as [| |target] eqn:E; [by apply IH..|].
  case_match; [by apply IH|]. case_match; [done|]. intros Ho Hr. inv_result.
  apply elem_of_cons in Hr as [->|Hr]; [|by eapply IH].
  by apply bool_decide_eq_false in H.
Qed.

Lemma member_matches_redirect all rest out r p :
  Forall redirect_wf rest -> normalize_redirects all rest = Ok out -> r ∈ out ->
  member_matches r p = true ->
  exists m target, m ∈ rest /\ s_verdict (m_scope m) = Verdict.Redirect target /\
    s_verdict (m_scope r) = Verdict.Redirect target /\
    s_ports (m_scope r) = retain_ports (List.filter (blocks m) all) (s_ports (m_scope m)) /\
    net_contains (m_network m) (pk_source p) = true /\ scope_matches (m_scope m) p = true /\
    pk_port p ∈ retain_ports (List.filter (blocks m) all) (s_ports (m_scope m)).
Proof.
  intros Hwf Ho Hr Hm. pose proof (normalize_redirects_nonempty _ _ _ _ Ho Hr) as Hne.
  apply normalize_redirects_inv in Ho. rewrite Forall_forall in Ho.
  destruct (Ho r Hr) as (m & target & Hin & Hv & ->).
  apply andb_true_iff in Hm as [Hc Hs]. rewrite Forall_forall in Hwf.
  destruct (Hwf m Hin) as [Hp Hports]; [unfold is_redirect; by rewrite Hv|].
  destruct (scope_matches_with_ports _ _ _ Hp Hs Hne) as [Htcp Hport].
  exists m, target. repeat split; try done.
  unfold scope_matches. rewrite Hp, Htcp. apply andb_true_iff. split; [done|].
  apply orb_true_iff. right. apply retain_ports_in in Hport as [Hport _].
  apply existsb_elem. exists (pk_port p). by rewrite N.eqb_refl.
Qed.

(** Blocks win over redirects. In a ruleset that normalises, a packet
    that any drop or reject membership matches is matched by no redirect, so
    the tarpit never takes traffic a ban must discard. *)
Theorem normalize_blocks_win ms ns p b r :
  Forall redirect_wf ms -> normalize_memberships ms = Ok ns ->
  b ∈ ms -> is_redirect b = false -> member_matches b p = true ->
  r ∈ ns -> is_redirect r = true -> member_matches r p = false.
Proof.
  intros Hwf Hn Hb Hbr Hbm Hr Hrr. unfold normalize_memberships in Hn. inv_result.
  apply not_true_iff_false. intros Hrm.
  apply elem_of_app in Hr as [Hr|Hr].
  { apply list_elem_of_In, filter_In in Hr as [_ Hr]. by rewrite Hrr in Hr. }
  destruct (member_matches_redirect _ _ _ _ _ Hwf Ha Hr Hrm)
    as (m & target & Hin & Hv & _ & _ & Hc & Hs & Hport).
  apply retain_ports_in in Hport as [_ Hall]. rewrite Forall_forall in Hall.
  apply andb_true_iff in Hbm as [Hbc Hbs].
  destruct (Hall b) as (Hproto & Hports & Hnot).
  { apply list_elem_of_In, filter_In. split; [by apply list_elem_of_In|].
    unfold blocks. rewrite Hbr. cbn. apply andb_true_iff. split.
    - by apply (networks_overlap_both _ _ (pk_source p)).
    - by apply (scope_matches_overlap _ _ p). }
  unfold scope_matches in Hbs. destruct (s_protocol (m_scope b)); [|done].
  apply andb_true_iff in Hbs as [_ [Hbs|Hbs]%orb_true_iff].
  - by apply bool_decide_eq_true in Hbs.
  - apply existsb_elem in Hbs as (x & Hx & E). apply N.eqb_eq in E. by subst.
Qed.

Lemma normalize_redirects_agree all rest out p :
  Forall redirect_wf rest -> normalize_redirects all rest = Ok out ->
  forall r1 r2, r1 ∈ out -> r2 ∈ out ->
  member_matches r1 p = true -> member_matches r2 p = true ->
  s_verdict (m_scope r1) = s_verdict (m_scope r2).
Proof.
  revert out; induction rest as [|m rest IH]; intros out Hwf; cbn [normalize_redirects].
  { intros [= <-] r1 r2 H%elem_of_nil. done. }
  apply Forall_cons in Hwf as [Hm Hwf].
  destruct (s_verdict (m_scope m)) as [| |target] eqn:E; [by apply IH..|].
  case_match; [by apply IH|]. case_match; [done|]. intros Ho. inv_result.
  rewrite existsb_false in H0.
  assert (forall r, r ∈ a -> member_matches r p = true ->
    member_matches (with_ports m (retain_ports (List.filter (blocks m) all)
      (s_ports (m_scope m)))) p = true -> s_verdict (m_scope r) = Verdict.Redirect target) as Hhead.
  { intros r Hr Hrm Hmm.
    destruct (member_matches_redirect _ _ _ _ _ Hwf Ha Hr Hrm)
      as (m2 & t2 & Hin & Hv2 & Hv & _ & Hc & Hs & Hport).
    rewrite Hv. destruct (decide (target = t2)) as [->|Hne]; [done|].
    specialize (H0 m2 Hin). unfold conflicts in H0. rewrite Hv2 in H0.
    exfalso. revert H0. apply not_false_iff_true.
    apply andb_true_iff in Hmm as [Hmc Hms]. destruct Hm as [Htcp _];
      [unfold is_redirect; by rewrite E|].
    destruct (scope_matches_with_ports _ _ _ Htcp Hms) as [Hpp Hpin];
      [by apply bool_decide_eq_false in H|].
    repeat (apply andb_true_iff; split).
    - apply negb_true_iff, N.eqb_neq, Hne.
    - by apply (networks_overlap_both _ _ (pk_source p)).
    - unfold scope_matches in Hs. unfold protocols_overlap. rewrite Htcp.
      destruct (s_protocol (m_scope m2)); [|done].
      apply andb_true_iff in Hs as [Hs _]. apply bool_decide_eq_true in Hs.
      apply orb_true_iff. right. apply bool_decide_eq_true. congruence.
    - apply existsb_elem. exists (pk_port p). split; [done|].
      apply existsb_elem. exists (pk_port p). rewrite N.eqb_refl. split; [|done].
      by apply retain_ports_in in Hport as [? _]. }
  intros r1 r2 [->|H1]%elem_of_cons [->|H2]%elem_of_cons M1 M2; [done|..].
  - cbn. rewrite E. symmetry. by apply Hhead.
  - cbn. rewrite E. by apply Hhead.
  - by eapply IH.
Qed.

(** Redirects are deterministic. When normalisation succeeds, all
    redirects that match one packet send it to the same tarpit port. *)
Theorem normalize_redirect_deterministic ms ns p r1 r2 :
  Forall redirect_wf ms -> normalize_memberships ms = Ok ns ->
  r1 ∈ ns -> r2 ∈ ns -> is_redirect r1 = true -> is_redirect r2 = true ->
  member_matches r1 p = true -> member_matches r2 p = true ->
  s_verdict (m_scope r1) = s_verdict (m_scope r2).
Proof.
  intros Hwf Hn. unfold normalize_memberships in Hn. inv_result.
  intros H1 H2 R1 R2. apply elem_of_app in H1 as [H1|H1], H2 as [H2|H2];
    try (apply list_elem_of_In, filter_In in H1 as [_ H1]; by rewrite R1 in H1);
    try (apply list_elem_of_In, filter_In in H2 as [_ H2]; by rewrite R2 in H2).
  by eapply normalize_redirects_agree.
Qed.

Lemma ports_compare_eq l r : ports_compare l r = Eq <-> l = r.
Proof.
  revert r; induction l as [|x l IH]; intros [|y r]; cbn; try done.
  destruct (N.compare_spec x y) as [->| |]; [rewrite IH|..]; split; try congruence;
    intros [= -> ->]; lia.
Qed.

Lemma scope_compare_eq s t : scope_compare s t = Eq <-> s = t.
Proof.
  split.
  - unfold scope_compare. destruct (N.compare_spec (protocol_rank (s_protocol s))
      (protocol_rank (s_protocol t))) as [E1| |]; try done.
    destruct (ports_compare _ _) eqn:E2; try done. apply ports_compare_eq in E2.
    intros E3%N.compare_eq_iff. destruct s as [p1 l1 v1], t as [p2 l2 v2]; cbn in *.
    f_equal; [|done|].
    + destruct p1 as [[]|], p2 as [[]|]; done.
    + destruct v1, v2; cbn in E3; try lia; try done. f_equal. lia.
  - intros ->. unfold scope_compare. rewrite N.compare_refl.
    rewrite (proj2 (ports_compare_eq _ _) eq_refl). apply N.compare_refl.
Qed.

Lemma set_insert_in n l x : x ∈ set_insert n l <-> x = n \/ x ∈ l.
Proof.
  induction l as [|m l IH]; cbn; [by rewrite list_elem_of_singleton, elem_of_nil; tauto|].
  case_decide as E; [subst; rewrite elem_of_cons; tauto|].
  destruct (net_leb n m); rewrite !elem_of_cons; [tauto|rewrite IH; tauto].
Qed.

(** Network [n] is in the set of scope [s] of its own family. *)
Definition in_group (g : list (Scope * Families)) (s : Scope) (n : IpNetwork) : Prop :=
  exists f, (s, f) ∈ g /\ n ∈ (if is_ipv4 (net_ip n) then f_v4 f else f_v6 f).

Lemma families_insert_in n f x :
  (x ∈ (if is_ipv4 (net_ip x) then f_v4 (families_insert n f) else f_v6 (families_insert n f)))
  <-> x = n \/ x ∈ (if is_ipv4 (net_ip x) then f_v4 f else f_v6 f).
Proof.
  unfold families_insert.
  destruct (is_ipv4 (net_ip x)) eqn:Ex, (is_ipv4 (net_ip n)) eqn:En; cbn;
    rewrite ?set_insert_in; try done; (split; [tauto|]); intros [->|]; congruence.
Qed.

Lemma families_default_in n x :
  (x ∈ (if is_ipv4 (net_ip x) then f_v4 (families_insert n families_default)
        else f_v6 (families_insert n families_default))) <-> x = n.
Proof.
  rewrite families_insert_in. cbn. split; [intros [?|H]; [done|]|tauto].
  case_match; by apply elem_of_nil in H.
Qed.

Lemma group_insert_in scope n g s x :
  in_group (group_insert scope n g) s x <-> (s = scope /\ x = n) \/ in_group g s x.
Proof.
  unfold in_group. induction g as [|[t f] g IH]; cbn [group_insert].
  - split.
    + intros (f & [[= -> ->]|H]%elem_of_cons & Hx); [|by apply elem_of_nil in H].
      apply families_default_in in Hx. tauto.
    + intros [[-> ->]|(f & H%elem_of_nil & _)]; [|done].
      eexists. split; [left|by apply families_default_in].
  - destruct (scope_compare scope t) eqn:E.
    + apply scope_compare_eq in E as <-. setoid_rewrite elem_of_cons. split.
      * intros (f' & [[= -> ->]|H] & Hx); [|by right; exists f'; auto].
        apply families_insert_in in Hx as [->|Hx]; [by left|]. right. exists f. auto.
      * intros [[-> ->]|(f' & [[= -> ->]|H] & Hx)].
        -- eexists. split; [by left|]. apply families_insert_in. by left.
        -- eexists. split; [by left|]. apply families_insert_in. by right.
        -- exists f'. auto.
    + setoid_rewrite elem_of_cons at 1. split.
      * intros (f' & [[= -> ->]|H] & Hx); [|by right; exists f'].
        apply families_default_in in Hx. tauto.
      * intros [[-> ->]|(f' & H & Hx)]; [|by exists f'; auto].
        eexists. split; [by left|]. by apply families_default_in.
    + setoid_rewrite elem_of_cons. split.
      * intros (f' & [[= -> ->]|H] & Hx); [right; exists f; auto|].
        destruct (proj1 IH) as [?|(f2 & ? & ?)]; [by exists f'|by left|].
        right. exists f2. auto.
      * intros [H|(f' & [[= -> ->]|H] & Hx)].
        -- destruct (proj2 IH) as (f2 & ? & ?); [by left|]. exists f2. auto.
        -- exists f. auto.
        -- destruct (proj2 IH) as (f2 & ? & ?); [by right; exists f'|]. exists f2. auto.
Qed.

Lemma group_memberships_in ms s n :
  in_group (group_memberships ms) s n <-> exists m, m ∈ ms /\ m_scope m = s /\ m_network m = n.
Proof.
  unfold group_memberships.
  assert (forall g, in_group (foldl (fun g m => group_insert (m_scope m) (m_network m) g) g ms) s n
    <-> in_group g s n \/ exists m, m ∈ ms /\ m_scope m = s /\ m_network m = n) as H.
  { induction ms as [|m ms IH]; intros g; cbn [foldl].
    - split; [by left|]. intros [?|(m & H%elem_of_nil & _)]; done.
    - rewrite IH, group_insert_in. setoid_rewrite elem_of_cons. split.
      + intros [[[-> ->]|H]|(m' & ? & ?)]; [right; by exists m; auto|by left|].
        right. exists m'. auto.
      + intros [H|(m' & [->|H] & <- & <-)]; [by auto|by auto|].
        right. exists m'. auto. }
  rewrite H. split; [|by right]. intros [(f & H'%elem_of_nil & _)|?]; done.
Qed.

(** The rendered scopes mean what the memberships say. For every packet
    and verdict, a scope of the grouped ruleset (its address set for the
    packet's family and its port predicate) matches exactly when some
    membership with that scope matches, so grouping neither loses nor adds
    enforcement. *)
Theorem group_memberships_refines ms p v :
  (exists e, e ∈ group_memberships ms /\ s_verdict e.1 = v /\ entry_matches e p = true) <->
  (exists m, m ∈ ms /\ s_verdict (m_scope m) = v /\ member_matches m p = true).
Proof.
  unfold entry_matches, member_matches. split.
  - intros ([s f] & He & Hv & [Hn Hs]%andb_true_iff). cbn in *.
    apply existsb_elem in Hn as (n & Hn & Hc).
    destruct (proj1 (group_memberships_in ms s n)) as (m & Hm & <- & <-).
    { exists f. split; [done|]. by rewrite (net_contains_family _ _ Hc). }
    exists m. by rewrite Hc, Hs.
  - intros (m & Hm & Hv & [Hc Hs]%andb_true_iff).
    destruct (proj2 (group_memberships_in ms (m_scope m) (m_network m))) as (f & Hf & Hn);
      [by exists m|].
    exists (m_scope m, f). repeat split; try done. cbn. rewrite Hs, andb_true_r.
    apply existsb_elem. exists (m_network m). split; [|done].
    by rewrite <- (net_contains_family _ _ Hc).
Qed.

Lemma dedup_in l x : x ∈ dedup l <-> x ∈ l.
Proof.
  induction l as [|a l IH]; [done|]. destruct l as [|b l]; [done|].
  cbn [dedup] in *. destruct (N.eqb_spec a b) as [->|].
  - rewrite IH, !elem_of_cons. tauto.
  - rewrite (elem_of_cons (dedup (b :: l))), IH, (elem_of_cons (b :: l)). done.
Qed.

(** [Scope::new] keeps the set of ports and accepts any non-empty one, unless
    it redirects another protocol than TCP. *)
Lemma scope_new_ok protocol ports verdict s :
  scope_new protocol ports verdict = Ok s ->
  s_protocol s = Some protocol /\ s_verdict s = verdict /\ s_ports s <> [] /\
  (forall q, q ∈ s_ports s <-> q ∈ ports) /\
  (Verdict.is_redirect verdict = true -> protocol = Protocol.Tcp).
Proof.
  unfold scope_new. case_match eqn:E1; [done|]. case_match eqn:E2; [done|]. intros [= <-].
  cbn. apply bool_decide_eq_false in E1. repeat split; try done.
  - intros H. rewrite dedup_in, merge_sort_Permutation in H. done.
  - intros H. by rewrite dedup_in, merge_sort_Permutation.
  - intros Hr. rewrite Hr in E2. cbn in E2. by apply negb_false_iff, bool_decide_eq_true in E2.
Qed.

Lemma scope_new_succeeds protocol ports verdict :
  ports <> [] -> (Verdict.is_redirect verdict = true -> protocol = Protocol.Tcp) ->
  exists s, scope_new protocol ports verdict = Ok s.
Proof.
  intros Hne Hr. unfold scope_new. rewrite bool_decide_eq_false_2.
  - destruct (Verdict.is_redirect verdict); cbn; [|by eexists].
    rewrite (Hr eq_refl), bool_decide_eq_true_2 by done. by eexists.
  - intros E. destruct ports as [|q ports]; [done|].
    assert (q ∈ dedup (merge_sort N.le (q :: ports))) as Hq
      by (rewrite dedup_in, merge_sort_Permutation; left).
    rewrite E in Hq. by apply elem_of_nil in Hq.
Qed.
End FirewallFacts.

(** ** Examples *)

Section FirewallWitness.
#[local] Existing Instances cidr_api cidr_laws.

Definition scope_of (protocol : Protocol.t) (ports : list N) (v : Verdict.t) : Scope :=
  {| s_protocol := Some protocol; s_ports := ports; s_verdict := v |}.
(** 203.0.113.0/24 is redirected on ports 22 and 23; one host of it is dropped
    on port 22. *)
Definition example_redirect : Membership := {|
  m_network := {| cidr_ip := V4 3405803776; cidr_prefix := 24; cidr_ok := eq_refl |};
  m_scope := scope_of Protocol.Tcp [22; 23]%N (Verdict.Redirect 2222) |}.
Definition example_drop : Membership := {|
  m_network := {| cidr_ip := V4 3405803783; cidr_prefix := 32; cidr_ok := eq_refl |};
  m_scope := scope_of Protocol.Tcp [22]%N Verdict.Drop |}.
Definition example_members : list Membership := [example_redirect; example_drop].
Definition example_normal : list Membership :=
  from_ok (normalize_memberships example_members) ltac:(vm_refl).
Definition example_packet (port : N) : Packet :=
  {| pk_source := V4 3405803783; pk_protocol := Protocol.Tcp; pk_port := port |}.
Definition example_kept : Membership := default example_drop (example_normal !! 1%nat).

Lemma example_redirect_wf : Forall redirect_wf example_members.
Proof.
  apply Forall_forall. intros m Hm Hr.
  apply elem_of_cons in Hm as [->|[->|Hm%elem_of_nil]%elem_of_cons]; [done| |done].
  discriminate Hr.
Qed.

Lemma normalize_blocks_win_witness : member_matches example_kept (example_packet 22) = false.
Proof.
  apply (normalize_blocks_win example_members example_normal (example_packet 22) example_drop);
    [exact example_redirect_wf|vm_refl|apply (list_elem_of_lookup_2 _ 1); vm_refl|vm_refl|vm_refl
    |apply (list_elem_of_lookup_2 _ 1); vm_refl|vm_refl].
Defined.

Lemma normalize_redirect_deterministic_witness :
  member_matches example_kept (example_packet 23) = true /\
  s_verdict (m_scope example_kept) = s_verdict (m_scope example_kept).
Proof.
  split; [vm_refl|].
  apply (normalize_redirect_deterministic example_members example_normal (example_packet 23));
    [exact example_redirect_wf|vm_refl|apply (list_elem_of_lookup_2 _ 1); vm_refl
    |apply (list_elem_of_lookup_2 _ 1); vm_refl|vm_refl|vm_refl|vm_refl|vm_refl].
Defined.

Lemma group_memberships_refines_witness :
  exists e, e ∈ group_memberships example_members /\ s_verdict e.1 = Verdict.Drop /\
    entry_matches e (example_packet 22) = true.
Proof.
  apply (group_memberships_refines example_members (example_packet 22) Verdict.Drop).
  exists example_drop. split; [apply (list_elem_of_lookup_2 _ 1); vm_refl|].
  split; [vm_refl|vm_refl].
Defined.

End FirewallWitness.
