(* ===== verification/Store.v ===== *)
(** * The durable store

    [crates/bagel-runtime/src/store.rs]: source progress, offense windows and
    enforcement leases. The SQLite tables are lists of rows with the columns of
    [create_schema]; each SQL statement is the operation its text describes,
    constraint violations included. A transaction runs on a copy and replaces
    the tables when it commits. Networks are stored as the text [Display]
    gives, actions and checkpoints as the JSON text of [serde_json], whose
    encoders are parameters. Failures of the disk are not modelled: a failed
    statement ends the transaction, which leaves the tables as they were. *)

From S2P Require Import Prelude Core Ip Config.

(** ** Checkpoints of sources ([source.rs]) *)

Module Checkpoint.
Inductive t : Type :=
| Journal (cursor : string) (realtime_micros : N)
| File (device inode offset generation : N) (tail : list N)
| AddressSet (device inode modified_nanos size offset : N)
| Listener (sequence : N).
End Checkpoint.

(** The JSON text forms of the values the store keeps. *)
Class StoreCodec : Type := {
  action_to_json : Action.t -> string;
  action_from_json : string -> option Action.t;
  checkpoint_to_json : Checkpoint.t -> string;
  checkpoint_from_json : string -> option Checkpoint.t;
}.
(** Serialising and deserialising a value gives it back. *)
Class StoreCodecLaws `{!StoreCodec} : Prop := {
  action_json_round a : action_from_json (action_to_json a) = Some a;
  checkpoint_json_round c : checkpoint_from_json (checkpoint_to_json c) = Some c;
}.

(** ** Rows and tables *)

Record CheckpointRow : Type := {
  c_source : string; c_event_id : string; c_data : string; c_updated_at : Z }.

Record EventRow : Type := { e_source : string; e_event_id : string; e_observed_at : Z }.

Record OffenseRow : Type := {
  o_source : string;
  o_event_id : string;
  o_policy : string;
  o_network : string;
  o_observed_at : Z;
  o_attempt_key : option string;
  o_consumed : bool;
}.

(** [apply_state] and its CHECK constraint. *)
Inductive ApplyState : Type := Pending | Applied | Observed | Failed.
#[global] Instance apply_state_eq_dec : EqDecision ApplyState.
Proof. solve_decision. Defined.

Record LeaseRow : Type := {
  r_id : Z;
  r_network : string;
  r_policy : string;
  r_action : string;
  r_created_at : Z;
  r_expires_at : option Z;
  r_escalation_count : Z;
  r_manual : bool;
  r_revoked_at : option Z;
  r_expired_at : option Z;
  r_apply_state : ApplyState;
  r_apply_error : option string;
}.

Record Db : Type := {
  checkpoints : list CheckpointRow;
  events : list EventRow;
  offenses : list OffenseRow;
  leases : list LeaseRow;
}.

Definition empty_db : Db := {| checkpoints := []; events := []; offenses := []; leases := [] |}.
Definition set_checkpoints (db : Db) (l : list CheckpointRow) : Db :=
  {| checkpoints := l; events := events db; offenses := offenses db; leases := leases db |}.
Definition set_events (db : Db) (l : list EventRow) : Db :=
  {| checkpoints := checkpoints db; events := l; offenses := offenses db; leases := leases db |}.
Definition set_offenses (db : Db) (l : list OffenseRow) : Db :=
  {| checkpoints := checkpoints db; events := events db; offenses := l; leases := leases db |}.
Definition set_leases (db : Db) (l : list LeaseRow) : Db :=
  {| checkpoints := checkpoints db; events := events db; offenses := offenses db; leases := l |}.

Definition consume (o : OffenseRow) : OffenseRow := {|
  o_source := o_source o; o_event_id := o_event_id o; o_policy := o_policy o;
  o_network := o_network o; o_observed_at := o_observed_at o;
  o_attempt_key := o_attempt_key o; o_consumed := true |}.

Definition set_revoked (r : LeaseRow) (t : option Z) : LeaseRow := {|
  r_id := r_id r; r_network := r_network r; r_policy := r_policy r; r_action := r_action r;
  r_created_at := r_created_at r; r_expires_at := r_expires_at r;
  r_escalation_count := r_escalation_count r; r_manual := r_manual r; r_revoked_at := t;
  r_expired_at := r_expired_at r; r_apply_state := r_apply_state r;
  r_apply_error := r_apply_error r |}.
Definition set_expired (r : LeaseRow) (t : option Z) : LeaseRow := {|
  r_id := r_id r; r_network := r_network r; r_policy := r_policy r; r_action := r_action r;
  r_created_at := r_created_at r; r_expires_at := r_expires_at r;
  r_escalation_count := r_escalation_count r; r_manual := r_manual r;
  r_revoked_at := r_revoked_at r; r_expired_at := t; r_apply_state := r_apply_state r;
  r_apply_error := r_apply_error r |}.
Definition set_apply (r : LeaseRow) (s : ApplyState) (e : option string) : LeaseRow := {|
  r_id := r_id r; r_network := r_network r; r_policy := r_policy r; r_action := r_action r;
  r_created_at := r_created_at r; r_expires_at := r_expires_at r;
  r_escalation_count := r_escalation_count r; r_manual := r_manual r;
  r_revoked_at := r_revoked_at r; r_expired_at := r_expired_at r; r_apply_state := s;
  r_apply_error := e |}.

(** ** Integers at the SQLite boundary *)

(** [sql_time]: a [u64] as a SQLite INTEGER. *)
Definition sql_time (value : N) : Result Z :=
  if (value <=? i64_max)%N then Ok (Z.of_N value)
  else Err (Error.Config ("timestamp " +:+ show_N value +:+ " exceeds SQLite range")).
(** [rust_time]: a SQLite INTEGER as a [u64]. *)
Definition rust_time (value : Z) : Result N :=
  if (0 <=? value)%Z then Ok (Z.to_N value)
  else Err (Error.Config ("negative timestamp in defense database: " +:+ pretty value)).

Definition opt_sql_time (v : option N) : Result (option Z) :=
  match v with None => Ok None | Some v => t ← sql_time v; Ok (Some t) end.
Definition opt_rust_time (v : option Z) : Result (option N) :=
  match v with None => Ok None | Some v => t ← rust_time v; Ok (Some t) end.

(** ** Ban schedules *)

(** [ban_duration]; [jitter] is the random draw from [0..=jitter_secs]. *)
Definition ban_duration (schedule : BanSchedule) (count : N) (jitter : N -> N) : option N :=
  base ← duration_secs schedule;
  let duration :=
    match multipliers schedule with
    | [] => sat_mul u64_max (sat_mul u64_max base (factor schedule))
              (sat_pow u64_max 2 (count `min` u32_max))
    | ms =>
        let index := N.to_nat (count `min` (N.of_nat (length ms) - 1)) in
        sat_mul u64_max (sat_mul u64_max base (factor schedule)) (nth index ms 0%N)
    end in
  let jitter := if (jitter_secs schedule =? 0)%N then 0%N else jitter (jitter_secs schedule) in
  Some (sat_add u64_max duration jitter `min` max_duration_secs schedule)%N.

Definition MANUAL_POLICY : string := "__manual__".

Inductive ApplyOutcome : Type := OApplied | OObserved | OFailed (error : string).

Section Store.
Context {NA : IpNetworkApi} {SC : StoreCodec}.

(** A decoded lease. *)
Record Lease : Type := {
  lease_id : Z;
  lease_network : IpNetwork;
  lease_policy : string;
  lease_action : Action.t;
  lease_created_at : N;
  lease_expires_at : option N;
  lease_escalation_count : N;
  lease_manual : bool;
  lease_apply_state : ApplyState;
  lease_last_error : option string;
}.

Record OffenseInput : Type := {
  i_policy : string;
  i_network : IpNetwork;
  i_max_attempts : N;
  i_findtime_secs : N;
  i_history_retention_secs : N;
  i_ban : BanSchedule;
  i_action : Action.t;
  i_observed_at : option N;
  i_attempt_key : option string;
  i_group_key : option string;
}.

Record EventInput : Type := {
  ev_source : string;
  ev_event_id : string;
  ev_checkpoint : Checkpoint.t;
  ev_observed_at : N;
  ev_offenses : list OffenseInput;
}.

Record EventOutcome : Type := { duplicate : bool; out_leases : list Lease }.
Definition outcome_default : EventOutcome := {| duplicate := false; out_leases := [] |}.

(** ** Statements *)

(** A row that is neither revoked nor expired and whose expiry is after
    [now]: the condition the lease queries share. *)
Definition row_open (r : LeaseRow) : bool :=
  bool_decide (r_revoked_at r = None) && bool_decide (r_expired_at r = None).
Definition row_active (now : Z) (r : LeaseRow) : bool :=
  row_open r && match r_expires_at r with None => true | Some t => (now <? t)%Z end.

(** [has_active_lease]. *)
Definition has_active_lease (db : Db) (policy : string) (network : IpNetwork) (now : N) :
    Result bool :=
  now ← sql_time now;
  Ok (existsb (fun r => String.eqb (r_policy r) policy &&
                        String.eqb (r_network r) (net_show network) && row_active now r)
        (leases db)).

(** [escalation_count]. *)
Definition escalation_count (db : Db) (policy : string) (network : IpNetwork) (over : bool)
    (history_start : N) : Result N :=
  start ← sql_time history_start;
  let counted (r : LeaseRow) :=
    String.eqb (r_network r) (net_show network) && (over || String.eqb (r_policy r) policy) &&
    negb (r_manual r) && (start <=? r_created_at r)%Z in
  rust_time (Z.of_nat (length (List.filter counted (leases db)))).

(** The [offense_window!] condition. *)
Definition in_window (policy network : string) (start stop : Z) (group_key : option string)
    (o : OffenseRow) : bool :=
  String.eqb (o_policy o) policy && String.eqb (o_network o) network && negb (o_consumed o) &&
  (start <=? o_observed_at o)%Z && (o_observed_at o <=? stop)%Z &&
  match group_key with
  | None => true
  | Some g => match o_attempt_key o with Some k => String.eqb k g | None => false end
  end.

(** [COUNT_GROUPED_ATTEMPTS] and [COUNT_DISTINCT_ATTEMPTS]. *)
Definition count_grouped (rows : list OffenseRow) : Z := Z.of_nat (length rows).
Definition count_distinct (rows : list OffenseRow) : Z :=
  let keys := omap o_attempt_key rows in
  (Z.of_nat (length (remove_dups keys)) + Z.of_nat (length rows) - Z.of_nat (length keys))%Z.

(** The row identifier SQLite gives the next lease: one more than the
    largest in use. *)
Definition next_id (db : Db) : Z := (1 + foldr Z.max 0 (r_id <$> leases db))%Z.

Record NewLease : Type := {
  n_network : IpNetwork;
  n_policy : string;
  n_action : Action.t;
  n_created_at : N;
  n_expires_at : option N;
  n_escalation_count : N;
  n_manual : bool;
}.

(** [insert_lease]. *)
Definition insert_lease (db : Db) (lease : NewLease) : Result (Z * Db) :=
  created_at ← sql_time (n_created_at lease);
  expires_at ← opt_sql_time (n_expires_at lease);
  escalation ← sql_time (n_escalation_count lease);
  let id := next_id db in
  Ok (id, set_leases db (leases db ++ [{|
    r_id := id; r_network := net_show (n_network lease); r_policy := n_policy lease;
    r_action := action_to_json (n_action lease); r_created_at := created_at;
    r_expires_at := expires_at; r_escalation_count := escalation; r_manual := n_manual lease;
    r_revoked_at := None; r_expired_at := None; r_apply_state := Pending;
    r_apply_error := None |}])).

(** [upsert_checkpoint]. *)
Definition upsert_checkpoint (db : Db) (source event_id : string) (checkpoint : Checkpoint.t)
    (observed_at : N) : Result Db :=
  updated_at ← sql_time observed_at;
  let row := {| c_source := source; c_event_id := event_id;
                c_data := checkpoint_to_json checkpoint; c_updated_at := updated_at |} in
  Ok (set_checkpoints db
        (if existsb (fun c => String.eqb (c_source c) source) (checkpoints db)
         then (fun c => if String.eqb (c_source c) source then row else c) <$> checkpoints db
         else checkpoints db ++ [row])).

(** ** Events *)

(** [INSERT INTO offenses]: the primary key is (source, event, policy). *)
Definition insert_offense (db : Db) (row : OffenseRow) : Result Db :=
  if existsb (fun o => String.eqb (o_source o) (o_source row) &&
                       String.eqb (o_event_id o) (o_event_id row) &&
                       String.eqb (o_policy o) (o_policy row)) (offenses db)
  then Err (Error.Io "UNIQUE constraint failed: offenses")
  else Ok (set_offenses db (offenses db ++ [row])).

(** The [UPDATE ... SET consumed = 1] statements, by their WHERE clause. *)
Definition consume_where (p : OffenseRow -> bool) (db : Db) : Db :=
  set_offenses db ((fun o => if p o then consume o else o) <$> offenses db).

(** The random draws: an arbitrary function of the lease being created and
    of the bound. *)
Context (draw : Z -> N -> N).

(** One round of the loop over an event's offenses: the lease it creates, if
    any, and the tables after it. *)
Definition apply_offense (input : EventInput) (offense : OffenseInput) (db : Db) :
    Result (option Lease * Db) :=
  let observed_at := default (ev_observed_at input) (i_observed_at offense) in
  offense_observed_at ← sql_time observed_at;
  let network := net_show (i_network offense) in
  db ← insert_offense db {|
    o_source := ev_source input; o_event_id := ev_event_id input;
    o_policy := i_policy offense; o_network := network;
    o_observed_at := offense_observed_at;
    o_attempt_key := match i_group_key offense with
                     | Some g => Some g | None => i_attempt_key offense end;
    o_consumed := false |};
  active ← has_active_lease db (i_policy offense) (i_network offense) observed_at;
  if (active : bool) then
    Ok (None, consume_where (fun o => String.eqb (o_source o) (ev_source input) &&
                                      String.eqb (o_event_id o) (ev_event_id input) &&
                                      String.eqb (o_policy o) (i_policy offense)) db)
  else
    window_start ← sql_time (observed_at - i_findtime_secs offense)%N;
    let window := in_window (i_policy offense) network window_start offense_observed_at
                    (i_group_key offense) in
    let rows := List.filter window (offenses db) in
    attempts ← rust_time (if bool_decide (is_Some (i_group_key offense))
                          then count_grouped rows else count_distinct rows);
    if (attempts <? i_max_attempts offense)%N then Ok (None, db)
    else
      escalation ← escalation_count db (i_policy offense) (i_network offense)
        (overall (i_ban offense)) (observed_at - i_history_retention_secs offense)%N;
      let duration := ban_duration (i_ban offense) escalation (draw (next_id db)) in
      let expires_at := (fun d => sat_add u64_max observed_at d `min` i64_max)%N <$> duration in
      '(id, db) ← insert_lease db {|
        n_network := i_network offense; n_policy := i_policy offense;
        n_action := i_action offense; n_created_at := observed_at;
        n_expires_at := expires_at; n_escalation_count := escalation; n_manual := false |};
      Ok (Some {|
            lease_id := id; lease_network := i_network offense;
            lease_policy := i_policy offense; lease_action := i_action offense;
            lease_created_at := observed_at; lease_expires_at := expires_at;
            lease_escalation_count := escalation; lease_manual := false;
            lease_apply_state := Pending; lease_last_error := None |},
          consume_where window db).

Fixpoint apply_offenses (input : EventInput) (l : list OffenseInput) (db : Db) :
    Result (list Lease * Db) :=
  match l with
  | [] => Ok ([], db)
  | offense :: l =>
      '(created, db) ← apply_offense input offense db;
      '(rest, db) ← apply_offenses input l db;
      Ok (option_list created ++ rest, db)
  end.

(** [Store::apply_event], inside a transaction. *)
Definition apply_event (input : EventInput) (db : Db) : Result (EventOutcome * Db) :=
  observed_at ← sql_time (ev_observed_at input);
  if existsb (fun e => String.eqb (e_source e) (ev_source input) &&
                       String.eqb (e_event_id e) (ev_event_id input)) (events db)
  then Ok ({| duplicate := true; out_leases := [] |}, db)
  else
    let db := set_events db (events db ++ [{|
      e_source := ev_source input; e_event_id := ev_event_id input;
      e_observed_at := observed_at |}]) in
    '(created, db) ← apply_offenses input (ev_offenses input) db;
    db ← upsert_checkpoint db (ev_source input) (ev_event_id input) (ev_checkpoint input)
           (ev_observed_at input);
    Ok ({| duplicate := false; out_leases := created |}, db).

(** A transaction: commit the tables of a successful body, roll back
    otherwise. *)
Definition transaction {A} (body : Db -> Result (A * Db)) (db : Db) : Result A * Db :=
  match body db with
  | Ok (a, db') => (Ok a, db')
  | Err e => (Err e, db)
  end.

(** [Store::process_event]. *)
Definition process_event (input : EventInput) : Db -> Result EventOutcome * Db :=
  transaction (apply_event input).

(** The body of [Store::process_events]. *)
Fixpoint apply_events (inputs : list EventInput) (db : Db) :
    Result (list EventOutcome * Db) :=
  match inputs with
  | [] => Ok ([], db)
  | input :: inputs =>
      '(outcome, db) ←
        match ev_offenses input with
        | [] => db ← upsert_checkpoint db (ev_source input) (ev_event_id input)
                       (ev_checkpoint input) (ev_observed_at input);
                Ok (outcome_default, db)
        | _ => apply_event input db
        end;
      '(outcomes, db) ← apply_events inputs db;
      Ok (outcome :: outcomes, db)
  end.
Definition process_events (inputs : list EventInput) : Db -> Result (list EventOutcome) * Db :=
  transaction (apply_events inputs).

(** ** Leases *)

(** [decode_lease]. *)
Definition decode_lease (r : LeaseRow) : Result Lease :=
  network ← ok_or (Error.Network (r_network r)) (net_parse (r_network r));
  action ← ok_or (Error.Config "invalid defense database JSON") (action_from_json (r_action r));
  created_at ← rust_time (r_created_at r);
  expires_at ← opt_rust_time (r_expires_at r);
  escalation ← rust_time (r_escalation_count r);
  Ok {| lease_id := r_id r; lease_network := network; lease_policy := r_policy r;
        lease_action := action; lease_created_at := created_at;
        lease_expires_at := expires_at; lease_escalation_count := escalation;
        lease_manual := r_manual r; lease_apply_state := r_apply_state r;
        lease_last_error := r_apply_error r |}.

(** Rows in the order of their identifiers, [ORDER BY id]. *)
Definition id_le (r s : LeaseRow) : Prop := (r_id r <= r_id s)%Z.
#[global] Instance id_le_dec r s : Decision (id_le r s).
Proof. unfold id_le. apply _. Defined.

(** [Store::active_leases]. *)
Definition active_leases (now : N) (db : Db) : Result (list Lease) :=
  now ← sql_time now;
  traverse decode_lease (merge_sort id_le (List.filter (row_active now) (leases db))).

(** [UPDATE leases SET ... WHERE p]: the rows changed and the tables. *)
Definition update_leases (p : LeaseRow -> bool) (f : LeaseRow -> LeaseRow) (db : Db) : N * Db :=
  (N.of_nat (length (List.filter p (leases db))),
   set_leases db ((fun r => if p r then f r else r) <$> leases db)).

(** [Store::expire]. *)
Definition expire (now : N) (db : Db) : Result N * Db :=
  match sql_time now with
  | Err e => (Err e, db)
  | Ok now =>
      let '(n, db) := update_leases
        (fun r => row_open r && match r_expires_at r with
                                | Some t => (t <=? now)%Z | None => false end)
        (fun r => set_expired r (Some now)) db in
      (Ok n, db)
  end.

(** [Store::prune_offenses]. *)
Definition prune_offenses (before : N) : Db -> Result N * Db :=
  transaction (fun db =>
    before ← sql_time before;
    let old (o : OffenseRow) := (o_observed_at o <? before)%Z in
    let removed := length (List.filter old (offenses db)) in
    let db := set_offenses db (List.filter (fun o => negb (old o)) (offenses db)) in
    let used (e : EventRow) :=
      existsb (fun o => String.eqb (o_source o) (e_source e) &&
                        String.eqb (o_event_id o) (e_event_id e)) (offenses db) in
    Ok (N.of_nat removed, set_events db (List.filter used (events db)))).

(** [Store::prune_leases]. *)
Definition prune_leases (before now : N) (db : Db) : Result N * Db :=
  match before ← sql_time before; now ← sql_time now; Ok (before, now) with
  | Err e => (Err e, db)
  | Ok (before, now) =>
      let dead (r : LeaseRow) :=
        (r_created_at r <? before)%Z &&
        (bool_decide (is_Some (r_revoked_at r)) || bool_decide (is_Some (r_expired_at r)) ||
         match r_expires_at r with Some t => (t <=? now)%Z | None => false end) in
      (Ok (N.of_nat (length (List.filter dead (leases db)))),
       set_leases db (List.filter (fun r => negb (dead r)) (leases db)))
  end.

(** [Store::begin_reconcile]. *)
Definition begin_reconcile (now : N) (db : Db) : Result N * Db :=
  match sql_time now with
  | Err e => (Err e, db)
  | Ok now =>
      let '(n, db) := update_leases (row_active now) (fun r => set_apply r Pending None) db in
      (Ok n, db)
  end.

(** [Store::manual_block]. *)
Definition manual_block (network : IpNetwork) (action : Action.t) (now : N)
    (duration : option N) : Db -> Result Lease * Db :=
  transaction (fun db =>
    at_ ← sql_time now;
    let '(_, db) := update_leases
      (fun r => r_manual r && String.eqb (r_network r) (net_show network) && row_open r)
      (fun r => set_revoked r (Some at_)) db in
    let expires_at := sat_add u64_max now <$> duration in
    '(id, db) ← insert_lease db {|
      n_network := network; n_policy := MANUAL_POLICY; n_action := action;
      n_created_at := now; n_expires_at := expires_at; n_escalation_count := 0;
      n_manual := true |};
    Ok ({| lease_id := id; lease_network := network; lease_policy := MANUAL_POLICY;
           lease_action := action; lease_created_at := now; lease_expires_at := expires_at;
           lease_escalation_count := 0; lease_manual := true;
           lease_apply_state := Pending; lease_last_error := None |}, db)).

(** [Store::manual_unblock]. *)
Definition manual_unblock (network : IpNetwork) (now : N) (db : Db) : Result N * Db :=
  match sql_time now with
  | Err e => (Err e, db)
  | Ok now =>
      let '(n, db) := update_leases
        (fun r => String.eqb (r_network r) (net_show network) && row_active now r)
        (fun r => set_revoked r (Some now)) db in
      (Ok n, db)
  end.

(** [Store::mark_apply_results]. *)
Definition outcome_state (o : ApplyOutcome) : ApplyState * option string :=
  match o with
  | OApplied => (Applied, None)
  | OObserved => (Observed, None)
  | OFailed error => (Failed, Some error)
  end.
Fixpoint mark_results (outcomes : list (Z * ApplyOutcome)) (db : Db) : Result (unit * Db) :=
  match outcomes with
  | [] => Ok (tt, db)
  | (lease, outcome) :: outcomes =>
      let '(state, error) := outcome_state outcome in
      let '(changed, db) := update_leases (fun r => (r_id r =? lease)%Z)
                              (fun r => set_apply r state error) db in
      fail_if (changed =? 0)%N ("unknown defense lease " +:+ pretty lease) ;;
      mark_results outcomes db
  end.
Definition mark_apply_results (outcomes : list (Z * ApplyOutcome)) : Db -> Result unit * Db :=
  transaction (mark_results outcomes).

(** ** Source progress *)

(** [Store::checkpoint]. *)
Definition checkpoint (source : string) (db : Db) : Result (option Checkpoint.t) :=
  match list_find_bool (fun c => String.eqb (c_source c) source) (checkpoints db) with
  | None => Ok None
  | Some c => Some <$> ok_or (Error.Config "invalid defense database JSON")
                         (checkpoint_from_json (c_data c))
  end.

(** [Store::last_listener_sequence]: the rows the [LIKE] pattern selects are
    filtered again by [strip_prefix], so the prefix test decides. *)
Definition listener_prefix (source : string) : string := "listener:" +:+ source +:+ ":".
Definition event_sequence (source event_id : string) : option N :=
  rest ← strip_prefix (listener_prefix source) event_id; parse_unsigned u64_max rest.
Definition last_listener_sequence (source : string) (db : Db) : N :=
  foldl (fun newest e =>
    if String.eqb (e_source e) source then
      match event_sequence source (e_event_id e) with
      | Some sequence => newest `max` sequence
      | None => newest
      end
    else newest)%N 0%N (events db).
End Store.
