(* ===== verification/StoreFacts.v ===== *)
(** * Theorems on the durable store

    The integrity invariant of the tables and its preservation by every
    operation; what one event does to the offense window and the leases;
    escalation; replay; decoding. *)

From S2P Require Import Prelude Core Ip Config Validation Store.

(** ** Integer conversions *)

Lemma sql_time_ok v t : sql_time v = Ok t <-> (v <= i64_max)%N /\ t = Z.of_N v.
Proof.
  unfold sql_time. destruct (N.leb_spec v i64_max); split.
  - by intros [= <-].
  - by intros [_ ->].
  - done.
  - intros []; lia.
Qed.

Lemma rust_time_ok t v : rust_time t = Ok v <-> (0 <= t)%Z /\ v = Z.to_N t.
Proof.
  unfold rust_time. destruct (Z.leb_spec 0 t); split.
  - by intros [= <-].
  - by intros [_ ->].
  - done.
  - intros []; lia.
Qed.

Lemma rust_sql_time v : rust_time (Z.of_N v) = Ok v.
Proof. apply rust_time_ok. split; [lia|]. by rewrite N2Z.id. Qed.

Lemma rust_count n : rust_time (Z.of_nat n) = Ok (N.of_nat n).
Proof. apply rust_time_ok. split; lia. Qed.

(** The two-step conversion of an optional time. *)
Lemma opt_time_round v t : opt_sql_time v = Ok t -> opt_rust_time t = Ok v.
Proof.
  destruct v as [v|]; cbn; [|by intros [= <-]].
  intros H. inv_result. apply sql_time_ok in Ha as [_ ->]. cbn. by rewrite rust_sql_time.
Qed.

Lemma count_distinct_nonneg rows : (0 <= count_distinct rows)%Z.
Proof.
  unfold count_distinct.
  assert (length (omap o_attempt_key rows) <= length rows)%nat; [|lia].
  induction rows as [|o rows IH]; cbn; [lia|]. destruct (o_attempt_key o); cbn; lia.
Qed.

Definition event_key (e : EventRow) : string * string := (e_source e, e_event_id e).
Definition offense_key (o : OffenseRow) : string * string * string :=
  (o_source o, o_event_id o, o_policy o).

Section StoreFacts.
Context {NA : IpNetworkApi} {NL : IpNetworkLaws} {SC : StoreCodec} {SL : StoreCodecLaws}.
Context (draw : Z -> N -> N).

(** ** The invariant *)

(** A stored lease can be read back: identifiers are positive, every column
    decodes, and the network is in its canonical text form. *)
Definition lease_row_wf (r : LeaseRow) : Prop :=
  (0 < r_id r)%Z /\
  exists l, decode_lease r = Ok l /\ r_network r = net_show (lease_network l).

(** Primary keys are unique, every offense belongs to a stored event, and
    every checkpoint and lease decodes. *)
Record store_wf (db : Db) : Prop := {
  wf_checkpoints : NoDup (c_source <$> checkpoints db);
  wf_progress : Forall (fun c => exists k, checkpoint_from_json (c_data c) = Some k)
                  (checkpoints db);
  wf_events : NoDup (event_key <$> events db);
  wf_offenses : NoDup (offense_key <$> offenses db);
  wf_foreign : forall o, o ∈ offenses db -> (o_source o, o_event_id o) ∈ (event_key <$> events db);
  wf_lease_ids : NoDup (r_id <$> leases db);
  wf_leases : Forall lease_row_wf (leases db);
}.

Lemma store_wf_empty : store_wf empty_db.
Proof. split; try constructor. intros o H. by apply elem_of_nil in H. Qed.

Lemma NoDup_snoc {A} (l : list A) x : NoDup l -> x ∉ l -> NoDup (l ++ [x]).
Proof.
  intros Hl Hx. apply NoDup_app. repeat split; [done| |apply NoDup_singleton].
  intros y Hy ->%list_elem_of_singleton. done.
Qed.

Lemma map_key_update {A B} (k : A -> B) (p : A -> bool) (f : A -> A) (l : list A) :
  (forall a, k (f a) = k a) -> k <$> ((fun a => if p a then f a else a) <$> l) = k <$> l.
Proof.
  intros Hk. rewrite <- list_fmap_compose. apply list_fmap_ext.
  intros i a _. cbn. by destruct (p a).
Qed.

Lemma fmap_filter_sublist {A B} (k : A -> B) p (l : list A) :
  k <$> List.filter p l `sublist_of` k <$> l.
Proof.
  induction l as [|a l IH]; cbn; [constructor|]. destruct (p a); cbn; by constructor.
Qed.

Lemma NoDup_filter_key {A B} (k : A -> B) p (l : list A) :
  NoDup (k <$> l) -> NoDup (k <$> List.filter p l).
Proof. intros H. by eapply sublist_NoDup, fmap_filter_sublist. Qed.

Lemma elem_filter {A} (p : A -> bool) l x : x ∈ List.filter p l <-> x ∈ l /\ p x = true.
Proof. rewrite !list_elem_of_In, filter_In. done. Qed.

Lemma next_id_fresh db r : r ∈ leases db -> (r_id r < next_id db)%Z.
Proof.
  unfold next_id. induction (leases db) as [|s l IH]; cbn; [by intros ?%elem_of_nil|].
  intros [->|H]%elem_of_cons; [lia|]. specialize (IH H). lia.
Qed.

Lemma next_id_pos db : (0 < next_id db)%Z.
Proof. unfold next_id. induction (leases db); cbn in *; lia. Qed.

(** ** Tables a statement leaves alone *)

Lemma consume_where_wf p db : store_wf db -> store_wf (consume_where p db).
Proof.
  intros []. split; cbn; try done.
  - by rewrite map_key_update.
  - intros o (o' & -> & Ho')%list_elem_of_fmap. specialize (wf_foreign0 o' Ho').
    by destruct (p o').
Qed.

Lemma update_leases_wf p f db :
  (forall r, r_id (f r) = r_id r) -> (forall r, lease_row_wf r -> lease_row_wf (f r)) ->
  store_wf db -> store_wf (update_leases p f db).2.
Proof.
  intros Hid Hf []. split; cbn; try done.
  - by rewrite map_key_update.
  - apply Forall_fmap. eapply Forall_impl; [done|]. intros r Hr. cbn. destruct (p r); auto.
Qed.

(** The columns [decode_lease] may fail on. *)
Lemma lease_row_wf_update r s :
  r_id s = r_id r -> r_network s = r_network r -> r_action s = r_action r ->
  r_created_at s = r_created_at r -> r_expires_at s = r_expires_at r ->
  r_escalation_count s = r_escalation_count r -> lease_row_wf r -> lease_row_wf s.
Proof.
  intros Hi Hn Ha Hc He Hes [Hid (l & Hl & Hw)]. split; [by rewrite Hi|].
  unfold decode_lease in *. rewrite Hn, Ha, Hc, He, Hes. inv_result.
  rewrite Ha0, Ha1, Ha2, Ha3, Ha4. by eexists.
Qed.

Lemma set_revoked_wf t r : lease_row_wf r -> lease_row_wf (set_revoked r t).
Proof. by apply lease_row_wf_update. Qed.
Lemma set_expired_wf t r : lease_row_wf r -> lease_row_wf (set_expired r t).
Proof. by apply lease_row_wf_update. Qed.
Lemma set_apply_wf s e r : lease_row_wf r -> lease_row_wf (set_apply r s e).
Proof. by apply lease_row_wf_update. Qed.

(** The lease a row inserted by [insert_lease] decodes to. *)
Definition lease_of (id : Z) (n : NewLease) : Lease := {|
  lease_id := id; lease_network := n_network n; lease_policy := n_policy n;
  lease_action := n_action n; lease_created_at := n_created_at n;
  lease_expires_at := n_expires_at n; lease_escalation_count := n_escalation_count n;
  lease_manual := n_manual n; lease_apply_state := Pending; lease_last_error := None |}.

Lemma insert_lease_inv db n id db' :
  insert_lease db n = Ok (id, db') ->
  exists row, db' = set_leases db (leases db ++ [row]) /\ id = next_id db /\ r_id row = id /\
    decode_lease row = Ok (lease_of id n) /\ r_network row = net_show (n_network n) /\
    r_policy row = n_policy n /\ r_manual row = n_manual n /\
    r_created_at row = Z.of_N (n_created_at n) /\ r_revoked_at row = None /\
    r_expired_at row = None /\ r_expires_at row = Z.of_N <$> n_expires_at n.
Proof.
  unfold insert_lease. intros H. inv_result.
  eexists. split; [done|]. cbn. repeat split; try done.
  - unfold decode_lease; cbn. rewrite net_show_parse, action_json_round. cbn.
    apply sql_time_ok in Ha as [_ ->]. rewrite rust_sql_time. cbn.
    rewrite (opt_time_round _ _ Ha0). cbn.
    apply sql_time_ok in Ha1 as [_ ->]. rewrite rust_sql_time. done.
  - by apply sql_time_ok in Ha as [_ ->].
  - destruct (n_expires_at n); cbn in Ha0; inv_result; [|done].
    by apply sql_time_ok in Ha2 as [_ ->].
Qed.

Lemma insert_lease_wf db n id db' :
  store_wf db -> insert_lease db n = Ok (id, db') -> store_wf db'.
Proof.
  intros [] H. apply insert_lease_inv in H as (row & -> & -> & Hid & Hd & Hnet & _).
  split; cbn; try done.
  - rewrite fmap_app. apply NoDup_snoc; [done|]. cbn. rewrite Hid.
    intros (r & E & Hr)%list_elem_of_fmap. apply next_id_fresh in Hr. lia.
  - apply Forall_app. split; [done|]. apply Forall_singleton. split; [|by eexists].
    rewrite Hid. apply next_id_pos.
Qed.

Lemma upsert_checkpoint_wf db s id c t db' :
  store_wf db -> upsert_checkpoint db s id c t = Ok db' -> store_wf db'.
Proof.
  intros [] H. unfold upsert_checkpoint in H. inv_result. split; cbn; try done.
  2: { destruct (existsb _ _).
    - apply Forall_fmap. eapply Forall_impl; [done|]. intros x Hx. cbn.
      destruct (String.eqb _ _); [|done]. cbn. rewrite checkpoint_json_round. by eexists.
    - apply Forall_app. split; [done|]. apply Forall_singleton. cbn.
      rewrite checkpoint_json_round. by eexists. }
  destruct (existsb _ _) eqn:E.
  - rewrite <- list_fmap_compose.
    erewrite list_fmap_ext; [exact wf_checkpoints0|]. intros i x _. cbn.
    destruct (String.eqb_spec (c_source x) s) as [<-|]; done.
  - rewrite fmap_app. apply NoDup_snoc; [done|]. cbn.
    intros (x & -> & Hx)%list_elem_of_fmap. rewrite existsb_false in E.
    specialize (E x Hx). by rewrite String.eqb_refl in E.
Qed.

(** ** Events preserve the invariant *)

Lemma insert_offense_wf db row db' :
  store_wf db -> (o_source row, o_event_id row) ∈ (event_key <$> events db) ->
  insert_offense db row = Ok db' -> store_wf db' /\ events db' = events db.
Proof.
  intros [] Hf. unfold insert_offense. destruct (existsb _ _) eqn:E; [done|]. intros [= <-].
  split; [|done]. split; cbn; try done.
  - rewrite fmap_app. apply NoDup_snoc; [done|]. cbn.
    intros (o & Ho & Hin)%list_elem_of_fmap. rewrite existsb_false in E.
    specialize (E o Hin). unfold offense_key in Ho. injection Ho as E1 E2 E3.
    by rewrite E1, E2, E3, !String.eqb_refl in E.
  - intros o [Ho|Ho]%elem_of_app; [by apply wf_foreign0|].
    apply list_elem_of_singleton in Ho. by subst.
Qed.

Lemma apply_offense_wf input offense db l db' :
  store_wf db -> (ev_source input, ev_event_id input) ∈ (event_key <$> events db) ->
  apply_offense draw input offense db = Ok (l, db') ->
  store_wf db' /\ events db' = events db.
Proof.
  intros Hwf Hev H. unfold apply_offense in H. inv_result.
  apply insert_offense_wf in Ha0 as [Hwf' He]; [|done|done].
  destruct a1; inv_result; [auto using consume_where_wf|].
  case_match; inv_result; [by auto|].
  match type of H with (let '(_, _) := ?p in _) = _ => destruct p as [id db2] end.
  inv_result.
  match goal with Hi : insert_lease _ _ = _ |- _ => rename Hi into Hins end.
  pose proof (insert_lease_inv _ _ _ _ Hins) as (row & Hdb & _).
  split; [by eapply consume_where_wf, insert_lease_wf|]. cbn. by rewrite Hdb.
Qed.

Lemma apply_offenses_wf input l db out db' :
  store_wf db -> (ev_source input, ev_event_id input) ∈ (event_key <$> events db) ->
  apply_offenses draw input l db = Ok (out, db') -> store_wf db' /\ events db' = events db.
Proof.
  revert db out; induction l as [|o l IH]; intros db out Hwf Hev; cbn.
  { by intros [= <- <-]. }
  intros H. inv_result. destruct a as [c db1]. inv_result. destruct a as [rest db2].
  inv_result. apply apply_offense_wf in Ha as [Hwf1 He1]; [|done|done].
  destruct (IH db1 rest Hwf1) as [? He2]; [by rewrite He1|done|]. by rewrite He2.
Qed.

Lemma apply_event_wf input db out db' :
  store_wf db -> apply_event draw input db = Ok (out, db') -> store_wf db'.
Proof.
  intros Hwf H. unfold apply_event in H. inv_result. destruct (existsb _ _) eqn:E.
  { by inv_result. }
  inv_result. destruct a0 as [created db1]. inv_result.
  eapply upsert_checkpoint_wf; [|exact Ha1].
  eapply (apply_offenses_wf _ _ _ _ _ _ _ Ha0).
  Unshelve.
  - destruct Hwf. split; cbn; try done.
    + rewrite fmap_app. apply NoDup_snoc; [done|]. cbn.
      intros (e & He & Hin)%list_elem_of_fmap. rewrite existsb_false in E.
      specialize (E e Hin). unfold event_key in He. injection He as E1 E2.
      by rewrite E1, E2, !String.eqb_refl in E.
    + intros o Ho. rewrite fmap_app, elem_of_app. left. by apply wf_foreign0.
  - cbn. rewrite fmap_app, elem_of_app. right. left.
Qed.

Lemma apply_events_wf inputs db outs db' :
  store_wf db -> apply_events draw inputs db = Ok (outs, db') -> store_wf db'.
Proof.
  revert db outs; induction inputs as [|i inputs IH]; intros db outs Hwf; cbn.
  { by intros [= <- <-]. }
  intros H. inv_result. destruct a as [o db1]. inv_result. destruct a as [os db2].
  inv_result. eapply IH; [|exact Ha0].
  destruct (ev_offenses i).
  - inv_result. by eapply upsert_checkpoint_wf.
  - by eapply apply_event_wf.
Qed.

Lemma transaction_wf {A} (body : Db -> Result (A * Db)) db :
  (forall a db', body db = Ok (a, db') -> store_wf db') -> store_wf db ->
  store_wf (transaction body db).2.
Proof.
  intros Hb Hwf. unfold transaction. destruct (body db) as [[a db']|e] eqn:E; [|done].
  by eapply Hb.
Qed.

(** Reading a source's progress cannot fail on sound tables. *)
Lemma checkpoint_total db s : store_wf db -> exists c, checkpoint s db = Ok c.
Proof.
  intros Hwf. unfold checkpoint. destruct (list_find_bool _ _) as [c|] eqn:E; [|by eexists].
  apply list_find_bool_some in E as [Hc _]. pose proof (wf_progress _ Hwf) as Hp.
  rewrite Forall_forall in Hp. destruct (Hp c Hc) as [k ->]. by eexists.
Qed.
End StoreFacts.
