(* ===== verification/StoreSpec.v ===== *)
(** * What the durable store promises

    Reachable tables satisfy the invariant of [StoreFacts]; what an event does
    to the offense window and to the leases; replay, pruning and housekeeping;
    manual blocks; the escalating ban schedule. *)

From Stdlib Require Import Sorting.Sorted.
From S2P Require Import Prelude Core Ip Config Validation Store StoreFacts.

(** ** The ban schedule *)

Definition nondecreasing (l : list N) : Prop :=
  forall i j : nat, (i <= j < length l)%nat -> (nth i l 0 <= nth j l 0)%N.

(** A schedule whose durations, factor and multipliers are not zero. *)
Definition schedule_ok (s : BanSchedule) : Prop :=
  (match duration_secs s with Some d => d <> 0 | None => True end)%N /\
  (factor s <> 0)%N /\ Forall (fun m => m <> 0)%N (multipliers s) /\ (max_duration_secs s <> 0)%N.

Lemma validate_ban_schedule_ok policy s :
  validate_ban_schedule policy s = Ok tt <-> schedule_ok s.
Proof.
  unfold validate_ban_schedule, schedule_ok. rewrite fail_if_ok, !orb_false_iff.
  rewrite !N.eqb_neq, existsb_false, Forall_forall.
  assert (Hm : (forall x, x ∈ multipliers s -> N.eqb 0 x = false) <->
               (forall x, x ∈ multipliers s -> x <> 0%N)).
  { split; intros H x Hx; specialize (H x Hx); [apply N.eqb_neq in H|apply N.eqb_neq]; congruence. }
  rewrite Hm. destruct (duration_secs s); rewrite ?N.eqb_neq; tauto.
Qed.

(** The length of the ban before jitter. *)
Definition base_duration (s : BanSchedule) (base count : N) : N :=
  match multipliers s with
  | [] => sat_mul u64_max (sat_mul u64_max base (factor s))
            (sat_pow u64_max 2 (count `min` u32_max))
  | ms => sat_mul u64_max (sat_mul u64_max base (factor s))
            (nth (N.to_nat (count `min` (N.of_nat (length ms) - 1))) ms 0%N)
  end.

Lemma base_duration_mono s base c d :
  nondecreasing (multipliers s) -> (c <= d)%N ->
  (base_duration s base c <= base_duration s base d)%N.
Proof.
  intros Hm Hcd. unfold base_duration. destruct (multipliers s) as [|m ms].
  - apply sat_mul_mono, sat_pow_mono; lia.
  - apply sat_mul_mono, Hm. cbn [length]. lia.
Qed.

Lemma sat_mul_pos a b : (a <> 0 -> b <> 0 -> sat_mul u64_max a b <> 0)%N.
Proof. unfold sat_mul, u64_max. nia. Qed.

Lemma base_duration_pos s base c : schedule_ok s -> base <> 0%N -> base_duration s base c <> 0%N.
Proof.
  intros (_ & Hf & Hm & _) Hb. unfold base_duration.
  destruct (multipliers s) as [|m ms]; (apply sat_mul_pos; [by apply sat_mul_pos|]).
  - unfold sat_pow, u64_max. pose proof (N.pow_nonzero 2 (c `min` u32_max)). lia.
  - rewrite Forall_forall in Hm. apply Hm, list_elem_of_In, nth_In. cbn [length]. lia.
Qed.

Lemma ban_duration_some s base c j :
  duration_secs s = Some base ->
  ban_duration s c j = Some (sat_add u64_max (base_duration s base c)
    (if (jitter_secs s =? 0)%N then 0%N else j (jitter_secs s)) `min` max_duration_secs s)%N.
Proof. intros H. unfold ban_duration, base_duration. rewrite H. cbn. by destruct (multipliers s). Qed.

(** A validated schedule gives every automatic ban a positive length that
    never exceeds the configured maximum, whatever the jitter draws; only a
    schedule without a duration bans for ever. *)
Theorem ban_duration_bounds policy s count j :
  validate_ban_schedule policy s = Ok tt ->
  match ban_duration s count j with
  | None => duration_secs s = None
  | Some d => (1 <= d <= max_duration_secs s)%N
  end.
Proof.
  intros Hok%validate_ban_schedule_ok. destruct (duration_secs s) as [base|] eqn:Hb.
  - rewrite (ban_duration_some _ _ _ _ Hb).
    pose proof Hok as (Hbase & _ & _ & Hmax). rewrite Hb in Hbase.
    pose proof (base_duration_pos s base count Hok Hbase). unfold sat_add, u64_max. lia.
  - unfold ban_duration. by rewrite Hb.
Qed.

(** Escalation: with a schedule whose multipliers do not decrease (or
    with the doubling rule) and no jitter, a network with more leases on record is
    never banned for a shorter time. *)
Lemma ban_duration_escalates s c d j1 j2 t1 t2 :
  jitter_secs s = 0%N -> nondecreasing (multipliers s) -> (c <= d)%N ->
  ban_duration s c j1 = Some t1 -> ban_duration s d j2 = Some t2 -> (t1 <= t2)%N.
Proof.
  intros Hj Hm Hcd H1 H2. destruct (duration_secs s) as [base|] eqn:Hb.
  - rewrite (ban_duration_some _ _ _ _ Hb), Hj in H1.
    rewrite (ban_duration_some _ _ _ _ Hb), Hj in H2. simplify_eq/=.
    pose proof (base_duration_mono s base c d Hm Hcd). unfold sat_add. lia.
  - unfold ban_duration in H1. by rewrite Hb in H1.
Qed.

(** The default schedule without its jitter. *)
Definition steady_schedule : BanSchedule := {|
  duration_secs := Some 600%N; factor := 4; multipliers := multipliers default_ban_schedule;
  jitter_secs := 0; max_duration_secs := 18000000; overall := true |}.

Lemma default_multipliers_nondecreasing : nondecreasing (multipliers default_ban_schedule).
Proof.
  intros i j Hij. cbn in Hij.
  do 10 (destruct i; [do 10 (destruct j; [cbn; lia|]); lia|]). lia.
Qed.

Lemma ban_duration_bounds_witness :
  match ban_duration default_ban_schedule 3 (fun _ => 7%N) with
  | None => duration_secs default_ban_schedule = None
  | Some d => (1 <= d <= max_duration_secs default_ban_schedule)%N
  end.
Proof. apply (ban_duration_bounds "ssh"). vm_compute. reflexivity. Defined.

(** ** A concrete codec

    Any injective text encoding satisfies what the store asks of JSON; this one
    writes the number [Countable] gives the value in binary, and shows that the codec
    hypotheses below can hold. *)
Module TextCodec.
#[global] Instance protocol_countable : Countable TransportProtocol.
Proof.
  refine (inj_countable' (fun p => match p with Tcp => true | Udp => false end)
            (fun b : bool => if b then Tcp else Udp) _).
  by intros [].
Defined.

Definition action_tag (a : Action.t) : N * bool * list N * string :=
  let udp p := match p with Tcp => false | Udp => true end in
  match a with
  | Action.Observe => (0, false, [], "")
  | Action.Drop p ports => (1, udp p, ports, "")
  | Action.DropProtocol p => (2, udp p, [], "")
  | Action.DropAll => (3, false, [], "")
  | Action.Reject p ports => (4, udp p, ports, "")
  | Action.RejectProtocol p => (5, udp p, [], "")
  | Action.RejectAll => (6, false, [], "")
  | Action.TarpitRedirect p ports l => (7, udp p, ports, l)
  end%N.
Definition tag_action (t : N * bool * list N * string) : Action.t :=
  let '(n, u, ports, l) := t in
  let p := if u : bool then Udp else Tcp in
  match n with
  | 0 => Action.Observe
  | 1 => Action.Drop p ports
  | 2 => Action.DropProtocol p
  | 3 => Action.DropAll
  | 4 => Action.Reject p ports
  | 5 => Action.RejectProtocol p
  | 6 => Action.RejectAll
  | _ => Action.TarpitRedirect p ports l
  end%N.
#[global] Instance action_countable : Countable Action.t.
Proof. refine (inj_countable' action_tag tag_action _). by intros [|[]|[]| |[]|[]| |[]]. Defined.

Definition checkpoint_tag (c : Checkpoint.t) : N * string * list N * list N :=
  match c with
  | Checkpoint.Journal cursor t => (0, cursor, [t], [])
  | Checkpoint.File d i o g tail => (1, "", [d; i; o; g], tail)
  | Checkpoint.AddressSet d i m s o => (2, "", [d; i; m; s; o], [])
  | Checkpoint.Listener n => (3, "", [n], [])
  end%N.
Definition tag_checkpoint (t : N * string * list N * list N) : option Checkpoint.t :=
  match t with
  | (0, cursor, [t], _) => Some (Checkpoint.Journal cursor t)
  | (1, _, [d; i; o; g], tail) => Some (Checkpoint.File d i o g tail)
  | (2, _, [d; i; m; s; o], _) => Some (Checkpoint.AddressSet d i m s o)
  | (3, _, [n], _) => Some (Checkpoint.Listener n)
  | _ => None
  end%N.
#[global] Instance checkpoint_eq_dec : EqDecision Checkpoint.t.
Proof. solve_decision. Defined.
#[global] Instance checkpoint_countable : Countable Checkpoint.t.
Proof. refine (inj_countable checkpoint_tag tag_checkpoint _). by intros []. Defined.

(** The binary digits of a positive number, least significant first. *)
Fixpoint pos_text (p : positive) : string :=
  match p with
  | xH => "" | xO p => String "0" (pos_text p) | xI p => String "1" (pos_text p) end.
Fixpoint text_pos (s : string) : positive :=
  match s with
  | EmptyString => xH
  | String c s => if char_eqb c "1" then xI (text_pos s) else xO (text_pos s)
  end.
Lemma text_pos_text p : text_pos (pos_text p) = p.
Proof. induction p; cbn; congruence. Qed.

Definition to_text `{Countable A} (a : A) : string := pos_text (encode a).
Definition from_text `{Countable A} (s : string) : option A := decode (text_pos s).
Lemma text_round `{Countable A} (a : A) : from_text (to_text a) = Some a.
Proof. unfold from_text, to_text. by rewrite text_pos_text, decode_encode. Qed.

Definition codec : StoreCodec := {|
  action_to_json := to_text; action_from_json := from_text;
  checkpoint_to_json := to_text; checkpoint_from_json := from_text |}.
Lemma codec_laws : @StoreCodecLaws codec.
Proof. split; apply @text_round. Qed.
End TextCodec.

(** ** Reachable tables *)

Section Steps.
Context {NA : IpNetworkApi} {SC : StoreCodec}.

(** One call of the store's interface that may write, whether it succeeds or
    fails. *)
Inductive store_step : Db -> Db -> Prop :=
| Step_process_event draw input db : store_step db (process_event draw input db).2
| Step_process_events draw inputs db : store_step db (process_events draw inputs db).2
| Step_expire now db : store_step db (expire now db).2
| Step_prune_offenses before db : store_step db (prune_offenses before db).2
| Step_prune_leases before now db : store_step db (prune_leases before now db).2
| Step_begin_reconcile now db : store_step db (begin_reconcile now db).2
| Step_manual_block network action now duration db :
    store_step db (manual_block network action now duration db).2
| Step_manual_unblock network now db : store_step db (manual_unblock network now db).2
| Step_mark_apply_results outcomes db : store_step db (mark_apply_results outcomes db).2.

Definition store_reachable : Db -> Prop := rtc store_step empty_db.
End Steps.

Section Reachable.
Context {NA : IpNetworkApi} {NL : IpNetworkLaws} {SC : StoreCodec} {SL : StoreCodecLaws}.

Lemma expire_wf now db : store_wf db -> store_wf (expire now db).2.
Proof.
  intros H. unfold expire. destruct (sql_time now); [|done].
  by apply update_leases_wf; [|apply set_expired_wf|].
Qed.

Lemma begin_reconcile_wf now db : store_wf db -> store_wf (begin_reconcile now db).2.
Proof.
  intros H. unfold begin_reconcile. destruct (sql_time now); [|done].
  by apply update_leases_wf; [|apply set_apply_wf|].
Qed.

Lemma manual_unblock_wf n now db : store_wf db -> store_wf (manual_unblock n now db).2.
Proof.
  intros H. unfold manual_unblock. destruct (sql_time now); [|done].
  by apply update_leases_wf; [|apply set_revoked_wf|].
Qed.

Lemma prune_leases_wf b now db : store_wf db -> store_wf (prune_leases b now db).2.
Proof.
  intros H. unfold prune_leases. destruct (_ ≫= _) as [[t1 t2]|]; [|done].
  destruct H. split; cbn; try done.
  - by apply NoDup_filter_key.
  - apply Forall_forall. intros r [Hr _]%elem_filter. by eapply Forall_forall in wf_leases.
Qed.

Lemma prune_offenses_wf b db : store_wf db -> store_wf (prune_offenses b db).2.
Proof.
  intros H. unfold prune_offenses. apply transaction_wf; [|done].
  intros a db' Hp. inv_result. destruct H. split; cbn; try done.
  - by apply NoDup_filter_key.
  - by apply NoDup_filter_key.
  - intros o Ho. pose proof Ho as [Hin _]%elem_filter.
    apply wf_foreign, list_elem_of_fmap in Hin as (e & Hk & He). apply list_elem_of_fmap.
    exists e. split; [done|]. apply elem_filter. split; [done|].
    apply existsb_elem. exists o. split; [done|]. unfold event_key in Hk. simplify_eq.
    by rewrite H, H0, !String.eqb_refl.
Qed.

Lemma manual_block_wf n a now d db : store_wf db -> store_wf (manual_block n a now d db).2.
Proof.
  intros H. unfold manual_block. apply transaction_wf; [|done].
  intros l db' Hb. inv_all. eapply insert_lease_wf; [|done].
  apply (f_equal snd) in Ep. cbn [snd] in Ep. subst.
  by apply update_leases_wf; [|apply set_revoked_wf|].
Qed.

Lemma mark_results_wf outcomes db u db' :
  store_wf db -> mark_results outcomes db = Ok (u, db') -> store_wf db'.
Proof.
  revert db. induction outcomes as [|[id o] l IH]; intros db Hwf; cbn; [by intros [= <- <-]|].
  destruct (outcome_state o) as [s e]. intros H. inv_result. eapply IH; [|exact H].
  by apply (update_leases_wf _ (fun r => set_apply r s e)); [|apply set_apply_wf|].
Qed.

Lemma store_step_wf db db' : store_step db db' -> store_wf db -> store_wf db'.
Proof.
  intros [] H; auto using expire_wf, begin_reconcile_wf, manual_unblock_wf, prune_leases_wf,
    prune_offenses_wf, manual_block_wf; apply transaction_wf; try done; intros;
    eauto using apply_event_wf, apply_events_wf, mark_results_wf.
Qed.

Lemma reachable_wf db : store_reachable db -> store_wf db.
Proof.
  unfold store_reachable. generalize store_wf_empty. generalize empty_db. intros db0 H0 H.
  induction H as [|x y z Hs _ IH]; eauto using store_step_wf.
Qed.

(** C3: the integrity of the database: every sequence of store operations,
    failing ones included, from the empty tables leaves unique primary keys,
    no offense without its event, and only checkpoints and leases that
    decode; so reading the leases in force at any representable time
    succeeds. *)
Theorem store_reachable_wf db :
  store_reachable db ->
  store_wf db /\ forall now, (now <= i64_max)%N -> exists ls, active_leases now db = Ok ls.
Proof.
  intros H%reachable_wf. split; [done|]. intros now Hn. unfold active_leases.
  rewrite (proj2 (sql_time_ok _ _) (conj Hn eq_refl)). cbn [mbind result_bind].
  destruct (traverse_total decode_lease
    (merge_sort id_le (List.filter (row_active (Z.of_N now)) (leases db)))) as (ls & Hls & _);
    [|by eexists].
  rewrite merge_sort_Permutation. apply Forall_forall. intros r [Hr _]%elem_filter.
  pose proof (wf_leases _ H) as Hw. rewrite Forall_forall in Hw.
  by destruct (Hw r Hr) as (_ & l & ? & _); eexists.
Qed.
End Reachable.

(** ** One offense *)

Section Offense.
Context {NA : IpNetworkApi} {NL : IpNetworkLaws} {SC : StoreCodec} {SL : StoreCodecLaws}.
Context (draw : Z -> N -> N).

(** When the offense counts as having happened. *)
Definition offense_time (input : EventInput) (offense : OffenseInput) : N :=
  default (ev_observed_at input) (i_observed_at offense).

(** The row recorded for it. *)
Definition offense_row (input : EventInput) (offense : OffenseInput) : OffenseRow := {|
  o_source := ev_source input; o_event_id := ev_event_id input; o_policy := i_policy offense;
  o_network := net_show (i_network offense);
  o_observed_at := Z.of_N (offense_time input offense);
  o_attempt_key := match i_group_key offense with
                   | Some g => Some g | None => i_attempt_key offense end;
  o_consumed := false |}.

(** The offenses that count with it: unconsumed ones of its policy and
    network in the last [findtime_secs], of its group if it has one. *)
Definition offense_window (input : EventInput) (offense : OffenseInput) : OffenseRow -> bool :=
  let t := offense_time input offense in
  in_window (i_policy offense) (net_show (i_network offense))
    (Z.of_N (t - i_findtime_secs offense)) (Z.of_N t) (i_group_key offense).

(** The attempts among them: all of a group, otherwise the distinct keys and
    the offenses without one. *)
Definition attempts_of (offense : OffenseInput) (rows : list OffenseRow) : N :=
  Z.to_N (match i_group_key offense with
          | Some _ => count_grouped rows | None => count_distinct rows end).

Definition recorded (input : EventInput) (offense : OffenseInput) (db : Db) : Db :=
  set_offenses db (offenses db ++ [offense_row input offense]).

Definition is_offense (input : EventInput) (offense : OffenseInput) (o : OffenseRow) : bool :=
  String.eqb (o_source o) (ev_source input) && String.eqb (o_event_id o) (ev_event_id input) &&
  String.eqb (o_policy o) (i_policy offense).

Definition lease_in_force (policy : string) (network : IpNetwork) (now : N) (db : Db) : bool :=
  existsb (fun r => String.eqb (r_policy r) policy &&
                    String.eqb (r_network r) (net_show network) &&
                    row_active (Z.of_N now) r) (leases db).

Lemma has_active_lease_ok db p n now : (now <= i64_max)%N ->
  has_active_lease db p n now = Ok (lease_in_force p n now db).
Proof. intros H. unfold has_active_lease. by rewrite (proj2 (sql_time_ok _ _) (conj H eq_refl)). Qed.

(** The outcomes of recording an offense. *)
Inductive offense_outcome (input : EventInput) (offense : OffenseInput) (db : Db) :
    option Lease -> Db -> Prop :=
| Outcome_leased :
    lease_in_force (i_policy offense) (i_network offense) (offense_time input offense) db = true ->
    offense_outcome input offense db None
      (consume_where (is_offense input offense) (recorded input offense db))
| Outcome_counted :
    lease_in_force (i_policy offense) (i_network offense) (offense_time input offense) db = false ->
    (attempts_of offense (List.filter (offense_window input offense)
       (offenses (recorded input offense db))) < i_max_attempts offense)%N ->
    offense_outcome input offense db None (recorded input offense db)
| Outcome_banned escalation lease db' :
    lease_in_force (i_policy offense) (i_network offense) (offense_time input offense) db = false ->
    (i_max_attempts offense <= attempts_of offense (List.filter (offense_window input offense)
       (offenses (recorded input offense db))))%N ->
    escalation_count db (i_policy offense) (i_network offense) (overall (i_ban offense))
      (offense_time input offense - i_history_retention_secs offense) = Ok escalation ->
    lease = {|
      n_network := i_network offense; n_policy := i_policy offense;
      n_action := i_action offense; n_created_at := offense_time input offense;
      n_expires_at := (fun d => sat_add u64_max (offense_time input offense) d `min` i64_max)%N
        <$> ban_duration (i_ban offense) escalation (draw (next_id db));
      n_escalation_count := escalation; n_manual := false |} ->
    insert_lease (recorded input offense db) lease = Ok (next_id db, db') ->
    offense_outcome input offense db (Some (lease_of (next_id db) lease))
      (consume_where (offense_window input offense) db').

Lemma apply_offense_outcome input offense db created db' :
  apply_offense draw input offense db = Ok (created, db') ->
  (offense_time input offense <= i64_max)%N /\
  existsb (is_offense input offense) (offenses db) = false /\
  offense_outcome input offense db created db'.
Proof.
  unfold apply_offense. fold (offense_time input offense). intros H.
  apply bind_ok in H as (t & [Hle ->]%sql_time_ok & H). split; [done|].
  apply bind_ok in H as (db1 & Hi & H). unfold insert_offense in Hi. cbn in Hi.
  destruct (existsb _ _) eqn:Ex; [done|]. injection Hi as <-. split; [done|].
  change (set_offenses db _) with (recorded input offense db) in H.
  rewrite has_active_lease_ok in H by done. cbn [mbind result_bind] in H.
  destruct (lease_in_force _ _ _ (recorded _ _ _)) eqn:Hf.
  { injection H as <- <-. by apply Outcome_leased. }
  rewrite (proj2 (sql_time_ok _ _) (conj (ltac:(lia) : (offense_time input offense -
    i_findtime_secs offense <= i64_max)%N) eq_refl)) in H. cbn [mbind result_bind] in H.
  fold (offense_window input offense) in H.
  apply bind_ok in H as (n & [_ ->]%rust_time_ok & H).
  assert (Hn : forall rows, Z.to_N (if bool_decide (is_Some (i_group_key offense))
    then count_grouped rows else count_distinct rows) = attempts_of offense rows)
    by (intros; unfold attempts_of; by destruct (i_group_key offense)).
  rewrite Hn in H.
  destruct (N.ltb_spec (attempts_of offense (List.filter (offense_window input offense)
    (offenses (recorded input offense db)))) (i_max_attempts offense)) as [Hlt|Hge].
  { injection H as <- <-. by apply Outcome_counted. }
  apply bind_ok in H as (esc & Hesc & H). apply bind_ok in H as ([id db2] & Hins & H).
  injection H as <- <-. pose proof (insert_lease_inv _ _ _ _ Hins) as (_ & _ & -> & _).
  exact (Outcome_banned input offense db esc _ db2 Hf Hge Hesc eq_refl Hins).
Qed.

(** Consuming a window empties it. *)
Lemma consume_window_empty input offense db :
  List.filter (offense_window input offense)
    (offenses (consume_where (offense_window input offense) db)) = [].
Proof.
  cbn. induction (offenses db) as [|o l IH]; [done|]. cbn.
  destruct (offense_window input offense o) eqn:E; cbn; [|by rewrite E].
  assert (offense_window input offense (consume o) = false) as ->; [|done].
  unfold offense_window, in_window. cbn. by rewrite !andb_false_r.
Qed.

Lemma expiry_after s esc j t :
  schedule_ok s -> (t < i64_max)%N ->
  match (fun d => sat_add u64_max t d `min` i64_max)%N <$> ban_duration s esc j with
  | None => True | Some e => (t < e)%N end.
Proof.
  intros Hok Ht. destruct (duration_secs s) as [base|] eqn:Hb.
  - rewrite (ban_duration_some _ _ _ _ Hb). cbn. pose proof Hok as (Hbase & _ & _ & Hmax).
    rewrite Hb in Hbase. pose proof (base_duration_pos s base esc Hok Hbase).
    unfold sat_add, u64_max, i64_max in *. lia.
  - unfold ban_duration. by rewrite Hb.
Qed.

Lemma inserted_in_force db n id db' :
  insert_lease db n = Ok (id, db') ->
  match n_expires_at n with None => True | Some e => (n_created_at n < e)%N end ->
  lease_in_force (n_policy n) (n_network n) (n_created_at n) db' = true.
Proof.
  intros (row & -> & -> & _ & _ & Hn & Hp & _ & _ & Hr & He & Hx)%insert_lease_inv Hexp.
  unfold lease_in_force. cbn. rewrite existsb_app. apply orb_true_intro. right. cbn.
  rewrite Hn, Hp, !String.eqb_refl. unfold row_active, row_open. rewrite Hr, He, Hx. cbn.
  destruct (n_expires_at n) as [e|]; cbn; [|done].
  rewrite orb_false_r. apply Z.ltb_lt. lia.
Qed.

(** C2: the ban decision. Recording an offense creates a lease exactly when no
    lease of its policy and network is in force and the attempts in its
    window, itself included, reach the policy's threshold. A created lease
    uses up every offense of the window and, under a validated schedule, is in
    force at once, so the same attempts cannot ban twice. *)
Theorem ban_decision input offense db created db' :
  apply_offense draw input offense db = Ok (created, db') ->
  let rows := List.filter (offense_window input offense) (offenses (recorded input offense db)) in
  let in_force := lease_in_force (i_policy offense) (i_network offense)
                    (offense_time input offense) in
  (is_Some created <->
     in_force db = false /\ (i_max_attempts offense <= attempts_of offense rows)%N) /\
  (is_Some created ->
     List.filter (offense_window input offense) (offenses db') = [] /\
     (schedule_ok (i_ban offense) -> (offense_time input offense < i64_max)%N ->
      in_force db' = true)).
Proof.
  intros (_ & _ & Ho)%apply_offense_outcome. cbv zeta.
  destruct Ho as [Hf|Hf Hlt|esc lease db' Hf Hge Hesc -> Hins].
  - split; [|by intros []]. split; [by intros []|]. by rewrite Hf; intros [].
  - split; [|by intros []]. split; [by intros []|]. intros []; lia.
  - split; [by split|]. intros _. split; [apply consume_window_empty|]. intros Hok Ht.
    pose proof (inserted_in_force _ _ _ _ Hins) as Hin. cbn in Hin. apply Hin.
    by apply expiry_after.
Qed.
End Offense.

(** * Sequences of store operations

    Replayed events, batches, pruning and housekeeping: what later operations
    can observe of earlier ones. *)

Section History.
Context {NA : IpNetworkApi} {NL : IpNetworkLaws} {SC : StoreCodec} {SL : StoreCodecLaws}.

(** ** Replay *)

Definition event_known (input : EventInput) (db : Db) : bool :=
  existsb (fun e => String.eqb (e_source e) (ev_source input) &&
                    String.eqb (e_event_id e) (ev_event_id input)) (events db).

Lemma process_event_known draw input db :
  (ev_observed_at input <= i64_max)%N -> event_known input db = true ->
  process_event draw input db = (Ok {| duplicate := true; out_leases := [] |}, db).
Proof.
  intros Ht Hk. unfold process_event, transaction, apply_event.
  rewrite (proj2 (sql_time_ok _ _) (conj Ht eq_refl)). cbn. unfold event_known in Hk.
  by rewrite Hk.
Qed.

Lemma apply_offense_events draw input o db c db' :
  apply_offense draw input o db = Ok (c, db') ->
  events db' = events db /\ checkpoints db' = checkpoints db.
Proof.
  intros (_ & _ & [ | |esc lease db2 _ _ _ _ Hins])%apply_offense_outcome; [done..|].
  by apply insert_lease_inv in Hins as (row & -> & _).
Qed.

Lemma apply_offenses_events draw input l db c db' :
  apply_offenses draw input l db = Ok (c, db') ->
  events db' = events db /\ checkpoints db' = checkpoints db.
Proof.
  revert db c. induction l as [|o l IH]; intros db c H; cbn in H; inv_all; [done|].
  apply apply_offense_events in Ha as [H1 H2]. apply IH in Ha0 as [H3 H4]. split; congruence.
Qed.

Lemma apply_event_known draw input db out db' :
  apply_event draw input db = Ok (out, db') ->
  (ev_observed_at input <= i64_max)%N /\ event_known input db' = true.
Proof.
  unfold apply_event. intros H. apply bind_ok in H as (t & [Ht ->]%sql_time_ok & H).
  split; [done|]. destruct (existsb _ (events db)) eqn:E; [by inv_result|].
  inv_all. apply apply_offenses_events in Ha as [He _]. unfold upsert_checkpoint in Ha0.
  inv_result. unfold event_known. cbn. rewrite He. cbn. rewrite existsb_app.
  apply orb_true_intro. right. cbn. by rewrite !String.eqb_refl.
Qed.

(** Replay protection. Once an event is committed, presenting it again
    with whatever contents, as after a restart from an older checkpoint,
    reports a duplicate, creates no lease and changes no table. *)
Theorem process_event_replay draw draw' input replayed db outcome db' :
  process_event draw input db = (Ok outcome, db') ->
  ev_source replayed = ev_source input -> ev_event_id replayed = ev_event_id input ->
  (ev_observed_at replayed <= i64_max)%N ->
  process_event draw' replayed db' = (Ok {| duplicate := true; out_leases := [] |}, db').
Proof.
  unfold process_event at 1, transaction. destruct (apply_event draw input db) as [[o d]|] eqn:E;
    [|done]. intros [= -> ->] Hs Hi Ht. apply apply_event_known in E as [_ Hk].
  apply process_event_known; [done|]. unfold event_known in *. by rewrite Hs, Hi.
Qed.

Lemma upsert_checkpoint_read db s id c t db' :
  upsert_checkpoint db s id c t = Ok db' -> checkpoint s db' = Ok (Some c).
Proof.
  unfold upsert_checkpoint. intros H. inv_result. unfold checkpoint. cbn.
  match goal with |- context [first_some ?p ?l] =>
    assert (exists r, first_some p l = Some r /\ c_data r = checkpoint_to_json c)
      as (r & -> & Hr) end.
  { clear Ha. destruct (existsb _ _) eqn:Ex; induction (checkpoints db) as [|r l IH]; cbn in *.
    - done.
    - destruct (String.eqb (c_source r) s) eqn:E; cbn; [rewrite String.eqb_refl; by eexists|].
      rewrite E. auto.
    - rewrite String.eqb_refl. by eexists.
    - destruct (String.eqb (c_source r) s); [done|]. auto. }
  by rewrite Hr, checkpoint_json_round.
Qed.

(** Progress and effects commit together. A successful event that was not
    a replay leaves its checkpoint as the one the source resumes from; a
    failing event leaves every table as it was. *)
Theorem process_event_atomic draw input db result db' :
  process_event draw input db = (result, db') ->
  match result with
  | Err _ => db' = db
  | Ok outcome => duplicate outcome = false ->
      checkpoint (ev_source input) db' = Ok (Some (ev_checkpoint input))
  end.
Proof.
  unfold process_event, transaction, apply_event. intros H.
  destruct (_ ≫= _) as [[o d]|e] eqn:E; injection H as <- <-; [|done]. intros Hd.
  apply bind_ok in E as (t & [Ht ->]%sql_time_ok & E).
  destruct (existsb _ (events db)); [by inv_result|]. inv_all.
  by eapply upsert_checkpoint_read.
Qed.

(** ** Pruning offenses is not observable *)

(** [d1] is [d2] without offenses older than [before] (and without some
    events); no offense of the event at hand is that old. *)
Record pruned (before : Z) (input : EventInput) (d1 d2 : Db) : Prop := {
  pr_leases : leases d1 = leases d2;
  pr_offenses : offenses d1 = List.filter (fun o => before <=? o_observed_at o)%Z (offenses d2);
  pr_recent : forall o, o ∈ offenses d2 -> o_source o = ev_source input ->
    o_event_id o = ev_event_id input -> (before <= o_observed_at o)%Z;
}.

Lemma filter_filter_implies {A} (p q : A -> bool) l :
  (forall a, q a = true -> p a = true) ->
  List.filter q (List.filter p l) = List.filter q l.
Proof.
  intros H. induction l as [|a l IH]; cbn; [done|].
  destruct (p a) eqn:Ep; cbn; [by rewrite IH|].
  destruct (q a) eqn:Eq; [|done]. by rewrite H in Ep.
Qed.

Lemma filter_map_pres {A} (p : A -> bool) (f : A -> A) l :
  (forall a, p (f a) = p a) -> List.filter p (f <$> l) = f <$> List.filter p l.
Proof.
  intros H. induction l as [|a l IH]; cbn; [done|]. rewrite H. destruct (p a); cbn; by rewrite IH.
Qed.

Lemma pruned_consume b i p d1 d2 :
  pruned b i d1 d2 -> pruned b i (consume_where p d1) (consume_where p d2).
Proof.
  intros [Hl Ho Hr]. split; cbn; [done| |].
  - rewrite Ho, filter_map_pres; [done|]. intros o. by destruct (p o).
  - intros o (o' & -> & Ho')%list_elem_of_fmap. specialize (Hr o' Ho'). by destruct (p o').
Qed.

Lemma pruned_recorded b i o d1 d2 :
  (b <= Z.of_N (offense_time i o))%Z ->
  pruned b i d1 d2 -> pruned b i (recorded i o d1) (recorded i o d2).
Proof.
  intros Hb [Hl Ho Hr]. split; cbn; [done| |].
  - rewrite List.filter_app, Ho. cbn. by rewrite (proj2 (Z.leb_le _ _) Hb).
  - intros x [Hx|Hx%list_elem_of_singleton]%elem_of_app; [auto|]. by subst.
Qed.

Lemma pruned_fresh b i o d1 d2 :
  pruned b i d1 d2 ->
  existsb (is_offense i o) (offenses d1) = existsb (is_offense i o) (offenses d2).
Proof.
  intros [_ Ho Hr]. apply eq_true_iff_eq. rewrite !existsb_elem, Ho. split.
  - intros (x & [Hx _]%elem_filter & Hi). eauto.
  - intros (x & Hx & Hi). exists x. split; [|done]. apply elem_filter. split; [done|].
    apply Z.leb_le. unfold is_offense in Hi. apply andb_prop in Hi as [Hi _].
    apply andb_prop in Hi as [H1%String.eqb_eq H2%String.eqb_eq]. auto.
Qed.

Lemma pruned_window b i o d1 d2 :
  (b <= Z.of_N (offense_time i o - i_findtime_secs o))%Z -> pruned b i d1 d2 ->
  List.filter (offense_window i o) (offenses d1) = List.filter (offense_window i o) (offenses d2).
Proof.
  intros Hb [_ -> _]. apply filter_filter_implies. intros x Hx. apply Z.leb_le.
  unfold offense_window, in_window in Hx. apply andb_prop in Hx as [Hx _].
  apply andb_prop in Hx as [Hx _]. apply andb_prop in Hx as [_ Hx]. apply Z.leb_le in Hx. lia.
Qed.

(** Equal answers and related tables, or equal errors. *)
Definition same_outcome {A} b i (r1 r2 : Result (A * Db)) : Prop :=
  match r1, r2 with
  | Ok (a1, d1), Ok (a2, d2) => a1 = a2 /\ pruned b i d1 d2
  | Err e1, Err e2 => e1 = e2
  | _, _ => False
  end.

(** A first step that does not depend on the tables. *)
Lemma same_outcome_pure {A B} b i (r : Result B) (k1 k2 : B -> Result (A * Db)) :
  (forall x, r = Ok x -> same_outcome b i (k1 x) (k2 x)) ->
  same_outcome b i (r ≫= k1) (r ≫= k2).
Proof. intros H. destruct r; cbn; auto. Qed.

Lemma same_outcome_bind {A B} b i (r1 r2 : Result (B * Db)) (k1 k2 : B * Db -> Result (A * Db)) :
  same_outcome b i r1 r2 ->
  (forall x d1 d2, pruned b i d1 d2 -> same_outcome b i (k1 (x, d1)) (k2 (x, d2))) ->
  same_outcome b i (r1 ≫= k1) (r2 ≫= k2).
Proof.
  destruct r1 as [[a1 d1]|], r2 as [[a2 d2]|]; cbn; try done.
  intros [-> Hp] Hk. auto.
Qed.

Lemma insert_lease_pruned b i d1 d2 n :
  pruned b i d1 d2 -> same_outcome b i (insert_lease d1 n) (insert_lease d2 n).
Proof.
  intros [Hl Ho Hr]. unfold insert_lease. do 3 (apply same_outcome_pure; intros ? _).
  unfold next_id. rewrite Hl. by repeat split.
Qed.

Lemma apply_offense_pruned draw b i o d1 d2 :
  (b <= Z.of_N (offense_time i o - i_findtime_secs o))%Z -> pruned b i d1 d2 ->
  same_outcome b i (apply_offense draw i o d1) (apply_offense draw i o d2).
Proof.
  intros Hb Hp. unfold apply_offense. fold (offense_time i o).
  apply same_outcome_pure. intros t [Ht ->]%sql_time_ok.
  unfold insert_offense. cbn [o_source o_event_id o_policy].
  change (existsb _ (offenses d1)) with (existsb (is_offense i o) (offenses d1)).
  change (existsb _ (offenses d2)) with (existsb (is_offense i o) (offenses d2)).
  rewrite (pruned_fresh b i o d1 d2 Hp).
  destruct (existsb (is_offense i o) (offenses d2)); [done|].
  change (set_offenses d1 _) with (recorded i o d1).
  change (set_offenses d2 _) with (recorded i o d2).
  apply (pruned_recorded b i o) in Hp; [|lia]. revert Hp.
  generalize (recorded i o d1) (recorded i o d2). clear d1 d2. intros d1 d2 Hp.
  cbn [mbind result_bind]. unfold has_active_lease, escalation_count, next_id.
  rewrite (pr_leases _ _ _ _ Hp).
  apply same_outcome_pure. intros active _. destruct active.
  { split; [done|by apply pruned_consume]. }
  apply same_outcome_pure. intros start [_ ->]%sql_time_ok.
  fold (offense_window i o). rewrite (pruned_window b i o d1 d2) by done.
  apply same_outcome_pure. intros n _. destruct (_ <? _)%N; [by split|].
  apply same_outcome_pure. intros esc _.
  apply same_outcome_bind; [by apply insert_lease_pruned|].
  intros id e1 e2 He. split; [done|]. by apply pruned_consume.
Qed.

Lemma apply_offenses_pruned draw b i l d1 d2 :
  Forall (fun o => b <= Z.of_N (offense_time i o - i_findtime_secs o))%Z l -> pruned b i d1 d2 ->
  same_outcome b i (apply_offenses draw i l d1) (apply_offenses draw i l d2).
Proof.
  intros Hl. revert d1 d2. induction Hl as [|o l Ho _ IH]; intros d1 d2 Hp; cbn; [done|].
  apply same_outcome_bind; [by apply apply_offense_pruned|]. intros c e1 e2 He.
  apply same_outcome_bind; [by apply IH|]. done.
Qed.

Lemma event_known_spec input db :
  event_known input db = true <-> (ev_source input, ev_event_id input) ∈ (event_key <$> events db).
Proof.
  unfold event_known. rewrite existsb_elem, list_elem_of_fmap. split.
  - intros (e & He & H). apply andb_prop in H as [H1%String.eqb_eq H2%String.eqb_eq].
    exists e. unfold event_key. by rewrite H1, H2.
  - intros (e & H & He). exists e. unfold event_key in H. injection H as -> ->.
    by rewrite !String.eqb_refl.
Qed.

Lemma prune_offenses_pruned before input db :
  (before <= i64_max)%N -> store_wf db -> event_known input db = false ->
  pruned (Z.of_N before) input (prune_offenses before db).2 db /\
  event_known input (prune_offenses before db).2 = false.
Proof.
  intros Hb Hwf Hk. unfold prune_offenses, transaction.
  rewrite (proj2 (sql_time_ok _ _) (conj Hb eq_refl)). cbn. repeat split; cbn.
  - apply List.filter_ext. intros o. symmetry. apply Z.leb_antisym.
  - intros o Ho Hs Hi. apply (wf_foreign _ Hwf) in Ho. rewrite Hs, Hi in Ho.
    apply event_known_spec in Ho. congruence.
  - apply not_true_is_false. intros Ht. apply not_true_iff_false in Hk. apply Hk.
    unfold event_known in *. cbn in Ht. apply existsb_elem in Ht as (e & [He _]%elem_filter & H).
    apply existsb_elem. eauto.
Qed.

(** Pruning loses no evidence. When the offenses older than [before] are
    deleted, an event that is new to the store and whose windows reach back no
    further than [before] gets the same answer as without the pruning: the
    same leases with the same identifiers and expiries, or the same error. *)
Theorem prune_offenses_transparent draw before input db :
  store_wf db -> (before <= i64_max)%N -> event_known input db = false ->
  Forall (fun o => before <= offense_time input o - i_findtime_secs o)%N (ev_offenses input) ->
  (process_event draw input (prune_offenses before db).2).1 = (process_event draw input db).1.
Proof.
  intros Hwf Hb Hk Hl. destruct (prune_offenses_pruned before input db Hb Hwf Hk) as [Hp Hk'].
  revert Hp Hk'. generalize (prune_offenses before db).2. intros d Hp Hk'.
  unfold process_event, transaction, apply_event. unfold event_known in Hk, Hk'.
  destruct (sql_time (ev_observed_at input)) as [t|e]; cbn [mbind result_bind]; [|done].
  rewrite Hk, Hk'.
  set (d1 := set_events d _). set (d2 := set_events db _).
  assert (Hs : same_outcome (Z.of_N before) input
    (apply_offenses draw input (ev_offenses input) d1)
    (apply_offenses draw input (ev_offenses input) d2)).
  { apply apply_offenses_pruned; [|by destruct Hp].
    eapply Forall_impl; [exact Hl|]. cbn. lia. }
  destruct (apply_offenses _ _ _ d1) as [[c1 e1]|], (apply_offenses _ _ _ d2) as [[c2 e2]|];
    cbn in Hs |- *; [|done..|by subst].
  destruct Hs as [-> _]. unfold upsert_checkpoint. by destruct (sql_time _).
Qed.

(** ** Batches *)

(** The events one at a time, each in its own transaction. *)
Fixpoint each_event draw (inputs : list EventInput) (db : Db) :
    list (Result EventOutcome) * Db :=
  match inputs with
  | [] => ([], db)
  | input :: inputs =>
      let '(r, db) := process_event draw input db in
      let '(rs, db) := each_event draw inputs db in (r :: rs, db)
  end.

Lemma apply_events_each draw inputs db outs db' :
  Forall (fun i => ev_offenses i <> []) inputs ->
  apply_events draw inputs db = Ok (outs, db') <->
  each_event draw inputs db = (Ok <$> outs, db').
Proof.
  intros Hne. revert db outs. induction Hne as [|i l Hi _ IH]; intros db outs; cbn.
  { destruct outs; split; by intros [= ->]. }
  unfold process_event, transaction. destruct (ev_offenses i) as [|o os]; [done|].
  destruct (apply_event draw i db) as [[out db1]|e]; cbn [mbind result_bind].
  - destruct (each_event draw l db1) as [rs d] eqn:E. split.
    + intros H. inv_all. apply IH in Ha. rewrite Ha in E. by injection E as <- <-.
    + destruct outs as [|o' outs]; cbn; [done|]. intros [= -> -> ->].
      by rewrite (proj2 (IH db1 outs) E).
  - split; [done|]. destruct (each_event draw l db). by destruct outs.
Qed.

(** A batch of matched events commits exactly when its events would all
    succeed one at a time, with the same outcomes and tables; a batch with a
    failing event writes nothing. *)
Theorem process_events_refines draw inputs db :
  Forall (fun i => ev_offenses i <> []) inputs ->
  (forall outs db', process_events draw inputs db = (Ok outs, db') <->
                    each_event draw inputs db = (Ok <$> outs, db')) /\
  (forall e db', process_events draw inputs db = (Err e, db') -> db' = db).
Proof.
  intros Hne. unfold process_events, transaction. split.
  - intros outs db'. rewrite <- apply_events_each by done.
    destruct (apply_events draw inputs db) as [[o d]|e]; split; by intros [= -> ->].
  - intros e db'. by destruct (apply_events draw inputs db) as [[o d]|e']; intros [= -> ->].
Qed.

(** ** Leases in force *)

Lemma filter_nil_iff {A} (p : A -> bool) l :
  List.filter p l = [] <-> forall a, a ∈ l -> p a = false.
Proof.
  rewrite <- Forall_forall. induction l as [|a l IH]; cbn; [by rewrite Forall_nil|].
  rewrite Forall_cons. destruct (p a); [|tauto]. split; [done|]. by intros [].
Qed.

(** Updates that leave the active rows of time [t] alone. *)
Lemma filter_update {A} (p q : A -> bool) (f : A -> A) l :
  (forall a, p a = true -> q a = false /\ q (f a) = false) ->
  List.filter q ((fun a => if p a then f a else a) <$> l) = List.filter q l.
Proof.
  intros H. induction l as [|a l IH]; cbn; [done|]. destruct (p a) eqn:E; rewrite IH; [|done].
  destruct (H a E) as [H1 H2]. by rewrite H1, H2.
Qed.

Lemma filter_drop {A} (p q : A -> bool) l :
  (forall a, p a = true -> q a = false) ->
  List.filter q (List.filter (fun a => negb (p a)) l) = List.filter q l.
Proof.
  intros H. apply filter_filter_implies. intros a Hq. destruct (p a) eqn:E; [|done].
  by rewrite H in Hq.
Qed.

(** Expiry and lease pruning are housekeeping: no query of the leases in
    force at that time or later can tell whether they ran. *)
Theorem housekeeping_transparent now before t db :
  (now <= t)%N ->
  active_leases t (expire now db).2 = active_leases t db /\
  active_leases t (prune_leases before now db).2 = active_leases t db.
Proof.
  intros Hnow. unfold active_leases. destruct (sql_time t) as [t'|] eqn:Et; [|done].
  apply sql_time_ok in Et as [Ht ->]. cbn [mbind result_bind].
  assert (Hd : forall e : Z, (e <=? Z.of_N now)%Z = true -> (Z.of_N t <? e)%Z = false)
    by (intros; apply Z.ltb_ge; rewrite Z.leb_le in *; lia).
  unfold expire, prune_leases.
  rewrite (proj2 (sql_time_ok now _) (conj (ltac:(lia) : (now <= i64_max)%N) eq_refl)).
  split.
  - cbn. rewrite filter_update; [done|]. intros r [_ Hr]%andb_prop. unfold row_active, row_open.
    cbn. rewrite andb_false_r. destruct (r_expires_at r); [|done]. by rewrite Hd, andb_false_r.
  - destruct (sql_time before); cbn; [|done]. rewrite filter_drop; [done|].
    intros r [_ Hr]%andb_prop. unfold row_active, row_open.
    destruct (r_revoked_at r), (r_expired_at r); try done. cbn in *.
    destruct (r_expires_at r); [by apply Hd|done].
Qed.

(** Reading the leases in force lists the active rows in the order of their
    identifiers and cannot fail on sound tables. *)
Lemma active_leases_total now db :
  store_wf db -> (now <= i64_max)%N ->
  exists rows ls, active_leases now db = Ok ls /\ Forall2 (fun r l => decode_lease r = Ok l) rows ls /\
    rows ≡ₚ List.filter (row_active (Z.of_N now)) (leases db) /\ Sorted id_le rows.
Proof.
  intros Hwf Hn. unfold active_leases.
  rewrite (proj2 (sql_time_ok _ _) (conj Hn eq_refl)). cbn [mbind result_bind].
  set (rows := merge_sort _ _).
  assert (Hp : rows ≡ₚ List.filter (row_active (Z.of_N now)) (leases db))
    by apply merge_sort_Permutation.
  assert (Hs : Sorted id_le rows).
  { apply Sorted_merge_sort. intros x y. unfold id_le. lia. }
  destruct (traverse_total decode_lease rows) as (ls & Hl & H2).
  - rewrite Hp. apply Forall_forall. intros r [Hr _]%elem_filter.
    pose proof (wf_leases _ Hwf) as Hw. rewrite Forall_forall in Hw. by destruct (Hw r Hr) as (_ & l & ? & _); eexists.
  - by exists rows, ls.
Qed.

Lemma decode_network r l : decode_lease r = Ok l ->
  net_parse (r_network r) = Some (lease_network l) /\ lease_id l = r_id r /\
  lease_manual l = r_manual r.
Proof.
  unfold decode_lease. intros H. inv_result. cbn. repeat split.
  by destruct (net_parse (r_network r)); cbn in Ha; inv_result.
Qed.

(** The lease rows after a manual block. *)
Lemma manual_block_inv network action now duration db lease db' :
  manual_block network action now duration db = (Ok lease, db') ->
  exists row, (now <= i64_max)%N /\ decode_lease row = Ok lease /\
    (duration <> Some 0%N -> row_active (Z.of_N now) row = true) /\
    leases db' = ((fun r => if r_manual r && String.eqb (r_network r) (net_show network) && row_open r
                            then set_revoked r (Some (Z.of_N now)) else r) <$> leases db) ++ [row].
Proof.
  unfold manual_block, transaction. destruct (_ ≫= _) as [[l d]|] eqn:E; [|done].
  intros [= -> ->]. apply bind_ok in E as (t & [Ht ->]%sql_time_ok & E). cbn in E. inv_all.
  pose proof Ha as (row & -> & -> & _ & Hd & _ & _ & _ & _ & Hr & He & Hx)%insert_lease_inv.
  exists row. split; [done|]. split; [done|]. split; [|done]. intros Hne.
  unfold row_active, row_open. rewrite Hr, He, Hx. cbn.
  destruct duration as [d|]; [|done]. cbn. apply Z.ltb_lt.
  assert (d <> 0)%N by congruence. unfold sat_add, u64_max, i64_max in *. lia.
Qed.

(** An element of the leases read back has its row. *)
Lemma active_leases_elem now db ls l :
  store_wf db -> active_leases now db = Ok ls ->
  l ∈ ls <-> exists r, r ∈ leases db /\ row_active (Z.of_N now) r = true /\ decode_lease r = Ok l.
Proof.
  intros Hwf Hls. pose proof Hls as Hn. unfold active_leases in Hn. inv_result.
  apply sql_time_ok in Ha as [Hle _].
  destruct (active_leases_total now db Hwf Hle) as (rows & ls' & Hls' & H2 & Hp & _).
  rewrite Hls in Hls'. injection Hls' as <-. split.
  - intros [k Hk]%list_elem_of_lookup.
    apply (Forall2_lookup_r _ _ _ _ _ H2) in Hk as (r & Hr%list_elem_of_lookup_2 & Hd).
    rewrite Hp in Hr. apply elem_filter in Hr as []. eauto.
  - intros (r & Hr & Ha & Hd).
    assert (Hin : r ∈ rows) by (rewrite Hp; by apply elem_filter).
    apply list_elem_of_lookup in Hin as [k Hk].
    apply (Forall2_lookup_l _ _ _ _ _ H2) in Hk as (l' & Hl' & Hd').
    rewrite Hd in Hd'. injection Hd' as <-. by eapply list_elem_of_lookup_2.
Qed.

Lemma wf_row db r l :
  store_wf db -> r ∈ leases db -> decode_lease r = Ok l ->
  r_network r = net_show (lease_network l) /\ r_manual r = lease_manual l.
Proof.
  intros Hwf Hr Hd. pose proof (wf_leases _ Hwf) as Hw. rewrite Forall_forall in Hw.
  destruct (Hw r Hr) as (_ & l' & Hd' & Hn). rewrite Hd in Hd'. injection Hd' as <-.
  by apply decode_network in Hd as (_ & _ & ->).
Qed.

(** Unblocking works: after [manual_unblock] the leases in force can be
    read, and none is for that network, whether a policy or an operator made
    it. *)
Lemma manual_unblock_clears network now db :
  store_wf db -> (now <= i64_max)%N ->
  exists ls, active_leases now (manual_unblock network now db).2 = Ok ls /\
    Forall (fun l => lease_network l <> network) ls.
Proof.
  intros Hwf Hn. pose proof (manual_unblock_wf network now db Hwf) as Hwf'.
  destruct (active_leases_total now _ Hwf' Hn) as (_ & ls & Hls & _).
  exists ls. split; [done|]. apply Forall_forall.
  intros l (r & Hr & Ha & Hd)%(active_leases_elem _ _ _ _ Hwf' Hls) Heq.
  destruct (wf_row _ _ _ Hwf' Hr Hd) as [Hnet _]. revert Hr. unfold manual_unblock.
  rewrite (proj2 (sql_time_ok _ _) (conj Hn eq_refl)). cbn.
  intros (s & Hs & _)%list_elem_of_fmap. destruct (_ && _) eqn:E; subst r.
  - unfold row_active, row_open in Ha. by cbn in Ha.
  - by rewrite Hnet, Heq, String.eqb_refl, Ha in E.
Qed.

(** An operator's block takes effect. A successful [manual_block] returns a
    pending lease that is among the leases in force read back at that moment,
    unless it was given no time at all, and it is the only manual lease for
    the network: an earlier one has been replaced. *)
Theorem manual_block_in_force network action now duration db lease db' :
  store_wf db -> manual_block network action now duration db = (Ok lease, db') ->
  duration <> Some 0%N ->
  exists ls, active_leases now db' = Ok ls /\ lease ∈ ls /\
    forall l, l ∈ ls -> lease_manual l = true -> lease_network l = network -> l = lease.
Proof.
  intros Hwf Hb Hne. pose proof (manual_block_wf network action now duration db Hwf) as Hwf'.
  rewrite Hb in Hwf'. cbn in Hwf'.
  apply manual_block_inv in Hb as (row & Hn & Hd & Ha & Hls). specialize (Ha Hne).
  destruct (active_leases_total now db' Hwf' Hn) as (_ & ls & Hr & _).
  exists ls. split; [done|]. split.
  { apply (active_leases_elem now db' ls lease Hwf' Hr). exists row. split; [|done].
    rewrite Hls, elem_of_app. right. by left. }
  intros l (r & Hin & Hact & Hdec)%(active_leases_elem now db' ls l Hwf' Hr) Hm Hnet.
  pose proof (wf_row _ _ _ Hwf' Hin Hdec) as [Hrn Hrm]. rewrite Hls in Hin.
  apply elem_of_app in Hin as [(s & -> & _)%list_elem_of_fmap|Hin%list_elem_of_singleton].
  - destruct (_ && _) eqn:E; [by unfold row_active, row_open in Hact; cbn in Hact|].
    rewrite Hrm, Hm, Hrn, Hnet, String.eqb_refl in E. cbn in E.
    unfold row_active in Hact. by rewrite E in Hact.
  - subst r. congruence.
Qed.

(** ** One automatic lease at a time *)

(** [r] had ended when [s], recorded later, was created; only open rows that a
    policy created for the same network are compared. *)
Definition ended_before (r s : LeaseRow) : Prop :=
  r_policy r = r_policy s -> r_network r = r_network s ->
  r_manual r = false -> r_manual s = false -> row_open r = true ->
  exists e, r_expires_at r = Some e /\ (e <= r_created_at s)%Z.
Definition exclusive (db : Db) : Prop := StronglySorted ended_before (leases db).

Lemma exclusive_map p f db :
  (forall r, r_policy (f r) = r_policy r /\ r_network (f r) = r_network r /\
     r_manual (f r) = r_manual r /\ r_expires_at (f r) = r_expires_at r /\
     r_created_at (f r) = r_created_at r /\ (row_open (f r) = true -> row_open r = true)) ->
  exclusive db -> exclusive (update_leases p f db).2.
Proof.
  intros Hf. unfold exclusive. cbn.
  assert (Hm : forall r s, ended_before r s ->
    ended_before (if p r then f r else r) (if p s then f s else s)).
  { intros r s H. unfold ended_before in *.
    destruct (Hf r) as (? & ? & ? & ? & ? & ?), (Hf s) as (? & ? & ? & ? & ? & ?).
    destruct (p r), (p s); intros; repeat match goal with E : _ (f _) = _ |- _ => progress rewrite ?E in * end;
      apply H; congruence || auto. }
  apply StronglySorted_fmap. exact Hm.
Qed.

Lemma exclusive_filter p db :
  exclusive db -> exclusive (set_leases db (List.filter p (leases db))).
Proof.
  unfold exclusive. cbn. induction 1 as [|r l Hl IH Hr]; cbn; [constructor|].
  destruct (p r); [|done]. constructor; [done|]. apply Forall_forall.
  intros s [Hs _]%elem_filter. by eapply Forall_forall in Hr.
Qed.

Lemma StronglySorted_snoc {A} (R : relation A) l x :
  StronglySorted R l -> Forall (fun y => R y x) l -> StronglySorted R (l ++ [x]).
Proof.
  induction 1 as [|a l Hl IH Ha]; intros Hx; cbn; [by repeat constructor|].
  inversion Hx; subst. constructor; [auto|]. apply Forall_app. by split; [|constructor].
Qed.

Lemma exclusive_insert db n id db' :
  exclusive db -> insert_lease db n = Ok (id, db') ->
  n_manual n = true \/ lease_in_force (n_policy n) (n_network n) (n_created_at n) db = false ->
  exclusive db'.
Proof.
  intros He (row & -> & _ & _ & _ & Hn & Hp & Hm & Hc & _)%insert_lease_inv Hf.
  apply StronglySorted_snoc; [done|]. apply Forall_forall. intros r Hr.
  intros Ep En Hr1 Hr2 Ho. destruct Hf as [Hf|Hf]; [congruence|].
  unfold lease_in_force in Hf. rewrite existsb_false in Hf. specialize (Hf r Hr).
  rewrite Ep, Hp, En, Hn, !String.eqb_refl in Hf. cbn in Hf. unfold row_active in Hf.
  rewrite Ho in Hf. cbn in Hf. destruct (r_expires_at r) as [e|]; [|done].
  exists e. split; [done|]. rewrite Hc. apply Z.ltb_ge in Hf. lia.
Qed.

Lemma apply_offense_exclusive draw i o db c db' :
  exclusive db -> apply_offense draw i o db = Ok (c, db') -> exclusive db'.
Proof.
  intros He (_ & _ & [ | |esc lease db2 Hf _ _ -> Hins])%apply_offense_outcome; [done..|].
  cut (exclusive db2); [done|]. eapply exclusive_insert; [|exact Hins|by right]. done.
Qed.

Lemma apply_offenses_exclusive draw i l db c db' :
  exclusive db -> apply_offenses draw i l db = Ok (c, db') -> exclusive db'.
Proof.
  revert db c. induction l as [|o l IH]; intros db c He H; cbn in H; inv_all; [done|].
  eapply IH; [|done]. by eapply apply_offense_exclusive.
Qed.

Lemma upsert_checkpoint_exclusive db s id c t db' :
  exclusive db -> upsert_checkpoint db s id c t = Ok db' -> exclusive db'.
Proof. intros He H. unfold upsert_checkpoint in H. by inv_result. Qed.

Lemma apply_event_exclusive draw i db c db' :
  exclusive db -> apply_event draw i db = Ok (c, db') -> exclusive db'.
Proof.
  intros He H. unfold apply_event in H. inv_result. destruct (existsb _ _); inv_all; [done|].
  eapply upsert_checkpoint_exclusive; [|done]. by eapply apply_offenses_exclusive; [|done].
Qed.

Lemma apply_events_exclusive draw l db c db' :
  exclusive db -> apply_events draw l db = Ok (c, db') -> exclusive db'.
Proof.
  revert db c. induction l as [|i l IH]; intros db c He H; cbn in H; inv_all; [done|].
  eapply IH; [|done]. destruct (ev_offenses i); inv_all;
    eauto using upsert_checkpoint_exclusive, apply_event_exclusive.
Qed.

Lemma mark_results_exclusive l db u db' :
  exclusive db -> mark_results l db = Ok (u, db') -> exclusive db'.
Proof.
  revert db. induction l as [|[id o] l IH]; intros db He H; cbn in H; [by inv_result|].
  destruct (outcome_state o) as [st e]. inv_result. eapply IH; [|done].
  by apply (exclusive_map _ (fun r => set_apply r st e)).
Qed.

Lemma transaction_exclusive {A} (body : Db -> Result (A * Db)) db :
  (forall a db', body db = Ok (a, db') -> exclusive db') -> exclusive db ->
  exclusive (transaction body db).2.
Proof. intros Hb He. unfold transaction. destruct (body db) as [[a d]|]; cbn; eauto. Qed.

Lemma store_step_exclusive db db' : store_step db db' -> exclusive db -> exclusive db'.
Proof.
  intros [] He.
  - apply transaction_exclusive; eauto using apply_event_exclusive.
  - apply transaction_exclusive; eauto using apply_events_exclusive.
  - unfold expire. destruct (sql_time now); [|done]. apply exclusive_map; [|done].
    intros r. repeat split. unfold row_open. cbn. by rewrite andb_false_r.
  - apply transaction_exclusive; [|done]. intros a d H. inv_result. cbv zeta in H. inv_result. exact He.
  - unfold prune_leases. destruct (_ ≫= _) as [[t1 t2]|]; [|done]. by apply exclusive_filter.
  - unfold begin_reconcile. destruct (sql_time now); [|done]. by apply exclusive_map.
  - apply transaction_exclusive; [|done]. intros a d H. inv_result. cbn in H. inv_all.
    eapply exclusive_insert; [|exact Ha0|by left].
    by apply (exclusive_map _ (fun r => set_revoked r (Some a0)) db0).
  - unfold manual_unblock. destruct (sql_time now); [|done]. by apply exclusive_map.
  - apply transaction_exclusive; eauto using mark_results_exclusive.
Qed.

Lemma reachable_exclusive db : store_reachable db -> exclusive db.
Proof.
  unfold store_reachable. assert (H0 : exclusive empty_db) by constructor. revert H0.
  generalize empty_db. intros db0 H0 H. induction H; eauto using store_step_exclusive.
Qed.

(** Bans do not pile up. In every reachable database, at any time from the
    creation of two automatic leases of one policy and network on, at most one
    of them is in force. *)
Theorem one_automatic_lease db r s now :
  store_reachable db -> r ∈ leases db -> s ∈ leases db ->
  r_policy r = r_policy s -> r_network r = r_network s ->
  r_manual r = false -> r_manual s = false ->
  (r_created_at r <= now)%Z -> (r_created_at s <= now)%Z ->
  row_active now r = true -> row_active now s = true -> r = s.
Proof.
  intros He%reachable_exclusive Hr Hs Hp Hn Hmr Hms Hcr Hcs Har Has.
  assert (Hno : forall x y, ended_before x y -> r_policy x = r_policy y ->
    r_network x = r_network y -> r_manual x = false -> r_manual y = false ->
    (r_created_at y <= now)%Z -> row_active now x = true -> False).
  { intros x y H E1 E2 M1 M2 Hc Ha. unfold row_active in Ha. apply andb_prop in Ha as [Ho Ha].
    destruct (H E1 E2 M1 M2 Ho) as (e & Hx & Hle). rewrite Hx in Ha. apply Z.ltb_lt in Ha. lia. }
  unfold exclusive in He. induction He as [|x l Hl IH Hx]; [by apply elem_of_nil in Hr|].
  rewrite Forall_forall in Hx.
  apply elem_of_cons in Hr as [->|Hr], Hs as [->|Hs]; [done|exfalso|exfalso|by auto].
  - by eapply (Hno x s); eauto.
  - by eapply (Hno x r); eauto.
Qed.

(** ** Listener sequences *)

Lemma foldl_max_mono {A} (f : N -> A -> N) l n :
  (forall m a, m <= f m a)%N -> (n <= foldl f n l)%N.
Proof.
  intros H. revert n. induction l as [|a l IH]; intros n; cbn; [lia|].
  specialize (IH (f n a)). specialize (H n a). lia.
Qed.

Lemma last_sequence_ge source db e n :
  e ∈ events db -> e_source e = source -> event_sequence source (e_event_id e) = Some n ->
  (n <= last_listener_sequence source db)%N.
Proof.
  intros He Hs Hn. unfold last_listener_sequence. generalize 0%N.
  induction (events db) as [|x l IH]; [by apply elem_of_nil in He|].
  intros m. apply elem_of_cons in He as [->|He]; cbn; [|by apply IH].
  rewrite <- Hs, String.eqb_refl, Hs, Hn.
  etransitivity; [|apply foldl_max_mono]; [lia|].
  intros k a. destruct (String.eqb _ _); [|lia]. case_match; lia.
Qed.

(** A restarted listener source never reuses an event id: an id made from a
    sequence number above the one the store reports is not stored yet. *)
Lemma listener_sequence_fresh source n db :
  (last_listener_sequence source db < n <= u64_max)%N ->
  (source, listener_prefix source +:+ show_N n) ∉ (event_key <$> events db).
Proof.
  intros [Hlt Hn] (e & He & Hin)%list_elem_of_fmap. injection He as Hs Hi.
  pose proof (last_sequence_ge source db e n Hin (eq_sym Hs)) as Hge.
  rewrite <- Hi in Hge. unfold event_sequence in Hge.
  rewrite strip_prefix_app in Hge. cbn [mbind option_bind] in Hge.
  rewrite parse_show_N in Hge by done. specialize (Hge eq_refl). lia.
Qed.
End History.


(** A store of the concrete networks and codec, for the examples. *)
Section Witness.
#[local] Existing Instances cidr_api cidr_laws TextCodec.codec TextCodec.codec_laws.

(** 203.0.113.7/32. *)
Definition example_net : IpNetwork :=
  {| cidr_ip := V4 3405803783; cidr_prefix := 32; cidr_ok := eq_refl |}.
Definition example_offense : OffenseInput := {|
  i_policy := "ssh"; i_network := example_net; i_max_attempts := 2; i_findtime_secs := 600;
  i_history_retention_secs := 86400; i_ban := steady_schedule;
  i_action := Action.Drop Tcp [22%N]; i_observed_at := None; i_attempt_key := None;
  i_group_key := None |}.
Definition example_event (id : string) (t : N) : EventInput := {|
  ev_source := "sshd"; ev_event_id := id; ev_checkpoint := Checkpoint.Journal id t;
  ev_observed_at := t; ev_offenses := [example_offense] |}.
Definition no_draw : Z -> N -> N := fun _ _ => 0%N.
(** Two failed attempts: the second creates a lease. *)
Definition example_db1 : Db := (process_event no_draw (example_event "a" 1000) empty_db).2.
Definition example_db2 : Db := (process_event no_draw (example_event "b" 1010) example_db1).2.

Example example_second_attempt :
  (fun o => lease_expires_at <$> out_leases o)
    <$> (process_event no_draw (example_event "b" 1010) example_db1).1 = Ok [Some 10610%N].
Proof. vm_compute. reflexivity. Qed.

Lemma example_reachable : store_reachable example_db2.
Proof.
  eapply rtc_l; [apply Step_process_event|]. eapply rtc_l; [apply Step_process_event|].
  apply rtc_refl.
Qed.

Lemma store_reachable_wf_witness : store_wf example_db2.
Proof. exact (proj1 (store_reachable_wf example_db2 example_reachable)). Defined.

Lemma example_wf : store_wf example_db2.
Proof. repeat (eapply store_step_wf; [apply Step_process_event|]). apply store_wf_empty. Qed.

Definition outcome_of {A} (r : Result A * Db) (d : A) : A :=
  match r.1 with Ok a => a | Err _ => d end.

Definition example_ban : option Lease * Db :=
  match apply_offense no_draw (example_event "b" 1010) example_offense example_db1 with
  | Ok p => p | Err _ => (None, empty_db) end.

(** The second attempt within the window is banned. *)
Lemma ban_decision_witness :
  is_Some example_ban.1 /\
  List.filter (offense_window (example_event "b" 1010) example_offense)
    (offenses example_ban.2) = [].
Proof.
  pose proof (ban_decision no_draw (example_event "b" 1010) example_offense example_db1
                example_ban.1 example_ban.2 ltac:(vm_refl)) as [_ H].
  assert (Hs : is_Some example_ban.1) by (apply is_some_spec; vm_refl).
  exact (conj Hs (proj1 (H Hs))).
Defined.

Lemma process_event_replay_witness :
  process_event no_draw (example_event "b" 2000) example_db2 =
  (Ok {| duplicate := true; out_leases := [] |}, example_db2).
Proof.
  apply (process_event_replay no_draw no_draw (example_event "b" 1010) (example_event "b" 2000)
           example_db1 (outcome_of (process_event no_draw (example_event "b" 1010) example_db1)
                          outcome_default)); [vm_refl|reflexivity..|vm_compute; discriminate].
Defined.

Lemma process_event_atomic_witness :
  checkpoint "sshd" example_db2 = Ok (Some (Checkpoint.Journal "b" 1010)).
Proof.
  refine (process_event_atomic no_draw (example_event "b" 1010) example_db1
            (Ok (outcome_of (process_event no_draw (example_event "b" 1010) example_db1)
                   outcome_default)) example_db2 _ _);
    vm_refl.
Defined.

Lemma prune_offenses_transparent_witness :
  (process_event no_draw (example_event "c" 20000) (prune_offenses 10000 example_db2).2).1 =
  (process_event no_draw (example_event "c" 20000) example_db2).1.
Proof.
  apply prune_offenses_transparent; [exact example_wf|vm_compute; discriminate|reflexivity|].
  repeat constructor. vm_compute. discriminate.
Defined.

Lemma process_events_refines_witness :
  each_event no_draw [example_event "a" 1000; example_event "b" 1010] empty_db =
  (Ok <$> outcome_of (process_events no_draw [example_event "a" 1000; example_event "b" 1010]
                        empty_db) [], example_db2).
Proof.
  assert (Hne : Forall (fun i => ev_offenses i <> [])
    [example_event "a" 1000; example_event "b" 1010]) by (repeat constructor; discriminate).
  apply (proj1 (process_events_refines no_draw [example_event "a" 1000; example_event "b" 1010]
                  empty_db Hne)). vm_refl.
Defined.

Lemma housekeeping_transparent_witness :
  active_leases 11000 (expire 10700 example_db2).2 = active_leases 11000 example_db2.
Proof. exact (proj1 (housekeeping_transparent 10700 0 11000 example_db2 ltac:(lia))). Defined.

Definition example_block : Lease * Db :=
  match manual_block example_net Action.DropAll 1020 None example_db2 with
  | (Ok l, d) => (l, d)
  | (Err _, d) => ({| lease_id := 0; lease_network := example_net; lease_policy := "";
      lease_action := Action.Observe; lease_created_at := 0; lease_expires_at := None;
      lease_escalation_count := 0; lease_manual := true; lease_apply_state := Pending;
      lease_last_error := None |}, d)
  end.
Lemma manual_block_in_force_witness :
  exists ls, active_leases 1020 example_block.2 = Ok ls /\ example_block.1 ∈ ls /\
    forall l, l ∈ ls -> lease_manual l = true -> lease_network l = example_net ->
      l = example_block.1.
Proof.
  apply (manual_block_in_force example_net Action.DropAll 1020 None example_db2);
    [exact example_wf|vm_refl|done].
Defined.

(** The lease of the second attempt, found at both ends of the table. *)
Definition example_first : LeaseRow :=
  default {| r_id := 0; r_network := ""; r_policy := ""; r_action := ""; r_created_at := 0;
             r_expires_at := None; r_escalation_count := 0; r_manual := false;
             r_revoked_at := None; r_expired_at := None; r_apply_state := Pending;
             r_apply_error := None |} (leases example_db2 !! 0%nat).
Definition example_last : LeaseRow := default example_first (last (leases example_db2)).
Lemma one_automatic_lease_witness :
  row_active 1010 example_first = true /\ example_first = example_last.
Proof.
  split; [vm_refl|].
  apply (one_automatic_lease example_db2 example_first example_last 1010);
    [exact example_reachable|apply (list_elem_of_lookup_2 _ 0); vm_refl
    |apply (list_elem_of_lookup_2 _ 0); vm_refl|vm_refl|vm_refl|vm_refl|vm_refl|vm_compute; discriminate
    |vm_compute; discriminate|vm_refl|vm_refl].
Defined.

End Witness.
