(* ===== verification/Detector.v ===== *)
(** * Log record detectors

    [crates/bagel-runtime/src/detector.rs]: a compiled detector matches one
    source record and extracts the offending network, the time of the offense
    and the optional keys. The regex detector keeps recent lines per correlation
    key, a mutable cache that [detect] threads. *)

From S2P Require Import Prelude Core Ip ThirdParty Config Validation.

Local Open Scope N_scope.

Inductive TimestampFormat : Type := Rfc3339 | Unix | Strptime (format : string).

Record ContextEntry : Type := { last_seen : N; lines : list string }.

Definition MAX_CONTEXT_KEYS : nat := N.to_nat 4096.

Section Detector.
Context {NA : IpNetworkApi} {RX : RegexApi} {JS : JsonApi} {TM : TimeApi}.

Record Detection : Type := {
  d_network : IpNetwork;
  d_observed_at : N;
  d_attempt_key : option string;
  d_group_key : option string;
}.

(** The fields of [CompiledDetector::Regex] but for the cache. *)
Record RegexDetector : Type := {
  prefilter : option Regex;
  patterns : list Regex;
  context_patterns : list Regex;
  max_context_lines : N;
  context_window_secs : N;
  ignore : RegexSet;
  address_capture : string;
  timestamp_capture : option string;
  regex_timestamp_format : TimestampFormat;
}.

Record JsonDetector : Type := {
  equals : list (string * string);
  address_pointer : string;
  timestamp_pointer : option string;
  group_key_pointer : option string;
  json_timestamp_format : TimestampFormat;
}.

(** The contents of the mutex. *)
Definition Context : Type := list (string * ContextEntry).

Inductive CompiledDetector : Type :=
| CRegex (d : RegexDetector) (context : Context)
| CJson (d : JsonDetector).

(** ** Compilation *)

(** [parse_timestamp_format]. *)
Definition parse_timestamp_format (format : option string) : Result TimestampFormat :=
  let format := default "rfc3339" format in
  if String.eqb format "rfc3339" then Ok Rfc3339
  else if String.eqb format "unix" then Ok Unix
  else
    match strip_prefix "strptime:" format with
    | Some rest =>
        if str_is_empty rest then
          Err (Error.Config ("unsupported timestamp format " +:+ debug_str format +:+
            "; expected rfc3339, unix, or strptime:<format>"))
        else if strtime_valid rest then Ok (Strptime rest)
        else Err (Error.Config "invalid strptime format")
    | None => Err (Error.Config ("unsupported timestamp format " +:+ debug_str format +:+
                "; expected rfc3339, unix, or strptime:<format>"))
    end.

Definition compile_pattern (pattern : string) : Result Regex :=
  map_err Error.Pattern (regex_new pattern).

(** [CompiledDetector::new]. *)
Definition detector_new (detector : Detector.t) : Result CompiledDetector :=
  match detector with
  | Detector.Regex prefilter patterns context_patterns max_context_lines context_window_secs
      ignore_patterns address_capture timestamp_capture timestamp_format =>
      prefilter ← match prefilter with
                  | Some p => Some <$> compile_pattern p | None => Ok None end;
      patterns ← traverse compile_pattern patterns;
      context_patterns ← traverse compile_pattern context_patterns;
      ignore ← map_err Error.Pattern (regex_set_new ignore_patterns);
      format ← parse_timestamp_format timestamp_format;
      Ok (CRegex {| prefilter := prefilter; patterns := patterns;
                    context_patterns := context_patterns;
                    max_context_lines := max_context_lines;
                    context_window_secs := context_window_secs; ignore := ignore;
                    address_capture := address_capture;
                    timestamp_capture := timestamp_capture;
                    regex_timestamp_format := format |} [])
  | Detector.Json equals address_pointer timestamp_pointer group_key_pointer timestamp_format =>
      format ← parse_timestamp_format timestamp_format;
      Ok (CJson {| equals := equals; address_pointer := address_pointer;
                   timestamp_pointer := timestamp_pointer;
                   group_key_pointer := group_key_pointer;
                   json_timestamp_format := format |})
  end.

(** ** Fields of a record *)

(** [parse_network]. *)
Definition parse_network (raw : string) : option IpNetwork :=
  if str_contains_char "/"%char raw then net_parse raw
  else address ← parse_ip raw; net_new address (if is_ipv4 address then 32 else 128).

(** [u64::try_from] of a signed second count. *)
Definition u64_of_second (t : Z) : option N := if (0 <=? t)%Z then Some (Z.to_N t) else None.

(** [parse_timestamp]. *)
Definition parse_timestamp (raw : string) (format : TimestampFormat) : option N :=
  match format with
  | Unix => timestamp ← parse_unsigned u64_max raw;
            if timestamp <=? i64_max then Some timestamp else None
  | Rfc3339 => timestamp ← jiff_parse raw; u64_of_second timestamp
  | Strptime format => timestamp ← strtime_parse format raw; u64_of_second timestamp
  end.

(** [json_value_matches]. *)
Definition json_value_matches (actual : Value) (expected : string) : bool :=
  match actual with
  | VNull => String.eqb expected "null"
  | VBool value => String.eqb expected (if value then "true" else "false")
  | VNumber value =>
      match num_i64 value with
      | Some v => bool_decide (parse_i64 expected = Some v) | None => false end ||
      match num_u64 value with
      | Some v => bool_decide (parse_unsigned u64_max expected = Some v) | None => false end ||
      match num_f64 value with
      | Some v => match parse_f64 expected with Some e => f64_eqb e v | None => false end
      | None => false end
  | VString value => String.eqb value expected
  | VArray _ | VObject _ => false
  end.

Definition value_as_str (v : Value) : option string :=
  match v with VString s => Some s | _ => None end.

(** ** The regex detector *)

(** The [detect] closure: the first pattern with a usable address wins. *)
Definition regex_detect (d : RegexDetector) (received_at : N) (text : string)
    (patterns : list Regex) : option Detection :=
  first_some (fun pattern =>
    captures ← regex_captures pattern text;
    address ← captures (address_capture d);
    network ← parse_network address;
    let observed_at :=
      default received_at
        (name ← timestamp_capture d; value ← captures name;
         parse_timestamp value (regex_timestamp_format d)) in
    Some {| d_network := network; d_observed_at := observed_at;
            d_attempt_key := captures "attempt_key"; d_group_key := captures "group_key" |})
    patterns.

(** The lines of a context entry, each but the first non-empty prefix
    preceded by a newline. *)
Definition newline : string := String (ascii_of_N 10) EmptyString.
Definition join_lines (l : list string) : string :=
  foldl (fun joined line =>
    (if str_is_empty joined then joined else joined +:+ newline) +:+ line) "" l.
(** [while lines.len() > max { lines.pop_front(); }]. *)
Definition keep_last (max : N) (l : list string) : list string :=
  drop (length l - N.to_nat max)%nat l.

(** Room for [key]: stale entries go, then the oldest one if the cache is
    full. *)
Definition make_room (d : RegexDetector) (received_at : N) (key : string) (cache : Context) :
    Context :=
  let stale_before := received_at - context_window_secs d in
  let cache := bt_retain (fun _ entry => stale_before <=? last_seen entry) cache in
  if negb (bool_decide (is_Some (assoc key cache))) &&
     (MAX_CONTEXT_KEYS <=? length cache)%nat
  then match bt_min_by last_seen cache with
       | Some (oldest, _) => bt_remove oldest cache
       | None => cache
       end
  else cache.

Definition detect_regex (d : RegexDetector) (record : string) (received_at : N)
    (correlation : option string) (cache : Context) : option Detection * Context :=
  if regex_set_is_match (ignore d) record then (None, cache)
  else
    match match prefilter d with
          | Some regex => captures ← regex_captures regex record; captures "content"
          | None => Some record
          end with
    | None => (None, cache)
    | Some content =>
        let direct := regex_detect d received_at content (patterns d) in
        if bool_decide (context_patterns d = []) then (direct, cache)
        else
          match correlation with
          | None => (direct, cache)
          | Some key =>
              let cache := make_room d received_at key cache in
              let entry := default {| last_seen := received_at; lines := [] |}
                             (assoc key cache) in
              let joined := join_lines (lines entry) in
              let joined := (if str_is_empty joined then joined else joined +:+ newline)
                            +:+ content in
              let contextual := regex_detect d received_at joined (context_patterns d) in
              let entry := {| last_seen := received_at;
                              lines := keep_last (max_context_lines d)
                                         (lines entry ++ [content]) |} in
              (match direct with Some x => Some x | None => contextual end,
               bt_insert key entry cache)
          end
    end.

(** ** The JSON detector *)

Definition detect_json (d : JsonDetector) (record : string) (received_at : N) :
    option Detection :=
  value ← json_from_str record;
  if negb (forallb (fun '(pointer, expected) =>
              match json_pointer value pointer with
              | Some actual => json_value_matches actual expected
              | None => false end) (equals d))
  then None
  else
    address ← json_pointer value (address_pointer d);
    address ← value_as_str address;
    network ← parse_network address;
    let observed_at :=
      default received_at
        (pointer ← timestamp_pointer d; v ← json_pointer value pointer;
         raw ← value_as_str v; parse_timestamp raw (json_timestamp_format d)) in
    group_key ← match group_key_pointer d with
                | Some pointer => v ← json_pointer value pointer; s ← value_as_str v; Some (Some s)
                | None => Some None
                end;
    Some {| d_network := network; d_observed_at := observed_at; d_attempt_key := None;
            d_group_key := group_key |}.

(** [CompiledDetector::detect], with the detector after it. *)
Definition detect (detector : CompiledDetector) (record : string) (received_at : N)
    (correlation : option string) : option Detection * CompiledDetector :=
  match detector with
  | CRegex d cache =>
      let '(found, cache) := detect_regex d record received_at correlation cache in
      (found, CRegex d cache)
  | CJson d => (detect_json d record received_at, detector)
  end.
End Detector.

(** ** The context cache *)

Section CacheFacts.
Context {NA : IpNetworkApi} {RX : RegexApi} {JS : JsonApi} {TM : TimeApi}.

Definition cache_ok (max : N) (cache : Context) : Prop :=
  bt_sorted cache /\ (length cache <= MAX_CONTEXT_KEYS)%nat /\
  Forall (fun e => (length (lines e.2) <= N.to_nat max)%nat) cache.

(** The bounds of a detector's memory. *)
Definition detector_ok (c : CompiledDetector) : Prop :=
  match c with
  | CRegex d cache => cache_ok (max_context_lines d) cache
  | CJson _ => True
  end.

Lemma keep_last_length max l : (length (keep_last max l) <= N.to_nat max)%nat.
Proof. unfold keep_last. rewrite length_drop. lia. Qed.

Lemma filter_elem {A} (p : A -> bool) l x : x ∈ List.filter p l -> x ∈ l.
Proof. rewrite !list_elem_of_In, filter_In. tauto. Qed.

Lemma filter_length_le {A} (p : A -> bool) (l : list A) : (length (List.filter p l) <= length l)%nat.
Proof. induction l as [|a l IH]; cbn; [lia|]. destruct (p a); cbn; lia. Qed.

Lemma cache_ok_filter max p cache : cache_ok max cache -> cache_ok max (List.filter p cache).
Proof.
  intros (Hs & Hl & Hf). repeat split.
  - by apply bt_filter_sorted.
  - pose proof (filter_length_le p cache). lia.
  - apply Forall_forall. intros e He%filter_elem. by eapply Forall_forall in Hf.
Qed.

(** After [make_room] the key is present or there is a free slot. *)
Lemma make_room_ok d now key cache :
  cache_ok (max_context_lines d) cache ->
  cache_ok (max_context_lines d) (make_room d now key cache) /\
  (key ∈ (make_room d now key cache).*1 \/
   (length (make_room d now key cache) < MAX_CONTEXT_KEYS)%nat).
Proof.
  intros Hc. unfold make_room. cbv zeta.
  apply (cache_ok_filter _ (fun e => now - context_window_secs d <=? last_seen e.2)) in Hc.
  fold (bt_retain (fun _ entry => now - context_window_secs d <=? last_seen entry) cache) in Hc.
  revert Hc. generalize (bt_retain (fun _ entry => now - context_window_secs d <=? last_seen entry)
    cache). intros m Hm.
  case_bool_decide as Hk; cbn [negb andb].
  { split; [done|]. left. by apply assoc_some_key. }
  destruct (Nat.leb_spec MAX_CONTEXT_KEYS (length m)) as [Hfull|]; [|split; [done|right; lia]].
  destruct (bt_min_by_some last_seen m) as [[o e] Ho].
  { intros ->. unfold MAX_CONTEXT_KEYS in Hfull. cbn in Hfull. lia. }
  rewrite Ho. split; [by apply cache_ok_filter|]. right.
  apply bt_min_by_elem in Ho. pose proof (proj1 (proj2 Hm)).
  assert (length (bt_remove o m) < length m)%nat; [|lia].
  apply bt_remove_length, list_elem_of_fmap. by exists (o, e).
Qed.

Lemma bt_insert_forall {V} (P : string * V -> Prop) k v m :
  P (k, v) -> Forall P m -> Forall P (bt_insert k v m).
Proof.
  intros Hp Hm. induction Hm as [|[k' v'] m H Hm IH]; cbn; [by repeat constructor|].
  destruct (String.compare k k'); repeat constructor; auto.
Qed.

Lemma cache_ok_insert max key e m :
  cache_ok max m -> key ∈ m.*1 \/ (length m < MAX_CONTEXT_KEYS)%nat ->
  (length (lines e) <= N.to_nat max)%nat -> cache_ok max (bt_insert key e m).
Proof.
  intros (Hs & Hl & Hf) Hroom He. repeat split.
  - by apply bt_insert_sorted.
  - destruct Hroom as [Hk|Hk].
    + by rewrite bt_insert_length_present.
    + pose proof (bt_insert_length key e m). lia.
  - by apply bt_insert_forall.
Qed.

(** A detector's memory stays bounded whatever the log says: at most 4096
    correlation keys, in key order, each with at most [max_context_lines]
    lines. *)
Theorem detect_bounded c record now correlation :
  detector_ok c -> detector_ok (detect c record now correlation).2.
Proof.
  destruct c as [d cache|d]; [|done]. intros Hc. cbn in Hc. unfold detect, detect_regex.
  destruct (regex_set_is_match _ _); [done|].
  destruct (match prefilter d with Some _ => _ | None => _ end) as [content|]; [|done].
  case_bool_decide; [done|]. destruct correlation as [key|]; [|done]. cbn.
  destruct (make_room_ok d now key cache Hc) as [Hok Hroom].
  apply cache_ok_insert; [done|done|]. apply keep_last_length.
Qed.

Lemma detector_new_ok det c : detector_new det = Ok c -> detector_ok c.
Proof.
  destruct det; cbn; intros H; inv_result; [|done].
  repeat split; [constructor|unfold MAX_CONTEXT_KEYS; cbn; lia|constructor].
Qed.

(** ** Times *)

Context {TL : TimeLaws}.

Lemma u64_of_second_i64 z t :
  u64_of_second z = Some t -> (z <= Z.of_N i64_max)%Z -> t <= i64_max.
Proof. unfold u64_of_second. destruct (Z.leb_spec 0 z); intros; simplify_eq; lia. Qed.

Lemma parse_timestamp_i64 raw f t : parse_timestamp raw f = Some t -> t <= i64_max.
Proof.
  unfold parse_timestamp. destruct f as [| |f]; intros (z & Hz & H)%bind_Some.
  - by eapply u64_of_second_i64, jiff_parse_i64.
  - destruct (N.leb_spec z i64_max); by simplify_eq.
  - by eapply u64_of_second_i64, strtime_parse_i64.
Qed.

Lemma default_time_le now (o : option N) :
  now <= i64_max -> (forall t, o = Some t -> t <= i64_max) -> default now o <= i64_max.
Proof. intros Hn Ho. destruct o; cbn; auto. Qed.

Lemma first_some_inv {A B} (f : A -> option B) l b :
  first_some f l = Some b -> exists a, a ∈ l /\ f a = Some b.
Proof.
  induction l as [|a l IH]; cbn; [done|]. destruct (f a) eqn:E.
  - intros [= ->]. exists a. by rewrite elem_of_cons; auto.
  - intros (x & Hx & H)%IH. exists x. rewrite elem_of_cons. auto.
Qed.

Lemma regex_detect_time d now text ps x :
  now <= i64_max -> regex_detect d now text ps = Some x -> d_observed_at x <= i64_max.
Proof.
  intros Hn (p & _ & H)%first_some_inv. simplify_option_eq.
  apply default_time_le; [done|]. intros t Ht. simplify_option_eq. by eapply parse_timestamp_i64.
Qed.

(** The time a detector reports always fits the store's signed column,
    whatever timestamp the log line claims: hostile lines cannot make the
    store reject a batch. *)
Lemma detect_time_storable c record now correlation x :
  now <= i64_max -> (detect c record now correlation).1 = Some x -> d_observed_at x <= i64_max.
Proof.
  intros Hn. destruct c as [d cache|d]; unfold detect, detect_regex, detect_json.
  - destruct (regex_set_is_match _ _); [done|].
    destruct (match prefilter d with Some _ => _ | None => _ end) as [content|]; [|done].
    case_bool_decide; [by apply regex_detect_time|].
    destruct correlation as [key|]; [|by apply regex_detect_time]. cbn.
    destruct (regex_detect d now content (patterns d)) eqn:E.
    + intros [= <-]. by eapply regex_detect_time.
    + by apply regex_detect_time.
  - cbn. intros H. destruct (json_from_str record); [|done]. cbn in H.
    destruct (negb _); [done|]. simplify_option_eq.
    apply default_time_le; [done|]. intros t Ht. simplify_option_eq.
    by eapply parse_timestamp_i64.
Qed.
End CacheFacts.

(** ** Validated detectors compile *)

Section CompileFacts.
Context {NA : IpNetworkApi} {RX : RegexApi} {JS : JsonApi} {TM : TimeApi} {RL : RegexLaws}.

Definition detector_format (d : Detector.t) : option string :=
  match d with
  | Detector.Regex _ _ _ _ _ _ _ _ f => f
  | Detector.Json _ _ _ _ f => f
  end.
(** The conversion specifiers after [strptime:] are known. *)
Definition format_known (format : option string) : Prop :=
  forall f rest, format = Some f -> strip_prefix "strptime:" f = Some rest ->
    strtime_valid rest = true.

Lemma parse_format_validated policy f :
  validate_timestamp_format policy f = Ok tt -> format_known f ->
  exists t, parse_timestamp_format f = Ok t.
Proof.
  unfold validate_timestamp_format, parse_timestamp_format, format_known.
  destruct f as [f|]; [|by eexists]. rewrite fail_if_ok, negb_false_iff. intros Hk Hv. cbn [from_option id].
  destruct (String.eqb f "rfc3339"); [by eexists|]. destruct (String.eqb f "unix"); [by eexists|].
  rewrite !orb_false_l in Hk. specialize (Hv f). destruct (strip_prefix "strptime:" f) as [rest|]; [|done].
  apply negb_true_iff in Hk. rewrite Hk, (Hv rest) by done. by eexists.
Qed.

Lemma compile_pattern_validated scope field p r :
  compile_regex scope field p = Ok r -> regex_new p = Ok r /\ compile_pattern p = Ok r.
Proof.
  unfold compile_regex, compile_pattern. destruct (regex_new p); cbn; [|done].
  by intros [= ->].
Qed.

Lemma regex_patterns_validated policy ps cps a t :
  validate_regex_patterns policy ps cps a t = Ok tt ->
  Forall (fun p => exists r, compile_pattern p = Ok r) ps /\
  Forall (fun p => exists r, compile_pattern p = Ok r) cps.
Proof.
  unfold validate_regex_patterns. intros H. apply bind_ok in H as (u & H1 & H2).
  apply for_each_ok in H1. apply for_each_ok in H2.
  split; (eapply Forall_impl; [eassumption|]); cbn; intros p Hp;
    apply bind_ok in Hp as (r & [_ Hr]%compile_pattern_validated & _); eauto.
Qed.

Lemma detector_new_compiles policy d :
  validate_detector policy d = Ok tt -> format_known (detector_format d) ->
  exists c, detector_new d = Ok c.
Proof.
  destruct d as [pre ps cps ml cw ig ac tc tf|eq ap tp gp tf]; cbn [validate_detector detector_format detector_new]; intros H Hk.
  - repeat match type of H with (_ ≫= _) = _ =>
      let u := fresh "u" in let Hu := fresh "Hu" in apply bind_ok in H as (u & Hu & H) end.
    destruct u4; apply regex_patterns_validated in Hu4 as [Hps Hcps].
    apply for_each_ok in Hu5.
    destruct (parse_format_validated _ _ H Hk) as [t ->].
    destruct (traverse_total _ _ Hps) as (rs & -> & _).
    destruct (traverse_total _ _ Hcps) as (crs & -> & _).
    destruct (regex_set_ok ig) as [s ->].
    + eapply Forall_impl; [exact Hu5|]. cbn. intros p Hp.
      apply bind_ok in Hp as (r & [Hr _]%compile_pattern_validated & _). eauto.
    + destruct pre as [p|]; cbn; [|by eexists].
      apply bind_ok in Hu6 as (r & [_ ->]%compile_pattern_validated & _). by eexists.
  - repeat match type of H with (_ ≫= _) = _ =>
      let u := fresh "u" in let Hu := fresh "Hu" in apply bind_ok in H as (u & Hu & H) end.
    destruct (parse_format_validated _ _ H Hk) as [t ->]. by eexists.
Qed.

(** What validation accepts, the runtime can compile: a validated
    detector whose [strptime] specifiers are known always builds. *)
Lemma detector_new_validated policy d :
  validate_detector policy d = Ok tt -> format_known (detector_format d) ->
  exists c, detector_new d = Ok c /\ detector_ok c.
Proof.
  intros Hv Hf. destruct (detector_new_compiles policy d Hv Hf) as [c Hc].
  exists c. split; [done|]. by eapply detector_new_ok.
Qed.
End CompileFacts.

(** ** Examples *)

Section DetectorWitness.
#[local] Existing Instances cidr_api Literal.regex Literal.json Literal.time Literal.regex_laws
  Literal.time_laws.

Definition example_detector : Detector.t :=
  Detector.Regex None ["failed from "] ["retry "] 2 60 [] "address" None None.
Definition example_compiled : CompiledDetector :=
  CRegex {| prefilter := None; patterns := ["failed from "]; context_patterns := ["retry "];
            max_context_lines := 2; context_window_secs := 60; ignore := [];
            address_capture := "address"; timestamp_capture := None;
            regex_timestamp_format := Rfc3339 |} [].
Definition example_detection : Detection :=
  default {| d_network := {| cidr_ip := V4 0; cidr_prefix := 0; cidr_ok := eq_refl |};
             d_observed_at := 0; d_attempt_key := None; d_group_key := None |}
    (detect example_compiled "failed from 192.0.2.1" 42 (Some "pid:1")).1.

Lemma detect_bounded_witness :
  detector_ok (detect example_compiled "failed from 192.0.2.1" 42 (Some "pid:1")).2.
Proof.
  apply detect_bounded. cbn. split; [constructor|]. split; [|constructor].
  unfold MAX_CONTEXT_KEYS. cbn. lia.
Defined.

End DetectorWitness.
