(* ===== verification/Defense.v ===== *)
(** * The defense loop

    [crates/bagel-runtime/src/defense.rs], [defense_maintenance.rs] and
    [offense.rs]: detection of offenses in source records, their persistence, and
    the reconciliation of the leases in force with the firewall.

    The methods of [Defense] become operations on its record. What they read from
    outside is an [Env]: the clock, the addresses of the local interfaces, the
    [nft] process and the random draws of ban schedules, all as one operation
    sees them. Metrics and log lines are left out. *)

From S2P Require Import Prelude Core Ip ThirdParty Config Validation Firewall Store.
From S2P Require Import Detector.

(** [impl From<TransportProtocol> for Protocol] and
    [impl From<BlockVerdict> for Verdict]. *)
Definition protocol_from (p : TransportProtocol) : Protocol.t :=
  match p with Tcp => Protocol.Tcp | Udp => Protocol.Udp end.
Definition verdict_from (v : BlockVerdict.t) : Verdict.t :=
  match v with BlockVerdict.Drop => Verdict.Drop | BlockVerdict.Reject => Verdict.Reject end.

Definition RECORD_QUEUE : nat := N.to_nat 1024.
Definition RECORD_BATCH : nat := N.to_nat 256.

(** A record of a source ([source.rs]). *)
Record SourceRecord : Type := {
  sr_source : string;
  sr_id : string;
  sr_payload : string;
  sr_correlation : option string;
  sr_observed_at : N;
  sr_checkpoint : Checkpoint.t;
  sr_oversized : bool;
}.

Section Defense.
Context {NA : IpNetworkApi} {RX : RegexApi} {JS : JsonApi} {TM : TimeApi} {SC : StoreCodec}.

Record Env : Type := {
  env_now : N;
  env_local : result string (list IpAddr);
  env_nft : string -> string -> result string unit;
  env_draw : Z -> N -> N;
}.

Record CompiledPolicy : Type := {
  cp_policy : Policy;
  cp_detector : CompiledDetector;
  cp_ignored : list IpNetwork;
}.

Record Defense : Type := {
  df_config : Config;
  df_firewall : Firewall;
  df_store : Db;
  df_active : list IpNetwork;
  df_policies : list (string * CompiledPolicy);
  df_protected : list IpNetwork;
  df_no_block : list IpNetwork;
  df_source_ready : list (string * bool);
  df_sequences : list (string * N);
  df_listener_locks : list string;
  df_processor_ready : bool;
  df_web_taken : list string;
}.

(** Assignments to the fields behind locks and atomics. *)
Definition set_firewall (d : Defense) (fw : Firewall) : Defense := {|
  df_config := df_config d; df_firewall := fw; df_store := df_store d; df_active := df_active d;
  df_policies := df_policies d; df_protected := df_protected d; df_no_block := df_no_block d;
  df_source_ready := df_source_ready d; df_sequences := df_sequences d;
  df_listener_locks := df_listener_locks d; df_processor_ready := df_processor_ready d;
  df_web_taken := df_web_taken d |}.
Definition set_store (d : Defense) (db : Db) : Defense := {|
  df_config := df_config d; df_firewall := df_firewall d; df_store := db;
  df_active := df_active d; df_policies := df_policies d; df_protected := df_protected d;
  df_no_block := df_no_block d; df_source_ready := df_source_ready d;
  df_sequences := df_sequences d; df_listener_locks := df_listener_locks d;
  df_processor_ready := df_processor_ready d; df_web_taken := df_web_taken d |}.
Definition set_active (d : Defense) (l : list IpNetwork) : Defense := {|
  df_config := df_config d; df_firewall := df_firewall d; df_store := df_store d;
  df_active := l; df_policies := df_policies d; df_protected := df_protected d;
  df_no_block := df_no_block d; df_source_ready := df_source_ready d;
  df_sequences := df_sequences d; df_listener_locks := df_listener_locks d;
  df_processor_ready := df_processor_ready d; df_web_taken := df_web_taken d |}.
Definition set_policies (d : Defense) (l : list (string * CompiledPolicy)) : Defense := {|
  df_config := df_config d; df_firewall := df_firewall d; df_store := df_store d;
  df_active := df_active d; df_policies := l; df_protected := df_protected d;
  df_no_block := df_no_block d; df_source_ready := df_source_ready d;
  df_sequences := df_sequences d; df_listener_locks := df_listener_locks d;
  df_processor_ready := df_processor_ready d; df_web_taken := df_web_taken d |}.
Definition set_sequences (d : Defense) (l : list (string * N)) : Defense := {|
  df_config := df_config d; df_firewall := df_firewall d; df_store := df_store d;
  df_active := df_active d; df_policies := df_policies d; df_protected := df_protected d;
  df_no_block := df_no_block d; df_source_ready := df_source_ready d; df_sequences := l;
  df_listener_locks := df_listener_locks d; df_processor_ready := df_processor_ready d;
  df_web_taken := df_web_taken d |}.
Definition set_processor_ready (d : Defense) (b : bool) : Defense := {|
  df_config := df_config d; df_firewall := df_firewall d; df_store := df_store d;
  df_active := df_active d; df_policies := df_policies d; df_protected := df_protected d;
  df_no_block := df_no_block d; df_source_ready := df_source_ready d;
  df_sequences := df_sequences d; df_listener_locks := df_listener_locks d;
  df_processor_ready := b; df_web_taken := df_web_taken d |}.
Definition set_web_taken (d : Defense) (l : list string) : Defense := {|
  df_config := df_config d; df_firewall := df_firewall d; df_store := df_store d;
  df_active := df_active d; df_policies := df_policies d; df_protected := df_protected d;
  df_no_block := df_no_block d; df_source_ready := df_source_ready d;
  df_sequences := df_sequences d; df_listener_locks := df_listener_locks d;
  df_processor_ready := df_processor_ready d; df_web_taken := l |}.

(** ** The shared view of the leases in force: [ActiveLeases] *)

Definition active_contains (networks : list IpNetwork) (ip : IpAddr) : bool :=
  existsb (fun network => net_contains network ip) networks.
Definition active_insert (network : IpNetwork) (networks : list IpNetwork) : list IpNetwork :=
  if bool_decide (network ∈ networks) then networks else networks ++ [network].

(** ** Networks *)

(** [host_network]. *)
Definition host_network (address : IpAddr) : Result IpNetwork :=
  ok_or (Error.Network "invalid prefix")
    (net_new address (if is_ipv4 address then 32 else 128)%N).
(** [defense::parse_network] and [parse_networks]. *)
Definition network_from (raw : string) : Result IpNetwork :=
  if str_contains_char "/"%char raw then ok_or (Error.Network "invalid network") (net_parse raw)
  else address ← ok_or (Error.Network "invalid IP address syntax") (parse_ip raw);
       host_network address.
Definition parse_networks (raw : list string) : Result (list IpNetwork) :=
  traverse network_from raw.

(** [Defense::is_protected]. *)
Definition is_protected (env : Env) (d : Defense) (network : IpNetwork) : Result bool :=
  if existsb (fun protected => networks_overlap protected network) (df_protected d) then Ok true
  else
    addresses ← map_err Error.Io (env_local env);
    locals ← traverse host_network addresses;
    Ok (existsb (fun local => networks_overlap local network) locals).
(** [Defense::is_no_block_network]. *)
Definition is_no_block_network (d : Defense) (network : IpNetwork) : bool :=
  existsb (fun no_block => networks_overlap no_block network) (df_no_block d).
(** [Defense::enforcement_action]. *)
Definition enforcement_action (d : Defense) (network : IpNetwork) (action : Action.t) :
    Action.t :=
  if is_no_block_network d network && bool_decide (is_Some (block_parts action))
  then Action.Observe else action.
(** [Defense::is_spared_lease]. *)
Definition is_spared_lease (d : Defense) (lease : Lease) : bool :=
  is_no_block_network d (lease_network lease) && is_observe (lease_action lease) &&
  match assoc (lease_policy lease) (df_policies d) with
  | Some policy => bool_decide (is_Some (block_parts (p_action (cp_policy policy))))
  | None => false
  end.

(** [membership]. *)
Definition membership (lease : Lease) (config : Config) : Result (option Membership) :=
  match block_parts (lease_action lease) with
  | Some (verdict, target) =>
      let verdict := verdict_from verdict in
      scope ← match target with
              | BlockTarget.All => Ok (scope_all_ports verdict)
              | BlockTarget.Protocol protocol => Ok (scope_protocol (protocol_from protocol) verdict)
              | BlockTarget.Ports protocol ports =>
                  map_err Error.Io (scope_new (protocol_from protocol) ports verdict)
              end;
      Ok (Some {| m_network := lease_network lease; m_scope := scope |})
  | None =>
      match lease_action lease with
      | Action.TarpitRedirect protocol ports listener =>
          candidate ← ok_or (Error.Config ("unknown redirect listener " +:+ listener))
            (list_find_bool (fun c => String.eqb (l_name c) listener) (listeners config));
          address ← ok_or (Error.Config "invalid socket address syntax")
            (parse_socket (l_listen_addr candidate));
          scope ← map_err Error.Io
            (scope_new (protocol_from protocol) ports (Verdict.Redirect (sa_port address)));
          Ok (Some {| m_network := lease_network lease; m_scope := scope |})
      | _ => Ok None
      end
  end.

(** ** Maintenance *)

(** A store method run under the lock. *)
Definition on_store {A} (f : Db -> Result A * Db) : st Defense A := fun d =>
  let '(r, db) := f (df_store d) in (r, set_store d db).

(** What the loop of [reconcile] collects. *)
Record Plan : Type := {
  pl_memberships : list Membership;
  pl_protected : list Z;
  pl_spared : list Z;
}.
Definition empty_plan : Plan := {| pl_memberships := []; pl_protected := []; pl_spared := [] |}.

Fixpoint plan_leases (env : Env) (d : Defense) (leases : list Lease) (plan : Plan) :
    Result Plan :=
  match leases with
  | [] => Ok plan
  | lease :: leases =>
      protected ← is_protected env d (lease_network lease);
      if (protected : bool) then
        plan_leases env d leases {| pl_memberships := pl_memberships plan;
          pl_protected := pl_protected plan ++ [lease_id lease]; pl_spared := pl_spared plan |}
      else if is_no_block_network d (lease_network lease) then
        plan_leases env d leases {| pl_memberships := pl_memberships plan;
          pl_protected := pl_protected plan; pl_spared := pl_spared plan ++ [lease_id lease] |}
      else
        m ← membership lease (df_config d);
        plan_leases env d leases {| pl_memberships := pl_memberships plan ++ option_list m;
          pl_protected := pl_protected plan; pl_spared := pl_spared plan |}
  end.

(** The networks of [ActiveLeases] after a reconciliation. *)
Definition enforced_networks (plan : Plan) (leases : list Lease) : list IpNetwork :=
  lease_network <$> List.filter (fun lease =>
    negb (is_observe (lease_action lease)) &&
    negb (bool_decide (lease_id lease ∈ pl_protected plan))) leases.

(** How a lease was applied. *)
Definition lease_outcome (required : bool) (plan : Plan) (result : result string unit)
    (lease : Lease) : Z * ApplyOutcome :=
  (lease_id lease,
   match result with
   | Err error => OFailed error
   | Ok _ =>
       if negb required || is_observe (lease_action lease) ||
          bool_decide (lease_id lease ∈ pl_protected plan) ||
          bool_decide (lease_id lease ∈ pl_spared plan)
       then OObserved else OApplied
   end).

(** [defense_maintenance::reconcile]. *)
Definition reconcile (env : Env) : st Defense unit :=
  on_store (begin_reconcile (env_now env)) ;;
  d ← get;
  leases ← lift (active_leases (env_now env) (df_store d));
  plan ← lift (plan_leases env d leases empty_plan);
  modify (fun d => set_active d (enforced_networks plan leases)) ;;
  d ← get;
  let '(fw, result) := firewall_reconcile (env_nft env) (df_firewall d) (pl_memberships plan) in
  modify (fun d => set_firewall d fw) ;;
  on_store (mark_apply_results (lease_outcome (fw_required fw) plan result <$> leases)) ;;
  lift (map_err Error.Io result).

(** [Defense::max_findtime_secs]. *)
Definition max_findtime_secs (d : Defense) : N :=
  foldr (fun e m => p_findtime_secs (cp_policy e.2) `max` m)%N 0%N (df_policies d).

(** [defense_maintenance::expire]. *)
Definition expire_leases (env : Env) : st Defense N :=
  d ← get;
  let retention := (max_findtime_secs d `max` 86400)%N in
  let history_retention := history_retention_secs (df_config d) in
  expired ← on_store (expire (env_now env));
  on_store (prune_offenses (env_now env - retention)) ;;
  on_store (prune_leases (env_now env - history_retention) (env_now env)) ;;
  mret expired.

(** [defense_maintenance::manual_block]. *)
Definition block_manually (env : Env) (raw : string) (duration : option N) : st Defense unit :=
  lift (fail_if (bool_decide (duration = Some 0%N)) "manual ban duration must be non-zero") ;;
  network ← lift (network_from raw);
  d ← get;
  protected ← lift (is_protected env d network);
  lift (fail_if protected ("refusing to block protected network " +:+ net_show network)) ;;
  lift (fail_if (is_no_block_network d network)
          ("refusing to block shared network " +:+ net_show network)) ;;
  on_store (manual_block network Action.DropAll (env_now env) duration) ;;
  reconcile env.

(** [defense_maintenance::unblock]. *)
Definition unblock (env : Env) (raw : string) : st Defense N :=
  network ← lift (network_from raw);
  changed ← on_store (manual_unblock network (env_now env));
  reconcile env ;;
  mret changed.

(** One row of [defense_maintenance::bans]. *)
Record Ban : Type := {
  ban_network : string; ban_policy : string; ban_action : string; ban_created_at : N;
  ban_expires_at : option N; ban_escalation : N; ban_manual : bool; ban_blocking : bool;
  ban_state : ApplyState; ban_error : option string }.
Definition ban_of (lease : Lease) : Ban := {|
  ban_network := net_show (lease_network lease); ban_policy := lease_policy lease;
  ban_action := show_action (lease_action lease); ban_created_at := lease_created_at lease;
  ban_expires_at := lease_expires_at lease;
  ban_escalation := (lease_escalation_count lease `min` u32_max)%N;
  ban_manual := lease_manual lease;
  ban_blocking := bool_decide (is_Some (block_parts (lease_action lease)));
  ban_state := lease_apply_state lease; ban_error := lease_last_error lease |}.
Definition bans (env : Env) (d : Defense) : Result (list Ban) :=
  leases ← active_leases (env_now env) (df_store d);
  Ok (map ban_of leases).

(** ** Opening *)

Definition is_in_process (source : Source.t) : bool :=
  match source with Source.Listener _ | Source.Web => true | _ => false end.

Fixpoint open_sequences (db : Db) (l : list (string * Source.t)) :
    Result (list (string * N)) :=
  match l with
  | [] => Ok []
  | (name, source) :: l =>
      if is_in_process source then
        c ← checkpoint name db;
        rest ← open_sequences db l;
        Ok ((name, match c with Some (Checkpoint.Listener sequence) => sequence | _ => 0%N end)
            :: rest)
      else open_sequences db l
  end.

Definition compile_policy (e : string * Policy) : Result (string * CompiledPolicy) :=
  let '(name, policy) := e in
  detector ← detector_new (p_detector policy);
  ignored ← parse_networks (p_ignore_networks policy);
  Ok (name, {| cp_policy := policy; cp_detector := detector; cp_ignored := ignored |}).

(** [Defense::open], the tables of the opened store being [db]. *)
Definition defense_open (config : Config) (db : Db) : Result Defense :=
  sequences ← open_sequences db (sources config);
  policies ← traverse compile_policy (policies config);
  let required := bool_decide (mode (enforcement config) = EnforcementMode.Required) in
  protected ← parse_networks (protected_networks config);
  no_block ← parse_networks (no_block_networks config);
  Ok {| df_config := config;
        df_firewall := firewall_new (nft_path config) (table (enforcement config))
                         (chain_priority (enforcement config)) required;
        df_store := db; df_active := []; df_policies := policies; df_protected := protected;
        df_no_block := no_block;
        df_source_ready := (fun '(name, source) => (name, is_in_process source)) <$> sources config;
        df_sequences := sequences; df_listener_locks := sequences.*1;
        df_processor_ready := false; df_web_taken := [] |}.

(** [Defense::is_ready]. *)
Definition is_ready (d : Defense) : bool :=
  fw_ready (df_firewall d) && df_processor_ready d && forallb snd (df_source_ready d).

(** [Defense::initialize]. *)
Definition initialize (env : Env) : st Defense unit :=
  expire_leases env ;; reconcile env ;; modify (fun d => set_processor_ready d true).

(** [Defense::web_source]: the name and the sequence number it resumes from. *)
Definition web_source (name : string) : st Defense (string * N) :=
  d ← get;
  lift (fail_if (match assoc name (sources (df_config d)) with
                 | Some Source.Web => false | _ => true end)
          (name +:+ " is not a configured web source")) ;;
  lift (fail_if (bool_decide (name ∈ df_web_taken d))
          ("web source " +:+ name +:+ " is already attached")) ;;
  modify (fun d => set_web_taken d (df_web_taken d ++ [name])) ;;
  let checkpoint := default 0%N (assoc name (df_sequences d)) in
  let stored := last_listener_sequence name (df_store d) in
  mret (name, checkpoint `max` stored)%N.

(** ** Source records *)

(** [PendingOffense] and [PendingEvent]. *)
Record PendingOffense : Type := {
  po_policy_name : string;
  po_policy : Policy;
  po_network : IpNetwork;
  po_observed_at : option N;
  po_attempt_key : option string;
  po_group_key : option string;
}.
Record PendingEvent : Type := {
  pe_source : string;
  pe_event_id : string;
  pe_checkpoint : Checkpoint.t;
  pe_observed_at : N;
  pe_offenses : list PendingOffense;
}.

(** [Defense::offense_input]. *)
Definition offense_input (policy_name : string) (policy : Policy) (history : N)
    (network : IpNetwork) (observed_at : option N) (attempt_key group_key : option string) :
    OffenseInput := {|
  i_policy := policy_name; i_network := network; i_max_attempts := p_max_attempts policy;
  i_findtime_secs := p_findtime_secs policy; i_history_retention_secs := history;
  i_ban := p_ban policy; i_action := p_action policy; i_observed_at := observed_at;
  i_attempt_key := attempt_key; i_group_key := group_key |}.

Definition with_detector (c : CompiledPolicy) (detector : CompiledDetector) : CompiledPolicy :=
  {| cp_policy := cp_policy c; cp_detector := detector; cp_ignored := cp_ignored c |}.

(** The loop over the policies of a record's source: the policies with their
    detectors after it, the offenses and whether any detector matched. *)
Fixpoint scan_policies (env : Env) (d : Defense) (record : SourceRecord)
    (ps : list (string * CompiledPolicy)) :
    list (string * CompiledPolicy) * Result (list PendingOffense * bool) :=
  match ps with
  | [] => ([], Ok ([], false))
  | (name, compiled) :: rest =>
      if negb (String.eqb (p_source (cp_policy compiled)) (sr_source record)) then
        let '(rest, r) := scan_policies env d record rest in ((name, compiled) :: rest, r)
      else
        let '(found, detector) := detect (cp_detector compiled) (sr_payload record)
                                    (sr_observed_at record) (sr_correlation record) in
        let compiled := with_detector compiled detector in
        match found with
        | None =>
            let '(rest, r) := scan_policies env d record rest in ((name, compiled) :: rest, r)
        | Some detection =>
            let network := d_network detection in
            match is_protected env d network with
            | Err e => ((name, compiled) :: rest, Err e)
            | Ok protected =>
                let skipped := protected ||
                  existsb (fun ignored => networks_overlap ignored network)
                    (cp_ignored compiled) in
                let offense := {|
                  po_policy_name := name;
                  po_policy := with_action (cp_policy compiled)
                    (enforcement_action d network (p_action (cp_policy compiled)));
                  po_network := network; po_observed_at := Some (d_observed_at detection);
                  po_attempt_key := d_attempt_key detection;
                  po_group_key := d_group_key detection |} in
                let '(rest, r) := scan_policies env d record rest in
                ((name, compiled) :: rest,
                 '(offenses, _) ← r;
                 Ok (if skipped then offenses else offense :: offenses, true))
            end
        end
  end.

(** One round of the loop over records: the event to store, if any. A record
    without offenses only advances the checkpoint on every 128th. *)
Definition scan_record (env : Env) (record : SourceRecord) : st Defense (option PendingEvent) :=
  d ← get;
  offenses ← (if sr_oversized record then mret []
              else
                let '(ps, r) := scan_policies env d record (df_policies d) in
                modify (fun d => set_policies d ps) ;; '(offenses, _) ← lift r; mret offenses);
  let event := {| pe_source := sr_source record; pe_event_id := sr_id record;
                  pe_checkpoint := sr_checkpoint record;
                  pe_observed_at := sr_observed_at record; pe_offenses := offenses |} in
  if bool_decide (offenses = []) && negb (sr_oversized record) then
    d ← get;
    let sequence := sat_add u64_max (default 0%N (assoc (sr_source record) (df_sequences d))) 1 in
    modify (fun d => set_sequences d (bt_insert (sr_source record) sequence (df_sequences d))) ;;
    mret (if (sequence mod 128 =? 0)%N then Some event else None)
  else mret (Some event).

Fixpoint scan_records (env : Env) (records : list SourceRecord) : st Defense (list PendingEvent) :=
  match records with
  | [] => mret []
  | record :: records =>
      event ← scan_record env record;
      events ← scan_records env records;
      mret (option_list event ++ events)
  end.

Definition event_input (history : N) (e : PendingEvent) : EventInput := {|
  ev_source := pe_source e; ev_event_id := pe_event_id e; ev_checkpoint := pe_checkpoint e;
  ev_observed_at := pe_observed_at e;
  ev_offenses := (fun o => offense_input (po_policy_name o) (po_policy o) history (po_network o)
                   (po_observed_at o) (po_attempt_key o) (po_group_key o)) <$> pe_offenses e |}.

(** The new leases join the shared view before the firewall is reconciled. *)
Definition note_lease (env : Env) (lease : Lease) : st Defense unit :=
  if is_observe (lease_action lease) then mret tt
  else
    d ← get;
    protected ← lift (is_protected env d (lease_network lease));
    if (protected : bool) then mret tt
    else modify (fun d => set_active d (active_insert (lease_network lease) (df_active d))).

(** [Defense::process_records]. *)
Definition process_records (env : Env) (records : list SourceRecord) : st Defense unit :=
  pending ← scan_records env records;
  if bool_decide (pending = []) then mret tt
  else
    d ← get;
    outcomes ← on_store (process_events (env_draw env)
      (event_input (history_retention_secs (df_config d)) <$> pending));
    let created := mjoin (out_leases <$> outcomes) in
    st_each (note_lease env) created ;;
    if bool_decide (created = []) then mret tt else reconcile env.

(** [Defense::record_listener] up to the first retry loop: [None] when the
    address is protected or ignored, otherwise the event to persist. *)
Definition listener_event (env : Env) (policy_name : string) (address : IpAddr) :
    st Defense (option EventInput) :=
  d ← get;
  compiled ← lift (ok_or (Error.Config ("unknown listener policy " +:+ policy_name))
                     (assoc policy_name (df_policies d)));
  let policy := cp_policy compiled in
  let source := p_source policy in
  lift (fail_if (match assoc source (sources (df_config d)) with
                 | Some (Source.Listener _) => false | _ => true end)
          ("listener policy " +:+ policy_name +:+ " reads source " +:+ source +:+
           " which is not a listener source")) ;;
  network ← lift (host_network address);
  protected ← lift (is_protected env d network);
  if protected || existsb (fun ignored => networks_overlap ignored network) (cp_ignored compiled)
  then mret None
  else
    lift (fail_if (negb (bool_decide (source ∈ df_listener_locks d)))
            ("listener source " +:+ source +:+ " has no lock")) ;;
    let sequence := sat_add u64_max (default 0%N (assoc source (df_sequences d))) 1 in
    modify (fun d => set_sequences d (bt_insert source sequence (df_sequences d))) ;;
    let offense := offense_input policy_name
      (with_action policy (enforcement_action d network (p_action policy)))
      (history_retention_secs (df_config d)) network (Some (env_now env)) None None in
    mret (Some {| ev_source := source;
                  ev_event_id := "listener:" +:+ source +:+ ":" +:+ show_N sequence;
                  ev_checkpoint := Checkpoint.Listener sequence;
                  ev_observed_at := env_now env; ev_offenses := [offense] |}).

(** The reconciliation loop: one environment per attempt, until one succeeds.
    [None] when the attempts given are used up. *)
Fixpoint reconcile_until (envs : list Env) (d : Defense) : option Defense :=
  match envs with
  | [] => None
  | env :: envs =>
      match reconcile env d with
      | (Ok _, d) => Some (set_processor_ready d true)
      | (Err _, d) => reconcile_until envs (set_processor_ready d false)
      end
  end.

(** [Defense::record_listener]; a failing store transaction is retried with the
    same event, [persist] times at most here. *)
Fixpoint persist_until (env : Env) (input : EventInput) (persist : nat) (d : Defense) :
    option (EventOutcome * Defense) :=
  match persist with
  | O => None
  | S persist =>
      match on_store (process_event (env_draw env) input) d with
      | (Ok outcome, d) => Some (outcome, set_processor_ready d true)
      | (Err _, d) => persist_until env input persist (set_processor_ready d false)
      end
  end.
Definition record_listener (env : Env) (persist : nat) (envs : list Env) (policy_name : string)
    (address : IpAddr) (d : Defense) : option (Result unit * Defense) :=
  match listener_event env policy_name address d with
  | (Err e, d) => Some (Err e, d)
  | (Ok None, d) => Some (Ok tt, d)
  | (Ok (Some input), d) =>
      '(outcome, d) ← persist_until env input persist d;
      if bool_decide (out_leases outcome = []) then Some (Ok tt, d)
      else
        match st_each (note_lease env) (out_leases outcome) d with
        | (Err e, d) => Some (Err e, d)
        | (Ok _, d) => d ← reconcile_until envs d; Some (Ok tt, d)
        end
  end.

(** ** The loop of [Defense::run] *)

Inductive LoopEvent : Type :=
| Shutdown
| Received (batch : list SourceRecord)
| Tick.

Record Loop : Type := { lp_defense : Defense; lp_closed : bool }.

(** One turn of the select; [inr] ends the loop with its result. A batch is
    empty only when the closed channel is drained. *)
Definition run_step (env : Env) (e : LoopEvent) (l : Loop) : Loop + (Result unit * Defense) :=
  let finish (r : Result unit) (d : Defense) (closed : bool) :=
    match r with
    | Ok _ => inl {| lp_defense := d; lp_closed := closed |}
    | Err error => inr (Err error, set_processor_ready d false)
    end in
  match e with
  | Shutdown =>
      if lp_closed l then inl l
      else inl {| lp_defense := set_processor_ready (lp_defense l) false; lp_closed := true |}
  | Received [] => inr (Ok tt, lp_defense l)
  | Received batch =>
      let '(r, d) := process_records env batch (lp_defense l) in
      finish r (if is_ok r then set_processor_ready d (negb (lp_closed l)) else d) (lp_closed l)
  | Tick =>
      if lp_closed l then inl l
      else
        let '(r, d) := (expire_leases env ;; reconcile env) (lp_defense l) in
        finish r (if is_ok r then set_processor_ready d true else d) false
  end.
End Defense.
