(* ===== verification/DefenseFacts.v ===== *)
(** * Theorems on the defense loop

    Which networks reach the firewall, how leases are settled, and that the
    parts accept what the others hand them: validated actions become rules,
    listener events are new to the store. *)

From S2P Require Import Prelude Core Ip ThirdParty Config Validation Firewall Store.
From S2P Require Import StoreFacts StoreSpec Detector Defense.

Section DefenseFacts.
Context {NA : IpNetworkApi} {NL : IpNetworkLaws} {RX : RegexApi} {JS : JsonApi} {TM : TimeApi}.
Context {SC : StoreCodec} {SL : StoreCodecLaws}.

(** ** Shielded addresses *)

(** Addresses no rule may touch: those of protected and shared networks and of
    the machine itself. *)
Definition shielded (env : Env) (d : Defense) (a : IpAddr) : Prop :=
  (exists n, n ∈ df_protected d ++ df_no_block d /\ net_contains n a = true) \/
  (exists locals, env_local env = Ok locals /\ a ∈ locals).

Lemma existsb_overlap_false l n m a :
  existsb (fun x => networks_overlap x n) l = false -> m ∈ l -> net_contains m a = true ->
  net_contains n a = false.
Proof.
  intros Hl Hm Ha. rewrite existsb_false in Hl. specialize (Hl m Hm).
  destruct (net_contains n a) eqn:E; [|done].
  by rewrite (networks_overlap_both m n a) in Hl.
Qed.

Lemma host_network_ok a n : host_network a = Ok n -> net_contains n a = true.
Proof.
  unfold host_network. destruct (net_new _ _) as [m|] eqn:E; cbn; [|done]. intros [= ->].
  apply (host_contains a n a); [|done]. by destruct a.
Qed.

Lemma is_protected_false env d n a :
  is_protected env d n = Ok false ->
  (exists m, m ∈ df_protected d /\ net_contains m a = true) \/
  (exists locals, env_local env = Ok locals /\ a ∈ locals) -> net_contains n a = false.
Proof.
  unfold is_protected. destruct (existsb _ (df_protected d)) eqn:E; [done|].
  intros H. inv_result. intros [(m & Hm & Ha')|(ls & Hls & Hin)].
  { by apply (existsb_overlap_false (df_protected d) n m a). }
  rewrite Hls in Ha. cbn in Ha. injection Ha as <-.
  apply traverse_ok in Ha0. apply list_elem_of_lookup in Hin as [i Hi].
  apply (Forall2_lookup_l _ _ _ _ _ Ha0) in Hi as (h & Hh%list_elem_of_lookup_2 & Hn).
  apply host_network_ok in Hn. by apply (existsb_overlap_false a1 n h a).
Qed.

(** ** The plan of a reconciliation *)

Lemma plan_leases_in env d leases plan0 plan m :
  plan_leases env d leases plan0 = Ok plan -> m ∈ pl_memberships plan ->
  m ∈ pl_memberships plan0 \/
  exists lease, lease ∈ leases /\ is_protected env d (lease_network lease) = Ok false /\
    is_no_block_network d (lease_network lease) = false /\
    membership lease (df_config d) = Ok (Some m).
Proof.
  revert plan0. induction leases as [|l ls IH]; intros plan0; cbn.
  { intros [= <-]. auto. }
  intros H Hm. inv_result.
  assert (Hc : forall P : Lease -> Prop, (exists lease, lease ∈ ls /\ P lease) ->
    exists lease, lease ∈ l :: ls /\ P lease) by (intros P (x & ? & ?); exists x; by rewrite elem_of_cons; auto).
  destruct a; [by destruct (IH _ H Hm) as [?|?]; auto|].
  destruct (is_no_block_network d (lease_network l)) eqn:En.
  { by destruct (IH _ H Hm) as [?|?]; auto. }
  inv_result. destruct (IH _ H Hm) as [Hin|?]; [|auto]. cbn in Hin.
  apply elem_of_app in Hin as [?|Hin]; [auto|]. right. exists l. rewrite elem_of_cons.
  destruct a as [x|]; cbn in Hin; [|by apply elem_of_nil in Hin].
  apply list_elem_of_singleton in Hin as ->. auto.
Qed.

Lemma plan_leases_mono env d leases plan0 plan m :
  plan_leases env d leases plan0 = Ok plan -> m ∈ pl_memberships plan0 -> m ∈ pl_memberships plan.
Proof.
  revert plan0. induction leases as [|l ls IH]; intros plan0; cbn; [by intros [= <-]|].
  intros H Hm. inv_result. destruct a; [by eapply IH|].
  destruct (is_no_block_network _ _); [by eapply IH|]. inv_result. eapply IH; [done|].
  cbn. apply elem_of_app. auto.
Qed.

Lemma plan_leases_complete env d leases plan0 plan lease :
  plan_leases env d leases plan0 = Ok plan -> lease ∈ leases ->
  is_protected env d (lease_network lease) = Ok false ->
  is_no_block_network d (lease_network lease) = false ->
  exists m, membership lease (df_config d) = Ok m /\
    forall x, m = Some x -> x ∈ pl_memberships plan.
Proof.
  revert plan0. induction leases as [|l ls IH]; intros plan0; cbn.
  { by intros _ ?%elem_of_nil. }
  intros H [->|Hl]%elem_of_cons Hp Hn.
  - rewrite Hp in H. cbn in H. rewrite Hn in H. inv_result. exists a. split; [done|].
    intros x ->. eapply plan_leases_mono; [done|]. cbn. apply elem_of_app. right. by left.
  - inv_result. destruct a; [by eapply IH|].
    destruct (is_no_block_network d (lease_network l)); [by eapply IH|]. inv_result.
    by eapply IH.
Qed.

Lemma membership_network lease c m :
  membership lease c = Ok (Some m) -> m_network m = lease_network lease.
Proof.
  unfold membership. destruct (block_parts _) as [[v t]|].
  - intros H. by inv_result.
  - destruct (lease_action lease); intros H; by inv_result.
Qed.

Lemma spared_member env d l m p :
  shielded env d (pk_source p) -> is_protected env d (lease_network l) = Ok false ->
  is_no_block_network d (lease_network l) = false ->
  membership l (df_config d) = Ok (Some m) -> member_matches m p = false.
Proof.
  intros Hs Hp Hn Hmem. unfold member_matches. rewrite (membership_network _ _ _ Hmem).
  assert (net_contains (lease_network l) (pk_source p) = false) as ->; [|done].
  destruct Hs as [(n & [Hin|Hin]%elem_of_app & Hc)|Hl].
  - eapply is_protected_false; [done|]. left. eauto.
  - by apply (existsb_overlap_false (df_no_block d) (lease_network l) n).
  - eapply is_protected_false; [done|]. auto.
Qed.

(** Nothing shielded is ever blocked: whatever leases are in force, no rule a
    reconciliation plans matches a packet from a protected network, from a
    shared network, or from an address of the machine itself. *)
Lemma plan_spares_shielded env d leases plan p m :
  plan_leases env d leases empty_plan = Ok plan -> shielded env d (pk_source p) ->
  m ∈ pl_memberships plan -> member_matches m p = false.
Proof.
  intros Hplan Hs Hm. destruct (plan_leases_in _ _ _ _ _ _ Hplan Hm) as [H|(l & _ & Hp & Hn & Hmem)].
  { by apply elem_of_nil in H. }
  by eapply spared_member.
Qed.

(** ** Reconciliation *)

Lemma lift_ok {S A} (r : Result A) (s : S) a s' : lift r s = (Ok a, s') -> r = Ok a /\ s' = s.
Proof. unfold lift. by intros [= -> <-]. Qed.

Lemma on_store_ok {A} (f : Db -> Result A * Db) d a d' :
  on_store f d = (Ok a, d') -> exists db, f (df_store d) = (Ok a, db) /\ d' = set_store d db.
Proof. unfold on_store. destruct (f (df_store d)) as [r db]. intros [= -> <-]. eauto. Qed.

(** The stages of a successful reconciliation. *)
Lemma reconcile_inv env d d' :
  reconcile env d = (Ok tt, d') ->
  exists n db1 leases plan fw db2,
    begin_reconcile (env_now env) (df_store d) = (Ok n, db1) /\
    active_leases (env_now env) db1 = Ok leases /\
    plan_leases env (set_store d db1) leases empty_plan = Ok plan /\
    firewall_reconcile (env_nft env) (df_firewall d) (pl_memberships plan) = (fw, Ok tt) /\
    mark_apply_results (lease_outcome (fw_required fw) plan (Ok tt) <$> leases) db1 = (Ok tt, db2) /\
    df_active d' = enforced_networks plan leases /\ df_store d' = db2 /\
    df_firewall d' = fw /\ df_protected d' = df_protected d.
Proof.
  unfold reconcile. intros H.
  apply st_bind_ok in H as (n & d1 & (db1 & Hb & ->)%on_store_ok & H).
  apply st_bind_ok in H as (? & ? & [= <- <-] & H).
  apply st_bind_ok in H as (leases & ? & [Hl ->]%lift_ok & H).
  apply st_bind_ok in H as (plan & ? & [Hp ->]%lift_ok & H).
  apply st_bind_ok in H as (? & ? & [= <- <-] & H).
  apply st_bind_ok in H as (? & ? & [= <- <-] & H).
  destruct (firewall_reconcile _ _ _) as [fw result] eqn:Hf.
  apply st_bind_ok in H as (? & ? & [= <- <-] & H).
  apply st_bind_ok in H as ([] & ? & (db2 & Hm & ->)%on_store_ok & H).
  apply lift_ok in H as [Hr ->]. destruct result as [[]|]; cbn in Hr; [|done].
  exists n, db1, leases, plan, fw, db2. by repeat split.
Qed.

(** What a block action means for a packet. *)
Definition action_blocks (a : Action.t) (p : Packet) : bool :=
  match block_parts a with
  | None => false
  | Some (_, BlockTarget.All) => true
  | Some (_, BlockTarget.Protocol protocol) =>
      bool_decide (protocol_from protocol = pk_protocol p)
  | Some (_, BlockTarget.Ports protocol ports) =>
      bool_decide (protocol_from protocol = pk_protocol p) && bool_decide (pk_port p ∈ ports)
  end.

Definition is_block_verdict (v : Verdict.t) : bool := negb (Verdict.is_redirect v).

Lemma membership_blocks lease c m p :
  membership lease c = Ok m -> action_blocks (lease_action lease) p = true ->
  net_contains (lease_network lease) (pk_source p) = true ->
  exists x, m = Some x /\ member_matches x p = true /\
    is_block_verdict (s_verdict (m_scope x)) = true.
Proof.
  unfold membership, action_blocks.
  destruct (block_parts (lease_action lease)) as [[v t]|]; [|done].
  assert (Hv : is_block_verdict (verdict_from v) = true) by by destruct v.
  intros H Ha Hc. inv_result. eexists. split; [done|]. unfold member_matches. cbn.
  rewrite Hc. cbn. destruct t as [protocol ports|protocol|]; unfold scope_matches.
  - destruct (scope_new _ _ _) as [s|] eqn:E; cbn in Ha0; [|done]. injection Ha0 as <-.
    apply scope_new_ok in E as (-> & Hver & _ & Hports & _). split; [|by rewrite Hver].
    apply andb_prop in Ha as [-> Hin%bool_decide_eq_true]. cbn.
    apply orb_true_iff. right. apply existsb_elem. exists (pk_port p). rewrite Hports.
    by rewrite N.eqb_refl.
  - injection Ha0 as <-. cbn. by rewrite Ha.
  - injection Ha0 as <-. by cbn.
Qed.

(** C1: a successful reconciliation enforces the leases. When enforcement is
    required, [nft] has accepted a ruleset rendered from memberships such that
    every packet a lease in force blocks meets a drop or reject member, unless
    its network overlaps a protected, shared or local one, and no member
    matches a shielded address. *)
Theorem reconcile_enforces env d d' :
  reconcile env d = (Ok tt, d') -> fw_required (df_firewall d) = true ->
  exists members ruleset leases,
    render_ruleset (fw_table (df_firewall d)) (fw_priority (df_firewall d)) members = Ok ruleset /\
    env_nft env (fw_nft_path (df_firewall d)) ruleset = Ok tt /\
    active_leases (env_now env) (begin_reconcile (env_now env) (df_store d)).2 = Ok leases /\
    (forall lease p, lease ∈ leases ->
       is_protected env d (lease_network lease) = Ok false ->
       is_no_block_network d (lease_network lease) = false ->
       net_contains (lease_network lease) (pk_source p) = true ->
       action_blocks (lease_action lease) p = true ->
       exists m, m ∈ members /\ member_matches m p = true /\
         is_block_verdict (s_verdict (m_scope m)) = true) /\
    (forall p m, shielded env d (pk_source p) -> m ∈ members -> member_matches m p = false).
Proof.
  intros (n & db1 & leases & plan & fw & db2 & Hb & Hl & Hp & Hf & _)%reconcile_inv Hreq.
  unfold firewall_reconcile in Hf. rewrite Hreq in Hf. cbn in Hf.
  destruct (render_ruleset _ _ _) as [ruleset|] eqn:Hr; [|done]. injection Hf as <- Hn.
  exists (pl_memberships plan), ruleset, leases. rewrite Hb. repeat split; try done.
  - intros lease p Hin Hnp Hnb Hc Ha.
    destruct (plan_leases_complete env (set_store d db1) leases empty_plan plan lease Hp Hin Hnp Hnb)
      as (m & Hm & Hx).
    destruct (membership_blocks _ _ _ p Hm Ha Hc) as (x & -> & Hmatch & Hv). eauto.
  - intros p m Hs Hm. by apply (plan_spares_shielded env (set_store d db1) leases plan).
Qed.

(** ** Settling *)

(** What the recorded outcomes make of a row. *)
Definition settle (outcomes : list (Z * ApplyOutcome)) (r : LeaseRow) : LeaseRow :=
  foldl (fun r '(id, o) => if (r_id r =? id)%Z
                           then set_apply r (outcome_state o).1 (outcome_state o).2 else r)
    r outcomes.

Lemma mark_results_settle outcomes db db' :
  mark_results outcomes db = Ok (tt, db') ->
  leases db' = settle outcomes <$> leases db.
Proof.
  revert db. induction outcomes as [|[id o] l IH]; intros db; cbn.
  { intros [= <-]. by rewrite list_fmap_id. }
  destruct (outcome_state o) as [s e] eqn:E. intros H. inv_result.
  rewrite (IH _ H). cbn. rewrite <- list_fmap_compose. apply list_fmap_ext.
  intros i r _. cbn. by rewrite E.
Qed.

Lemma settle_keeps outcomes r :
  r_id (settle outcomes r) = r_id r /\
  (forall now, row_active now (settle outcomes r) = row_active now r).
Proof.
  revert r. induction outcomes as [|[id o] l IH]; intros r; cbn; [done|].
  destruct (r_id r =? id)%Z; [|apply IH]. destruct (IH (set_apply r (outcome_state o).1
    (outcome_state o).2)) as [H1 H2]. split; [exact H1|]. intros now. exact (H2 now).
Qed.

(** A property of every recorded outcome holds of a row with an outcome. *)
Lemma settle_state (Q : ApplyState -> option string -> Prop) outcomes r :
  Forall (fun x => Q (outcome_state x.2).1 (outcome_state x.2).2) outcomes ->
  (Q (r_apply_state r) (r_apply_error r) \/ r_id r ∈ outcomes.*1) ->
  Q (r_apply_state (settle outcomes r)) (r_apply_error (settle outcomes r)).
Proof.
  intros HQ. revert r. induction HQ as [|[id o] l Ho _ IH]; intros r; cbn.
  { intros [H|H]; [done|]. by apply elem_of_nil in H. }
  intros H. apply IH. destruct (Z.eqb_spec (r_id r) id) as [<-|Hne]; [by left|].
  destruct H as [H|H]; [by left|]. right. by apply elem_of_cons in H as [H|H].
Qed.

Lemma transaction_ok {A} (body : Db -> Result (A * Db)) db a db' :
  transaction body db = (Ok a, db') -> body db = Ok (a, db').
Proof. unfold transaction. destruct (body db) as [[x y]|]; by intros [= -> ->]. Qed.

(** A successful reconciliation settles every lease in force: none is left
    pending or failed, and one is marked applied only if enforcement is
    required. *)
Theorem reconcile_settles env d d' row :
  store_wf (df_store d) -> reconcile env d = (Ok tt, d') ->
  row ∈ leases (df_store d') -> row_active (Z.of_N (env_now env)) row = true ->
  r_apply_error row = None /\
  (r_apply_state row = Observed \/
   (r_apply_state row = Applied /\ fw_required (df_firewall d) = true)).
Proof.
  intros Hwf (n & db1 & leases & plan & fw & db2 & Hb & Hl & _ & Hf & Hm & _ & -> & _)%reconcile_inv
    Hrow Hact.
  apply transaction_ok, mark_results_settle in Hm. rewrite Hm in Hrow.
  apply list_elem_of_fmap in Hrow as (r & -> & Hr).
  rewrite (proj2 (settle_keeps _ _)) in Hact.
  assert (Hwf1 : store_wf db1).
  { pose proof (begin_reconcile_wf (env_now env) _ Hwf) as H. by rewrite Hb in H. }
  assert (Hfw : fw_required fw = fw_required (df_firewall d)).
  { unfold firewall_reconcile in Hf. destruct (negb _); [by injection Hf as <-|].
    destruct (render_ruleset _ _ _); [|done]. by injection Hf as <- _. }
  apply (settle_state (fun s e => e = None /\ (s = Observed \/
    (s = Applied /\ fw_required (df_firewall d) = true)))).
  - apply Forall_fmap, Forall_forall. intros l _. cbn. rewrite Hfw.
    destruct (fw_required (df_firewall d)); cbn; [|by auto].
    by case_match; cbn; auto.
  - right. pose proof (wf_leases _ Hwf1) as Hw. rewrite Forall_forall in Hw.
    destruct (Hw r Hr) as (_ & l & Hdec & _). apply decode_network in Hdec as Hid.
    destruct Hid as (_ & Hid & _).
    assert (Hin : l ∈ leases) by (apply (active_leases_elem _ db1 _ _ Hwf1 Hl); eauto).
    rewrite <- list_fmap_compose. apply list_elem_of_fmap. by exists l.
Qed.

(** ** Who can be banned *)

Lemma update_networks p f db :
  (forall r, r_network (f r) = r_network r) ->
  r_network <$> leases (update_leases p f db).2 = r_network <$> leases db.
Proof. intros H. cbn. by apply map_key_update. Qed.

Lemma mark_results_networks outcomes db u db' :
  mark_results outcomes db = Ok (u, db') -> r_network <$> leases db' = r_network <$> leases db.
Proof.
  revert db. induction outcomes as [|[id o] l IH]; intros db; cbn; [by intros [= _ <-]|].
  destruct (outcome_state o) as [s e]. intros H. inv_result. rewrite (IH _ H).
  by apply (update_networks _ (fun r => set_apply r s e)).
Qed.

(** Reconciling changes no lease's network and no configured network. *)
Definition same_base (d d' : Defense) : Prop :=
  r_network <$> leases (df_store d') = r_network <$> leases (df_store d) /\
  df_protected d' = df_protected d /\ df_no_block d' = df_no_block d.

Lemma begin_reconcile_networks now db :
  r_network <$> leases (begin_reconcile now db).2 = r_network <$> leases db.
Proof. unfold begin_reconcile. destruct (sql_time now); [|done]. by apply update_networks. Qed.

Lemma mark_apply_networks outcomes db :
  r_network <$> leases (mark_apply_results outcomes db).2 = r_network <$> leases db.
Proof.
  unfold mark_apply_results, transaction.
  destruct (mark_results outcomes db) as [[u db']|] eqn:E; [|done].
  by apply mark_results_networks in E.
Qed.

Lemma reconcile_base env d : same_base d (reconcile env d).2.
Proof.
  assert (Hon : forall A (f : Db -> Result A * Db) x,
    (forall db, r_network <$> leases (f db).2 = r_network <$> leases db) ->
    same_base d x -> forall r s, on_store f x = (r, s) -> same_base d s).
  { intros A f x Hf (H1 & H2 & H3) r s. unfold on_store. specialize (Hf (df_store x)).
    destruct (f (df_store x)) as [r' db]. intros [= <- <-]. split; [|done]. cbn.
    cbn in Hf. by rewrite Hf. }
  assert (H0 : same_base d d) by done.
  unfold reconcile. apply st_bind_inv.
  { intros r s1. apply (Hon _ _ _ (begin_reconcile_networks _) H0). }
  intros n d1 H1. apply (Hon _ _ _ (begin_reconcile_networks _) H0) in H1. clear H0.
  apply st_bind_inv; [by intros ? ? [= <- <-]|]. intros ? ? [= <- <-].
  apply st_bind_inv; [by intros ? ? [= <- <-]|]. intros ls ? [_ ->]%lift_ok.
  apply st_bind_inv; [by intros ? ? [= <- <-]|]. intros plan ? [_ ->]%lift_ok.
  apply st_bind_inv; [by intros ? ? [= <- <-]|]. intros ? ? [= <- <-].
  apply st_bind_inv; [by intros ? ? [= <- <-]|]. intros ? ? [= <- <-].
  destruct (firewall_reconcile _ _ _) as [fw result].
  apply st_bind_inv; [by intros ? ? [= <- <-]|]. intros ? ? [= <- <-].
  apply st_bind_inv.
  { intros r s1. by apply (Hon _ _ _ (mark_apply_networks _)). }
  intros u d2 H2. apply (Hon _ _ _ (mark_apply_networks _)) in H2; [|done]. exact H2.
Qed.

(** A network a policy may ban: neither protected nor local. *)
Definition bannable (env : Env) (d : Defense) (text : string) : Prop :=
  exists n, text = net_show n /\ is_protected env d n = Ok false.

Definition rows_from (P : string -> Prop) (db db' : Db) : Prop :=
  forall row, row ∈ leases db' -> r_network row ∈ (r_network <$> leases db) \/ P (r_network row).

Lemma rows_from_trans P a b c : rows_from P a b -> rows_from P b c -> rows_from P a c.
Proof.
  intros H1 H2 row Hrow. destruct (H2 row Hrow) as [H|]; [|by right].
  apply list_elem_of_fmap in H as (x & -> & Hx). by apply H1.
Qed.

Lemma rows_from_same P db db' : leases db' = leases db -> rows_from P db db'.
Proof. intros E row Hrow. left. rewrite E in Hrow. apply list_elem_of_fmap. eauto. Qed.

Lemma apply_offense_rows draw i o db c db' P :
  apply_offense draw i o db = Ok (c, db') -> P (net_show (i_network o)) -> rows_from P db db'.
Proof.
  intros (_ & _ & [ | |esc lease db2 _ _ _ -> Hins])%apply_offense_outcome HP;
    [by apply rows_from_same..|].
  apply insert_lease_inv in Hins as (row & -> & _ & _ & _ & Hn & _).
  intros r [Hr|Hr%list_elem_of_singleton]%elem_of_app; [left|right].
  - apply list_elem_of_fmap. eauto.
  - subst. by rewrite Hn.
Qed.

Lemma apply_offenses_rows draw i l db c db' P :
  Forall (fun o => P (net_show (i_network o))) l ->
  apply_offenses draw i l db = Ok (c, db') -> rows_from P db db'.
Proof.
  intros Hl. revert db c. induction Hl as [|o l Ho _ IH]; intros db c H; cbn in H; inv_all.
  { by apply rows_from_same. }
  eapply rows_from_trans; [by eapply apply_offense_rows|by eapply IH].
Qed.

Lemma apply_events_rows draw inputs db c db' P :
  Forall (fun i => Forall (fun o => P (net_show (i_network o))) (ev_offenses i)) inputs ->
  apply_events draw inputs db = Ok (c, db') -> rows_from P db db'.
Proof.
  intros Hl. revert db c. induction Hl as [|i l Hi _ IH]; intros db c H; cbn in H; inv_all.
  { by apply rows_from_same. }
  eapply rows_from_trans; [|by eapply IH].
  assert (Hup : forall d s id k t d', upsert_checkpoint d s id k t = Ok d' -> leases d' = leases d)
    by (intros * Hu; unfold upsert_checkpoint in Hu; by inv_result).
  destruct (ev_offenses i) as [|o os] eqn:E.
  - inv_all. by eapply rows_from_same, Hup.
  - unfold apply_event in Ha. inv_result. destruct (existsb _ _); inv_all.
    { by apply rows_from_same. }
    rewrite E in Ha2. eapply rows_from_trans; [|by eapply rows_from_same, Hup].
    eapply (apply_offenses_rows _ _ _ (set_events db _)); done.
Qed.

Definition offense_bannable (env : Env) (d : Defense) (o : PendingOffense) : Prop :=
  is_protected env d (po_network o) = Ok false /\
  (is_no_block_network d (po_network o) = true -> block_parts (p_action (po_policy o)) = None).

Lemma enforcement_action_spares d n a :
  is_no_block_network d n = true -> block_parts (enforcement_action d n a) = None.
Proof.
  intros H. unfold enforcement_action. rewrite H. cbn. case_bool_decide as E; [done|].
  by apply eq_None_not_Some.
Qed.

Lemma scan_policies_bannable env d record ps ps' offenses b :
  scan_policies env d record ps = (ps', Ok (offenses, b)) ->
  Forall (offense_bannable env d) offenses.
Proof.
  revert ps' offenses b. induction ps as [|[name c] ps IH]; intros ps' offenses b; cbn.
  { intros [= <- <- <-]. constructor. }
  destruct (scan_policies env d record ps) as [rest r] eqn:E.
  destruct (negb _); [by intros [= <- ->]; eapply IH|].
  destruct (detect _ _ _ _) as [[x|] det]; [|by intros [= <- ->]; eapply IH].
  destruct (is_protected env d (d_network x)) as [prot|] eqn:Hp; [|done].
  intros [= <- H]. inv_all. specialize (IH _ _ _ eq_refl).
  destruct prot; cbn; [done|]. case_match; [done|]. constructor; [|done].
  split; [done|]. cbn. apply enforcement_action_spares.
Qed.

(** The parts of the defense a scan leaves alone. *)
Definition scan_same (d d' : Defense) : Prop :=
  df_store d' = df_store d /\ df_protected d' = df_protected d /\
  df_no_block d' = df_no_block d /\ df_config d' = df_config d.

Lemma scan_record_spec env record d r d' :
  scan_record env record d = (r, d') ->
  scan_same d d' /\
  forall e, r = Ok (Some e) -> Forall (offense_bannable env d) (pe_offenses e).
Proof.
  unfold scan_record, mbind, st_bind, mret, st_ret, get, modify, lift.
  destruct (sr_oversized record).
  - cbn. rewrite ?andb_false_r. cbn. intros [= <- <-]. split; [done|]. intros e [= <-]. constructor.
  - destruct (scan_policies env d record (df_policies d)) as [ps [[os b]|e]] eqn:E; cbn.
    + apply scan_policies_bannable in E. destruct os as [|o os]; cbn.
      * intros [= <- <-]. split; [done|]. intros e. case_match; by intros [= <-].
      * intros [= <- <-]. split; [done|]. by intros e [= <-].
    + intros [= <- <-]. by split.
Qed.

Lemma offense_bannable_same env d d' o :
  scan_same d d' -> offense_bannable env d' o -> offense_bannable env d o.
Proof.
  intros (_ & Hp & Hn & _) H. unfold offense_bannable, is_protected, is_no_block_network in *.
  by rewrite Hp, Hn in H.
Qed.

Lemma scan_records_spec env records d r d' :
  scan_records env records d = (r, d') ->
  scan_same d d' /\
  forall es, r = Ok es -> Forall (fun e => Forall (offense_bannable env d) (pe_offenses e)) es.
Proof.
  revert d r. induction records as [|x l IH]; intros d r; cbn.
  { intros [= <- <-]. split; [done|]. intros es [= <-]. constructor. }
  unfold mbind, st_bind. destruct (scan_record env x d) as [[o|e] d1] eqn:E1.
  - apply scan_record_spec in E1 as [Hs1 Ho].
    destruct (scan_records env l d1) as [[es|e] d2] eqn:E2; intros [= <- <-];
      apply IH in E2 as [Hs2 Hes]; (split; [destruct Hs1 as (?&?&?&?), Hs2 as (?&?&?&?);
        repeat split; congruence|]); [|done].
    intros es' [= <-]. apply Forall_app. split.
    + destruct o; cbn; [|constructor]. constructor; [by apply Ho|constructor].
    + eapply Forall_impl; [by apply Hes|]. intros e He. eapply Forall_impl; [exact He|].
      intros o' Ho'. by eapply offense_bannable_same.
  - intros [= <- <-]. apply scan_record_spec in E1 as [Hs1 _]. split; [done|]. done.
Qed.

Lemma note_leases_base env ls d : same_base d (st_each (note_lease env) ls d).2.
Proof.
  revert d. induction ls as [|l ls IH]; intros d; cbn; [done|].
  assert (Hn : forall r s, note_lease env l d = (r, s) -> same_base d s).
  { intros r s. unfold note_lease. destruct (is_observe _); [by intros [= <- <-]|].
    unfold mbind, st_bind, lift, get.
    destruct (is_protected env d (lease_network l)) as [[]|]; by intros [= <- <-]. }
  apply st_bind_inv; [done|]. intros a s Hs%Hn. destruct (IH s) as (H1 & H2 & H3).
  destruct Hs as (H4 & H5 & H6). repeat split; congruence.
Qed.

(** C4: the log cannot get a protected network banned. Whatever a batch of
    records says, and whether or not processing it fails midway, every lease
    afterwards is for a network that had a lease before or for one that
    overlaps neither a protected network nor an address of the machine. *)
Theorem process_records_spares_protected env records d row :
  row ∈ leases (df_store (process_records env records d).2) ->
  r_network row ∈ (r_network <$> leases (df_store d)) \/ bannable env d (r_network row).
Proof.
  cut (rows_from (bannable env d) (df_store d) (df_store (process_records env records d).2));
    [auto|].
  set (P := fun s => rows_from (bannable env d) (df_store d) (df_store s)).
  change (P (process_records env records d).2).
  assert (Hstep : forall d1 d2, P d1 -> same_base d1 d2 -> P d2).
  { intros d1 d2 H1 (H2 & _). unfold P. eapply rows_from_trans; [exact H1|]. intros x Hx. left.
    rewrite <- H2. apply list_elem_of_fmap. eauto. }
  assert (Hsame : forall d1, df_store d1 = df_store d -> P d1)
    by (intros d1 E; apply rows_from_same; by rewrite E).
  unfold process_records. apply st_bind_inv.
  { intros r d1 [(Hst & _) _]%scan_records_spec. by apply Hsame. }
  intros pending d1 [(Hst & _ & _ & _) Hb]%scan_records_spec. specialize (Hb _ eq_refl).
  case_bool_decide; [by apply Hsame|].
  apply st_bind_inv; [intros ? ? [= <- <-]; by apply Hsame|]. intros ? ? [= <- <-].
  assert (Hev : forall r d2, on_store (process_events (env_draw env)
    (event_input (history_retention_secs (df_config d1)) <$> pending)) d1 = (r, d2) -> P d2).
  { intros r d2. unfold on_store, process_events, transaction.
    destruct (apply_events _ _ _) as [[outs db]|] eqn:Ea; intros [= <- <-]; [|by apply Hsame].
    unfold P. cbn. rewrite <- Hst. eapply apply_events_rows; [|exact Ea]. apply Forall_fmap.
    eapply Forall_impl; [exact Hb|]. intros e He. cbn. apply Forall_fmap.
    eapply Forall_impl; [exact He|]. intros o [Ho _]. cbn. eexists. by split. }
  apply st_bind_inv; [done|]. intros outs d2 H2%Hev. apply st_bind_inv.
  - intros r s1 E. eapply Hstep; [exact H2|].
    pose proof (note_leases_base env (mjoin (out_leases <$> outs)) d2) as Hn. by rewrite E in Hn.
  - intros u d3 E.
    pose proof (note_leases_base env (mjoin (out_leases <$> outs)) d2) as Hn. rewrite E in Hn.
    pose proof (Hstep _ _ H2 Hn) as H3. case_bool_decide; [done|].
    by eapply Hstep, reconcile_base.
Qed.

(** ** Validated actions become rules *)

Lemma validate_ports_ok policy ports : validate_ports policy ports = Ok tt -> ports <> [].
Proof. unfold validate_ports. rewrite fail_if_ok, orb_false_iff, bool_decide_eq_false. by intros []. Qed.

(** A lease with a validated action always turns into the rule the action
    asks for: reconciliation cannot fail on it, and only an observing action
    produces no rule. *)
Theorem membership_validated policy lease c :
  validate_action policy (lease_action lease) (listeners c) = Ok tt ->
  exists m, membership lease c = Ok m /\ (m = None <-> lease_action lease = Action.Observe).
Proof.
  unfold membership. destruct (lease_action lease) as [|pr ports|pr| |pr ports|pr| |pr ports l];
    cbn [validate_action block_parts]; intros H.
  - by eexists.
  - apply validate_ports_ok in H.
    destruct (scope_new_succeeds (protocol_from pr) ports (verdict_from BlockVerdict.Drop))
      as [s Hs]; [done|done|]. cbv zeta. rewrite Hs.
    by eexists.
  - by eexists.
  - by eexists.
  - apply validate_ports_ok in H.
    destruct (scope_new_succeeds (protocol_from pr) ports (verdict_from BlockVerdict.Reject))
      as [s Hs]; [done|done|]. cbv zeta. rewrite Hs.
    by eexists.
  - by eexists.
  - by eexists.
  - apply bind_ok in H as (u1 & Hp%fail_if_ok & H). apply bind_ok in H as ([] & Hports & H).
    apply bind_ok in H as (target & Ht & H). apply bind_ok in H as (address & Hs & H).
    apply negb_false_iff, bool_decide_eq_true in Hp as ->.
    destruct (list_find_bool _ _) as [t|]; cbn in Ht; [|done]. injection Ht as ->.
    destruct (parse_socket (l_listen_addr target)) as [sa|] eqn:Esa; cbn [ok_or] in Hs; [|done].
    cbn [ok_or mbind result_bind]. rewrite Esa. cbn [ok_or mbind result_bind].
    apply validate_ports_ok in Hports.
    destruct (scope_new_succeeds (protocol_from Tcp) ports (Verdict.Redirect (sa_port sa))) as [s ->];
      [done|done|]. by eexists.
Qed.

(** An operator cannot block a shielded network either: for a network that
    overlaps a protected, local or shared one, the request is refused and
    nothing changes. *)
Theorem block_manually_refuses env raw duration d n :
  network_from raw = Ok n ->
  is_protected env d n = Ok true \/ is_no_block_network d n = true ->
  exists e, block_manually env raw duration d = (Err e, d).
Proof.
  intros Hn Hs. unfold block_manually, mbind, st_bind, lift, get. rewrite Hn.
  destruct (fail_if (bool_decide (duration = Some 0%N)) _) as [[]|]; [|by eexists].
  destruct (is_protected env d n) as [[]|] eqn:Hp; cbn; [by eexists| |by eexists].
  destruct Hs as [Hs|Hs]; [done|]. rewrite Hs. by eexists.
Qed.

(** ** Listener events *)

Definition sequence_ok (source : string) (d : Defense) : Prop :=
  (last_listener_sequence source (df_store d) <= default 0 (assoc source (df_sequences d)))%N.

Lemma last_sequence_app source db e :
  last_listener_sequence source (set_events db (events db ++ [e])) =
  if String.eqb (e_source e) source then
    match event_sequence source (e_event_id e) with
    | Some n => (last_listener_sequence source db `max` n)%N
    | None => last_listener_sequence source db
    end
  else last_listener_sequence source db.
Proof. unfold last_listener_sequence. cbn. rewrite foldl_app. done. Qed.

Lemma last_sequence_events source db db' :
  events db' = events db -> last_listener_sequence source db' = last_listener_sequence source db.
Proof. intros E. unfold last_listener_sequence. by rewrite E. Qed.

Lemma event_sequence_listener source n :
  (n <= u64_max)%N ->
  event_sequence source ("listener:" +:+ source +:+ ":" +:+ show_N n) = Some n.
Proof.
  intros Hn. unfold event_sequence, listener_prefix.
  replace ("listener:" +:+ source +:+ ":" +:+ show_N n)
    with (("listener:" +:+ source +:+ ":") +:+ show_N n)
    by (rewrite !string_app_assoc; done).
  rewrite strip_prefix_app. cbn [mbind option_bind]. by apply parse_show_N.
Qed.

Lemma process_event_events draw input db out db' :
  process_event draw input db = (Ok out, db') ->
  events db' = events db \/
  events db' = events db ++ [{| e_source := ev_source input; e_event_id := ev_event_id input;
                               e_observed_at := Z.of_N (ev_observed_at input) |}].
Proof.
  intros H%transaction_ok. unfold apply_event in H.
  apply bind_ok in H as (t & [_ ->]%sql_time_ok & H).
  destruct (existsb _ _); [inv_result; by left|]. inv_all.
  apply apply_offenses_events in Ha as [He _]. unfold upsert_checkpoint in Ha0. inv_result.
  right. cbn. by rewrite He.
Qed.

(** Listener offenses are never mistaken for replays. While a source's
    counter is at least the newest stored sequence, each recorded connection
    gets an event id the store has not seen, and committing it keeps the
    counter ahead, so the next one is new as well. *)
Theorem listener_event_fresh env policy address d input d' draw out db' :
  listener_event env policy address d = (Ok (Some input), d') ->
  sequence_ok (ev_source input) d ->
  (default 0 (assoc (ev_source input) (df_sequences d)) < u64_max)%N ->
  event_known input (df_store d') = false /\
  (process_event draw input (df_store d') = (Ok out, db') ->
   sequence_ok (ev_source input) (set_store d' db')).
Proof.
  unfold listener_event. intros H Hok Hlt.
  apply st_bind_ok in H as (? & ? & [= <- <-] & H).
  apply st_bind_ok in H as (c & ? & [_ ->]%lift_ok & H).
  apply st_bind_ok in H as (? & ? & [_ ->]%lift_ok & H).
  apply st_bind_ok in H as (n & ? & [_ ->]%lift_ok & H).
  apply st_bind_ok in H as (p & ? & [_ ->]%lift_ok & H).
  destruct (p || _); [done|].
  apply st_bind_ok in H as (? & ? & [_ ->]%lift_ok & H).
  apply st_bind_ok in H as (? & ? & [= <- <-] & H). injection H as <- <-. cbn in *.
  set (source := p_source (cp_policy c)) in *.
  set (seq := sat_add u64_max (default 0%N (assoc source (df_sequences d))) 1).
  assert (Hs1 : (default 0 (assoc source (df_sequences d)) < seq <= u64_max)%N)
    by (unfold seq, sat_add; lia).
  split.
  - apply not_true_iff_false. rewrite event_known_spec. cbn.
    intros (e & [= Hs Hi] & Hin)%list_elem_of_fmap.
    pose proof (last_sequence_ge source (df_store d) e seq Hin (eq_sym Hs)) as Hge.
    rewrite <- Hi in Hge. specialize (Hge (event_sequence_listener source seq (proj2 Hs1))).
    unfold sequence_ok in Hok. lia.
  - intros H%process_event_events. unfold sequence_ok in *. cbn.
    rewrite assoc_bt_insert, String.eqb_refl. cbn.
    destruct H as [He|He].
    + rewrite (last_sequence_events source (df_store d) db' He). lia.
    + cbn in He. rewrite (last_sequence_events source (set_events (df_store d) _) db' He).
      rewrite last_sequence_app. cbn. rewrite String.eqb_refl.
      change (match event_sequence source ("listener:" +:+ source +:+ ":" +:+ show_N seq) with
        | Some n0 => (last_listener_sequence source (df_store d) `max` n0)%N
        | None => last_listener_sequence source (df_store d) end <= seq)%N.
      rewrite (event_sequence_listener source seq (proj2 Hs1)). lia.
Qed.
End DefenseFacts.

(** ** Examples *)

Section DefenseWitness.
#[local] Existing Instances cidr_api cidr_laws Literal.regex Literal.json Literal.time
  TextCodec.codec TextCodec.codec_laws.

Definition example_env : Env := {|
  env_now := 1020; env_local := Ok [V4 3232235777]; env_nft := fun _ _ => Ok tt;
  env_draw := no_draw |}.

Definition example_policy : Policy := {|
  p_source := "tarpit"; p_detector := Detector.Json [] "/address" None None None;
  p_ignore_networks := []; p_max_attempts := 1; p_findtime_secs := 600;
  p_ban := steady_schedule; p_action := Action.Drop Tcp [22%N] |}.
Definition example_listener : Listener := {|
  l_name := "ssh"; l_listen_addr := "0.0.0.0:2222"; l_policy := Some "trap";
  l_max_tarpit_conns := Some 64%N; l_min_delay_ms := None; l_max_delay_ms := None;
  l_max_tarpit_secs := None; l_line_length := None |}.
Definition config_with (listener : Listener) : Config :=
  let c := default_config ("/run/bagel", "/var/cache/bagel") in {|
  metrics_addr := metrics_addr c; disable_metrics := disable_metrics c;
  admin_socket := admin_socket c; disable_admin := disable_admin c;
  listeners := [listener];
  sources := [("tarpit", Source.Listener "ssh")]; policies := [("trap", example_policy)];
  enforcement := enforcement c; database_path := database_path c;
  history_retention_secs := history_retention_secs c; journalctl_path := journalctl_path c;
  nft_path := nft_path c; protected_networks := ["198.51.100.0/24"];
  min_delay_ms := min_delay_ms c; max_delay_ms := max_delay_ms c;
  max_tarpit_secs := max_tarpit_secs c; tarpit_chunk_min_bytes := tarpit_chunk_min_bytes c;
  tarpit_chunk_max_bytes := tarpit_chunk_max_bytes c; max_tarpit_conns := max_tarpit_conns c;
  max_tarpit_conns_per_ip := max_tarpit_conns_per_ip c;
  tarpit_write_timeout_secs := tarpit_write_timeout_secs c;
  max_connections := max_connections c; drain_timeout_secs := drain_timeout_secs c;
  proxy_protocol := proxy_protocol c; trusted_proxies := trusted_proxies c;
  enable_firewall := enable_firewall c; trap_patterns := trap_patterns c;
  trap_user_agents := trap_user_agents c; whitelist_networks := whitelist_networks c;
  verified_crawlers := verified_crawlers c; no_block_networks := no_block_networks c;
  corpora_dir := corpora_dir c; scripts_dir := scripts_dir c; data_dir := data_dir c;
  cache_dir := cache_dir c |}.
Definition example_config : Config := config_with example_listener.

Definition example_defense : Defense :=
  from_ok (defense_open example_config example_db2) ltac:(vm_refl).
Definition example_reconciled : Defense := (reconcile example_env example_defense).2.

Lemma reconcile_settles_witness :
  exists row, row ∈ leases (df_store example_reconciled) /\ r_apply_error row = None /\
    (r_apply_state row = Observed \/
     (r_apply_state row = Applied /\ fw_required (df_firewall example_defense) = true)).
Proof.
  exists (default example_first (leases (df_store example_reconciled) !! 0%nat)).
  assert (Hin : default example_first (leases (df_store example_reconciled) !! 0%nat) ∈
    leases (df_store example_reconciled)) by (apply (list_elem_of_lookup_2 _ 0); vm_refl).
  split; [exact Hin|].
  apply (reconcile_settles example_env example_defense example_reconciled);
    [exact example_wf|vm_refl|exact Hin|vm_refl].
Defined.

Lemma reconcile_enforces_witness :
  exists members ruleset,
    render_ruleset (fw_table (df_firewall example_defense))
      (fw_priority (df_firewall example_defense)) members = Ok ruleset /\
    forall p m, shielded example_env example_defense (pk_source p) -> m ∈ members ->
      member_matches m p = false.
Proof.
  destruct (reconcile_enforces example_env example_defense example_reconciled)
    as (members & ruleset & ls & Hr & _ & _ & _ & Hs); [vm_refl|vm_refl|].
  exists members, ruleset. exact (conj Hr Hs).
Defined.

(** A connection to the trap from 203.0.113.9, banned at once. *)
Definition example_client : IpAddr := V4 3405803785.
Definition example_listened : Result (option EventInput) * Defense :=
  listener_event example_env "trap" example_client example_defense.
Definition example_input : EventInput :=
  match example_listened.1 with Ok (Some i) => i | _ => example_event "" 0 end.

Lemma listener_event_fresh_witness :
  event_known example_input (df_store example_listened.2) = false.
Proof.
  refine (proj1 (listener_event_fresh example_env "trap" example_client example_defense
    example_input example_listened.2 no_draw outcome_default empty_db _ _ _)); [vm_refl| |];
    vm_compute; [discriminate|reflexivity].
Defined.

Definition example_record : SourceRecord := {|
  sr_source := "tarpit"; sr_id := "r1"; sr_payload := "203.0.113.9"; sr_correlation := None;
  sr_observed_at := 1015; sr_checkpoint := Checkpoint.Listener 7; sr_oversized := false |}.
Definition example_processed : Defense :=
  (process_records example_env [example_record] example_defense).2.
Definition example_banned : LeaseRow :=
  default example_first (leases (df_store example_processed) !! 1%nat).
Lemma process_records_spares_protected_witness :
  r_policy example_banned = "trap" /\
  (r_network example_banned ∈ (r_network <$> leases (df_store example_defense)) \/
   bannable example_env example_defense (r_network example_banned)).
Proof.
  split; [vm_refl|].
  apply (process_records_spares_protected example_env [example_record] example_defense).
  apply (list_elem_of_lookup_2 _ 1). vm_refl.
Defined.

Lemma membership_validated_witness :
  exists m, membership example_block.1 example_config = Ok m /\
    (m = None <-> lease_action example_block.1 = Action.Observe).
Proof. apply (membership_validated "trap"). vm_refl. Defined.

Definition example_protected : IpNetwork :=
  {| cidr_ip := V4 3325256704; cidr_prefix := 32; cidr_ok := eq_refl |}.
Lemma block_manually_refuses_witness :
  exists e, block_manually example_env "198.51.100.0/32" None example_defense =
    (Err e, example_defense).
Proof.
  apply (block_manually_refuses example_env "198.51.100.0/32" None example_defense
           example_protected); [vm_refl|left; vm_refl].
Defined.
End DefenseWitness.
