(* ===== verification/Tail.v ===== *)
(** * Log sources

    [crates/bagel-runtime/src/source.rs], [source_file.rs], [source_address_set.rs]
    and [source_journal.rs]: how lines of log files, address lists and the journal
    become the records the defense loop processes. A source is its state between two
    reads; what a read sees of the file system is its input, and input and output
    errors, which end a source, are left out. *)

From S2P Require Import Prelude Core Strings Ip ThirdParty Config Store Defense.
From S2P Require Import Bytes Url Date Tls.

Local Open Scope N_scope.

(** ** Bytes of files ([source.rs]) *)

Definition FILE_TAIL_BYTES : nat := 64.
Definition push_tail (tail bytes : list N) : list N :=
  if (FILE_TAIL_BYTES <=? length bytes)%nat then drop (length bytes - FILE_TAIL_BYTES) bytes
  else drop (length tail + length bytes - FILE_TAIL_BYTES) tail ++ bytes.
(** [read_file_tail] of the bytes of a file, and [file_tail_matches]. *)
Definition read_file_tail (bytes : list N) (offset : N) : list N :=
  let length := offset `min` N.of_nat FILE_TAIL_BYTES in
  take (N.to_nat length) (drop (N.to_nat (offset - length)) bytes).
Definition file_tail_matches (bytes : list N) (offset : N) (expected : list N) : bool :=
  bool_decide (read_file_tail bytes offset = expected).

Definition newline : N := 10.
(** [AsyncReadExt::take] then [read_until(b'\n')]: what they take of the bytes to come. *)
Fixpoint read_until (limit : N) (l : list N) : list N :=
  match l with
  | [] => []
  | b :: l =>
      if limit =? 0 then []
      else if b =? newline then [b] else b :: read_until (limit - 1) l
  end.
(** [drain_line]: what it consumes, whatever the sizes of the reader's buffers. *)
Fixpoint drain_line (l : list N) : list N :=
  match l with
  | [] => []
  | b :: l => if b =? newline then [b] else b :: drain_line l
  end.
Definition ends_with_newline (l : list N) : bool := match last l with Some b => b =? newline | None => false end.
Definition count (l : list N) : N := N.of_nat (length l).
(** [read_bounded_line]: the line, whether it is too long, and the bytes consumed. *)
Definition read_bounded_line (limit : N) (l : list N) : option (list N * bool * N) :=
  let line := read_until (sat_add u64_max limit 1) l in
  match line with
  | [] => None
  | _ =>
      let oversized := limit <? count line in
      let consumed := count line in
      Some (line, oversized,
        if oversized && negb (ends_with_newline line)
        then sat_add u64_max consumed (count (drain_line (drop (length line) l))) else consumed)
  end.

(** [trim_end_matches(['\r', '\n'])] of the lossy text. *)
Definition trim_newlines (s : string) : string := trim_end_of [bytes_string [13]; bytes_string [10]] s.
Definition line_text (line : list N) : string := trim_newlines (from_utf8_lossy line).

(** ** Files ([source_file.rs]) *)

(** A file by device and inode, as [FileEmit] names it. *)
Notation Identity := (N * N)%type.
Definition send_file_record (name : string) (now : N) (ident : Identity) (generation offset : N) (tail : list N)
    (payload : string) (oversized : bool) : SourceRecord := {|
  sr_source := name;
  sr_id := show_N ident.1 +:+ ":" +:+ show_N ident.2 +:+ ":" +:+ show_N generation +:+ ":" +:+ show_N offset;
  sr_payload := payload; sr_correlation := None; sr_observed_at := now;
  sr_checkpoint := Checkpoint.File ident.1 ident.2 offset generation tail;
  sr_oversized := oversized |}.

Record Resume : Type := {
  rm_identity : Identity; rm_offset : N; rm_generation : N; rm_tail : list N }.
(** A file being read: the reader's position, the bytes turned into records and the
    last of them, and those of a line that has not ended. *)
Record Tailer : Type := {
  tl_identity : Identity; tl_generation : N; tl_position : N; tl_committed : N; tl_tail : list N;
  tl_pending : list N }.
(** Before the file is opened, and while it is read. *)
Inductive TailState : Type := Closed (initial : bool) (resume : option Resume) | Opened (t : Tailer).

(** Where a run starts: from the checkpoint of the store. *)
Definition tail_start (checkpoint : option Checkpoint.t) : TailState :=
  Closed (negb (is_some checkpoint))
    match checkpoint with
    | Some (Checkpoint.File device inode offset generation tail) =>
        Some {| rm_identity := (device, inode); rm_offset := offset; rm_generation := generation; rm_tail := tail |}
    | _ => None
    end.

(** What opening decides, from the file's identity and length and the bytes of the
    path that tails are read from. *)
Definition tail_open (start : StartPosition) (initial : bool) (resume : option Resume) (ident : Identity)
    (len : N) (bytes : list N) : Tailer :=
  let prior_generation := match resume with Some r => rm_generation r | None => 0 end in
  let opened offset generation tail := {|
    tl_identity := ident; tl_generation := generation; tl_position := offset; tl_committed := offset;
    tl_tail := tail; tl_pending := [] |} in
  let fresh :=
    if initial && bool_decide (start = End_) then opened len prior_generation (read_file_tail bytes len)
    else opened 0 (sat_add u64_max prior_generation 1) [] in
  match resume with
  | Some r =>
      if bool_decide (rm_identity r = ident) && (rm_offset r <=? len) &&
         (bool_decide (rm_tail r = []) || file_tail_matches bytes (rm_offset r) (rm_tail r))
      then opened (rm_offset r) (rm_generation r)
             (if bool_decide (rm_tail r = []) then read_file_tail bytes (rm_offset r) else rm_tail r)
      else fresh
  | None => fresh
  end.

(** One turn of the reading loop, on the bytes the open file shows, what the path now
    names, if anything, with its length, and the bytes read there. *)
Definition tail_turn (name : string) (now max_line : N) (t : Tailer) (file : list N)
    (at_path : option (Identity * N)) (path_bytes : list N) : TailState * list SourceRecord :=
  let record := send_file_record name now (tl_identity t) (tl_generation t) in
  let remaining := sat_add u64_max max_line 1 - count (tl_pending t) in
  let rest := drop (N.to_nat (tl_position t)) file in
  let read := read_until (remaining `max` 1) rest in
  match read with
  | [] =>
      let replaced := match at_path with Some (ident, _) => negb (bool_decide (ident = tl_identity t)) | None => true end in
      let truncated := match at_path with Some (_, len) => len <? tl_committed t | None => false end in
      let overwritten := negb replaced && negb truncated && negb (file_tail_matches path_bytes (tl_committed t) (tl_tail t)) in
      if replaced || truncated || overwritten then
        (Closed false (Some {|
           rm_identity := match at_path with Some (ident, _) => ident | None => (0, 0) end;
           rm_offset := 0; rm_generation := sat_add u64_max (tl_generation t) 1; rm_tail := [] |}),
         match tl_pending t with
         | [] => []
         | pending => [record (sat_add u64_max (tl_committed t) (count pending)) (push_tail (tl_tail t) pending) "" true]
         end)
      else (Opened t, [])
  | _ =>
      let pending := tl_pending t ++ read in
      let position := tl_position t + count read in
      let after position committed tail pending := {|
        tl_identity := tl_identity t; tl_generation := tl_generation t; tl_position := position;
        tl_committed := committed; tl_tail := tail; tl_pending := pending |} in
      if max_line <? count pending then
        let ended := ends_with_newline pending in
        let drained := if ended then [] else drain_line (drop (length read) rest) in
        let tail := push_tail (tl_tail t) pending in
        let tail := if ended then tail else push_tail tail drained in
        let committed := sat_add u64_max (tl_committed t) (sat_add u64_max (count pending) (count drained)) in
        (Opened (after (position + count drained) committed tail []), [record committed tail "" true])
      else if negb (ends_with_newline pending) then
        (Opened (after position (tl_committed t) (tl_tail t) pending), [])
      else
        let committed := sat_add u64_max (tl_committed t) (count pending) in
        let tail := push_tail (tl_tail t) pending in
        (Opened (after position committed tail []), [record committed tail (line_text pending) false])
  end.

(** What the loops meet: no file at the path, a file opened, a read of it. *)
Inductive TailInput : Type :=
| Missing
| Open (ident : Identity) (len : N) (bytes : list N)
| Turn (now : N) (file : list N) (at_path : option (Identity * N)) (path_bytes : list N).
Definition tail_step (name : string) (start : StartPosition) (max_line : N) (s : TailState) (i : TailInput) :
    TailState * list SourceRecord :=
  match s, i with
  | Closed initial resume, Open ident len bytes => (Opened (tail_open start initial resume ident len bytes), [])
  | Opened t, Turn now file at_path path_bytes => tail_turn name now max_line t file at_path path_bytes
  | _, _ => (s, [])
  end.
Fixpoint tail_run (name : string) (start : StartPosition) (max_line : N) (s : TailState) (inputs : list TailInput) :
    TailState * list SourceRecord :=
  match inputs with
  | [] => (s, [])
  | i :: inputs =>
      let '(s, records) := tail_step name start max_line s i in
      let '(s, more) := tail_run name start max_line s inputs in (s, records ++ more)
  end.

(** ** Address lists ([source_address_set.rs]) *)

Definition MAX_CIDR_LINE_BYTES : N := 4096.
(** What identifies the contents of the list: device, inode, time of modification
    and size. *)
Record SetIdentity : Type := { si_device : N; si_inode : N; si_modified : N; si_size : N }.
#[global] Instance set_identity_eq_dec : EqDecision SetIdentity.
Proof. solve_decision. Defined.

(** The address a line holds, in front of a comment. *)
Definition address_text (line : list N) : string :=
  str_trim (default "" (head (str_split "#" (line_text line)))).
Definition set_record (name path : string) (now : N) (i : SetIdentity) (id payload : string) (offset : N)
    (oversized : bool) : SourceRecord := {|
  sr_source := name; sr_id := path +:+ ":" +:+ show_N (si_modified i) +:+ ":" +:+ id;
  sr_payload := payload; sr_correlation := None; sr_observed_at := now;
  sr_checkpoint := Checkpoint.AddressSet (si_device i) (si_inode i) (si_modified i) (si_size i) offset;
  sr_oversized := oversized |}.

(** The loop over the lines. [fuel] is the number of bytes left: each line takes
    one at least. *)
Fixpoint set_lines (fuel : nat) (name path : string) (now : N) (i : SetIdentity) (committed : N) (l : list N) :
    list SourceRecord :=
  match fuel with
  | O => []
  | S fuel =>
      match read_bounded_line MAX_CIDR_LINE_BYTES l with
      | None => []
      | Some (line, oversized, consumed) =>
          let committed := sat_add u64_max committed consumed in
          set_record name path now i (show_N (si_size i) +:+ ":" +:+ show_N committed) (address_text line) committed
            (oversized || bool_decide (line = []))
          :: set_lines fuel name path now i committed (drop (N.to_nat consumed) l)
      end
  end.
(** One pass of the loop: the records it sends, from where the last one ended. *)
Definition set_pass (name path : string) (now : N) (resume : option (SetIdentity * N)) (i : SetIdentity) (bytes : list N) :
    list SourceRecord * option (SetIdentity * N) :=
  let same_identity := match resume with Some (r, _) => bool_decide (r = i) | None => false end in
  let offset := match resume with
                | Some (r, offset) => if bool_decide (r = i) then offset `min` si_size i else 0
                | None => 0
                end in
  (if (offset <? si_size i) || negb same_identity then
     let rest := drop (N.to_nat offset) bytes in
     match set_lines (length rest) name path now i offset rest with
     | [] => [set_record name path now i "empty" "" (si_size i) true]
     | records => records
     end
   else [], Some (i, si_size i)).
Definition set_start (checkpoint : option Checkpoint.t) : option (SetIdentity * N) :=
  match checkpoint with
  | Some (Checkpoint.AddressSet device inode modified size offset) =>
      Some ({| si_device := device; si_inode := inode; si_modified := modified; si_size := size |}, offset)
  | _ => None
  end.
(** The passes, each on what the path then holds. *)
Fixpoint set_run (name path : string) (resume : option (SetIdentity * N)) (passes : list (N * SetIdentity * list N)) :
    list SourceRecord :=
  match passes with
  | [] => []
  | (now, i, bytes) :: passes =>
      let '(records, resume) := set_pass name path now resume i bytes in
      records ++ set_run name path resume passes
  end.

(** ** The journal ([source_journal.rs]) *)

(** The arguments of [journalctl]. *)
Definition journal_args (checkpoint : option Checkpoint.t) (start : StartPosition)
    (match_groups : list (list (string * string))) : list string :=
  ["--system"; "--follow"; "--no-pager"; "--quiet"; "--output=json-seq";
   "--output-fields=MESSAGE,__CURSOR,__REALTIME_TIMESTAMP,_BOOT_ID,_PID,SYSLOG_PID"] ++
  [match checkpoint with
   | Some (Checkpoint.Journal _ realtime_micros) =>
       "--since=@" +:+ show_N (realtime_micros / 1000000) +:+ "." +:+ pad_N 6 (realtime_micros mod 1000000)
   | _ => match start with End_ => "--lines=0" | Beginning => "--lines=all" end
   end] ++
  mjoin (imap (fun index group => (if (index =? 0)%nat then [] else ["+"]) ++
                                  ((fun f => f.1 +:+ "=" +:+ f.2) <$> group)) match_groups).

(** [Value::get], [as_str] and [as_u64]. *)
Definition value_get (k : string) (v : Value) : option Value :=
  match v with VObject m => assoc k m | _ => None end.
Definition as_str (v : Value) : option string := match v with VString s => Some s | _ => None end.
Definition as_u64 (v : Value) : option N := match v with VNumber n => num_u64 n | _ => None end.
Definition json_u64 (v : Value) : option N :=
  match as_u64 v with Some n => Some n | None => s ← as_str v; parse_unsigned u64_max s end.
Definition json_text (v : Value) : option string :=
  match as_str v with Some s => Some s | None => show_N <$> as_u64 v end.

(** One line: an error when it is no text, nothing when it is no entry. *)
Definition RECORD_SEPARATOR : string := bytes_string [30].
Definition journal_record `{JsonApi} (name : string) (now : N) (value : Value) : option SourceRecord :=
  cursor ← value_get "__CURSOR" value ≫= as_str;
  let realtime_micros := default (sat_mul u64_max now 1000000) (value_get "__REALTIME_TIMESTAMP" value ≫= json_u64) in
  let payload := default "" (value_get "MESSAGE" value ≫= as_str) in
  let pid := match value_get "_PID" value with Some v => Some v | None => value_get "SYSLOG_PID" value end ≫= json_text in
  let correlation := (fun pid => default "unknown-boot" (value_get "_BOOT_ID" value ≫= as_str) +:+ ":" +:+ pid) <$> pid in
  Some {| sr_source := name; sr_id := cursor; sr_payload := payload; sr_correlation := correlation;
          sr_observed_at := realtime_micros / 1000000;
          sr_checkpoint := Checkpoint.Journal cursor realtime_micros; sr_oversized := false |}.
Definition journal_line `{JsonApi} (name : string) (now : N) (line : list N) (oversized : bool) :
    result string (option SourceRecord) :=
  if oversized then Ok None
  else if negb (is_utf8 line) then Err "invalid data"
  else
    let text := trim_start_of [RECORD_SEPARATOR] (bytes_string line) in
    Ok (value ← json_from_str text; journal_record name now value).
(** The entries of the process's output, until it ends or a line is no text. *)
Fixpoint journal_run `{JsonApi} (fuel : nat) (name : string) (now limit : N) (l : list N) : list SourceRecord * string :=
  match fuel with
  | O => ([], "exited")
  | S fuel =>
      match read_bounded_line limit l with
      | None => ([], "exited")
      | Some (line, oversized, consumed) =>
          match journal_line name now line oversized with
          | Err e => ([], e)
          | Ok r =>
              let '(records, e) := journal_run fuel name now limit (drop (N.to_nat consumed) l) in
              (option_list r ++ records, e)
          end
      end
  end.
