(* ===== verification/TailFacts.v ===== *)
(** * Log sources: theorems

    A log file that only grows gives each of its lines once, in order, however its
    bytes arrive and across restarts; whatever happens to the file, no two records
    of a source share an id. *)

From S2P Require Import Prelude Core Strings Ip ThirdParty Config Store Defense.
From S2P Require Import Bytes Url Date Tls Tail.

Local Open Scope N_scope.

(** ** Tails *)

Definition last64 (l : list N) : list N := drop (length l - FILE_TAIL_BYTES) l.
Lemma push_tail_last tail bytes :
  (length tail <= FILE_TAIL_BYTES)%nat -> push_tail tail bytes = last64 (tail ++ bytes).
Proof.
  intros Ht. unfold push_tail, last64. rewrite length_app. destruct (Nat.leb_spec FILE_TAIL_BYTES (length bytes)).
  - rewrite drop_app_ge by lia. f_equal. lia.
  - rewrite drop_app_le by lia. done.
Qed.
Lemma last64_length l : (length (last64 l) <= FILE_TAIL_BYTES)%nat.
Proof. unfold last64. rewrite length_drop. lia. Qed.
Lemma last64_app l k : last64 (last64 l ++ k) = last64 (l ++ k).
Proof.
  unfold last64. destruct (decide (length l <= FILE_TAIL_BYTES)%nat) as [H|H].
  { replace (length l - FILE_TAIL_BYTES)%nat with 0%nat by lia. done. }
  rewrite !length_app, length_drop. destruct (decide (FILE_TAIL_BYTES <= length k)%nat).
  - rewrite !drop_app_ge by (rewrite ?length_drop; lia). f_equal. rewrite length_drop. lia.
  - rewrite !drop_app_le by (rewrite ?length_drop; lia). rewrite drop_drop. f_equal. f_equal. lia.
Qed.
(** The buffers a line is drained in do not matter. *)
Lemma push_tail_app tail a b :
  (length tail <= FILE_TAIL_BYTES)%nat -> push_tail (push_tail tail a) b = push_tail tail (a ++ b).
Proof.
  intros Ht. rewrite (push_tail_last tail a Ht), push_tail_last by apply last64_length.
  by rewrite last64_app, push_tail_last, app_assoc.
Qed.
Lemma read_file_tail_last l : read_file_tail l (count l) = last64 l.
Proof.
  unfold read_file_tail, last64, count. rewrite take_ge; [f_equal; lia|]. rewrite length_drop. lia.
Qed.
(** What is read at an offset does not depend on what has been appended after it. *)
Lemma read_file_tail_prefix a b n : n <= count a -> read_file_tail (a ++ b) n = read_file_tail a n.
Proof.
  unfold count, read_file_tail. intros Hn. rewrite drop_app_le by lia. rewrite take_app_le; [done|]. rewrite length_drop. lia.
Qed.
Lemma read_file_tail_app a b : read_file_tail (a ++ b) (count a) = last64 a.
Proof. rewrite read_file_tail_prefix by lia. apply read_file_tail_last. Qed.

(** ** Reading lines *)

Lemma read_until_prefix limit l : exists r, l = read_until limit l ++ r.
Proof.
  revert limit. induction l as [|b l IH]; intros limit; [by exists []|]. cbn [read_until].
  destruct (limit =? 0); [by eexists|]. destruct (b =? newline); [by eexists|].
  destruct (IH (limit - 1)) as [r Hr]. exists r. cbn. by rewrite <- Hr.
Qed.
Lemma read_until_le limit l : count (read_until limit l) <= limit.
Proof.
  unfold count. revert limit. induction l as [|b l IH]; intros limit; cbn [read_until length]; [lia|].
  destruct (N.eqb_spec limit 0); [cbn; lia|]. destruct (b =? newline); cbn [length]; [lia|]. specialize (IH (limit - 1)). lia.
Qed.
Lemma read_until_nil limit l : limit <> 0 -> read_until limit l = [] -> l = [].
Proof. destruct l as [|b l]; [done|]. cbn. destruct (N.eqb_spec limit 0); [done|]. by destruct (b =? newline). Qed.

(** Bytes without a newline, but for the last. *)
Definition no_newline (l : list N) : bool := forallb (fun b => negb (b =? newline)) l.
Lemma ends_app a b : b <> [] -> ends_with_newline (a ++ b) = ends_with_newline b.
Proof. intros Hb. unfold ends_with_newline. rewrite last_app. destruct (last b) eqn:E; [done|]. by apply last_None in E. Qed.
Lemma ends_cons b l : ends_with_newline (b :: l) = match l with [] => b =? newline | _ => ends_with_newline l end.
Proof. unfold ends_with_newline. destruct l as [|c l]; [done|]. cbn [last]. by destruct (last (c :: l)). Qed.
(** What [read_until] gives either ends at the first newline or has none. *)
Lemma read_until_shape limit l :
  (exists k, read_until limit l = k ++ [newline] /\ no_newline k = true) \/ no_newline (read_until limit l) = true.
Proof.
  revert limit. induction l as [|b l IH]; intros limit; cbn [read_until]; [by right|].
  destruct (limit =? 0); [by right|]. destruct (N.eqb_spec b newline) as [->|Hb].
  - left. by exists [].
  - apply N.eqb_neq in Hb. destruct (IH (limit - 1)) as [(k & -> & Hk)|H]; [left; exists (b :: k)|right]; cbn; rewrite ?Hb; cbn [negb andb]; [by split|done].
Qed.
Lemma no_newline_ends l : no_newline l = true -> ends_with_newline l = false.
Proof.
  intros H. unfold ends_with_newline. destruct (last l) as [b|] eqn:E; [|done].
  apply last_Some in E as [l' ->]. unfold no_newline in H. rewrite forallb_app in H. cbn in H.
  rewrite andb_true_r in H. apply andb_true_iff in H as [_ H]. by apply negb_true_iff in H.
Qed.
Lemma no_newline_app a b : no_newline (a ++ b) = no_newline a && no_newline b.
Proof. apply forallb_app. Qed.

(** Complete lines, each with its newline, and what follows the last. *)
Fixpoint split_go (line l : list N) : list (list N) * list N :=
  match l with
  | [] => ([], line)
  | b :: l =>
      if b =? newline then let '(ls, rest) := split_go [] l in ((line ++ [b]) :: ls, rest)
      else split_go (line ++ [b]) l
  end.
Definition split_lines (l : list N) : list (list N) * list N := split_go [] l.
Definition lines (l : list N) : list (list N) := (split_lines l).1.
Definition unfinished (l : list N) : list N := (split_lines l).2.

Lemma split_go_plain line k l : no_newline k = true -> split_go line (k ++ l) = split_go (line ++ k) l.
Proof.
  revert line. induction k as [|b k IH]; intros line; [by rewrite app_nil_r|]. cbn.
  intros (Hb & Hk)%andb_true_iff. apply negb_true_iff in Hb. by rewrite Hb, IH, <- app_assoc.
Qed.
Lemma split_go_app line a b :
  split_go line (a ++ b) =
  let '(ls, rest) := split_go line a in let '(ls', rest') := split_go rest b in (ls ++ ls', rest').
Proof.
  revert line. induction a as [|x a IH]; intros line; cbn [app split_go].
  - by destruct (split_go line b).
  - destruct (x =? newline); [|apply IH]. rewrite IH. destruct (split_go [] a) as [ls rest].
    by destruct (split_go rest b).
Qed.
Lemma split_go_concat line l : line ++ l = mjoin (split_go line l).1 ++ (split_go line l).2.
Proof.
  revert line. induction l as [|x l IH]; intros line; cbn [split_go]; [by rewrite app_nil_r|].
  destruct (x =? newline).
  - specialize (IH []). destruct (split_go [] l) as [ls rest]. cbn in *. rewrite IH. by rewrite <- !app_assoc.
  - rewrite <- IH, <- app_assoc. done.
Qed.

(** ** A file that grows *)

Section File.
Variables (name : string) (start : StartPosition) (max_line : N).

(** The records of lines that begin after the bytes [seen]. *)
Fixpoint file_records (now : N) (ident : Identity) (generation : N) (seen : list N) (ls : list (list N)) : list SourceRecord :=
  match ls with
  | [] => []
  | line :: ls =>
      send_file_record name now ident generation (count (seen ++ line)) (last64 (seen ++ line)) (line_text line) false
      :: file_records now ident generation (seen ++ line) ls
  end.
Lemma file_records_app now ident generation seen ls ls' :
  file_records now ident generation seen (ls ++ ls') =
  file_records now ident generation seen ls ++ file_records now ident generation (seen ++ mjoin ls) ls'.
Proof.
  revert seen. induction ls as [|l ls IH]; intros seen; cbn; [by rewrite app_nil_r|]. by rewrite IH, <- app_assoc.
Qed.

(** No line is too long, the one that has not ended included. *)
Definition short_lines (l : list N) : Prop :=
  Forall (fun line => count line <= max_line) (lines l) /\ count (unfinished l) <= max_line.

(** The state of the reader of a file after [seen] and the [read] bytes behind it. *)
Definition at_bytes (ident : Identity) (generation : N) (seen read : list N) : Tailer := {|
  tl_identity := ident; tl_generation := generation; tl_position := count (seen ++ read);
  tl_committed := count (seen ++ mjoin (lines read)); tl_tail := last64 (seen ++ mjoin (lines read));
  tl_pending := unfinished read |}.

Lemma split_lines_concat l : l = mjoin (lines l) ++ unfinished l.
Proof. apply (split_go_concat []). Qed.
Lemma split_go_rest line l : no_newline line = true -> no_newline (split_go line l).2 = true.
Proof.
  revert line. induction l as [|b l IH]; intros line Hl; cbn [split_go]; [done|].
  destruct (b =? newline) eqn:E.
  - specialize (IH [] eq_refl). by destruct (split_go [] l).
  - apply IH. rewrite no_newline_app, Hl. cbn. by rewrite E.
Qed.
Lemma unfinished_plain l : no_newline (unfinished l) = true.
Proof. by apply (split_go_rest []). Qed.
Lemma split_read l k :
  split_lines (l ++ k) = (lines l ++ (split_go (unfinished l) k).1, (split_go (unfinished l) k).2).
Proof.
  unfold split_lines, lines, unfinished, split_lines. rewrite split_go_app. destruct (split_go [] l) as [ls rest].
  cbn. by destruct (split_go rest k).
Qed.
Lemma count_app a b : count (a ++ b) = count a + count b.
Proof. unfold count. rewrite length_app. lia. Qed.
Lemma drop_count a b : drop (N.to_nat (count a)) (a ++ b) = b.
Proof. unfold count. rewrite Nat2N.id. apply drop_app_length. Qed.

(** A prefix of short lines has short lines. *)
Lemma short_prefix a b : short_lines (a ++ b) -> short_lines a.
Proof.
  unfold short_lines, lines, unfinished. rewrite split_read. cbn. unfold lines, unfinished.
  intros [Hl Hu]. apply Forall_app in Hl as [Hl Hl']. split; [done|].
  generalize (split_lines a).2 Hl' Hu. clear. induction b as [|x b IH]; intros u Hl Hu; cbn in *; [done|].
  destruct (x =? newline).
  - destruct (split_go [] b) as [ls rest]. cbn in Hl. apply Forall_cons in Hl as [Hl _]. rewrite count_app in Hl. lia.
  - specialize (IH _ Hl Hu). rewrite count_app in IH. lia.
Qed.
Lemma split_go_line u k : no_newline k = true -> split_go u (k ++ [newline]) = ([u ++ k ++ [newline]], []).
Proof. intros Hk. rewrite split_go_plain by done. cbn. by rewrite app_assoc. Qed.
Lemma split_go_none u k : no_newline k = true -> split_go u k = ([], u ++ k).
Proof. intros Hk. rewrite <- (app_nil_r k) at 1. by rewrite split_go_plain. Qed.
Lemma lines_read l k : lines (l ++ k) = lines l ++ (split_go (unfinished l) k).1.
Proof. unfold lines at 1. by rewrite split_read. Qed.
Lemma unfinished_read l k : unfinished (l ++ k) = (split_go (unfinished l) k).2.
Proof. unfold unfinished at 1. by rewrite split_read. Qed.
Lemma seen_lines seen l : seen ++ l = (seen ++ mjoin (lines l)) ++ unfinished l.
Proof. by rewrite <- app_assoc, <- split_lines_concat. Qed.
Lemma mjoin_one {A} (l : list A) : mjoin [l] = l.
Proof. apply app_nil_r. Qed.

Lemma turn_grows now ident generation seen l more len :
  short_lines (l ++ more) -> count (seen ++ l ++ more) <= u64_max -> count (seen ++ mjoin (lines l)) <= len ->
  exists r rest, more = r ++ rest /\ (r = [] -> more = []) /\
    tail_turn name now max_line (at_bytes ident generation seen l) (seen ++ l ++ more) (Some (ident, len))
      (seen ++ l ++ more) =
    (Opened (at_bytes ident generation seen (l ++ r)),
     file_records now ident generation (seen ++ mjoin (lines l)) (split_go (unfinished l) r).1).
Proof.
  intros Hs Hb Hlen. unfold tail_turn. cbn [tl_pending tl_position tl_committed tl_tail tl_identity tl_generation at_bytes].
  rewrite app_assoc, drop_count. set (limit := _ `max` 1). assert (Hlim : limit <> 0) by (subst limit; lia).
  destruct (read_until_prefix limit more) as [rest Hrest]. exists (read_until limit more), rest. split; [done|].
  split; [by apply read_until_nil|].
  pose proof (read_until_shape limit more) as Hshape. pose proof (read_until_nil limit more Hlim) as Hnil. clearbody limit.
  destruct (read_until limit more) as [|b r] eqn:Er.
  { rewrite bool_decide_eq_true_2 by done. cbn [negb orb andb split_go fst file_records].
    rewrite (proj2 (N.ltb_ge _ _) Hlen), (Hnil eq_refl), !app_nil_r. cbn [negb andb orb].
    unfold file_tail_matches. rewrite bool_decide_eq_true_2; [done|]. rewrite (seen_lines seen l) at 1. apply read_file_tail_app. }
  rewrite <- Er in *. set (r' := read_until limit more) in *. assert (Hne : r' <> []) by (rewrite Er; done). clearbody r'. clear Er b r Hnil.
  assert (Hs' : short_lines (l ++ r')) by (apply (short_prefix _ rest); by rewrite <- app_assoc, <- Hrest).
  assert (Hb' : count (seen ++ mjoin (lines l)) + count (unfinished l ++ r') <= u64_max).
  { rewrite <- count_app, app_assoc, <- seen_lines, Hrest, <- ?app_assoc in *. rewrite app_assoc, count_app in Hb.
    rewrite !count_app in *. lia. }
  destruct Hs' as [Hl Hu]. rewrite lines_read in Hl. rewrite unfinished_read in Hu.
  destruct r' as [|b0 r0]; [done|]. set (r' := b0 :: r0) in *. clearbody r'. clear b0 r0.
  destruct Hshape as [(k & Hk & Hnl)|Hnl].
  - rewrite Hk in *. rewrite split_go_line in * by done. cbn [fst snd] in *.
    assert (He : ends_with_newline (unfinished l ++ k ++ [newline]) = true) by (by rewrite app_assoc, ends_app).
    apply Forall_app in Hl as [_ Hl]. rewrite Forall_singleton in Hl.
    rewrite (proj2 (N.ltb_ge _ _) Hl), He. cbn [negb file_records]. unfold at_bytes.
    rewrite lines_read, unfinished_read, split_go_line by done. cbn [fst snd].
    rewrite join_app, mjoin_one, sat_add_exact by done. rewrite push_tail_last by apply last64_length.
    rewrite last64_app, <- count_app, <- !app_assoc. rewrite <- !count_app, <- ?app_assoc. done.
  - rewrite split_go_none in * by done. cbn [fst snd] in *.
    assert (He : ends_with_newline (unfinished l ++ r') = false).
    { apply no_newline_ends. by rewrite no_newline_app, unfinished_plain. }
    rewrite (proj2 (N.ltb_ge _ _) Hu), He. cbn [negb file_records]. unfold at_bytes.
    rewrite lines_read, unfinished_read, split_go_none by done. cbn [fst snd].
    rewrite app_nil_r, <- count_app, <- !app_assoc. done.
Qed.

(** Reads of a file that only grows, from one content to another. *)
Inductive grows (ident : Identity) : list N -> list TailInput -> list N -> Prop :=
| grows_nil c : grows ident c [] c
| grows_turn c added now inputs c' :
    grows ident (c ++ added) inputs c' ->
    grows ident c (Turn now (c ++ added) (Some (ident, count (c ++ added))) (c ++ added) :: inputs) c'.
(** Further reads of the same content. *)
Definition idle (ident : Identity) (c : list N) (nows : list N) : list TailInput :=
  (fun now => Turn now c (Some (ident, count c)) c) <$> nows.
Definition untimed (r : SourceRecord) : SourceRecord := {|
  sr_source := sr_source r; sr_id := sr_id r; sr_payload := sr_payload r; sr_correlation := sr_correlation r;
  sr_observed_at := 0; sr_checkpoint := sr_checkpoint r; sr_oversized := sr_oversized r |}.
Lemma untimed_records now ident generation seen ls :
  untimed <$> file_records now ident generation seen ls = file_records 0 ident generation seen ls.
Proof. revert seen. induction ls as [|l ls IH]; intros seen; [done|]. cbn. by rewrite IH. Qed.

Lemma grows_prefix ident c inputs c' : grows ident c inputs c' -> exists m, c' = c ++ m.
Proof. induction 1 as [c|c added now inputs c' _ [m ->]]; [exists []; by rewrite app_nil_r|]. exists (added ++ m). by rewrite app_assoc. Qed.
Lemma tail_run_app s a b :
  tail_run name start max_line s (a ++ b) =
  let '(s', r) := tail_run name start max_line s a in
  let '(s'', r') := tail_run name start max_line s' b in (s'', r ++ r').
Proof.
  revert s. induction a as [|i a IH]; intros s; cbn [app tail_run]; [by destruct (tail_run _ _ _ s b)|].
  destruct (tail_step _ _ _ s i) as [s1 r1]. rewrite IH. destruct (tail_run _ _ _ s1 a) as [s2 r2].
  destruct (tail_run _ _ _ s2 b) as [s3 r3]. by rewrite app_assoc.
Qed.
Lemma committed_le seen l more : count (seen ++ mjoin (lines l)) <= count (seen ++ l ++ more).
Proof. rewrite (app_assoc seen), (seen_lines seen l). rewrite <- app_assoc, (count_app _ (_ ++ _)). lia. Qed.

(** The records of a reader that is [read] bytes behind [seen] and reads [r] more. *)
Definition read_records (ident : Identity) (generation : N) (seen l r : list N) : list SourceRecord :=
  file_records 0 ident generation (seen ++ mjoin (lines l)) (split_go (unfinished l) r).1.
Lemma read_records_app ident generation seen l r k :
  read_records ident generation seen l (r ++ k) =
  read_records ident generation seen l r ++ read_records ident generation seen (l ++ r) k.
Proof.
  unfold read_records. rewrite lines_read, unfinished_read, split_go_app.
  destruct (split_go (unfinished l) r) as [ls u]. cbn [fst snd]. destruct (split_go u k) as [ls' u']. cbn [fst].
  by rewrite file_records_app, join_app, app_assoc.
Qed.

Lemma run_grows ident generation seen l m inputs c' :
  grows ident (seen ++ l ++ m) inputs c' ->
  (forall m', c' = seen ++ l ++ m' -> short_lines (l ++ m')) -> count c' <= u64_max ->
  exists r rest records, c' = seen ++ l ++ r ++ rest /\
    tail_run name start max_line (Opened (at_bytes ident generation seen l)) inputs =
      (Opened (at_bytes ident generation seen (l ++ r)), records) /\
    untimed <$> records = read_records ident generation seen l r.
Proof.
  remember (seen ++ l ++ m) as c eqn:Hc. intros Hg. revert l m Hc.
  induction Hg as [c|c added now inputs c' Hg IH]; intros l m -> Hs Hb.
  { exists [], m, []. rewrite app_nil_r. done. }
  destruct (grows_prefix _ _ _ _ Hg) as [x Hx].
  assert (Hc : (seen ++ l ++ m) ++ added = seen ++ l ++ m ++ added) by (by rewrite <- !app_assoc).
  destruct (turn_grows now ident generation seen l (m ++ added) (count (seen ++ l ++ m ++ added))) as (r1 & rest1 & Hm & _ & Ht).
  { apply (short_prefix _ x). rewrite <- app_assoc. apply Hs. by rewrite Hx, Hc, <- !app_assoc. }
  { rewrite <- Hc. rewrite Hx, count_app in Hb. lia. }
  { apply committed_le. }
  rewrite Hc, Hm in *. destruct (IH (l ++ r1) rest1) as (r & rest & records & Hc' & Hrun & Hrec).
  { by rewrite <- !app_assoc. }
  { intros m' ->. rewrite <- app_assoc. apply Hs. by rewrite <- !app_assoc. }
  { done. }
  exists (r1 ++ r), rest, (file_records now ident generation (seen ++ mjoin (lines l)) (split_go (unfinished l) r1).1 ++ records).
  split; [by rewrite Hc', <- !app_assoc|]. split.
  - cbn [tail_run tail_step]. rewrite Ht, Hrun, <- app_assoc. done.
  - by rewrite fmap_app, untimed_records, Hrec, read_records_app.
Qed.

Lemma run_idle ident generation seen l m nows :
  short_lines (l ++ m) -> count (seen ++ l ++ m) <= u64_max -> (length m <= length nows)%nat ->
  exists records,
    tail_run name start max_line (Opened (at_bytes ident generation seen l)) (idle ident (seen ++ l ++ m) nows) =
      (Opened (at_bytes ident generation seen (l ++ m)), records) /\
    untimed <$> records = read_records ident generation seen l m.
Proof.
  revert l m. induction nows as [|now nows IH]; intros l m Hs Hb Hn.
  { destruct m as [|b m]; [|cbn in Hn; lia]. exists []. by rewrite app_nil_r. }
  destruct (turn_grows now ident generation seen l m (count (seen ++ l ++ m))) as (r1 & rest1 & -> & Hnil & Ht);
    [done|done|apply committed_le|].
  destruct (IH (l ++ r1) rest1) as (records & Hrun & Hrec).
  { by rewrite <- app_assoc. } { by rewrite <- app_assoc. }
  { destruct r1 as [|b r1]; [cbn in Hnil; rewrite (Hnil eq_refl); cbn; lia|]. rewrite length_app in Hn. cbn in Hn. lia. }
  rewrite <- app_assoc in Hrun.
  exists (file_records now ident generation (seen ++ mjoin (lines l)) (split_go (unfinished l) r1).1 ++ records). split.
  - cbn [idle fmap list_fmap tail_run tail_step]. rewrite Ht. unfold idle in Hrun. by rewrite Hrun.
  - by rewrite fmap_app, untimed_records, Hrec, read_records_app.
Qed.

(** ** Restarts *)

Definition complete (line : list N) : Prop := exists k, line = k ++ [newline] /\ no_newline k = true.
Lemma split_go_complete line l : no_newline line = true -> Forall complete (split_go line l).1.
Proof.
  revert line. induction l as [|b l IH]; intros line Hl; cbn [split_go]; [constructor|].
  destruct (N.eqb_spec b newline) as [->|Hb].
  - specialize (IH [] eq_refl). destruct (split_go [] l). cbn in *. constructor; [by exists line|done].
  - apply IH. rewrite no_newline_app, Hl. cbn. by rewrite (proj2 (N.eqb_neq _ _) Hb).
Qed.
Lemma lines_join ls l : Forall complete ls -> lines (mjoin ls ++ l) = ls ++ lines l.
Proof.
  induction 1 as [|x ls (k & -> & Hk) _ IH]; [done|]. cbn. unfold lines, split_lines in *.
  rewrite <- !app_assoc, split_go_plain by done. cbn. destruct (split_go [] (mjoin ls ++ l)) as [a u]. cbn in *. by rewrite IH.
Qed.
Lemma unfinished_join ls l : Forall complete ls -> unfinished (mjoin ls ++ l) = unfinished l.
Proof.
  induction 1 as [|x ls (k & -> & Hk) _ IH]; [done|]. cbn. unfold unfinished, split_lines in *.
  rewrite <- !app_assoc, split_go_plain by done. cbn. by destruct (split_go [] (mjoin ls ++ l)) as [a u].
Qed.
Lemma file_records_split now ident generation seen ls before r after :
  file_records now ident generation seen ls = before ++ r :: after ->
  exists ls1 line ls2, ls = ls1 ++ line :: ls2 /\
    before ++ [r] = file_records now ident generation seen (ls1 ++ [line]) /\
    sr_checkpoint r = Checkpoint.File ident.1 ident.2 (count (seen ++ mjoin (ls1 ++ [line]))) generation
                        (last64 (seen ++ mjoin (ls1 ++ [line]))).
Proof.
  revert seen before. induction ls as [|l ls IH]; intros seen before H; [by destruct before|]. cbn in H.
  destruct before as [|b before]; injection H as <- H.
  - exists [], l, ls. split; [done|]. cbn. rewrite app_nil_r. done.
  - destruct (IH _ _ H) as (ls1 & line & ls2 & -> & Hb & Hc). exists (l :: ls1), line, ls2. split; [done|].
    cbn. split; [by rewrite <- Hb|]. by rewrite Hc, <- !app_assoc.
Qed.

(** Where a source without a checkpoint starts. *)
Definition first_seen (c : list N) : list N := match start with End_ => c | Beginning => [] end.
Definition first_generation : N := match start with End_ => 0 | Beginning => 1 end.
Lemma open_first ident c :
  tail_open start true None ident (count c) c = at_bytes ident first_generation (first_seen c) [].
Proof.
  unfold tail_open, at_bytes, first_generation, first_seen. destruct start; cbn; [done|].
  by rewrite !app_nil_r, read_file_tail_last.
Qed.
Lemma open_resumed ident generation seen x r :
  sr_checkpoint r = Checkpoint.File ident.1 ident.2 (count seen) generation (last64 seen) ->
  (tail_step name start max_line (tail_start (Some (sr_checkpoint r)))
     (Open ident (count (seen ++ x)) (seen ++ x))).1 = Opened (at_bytes ident generation seen []).
Proof.
  intros ->. cbn [tail_start tail_step is_some negb fst]. unfold tail_open. cbn [rm_identity rm_offset rm_generation rm_tail].
  rewrite bool_decide_eq_true_2 by (by destruct ident). cbn [andb].
  rewrite (proj2 (N.leb_le _ _)) by (rewrite count_app; lia). cbn [andb]. unfold file_tail_matches.
  rewrite read_file_tail_app, (bool_decide_eq_true_2 (last64 seen = last64 seen)) by done. rewrite orb_true_r.
  unfold at_bytes. cbn. rewrite !app_nil_r. by destruct (bool_decide _).
Qed.

(** Up to a record, a first run has read whole lines and nothing else. *)
Lemma first_run ident c0 c1 inputs s before r after :
  grows ident c0 inputs c1 ->
  (forall m, c1 = first_seen c0 ++ m -> short_lines m) -> count c1 <= u64_max ->
  tail_run name start max_line (tail_start None) (Open ident (count c0) c0 :: inputs) = (s, before ++ r :: after) ->
  exists ls m, Forall complete ls /\ c1 = first_seen c0 ++ mjoin ls ++ m /\
    untimed <$> before ++ [r] = file_records 0 ident first_generation (first_seen c0) ls /\
    sr_checkpoint r = Checkpoint.File ident.1 ident.2 (count (first_seen c0 ++ mjoin ls)) first_generation
                        (last64 (first_seen c0 ++ mjoin ls)).
Proof.
  set (seen := first_seen c0). intros Hg Hs Hb Hr. cbn [tail_start tail_run tail_step is_some negb] in Hr.
  rewrite open_first in Hr. fold seen in Hr.
  assert (Hseen : exists m0, c0 = seen ++ [] ++ m0).
  { unfold seen, first_seen. destruct start; [by exists c0|exists []; by rewrite app_nil_r]. }
  destruct Hseen as [m0 Hm0]. rewrite Hm0 in Hg.
  destruct (run_grows ident first_generation seen [] m0 inputs c1 Hg) as (l & rest & records & Hl & Hrun & Hrec);
    [intros m' Hm'; by apply Hs|done|].
  rewrite Hrun in Hr. injection Hr as _ Hr. rewrite Hr in Hrec. cbn [app] in *. clear Hrun.
  unfold read_records in Hrec. cbn [mjoin lines split_lines split_go fst] in Hrec. rewrite app_nil_r in Hrec.
  change (split_go (unfinished []) l).1 with (lines l) in Hrec. rewrite fmap_app, fmap_cons in Hrec. symmetry in Hrec.
  destruct (file_records_split _ _ _ _ _ _ _ _ Hrec) as (ls1 & line & ls2 & Hls & Hbefore & Hcp).
  exists (ls1 ++ [line]), (mjoin ls2 ++ unfinished l ++ rest).
  assert (Hsplit : lines l = (ls1 ++ [line]) ++ ls2) by (by rewrite Hls, <- app_assoc). repeat split.
  - assert (H : Forall complete (lines l)) by (by apply split_go_complete). rewrite Hsplit in H. by apply Forall_app in H as [H _].
  - rewrite Hl, (split_lines_concat l) at 1. by rewrite Hsplit, !join_app, <- !app_assoc.
  - by rewrite fmap_app.
  - exact Hcp.
Qed.

(** From the checkpoint of a record a run sends the lines that follow. *)
Lemma second_run ident generation seen m c inputs nows s records r :
  sr_checkpoint r = Checkpoint.File ident.1 ident.2 (count seen) generation (last64 seen) ->
  grows ident (seen ++ m) inputs c -> (length c <= length nows)%nat ->
  (forall m', c = seen ++ m' -> short_lines m') -> count c <= u64_max ->
  tail_run name start max_line (tail_start (Some (sr_checkpoint r)))
    (Open ident (count (seen ++ m)) (seen ++ m) :: inputs ++ idle ident c nows) = (s, records) ->
  forall m', c = seen ++ m' -> untimed <$> records = file_records 0 ident generation seen (lines m').
Proof.
  intros Hcp Hg Hn Hs Hb Hr m' Hm'. cbn [tail_run] in Hr.
  pose proof (open_resumed ident generation seen m r Hcp) as Hopen.
  destruct (tail_step name start max_line (tail_start (Some (sr_checkpoint r))) _) as [s0 r0] eqn:E0.
  cbn [fst] in Hopen. subst s0. cbn [tail_start tail_step] in E0. injection E0 as _ <-. rewrite tail_run_app in Hr.
  destruct (run_grows ident generation seen [] m inputs c Hg) as (l & rest & records1 & Hl & Hrun & Hrec);
    [intros k Hk; by apply Hs|done|].
  rewrite Hrun in Hr. cbn [app] in *. assert (Hrest : l ++ rest = m') by (apply (app_inv_head seen); by rewrite <- Hl).
  destruct (run_idle ident generation seen l rest nows) as (records2 & Hrun2 & Hrec2).
  { rewrite Hrest. by apply Hs. } { by rewrite <- Hl. } { rewrite Hl, !length_app in Hn. lia. }
  rewrite <- Hl in Hrun2. rewrite Hrun2 in Hr. injection Hr as _ <-.
  rewrite fmap_app, Hrec, Hrec2. change (read_records ident generation seen l rest) with (read_records ident generation seen ([] ++ l) rest).
  rewrite <- read_records_app, Hrest. unfold read_records. cbn [mjoin lines split_lines split_go fst]. by rewrite app_nil_r.
Qed.

End File.

(** ** Ids *)

(** A record's generation and offset, and their lexicographic order. *)
Definition record_key (r : SourceRecord) : N * N :=
  match sr_checkpoint r with Checkpoint.File _ _ offset generation _ => (generation, offset) | _ => (0, 0) end.
Definition key_lt (a b : N * N) : Prop := a.1 < b.1 \/ a.1 = b.1 /\ a.2 < b.2.
Definition key_le (a b : N * N) : Prop := a.1 < b.1 \/ a.1 = b.1 /\ a.2 <= b.2.
Lemma key_le_refl a : key_le a a.
Proof. unfold key_le. lia. Qed.
Lemma key_le_lt a b c : key_le a b -> key_lt b c -> key_lt a c.
Proof. unfold key_le, key_lt. lia. Qed.
Lemma key_le_trans a b c : key_le a b -> key_le b c -> key_le a c.
Proof. unfold key_le. lia. Qed.

(** What is behind the source, and what a state and an input have to satisfy for
    64-bit offsets not to saturate. *)
Definition reached (s : TailState) : N * N :=
  match s with
  | Closed _ (Some r) => (rm_generation r, rm_offset r)
  | Closed _ None => (0, 0)
  | Opened t => (tl_generation t, tl_committed t)
  end.
Definition state_ok (s : TailState) : Prop :=
  match s with
  | Closed initial resume => initial = true -> resume = None
  | Opened t => tl_committed t + count (tl_pending t) = tl_position t /\ tl_position t <= u64_max
  end.
Definition input_ok (i : TailInput) : Prop :=
  match i with Missing => True | Open _ len _ => len <= u64_max | Turn _ file _ _ => count file <= u64_max end.

#[local] Arguments count : simpl never.

Section Ids.
Variables (name : string) (start : StartPosition) (max_line : N).

(** An opened file starts where the resume says or at a place of its own. *)
Lemma tail_open_cases initial resume ident len bytes :
  let t := tail_open start initial resume ident len bytes in
  tl_committed t = tl_position t /\ tl_pending t = [] /\
  ((exists r, resume = Some r /\ rm_offset r <= len /\ tl_generation t = rm_generation r /\ tl_position t = rm_offset r) \/
   (initial = true /\ tl_generation t = match resume with Some r => rm_generation r | None => 0 end /\ tl_position t = len) \/
   (tl_generation t = sat_add u64_max (match resume with Some r => rm_generation r | None => 0 end) 1 /\ tl_position t = 0)).
Proof.
  unfold tail_open. cbv zeta. set (fresh := if initial && _ then _ else _).
  assert (Hf : tl_committed fresh = tl_position fresh /\ tl_pending fresh = [] /\
    ((initial = true /\ tl_generation fresh = match resume with Some r => rm_generation r | None => 0 end /\ tl_position fresh = len) \/
     (tl_generation fresh = sat_add u64_max (match resume with Some r => rm_generation r | None => 0 end) 1 /\ tl_position fresh = 0))).
  { subst fresh. destruct initial, (bool_decide (start = End_)); cbn; naive_solver. }
  clearbody fresh. destruct resume as [r|]; [|tauto]. destruct (_ && _) eqn:E; [|tauto]. clear Hf.
  apply andb_true_iff in E as [E _]. apply andb_true_iff in E as [_ E]. apply N.leb_le in E.
  cbn. split; [done|]. split; [done|]. left. by exists r.
Qed.
Lemma tail_open_reached initial resume ident len bytes :
  state_ok (Closed initial resume) -> len <= u64_max -> (reached (Closed initial resume)).1 < u64_max ->
  state_ok (Opened (tail_open start initial resume ident len bytes)) /\
  key_le (reached (Closed initial resume)) (reached (Opened (tail_open start initial resume ident len bytes))) /\
  tl_generation (tail_open start initial resume ident len bytes) <= (reached (Closed initial resume)).1 + 1.
Proof.
  intros Hi Hl Hg. pose proof (tail_open_cases initial resume ident len bytes) as H. cbv zeta in H.
  revert H. generalize (tail_open start initial resume ident len bytes). intros t (Hc & Hp & H).
  unfold state_ok, reached, key_le, sat_add, count in *. rewrite Hp, Hc. cbn [length fst snd].
  destruct H as [(r & -> & ? & -> & ->)|[(Hini & -> & ->)|[-> ->]]]; cbn in *; [lia| |destruct resume; cbn in *; lia].
  rewrite (Hi Hini). cbn. lia.
Qed.

(** What a step sends lies between what was reached before and after it. *)
Definition step_ordered (s s' : TailState) (records : list SourceRecord) : Prop :=
  state_ok s' /\ key_le (reached s) (reached s') /\ (reached s').1 <= (reached s).1 + 1 /\
  (length records <= 1)%nat /\
  forall r, r ∈ records -> key_lt (reached s) (record_key r) /\ key_le (record_key r) (reached s').

Lemma step_ordered_none s s' :
  state_ok s' -> key_le (reached s) (reached s') -> (reached s').1 <= (reached s).1 + 1 -> step_ordered s s' [].
Proof. intros Hs Hl Hg. do 3 (split; [done|]). split; [cbn; lia|]. by intros r ?%elem_of_nil. Qed.
Lemma step_ordered_one s s' r :
  state_ok s' -> (reached s').1 <= (reached s).1 + 1 -> key_lt (reached s) (record_key r) ->
  key_le (record_key r) (reached s') -> step_ordered s s' [r].
Proof.
  intros Hs Hg Hl Hr. split; [done|]. split; [unfold key_le, key_lt in *; lia|]. split; [done|]. split; [cbn; lia|].
  by intros r' ->%list_elem_of_singleton.
Qed.
Lemma count_nil : count [] = 0.
Proof. done. Qed.
Lemma count_cons (b : N) l : count (b :: l) = 1 + count l.
Proof. unfold count. cbn [length]. lia. Qed.
Lemma drain_line_prefix l : exists r, l = drain_line l ++ r.
Proof.
  induction l as [|b l [r Hr]]; [by exists []|]. cbn. destruct (b =? newline); [by eexists|]. exists r. cbn. by rewrite <- Hr.
Qed.

Lemma tail_turn_ordered now t file at_path path_bytes :
  state_ok (Opened t) -> count file <= u64_max -> tl_generation t < u64_max ->
  step_ordered (Opened t) (tail_turn name now max_line t file at_path path_bytes).1
    (tail_turn name now max_line t file at_path path_bytes).2.
Proof.
  intros [Hp Hpos] Hf Hg. unfold tail_turn. set (rest := drop _ file).
  assert (Hrest : rest = [] \/ tl_position t + count rest = count file).
  { subst rest. unfold count in *. destruct (decide (N.to_nat (tl_position t) <= length file)%nat).
    - right. rewrite length_drop. lia.
    - left. apply drop_ge. lia. }
  destruct (read_until_prefix ((sat_add u64_max max_line 1 - count (tl_pending t)) `max` 1) rest) as [k Hk].
  destruct (read_until _ rest) as [|b read] eqn:Er.
  - destruct (_ || _); cbn [fst snd]; [|apply step_ordered_none; [done|apply key_le_refl|lia]].
    assert (Hgen : sat_add u64_max (tl_generation t) 1 = tl_generation t + 1) by (unfold sat_add; lia).
    destruct (tl_pending t) as [|p pending] eqn:Ep.
    + apply step_ordered_none; cbn; rewrite ?Hgen; [done|unfold key_le; cbn; lia|lia].
    + rewrite count_cons in Hp. rewrite (sat_add_exact (tl_committed t)) by (rewrite count_cons; lia).
      apply step_ordered_one; cbn; rewrite ?Hgen; [done|lia|unfold key_lt; cbn; rewrite count_cons; lia|unfold key_le; cbn; lia].
  - clearbody rest. assert (Hr : tl_position t + count (b :: read) + count k = count file).
    { destruct Hrest as [->|Hrest]; [done|]. rewrite Hk, count_app in Hrest. lia. }
    set (r := b :: read) in *. assert (Hr1 : 1 <= count r) by (subst r; rewrite count_cons; lia). clearbody r.
    clear Er b read. rewrite Hk, drop_app_length.
    destruct (drain_line_prefix k) as [k' Hk']. assert (Hd : count (drain_line k) <= count k) by (rewrite Hk' at 2; rewrite count_app; lia).
    set (d := if ends_with_newline (tl_pending t ++ r) then [] else drain_line k).
    assert (Hd' : count d <= count k) by (subst d; destruct (ends_with_newline _); [unfold count; cbn; lia|done]). clearbody d.
    destruct (max_line <? _); [|destruct (negb _)]; cbn [fst snd]; rewrite ?count_app.
    + rewrite !sat_add_exact by (rewrite ?sat_add_exact; lia).
      apply step_ordered_one; cbn; [rewrite count_nil; lia|lia|unfold key_lt; cbn; lia|unfold key_le; cbn; lia].
    + apply step_ordered_none; cbn; [rewrite count_app; lia|apply key_le_refl|lia].
    + rewrite !sat_add_exact by lia.
      apply step_ordered_one; cbn; [rewrite count_nil; lia|lia|unfold key_lt; cbn; lia|unfold key_le; cbn; lia].
Qed.

Lemma tail_step_ordered s i :
  state_ok s -> input_ok i -> (reached s).1 < u64_max ->
  step_ordered s (tail_step name start max_line s i).1 (tail_step name start max_line s i).2.
Proof.
  intros Hs Hi Hg.
  assert (Hsame : step_ordered s s []) by (apply step_ordered_none; [done|apply key_le_refl|lia]).
  destruct s as [initial resume|t], i as [|ident len bytes|now file at_path path_bytes]; try exact Hsame; cbn [tail_step fst snd].
  - destruct (tail_open_reached initial resume ident len bytes Hs Hi Hg) as (H1 & H2 & H3).
    apply step_ordered_none; [done|done|exact H3].
  - by apply tail_turn_ordered.
Qed.

Lemma tail_run_ordered s inputs :
  state_ok s -> Forall input_ok inputs -> (reached s).1 + N.of_nat (length inputs) <= u64_max ->
  let records := (tail_run name start max_line s inputs).2 in
  StronglySorted key_lt (record_key <$> records) /\ forall r, r ∈ records -> key_lt (reached s) (record_key r).
Proof.
  intros Hs Hi. revert s Hs. induction Hi as [|i inputs Hi Hinputs IH]; intros s Hs Hg.
  { split; [constructor|]. by intros r ?%elem_of_nil. }
  cbn [tail_run length] in *.
  destruct (tail_step_ordered s i Hs Hi) as (Hs1 & Hle & Hgen & Hlen & Hrec); [lia|].
  destruct (tail_step name start max_line s i) as [s1 r1]. cbn [fst snd] in *.
  destruct (IH s1 Hs1) as [Hsort Hmore]; [lia|]. destruct (tail_run _ _ _ s1 inputs) as [s2 r2]. cbn [snd] in *. split.
  - destruct r1 as [|r [|]]; [done| |cbn in Hlen; lia]. cbn. constructor; [done|].
    apply Forall_fmap, Forall_forall. intros r' Hr'. cbn. eapply key_le_lt; [|by apply Hmore].
    apply Hrec. apply list_elem_of_here.
  - intros r [Hr|Hr]%elem_of_app; [by apply Hrec|]. eapply key_le_lt; [exact Hle|by apply Hmore].
Qed.

Lemma show_N_plain n : str_any (char_eqb ":") (show_N n) = false.
Proof. eapply str_all_not_any; [|apply show_N_digits]. intros c. by_char c. Qed.
Lemma id_pieces a b c d :
  str_split ":" (show_N a +:+ ":" +:+ show_N b +:+ ":" +:+ show_N c +:+ ":" +:+ show_N d) =
  [show_N a; show_N b; show_N c; show_N d].
Proof.
  change (str_split ":" (show_N a +:+ String ":" (show_N b +:+ String ":" (show_N c +:+ String ":" (show_N d)))) =
    [show_N a; show_N b; show_N c; show_N d]).
  rewrite !str_split_app, !str_split_none by apply show_N_plain. done.
Qed.
Lemma tail_record_shape s i r :
  r ∈ (tail_step name start max_line s i).2 ->
  exists now ident generation offset tail payload oversized,
    r = send_file_record name now ident generation offset tail payload oversized.
Proof.
  destruct s as [initial resume|t], i as [|ident len bytes|now file at_path path_bytes]; cbn [tail_step snd];
    try by intros ?%elem_of_nil.
  unfold tail_turn. repeat case_match; cbn [snd]; intros Hr; try (by apply elem_of_nil in Hr);
    apply list_elem_of_singleton in Hr; subst r; by repeat eexists.
Qed.
Lemma tail_run_shape s inputs r :
  r ∈ (tail_run name start max_line s inputs).2 ->
  exists now ident generation offset tail payload oversized,
    r = send_file_record name now ident generation offset tail payload oversized.
Proof.
  revert s. induction inputs as [|i inputs IH]; intros s; cbn [tail_run]; [by intros ?%elem_of_nil|].
  pose proof (tail_record_shape s i r) as Hs. destruct (tail_step _ _ _ s i) as [s1 r1].
  specialize (IH s1). destruct (tail_run _ _ _ s1 inputs) as [s2 r2]. cbn [snd] in *. intros [H|H]%elem_of_app; auto.
Qed.
Lemma key_sorted_nodup l : StronglySorted key_lt l -> NoDup l.
Proof.
  induction 1 as [|a l Hs IH Ha]; constructor; [|done]. intros Hin. apply (proj1 (Forall_forall _ _) Ha) in Hin.
  unfold key_lt in Hin. lia.
Qed.
Lemma file_id_key now ident g o tail p b now' ident' g' o' tail' p' b' :
  sr_id (send_file_record name now ident g o tail p b) = sr_id (send_file_record name now' ident' g' o' tail' p' b') ->
  record_key (send_file_record name now ident g o tail p b) = record_key (send_file_record name now' ident' g' o' tail' p' b').
Proof.
  cbn. intros H. apply (f_equal (str_split ":")) in H. rewrite !id_pieces in H.
  by injection H as _ _ ->%show_N_inj ->%show_N_inj.
Qed.

(** Whatever happens to a log file, growth, truncation, replacement, a rewrite or
    its absence, no two records of a run share an id, and none has the id of a record
    at or before the checkpoint the run started from: generation and offset only
    grow. So the store never takes a new line for one it has seen. *)
Theorem tail_ids_distinct checkpoint inputs :
  Forall input_ok inputs -> (reached (tail_start checkpoint)).1 + N.of_nat (length inputs) <= u64_max ->
  let records := (tail_run name start max_line (tail_start checkpoint) inputs).2 in
  NoDup (sr_id <$> records) /\
  forall device inode offset generation tail,
    checkpoint = Some (Checkpoint.File device inode offset generation tail) ->
    forall r, r ∈ records -> key_lt (generation, offset) (record_key r).
Proof.
  intros Hi Hg. cbv zeta.
  assert (Hok : state_ok (tail_start checkpoint)) by (destruct checkpoint as [[]|]; cbn; done).
  destruct (tail_run_ordered _ inputs Hok Hi Hg) as [Hsort Hlt]. cbv zeta in *.
  pose proof (tail_run_shape (tail_start checkpoint) inputs) as Hshape.
  set (records := (tail_run name start max_line (tail_start checkpoint) inputs).2) in *. split.
  - apply key_sorted_nodup in Hsort. clear Hlt Hg Hi. revert Hsort Hshape. clearbody records. generalize records. clear.
    intros l. induction l as [|r l IH]; intros Hn Hshape; [constructor|]. cbn in *. apply NoDup_cons in Hn as [Hin Hn].
    constructor; [|apply IH; [done|intros r' Hr'; apply Hshape; by right]].
    intros (r' & Hid & Hr')%list_elem_of_fmap. apply Hin. apply list_elem_of_fmap. exists r'. split; [|done].
    destruct (Hshape r) as (n1 & i1 & g1 & o1 & t1 & p1 & b1 & ->); [left|].
    destruct (Hshape r') as (n2 & i2 & g2 & o2 & t2 & p2 & b2 & ->); [by right|]. by apply file_id_key.
  - intros device inode offset generation tail -> r Hr. exact (Hlt r Hr).
Qed.
End Ids.

(** ** Examples *)

Module TailExample.
Definition bytes (s : string) : list N := string_bytes s.
Definition nl : string := bytes_string [10].
Definition disk : Identity := (8, 77).
Definition see (s : string) : TailInput := Turn 0 (bytes s) (Some (disk, count (bytes s))) (bytes s).
Definition payloads (r : TailState * list SourceRecord) : list (string * bool) :=
  (fun r => (sr_payload r, sr_oversized r)) <$> r.2.
(** Growth in pieces, then [copytruncate]: the test of [source.rs]. *)
Example rotation :
  payloads (tail_run "log" Beginning 1024 (tail_start None)
    [Missing; Open disk 4 (bytes ("one" +:+ nl)); see ("one" +:+ nl); see ("one" +:+ nl +:+ "tw");
     see ("one" +:+ nl +:+ "two" +:+ nl); see ("new" +:+ nl); Open disk 4 (bytes ("new" +:+ nl)); see ("new" +:+ nl)]) =
  [("one", false); ("two", false); ("new", false)].
Proof. vm_refl. Qed.
(** A line that is too long is dropped, but only up to the end of the file: when its
    rest is written later, that rest is taken for a line of its own. *)
Example oversized_remainder :
  payloads (tail_run "log" Beginning 5 (tail_start None)
    [Open disk 0 []; see "aaaaaaaa"; see ("aaaaaaaa" +:+ "bad" +:+ nl)]) = [("", true); ("bad", false)] /\
  payloads (tail_run "log" Beginning 5 (tail_start None)
    [Open disk 0 []; see ("aaaaaaaa" +:+ "bad" +:+ nl)]) = [("", true)].
Proof. split; vm_refl. Qed.
End TailExample.

Lemma tail_ids_distinct_witness :
  let records := (tail_run "log" End_ 100 (tail_start (Some (Checkpoint.File 8 77 3 1 [])))
    [Open TailExample.disk 2 (TailExample.bytes "x"); Turn 0 (TailExample.bytes "x") None []; Missing]).2 in
  NoDup (sr_id <$> records) /\ forall r, r ∈ records -> key_lt (1, 3) (record_key r).
Proof.
  cbv zeta.
  destruct (tail_ids_distinct "log" End_ 100 (Some (Checkpoint.File 8 77 3 1 []))
    [Open TailExample.disk 2 (TailExample.bytes "x"); Turn 0 (TailExample.bytes "x") None []; Missing]) as [H1 H2].
  - repeat constructor; vm_compute; done.
  - vm_compute. done.
  - split; [exact H1|]. intros r. by apply (H2 8 77 3 1 []).
Defined.

(** * Address lists: theorems

    An address list is sent whole, once for each of its contents, and a run resumed
    at the checkpoint of any of its records sends the ones after it. *)

Local Open Scope N_scope.

(** ** Address lists *)

Section AddressSet.
Context (name path : string).

(** The lines of a list, the last one with or without its newline. *)
Definition last_line (u : list N) : list (list N) := match u with [] => [] | _ => [u] end.
Definition set_file_lines (l : list N) : list (list N) := lines l ++ last_line (unfinished l).
(** What is sent for a line that ends [committed] bytes into the file. *)
Definition line_record (now : N) (i : SetIdentity) (committed : N) (line : list N) : SourceRecord :=
  set_record name path now i (show_N (si_size i) +:+ ":" +:+ show_N committed)
    (address_text (take (S (N.to_nat MAX_CIDR_LINE_BYTES)) line)) committed (MAX_CIDR_LINE_BYTES <? count line).
Fixpoint line_records (now : N) (i : SetIdentity) (committed : N) (ls : list (list N)) : list SourceRecord :=
  match ls with
  | [] => []
  | line :: ls => line_record now i (committed + count line) line :: line_records now i (committed + count line) ls
  end.

(** A line as [split_lines] gives it: ended, or the last one. *)
Definition line_before (line rest : list N) : Prop := complete line \/ rest = [] /\ no_newline line = true.

Lemma drain_plain k l : no_newline k = true -> drain_line (k ++ l) = k ++ drain_line l.
Proof.
  induction k as [|b k IH]; [done|]. cbn. intros (Hb & Hk)%andb_true_iff. apply negb_true_iff in Hb. by rewrite Hb, IH.
Qed.
Lemma drain_one line rest : line_before line rest -> drain_line (line ++ rest) = line.
Proof.
  intros [(k & -> & Hk)|[-> Hk]]; rewrite <- ?app_assoc, drain_plain by done; [done|]. cbn. by rewrite app_nil_r.
Qed.
Lemma read_until_plain limit k l :
  no_newline k = true ->
  read_until limit (k ++ l) = take (N.to_nat limit) k ++ read_until (limit - count k) l.
Proof.
  revert limit. induction k as [|b k IH]; intros limit Hk.
  - cbn. by rewrite take_nil, N.sub_0_r.
  - cbn in Hk. apply andb_true_iff in Hk as [Hb Hk]. apply negb_true_iff in Hb.
    rewrite <- app_comm_cons. cbn [read_until]. rewrite Hb.
    destruct (N.eqb_spec limit 0) as [->|H].
    + cbn. by destruct l.
    + rewrite IH by done. replace (N.to_nat limit) with (S (N.to_nat (limit - 1))) by lia. cbn [take app].
      rewrite count_cons. do 3 f_equal. lia.
Qed.
Lemma read_until_one limit line rest :
  line_before line rest -> read_until limit (line ++ rest) = take (N.to_nat limit) line.
Proof.
  intros [(k & -> & Hk)|[-> Hk]]; rewrite <- ?app_assoc, read_until_plain by done.
  - cbn [app read_until]. rewrite N.eqb_refl. rewrite take_app. f_equal.
    destruct (N.eqb_spec (limit - count k) 0) as [H|H]; unfold count in *.
    + replace (N.to_nat limit - length k)%nat with 0%nat by lia. done.
    + destruct (N.to_nat limit - length k)%nat eqn:E; [lia|]. cbn. by rewrite take_nil.
  - cbn. by rewrite app_nil_r.
Qed.
Lemma complete_drop n line : (n < length line)%nat -> complete line -> complete (drop n line).
Proof.
  intros Hn (k & -> & Hk). rewrite length_app in Hn. cbn in Hn. exists (drop n k). split.
  - rewrite drop_app_le by lia. done.
  - rewrite <- (take_drop n k), no_newline_app in Hk. by apply andb_true_iff in Hk as [_ Hk].
Qed.
Lemma line_before_drop n line rest :
  (n < length line)%nat -> line_before line rest -> line_before (drop n line) rest.
Proof.
  intros Hn [Hl|[-> Hl]]; [left; by apply complete_drop|]. right. split; [done|].
  rewrite <- (take_drop n line), no_newline_app in Hl. by apply andb_true_iff in Hl as [_ Hl].
Qed.
Lemma cut_plain n line rest :
  line_before line rest -> (n < length line)%nat -> no_newline (take n line) = true.
Proof.
  intros Hl Hn. assert (H : exists k t, line = k ++ t /\ (length t <= 1)%nat /\ no_newline k = true).
  { destruct Hl as [(k & -> & Hk)|[_ Hk]]; [by exists k, [newline]|]. exists line, []. rewrite app_nil_r. cbn. eauto. }
  destruct H as (k & t & -> & Ht & Hk). rewrite length_app in Hn. rewrite take_app_le by lia.
  rewrite <- (take_drop n k), no_newline_app in Hk. by apply andb_true_iff in Hk as [Hk _].
Qed.
(** Reading a line from its beginning: the first [limit + 1] bytes of it are kept,
    and the reader is left at the next. *)
Lemma read_bounded_one limit line rest :
  line <> [] -> line_before line rest -> limit < u64_max -> count line <= u64_max ->
  read_bounded_line limit (line ++ rest) =
    Some (take (S (N.to_nat limit)) line, limit <? count line, count line).
Proof.
  intros Hne Hl Hlim Hc. unfold read_bounded_line. rewrite sat_add_exact by lia.
  rewrite read_until_one by done. replace (N.to_nat (limit + 1)) with (S (N.to_nat limit)) by lia.
  destruct (take (S (N.to_nat limit)) line) as [|b t] eqn:E; [by destruct line|]. rewrite <- E.
  assert (Hcut : count (take (S (N.to_nat limit)) line) = (limit + 1) `min` count line)
    by (unfold count; rewrite length_take; lia).
  rewrite Hcut. replace (limit <? (limit + 1) `min` count line) with (limit <? count line)
    by (apply eq_iff_eq_true; rewrite !N.ltb_lt; lia).
  do 2 f_equal. destruct (N.ltb_spec limit (count line)) as [H|H]; cbn [andb]; [|lia].
  destruct (decide (count line = limit + 1)) as [Hlen|Hlen].
  - rewrite take_ge by (unfold count in *; lia). destruct Hl as [Hl|[-> Hl]].
    + destruct Hl as (k & -> & Hk). rewrite ends_app by done. cbn [negb]. cbn -[count]. unfold ends_with_newline. cbn -[count]. lia.
    + rewrite (no_newline_ends _ Hl). cbn [negb]. rewrite app_nil_r, drop_all. cbn [drain_line]. rewrite count_nil. unfold sat_add. lia.
  - assert (Hlong : (S (N.to_nat limit) < length line)%nat) by (unfold count in *; lia).
    rewrite (no_newline_ends _ (cut_plain _ _ _ Hl Hlong)). cbn [negb].
    rewrite length_take, Nat.min_l, drop_app_le by lia.
    rewrite drain_one by (by apply line_before_drop).
    rewrite sat_add_exact; unfold count in *; rewrite length_drop; lia.
Qed.

(** ** Passes *)

Fixpoint split_ok (ls : list (list N)) : Prop :=
  match ls with
  | [] => True
  | line :: ls => line <> [] /\ line_before line (mjoin ls) /\ split_ok ls
  end.
Lemma split_ok_last ls u : Forall complete ls -> no_newline u = true -> split_ok (ls ++ last_line u).
Proof.
  intros Hls Hu. induction Hls as [|x ls Hx _ IH]; cbn.
  - destruct u as [|b u]; [done|]. split; [done|]. split; [by right|done].
  - split; [by destruct Hx as (k & -> & _); destruct k|]. split; [by left|done].
Qed.
Lemma set_file_lines_ok l : split_ok (set_file_lines l).
Proof. unfold set_file_lines. apply split_ok_last; [by apply split_go_complete|apply unfinished_plain]. Qed.
Lemma set_file_lines_join l : mjoin (set_file_lines l) = l.
Proof.
  unfold set_file_lines. rewrite (split_lines_concat l) at 3. rewrite join_app. f_equal.
  unfold last_line. destruct (unfinished l); [done|]. apply mjoin_one.
Qed.
Lemma split_ok_app ls ls' : split_ok (ls ++ ls') -> split_ok ls'.
Proof. induction ls as [|x ls IH]; [done|]. cbn. intros (_ & _ & H). auto. Qed.

Lemma set_lines_correct fuel now i committed ls :
  split_ok ls -> (length (mjoin ls) <= fuel)%nat -> committed + count (mjoin ls) <= u64_max ->
  set_lines fuel name path now i committed (mjoin ls) = line_records now i committed ls.
Proof.
  revert fuel committed. induction ls as [|line ls IH]; intros fuel committed Hok Hfuel Hc; [by destruct fuel|].
  destruct Hok as (Hne & Hl & Hok). change (mjoin (line :: ls)) with (line ++ mjoin ls) in *.
  rewrite length_app in Hfuel. rewrite count_app in Hc.
  assert (Hpos : (0 < length line)%nat) by (by destruct line; cbn; [|lia]).
  destruct fuel as [|fuel]; [lia|]. cbn [set_lines].
  rewrite read_bounded_one by (done || lia || (unfold MAX_CIDR_LINE_BYTES, u64_max; lia)).
  rewrite sat_add_exact, drop_count by lia. cbn [line_records]. f_equal; [|apply IH; (done || lia)].
  unfold line_record. f_equal. rewrite bool_decide_eq_false_2, orb_false_r; [done|]. by destruct line.
Qed.

Lemma line_records_app now i committed ls ls' :
  line_records now i committed (ls ++ ls') =
  line_records now i committed ls ++ line_records now i (committed + count (mjoin ls)) ls'.
Proof.
  revert committed. induction ls as [|line ls IH]; intros committed; cbn.
  - by rewrite N.add_0_r.
  - by rewrite IH, count_app, N.add_assoc.
Qed.
Lemma line_records_length now i committed ls : length (line_records now i committed ls) = length ls.
Proof. revert committed. induction ls as [|line ls IH]; intros committed; cbn; [done|]. by rewrite IH. Qed.

(** A pass over a file whose identity is that of the checkpoint sends the lines
    after it. *)
Lemma set_pass_same now i ls1 ls2 :
  split_ok (ls1 ++ ls2) -> si_size i = count (mjoin (ls1 ++ ls2)) -> si_size i <= u64_max ->
  set_pass name path now (Some (i, count (mjoin ls1))) i (mjoin (ls1 ++ ls2)) =
    (line_records now i (count (mjoin ls1)) ls2, Some (i, si_size i)).
Proof.
  intros Hok Hs Hmax. unfold set_pass. rewrite bool_decide_eq_true_2 by done. cbn [negb]. rewrite orb_false_r.
  rewrite join_app, count_app in Hs. rewrite N.min_l by lia. f_equal. rewrite join_app, drop_count.
  destruct (N.ltb_spec (count (mjoin ls1)) (si_size i)) as [H|H].
  - rewrite set_lines_correct; [|by eapply split_ok_app|lia|lia].
    destruct ls2 as [|line ls2]; [|done]. cbn in Hs. unfold count in *. cbn in *. lia.
  - destruct ls2 as [|line ls2]; [done|]. apply split_ok_app in Hok as [Hne _].
    cbn in Hs. rewrite count_app in Hs. destruct line; [done|]. rewrite count_cons in Hs. lia.
Qed.
Lemma set_pass_fresh now resume i l :
  (forall offset, resume <> Some (i, offset)) -> si_size i = count l -> si_size i <= u64_max -> l <> [] ->
  set_pass name path now resume i l = (line_records now i 0 (set_file_lines l), Some (i, si_size i)).
Proof.
  intros Hr Hs Hmax Hne. unfold set_pass.
  assert (Ho : match resume with Some (r, offset) => if bool_decide (r = i) then offset `min` si_size i else 0 | None => 0 end = 0).
  { destruct resume as [[r offset]|]; [|done]. rewrite bool_decide_eq_false_2; [done|]. intros ->. by apply (Hr offset). }
  assert (Hi : match resume with Some (r, _) => bool_decide (r = i) | None => false end = false).
  { destruct resume as [[r offset]|]; [|done]. apply bool_decide_eq_false_2. intros ->. by apply (Hr offset). }
  rewrite Ho, Hi, orb_true_r. cbn [N.to_nat drop]. f_equal.
  assert (Hl : set_lines (length l) name path now i 0 l = line_records now i 0 (set_file_lines l)).
  { pose proof (set_file_lines_join l) as Hj. rewrite <- Hj at 2.
    apply set_lines_correct; rewrite ?Hj; [apply set_file_lines_ok|lia|lia]. }
  change (drop (N.to_nat 0) l) with l. rewrite Hl.
  destruct (set_file_lines l) as [|line ls] eqn:E; [|done]. pose proof (set_file_lines_join l) as Hj.
  rewrite E in Hj. by rewrite <- Hj in Hne.
Qed.

Lemma line_records_at now i committed ls k r :
  line_records now i committed ls !! k = Some r ->
  exists ls1 line ls2, ls = (ls1 ++ [line]) ++ ls2 /\ length ls1 = k /\
    set_start (Some (sr_checkpoint r)) = Some (i, committed + count (mjoin (ls1 ++ [line]))).
Proof.
  revert committed k. induction ls as [|line ls IH]; intros committed k; [done|]. destruct k as [|k]; cbn [line_records lookup list_lookup].
  - intros [= <-]. exists [], line, ls. split; [done|]. split; [done|]. cbn. rewrite app_nil_r. by destruct i.
  - intros (ls1 & x & ls2 & -> & <- & ->)%IH. exists (line :: ls1), x, ls2. split; [done|]. split; [done|].
    change (mjoin ((line :: ls1) ++ [x])) with (line ++ mjoin (ls1 ++ [x])). by rewrite count_app, N.add_assoc.
Qed.

(** An address list is sent whole and once. A pass over contents whose identity
    the source has not seen sends one record for each line, in order, each with its
    address in front of any comment and marked when it is longer than 4096 bytes;
    the passes after it send nothing while the identity stays; and a run that
    starts from the checkpoint of any of the records sends exactly the records after
    it, however long the lines are. *)
Theorem address_set_resumes now resume i l :
  si_size i = count l -> si_size i <= u64_max -> l <> [] -> (forall offset, resume <> Some (i, offset)) ->
  let '(records, next) := set_pass name path now resume i l in
  records = line_records now i 0 (set_file_lines l) /\
  set_pass name path now next i l = ([], next) /\
  forall k r, records !! k = Some r ->
    set_pass name path now (set_start (Some (sr_checkpoint r))) i l = (drop (S k) records, next).
Proof.
  intros Hs Hmax Hne Hr. rewrite set_pass_fresh by done. pose proof (set_file_lines_ok l) as Hok.
  pose proof (set_file_lines_join l) as Hj. set (ls := set_file_lines l) in *. clearbody ls. subst l.
  split; [done|]. split.
  - pose proof (set_pass_same now i ls []) as H. rewrite app_nil_r, <- Hs in H. by apply H.
  - intros k r (ls1 & line & ls2 & -> & <- & ->)%line_records_at. rewrite N.add_0_l.
    rewrite set_pass_same by done. f_equal. rewrite line_records_app, N.add_0_l.
    rewrite drop_app_ge; rewrite line_records_length, length_app; cbn; [|lia].
    by replace (S (length ls1) - (length ls1 + 1))%nat with 0%nat by lia.
Qed.
End AddressSet.

(** ** Examples *)

Module SourceExample.
Definition contents : list N :=
  TailExample.bytes ("203.0.113.7 # a" +:+ TailExample.nl +:+ TailExample.nl +:+ "2001:db8::/32").
Definition seen : SetIdentity := {| si_device := 8; si_inode := 77; si_modified := 5; si_size := count contents |}.
(** A list with a comment, an empty line and a last line that is not ended. *)
Example list_lines :
  sr_payload <$> (set_pass "list" "/l" 0 None seen contents).1 = ["203.0.113.7"; ""; "2001:db8::/32"].
Proof. vm_refl. Qed.
End SourceExample.

Lemma address_set_resumes_witness :
  set_pass "list" "/l" 0 (set_start (Some (Checkpoint.AddressSet 8 77 5 30 16))) SourceExample.seen SourceExample.contents =
  (drop 1 (set_pass "list" "/l" 0 None SourceExample.seen SourceExample.contents).1, Some (SourceExample.seen, 30)).
Proof.
  pose proof (address_set_resumes "list" "/l" 0 None SourceExample.seen SourceExample.contents eq_refl) as H.
  assert (H1 : si_size SourceExample.seen <= u64_max) by (vm_compute; done).
  assert (H2 : SourceExample.contents <> []) by done.
  assert (H3 : forall offset : N, (None : option (SetIdentity * N)) <> Some (SourceExample.seen, offset)) by done.
  specialize (H H1 H2 H3). destruct H as (_ & _ & H). exact (H 0%nat _ eq_refl).
Defined.
