(* ===== verification/ValidationFacts.v ===== *)
(** * What a validated configuration guarantees

    The listener table and the connection budget; that the runtime opens on any
    validated configuration; that every listener of it can record offenses. *)

From S2P Require Import Prelude Core Ip ThirdParty Config Validation Firewall Store.
From S2P Require Import StoreFacts StoreSpec Detector Defense DefenseFacts.

Local Open Scope N_scope.

Definition total_capacity (config : Config) (l : list Listener) : N :=
  foldr (fun x n => listener_cap x (max_tarpit_conns config) + n) 0 l.

Section ValidationFacts.
Context {NA : IpNetworkApi} {NL : IpNetworkLaws} {RX : RegexApi} {RL : RegexLaws}.

Lemma existsb_eqb_notin x l : existsb (String.eqb x) l = false <-> x ∉ l.
Proof.
  rewrite existsb_false. split.
  - intros H Hin. specialize (H x Hin). by rewrite String.eqb_refl in H.
  - intros H y Hy. apply String.eqb_neq. by intros ->.
Qed.

Lemma validate_listeners_ok config names addrs cap0 l cap :
  validate_listeners config names addrs cap0 l = Ok cap ->
  NoDup (l_name <$> l) /\ NoDup (l_listen_addr <$> l) /\
  Forall (fun x => (l_name x ∉ names) /\ (l_listen_addr x ∉ addrs) /\ l_name x <> "" /\
    1 <= listener_cap x (max_tarpit_conns config) <= max_connections config) l /\
  N.min cap usize_max = N.min (cap0 + total_capacity config l) usize_max.
Proof.
  revert names addrs cap0. induction l as [|x l IH]; intros names addrs cap0 H; cbn in H.
  { inv_result. repeat split; [constructor..|]. cbn. lia. }
  apply bind_ok in H as (? & Hn%fail_if_ok & H). apply bind_ok in H as (? & Ha%fail_if_ok & H).
  apply bind_ok in H as (? & Hc%fail_if_ok & H). apply bind_ok in H as (? & _ & H).
  apply orb_false_iff in Hn as [Hne Hn%existsb_eqb_notin]. apply existsb_eqb_notin in Ha.
  apply orb_false_iff in Hc as [Hc1%N.eqb_neq Hc2%N.ltb_ge].
  apply IH in H as (Hnd1 & Hnd2 & Hf & Hcap). rewrite Forall_forall in Hf.
  repeat split; cbn.
  - constructor; [|done]. intros (y & E & Hy)%list_elem_of_fmap.
    destruct (Hf y Hy) as [Hy1 _]. apply Hy1. rewrite <- E. left.
  - constructor; [|done]. intros (y & E & Hy)%list_elem_of_fmap.
    destruct (Hf y Hy) as (_ & Hy1 & _). apply Hy1. rewrite <- E. left.
  - constructor.
    + repeat split; [done|done| |lia|done]. intros E. by rewrite E in Hne.
    + apply Forall_forall. intros y Hy. destruct (Hf y Hy) as (H1 & H2 & H3 & H4).
      rewrite elem_of_cons in H1, H2. tauto.
  - rewrite Hcap. unfold sat_add. unfold listener_cap in *. cbn.
    change (foldr _ 0 l) with (total_capacity config l).
    set (c := default _ _). set (t := total_capacity config l). lia.
Qed.

(** The parts of [validate_config] the theorems use. *)
Lemma validate_config_inv config :
  validate_config config = Ok tt ->
  (exists cap, validate_listeners config [] [] 0 (listeners config) = Ok cap /\
     cap <= max_connections config) /\
  validate_defense config = Ok tt.
Proof.
  unfold validate_config. intros H. apply bind_ok in H as (? & _ & H).
  do 5 (apply bind_ok in H as (? & _ & H)). apply bind_ok in H as (cap & Hl & H).
  apply bind_ok in H as (? & Hc%fail_if_ok & H). apply N.ltb_ge in Hc. split; [eauto|done].
Qed.

(** A validated listener table: names and addresses are unique, every
    listener has at least one slot, and the slots of all listeners together
    fit the connection budget. *)
Theorem validated_capacity config :
  validate_config config = Ok tt -> max_connections config < usize_max ->
  NoDup (l_name <$> listeners config) /\ NoDup (l_listen_addr <$> listeners config) /\
  Forall (fun l => 1 <= listener_cap l (max_tarpit_conns config)) (listeners config) /\
  total_capacity config (listeners config) <= max_connections config.
Proof.
  intros [(cap & Hl & Hcap) _]%validate_config_inv Hmax.
  apply validate_listeners_ok in Hl as (H1 & H2 & Hf & Hsum). repeat split; try done.
  - eapply Forall_impl; [exact Hf|]. cbn. intros x (_ & _ & _ & ? & _). done.
  - rewrite N.add_0_l in Hsum. lia.
Qed.

Lemma validate_cidrs_ok field l :
  validate_cidrs field l = Ok tt -> exists ns, parse_networks l = Ok ns.
Proof.
  unfold validate_cidrs, parse_networks. intros H%for_each_ok.
  destruct (traverse_total network_from l) as (ns & Hns & _); [|by eexists].
  eapply Forall_impl; [exact H|]. cbn. intros c Hc.
  apply bind_ok in Hc as (? & Hs%fail_if_ok & Hc). apply negb_false_iff in Hs.
  unfold network_from. rewrite Hs. destruct (net_parse c); [|done]. by eexists.
Qed.

Lemma validate_defense_inv config :
  validate_defense config = Ok tt ->
  (exists ns, parse_networks (protected_networks config) = Ok ns) /\
  (exists ns, parse_networks (no_block_networks config) = Ok ns) /\
  exists ls, validate_sources config = Ok ls /\ validate_policies config ls = Ok tt.
Proof.
  unfold validate_defense. intros H. do 3 (apply bind_ok in H as (? & _ & H)).
  apply bind_ok in H as ([] & H1%validate_cidrs_ok & H).
  do 2 (apply bind_ok in H as (? & _ & H)).
  apply bind_ok in H as ([] & H2%validate_cidrs_ok & H).
  do 3 (apply bind_ok in H as (? & _ & H)). apply bind_ok in H as (ls & Hls & H). eauto.
Qed.
End ValidationFacts.

Section OpenFacts.
Context {NA : IpNetworkApi} {NL : IpNetworkLaws} {RX : RegexApi} {RL : RegexLaws}.
Context {JS : JsonApi} {TM : TimeApi} {SC : StoreCodec} {SL : StoreCodecLaws}.

(** Every policy's timestamp specifiers are known to the time library. *)
Definition formats_known (config : Config) : Prop :=
  Forall (fun np => format_known (detector_format (p_detector np.2))) (policies config).

Lemma open_sequences_ok db l :
  store_wf db -> exists seqs, open_sequences db l = Ok seqs.
Proof.
  intros Hwf. induction l as [|[name s] l [seqs IH]]; cbn; [by eexists|].
  destruct (is_in_process s); [|by eexists].
  destruct (checkpoint_total db name Hwf) as [c ->]. rewrite IH. by eexists.
Qed.

Lemma open_sequences_keys db l seqs name s :
  open_sequences db l = Ok seqs -> (name, s) ∈ l -> is_in_process s = true -> name ∈ seqs.*1.
Proof.
  revert seqs. induction l as [|[n x] l IH]; intros seqs H Hin Hp; cbn in H.
  { by apply elem_of_nil in Hin. }
  apply elem_of_cons in Hin as [[= -> ->]|Hin].
  - rewrite Hp in H. inv_result. left.
  - destruct (is_in_process x); [|by eapply IH]. inv_result. right. by eapply IH.
Qed.

Lemma compile_policy_validated config np :
  validate_policy config np = Ok tt -> format_known (detector_format (p_detector np.2)) ->
  exists c, compile_policy np = Ok c.
Proof.
  destruct np as [name policy]. unfold validate_policy, compile_policy. intros H Hf.
  do 3 (apply bind_ok in H as (? & _ & H)). apply bind_ok in H as (? & _ & H).
  apply bind_ok in H as ([] & Hd & H). apply bind_ok in H as ([] & Hc%validate_cidrs_ok & _).
  destruct (detector_new_compiles name (p_detector policy) Hd Hf) as [c ->].
  destruct Hc as [ns ->]. by eexists.
Qed.

Lemma defense_open_ok config db :
  validate_config config = Ok tt -> formats_known config -> store_wf db ->
  exists d, defense_open config db = Ok d.
Proof.
  intros [_ (Hp & Hn & ls & _ & Hpol)%validate_defense_inv]%validate_config_inv Hf Hwf.
  unfold defense_open. destruct (open_sequences_ok db (sources config) Hwf) as [seqs ->].
  apply bind_ok in Hpol as ([] & Hpol%for_each_ok & _).
  destruct (traverse_total compile_policy (policies config)) as (cs & -> & _).
  { apply Forall_forall. intros np Hnp. rewrite Forall_forall in Hpol.
    unfold formats_known in Hf. rewrite Forall_forall in Hf.
    eapply compile_policy_validated; [by apply Hpol|by apply Hf]. }
  destruct Hp as [p ->], Hn as [n ->]. by eexists.
Qed.

(** The daemon starts on every configuration validation accepts: with known
    [strptime] specifiers and any database the store can reach, opening the
    defense succeeds. *)
Theorem defense_open_validated config db :
  validate_config config = Ok tt -> formats_known config -> store_reachable db ->
  exists d, defense_open config db = Ok d.
Proof. intros Hv Hf Hr. apply defense_open_ok; [done|done|]. by apply reachable_wf. Qed.

(** ** Listeners can record *)

Lemma validate_sources_sound names acc l out x n :
  validate_sources_go names acc l = Ok out -> (x, n) ∈ out ->
  (x, n) ∈ acc \/ (n, Source.Listener x) ∈ l.
Proof.
  revert acc. induction l as [|[name s] l IH]; intros acc H Hin; cbn in H; [by inv_result; left|].
  apply bind_ok in H as (? & _ & H). apply bind_ok in H as (acc' & Ha & H).
  destruct (IH _ H Hin) as [Hx|Hx]; [|right; by right].
  destruct s; inv_result; try by left.
  apply elem_of_cons in Hx as [[= -> ->]|Hx]; [right; left|by left].
Qed.

Lemma compiled_assoc config cs p policy :
  traverse compile_policy (policies config) = Ok cs -> assoc p (policies config) = Some policy ->
  exists c, assoc p cs = Some c /\ cp_policy c = policy.
Proof.
  intros H%traverse_ok. induction H as [|[n pol] [m c] l cs' Hc _ IH]; cbn; [done|].
  unfold compile_policy in Hc. inv_result. destruct (String.eqb p m); [|auto].
  intros [= ->]. by eexists.
Qed.

Lemma host_network_total a : exists n, host_network a = Ok n.
Proof.
  unfold host_network. destruct (net_new_some a (ip_width a)) as [n Hn]; [done|].
  exists n. destruct a; cbn in Hn |- *; by rewrite Hn.
Qed.

Lemma is_protected_total env d n locals :
  env_local env = Ok locals -> exists b, is_protected env d n = Ok b.
Proof.
  intros H. unfold is_protected. destruct (existsb _ _); [by eexists|]. rewrite H. cbn.
  destruct (traverse_total host_network locals) as (hs & -> & _); [|by eexists].
  apply Forall_forall. intros a _. apply host_network_total.
Qed.

Lemma listener_records config db d listener p env locals address :
  validate_config config = Ok tt -> NoDup (sources config).*1 ->
  defense_open config db = Ok d -> listener ∈ listeners config ->
  l_policy listener = Some p -> env_local env = Ok locals ->
  exists event d', listener_event env p address d = (Ok event, d').
Proof.
  intros [_ (_ & _ & ls & Hs & Hpol)%validate_defense_inv]%validate_config_inv Hnd Hopen Hl Hp Hloc.
  apply bind_ok in Hpol as (? & _ & Hpol%for_each_ok). rewrite Forall_forall in Hpol.
  specialize (Hpol _ Hl). unfold validate_listener_policy in Hpol. rewrite Hp in Hpol.
  apply bind_ok in Hpol as (policy & Ha & Hpol). apply bind_ok in Hpol as (src & Hsrc & Hpol).
  apply fail_if_ok, negb_false_iff, String.eqb_eq in Hpol.
  destruct (assoc p (policies config)) as [pol|] eqn:Hap; cbn in Ha; [|done]. injection Ha as ->.
  destruct (assoc (l_name listener) ls) as [s|] eqn:Has; cbn in Hsrc; [|done].
  injection Hsrc as ->. apply assoc_elem in Has.
  destruct (validate_sources_sound _ _ _ _ _ _ Hs Has) as [?%elem_of_nil|Hin]; [done|].
  unfold defense_open in Hopen. inv_result.
  destruct (compiled_assoc _ _ _ _ Ha0 Hap) as (c & Hc & Hcp).
  pose proof (open_sequences_keys _ _ _ _ _ Ha Hin eq_refl) as Hlock.
  apply (assoc_nodup (p_source policy)) in Hin; [|done].
  unfold listener_event, mbind, st_bind, get, lift, modify. cbn. rewrite Hc. cbn.
  rewrite Hcp, Hin. cbn. destruct (host_network_total address) as [n ->].
  match goal with |- context [is_protected env ?d n] =>
    destruct (is_protected_total env d n locals Hloc) as [b ->] end.
  destruct (b || _); [by do 2 eexists|]. rewrite bool_decide_eq_true_2 by done. by do 2 eexists.
Qed.

(** Every listener of a validated configuration can record an offense: its
    policy is compiled, reads a listener source, and that source has its lock,
    so the only failure left is reading the machine's addresses. *)
Theorem validated_listener_records config db d listener p env locals address :
  validate_config config = Ok tt -> NoDup (sources config).*1 ->
  defense_open config db = Ok d -> listener ∈ listeners config ->
  l_policy listener = Some p -> env_local env = Ok locals ->
  exists event d', listener_event env p address d = (Ok event, d').
Proof. apply listener_records. Qed.
End OpenFacts.

(** ** Examples *)

Section ValidationWitness.
#[local] Existing Instances cidr_api cidr_laws Literal.regex Literal.regex_laws Literal.json
  Literal.time TextCodec.codec TextCodec.codec_laws.

Lemma validated_capacity_witness :
  total_capacity example_config (listeners example_config) <= max_connections example_config.
Proof.
  apply validated_capacity; [vm_refl|]. vm_compute. reflexivity.
Defined.

Lemma defense_open_validated_witness :
  exists d, defense_open example_config example_db2 = Ok d.
Proof.
  apply defense_open_validated; [vm_refl| |exact example_reachable].
  by repeat constructor.
Defined.

Lemma validated_listener_records_witness :
  exists event d', listener_event example_env "trap" example_client example_defense =
    (Ok event, d').
Proof.
  apply (validated_listener_records example_config example_db2 example_defense example_listener
           "trap" example_env [V4 3232235777]);
    [vm_refl| |vm_refl|left|vm_refl|vm_refl].
  apply NoDup_singleton.
Defined.
End ValidationWitness.
