(* ===== verification/Admission.v ===== *)
(** * The tarpit

    [crates/bagel-runtime/src/state.rs], the per-address admission of
    connections to the tarpit, and [tarpit.rs], the pacing of what it writes.
    The random draws are arguments: any value of the range the source asks
    for. *)

From S2P Require Import Prelude Core Ip.

Local Open Scope N_scope.

(** ** Admission *)

#[global] Instance ip_countable : Countable IpAddr.
Proof.
  refine (inj_countable' (fun a => match a with V4 b => (true, b) | V6 b => (false, b) end)
            (fun p : bool * N => if p.1 then V4 p.2 else V6 p.2) _).
  by intros [].
Defined.

Record State : Type := { active : N; active_by_ip : gmap IpAddr N }.

(** [State::new]. *)
Definition state_new : State := {| active := 0; active_by_ip := ∅ |}.

(** The entry of the address, in [State::try_enter_tarpit]: whether there is a place left
    for it, and the table. [entry(ip).or_insert(0)] leaves a zero entry behind when the
    cap is zero. *)
Definition take_place (s : State) (ip : IpAddr) (cap : N) : bool * State :=
  let entry := default 0 (active_by_ip s !! ip) in
  if cap <=? entry then
    (false, {| active := active s; active_by_ip := <[ip := entry]> (active_by_ip s) |})
  else
    (true, {| active := active s; active_by_ip := <[ip := entry + 1]> (active_by_ip s) |}).
(** [active.fetch_add(1)], after the entry is let go. *)
Definition count_in (s : State) : State := {| active := active s + 1; active_by_ip := active_by_ip s |}.
(** [State::try_enter_tarpit]: whether a guard was handed out, and the state. *)
Definition try_enter_tarpit (s : State) (ip : IpAddr) (cap : N) : bool * State :=
  let '(entered, s') := take_place s ip cap in
  if entered then (true, count_in s') else (false, s').

(** The two halves of [Drop for ActiveGuard], and the whole. *)
Definition free_place (s : State) (ip : IpAddr) : State :=
  let m := match active_by_ip s !! ip with
           | Some n => if n =? 1 then delete ip (active_by_ip s)
                       else <[ip := n - 1]> (active_by_ip s)
           | None => active_by_ip s
           end in
  {| active := active s; active_by_ip := m |}.
Definition count_out (s : State) : State := {| active := active s - 1; active_by_ip := active_by_ip s |}.
Definition leave_tarpit (s : State) (ip : IpAddr) : State := count_out (free_place s ip).

(** The state with the guards alive, newest first; a guard is dropped once. *)
Definition World : Type := State * list IpAddr.

Inductive tarpit_step (cap : N) : World -> World -> Prop :=
| Enter s live ip s' :
    try_enter_tarpit s ip cap = (true, s') -> tarpit_step cap (s, live) (s', ip :: live)
| Refuse s live ip s' :
    try_enter_tarpit s ip cap = (false, s') -> tarpit_step cap (s, live) (s', live)
| Leave s live1 ip live2 :
    tarpit_step cap (s, live1 ++ ip :: live2) (leave_tarpit s ip, live1 ++ live2).

Definition count_of (ip : IpAddr) (live : list IpAddr) : N :=
  N.of_nat (length (List.filter (fun a => bool_decide (a = ip)) live)).

(** The table holds exactly the addresses with places taken, with their number,
    and no address has more than the cap. *)
Definition places_ok (cap : N) (table : gmap IpAddr N) (live : list IpAddr) : Prop :=
  forall ip, count_of ip live <= cap /\
    table !! ip = if count_of ip live =? 0 then None else Some (count_of ip live).
Definition admission_ok (cap : N) (w : World) : Prop :=
  active w.1 = N.of_nat (length w.2) /\ places_ok cap (active_by_ip w.1) w.2.

Lemma count_of_cons ip a live :
  count_of ip (a :: live) = if bool_decide (a = ip) then count_of ip live + 1 else count_of ip live.
Proof. unfold count_of. cbn. case_bool_decide; cbn [length]; lia. Qed.

Lemma count_of_middle ip a l1 l2 : count_of ip (l1 ++ a :: l2) = count_of ip (a :: l1 ++ l2).
Proof.
  induction l1 as [|b l1 IH]; [done|]. cbn [app]. rewrite !count_of_cons, IH, count_of_cons.
  repeat case_bool_decide; lia.
Qed.

Lemma places_entry cap m live ip : places_ok cap m live -> default 0 (m !! ip) = count_of ip live.
Proof.
  intros H. destruct (H ip) as [_ ->]. by destruct (N.eqb_spec (count_of ip live) 0) as [->|].
Qed.
Lemma take_place_ok cap s live ip b s' :
  cap <> 0 -> places_ok cap (active_by_ip s) live -> take_place s ip cap = (b, s') ->
  b = (count_of ip live <? cap) /\ active s' = active s /\
  places_ok cap (active_by_ip s') (if b then ip :: live else live).
Proof.
  intros Hcap Hm H. unfold take_place in H. rewrite (places_entry cap _ _ ip Hm) in H.
  destruct (N.leb_spec cap (count_of ip live)) as [Hle|Hlt]; injection H as <- <-; cbn [active active_by_ip].
  - split; [symmetry; by apply N.ltb_ge|]. split; [done|]. intros a. destruct (Hm a) as [Ha Hl]. split; [done|].
    destruct (base.decide (ip = a)) as [->|Hne]; [|by rewrite lookup_insert_ne].
    rewrite lookup_insert_eq. destruct (N.eqb_spec (count_of a live) 0); [lia|done].
  - split; [symmetry; by apply N.ltb_lt|]. split; [done|]. intros a. destruct (Hm a) as [Ha Hl].
    rewrite count_of_cons. case_bool_decide as Eq.
    + subst. rewrite lookup_insert_eq. split; [lia|].
      destruct (N.eqb_spec (count_of a live + 1) 0); [lia|done].
    + by rewrite lookup_insert_ne by done.
Qed.
Lemma free_place_ok cap s ip l1 l2 :
  places_ok cap (active_by_ip s) (l1 ++ ip :: l2) -> places_ok cap (active_by_ip (free_place s ip)) (l1 ++ l2).
Proof.
  intros Hm a. destruct (Hm a) as [Hle Hl]. destruct (Hm ip) as [_ Hip].
  rewrite count_of_middle, count_of_cons in Hle, Hl, Hip. rewrite bool_decide_eq_true_2 in Hip by done.
  destruct (N.eqb_spec (count_of ip (l1 ++ l2) + 1) 0) as [|_]; [lia|]. unfold free_place. rewrite Hip.
  cbn [active_by_ip]. split; [case_bool_decide; lia|].
  destruct (N.eqb_spec (count_of ip (l1 ++ l2) + 1) 1) as [H1|H1]; case_bool_decide as Eq; subst.
  - rewrite lookup_delete_eq. destruct (N.eqb_spec (count_of a (l1 ++ l2)) 0); [done|lia].
  - by rewrite lookup_delete_ne by done.
  - rewrite lookup_insert_eq. destruct (N.eqb_spec (count_of a (l1 ++ l2)) 0); [lia|]. f_equal. lia.
  - by rewrite lookup_insert_ne by done.
Qed.

Lemma admission_step cap w w' :
  cap <> 0 -> tarpit_step cap w w' -> admission_ok cap w -> admission_ok cap w'.
Proof.
  intros Hcap [s live ip s' H|s live ip s' H|s l1 ip l2] [Ha Hm]; cbn [fst snd] in *.
  1-2: unfold try_enter_tarpit in H; destruct (take_place s ip cap) as [b s1] eqn:E;
    destruct (take_place_ok cap s live ip b s1 Hcap Hm E) as (_ & Ea & Ho); destruct b; try done; injection H as <-.
  - split; cbn; [lia|done].
  - by split; cbn; [rewrite Ea|].
  - split; [|by apply free_place_ok]. cbn. rewrite Ha, !length_app. cbn [length]. lia.
Qed.

Lemma admission_init cap : admission_ok cap (state_new, []).
Proof.
  split; [done|]. intros ip. cbn. rewrite lookup_empty. split; [unfold count_of; cbn; lia|done].
Qed.

(** Tarpit admission. After any sequence of connections entering, being
    refused and leaving, no address holds more than its cap, the counter is the
    number of live connections, and the table has an entry exactly for the
    addresses with a live connection, so it cannot outgrow them; the next
    connection of an address is admitted exactly when it is below its cap. *)
Theorem admission_invariant cap w :
  cap <> 0 -> rtc (tarpit_step cap) (state_new, []) w ->
  admission_ok cap w /\
  forall ip, (try_enter_tarpit w.1 ip cap).1 = (count_of ip w.2 <? cap).
Proof.
  intros Hcap H.
  assert (Hok : admission_ok cap w).
  { pose proof (admission_init cap) as H0. revert H0. induction H; eauto using admission_step. }
  split; [done|]. intros ip. unfold try_enter_tarpit. destruct (take_place w.1 ip cap) as [b s'] eqn:E.
  destruct (take_place_ok cap w.1 w.2 ip b s' Hcap (proj2 Hok) E) as (<- & _). by destruct b.
Qed.

Definition example_tarpit : World :=
  ((try_enter_tarpit state_new (V4 1) 1).2, [V4 1]).
Lemma admission_invariant_witness :
  admission_ok 1 example_tarpit /\
  forall ip, (try_enter_tarpit example_tarpit.1 ip 1).1 = (count_of ip example_tarpit.2 <? 1).
Proof.
  apply admission_invariant; [discriminate|]. eapply rtc_l; [|apply rtc_refl].
  apply (Enter 1 state_new []). vm_refl.
Defined.

(** With a cap of zero a refused connection leaves an entry behind. *)
Example zero_cap_entry :
  active_by_ip (try_enter_tarpit state_new (V4 1) 0).2 !! V4 1 = Some 0.
Proof. vm_refl. Qed.

(** ** Pacing *)

Record Dribble : Type := {
  dr_min_delay_ms : N; dr_max_delay_ms : N; chunk_min : N; chunk_max : N }.

(** [random_range(lo..=hi)] of a range that is not empty: each of its values comes
    from some raw draw. *)
Definition random_range (lo hi raw : N) : N := lo + raw mod (hi - lo + 1).

Lemma random_range_in lo hi raw : lo <= hi -> lo <= random_range lo hi raw <= hi.
Proof.
  intros H. unfold random_range. pose proof (N.mod_lt raw (hi - lo + 1) ltac:(lia)).
  set (m := raw mod _) in *. clearbody m. lia.
Qed.
Lemma random_range_onto lo hi v : lo <= v <= hi -> random_range lo hi (v - lo) = v.
Proof. intros H. unfold random_range. rewrite N.mod_small; lia. Qed.

(** [Dribble::next] on two raw draws: a segment length and a delay. *)
Definition chunk_lo (d : Dribble) : N := chunk_min d `max` 1.
Definition chunk_hi (d : Dribble) : N := chunk_max d `max` chunk_lo d.
Definition delay_hi (d : Dribble) : N := dr_max_delay_ms d `max` dr_min_delay_ms d.
Definition dribble_next (d : Dribble) (remaining : N) (raw : N * N) : N * N :=
  (random_range (chunk_lo d) (chunk_hi d) raw.1 `min` remaining,
   random_range (dr_min_delay_ms d) (delay_hi d) raw.2).

(** The paced response body of [crates/bagel-web/src/smear.rs], times in
    milliseconds; a sleep is the time it is over. *)
Record DribbleBody : Type := {
  data : list N; pos : N; schedule : Dribble; deadline : N; sleep : option N }.
Inductive Poll : Type := Pending | Finished | Frame (chunk : list N).

(** [DribbleBody::poll_frame] at one time. *)
Definition poll_frame (b : DribbleBody) (now : N) (raw : N * N) : Poll * DribbleBody :=
  let len := N.of_nat (length (data b)) in
  if (len <=? pos b) || (deadline b <=? now) then (Finished, b)
  else if match sleep b with Some wake => now <? wake | None => false end then (Pending, b)
  else
    let '(n, delay) := dribble_next (schedule b) (len - pos b) raw in
    (Frame (take (N.to_nat n) (drop (N.to_nat (pos b)) (data b))),
     {| data := data b; pos := pos b + n; schedule := schedule b; deadline := deadline b;
        sleep := Some (now + delay `min` (deadline b - now)) |}).

(** The frames of a sequence of polls. *)
Fixpoint poll_all (b : DribbleBody) (polls : list (N * (N * N))) : list (list N) * DribbleBody :=
  match polls with
  | [] => ([], b)
  | (now, raw) :: polls =>
      let '(r, b) := poll_frame b now raw in
      let '(frames, b) := poll_all b polls in
      (match r with Frame c => c :: frames | _ => frames end, b)
  end.

Definition unsent (b : DribbleBody) : list N := drop (N.to_nat (pos b)) (data b).
(** The position is in the body and no sleep outlasts the deadline. *)
Definition body_ok (b : DribbleBody) : Prop :=
  pos b <= N.of_nat (length (data b)) /\
  match sleep b with Some wake => wake <= deadline b | None => True end.

Lemma poll_frame_step b now raw :
  body_ok b ->
  let '(r, b') := poll_frame b now raw in
  body_ok b' /\ schedule b' = schedule b /\
  match r with
  | Frame c => c ++ unsent b' = unsent b /\ 1 <= N.of_nat (length c) <= chunk_hi (schedule b)
  | _ => b' = b
  end.
Proof.
  intros [Hp Hs]. unfold poll_frame.
  destruct (N.leb_spec (N.of_nat (length (data b))) (pos b)); [done|].
  destruct (N.leb_spec (deadline b) now); [done|]. cbn [orb].
  destruct (match sleep b with Some wake => now <? wake | None => false end); [done|].
  unfold dribble_next.
  pose proof (random_range_in (chunk_lo (schedule b)) (chunk_hi (schedule b)) raw.1) as Hr.
  set (n := random_range _ _ raw.1) in *. set (d := random_range _ _ raw.2).
  assert (Hn : 1 <= n <= chunk_hi (schedule b)) by (unfold chunk_hi, chunk_lo in *; lia).
  split; [split; cbn; lia|]. split; [done|]. unfold unsent. cbn.
  rewrite length_take, length_drop, N2Nat.inj_add, <- drop_drop, take_drop. split; [done|lia].
Qed.

Lemma poll_all_step b polls :
  body_ok b ->
  let '(frames, b') := poll_all b polls in
  body_ok b' /\ mjoin frames ++ unsent b' = unsent b /\
  Forall (fun c => 1 <= N.of_nat (length c) <= chunk_hi (schedule b)) frames.
Proof.
  revert b. induction polls as [|[now raw] polls IH]; intros b Hb; cbn; [done|].
  pose proof (poll_frame_step b now raw Hb) as H.
  destruct (poll_frame b now raw) as [r b1]. destruct H as (H1 & Hsch & H2).
  specialize (IH b1 H1). destruct (poll_all b1 polls) as [frames b2].
  destruct IH as (I1 & I2 & I3). rewrite Hsch in I3. split; [done|].
  destruct r as [| |c]; [by subst..|]. destruct H2 as [H2 H3]. split.
  - change (mjoin (c :: frames)) with (c ++ mjoin frames). by rewrite <- app_assoc, I2.
  - by constructor.
Qed.

Lemma frames_length (l : list (list N)) hi :
  Forall (fun c => 1 <= N.of_nat (length c) <= hi) l -> (length l <= length (mjoin l))%nat.
Proof.
  induction 1 as [|c l Hc _ IH]; [done|].
  change (mjoin (c :: l)) with (c ++ mjoin l). rewrite length_app. cbn [length]. lia.
Qed.

(** A paced body is sent whole, in order and without stalling. Whatever the
    polls and the draws, and even with a misconfigured schedule, the frames are
    the beginning of the data and the rest is still to be sent, each frame has
    between one byte and the configured maximum, so as many frames as bytes send
    everything; no pause outlasts the deadline; and a poll that is neither
    pausing, nor past the deadline, nor at the end yields a frame. *)
Theorem dribble_completes bytes d last polls :
  let b0 := {| data := bytes; pos := 0; schedule := d; deadline := last; sleep := None |} in
  let '(frames, b) := poll_all b0 polls in
  mjoin frames ++ unsent b = bytes /\
  Forall (fun c => 1 <= N.of_nat (length c) <= chunk_hi d) frames /\
  ((length bytes <= length frames)%nat -> mjoin frames = bytes) /\
  match sleep b with Some wake => wake <= last | None => True end /\
  forall now raw, now < last -> unsent b <> [] ->
    match sleep b with Some wake => wake <= now | None => True end ->
    exists c b', poll_frame b now raw = (Frame c, b').
Proof.
  cbv zeta. set (b0 := {| data := bytes |}).
  assert (Hb0 : body_ok b0) by (split; [cbn; lia|done]).
  pose proof (poll_all_step b0 polls Hb0) as H.
  assert (Hd : deadline (poll_all b0 polls).2 = last).
  { change last with (deadline b0) at 1. clear. generalize b0. induction polls as [|[now raw] l IH];
      intros b; cbn; [done|]. destruct (poll_frame b now raw) as [r b1] eqn:E.
    specialize (IH b1). destruct (poll_all b1 l). cbn in *. rewrite IH.
    unfold poll_frame in E. by repeat case_match; simplify_eq. }
  destruct (poll_all b0 polls) as [frames b]. cbn in Hd. destruct H as ([H1 H2] & H3 & H4).
  rewrite Hd in H2. change (unsent b0) with bytes in H3. cbn [schedule] in H4.
  split; [done|]. split; [done|]. split; [|split; [done|]].
  - intros Hlen. apply frames_length in H4. rewrite <- H3, length_app in Hlen.
    assert (unsent b = []) as Hu by (apply length_zero_iff_nil; lia).
    by rewrite Hu, app_nil_r in H3.
  - intros now raw Hnow Hu Hw. unfold poll_frame, unsent in *. rewrite Hd.
    destruct (N.leb_spec (N.of_nat (length (data b))) (pos b)) as [Hle|_].
    { destruct Hu. apply drop_ge. lia. }
    destruct (N.leb_spec last now); [lia|]. cbn [orb].
    destruct (sleep b) as [wake|]; [destruct (N.ltb_spec now wake); [lia|]|]; cbn; eauto.
Qed.

(** ** The SSH banner *)

(** One line of the loop of [tarpit::ssh]: the drawn bytes, never [SSH-] at the
    front, and a newline. *)
Definition ssh_marker : list N := [83; 83; 72; 45].
Definition starts_with_bytes (p l : list N) : bool := bool_decide (take (length p) l = p).
Definition ssh_line (drawn : list N) : list N :=
  let line := if starts_with_bytes ssh_marker drawn then 120 :: tail drawn else drawn in
  line ++ [10].

(** The lines sent before the deadline, the peer or shutdown ends the loop, and
    the bytes counted: a line that could not be written is not counted. *)
Fixpoint ssh_sent (rounds : list (list N * bool)) : N :=
  match rounds with
  | [] => 0
  | (drawn, true) :: rounds => N.of_nat (length (ssh_line drawn)) + ssh_sent rounds
  | (_, false) :: _ => 0
  end.

(** An SSH client ends the banner exchange at a line that starts with [SSH-];
    no line is one, and each is at most one byte longer than drawn. *)
Lemma ssh_line_safe drawn :
  Forall (fun b => 32 <= b <= 126) drawn ->
  starts_with_bytes ssh_marker (ssh_line drawn) = false /\
  length (ssh_line drawn) = S (length drawn) /\
  Forall (fun b => 32 <= b <= 126 \/ b = 10) (ssh_line drawn) /\ last (ssh_line drawn) = Some 10.
Proof.
  intros Hd. unfold ssh_line. rewrite last_snoc.
  destruct (starts_with_bytes ssh_marker drawn) eqn:E; unfold starts_with_bytes in *;
    [apply bool_decide_eq_true in E|apply bool_decide_eq_false in E].
  - destruct drawn as [|b l]; [done|]. cbn [tail length app]. split; [|split; [|split]].
    + apply bool_decide_eq_false_2. by intros [=].
    + rewrite length_app. cbn. lia.
    + constructor; [lia|]. apply Forall_app. split; [|constructor; [auto|constructor]].
      inversion Hd; subst. eapply Forall_impl; [eassumption|]. auto.
    + done.
  - split; [|split; [|split]].
    + apply bool_decide_eq_false_2. intros E'. apply E. clear E.
      destruct drawn as [|a [|b [|c [|e l]]]]; unfold ssh_marker in *; cbn in E' |- *;
        by simplify_eq.
    + rewrite length_app. cbn. lia.
    + apply Forall_app. split; [|constructor; [auto|constructor]].
      eapply Forall_impl; [exact Hd|]. auto.
    + done.
Qed.
