(* ===== verification/Proto.v ===== *)
(** * Client identity and bounded reads

    [crates/bagel-proto]: the client address behind trusted proxies
    ([realip.rs]), PROXY protocol headers ([proxy_protocol.rs]) and request heads
    ([http.rs]). The [ppp] and [httparse] parsers are parameters; a stream is the
    sequence of what its reads return. *)

From S2P Require Import Prelude Core Ip.

Local Open Scope N_scope.

(** ** Trusted proxies ([realip.rs]) *)

Section RealIp.
Context {NA : IpNetworkApi}.

Definition TrustedProxies : Type := list IpNetwork.

(** [TrustedProxies::new]. *)
Definition trusted_new (cidrs : list string) : Result TrustedProxies :=
  traverse (fun s => ok_or (Error.Network "invalid network") (net_parse s)) cidrs.
(** [TrustedProxies::contains]. *)
Definition trusted_contains (t : TrustedProxies) (ip : IpAddr) : bool :=
  existsb (fun net => net_contains net ip) t.

(** The loop of [TrustedProxies::peel] over the hops, nearest first. *)
Fixpoint peel_hops (t : TrustedProxies) (peer : IpAddr) (first_valid : option IpAddr)
    (hops : list string) : IpAddr :=
  match hops with
  | [] => default peer first_valid
  | entry :: hops =>
      match parse_ip (str_trim entry) with
      | None => peel_hops t peer first_valid hops
      | Some ip =>
          let first_valid := match first_valid with Some f => Some f | None => Some ip end in
          if trusted_contains t ip then peel_hops t peer first_valid hops else ip
      end
  end.
Definition peel (t : TrustedProxies) (peer : IpAddr) (forwarded_for : option string) : IpAddr :=
  match forwarded_for with
  | None => peer
  | Some header => peel_hops t peer None (rev (str_split "," header))
  end.
(** [TrustedProxies::client_ip]. *)
Definition client_ip (t : TrustedProxies) (peer : IpAddr) (forwarded_for : option string) :
    IpAddr :=
  if negb (trusted_contains t peer) then peer else peel t peer forwarded_for.

Record ClientIpPolicy : Type := { header : option string; trusted : option TrustedProxies }.
(** [ClientIpPolicy::new]. *)
Definition client_ip_policy_new (header : option string) (cidrs : option (list string)) :
    Result ClientIpPolicy :=
  trusted ← match cidrs with Some l => Some <$> trusted_new l | None => Ok None end;
  Ok {| header := header; trusted := trusted |}.
(** [ClientIpPolicy::trusts]. *)
Definition trusts (p : ClientIpPolicy) (peer : IpAddr) : bool :=
  match trusted p with Some t => trusted_contains t peer | None => false end.
(** [ClientIpPolicy::resolve]. *)
Definition resolve (p : ClientIpPolicy) (peer : IpAddr) (header_value : option string) : IpAddr :=
  match header p, trusted p with
  | Some _, Some t => client_ip t peer header_value
  | _, _ => peer
  end.
End RealIp.

Lemma str_split_nonempty sep s : str_split sep s <> [].
Proof.
  destruct s as [|c s]; cbn [str_split]; [done|]. destruct (char_eqb c sep); [done|]. by case_match.
Qed.

(** Splitting at a separator inside splits both sides. *)
Lemma split_app_at sep a b :
  str_split sep (a +:+ String sep b) = str_split sep a ++ str_split sep b.
Proof.
  induction a as [|c a IH].
  - change (str_split sep ("" +:+ String sep b)) with
      (if char_eqb sep sep then "" :: str_split sep b
       else match str_split sep b with [] => [String sep ""] | w :: ws => String sep w :: ws end).
    unfold char_eqb. by rewrite Ascii.eqb_refl.
  - change ((String c a) +:+ String sep b) with (String c (a +:+ String sep b)).
    cbn [str_split]. rewrite IH. destruct (char_eqb c sep); [done|].
    pose proof (str_split_nonempty sep a) as Hne. by destruct (str_split sep a).
Qed.

Section RealIpFacts.
Context {NA : IpNetworkApi}.

(** Some hop is a valid untrusted address. *)
Definition has_untrusted (t : TrustedProxies) (hops : list string) : bool :=
  existsb (fun e => match parse_ip (str_trim e) with
                    | Some ip => negb (trusted_contains t ip) | None => false end) hops.

Lemma peel_hops_app t peer f hops more :
  has_untrusted t hops = true -> peel_hops t peer f (hops ++ more) = peel_hops t peer f hops.
Proof.
  revert f. induction hops as [|e hops IH]; intros f; cbn; [done|].
  destruct (parse_ip (str_trim e)) as [ip|]; [|apply IH].
  destruct (trusted_contains t ip); cbn; [apply IH|done].
Qed.

Lemma has_untrusted_rev t hops : has_untrusted t (rev hops) = has_untrusted t hops.
Proof.
  apply eq_true_iff_eq. unfold has_untrusted. rewrite !existsb_exists.
  split; intros (x & Hx & H); exists x; split; try done;
    by rewrite <- in_rev in *.
Qed.

(** A client cannot choose its address. With a trusted peer, anything a
    client puts in front of the forwarding header has no effect once the proxies
    have appended one valid untrusted hop; an untrusted peer's header has no
    effect at all; and without both a header name and a proxy list the peer's
    own address is used. *)
Theorem client_ip_spoof_proof p peer (forged appended : string) :
  let t := default [] (trusted p) in
  (has_untrusted t (str_split "," appended) = true ->
   resolve p peer (Some (forged +:+ String "," appended)) = resolve p peer (Some appended)) /\
  (trusts p peer = false -> forall h, resolve p peer h = peer) /\
  (header p = None -> forall h, resolve p peer h = peer).
Proof.
  destruct p as [[name|] [t|]]; unfold resolve, trusts, client_ip; cbn [header trusted from_option];
    repeat split; try done.
  - intros Hu. destruct (negb (trusted_contains t peer)); [done|]. unfold peel.
    rewrite split_app_at, rev_app_distr. apply peel_hops_app. by rewrite has_untrusted_rev.
  - intros Ht h. by rewrite Ht.
Qed.

(** The address chosen is the peer's or one the header names. *)
Lemma peel_hops_source t peer f hops :
  peel_hops t peer f hops = default peer f \/
  exists e, e ∈ hops /\ parse_ip (str_trim e) = Some (peel_hops t peer f hops).
Proof.
  revert f. induction hops as [|e hops IH]; intros f; cbn; [by left|].
  destruct (parse_ip (str_trim e)) as [ip|] eqn:E.
  - destruct (trusted_contains t ip).
    + destruct (IH (match f with Some x => Some x | None => Some ip end)) as [->|(x & Hx & Hp)].
      * destruct f; [by left|]. right. exists e. by rewrite elem_of_cons; auto.
      * right. exists x. rewrite elem_of_cons. auto.
    + right. exists e. rewrite elem_of_cons. auto.
  - destruct (IH f) as [->|(x & Hx & Hp)]; [by left|]. right. exists x. rewrite elem_of_cons. auto.
Qed.
End RealIpFacts.

(** ** PROXY protocol ([proxy_protocol.rs]) *)

(** What the [ppp] crate makes of a buffer. *)
Inductive PppAddresses : Type :=
| PppV4 (source port : N) | PppV6 (source port : N) | PppOther.
Inductive HeaderResult : Type :=
| HIncomplete
| HComplete (addresses : PppAddresses) (len : nat)
| HInvalid.

Inductive Parsed : Type :=
| Complete (source : option SocketAddr) (consumed : nat)
| Incomplete
| NotProxy.

(** [proxy_protocol::parse]; versions 1 and 2 are read alike. *)
Definition proxy_parse (ppp : list N -> HeaderResult) (buf : list N) : Parsed :=
  match ppp buf with
  | HIncomplete => Incomplete
  | HComplete (PppV4 a port) len => Complete (Some {| sa_ip := V4 a; sa_port := port |}) len
  | HComplete (PppV6 a port) len => Complete (Some {| sa_ip := V6 a; sa_port := port |}) len
  | HComplete PppOther len => Complete None len
  | HInvalid => NotProxy
  end.

(** What one read of a stream returns; a read of zero bytes is the end. *)
Inductive ReadOutcome : Type :=
| RData (bytes : list N)
| REof
| RTimeout
| RError (message : string).

Definition READ_CAP : nat := N.to_nat 536.
Definition CHUNK : nat := N.to_nat 256.

(** [proxy_protocol::read] on the reads to come: its result with the reads left
    over, [None] while it is still waiting for one. *)
Fixpoint proxy_read (ppp : list N -> HeaderResult) (buf : list N) (reads : list ReadOutcome) :
    option (Result (option IpAddr * list N) * list ReadOutcome) :=
  match proxy_parse ppp buf with
  | Complete source consumed => Some (Ok (sa_ip <$> source, drop consumed buf), reads)
  | NotProxy => Some (Ok (None, buf), reads)
  | Incomplete =>
      if (READ_CAP <? length buf)%nat then Some (Ok (None, buf), reads)
      else
        match reads with
        | [] => None
        | REof :: reads | RTimeout :: reads => Some (Ok (None, buf), reads)
        | RData bytes :: reads => proxy_read ppp (buf ++ bytes) reads
        | RError e :: reads => Some (Err (Error.Io e), reads)
        end
  end.

(** A read gives between one byte and a full chunk. *)
Definition read_ok (r : ReadOutcome) : Prop :=
  match r with RData bytes => (1 <= length bytes <= CHUNK)%nat | _ => True end.
Definition read_bytes (r : ReadOutcome) : list N :=
  match r with RData bytes => bytes | _ => [] end.

(** A parsed header lies within the buffer. *)
Definition ppp_ok (ppp : list N -> HeaderResult) : Prop :=
  forall buf a len, ppp buf = HComplete a len -> (len <= length buf)%nat.

Lemma proxy_read_total ppp buf reads :
  ppp_ok ppp -> Forall read_ok reads -> (length buf <= READ_CAP + CHUNK)%nat ->
  (S READ_CAP - length buf <= length reads)%nat ->
  exists r used rest, proxy_read ppp buf reads = Some (r, rest) /\ reads = used ++ rest /\
    forall ip leftover, r = Ok (ip, leftover) ->
      exists header, buf ++ mjoin (read_bytes <$> used) = header ++ leftover /\
        (length leftover <= READ_CAP + CHUNK)%nat.
Proof.
  intros Hppp Hreads. revert buf.
  induction Hreads as [|x reads Hx _ IH]; intros buf Hb Hn; cbn [proxy_read];
    destruct (proxy_parse ppp buf) as [source consumed| |] eqn:E.
  1,4: eexists _, [], _; split; [done|]; split; [done|]; intros ip l [= <- <-];
    exists (take consumed buf); cbn; rewrite app_nil_r, take_drop, length_drop; (split; [done|lia]).
  2,4: eexists _, [], _; split; [done|]; split; [done|]; intros ip l [= <- <-];
    exists []; cbn; rewrite app_nil_r; (split; [done|lia]).
  - destruct (Nat.ltb_spec READ_CAP (length buf)); [|cbn in Hn; lia].
    eexists _, [], _. split; [done|]. split; [done|]. intros ip l [= <- <-].
    exists []. cbn. rewrite app_nil_r. split; [done|lia].
  - destruct (Nat.ltb_spec READ_CAP (length buf)) as [Hc|Hc].
    { eexists _, [], _. split; [done|]. split; [done|]. intros ip l [= <- <-].
      exists []. cbn. rewrite app_nil_r. split; [done|lia]. }
    destruct x as [bytes| | |e].
    + cbn in Hx. destruct (IH (buf ++ bytes)) as (r & used & rest & Hr & -> & Hl);
        [rewrite length_app; lia|rewrite length_app; cbn in Hn; lia|].
      exists r, (RData bytes :: used), rest. split; [done|]. split; [done|]. cbn.
      intros ip l Hrl. destruct (Hl ip l Hrl) as (h & Hh & Hlen). exists h.
      by rewrite app_assoc.
    + eexists _, [REof], _. split; [done|]. split; [done|]. intros ip l [= <- <-].
      exists []. cbn. rewrite app_nil_r. split; [done|lia].
    + eexists _, [RTimeout], _. split; [done|]. split; [done|]. intros ip l [= <- <-].
      exists []. cbn. rewrite app_nil_r. split; [done|lia].
    + by eexists _, [RError e], _.
Qed.

(** Reading a PROXY header always ends and loses nothing. Whatever the peer
    sends, the loop returns within 537 reads; unless the stream fails, the bytes
    read are the header it skipped followed by the bytes it hands on, at most
    792 of them. *)
Theorem proxy_read_terminates ppp reads :
  ppp_ok ppp -> Forall read_ok reads -> (S READ_CAP <= length reads)%nat ->
  exists r used rest, proxy_read ppp [] reads = Some (r, rest) /\ reads = used ++ rest /\
    forall ip leftover, r = Ok (ip, leftover) ->
      exists header, mjoin (read_bytes <$> used) = header ++ leftover /\
        (length leftover <= READ_CAP + CHUNK)%nat.
Proof.
  intros Hppp Hr Hn. destruct (proxy_read_total ppp [] reads Hppp Hr) as (r & used & rest & H1 & H2 & H3);
    [cbn; lia|cbn; lia|]. by exists r, used, rest.
Qed.

(** [build_v1]. *)
Definition crlf : string := bytes_string [13; 10].
Definition build_v1 (src dst : SocketAddr) : string :=
  let line proto :=
    "PROXY " +:+ proto +:+ " " +:+ show_ip (sa_ip src) +:+ " " +:+ show_ip (sa_ip dst) +:+ " " +:+
    show_N (sa_port src) +:+ " " +:+ show_N (sa_port dst) +:+ crlf in
  match is_ipv4 (sa_ip src), is_ipv4 (sa_ip dst) with
  | true, true => line "TCP4"
  | false, false => line "TCP6"
  | _, _ => "PROXY UNKNOWN" +:+ crlf
  end.

(** [build_v2]. *)
Definition v2_signature : list N := [13; 10; 13; 10; 0; 13; 10; 81; 85; 73; 84; 10].
Definition build_v2 (src dst : SocketAddr) : list N :=
  v2_signature ++
  match sa_ip src, sa_ip dst with
  | V4 s, V4 d =>
      [33; 17] ++ be_bytes 2 12 ++ v4_octets s ++ v4_octets d ++ be_bytes 2 (sa_port src) ++
      be_bytes 2 (sa_port dst)
  | V6 s, V6 d =>
      [33; 33] ++ be_bytes 2 36 ++ v6_octets s ++ v6_octets d ++ be_bytes 2 (sa_port src) ++
      be_bytes 2 (sa_port dst)
  | _, _ => [32; 0] ++ be_bytes 2 0
  end.

(** *** A reader for version 2 headers

    The layout of the PROXY protocol specification: signature, version and
    command, family and transport, length, addresses. The addresses are [None]
    for a LOCAL command. *)
Definition take_be (n : nat) (l : list N) : option (N * list N) :=
  if (n <=? length l)%nat then Some (of_be_bytes (take n l), drop n l) else None.
Definition read_addresses (n : nat) (mk : N -> IpAddr) (l : list N) :
    option (SocketAddr * SocketAddr) :=
  '(s, l) ← take_be n l; '(d, l) ← take_be n l; '(sp, l) ← take_be 2 l; '(dp, _) ← take_be 2 l;
  Some ({| sa_ip := mk s; sa_port := sp |}, {| sa_ip := mk d; sa_port := dp |}).
Definition decode_v2 (l : list N) : option (option (SocketAddr * SocketAddr) * list N) :=
  if negb (bool_decide (take 12 l = v2_signature)) then None
  else
    '(command, l) ← take_be 1 (drop 12 l);
    '(family, l) ← take_be 1 l;
    '(len, l) ← take_be 2 l;
    let len := N.to_nat len in
    if (length l <? len)%nat then None
    else
      let body := take len l in
      let rest := drop len l in
      if command =? 32 then Some (None, rest)
      else if negb (command =? 33) then None
      else if family =? 17 then a ← read_addresses 4 V4 body; Some (Some a, rest)
      else if family =? 33 then a ← read_addresses 16 V6 body; Some (Some a, rest)
      else Some (None, rest).

Lemma be_bytes_len n v : length (be_bytes n v) = n.
Proof. induction n; cbn; congruence. Qed.

Lemma be_bytes_foldl n v acc :
  foldl (fun acc b => acc * 256 + b) acc (be_bytes n v) =
  acc * 256 ^ N.of_nat n + v mod 256 ^ N.of_nat n.
Proof.
  revert acc. induction n as [|n IH]; intros acc.
  - cbn. rewrite N.mod_1_r. lia.
  - cbn [be_bytes foldl]. rewrite IH. change 255 with (N.ones 8).
    rewrite N.land_ones, N.shiftr_div_pow2, Nat2N.inj_succ, N.pow_succ_r'.
    replace (2 ^ (8 * N.of_nat n)) with (256 ^ N.of_nat n)
      by (rewrite N.pow_mul_r; reflexivity).
    change (2 ^ 8) with 256.
    assert (256 ^ N.of_nat n <> 0) by (apply N.pow_nonzero; lia).
    rewrite (N.mul_comm 256 (256 ^ N.of_nat n)), N.Div0.mod_mul_r. lia.
Qed.

Lemma take_be_app n v l :
  v < 256 ^ N.of_nat n -> take_be n (be_bytes n v ++ l) = Some (v, l).
Proof.
  intros Hv. unfold take_be. rewrite length_app, be_bytes_len.
  rewrite (proj2 (Nat.leb_le n (n + length l))) by lia.
  rewrite take_app_length' by (symmetry; apply be_bytes_len).
  rewrite drop_app_length' by (symmetry; apply be_bytes_len).
  unfold of_be_bytes. rewrite be_bytes_foldl, N.mod_small by done. do 2 f_equal.
Qed.

(** The address and port fit their widths. *)
Definition socket_ok (a : SocketAddr) : Prop :=
  sa_port a < 65536 /\ match sa_ip a with V4 b => b < 2 ^ 32 | V6 b => b < 2 ^ 128 end.

Lemma read_addresses_build n mk s d sp dp :
  s < 256 ^ N.of_nat n -> d < 256 ^ N.of_nat n -> sp < 65536 -> dp < 65536 ->
  read_addresses n mk (be_bytes n s ++ be_bytes n d ++ be_bytes 2 sp ++ be_bytes 2 dp) =
  Some ({| sa_ip := mk s; sa_port := sp |}, {| sa_ip := mk d; sa_port := dp |}).
Proof.
  intros Hs Hd Hsp Hdp. unfold read_addresses.
  rewrite take_be_app by done. cbn [mbind option_bind]. rewrite take_be_app by done.
  cbn [mbind option_bind]. rewrite take_be_app by (change (256 ^ N.of_nat 2) with 65536; done).
  cbn [mbind option_bind]. rewrite <- (app_nil_r (be_bytes 2 dp)).
  rewrite take_be_app by (change (256 ^ N.of_nat 2) with 65536; done). done.
Qed.

(** The reader after the signature, on a header with a known body. *)
Lemma decode_v2_body command family body rest :
  command < 256 -> family < 256 -> N.of_nat (length body) < 65536 ->
  decode_v2 (v2_signature ++ [command; family] ++ be_bytes 2 (N.of_nat (length body)) ++ body ++ rest) =
  if command =? 32 then Some (None, rest)
  else if negb (command =? 33) then None
  else if family =? 17 then a ← read_addresses 4 V4 body; Some (Some a, rest)
  else if family =? 33 then a ← read_addresses 16 V6 body; Some (Some a, rest)
  else Some (None, rest).
Proof.
  intros Hc Hf Hb. unfold decode_v2. cbn [v2_signature app take drop].
  rewrite bool_decide_eq_true_2 by done. cbn [negb].
  assert (Hone : forall x l, x < 256 -> take_be 1 (x :: l) = Some (x, l)).
  { intros x l Hx. unfold take_be. cbn [length Nat.leb take drop]. unfold of_be_bytes. cbn [foldl].
    do 2 f_equal; lia. }
  rewrite Hone by done. cbn [mbind option_bind]. rewrite Hone by done. cbn [mbind option_bind].
  rewrite take_be_app by (change (256 ^ N.of_nat 2) with 65536; done). cbn [mbind option_bind].
  rewrite Nat2N.id.
  rewrite (proj2 (Nat.ltb_ge (length (body ++ rest)) (length body))) by (rewrite length_app; lia).
  rewrite take_app_length, drop_app_length. done.
Qed.

(** The PROXY v2 header written for an upstream reads back exactly: the same
    source and destination, and nothing of what follows is consumed; connections
    that mix address families read back as LOCAL. *)
Theorem build_v2_decodes src dst rest :
  socket_ok src -> socket_ok dst ->
  decode_v2 (build_v2 src dst ++ rest) =
  Some (if Bool.eqb (is_ipv4 (sa_ip src)) (is_ipv4 (sa_ip dst)) then Some (src, dst) else None, rest).
Proof.
  destruct src as [[s|s] sp], dst as [[d|d] dp]; unfold socket_ok; cbn [sa_ip sa_port];
    intros [Hsp Hs] [Hdp Hd]; unfold build_v2; cbn [sa_ip sa_port is_ipv4 Bool.eqb];
    rewrite <- !app_assoc.
  - unfold v4_octets.
    pose proof (decode_v2_body 33 17 (be_bytes 4 s ++ be_bytes 4 d ++ be_bytes 2 sp ++ be_bytes 2 dp)
      rest) as H. rewrite !length_app, !be_bytes_len in H. rewrite <- !app_assoc in H.
    change (N.of_nat (4 + (4 + (2 + 2)))) with 12 in H.
    rewrite (H ltac:(lia) ltac:(lia) ltac:(cbn; lia)). cbn [N.eqb Pos.eqb negb].
    by rewrite read_addresses_build.
  - pose proof (decode_v2_body 32 0 [] rest) as H. by apply H.
  - pose proof (decode_v2_body 32 0 [] rest) as H. by apply H.
  - unfold v6_octets.
    pose proof (decode_v2_body 33 33 (be_bytes 16 s ++ be_bytes 16 d ++ be_bytes 2 sp ++ be_bytes 2 dp)
      rest) as H. rewrite !length_app, !be_bytes_len in H. rewrite <- !app_assoc in H.
    change (N.of_nat (16 + (16 + (2 + 2)))) with 36 in H.
    rewrite (H ltac:(lia) ltac:(lia) ltac:(cbn; lia)). cbn [N.eqb Pos.eqb negb].
    by rewrite read_addresses_build.
Qed.

(** ** Request heads ([http.rs]) *)

Definition MAX_HEAD : nat := N.to_nat (16 * 1024).
Definition MAX_HEADERS : nat := 128.

Record Head : Type := {
  h_method : string; h_path : string; h_headers : list (string * string);
  h_raw : list N; h_body : list N }.

(** [Head::header]. *)
Definition head_header (h : Head) (name : string) : option string :=
  snd <$> list_find_bool (fun kv => eq_ignore_ascii_case kv.1 name) (h_headers h).

(** A complete request as [httparse] reports it: method, path, headers and the
    length of the head. *)
Record HttpRequest : Type := {
  hr_method : option string; hr_path : option string; hr_headers : list (string * string);
  hr_len : nat }.

(** [try_parse]: a partial and a malformed head are not told apart. *)
Definition try_parse (httparse : list N -> option HttpRequest) (buf : list N) : option Head :=
  r ← httparse buf;
  Some {| h_method := default "" (hr_method r); h_path := default "" (hr_path r);
          h_headers := hr_headers r; h_raw := take (hr_len r) buf; h_body := drop (hr_len r) buf |}.

(** One round of [read_head_full]: whether the total budget is spent before the
    read, what the read returns, and whether it is spent after it. *)
Record HeadRound : Type := { hd_spent : bool; hd_read : ReadOutcome; hd_spent_after : bool }.

Fixpoint read_head_full (httparse : list N -> option HttpRequest) (buf : list N)
    (rounds : list HeadRound) : option (Result (option Head)) :=
  match try_parse httparse buf with
  | Some head => Some (Ok (Some head))
  | None =>
      if (MAX_HEAD <? length buf)%nat then Some (Ok None)
      else
        match rounds with
        | [] => None
        | r :: rounds =>
            if hd_spent r then Some (Ok None)
            else
              match hd_read r with
              | REof => Some (Ok None)
              | RData bytes => read_head_full httparse (buf ++ bytes) rounds
              | RError e => Some (Err (Error.Io e))
              | RTimeout => if hd_spent_after r then Some (Ok None)
                            else read_head_full httparse buf rounds
              end
        end
  end.

(** The head and the body start are what was read, and no more than the cap and
    one read are ever buffered. *)
Lemma read_head_conserves httparse buf rounds head :
  Forall (fun r => match hd_read r with
                   | RData b => (length b <= N.to_nat 4096)%nat | _ => True end) rounds ->
  (length buf <= MAX_HEAD + N.to_nat 4096)%nat ->
  read_head_full httparse buf rounds = Some (Ok (Some head)) ->
  exists used, buf ++ used = h_raw head ++ h_body head /\
    (length (h_raw head ++ h_body head) <= MAX_HEAD + N.to_nat 4096)%nat.
Proof.
  intros Hr. revert buf. induction Hr as [|r rounds Hr _ IH]; intros buf Hb; cbn [read_head_full];
    unfold try_parse; destruct (httparse buf) as [q|]; cbn [mbind option_bind].
  1,3: intros [= <-]; exists []; cbn; rewrite app_nil_r, take_drop; done.
  - by destruct (_ <? _)%nat.
  - destruct (Nat.ltb_spec MAX_HEAD (length buf)); [done|]. destruct (hd_spent r); [done|].
    destruct (hd_read r) as [bytes| | |e]; try done.
    + intros (used & Hu & Hl)%IH; [|rewrite length_app; lia]. exists (bytes ++ used).
      by rewrite app_assoc.
    + destruct (hd_spent_after r); [done|]. by apply IH.
Qed.

(** ** Examples *)

Section ProtoWitness.
#[local] Existing Instances cidr_api cidr_laws.

(** A parser that takes a first byte of 7 as a two-byte header. *)
Definition example_ppp (buf : list N) : HeaderResult :=
  match buf with
  | x :: _ :: _ => if x =? 7 then HComplete (PppV4 1 80) 2 else HInvalid
  | _ => HIncomplete
  end.
Lemma proxy_read_terminates_witness :
  exists r used rest, proxy_read example_ppp [] (replicate 537 (RData [7])) = Some (r, rest) /\
    replicate 537 (RData [7]) = used ++ rest /\
    forall ip leftover, r = Ok (ip, leftover) ->
      exists header, mjoin (read_bytes <$> used) = header ++ leftover /\
        (length leftover <= READ_CAP + CHUNK)%nat.
Proof.
  apply proxy_read_terminates.
  - intros buf a len. destruct buf as [|x [|y buf]]; cbn; [done|done|].
    destruct (x =? 7); [|done]. intros [= <- <-]. lia.
  - apply Forall_replicate. cbn. unfold CHUNK. lia.
  - rewrite length_replicate. unfold READ_CAP. lia.
Defined.

Lemma build_v2_decodes_witness :
  let a := {| sa_ip := V4 3405803783; sa_port := 50000 |} in
  let b := {| sa_ip := V4 16909060; sa_port := 443 |} in
  decode_v2 (build_v2 a b ++ [22; 3; 1]) = Some (Some (a, b), [22; 3; 1]).
Proof.
  apply (build_v2_decodes {| sa_ip := V4 3405803783; sa_port := 50000 |}
           {| sa_ip := V4 16909060; sa_port := 443 |}); split; vm_compute; reflexivity.
Defined.
End ProtoWitness.
