(* ===== verification/Endpoints.v ===== *)
(** * The tarpit's endpoints

    [crates/bagel-runtime/src/server.rs]: the SSH endpoints, their connections and
    the counters the control socket shows. What the tasks of the server do between
    two of their waits is an action; the actions of the accept loops and of the
    connections come in any order. A socket is what its reads give, the banner is the
    lines drawn for it, and what [record_hit] starts is the defense's. *)

From S2P Require Import Prelude Core Ip ThirdParty Config Firewall Store Detector.
From S2P Require Import Defense Traps Admission Proto.

Local Open Scope N_scope.

(** The atomic counters have 64 bits and wrap. *)
Definition fetch_add (a n : N) : N := (a + n) mod 2 ^ 64.
Definition fetch_sub (a n : N) : N := (a + 2 ^ 64 - n) mod 2 ^ 64.

(** ** Counters *)

Record EndpointStats : Type := {
  es_name : string; es_listen_addr : string; es_capacity : N; es_policy : option string;
  es_ready : bool; es_accepted : N; es_active : N; es_rejected : N; es_closed : N;
  es_bytes_sent : N; es_trapped_seconds : N }.
(** [EndpointStats::new]. *)
Definition stats_new (listener : Listener) (capacity : N) : EndpointStats := {|
  es_name := l_name listener; es_listen_addr := l_listen_addr listener; es_capacity := capacity;
  es_policy := l_policy listener; es_ready := false; es_accepted := 0; es_active := 0; es_rejected := 0;
  es_closed := 0; es_bytes_sent := 0; es_trapped_seconds := 0 |}.

(** [bagel_admin::EndpointStatus] and [EndpointStats::snapshot]. *)
Record EndpointStatus : Type := {
  et_name : string; et_listen_addr : string; et_ready : bool; et_accepted : N; et_active : N; et_rejected : N;
  et_closed : N; et_bytes_sent : N; et_trapped_seconds : N; et_tarpit_capacity : N; et_available : N }.
Definition snapshot (e : EndpointStats) : EndpointStatus := {|
  et_name := es_name e; et_listen_addr := es_listen_addr e; et_ready := es_ready e; et_accepted := es_accepted e;
  et_active := es_active e; et_rejected := es_rejected e; et_closed := es_closed e; et_bytes_sent := es_bytes_sent e;
  et_trapped_seconds := es_trapped_seconds e; et_tarpit_capacity := es_capacity e;
  et_available := es_capacity e - es_active e |}.

(** Stores to the counters. *)
Definition set_ready (b : bool) (e : EndpointStats) : EndpointStats := {|
  es_name := es_name e; es_listen_addr := es_listen_addr e; es_capacity := es_capacity e; es_policy := es_policy e;
  es_ready := b; es_accepted := es_accepted e; es_active := es_active e; es_rejected := es_rejected e;
  es_closed := es_closed e; es_bytes_sent := es_bytes_sent e; es_trapped_seconds := es_trapped_seconds e |}.
Definition add_accepted (e : EndpointStats) : EndpointStats := {|
  es_name := es_name e; es_listen_addr := es_listen_addr e; es_capacity := es_capacity e; es_policy := es_policy e;
  es_ready := es_ready e; es_accepted := fetch_add (es_accepted e) 1; es_active := es_active e; es_rejected := es_rejected e;
  es_closed := es_closed e; es_bytes_sent := es_bytes_sent e; es_trapped_seconds := es_trapped_seconds e |}.
Definition set_active_count (n : N) (e : EndpointStats) : EndpointStats := {|
  es_name := es_name e; es_listen_addr := es_listen_addr e; es_capacity := es_capacity e; es_policy := es_policy e;
  es_ready := es_ready e; es_accepted := es_accepted e; es_active := n; es_rejected := es_rejected e;
  es_closed := es_closed e; es_bytes_sent := es_bytes_sent e; es_trapped_seconds := es_trapped_seconds e |}.
(** [ActiveEndpoint::new] and its drop. *)
Definition mark_active (e : EndpointStats) : EndpointStats := set_active_count (fetch_add (es_active e) 1) e.
Definition unmark_active (e : EndpointStats) : EndpointStats := set_active_count (fetch_sub (es_active e) 1) e.
Definition reject (e : EndpointStats) : EndpointStats := {|
  es_name := es_name e; es_listen_addr := es_listen_addr e; es_capacity := es_capacity e; es_policy := es_policy e;
  es_ready := es_ready e; es_accepted := es_accepted e; es_active := es_active e; es_rejected := fetch_add (es_rejected e) 1;
  es_closed := es_closed e; es_bytes_sent := es_bytes_sent e; es_trapped_seconds := es_trapped_seconds e |}.
Definition finish_stats (bytes secs : N) (e : EndpointStats) : EndpointStats := {|
  es_name := es_name e; es_listen_addr := es_listen_addr e; es_capacity := es_capacity e; es_policy := es_policy e;
  es_ready := es_ready e; es_accepted := es_accepted e; es_active := es_active e; es_rejected := es_rejected e;
  es_closed := fetch_add (es_closed e) 1; es_bytes_sent := fetch_add (es_bytes_sent e) bytes;
  es_trapped_seconds := fetch_add (es_trapped_seconds e) secs |}.

(** ** Pacing *)

Definition SSH_LINE_LENGTH : N := 32.
Record SshPacing : Type := { sp_min_delay_ms : N; sp_max_delay_ms : N; sp_max_tarpit_secs : N; sp_line_length : N }.
(** [SshPacing::resolve]. *)
Definition pacing_resolve (listener : Listener) (config : Config) : SshPacing := {|
  sp_min_delay_ms := default (min_delay_ms config) (l_min_delay_ms listener);
  sp_max_delay_ms := default (max_delay_ms config) (l_max_delay_ms listener);
  sp_max_tarpit_secs := default (max_tarpit_secs config) (l_max_tarpit_secs listener);
  sp_line_length := default SSH_LINE_LENGTH (l_line_length listener) |}.
(** The lines [tarpit::ssh] draws with a pacing. *)
Definition drawn_line (pacing : SshPacing) (line : list N) : bool :=
  (1 <=? N.of_nat (length line)) && (N.of_nat (length line) <=? sp_line_length pacing).

(** ** The server *)

Section Endpoints.
Context {NA : IpNetworkApi} {RX : RegexApi} {RS : RegexSetApi} {JS : JsonApi} {TM : TimeApi} {SC : StoreCodec}.
Variable ppp : list N -> HeaderResult.

(** [Handles], less what changes. *)
Record Handles : Type := { hd_config : Config; hd_classifier : Classifier; hd_trusted : TrustedProxies }.
Variable hd : Handles.

(** How far [handle] and [trap_ssh] are with a connection. What a connection holds is
    dropped in the order of the source: the slot, [ActiveEndpoint], [ActiveGuard] -
    its place first, then its count -, and last the permit. *)
Inductive Phase : Type :=
| Opening                  (* before the PROXY header *)
| Hit (ip : IpAddr)        (* being recorded *)
| Recorded (ip : IpAddr)   (* asks for a slot of its endpoint *)
| Slotted (ip : IpAddr)    (* asks for a place of its address *)
| Placed (ip : IpAddr)     (* has both, not counted in the state yet *)
| Entered (ip : IpAddr)    (* has its guard *)
| Held (ip : IpAddr)       (* counted as active, sent the banner *)
| Closing (ip : IpAddr)    (* counted as closed *)
| Unslotted (ip : IpAddr)  (* its slot is free again *)
| Unmarked (ip : IpAddr)   (* no longer counted as active *)
| Unplaced (ip : IpAddr)   (* its place is free again *)
| Refused                  (* counted as rejected, with a slot *)
| Leaving.                 (* holds only its permit *)
Record Conn : Type := { cn_endpoint : nat; cn_peer : IpAddr; cn_phase : Phase }.
Definition in_phase (c : Conn) (p : Phase) : Conn := {| cn_endpoint := cn_endpoint c; cn_peer := cn_peer c; cn_phase := p |}.

(** An accept loop: its counters, the free slots of its tarpit, whether it holds a
    permit for the next connection and whether it has ended. *)
Record Endpoint : Type := { ep_stats : EndpointStats; ep_slots : N; ep_permit : bool; ep_stopped : bool }.
Definition with_stats (f : EndpointStats -> EndpointStats) (e : Endpoint) : Endpoint :=
  {| ep_stats := f (ep_stats e); ep_slots := ep_slots e; ep_permit := ep_permit e; ep_stopped := ep_stopped e |}.
Definition with_slots (n : N) (e : Endpoint) : Endpoint :=
  {| ep_stats := ep_stats e; ep_slots := n; ep_permit := ep_permit e; ep_stopped := ep_stopped e |}.
Definition with_permit (b : bool) (e : Endpoint) : Endpoint :=
  {| ep_stats := ep_stats e; ep_slots := ep_slots e; ep_permit := b; ep_stopped := ep_stopped e |}.
Definition stopped (e : Endpoint) : Endpoint :=
  {| ep_stats := ep_stats e; ep_slots := ep_slots e; ep_permit := false; ep_stopped := true |}.

Record Server : Type := {
  sv_defense : Defense; sv_state : State; sv_endpoints : list Endpoint; sv_free : N;
  sv_conns : gmap N Conn; sv_next : N; sv_shutdown : bool }.
Definition set_endpoint (i : nat) (e : Endpoint) (s : Server) : Server := {|
  sv_defense := sv_defense s; sv_state := sv_state s; sv_endpoints := <[i := e]> (sv_endpoints s); sv_free := sv_free s;
  sv_conns := sv_conns s; sv_next := sv_next s; sv_shutdown := sv_shutdown s |}.
Definition set_endpoints (l : list Endpoint) (s : Server) : Server := {|
  sv_defense := sv_defense s; sv_state := sv_state s; sv_endpoints := l; sv_free := sv_free s;
  sv_conns := sv_conns s; sv_next := sv_next s; sv_shutdown := sv_shutdown s |}.
Definition set_free (n : N) (s : Server) : Server := {|
  sv_defense := sv_defense s; sv_state := sv_state s; sv_endpoints := sv_endpoints s; sv_free := n;
  sv_conns := sv_conns s; sv_next := sv_next s; sv_shutdown := sv_shutdown s |}.
Definition set_conns (m : gmap N Conn) (s : Server) : Server := {|
  sv_defense := sv_defense s; sv_state := sv_state s; sv_endpoints := sv_endpoints s; sv_free := sv_free s;
  sv_conns := m; sv_next := sv_next s; sv_shutdown := sv_shutdown s |}.
Definition set_state (st : State) (s : Server) : Server := {|
  sv_defense := sv_defense s; sv_state := st; sv_endpoints := sv_endpoints s; sv_free := sv_free s;
  sv_conns := sv_conns s; sv_next := sv_next s; sv_shutdown := sv_shutdown s |}.
Definition set_defense (d : Defense) (s : Server) : Server := {|
  sv_defense := d; sv_state := sv_state s; sv_endpoints := sv_endpoints s; sv_free := sv_free s;
  sv_conns := sv_conns s; sv_next := sv_next s; sv_shutdown := sv_shutdown s |}.

(** [endpoint_stats], and [run] up to the accept loops: the sockets are bound in
    order and the first that fails ends it. *)
Definition endpoint_stats (config : Config) : list EndpointStats :=
  (fun l => stats_new l (listener_cap l (max_tarpit_conns config))) <$> listeners config.
Fixpoint bind_all (bind : string -> result string unit) (ls : list Listener) (stats : list EndpointStats) :
    list EndpointStats * result string unit :=
  match ls, stats with
  | l :: ls, e :: stats =>
      match bind (l_listen_addr l) with
      | Err error => (e :: stats, Err error)
      | Ok _ => let '(stats, r) := bind_all bind ls stats in (set_ready true e :: stats, r)
      end
  | _, _ => (stats, Ok tt)
  end.
Definition endpoint_new (e : EndpointStats) : Endpoint :=
  {| ep_stats := e; ep_slots := es_capacity e; ep_permit := false; ep_stopped := false |}.
Definition server_new (d : Defense) (stats : list EndpointStats) : Server := {|
  sv_defense := d; sv_state := state_new; sv_endpoints := endpoint_new <$> stats; sv_free := max_connections (hd_config hd);
  sv_conns := ∅; sv_next := 0; sv_shutdown := false |}.

(** The address of a connection ([handle]): [None] while the header is read and
    [Some None] when it cannot be. *)
Definition client_address (peer : IpAddr) (reads : list ReadOutcome) : option (option IpAddr) :=
  if proxy_protocol (hd_config hd) && trusted_contains (hd_trusted hd) peer then
    '(r, _) ← proxy_read ppp [] reads;
    Some match r with Ok (ip, _) => Some (default peer ip) | Err _ => None end
  else Some (Some peer).

(** [record_hit]: a policy that fails is logged. [None] while the defense is at it. *)
Definition record_hit (env : Env) (persist : nat) (envs : list Env) (policy : option string) (ip : IpAddr) (d : Defense) :
    option Defense :=
  match policy with
  | None => Some d
  | Some policy => snd <$> record_listener env persist envs policy ip d
  end.

(** What the tasks do. *)
Inductive Action : Type :=
| Permit (i : nat)                     (* an accept loop gets a connection slot *)
| AcceptFailed (i : nat)
| Accept (i : nat) (peer : IpAddr)
| Stop (i : nat)                       (* an accept loop sees the shutdown *)
| Opened (id : N) (reads : list ReadOutcome)
| RecordHit (id : N) (env : Env) (persist : nat) (envs : list Env)
| TakeSlot (id : N)
| TakePlace (id : N)
| CountIn (id : N)
| Hold (id : N)
| Finish (id : N) (rounds : list (list N * bool)) (secs : N)
| Release (id : N)                     (* the next thing a connection holds is dropped *)
| ShutDown
| Unready.                             (* the end of [run] *)

(** A connection ends, with its permit. *)
Definition gone (id : N) (s : Server) : Server := set_free (sv_free s + 1) (set_conns (delete id (sv_conns s)) s).
Definition to_phase (id : N) (c : Conn) (p : Phase) (s : Server) : Server := set_conns (<[id := in_phase c p]> (sv_conns s)) s.

(** One action of a connection that is in the phase for it. *)
Definition conn_act (a : Action) (id : N) (c : Conn) (e : Endpoint) (s : Server) : option Server :=
  let i := cn_endpoint c in
  match a, cn_phase c with
  | Opened _ reads, Opening =>
      r ← client_address (cn_peer c) reads;
      Some match r with
           | None => gone id s
           | Some ip => if is_whitelisted (hd_classifier hd) ip then gone id s else to_phase id c (Hit ip) s
           end
  | RecordHit _ env persist envs, Hit ip =>
      d ← record_hit env persist envs (es_policy (ep_stats e)) ip (sv_defense s);
      Some (to_phase id c (Recorded ip) (set_defense d s))
  | TakeSlot _, Recorded ip =>
      Some (if ep_slots e =? 0 then to_phase id c Leaving (set_endpoint i (with_stats reject e) s)
            else to_phase id c (Slotted ip) (set_endpoint i (with_slots (ep_slots e - 1) e) s))
  | TakePlace _, Slotted ip =>
      let '(placed, st) := take_place (sv_state s) ip (max_tarpit_conns_per_ip (hd_config hd)) in
      Some (if placed then to_phase id c (Placed ip) (set_state st s)
            else to_phase id c Refused (set_endpoint i (with_stats reject e) (set_state st s)))
  | CountIn _, Placed ip => Some (to_phase id c (Entered ip) (set_state (count_in (sv_state s)) s))
  | Hold _, Entered ip => Some (to_phase id c (Held ip) (set_endpoint i (with_stats mark_active e) s))
  | Finish _ rounds secs, Held ip =>
      listener ← listeners (hd_config hd) !! i;
      if forallb (fun round => drawn_line (pacing_resolve listener (hd_config hd)) round.1) rounds
      then Some (to_phase id c (Closing ip) (set_endpoint i (with_stats (finish_stats (ssh_sent rounds) secs) e) s))
      else None
  | Release _, Closing ip => Some (to_phase id c (Unslotted ip) (set_endpoint i (with_slots (ep_slots e + 1) e) s))
  | Release _, Unslotted ip => Some (to_phase id c (Unmarked ip) (set_endpoint i (with_stats unmark_active e) s))
  | Release _, Unmarked ip => Some (to_phase id c (Unplaced ip) (set_state (free_place (sv_state s) ip) s))
  | Release _, Unplaced _ => Some (to_phase id c Leaving (set_state (count_out (sv_state s)) s))
  | Release _, Refused => Some (to_phase id c Leaving (set_endpoint i (with_slots (ep_slots e + 1) e) s))
  | Release _, Leaving => Some (gone id s)
  | _, _ => None
  end.
Definition action_conn (a : Action) : option N :=
  match a with
  | Opened id _ | RecordHit id _ _ _ | TakeSlot id | TakePlace id | CountIn id | Hold id | Finish id _ _ | Release id =>
      Some id
  | _ => None
  end.

(** One action of an accept loop ([accept_loop]). *)
Definition loop_act (a : Action) (i : nat) (e : Endpoint) (s : Server) : option Server :=
  if ep_stopped e then None
  else
    match a with
    | Permit _ =>
        if ep_permit e || (sv_free s =? 0) then None
        else Some (set_free (sv_free s - 1) (set_endpoint i (with_permit true e) s))
    | AcceptFailed _ =>
        if ep_permit e then Some (set_free (sv_free s + 1) (set_endpoint i (with_permit false e) s)) else None
    | Accept _ peer =>
        if ep_permit e then
          Some {| sv_defense := sv_defense s; sv_state := sv_state s;
                  sv_endpoints := <[i := with_permit false (with_stats add_accepted e)]> (sv_endpoints s);
                  sv_free := sv_free s;
                  sv_conns := <[sv_next s := {| cn_endpoint := i; cn_peer := peer; cn_phase := Opening |}]> (sv_conns s);
                  sv_next := sv_next s + 1; sv_shutdown := sv_shutdown s |}
        else None
    | Stop _ =>
        if sv_shutdown s
        then Some (set_free (if ep_permit e then sv_free s + 1 else sv_free s) (set_endpoint i (stopped e) s)) else None
    | _ => None
    end.
Definition action_loop (a : Action) : option nat :=
  match a with Permit i | AcceptFailed i | Accept i _ | Stop i => Some i | _ => None end.

Definition act (a : Action) (s : Server) : option Server :=
  match a with
  | ShutDown => Some {| sv_defense := sv_defense s; sv_state := sv_state s; sv_endpoints := sv_endpoints s;
                        sv_free := sv_free s; sv_conns := sv_conns s; sv_next := sv_next s; sv_shutdown := true |}
  | Unready => if sv_shutdown s then Some (set_endpoints (with_stats (set_ready false) <$> sv_endpoints s) s) else None
  | _ =>
      match action_loop a with
      | Some i => e ← sv_endpoints s !! i; loop_act a i e s
      | None =>
          id ← action_conn a; c ← sv_conns s !! id; e ← sv_endpoints s !! cn_endpoint c; conn_act a id c e s
      end
  end.
Fixpoint act_all (l : list Action) (s : Server) : option Server :=
  match l with
  | [] => Some s
  | a :: l => s ← act a s; act_all l s
  end.
(** [run] on what the sockets and the tasks do. *)
Definition endpoints_run (bind : string -> result string unit) (d : Defense) (l : list Action) : option (result string Server) :=
  match bind_all bind (listeners (hd_config hd)) (endpoint_stats (hd_config hd)) with
  | (_, Err error) => Some (Err error)
  | (stats, Ok _) => Ok <$> act_all l (server_new d stats)
  end.
End Endpoints.
