(* ===== verification/Admin.v ===== *)
(** * The control socket

    [crates/bagel-runtime/src/admin.rs], the messages of [crates/bagel-admin] with
    their text, and the command line of [crates/bagel-cli]: a request is a line, the
    daemon answers it from the defense and the endpoints, and the client prints the
    answer. The JSON of the messages is a parameter. *)

From Stdlib Require Import SpecFloat.
From S2P Require Import Prelude Core Ip ThirdParty Config Firewall Store Detector.
From S2P Require Import Url Tls Defense Traps Admission Proto Endpoints Float.

Local Open Scope N_scope.

(** ** Messages *)

Inductive Request : Type :=
| RqStatus | RqBlock (network : string) (duration_secs : option N) | RqUnblock (network : string)
| RqListBans | RqListPolicies | RqReconcile.
Record Status : Type := {
  su_version : string; su_uptime_secs : N; su_blocked_ips : N; su_active_connections : N; su_firewall_ready : bool;
  su_active_bans : N; su_policy_count : N; su_source_count : N; su_endpoints : list EndpointStatus }.
Record PolicyStatus : Type := { py_name : string; py_source : string; py_action : string }.
Inductive Response : Type :=
| RsStatus (status : Status) | RsBans (bans : list Ban) | RsPolicies (policies : list PolicyStatus)
| RsOk (note : string) | RsError (message : string).

(** ** Text *)

Definition nl : string := bytes_string [10].
(** Characters, and the padding of [{:<n}] and [{:>n}]. *)
Fixpoint char_count (s : string) : nat :=
  match s with
  | EmptyString => 0
  | String c s => (if in_range 128 191 c then 0 else 1) + char_count s
  end%nat.
Definition spaces (n : nat) : string := chars_string (repeat (ascii_of_N 32) n).
Definition pad_right (width : nat) (s : string) : string := s +:+ spaces (width - char_count s).
Definition pad_left (width : nat) (s : string) : string := spaces (width - char_count s) +:+ s.

(** [rel], at the time [now]. *)
Definition rel (now ts : N) : string :=
  let secs := now - ts in
  if secs <? 60 then show_N secs +:+ "s ago"
  else if secs <? 3600 then show_N (secs / 60) +:+ "m ago"
  else if secs <? 86400 then show_N (secs / 3600) +:+ "h ago"
  else show_N (secs / 86400) +:+ "d ago".
Definition format_uptime (secs : N) : string :=
  let d := secs / 86400 in let h := secs mod 86400 / 3600 in
  let m := secs mod 3600 / 60 in let s := secs mod 60 in
  if (d =? 0) && (h =? 0) then show_N m +:+ "m " +:+ show_N s +:+ "s"
  else if d =? 0 then show_N h +:+ "h " +:+ show_N m +:+ "m"
  else show_N d +:+ "d " +:+ show_N h +:+ "h " +:+ show_N m +:+ "m".

(** [clamp(0.0, 1.0)]. *)
Definition clamp01 (x : f64) : f64 :=
  if SFltb x (f64_of 0) then f64_of 0 else if SFltb (f64_of 1) x then f64_of 1 else x.
(** [round() as usize] of a number that is not negative, halves going up. *)
Definition f64_round (x : f64) : N :=
  match x with
  | S754_finite false m e =>
      if (0 <=? e)%Z then N.pos m * 2 ^ Z.to_N e else (N.pos m + 2 ^ Z.to_N (- e - 1)) / 2 ^ Z.to_N (- e)
  | _ => 0
  end.
(** [{:.1}], the digits rounded to even. *)
Definition f64_tenths (x : f64) : N :=
  match x with
  | S754_finite false m e =>
      if (0 <=? e)%Z then N.pos m * 2 ^ Z.to_N e * 10
      else
        let d := 2 ^ Z.to_N (- e) in
        let q := N.pos m * 10 / d in let r := N.pos m * 10 mod d in
        if (d <? 2 * r) || ((2 * r =? d) && N.odd q) then q + 1 else q
  | _ => 0
  end.
Definition show_tenths (x : f64) : string := show_N (f64_tenths x / 10) +:+ "." +:+ show_N (f64_tenths x mod 10).

Definition full_block : string := bytes_string [226; 150; 136].
Definition light_shade : string := bytes_string [226; 150; 145].
Definition repeat_str (s : string) (n : nat) : string := str_join "" (repeat s n).
Definition bar (frac : f64) (width : nat) : string :=
  let filled := f64_round (f64_mul (clamp01 frac) (f64_of (N.of_nat width))) in
  repeat_str full_block (N.to_nat filled) +:+ repeat_str light_shade (width - N.to_nat filled).

(** [Display for Status]. *)
Definition show_endpoint (e : EndpointStatus) : string :=
  "  " +:+ pad_right 12 (et_name e) +:+ " " +:+ pad_right 21 (et_listen_addr e) +:+ " " +:+
  (if et_ready e then "ready" else "down ") +:+ " active " +:+ show_N (et_active e) +:+ "/" +:+
  show_N (et_tarpit_capacity e) +:+ " (" +:+ show_N (et_available e) +:+ " free) accepted " +:+
  show_N (et_accepted e) +:+ " rejected " +:+ show_N (et_rejected e) +:+ " closed " +:+ show_N (et_closed e) +:+
  " bytes " +:+ show_N (et_bytes_sent e) +:+ " trapped " +:+ show_N (et_trapped_seconds e) +:+ "s" +:+ nl.
Definition sum_of (f : EndpointStatus -> N) (l : list EndpointStatus) : N := foldl (fun n e => fetch_add n (f e)) 0 l.
Definition used_ratio (active capacity : N) : f64 :=
  if capacity =? 0 then f64_of 0 else f64_div (f64_of active) (f64_of capacity).
Definition show_totals (l : list EndpointStatus) : string :=
  let active := sum_of et_active l in let capacity := sum_of et_tarpit_capacity l in
  let used := used_ratio active capacity in
  "  " +:+ pad_right 12 "TOTAL" +:+ " " +:+ pad_right 21 "" +:+ "       active " +:+ show_N active +:+ "/" +:+
  show_N capacity +:+ "      accepted " +:+ show_N (sum_of et_accepted l) +:+ " rejected " +:+
  show_N (sum_of et_rejected l) +:+ " bytes " +:+ show_N (sum_of et_bytes_sent l) +:+ " trapped " +:+
  format_uptime (sum_of et_trapped_seconds l) +:+ nl +:+
  "  capacity used:      " +:+ pad_left 5 (show_tenths (f64_mul used (f64_of 100))) +:+ "%  " +:+ bar used 24 +:+ nl.
Definition show_status (s : Status) : string :=
  "bagel " +:+ su_version s +:+ " - up " +:+ format_uptime (su_uptime_secs s) +:+ nl +:+
  "  blocked IPs:        " +:+ show_N (su_blocked_ips s) +:+ nl +:+
  "  active bans:        " +:+ show_N (su_active_bans s) +:+ nl +:+
  "  firewall:           " +:+ (if su_firewall_ready s then "ready" else "not ready") +:+ nl +:+
  "  policies/sources:   " +:+ show_N (su_policy_count s) +:+ "/" +:+ show_N (su_source_count s) +:+ nl +:+
  "  active connections: " +:+ show_N (su_active_connections s) +:+ nl +:+
  match su_endpoints s with
  | [] => ""
  | l => nl +:+ "endpoints:" +:+ nl +:+ str_join "" (show_endpoint <$> l) +:+ show_totals l
  end.

(** [Display] for bans, policies and responses. *)
Definition show_apply_state (s : ApplyState) : string :=
  match s with Store.Pending => "pending" | Applied => "applied" | Observed => "observed" | Failed => "failed" end.
Definition show_ban (now : N) (b : Ban) : string :=
  pad_right 43 (ban_network b) +:+ " " +:+ pad_right 20 (ban_policy b) +:+ " " +:+ pad_right 16 (ban_action b) +:+ " " +:+
  match ban_expires_at b with None => "permanent" | Some at_ => rel now at_ end +:+
  " [" +:+ show_apply_state (ban_state b) +:+ "]" +:+
  match ban_error b with Some error => nl +:+ "  error: " +:+ error | None => "" end.
Definition show_policy (p : PolicyStatus) : string :=
  pad_right 24 (py_name p) +:+ " " +:+ pad_right 24 (py_source p) +:+ " " +:+ py_action p.
Definition show_response (now : N) (r : Response) : string :=
  match r with
  | RsStatus status => show_status status
  | RsBans [] => "no active bans" +:+ nl
  | RsBans bans => str_join "" ((fun ban => show_ban now ban +:+ nl) <$> bans)
  | RsPolicies [] => "no policies configured" +:+ nl
  | RsPolicies policies => str_join "" ((fun policy => show_policy policy +:+ nl) <$> policies)
  | RsOk msg => msg +:+ nl
  | RsError msg => "error: " +:+ msg +:+ nl
  end.

(** ** The daemon's side *)

Section Admin.
Context {NA : IpNetworkApi} {RX : RegexApi} {RS : RegexSetApi} {JS : JsonApi} {TM : TimeApi} {SC : StoreCodec}.

Definition CARGO_PKG_VERSION : string := "1.0.0".
(** [Defense::policies]. *)
Definition policy_statuses (d : Defense) : list PolicyStatus :=
  (fun e => {| py_name := e.1; py_source := p_source (cp_policy e.2); py_action := show_action (p_action (cp_policy e.2)) |})
    <$> df_policies d.
(** The networks the firewall blocks for a ban. *)
Definition blocked_networks (bans : list Ban) : gset string :=
  list_to_set (ban_network <$> List.filter (fun ban => bool_decide (ban_state ban = Applied) && ban_blocking ban) bans).
Definition status_of (uptime : N) (s : Server) (bans : list Ban) : Status := {|
  su_version := CARGO_PKG_VERSION; su_uptime_secs := uptime; su_blocked_ips := N.of_nat (size (blocked_networks bans));
  su_active_connections := active (sv_state s); su_firewall_ready := fw_ready (df_firewall (sv_defense s));
  su_active_bans := N.of_nat (length bans); su_policy_count := N.of_nat (length (df_policies (sv_defense s)));
  su_source_count := N.of_nat (length (sources (df_config (sv_defense s))));
  su_endpoints := snapshot ∘ ep_stats <$> sv_endpoints s |}.

(** An operation of the defense and the answer made of it. *)
Definition answer {A} (op : st Defense A) (note : A -> string) (s : Server) : Response * Server :=
  let '(r, d) := op (sv_defense s) in
  (match r with Ok a => RsOk (note a) | Err error => RsError (show_error error) end, set_defense d s).
Definition unblock_note (network : string) (changed : N) : string :=
  if changed =? 0 then network +:+ " was not blocked" else "unblocked " +:+ network.
(** [dispatch]. *)
Definition dispatch (env : Env) (uptime : N) (request : Request) (s : Server) : Response * Server :=
  match request with
  | RqStatus =>
      (match bans env (sv_defense s) with Ok l => RsStatus (status_of uptime s l) | Err error => RsError (show_error error) end, s)
  | RqBlock network duration => answer (block_manually env network duration) (fun _ => "blocked " +:+ network) s
  | RqUnblock network => answer (unblock env network) (unblock_note network) s
  | RqListBans => (match bans env (sv_defense s) with Ok l => RsBans l | Err error => RsError (show_error error) end, s)
  | RqListPolicies => (RsPolicies (policy_statuses (sv_defense s)), s)
  | RqReconcile => answer (reconcile env) (fun _ => "reconciled nftables state") s
  end.

Definition MAX_REQUEST : nat := N.to_nat (64 * 1024).
(** Up to the first line feed, if there is one. *)
Fixpoint until_newline (chunk : list N) : list N * bool :=
  match chunk with
  | [] => ([], false)
  | b :: chunk => if b =? 10 then ([b], true) else let '(l, found) := until_newline chunk in (b :: l, found)
  end.
(** The loop of [handle]: [None] while it waits, [Some None] when the connection is
    given up - which the five seconds [serve] allows do as well. *)
Fixpoint read_request (bytes : list N) (reads : list ReadOutcome) : option (option (list N)) :=
  match reads with
  | [] => None
  | RData (b :: chunk) :: reads =>
      let '(part, found) := until_newline (b :: chunk) in
      if (MAX_REQUEST <? length bytes + length part)%nat then Some None
      else if (found : bool) then Some (Some (bytes ++ part)) else read_request (bytes ++ part) reads
  | _ :: _ => Some None
  end.

(** [serde_json] on the messages: the message or what is wrong with the text. *)
Class AdminJson : Type := {
  request_from_str : string -> result string Request;
  response_to_vec : Response -> option (list N);
  response_from_str : string -> option Response }.
Context {AJ : AdminJson}.

(** The rest of [handle]: what is sent back, if anything. *)
Definition respond (env : Env) (uptime : N) (bytes : list N) (s : Server) : option (list N) * Server :=
  if negb (is_utf8 bytes) then (None, s)
  else
    let line := bytes_string bytes in
    if str_is_empty (str_trim line) then (None, s)
    else
      let '(response, s) :=
        match request_from_str (trim_end_of white_space line) with
        | Ok request => dispatch env uptime request s
        | Err e => (RsError ("malformed request: " +:+ e), s)
        end in
      ((fun out => out ++ [10]) <$> response_to_vec response, s).
Definition handle_admin (env : Env) (uptime : N) (reads : list ReadOutcome) (s : Server) : option (option (list N) * Server) :=
  r ← read_request [] reads;
  Some match r with None => (None, s) | Some bytes => respond env uptime bytes s end.

(** ** The client's side *)

(** The answer [query] reads: a line, with what is wrong when there is none. *)
Definition query_answer (line : string) : result string Response :=
  if str_is_empty (str_trim line) then Err "daemon closed the connection without a reply"
  else match response_from_str (trim_end_of white_space line) with
       | Some response => Ok response
       | None => Err "malformed response"
       end.
End Admin.

(** [bagel_cli::Command], less the one that runs without the daemon. *)
Inductive Command : Type :=
| CmdStatus | CmdBlock (network : string) (duration_secs : option N) | CmdUnblock (network : string)
| CmdBans | CmdPolicies | CmdReconcile.
Definition command_request (c : Command) : Request :=
  match c with
  | CmdStatus => RqStatus | CmdBlock network duration => RqBlock network duration | CmdUnblock network => RqUnblock network
  | CmdBans => RqListBans | CmdPolicies => RqListPolicies | CmdReconcile => RqReconcile
  end.
(** What the command line prints and whether it succeeds, in text. *)
Definition cli_text (now : N) (r : Response) : string * bool :=
  match r with RsError msg => (msg, false) | _ => (show_response now r, true) end.
(** The help [complete_ban] gives for a ban. *)
Definition two_digits (n : N) : string := if n <? 10 then "0" +:+ show_N n else show_N n.
Definition ban_help (now : N) (b : Ban) : string :=
  ban_policy b +:+ ", " +:+
  match ban_expires_at b with
  | None => "permanent"
  | Some at_ => let left := at_ - now in "expires in " +:+ show_N (left / 3600) +:+ "h" +:+ two_digits (left mod 3600 / 60) +:+ "m"
  end.
Definition complete_ban (now : N) (r : Response) : list (string * string) :=
  match r with RsBans bans => (fun ban => (ban_network ban, ban_help now ban)) <$> bans | _ => [] end.
