(* ===== verification/Html.v ===== *)
(** * Reading pages back

    What the pages of [template.rs] and of [bagel-deception] are judged by: a reader of
    the HTML they are written in, which gives the elements, attributes and characters a
    browser sees, and the pages that read back as they were meant. *)

From S2P Require Import Prelude Strings.

Local Open Scope N_scope.

(** ** Escaping *)

(** [bagel_deception::escape]; [maud] documents the same of what it inserts. *)
Definition entity (c : ascii) : string :=
  match byte_of c with
  | 38 => "&amp;" | 60 => "&lt;" | 62 => "&gt;" | 34 => "&quot;" | _ => String c ""
  end.
Fixpoint escape (s : string) : string :=
  match s with EmptyString => "" | String c s => entity c +:+ escape s end.

(** ** The reader *)

Inductive Tok : Type :=
| TChar (c : ascii)
| TOpen (name : string) (attrs : list (string * string))
| TClose (name : string)
| TBang (text : string)
| TComment.

(** Where the reader is: in text, in a reference, in a tag with what it read of it, or
    in the raw text of a style or a script. *)
Inductive Html : Type :=
| HData
| HAmp (e : string)
| HLt
| HName (n : string)
| HAttrs (n : string) (l : list (string * string))
| HAttr (n : string) (l : list (string * string)) (a : string)
| HEq (n : string) (l : list (string * string)) (a : string)
| HVal (n : string) (l : list (string * string)) (a v : string)
| HValAmp (n : string) (l : list (string * string)) (a v e : string)
| HEnd (n : string)
| HBang (s : string)
| HComment (dashes : nat)
| HRaw (n : string)
| HRawLt (n : string)
| HRawEnd (n e : string).

Definition add (s : string) (c : ascii) : string := s +:+ String c "".
Definition chars (s : string) : list Tok := TChar <$> string_chars s.
(** The character a reference stands for. *)
Definition reference (e : string) : string :=
  if String.eqb e "amp" then "&" else if String.eqb e "lt" then "<" else if String.eqb e "gt" then ">"
  else if String.eqb e "quot" then bytes_string [34] else "&" +:+ e +:+ ";".
Definition is_raw (n : string) : bool := String.eqb n "style" || String.eqb n "script".
Definition opened (n : string) (l : list (string * string)) : Html * list Tok :=
  (if is_raw n then HRaw n else HData, [TOpen n l]).

Definition read_char (h : Html) (c : ascii) : Html * list Tok :=
  let sees b := byte_of c =? b in
  match h with
  | HData => if sees 38 then (HAmp "", []) else if sees 60 then (HLt, []) else (HData, [TChar c])
  | HAmp e => if sees 59 then (HData, chars (reference e)) else (HAmp (add e c), [])
  | HLt =>
      if sees 47 then (HEnd "", []) else if sees 33 then (HBang "", [])
      else if in_range 97 122 c || in_range 65 90 c then (HName (String c ""), [])
      else (HData, [TChar (ascii_of_N 60); TChar c])
  | HName n => if sees 32 then (HAttrs n [], []) else if sees 62 then opened n [] else (HName (add n c), [])
  | HAttrs n l => if sees 32 then (HAttrs n l, []) else if sees 62 then opened n l else (HAttr n l (String c ""), [])
  | HAttr n l a =>
      if sees 61 then (HEq n l a, []) else if sees 32 then (HAttrs n (l ++ [(a, "")]), [])
      else if sees 62 then opened n (l ++ [(a, "")]) else (HAttr n l (add a c), [])
  | HEq n l a => if sees 34 then (HVal n l a "", []) else (HEq n l a, [])
  | HVal n l a v =>
      if sees 34 then (HAttrs n (l ++ [(a, v)]), []) else if sees 38 then (HValAmp n l a v "", []) else (HVal n l a (add v c), [])
  | HValAmp n l a v e => if sees 59 then (HVal n l a (v +:+ reference e), []) else (HValAmp n l a v (add e c), [])
  | HEnd n => if sees 62 then (HData, [TClose n]) else (HEnd (add n c), [])
  | HBang s =>
      if sees 62 then (HData, [TBang s])
      else if String.eqb (add s c) "--" then (HComment 0, []) else (HBang (add s c), [])
  | HComment k =>
      if sees 45 then (HComment (S k), []) else if sees 62 && (2 <=? k)%nat then (HData, [TComment]) else (HComment 0, [])
  | HRaw n => if sees 60 then (HRawLt n, []) else (HRaw n, [TChar c])
  | HRawLt n => if sees 47 then (HRawEnd n "", []) else (HRaw n, [TChar (ascii_of_N 60); TChar c])
  | HRawEnd n e =>
      if sees 62 && String.eqb e n then (HData, [TClose n]) else (HRawEnd n (add e c), [])
  end.
Fixpoint run (h : Html) (s : string) : Html * list Tok :=
  match s with
  | EmptyString => (h, [])
  | String c s => let '(h, t) := read_char h c in let '(h, u) := run h s in (h, t ++ u)
  end.
(** A page that is read to its end, and what is in it. *)
Definition reads (s : string) (l : list Tok) : Prop := run HData s = (HData, l).

Lemma run_app h s t :
  run h (s +:+ t) = let '(h, a) := run h s in let '(h, b) := run h t in (h, a ++ b).
Proof.
  revert h. induction s as [|c s IH]; intros h; [change ("" +:+ t) with t; cbn; by destruct (run h t)|].
  change (String c s +:+ t) with (String c (s +:+ t)). cbn. destruct (read_char h c) as [h1 a]. rewrite IH.
  destruct (run h1 s) as [h2 b]. destruct (run h2 t) as [h3 d]. by rewrite app_assoc.
Qed.
Lemma run_seq h s t h1 a h2 b : run h s = (h1, a) -> run h1 t = (h2, b) -> run h (s +:+ t) = (h2, a ++ b).
Proof. intros H1 H2. by rewrite run_app, H1, H2. Qed.
Lemma reads_nil : reads "" [].
Proof. done. Qed.
Lemma reads_app s t a b : reads s a -> reads t b -> reads (s +:+ t) (a ++ b).
Proof. apply run_seq. Qed.

(** ** Text and values *)

Lemma entity_cases c :
  (byte_of c = 38 /\ entity c = "&amp;") \/ (byte_of c = 60 /\ entity c = "&lt;") \/
  (byte_of c = 62 /\ entity c = "&gt;") \/ (byte_of c = 34 /\ entity c = "&quot;") \/
  (byte_of c <> 38 /\ byte_of c <> 60 /\ byte_of c <> 62 /\ byte_of c <> 34 /\ entity c = String c "").
Proof.
  unfold entity.
  destruct (N.eqb_spec (byte_of c) 38) as [->|]; [auto|]. destruct (N.eqb_spec (byte_of c) 60) as [->|]; [auto|].
  destruct (N.eqb_spec (byte_of c) 62) as [->|]; [auto|]. destruct (N.eqb_spec (byte_of c) 34) as [->|]; [auto 6|].
  do 4 right. repeat split; try done.
  destruct (byte_of c) as [|p]; [done|]. do 6 (destruct p; try done).
Qed.
Lemma byte_char c n : byte_of c = n -> c = ascii_of_N n.
Proof. unfold byte_of. intros <-. by rewrite ascii_N_embedding. Qed.

(** A character that is escaped, in text and in a value. *)
Lemma run_entity_text c : run HData (entity c) = (HData, [TChar c]).
Proof.
  destruct (entity_cases c) as [[H ->]|[[H ->]|[[H ->]|[[H ->]|(H1 & H2 & _ & _ & ->)]]]];
    [apply byte_char in H as ->; reflexivity..|].
  cbn. rewrite (proj2 (N.eqb_neq _ _) H1), (proj2 (N.eqb_neq _ _) H2). done.
Qed.
Lemma run_entity_value n l a v c : run (HVal n l a v) (entity c) = (HVal n l a (add v c), []).
Proof.
  destruct (entity_cases c) as [[H ->]|[[H ->]|[[H ->]|[[H ->]|(H1 & _ & _ & H4 & ->)]]]];
    [apply byte_char in H as ->; reflexivity..|].
  cbn. rewrite (proj2 (N.eqb_neq _ _) H1), (proj2 (N.eqb_neq _ _) H4). done.
Qed.
(** Escaped text reads as the text. *)
Lemma reads_escape s : reads (escape s) (chars s).
Proof.
  unfold reads, chars. induction s as [|c s IH]; [done|]. cbn [escape string_chars fmap list_fmap].
  apply (run_seq _ _ _ HData [TChar c]); [apply run_entity_text|exact IH].
Qed.
Lemma add_app v c s : add v c +:+ s = v +:+ String c s.
Proof. unfold add. by rewrite string_app_assoc. Qed.
Lemma run_value n l a v s : run (HVal n l a v) (escape s) = (HVal n l a (v +:+ s), []).
Proof.
  revert v. induction s as [|c s IH]; intros v; cbn [escape]; [by rewrite string_app_nil_r|].
  apply (run_seq _ _ _ (HVal n l a (add v c)) []); [apply run_entity_value|]. by rewrite IH, add_app.
Qed.

(** ** Names *)

Definition name_char (c : ascii) : bool := is_ascii_alphanumeric c || (byte_of c =? 45) || (byte_of c =? 95).
(** [is_attr_name]. *)
Definition is_attr_name (key : string) : bool := negb (str_is_empty key) && str_all name_char key.
(** The names of elements, which start with a letter. *)
Definition is_element (n : string) : bool :=
  match n with String c s => (in_range 97 122 c || in_range 65 90 c) && str_all name_char s | EmptyString => false end.

Lemma name_char_plain c :
  name_char c = true -> Forall (fun b => (byte_of c =? b) = false) [32; 62; 61; 34; 38; 60; 47; 33].
Proof.
  unfold name_char, is_ascii_alphanumeric, is_ascii_digit, is_ascii_lowercase, is_ascii_uppercase, in_range.
  intros H. repeat (apply Forall_cons; split); [..|apply Forall_nil_2]; apply N.eqb_neq; intros E; rewrite E in H; discriminate H.
Qed.
Ltac plain H :=
  apply name_char_plain in H;
  repeat match type of H with Forall _ (_ :: _) => let E := fresh "E" in apply Forall_cons in H as [E H] end.
Lemma run_name n s : str_all name_char s = true -> run (HName n) s = (HName (n +:+ s), []).
Proof.
  revert n. induction s as [|c s IH]; intros n; cbn; [by rewrite string_app_nil_r|].
  intros [H Hs]%andb_true_iff. plain H. rewrite E, E0, IH by done. by rewrite add_app.
Qed.
Lemma run_attr n l a s : str_all name_char s = true -> run (HAttr n l a) s = (HAttr n l (a +:+ s), []).
Proof.
  revert a. induction s as [|c s IH]; intros a; cbn; [by rewrite string_app_nil_r|].
  intros [H Hs]%andb_true_iff. plain H. rewrite E, E0, E1, IH by done. by rewrite add_app.
Qed.
Lemma run_end n s : str_all name_char s = true -> run (HEnd n) s = (HEnd (n +:+ s), []).
Proof.
  revert n. induction s as [|c s IH]; intros n; cbn; [by rewrite string_app_nil_r|].
  intros [H Hs]%andb_true_iff. plain H. rewrite E0, IH by done. by rewrite add_app.
Qed.
Lemma is_element_chars n : is_element n = true -> str_all name_char n = true.
Proof.
  destruct n as [|c s]; [done|]. cbn. intros [H ->]%andb_true_iff. rewrite andb_true_r.
  unfold name_char, is_ascii_alphanumeric, is_ascii_lowercase, is_ascii_uppercase.
  apply orb_true_iff in H as [->| ->]; by rewrite ?orb_true_r.
Qed.

(** ** Tags *)

(** An attribute with its value, or one that is only there. *)
Definition Attr : Type := string * option string.
Definition dquote : string := bytes_string [34].
Definition show_attr (a : Attr) : string :=
  " " +:+ a.1 +:+ match a.2 with Some v => "=" +:+ dquote +:+ escape v +:+ dquote | None => "" end.
Definition open_tag (n : string) (l : list Attr) : string := "<" +:+ n +:+ str_join "" (show_attr <$> l) +:+ ">".
Definition close_tag (n : string) : string := "</" +:+ n +:+ ">".
Definition attr_value (a : Attr) : string * string := (a.1, default "" a.2).

(** Where an attribute or the end of the tag may follow. *)
Definition ready (h : Html) (n : string) (l : list (string * string)) : Prop :=
  read_char h " " = (HAttrs n l, []) /\ read_char h ">" = opened n l.
Lemma run_one h c : run h (String c "") = read_char h c.
Proof. cbn. destruct (read_char h c) as [h' t]. by rewrite app_nil_r. Qed.
Lemma attr_step h n l a :
  ready h n l -> is_attr_name a.1 = true ->
  exists h', run h (show_attr a) = (h', []) /\ ready h' n (l ++ [attr_value a]).
Proof.
  destruct a as [a o]. cbn [fst]. intros [Hs _] Ha. unfold is_attr_name in Ha. apply andb_true_iff in Ha as [Hne Ha].
  destruct a as [|c a]; [done|]. cbn in Ha. apply andb_true_iff in Ha as [Hc Ha].
  assert (H1 : run h (" " +:+ String c a) = (HAttr n l (String c a), [])).
  { apply (run_seq _ _ _ (HAttrs n l) []); [by rewrite run_one|]. cbn. plain Hc. rewrite E, E0.
    change (String c a) with (String c "" +:+ a). by rewrite run_attr. }
  unfold show_attr. cbn [fst snd]. destruct o as [v|].
  - exists (HAttrs n (l ++ [(String c a, v)])). split; [|done].
    rewrite <-(string_app_assoc " "). apply (run_seq _ _ _ _ [] _ [] H1).
    apply (run_seq _ _ _ (HEq n l (String c a)) []); [reflexivity|].
    apply (run_seq _ _ _ (HVal n l (String c a) "") []); [reflexivity|].
    apply (run_seq _ _ _ (HVal n l (String c a) v) []); [by rewrite run_value|]. reflexivity.
  - exists (HAttr n l (String c a)). split; [by rewrite string_app_nil_r|]. done.
Qed.
Lemma join_cons s l : str_join "" (s :: l) = s +:+ str_join "" l.
Proof. destruct l; [by rewrite string_app_nil_r|done]. Qed.
Lemma run_attrs h n l k :
  ready h n l -> Forall (fun a => is_attr_name a.1 = true) k ->
  exists h', run h (str_join "" (show_attr <$> k)) = (h', []) /\ ready h' n (l ++ (attr_value <$> k)).
Proof.
  intros H Hk. revert h l H. induction Hk as [|a k Ha _ IH]; intros h l H.
  - exists h. split; [done|]. by rewrite app_nil_r.
  - destruct (attr_step h n l a H Ha) as (h1 & H1 & Hr). destruct (IH h1 _ Hr) as (h2 & H2 & Hr2).
    exists h2. rewrite fmap_cons, join_cons. split; [exact (run_seq _ _ _ _ _ _ _ H1 H2)|].
    by rewrite <-app_assoc in Hr2.
Qed.
Lemma run_open n l :
  is_element n = true -> Forall (fun a => is_attr_name a.1 = true) l ->
  run HData (open_tag n l) = opened n (attr_value <$> l).
Proof.
  intros Hn Hl. pose proof (is_element_chars n Hn) as Hc. destruct n as [|c n]; [done|].
  cbn in Hc. apply andb_true_iff in Hc as [Hc Hs]. cbn in Hn. apply andb_true_iff in Hn as [Hn _].
  assert (H1 : run HData ("<" +:+ String c n) = (HName (String c n), [])).
  { apply (run_seq _ _ _ HLt []); [reflexivity|]. cbn. plain Hc. rewrite E5, E6, Hn.
    change (String c n) with (String c "" +:+ n). by rewrite run_name. }
  destruct (run_attrs (HName (String c n)) (String c n) [] l) as (h & H2 & _ & H3); [done|done|].
  unfold open_tag. rewrite <-(string_app_assoc "<").
  rewrite (run_seq _ _ _ _ _ (opened (String c n) (attr_value <$> l)).1 (opened (String c n) (attr_value <$> l)).2 H1);
    [by destruct (opened _ _)|].
  apply (run_seq _ _ _ _ _ _ _ H2). rewrite run_one, H3. apply surjective_pairing.
Qed.
Lemma reads_open n l :
  is_element n = true -> is_raw n = false -> Forall (fun a => is_attr_name a.1 = true) l ->
  reads (open_tag n l) [TOpen n (attr_value <$> l)].
Proof. intros Hn Hr Hl. unfold reads. rewrite run_open by done. unfold opened. by rewrite Hr. Qed.
Lemma reads_close n : is_element n = true -> reads (close_tag n) [TClose n].
Proof.
  intros Hn%is_element_chars. unfold reads, close_tag.
  apply (run_seq _ _ _ (HEnd "") []); [reflexivity|]. apply (run_seq _ _ _ (HEnd n) []); [by rewrite run_end|].
  reflexivity.
Qed.

(** Raw text ends where its element does. *)
Definition no_lt (s : string) : bool := str_all (fun c => negb (byte_of c =? 60)) s.
Lemma run_raw n s : no_lt s = true -> run (HRaw n) s = (HRaw n, chars s).
Proof.
  unfold chars. induction s as [|c s IH]; [done|]. cbn. intros [H%negb_true_iff Hs]%andb_true_iff. rewrite H. by rewrite IH.
Qed.
Lemma run_raw_end n e s : str_all name_char s = true -> run (HRawEnd n e) s = (HRawEnd n (e +:+ s), []).
Proof.
  revert e. induction s as [|c s IH]; intros e; cbn; [by rewrite string_app_nil_r|].
  intros [H Hs]%andb_true_iff. plain H. rewrite E0. cbn. rewrite IH by done. by rewrite add_app.
Qed.
Lemma reads_raw_element n l s :
  is_element n = true -> is_raw n = true -> Forall (fun a => is_attr_name a.1 = true) l -> no_lt s = true ->
  reads (open_tag n l +:+ s +:+ close_tag n) (TOpen n (attr_value <$> l) :: chars s ++ [TClose n]).
Proof.
  intros Hn Hr Hl Hs. unfold reads. apply (run_seq _ _ _ (HRaw n) [TOpen n (attr_value <$> l)] HData (chars s ++ [TClose n])).
  - rewrite run_open by done. unfold opened. by rewrite Hr.
  - apply (run_seq _ _ _ (HRaw n) (chars s)); [by apply run_raw|]. unfold close_tag.
    apply (run_seq _ _ _ (HRawEnd n "") []); [reflexivity|].
    apply (run_seq _ _ _ (HRawEnd n n) []); [rewrite run_raw_end; [done|by apply is_element_chars]|].
    rewrite run_one. cbn. by rewrite String.eqb_refl.
Qed.

(** ** Markup *)

(** What an [html!] template stands for: text, elements, elements without an end, the
    two with raw text, and markup that was made before. *)
Inductive Node : Type :=
| NText (s : string)
| NElem (n : string) (l : list Attr) (children : list Node)
| NVoid (n : string) (l : list Attr)
| NRaw (n : string) (l : list Attr) (s : string)
| NPre (s : string).
Fixpoint serialize (t : Node) : string :=
  match t with
  | NText s => escape s
  | NElem n l children => open_tag n l +:+ str_join "" (serialize <$> children) +:+ close_tag n
  | NVoid n l => open_tag n l
  | NRaw n l s => open_tag n l +:+ s +:+ close_tag n
  | NPre s => s
  end.
Definition serialize_all (l : list Node) : string := str_join "" (serialize <$> l).
Fixpoint tokens (t : Node) : list Tok :=
  match t with
  | NText s => chars s
  | NElem n l children => TOpen n (attr_value <$> l) :: mjoin (tokens <$> children) ++ [TClose n]
  | NVoid n l => [TOpen n (attr_value <$> l)]
  | NRaw n l s => TOpen n (attr_value <$> l) :: chars s ++ [TClose n]
  | NPre s => (run HData s).2
  end.
Definition tokens_all (l : list Node) : list Tok := mjoin (tokens <$> l).

Definition attrs_ok (l : list Attr) : bool := forallb (fun a => is_attr_name a.1) l.
(** Templates name their elements and attributes, and raw text stays in its element. *)
Fixpoint node_ok (t : Node) : bool :=
  match t with
  | NText _ => true
  | NElem n l children => is_element n && negb (is_raw n) && attrs_ok l && forallb node_ok children
  | NVoid n l => is_element n && negb (is_raw n) && attrs_ok l
  | NRaw n l s => is_element n && is_raw n && attrs_ok l && no_lt s
  | NPre s => match run HData s with (HData, _) => true | _ => false end
  end.

Lemma attrs_ok_forall l : attrs_ok l = true -> Forall (fun a => is_attr_name a.1 = true) l.
Proof. unfold attrs_ok. rewrite forallb_forall, Forall_forall. intros H a Ha. apply H. by apply list_elem_of_In. Qed.
Fixpoint node_reads (t : Node) : node_ok t = true -> reads (serialize t) (tokens t).
Proof.
  destruct t as [s|n l children|n l|n l s|s]; cbn [node_ok serialize tokens]; intros H.
  - apply reads_escape.
  - apply andb_true_iff in H as [H Hc]. apply andb_true_iff in H as [H Hl%attrs_ok_forall].
    apply andb_true_iff in H as [Hn Hr%negb_true_iff].
    apply (reads_app _ _ [TOpen n (attr_value <$> l)]); [by apply reads_open|]. apply reads_app; [|by apply reads_close].
    induction children as [|t children IH]; [done|]. cbn in Hc. apply andb_true_iff in Hc as [Ht Hc].
    cbn [fmap list_fmap]. rewrite join_cons. apply (reads_app _ _ (tokens t)); [by apply node_reads|by apply IH].
  - apply andb_true_iff in H as [H Hl%attrs_ok_forall]. apply andb_true_iff in H as [Hn Hr%negb_true_iff]. by apply reads_open.
  - apply andb_true_iff in H as [H Hs]. apply andb_true_iff in H as [H Hl%attrs_ok_forall]. apply andb_true_iff in H as [Hn Hr].
    by apply reads_raw_element.
  - unfold reads. destruct (run HData s) as [h t]. by destruct h.
Qed.
(** Markup that names its tags reads as what it was made of, whatever its strings. *)
Lemma nodes_read l : forallb node_ok l = true -> reads (serialize_all l) (tokens_all l).
Proof.
  induction l as [|t l IH]; [done|]. cbn [forallb]. intros [Ht Hl]%andb_true_iff.
  change (serialize_all (t :: l)) with (str_join "" (serialize t :: (serialize <$> l))). rewrite join_cons.
  apply (reads_app _ _ (tokens t)); [by apply node_reads|by apply IH].
Qed.

(** The elements of a page with the names of their attributes: what no string of the
    page may change. *)
Definition element (t : Tok) : option (string * list string) :=
  match t with TOpen n l => Some (n, l.*1) | _ => None end.
Definition elements (l : list Tok) : list (string * list string) := omap element l.
Lemma elements_app a b : elements (a ++ b) = elements a ++ elements b.
Proof. apply omap_app. Qed.
Lemma elements_chars s : elements (chars s) = [].
Proof. unfold chars. by induction s. Qed.

(** What is collected from the tags of a page, and from the nodes it was made of. *)
Section Collect.
Context {A : Type} (f : string -> list (string * string) -> option A).
Definition from_tag (t : Tok) : option A := match t with TOpen n l => f n l | _ => None end.
Definition collect (l : list Tok) : list A := omap from_tag l.
Definition tag_collect (n : string) (l : list Attr) : list A := option_list (f n (attr_value <$> l)).
Fixpoint node_collect (t : Node) : list A :=
  match t with
  | NText _ => []
  | NElem n l children => tag_collect n l ++ mjoin (node_collect <$> children)
  | NVoid n l | NRaw n l _ => tag_collect n l
  | NPre s => collect (run HData s).2
  end.
Definition collect_all (l : list Node) : list A := mjoin (node_collect <$> l).

Lemma collect_app a b : collect (a ++ b) = collect a ++ collect b.
Proof. apply omap_app. Qed.
Lemma collect_chars s : collect (chars s) = [].
Proof. unfold chars. by induction s. Qed.
Lemma collect_open n l u : collect (TOpen n (attr_value <$> l) :: u) = tag_collect n l ++ collect u.
Proof. unfold collect, tag_collect. cbn. by destruct (f n _). Qed.
Fixpoint collect_node (t : Node) : collect (tokens t) = node_collect t.
Proof.
  destruct t as [s|n l children|n l|n l s|s]; cbn [tokens node_collect].
  - apply collect_chars.
  - rewrite collect_open, collect_app, app_nil_r. f_equal.
    induction children as [|t children IH]; [done|]. cbn [fmap list_fmap mjoin list_join].
    rewrite collect_app. f_equal; [apply collect_node|exact IH].
  - by rewrite collect_open, app_nil_r.
  - by rewrite collect_open, collect_app, collect_chars, app_nil_r.
  - done.
Qed.
Lemma collect_tokens l : collect (tokens_all l) = collect_all l.
Proof.
  unfold tokens_all, collect_all. induction l as [|t l IH]; [done|].
  cbn [fmap list_fmap mjoin list_join]. rewrite collect_app, collect_node. f_equal. exact IH.
Qed.
Lemma collect_all_cons t l : collect_all (t :: l) = node_collect t ++ collect_all l.
Proof. done. Qed.
Lemma collect_all_app a b : collect_all (a ++ b) = collect_all a ++ collect_all b.
Proof. unfold collect_all. by rewrite fmap_app, join_app. Qed.
End Collect.
