(* ===== verification/Rate.v ===== *)
(** * Request rates

    [crates/bagel-web/src/net/rate.rs]: event counts per key over the last one,
    ten and sixty buckets of time, in sharded tables of bounded size. A key is a
    host with a source network; the hash that picks a shard is a parameter. The
    clock's tick is an argument, below the width of [u64] by more than a
    window. *)

From S2P Require Import Prelude Core.

Local Open Scope N_scope.

Definition SHARD_COUNT : N := 64.
Definition DEFAULT_CAPACITY : N := 65536.
Definition MIN_CAPACITY : N := 1024.
Definition MAX_CAPACITY : N := 1048576.
Definition WINDOW : N := 60.

Record RateSnapshot : Type := { last_1 : N; last_10 : N; last_60 : N }.

Record Entry : Type := { buckets : list N; last_tick : N; last_used : N }.

(** Buckets are indexed by the tick modulo the window. *)
Definition bucket (e : list N) (tick : N) : N := nth (N.to_nat (tick mod WINDOW)) e 0.
Definition set_bucket (tick v : N) (e : list N) : list N :=
  <[N.to_nat (tick mod WINDOW) := v]> e.

(** [(lo..hi).map(..).fold(0, saturating_add)] over offsets back from [tick]. *)
Fixpoint sum_from (e : list N) (tick lo : N) (n : nat) (acc : N) : N :=
  match n with
  | O => acc
  | S n => sum_from e tick (lo + 1) n (sat_add u32_max acc (bucket e (tick + WINDOW - lo)))
  end.
Definition sum_span (e : list N) (tick lo span : N) : N :=
  sum_from e tick lo (N.to_nat (span `min` (tick + 1) - lo)) 0.

(** [for offset in 0..stale { buckets[(tick - offset) % 60] = 0; }]. *)
Fixpoint clear_from (e : list N) (tick offset : N) (n : nat) : list N :=
  match n with
  | O => e
  | S n => clear_from (set_bucket (tick - offset) 0 e) tick (offset + 1) n
  end.

Definition empty_buckets : list N := replicate (N.to_nat WINDOW) 0.

(** The part of [record_at] that counts an event in an entry. *)
Definition count_event (e : Entry) (tick used : N) : Entry :=
  let e' :=
    if last_tick e <? tick then
      let stale := (tick - last_tick e) `min` WINDOW in
      (clear_from (buckets e) tick 0 (N.to_nat stale), tick)
    else (buckets e, last_tick e) in
  {| buckets := set_bucket tick (sat_add u32_max (bucket e'.1 tick) 1) e'.1;
     last_tick := e'.2; last_used := used |}.

Definition snapshot (e : Entry) (tick : N) : RateSnapshot := {|
  last_1 := bucket (buckets e) tick;
  last_10 := sum_span (buckets e) tick 0 10;
  last_60 := sum_span (buckets e) tick 0 60 |}.

(** The counts [peek_at] reads. *)
Definition peek_entry (e : Entry) (tick : N) : RateSnapshot :=
  let stale := tick - last_tick e in {|
  last_1 := if stale =? 0 then bucket (buckets e) tick else 0;
  last_10 := sum_span (buckets e) tick stale 10;
  last_60 := sum_span (buckets e) tick stale 60 |}.

Section Rate.
Context {K : Type} `{!EqDecision K}.

Record Shard : Type := { entries : list (K * Entry); used : N }.
Definition shard_default : Shard := {| entries := []; used := 0 |}.

Definition lookup_key (k : K) (l : list (K * Entry)) : option Entry :=
  snd <$> list_find_bool (fun e => bool_decide (e.1 = k)) l.
Definition remove_key (k : K) (l : list (K * Entry)) : list (K * Entry) :=
  List.filter (fun e => negb (bool_decide (e.1 = k))) l.
Definition put_key (k : K) (v : Entry) (l : list (K * Entry)) : list (K * Entry) :=
  (k, v) :: remove_key k l.

(** The least recently used entry; uses are numbered, so it is unique. *)
Fixpoint oldest (l : list (K * Entry)) : option (K * Entry) :=
  match l with
  | [] => None
  | e :: l =>
      match oldest l with
      | Some e' => if last_used e'.2 <? last_used e.2 then Some e' else Some e
      | None => Some e
      end
  end.

(** [RateTracker::evict]. *)
Definition evict (l : list (K * Entry)) (tick : N) : list (K * Entry) :=
  let l := List.filter (fun e => tick <? last_tick e.2 + WINDOW) l in
  match oldest l with
  | Some (k, _) => remove_key k l
  | None => l
  end.

(** The entries [record_at] continues with: a new key makes room in a full shard. *)
Definition room (capacity : nat) (s : Shard) (k : K) (tick : N) : list (K * Entry) :=
  if negb (bool_decide (is_Some (lookup_key k (entries s)))) &&
     (capacity <=? length (entries s))%nat
  then evict (entries s) tick else entries s.

(** [RateTracker::record_at] on the shard of the key. *)
Definition record_at (capacity : nat) (s : Shard) (k : K) (tick : N) : RateSnapshot * Shard :=
  let used := used s + 1 in
  let l := room capacity s k tick in
  let e := default {| buckets := empty_buckets; last_tick := tick; last_used := used |}
             (lookup_key k l) in
  let e := count_event e tick used in
  (snapshot e tick, {| entries := put_key k e l; used := used |}).

(** [RateTracker::peek_at]. *)
Definition peek_at (s : Shard) (k : K) (tick : N) : RateSnapshot :=
  match lookup_key k (entries s) with
  | None => {| last_1 := 0; last_10 := 0; last_60 := 0 |}
  | Some e => peek_entry e tick
  end.

(** The tracker: its shards, and the capacity of each. *)
Record RateTracker : Type := { shards : list Shard; shard_capacity : nat; capacity : N }.
(** [RateTracker::with_bucket]. *)
Definition tracker_new (capacity : N) : RateTracker := {|
  shards := replicate (N.to_nat SHARD_COUNT) shard_default;
  shard_capacity := N.to_nat (((capacity + SHARD_COUNT - 1) / SHARD_COUNT) `max` 1);
  capacity := capacity |}.
Definition tracker_record (hash : K -> N) (t : RateTracker) (k : K) (tick : N) :
    RateSnapshot * RateTracker :=
  let i := N.to_nat (hash k mod SHARD_COUNT) in
  let '(snap, s) := record_at (shard_capacity t) (default shard_default (shards t !! i)) k tick in
  (snap, {| shards := <[i := s]> (shards t); shard_capacity := shard_capacity t;
            capacity := capacity t |}).
(** [RateTracker::len]. *)
Definition tracker_len (t : RateTracker) : nat :=
  foldr (fun s n => (length (entries s) + n)%nat) 0%nat (shards t).
End Rate.
Arguments Shard : clear implicits.
Arguments RateTracker : clear implicits.

(** ** Counting is exact *)

(** The events among [h] in the [k] ticks up to [tick]. *)
Definition window (h : list N) (tick k : N) : N :=
  N.of_nat (length (List.filter (fun t => (t <=? tick) && (tick <? t + k)) h)).
Definition at_tick (h : list N) (t : N) : N := N.of_nat (length (List.filter (N.eqb t) h)).
Definition cap (n : N) : N := n `min` u32_max.

(** The buckets of an entry hold the counts of its history, saturated. *)
Definition entry_ok (e : Entry) (h : list N) : Prop :=
  length (buckets e) = N.to_nat WINDOW /\ Forall (fun t => t <= last_tick e) h /\
  forall t, t <= last_tick e -> last_tick e < t + WINDOW ->
    bucket (buckets e) t = cap (at_tick h t).

(** Ticks closer than a window have different buckets. *)
Lemma bucket_index_inj t u :
  t mod WINDOW = u mod WINDOW -> t < u + WINDOW -> u < t + WINDOW -> t = u.
Proof.
  unfold WINDOW. intros H H1 H2.
  pose proof (N.div_mod t 60 ltac:(lia)). pose proof (N.div_mod u 60 ltac:(lia)).
  pose proof (N.mod_lt t 60 ltac:(lia)). pose proof (N.mod_lt u 60 ltac:(lia)).
  assert (t / 60 = u / 60) by nia. lia.
Qed.

Lemma bucket_set_eq e t v :
  length e = N.to_nat WINDOW -> bucket (set_bucket t v e) t = v.
Proof.
  intros Hl. unfold bucket, set_bucket. rewrite nth_lookup, list_lookup_insert_eq; [done|].
  rewrite Hl. pose proof (N.mod_lt t WINDOW ltac:(done)). lia.
Qed.

Lemma bucket_set_ne e t u v :
  t mod WINDOW <> u mod WINDOW -> bucket (set_bucket t v e) u = bucket e u.
Proof.
  intros H. unfold bucket, set_bucket. rewrite !nth_lookup, list_lookup_insert_ne; [done|]. lia.
Qed.

Lemma set_bucket_length t v e : length (set_bucket t v e) = length e.
Proof. unfold set_bucket. apply length_insert. Qed.

Lemma clear_from_spec e tick off n t :
  length e = N.to_nat WINDOW -> off + N.of_nat n <= WINDOW -> off + N.of_nat n <= tick + 1 ->
  t <= tick -> tick < t + WINDOW -> length (clear_from e tick off n) = N.to_nat WINDOW /\
  bucket (clear_from e tick off n) t =
  (if (t + off <=? tick) && (tick <? t + off + N.of_nat n) then 0 else bucket e t).
Proof.
  revert e off. induction n as [|n IH]; intros e off Hl Hw Htk Ht Htw; cbn [clear_from].
  { split; [done|].
    destruct (N.leb_spec (t + off) tick), (N.ltb_spec tick (t + off + N.of_nat 0)); cbn [andb];
      try done; lia. }
  destruct (IH (set_bucket (tick - off) 0 e) (off + 1)) as [IHl IHb];
    [by rewrite set_bucket_length|lia|lia|done|done|].
  split; [done|]. rewrite IHb. clear IHb IHl.
  destruct (decide (t = tick - off)) as [->|Hne].
  - rewrite bucket_set_eq by done.
    destruct (N.leb_spec (tick - off + (off + 1)) tick),
      (N.ltb_spec tick (tick - off + (off + 1) + N.of_nat n)),
      (N.leb_spec (tick - off + off) tick),
      (N.ltb_spec tick (tick - off + off + N.of_nat (S n))); cbn [andb]; try done; lia.
  - rewrite bucket_set_ne by (intros E; apply bucket_index_inj in E; lia).
    destruct (N.leb_spec (t + (off + 1)) tick), (N.ltb_spec tick (t + (off + 1) + N.of_nat n)),
      (N.leb_spec (t + off) tick), (N.ltb_spec tick (t + off + N.of_nat (S n))); cbn [andb];
      try done; lia.
Qed.

Lemma at_tick_snoc h t u : at_tick (h ++ [u]) t = at_tick h t + (if t =? u then 1 else 0).
Proof.
  unfold at_tick. rewrite List.filter_app, length_app. cbn. destruct (t =? u); cbn; lia.
Qed.

Lemma at_tick_zero h t : Forall (fun u => u < t) h -> at_tick h t = 0.
Proof.
  unfold at_tick. induction 1 as [|u l Hu _ IH]; [done|]. cbn.
  destruct (N.eqb_spec t u); [lia|done].
Qed.

Lemma cap_add a b : cap (cap a + b) = cap (a + b).
Proof. unfold cap. lia. Qed.

(** The buckets after the stale ones are cleared. *)
Lemma cleared_ok e h tick :
  entry_ok e h -> last_tick e < tick ->
  let b := clear_from (buckets e) tick 0 (N.to_nat ((tick - last_tick e) `min` WINDOW)) in
  length b = N.to_nat WINDOW /\
  forall t, t <= tick -> tick < t + WINDOW -> bucket b t = cap (at_tick h t).
Proof.
  intros (Hl & Hh & Hb) Hlt. cbv zeta. set (n := N.to_nat _).
  assert (Hn : N.of_nat n = (tick - last_tick e) `min` WINDOW) by (unfold n; lia).
  split.
  - apply (clear_from_spec (buckets e) tick 0 n tick); unfold WINDOW in *; lia || done.
  - intros t Ht Htw.
    destruct (clear_from_spec (buckets e) tick 0 n t) as [_ ->];
      [done|unfold WINDOW in *; lia|unfold WINDOW in *; lia|done|done|].
    destruct (N.leb_spec (t + 0) tick), (N.ltb_spec tick (t + 0 + N.of_nat n)); cbn [andb];
      try lia.
    + rewrite at_tick_zero; [done|]. eapply Forall_impl; [exact Hh|]. cbn.
      unfold WINDOW in *. intros u Hu. lia.
    + apply Hb; unfold WINDOW in *; lia.
Qed.

(** Counting an event keeps the buckets exact. *)
Lemma count_event_ok e h tick used :
  entry_ok e h -> last_tick e <= tick ->
  entry_ok (count_event e tick used) (h ++ [tick]) /\ last_tick (count_event e tick used) = tick.
Proof.
  intros Hok Hle. unfold count_event.
  set (e' := if last_tick e <? tick then _ else _).
  assert (He : e'.2 = tick /\ length e'.1 = N.to_nat WINDOW /\
    forall t, t <= tick -> tick < t + WINDOW -> bucket e'.1 t = cap (at_tick h t)).
  { unfold e'. destruct (N.ltb_spec (last_tick e) tick) as [Hlt|Hge].
    - split; [done|]. apply (cleared_ok e h tick Hok Hlt).
    - assert (E : last_tick e = tick) by lia. destruct Hok as (Hl & _ & Hb).
      rewrite E in Hb. cbn. auto. }
  destruct He as (-> & Hl & Hb). cbn [last_tick]. split; [|done].
  split; [by cbn [buckets]; rewrite set_bucket_length|]. split.
  - apply Forall_app. split; [|by repeat constructor].
    destruct Hok as (_ & Hh & _). eapply Forall_impl; [exact Hh|]. cbn. intros; lia.
  - cbn [buckets last_tick]. intros t Ht Htw. rewrite at_tick_snoc.
    destruct (N.eqb_spec t tick) as [->|Hne].
    + rewrite bucket_set_eq, Hb by done. unfold sat_add. apply cap_add.
    + rewrite bucket_set_ne by (intros E; apply bucket_index_inj in E; lia).
      rewrite Hb by done. by rewrite N.add_0_r.
Qed.

(** Events between [lo] and [lo + n] ticks back. *)
Definition between (h : list N) (tick lo n : N) : N :=
  N.of_nat (length (List.filter (fun t => (t + lo <=? tick) && (tick <? t + lo + n)) h)).

Lemma between_step h tick lo n :
  lo <= tick -> between h tick lo (n + 1) = at_tick h (tick - lo) + between h tick (lo + 1) n.
Proof.
  intros Hlo. unfold between, at_tick. induction h as [|t h IH]; [done|]. cbn.
  destruct (N.eqb_spec (tick - lo) t),
    (N.leb_spec (t + lo) tick), (N.ltb_spec tick (t + lo + (n + 1))),
    (N.leb_spec (t + (lo + 1)) tick), (N.ltb_spec tick (t + (lo + 1) + n)); cbn; lia.
Qed.

Lemma between_zero h tick lo : between h tick lo 0 = 0.
Proof.
  unfold between. induction h as [|t h IH]; [done|]. cbn.
  destruct (N.leb_spec (t + lo) tick), (N.ltb_spec tick (t + lo + 0)); cbn; lia.
Qed.

(** Summing exact buckets counts the events. *)
Lemma sum_from_exact b h tick lo n a :
  (forall t, t <= tick - lo -> tick < t + WINDOW -> bucket b t = cap (at_tick h t)) ->
  lo + N.of_nat n <= tick + 1 -> lo + N.of_nat n <= WINDOW ->
  sum_from b tick lo n (cap a) = cap (a + between h tick lo (N.of_nat n)).
Proof.
  revert lo a. induction n as [|n IH]; intros lo a Hb Ht Hw; cbn [sum_from].
  { rewrite between_zero. by rewrite N.add_0_r. }
  replace (N.of_nat (S n)) with (N.of_nat n + 1) by lia. rewrite between_step by lia.
  assert (E : bucket b (tick + WINDOW - lo) = bucket b (tick - lo)).
  { unfold bucket. replace (tick + WINDOW - lo) with (tick - lo + 1 * WINDOW) by lia.
    by rewrite N.Div0.mod_add. }
  rewrite E, Hb by lia. unfold sat_add.
  replace (N.min (cap a + cap (at_tick h (tick - lo))) u32_max)
    with (cap (a + at_tick h (tick - lo))) by (unfold cap; lia).
  rewrite IH; [f_equal; lia| |lia|lia]. intros t Htl Htw. apply Hb; lia.
Qed.

Lemma sum_from_zero b h tick lo n :
  (forall t, t <= tick - lo -> tick < t + WINDOW -> bucket b t = cap (at_tick h t)) ->
  lo + N.of_nat n <= tick + 1 -> lo + N.of_nat n <= WINDOW ->
  sum_from b tick lo n 0 = cap (between h tick lo (N.of_nat n)).
Proof. apply (sum_from_exact b h tick lo n 0). Qed.

Lemma between_window h tick k :
  Forall (fun t => t <= tick) h -> between h tick 0 (k `min` (tick + 1)) = window h tick k.
Proof.
  unfold between, window. induction 1 as [|t h Ht _ IH]; [done|]. cbn.
  destruct (N.leb_spec (t + 0) tick), (N.ltb_spec tick (t + 0 + k `min` (tick + 1))),
    (N.leb_spec t tick), (N.ltb_spec tick (t + k)); cbn; lia.
Qed.

Lemma at_tick_window h tick : at_tick h tick = window h tick 1.
Proof.
  unfold at_tick, window. f_equal. f_equal. apply List.filter_ext. intros t.
  destruct (N.eqb_spec tick t), (N.leb_spec t tick), (N.ltb_spec tick (t + 1)); cbn; lia || done.
Qed.

(** The snapshot a history calls for. *)
Definition exact_snapshot (h : list N) (tick : N) : RateSnapshot := {|
  last_1 := cap (window h tick 1); last_10 := cap (window h tick 10);
  last_60 := cap (window h tick 60) |}.

Lemma sum_span_exact e h tick k :
  entry_ok e h -> last_tick e = tick -> k <= WINDOW ->
  sum_span (buckets e) tick 0 k = cap (window h tick k).
Proof.
  intros (Hl & Hh & Hb) E Hk. unfold sum_span. rewrite E in Hh, Hb.
  rewrite (sum_from_zero _ h); [|intros; apply Hb; lia|lia|lia].
  by rewrite N.sub_0_r, N2Nat.id, between_window.
Qed.

Lemma snapshot_exact e h tick :
  entry_ok e h -> last_tick e = tick -> snapshot e tick = exact_snapshot h tick.
Proof.
  intros Hok E. unfold snapshot, exact_snapshot.
  rewrite !(sum_span_exact e h) by (done || (unfold WINDOW; lia)).
  destruct Hok as (_ & _ & Hb). rewrite Hb by (unfold WINDOW; lia). by rewrite at_tick_window.
Qed.

(** Reading later than the last event: the events still in the window. *)
Lemma between_skip h tick lo k last :
  Forall (fun t => t <= last) h -> tick - last = lo -> last <= tick ->
  between h tick lo (k `min` (tick + 1) - lo) = window h tick k.
Proof.
  intros Hh Hlo Hle. unfold between, window. induction Hh as [|t h Ht _ IH]; [done|]. cbn.
  destruct (N.leb_spec (t + lo) tick), (N.ltb_spec tick (t + lo + (k `min` (tick + 1) - lo))),
    (N.leb_spec t tick), (N.ltb_spec tick (t + k)); cbn; lia.
Qed.

Lemma peek_exact e h tick :
  entry_ok e h -> last_tick e <= tick -> peek_entry e tick = exact_snapshot h tick.
Proof.
  intros (Hl & Hh & Hb) Hle. unfold peek_entry, exact_snapshot.
  set (stale := tick - last_tick e).
  assert (Hs : forall k, k <= WINDOW -> sum_span (buckets e) tick stale k = cap (window h tick k)).
  { intros k Hk. unfold sum_span. destruct (N.le_gt_cases (k `min` (tick + 1)) stale) as [Hc|Hc].
    - replace (k `min` (tick + 1) - stale) with 0 by lia. cbn.
      rewrite <- (between_skip h tick stale k (last_tick e)); [|done|done|done].
      replace (k `min` (tick + 1) - stale) with 0 by lia. by rewrite between_zero.
    - rewrite (sum_from_zero _ h).
      + rewrite N2Nat.id, (between_skip h tick stale k (last_tick e)); [done|done|done|done].
      + intros t H1 H2. apply Hb; lia.
      + lia.
      + lia. }
  rewrite !Hs by (unfold WINDOW; lia). f_equal. rewrite <- at_tick_window.
  destruct (N.eqb_spec stale 0).
  - apply Hb; unfold WINDOW; lia.
  - rewrite at_tick_zero; [done|]. eapply Forall_impl; [exact Hh|]. cbn. intros; lia.
Qed.

(** ** Tables *)

Section RateFacts.
Context {K : Type} `{!EqDecision K}.
Implicit Types l : list (K * Entry).

Lemma lookup_remove_ne k k' l : k <> k' -> lookup_key k (remove_key k' l) = lookup_key k l.
Proof.
  intros Hne. unfold lookup_key, list_find_bool, remove_key.
  induction l as [|[x e] l IH]; [done|]. cbn. case_bool_decide as E1; cbn.
  - subst. by rewrite IH, bool_decide_eq_false_2.
  - by case_bool_decide.
Qed.

Lemma lookup_put_eq k v l : lookup_key k (put_key k v l) = Some v.
Proof. unfold lookup_key, list_find_bool, put_key. cbn. by rewrite bool_decide_eq_true_2. Qed.

Lemma lookup_put_ne k k' v l : k <> k' -> lookup_key k (put_key k' v l) = lookup_key k l.
Proof.
  intros Hne. rewrite <- (lookup_remove_ne k k' l Hne). unfold lookup_key, list_find_bool, put_key.
  cbn. by rewrite bool_decide_eq_false_2.
Qed.

Lemma lookup_filter k p l :
  NoDup l.*1 -> lookup_key k (List.filter p l) = lookup_key k l \/
                lookup_key k (List.filter p l) = None.
Proof.
  unfold lookup_key, list_find_bool. induction l as [|[x e] l IH]; cbn; [auto|].
  intros [Hx Hn]%NoDup_cons. destruct (p (x, e)); cbn; [by case_bool_decide; auto|].
  case_bool_decide as E; [|auto]. subst. right.
  clear IH Hn. induction l as [|[y e'] l IH]; cbn; [done|].
  rewrite fmap_cons, not_elem_of_cons in Hx. destruct Hx as [Hy Hx].
  destruct (p (y, e')); cbn; [|auto]. rewrite bool_decide_eq_false_2 by (cbn in Hy; congruence). auto.
Qed.

Lemma lookup_key_in k l : is_Some (lookup_key k l) <-> k ∈ l.*1.
Proof.
  unfold lookup_key, list_find_bool. induction l as [|[x e] l IH]; cbn.
  - rewrite elem_of_nil. split; [by intros []|done].
  - rewrite elem_of_cons. case_bool_decide as E; cbn.
    + split; [by left|by eexists].
    + rewrite IH. split; [by right|]. by intros [->|].
Qed.

Lemma filter_keys_nodup p l : NoDup l.*1 -> NoDup (List.filter p l).*1.
Proof.
  induction l as [|[x e] l IH]; cbn; [done|]. intros [Hx Hn]%NoDup_cons.
  destruct (p (x, e)); cbn; [|auto]. constructor; [|auto].
  intros (y & -> & Hy)%list_elem_of_fmap. apply Hx, list_elem_of_fmap. exists y. split; [done|].
  rewrite list_elem_of_In, filter_In, <- list_elem_of_In in Hy. tauto.
Qed.

Lemma filter_le p l : (length (List.filter p l) <= length l)%nat.
Proof. induction l as [|a l IH]; cbn; [lia|]. destruct (p a); cbn; lia. Qed.

Lemma remove_key_lt k l : k ∈ l.*1 -> (length (remove_key k l) < length l)%nat.
Proof.
  unfold remove_key. induction l as [|[x e] l IH]; cbn; [by intros ?%elem_of_nil|].
  intros Hk. pose proof (filter_le (fun y => negb (bool_decide (y.1 = k))) l) as Hle.
  case_bool_decide as E; cbn; [lia|].
  apply elem_of_cons in Hk as [Hk|Hk]; [by subst|]. specialize (IH Hk). lia.
Qed.

Lemma oldest_some l e : oldest l = Some e -> e ∈ l.
Proof.
  revert e. induction l as [|x l IH]; intros e; cbn; [done|].
  destruct (oldest l) as [y|]; [destruct (_ <? _)|]; intros [= <-]; rewrite elem_of_cons; auto.
Qed.
Lemma oldest_none l : oldest l = None -> l = [].
Proof. destruct l as [|x l]; [done|]. cbn. destruct (oldest l); [|done]. by destruct (_ <? _). Qed.

(** Evicting makes room in a table that is not empty. *)
Lemma evict_room l tick : l <> [] -> (length (evict l tick) < length l)%nat.
Proof.
  intros Hne. unfold evict. set (f := List.filter _ l).
  pose proof (filter_le (fun e => tick <? last_tick e.2 + WINDOW) l) as Hle. fold f in Hle.
  destruct (oldest f) as [[k e]|] eqn:E.
  - apply oldest_some in E. assert (length (remove_key k f) < length f)%nat; [|lia].
    apply remove_key_lt, list_elem_of_fmap. by exists (k, e).
  - apply oldest_none in E. rewrite E. destruct l; [done|]. cbn. lia.
Qed.

Lemma evict_nodup l tick : NoDup l.*1 -> NoDup (evict l tick).*1.
Proof.
  intros H. unfold evict. destruct (oldest _) as [[k e]|]; repeat apply filter_keys_nodup; done.
Qed.

Lemma evict_lookup k l tick :
  NoDup l.*1 -> lookup_key k (evict l tick) = lookup_key k l \/ lookup_key k (evict l tick) = None.
Proof.
  intros H. unfold evict. set (f := List.filter _ l).
  assert (Hf : lookup_key k f = lookup_key k l \/ lookup_key k f = None) by by apply lookup_filter.
  destruct (oldest f) as [[x e]|]; [|done].
  destruct (lookup_filter k (fun y => negb (bool_decide (y.1 = x))) f) as [E|E];
    [by apply filter_keys_nodup| |by right].
  unfold remove_key. rewrite E. done.
Qed.

(** A shard within its capacity. *)
Definition shard_ok (capacity : nat) (s : Shard K) : Prop :=
  NoDup (entries s).*1 /\ (length (entries s) <= capacity)%nat.

Lemma record_at_shard_ok capacity s k tick :
  (1 <= capacity)%nat -> shard_ok capacity s -> shard_ok capacity (record_at capacity s k tick).2.
Proof.
  intros Hc [Hn Hl]. unfold record_at, shard_ok. cbn.
  set (l := room capacity s k tick).
  assert (H : NoDup l.*1 /\ (k ∈ l.*1 /\ (length l <= capacity)%nat \/ (length l < capacity)%nat)).
  { unfold l, room. case_bool_decide as Hk; cbn [negb andb].
    - split; [done|]. left. by rewrite lookup_key_in in Hk.
    - destruct (Nat.leb_spec capacity (length (entries s))); [|split; [done|right; lia]].
      split; [by apply evict_nodup|]. right.
      assert (Hne : entries s <> []) by (intros E; rewrite E in *; cbn in *; lia).
      pose proof (evict_room (entries s) tick Hne). lia. }
  destruct H as [Hnl Hroom]. unfold put_key. cbn. split.
  - constructor; [|by apply filter_keys_nodup].
    intros (y & -> & Hy)%list_elem_of_fmap.
    rewrite list_elem_of_In in Hy. apply filter_In in Hy as [_ Hy].
    by rewrite bool_decide_eq_true_2 in Hy.
  - destruct Hroom as [[Hk Hle]|Hlt].
    + pose proof (remove_key_lt k l Hk). lia.
    + pose proof (filter_le (fun y => negb (bool_decide (y.1 = k))) l). unfold remove_key. lia.
Qed.

(** Rates are exact and independent. While ticks do not go back, recording an
    event answers with the number of events of the key in the last 1, 10 and 60
    buckets, itself included (saturating at the width of the counter), and so
    does any later reading; other keys keep their counts or, when the table was
    full, are dropped. [h] is the key's history since its entry was made. *)
Theorem record_at_exact capacity (s : Shard K) k tick h :
  NoDup (entries s).*1 ->
  match lookup_key k (entries s) with
  | Some e => entry_ok e h /\ last_tick e <= tick
  | None => h = []
  end ->
  let '(snap, s') := record_at capacity s k tick in
  snap = exact_snapshot (h ++ [tick]) tick /\
  (exists e, lookup_key k (entries s') = Some e /\ entry_ok e (h ++ [tick]) /\ last_tick e = tick) /\
  (forall later, tick <= later -> peek_at s' k later = exact_snapshot (h ++ [tick]) later) /\
  (forall k', k' <> k -> lookup_key k' (entries s') = lookup_key k' (entries s) \/
                         lookup_key k' (entries s') = None).
Proof.
  intros Hn Hh. unfold record_at. set (l := room capacity s k tick).
  assert (Hlk : lookup_key k l = lookup_key k (entries s)).
  { unfold l, room. case_bool_decide as Hk; cbn [negb andb]; [done|].
    destruct (_ <=? _)%nat; [|done]. apply eq_None_not_Some in Hk. rewrite Hk.
    destruct (evict_lookup k (entries s) tick Hn) as [E|E]; congruence. }
  assert (Hother : forall k', lookup_key k' l = lookup_key k' (entries s) \/ lookup_key k' l = None).
  { intros k'. unfold l, room. destruct (negb _ && _); [by apply evict_lookup|by left]. }
  cbn [fst snd]. rewrite Hlk. set (e0 := default _ _).
  assert (He0 : entry_ok e0 h /\ last_tick e0 <= tick).
  { unfold e0. destruct (lookup_key k (entries s)) as [e|]; [done|]. subst h. cbn.
    split; [|lia]. split; [done|]. split; [constructor|]. intros t _ _.
    unfold bucket. rewrite nth_lookup. cbn [buckets].
    destruct (empty_buckets !! _) eqn:E; [|done]. apply lookup_replicate in E as [-> _]. done. }
  destruct He0 as [Hok Hle]. destruct (count_event_ok e0 h tick (used s + 1) Hok Hle) as [Hok' Ht'].
  cbn [fst snd entries used]. split; [by apply snapshot_exact|]. split; [|split].
  - rewrite lookup_put_eq. eauto.
  - intros later Hlater. unfold peek_at. cbn [entries]. rewrite lookup_put_eq.
    apply peek_exact; [done|]. lia.
  - intros k' Hne. rewrite lookup_put_ne by done. apply Hother.
Qed.

(** Every shard of the tracker is within its capacity. *)
Definition tracker_ok (t : RateTracker K) : Prop :=
  length (shards t) = N.to_nat SHARD_COUNT /\ (1 <= shard_capacity t)%nat /\
  Forall (shard_ok (shard_capacity t)) (shards t).

Lemma tracker_new_ok capacity : tracker_ok (tracker_new capacity).
Proof.
  split; [apply length_replicate|]. split; [cbn; lia|].
  apply Forall_replicate. split; [constructor|cbn; lia].
Qed.

Lemma tracker_len_le (n : nat) (l : list (Shard K)) :
  Forall (shard_ok n) l -> (foldr (fun s m => (length (entries s) + m)%nat) 0%nat l <= n * length l)%nat.
Proof. induction 1 as [|s l [_ Hs] _ IH]; cbn; lia. Qed.

Lemma tracker_record_ok (hash : K -> N) (t : RateTracker K) k tick :
  tracker_ok t ->
  tracker_ok (tracker_record hash t k tick).2 /\
  shard_capacity (tracker_record hash t k tick).2 = shard_capacity t.
Proof.
  intros (Hl & Hc & Hs). unfold tracker_record.
  destruct (record_at _ _ _ _) as [snap s'] eqn:E. cbn [snd]. split; [|done].
  split; cbn [shards shard_capacity]; [by rewrite length_insert|]. split; [done|].
  apply Forall_insert; [done|].
  pose proof (record_at_shard_ok (shard_capacity t)
    (default shard_default (shards t !! N.to_nat (hash k mod SHARD_COUNT))) k tick Hc) as Hr.
  rewrite E in Hr. apply Hr. destruct (shards t !! _) as [s|] eqn:Es; cbn.
  - eapply Forall_lookup_1; eassumption.
  - split; [constructor|cbn; lia].
Qed.

Lemma tracker_run_ok (hash : K -> N) (events : list (K * N)) (t : RateTracker K) :
  tracker_ok t ->
  let t' := foldl (fun t '(k, tick) => (tracker_record hash t k tick).2) t events in
  tracker_ok t' /\ shard_capacity t' = shard_capacity t.
Proof.
  revert t. induction events as [|[k tick] events IH]; intros t Ht; cbn [foldl]; [done|].
  destruct (tracker_record_ok hash t k tick Ht) as [H1 H2]. destruct (IH _ H1) as [H3 H4].
  split; [done|]. congruence.
Qed.

(** The rate table is bounded: however many hosts and networks send
    requests, the tracker never holds more than 64 entries above the configured
    capacity. *)
Theorem tracker_bounded (hash : K -> N) capacity (events : list (K * N)) :
  let t := foldl (fun t '(k, tick) => (tracker_record hash t k tick).2) (tracker_new capacity) events in
  tracker_ok t /\ N.of_nat (tracker_len t) <= capacity + 64.
Proof.
  cbv zeta.
  destruct (tracker_run_ok hash events (tracker_new capacity) (tracker_new_ok capacity)) as [Hok Hcap].
  split; [exact Hok|]. destruct Hok as (Hl & _ & Hs). apply tracker_len_le in Hs.
  unfold tracker_len. rewrite Hcap, Hl in Hs. cbn [tracker_new shard_capacity] in Hs.
  unfold SHARD_COUNT in *. change (N.to_nat 64) with 64%nat in Hs.
  set (total := foldr _ _ _) in *. set (q := (capacity + 64 - 1) / 64) in *.
  pose proof (N.div_mod (capacity + 64 - 1) 64 ltac:(lia)).
  pose proof (N.mod_lt (capacity + 64 - 1) 64 ltac:(lia)). fold q in H. clearbody total q. clear Hl Hcap.
  set (r := (_ mod 64)) in *. clearbody r.
  assert (N.of_nat total <= (q `max` 1) * 64) by lia. destruct (N.max_spec q 1) as [[? E]|[? E]]; rewrite E in *; lia.
Qed.
End RateFacts.

(** A second event of one key, three ticks after its first. *)
Definition example_shard : Shard nat := (record_at 4 shard_default 7%nat 100).2.

Lemma record_at_exact_witness :
  (record_at 4 example_shard 7%nat 103).1 = {| last_1 := 1; last_10 := 2; last_60 := 2 |}.
Proof.
  pose proof (record_at_exact 4 shard_default 7%nat 100 []) as H0.
  destruct (record_at 4 shard_default 7%nat 100) as [s0 sh] eqn:E0.
  assert (Esh : example_shard = sh) by (unfold example_shard; by rewrite E0).
  destruct H0 as (_ & (e & Hlk & He & Ht) & _); [constructor|done|].
  pose proof (record_at_exact 4 sh 7%nat 103 [100]) as H1. rewrite Esh.
  destruct (record_at 4 sh 7%nat 103) as [s1 sh1] eqn:E1.
  destruct H1 as (-> & _).
  - rewrite <- Esh. apply NoDup_singleton.
  - rewrite Hlk. split; [exact He|lia].
  - reflexivity.
Defined.
