(* ===== verification/Rule.v ===== *)
(** * Rules of the web plane

    [crates/bagel-web/src/rule]: the actions a rule can take and how they are
    read ([action.rs]), the compilation of conditions against the policy's
    prelude ([condition.rs]) and of rule trees ([mod.rs]). The [rhai] engine,
    the header types of the [http] crate and [regex] are parameters. *)

From S2P Require Import Prelude Core ThirdParty.

Local Open Scope N_scope.

(** [str::to_lowercase], to the extent a comparison with ASCII text sees it: the
    Kelvin sign is the only character outside ASCII with an ASCII lowercase.
    Other characters are kept; they differ from the source's only in the text
    of an error message. *)
Fixpoint to_lowercase (s : string) : string :=
  match s with
  | EmptyString => EmptyString
  | String a s1 =>
      match s1 with
      | String b (String c rest) =>
          if (byte_of a =? 226) && (byte_of b =? 132) && (byte_of c =? 170)
          then String "k" (to_lowercase rest)
          else String (char_to_ascii_lowercase a) (to_lowercase s1)
      | _ => String (char_to_ascii_lowercase a) (to_lowercase s1)
      end
  end.

(** ** Interfaces *)

(** The nodes [AST::walk] visits, with the position the message shows. *)
Record FnCallExpr : Type := { call_name : string; call_args : N; is_op : bool }.
Inductive AstNode : Type :=
| NodeVariable (local : bool) (name position : string)
| NodeFnCall (call : FnCallExpr) (position : string)
| NodeMethodCall (call : FnCallExpr) (position : string)
| NodeOther.

(** [rhai]: a condition may change the scope it is evaluated in. *)
Class RhaiApi : Type := {
  AST : Type;
  Scope : Type;
  Constants : Type;
  compile_expression_with_scope : Constants -> string -> result string AST;
  ast_merge : AST -> AST -> AST;
  ast_walk : AST -> list AstNode;
  eval_ast_with_scope : Scope -> AST -> result string bool * Scope;
}.

(** [http]: what a header's name and value read as. *)
Class HeaderApi : Type := {
  header_name : string -> option string;
  header_value : string -> option string;
}.

(** [HeaderMap] as name and value pairs; the order of different names is not
    observable. [insert] replaces every value of the name. *)
Definition HeaderMap : Type := list (string * string).
Definition header_insert (k v : string) (m : HeaderMap) : HeaderMap :=
  List.filter (fun e => negb (String.eqb e.1 k)) m ++ [(k, v)].
Definition header_extend (add m : HeaderMap) : HeaderMap :=
  foldl (fun m e => header_insert e.1 e.2 m) m add.

(** ** Configuration *)

Record RuleSettings : Type := {
  http_code : option N;
  pass_action : option string;
  fail_action : option string;
  response_headers : list (string * string);
  request_headers : list (string * string);
  match_re : option string;
  rewrite : option string;
  backend : option string;
  maze : option string;
  kind : option string;
  difficulty : option N;
}.

Inductive RuleConfig : Type := MkRuleConfig {
  rc_name : string;
  rc_condition : option string;
  rc_action : string;
  rc_challenges : list string;
  rc_settings : RuleSettings;
  rc_children : list RuleConfig;
}.

(** ** Actions *)

Section Actions.
Context {RX : RegexApi} {HA : HeaderApi}.

Inductive Action : Type :=
| ANone
| APass
| ADeny (code : N)
| ABlock (code : N)
| ACode (code : N)
| ADrop
| ATarpit (maze : string)
| ASmear
| ALure (maze : string)
| ABeacon
| AProxy (match_re : option Regex) (rewrite backend : string)
| AContext (response_headers request_headers : HeaderMap)
| AChallenge (ca : ChallengeAction)
| ACheck (ca : ChallengeAction)
| AReport (kind : string)
with ChallengeAction : Type :=
| MkChallengeAction (challenges : list string) (http_code : N) (difficulty : option N)
    (pass_action fail_action : Action).

(** [Action::label]. *)
Definition label (a : Action) : string :=
  match a with
  | ANone => "none"
  | APass => "pass"
  | ADeny _ => "deny"
  | ABlock _ => "block"
  | ACode _ => "code"
  | ADrop => "drop"
  | ATarpit _ => "tarpit"
  | ASmear => "smear"
  | ALure _ => "lure"
  | ABeacon => "beacon"
  | AProxy _ _ _ => "proxy"
  | AContext _ _ => "context"
  | AChallenge _ => "challenge"
  | ACheck _ => "check"
  | AReport _ => "report"
  end.

(** [Option::filter] on a name that must not be empty, then [ok_or]. *)
Definition required (name : option string) (message : string) : result string string :=
  match name with
  | Some s => if str_is_empty s then Err message else Ok s
  | None => Err message
  end.

Definition sub_action (setting maze : option string) (default : Action) (kind : string) :
    result string Action :=
  match setting with
  | None => Ok default
  | Some s =>
      if String.eqb s "pass" then Ok APass
      else if String.eqb s "deny" then Ok (ADeny 403)
      else if String.eqb s "block" then Ok (ABlock 403)
      else if String.eqb s "drop" then Ok ADrop
      else if String.eqb s "smear" then Ok ASmear
      else if String.eqb s "tarpit" then
        m ← required maze ("tarpit " +:+ kind +:+ "-action requires a maze"); Ok (ATarpit m)
      else Err ("unknown " +:+ kind +:+ "-action '" +:+ s +:+ "'")
  end.

Fixpoint parse_headers_go (pairs : list (string * string)) (kind : string) (headers : HeaderMap) :
    result string HeaderMap :=
  match pairs with
  | [] => Ok headers
  | (key, value) :: pairs =>
      name ← ok_or ("invalid " +:+ kind +:+ " header name '" +:+ key +:+ "'") (header_name key);
      val ← ok_or ("invalid " +:+ kind +:+ " header value for '" +:+ key +:+ "'")
              (header_value value);
      parse_headers_go pairs kind (header_insert name val headers)
  end.
Definition parse_headers (pairs : list (string * string)) (kind : string) :
    result string HeaderMap := parse_headers_go pairs kind [].

Definition report_kind_char (c : ascii) : bool :=
  is_ascii_lowercase c || is_ascii_digit c || char_eqb c "_" || char_eqb c "-".

Definition nonempty (o : option string) : bool :=
  match o with Some s => negb (str_is_empty s) | None => false end.

(** The arm of [Action::parse] for [challenge] and [check]. *)
Definition parse_challenge (settings : RuleSettings) (challenges : list string)
    (default_http_code : N) : result string ChallengeAction :=
  pass ← sub_action (pass_action settings) (maze settings) APass "pass";
  fail ← sub_action (fail_action settings) (maze settings) (ADeny 403) "fail";
  Ok (MkChallengeAction challenges (default default_http_code (http_code settings))
        (difficulty settings) pass fail).

(** The arm for [proxy]. *)
Definition parse_proxy (settings : RuleSettings) : result string Action :=
  b ← required (backend settings) "proxy action requires a backend";
  re ← match match_re settings with
       | Some p => Some <$> map_err (fun e => "invalid proxy match regex: " +:+ e) (regex_new p)
       | None => Ok None
       end;
  if negb (Bool.eqb (is_some re) (is_some (rewrite settings)))
  then Err "proxy match and rewrite must be configured together"
  else Ok (AProxy re (default "" (rewrite settings)) b).

(** [Action::parse]. *)
Definition action_parse (action_str : string) (settings : RuleSettings) (challenges : list string)
    (default_http_code : N) : result string Action :=
  if negb (eq_ignore_ascii_case action_str "report") && is_some (kind settings) then
    Err "kind is only valid on the report action"
  else
  let challenging := eq_ignore_ascii_case action_str "challenge"
                     || eq_ignore_ascii_case action_str "check" in
  if negb challenging && is_some (difficulty settings) then
    Err "difficulty is only valid on the challenge and check actions"
  else
  let s := to_lowercase action_str in
  let code := default 403 (http_code settings) in
  if String.eqb s "none" then Ok ANone
  else if String.eqb s "pass" then Ok APass
  else if String.eqb s "deny" then Ok (ADeny code)
  else if String.eqb s "block" then Ok (ABlock code)
  else if String.eqb s "code" then Ok (ACode code)
  else if String.eqb s "drop" then Ok ADrop
  else if String.eqb s "tarpit" then
    m ← required (maze settings) "tarpit action requires a maze"; Ok (ATarpit m)
  else if String.eqb s "lure" then
    m ← required (maze settings) "lure action requires a maze"; Ok (ALure m)
  else if String.eqb s "beacon" then Ok ABeacon
  else if String.eqb s "smear" then
    if nonempty (maze settings) || nonempty (backend settings) ||
       is_some (match_re settings) || is_some (rewrite settings)
    then Err "smear action takes no maze, backend, match, or rewrite"
    else Ok ASmear
  else if String.eqb s "report" then
    k ← required (kind settings) "report action requires a kind";
    if negb (str_all report_kind_char k)
    then Err "report kind must be lowercase ascii, digits, `-` or `_`"
    else Ok (AReport k)
  else if String.eqb s "proxy" then parse_proxy settings
  else if String.eqb s "context" then
    resp ← parse_headers (response_headers settings) "response";
    req ← parse_headers (request_headers settings) "request";
    Ok (AContext resp req)
  else if String.eqb s "challenge" || String.eqb s "check" then
    ca ← parse_challenge settings challenges default_http_code;
    Ok (if eq_ignore_ascii_case action_str "check" then ACheck ca else AChallenge ca)
  else Err ("unknown action '" +:+ s +:+ "'").
End Actions.

(** ** Conditions *)

Section Conditions.
Context {RH : RhaiApi}.

Definition BINDINGS : list string :=
  ["host"; "method"; "path"; "query"; "user_agent"; "remote_address"; "http_version"; "headers";
   "fp"; "networks"; "rate"; "claim"; "census"; "probe"; "pow"; "solves"; "visit"; "poison";
   "lease"; "crawler"; "trap"].
Definition KEYWORD_FUNCTIONS : list string :=
  ["Fn"; "call"; "curry"; "type_of"; "is_def_fn"; "is_def_var"; "is_shared"; "eval"; "print";
   "debug"].

Record Prelude : Type := {
  constants : Constants;
  constant_names : list string;
  functions : list (string * N);
  lib : AST;
}.

Definition str_mem (s : string) (l : list string) : bool := existsb (String.eqb s) l.

(** [Prelude::unknown_call]. *)
Definition unknown_call (p : Prelude) (call : FnCallExpr) (arity : N) : option string :=
  let known := is_op call || str_contains_char "$" (call_name call)
               || str_mem (call_name call) KEYWORD_FUNCTIONS
               || existsb (fun f => String.eqb f.1 (call_name call) && (f.2 =? arity))
                    (functions p) in
  if known then None
  else Some ("unknown function '" +:+ call_name call +:+ "' taking " +:+ show_N arity
             +:+ " arguments").

(** The message of a node and where, in [Prelude::check]. *)
Definition check_node (p : Prelude) (n : AstNode) : option string :=
  match n with
  | NodeVariable false name position =>
      if str_mem name BINDINGS || str_mem name (constant_names p) then None
      else Some ("unknown variable '" +:+ name +:+ "' at " +:+ position)
  | NodeFnCall call position =>
      (fun m => m +:+ " at " +:+ position) <$> unknown_call p call (call_args call)
  | NodeMethodCall call position =>
      (fun m => m +:+ " at " +:+ position) <$> unknown_call p call (call_args call + 1)
  | _ => None
  end.
(** [Prelude::check]: the walk stops at the first problem. *)
Definition check (p : Prelude) (ast : AST) : result string unit :=
  match first_some (check_node p) (ast_walk ast) with
  | Some m => Err m
  | None => Ok tt
  end.
(** [Prelude::compile]. *)
Definition compile (p : Prelude) (expr : string) : result string AST :=
  ast ← map_err (fun e => "condition compile error: " +:+ e)
          (compile_expression_with_scope (constants p) expr);
  let ast := ast_merge ast (lib p) in
  check p ast ;; Ok ast.

(** [expr.map(compile).transpose()]. *)
Definition compile_opt (p : Prelude) (expr : option string) : result string (option AST) :=
  match expr with Some e => Some <$> compile p e | None => Ok None end.
End Conditions.

(** ** Rule trees *)

Section Rules.
Context {RX : RegexApi} {HA : HeaderApi} {RH : RhaiApi}.

Inductive RuleState : Type := MkRuleState {
  name : string;
  condition : option AST;
  action : Action;
  children : list RuleState;
}.

Definition full_name (parent_name name : string) : string :=
  if str_is_empty parent_name then name else parent_name +:+ "/" +:+ name.

(** [RuleState::build_rules], one rule at a time. *)
Fixpoint build_rule (p : Prelude) (code : N) (parent_name : string) (cfg : RuleConfig) :
    Result RuleState :=
  let full := full_name parent_name (rc_name cfg) in
  let wrap e := Error.Config ("rule '" +:+ full +:+ "': " +:+ e) in
  condition ← map_err wrap (compile_opt p (rc_condition cfg));
  action ← map_err wrap (action_parse (rc_action cfg) (rc_settings cfg) (rc_challenges cfg) code);
  children ← traverse (build_rule p code full) (rc_children cfg);
  Ok {| name := full; condition := condition; action := action; children := children |}.
Definition build_rules (p : Prelude) (configs : list RuleConfig) (code : N) (parent_name : string) :
    Result (list RuleState) :=
  traverse (build_rule p code parent_name) configs.
End Rules.

(** ** Facts about spellings *)

Lemma lowercase_char_idemp c :
  char_to_ascii_lowercase (char_to_ascii_lowercase c) = char_to_ascii_lowercase c.
Proof. by destruct c as [[] [] [] [] [] [] [] []]. Qed.

Lemma lowercase_char_ascii c : is_ascii c = true -> is_ascii (char_to_ascii_lowercase c) = true.
Proof. by destruct c as [[] [] [] [] [] [] [] []]. Qed.

Lemma to_ascii_lowercase_idemp s :
  to_ascii_lowercase (to_ascii_lowercase s) = to_ascii_lowercase s.
Proof. induction s as [|c s IH]; cbn; [done|]. by rewrite lowercase_char_idemp, IH. Qed.

Lemma to_ascii_lowercase_ascii s :
  str_all is_ascii s = true -> str_all is_ascii (to_ascii_lowercase s) = true.
Proof.
  induction s as [|c s IH]; [done|]. cbn [str_all to_ascii_lowercase].
  rewrite !andb_true_iff. intros [Hc Hs]. split; [by apply lowercase_char_ascii|by apply IH].
Qed.

(** On ASCII text the two notions of lowercase agree. *)
Lemma to_lowercase_ascii s : str_all is_ascii s = true -> to_lowercase s = to_ascii_lowercase s.
Proof.
  induction s as [|c s IH]; [done|]. cbn [str_all]. rewrite andb_true_iff. intros [Hc Hs].
  specialize (IH Hs).
  assert (E : (byte_of c =? 226) = false).
  { unfold is_ascii in Hc. apply N.ltb_lt in Hc. apply N.eqb_neq. lia. }
  cbn [to_lowercase to_ascii_lowercase]. rewrite E. cbn [andb].
  rewrite <- IH. by repeat case_match.
Qed.

Lemma eq_ignore_ascii_case_lower s t :
  eq_ignore_ascii_case (to_ascii_lowercase s) t = eq_ignore_ascii_case s t.
Proof. unfold eq_ignore_ascii_case. by rewrite to_ascii_lowercase_idemp. Qed.

(** A spelling that is [check] but for letter case. *)
Lemma lowercase_char_ascii_inv c :
  is_ascii (char_to_ascii_lowercase c) = true -> is_ascii c = true.
Proof. by destruct c as [[] [] [] [] [] [] [] []]. Qed.

Lemma to_ascii_lowercase_ascii_inv s :
  str_all is_ascii (to_ascii_lowercase s) = true -> str_all is_ascii s = true.
Proof.
  induction s as [|c s IH]; [done|]. cbn [str_all to_ascii_lowercase].
  rewrite !andb_true_iff. intros [Hc Hs]. split; [by apply lowercase_char_ascii_inv|by apply IH].
Qed.

Lemma eq_ignore_check s : eq_ignore_ascii_case s "check" = true -> to_lowercase s = "check".
Proof.
  intros E%String.eqb_eq. change (to_ascii_lowercase "check") with "check" in E.
  rewrite to_lowercase_ascii; [done|]. apply to_ascii_lowercase_ascii_inv. by rewrite E.
Qed.

Section ActionFacts.
Context {RX : RegexApi} {HA : HeaderApi}.

(** An action is read from its lowercase spelling only. *)
Lemma action_parse_lower s st ch code :
  str_all is_ascii s = true ->
  action_parse s st ch code = action_parse (to_ascii_lowercase s) st ch code.
Proof.
  intros Ha. unfold action_parse. rewrite !eq_ignore_ascii_case_lower.
  rewrite (to_lowercase_ascii s Ha).
  rewrite (to_lowercase_ascii _ (to_ascii_lowercase_ascii s Ha)).
  by rewrite to_ascii_lowercase_idemp.
Qed.

(** What a challenge does once it is decided. *)
Definition sub_action_wf (a : Action) : Prop :=
  match a with
  | APass | ADrop | ASmear => True
  | ADeny c | ABlock c => c = 403
  | ATarpit m => m <> ""
  | _ => False
  end.

(** The parameters an action needs are there. *)
Definition action_wf (a : Action) : Prop :=
  match a with
  | ATarpit m | ALure m => m <> ""
  | AProxy re rw b => b <> "" /\ (re = None -> rw = "")
  | AReport k => k <> "" /\ str_all report_kind_char k = true
  | AChallenge (MkChallengeAction _ _ _ p f) | ACheck (MkChallengeAction _ _ _ p f) =>
      sub_action_wf p /\ sub_action_wf f
  | _ => True
  end.

Lemma required_ok o m s : required o m = Ok s -> s <> "".
Proof. destruct o as [[|c o]|]; cbn; by intros [= <-]. Qed.

Lemma sub_action_ok setting m d k a :
  sub_action setting m d k = Ok a -> sub_action_wf d -> sub_action_wf a.
Proof.
  unfold sub_action. intros H Hd.
  repeat (case_match; inv_result; cbn; try done). by eapply required_ok.
Qed.

Lemma parse_challenge_ok st ch code ca :
  parse_challenge st ch code = Ok ca -> action_wf (AChallenge ca).
Proof.
  unfold parse_challenge. intros H. inv_result. cbn.
  by split; eapply sub_action_ok; eauto.
Qed.

Lemma parse_proxy_ok st a : parse_proxy st = Ok a -> label a = "proxy" /\ action_wf a.
Proof.
  unfold parse_proxy. intros H. inv_result. apply required_ok in Ha.
  destruct (negb _) eqn:E; inv_result. split; [done|]. cbn. split; [done|].
  intros ->. by destruct (rewrite st).
Qed.

(** The spelling, except that a Kelvin sign in [check] reads as [challenge]. *)
Lemma action_parse_wf s st ch code a :
  action_parse s st ch code = Ok a ->
  action_wf a /\
  (label a = to_lowercase s \/ to_lowercase s = "check" /\ label a = "challenge").
Proof.
  unfold action_parse. intros H.
  destruct (negb (eq_ignore_ascii_case s "report") && _); [done|].
  destruct (negb _ && _); [done|]. cbv zeta in H.
  do 12 try match type of H with
  | (if String.eqb ?x ?y then _ else _) = _ =>
      destruct (String.eqb_spec x y) as [E|_]; [rewrite E; clear E|]
  end.
  all: try (injection H as <-; split; [exact I|by left]).
  - inv_result. apply required_ok in Ha. by split; [|left].
  - inv_result. apply required_ok in Ha. by split; [|left].
  - destruct (_ || _); [done|]. injection H as <-. by split; [|left].
  - inv_result. apply required_ok in Ha. destruct (negb _) eqn:K; inv_result.
    apply negb_false_iff in K. by split; [|left].
  - apply parse_proxy_ok in H as [-> ?]. by split; [|left].
  - destruct (String.eqb_spec (to_lowercase s) "context") as [E|_].
    { inv_result. rewrite E. by split; [|left]. }
    destruct (String.eqb_spec (to_lowercase s) "challenge") as [E|_];
      [|destruct (String.eqb_spec (to_lowercase s) "check") as [E|_]; [|done]]; cbn [orb] in H;
      inv_result; apply parse_challenge_ok in Ha; rewrite E.
    + destruct (eq_ignore_ascii_case s "check") eqn:Ec; [|by split; [|left]].
      apply eq_ignore_check in Ec. congruence.
    + destruct a0 as [chs cd df ps fl]. destruct (eq_ignore_ascii_case s "check"); [by split; [|left]|].
      split; [done|]. by right.
Qed.

Lemma action_parse_label s st ch code (a : Action) :
  str_all is_ascii s = true -> action_parse s st ch code = Ok a -> label a = to_ascii_lowercase s.
Proof.
  intros Hs H. destruct (action_parse_wf s st ch code a H) as [_ Hl].
  rewrite (to_lowercase_ascii s Hs) in Hl. destruct Hl as [Hl|[Hc Hl]]; [done|].
  rewrite (action_parse_lower s st ch code Hs), Hc in H. revert H Hl. clear.
  unfold action_parse. cbn. destruct (is_some (kind st)); [done|]. cbn.
  destruct (parse_challenge st ch code) as [ca|e]; cbn; [|done]. by intros [= <-].
Qed.

(** Actions are read canonically. Whatever the letter case of an ASCII
    spelling, an accepted action prints as the lowercase spelling, reading that
    spelling with the same settings gives the same action back, and the action
    carries what it needs: mazes, backends and report kinds are present and well
    formed, and a challenge leads only to the six actions allowed after it. *)
Theorem action_parse_canonical s st ch code a :
  str_all is_ascii s = true -> action_parse s st ch code = Ok a ->
  label a = to_ascii_lowercase s /\ action_parse (label a) st ch code = Ok a /\ action_wf a.
Proof.
  intros Hs H. pose proof (action_parse_label s st ch code a Hs H) as E.
  rewrite E, <- action_parse_lower by done. repeat split; [done|].
  by eapply action_parse_wf.
Qed.
End ActionFacts.

(** ** Built rule trees *)

Section RuleConfigInd.
Variable P : RuleConfig -> Prop.
Hypothesis step : forall cfg, Forall P (rc_children cfg) -> P cfg.
Fixpoint rule_config_ind (cfg : RuleConfig) : P cfg :=
  step cfg ((fix go l : Forall P l :=
    match l with
    | [] => List.Forall_nil P
    | c :: l => List.Forall_cons P c l (rule_config_ind c) (go l)
    end) (rc_children cfg)).
End RuleConfigInd.

Section RuleFacts.
Context {RX : RegexApi} {HA : HeaderApi} {RH : RhaiApi}.

(** A compiled condition names only bindings, constants and functions that
    exist. *)
Definition known (p : Prelude) (ast : AST) : Prop :=
  Forall (fun n => check_node p n = None) (ast_walk ast).

Lemma first_some_none {A B} (f : A -> option B) l :
  first_some f l = None <-> Forall (fun a => f a = None) l.
Proof.
  induction l as [|a l IH]; cbn; [by rewrite Forall_nil|]. rewrite Forall_cons, <- IH.
  destruct (f a); [split; [done|by intros []]|tauto].
Qed.

Lemma compile_known p e ast : compile p e = Ok ast -> known p ast.
Proof.
  unfold compile. intros H. inv_result. unfold check in Ha0.
  destruct (first_some _ _) eqn:E; [done|]. by apply first_some_none.
Qed.

Definition condition_built (p : Prelude) (e : option string) (c : option AST) : Prop :=
  match e, c with
  | None, None => True
  | Some _, Some ast => known p ast
  | _, _ => False
  end.

Lemma compile_opt_built p e c : compile_opt p e = Ok c -> condition_built p e c.
Proof.
  destruct e as [e|]; cbn; [|by intros [= <-]].
  destruct (compile p e) as [ast|] eqn:E; cbn; [|done]. intros [= <-]. by eapply compile_known.
Qed.

(** A rule and the state built from it, under a parent of the given name. *)
Inductive built (p : Prelude) (parent : string) (cfg : RuleConfig) (r : RuleState) : Prop :=
| Built :
    name r = full_name parent (rc_name cfg) ->
    condition_built p (rc_condition cfg) (condition r) ->
    action_wf (action r) ->
    (str_all is_ascii (rc_action cfg) = true ->
     label (action r) = to_ascii_lowercase (rc_action cfg)) ->
    Forall2 (built p (name r)) (rc_children cfg) (children r) ->
    built p parent cfg r.

Lemma map_err_ok {E F A} (f : E -> F) (r : result E A) a : map_err f r = Ok a <-> r = Ok a.
Proof. destruct r; cbn; split; congruence. Qed.

Lemma build_rule_built p code parent cfg r :
  build_rule p code parent cfg = Ok r -> built p parent cfg r.
Proof.
  revert parent r. induction cfg as [cfg IH] using rule_config_ind. intros parent r H.
  destruct cfg as [nm cond act chs st kids]. cbn in H, IH. inv_result.
  apply map_err_ok, compile_opt_built in Ha. apply map_err_ok in Ha0.
  apply traverse_ok in Ha1. constructor; cbn; [done|done|by eapply action_parse_wf| |].
  - intros Hs. by eapply action_parse_label.
  - clear -IH Ha1. induction Ha1 as [|k r' kids rs Hk _ IHk]; [constructor|].
    apply Forall_cons in IH as [IH1 IH2]. constructor; [by apply IH1|by apply IHk].
Qed.

(** A loaded rule tree is the configured one, checked. When the rules build,
    the tree has the configured shape, each rule is named by its path, each
    condition is compiled and names only bindings, constants and functions that
    exist, and each action is the configured one with what it needs. *)
Theorem build_rules_checked p configs code rules :
  build_rules p configs code "" = Ok rules -> Forall2 (built p "") configs rules.
Proof.
  intros H%traverse_ok. eapply Forall2_impl; [exact H|]. intros cfg r. apply build_rule_built.
Qed.
End RuleFacts.

(** ** Concrete instances

    A condition is the name of one variable and a scope lists those that hold;
    every text is a header name and a value. *)
Module LiteralRule.
Definition rhai : RhaiApi := {|
  AST := string; Scope := list string; Constants := unit;
  compile_expression_with_scope := fun _ e => Ok e;
  ast_merge := fun a _ => a;
  ast_walk := fun a => [NodeVariable false a "1:1"];
  eval_ast_with_scope := fun s a =>
    (if str_mem a s then Ok true else if str_mem a BINDINGS then Ok false else Err "unbound", s);
|}.
Definition headers : HeaderApi := {|
  header_name := fun s => Some (to_ascii_lowercase s); header_value := Some |}.
Definition prelude : @Prelude rhai :=
  @Build_Prelude rhai tt [] [] "".
Definition settings : RuleSettings := {|
  http_code := None; pass_action := Some "tarpit"; fail_action := None; response_headers := [];
  request_headers := []; match_re := None; rewrite := None; backend := None;
  maze := Some "default"; kind := None; difficulty := Some 4 |}.
Definition no_settings : RuleSettings := {|
  http_code := None; pass_action := None; fail_action := None; response_headers := [];
  request_headers := []; match_re := None; rewrite := None; backend := None;
  maze := None; kind := None; difficulty := None |}.
Definition rules : list RuleConfig :=
  [MkRuleConfig "outer" (Some "path") "none" [] no_settings
     [MkRuleConfig "inner" (Some "trap") "Challenge" ["pow"] settings []]].
End LiteralRule.
#[local] Existing Instance Literal.regex.
#[local] Existing Instance LiteralRule.rhai.
#[local] Existing Instance LiteralRule.headers.

Lemma action_parse_canonical_witness :
  let a := AChallenge (MkChallengeAction ["pow"] 418 (Some 4) (ATarpit "default") (ADeny 403)) in
  label a = "challenge" /\ action_parse "challenge" LiteralRule.settings ["pow"] 418 = Ok a /\
  action_wf a.
Proof.
  exact (action_parse_canonical "chALLenge" LiteralRule.settings ["pow"] 418 _
           ltac:(vm_refl) ltac:(vm_refl)).
Defined.

(** A Kelvin sign in [check]: read as lowercase, not recognised as [check]. *)
Example kelvin_check_challenges :
  label <$> action_parse ("chec" +:+ bytes_string [226; 132; 170]) LiteralRule.no_settings ["pow"] 418
  = Ok "challenge".
Proof. vm_refl. Qed.

Definition example_rules : list RuleState :=
  from_ok (build_rules LiteralRule.prelude LiteralRule.rules 418 "") ltac:(vm_refl).
Lemma build_rules_checked_witness :
  Forall2 (built LiteralRule.prelude "") LiteralRule.rules example_rules.
Proof.
  apply (build_rules_checked LiteralRule.prelude LiteralRule.rules 418). apply from_ok_eq.
Defined.
