(* ===== verification/Scoring.v ===== *)
(** * Scorecards

    [crates/bagel-web/src/rule/scoring.rs]: loading scorecards, and scoring a
    request with the first one whose condition holds. *)

From S2P Require Import Prelude Core ThirdParty Rule Rate.

Local Open Scope N_scope.

Inductive ScoreMode : Type := Observe | Enforce.

(** ** Configuration *)

(** A weight is never zero; a signal without one only observes. *)
Record SignalConfig : Type := {
  sc_name : string; sc_condition : string; sc_weight : option N }.
Record ThresholdConfig : Type := {
  tc_value : N; tc_action : string; tc_challenges : list string; tc_settings : RuleSettings }.
Record ScorecardConfig : Type := {
  cc_name : string; cc_condition : option string; cc_mode : option string;
  cc_signals : list SignalConfig; cc_thresholds : list ThresholdConfig }.
Record ScoringConfig : Type := {
  cfg_rate_capacity : option N; cfg_scorecards : list ScorecardConfig }.

Definition FORBIDDEN_THRESHOLD_ACTIONS : list string :=
  ["none"; "context"; "check"; "pass"; "lure"; "beacon"].

(** [action_kind]. *)
Definition action_kind (action : string) : string :=
  if str_mem action ["challenge"; "deny"; "block"; "code"; "drop"; "proxy"; "tarpit"; "smear"]
  then action else "unknown".

Section Scoring.
Context {RX : RegexApi} {HA : HeaderApi} {RH : RhaiApi}.

Record SignalState : Type := { sg_name : string; sg_condition : AST; weight : N }.
Record ThresholdState : Type := { value : N; th_action : Action; th_kind : string }.
Record ScorecardState : Type := {
  sd_name : string; sd_condition : option AST; mode : ScoreMode;
  signals : list SignalState; thresholds : list ThresholdState }.
Record ScoringState : Type := { rate_capacity : N; scorecards : list ScorecardState }.

(** ** Loading *)

Definition card_mode (card : ScorecardConfig) : Result ScoreMode :=
  match cc_mode card with
  | None => Ok Observe
  | Some m =>
      if String.eqb m "observe" then Ok Observe
      else if String.eqb m "enforce" then Ok Enforce
      else Err (Error.Config ("scorecard '" +:+ cc_name card +:+ "': unknown mode '" +:+ m +:+ "'"))
  end.

(** The loop over the signals of a card, [names] being those seen. *)
Fixpoint build_signals (p : Rule.Prelude) (card : string) (names : list string)
    (l : list SignalConfig) : Result (list SignalState) :=
  match l with
  | [] => Ok []
  | s :: l =>
      if str_mem (sc_name s) names then
        Err (Error.Config ("scorecard '" +:+ card +:+ "': duplicate signal '" +:+ sc_name s +:+ "'"))
      else
        compiled ← map_err (fun e => Error.Config
          ("scorecard '" +:+ card +:+ "': signal '" +:+ sc_name s +:+ "': " +:+ e))
          (compile p (sc_condition s));
        rest ← build_signals p card (sc_name s :: names) l;
        Ok ({| sg_name := sc_name s; sg_condition := compiled;
               weight := default 0 (sc_weight s) |} :: rest)
  end.

Definition is_challenge (a : Action) : bool := match a with AChallenge _ => true | _ => false end.

Definition build_threshold (card : string) (code : N) (t : ThresholdConfig) :
    Result ThresholdState :=
  let kind := to_lowercase (tc_action t) in
  if str_mem kind FORBIDDEN_THRESHOLD_ACTIONS then
    Err (Error.Config ("scorecard '" +:+ card +:+ "': threshold " +:+ show_N (tc_value t)
      +:+ " may not use action '" +:+ kind +:+ "'"))
  else
    action ← map_err (fun e => Error.Config
      ("scorecard '" +:+ card +:+ "': threshold " +:+ show_N (tc_value t) +:+ ": " +:+ e))
      (action_parse (tc_action t) (tc_settings t) (tc_challenges t) code);
    if is_challenge action && (length (tc_challenges t) =? 0)%nat then
      Err (Error.Config ("scorecard '" +:+ card +:+ "': challenge threshold "
        +:+ show_N (tc_value t) +:+ " has no challenges"))
    else Ok {| value := tc_value t; th_action := action; th_kind := action_kind kind |}.

Fixpoint build_thresholds (card : string) (code : N) (values : list N)
    (l : list ThresholdConfig) : Result (list ThresholdState) :=
  match l with
  | [] => Ok []
  | t :: l =>
      if existsb (N.eqb (tc_value t)) values then
        Err (Error.Config ("scorecard '" +:+ card +:+ "': duplicate threshold value "
          +:+ show_N (tc_value t)))
      else
        th ← build_threshold card code t;
        rest ← build_thresholds card code (tc_value t :: values) l;
        Ok (th :: rest)
  end.

(** [sort_by_key] on the value; values are unique. *)
Fixpoint insert_threshold (t : ThresholdState) (l : list ThresholdState) : list ThresholdState :=
  match l with
  | [] => [t]
  | u :: l => if value t <=? value u then t :: u :: l else u :: insert_threshold t l
  end.
Definition sort_thresholds (l : list ThresholdState) : list ThresholdState :=
  foldr insert_threshold [] l.

Definition build_card (p : Rule.Prelude) (code : N) (card : ScorecardConfig) :
    Result ScorecardState :=
  mode ← card_mode card;
  condition ← map_err (fun e => Error.Config ("scorecard '" +:+ cc_name card +:+ "': " +:+ e))
                (compile_opt p (cc_condition card));
  signals ← build_signals p (cc_name card) [] (cc_signals card);
  thresholds ← build_thresholds (cc_name card) code [] (cc_thresholds card);
  Ok {| sd_name := cc_name card; sd_condition := condition; mode := mode; signals := signals;
        thresholds := sort_thresholds thresholds |}.

(** The loop over the cards: the names seen and the unconditional card, if one
    was met. *)
Fixpoint build_cards (p : Rule.Prelude) (code : N) (names : list string)
    (unconditional : option string) (l : list ScorecardConfig) : Result (list ScorecardState) :=
  match l with
  | [] => Ok []
  | card :: l =>
      if str_mem (cc_name card) names then
        Err (Error.Config ("duplicate scorecard '" +:+ cc_name card +:+ "'"))
      else
        match unconditional with
        | Some first =>
            Err (Error.Config ("scorecard '" +:+ cc_name card
              +:+ "' is unreachable after unconditional scorecard '" +:+ first +:+ "'"))
        | None =>
            c ← build_card p code card;
            let unconditional :=
              match sd_condition c with None => Some (cc_name card) | Some _ => None end in
            rest ← build_cards p code (cc_name card :: names) unconditional l;
            Ok (c :: rest)
        end
  end.

(** [ScoringState::build]. *)
Definition scoring_build (config : ScoringConfig) (p : Rule.Prelude) (default_http_code : N) :
    Result ScoringState :=
  let cap := default DEFAULT_CAPACITY (cfg_rate_capacity config) in
  if negb ((MIN_CAPACITY <=? cap) && (cap <=? MAX_CAPACITY)) then
    Err (Error.Config ("scoring rate-capacity " +:+ show_N cap +:+ " is outside "
      +:+ show_N MIN_CAPACITY +:+ "..=" +:+ show_N MAX_CAPACITY))
  else
    cards ← build_cards p default_http_code [] None (cfg_scorecards config);
    Ok {| rate_capacity := cap; scorecards := cards |}.

(** ** Scoring *)

Record ScoreResult : Type := {
  scorecard : ScorecardState; score : N; matched : list string; errors : list string;
  candidate : option ThresholdState }.

(** [find] over the cards; a condition that fails to evaluate does not hold. *)
Fixpoint find_card (scope : Scope) (l : list ScorecardState) : option ScorecardState * Scope :=
  match l with
  | [] => (None, scope)
  | c :: l =>
      match sd_condition c with
      | None => (Some c, scope)
      | Some ast =>
          match eval_ast_with_scope scope ast with
          | (Ok true, scope) => (Some c, scope)
          | (_, scope) => find_card scope l
          end
      end
  end.

(** The loop over the signals: the score, the signals that hold and those that
    fail, and the scope. *)
Fixpoint run_signals (scope : Scope) (total : N) (l : list SignalState) :
    N * list string * list string * Scope :=
  match l with
  | [] => (total, [], [], scope)
  | s :: l =>
      match eval_ast_with_scope scope (sg_condition s) with
      | (Ok true, scope) =>
          let '(t, m, e, scope) := run_signals scope (sat_add u32_max total (weight s)) l in
          (t, sg_name s :: m, e, scope)
      | (Ok false, scope) => run_signals scope total l
      | (Err _, scope) =>
          let '(t, m, e, scope) := run_signals scope total l in (t, m, sg_name s :: e, scope)
      end
  end.

(** [ScoringState::evaluate]. *)
Definition scoring_evaluate (st : ScoringState) (scope : Scope) : option ScoreResult * Scope :=
  match find_card scope (scorecards st) with
  | (None, scope) => (None, scope)
  | (Some card, scope) =>
      let '(total, matched, errors, scope) := run_signals scope 0 (signals card) in
      (Some {| scorecard := card; score := total; matched := matched; errors := errors;
               candidate := list_find_bool (fun t => value t <=? total) (rev (thresholds card)) |},
       scope)
  end.
End Scoring.

(** ** Facts about loading *)

Section ScoringFacts.
Context {RX : RegexApi} {HA : HeaderApi} {RH : RhaiApi}.

Definition threshold_labels : list string :=
  ["challenge"; "deny"; "block"; "code"; "drop"; "proxy"; "tarpit"; "smear"; "report"].

(** What a loaded threshold guarantees. *)
Definition threshold_ok (t : ThresholdState) : Prop :=
  label (th_action t) ∈ threshold_labels /\ action_wf (th_action t) /\
  th_kind t = action_kind (label (th_action t)) /\
  match th_action t with
  | AChallenge (MkChallengeAction challenges _ _ _ _) => challenges <> []
  | _ => True
  end.

(** What a loaded scorecard guarantees. *)
Definition card_ok (p : Rule.Prelude) (c : ScorecardState) : Prop :=
  match sd_condition c with Some ast => known p ast | None => True end /\
  NoDup (sg_name <$> signals c) /\ Forall (fun s => known p (sg_condition s)) (signals c) /\
  StronglySorted N.lt (value <$> thresholds c) /\ Forall threshold_ok (thresholds c).

Lemma str_mem_spec s l : str_mem s l = true <-> s ∈ l.
Proof.
  unfold str_mem. rewrite existsb_elem. split.
  - by intros (x & Hx & ->%String.eqb_eq).
  - intros H. exists s. by rewrite String.eqb_refl.
Qed.
Lemma str_mem_false s l : str_mem s l = false <-> s ∉ l.
Proof. rewrite <- str_mem_spec. by destruct (str_mem s l). Qed.

Lemma build_signals_ok p card names l sigs :
  build_signals p card names l = Ok sigs ->
  NoDup (sg_name <$> sigs) /\ (forall n, n ∈ sg_name <$> sigs -> n ∉ names) /\
  Forall (fun s => known p (sg_condition s)) sigs.
Proof.
  revert names sigs. induction l as [|s l IH]; intros names sigs H; cbn in H; inv_result.
  { repeat split; [constructor|by intros ? []%elem_of_nil|constructor]. }
  destruct (str_mem (sc_name s) names) eqn:E; [done|]. apply str_mem_false in E. inv_result.
  apply map_err_ok, compile_known in Ha. apply IH in Ha0 as (Hn & Hf & Hk). cbn. repeat split.
  - constructor; [|done]. intros Hin. apply (Hf _ Hin). left.
  - intros n [->|Hin]%elem_of_cons; [done|]. intros Hx. apply (Hf _ Hin). by right.
  - by constructor.
Qed.

Lemma parse_challenges s st ch code ca :
  action_parse s st ch code = Ok (AChallenge ca) ->
  match ca with MkChallengeAction challenges _ _ _ _ => challenges = ch end.
Proof.
  unfold action_parse. intros H. repeat (case_match; inv_result; try done).
  all: try (unfold parse_proxy in H; inv_result; by repeat (case_match; inv_result)).
  all: unfold parse_challenge in *; inv_result; by simplify_eq.
Qed.

Lemma build_threshold_ok card code t th :
  build_threshold card code t = Ok th -> threshold_ok th /\ value th = tc_value t.
Proof.
  unfold build_threshold. destruct (str_mem _ _) eqn:Hf; [done|]. intros H. inv_result.
  apply map_err_ok in Ha. destruct (_ && _) eqn:Hc; [done|]. inv_result. split; [|done].
  pose proof (action_parse_wf _ _ _ _ _ Ha) as [Hwf Hl]. apply str_mem_false in Hf.
  assert (E : label a = to_lowercase (tc_action t)).
  { destruct Hl as [Hl|[Hl _]]; [done|]. rewrite Hl in Hf. exfalso. apply Hf.
    apply str_mem_spec. vm_refl. }
  unfold threshold_ok. cbn. rewrite <- E. repeat split; [|done|].
  - rewrite <- E in Hf. apply str_mem_spec. apply str_mem_false in Hf. by destruct a.
  - destruct a; try done. destruct ca. pose proof (parse_challenges _ _ _ _ _ Ha) as Hch.
    cbn in Hch. subst. intros E0. by rewrite E0 in Hc.
Qed.

Lemma build_thresholds_ok card code values l ths :
  build_thresholds card code values l = Ok ths ->
  NoDup (value <$> ths) /\ (forall v, v ∈ value <$> ths -> v ∉ values) /\ Forall threshold_ok ths.
Proof.
  revert values ths. induction l as [|t l IH]; intros values ths H; cbn in H; inv_result.
  { repeat split; [constructor|by intros ? []%elem_of_nil|constructor]. }
  destruct (existsb _ _) eqn:E; [done|]. inv_result.
  apply build_threshold_ok in Ha as [Ht Hv]. apply IH in Ha0 as (Hn & Hf & Hk).
  assert (Hnew : value a ∉ values).
  { rewrite Hv. intros Hin. eapply existsb_false in E; [|exact Hin]. by rewrite N.eqb_refl in E. }
  cbn. repeat split.
  - constructor; [|done]. intros Hin. apply (Hf _ Hin). rewrite Hv. left.
  - intros v [->|Hin]%elem_of_cons; [done|]. intros Hx. apply (Hf _ Hin). by right.
  - by constructor.
Qed.

Lemma insert_threshold_perm t l : insert_threshold t l ≡ₚ t :: l.
Proof.
  induction l as [|u l IH]; cbn; [done|]. destruct (_ <=? _); [done|]. rewrite IH. apply Permutation_swap.
Qed.
Lemma sort_thresholds_perm l : sort_thresholds l ≡ₚ l.
Proof. induction l as [|t l IH]; cbn; [done|]. by rewrite insert_threshold_perm, IH. Qed.

Lemma insert_threshold_sorted t l :
  StronglySorted N.lt (value <$> l) -> value t ∉ value <$> l ->
  StronglySorted N.lt (value <$> insert_threshold t l).
Proof.
  induction l as [|u l IH]; cbn; intros Hs Hn.
  { repeat constructor. }
  apply StronglySorted_inv in Hs as [Hs Hu]. rewrite not_elem_of_cons in Hn. destruct Hn as [Hne Hn].
  destruct (N.leb_spec (value t) (value u)) as [Hle|Hlt]; cbn.
  - constructor; [by constructor|]. constructor; [lia|].
    eapply Forall_impl; [exact Hu|]. cbn. lia.
  - constructor; [by apply IH|]. rewrite insert_threshold_perm. cbn. by constructor.
Qed.
Lemma sort_thresholds_sorted l :
  NoDup (value <$> l) -> StronglySorted N.lt (value <$> sort_thresholds l).
Proof.
  induction l as [|t l IH]; cbn; [constructor|]. intros [Hn Hd]%NoDup_cons.
  apply insert_threshold_sorted; [by apply IH|]. fold (sort_thresholds l). by rewrite sort_thresholds_perm.
Qed.

Lemma build_card_ok p code card c :
  build_card p code card = Ok c -> card_ok p c /\ sd_name c = cc_name card.
Proof.
  unfold build_card. intros H. inv_result. apply map_err_ok, compile_opt_built in Ha0.
  apply build_signals_ok in Ha1 as (Hsn & _ & Hsk).
  apply build_thresholds_ok in Ha2 as (Htn & _ & Htk).
  split; [|done]. unfold card_ok. cbn. repeat split; try done.
  - unfold condition_built in Ha0. by destruct (cc_condition card), a0.
  - by apply sort_thresholds_sorted.
  - by rewrite sort_thresholds_perm.
Qed.

Lemma build_cards_ok p code names uncond l cards :
  build_cards p code names uncond l = Ok cards ->
  Forall (card_ok p) cards /\ NoDup (sd_name <$> cards) /\
  (forall n, n ∈ sd_name <$> cards -> n ∉ names) /\
  (is_some uncond = true -> cards = []) /\
  (forall i c, cards !! i = Some c -> sd_condition c = None -> S i = length cards).
Proof.
  revert names uncond cards. induction l as [|card l IH]; intros names uncond cards H; cbn in H;
    inv_result.
  { repeat split; [constructor|constructor|by intros ? []%elem_of_nil|done]. }
  destruct (str_mem _ _) eqn:E; [done|]. apply str_mem_false in E. destruct uncond; [done|].
  inv_result. apply build_card_ok in Ha as [Hc Hname].
  apply IH in Ha0 as (Hk & Hd & Hf & Hu & Hl). cbn. rewrite Hname. repeat split; try done.
  - by constructor.
  - constructor; [|done]. intros Hin. apply (Hf _ Hin). left.
  - intros n [->|Hin]%elem_of_cons; [done|]. intros Hx. apply (Hf _ Hin). by right.
  - intros [|i] c; cbn.
    + intros [= <-] Hn. rewrite Hn in Hu. by rewrite Hu.
    + intros Hi Hn. f_equal. by eapply Hl.
Qed.

(** What loading guarantees of all the cards. *)
Definition scoring_ok (p : Rule.Prelude) (st : ScoringState) : Prop :=
  MIN_CAPACITY <= rate_capacity st <= MAX_CAPACITY /\
  NoDup (sd_name <$> scorecards st) /\ Forall (card_ok p) (scorecards st) /\
  (forall i c, scorecards st !! i = Some c -> sd_condition c = None ->
     S i = length (scorecards st)).

Lemma scoring_build_ok config p code st :
  scoring_build config p code = Ok st -> scoring_ok p st.
Proof.
  unfold scoring_build. destruct (negb _) eqn:E; [done|]. intros H. inv_result.
  apply negb_false_iff, andb_true_iff in E as [E1%N.leb_le E2%N.leb_le].
  apply build_cards_ok in Ha as (Hk & Hd & _ & _ & Hl). by repeat split.
Qed.

(** Loaded scorecards are sound. The rate table's capacity is within its
    limits, card and signal names are unique, every card but the last has a
    condition, so no card is unreachable, conditions name only what exists,
    thresholds are strictly increasing, and each one has an action that is
    allowed there with what it needs. *)
Theorem scoring_build_sound config p code st :
  scoring_build config p code = Ok st -> scoring_ok p st.
Proof. apply scoring_build_ok. Qed.

(** ** Facts about scoring *)

(** The results of conditions evaluated one after the other, and the scope they
    leave. *)
Fixpoint outcomes (scope : Scope) (l : list AST) : list (result string bool) * Scope :=
  match l with
  | [] => ([], scope)
  | a :: l => let '(r, s) := eval_ast_with_scope scope a in
              let '(rs, s) := outcomes s l in (r :: rs, s)
  end.
Definition holds (r : result string bool) : bool := match r with Ok b => b | Err _ => false end.
Definition fails (r : result string bool) : bool := negb (is_ok r).

(** The members of a list whose outcome satisfies a test. *)
Fixpoint selected {A} (t : result string bool -> bool) (l : list A) (rs : list (result string bool)) :
    list A :=
  match l, rs with
  | a :: l, r :: rs => if t r then a :: selected t l rs else selected t l rs
  | _, _ => []
  end.
Definition total_weight (l : list SignalState) : N := foldr (fun s n => weight s + n) 0 l.

Lemma sat_add_assoc max a b c : sat_add max (sat_add max a b) c = sat_add max a (b + c).
Proof. unfold sat_add. lia. Qed.

Lemma run_signals_spec scope total l :
  let '(rs, scope') := outcomes scope (sg_condition <$> l) in
  total <= u32_max ->
  run_signals scope total l =
  (sat_add u32_max total (total_weight (selected holds l rs)),
   sg_name <$> selected holds l rs, sg_name <$> selected fails l rs, scope').
Proof.
  revert scope total. induction l as [|s l IH]; intros scope total; cbn.
  { intros H. f_equal. f_equal. f_equal. unfold sat_add. lia. }
  destruct (eval_ast_with_scope scope (sg_condition s)) as [r s1] eqn:E.
  specialize (IH s1). destruct (outcomes s1 _) as [rs s2] eqn:Eo. intros Ht.
  destruct r as [[]|e]; cbn.
  - rewrite (IH (sat_add u32_max total (weight s)) (sat_add_le _ _ _)).
    by rewrite sat_add_assoc.
  - by rewrite IH.
  - by rewrite IH.
Qed.

(** The first card that applies: those before it have conditions, which do not
    hold. *)
Lemma find_card_spec scope l card scope' :
  find_card scope l = (Some card, scope') ->
  exists before after, l = before ++ card :: after /\
    Forall (fun c => is_some (sd_condition c) = true) before /\
    let '(rs, s) := outcomes scope (omap sd_condition before) in
    Forall (fun r => holds r = false) rs /\
    match sd_condition card with
    | None => scope' = s
    | Some ast => eval_ast_with_scope s ast = (Ok true, scope')
    end.
Proof.
  revert scope. induction l as [|c l IH]; intros scope; cbn; [done|].
  destruct (sd_condition c) as [ast|] eqn:Ec.
  - destruct (eval_ast_with_scope scope ast) as [r s1] eqn:E.
    assert (Hrec : find_card s1 l = (Some card, scope') -> holds r = false ->
      exists before after, c :: l = before ++ card :: after /\
        Forall (fun c => is_some (sd_condition c) = true) before /\
        let '(rs, s) := outcomes scope (omap sd_condition before) in
        Forall (fun r => holds r = false) rs /\
        match sd_condition card with
        | None => scope' = s
        | Some ast => eval_ast_with_scope s ast = (Ok true, scope')
        end).
    { intros H Hr. destruct (IH s1 H) as (b & a & -> & Hb & Ho). exists (c :: b), a.
      split; [done|]. split; [constructor; [by rewrite Ec|done]|]. cbn. rewrite Ec. cbn.
      rewrite E. destruct (outcomes s1 (omap sd_condition b)) as [rs s]. destruct Ho as [Ho Hc].
      split; [by constructor|done]. }
    destruct r as [[]|e]; [|by auto..]. intros [= <- <-]. exists [], l. cbn. rewrite Ec. eauto.
  - intros [= <- <-]. exists [], l. cbn. rewrite Ec. eauto.
Qed.

Lemma find_card_none scope l scope' :
  find_card scope l = (None, scope') ->
  Forall (fun c => is_some (sd_condition c) = true) l /\
  let '(rs, s) := outcomes scope (omap sd_condition l) in
  Forall (fun r => holds r = false) rs /\ scope' = s.
Proof.
  revert scope. induction l as [|c l IH]; intros scope; cbn; [by intros [= <-]|].
  destruct (sd_condition c) as [ast|] eqn:Ec; [|done].
  destruct (eval_ast_with_scope scope ast) as [r s1] eqn:E. intros H.
  assert (Hr : holds r = false /\ find_card s1 l = (None, scope')) by by destruct r as [[]|].
  destruct Hr as [Hr Hl]. apply IH in Hl as [Hc Ho]. cbn. rewrite E.
  destruct (outcomes s1 _) as [rs s]. destruct Ho as [Ho Hs].
  split; [constructor; [by rewrite Ec|done]|]. split; [by constructor|done].
Qed.

(** The last threshold not above the score is the greatest such. *)
Lemma candidate_spec ths score :
  StronglySorted N.lt (value <$> ths) ->
  match list_find_bool (fun t => value t <=? score) (rev ths) with
  | Some t => t ∈ ths /\ value t <= score /\
              forall u, u ∈ ths -> value u <= score -> value u <= value t
  | None => forall u, u ∈ ths -> score < value u
  end.
Proof.
  induction ths as [|x ths IH] using rev_ind; [by intros _ ? []%elem_of_nil|].
  rewrite fmap_app, rev_unit. intros Hs. apply StronglySorted_app in Hs as (Hlt & Hs & _).
  specialize (IH Hs).
  assert (Hx : forall u, u ∈ ths -> value u < value x).
  { intros u Hu. apply Hlt; [by apply list_elem_of_fmap_2|]. left. }
  unfold list_find_bool in *. cbn [first_some].
  destruct (N.leb_spec (value x) score) as [Hle|Hgt].
  - split; [apply elem_of_app; right; left|]. split; [done|].
    intros u [Hu| ->%list_elem_of_singleton]%elem_of_app _; [|done]. specialize (Hx u Hu). lia.
  - destruct (first_some _ (rev ths)) as [t|].
    + destruct IH as (Ht & Hv & Hmax). split; [by apply elem_of_app; left|]. split; [done|].
      intros u [Hu| ->%list_elem_of_singleton]%elem_of_app Hle; [by apply Hmax|lia].
    + intros u [Hu| ->%list_elem_of_singleton]%elem_of_app; [by apply IH|lia].
Qed.

(** A request is scored by the first scorecard that applies. The cards
    before it have conditions that do not hold or fail; its score is the sum of
    the weights of the signals that hold, saturating, a signal that fails
    counting nothing and being reported; and the candidate is the greatest
    threshold the score reaches. Without such a card there is no result. *)
Theorem scoring_evaluate_correct config p code st scope :
  scoring_build config p code = Ok st ->
  match scoring_evaluate st scope with
  | (None, _) =>
      Forall (fun c => is_some (sd_condition c) = true) (scorecards st) /\
      Forall (fun r => holds r = false) (outcomes scope (omap sd_condition (scorecards st))).1
  | (Some r, _) =>
      exists before after s, scorecards st = before ++ scorecard r :: after /\
        Forall (fun c => is_some (sd_condition c) = true) before /\
        (let '(rs, s0) := outcomes scope (omap sd_condition before) in
         Forall (fun r => holds r = false) rs /\
         match sd_condition (scorecard r) with
         | None => s = s0
         | Some ast => eval_ast_with_scope s0 ast = (Ok true, s)
         end) /\
        let rs := (outcomes s (sg_condition <$> signals (scorecard r))).1 in
        let hit := selected holds (signals (scorecard r)) rs in
        score r = total_weight hit `min` u32_max /\
        matched r = sg_name <$> hit /\
        errors r = sg_name <$> selected fails (signals (scorecard r)) rs /\
        match candidate r with
        | Some t => t ∈ thresholds (scorecard r) /\ value t <= score r /\
            forall u, u ∈ thresholds (scorecard r) -> value u <= score r -> value u <= value t
        | None => forall u, u ∈ thresholds (scorecard r) -> score r < value u
        end
  end.
Proof.
  intros (_ & _ & Hok & _)%scoring_build_ok. unfold scoring_evaluate.
  destruct (find_card scope (scorecards st)) as [[card|] s] eqn:Ef.
  - apply find_card_spec in Ef as (b & a & El & Hb & Ho).
    pose proof (run_signals_spec s 0 (signals card)) as Hr.
    destruct (outcomes s _) as [rs s'] eqn:Es. rewrite Hr by done.
    exists b, a, s. cbn [scorecard score matched errors candidate]. rewrite Es.
    split; [done|]. split; [done|]. split; [exact Ho|]. cbn [fst].
    split; [unfold sat_add; by rewrite N.add_0_l|]. split; [done|]. split; [done|].
    apply candidate_spec.
    rewrite El in Hok. apply Forall_app in Hok as [_ Hok]. apply Forall_cons in Hok as [Hok _].
    apply Hok.
  - apply find_card_none in Ef as [Hc Ho]. split; [done|].
    destruct (outcomes scope _) as [rs s']. by destruct Ho.
Qed.
End ScoringFacts.

(** A card with a signal that holds, one that does not and one that fails. *)
#[local] Existing Instance Literal.regex.
#[local] Existing Instance LiteralRule.rhai.
#[local] Existing Instance LiteralRule.headers.
Definition example_prelude : @Rule.Prelude LiteralRule.rhai :=
  @Build_Prelude LiteralRule.rhai tt ["missing"] [] "".
Definition example_scoring : ScoringConfig := {|
  cfg_rate_capacity := None;
  cfg_scorecards := [{|
    cc_name := "default"; cc_condition := Some "path"; cc_mode := Some "enforce";
    cc_signals :=
      [{| sc_name := "probe"; sc_condition := "probe"; sc_weight := Some 60 |};
       {| sc_name := "burst"; sc_condition := "rate"; sc_weight := Some 50 |};
       {| sc_name := "broken"; sc_condition := "missing"; sc_weight := Some 100 |}];
    cc_thresholds :=
      [{| tc_value := 100; tc_action := "drop"; tc_challenges := [];
          tc_settings := LiteralRule.no_settings |};
       {| tc_value := 50; tc_action := "Deny"; tc_challenges := [];
          tc_settings := LiteralRule.no_settings |}] |}] |}.
Definition example_state : ScoringState :=
  from_ok (scoring_build example_scoring example_prelude 418) ltac:(vm_refl).

Lemma scoring_build_sound_witness : scoring_ok example_prelude example_state.
Proof. apply (scoring_build_sound example_scoring example_prelude 418). apply from_ok_eq. Defined.

Example scoring_example :
  let r := (scoring_evaluate example_state ["path"; "probe"]).1 in
  score <$> r = Some 60 /\ errors <$> r = Some ["broken"] /\
  (r ≫= candidate : option ThresholdState) = Some {| value := 50; th_action := ADeny 403; th_kind := "deny" |}.
Proof. repeat split; vm_refl. Qed.

(** A report threshold loads, with no kind of its own. *)
Example report_threshold_loads :
  (fun t => (label (th_action t), th_kind t)) <$>
    build_threshold "default" 418 {| tc_value := 10; tc_action := "report"; tc_challenges := [];
      tc_settings := {| http_code := None; pass_action := None; fail_action := None;
        response_headers := []; request_headers := []; match_re := None; rewrite := None;
        backend := None; maze := None; kind := Some "scraper"; difficulty := None |} |}
  = Ok ("report", "unknown").
Proof. vm_refl. Qed.

Lemma scoring_evaluate_correct_witness :
  match (scoring_evaluate example_state ["path"; "probe"]).1 with
  | Some r => score r = 60 /\ forall u, u ∈ thresholds (scorecard r) -> value u <= 60 -> value u <= 50
  | None => False
  end.
Proof.
  pose proof (scoring_evaluate_correct example_scoring example_prelude 418 example_state
    ["path"; "probe"] (from_ok_eq _ _)) as H.
  assert (Es : score <$> (scoring_evaluate example_state ["path"; "probe"]).1 = Some 60) by vm_refl.
  assert (Ec : (fun r => value <$> candidate r) <$>
    (scoring_evaluate example_state ["path"; "probe"]).1 = Some (Some 50)) by vm_refl.
  destruct (scoring_evaluate example_state ["path"; "probe"]) as [[r|] s]; [|discriminate].
  destruct H as (b & a & s1 & _ & _ & _ & _ & _ & _ & Hc). cbn in Es, Ec. injection Es as Es.
  destruct (candidate r) as [t|]; [|discriminate]. destruct Hc as (_ & _ & Hmax).
  injection Ec as Ec. rewrite Es in Hmax. cbn. split; [done|]. rewrite <- Ec. exact Hmax.
Defined.
