(* ===== verification/Pending.v ===== *)
(** * Pending challenges

    [crates/bagel-web/src/challenge/pending.rs]: the table of challenges handed
    out and not yet redeemed, and the source networks of
    [crates/bagel-web/src/lib.rs] it counts requests by. A 32-byte key is the
    number its bytes spell, so that keys compare as the arrays do; an instant is
    a number of nanoseconds; SHA-256 and the random source are arguments. *)

From S2P Require Import Prelude Core Ip Bytes Rate.

Local Open Scope N_scope.

(** ** Source networks *)

Inductive SourceNetwork : Type := SN4 (oct : list N) | SN6 (oct : list N).
#[global] Instance source_network_eq_dec : EqDecision SourceNetwork.
Proof. solve_decision. Defined.

(** [SourceNetwork::from_ip]. *)
Definition from_ip (ip : IpAddr) : SourceNetwork :=
  match ip with
  | V4 b => SN4 (<[3%nat := 0]> (v4_octets b))
  | V6 b => SN6 (take 8 (v6_octets b) ++ replicate 8 0)
  end.
(** [SourceNetwork::to_bytes]. *)
Definition to_bytes (n : SourceNetwork) : list N :=
  match n with SN4 oct => [4; 24] ++ oct | SN6 oct => [6; 64] ++ oct end.

(** ** Bindings *)

Record ChallengeBinding : Type := {
  b_host : string; b_network : SourceNetwork; b_digest : N }.

(** What [ChallengeBinding::new] feeds the digest: each part after its length. *)
Definition digest_parts (parts : list (list N)) : list N :=
  mjoin ((fun part => le_bytes 8 (N.of_nat (length part)) ++ part) <$> parts).
Definition binding_parts (session : list N) (host challenge : string) (user_agent : list N)
    (revision : N) : list (list N) :=
  [session; string_bytes host; string_bytes challenge; user_agent; le_bytes 8 revision].
Definition binding_new (sha256 : list N -> N) (session : list N) (host : string) (ip : IpAddr)
    (challenge : string) (user_agent : list N) (revision : N) : ChallengeBinding := {|
  b_host := host; b_network := from_ip ip;
  b_digest := sha256 (digest_parts (binding_parts session host challenge user_agent revision)) |}.

(** ** The table *)

Definition CAPACITY : N := 65536.
Definition LIFETIME : N := 300 * 1000000000.

Record PendingChallenge : Type := {
  pc_binding : N; pass_key : N; level : N; gpu_level : option N; expiry : N }.
(** [challenges] and [expiries]; the set is kept in order. *)
Record PendingTable : Type := { challenges : gmap N PendingChallenge; expiries : list (N * N) }.

Definition table_default : PendingTable := {| challenges := ∅; expiries := [] |}.

Definition pair_ltb (a b : N * N) : bool := (a.1 <? b.1) || ((a.1 =? b.1) && (a.2 <? b.2)).
(** [BTreeSet::insert] and [remove]. *)
Fixpoint set_insert (e : N * N) (l : list (N * N)) : list (N * N) :=
  match l with
  | [] => [e]
  | x :: l' => if pair_ltb e x then e :: l else if bool_decide (x = e) then l
               else x :: set_insert e l'
  end.
Definition set_remove (e : N * N) (l : list (N * N)) : list (N * N) :=
  List.filter (fun x => negb (bool_decide (x = e))) l.

(** [PendingTable::expire]: the loop over the earliest expiries. *)
Fixpoint expire_go (now : N) (m : gmap N PendingChallenge) (l : list (N * N)) : PendingTable :=
  match l with
  | [] => {| challenges := m; expiries := [] |}
  | (e, k) :: l' =>
      if now <? e then {| challenges := m; expiries := l |}
      else expire_go now (delete k m) l'
  end.
Definition pending_expire (t : PendingTable) (now : N) : PendingTable :=
  expire_go now (challenges t) (expiries t).

Inductive IssueError : Type := Limited | Full | Random.

(** The loop that draws a key. The draws are what the random source gives before
    it fails; the loop looks at no more of them than it needs. *)
Fixpoint draw_key (m : gmap N PendingChallenge) (draws : list N) : result IssueError N :=
  match draws with
  | [] => Err Random
  | k :: draws => if is_some (m !! k) then draw_key m draws else Ok k
  end.

(** [PendingChallenges::issue] after its rate check, on the locked table. *)
Definition issue_table (t : PendingTable) (now : N) (draws : list N)
    (binding : ChallengeBinding) (pass : N) (lvl : N) (gpu : option N) (duration : N) :
    result IssueError N * PendingTable :=
  let t := pending_expire t now in
  if CAPACITY <=? N.of_nat (size (challenges t)) then (Err Full, t)
  else
    match draw_key (challenges t) draws with
    | Ok key =>
        let exp := now + duration `min` LIFETIME in
        (Ok key,
         {| challenges := <[key := {| pc_binding := b_digest binding; pass_key := pass; level := lvl;
                                      gpu_level := gpu; expiry := exp |}]> (challenges t);
            expiries := set_insert (exp, key) (expiries t) |})
    | Err e => (Err e, t)
    end.

(** [PendingChallenges::redeem] on the locked table. *)
Definition redeem (t : PendingTable) (now key : N) (binding : ChallengeBinding) (lvl : N) :
    option N * PendingTable :=
  let t := pending_expire t now in
  match challenges t !! key with
  | None => (None, t)
  | Some c =>
      let offered := (level c =? lvl) || bool_decide (gpu_level c = Some lvl) in
      if negb (pc_binding c =? b_digest binding) || negb offered then (None, t)
      else (Some (pass_key c),
            {| challenges := delete key (challenges t);
               expiries := set_remove (expiry c, key) (expiries t) |})
  end.

(** The trackers beside the table. *)
Definition RateKey : Type := (string * SourceNetwork)%type.
Record PendingChallenges : Type := {
  pending : PendingTable; issuance : RateTracker RateKey; verification : RateTracker RateKey }.
(** [PendingChallenges::default]; its verification slots are a semaphore of the
    runtime. *)
Definition pending_default : PendingChallenges := {|
  pending := table_default; issuance := tracker_new CAPACITY; verification := tracker_new CAPACITY |}.

Definition within_rate (r : RateSnapshot) : bool := (last_1 r <=? 32) && (last_60 r <=? 120).

(** [PendingChallenges::issue]. *)
Definition issue (hash : RateKey -> N) (p : PendingChallenges) (tick now : N)
    (draws : list N) (binding : ChallengeBinding) (pass lvl : N) (gpu : option N)
    (duration : N) : result IssueError N * PendingChallenges :=
  let '(rate, issuance) :=
    tracker_record hash (issuance p) (b_host binding, b_network binding) tick in
  let p := {| pending := pending p; issuance := issuance; verification := verification p |} in
  if (32 <? last_1 rate) || (120 <? last_60 rate) then (Err Limited, p)
  else
    let '(r, t) := issue_table (pending p) now draws binding pass lvl gpu duration in
    (r, {| pending := t; issuance := issuance; verification := verification p |}).
(** [PendingChallenges::admit_verification]. *)
Definition admit_verification (hash : RateKey -> N) (p : PendingChallenges) (tick : N)
    (host : string) (ip : IpAddr) : bool * PendingChallenges :=
  let '(rate, verification) := tracker_record hash (verification p) (host, from_ip ip) tick in
  (within_rate rate,
   {| pending := pending p; issuance := issuance p; verification := verification |}).

(** ** The table and its expiries agree *)

Definition pair_lt (a b : N * N) : Prop := pair_ltb a b = true.

(** The set is in order and lists exactly the entries with their expiry; the
    table is within its capacity. *)
Definition synced (m : gmap N PendingChallenge) (l : list (N * N)) : Prop :=
  StronglySorted pair_lt l /\
  forall e k, (e, k) ∈ l <-> exists c, m !! k = Some c /\ expiry c = e.
Definition table_ok (t : PendingTable) : Prop :=
  synced (challenges t) (expiries t) /\ N.of_nat (size (challenges t)) <= CAPACITY.

Lemma pair_lt_spec a b : pair_lt a b <-> a.1 < b.1 \/ a.1 = b.1 /\ a.2 < b.2.
Proof.
  unfold pair_lt, pair_ltb. rewrite orb_true_iff, andb_true_iff, !N.ltb_lt, N.eqb_eq. done.
Qed.

Lemma pair_lt_total a b : pair_ltb a b = false -> a <> b -> pair_lt b a.
Proof.
  intros H Hne. apply pair_lt_spec. destruct a as [a1 a2], b as [b1 b2].
  assert (Hn : ~ pair_lt (a1, a2) (b1, b2)) by (unfold pair_lt; by rewrite H).
  rewrite pair_lt_spec in Hn. cbn in *.
  destruct (decide (a1 = b1)) as [->|]; [|lia]. destruct (decide (a2 = b2)) as [->|]; [done|lia].
Qed.

Lemma set_insert_elem e l x : x ∈ set_insert e l <-> x = e \/ x ∈ l.
Proof.
  induction l as [|y l IH]; cbn; [by rewrite elem_of_cons, elem_of_nil|].
  destruct (pair_ltb e y); [by rewrite elem_of_cons|]. case_bool_decide as H.
  - subst. rewrite elem_of_cons. tauto.
  - rewrite !elem_of_cons, IH. tauto.
Qed.

Lemma pair_lt_trans a b c : pair_lt a b -> pair_lt b c -> pair_lt a c.
Proof. rewrite !pair_lt_spec. lia. Qed.

Lemma set_insert_sorted e l : StronglySorted pair_lt l -> StronglySorted pair_lt (set_insert e l).
Proof.
  induction l as [|y l IH]; cbn; intros H; [repeat constructor|].
  pose proof H as [Hs Hy]%StronglySorted_inv.
  destruct (pair_ltb e y) eqn:E.
  - constructor; [done|]. constructor; [done|]. eapply Forall_impl; [exact Hy|].
    intros x Hx. by eapply pair_lt_trans.
  - case_bool_decide as Hne; [done|]. constructor; [by apply IH|].
    apply Forall_forall. intros x [->|Hx]%set_insert_elem; [by apply pair_lt_total; [|congruence]|].
    by eapply Forall_forall in Hy.
Qed.

Lemma sorted_filter (p : N * N -> bool) l :
  StronglySorted pair_lt l -> StronglySorted pair_lt (List.filter p l).
Proof.
  induction 1 as [|x l Hs IH Hx]; cbn; [constructor|]. destruct (p x); [|done].
  constructor; [done|]. apply Forall_forall. intros y Hy.
  apply list_elem_of_In, filter_In in Hy as [Hy _].
  eapply Forall_forall in Hx; [exact Hx|]. by apply list_elem_of_In.
Qed.

Lemma sorted_head_fresh x l : StronglySorted pair_lt (x :: l) -> x ∉ l.
Proof.
  intros [_ H]%StronglySorted_inv Hin. eapply Forall_forall in H; [|exact Hin].
  apply pair_lt_spec in H. lia.
Qed.

(** Dropping the first expiry with its entry. *)
Lemma synced_pop m e k l : synced m ((e, k) :: l) -> synced (delete k m) l.
Proof.
  intros [Hs Hm]. split; [by apply StronglySorted_inv in Hs as [? _]|]. intros e' k'. split.
  - intros Hin. assert (Hk : k' <> k).
    { intros ->. destruct (proj1 (Hm e' k) (list_elem_of_further _ _ _ Hin)) as (c & Hc & <-).
      destruct (proj1 (Hm e k) (list_elem_of_here _ _)) as (c' & Hc' & <-).
      simplify_eq. by apply sorted_head_fresh in Hs. }
    rewrite lookup_delete_ne by done. apply Hm. by right.
  - intros (c & Hc & <-). apply lookup_delete_Some in Hc as [Hne Hc].
    assert (Hin : (expiry c, k') ∈ (e, k) :: l) by (apply Hm; eauto).
    apply elem_of_cons in Hin as [Hin|Hin]; [congruence|done].
Qed.

Lemma expire_go_ok now m l :
  synced m l ->
  let t := expire_go now m l in
  synced (challenges t) (expiries t) /\
  forall k, challenges t !! k =
    match m !! k with Some c => if now <? expiry c then Some c else None | None => None end.
Proof.
  revert m. induction l as [|[e k] l IH]; intros m H; cbn.
  { split; [done|]. intros k. destruct (m !! k) as [c|] eqn:E; [|done].
    destruct H as [_ H]. assert (Hin : (expiry c, k) ∈ []) by (apply H; eauto).
    by apply elem_of_nil in Hin. }
  destruct (N.ltb_spec now e) as [Hlt|Hge]; cbn.
  - split; [done|]. intros x. destruct (m !! x) as [c|] eqn:E; [|done].
    destruct H as [Hs Hm]. assert (Hin : (expiry c, x) ∈ (e, k) :: l) by (apply Hm; eauto).
    assert (He : e <= expiry c).
    { apply elem_of_cons in Hin as [[= -> _]|Hin]; [lia|].
      apply StronglySorted_inv in Hs as [_ Hs]. eapply Forall_forall in Hs; [|exact Hin].
      apply pair_lt_spec in Hs. cbn in Hs. lia. }
    destruct (N.ltb_spec now (expiry c)); [done|lia].
  - destruct (IH (delete k m) (synced_pop m e k l H)) as [IHs IHl]. split; [done|].
    intros x. rewrite IHl. destruct (decide (x = k)) as [->|Hne].
    + rewrite lookup_delete_eq. destruct (proj1 (proj2 H e k) (list_elem_of_here _ _)) as (c & -> & <-).
      destruct (N.ltb_spec now (expiry c)); [lia|done].
    + by rewrite lookup_delete_ne by done.
Qed.

Definition live (now : N) (o : option PendingChallenge) : option PendingChallenge :=
  match o with Some c => if now <? expiry c then Some c else None | None => None end.

Lemma pending_expire_lookup t now k :
  table_ok t -> challenges (pending_expire t now) !! k = live now (challenges t !! k).
Proof. intros [H _]. apply (expire_go_ok now _ _ H). Qed.

Lemma pending_expire_ok t now : table_ok t -> table_ok (pending_expire t now).
Proof.
  intros Ht. pose proof Ht as [H Hc]. split; [apply (expire_go_ok now _ _ H)|].
  assert (Hsub : challenges (pending_expire t now) ⊆ challenges t).
  { apply map_subseteq_spec. intros k c. rewrite pending_expire_lookup by done.
    destruct (challenges t !! k); cbn; [|done]. by destruct (_ <? _). }
  apply map_subseteq_size in Hsub. lia.
Qed.

Lemma draw_key_fresh m draws k : draw_key m draws = Ok k -> m !! k = None.
Proof.
  induction draws as [|d draws IH]; cbn; [done|].
  destruct (m !! d) eqn:E; cbn; [done|]. by intros [= <-].
Qed.

(** A successful issue adds one entry, under a key that was free. *)
Lemma issue_table_inv t now draws b pass lvl gpu d k t' :
  issue_table t now draws b pass lvl gpu d = (Ok k, t') ->
  let c := {| pc_binding := b_digest b; pass_key := pass; level := lvl; gpu_level := gpu;
              expiry := now + d `min` LIFETIME |} in
  challenges (pending_expire t now) !! k = None /\
  N.of_nat (size (challenges (pending_expire t now))) < CAPACITY /\
  t' = {| challenges := <[k := c]> (challenges (pending_expire t now));
          expiries := set_insert (expiry c, k) (expiries (pending_expire t now)) |}.
Proof.
  unfold issue_table. destruct (N.leb_spec CAPACITY (N.of_nat (size (challenges (pending_expire t now)))));
    [done|].
  destruct (draw_key _ _) as [key|] eqn:E; [|done]. intros [= -> <-].
  by apply draw_key_fresh in E.
Qed.

Lemma issue_table_else t now draws b pass lvl gpu d r t' :
  issue_table t now draws b pass lvl gpu d = (r, t') ->
  is_ok r = false -> t' = pending_expire t now.
Proof.
  unfold issue_table. destruct (_ <=? _); [by intros [= _ <-]|].
  by destruct (draw_key _ _) as [key|]; intros [= <- <-] Hr.
Qed.

Lemma issue_table_ok t now draws b pass lvl gpu d r t' :
  table_ok t -> issue_table t now draws b pass lvl gpu d = (r, t') -> table_ok t'.
Proof.
  intros Ht E. pose proof (pending_expire_ok t now Ht) as He.
  destruct r as [k|e]; [|by erewrite issue_table_else by eauto].
  apply issue_table_inv in E as (Hk & Hsz & ->). destruct He as [[Hs Hm] Hc].
  set (c := {| pc_binding := _ |}). split; cbn [challenges expiries].
  - split; [by apply set_insert_sorted|]. intros e x. rewrite set_insert_elem, Hm.
    destruct (decide (x = k)) as [->|Hne].
    + rewrite lookup_insert_eq, Hk. split.
      * intros [[= ->]|(? & ? & _)]; [eauto|done].
      * intros (? & [= <-] & <-). by left.
    + rewrite lookup_insert_ne by done. split; [|by auto]. intros [[= _ ?]|?]; done.
  - rewrite map_size_insert_None by done. lia.
Qed.

(** A successful redemption takes the entry of its key out. *)
Lemma redeem_inv t now k b lvl pass t' :
  redeem t now k b lvl = (Some pass, t') ->
  exists c, challenges (pending_expire t now) !! k = Some c /\ pc_binding c = b_digest b /\
    (level c = lvl \/ gpu_level c = Some lvl) /\ pass = pass_key c /\
    t' = {| challenges := delete k (challenges (pending_expire t now));
            expiries := set_remove (expiry c, k) (expiries (pending_expire t now)) |}.
Proof.
  unfold redeem. destruct (_ !! k) as [c|]; [|done].
  destruct (N.eqb_spec (pc_binding c) (b_digest b)); [|done]. cbn [negb orb].
  destruct (_ || _) eqn:E; [|done]. cbn [negb]. intros [= <- <-]. exists c.
  repeat split; try done. apply orb_true_iff in E as [E|E]; [left; by apply N.eqb_eq|right].
  by apply bool_decide_eq_true in E.
Qed.

Lemma redeem_none t now k b lvl t' : redeem t now k b lvl = (None, t') -> t' = pending_expire t now.
Proof. unfold redeem. repeat case_match; by intros [= <-]. Qed.

Lemma redeem_ok t now k b lvl r t' :
  table_ok t -> redeem t now k b lvl = (r, t') -> table_ok t'.
Proof.
  intros Ht E. pose proof (pending_expire_ok t now Ht) as He.
  destruct r as [pass|]; [|by erewrite redeem_none by eauto].
  apply redeem_inv in E as (c & Hk & _ & _ & _ & ->). destruct He as [[Hs Hm] Hc].
  split; cbn [challenges expiries].
  - split; [by apply sorted_filter|]. intros e x. unfold set_remove.
    rewrite list_elem_of_In, filter_In, <- list_elem_of_In, Hm, negb_true_iff, bool_decide_eq_false.
    split.
    + intros [(c' & Hc' & <-) Hne]. exists c'. split; [|done]. rewrite lookup_delete_ne; [done|].
      intros ->. congruence.
    + intros (c' & [Hne Hc']%lookup_delete_Some & <-). split; [eauto|]. congruence.
  - rewrite map_size_delete_Some by eauto. lia.
Qed.

(** ** Histories *)

Inductive op : Type :=
| OpIssue (now : N) (draws : list N) (binding : ChallengeBinding) (pass lvl : N)
    (gpu : option N) (duration : N)
| OpRedeem (now key : N) (binding : ChallengeBinding) (lvl : N).

Definition apply_op (t : PendingTable) (o : op) : PendingTable :=
  match o with
  | OpIssue now draws b pass lvl gpu d => (issue_table t now draws b pass lvl gpu d).2
  | OpRedeem now key b lvl => (redeem t now key b lvl).2
  end.
Definition run (t : PendingTable) (ops : list op) : PendingTable := foldl apply_op t ops.

(** The key an operation hands out. *)
Definition issued (t : PendingTable) (o : op) : option N :=
  match o with
  | OpIssue now draws b pass lvl gpu d =>
      match (issue_table t now draws b pass lvl gpu d).1 with Ok k => Some k | Err _ => None end
  | OpRedeem _ _ _ _ => None
  end.
Fixpoint reissued (k : N) (t : PendingTable) (ops : list op) : bool :=
  match ops with
  | [] => false
  | o :: ops => bool_decide (issued t o = Some k) || reissued k (apply_op t o) ops
  end.

(** The entry an issue asks for. *)
Definition entry_of (o : op) : option (N * PendingChallenge) :=
  match o with
  | OpIssue now _ b pass lvl gpu d =>
      Some (now, {| pc_binding := b_digest b; pass_key := pass; level := lvl; gpu_level := gpu;
                    expiry := now + d `min` LIFETIME |})
  | OpRedeem _ _ _ _ => None
  end.

Lemma apply_op_ok t o : table_ok t -> table_ok (apply_op t o).
Proof.
  intros Ht. destruct o; cbn.
  - destruct (issue_table _ _ _ _ _ _ _ _) eqn:E. by eapply issue_table_ok.
  - destruct (redeem _ _ _ _ _) eqn:E. by eapply redeem_ok.
Qed.
Lemma table_default_ok : table_ok table_default.
Proof.
  split; [|done]. split; [constructor|]. intros e k. rewrite elem_of_nil. split; [done|].
  by intros (c & Hc & _).
Qed.
Lemma run_ok t ops : table_ok t -> table_ok (run t ops).
Proof. revert t. induction ops as [|o ops IH]; intros t Ht; [done|]. by apply IH, apply_op_ok. Qed.

(** Where an entry after an operation comes from. *)
Lemma apply_op_lookup t o k c :
  table_ok t -> challenges (apply_op t o) !! k = Some c ->
  challenges t !! k = Some c \/ issued t o = Some k /\ exists now, entry_of o = Some (now, c).
Proof.
  intros Ht H.
  assert (Hlive : forall now, challenges (pending_expire t now) !! k = Some c ->
    challenges t !! k = Some c).
  { intros now. rewrite pending_expire_lookup by done. destruct (challenges t !! k); cbn; [|done].
    by destruct (_ <? _). }
  destruct o as [now draws b pass lvl gpu d|now key b lvl]; cbn in *.
  - destruct (issue_table _ _ _ _ _ _ _ _) as [r t'] eqn:E. cbn in H.
    destruct r as [key|e]; [|left; eapply Hlive; by erewrite <- issue_table_else by eauto].
    apply issue_table_inv in E as (_ & _ & ->). cbn in H.
    apply lookup_insert_Some in H as [[-> <-]|[_ H]]; [right; eauto|left; eauto].
  - destruct (redeem _ _ _ _ _) as [r t'] eqn:E. cbn in H. left.
    destruct r as [pass|]; [|eapply Hlive; by erewrite <- redeem_none by eauto].
    apply redeem_inv in E as (c' & _ & _ & _ & _ & ->). cbn in H.
    apply lookup_delete_Some in H as [_ H]. eauto.
Qed.

Lemma run_lookup ops k c :
  challenges (run table_default ops) !! k = Some c ->
  exists before o after now, ops = before ++ o :: after /\
    issued (run table_default before) o = Some k /\ entry_of o = Some (now, c).
Proof.
  induction ops as [|o ops IH] using rev_ind; [done|]. unfold run. rewrite foldl_app. cbn.
  intros [H|(Hi & now & He)]%apply_op_lookup; [| |apply run_ok, table_default_ok].
  - destruct (IH H) as (b & o' & a & now & -> & Hi & He). exists b, o', (a ++ [o]), now.
    by rewrite <- app_assoc.
  - by exists ops, o, [], now.
Qed.

(** A key that is out stays out until it is drawn again. *)
Lemma run_absent t ops k :
  table_ok t -> challenges t !! k = None -> reissued k t ops = false ->
  challenges (run t ops) !! k = None.
Proof.
  revert t. induction ops as [|o ops IH]; intros t Ht Hk; [done|]. cbn.
  intros [Ho Hr]%orb_false_iff. apply bool_decide_eq_false in Ho.
  apply IH; [by apply apply_op_ok| |done].
  destruct (challenges (apply_op t o) !! k) as [c|] eqn:E; [|done].
  apply apply_op_lookup in E as [E|[E _]]; [congruence|congruence|done].
Qed.

Lemma redeem_absent t now k b lvl :
  table_ok t -> challenges t !! k = None -> (redeem t now k b lvl).1 = None.
Proof. intros Ht Hk. unfold redeem. by rewrite pending_expire_lookup, Hk by done. Qed.

(** C17: challenge keys are single use. Whatever was issued and redeemed before,
    the table stays within its capacity and in step with its expiries; a
    redemption succeeds only with a key that an earlier issue handed out for the
    same binding, at a level that issue offered, strictly before the issue's
    expiry, which is at most five minutes after it, and it yields that issue's
    pass key; and no later redemption of the key succeeds, with any binding or
    level, unless the key is drawn again. *)
Theorem redeem_single_use ops now k b lvl pass t' :
  redeem (run table_default ops) now k b lvl = (Some pass, t') ->
  table_ok t' /\
  (exists before o after issued_at c, ops = before ++ o :: after /\
     issued (run table_default before) o = Some k /\ entry_of o = Some (issued_at, c) /\
     pc_binding c = b_digest b /\ (level c = lvl \/ gpu_level c = Some lvl) /\
     pass = pass_key c /\ now < expiry c <= issued_at + LIFETIME) /\
  forall later now' b' lvl', reissued k t' later = false ->
    (redeem (run t' later) now' k b' lvl').1 = None.
Proof.
  intros H. pose proof (run_ok _ ops table_default_ok) as Ht.
  pose proof (redeem_ok _ _ _ _ _ _ _ Ht H) as Ht'. split; [done|].
  apply redeem_inv in H as (c & Hc & Hb & Hl & Hp & Et). rewrite pending_expire_lookup in Hc by done.
  destruct (challenges (run table_default ops) !! k) as [c'|] eqn:Ek; [|done]. cbn in Hc.
  destruct (N.ltb_spec now (expiry c')) as [Hexp|]; [|done]. injection Hc as ->. split.
  - destruct (run_lookup ops k c Ek) as (bf & o & af & at_ & Eo & Hi & He).
    exists bf, o, af, at_, c. repeat split; try done.
    destruct o; [|done]. cbn in He. injection He as <- <-. cbn. lia.
  - intros later now' b' lvl' Hr. apply redeem_absent; [by apply run_ok|].
    apply run_absent; [done| |done]. rewrite Et. cbn. apply lookup_delete_eq.
Qed.

Definition example_binding : ChallengeBinding :=
  {| b_host := "example.org"; b_network := from_ip (V4 16909060); b_digest := 99 |}.
Definition example_ops : list op :=
  [OpIssue 1000 [7] example_binding 42 16 (Some 20) 60000000000].
Lemma redeem_single_use_witness :
  let r := redeem (run table_default example_ops) 2000 7 example_binding 20 in
  r.1 = Some 42 /\ forall now b lvl, (redeem r.2 now 7 b lvl).1 = None.
Proof.
  cbv zeta. destruct (redeem (run table_default example_ops) 2000 7 example_binding 20) as [r t'] eqn:E.
  assert (Er : r = Some 42) by (change r with (r, t').1; rewrite <- E; vm_refl). subst r.
  split; [done|]. intros now b lvl.
  destruct (redeem_single_use example_ops 2000 7 example_binding 20 42 t' E) as (_ & _ & H).
  exact (H [] now b lvl eq_refl).
Defined.

(** ** What a binding binds *)

(** The parts can be told apart from the bytes digested. *)
Lemma digest_parts_inj ps qs :
  length ps = length qs ->
  Forall (fun p => N.of_nat (length p) < 256 ^ 8) ps ->
  Forall (fun p => N.of_nat (length p) < 256 ^ 8) qs ->
  digest_parts ps = digest_parts qs -> ps = qs.
Proof.
  revert qs. induction ps as [|p ps IH]; intros [|q qs] Hlen Hp Hq; try done.
  apply Forall_cons in Hp as [Hp Hps]. apply Forall_cons in Hq as [Hq Hqs].
  change (digest_parts (p :: ps)) with ((le_bytes 8 (N.of_nat (length p)) ++ p) ++ digest_parts ps).
  change (digest_parts (q :: qs)) with ((le_bytes 8 (N.of_nat (length q)) ++ q) ++ digest_parts qs).
  rewrite <- !app_assoc. intros H.
  apply app_inj_1 in H as [Hl H]; [|by rewrite !le_bytes_length].
  apply (le_bytes_inj 8) in Hl; [|done..]. apply app_inj_1 in H as [-> H]; [|lia].
  f_equal. apply IH; [by injection Hlen|done|done|exact H].
Qed.

(** Bindings with the same digest are of the same session, host, challenge, user
    agent and policy revision, or show a collision of the hash. *)
Lemma binding_identity sha256 s h i c u r s' h' i' c' u' r' :
  let parts := binding_parts s h c u r in
  let parts' := binding_parts s' h' c' u' r' in
  Forall (fun p => N.of_nat (length p) < 256 ^ 8) parts ->
  Forall (fun p => N.of_nat (length p) < 256 ^ 8) parts' ->
  b_digest (binding_new sha256 s h i c u r) = b_digest (binding_new sha256 s' h' i' c' u' r') ->
  parts = parts' \/
  (digest_parts parts <> digest_parts parts' /\
   sha256 (digest_parts parts) = sha256 (digest_parts parts')).
Proof.
  cbv zeta. intros Hp Hq H. cbn in H.
  destruct (decide (digest_parts (binding_parts s h c u r) = digest_parts (binding_parts s' h' c' u' r')))
    as [E|E]; [left|by right].
  by apply digest_parts_inj in E.
Qed.
