(* ===== verification/Maze.v ===== *)
(** * Mazes

    [crates/bagel-web/src/maze] and [server/maze.rs]: the paths of maze pages, the
    keys of a maze on a host, the tokens in its links and their classification,
    the poison memory, the links of a page, the table of route prefixes, and what
    serving a route does. HMAC, HKDF and base32 are an interface; the random nonce
    of a token is an argument. *)

From S2P Require Import Prelude Strings Ip Bytes Rate Pending.

Local Open Scope N_scope.

(** ** Paths *)

Definition MAX_PATH_BYTES : nat := 192.
Definition MAX_SEGMENTS : nat := 8.
Definition MAX_SEGMENT_BYTES : nat := 32.

Definition segment_char (c : ascii) : bool :=
  is_ascii_lowercase c || is_ascii_digit c || char_eqb c "-".
Definition bad_segment (s : string) : bool :=
  str_is_empty s || (MAX_SEGMENT_BYTES <? String.length s)%nat || negb (str_all segment_char s).
Fixpoint check_segments (segments : nat) (l : list string) : bool :=
  match l with
  | [] => true
  | s :: l =>
      let segments := S segments in
      if (MAX_SEGMENTS <? segments)%nat || bad_segment s then false else check_segments segments l
  end.
Definition normalize_maze_path (raw : string) : option string :=
  let path := default raw (strip_suffix "/" raw) in
  if str_is_empty path || (MAX_PATH_BYTES <? String.length path)%nat then None
  else if check_segments 0 (str_split "/" path) then Some path else None.

Record ParsedRoute : Type := { pr_token : string; pr_path : string }.
Definition parse_route (after_prefix : string) : option ParsedRoute :=
  rest ← strip_prefix "/" after_prefix;
  '(token, raw_path) ← split_once "/" rest;
  if str_is_empty token then None
  else path ← normalize_maze_path raw_path; Some {| pr_token := token; pr_path := path |}.

(** ** Keys *)

(** [ring]'s HMAC-SHA256 and HKDF-SHA256 (extraction from a salt, expansion to 32
    bytes), and the [BASE32_LOWER] encoding of [data_encoding]. *)
Class MazeApi : Type := {
  hmac : list N -> list N -> list N;
  hkdf_extract : list N -> list N -> list N;
  hkdf_expand : list N -> list (list N) -> list N;
  b32_encode : list N -> string;
  b32_decode : string -> option (list N) }.
Class MazeLaws `{!MazeApi} : Prop := {
  hmac_bytes k m : bytes (hmac k m) /\ length (hmac k m) = 32%nat;
  hkdf_bytes k i : bytes (hkdf_expand k i) /\ length (hkdf_expand k i) = 32%nat;
  b32_back b : bytes b -> b32_decode (b32_encode b) = Some b;
  b32_decode_bytes s b : b32_decode s = Some b -> bytes b;
  b32_length b : bytes b -> String.length (b32_encode b) = ((8 * length b + 4) / 5)%nat;
  b32_alphabet b :
    bytes b -> str_all (fun c => is_ascii_lowercase c || in_range 50 55 c) (b32_encode b) = true }.

Definition frame (value : list N) : list N :=
  be_bytes 4 (N.of_nat (length value) mod 2 ^ 32) ++ value.
Definition frame_str (s : string) : list N := frame (string_bytes s).

Record MazeKeys : Type := {
  mac_key : list N; binding_key : list N; route_key : list N; render_key : list N;
  decoy_key : list N; memory_key : list N; route_prefix : string }.

Section Maze.
Context `{MA : MazeApi}.

Definition poison_master (pkcs8_der : list N) : list N :=
  hkdf_expand (hkdf_extract (string_bytes "bagel poison root v1") pkcs8_der) [frame_str "master"].
Definition derive_maze_keys (master : list N) (canonical_host maze_name : string) : MazeKeys :=
  let prk := hkdf_extract (string_bytes "bagel maze v1") master in
  let derive label := hkdf_expand prk [frame_str label; frame_str canonical_host; frame_str maze_name] in
  {| mac_key := derive "mac"; binding_key := derive "binding"; route_key := derive "route";
     render_key := derive "render"; decoy_key := derive "decoy"; memory_key := derive "memory";
     route_prefix := b32_encode (take 12 (derive "route")) |}.

(** ** Tokens *)

Definition TOKEN_LEN : nat := 58.
Definition TOKEN_ENCODED_LEN : nat := 93.
Definition HEADER_LEN : nat := TOKEN_LEN - 16.
Definition TOKEN_VERSION : N := 1.
Definition FLAG_BOUND : N := 1.

Inductive TokenClass : Type := ValidReturn | Transfer | Unbound | Expired | Invalid | Malformed.
Definition is_authenticated (c : TokenClass) : bool := match c with ValidReturn => true | _ => false end.

Definition binding_value (key : list N) (source : SourceNetwork) : list N :=
  take 16 (hmac key (frame_str "bagel maze binding v1" ++ frame (to_bytes source))).
Definition tag_input (header : list N) (maze_path : string) : list N :=
  frame_str "bagel maze token v1" ++ header ++ frame_str maze_path.
Definition compute_tag (key header : list N) (maze_path : string) : list N :=
  take 16 (hmac key (tag_input header maze_path)).

Definition token_header (keys : MazeKeys) (source : option SourceNetwork) (expires : N)
    (nonce : list N) : list N :=
  let '(flags, binding) := match source with
    | Some network => (FLAG_BOUND, binding_value (binding_key keys) network)
    | None => (0, replicate 16 0) end in
  [TOKEN_VERSION; flags] ++ be_bytes 8 expires ++ nonce ++ binding.
Definition token_build (keys : MazeKeys) (maze_path : string) (source : option SourceNetwork)
    (expires : N) (nonce : list N) (corrupt_tag : bool) : string :=
  let header := token_header keys source expires nonce in
  let tag := compute_tag (mac_key keys) header maze_path in
  let tag := match tag with
             | b :: tag => (if corrupt_tag then N.lxor b 1 else b) :: tag | [] => [] end in
  b32_encode (header ++ tag).
Definition mint keys path source expires nonce := token_build keys path source expires nonce false.
Definition mint_decoy keys path source expires nonce := token_build keys path source expires nonce true.

(** [raw[i]] and slices of the token, whose length has been checked. *)
Definition classify (keys : MazeKeys) (maze_path encoded : string) (source : option SourceNetwork)
    (now : N) : TokenClass :=
  if negb (String.length encoded =? TOKEN_ENCODED_LEN)%nat then Malformed
  else match b32_decode encoded with
  | None => Malformed
  | Some raw =>
      if negb (length raw =? TOKEN_LEN)%nat || negb (String.eqb (b32_encode raw) encoded) then Malformed
      else if negb (nth 0 raw 0 =? TOKEN_VERSION) || negb (N.ldiff (nth 1 raw 0) FLAG_BOUND =? 0) then Malformed
      else
        let header := take HEADER_LEN raw in
        if negb (bool_decide (drop HEADER_LEN raw = compute_tag (mac_key keys) header maze_path)) then Invalid
        else if of_be_bytes (take 8 (drop 2 raw)) <? now then Expired
        else if N.land (nth 1 raw 0) FLAG_BOUND =? 0 then Unbound
        else if match source with
                | Some network =>
                    bool_decide (take 16 (drop 26 raw) = binding_value (binding_key keys) network)
                | None => false
                end
             then ValidReturn else Transfer
  end.

(** ** Poison memory *)

Definition memory_id (key : list N) (canonical_host maze_name : string) (source : SourceNetwork) : list N :=
  hmac key (frame_str "bagel poison memory v1" ++ frame_str canonical_host ++ frame_str maze_name ++
            frame (to_bytes source)).
End Maze.

Definition MEMORY_CAPACITY : N := 65536.
Record Entry : Type := { en_expires : N; en_maze : string }.
Notation PoisonStore := (gmap (list N) Entry).


(** [min_by_key]: the first of the least, in the order of the table. *)
Definition min_expiry (l : list (list N * Entry)) : option (list N * Entry) :=
  foldr (fun e best => match best with
                       | Some b => if en_expires b.2 <? en_expires e.2 then Some b else Some e
                       | None => Some e end) None l.
Definition evict_oldest (m : PoisonStore) : PoisonStore :=
  match min_expiry (map_to_list m) with Some (k, _) => delete k m | None => m end.
Definition make_room (now : N) (m : PoisonStore) : PoisonStore :=
  let m := filter (fun e => now < en_expires e.2) m in
  if MEMORY_CAPACITY <=? N.of_nat (size m) then evict_oldest m else m.
(** [PoisonStore::set]; the clock is read before making room and for the entry. *)
Definition poison_set (id : list N) (maze : string) (ttl now now' : N) (m : PoisonStore) : PoisonStore :=
  let m := if (MEMORY_CAPACITY <=? N.of_nat (size m)) && negb (is_some (m !! id))
           then make_room now m else m in
  <[id := {| en_expires := now' + ttl; en_maze := maze |}]> m.
Definition poison_contains (id : list N) (now : N) (m : PoisonStore) : bool :=
  match m !! id with Some e => now <? en_expires e | None => false end.
Definition purge_maze (maze : string) (m : PoisonStore) : PoisonStore :=
  filter (fun e => en_maze e.2 <> maze) m.

(** ** Names and tables *)

Definition is_valid_maze_name (name : string) : bool :=
  match name with
  | EmptyString => false
  | String first rest =>
      (String.length name <=? 64)%nat && is_ascii_lowercase first &&
      str_all (fun c => is_ascii_lowercase c || is_ascii_digit c || char_eqb c "_" || char_eqb c "-") rest
  end.

Record MazeConfig : Type := {
  mz_name : string; mz_renderer : string; mz_token_ttl : N; mz_memory_ttl : N;
  mz_min_links : N; mz_max_links : N; mz_min_bytes : N; mz_max_bytes : N }.
Record MazeRuntime : Type := { mr_name : string; mr_keys : MazeKeys; mr_config : MazeConfig }.
Notation MazeTable := (gmap string MazeRuntime).

Section Table.
Context `{MA : MazeApi}.

Fixpoint build_table_go (master : list N) (canonical_host : string) (table : MazeTable)
    (mazes : list MazeConfig) : result string MazeTable :=
  match mazes with
  | [] => Ok table
  | maze :: mazes =>
      let derived := derive_maze_keys master canonical_host (mz_name maze) in
      let prefix := route_prefix derived in
      match table !! prefix with
      | Some existing =>
          Err ("maze route prefix collision between '" +:+ mr_name existing +:+ "' and '" +:+
               mz_name maze +:+ "' on host '" +:+ canonical_host +:+ "'")
      | None =>
          build_table_go master canonical_host
            (<[prefix := {| mr_name := mz_name maze; mr_keys := derived; mr_config := maze |}]> table) mazes
      end
  end.
Definition build_table (master : list N) (canonical_host : string) (mazes : list MazeConfig) :
    result string MazeTable := build_table_go master canonical_host ∅ mazes.

(** [MazeTable::by_name], in the order of the table. *)
Definition by_name (name : string) (table : MazeTable) : option MazeRuntime :=
  list_find_bool (fun r => String.eqb (mr_name r) name) (map_to_list table).*2.
End Table.

(** ** The links of a page *)

Definition CORPUS_WORDS : string :=
  "archive article assembly atlas author balance battery border branch bridge cabinet canvas capital carbon catalog cellar chamber channel chapter charter circuit cistern climate colony column compass copper corridor cottage council courier crystal current cypress diagram dispatch domain drawer dynamo editor element engine estate fabric factory fallow feather ferry figure filament flint forge fortress fountain gallery garden garrison glacier granite hamlet harbor harvest hollow index ingot island journal junction keystone lantern ledger library lookout machine manual marble meadow meridian mineral monument morning mosaic notebook orchard outpost paper parcel passage pattern pillar pioneer portal prairie quarry record region register reserve river saddle satchel seaboard section sediment signal silver spindle station stone summit survey terrace textile timber tower traverse tribune tunnel valley vault vessel village vineyard wagon warehouse willow window workshop".
Definition CORPUS : list string := Eval vm_compute in str_split " " CORPUS_WORDS.

Record HmacRng : Type := { rng_key : list N; rng_counter : N; rng_block : list N; rng_used : nat }.
Definition rng_new (seed : list N) : HmacRng :=
  {| rng_key := seed; rng_counter := 0; rng_block := replicate 32 0; rng_used := 32 |}.

Record RenderBudget : Type := { min_links : N; max_links : N; min_bytes : N; max_bytes : N }.

Definition QUOTE : string := String (ascii_of_nat 34) "".
Definition str_len (s : string) : N := N.of_nat (String.length s).

Section Render.
Context `{MA : MazeApi}.

Definition next_u32 (r : HmacRng) : N * HmacRng :=
  let r := if (32 <? rng_used r + 4)%nat
           then {| rng_key := rng_key r; rng_counter := rng_counter r + 1;
                   rng_block := hmac (rng_key r) (be_bytes 8 (rng_counter r)); rng_used := 0 |}
           else r in
  (of_be_bytes (take 4 (drop (rng_used r) (rng_block r))),
   {| rng_key := rng_key r; rng_counter := rng_counter r; rng_block := rng_block r;
      rng_used := rng_used r + 4 |}).
(** [range]; a range is never empty where it is used. *)
Definition rng_range (lo hi : N) (r : HmacRng) : N * HmacRng :=
  let '(v, r) := next_u32 r in (lo + v mod (hi - lo + 1), r).
Definition rng_word (r : HmacRng) : string * HmacRng :=
  let '(i, r) := rng_range 0 (N.of_nat (length CORPUS) - 1) r in (nth (N.to_nat i) CORPUS "", r).

Definition page_seed (key path_bytes : list N) : list N :=
  hmac key (frame_str "bagel maze render v1" ++ frame path_bytes).

(** One segment of a path. *)
Definition generate_segment (r : HmacRng) : string * HmacRng :=
  let '(w, r) := rng_word r in
  let '(d, r) := rng_range 0 2 r in
  if d =? 0 then let '(w', r) := rng_word r in (w +:+ "-" +:+ w', r) else (w, r).
Fixpoint generate_segments (n : nat) (first : bool) (path : string) (r : HmacRng) : string * HmacRng :=
  match n with
  | O => (path, r)
  | S n =>
      let '(s, r) := generate_segment r in
      generate_segments n false (path +:+ (if first then "" else "/") +:+ s) r
  end.
Definition generate_path (r : HmacRng) : string * HmacRng :=
  let '(n, r) := rng_range 1 3 r in generate_segments (N.to_nat n) true "" r.

Fixpoint generate_paths (n : nat) (r : HmacRng) : list string :=
  match n with
  | O => []
  | S n => let '(p, r) := generate_path r in p :: generate_paths n r
  end.
Definition plan_links (seed : list N) (budget : RenderBudget) : list string :=
  let '(count, r) := rng_range (min_links budget) (max_links budget) (rng_new seed) in
  generate_paths (N.to_nat count) r.

(** ** A page *)

(** [n] words, a space before each but the first. *)
Fixpoint push_words (n : nat) (first : bool) (html : string) (r : HmacRng) : string * HmacRng :=
  match n with
  | O => (html, r)
  | S n =>
      let '(w, r) := rng_word r in
      push_words n false (html +:+ (if first then "" else " ") +:+ w) r
  end.
Definition push_sentence (html : string) (r : HmacRng) : string * HmacRng :=
  let '(words, r) := rng_range 6 16 r in
  let '(html, r) := push_words (N.to_nat words) true html r in
  (html +:+ ". ", r).
Fixpoint push_sentences (n : nat) (html : string) (r : HmacRng) : string * HmacRng :=
  match n with
  | O => (html, r)
  | S n => let '(html, r) := push_sentence html r in push_sentences n html r
  end.

(** The rendering of a link; [mint_link] is an [FnMut]: its calls are numbered,
    which stands for the fresh nonce of each. *)
Definition push_link (mint_link : nat -> string -> string) (call : nat) (html : string) (r : HmacRng) :
    string * HmacRng :=
  let '(path, r) := generate_path r in
  let href := mint_link call path in
  let html := html +:+ "<a href=" +:+ QUOTE +:+ href +:+ QUOTE +:+ ">" in
  let '(w, r) := rng_word r in
  let '(w', r) := rng_word r in
  (html +:+ w +:+ " " +:+ w' +:+ "</a>. ", r).

(** The paths asked of [mint_link] so far are its calls; the count is returned. *)
Fixpoint render_loop (fuel : nat) (mint_link : nat -> string -> string) (budget : RenderBudget)
    (target : N) (links_left : N) (calls : nat) (html : string) (r : HmacRng) : option (string * nat) :=
  match fuel with
  | O => None
  | S fuel =>
      if (str_len html <? target) || (0 <? links_left) then
        let html := html +:+ "<p>" in
        let '(sentences, r) := rng_range 2 5 r in
        let '(html, r) := push_sentences (N.to_nat sentences) html r in
        let '(html, links_left, calls, r) :=
          if 0 <? links_left
          then let '(html, r) := push_link mint_link calls html r in (html, links_left - 1, S calls, r)
          else (html, links_left, calls, r) in
        let html := html +:+ "</p>" in
        if max_bytes budget - 64 <=? str_len html then Some (html, calls)
        else render_loop fuel mint_link budget target links_left calls html r
      else Some (html, calls)
  end.

(** Every pass of the loop writes seven bytes or more. *)
Definition render_fuel (budget : RenderBudget) : nat := S (N.to_nat (max_bytes budget)).

(** [max_bytes - 64] is the code's for a budget of 64 bytes or more, as all are. *)
Definition render_page (seed : list N) (budget : RenderBudget) (mint_link : nat -> string -> string) :
    option (string * nat) :=
  let '(link_count, r) := rng_range (min_links budget) (max_links budget) (rng_new seed) in
  let reserve := 128 * link_count + 256 in
  let '(target, r) := rng_range (min_bytes budget)
    (N.max (max_bytes budget - reserve) (min_bytes budget)) r in
  let html := "<!doctype html><html><head><meta charset=" +:+ QUOTE +:+ "utf-8" +:+ QUOTE +:+ "><title>" in
  let '(w, r) := rng_word r in
  let '(w', r) := rng_word r in
  let html := html +:+ w +:+ " " +:+ w' +:+ "</title></head><body>" in
  '(html, calls) ← render_loop (render_fuel budget) mint_link budget target link_count 0 html r;
  Some (html +:+ "</body></html>", calls).

(** ** Serving *)

(** What [serve_maze] reads of a request; the method is GET or HEAD or another. *)
Record MazeServe : Type := {
  ms_runtime : MazeRuntime; ms_host : string; ms_client_ip : option IpAddr;
  ms_source : option SourceNetwork; ms_readable : bool; ms_raw_path : string }.

(** The part of the path after the prefix; the route was found by its prefix. *)
Definition after_prefix (req : MazeServe) : string :=
  let n := S (String.length (route_prefix (mr_keys (ms_runtime req)))) in
  chars_string (drop n (string_chars (ms_raw_path req))).

Definition serve_class (req : MazeServe) (now : N) : TokenClass * option string :=
  if ms_readable req then
    match parse_route (after_prefix req) with
    | None => (Malformed, None)
    | Some parsed =>
        (classify (mr_keys (ms_runtime req)) (pr_path parsed) (pr_token parsed) (ms_source req) now,
         Some (pr_path parsed))
    end
  else (Malformed, None).

(** The seed and the authentication of the page that is rendered, and the poison
    memory after it; the flag says an offense is emitted. *)
Record Served : Type := {
  se_class : TokenClass; se_seed : list N; se_authenticated : bool; se_poison : PoisonStore;
  se_offense : bool }.
Definition serve_maze (req : MazeServe) (now instant instant' : N) (poison : PoisonStore) : Served :=
  let keys := mr_keys (ms_runtime req) in
  let '(class, maze_path) := serve_class req now in
  let '(poison, offense) :=
    match is_authenticated class, ms_source req with
    | true, Some network =>
        let id := memory_id (memory_key keys) (ms_host req) (mr_name (ms_runtime req)) network in
        (poison_set id (mr_name (ms_runtime req)) (mz_memory_ttl (mr_config (ms_runtime req)))
           instant instant' poison, bool_decide (is_Some (ms_client_ip req)))
    | _, _ => (poison, false)
    end in
  let seed_input := string_bytes (default (after_prefix req) maze_path) in
  {| se_class := class;
     se_seed := page_seed (if is_authenticated class then render_key keys else decoy_key keys) seed_input;
     se_authenticated := is_authenticated class; se_poison := poison; se_offense := offense |}.

(** The address [render_maze] mints for a path. *)
Definition maze_href (keys : MazeKeys) (token path : string) : string :=
  "/" +:+ route_prefix keys +:+ "/" +:+ token +:+ "/" +:+ path.
Definition mint_link (keys : MazeKeys) (authenticated : bool) (source : option SourceNetwork)
    (expires : N) (nonce : list N) (path : string) : string :=
  let token := if authenticated then mint keys path source expires nonce
               else mint_decoy keys path source expires nonce in
  maze_href keys token path.

(** The link of [lure_fragment]. *)
Definition lure_link (runtime : MazeRuntime) (client_ip : option IpAddr) (page_path : string)
    (now : N) (nonce : list N) : option string :=
  let keys := mr_keys runtime in
  let seed := page_seed (render_key keys) (string_bytes page_path) in
  path ← head (plan_links seed {| min_links := 1; max_links := 1; min_bytes := 0; max_bytes := 0 |});
  Some (mint_link keys true (from_ip <$> client_ip) (now + mz_token_ttl (mr_config runtime)) nonce path).

(** ** Tables per host *)

Inductive MazeLookup : Type := NoMazes | Table (table : MazeTable) | Refused.
(** [StateInner::maze_lookup], with the cache of hosts behind wildcards. *)
Definition maze_lookup (mazes : list MazeConfig) (master : list N) (tables : gmap string MazeTable)
    (canonical_host : string) (cache : gmap string (option MazeTable)) :
    MazeLookup * gmap string (option MazeTable) :=
  match mazes with
  | [] => (NoMazes, cache)
  | _ =>
      match tables !! canonical_host with
      | Some table => (Table table, cache)
      | None =>
          match cache !! canonical_host with
          | Some cached => (match cached with Some t => Table t | None => Refused end, cache)
          | None =>
              let cache := if 4096 <=? N.of_nat (size cache) then ∅ else cache in
              match build_table master canonical_host mazes with
              | Ok table => (Table table, <[canonical_host := Some table]> cache)
              | Err _ => (Refused, <[canonical_host := None]> cache)
              end
          end
      end
  end.

(** [StateInner::poison_returned], on the table of the host. *)
Definition poison_returned (lookup : MazeLookup) (canonical_host : string) (source : SourceNetwork)
    (now : N) (poison : PoisonStore) : bool :=
  match lookup with
  | Table table =>
      existsb (fun r => poison_contains
        (memory_id (memory_key (mr_keys r)) canonical_host (mr_name r) source) now poison)
        (map_to_list table).*2
  | _ => false
  end.
End Render.

(** ** Paths: what is accepted, and again *)

(** The grammar of maze paths. *)
Definition maze_path_ok (p : string) : Prop :=
  p <> "" /\ (String.length p <= MAX_PATH_BYTES)%nat /\
  (length (str_split "/" p) <= MAX_SEGMENTS)%nat /\
  Forall (fun s => bad_segment s = false) (str_split "/" p).

Lemma check_segments_ok n l :
  check_segments n l = true <->
  ((l <> [] -> (n + length l <= MAX_SEGMENTS)%nat) /\ Forall (fun s => bad_segment s = false) l).
Proof.
  revert n. induction l as [|s l IH]; intros n; cbn [check_segments]; [by split|].
  destruct (Nat.ltb_spec MAX_SEGMENTS (S n)); cbn [orb].
  { split; [done|]. intros [Hn _]. specialize (Hn ltac:(done)). cbn in Hn. lia. }
  destruct (bad_segment s) eqn:E.
  { split; [done|]. intros [_ Hf]. apply Forall_cons in Hf as [Hf _]. congruence. }
  rewrite IH, Forall_cons. cbn [length]. split.
  - intros [Hn Hf]. split_and!; [|done|done]. intros _. destruct l; [cbn; lia|]. specialize (Hn ltac:(done)). lia.
  - intros [Hn [_ Hf]]. split; [|done]. intros _. specialize (Hn ltac:(done)). lia.
Qed.

Lemma maze_path_no_slash p : maze_path_ok p -> strip_suffix "/" p = None.
Proof.
  intros (_ & _ & _ & Hs). destruct (strip_suffix "/" p) as [r|] eqn:E; [|done].
  apply strip_suffix_some in E as ->. exfalso. rewrite (str_split_app "/" r "") in Hs.
  apply Forall_app in Hs as [_ Hs]. by apply Forall_cons in Hs as [? _].
Qed.

Lemma normalize_some raw p :
  normalize_maze_path raw = Some p <-> (raw = p \/ raw = p +:+ "/") /\ maze_path_ok p.
Proof.
  unfold normalize_maze_path, maze_path_ok. set (q := default raw (strip_suffix "/" raw)).
  assert (Hq : raw = q \/ raw = q +:+ "/").
  { subst q. destruct (strip_suffix "/" raw) as [r|] eqn:E; [right|by left]. by apply strip_suffix_some in E. }
  split.
  - destruct (str_is_empty q) eqn:Ee; [done|]. destruct (Nat.ltb_spec MAX_PATH_BYTES (String.length q)); [done|].
    destruct (check_segments 0 (str_split "/" q)) eqn:Ec; [|done]. intros [= <-].
    apply check_segments_ok in Ec as [Hn Hf]. split_and!; [done|by intros E; rewrite E in Ee|done| |done].
    destruct (str_split_cons "/" q) as (w & ws & E). rewrite E in *. apply Hn. done.
  - intros [Hraw Hp]. assert (q = p) as ->.
    { subst q. destruct Hraw as [-> | ->]; [|by rewrite strip_suffix_app].
      by rewrite (maze_path_no_slash p Hp). }
    destruct Hp as (Hne & Hl & Hn & Hf). destruct (str_is_empty p) eqn:Ee; [by destruct p|].
    destruct (Nat.ltb_spec MAX_PATH_BYTES (String.length p)); [lia|].
    by rewrite (proj2 (check_segments_ok 0 _)).
Qed.

Lemma segment_no_slash s : bad_segment s = false -> str_any (char_eqb "/") s = false.
Proof.
  unfold bad_segment. rewrite !orb_false_iff, negb_false_iff. intros [_ Hs].
  eapply str_all_not_any; [|exact Hs]. intros c. by_char c.
Qed.

(** ** Tokens of the right shape *)

Section Facts.
Context `{MA : MazeApi, ML : !MazeLaws}.

Lemma binding_length k n : length (binding_value k n) = 16%nat /\ bytes (binding_value k n).
Proof.
  unfold binding_value. destruct (hmac_bytes k (frame_str "bagel maze binding v1" ++ frame (to_bytes n))) as [Hb Hl].
  rewrite length_take, Hl. split; [done|by apply Forall_take].
Qed.
Lemma compute_tag_length k h p : length (compute_tag k h p) = 16%nat /\ bytes (compute_tag k h p).
Proof.
  unfold compute_tag. destruct (hmac_bytes k (tag_input h p)) as [Hb Hl].
  rewrite length_take, Hl. split; [done|by apply Forall_take].
Qed.

Definition nonce_ok (nonce : list N) : Prop := length nonce = 16%nat /\ bytes nonce.

(** The header of a token, field by field. *)
Lemma token_header_spec keys source expires nonce :
  nonce_ok nonce -> expires <= u64_max ->
  let h := token_header keys source expires nonce in
  length h = HEADER_LEN /\ bytes h /\
  nth 0 h 0 = TOKEN_VERSION /\ nth 1 h 0 = match source with Some _ => FLAG_BOUND | None => 0 end /\
  of_be_bytes (take 8 (drop 2 h)) = expires /\
  take 16 (drop 26 h) = match source with Some n => binding_value (binding_key keys) n
                        | None => replicate 16 0 end.
Proof.
  intros [Hn Hb] He. cbv zeta. unfold token_header.
  assert (Hgen : forall flags binding, is_byte flags -> length binding = 16%nat -> bytes binding ->
    let h := [TOKEN_VERSION; flags] ++ be_bytes 8 expires ++ nonce ++ binding in
    length h = HEADER_LEN /\ bytes h /\ nth 0 h 0 = TOKEN_VERSION /\ nth 1 h 0 = flags /\
    of_be_bytes (take 8 (drop 2 h)) = expires /\ take 16 (drop 26 h) = binding).
  { intros flags binding Hf Hl Hbb. cbv zeta. split_and!.
    - rewrite !length_app, be_bytes_length, Hn, Hl. done.
    - repeat apply Forall_app_2; [|apply be_bytes_bytes|done|done]. by repeat constructor.
    - done.
    - done.
    - change (of_be_bytes (take 8 (be_bytes 8 expires ++ nonce ++ binding)) = expires).
      rewrite take_app_length' by by rewrite be_bytes_length.
      apply be_bytes_id. unfold u64_max in He. cbn. lia.
    - rewrite !app_assoc. rewrite drop_app_length'; [by rewrite take_ge by lia|].
      rewrite !length_app, be_bytes_length, Hn. done. }
  destruct source as [n|].
  - destruct (binding_length (binding_key keys) n). by apply Hgen.
  - apply Hgen; [done|done|]. by apply Forall_replicate.
Qed.

(** Classifying the encoding of a header with some tag. *)
Lemma classify_encoded keys path header tag source now :
  length header = HEADER_LEN -> bytes header -> length tag = 16%nat -> bytes tag ->
  nth 0 header 0 = TOKEN_VERSION -> N.ldiff (nth 1 header 0) FLAG_BOUND = 0 ->
  classify keys path (b32_encode (header ++ tag)) source now =
    if negb (bool_decide (tag = compute_tag (mac_key keys) header path)) then Invalid
    else if of_be_bytes (take 8 (drop 2 header)) <? now then Expired
    else if N.land (nth 1 header 0) FLAG_BOUND =? 0 then Unbound
    else match source with
         | Some network =>
             if bool_decide (take 16 (drop 26 header) = binding_value (binding_key keys) network)
             then ValidReturn else Transfer
         | None => Transfer
         end.
Proof.
  intros Hh Hhb Ht Htb Hv Hf. set (raw := header ++ tag).
  assert (Hraw : bytes raw) by (by apply Forall_app_2).
  assert (Hlen : length raw = TOKEN_LEN) by (subst raw; rewrite length_app, Hh, Ht; done).
  unfold classify. rewrite b32_length, Hlen, b32_back by done.
  change ((8 * TOKEN_LEN + 4) / 5)%nat with TOKEN_ENCODED_LEN. rewrite Nat.eqb_refl. cbn [negb].
  rewrite Hlen, Nat.eqb_refl, String.eqb_refl. cbn [negb orb].
  assert (Hnth : forall i, (i < HEADER_LEN)%nat -> nth i raw 0 = nth i header 0).
  { intros i Hi. subst raw. apply app_nth1. lia. }
  rewrite !Hnth by (unfold HEADER_LEN, TOKEN_LEN; lia). rewrite Hv, Hf, !N.eqb_refl. cbn [negb orb].
  subst raw. rewrite take_app_length', drop_app_length' by done.
  assert (Hslice : forall a b, (a + b <= HEADER_LEN)%nat -> take b (drop a (header ++ tag)) = take b (drop a header)).
  { intros a b Hab. rewrite (skipn_app a header tag), take_app_le; [done|]. rewrite length_drop. lia. }
  rewrite !Hslice by (unfold HEADER_LEN, TOKEN_LEN; lia).
  destruct source as [n|]; [|done]. done.
Qed.

Lemma ldiff_flag (source : option SourceNetwork) :
  N.ldiff (match source with Some _ => FLAG_BOUND | None => 0 end) FLAG_BOUND = 0.
Proof. by destruct source. Qed.

Lemma mint_class keys path source expires nonce source' now :
  nonce_ok nonce -> expires <= u64_max ->
  classify keys path (mint keys path source expires nonce) source' now =
    if expires <? now then Expired
    else match source, source' with
    | None, _ => Unbound
    | Some n, Some n' =>
        if bool_decide (binding_value (binding_key keys) n = binding_value (binding_key keys) n')
        then ValidReturn else Transfer
    | Some _, None => Transfer
    end.
Proof.
  intros Hn He. destruct (token_header_spec keys source expires nonce Hn He) as (Hl & Hb & H0 & H1 & H2 & H3).
  unfold mint, token_build. set (h := token_header keys source expires nonce) in *.
  destruct (compute_tag_length (mac_key keys) h path) as [Htl Htb].
  assert (Htag : match compute_tag (mac_key keys) h path with
                 | [] => [] | b :: tag => b :: tag end = compute_tag (mac_key keys) h path)
    by (by destruct (compute_tag (mac_key keys) h path)).
  rewrite Htag, classify_encoded; try done; [|by rewrite H1, ldiff_flag].
  rewrite bool_decide_eq_true_2 by done. cbn [negb]. rewrite H2, H3, H1.
  by destruct (expires <? now), source, source'.
Qed.

Lemma mint_decoy_class keys path source expires nonce source' now :
  nonce_ok nonce -> expires <= u64_max ->
  classify keys path (mint_decoy keys path source expires nonce) source' now = Invalid.
Proof.
  intros Hn He. destruct (token_header_spec keys source expires nonce Hn He) as (Hl & Hb & H0 & H1 & H2 & H3).
  unfold mint_decoy, token_build. set (h := token_header keys source expires nonce) in *.
  destruct (compute_tag_length (mac_key keys) h path) as [Htl Htb].
  destruct (compute_tag (mac_key keys) h path) as [|b tag] eqn:Et; [done|].
  apply Forall_cons in Htb as [Hbb Htb].
  rewrite classify_encoded; [| done | done | done | |done|by rewrite H1, ldiff_flag].
  - rewrite Et, bool_decide_eq_false_2; [done|]. intros [= E].
    assert (N.lxor (N.lxor b 1) b = 0) as Hx by (by rewrite E, N.lxor_nilpotent).
    rewrite (N.lxor_comm b 1), N.lxor_assoc, N.lxor_nilpotent, N.lxor_0_r in Hx. done.
  - constructor; [|done]. by apply lxor_byte.
Qed.
End Facts.
