(* ===== verification/MazeFacts.v ===== *)
(** * What mazes keep

    The paths of links, the life of a lure's link from the page to the poison
    memory, the tokens that count, decoys, the table of a host and the memory. *)

From S2P Require Import Prelude Strings Ip Bytes Rate Pending Maze.

Local Open Scope N_scope.

(** ** Generated paths *)

Definition WORD_MAX : nat := 10.
Definition word_ok (w : string) : Prop :=
  str_all segment_char w = true /\ (1 <= String.length w <= WORD_MAX)%nat.

Definition word_okb (w : string) : bool :=
  str_all segment_char w && (1 <=? String.length w)%nat && (String.length w <=? WORD_MAX)%nat.
Lemma corpus_ok : Forall word_ok CORPUS.
Proof.
  assert (H : forallb word_okb CORPUS = true) by vm_refl. rewrite forallb_forall in H.
  apply Forall_forall. intros w Hw. apply list_elem_of_In, H in Hw. unfold word_okb in Hw.
  rewrite !andb_true_iff, !Nat.leb_le in Hw. destruct Hw as [[? ?] ?]. by split_and!.
Qed.

Section Paths.
Context `{MA : MazeApi}.

Lemma rng_range_bounds lo hi r : lo <= hi -> lo <= (rng_range lo hi r).1 <= hi.
Proof.
  intros Hle. unfold rng_range. destruct (next_u32 r) as [v r']. cbn [fst].
  assert (Hm : v mod (hi - lo + 1) < hi - lo + 1) by (apply N.mod_lt; lia).
  generalize dependent (v mod (hi - lo + 1)). intros m Hm. lia.
Qed.

Lemma rng_word_ok r : word_ok (rng_word r).1.
Proof.
  unfold rng_word. pose proof (rng_range_bounds 0 (N.of_nat (length CORPUS) - 1) r ltac:(lia)) as Hb.
  destruct (rng_range _ _ r) as [i r']. cbn [fst] in *.
  eapply Forall_forall; [exact corpus_ok|]. apply list_elem_of_In, nth_In.
  assert (0 < length CORPUS)%nat by (by vm_compute; lia). lia.
Qed.

Lemma generate_segment_ok r :
  bad_segment (generate_segment r).1 = false /\ (String.length (generate_segment r).1 <= 21)%nat.
Proof.
  unfold generate_segment. pose proof (rng_word_ok r) as Hw. destruct (rng_word r) as [w r1].
  destruct (rng_range 0 2 r1) as [d r2]. unfold word_ok, WORD_MAX in *. cbn [fst] in Hw.
  assert (Hok : forall s, str_all segment_char s = true -> (1 <= String.length s <= 21)%nat ->
            bad_segment s = false /\ (String.length s <= 21)%nat).
  { intros s Hs Hl. split; [|lia]. unfold bad_segment. rewrite Hs.
    destruct s; [cbn in Hl; lia|]. destruct (Nat.ltb_spec MAX_SEGMENT_BYTES (String.length (String a s))); [|done].
    unfold MAX_SEGMENT_BYTES in *. lia. }
  destruct (d =? 0); cbn [fst].
  - pose proof (rng_word_ok r2) as Hw'. destruct (rng_word r2) as [w' r3]. unfold word_ok, WORD_MAX in Hw'.
    cbn [fst] in *. apply Hok.
    + rewrite !str_all_app, (proj1 Hw), (proj1 Hw'). done.
    + rewrite !string_length_app. cbn [String.length]. lia.
  - apply Hok; [apply Hw|lia].
Qed.

(** The pieces of a path grown by [k] segments. *)
Definition path_inv (k : nat) (p : string) : Prop :=
  length (str_split "/" p) = k /\ Forall (fun s => bad_segment s = false) (str_split "/" p) /\
  (String.length p <= 22 * k)%nat.

Lemma generate_segments_inv n k p r :
  path_inv k p -> path_inv (k + n) (generate_segments n false p r).1.
Proof.
  revert k p r. induction n as [|n IH]; intros k p r Hp; cbn [generate_segments].
  { by rewrite Nat.add_0_r. }
  pose proof (generate_segment_ok r) as [Hs Hl]. destruct (generate_segment r) as [s r']. cbn [fst] in *.
  replace (k + S n)%nat with (S k + n)%nat by lia. apply IH. destruct Hp as (Hk & Hf & Hlen).
  unfold path_inv. change ("/" +:+ s) with (String "/" s).
  rewrite str_split_app, length_app, string_length_app, (str_split_none "/" s) by by apply segment_no_slash.
  cbn [length String.length]. split_and!; [lia| |lia]. apply Forall_app_2; [done|by constructor].
Qed.

Lemma generate_path_ok r : maze_path_ok (generate_path r).1.
Proof.
  unfold generate_path. pose proof (rng_range_bounds 1 3 r ltac:(lia)) as Hb.
  destruct (rng_range 1 3 r) as [n r']. cbn [fst] in Hb.
  destruct (N.to_nat n) as [|m] eqn:En; [lia|]. cbn [generate_segments].
  pose proof (generate_segment_ok r') as [Hs Hl]. destruct (generate_segment r') as [s r1]. cbn [fst] in *.
  change ("" +:+ "" +:+ s) with s.
  assert (Hp : path_inv (1 + m) (generate_segments m false s r1).1).
  { apply generate_segments_inv. unfold path_inv.
    rewrite (str_split_none "/" s) by by apply segment_no_slash. split_and!; [done|by constructor|lia]. }
  destruct Hp as (Hk & Hf & Hlen). set (p := (generate_segments m false s r1).1) in *.
  unfold maze_path_ok, MAX_PATH_BYTES, MAX_SEGMENTS. split_and!; [|lia|lia|done].
  intros E. rewrite E in Hf. by apply Forall_cons in Hf as [? _].
Qed.

Lemma generate_paths_ok n r : Forall maze_path_ok (generate_paths n r).
Proof.
  revert r. induction n as [|n IH]; intros r; cbn [generate_paths]; [done|].
  pose proof (generate_path_ok r). destruct (generate_path r). by constructor.
Qed.
Lemma plan_links_ok seed budget : Forall maze_path_ok (plan_links seed budget).
Proof. unfold plan_links. destruct (rng_range _ _ _). apply generate_paths_ok. Qed.

Lemma generate_paths_length n r : length (generate_paths n r) = n.
Proof.
  revert r. induction n as [|n IH]; intros r; [done|]. cbn [generate_paths].
  destruct (generate_path r). cbn [length]. by rewrite IH.
Qed.

(** A page plans as many links as its budget allows. *)
Lemma plan_links_length seed budget :
  min_links budget <= max_links budget ->
  min_links budget <= N.of_nat (length (plan_links seed budget)) <= max_links budget.
Proof.
  intros Hb. unfold plan_links. pose proof (rng_range_bounds _ _ (rng_new seed) Hb).
  destruct (rng_range _ _ _) as [c r]. rewrite generate_paths_length. cbn [fst] in *. lia.
Qed.
End Paths.

(** ** A link, requested *)

Section Routes.
Context `{MA : MazeApi, ML : !MazeLaws}.

(** What a string of the token alphabet does not hold. *)
Lemma token_no_slash l : bytes l -> str_any (char_eqb "/") (b32_encode l) = false.
Proof.
  intros Hl. eapply str_all_not_any; [|by apply b32_alphabet]. intros c. by_char c.
Qed.

Lemma token_built keys path source expires nonce corrupt :
  nonce_ok nonce -> expires <= u64_max ->
  exists raw, bytes raw /\ length raw = TOKEN_LEN /\
    token_build keys path source expires nonce corrupt = b32_encode raw.
Proof.
  intros Hn He. destruct (token_header_spec keys source expires nonce Hn He) as (Hl & Hb & _).
  unfold token_build. set (h := token_header keys source expires nonce) in *.
  destruct (compute_tag_length (mac_key keys) h path) as [Htl Htb].
  destruct (compute_tag (mac_key keys) h path) as [|b tag]; [done|].
  apply Forall_cons in Htb as [Hbb Htb]. eexists. split_and!; [| |done].
  - apply Forall_app_2; [done|]. constructor; [|done]. destruct corrupt; [by apply lxor_byte|done].
  - rewrite length_app, Hl. cbn [length] in *. unfold HEADER_LEN, TOKEN_LEN in *. lia.
Qed.

Lemma drop_prefix_chars (p s : string) n :
  n = String.length p -> chars_string (drop n (string_chars (p +:+ s))) = s.
Proof.
  intros ->. induction p as [|c p IH]; [by apply chars_string_chars|].
  change (chars_string (drop (String.length p) (string_chars (p +:+ s))) = s). exact IH.
Qed.

(** The route of an address made of a token and a path. *)
Lemma route_of_href raw path keys :
  bytes raw -> length raw = TOKEN_LEN -> maze_path_ok path ->
  parse_route (chars_string (drop (S (String.length (route_prefix keys)))
    (string_chars (maze_href keys (b32_encode raw) path)))) =
  Some {| pr_token := b32_encode raw; pr_path := path |}.
Proof.
  intros Hb Hl Hp. unfold maze_href. set (token := b32_encode raw).
  transitivity (parse_route (String "/" (token +:+ String "/" path))).
  { f_equal. cbn [drop skipn]. by apply (drop_prefix_chars (route_prefix keys)). }
  unfold parse_route.
  change (strip_prefix "/" (String "/" (token +:+ String "/" path))) with (Some (token +:+ String "/" path)).
  cbn [mbind option_bind]. rewrite split_once_app by by apply token_no_slash.
  destruct (str_is_empty token) eqn:Ee.
  { pose proof (b32_length raw Hb) as Hlen. fold token in Hlen. rewrite Hl in Hlen. by destruct token. }
  cbn [mbind option_bind]. rewrite Ee.
  by rewrite (proj2 (normalize_some path path)) by (split; [by left|done]).
Qed.

(** What a request for such an address is classified as. *)
Lemma serve_class_href req now raw path :
  ms_readable req = true -> bytes raw -> length raw = TOKEN_LEN -> maze_path_ok path ->
  ms_raw_path req = maze_href (mr_keys (ms_runtime req)) (b32_encode raw) path ->
  serve_class req now =
    (classify (mr_keys (ms_runtime req)) path (b32_encode raw) (ms_source req) now, Some path).
Proof.
  intros Hr Hb Hl Hp Hraw. unfold serve_class, after_prefix. rewrite Hr, Hraw.
  by rewrite route_of_href.
Qed.
End Routes.

(** ** Tokens that count *)

Section Tokens.
Context `{MA : MazeApi, ML : !MazeLaws}.

Lemma flag_bound f : N.ldiff f FLAG_BOUND = 0 -> N.land f FLAG_BOUND <> 0 -> f = FLAG_BOUND.
Proof.
  intros Hd Hl. pose proof (N.lor_ldiff_and f FLAG_BOUND) as E. rewrite Hd, N.lor_0_l in E.
  assert (Hm : N.land f FLAG_BOUND < 2) by (change FLAG_BOUND with (N.ones 1); rewrite N.land_ones; by apply N.mod_lt).
  rewrite E in Hl, Hm. unfold FLAG_BOUND. lia.
Qed.

Lemma slice_bytes a b l : bytes l -> bytes (take b (drop a l)).
Proof. intros Hl. by apply Forall_take, Forall_drop. Qed.
Lemma slice_length (a b : nat) (l : list N) : (a + b <= length l)%nat -> length (take b (drop a l)) = b.
Proof. intros Hl. rewrite length_take, length_drop. lia. Qed.

(** The header of a decoded token is made of its fields. *)
Lemma header_fields raw :
  (HEADER_LEN <= length raw)%nat ->
  take HEADER_LEN raw =
    [nth 0 raw 0; nth 1 raw 0] ++ take 8 (drop 2 raw) ++ take 16 (drop 10 raw) ++ take 16 (drop 26 raw).
Proof.
  intros Hl. change HEADER_LEN with (2 + (8 + (16 + 16)))%nat in *.
  rewrite <- !take_take_drop, !drop_drop. f_equal.
  destruct raw as [|v [|f raw]]; [cbn in Hl; lia..|done].
Qed.

(** C14: only minted tokens count. A token is a valid return for a network on a
    path exactly when it is what minting for that network and that path gives,
    for some nonce and an expiry that has not passed: not a decoy, not a token
    without a network, of another network or of another path, nor any other
    string. *)
Theorem valid_return_exact keys path encoded network now :
  classify keys path encoded (Some network) now = ValidReturn <->
  exists expires nonce, nonce_ok nonce /\ now <= expires <= u64_max /\
    encoded = mint keys path (Some network) expires nonce.
Proof.
  split.
  - unfold classify. destruct (_ =? _)%nat; [|done]. cbn [negb].
    destruct (b32_decode encoded) as [raw|] eqn:Ed; [|done]. apply b32_decode_bytes in Ed.
    destruct (Nat.eqb_spec (length raw) TOKEN_LEN) as [Hl|]; [|done].
    destruct (String.eqb_spec (b32_encode raw) encoded) as [He|]; [|done]. cbn [negb orb].
    destruct (N.eqb_spec (nth 0 raw 0) TOKEN_VERSION) as [Hv|]; [|done].
    destruct (N.eqb_spec (N.ldiff (nth 1 raw 0) FLAG_BOUND) 0) as [Hf|]; [|done]. cbn [negb orb].
    destruct (decide (drop HEADER_LEN raw = compute_tag (mac_key keys) (take HEADER_LEN raw) path)) as [Ht|Ht];
      [rewrite bool_decide_eq_true_2 by done|by rewrite bool_decide_eq_false_2 by done]. cbn [negb].
    destruct (N.ltb_spec (of_be_bytes (take 8 (drop 2 raw))) now) as [|Hn]; [done|].
    destruct (N.eqb_spec (N.land (nth 1 raw 0) FLAG_BOUND) 0) as [|Hb]; [done|].
    case_bool_decide as Hbind; [|done]. intros _.
    assert (Hx : length (take 8 (drop 2 raw)) = 8%nat) by (apply slice_length; rewrite Hl; unfold TOKEN_LEN; lia).
    exists (of_be_bytes (take 8 (drop 2 raw))), (take 16 (drop 10 raw)). split_and!.
    + split; [apply slice_length; rewrite Hl; unfold TOKEN_LEN; lia|by apply slice_bytes].
    + done.
    + pose proof (of_be_bytes_lt (take 8 (drop 2 raw)) (slice_bytes 2 8 raw Ed)) as Hlt.
      rewrite Hx in Hlt. unfold u64_max. change (256 ^ N.of_nat 8) with (2 ^ 64) in Hlt. lia.
    + unfold mint, token_build, token_header. rewrite <- He. f_equal.
      transitivity (take HEADER_LEN raw ++ drop HEADER_LEN raw); [by rewrite take_drop|].
      assert (Hh : [TOKEN_VERSION; FLAG_BOUND] ++ be_bytes 8 (of_be_bytes (take 8 (drop 2 raw))) ++
                take 16 (drop 10 raw) ++ binding_value (binding_key keys) network = take HEADER_LEN raw).
      { rewrite header_fields by (rewrite Hl; unfold HEADER_LEN, TOKEN_LEN; lia).
        rewrite Hv, (flag_bound _ Hf Hb), Hbind. do 2 f_equal.
        rewrite <- Hx at 1. apply of_be_bytes_inv, slice_bytes, Ed. }
      rewrite Hh, <- Ht. by destruct (drop HEADER_LEN raw).
  - intros (expires & nonce & Hn & [Hlo Hhi] & ->). rewrite mint_class by done.
    destruct (N.ltb_spec expires now); [lia|]. by rewrite bool_decide_eq_true_2.
Qed.
End Tokens.

(** ** The memory *)

Lemma poison_set_get id maze ttl now now' m :
  poison_set id maze ttl now now' m !! id = Some {| en_expires := now' + ttl; en_maze := maze |}.
Proof. apply lookup_insert_eq. Qed.
Lemma poison_set_contains id maze ttl now now' m t :
  poison_contains id t (poison_set id maze ttl now now' m) = (t <? now' + ttl).
Proof. unfold poison_contains. by rewrite poison_set_get. Qed.

Lemma min_expiry_spec l :
  match min_expiry l with
  | Some b => b ∈ l /\ Forall (fun e => en_expires b.2 <= en_expires e.2) l
  | None => l = []
  end.
Proof.
  induction l as [|e l IH]; [done|]. cbn [min_expiry foldr]. fold (min_expiry l).
  destruct (min_expiry l) as [b|].
  - destruct IH as [Hb Hf]. destruct (N.ltb_spec (en_expires b.2) (en_expires e.2)) as [Hlt|Hle].
    + split; [by right|]. constructor; [lia|done].
    + split; [by left|]. constructor; [done|]. eapply Forall_impl; [exact Hf|]. cbn. lia.
  - subst l. split; [by left|by constructor].
Qed.

Lemma evict_oldest_spec (m : PoisonStore) :
  m <> ∅ ->
  exists k e, m !! k = Some e /\ evict_oldest m = delete k m /\
    (forall k' e', m !! k' = Some e' -> en_expires e <= en_expires e').
Proof.
  intros Hm. unfold evict_oldest. pose proof (min_expiry_spec (map_to_list m)) as Hs.
  destruct (min_expiry (map_to_list m)) as [[k e]|].
  - destruct Hs as [Hin Hf]. exists k, e. split_and!; [by apply elem_of_map_to_list|done|].
    intros k' e' He'. apply elem_of_map_to_list in He'. rewrite Forall_forall in Hf. exact (Hf _ He').
  - exfalso. apply Hm. by apply map_to_list_empty_iff.
Qed.

Lemma filter_size_le (P : list N * Entry -> Prop) `{!forall x, Decision (P x)} (m : PoisonStore) :
  (size (filter P m) <= size m)%nat.
Proof. apply map_subseteq_size, map_filter_subseteq. Qed.

Lemma make_room_size now m :
  N.of_nat (size m) <= MEMORY_CAPACITY -> N.of_nat (size (make_room now m)) < MEMORY_CAPACITY.
Proof.
  intros Hm. unfold make_room. cbv zeta.
  set (f := filter (fun e : list N * Entry => now < en_expires e.2) m).
  assert (Hf : (size f <= size m)%nat) by apply filter_size_le.
  destruct (N.leb_spec MEMORY_CAPACITY (N.of_nat (size f))); [|done].
  destruct (evict_oldest_spec f) as (k & e & Hk & -> & _).
  { intros E. assert (size f = 0%nat) by (by apply map_size_empty_iff). unfold MEMORY_CAPACITY in *. lia. }
  rewrite map_size_delete, Hk. unfold MEMORY_CAPACITY in *. lia.
Qed.

(** What making room keeps. *)
Lemma make_room_keeps (now : N) (m : PoisonStore) (k : list N) (e : Entry) :
  m !! k = Some e -> now < en_expires e ->
  make_room now m !! k = Some e \/
  ((forall k' e', m !! k' = Some e' -> now < en_expires e' -> en_expires e <= en_expires e') /\
   make_room now m !! k = None).
Proof.
  intros Hk He. unfold make_room. cbv zeta.
  set (f := filter (fun e : list N * Entry => now < en_expires e.2) m).
  assert (Hf : f !! k = Some e) by (by apply map_lookup_filter_Some).
  destruct (_ <=? _); [|by left].
  destruct (evict_oldest_spec f) as (k0 & e0 & Hk0 & -> & Hmin).
  { intros E. by rewrite E, lookup_empty in Hf. }
  destruct (decide (k0 = k)) as [->|Hne]; [right|left; by rewrite lookup_delete_ne].
  rewrite Hf in Hk0. injection Hk0 as <-. split; [|apply lookup_delete_eq].
  intros k' e' Hk' Hlive. apply (Hmin k'). by apply map_lookup_filter_Some.
Qed.

(** The poison memory is bounded and forgets only what it must. Remembering a
    network never takes the memory over its capacity; the network is remembered
    for the time to live from the clock read after making room; and what the
    memory held is still there, unless it had expired, or the memory was full,
    the network new, and the entry the first of the live ones to expire. *)
Theorem poison_set_spec (id : list N) (maze : string) (ttl now now' : N) (m : PoisonStore) :
  N.of_nat (size m) <= MEMORY_CAPACITY ->
  let m' := poison_set id maze ttl now now' m in
  N.of_nat (size m') <= MEMORY_CAPACITY /\
  (forall t, poison_contains id t m' = (t <? now' + ttl)) /\
  (forall k e, k <> id -> m !! k = Some e ->
     m' !! k = Some e \/ en_expires e <= now \/
     (N.of_nat (size m) = MEMORY_CAPACITY /\ m !! id = None /\ m' !! k = None /\
      forall k' e', m !! k' = Some e' -> now < en_expires e' -> en_expires e <= en_expires e')).
Proof.
  intros Hm. cbv zeta. split_and!.
  - unfold poison_set. cbv zeta. rewrite map_size_insert.
    destruct (N.leb_spec MEMORY_CAPACITY (N.of_nat (size m))) as [Hfull|Hfree]; cbn [andb].
    + destruct (m !! id) as [e|] eqn:Ei; cbn [is_some negb].
      * by rewrite Ei.
      * pose proof (make_room_size now m Hm) as Hr. destruct (make_room now m !! id); unfold Datatypes.id; lia.
    + destruct (m !! id); unfold Datatypes.id; lia.
  - intros t. apply poison_set_contains.
  - intros k e Hne Hk. unfold poison_set. cbv zeta. rewrite lookup_insert_ne by done.
    destruct (N.leb_spec MEMORY_CAPACITY (N.of_nat (size m))) as [Hfull|]; cbn [andb]; [|by left].
    destruct (m !! id) as [e'|] eqn:Ei; cbn [is_some negb]; [by left|].
    destruct (N.leb_spec (en_expires e) now) as [Hx|Hlive]; [right; by left|].
    destruct (make_room_keeps now m k e Hk Hlive) as [Hkeep|[Hmin Hgone]]; [by left|].
    right. right. split_and!; [lia|done|done|done].
Qed.

(** ** A lure, followed *)

Section Lure.
Context `{MA : MazeApi, ML : !MazeLaws}.

Lemma mint_raw keys path source expires nonce :
  nonce_ok nonce -> expires <= u64_max ->
  exists raw, bytes raw /\ length raw = TOKEN_LEN /\ mint keys path source expires nonce = b32_encode raw.
Proof. apply token_built. Qed.
Lemma mint_decoy_raw keys path source expires nonce :
  nonce_ok nonce -> expires <= u64_max ->
  exists raw, bytes raw /\ length raw = TOKEN_LEN /\ mint_decoy keys path source expires nonce = b32_encode raw.
Proof. apply token_built. Qed.

(** The class of the request for a minted link. *)
Lemma serve_class_link req now authenticated source expires nonce path :
  nonce_ok nonce -> expires <= u64_max -> maze_path_ok path -> ms_readable req = true ->
  ms_raw_path req = mint_link (mr_keys (ms_runtime req)) authenticated source expires nonce path ->
  (serve_class req now).1 =
    if authenticated
    then classify (mr_keys (ms_runtime req)) path
           (mint (mr_keys (ms_runtime req)) path source expires nonce) (ms_source req) now
    else Invalid.
Proof.
  intros Hn He Hp Hr Hraw. unfold mint_link in Hraw. destruct authenticated.
  - destruct (mint_raw (mr_keys (ms_runtime req)) path source expires nonce Hn He) as (raw & Hb & Hl & E).
    rewrite E in *. by rewrite (serve_class_href req now raw path).
  - rewrite <- (mint_decoy_class (mr_keys (ms_runtime req)) path source expires nonce (ms_source req) now Hn He).
    destruct (mint_decoy_raw (mr_keys (ms_runtime req)) path source expires nonce Hn He) as (raw & Hb & Hl & E).
    rewrite E in *. by rewrite (serve_class_href req now raw path).
Qed.

(** C15: following the lure poisons the network. The hidden link written into a page
    exists and, when it is requested before its token expires from the network it
    was made for, is a valid return: the page is rendered with the real key, an
    offense is emitted, and until the memory runs out every request of that
    network to that host counts as having returned the poison. *)
Theorem lure_return rt host ip page now nonce :
  nonce_ok nonce -> now + mz_token_ttl (mr_config rt) <= u64_max ->
  exists href, lure_link rt (Some ip) page now nonce = Some href /\
  forall ip' later instant instant' poison,
    from_ip ip' = from_ip ip -> later <= now + mz_token_ttl (mr_config rt) ->
    let s := serve_maze {| ms_runtime := rt; ms_host := host; ms_client_ip := Some ip';
                           ms_source := Some (from_ip ip'); ms_readable := true; ms_raw_path := href |}
               later instant instant' poison in
    se_class s = ValidReturn /\ se_authenticated s = true /\ se_offense s = true /\
    forall table t, table !! route_prefix (mr_keys rt) = Some rt ->
      t < instant' + mz_memory_ttl (mr_config rt) ->
      poison_returned (Table table) host (from_ip ip') t (se_poison s) = true.
Proof.
  intros Hn He. unfold lure_link. set (budget := {| min_links := 1; max_links := 1; min_bytes := 0; max_bytes := 0 |}).
  pose proof (plan_links_length (page_seed (render_key (mr_keys rt)) (string_bytes page)) budget ltac:(done)) as Hlen.
  pose proof (plan_links_ok (page_seed (render_key (mr_keys rt)) (string_bytes page)) budget) as Hok.
  destruct (plan_links _ budget) as [|path rest]; [cbn in Hlen; lia|].
  apply Forall_cons in Hok as [Hp _]. eexists. split; [done|]. cbn [fmap option_fmap option_map].
  intros ip' later instant instant' poison Hnet Hlater. cbv zeta.
  set (req := {| ms_runtime := rt; ms_host := host; ms_client_ip := Some ip'; ms_source := Some (from_ip ip');
                 ms_readable := true; ms_raw_path := _ |}).
  pose proof (serve_class_link req later true (Some (from_ip ip)) _ nonce path Hn He Hp eq_refl eq_refl) as Hc.
  cbn [ms_runtime ms_source req] in Hc. rewrite mint_class, Hnet, bool_decide_eq_true_2 in Hc by done.
  destruct (N.ltb_spec (now + mz_token_ttl (mr_config rt)) later); [lia|].
  unfold serve_maze. destruct (serve_class req later) as [class p]. cbn [fst] in Hc. subst class.
  cbn [is_authenticated ms_source ms_client_ip req se_class se_authenticated se_offense se_poison].
  split_and!; [done..|]. intros table t Htable Ht. unfold poison_returned. apply existsb_exists.
  exists rt. split.
  - apply list_elem_of_In, list_elem_of_fmap. exists (route_prefix (mr_keys rt), rt).
    split; [done|]. by apply elem_of_map_to_list.
  - cbn [ms_runtime ms_host]. rewrite poison_set_contains. by apply N.ltb_lt.
Qed.

(** Decoys lead nowhere. A link on a page that is not authenticated carries a
    decoy, whatever the network it was made for and whoever requests it, at any
    time: it is refused as invalid, nothing is remembered, no offense is emitted,
    and the page it renders is again one of decoys. *)
Theorem decoys_lead_nowhere req now instant instant' poison source expires nonce seed budget path :
  nonce_ok nonce -> expires <= u64_max -> ms_readable req = true -> path ∈ plan_links seed budget ->
  ms_raw_path req = mint_link (mr_keys (ms_runtime req)) false source expires nonce path ->
  let s := serve_maze req now instant instant' poison in
  se_class s = Invalid /\ se_authenticated s = false /\ se_offense s = false /\ se_poison s = poison.
Proof.
  intros Hn He Hr Hp Hraw. cbv zeta. pose proof (plan_links_ok seed budget) as Hok.
  rewrite Forall_forall in Hok. specialize (Hok _ Hp).
  pose proof (serve_class_link req now false source expires nonce path Hn He Hok Hr Hraw) as Hc.
  unfold serve_maze. destruct (serve_class req now) as [class p]. cbn [fst] in Hc. subst class. done.
Qed.
End Lure.

(** ** What the codes are of *)

Section Frames.
Context `{MA : MazeApi}.

Definition framed (s : string) : Prop := N.of_nat (String.length s) < 2 ^ 32.

Lemma string_bytes_length s : length (string_bytes s) = String.length s.
Proof. unfold string_bytes. rewrite length_fmap. induction s as [|c s IH]; [done|]. cbn. by rewrite IH. Qed.

Lemma frame_inj a b x y :
  N.of_nat (length a) < 2 ^ 32 -> N.of_nat (length b) < 2 ^ 32 ->
  frame a ++ x = frame b ++ y -> a = b /\ x = y.
Proof.
  intros Ha Hb. unfold frame. rewrite <- !app_assoc. intros [Hl E]%app_inj_1; [|by rewrite !be_bytes_length].
  rewrite !N.mod_small in Hl by done. apply be_bytes_inj in Hl; [|done..].
  apply app_inj_1 in E; [done|lia].
Qed.
Lemma frame_str_inj s t x y :
  framed s -> framed t -> frame_str s ++ x = frame_str t ++ y -> s = t /\ x = y.
Proof.
  unfold framed. rewrite <- !string_bytes_length. intros Hs Ht E.
  destruct (frame_inj _ _ _ _ Hs Ht E) as [Eb Ex]. split; [by apply string_bytes_inj|exact Ex].
Qed.

Lemma to_bytes_length n : (exists ip, n = from_ip ip) -> length (to_bytes n) = 6%nat \/ length (to_bytes n) = 18%nat.
Proof.
  intros [[b|b] ->]; [left; reflexivity|right].
  change (S (S (length (take 8 (be_bytes 16 b) ++ replicate 8 0))) = 18%nat).
  rewrite length_app, length_take, length_replicate, be_bytes_length. reflexivity.
Qed.
Lemma to_bytes_inj n n' : to_bytes n = to_bytes n' -> n = n'.
Proof. destruct n, n'; by intros [= ->]. Qed.

Definition collision (key : list N) : Prop := exists x y, x <> y /\ hmac key x = hmac key y.
Definition collision16 (key : list N) : Prop := exists x y, x <> y /\ take 16 (hmac key x) = take 16 (hmac key y).

(** A memory is of one host, one maze and one network: the entries of two of
    them under one key are distinct unless HMAC collides. *)
Theorem memory_id_separates key host host' maze maze' ip ip' :
  framed host -> framed host' -> framed maze -> framed maze' ->
  memory_id key host maze (from_ip ip) = memory_id key host' maze' (from_ip ip') ->
  (host = host' /\ maze = maze' /\ from_ip ip = from_ip ip') \/ collision key.
Proof.
  intros Hh Hh' Hm Hm'. unfold memory_id.
  set (x := frame_str "bagel poison memory v1" ++ frame_str host ++ frame_str maze ++ frame (to_bytes (from_ip ip))).
  set (y := frame_str "bagel poison memory v1" ++ frame_str host' ++ frame_str maze' ++ frame (to_bytes (from_ip ip'))).
  intros E. destruct (decide (x = y)) as [Exy|Hne]; [left|right; by exists x, y].
  unfold x, y in Exy. clear E x y. apply app_inv_head in Exy.
  destruct (frame_str_inj _ _ _ _ Hh Hh' Exy) as [-> Exy']. destruct (frame_str_inj _ _ _ _ Hm Hm' Exy') as [-> Ex].
  split; [reflexivity|]. split; [reflexivity|]. apply to_bytes_inj.
  assert (Hlen : forall i, N.of_nat (length (to_bytes (from_ip i))) < 2 ^ 32).
  { intros i. destruct (to_bytes_length (from_ip i)) as [-> | ->]; [by exists i|lia..]. }
  refine (proj1 (frame_inj _ _ [] [] (Hlen ip) (Hlen ip') _)). rewrite !app_nil_r. exact Ex.
Qed.
End Frames.

(** ** The table of a host *)

Section Tables.
Context `{MA : MazeApi}.

Definition maze_runtime (master : list N) (host : string) (maze : MazeConfig) : MazeRuntime :=
  {| mr_name := mz_name maze; mr_keys := derive_maze_keys master host (mz_name maze); mr_config := maze |}.
Definition maze_prefix (master : list N) (host : string) (maze : MazeConfig) : string :=
  route_prefix (derive_maze_keys master host (mz_name maze)).
(** The table a host should have. *)
Definition maze_entries (master : list N) (host : string) (mazes : list MazeConfig) :
    list (string * MazeRuntime) :=
  (fun maze => (maze_prefix master host maze, maze_runtime master host maze)) <$> mazes.
Definition ideal_table master host mazes : MazeTable := list_to_map (maze_entries master host mazes).

Lemma maze_entries_keys master host mazes :
  (maze_entries master host mazes).*1 = maze_prefix master host <$> mazes.
Proof. unfold maze_entries. by rewrite <- list_fmap_compose. Qed.

Lemma ideal_table_cons master host maze mazes :
  ideal_table master host (maze :: mazes) =
    <[maze_prefix master host maze := maze_runtime master host maze]> (ideal_table master host mazes).
Proof. done. Qed.

Lemma build_table_go_ok master host mazes (table : MazeTable) :
  NoDup (maze_prefix master host <$> mazes) ->
  (forall maze, maze ∈ mazes -> table !! maze_prefix master host maze = None) ->
  build_table_go master host table mazes = Ok (ideal_table master host mazes ∪ table).
Proof.
  revert table. induction mazes as [|maze mazes IH]; intros table Hnd Hfree; cbn [build_table_go].
  { change (ideal_table master host []) with (∅ : MazeTable). by rewrite (left_id_L ∅ (∪)). }
  cbn [fmap list_fmap] in Hnd. apply NoDup_cons in Hnd as [Hni Hnd].
  pose proof (Hfree maze ltac:(by left)) as Hnone. unfold maze_prefix in Hnone. rewrite Hnone.
  rewrite IH; [|done|].
  - f_equal. rewrite ideal_table_cons, <- insert_union_l, insert_union_r; [done|].
    apply not_elem_of_list_to_map_1. by rewrite maze_entries_keys.
  - intros maze' Hin. rewrite lookup_insert_ne; [apply Hfree; by right|].
    intros E. apply Hni. apply list_elem_of_fmap. exists maze'. by split.
Qed.

Lemma build_table_go_err master host mazes (table : MazeTable) :
  ~ (NoDup (maze_prefix master host <$> mazes) /\
     forall maze, maze ∈ mazes -> table !! maze_prefix master host maze = None) ->
  exists e, build_table_go master host table mazes = Err e.
Proof.
  revert table. induction mazes as [|maze mazes IH]; intros table Hbad; cbn [build_table_go].
  { exfalso. apply Hbad. split; [constructor|]. intros maze Hin. by apply elem_of_nil in Hin. }
  destruct (table !! _) as [r|] eqn:Et; [by eexists|]. apply IH. intros [Hnd Hfree]. apply Hbad.
  assert (Hne : forall maze', maze' ∈ mazes ->
    maze_prefix master host maze <> maze_prefix master host maze' /\
    table !! maze_prefix master host maze' = None).
  { intros maze' Hin. specialize (Hfree _ Hin). by apply lookup_insert_None in Hfree as [? ?]. }
  split.
  - cbn [fmap list_fmap]. constructor; [|done]. intros (maze' & E & Hin)%list_elem_of_fmap.
    by destruct (Hne _ Hin).
  - intros maze' [->|Hin]%elem_of_cons; [done|]. by apply Hne.
Qed.

Lemma ideal_lookup master host mazes maze :
  NoDup (maze_prefix master host <$> mazes) -> maze ∈ mazes ->
  ideal_table master host mazes !! maze_prefix master host maze = Some (maze_runtime master host maze).
Proof.
  intros Hnd Hin. apply elem_of_list_to_map_1; [by rewrite maze_entries_keys|].
  apply list_elem_of_fmap. by exists maze.
Qed.
Lemma ideal_lookup_inv master host mazes p r :
  ideal_table master host mazes !! p = Some r ->
  exists maze, maze ∈ mazes /\ p = maze_prefix master host maze /\ r = maze_runtime master host maze.
Proof.
  intros H%elem_of_list_to_map_2. apply list_elem_of_fmap in H as (maze & [= -> ->] & Hin). by exists maze.
Qed.

(** The table of a host. When the route prefixes the mazes derive are distinct,
    building succeeds with exactly one route per maze, each under its own prefix
    with its own keys, and the look-up by name finds a maze exactly when one has
    that name; when two collide, building is refused. *)
Theorem build_table_spec master host mazes :
  (NoDup (maze_prefix master host <$> mazes) ->
   exists table, build_table master host mazes = Ok table /\
     (forall p r, table !! p = Some r <->
        exists maze, maze ∈ mazes /\ p = maze_prefix master host maze /\ r = maze_runtime master host maze) /\
     (forall name r, by_name name table = Some r ->
        exists maze, maze ∈ mazes /\ mz_name maze = name /\ r = maze_runtime master host maze) /\
     (forall maze, maze ∈ mazes -> is_Some (by_name (mz_name maze) table))) /\
  (~ NoDup (maze_prefix master host <$> mazes) -> exists e, build_table master host mazes = Err e).
Proof.
  split.
  - intros Hnd. exists (ideal_table master host mazes). split_and!.
    + unfold build_table. rewrite build_table_go_ok; [by rewrite map_union_empty|done|].
      intros maze _. apply lookup_empty.
    + intros p r. split; [apply ideal_lookup_inv|]. intros (maze & Hin & -> & ->). by apply ideal_lookup.
    + intros name r [Hin Hf]%list_find_bool_some. apply String.eqb_eq in Hf.
      apply list_elem_of_fmap in Hin as ([p r'] & -> & Hin). apply elem_of_map_to_list in Hin.
      apply ideal_lookup_inv in Hin as (maze & Hm & _ & E). cbn [snd] in *. subst r'. exists maze. by split_and!.
    + intros maze Hin. unfold by_name. destruct (list_find_bool _ _) as [r|] eqn:E; [by eexists|].
      exfalso. assert (String.eqb (mr_name (maze_runtime master host maze)) (mz_name maze) = false) as Hf.
      { apply (proj1 (list_find_bool_none _ _) E). apply list_elem_of_fmap.
        exists (maze_prefix master host maze, maze_runtime master host maze). split; [done|].
        apply elem_of_map_to_list. by apply ideal_lookup. }
      cbn [maze_runtime mr_name] in Hf. by rewrite String.eqb_refl in Hf.
  - intros Hbad. apply build_table_go_err. by intros [? _].
Qed.

(** What a look-up gives without a cache. *)
Definition maze_answer (mazes : list MazeConfig) (master : list N) (host : string) : MazeLookup :=
  match mazes with
  | [] => NoMazes
  | _ => match build_table master host mazes with Ok table => Table table | Err _ => Refused end
  end.
Definition tables_built (mazes : list MazeConfig) (master : list N) (tables : gmap string MazeTable) : Prop :=
  forall host table, tables !! host = Some table -> build_table master host mazes = Ok table.
Definition cache_built (mazes : list MazeConfig) (master : list N)
    (cache : gmap string (option MazeTable)) : Prop :=
  forall host cached, cache !! host = Some cached ->
    match build_table master host mazes with Ok table => cached = Some table | Err _ => cached = None end.

(** The cache of maze tables is transparent. Over the tables built at start and
    a cache filled by earlier look-ups, a look-up gives what building the table of
    the host would, and leaves a cache of which the same is true, of 4096 hosts at
    most. *)
Theorem maze_lookup_transparent mazes master tables host cache :
  tables_built mazes master tables -> cache_built mazes master cache ->
  N.of_nat (size cache) <= 4096 ->
  let r := maze_lookup mazes master tables host cache in
  r.1 = maze_answer mazes master host /\ cache_built mazes master r.2 /\ N.of_nat (size r.2) <= 4096.
Proof.
  intros Ht Hc Hs. cbv zeta. unfold maze_lookup, maze_answer. destruct mazes as [|maze mazes]; [done|].
  destruct (tables !! host) as [table|] eqn:Et; [by rewrite (Ht _ _ Et)|].
  destruct (cache !! host) as [cached|] eqn:Ec.
  { specialize (Hc _ _ Ec) as E. destruct (build_table _ _ _); by subst cached. }
  cbv zeta. set (cache' := if 4096 <=? N.of_nat (size cache) then ∅ else cache).
  assert (Hc' : cache_built (maze :: mazes) master cache' /\ N.of_nat (size cache') < 4096 /\ cache' !! host = None).
  { unfold cache'. destruct (N.leb_spec 4096 (N.of_nat (size cache))); by split_and!. }
  clearbody cache'. destruct Hc' as (Hb & Hsize & Hnone).
  assert (Hins : forall v, match build_table master host (maze :: mazes) with
                           | Ok table => v = Some table | Err _ => v = None end ->
            cache_built (maze :: mazes) master (<[host := v]> cache') /\
            N.of_nat (size (<[host := v]> cache')) <= 4096).
  { intros v Hv. split.
    - intros h c. destruct (decide (h = host)) as [->|Hne].
      + rewrite lookup_insert_eq. by intros [= <-].
      + rewrite lookup_insert_ne by done. apply Hb.
    - rewrite map_size_insert, Hnone. lia. }
  destruct (build_table master host (maze :: mazes)) as [table|e]; (split; [done|by apply Hins]).
Qed.
End Tables.

(** ** A page, within its budget *)

Section Pages.
Context `{MA : MazeApi}.

Notation len := String.length.
(** [s] is longer than [t], by [lo] to [hi]. *)
Definition grown (lo hi : nat) (t s : string) : Prop := (len t + lo <= len s <= len t + hi)%nat.

Lemma word_length r : (1 <= len (rng_word r).1 <= WORD_MAX)%nat.
Proof. apply rng_word_ok. Qed.

Lemma push_words_grown n first html r : grown 0 (11 * n) html (push_words n first html r).1.
Proof.
  revert first html r. induction n as [|n IH]; intros first html r; cbn [push_words].
  { unfold grown. cbn [fst]. lia. }
  pose proof (word_length r) as Hw. destruct (rng_word r) as [w r']. cbn [fst] in Hw.
  specialize (IH false (html +:+ (if first then "" else " ") +:+ w) r'). unfold grown, WORD_MAX in *.
  rewrite !string_length_app in IH. destruct first; cbn [String.length] in IH; lia.
Qed.

Lemma push_sentence_grown html r : grown 2 178 html (push_sentence html r).1.
Proof.
  unfold push_sentence. pose proof (rng_range_bounds 6 16 r ltac:(lia)) as Hb.
  destruct (rng_range 6 16 r) as [n r']. cbn [fst] in Hb.
  pose proof (push_words_grown (N.to_nat n) true html r') as Hw.
  destruct (push_words _ _ _ _) as [h r'']. unfold grown in *. cbn [fst] in *.
  rewrite string_length_app. cbn [String.length]. lia.
Qed.
Lemma push_sentences_grown n html r : grown 0 (178 * n) html (push_sentences n html r).1.
Proof.
  revert html r. induction n as [|n IH]; intros html r; cbn [push_sentences].
  { unfold grown. cbn [fst]. lia. }
  pose proof (push_sentence_grown html r) as Hs. destruct (push_sentence html r) as [h r'].
  specialize (IH h r'). unfold grown in *. cbn [fst] in *. lia.
Qed.

(** The longest link a page may be asked to write. *)
Definition links_within (mint_link : nat -> string -> string) (l : nat) : Prop :=
  forall call path, maze_path_ok path -> (len (mint_link call path) <= l)%nat.

Lemma push_link_grown mint_link l call html r :
  links_within mint_link l -> grown 0 (38 + l) html (push_link mint_link call html r).1.
Proof.
  intros Hl. unfold push_link. pose proof (generate_path_ok r) as Hp.
  destruct (generate_path r) as [path r1]. specialize (Hl call path Hp).
  pose proof (word_length r1) as Hw. destruct (rng_word r1) as [w r2].
  pose proof (word_length r2) as Hw'. destruct (rng_word r2) as [w' r3]. unfold grown, WORD_MAX in *.
  cbn [fst] in *. rewrite !string_length_app. cbn [String.length QUOTE]. lia.
Qed.

(** One pass of the loop. *)
Lemma pass_grown mint_link l calls links html r :
  links_within mint_link l ->
  let h1 := html +:+ "<p>" in
  let '(n, r1) := rng_range 2 5 r in
  let '(h2, r2) := push_sentences (N.to_nat n) h1 r1 in
  let '(h3, links', calls', r3) :=
    if 0 <? links then let '(h, r) := push_link mint_link calls h2 r2 in (h, links - 1, S calls, r)
    else (h2, links, calls, r2) in
  grown 7 (935 + l) html (h3 +:+ "</p>") /\ N.of_nat calls' + links' = N.of_nat calls + links /\
  (calls <= calls')%nat.
Proof.
  intros Hl. cbv zeta. pose proof (rng_range_bounds 2 5 r ltac:(lia)) as Hb.
  destruct (rng_range 2 5 r) as [n r1]. cbn [fst] in Hb.
  pose proof (push_sentences_grown (N.to_nat n) (html +:+ "<p>") r1) as Hs.
  destruct (push_sentences _ _ _) as [h2 r2]. unfold grown in *. cbn [fst] in Hs.
  rewrite string_length_app in Hs. cbn [String.length] in Hs. destruct (N.ltb_spec 0 links).
  - pose proof (push_link_grown mint_link l calls h2 r2 Hl) as Hk.
    destruct (push_link mint_link calls h2 r2) as [h3 r3]. unfold grown in Hk. cbn [fst] in Hk.
    rewrite string_length_app. cbn [String.length]. lia.
  - rewrite string_length_app. cbn [String.length]. lia.
Qed.

Lemma render_loop_spec fuel mint_link l budget target links calls html r :
  links_within mint_link l ->
  (len html + 64 < N.to_nat (max_bytes budget))%nat ->
  (N.to_nat (max_bytes budget) < fuel + len html)%nat ->
  exists html' calls',
    render_loop fuel mint_link budget target links calls html r = Some (html', calls') /\
    (len html <= len html')%nat /\ (len html' < N.to_nat (max_bytes budget) + 871 + l)%nat /\
    N.of_nat calls' <= N.of_nat calls + links /\
    ((target <= str_len html' /\ N.of_nat calls' = N.of_nat calls + links) \/
     max_bytes budget <= str_len html' + 64).
Proof.
  intros Hl. revert links calls html r. induction fuel as [|fuel IH]; intros links calls html r Hroom Hfuel; [lia|].
  cbn [render_loop]. destruct ((str_len html <? target) || (0 <? links)) eqn:Econd.
  2:{ exists html, calls. rewrite orb_false_iff, N.ltb_ge, N.ltb_ge in Econd. destruct Econd as [Ht Hk].
      assert (links = 0) as -> by lia. split_and!; [done|lia..|]. left. split; [done|lia]. }
  pose proof (pass_grown mint_link l calls links html r Hl) as Hp. cbv zeta in *.
  destruct (rng_range 2 5 r) as [n r1]. destruct (push_sentences _ _ _) as [h2 r2].
  destruct (if 0 <? links then _ else _) as [[[h3 links'] calls'] r3]. destruct Hp as (Hg & Hc & Hcalls).
  unfold grown in Hg. unfold str_len at 1.
  destruct (N.leb_spec (max_bytes budget - 64) (N.of_nat (len (h3 +:+ "</p>")))) as [Hbrk|Hgo].
  - exists (h3 +:+ "</p>"), calls'. split_and!; [done|lia..|]. right. unfold str_len. lia.
  - destruct (IH links' calls' (h3 +:+ "</p>") r3) as (html' & calls'' & E & H1 & H2 & H3 & H4); [lia..|].
    exists html', calls''. split_and!; [exact E|lia|lia|lia|]. destruct H4 as [[? ?]|?]; [left; split; [done|lia]|by right].
Qed.

(** A page is always finished, within its budget. For a budget as the
    configuration allows, rendering ends; the page asks for at most [max_links]
    links; it runs over [max_bytes] by less than one pass of the loop and its
    link; and unless it stopped at the budget's end it has at least
    [min_links] links and [min_bytes] bytes. *)
Theorem render_page_within seed budget mint_link l :
  links_within mint_link l -> 1024 <= min_bytes budget <= max_bytes budget ->
  min_links budget <= max_links budget ->
  exists html calls, render_page seed budget mint_link = Some (html, calls) /\
    N.of_nat calls <= max_links budget /\
    (str_len html < max_bytes budget + 885 + N.of_nat l) /\
    ((min_bytes budget <= str_len html /\ min_links budget <= N.of_nat calls) \/
     max_bytes budget <= str_len html + 50).
Proof.
  intros Hl Hb Hk. unfold render_page.
  pose proof (rng_range_bounds _ _ (rng_new seed) Hk) as Hc.
  destruct (rng_range _ _ (rng_new seed)) as [count r]. cbn [fst] in Hc. cbv zeta.
  set (hi := N.max (max_bytes budget - (128 * count + 256)) (min_bytes budget)).
  pose proof (rng_range_bounds (min_bytes budget) hi r ltac:(lia)) as Ht.
  destruct (rng_range (min_bytes budget) hi r) as [target r0]. cbn [fst] in Ht. clearbody hi.
  pose proof (word_length r0) as Hw. destruct (rng_word r0) as [w r1].
  pose proof (word_length r1) as Hw'. destruct (rng_word r1) as [w' r2]. cbn [fst] in *.
  set (start := _ +:+ w +:+ " " +:+ w' +:+ "</title></head><body>").
  assert (Hs : (len start <= 120)%nat).
  { unfold start, WORD_MAX in *. rewrite !string_length_app. cbn [String.length QUOTE]. lia. }
  clearbody start.
  destruct (render_loop_spec (render_fuel budget) mint_link l budget target count 0 start r2 Hl)
    as (html & calls & -> & H1 & H2 & H3 & H4); [unfold render_fuel; lia..|].
  cbn [mbind option_bind]. exists (html +:+ "</body></html>"), calls. unfold str_len in *.
  rewrite string_length_app. cbn [String.length]. split_and!; [done|lia|lia|].
  destruct H4 as [[? ?]|?]; [left|right]; lia.
Qed.
End Pages.

(** ** An instance

    A base32 over big-endian values and a keyed polynomial in place of HMAC: enough
    to satisfy every law, so that the theorems apply to concrete mazes. *)

Module Toy.
Fixpoint to_base (m : nat) (v : N) : list N :=
  match m with O => [] | S m => (v / 32 ^ N.of_nat m) mod 32 :: to_base m v end.
Fixpoint of_base (l : list N) : N :=
  match l with [] => 0 | d :: l => d * 32 ^ N.of_nat (length l) + of_base l end.

Lemma to_base_length m v : length (to_base m v) = m.
Proof. induction m as [|m IH]; [done|]. cbn [to_base length]. by rewrite IH. Qed.
Lemma to_base_lt m v : Forall (fun d => d < 32) (to_base m v).
Proof. induction m as [|m IH]; [done|]. cbn [to_base]. constructor; [by apply N.mod_lt|done]. Qed.
Lemma of_to_base m v : of_base (to_base m v) = v mod 32 ^ N.of_nat m.
Proof.
  induction m as [|m IH]; cbn [to_base of_base]; [by rewrite N.mod_1_r|].
  rewrite to_base_length, IH, Nat2N.inj_succ, N.pow_succ_r', (N.mul_comm 32).
  rewrite N.Div0.mod_mul_r. lia.
Qed.

Definition digit_char (d : N) : ascii := ascii_of_N (if d <? 26 then 97 + d else 24 + d).
Definition char_digit (c : ascii) : N := if is_ascii_lowercase c then byte_of c - 97 else byte_of c - 24.
Lemma char_digit_char d : d < 32 -> char_digit (digit_char d) = d.
Proof.
  intros Hd. assert (Hall : forallb (fun n => char_digit (digit_char n) =? n) (N.of_nat <$> seq 0 32) = true) by vm_refl.
  rewrite forallb_forall in Hall. apply N.eqb_eq, Hall. apply list_elem_of_In, list_elem_of_fmap.
  exists (N.to_nat d). rewrite elem_of_seq. lia.
Qed.
Lemma digit_char_ok d : d < 32 -> is_ascii_lowercase (digit_char d) || in_range 50 55 (digit_char d) = true.
Proof.
  intros Hd. assert (Hall : forallb (fun n => is_ascii_lowercase (digit_char n) || in_range 50 55 (digit_char n))
    (N.of_nat <$> seq 0 32) = true) by vm_refl.
  rewrite forallb_forall in Hall. apply Hall. apply list_elem_of_In, list_elem_of_fmap.
  exists (N.to_nat d). rewrite elem_of_seq. lia.
Qed.

Definition digits_of (n : nat) : nat := (8 * n + 4) / 5.
Definition pad_of (n : nat) : N := N.of_nat (5 * digits_of n) - N.of_nat (8 * n).
Definition encode (b : list N) : string :=
  chars_string (digit_char <$> to_base (digits_of (length b)) (of_be_bytes b * 2 ^ pad_of (length b))).
Definition decode (s : string) : option (list N) :=
  let n := (5 * String.length s / 8)%nat in
  let b := be_bytes n (of_base (char_digit <$> string_chars s) / 2 ^ pad_of n) in
  if String.eqb (encode b) s then Some b else None.

Lemma chars_string_length l : String.length (chars_string l) = length l.
Proof. induction l as [|c l IH]; [done|]. cbn. by rewrite IH. Qed.

Lemma encode_length b : String.length (encode b) = digits_of (length b).
Proof. unfold encode. by rewrite chars_string_length, length_fmap, to_base_length. Qed.

Lemma digits_back l : Forall (fun d => d < 32) l -> char_digit <$> (digit_char <$> l) = l.
Proof. induction 1 as [|d l Hd _ IH]; [done|]. cbn [fmap list_fmap]. by rewrite char_digit_char, IH. Qed.

Lemma digits_of_bounds n : (8 * n <= 5 * digits_of n < 8 * n + 5)%nat.
Proof.
  unfold digits_of. pose proof (Nat.div_mod (8 * n + 4) 5 ltac:(done)).
  pose proof (Nat.mod_upper_bound (8 * n + 4) 5 ltac:(done)). lia.
Qed.

Lemma decode_encode b : bytes b -> decode (encode b) = Some b.
Proof.
  intros Hb. unfold decode. rewrite encode_length. pose proof (digits_of_bounds (length b)) as Hd.
  assert (Hn : (5 * digits_of (length b) / 8)%nat = length b).
  { symmetry. apply (Nat.div_unique _ 8 _ (5 * digits_of (length b) - 8 * length b)); lia. }
  rewrite Hn. cbv zeta.
  assert (Hv : of_base (char_digit <$> string_chars (encode b)) = of_be_bytes b * 2 ^ pad_of (length b)).
  { unfold encode. rewrite string_chars_string, digits_back by apply to_base_lt. rewrite of_to_base.
    apply N.mod_small. pose proof (of_be_bytes_lt b Hb) as Hlt.
    replace (32 ^ N.of_nat (digits_of (length b))) with (256 ^ N.of_nat (length b) * 2 ^ pad_of (length b)).
    - apply N.mul_lt_mono_pos_r; [|done]. apply N.neq_0_lt_0, N.pow_nonzero. done.
    - change 256 with (2 ^ 8). change 32 with (2 ^ 5). rewrite <- !N.pow_mul_r, <- N.pow_add_r. f_equal.
      unfold pad_of. lia. }
  rewrite Hv, N.div_mul by by apply N.pow_nonzero. rewrite of_be_bytes_inv by done. by rewrite String.eqb_refl.
Qed.

Definition poly (l : list N) : N := foldl (fun h b => (h * 65599 + b + 1) mod (2 ^ 256 - 189)) 7 l.
Definition code (key message : list N) : list N := be_bytes 32 (poly (key ++ [255] ++ message)).

#[local] Instance toy : MazeApi :=
  {| hmac := code; hkdf_extract := code; hkdf_expand prk info := code prk (concat info);
     b32_encode := encode; b32_decode := decode |}.
#[local] Instance toy_laws : MazeLaws.
Proof.
  split.
  - intros k m. split; [apply be_bytes_bytes|apply be_bytes_length].
  - intros k i. split; [apply be_bytes_bytes|apply be_bytes_length].
  - apply decode_encode.
  - intros s b. cbn. unfold decode. cbv zeta. destruct (String.eqb _ _); [|done]. intros [= <-]. apply be_bytes_bytes.
  - intros b _. apply encode_length.
  - intros b _. cbn. unfold encode. generalize (digits_of (length b)) (of_be_bytes b * 2 ^ pad_of (length b)).
    intros m v. apply str_all_forall. rewrite string_chars_string. apply Forall_fmap.
    eapply Forall_impl; [apply to_base_lt|]. intros d Hd. by apply digit_char_ok.
Qed.

Definition garden : MazeConfig :=
  {| mz_name := "garden"; mz_renderer := "builtin"; mz_token_ttl := 3600; mz_memory_ttl := 86400;
     mz_min_links := 1; mz_max_links := 2; mz_min_bytes := 1024; mz_max_bytes := 1024 |}.
Definition garden_runtime : MazeRuntime := maze_runtime [1; 2; 3] "example.org" garden.
Definition nonce : list N := replicate 16 9.
Lemma nonce_fine : nonce_ok nonce.
Proof. split; [done|]. by apply Forall_replicate. Qed.
Definition reader : IpAddr := V4 3221225985.

(** *** The theorems at concrete mazes *)

Lemma valid_return_exact_witness :
  classify (mr_keys garden_runtime) "stone-mill/river"
    (mint (mr_keys garden_runtime) "stone-mill/river" (Some (from_ip reader)) 5000 nonce)
    (Some (from_ip reader)) 4000 = ValidReturn.
Proof.
  apply valid_return_exact. exists 5000, nonce.
  split; [exact nonce_fine|]. split; [by vm_compute|reflexivity].
Defined.

Definition full_of (id : list N) : PoisonStore := {[ id := {| en_expires := 10; en_maze := "garden" |} ]}.
Lemma poison_set_spec_witness :
  poison_contains [1] 50 (poison_set [1] "garden" 100 20 20 (full_of [2])) = true.
Proof.
  destruct (poison_set_spec [1] "garden" 100 20 20 (full_of [2])) as (_ & H & _); [by vm_compute|].
  rewrite H. reflexivity.
Defined.

Lemma lure_return_witness :
  exists href, lure_link garden_runtime (Some reader) "/about" 1000 nonce = Some href.
Proof.
  destruct (lure_return garden_runtime "example.org" reader "/about" 1000 nonce nonce_fine) as (href & E & _).
  { by vm_compute. }
  exists href. exact E.
Defined.

(** The second of a page's decoys, and a request for it. *)
Definition seed : list N := page_seed (decoy_key (mr_keys garden_runtime)) (string_bytes "index").
Definition budget : RenderBudget :=
  {| min_links := 1; max_links := 1; min_bytes := 1024; max_bytes := 1024 |}.
Definition decoy_path : string := default "" (head (plan_links seed budget)).
Definition decoy_request : MazeServe :=
  {| ms_runtime := garden_runtime; ms_host := "example.org"; ms_client_ip := Some reader;
     ms_source := Some (from_ip reader); ms_readable := true;
     ms_raw_path := mint_link (mr_keys garden_runtime) false (Some (from_ip reader)) 5000 nonce decoy_path |}.
Lemma decoys_lead_nowhere_witness : se_class (serve_maze decoy_request 10 10 10 ∅) = Invalid.
Proof.
  refine (proj1 (decoys_lead_nowhere decoy_request 10 10 10 ∅ (Some (from_ip reader)) 5000 nonce seed budget
    decoy_path nonce_fine _ eq_refl _ eq_refl)).
  - by vm_compute.
  - assert (E : plan_links seed budget = [decoy_path]) by vm_refl. rewrite E. by left.
Defined.

Lemma memory_id_separates_witness :
  ("example.org" = "example.org" /\ "garden" = "garden" /\ from_ip reader = from_ip (V4 3221226000)) \/
  collision [1].
Proof.
  apply memory_id_separates; [by vm_compute..|reflexivity].
Defined.

Lemma build_table_spec_witness :
  exists table, build_table [1; 2; 3] "example.org" [garden] = Ok table.
Proof.
  destruct (build_table_spec [1; 2; 3] "example.org" [garden]) as [H _].
  destruct H as (table & E & _); [apply NoDup_singleton|]. exists table. exact E.
Defined.

Lemma maze_lookup_transparent_witness :
  (maze_lookup [garden] [1; 2; 3] ∅ "example.org" ∅).1 = maze_answer [garden] [1; 2; 3] "example.org".
Proof.
  refine (proj1 (maze_lookup_transparent [garden] [1; 2; 3] ∅ "example.org" ∅ _ _ _)).
  - intros h t. rewrite lookup_empty. discriminate.
  - intros h t. rewrite lookup_empty. discriminate.
  - by vm_compute.
Defined.

Definition plain_link (call : nat) (path : string) : string := "/x".
Lemma render_page_within_witness : is_some (render_page seed budget plain_link) = true.
Proof.
  destruct (render_page_within seed budget plain_link 2) as (html & calls & E & _); [| | |by rewrite E].
  - intros call path _. by vm_compute; lia.
  - by vm_compute.
  - by vm_compute.
Defined.

(** A page longer than [max_bytes]. *)
Example page_over_budget :
  match render_page seed budget plain_link with
  | Some (html, _) => max_bytes budget <? str_len html | None => false end = true.
Proof. vm_refl. Qed.
End Toy.
