(* ===== verification/Condition.v ===== *)
(** * What a condition sees

    [crates/bagel-web/src/rule/condition.rs]: the facts about a request that
    conditions name, and the scope made of them; the browser claims of
    [crates/bagel-web/src/claim.rs] and the census counts of
    [crates/bagel-web/src/net/census.rs] among them. *)

From S2P Require Import Prelude Core Ip Rate Rule.

Local Open Scope N_scope.

(** ** Claims *)

Module Family.
Inductive t : Type := Chrome | Edge | Firefox | Safari | Opera | Samsung | Yandex.
Definition as_str (f : t) : string :=
  match f with
  | Chrome => "chrome" | Edge => "edge" | Firefox => "firefox" | Safari => "safari"
  | Opera => "opera" | Samsung => "samsung" | Yandex => "yandex"
  end.
End Family.

Module Platform.
Inductive t : Type := Windows | MacOs | Ios | Android | ChromeOs | Linux | Unknown.
Definition as_str (p : t) : string :=
  match p with
  | Windows => "windows" | MacOs => "macos" | Ios => "ios" | Android => "android"
  | ChromeOs => "chromeos" | Linux => "linux" | Unknown => "unknown"
  end.
Definition detect (ua : string) : t :=
  if str_contains "Windows" ua then Windows
  else if str_contains "Android" ua then Android
  else if existsb (fun device => str_contains device ua) ["iPhone"; "iPad"; "iPod"] then Ios
  else if str_contains "CrOS" ua then ChromeOs
  else if str_contains "Macintosh" ua || str_contains "Mac OS X" ua then MacOs
  else if str_contains "Linux" ua || str_contains "X11" ua then Linux
  else Unknown.
End Platform.

Record Claim : Type := { family : Family.t; major : N; platform : Platform.t; mobile : bool }.

(** [take_while(is_ascii_digit).take(n)]. *)
Fixpoint leading_digits (n : nat) (s : string) : string :=
  match n, s with
  | S n, String c s => if is_ascii_digit c then String c (leading_digits n s) else EmptyString
  | _, _ => EmptyString
  end.
Definition product_major (ua product : string) : option N :=
  rest ← after_first product ua; parse_unsigned u16_max (leading_digits 5 rest).

(** The products tried in turn, with what else the agent has to name. *)
Definition products : list (string * option string * Family.t) :=
  [("Edg/", None, Family.Edge); ("OPR/", None, Family.Opera);
   ("SamsungBrowser/", None, Family.Samsung); ("YaBrowser/", None, Family.Yandex);
   ("Firefox/", Some "Gecko/", Family.Firefox); ("FxiOS/", None, Family.Firefox);
   ("CriOS/", None, Family.Chrome); ("Chrome/", None, Family.Chrome);
   ("Version/", Some "Safari/", Family.Safari)].

(** [Claim::parse]. *)
Definition claim_parse (ua : string) : option Claim :=
  if (1024 <? N.of_nat (String.length ua)) || negb (starts_with "Mozilla/5.0" ua) then None
  else
    '(family, major) ← first_some (fun '(product, also, family) =>
        major ← product_major ua product;
        if match also with Some s => str_contains s ua | None => true end
        then Some (family, major) else None) products;
    Some {| family := family; major := major; platform := Platform.detect ua;
            mobile := str_contains "Mobile" ua || str_contains "iPhone" ua |}.

(** [Claim::stack] and [Claim::key]. *)
Definition claim_stack (c : Claim) : string :=
  match platform c, family c with
  | Platform.Ios, _ | _, Family.Safari => "safari"
  | _, Family.Firefox => "firefox"
  | _, _ => "chromium"
  end.
Definition claim_key (c : Claim) : string :=
  Family.as_str (family c) +:+ "/" +:+ show_N (major c) +:+ "/" +:+ Platform.as_str (platform c).

(** ** Census counts *)

Record CensusSnapshot : Type := { claim_networks : N; pair_networks : N }.
(** [CensusSnapshot::pair_permille]. *)
Definition pair_permille (s : CensusSnapshot) : N :=
  if claim_networks s =? 0 then 0 else (pair_networks s * 1000 / claim_networks s) `min` u32_max.

Record VisitSnapshot : Type := {
  documents : N; pages : N; assets : N; rendered : bool; greedy : bool }.
Record TrapVerdict : Type := { trap_reason : option string; trap_category : option string }.

(** ** The context *)

Record ConditionContext : Type := {
  host : string; method : string; path : string; query : string; user_agent : string;
  remote_address : string; remote_ip : option IpAddr; http_version : string;
  headers : gmap string string; fp : gmap string string; fp_identity : option string;
  stack : option string; claim : option Claim; census : option CensusSnapshot;
  probe : option N; pow_level : option N; probe_census : option CensusSnapshot;
  network_results : gmap string bool; rate : option RateSnapshot; solves : option RateSnapshot;
  visit : option VisitSnapshot; poison_returned : bool; crawler_verified : bool;
  lease_active : bool; trap : option TrapVerdict;
}.

(** The values of the engine that the scope holds. *)
Inductive Dynamic : Type :=
| DUnit
| DBool (b : bool)
| DInt (n : N)
| DStr (s : string)
| DMap (m : list (string * Dynamic)).

(** [count] and [text]: unit when absent. *)
Definition dcount (o : option N) : Dynamic := match o with Some n => DInt n | None => DUnit end.
Definition dtext (o : option string) : Dynamic := match o with Some s => DStr s | None => DUnit end.
Definition dmap {A} (f : A -> Dynamic) (m : gmap string A) : Dynamic :=
  DMap ((fun e => (e.1, f e.2)) <$> map_to_list m).
Definition dpermille (o : option CensusSnapshot) : Dynamic := dcount (pair_permille <$> o).

(** [format!("{probe:016x}")]. *)
Fixpoint hex_digits (n : nat) (v : N) : list ascii :=
  match n with O => [] | S n => hex_digits n (v / 16) ++ [hex_digit (v mod 16)] end.
Definition hex16 (v : N) : string := chars_string (hex_digits 16 v).

(** [ConditionContext::scope]: the constants pushed, in order. *)
Definition scope_constants (c : ConditionContext) : list (string * Dynamic) :=
  let trap_ := default {| trap_reason := None; trap_category := None |} (trap c) in
  [("host", DStr (host c)); ("method", DStr (method c)); ("path", DStr (path c));
   ("query", DStr (query c)); ("user_agent", DStr (user_agent c));
   ("remote_address", DStr (remote_address c)); ("http_version", DStr (http_version c));
   ("headers", dmap DStr (headers c)); ("fp", dmap DStr (fp c));
   ("networks", dmap DBool (network_results c));
   ("rate", DMap [("available", DBool (is_some (rate c))); ("1s", dcount (last_1 <$> rate c));
      ("10s", dcount (last_10 <$> rate c)); ("60s", dcount (last_60 <$> rate c))]);
   ("claim", DMap [("browser", DBool (is_some (claim c)));
      ("family", dtext ((fun k => Family.as_str (family k)) <$> claim c));
      ("major", dcount (major <$> claim c));
      ("platform", dtext ((fun k => Platform.as_str (platform k)) <$> claim c));
      ("mobile", DBool (match claim c with Some k => mobile k | None => false end));
      ("stack", dtext (claim_stack <$> claim c))]);
   ("census", DMap [("available", DBool (is_some (census c)));
      ("claim_networks", dcount (claim_networks <$> census c));
      ("pair_networks", dcount (pair_networks <$> census c));
      ("pair_permille", dpermille (census c));
      ("probe_available", DBool (is_some (probe_census c)));
      ("probe_networks", dcount (pair_networks <$> probe_census c));
      ("probe_permille", dpermille (probe_census c))]);
   ("probe", DMap [("available", DBool (is_some (probe c)));
      ("profile", dtext (hex16 <$> probe c))]);
   ("pow", DMap [("available", DBool (is_some (pow_level c))); ("level", dcount (pow_level c))]);
   ("solves", DMap [("available", DBool (is_some (solves c)));
      ("10m", dcount (last_10 <$> solves c)); ("60m", dcount (last_60 <$> solves c))]);
   ("visit", DMap [("available", DBool (is_some (visit c)));
      ("rendered", DBool (match visit c with Some v => rendered v | None => false end));
      ("greedy", DBool (match visit c with Some v => greedy v | None => false end));
      ("documents", dcount (documents <$> visit c)); ("pages", dcount (pages <$> visit c));
      ("assets", dcount (assets <$> visit c))]);
   ("poison", DMap [("returned", DBool (poison_returned c))]);
   ("lease", DMap [("active", DBool (lease_active c))]);
   ("crawler", DMap [("verified", DBool (crawler_verified c))]);
   ("trap", DMap ([("available", DBool (is_some (trap c)));
      ("any", DBool (is_some (trap_reason trap_)))] ++
      ((fun reason => (reason, DBool (bool_decide (trap_reason trap_ = Some reason)))) <$>
         ["path"; "user_agent"; "impersonator"]) ++
      [("category", dtext (trap_category trap_))]))].

(** The scope of the engine made of constants. *)
Class ScopeApi `{!RhaiApi} : Type := { scope_of : list (string * Dynamic) -> Scope }.
Definition ctx_scope `{!RhaiApi} `{!ScopeApi} (c : ConditionContext) : Scope :=
  scope_of (scope_constants c).

(** [ConditionContext::with_request_headers]; header values of a rule are text. *)
Definition with_request_headers (c : ConditionContext) (add : HeaderMap) : ConditionContext :=
  let headers := foldl (fun m e => <[e.1 := e.2]> m) (headers c) add in {|
  host := default (host c) (headers !! "host");
  method := method c; path := path c; query := query c;
  user_agent := default (user_agent c) (headers !! "user-agent");
  remote_address := remote_address c; remote_ip := remote_ip c; http_version := http_version c;
  headers := headers; fp := fp c; fp_identity := fp_identity c; stack := stack c;
  claim := claim c; census := census c; probe := probe c; pow_level := pow_level c;
  probe_census := probe_census c; network_results := network_results c; rate := rate c;
  solves := solves c; visit := visit c; poison_returned := poison_returned c;
  crawler_verified := crawler_verified c; lease_active := lease_active c; trap := trap c |}.

(** Every binding a checked condition may name is in the scope, and nothing
    else is. *)
Lemma scope_binds c : (scope_constants c).*1 = BINDINGS.
Proof. done. Qed.

(** A context rule without headers of its own makes the raw [Host] header the
    host conditions below it see, whatever the canonical host was. *)
Lemma context_rehosts c raw :
  headers c !! "host" = Some raw -> host (with_request_headers c []) = raw.
Proof. intros H. cbn. by rewrite H. Qed.

Example claim_example :
  claim_key <$> claim_parse "Mozilla/5.0 (X11; Linux x86_64) AppleWebKit/537.36 Chrome/153.0 Safari/537.36"
  = Some "chrome/153/linux".
Proof. vm_refl. Qed.
