(* ===== verification/Census.v ===== *)
(** * Expiring maps, the census and visits

    [crates/bagel-web/src/net/decay_map.rs], [net/census.rs] and [visit.rs]: maps
    whose entries expire, the counts of networks behind a browser claim, and what
    each session has done. An instant is a number of nanoseconds; the clocks that a
    method reads are its arguments, in the order it reads them. *)

From S2P Require Import Prelude Core Ip Strings Bytes Url Rate Pending.
From S2P Require Import Condition.

Local Open Scope N_scope.

(** ** Expiring maps ([DecayMap]) *)

Definition MAX_ENTRIES : N := 65536.
Definition HOUR : N := 3600 * 1000000000.

Section Decay.
Context {K : Type} `{Countable K} {V : Type}.
Notation Inner := (gmap K (V * N)).
Record DecayMap : Type := { dm_inner : Inner; dm_ttl : N }.
Definition decay_new (ttl : N) : DecayMap := {| dm_inner := ∅; dm_ttl := ttl |}.
Definition with_inner (m : DecayMap) (i : Inner) : DecayMap := {| dm_inner := i; dm_ttl := dm_ttl m |}.

(** [get]; [elapsed] saturates at zero. *)
Definition decay_get (key : K) (now : N) (m : DecayMap) : option V :=
  '(value, inserted) ← dm_inner m !! key;
  if dm_ttl m <? now - inserted then None else Some value.
(** [retain] as [set] uses it. *)
Definition decay_retain (now ttl : N) (i : Inner) : Inner :=
  filter (fun kv => now - kv.2.2 <= ttl) i.
Definition decay_put (key : K) (value : V) (stamp now : N) (m : DecayMap) : DecayMap :=
  let kept := decay_retain now (dm_ttl m) (dm_inner m) in
  with_inner m (if (N.of_nat (size kept) <? MAX_ENTRIES) || is_some (kept !! key)
                then <[key := (value, stamp)]> kept else kept).
Definition decay_set (key : K) (value : V) (now : N) (m : DecayMap) : DecayMap := decay_put key value now now m.
(** [set_with_ttl]; [None] when one of its [unwrap]s panics. *)
Definition decay_set_with_ttl (key : K) (value : V) (ttl started now : N) (m : DecayMap) : option DecayMap :=
  if dm_ttl m <? ttl then None
  else if started <? dm_ttl m - ttl then None
  else Some (decay_put key value (started - (dm_ttl m - ttl)) now m).
Definition decay_len (m : DecayMap) : N := N.of_nat (size (dm_inner m)).
End Decay.
Arguments DecayMap K {_ _} V.

(** ** The census ([FingerprintCensus]) *)

#[global] Instance source_network_countable : Countable SourceNetwork.
Proof.
  refine (inj_countable' (fun n => match n with SN4 l => inl l | SN6 l => inr l end)
                         (fun s => match s with inl l => SN4 l | inr l => SN6 l end) _).
  by intros [].
Defined.

Definition GENERATION : N := 4 * HOUR.
Definition CLAIM_CAP : N := 4096.
Definition NETWORK_CAP : N := 4096.
Definition PAIR_CAP : N := 64.

Notation Networks := (gset SourceNetwork).
Record ClaimEntry : Type := { ce_networks : Networks; ce_pairs : gmap string Networks }.
Definition claim_default : ClaimEntry := {| ce_networks := ∅; ce_pairs := ∅ |}.
Definition set_len (s : Networks) : N := N.of_nat (size s).
Definition pair_len (e : ClaimEntry) (fingerprint : string) : N :=
  match ce_pairs e !! fingerprint with Some s => set_len s | None => 0 end.

Notation Claims := (gmap string ClaimEntry).
Record Generations : Type := { rotated : N; current : Claims; previous : Claims }.
Definition census_new (now : N) : Generations := {| rotated := now; current := ∅; previous := ∅ |}.
Definition rotate (now : N) (g : Generations) : Generations :=
  let elapsed := now - rotated g in
  if GENERATION * 2 <=? elapsed then {| rotated := now; current := ∅; previous := ∅ |}
  else if GENERATION <=? elapsed then {| rotated := now; current := ∅; previous := current g |}
  else g.

(** A set that keeps its first [cap] members. *)
Definition insert_capped (cap : N) (n : SourceNetwork) (s : Networks) : Networks :=
  if set_len s <? cap then {[n]} ∪ s else s.
(** The entry of the claim once the network and the pairing are counted; the flag
    says whether the pairing had room. *)
Definition count_pair (fingerprint : string) (network : SourceNetwork) (entry : ClaimEntry) : bool * ClaimEntry :=
  let networks := insert_capped NETWORK_CAP network (ce_networks entry) in
  if negb (is_some (ce_pairs entry !! fingerprint)) && (PAIR_CAP <=? N.of_nat (size (ce_pairs entry)))
  then (false, {| ce_networks := networks; ce_pairs := ce_pairs entry |})
  else
    let pair := insert_capped NETWORK_CAP network (default ∅ (ce_pairs entry !! fingerprint)) in
    (true, {| ce_networks := networks; ce_pairs := <[fingerprint := pair]> (ce_pairs entry) |}).
(** [u32::try_from(..).unwrap_or(u32::MAX)]. *)
Definition to_u32 (n : N) : N := n `min` u32_max.
Definition census_snapshot (entry : ClaimEntry) (older : option ClaimEntry) (fingerprint : string) : CensusSnapshot :=
  {| claim_networks := to_u32 (set_len (ce_networks entry) +
       match older with Some old => set_len (ce_networks old) | None => 0 end);
     pair_networks := to_u32 (pair_len entry fingerprint +
       match older with Some old => pair_len old fingerprint | None => 0 end) |}.
Definition with_current (g : Generations) (c : Claims) : Generations :=
  {| rotated := rotated g; current := c; previous := previous g |}.

Definition observe (claim fingerprint : string) (network : SourceNetwork) (now : N) (g : Generations) :
    option CensusSnapshot * Generations :=
  let g := rotate now g in
  if negb (is_some (current g !! claim)) && (CLAIM_CAP <=? N.of_nat (size (current g))) then (None, g)
  else
    let '(paired, entry) := count_pair fingerprint network (default claim_default (current g !! claim)) in
    let g := with_current g (<[claim := entry]> (current g)) in
    if paired then (Some (census_snapshot entry (previous g !! claim) fingerprint), g) else (None, g).

(** ** Visits ([VisitTracker]) *)

Definition WINDOW : N := HOUR.
Definition BEACON_BUCKET_SECS : N := 600.
Notation VisitTracker := (DecayMap (list N) VisitSnapshot).
Definition visits_new : VisitTracker := decay_new WINDOW.
Definition visit_default : VisitSnapshot :=
  {| documents := 0; pages := 0; assets := 0; rendered := false; greedy := false |}.

Inductive BeaconKind : Type := Positive | Negative.
#[global] Instance beacon_kind_eq_dec : EqDecision BeaconKind.
Proof. solve_decision. Defined.

(** What a request, or a beacon, adds to a record. *)
Definition visit_count (document : bool) (r : VisitSnapshot) : VisitSnapshot :=
  if document
  then {| documents := sat_add u32_max (documents r) 1; pages := sat_add u32_max (pages r) 1;
          assets := assets r; rendered := rendered r; greedy := greedy r |}
  else {| documents := documents r; pages := pages r; assets := sat_add u32_max (assets r) 1;
          rendered := rendered r; greedy := greedy r |}.
Definition visit_beacon (kind : BeaconKind) (r : VisitSnapshot) : VisitSnapshot :=
  match kind with
  | Positive => {| documents := 0; pages := pages r; assets := assets r; rendered := true; greedy := greedy r |}
  | Negative => {| documents := documents r; pages := pages r; assets := assets r; rendered := rendered r; greedy := true |}
  end.
(** Both methods read the record, change it and write it back, under two locks. *)
Definition visit_update (f : VisitSnapshot -> VisitSnapshot) (session : list N) (now now' : N) (v : VisitTracker) :
    VisitSnapshot * VisitTracker :=
  let record := f (default visit_default (decay_get session now v)) in
  (record, decay_set session record now' v).
Definition visits_record (session : list N) (document : bool) : N -> N -> VisitTracker -> VisitSnapshot * VisitTracker :=
  visit_update (visit_count document) session.
Definition record_beacon (session : list N) (kind : BeaconKind) (now now' : N) (v : VisitTracker) : VisitTracker :=
  (visit_update (visit_beacon kind) session now now' v).2.

(** *** Beacons *)

Definition beacon_tag (kind : BeaconKind) : string := match kind with Positive => "render" | Negative => "never" end.
Section Beacon.
Variable sha256 : list N -> N.
Variable server_key : list N.
Definition beacon_material (session : list N) (host : string) (bucket : N) (kind : BeaconKind) : list N :=
  server_key ++ session ++ string_bytes host ++ be_bytes 8 bucket ++ string_bytes (beacon_tag kind).
Definition beacon_id (session : list N) (host : string) (bucket : N) (kind : BeaconKind) : string :=
  hex_encode (take 16 (be_bytes 32 (sha256 (beacon_material session host bucket kind)))).
Definition current_bucket (now : N) : N := now / BEACON_BUCKET_SECS.
Definition classify_beacon (session : list N) (host : string) (now : N) (id : string) : option BeaconKind :=
  let bucket := current_bucket now in
  first_some (fun '(candidate, kind) =>
      if String.eqb (beacon_id session host candidate kind) id then Some kind else None)
    [(bucket, Positive); (bucket, Negative); (bucket - 1, Positive); (bucket - 1, Negative)].
(** The addresses [beacon_fragment] writes into a page. *)
Definition beacon_url (session : list N) (host : string) (now : N) (kind : BeaconKind) : string :=
  BEACON_PREFIX +:+ beacon_id session host (current_bucket now) kind +:+ ".svg".
End Beacon.

(** * What the census and the visits count

    Both components are compared with the log of what happened: the census counts
    distinct networks up to its caps, a visit record is the session's own events
    since it was last idle for an hour, and a beacon is recognised as what it was. *)

Local Open Scope N_scope.

(** ** The first members of a list *)

Section Firsts.
Context {A : Type} `{Countable A}.

Definition keep (cap : N) (acc : list A) (x : A) : list A :=
  if decide (x ∈ acc) then acc
  else if N.of_nat (length acc) <? cap then acc ++ [x] else acc.
(** The first [cap] distinct members, in order. *)
Definition firsts (cap : N) (l : list A) : list A := foldl (keep cap) [] l.
Definition distinct (l : list A) : N := N.of_nat (size (list_to_set l : gset A)).

Lemma firsts_snoc cap l x : firsts cap (l ++ [x]) = keep cap (firsts cap l) x.
Proof. unfold firsts. by rewrite foldl_app. Qed.
Lemma firsts_nodup cap l : NoDup (firsts cap l).
Proof.
  induction l as [|x l IH] using rev_ind; [constructor|]. rewrite firsts_snoc. unfold keep.
  case_decide; [done|]. destruct (_ <? _); [|done]. apply NoDup_app. split_and!; [done| |by apply NoDup_singleton].
  intros y Hy ->%list_elem_of_singleton. done.
Qed.
Lemma firsts_incl cap l x : x ∈ firsts cap l -> x ∈ l.
Proof.
  induction l as [|y l IH] using rev_ind; [done|]. rewrite firsts_snoc. unfold keep.
  repeat case_match; set_solver.
Qed.
Lemma firsts_keeps cap l x y : y ∈ firsts cap l -> y ∈ firsts cap (l ++ [x]).
Proof. rewrite firsts_snoc. unfold keep. repeat case_match; set_solver. Qed.
Lemma firsts_room cap l x : N.of_nat (length (firsts cap l)) < cap -> x ∈ l -> x ∈ firsts cap l.
Proof.
  induction l as [|y l IH] using rev_ind; [done|]. intros Hl [Hin| ->%list_elem_of_singleton]%elem_of_app.
  - apply firsts_keeps. apply IH; [|done]. revert Hl. rewrite firsts_snoc. unfold keep.
    repeat case_match; rewrite ?length_app; cbn [length]; lia.
  - revert Hl. rewrite firsts_snoc. unfold keep. case_decide; [done|].
    destruct (N.ltb_spec (N.of_nat (length (firsts cap l))) cap); [set_solver|lia].
Qed.
Lemma distinct_snoc l x : distinct (l ++ [x]) = if decide (x ∈ l) then distinct l else distinct l + 1.
Proof.
  unfold distinct. rewrite list_to_set_app_L. cbn [list_to_set]. rewrite (right_id_L ∅ (∪)).
  case_decide as Hx.
  - replace (list_to_set l ∪ {[x]} : gset A) with (list_to_set l : gset A) by set_solver. done.
  - rewrite size_union by set_solver. rewrite size_singleton. lia.
Qed.
(** As many as there are, up to the cap. *)
Lemma firsts_length cap l : N.of_nat (length (firsts cap l)) = distinct l `min` cap.
Proof.
  induction l as [|x l IH] using rev_ind; [cbn; unfold distinct; cbn; rewrite size_empty; lia|].
  rewrite firsts_snoc, distinct_snoc. unfold keep. case_decide as Hx.
  - rewrite IH. rewrite decide_True by (by eapply firsts_incl). done.
  - destruct (N.ltb_spec (N.of_nat (length (firsts cap l))) cap) as [Hl|Hl].
    + rewrite length_app. cbn [length]. rewrite Nat2N.inj_add. cbn. rewrite IH. case_decide as Hin; [|lia].
      exfalso. apply Hx. by apply firsts_room.
    + case_decide; lia.
Qed.
Lemma firsts_cap cap l : N.of_nat (length (firsts cap l)) <= cap.
Proof. rewrite firsts_length. lia. Qed.
Lemma distinct_sub l k : (forall x, x ∈ l -> x ∈ k) -> distinct l <= distinct k.
Proof.
  intros Hs. unfold distinct. assert (size (list_to_set l : gset A) <= size (list_to_set k : gset A))%nat; [|lia].
  apply subseteq_size. intros x. rewrite !elem_of_list_to_set. apply Hs.
Qed.
Lemma firsts_set_size cap l : size (list_to_set (firsts cap l) : gset A) = length (firsts cap l).
Proof. rewrite size_list_to_set; [done|apply firsts_nodup]. Qed.
End Firsts.

(** A map that is a function on the keys of a list. *)
Section Table.
Context {K : Type} `{Countable K} {V : Type}.
Definition table_of (f : K -> V) (keys : list K) : gmap K V := list_to_map ((fun k => (k, f k)) <$> keys).
Lemma table_cons f k keys : table_of f (k :: keys) = <[k := f k]> (table_of f keys).
Proof. done. Qed.
Lemma table_lookup f keys k : table_of f keys !! k = if decide (k ∈ keys) then Some (f k) else None.
Proof.
  induction keys as [|k' keys IH]; [done|]. rewrite table_cons. destruct (decide (k' = k)) as [->|Hk].
  - rewrite lookup_insert_eq. by rewrite decide_True by by left.
  - rewrite lookup_insert_ne by done. rewrite IH. repeat case_decide; set_solver.
Qed.
Lemma table_size f keys : NoDup keys -> size (table_of f keys) = length keys.
Proof.
  induction 1 as [|k keys Hk Hnd IH]; [done|]. rewrite table_cons, map_size_insert_None; [by rewrite IH|].
  rewrite table_lookup. by rewrite decide_False.
Qed.
Lemma table_ext f g keys : (forall k, k ∈ keys -> f k = g k) -> table_of f keys = table_of g keys.
Proof. intros He. apply map_eq. intros k. rewrite !table_lookup. case_decide; [by rewrite He|done]. Qed.
Lemma table_insert_eq f g keys keys' x :
  (forall k, k ∈ keys -> k <> x -> f k = g k) -> (forall k, k ∈ keys' <-> k = x \/ k ∈ keys) ->
  <[x := g x]> (table_of f keys) = table_of g keys'.
Proof.
  intros He Hk. apply map_eq. intros k. rewrite table_lookup. destruct (decide (k = x)) as [->|Hn].
  - rewrite lookup_insert_eq. rewrite decide_True by (apply Hk; by left). done.
  - rewrite lookup_insert_ne by done. rewrite table_lookup. specialize (Hk k).
    case_decide; case_decide; [|tauto|tauto|done]. by rewrite He.
Qed.
End Table.

(** ** The log of the census *)

Record Seen : Type := { s_claim : string; s_fingerprint : string; s_network : SourceNetwork }.
Definition about (c : string) (l : list Seen) : list Seen := List.filter (fun o => String.eqb (s_claim o) c) l.
Definition of_claim (c : string) (l : list Seen) : list SourceNetwork := s_network <$> about c l.
Definition fingerprints_of (c : string) (l : list Seen) : list string := s_fingerprint <$> about c l.
Definition of_pair (c fp : string) (l : list Seen) : list SourceNetwork :=
  s_network <$> List.filter (fun o => String.eqb (s_fingerprint o) fp) (about c l).

(** What a generation that saw a log holds. *)
Definition first_set (l : list SourceNetwork) : Networks := list_to_set (firsts NETWORK_CAP l).
Definition claims_seen (l : list Seen) : list string := firsts CLAIM_CAP (s_claim <$> l).
Definition pairs_seen (c : string) (l : list Seen) : list string := firsts PAIR_CAP (fingerprints_of c l).
Definition entry_of (l : list Seen) (c : string) : ClaimEntry :=
  {| ce_networks := first_set (of_claim c l);
     ce_pairs := table_of (fun fp => first_set (of_pair c fp l)) (pairs_seen c l) |}.
Definition claims_of (l : list Seen) : Claims := table_of (entry_of l) (claims_seen l).

Lemma set_len_first l : set_len (first_set l) = distinct l `min` NETWORK_CAP.
Proof. unfold set_len, first_set. by rewrite firsts_set_size, firsts_length. Qed.
Lemma insert_capped_first n l : insert_capped NETWORK_CAP n (first_set l) = first_set (l ++ [n]).
Proof.
  unfold insert_capped, first_set, set_len. rewrite firsts_set_size, firsts_snoc. unfold keep.
  case_decide as Hn; destruct (_ <? _); try done.
  - apply set_eq. intros x. set_solver.
  - rewrite list_to_set_app_L. set_solver.
Qed.

Lemma about_snoc c l o : about c (l ++ [o]) = about c l ++ (if String.eqb (s_claim o) c then [o] else []).
Proof. unfold about. rewrite List.filter_app. cbn. by destruct (String.eqb _ _). Qed.
Lemma of_claim_same l o : of_claim (s_claim o) (l ++ [o]) = of_claim (s_claim o) l ++ [s_network o].
Proof. unfold of_claim. by rewrite about_snoc, String.eqb_refl, fmap_app. Qed.
Lemma fingerprints_same l o :
  fingerprints_of (s_claim o) (l ++ [o]) = fingerprints_of (s_claim o) l ++ [s_fingerprint o].
Proof. unfold fingerprints_of. by rewrite about_snoc, String.eqb_refl, fmap_app. Qed.
Lemma of_pair_same l o :
  of_pair (s_claim o) (s_fingerprint o) (l ++ [o]) = of_pair (s_claim o) (s_fingerprint o) l ++ [s_network o].
Proof.
  unfold of_pair. rewrite about_snoc, String.eqb_refl, List.filter_app, fmap_app. cbn. by rewrite String.eqb_refl.
Qed.
Lemma of_pair_other fp l o : fp <> s_fingerprint o -> of_pair (s_claim o) fp (l ++ [o]) = of_pair (s_claim o) fp l.
Proof.
  intros Hf. unfold of_pair. rewrite about_snoc, String.eqb_refl, List.filter_app, fmap_app. cbn.
  destruct (String.eqb_spec (s_fingerprint o) fp); [by subst|]. by rewrite app_nil_r.
Qed.
Lemma entry_other l o c : c <> s_claim o -> entry_of (l ++ [o]) c = entry_of l c.
Proof.
  intros Hc. assert (E : about c (l ++ [o]) = about c l).
  { rewrite about_snoc. destruct (String.eqb_spec (s_claim o) c); [by subst|]. by rewrite app_nil_r. }
  unfold entry_of, pairs_seen, of_claim, fingerprints_of, of_pair. by rewrite E.
Qed.

Lemma about_nil c l : c ∉ s_claim <$> l -> about c l = [].
Proof.
  induction l as [|o l IH]; [done|]. cbn. rewrite not_elem_of_cons. intros [Hc Hl].
  destruct (String.eqb_spec (s_claim o) c); [by subst|]. by apply IH.
Qed.
Lemma entry_nil l c : c ∉ s_claim <$> l -> entry_of l c = claim_default.
Proof. intros Hc. unfold entry_of, pairs_seen, of_claim, fingerprints_of, of_pair. by rewrite about_nil. Qed.
Lemma of_pair_nil c fp l : fp ∉ fingerprints_of c l -> of_pair c fp l = [].
Proof.
  unfold fingerprints_of, of_pair. induction (about c l) as [|o k IH]; [done|]. cbn. rewrite not_elem_of_cons.
  intros [Hf Hk]. destruct (String.eqb_spec (s_fingerprint o) fp); [by subst|]. by apply IH.
Qed.

Lemma count_pair_entry l o :
  count_pair (s_fingerprint o) (s_network o) (entry_of l (s_claim o)) =
  (bool_decide (s_fingerprint o ∈ pairs_seen (s_claim o) (l ++ [o])), entry_of (l ++ [o]) (s_claim o)).
Proof.
  unfold count_pair. cbn [ce_networks ce_pairs entry_of].
  rewrite table_lookup, table_size by apply firsts_nodup. rewrite insert_capped_first, <- of_claim_same.
  unfold entry_of, pairs_seen. rewrite fingerprints_same, firsts_snoc.
  set (c := s_claim o). set (fp := s_fingerprint o). unfold keep.
  assert (Ho : forall k, k <> fp -> of_pair c k (l ++ [o]) = of_pair c k l) by (intros; by apply of_pair_other).
  assert (Hp : of_pair c fp (l ++ [o]) = of_pair c fp l ++ [s_network o]) by apply of_pair_same.
  destruct (decide (fp ∈ firsts PAIR_CAP (fingerprints_of c l))) as [Hin|Hout]; cbn [is_some negb andb from_option id].
  - rewrite bool_decide_eq_true_2 by done. f_equal. f_equal. rewrite insert_capped_first, <- Hp.
    apply (table_insert_eq (fun fp => first_set (of_pair c fp l)) (fun fp => first_set (of_pair c fp (l ++ [o]))));
      [|set_solver]. intros k _ Hk. by rewrite Ho.
  - destruct (N.leb_spec PAIR_CAP (N.of_nat (length (firsts PAIR_CAP (fingerprints_of c l))))) as [Hfull|Hroom].
    + destruct (N.ltb_spec (N.of_nat (length (firsts PAIR_CAP (fingerprints_of c l)))) PAIR_CAP); [lia|].
      rewrite bool_decide_eq_false_2 by done. f_equal. f_equal. apply table_ext. intros k Hk.
      rewrite Ho; [done|]. intros ->. done.
    + destruct (N.ltb_spec (N.of_nat (length (firsts PAIR_CAP (fingerprints_of c l)))) PAIR_CAP); [|lia].
      rewrite bool_decide_eq_true_2 by set_solver. f_equal. f_equal.
      assert (Hnil : of_pair c fp l = []).
      { apply of_pair_nil. intros Hf. apply Hout. by apply firsts_room. }
      replace (insert_capped NETWORK_CAP (s_network o) ∅) with (first_set (of_pair c fp (l ++ [o]))).
      * apply (table_insert_eq (fun fp => first_set (of_pair c fp l)) (fun fp => first_set (of_pair c fp (l ++ [o]))));
      [|set_solver]. intros k _ Hk. by rewrite Ho.
      * rewrite Hp, Hnil. by rewrite <- insert_capped_first.
Qed.

(** ** The census and its log *)

Record Log : Type := { l_since : N; l_current : list Seen; l_previous : list Seen }.
Definition log_new (now : N) : Log := {| l_since := now; l_current := []; l_previous := [] |}.
(** A log is turned over after four hours, and forgotten after eight. *)
Definition log_rotate (now : N) (lg : Log) : Log :=
  let elapsed := now - l_since lg in
  if GENERATION * 2 <=? elapsed then {| l_since := now; l_current := []; l_previous := [] |}
  else if GENERATION <=? elapsed then {| l_since := now; l_current := []; l_previous := l_current lg |}
  else lg.
Definition log_step (lg : Log) (e : Seen * N) : Log :=
  let lg := log_rotate e.2 lg in
  {| l_since := l_since lg; l_current := l_current lg ++ [e.1]; l_previous := l_previous lg |}.
Definition census_step (g : Generations) (e : Seen * N) : Generations :=
  (observe (s_claim e.1) (s_fingerprint e.1) (s_network e.1) e.2 g).2.
Definition census_of (lg : Log) : Generations :=
  {| rotated := l_since lg; current := claims_of (l_current lg); previous := claims_of (l_previous lg) |}.

(** The distinct networks a log has behind a claim, and behind a pairing, up to
    the caps. *)
Definition claim_count (c : string) (l : list Seen) : N :=
  if decide (c ∈ claims_seen l) then distinct (of_claim c l) `min` NETWORK_CAP else 0.
Definition pair_count (c fp : string) (l : list Seen) : N :=
  if decide (c ∈ claims_seen l /\ fp ∈ pairs_seen c l) then distinct (of_pair c fp l) `min` NETWORK_CAP else 0.
Definition counted (o : Seen) (lg : Log) : option CensusSnapshot :=
  if decide (s_claim o ∈ claims_seen (l_current lg) /\ s_fingerprint o ∈ pairs_seen (s_claim o) (l_current lg))
  then Some {| claim_networks := claim_count (s_claim o) (l_current lg) + claim_count (s_claim o) (l_previous lg);
               pair_networks := pair_count (s_claim o) (s_fingerprint o) (l_current lg) +
                                pair_count (s_claim o) (s_fingerprint o) (l_previous lg) |}
  else None.

Lemma rotate_log now lg : rotate now (census_of lg) = census_of (log_rotate now lg).
Proof. unfold rotate, log_rotate, census_of. cbn. by repeat case_match. Qed.
Lemma claims_lookup l c : claims_of l !! c = if decide (c ∈ claims_seen l) then Some (entry_of l c) else None.
Proof. apply table_lookup. Qed.
Lemma claim_count_entry c l :
  claim_count c l = match claims_of l !! c with Some e => set_len (ce_networks e) | None => 0 end.
Proof. unfold claim_count. rewrite claims_lookup. case_decide; [|done]. cbn [ce_networks entry_of]. by rewrite set_len_first. Qed.
Lemma pair_len_entry c fp l :
  pair_len (entry_of l c) fp = if decide (fp ∈ pairs_seen c l) then distinct (of_pair c fp l) `min` NETWORK_CAP else 0.
Proof. unfold pair_len. cbn [ce_pairs entry_of]. rewrite table_lookup. case_decide; [|done]. by rewrite set_len_first. Qed.
Lemma pair_count_entry c fp l :
  pair_count c fp l = match claims_of l !! c with Some e => pair_len e fp | None => 0 end.
Proof.
  unfold pair_count. rewrite claims_lookup. destruct (decide (c ∈ claims_seen l)).
  - rewrite pair_len_entry. repeat case_decide; tauto.
  - rewrite decide_False by tauto. done.
Qed.
Lemma pair_le_claim c fp l : pair_count c fp l <= claim_count c l <= NETWORK_CAP.
Proof.
  assert (Hd : distinct (of_pair c fp l) <= distinct (of_claim c l)).
  2:{ unfold pair_count, claim_count. repeat case_decide; try tauto; lia. }
  apply distinct_sub. intros x. unfold of_pair, of_claim. rewrite !list_elem_of_fmap.
  intros (o & -> & Ho). exists o. split; [done|]. apply list_elem_of_In, filter_In in Ho as [Ho _].
  by apply list_elem_of_In.
Qed.

Lemma snapshot_log c fp l p :
  c ∈ claims_seen l -> fp ∈ pairs_seen c l ->
  census_snapshot (entry_of l c) (claims_of p !! c) fp =
  {| claim_networks := claim_count c l + claim_count c p; pair_networks := pair_count c fp l + pair_count c fp p |}.
Proof.
  intros Hc Hf. pose proof (pair_le_claim c fp l). pose proof (pair_le_claim c fp p). unfold census_snapshot, to_u32.
  assert (E1 : set_len (ce_networks (entry_of l c)) = claim_count c l).
  { rewrite claim_count_entry, claims_lookup. by rewrite decide_True. }
  assert (E2 : pair_len (entry_of l c) fp = pair_count c fp l).
  { rewrite pair_count_entry, claims_lookup. by rewrite decide_True. }
  rewrite E1, E2, <- claim_count_entry, <- pair_count_entry. unfold NETWORK_CAP, u32_max in *. f_equal; lia.
Qed.

Lemma claims_step l o :
  s_claim o ∈ claims_seen (l ++ [o]) ->
  <[s_claim o := entry_of (l ++ [o]) (s_claim o)]> (claims_of l) = claims_of (l ++ [o]).
Proof.
  intros Hin. apply (table_insert_eq (entry_of l) (entry_of (l ++ [o]))).
  - intros k _ Hk. by rewrite entry_other.
  - intros k. revert Hin. unfold claims_seen. rewrite fmap_app. change (s_claim <$> [o]) with [s_claim o].
    rewrite firsts_snoc. unfold keep. repeat case_match; set_solver.
Qed.

Lemma observe_log lg o now :
  observe (s_claim o) (s_fingerprint o) (s_network o) now (census_of lg) =
  (counted o (log_step lg (o, now)), census_of (log_step lg (o, now))).
Proof.
  unfold observe. rewrite rotate_log. unfold log_step. cbn [fst snd].
  set (lg' := log_rotate now lg). cbn [current previous census_of].
  assert (Hkeys : claims_seen (l_current lg' ++ [o]) = keep CLAIM_CAP (claims_seen (l_current lg')) (s_claim o)).
  { unfold claims_seen. rewrite fmap_app. change (s_claim <$> [o]) with [s_claim o]. by rewrite firsts_snoc. }
  assert (Hadm : s_claim o ∈ claims_seen (l_current lg' ++ [o]) ->
    default claim_default (claims_of (l_current lg') !! s_claim o) = entry_of (l_current lg') (s_claim o) ->
    (let '(paired, entry) := count_pair (s_fingerprint o) (s_network o)
                  (default claim_default (claims_of (l_current lg') !! s_claim o)) in
     let g := with_current (census_of lg') (<[s_claim o := entry]> (claims_of (l_current lg'))) in
     if paired then (Some (census_snapshot entry (previous g !! s_claim o) (s_fingerprint o)), g) else (None, g)) =
    (counted o {| l_since := l_since lg'; l_current := l_current lg' ++ [o]; l_previous := l_previous lg' |},
     census_of {| l_since := l_since lg'; l_current := l_current lg' ++ [o]; l_previous := l_previous lg' |})).
  { intros Hin E. rewrite E, count_pair_entry. cbv zeta. rewrite claims_step by done. unfold counted, with_current.
    cbn [census_of rotated current previous l_current l_previous l_since].
    destruct (decide (s_fingerprint o ∈ pairs_seen (s_claim o) (l_current lg' ++ [o]))) as [Hf|Hf].
    - rewrite bool_decide_eq_true_2, decide_True by done. by rewrite snapshot_log.
    - rewrite bool_decide_eq_false_2, decide_False by tauto. done. }
  rewrite claims_lookup in *. unfold claims_of at 1. rewrite table_size by apply firsts_nodup.
  unfold keep in Hkeys. fold (claims_seen (l_current lg')).
  destruct (decide (s_claim o ∈ claims_seen (l_current lg'))) as [Hin|Hout]; cbn [is_some negb andb from_option id] in *.
  { apply Hadm; [by rewrite Hkeys|done]. }
  destruct (N.leb_spec CLAIM_CAP (N.of_nat (length (claims_seen (l_current lg'))))) as [Hfull|Hroom].
  - destruct (N.ltb_spec (N.of_nat (length (claims_seen (l_current lg')))) CLAIM_CAP); [lia|].
    unfold counted, census_of. cbn [l_current l_previous l_since]. rewrite decide_False by (rewrite Hkeys; tauto).
    f_equal. f_equal. unfold claims_of. rewrite Hkeys. apply table_ext. intros k Hk. symmetry. apply entry_other.
    intros ->. done.
  - destruct (N.ltb_spec (N.of_nat (length (claims_seen (l_current lg')))) CLAIM_CAP); [|lia].
    apply Hadm; [rewrite Hkeys; set_solver|]. symmetry. apply entry_nil. intros Hc. apply Hout. by apply firsts_room.
Qed.

Lemma census_log now history : foldl census_step (census_new now) history = census_of (foldl log_step (log_new now) history).
Proof.
  induction history as [|e history IH] using rev_ind; [done|]. rewrite !foldl_app, IH. cbn [foldl].
  destruct e as [o t]. unfold census_step at 1. cbn [fst snd]. by rewrite observe_log.
Qed.

(** C31: the census counts distinct networks. After any history of observations,
    one more is answered with the number of distinct networks that presented the
    claim, and that presented it with the fingerprint, in the generation that runs
    and in the one before, each up to its cap; it is answered at all exactly when
    the claim is among the first claims of the running generation and the
    fingerprint among the first of that claim; and the pairing never counts more
    than the claim, so that it is at most a thousand in a thousand. *)
Theorem census_counts start history o now :
  let r := observe (s_claim o) (s_fingerprint o) (s_network o) now (foldl census_step (census_new start) history) in
  r.1 = counted o (log_step (foldl log_step (log_new start) history) (o, now)) /\
  match r.1 with
  | Some s => 1 <= pair_networks s <= claim_networks s /\ claim_networks s <= 2 * NETWORK_CAP /\ pair_permille s <= 1000
  | None => True
  end.
Proof.
  cbv zeta. rewrite census_log, observe_log. cbn [fst]. split; [done|].
  set (lg := log_step _ _). unfold counted. case_decide as Hc; [|done]. cbn [claim_networks pair_networks].
  pose proof (pair_le_claim (s_claim o) (s_fingerprint o) (l_current lg)).
  pose proof (pair_le_claim (s_claim o) (s_fingerprint o) (l_previous lg)).
  assert (1 <= pair_count (s_claim o) (s_fingerprint o) (l_current lg)).
  { unfold pair_count. rewrite decide_True by done.
    assert (El : exists base, l_current lg = base ++ [o]) by (by eexists). destruct El as [base ->].
    rewrite of_pair_same, distinct_snoc. unfold NETWORK_CAP. case_decide as Hin; [|lia].
    enough (size (list_to_set (of_pair (s_claim o) (s_fingerprint o) base) : Networks) <> 0%nat); [unfold distinct; lia|].
    intros E%size_empty_inv. apply (elem_of_list_to_set (C:=Networks)) in Hin. set_solver. }
  split_and!; [lia|lia|lia|]. unfold pair_permille. cbn [claim_networks pair_networks].
  destruct (N.eqb_spec (claim_count (s_claim o) (l_current lg) + claim_count (s_claim o) (l_previous lg)) 0); [lia|].
  etransitivity; [apply N.le_min_l|]. apply N.Div0.div_le_upper_bound. nia.
Qed.

(** Two networks of the running generation and one of the previous, which is seen
    again: three and one. *)
Example census_two_generations :
  let o c f n := {| s_claim := c; s_fingerprint := f; s_network := SN4 [n; 0; 0; 0] |} in
  counted (o "a" "x" 2)
    (foldl log_step (log_new 0) [(o "a" "x" 1, 0); (o "a" "y" 3, GENERATION); (o "a" "x" 2, GENERATION + 1)]) =
  Some {| claim_networks := 3; pair_networks := 2 |}.
Proof. by vm_compute. Qed.

(** * What visits and beacons record

    A visit record is the session's own requests and beacons since it was last idle
    for an hour, whatever other sessions do; the two locks a method takes let
    concurrent ones of a session lose an update. The address of a beacon is routed
    and read back as what it was, for its session and host alone. *)

Local Open Scope N_scope.

(** ** Expiring maps *)

Section Decay.
Context {K : Type} `{Countable K} {V : Type}.
Implicit Types m : DecayMap K V.

Lemma retain_lookup now ttl (i : gmap K (V * N)) k e :
  decay_retain now ttl i !! k = Some e <-> i !! k = Some e /\ now - e.2 <= ttl.
Proof. unfold decay_retain. by rewrite map_lookup_filter_Some. Qed.
Lemma retain_none now ttl (i : gmap K (V * N)) k : i !! k = None -> decay_retain now ttl i !! k = None.
Proof. intros E. unfold decay_retain. apply map_lookup_filter_None. by left. Qed.

(** What [set] drops had expired. *)
Lemma get_set_other key k (v : V) stamp now later m :
  k <> key -> now <= later -> decay_get k later (decay_put key v stamp now m) = decay_get k later m.
Proof.
  intros Hk Hl. unfold decay_get, decay_put. cbn [dm_inner dm_ttl with_inner].
  assert (E : forall kept : gmap K (V * N),
    (if (N.of_nat (size kept) <? MAX_ENTRIES) || is_some (kept !! key) then <[key := (v, stamp)]> kept else kept) !! k =
    kept !! k) by (intros kept; destruct (_ || _); [by rewrite lookup_insert_ne|done]).
  rewrite E. destruct (dm_inner m !! k) as [[w ins]|] eqn:Em; [|by rewrite retain_none].
  destruct (decay_retain _ _ _ !! k) as [e'|] eqn:Er.
  - apply retain_lookup in Er as [Er _]. by simplify_eq.
  - cbn [mbind option_bind]. destruct (N.ltb_spec (dm_ttl m) (later - ins)); [done|]. exfalso.
    assert (decay_retain now (dm_ttl m) (dm_inner m) !! k = Some (w, ins)); [|congruence].
    apply retain_lookup. cbn. split; [done|lia].
Qed.
Lemma get_set_same key (v : V) now later m (keys : gset K) :
  dom (dm_inner m) ⊆ keys -> key ∈ keys -> N.of_nat (size keys) <= MAX_ENTRIES ->
  decay_get key later (decay_set key v now m) = if dm_ttl m <? later - now then None else Some v.
Proof.
  intros Hd Hk Hs. unfold decay_set, decay_put, decay_get. cbn [dm_inner dm_ttl with_inner].
  set (kept := decay_retain now (dm_ttl m) (dm_inner m)).
  assert (E : (N.of_nat (size kept) <? MAX_ENTRIES) || is_some (kept !! key) = true); [|by rewrite E, lookup_insert_eq].
  destruct (kept !! key) eqn:Ek; [apply orb_true_r|]. rewrite orb_false_r. apply N.ltb_lt.
  assert (Hsub : dom kept ⊂ keys).
  { split.
    - intros k [e He]%elem_of_dom. apply Hd. apply elem_of_dom. apply retain_lookup in He as [He _]. by eexists.
    - intros Hin. apply Hin, elem_of_dom in Hk as [? ?]. congruence. }
  apply subset_size in Hsub. rewrite size_dom in Hsub. lia.
Qed.
Lemma put_keys key (v : V) stamp now m k :
  is_Some (dm_inner (decay_put key v stamp now m) !! k) -> k = key \/ is_Some (dm_inner m !! k).
Proof.
  intros [e He]. unfold decay_put in He. cbn [dm_inner with_inner] in He.
  destruct (decide (k = key)); [by left|right]. destruct (_ || _).
  - rewrite lookup_insert_ne in He by done. apply retain_lookup in He as [? _]. by eexists.
  - apply retain_lookup in He as [? _]. by eexists.
Qed.
End Decay.

(** ** Visits *)

Inductive VisitEvent : Type := Asked (document : bool) | Fetched (kind : BeaconKind).
Definition visit_change (e : VisitEvent) : VisitSnapshot -> VisitSnapshot :=
  match e with Asked document => visit_count document | Fetched kind => visit_beacon kind end.
(** An event with the two clocks its method reads. *)
Record Visit : Type := { vi_session : list N; vi_event : VisitEvent; vi_read : N; vi_write : N }.
Definition visit_of (e : Visit) (v : VisitTracker) : VisitSnapshot * VisitTracker :=
  visit_update (visit_change (vi_event e)) (vi_session e) (vi_read e) (vi_write e) v.
Definition visit_step (v : VisitTracker) (e : Visit) : VisitTracker := (visit_of e v).2.

(** A session's record, from its own events, and when it was written. *)
Definition live (at_ : option (VisitSnapshot * N)) (now : N) : option VisitSnapshot :=
  '(r, written) ← at_; if WINDOW <? now - written then None else Some r.
Definition own_step (session : list N) (acc : option (VisitSnapshot * N)) (e : Visit) :
    option (VisitSnapshot * N) :=
  if decide (vi_session e = session)
  then Some (visit_change (vi_event e) (default visit_default (live acc (vi_read e))), vi_write e) else acc.
Definition own_record (session : list N) (history : list Visit) : option (VisitSnapshot * N) :=
  foldl (own_step session) None history.

(** Histories without overlaps, and when they end. *)
Inductive sequential : list Visit -> N -> Prop :=
| sequential_nil : sequential [] 0
| sequential_snoc h t e :
    sequential h t -> t <= vi_read e -> vi_read e <= vi_write e -> sequential (h ++ [e]) (vi_write e).

Lemma own_snoc session h e : own_record session (h ++ [e]) = own_step session (own_record session h) e.
Proof. unfold own_record. by rewrite foldl_app. Qed.
Lemma own_times h t session r written :
  sequential h t -> own_record session h = Some (r, written) -> written <= t.
Proof.
  intros Hs. revert r written. induction Hs as [|h t e Hs IH Hr Hw]; intros r written; [done|]. rewrite own_snoc. unfold own_step.
  case_decide; [by intros [= _ <-]|]. intros E. apply IH in E. lia.
Qed.

Lemma visits_sessions h k :
  is_Some (dm_inner (foldl visit_step visits_new h) !! k) -> k ∈ vi_session <$> h.
Proof.
  induction h as [|e h IH] using rev_ind; [by intros [? ?]|]. rewrite foldl_app, fmap_app. cbn [foldl].
  unfold visit_step at 1, visit_of, visit_update. cbn [snd]. intros [->|Hk]%put_keys; set_solver.
Qed.
Lemma visits_ttl h : dm_ttl (foldl visit_step visits_new h) = WINDOW.
Proof. induction h as [|e h IH] using rev_ind; [done|]. by rewrite foldl_app. Qed.
Lemma visits_live h t session now :
  sequential h t -> distinct (vi_session <$> h) <= MAX_ENTRIES -> t <= now ->
  decay_get session now (foldl visit_step visits_new h) = live (own_record session h) now.
Proof.
  intros Hs. revert session now. induction Hs as [|h t e Hs IH Hr Hw]; intros session now Hd Hn; [done|].
  rewrite fmap_app in Hd. change (vi_session <$> [e]) with [vi_session e] in Hd. rewrite distinct_snoc in Hd.
  rewrite foldl_app, own_snoc. cbn [foldl]. unfold own_step, visit_step at 1, visit_of, visit_update. cbn [snd].
  assert (Hd' : distinct (vi_session <$> h) <= MAX_ENTRIES) by (case_decide; lia).
  destruct (decide (vi_session e = session)) as [<-|He].
  - rewrite (get_set_same _ _ _ _ _ (list_to_set (vi_session <$> (h ++ [e])))).
    + rewrite visits_ttl, IH by (done || lia). done.
    + intros k Hk%elem_of_dom. apply elem_of_list_to_set. rewrite fmap_app. apply elem_of_app. left.
      by apply visits_sessions.
    + apply elem_of_list_to_set. rewrite fmap_app. apply elem_of_app. right. by left.
    + rewrite fmap_app. change (vi_session <$> [e]) with [vi_session e]. fold (distinct ((vi_session <$> h) ++ [vi_session e])).
      by rewrite distinct_snoc.
  - unfold decay_set. rewrite get_set_other by (done || lia). apply IH; [done|lia].
Qed.

(** Visits are counted per session. While methods of the tracker do not overlap
    and no more than its capacity of sessions were ever seen, a method answers with
    the record made of that session's own events since it was last idle for an
    hour, whatever the other sessions did and whatever was dropped for them. *)
Theorem visits_per_session h t e :
  sequential h t -> t <= vi_read e -> vi_read e <= vi_write e -> distinct (vi_session <$> h) <= MAX_ENTRIES ->
  own_record (vi_session e) (h ++ [e]) = Some ((visit_of e (foldl visit_step visits_new h)).1, vi_write e).
Proof.
  intros Hs Hr Hw Hd. rewrite own_snoc. unfold own_step. rewrite decide_True by done.
  unfold visit_of, visit_update. cbn [fst]. by rewrite (visits_live h t).
Qed.

(** Two requests whose methods overlap count once, and a request can undo a beacon. *)
Definition overlapped (f g : VisitSnapshot -> VisitSnapshot) (session : list N) (now : N) (v : VisitTracker) : VisitTracker :=
  let seen := default visit_default (decay_get session now v) in
  decay_set session (g seen) now (decay_set session (f seen) now v).
Example update_lost :
  decay_get [1] 0 (overlapped (visit_count true) (visit_count true) [1] 0 visits_new) =
    Some (visit_count true visit_default) /\
  rendered <$> decay_get [1] 0 (overlapped (visit_beacon Positive) (visit_count true) [1] 0 visits_new) = Some false.
Proof. split; vm_refl. Qed.

Definition two_visits : list Visit :=
  [{| vi_session := [1]; vi_event := Asked true; vi_read := 0; vi_write := 1 |};
   {| vi_session := [2]; vi_event := Fetched Negative; vi_read := 2; vi_write := 3 |}].
Definition third_visit : Visit := {| vi_session := [1]; vi_event := Asked true; vi_read := 4; vi_write := 5 |}.
Lemma visits_per_session_witness :
  own_record [1] (two_visits ++ [third_visit]) =
    Some ((visit_of third_visit (foldl visit_step visits_new two_visits)).1, 5) /\
  (visit_of third_visit (foldl visit_step visits_new two_visits)).1 =
    {| documents := 2; pages := 2; assets := 0; rendered := false; greedy := false |}.
Proof.
  split; [|vm_refl]. apply (visits_per_session two_visits 3 third_visit).
  - apply (sequential_snoc [_] 1); [apply (sequential_snoc [] 0); [constructor|by vm_compute..]|by vm_compute..].
  - by vm_compute.
  - by vm_compute.
  - by vm_compute.
Defined.

(** ** Beacons *)

Lemma hex_digit_inj d e : d < 16 -> e < 16 -> hex_digit d = hex_digit e -> d = e.
Proof.
  intros Hd He E. unfold hex_digit in E. apply (f_equal N_of_ascii) in E.
  assert (Hc : forall x, x < 16 -> (if x <? 10 then 48 + x else 87 + x) < 256) by (intros x Hx; destruct (x <? 10); lia).
  rewrite !N_ascii_embedding in E by (by apply Hc).
  destruct (N.ltb_spec d 10), (N.ltb_spec e 10); lia.
Qed.
Lemma hex_encode_cons b l :
  hex_encode (b :: l) = String (hex_digit (b / 16)) (String (hex_digit (b mod 16)) (hex_encode l)).
Proof. done. Qed.
Lemma hex_encode_inj l k : bytes l -> bytes k -> hex_encode l = hex_encode k -> l = k.
Proof.
  intros Hl. revert k. induction Hl as [|b l Hb Hl IH]; intros k Hk; [by destruct Hk|].
  destruct Hk as [|c k Hc Hk]; [done|]. rewrite !hex_encode_cons. intros [= E1 E2 E3].
  unfold is_byte in *. apply hex_digit_inj in E1; [|apply N.Div0.div_lt_upper_bound; lia..].
  apply hex_digit_inj in E2; [|apply N.mod_lt; lia..]. f_equal; [|by apply IH].
  rewrite (N.div_mod b 16), (N.div_mod c 16) by lia. lia.
Qed.
Lemma hex_encode_length l : String.length (hex_encode l) = (2 * length l)%nat.
Proof. induction l as [|b l IH]; [done|]. rewrite hex_encode_cons. cbn [String.length length]. lia. Qed.

Section Beacon.
Variable sha256 : list N -> N.
Variable server_key : list N.

Lemma material_inj s s' h h' b b' k k' :
  length s = length s' -> b < 2 ^ 64 -> b' < 2 ^ 64 ->
  beacon_material server_key s h b k = beacon_material server_key s' h' b' k' -> s = s' /\ h = h' /\ b = b' /\ k = k'.
Proof.
  intros Hl Hb Hb' E. unfold beacon_material in E. apply app_inv_head in E.
  apply app_inj_1 in E as [-> E]; [|done]. rewrite !app_assoc in E.
  assert (Hk : k = k').
  { apply (f_equal (fun l => nth 2 (rev l) 0)) in E. rewrite !rev_app_distr in E. destruct k, k'; try done; by vm_compute in E. }
  subst k'. apply app_inv_tail in E. apply app_inj_2 in E as [E1 E2]; [|by rewrite !be_bytes_length].
  apply string_bytes_inj in E1 as ->. split_and!; try done.
  apply (f_equal of_be_bytes) in E2. rewrite !be_bytes_id in E2 by (by change (256 ^ N.of_nat 8) with (2 ^ 64)). done.
Qed.

(** Two materials whose first sixteen bytes of hash agree. *)
Definition short_collision : Prop :=
  exists m m', m <> m' /\ take 16 (be_bytes 32 (sha256 m)) = take 16 (be_bytes 32 (sha256 m')).
Lemma beacon_id_inj s s' h h' b b' k k' :
  length s = length s' -> b < 2 ^ 64 -> b' < 2 ^ 64 ->
  beacon_id sha256 server_key s h b k = beacon_id sha256 server_key s' h' b' k' ->
  (s = s' /\ h = h' /\ b = b' /\ k = k') \/ short_collision.
Proof.
  intros Hl Hb Hb' E. apply hex_encode_inj in E; [|apply Forall_take, be_bytes_bytes..].
  destruct (decide (beacon_material server_key s h b k = beacon_material server_key s' h' b' k')) as [Em|Em].
  - left. by apply material_inj in Em.
  - right. by eexists _, _.
Qed.

Lemma classify_some session host now id k :
  classify_beacon sha256 server_key session host now id = Some k ->
  exists b, (b = current_bucket now \/ b = current_bucket now - 1) /\ beacon_id sha256 server_key session host b k = id.
Proof.
  unfold classify_beacon. cbn [first_some].
  repeat (match goal with |- context [String.eqb ?a id] => destruct (String.eqb_spec a id) end;
    [intros [= <-]; eexists; split; [|done]; tauto|]).
  done.
Qed.

(** Beacons are read as what they were. The address of a beacon written into a
    page of a session is routed to the beacons' handler with its identifier, which
    is classified, from then until the end of the next ten-minute bucket, as the
    beacon it was - and under another session or host never as any, unless the
    first half of SHA-256 collides. *)
Theorem beacon_roundtrip session host kind written now :
  length session = 32%nat -> written <= now <= u64_max -> current_bucket now <= current_bucket written + 1 ->
  let id := beacon_id sha256 server_key session host (current_bucket written) kind in
  internal_route (beacon_url sha256 server_key session host written kind) = Some (RBeacon id) /\
  (classify_beacon sha256 server_key session host now id = Some kind \/ short_collision) /\
  (forall session' host' later kind', length session' = 32%nat -> later <= u64_max ->
     classify_beacon sha256 server_key session' host' later id = Some kind' ->
     (session' = session /\ host' = host /\ kind' = kind) \/ short_collision).
Proof.
  intros Hs [Hw Hn] Hb. cbv zeta. set (id := beacon_id _ _ _ _ _ _).
  assert (Hbucket : forall t, t <= u64_max -> current_bucket t < 2 ^ 64).
  { intros t Ht. unfold current_bucket, BEACON_BUCKET_SECS, u64_max in *.
    apply N.Div0.div_lt_upper_bound. change (2 ^ 64) with 18446744073709551616. lia. }
  pose proof (Hbucket now Hn) as Hbn. pose proof (Hbucket written ltac:(lia)) as Hbw. split_and!.
  - unfold internal_route, beacon_url. fold id.
    assert (Hlen : String.length id = 32%nat).
    { unfold id, beacon_id. rewrite hex_encode_length, length_take, be_bytes_length. done. }
    assert (Hne : forall p, String.length p <> 54%nat -> String.eqb (BEACON_PREFIX +:+ id +:+ ".svg") p = false).
    { intros p Hp. apply String.eqb_neq. intros <-. apply Hp. rewrite !string_length_app, Hlen. done. }
    rewrite !Hne by done. unfold beacon_route. rewrite strip_prefix_app. cbn [mbind option_bind].
    rewrite strip_suffix_app. cbn [mbind option_bind]. rewrite Hlen. cbn [Nat.eqb andb].
    assert (str_all is_ascii_hexdigit id = true) as ->; [|done]. apply hex_encode_chars, Forall_take, be_bytes_bytes.
  - assert (Hmono : current_bucket written <= current_bucket now).
    { unfold current_bucket, BEACON_BUCKET_SECS. by apply N.Div0.div_le_mono. }
    destruct (classify_beacon sha256 server_key session host now id) as [k|] eqn:E.
    + apply classify_some in E as (b & Hbb & E). assert (Hbl : b < 2 ^ 64) by (destruct Hbb as [->| ->]; lia).
      unfold id in E. apply beacon_id_inj in E as [(_ & _ & _ & ->)|Hc]; [by left|by right|done..].
    + exfalso. unfold classify_beacon in E. cbn [first_some] in E.
      assert (Hcur : current_bucket written = current_bucket now \/ current_bucket written = current_bucket now - 1) by lia.
      assert (Hid : forall b, current_bucket written = b -> String.eqb (beacon_id sha256 server_key session host b kind) id = true).
      { intros b <-. apply String.eqb_refl. }
      destruct Hcur as [Hc|Hc], kind; pose proof (Hid _ Hc) as Hi; rewrite Hi in E; by repeat case_match.
  - intros s' h' later k' Hs' Hl E. apply classify_some in E as (b & Hbb & E).
    pose proof (Hbucket later Hl). assert (Hbl : b < 2 ^ 64) by (destruct Hbb as [->| ->]; lia).
    unfold id in E. apply beacon_id_inj in E as [(-> & -> & _ & ->)|Hc]; [by left|by right|congruence|done..].
Qed.
End Beacon.

Lemma beacon_roundtrip_witness :
  let sha256 (m : list N) := of_be_bytes (take 32 m) in
  let id := beacon_id sha256 [] (replicate 32 7) "h" 2 Negative in
  internal_route (beacon_url sha256 [] (replicate 32 7) "h" 1500 Negative) = Some (RBeacon id) /\
  String.length id = 32%nat.
Proof.
  cbv zeta. split; [|by vm_compute].
  apply (beacon_roundtrip (fun m => of_be_bytes (take 32 m)) [] (replicate 32 7) "h" Negative 1500 1900).
  - done.
  - split; by vm_compute.
  - by vm_compute.
Defined.
