(* ===== verification/Challenge.v ===== *)
(** * Challenges

    [crates/bagel-web/src/challenge]: registrations and how long a pass lasts
    ([mod.rs], [pow.rs]), challenge keys ([key.rs]), and the state a request
    carries in its cookie ([mod.rs], [token.rs]). The time is an argument, the
    same for one request; SHA-256 is a function argument. *)

From S2P Require Import Prelude Core Ip Bytes Solver Rate Pending.

Local Open Scope N_scope.

(** ** Registrations *)

Inductive RefreshMode : Type := RHeader | RMeta | RJavascript.
Inductive ChallengeClass : Type := Transparent | Blocking.
Inductive Redemption : Type := Redirect | Solution | NoRedemption.
#[global] Instance redemption_eq_dec : EqDecision Redemption.
Proof. solve_decision. Defined.

Record PowChallenge : Type := {
  pow_kind : Kind; difficulty : N; blocks_log2 : N; gpu_difficulty : option N;
  gpu_required : bool; embed_card : bool }.

Inductive ChallengeRuntime : Type :=
| CCookie
| CRefresh (mode : RefreshMode)
| CDnsbl (dnsbl_host : string) (ttl : N)
| CPow (pow : PowChallenge).

(** Durations are in seconds. *)
Record ChallengeRegistration : Type := {
  class : ChallengeClass; duration : N; gpu_duration : option N; runtime : ChallengeRuntime }.

(** [PowChallenge::gpu_level] and [reached_gpu]. *)
Definition pow_gpu_level (p : PowChallenge) (lvl : N) : option N :=
  g ← gpu_difficulty p; if lvl <? g then Some g else None.
Definition reached_gpu (p : PowChallenge) (lvl : N) : bool :=
  match gpu_difficulty p with Some g => g <=? lvl | None => false end.

(** [ChallengeRegistration::duration_for] and [max_duration]. *)
Definition duration_for (r : ChallengeRegistration) (lvl : N) : N :=
  match runtime r, gpu_duration r with
  | CPow p, Some g => if reached_gpu p lvl then g else duration r
  | _, _ => duration r
  end.
Definition max_duration (r : ChallengeRegistration) : N :=
  match gpu_duration r with Some g => g `max` duration r | None => duration r end.

(** [ChallengeRuntime::redemption] and [supports_background]. *)
Definition redemption (r : ChallengeRuntime) : Redemption :=
  match r with CCookie | CRefresh _ => Redirect | CPow _ => Solution | CDnsbl _ _ => NoRedemption end.
Definition supports_background (r : ChallengeRuntime) : bool :=
  match r with CPow _ => true | _ => false end.

(** ** Building the registry *)

Definition MAX_CHALLENGE_DURATION_SECS : N := 365 * 24 * 60 * 60.
Record ChallengeConfig : Type := {
  ch_name : string; ch_runtime : string; duration_secs : N; parameters : gmap string string }.

Section Registry.
Variable cfg : ChallengeConfig.

Definition refuse {A} (message : string) : Result A :=
  Err (Error.Config ("challenge '" +:+ ch_name cfg +:+ "': " +:+ message)).

(** [parameters.get(name).map_or(Ok(default), parse)]. *)
Definition number_param (max : N) (name : string) (dflt : N) (message : string) : Result N :=
  match parameters cfg !! name with
  | None => Ok dflt
  | Some v => match parse_unsigned max v with Some n => Ok n | None => refuse message end
  end.
Definition choice_param (name dflt : string) : string := default dflt (parameters cfg !! name).

Definition build_refresh : Result ChallengeRuntime :=
  let via := choice_param "refresh-via" "meta" in
  if String.eqb via "header" then Ok (CRefresh RHeader)
  else if String.eqb via "javascript" || String.eqb via "js" then Ok (CRefresh RJavascript)
  else if String.eqb via "meta" then Ok (CRefresh RMeta)
  else refuse ("unknown refresh-via " +:+ debug_str via +:+ ", expected " +:+ debug_str "meta"
    +:+ ", " +:+ debug_str "header" +:+ ", or " +:+ debug_str "javascript").

Definition build_dnsbl : Result ChallengeRuntime :=
  ttl ← number_param u64_max "dnsbl-ttl" 3600 "dnsbl-ttl must be an integer";
  Ok (CDnsbl (choice_param "dnsbl-host" "dnsbl.dronebl.org") ttl).

(** The scratch memory in KiB as the logarithm of its blocks, 32 to a KiB. *)
Definition build_blocks (k : Kind) : Result N :=
  match k with
  | Sha256 => Ok 0
  | Scratch =>
      kib ← number_param u32_max "memory" 256 "memory must be an integer in KiB";
      let blocks := kib * 32 in
      let log2 := N.log2 blocks in
      if (blocks <=? u32_max) && (blocks =? 2 ^ log2) &&
         (MIN_BLOCKS_LOG2 <=? log2) && (log2 <=? MAX_BLOCKS_LOG2)
      then Ok log2
      else refuse ("memory must be a power of two between " +:+ show_N (2 ^ MIN_BLOCKS_LOG2 / 32)
        +:+ " and " +:+ show_N (2 ^ MAX_BLOCKS_LOG2 / 32) +:+ " KiB")
  end.

(** [difficulty_range]: 1 to 32. *)
Definition in_difficulty_range (n : N) : bool := (1 <=? n) && (n <=? 32).

Definition build_gpu_difficulty : Result (option N) :=
  match parameters cfg !! "gpu-difficulty" with
  | None => Ok None
  | Some v => match parse_unsigned u32_max v with
              | Some n => Ok (Some n)
              | None => refuse "gpu-difficulty must be an integer"
              end
  end.
Definition build_gpu_duration : Result (option N) :=
  match parameters cfg !! "gpu-duration" with
  | None => Ok None
  | Some v =>
      match parse_unsigned u64_max v with
      | Some n => if (1 <=? n) && (n <=? MAX_CHALLENGE_DURATION_SECS) then Ok (Some n)
                  else refuse "gpu-duration must be between 1 second and 365 days"
      | None => refuse "gpu-duration must be between 1 second and 365 days"
      end
  end.
Definition build_flag (name : string) (message : string -> string) (dflt yes no : string) :
    Result bool :=
  let v := choice_param name dflt in
  if String.eqb v yes then Ok true else if String.eqb v no then Ok false else refuse (message v).

Definition is_sha256 (k : Kind) : bool := match k with Sha256 => true | Scratch => false end.

(** The checks on the levels and durations of a proof of work. *)
Definition check_pow (p : PowChallenge) (gpu_duration : option N) : Result unit :=
  (if negb (in_difficulty_range (difficulty p))
   then refuse "difficulty must be between 1 and 32" else Ok tt) ;;
  match gpu_difficulty p with
  | Some gpu =>
      (if negb (is_sha256 (pow_kind p)) then refuse "gpu-difficulty needs runtime pow-sha256"
       else Ok tt) ;;
      (if (gpu <=? difficulty p) || negb (in_difficulty_range gpu)
       then refuse "gpu-difficulty must be above difficulty and at most 32" else Ok tt)
  | None =>
      if is_some gpu_duration then refuse "gpu-duration needs gpu-difficulty" else Ok tt
  end ;;
  if gpu_required p && (negb (is_sha256 (pow_kind p)) || is_some (gpu_difficulty p))
  then refuse ("gpu-required needs runtime pow-sha256 and a single difficulty, since the base "
    +:+ "level is the one a GPU must prove")
  else Ok tt.

Definition build_pow (k : Kind) : Result (ChallengeRuntime * option N) :=
  difficulty ← number_param u32_max "difficulty" (if is_sha256 k then 16 else 10)
                 "difficulty must be an integer";
  blocks ← build_blocks k;
  card ← build_flag "embed" (fun other => "unknown embed " +:+ debug_str other +:+ ", expected "
           +:+ debug_str "hidden" +:+ " or " +:+ debug_str "card") "hidden" "card" "hidden";
  gpu ← build_gpu_difficulty;
  gpu_duration ← build_gpu_duration;
  required ← build_flag "gpu-required" (fun other =>
               "gpu-required must be true or false, got " +:+ debug_str other) "false" "true" "false";
  let p := {| pow_kind := k; difficulty := difficulty; blocks_log2 := blocks;
              gpu_difficulty := gpu; gpu_required := required; embed_card := card |} in
  check_pow p gpu_duration ;;
  Ok (CPow p, gpu_duration).

(** One round of the loop of [ChallengeRegistry::build]. *)
Definition build_challenge : Result ChallengeRegistration :=
  (if str_is_empty (ch_name cfg) || str_contains_char "/" (ch_name cfg) then
     Err (Error.Config ("challenge name " +:+ debug_str (ch_name cfg)
       +:+ " must be non-empty and contain no '/'"))
   else Ok tt) ;;
  (if negb ((1 <=? duration_secs cfg) && (duration_secs cfg <=? MAX_CHALLENGE_DURATION_SECS))
   then refuse "duration must be between 1 second and 365 days" else Ok tt) ;;
  let registration class runtime gpu_duration :=
    {| class := class; duration := duration_secs cfg; gpu_duration := gpu_duration;
       runtime := runtime |} in
  if String.eqb (ch_runtime cfg) "cookie" then Ok (registration Blocking CCookie None)
  else if String.eqb (ch_runtime cfg) "refresh" then
    r ← build_refresh; Ok (registration Blocking r None)
  else if String.eqb (ch_runtime cfg) "dnsbl" then
    r ← build_dnsbl; Ok (registration Transparent r None)
  else if String.eqb (ch_runtime cfg) "pow-sha256" || String.eqb (ch_runtime cfg) "pow-scratch" then
    '(r, gpu) ← build_pow (if String.eqb (ch_runtime cfg) "pow-sha256" then Sha256 else Scratch);
    Ok (registration Blocking r gpu)
  else refuse ("unknown runtime '" +:+ ch_runtime cfg +:+ "'").
End Registry.

Fixpoint registry_build_go (challenges : gmap string ChallengeRegistration)
    (configs : list ChallengeConfig) : Result (gmap string ChallengeRegistration) :=
  match configs with
  | [] => Ok challenges
  | cfg :: configs =>
      r ← build_challenge cfg;
      if is_some (challenges !! ch_name cfg) then
        Err (Error.Config ("duplicate challenge name '" +:+ ch_name cfg +:+ "'"))
      else registry_build_go (<[ch_name cfg := r]> challenges) configs
  end.
(** [ChallengeRegistry::build]. *)
Definition registry_build : list ChallengeConfig -> Result (gmap string ChallengeRegistration) :=
  registry_build_go ∅.

(** ** Keys *)

Definition i64_min_Z : Z := (- 2 ^ 63)%Z.
Definition i64_max_Z : Z := (2 ^ 63 - 1)%Z.
Definition clamp_i64 (z : Z) : Z := (i64_min_Z `max` (z `min` i64_max_Z))%Z.

(** [bucket_expiry]; [Z.div] by a positive number is [div_euclid]. *)
Definition bucket_expiry (now duration_secs : Z) : Z :=
  let step := (duration_secs `max` 1)%Z in
  clamp_i64 (clamp_i64 (now / step + 1) * step).

(** [ip_network_prefix], the [Display] of a source network. *)
Definition segment (oct : list N) (i : nat) : N := nth (2 * i) oct 0 * 256 + nth (2 * i + 1) oct 0.
Definition network_prefix (n : SourceNetwork) : string :=
  match n with
  | SN4 oct => show_N (nth 0 oct 0) +:+ "." +:+ show_N (nth 1 oct 0) +:+ "." +:+
               show_N (nth 2 oct 0) +:+ ".0/24"
  | SN6 oct => show_hex16 (segment oct 0) +:+ ":" +:+ show_hex16 (segment oct 1) +:+ ":" +:+
               show_hex16 (segment oct 2) +:+ ":" +:+ show_hex16 (segment oct 3) +:+ "::/64"
  end.

(** [i64::to_le_bytes]. *)
Definition i64_le_bytes (z : Z) : list N := le_bytes 8 (Z.to_N (z mod 2 ^ 64)).

Definition challenge_key_bytes (name : string) (ip : option IpAddr) (expiry : Z)
    (fingerprint : list N) : list N :=
  string_bytes "challenge" ++ [0] ++ string_bytes name ++
  match ip with Some ip => string_bytes (network_prefix (from_ip ip)) | None => [] end ++
  i64_le_bytes expiry ++ fingerprint.
(** [derive_challenge_key]. *)
Definition derive_challenge_key (sha256 : list N -> N) (name : string) (ip : option IpAddr)
    (expiry : Z) (fingerprint : list N) : N :=
  sha256 (challenge_key_bytes name ip expiry fingerprint).

(** ** The state of a request *)

Record TokenChallenge : Type := {
  tc_key : list N; tc_result : list N; tc_level : N; tc_stack : string; tc_ok : bool;
  tc_exp : Z; tc_nbf : Z; tc_iat : Z }.
Record Token : Type := {
  session : list N; tk_state : gmap string TokenChallenge; tk_pending : bool;
  tk_exp : Z; tk_nbf : Z; tk_iat : Z }.

Definition key_bytes (k : N) : list N := be_bytes 32 k.
Definition add_secs (now : Z) (secs : N) : Z := clamp_i64 (now + Z.of_N secs).

(** Fragments to append to a page: what they are made of, not their text. *)
Inductive Fragment : Type :=
| FLure (maze path : string)
| FBeacon (session : list N) (host : string)
| FWidget (challenge : string) (key : N).

Record RequestChallengeState : Type := {
  token : option Token; modified : bool; injections : list Fragment }.

Definition with_exp (t : Token) (exp : Z) : Token := {|
  session := session t; tk_state := tk_state t; tk_pending := tk_pending t; tk_exp := exp;
  tk_nbf := tk_nbf t; tk_iat := tk_iat t |}.

(** [RequestChallengeState::ensure_session]; [random] is what the random source
    gives, if it works. *)
Definition ensure_session (now : Z) (random : option (list N)) (secs : N)
    (s : RequestChallengeState) : Result (list N) * RequestChallengeState :=
  let expiry := add_secs now secs in
  match token s with
  | Some t =>
      (Ok (session t),
       if (tk_exp t <? expiry)%Z
       then {| token := Some (with_exp t expiry); modified := true; injections := injections s |}
       else s)
  | None =>
      match random with
      | None => (Err (Error.Crypto "challenge session randomness unavailable"), s)
      | Some session =>
          (Ok session,
           {| token := Some {| session := session; tk_state := ∅; tk_pending := true;
                               tk_exp := expiry; tk_nbf := now; tk_iat := now |};
              modified := true; injections := injections s |})
      end
  end.

(** [RequestChallengeState::issue_challenge]. *)
Definition issue_challenge (now : Z) (random : option (list N)) (name : string) (key : N)
    (secs : N) (s : RequestChallengeState) : Result unit * RequestChallengeState :=
  match ensure_session now random secs s with
  | (Err e, s) => (Err e, s)
  | (Ok _, s) =>
      let exp := add_secs now secs in
      let tc := {| tc_key := key_bytes key; tc_result := []; tc_level := 0; tc_stack := "";
                   tc_ok := true; tc_exp := exp; tc_nbf := now; tc_iat := now |} in
      match token s with
      | Some t =>
          let t := {| session := session t; tk_state := <[name := tc]> (tk_state t);
                      tk_pending := tk_pending t;
                      tk_exp := if (tk_exp t <? exp)%Z then exp else tk_exp t;
                      tk_nbf := tk_nbf t; tk_iat := tk_iat t |} in
          (Ok tt, {| token := Some t; modified := true; injections := injections s |})
      | None => (Ok tt, s)
      end
  end.

(** [TlsFingerprint::stack_matches]. *)
Definition stack_matches (bound : string) (current : option string) : bool :=
  match current with
  | Some current => existsb (fun solved => existsb (String.eqb solved) (str_split "," current))
                      (str_split "," bound)
  | None => false
  end.

(** [RequestChallengeState::is_challenge_passed]. *)
Definition is_challenge_passed (now : Z) (s : RequestChallengeState) (name : string) (key lvl : N)
    (stack : option string) : bool :=
  match t ← token s; tk_state t !! name with
  | Some tc =>
      tc_ok tc && (now <? tc_exp tc)%Z && (lvl <=? tc_level tc) &&
      (str_is_empty (tc_stack tc) || stack_matches (tc_stack tc) stack) &&
      bool_decide (tc_key tc = key_bytes key)
  | None => false
  end.

(** ** Facts *)

(** What a loaded challenge guarantees: its passes end, its levels fit the
    proofs, and the level for a GPU is above the base. *)
Definition registration_ok (r : ChallengeRegistration) : Prop :=
  1 <= duration r <= MAX_CHALLENGE_DURATION_SECS /\
  1 <= max_duration r <= MAX_CHALLENGE_DURATION_SECS /\
  (forall lvl, 1 <= duration_for r lvl <= max_duration r) /\
  match runtime r with
  | CPow p =>
      1 <= difficulty p <= 32 /\
      match gpu_difficulty p with Some g => difficulty p < g <= 32 | None => gpu_duration r = None end /\
      match pow_kind p with
      | Sha256 => blocks_log2 p = 0
      | Scratch => MIN_BLOCKS_LOG2 <= blocks_log2 p <= MAX_BLOCKS_LOG2 /\ gpu_difficulty p = None
      end
  | _ => gpu_duration r = None
  end.

Lemma check_pow_ok cfg p gd u :
  check_pow cfg p gd = Ok u ->
  1 <= difficulty p <= 32 /\
  match gpu_difficulty p with
  | Some g => difficulty p < g <= 32 /\ pow_kind p = Sha256
  | None => gd = None
  end.
Proof.
  unfold check_pow, in_difficulty_range. intros H. inv_result.
  destruct (N.leb_spec 1 (difficulty p)), (N.leb_spec (difficulty p) 32); cbn in Ha; inv_result; try discriminate.
  split; [lia|]. destruct (gpu_difficulty p) as [g|].
  - inv_result. destruct (pow_kind p); cbn in Ha; [|discriminate].
    destruct (N.leb_spec g (difficulty p)), (N.leb_spec 1 g), (N.leb_spec g 32); cbn in Ha0;
      try discriminate. split; [lia|done].
  - by destruct gd.
Qed.

Lemma build_blocks_ok cfg k b :
  build_blocks cfg k = Ok b ->
  match k with Sha256 => b = 0 | Scratch => MIN_BLOCKS_LOG2 <= b <= MAX_BLOCKS_LOG2 end.
Proof.
  destruct k; cbn [build_blocks]; intros H; inv_result; [done|].
  destruct (_ && _ && _ && _) eqn:E; [|discriminate]. inv_result. rewrite !andb_true_iff, !N.leb_le in E. lia.
Qed.

Lemma build_gpu_duration_ok cfg gd :
  build_gpu_duration cfg = Ok gd ->
  match gd with Some g => 1 <= g <= MAX_CHALLENGE_DURATION_SECS | None => True end.
Proof.
  unfold build_gpu_duration. destruct (_ !! _); [|by intros [= <-]].
  destruct (parse_unsigned _ _); [|done]. destruct (_ && _) eqn:E; [|done]. intros [= <-].
  rewrite andb_true_iff, !N.leb_le in E. lia.
Qed.

Lemma registration_durations c d g r :
  1 <= d <= MAX_CHALLENGE_DURATION_SECS ->
  match g with Some g => 1 <= g <= MAX_CHALLENGE_DURATION_SECS | None => True end ->
  let reg := {| class := c; duration := d; gpu_duration := g; runtime := r |} in
  1 <= max_duration reg <= MAX_CHALLENGE_DURATION_SECS /\
  forall lvl, 1 <= duration_for reg lvl <= max_duration reg.
Proof.
  intros Hd Hg. unfold max_duration, duration_for. cbn [duration gpu_duration runtime].
  destruct g as [g|]; (split; [lia|]); intros lvl; destruct r; try lia.
  destruct (reached_gpu _ _); lia.
Qed.

Lemma registration_plain c d r :
  1 <= d <= MAX_CHALLENGE_DURATION_SECS -> match r with CPow _ => False | _ => True end ->
  registration_ok {| class := c; duration := d; gpu_duration := None; runtime := r |}.
Proof.
  intros Hd Hr. destruct (registration_durations c d None r Hd I) as [Hm Hf].
  split; [done|]. split; [done|]. split; [done|]. by destruct r.
Qed.

Lemma build_pow_ok cfg k rt gd :
  1 <= duration_secs cfg <= MAX_CHALLENGE_DURATION_SECS -> build_pow cfg k = Ok (rt, gd) ->
  registration_ok {| class := Blocking; duration := duration_secs cfg; gpu_duration := gd;
                     runtime := rt |}.
Proof.
  intros Hd H. unfold build_pow in H. inv_result.
  match goal with Hb : build_blocks _ _ = Ok _ |- _ => apply build_blocks_ok in Hb as Hb end.
  match goal with Hg : build_gpu_duration _ = Ok _ |- _ => apply build_gpu_duration_ok in Hg as Hg end.
  match goal with Hc : check_pow _ _ _ = Ok _ |- _ => apply check_pow_ok in Hc as [Hdf Hgpu] end.
  cbn [difficulty gpu_difficulty pow_kind] in *.
  match goal with |- registration_ok {| class := _; duration := _; gpu_duration := ?g; runtime := ?r |} =>
    destruct (registration_durations Blocking (duration_secs cfg) g r) as [Hmax Hfor]; [done..|]
  end.
  split; [done|]. split; [done|]. split; [done|]. cbn. split; [done|].
  match type of Hgpu with match ?o with Some _ => _ | None => _ end =>
    destruct o as [g|]; [destruct Hgpu as [Hg ->]|] end.
  - done.
  - split; [done|]. by destruct k.
Qed.

Lemma build_challenge_name cfg r :
  build_challenge cfg = Ok r ->
  str_is_empty (ch_name cfg) = false /\ str_contains_char "/" (ch_name cfg) = false.
Proof.
  unfold build_challenge. intros H. inv_result. destruct (_ || _) eqn:E in Ha; [done|].
  by apply orb_false_iff in E.
Qed.

Lemma build_challenge_ok cfg r : build_challenge cfg = Ok r -> registration_ok r.
Proof.
  unfold build_challenge. intros H. inv_result. clear Ha.
  destruct (negb _) eqn:E in Ha0; [done|]. clear Ha0.
  apply negb_false_iff, andb_true_iff in E as [E1%N.leb_le E2%N.leb_le].
  assert (Hd : 1 <= duration_secs cfg <= MAX_CHALLENGE_DURATION_SECS) by lia. unfold refuse in *.
  destruct (String.eqb _ "cookie").
  { inv_result. by apply registration_plain. }
  destruct (String.eqb _ "refresh").
  { inv_result. apply registration_plain; [done|]. unfold build_refresh in Ha.
    by repeat case_match; inv_result. }
  destruct (String.eqb _ "dnsbl").
  { inv_result. apply registration_plain; [done|]. unfold build_dnsbl in Ha. by inv_result. }
  destruct (_ || _); [|done]. inv_all. by eapply build_pow_ok.
Qed.

(** ** Loaded registries *)

Lemma registry_build_go_ok m configs reg :
  map_Forall (fun _ r => registration_ok r) m -> registry_build_go m configs = Ok reg ->
  map_Forall (fun _ r => registration_ok r) reg /\
  dom reg = list_to_set (ch_name <$> configs) ∪ dom m /\ NoDup (ch_name <$> configs) /\
  (forall cfg, cfg ∈ configs -> m !! ch_name cfg = None /\
     str_is_empty (ch_name cfg) = false /\ str_contains_char "/" (ch_name cfg) = false /\
     exists r, build_challenge cfg = Ok r /\ reg !! ch_name cfg = Some r) /\ m ⊆ reg.
Proof.
  revert m. induction configs as [|cfg configs IH]; intros m Hm; cbn; intros H; inv_result.
  { split; [done|]. split; [by rewrite (left_id_L ∅ (∪))|]. split; [constructor|].
    split; [|done]. by intros c []%elem_of_nil. }
  destruct (m !! ch_name cfg) eqn:E; cbn in H; [done|].
  pose proof (build_challenge_ok cfg a Ha) as Hok. pose proof (build_challenge_name cfg a Ha) as Hn.
  apply IH in H as (H1 & H2 & H3 & H4 & H5); [|by apply map_Forall_insert_2].
  assert (Hreg : reg !! ch_name cfg = Some a) by (eapply lookup_weaken; [apply lookup_insert_eq|done]).
  split; [done|]. split; [|split; [|split]].
  - rewrite H2, dom_insert_L. cbn. rewrite (assoc_L (∪)), (comm_L (∪) _ {[ch_name cfg]}). done.
  - constructor; [|done]. intros (c & Hc & Hin)%list_elem_of_fmap.
    destruct (H4 c Hin) as [Hx _]. rewrite <- Hc, lookup_insert_eq in Hx. done.
  - intros c [->|Hin]%elem_of_cons.
    { destruct Hn as [Hn1 Hn2]. split; [done|]. split; [done|]. split; [done|]. by exists a. }
    destruct (H4 c Hin) as (Hx & Hrest).
    split; [|done]. destruct (decide (ch_name c = ch_name cfg)) as [Eq|Ne].
    + rewrite Eq, lookup_insert_eq in Hx. done.
    + by rewrite lookup_insert_ne in Hx.
  - etransitivity; [|exact H5]. by apply insert_subseteq.
Qed.

(** A loaded challenge registry is sound. It has exactly the configured
    challenges under unique names that fit a path segment, each pass of them
    lasts between a second and a year and no longer than the key bucket it is
    checked against, proofs of work have levels the solver can express, a GPU
    level is above the base level, and scratch pads are of a size the solver
    has. *)
Theorem registry_build_sound configs reg :
  registry_build configs = Ok reg ->
  NoDup (ch_name <$> configs) /\ dom reg = list_to_set (ch_name <$> configs) /\
  (forall cfg, cfg ∈ configs ->
     str_is_empty (ch_name cfg) = false /\ str_contains_char "/" (ch_name cfg) = false /\
     exists r, build_challenge cfg = Ok r /\ reg !! ch_name cfg = Some r) /\
  map_Forall (fun _ r => registration_ok r) reg.
Proof.
  intros (H1 & H2 & H3 & H4 & _)%registry_build_go_ok; [|apply map_Forall_empty].
  rewrite dom_empty_L, union_empty_r_L in H2. split; [done|]. split; [done|]. split; [|done].
  intros cfg Hin. by destruct (H4 cfg Hin) as [_ ?].
Qed.

(** ** How long a pass is honoured *)

(** The two keys [evaluate_challenge_action] accepts, and its test for a pass:
    the key of the current bucket or of the one before. *)
Definition current_key (sha256 : list N -> N) (fingerprint : list N) (r : ChallengeRegistration)
    (name : string) (ip : option IpAddr) (now : Z) : N :=
  derive_challenge_key sha256 name ip (bucket_expiry now (Z.of_N (max_duration r))) fingerprint.
Definition previous_key (sha256 : list N -> N) (fingerprint : list N) (r : ChallengeRegistration)
    (name : string) (ip : option IpAddr) (now : Z) : N :=
  let step := Z.of_N (max_duration r) in
  derive_challenge_key sha256 name ip (bucket_expiry now step - step)%Z fingerprint.
Definition already_passed (sha256 : list N -> N) (fingerprint : list N)
    (r : ChallengeRegistration) (name : string) (ip : option IpAddr) (stack : option string)
    (lvl : N) (now : Z) (s : RequestChallengeState) : bool :=
  is_challenge_passed now s name (current_key sha256 fingerprint r name ip now) lvl stack ||
  is_challenge_passed now s name (previous_key sha256 fingerprint r name ip now) lvl stack.

Lemma clamp_i64_id z : (i64_min_Z <= z <= i64_max_Z)%Z -> clamp_i64 z = z.
Proof. unfold clamp_i64. lia. Qed.

(** Times of this era: no arithmetic on them saturates. *)
Definition era (z : Z) : Prop := (0 <= z < 2 ^ 62)%Z.

Lemma bucket_expiry_spec now step :
  era now -> (1 <= step < 2 ^ 32)%Z -> bucket_expiry now step = ((now / step + 1) * step)%Z.
Proof.
  intros Hn Hs. unfold bucket_expiry, era in *. rewrite Z.max_l by lia.
  pose proof (Z.div_pos now step ltac:(lia) ltac:(lia)).
  pose proof (Z.div_le_upper_bound now step now ltac:(lia) ltac:(nia)).
  pose proof (Z.mul_div_le now step ltac:(lia)).
  rewrite (clamp_i64_id (now / step + 1)) by (unfold i64_min_Z, i64_max_Z; lia).
  apply clamp_i64_id. unfold i64_min_Z, i64_max_Z. nia.
Qed.

(** Within a step a time falls in the same bucket or the next. *)
Lemma bucket_expiry_adjacent t now step :
  era t -> era now -> (1 <= step < 2 ^ 32)%Z -> (t <= now < t + step)%Z ->
  bucket_expiry t step = bucket_expiry now step \/
  bucket_expiry t step = (bucket_expiry now step - step)%Z.
Proof.
  intros Ht Hn Hs Hw. rewrite !bucket_expiry_spec by done.
  pose proof (Z.div_le_mono t now step ltac:(lia) ltac:(lia)).
  assert (now / step <= t / step + 1)%Z.
  { pose proof (Z.div_le_mono now (t + 1 * step) step ltac:(lia) ltac:(lia)) as H1.
    rewrite Z.div_add in H1 by lia. lia. }
  destruct (Z.eq_dec (now / step) (t / step)) as [->|]; [by left|right].
  assert (now / step = t / step + 1)%Z as -> by lia. ring.
Qed.

(** A pass is honoured while it lasts. A pass for a challenge handed out at
    [issued] and sealed later counts at any time within the longest life of the
    challenge after the issue, until its own expiry, for the same client network,
    at any level up to its own, and from the TLS stack it was sealed under; once
    expired, at a higher level, or from another stack, it never counts. *)
Theorem pass_honoured sha256 fingerprint r name ip stack tk tc issued now modified injections :
  registration_ok r -> era issued -> era now ->
  tk_state tk !! name = Some tc -> tc_ok tc = true ->
  tc_key tc = key_bytes (current_key sha256 fingerprint r name ip issued) ->
  (issued <= now < issued + Z.of_N (max_duration r))%Z ->
  let s := {| token := Some tk; modified := modified; injections := injections |} in
  forall lvl,
    already_passed sha256 fingerprint r name ip stack lvl now s =
    (now <? tc_exp tc)%Z && (lvl <=? tc_level tc) &&
    (str_is_empty (tc_stack tc) || stack_matches (tc_stack tc) stack).
Proof.
  intros (_ & Hmax & _) Hi Hn Htk Hok Hkey Hw s lvl.
  assert (Hstep : (1 <= Z.of_N (max_duration r) < 2 ^ 32)%Z).
  { unfold MAX_CHALLENGE_DURATION_SECS in Hmax. lia. }
  unfold already_passed, is_challenge_passed. cbn [s token mbind option_bind].
  rewrite Htk, Hok, Hkey. cbn [andb].
  set (b := (now <? _)%Z && _ && _). unfold current_key, previous_key.
  destruct (bucket_expiry_adjacent issued now (Z.of_N (max_duration r)) Hi Hn Hstep Hw) as [->| ->].
  all: match goal with |- context [bool_decide (?x = ?x)] =>
         rewrite (bool_decide_eq_true_2 (x = x)) by done end; rewrite andb_true_r.
  - by destruct b.
  - by destruct b, (bool_decide _).
Qed.

(** A pass can be lost before it expires: sealed five minutes after its
    challenge was handed out at the end of a bucket, it has another hour, of
    which its key outlives all but those minutes. *)
Definition example_registration : ChallengeRegistration := {|
  class := Blocking; duration := 3600; gpu_duration := None;
  runtime := CPow {| pow_kind := Sha256; difficulty := 16; blocks_log2 := 0; gpu_difficulty := None;
                     gpu_required := false; embed_card := false |} |}.
Definition example_sha256 (l : list N) : N := of_be_bytes (drop 13 l).
Definition example_pass (issued sealed : Z) : TokenChallenge := {|
  tc_key := key_bytes (current_key example_sha256 [] example_registration "pow" None issued);
  tc_result := []; tc_level := 16; tc_stack := ""; tc_ok := true;
  tc_exp := add_secs sealed (duration_for example_registration 16); tc_nbf := sealed;
  tc_iat := sealed |}.
Definition example_token (issued sealed : Z) : RequestChallengeState := {|
  token := Some {| session := []; tk_state := {["pow" := example_pass issued sealed]};
                   tk_pending := false; tk_exp := add_secs sealed 3600; tk_nbf := sealed;
                   tk_iat := sealed |};
  modified := false; injections := [] |}.
Example pass_lost_early :
  let test now := already_passed example_sha256 [] example_registration "pow" None None 16 now
                    (example_token 7199 7490) in
  test 10799%Z = true /\ test 10801%Z = false /\ tc_exp (example_pass 7199 7490) = 11090%Z.
Proof. split; [|split]; vm_refl. Qed.

Lemma example_registration_ok : registration_ok example_registration.
Proof.
  split; [vm_compute; split; discriminate|]. split; [vm_compute; split; discriminate|].
  split; [intros lvl; vm_compute; split; discriminate|]. repeat split; done.
Qed.

Lemma pass_honoured_witness :
  already_passed example_sha256 [] example_registration "pow" None None 16 10000
    (example_token 7000 7100) = true.
Proof.
  refine (eq_trans (pass_honoured example_sha256 [] example_registration "pow" None None
    {| session := []; tk_state := {["pow" := example_pass 7000 7100]}; tk_pending := false;
       tk_exp := add_secs 7100 3600; tk_nbf := 7100; tk_iat := 7100 |} (example_pass 7000 7100)
    7000 10000 false [] example_registration_ok _ _ _ _ _ _ 16) _);
    [split; done|split; done|vm_refl|vm_refl|vm_refl|split; done|vm_refl].
Defined.

Definition example_configs : list ChallengeConfig :=
  [{| ch_name := "pow"; ch_runtime := "pow-scratch"; duration_secs := 3600;
      parameters := {["memory" := "512"]} |};
   {| ch_name := "dns"; ch_runtime := "dnsbl"; duration_secs := 600; parameters := ∅ |}].
Definition example_registry : gmap string ChallengeRegistration :=
  from_ok (registry_build example_configs) ltac:(vm_refl).
Lemma registry_build_sound_witness :
  dom example_registry = {["pow"; "dns"]} /\
  map_Forall (fun _ r => registration_ok r) example_registry.
Proof.
  destruct (registry_build_sound example_configs example_registry) as (_ & H & _ & H').
  - apply from_ok_eq.
  - split; [|exact H']. rewrite H. cbn. by rewrite (right_id_L ∅ (∪)).
Defined.
