(* ===== verification/TlsEdgeFacts.v ===== *)
(** * Whose word a fingerprint takes

    What a proxy or the edge says of a handshake counts only from a trusted peer,
    once, and in the edge's case with the origin token; the headers that carry it go
    no further; and the table of cipher lists keeps a browser's passes valid across
    its transports. *)

From S2P Require Import Prelude Core Strings Ip Bytes Url Date Wire.
From S2P Require Import Hpack Tls TlsEdge Challenge.

Local Open Scope N_scope.

Section Edge.
Variable sha1 : list N -> list N.
Variable sha256 : list N -> N.
Variable to_str : string -> option string.
Variable base64_decode : string -> option (list N).
Variable hex_decode : list N -> option (list N).
Notation parse_edge := (edge_parse base64_decode hex_decode).
Notation capture_edge := (edge_capture sha256 to_str base64_decode hex_decode).
Notation capture_tls := (capture_client_tls sha256 to_str base64_decode hex_decode).

Lemma capture_of_complete {A} (r : result CaptureError A) a : capture_of r = Complete a <-> r = Ok a.
Proof. destruct r; cbn; split; [by intros [= ->]|by intros [= ->]|done|done]. Qed.
Lemma ok_or_ok {E A} (e : E) (o : option A) a : ok_or e o = Ok a <-> o = Some a.
Proof. destruct o; cbn; split; [by intros [= ->]|by intros [= ->]|done|done]. Qed.

Lemma edge_capture_inv h name token_sha256 trusted e :
  capture_edge h name token_sha256 trusted = Complete e ->
  trusted = true /\ exists value token s, get_all name h = [value] /\ get_all ORIGIN_TOKEN_HEADER h = [token] /\
    String.length token = 64%nat /\ be_bytes 32 (sha256 (string_bytes token)) = token_sha256 /\
    to_str value = Some s /\ parse_edge s = Ok e.
Proof.
  unfold edge_capture. destruct (get_all name h) as [|value more]; [done|].
  destruct trusted; [|done]. cbn [negb]. destruct more; [|done].
  destruct (get_all ORIGIN_TOKEN_HEADER h) as [|token [|]]; try done.
  destruct (Nat.eqb_spec (String.length token) 64) as [El|]; [|done]. cbn [negb].
  case_bool_decide as Ed; [|done]. cbn [negb]. intros Hc%capture_of_complete. apply bind_ok in Hc as (s & Hs & He).
  apply ok_or_ok in Hs. split; [done|]. by exists value, token, s.
Qed.
Lemma proxied_capture_inv h name trusted p :
  proxied_capture to_str h name trusted = Complete p ->
  trusted = true /\ exists value s, get_all name h = [value] /\ to_str value = Some s /\ proxied_parse s = Ok p.
Proof.
  unfold proxied_capture. destruct (get_all name h) as [|value more]; [done|].
  destruct trusted; [|done]. cbn [negb]. destruct more; [|done].
  intros Hc%capture_of_complete. apply bind_ok in Hc as (s & Hs & He).
  apply ok_or_ok in Hs. split; [done|]. by exists value, s.
Qed.

Lemma remove_all_elem name h kv : kv ∈ remove_all name h <-> kv ∈ h /\ kv.1 <> to_ascii_lowercase name.
Proof.
  unfold remove_all. rewrite !list_elem_of_In, filter_In, negb_true_iff, String.eqb_neq. done.
Qed.
(** The headers that carry what is relayed. *)
Definition carrying (config : option ClientTlsHeader) (k : string) : Prop :=
  k = ORIGIN_TOKEN_HEADER \/ exists forwarded, config = Some forwarded /\ k = to_ascii_lowercase (th_name forwarded).

(** Relayed fingerprints are trusted ones. When a request comes out with a
    complete fingerprint of the edge, the peer is trusted, the configured header
    and the origin token were there exactly once, the token hashes to the configured
    digest, and the fingerprint is what the header says; a proxy's needs the trusted
    peer and the single header; what was seen of the connection itself stays; and
    of the headers exactly those that carry any of this are gone. *)
Theorem relayed_trusted config trusted seen h t h' :
  capture_tls config trusted (tls_of <$> seen) h = (Some t, h') ->
  (forall e, cloudflare t = Complete e ->
     trusted = true /\ exists name digest value token s,
       config = Some {| th_name := name; cloudflare_token_sha256 := Some digest |} /\
       get_all name h = [value] /\ get_all ORIGIN_TOKEN_HEADER h = [token] /\ String.length token = 64%nat /\
       be_bytes 32 (sha256 (string_bytes token)) = digest /\ to_str value = Some s /\ parse_edge s = Ok e) /\
  (forall p, proxied t = Complete p ->
     trusted = true /\ exists name value s,
       config = Some {| th_name := name; cloudflare_token_sha256 := None |} /\
       get_all name h = [value] /\ to_str value = Some s /\ proxied_parse s = Ok p) /\
  native t = default Unavailable seen /\
  (forall kv, kv ∈ h' <-> kv ∈ h /\ ~ carrying config kv.1).
Proof.
  unfold capture_client_tls. destruct config as [[name token]|].
  - intros [= <- <-]. cbn [th_name cloudflare_token_sha256].
    assert (Hh : forall kv, kv ∈ remove_all ORIGIN_TOKEN_HEADER (remove_all name h) <->
                            kv ∈ h /\ ~ carrying (Some {| th_name := name; cloudflare_token_sha256 := token |}) kv.1).
    { intros kv. rewrite !remove_all_elem. unfold carrying. change (to_ascii_lowercase ORIGIN_TOKEN_HEADER) with ORIGIN_TOKEN_HEADER.
      split.
      - intros [[Hin Hn] Ho]. split; [done|]. intros [E|(f & [= <-] & E)]; [done|]. by cbn in E.
      - intros [Hin Hc]. split_and!; [done| |]; intros E; apply Hc; [right|by left]. by eexists. }
    destruct token as [digest|].
    + split_and!; [| | |exact Hh]; cbn [cloudflare proxied native set_cloudflare].
      * intros e (-> & value & tk & s & ?)%edge_capture_inv. split; [done|]. by exists name, digest, value, tk, s.
      * intros p. by destruct seen.
      * by destruct seen.
    + split_and!; [| | |exact Hh]; cbn [cloudflare proxied native set_proxied].
      * intros p. by destruct seen.
      * intros p (-> & value & s & ?)%proxied_capture_inv. split; [done|]. by exists name, value, s.
      * by destruct seen.
  - destruct seen as [seen|]; [|done]. intros [= <- <-]. split_and!; try done.
    intros kv. rewrite remove_all_elem. unfold carrying. split.
    + intros [Hin Hn]. split; [done|]. by intros [E|(? & ? & _)].
    + intros [Hin Hc]. split; [done|]. intros E. apply Hc. by left.
Qed.

(** ** The table of lists *)

Lemma foldl_insert_map {V} (l : list (list N * V)) :
  foldl (fun t kv => <[kv.1 := kv.2]> t) (∅ : gmap (list N) V) l = list_to_map (rev l).
Proof.
  induction l as [|[a v] l IH] using rev_ind; [done|]. rewrite foldl_app, rev_app_distr. cbn [foldl rev app fst snd].
  by rewrite IH.
Qed.
Lemma rev_perm {A} (l : list A) : rev l ≡ₚ l.
Proof. symmetry. apply Permutation_rev. Qed.

Hypothesis Hsha1 : NoDup (reference_insertions sha1).*1.

Lemma reference_lookup_spec k r : reference_lookup sha1 k = Some r <-> (k, r) ∈ reference_insertions sha1.
Proof.
  unfold reference_lookup, reference_table. rewrite foldl_insert_map.
  rewrite <- elem_of_list_to_map by (by rewrite rev_perm). by rewrite rev_perm.
Qed.
Lemma insertion_elem k r :
  (k, r) ∈ reference_insertions sha1 <->
  exists entry grease, entry ∈ LISTS /\ (grease = None \/ exists g, grease = Some g /\ g ∈ GREASE) /\
    k = sha1 (cipher_bytes grease entry.2) /\ r = reference_of entry grease.
Proof.
  unfold reference_insertions. rewrite list_elem_of_In, in_flat_map. split.
  - intros (entry & He & Hk). apply list_elem_of_In, list_elem_of_fmap in Hk as (grease & [= -> ->] & Hg).
    exists entry, grease. split; [by apply list_elem_of_In|]. split; [|done].
    apply elem_of_cons in Hg as [->|Hg]; [by left|right]. apply list_elem_of_fmap in Hg as (g & -> & Hg). by exists g.
  - intros (entry & grease & He & Hg & -> & ->). exists entry. split; [by apply list_elem_of_In|].
    apply list_elem_of_In, list_elem_of_fmap. exists grease. split; [done|]. apply elem_of_cons.
    destruct Hg as [->|(g & -> & Hg)]; [by left|right]. apply list_elem_of_fmap. by exists g.
Qed.

(** Families are names without commas. *)
Definition plain_names (l : list string) : Prop :=
  l <> [] /\ Forall (fun s => str_any (char_eqb ",") s = false) l.
Lemma str_split_join l : plain_names l -> str_split "," (str_join "," l) = l.
Proof. intros [Hne Hl]. by apply (split_join ","). Qed.
Lemma families_plain entry grease : entry ∈ LISTS -> plain_names (families (reference_of entry grease)).
Proof.
  intros Hin. assert (Hp : plain_names entry.1.1).
  { revert entry Hin. apply Forall_forall. unfold LISTS. repeat (constructor; [split; [done|by repeat constructor]|]). constructor. }
  unfold reference_of. cbn [families]. destruct (_ && _); [|done]. split; [done|by repeat constructor].
Qed.

(** The table keeps passes across transports. Unless SHA-1 collides on the
    lists, the stack of a client of the edge is the families of the list that was
    hashed, with a GREASE value in front or without, and nothing for any other
    list; and a pass earned with one list is honoured with another exactly when the
    two have a family in common. *)
Theorem edge_stacks e e' entry entry' grease grease' t t' :
  entry ∈ LISTS -> (grease = None \/ exists g, grease = Some g /\ g ∈ GREASE) ->
  entry' ∈ LISTS -> (grease' = None \/ exists g, grease' = Some g /\ g ∈ GREASE) ->
  cf_ciphers e = Some (sha1 (cipher_bytes grease entry.2)) ->
  cf_ciphers e' = Some (sha1 (cipher_bytes grease' entry'.2)) ->
  is_complete (native t) = false -> is_complete (native t') = false ->
  cloudflare t = Complete e -> cloudflare t' = Complete e' ->
  let names := families (reference_of entry grease) in
  let names' := families (reference_of entry' grease') in
  tls_stack sha1 t = Some (str_join "," names) /\
  (stack_matches (str_join "," names) (tls_stack sha1 t') = true <-> exists family, family ∈ names /\ family ∈ names') /\
  (forall e'' k, cf_ciphers e'' = Some k -> (forall r, (k, r) ∉ reference_insertions sha1) ->
     tls_stack sha1 {| native := Unavailable; proxied := Unavailable; cloudflare := Complete e'' |} = None).
Proof.
  intros Hin Hg Hin' Hg' Hc Hc' Hn Hn' Ht Ht'. cbv zeta.
  assert (Hstack : forall e entry grease t, entry ∈ LISTS -> (grease = None \/ exists g, grease = Some g /\ g ∈ GREASE) ->
    cf_ciphers e = Some (sha1 (cipher_bytes grease entry.2)) -> is_complete (native t) = false -> cloudflare t = Complete e ->
    tls_stack sha1 t = Some (str_join "," (families (reference_of entry grease)))).
  { clear -Hsha1. intros e entry grease t Hin Hg Hc Hn Ht. unfold tls_stack. rewrite Ht.
    assert (reference_lookup sha1 (sha1 (cipher_bytes grease entry.2)) = Some (reference_of entry grease)) as Hl.
    { apply reference_lookup_spec, insertion_elem. by exists entry, grease. }
    destruct (native t); try done; unfold edge_families, edge_reference; rewrite Hc; cbn [mbind option_bind]; by rewrite Hl. }
  rewrite (Hstack e entry grease t), (Hstack e' entry' grease' t') by done. split_and!; [done| |].
  - unfold stack_matches. rewrite !str_split_join by (by apply families_plain). rewrite existsb_elem. split.
    + intros (f & Hf & H). apply existsb_elem in H as (f' & Hf' & E). apply String.eqb_eq in E as ->. by exists f'.
    + intros (f & Hf & Hf'). exists f. split; [done|]. apply existsb_elem. exists f. split; [done|]. apply String.eqb_refl.
  - intros e'' k Hk Hnone. unfold tls_stack, edge_families, edge_reference. cbn [native cloudflare]. rewrite Hk.
    cbn [mbind option_bind]. destruct (reference_lookup sha1 k) as [r|] eqn:E; [|done].
    apply reference_lookup_spec in E. by apply Hnone in E.
Qed.
End Edge.

(** ** On concrete functions *)

Lemma relayed_trusted_witness :
  let sha256 (l : list N) := blen l in
  let h := [("x-tls", "TLSv1.3;TLS_AES;x25519;h2;."); ("accept", "text/html"); ("x-bagel-origin-token", "forged")] in
  let config := Some {| th_name := "X-TLS"; cloudflare_token_sha256 := None |} in
  exists t h', capture_client_tls sha256 Some (fun _ => None) (fun _ => None) config true None h = (Some t, h') /\
    (is_complete (proxied t) = true /\ h' = [("accept", "text/html")]) /\
    (forall kv, kv ∈ h' <-> kv ∈ h /\ ~ carrying config kv.1).
Proof.
  cbv zeta. eexists _, _. split; [by vm_compute|]. split; [by vm_compute|].
  eapply (relayed_trusted (fun l => blen l) Some (fun _ => None) (fun _ => None)
    (Some {| th_name := "X-TLS"; cloudflare_token_sha256 := None |}) true None). by vm_compute.
Defined.

(** An edge client with the TLS 1.3 suites of Chrome, over TCP with a GREASE value
    and over QUIC without. *)
Definition edge_client (sha1 : list N -> list N) (grease : option N) : CloudflareFingerprint :=
  {| cf_version := V13; cf_cipher := "AEAD-AES128-GCM-SHA256"; cf_protocol := TlsEdge.Http3;
     cf_ciphers := Some (sha1 (cipher_bytes grease [0x1301; 0x1302; 0x1303])); cf_extensions := None;
     cf_hello_length := None |}.
Definition edge_tls (e : CloudflareFingerprint) : TlsFingerprint :=
  {| native := Unavailable; proxied := Unavailable; cloudflare := Complete e |}.
Definition quic_entry : list string * string * list N := (["chromium"], "chromium-tls13", [0x1301; 0x1302; 0x1303]).
Lemma lists_distinct : NoDup (reference_insertions (fun l => l)).*1.
Proof. apply (bool_decide_unpack _). by vm_compute. Qed.
Lemma quic_entry_in : quic_entry ∈ LISTS.
Proof. apply (bool_decide_unpack _). by vm_compute. Qed.
Lemma some_grease : Some 0x2A2A = None \/ exists g, Some 0x2A2A = Some g /\ g ∈ GREASE.
Proof. right. exists 0x2A2A. split; [reflexivity|]. apply (bool_decide_unpack _). by vm_compute. Qed.
Lemma edge_stacks_witness :
  let sha1 (l : list N) := l in
  tls_stack sha1 (edge_tls (edge_client sha1 (Some 0x2A2A))) = Some "chromium,safari" /\
  stack_matches "chromium,safari" (tls_stack sha1 (edge_tls (edge_client sha1 None))) = true.
Proof.
  cbv zeta.
  pose proof (edge_stacks (fun l => l) lists_distinct
    (edge_client (fun l => l) (Some 0x2A2A)) (edge_client (fun l => l) None) quic_entry quic_entry (Some 0x2A2A) None
    (edge_tls (edge_client (fun l => l) (Some 0x2A2A))) (edge_tls (edge_client (fun l => l) None))
    quic_entry_in some_grease quic_entry_in (or_introl eq_refl) eq_refl eq_refl eq_refl eq_refl eq_refl eq_refl) as (H1 & H2 & _).
  split; [exact H1|]. apply H2. exists "chromium". split; left.
Defined.
