(* ===== verification/Proxy.v ===== *)
(** * Backends and forwarded requests

    [crates/bagel-web/src/proxy]: the pool of backends and its lookup by host and by
    name ([backend.rs]), and what [proxy_request] makes of a request before it is
    sent: its target, the way it goes out, its headers, and the preamble that
    announces the client ([mod.rs]). [http::Uri] and what header names and values may
    hold are parameters; sockets and bodies are not modelled. *)

From S2P Require Import Prelude Core Strings Ip Proto Url Host.
From S2P Require Import Rule Wire Tls TlsEdge.

Local Open Scope N_scope.

(** [HeaderValue::to_str]. *)
Class HeaderText : Type := { header_to_str : string -> option string }.
(** More of [http::Uri]: its parser, the host and port of its authority, its path
    and query together, and the one that has nothing else. *)
Class UriParts {U : UriApi} : Type := {
  uri_parse : string -> option Uri; uri_host : Uri -> option string; uri_port : Uri -> option N;
  uri_path_and_query : Uri -> option string; uri_of_path : string -> Uri }.

(** ** Configuration ([bagel-config/src/web/backend.rs]) *)

Inductive ProxyProtocolVersion : Type := PV1 | PV2.
(** [TryFrom<u8>]. *)
Definition proxy_protocol_version (version : N) : Result ProxyProtocolVersion :=
  if version =? 1 then Ok PV1 else if version =? 2 then Ok PV2
  else Err (Error.Config "proxy-protocol-out must be 1 or 2").
(** [FromStr for BackendUrl]. *)
Definition backend_url (value : string) : Result string :=
  if str_is_empty value then Err (Error.Config "backend url must not be empty") else Ok value.

Record ThemeVar : Type := { tv_name : string; tv_value : string }.
Record CustomTheme : Type := { ct_vars : list ThemeVar; ct_light : list ThemeVar; ct_dark : list ThemeVar }.
Record BackendConfig : Type := {
  bk_name : string; bk_url : string; bk_host : option string; bk_ip_header : option string;
  bk_proxy_out : option ProxyProtocolVersion; bk_template : option CustomTheme }.

Section Proxy.
Context {U : UriApi} {UP : UriParts} {HA : HeaderApi} {HT : HeaderText}.

(** [HeaderMap::insert]: the only value of the name. *)
Definition hm_insert (name value : string) (h : Headers) : Headers :=
  remove_all name h ++ [(to_ascii_lowercase name, value)].

(** ** The pool ([backend.rs]) *)

Record Backend : Type := {
  be_config : BackendConfig; be_target : Uri; be_host : option string; be_ip_header : option string;
  be_theme : CustomTheme }.
Record BackendPool : Type := {
  bp_exact : list (string * Backend); bp_wildcard : list (string * Backend); bp_fallback : option Backend }.

(** [retain] keeps what the theme's common variables do not override. *)
Definition overridden (vars : list ThemeVar) (var : ThemeVar) : bool :=
  existsb (fun entry => String.eqb (tv_name entry) (tv_name var)) vars.
Definition extend_theme (custom : CustomTheme) (theme : CustomTheme) : CustomTheme :=
  {| ct_vars := ct_vars custom ++ ct_vars theme;
     ct_light := List.filter (fun var => negb (overridden (ct_vars theme) var)) (ct_light custom) ++ ct_light theme;
     ct_dark := List.filter (fun var => negb (overridden (ct_vars theme) var)) (ct_dark custom) ++ ct_dark theme |}.

(** [Option::transpose] after a fallible map. *)
Definition transpose_map {A B} (f : A -> option B) (e : Error.t) (o : option A) : Result (option B) :=
  match o with None => Ok None | Some a => Some <$> ok_or e (f a) end.
Definition backend_error (name what : string) : Error.t := Error.Config ("backend '" +:+ name +:+ "' " +:+ what).
(** One pass of the loop of [BackendPool::build] up to its pattern; the text of the
    parsers' own errors is left out of the messages. *)
Definition backend_of (default_theme : CustomTheme) (cfg : BackendConfig) : Result Backend :=
  target ← ok_or (Error.Config ("invalid backend URL " +:+ bk_url cfg)) (uri_parse (bk_url cfg));
  if negb (bool_decide (uri_scheme target = Some "http")) || negb (is_some (uri_host target)) then
    Err (backend_error (bk_name cfg) "requires an absolute HTTP URL, upstream TLS is not implemented")
  else if negb (String.eqb (uri_path target) "/") || is_some (uri_query target) then
    Err (backend_error (bk_name cfg) "URL cannot contain a path prefix or query")
  else
    host ← transpose_map header_value (backend_error (bk_name cfg) "has an invalid host header") (bk_host cfg);
    ip_header ← transpose_map header_name (backend_error (bk_name cfg) "has an invalid ip-header name") (bk_ip_header cfg);
    Ok {| be_config := cfg; be_target := target; be_host := host; be_ip_header := ip_header;
          be_theme := match bk_template cfg with
                      | Some theme => extend_theme default_theme theme
                      | None => default_theme
                      end |}.

(** The pattern a name stands for, canonical as request hosts are. *)
Inductive HostPattern : Type := AnyHost | Suffix (suffix : string) | OneHost (host : string).
Definition pattern_error (name err : string) : Error.t :=
  Error.Config ("backend pattern '" +:+ name +:+ "': " +:+ err).
Definition host_pattern (name : string) : Result HostPattern :=
  if String.eqb name "*" then Ok AnyHost
  else match strip_prefix "*." name with
  | Some domain => canonical ← map_err (pattern_error name) (host_parse domain); Ok (Suffix ("." +:+ host_text canonical))
  | None => canonical ← map_err (pattern_error name) (host_parse name); Ok (OneHost (host_text canonical))
  end.
Definition pattern_key (p : HostPattern) : string :=
  match p with AnyHost => "*" | Suffix s | OneHost s => s end.

Record Building : Type := { bd_pool : BackendPool; bd_seen : gset string }.
Definition add_to_pool (pool : BackendPool) (pattern : HostPattern) (backend : Backend) : BackendPool :=
  match pattern with
  | AnyHost => {| bp_exact := bp_exact pool; bp_wildcard := bp_wildcard pool; bp_fallback := Some backend |}
  | Suffix s => {| bp_exact := bp_exact pool; bp_wildcard := bp_wildcard pool ++ [(s, backend)];
                   bp_fallback := bp_fallback pool |}
  | OneHost s => {| bp_exact := bp_exact pool ++ [(s, backend)]; bp_wildcard := bp_wildcard pool;
                    bp_fallback := bp_fallback pool |}
  end.
Definition add_backend (default_theme : CustomTheme) (b : Building) (cfg : BackendConfig) : Result Building :=
  backend ← backend_of default_theme cfg;
  pattern ← host_pattern (bk_name cfg);
  if bool_decide (pattern_key pattern ∈ bd_seen b)
  then Err (Error.Config ("duplicate backend pattern '" +:+ bk_name cfg +:+ "'"))
  else Ok {| bd_pool := add_to_pool (bd_pool b) pattern backend;
             bd_seen := {[pattern_key pattern]} ∪ bd_seen b |}.
Fixpoint add_backends (default_theme : CustomTheme) (b : Building) (configs : list BackendConfig) : Result Building :=
  match configs with
  | [] => Ok b
  | cfg :: configs => b ← add_backend default_theme b cfg; add_backends default_theme b configs
  end.

(** [sort_by_key] on the length, longest first; it is stable. *)
Fixpoint insert_by_length (x : string * Backend) (l : list (string * Backend)) : list (string * Backend) :=
  match l with
  | [] => [x]
  | y :: l => if (String.length y.1 <=? String.length x.1)%nat then x :: y :: l else y :: insert_by_length x l
  end.
Definition sort_by_length (l : list (string * Backend)) : list (string * Backend) := foldr insert_by_length [] l.

Definition empty_pool : BackendPool := {| bp_exact := []; bp_wildcard := []; bp_fallback := None |}.
(** [BackendPool::build]. *)
Definition pool_build (configs : list BackendConfig) (default_theme : CustomTheme) : Result BackendPool :=
  b ← add_backends default_theme {| bd_pool := empty_pool; bd_seen := ∅ |} configs;
  let pool := bd_pool b in
  Ok {| bp_exact := bp_exact pool; bp_wildcard := sort_by_length (bp_wildcard pool); bp_fallback := bp_fallback pool |}.

(** [BackendPool::select]. *)
Definition pool_select (pool : BackendPool) (host : string) : option Backend :=
  match list_find_bool (fun e => String.eqb e.1 host) (bp_exact pool) with
  | Some e => Some e.2
  | None =>
      match list_find_bool (fun e => ends_with e.1 host) (bp_wildcard pool) with
      | Some e => Some e.2
      | None => bp_fallback pool
      end
  end.
(** [BackendPool::by_name] and [is_empty]. *)
Definition pool_backends (pool : BackendPool) : list Backend :=
  ((bp_exact pool).*2 ++ (bp_wildcard pool).*2) ++ option_list (bp_fallback pool).
Definition pool_by_name (pool : BackendPool) (name : string) : option Backend :=
  list_find_bool (fun b => String.eqb (bk_name (be_config b)) name) (pool_backends pool).
Definition pool_is_empty (pool : BackendPool) : bool :=
  bool_decide (length (bp_exact pool) = 0%nat) && bool_decide (length (bp_wildcard pool) = 0%nat) &&
  negb (is_some (bp_fallback pool)).

(** ** Hop-by-hop headers *)

Definition connection_headers (h : Headers) : list string :=
  omap (fun name => header_name (str_trim name))
    (mjoin ((fun value => str_split "," (default "" (header_to_str value))) <$> get_all "connection" h)).
Definition HOP_BY_HOP : list string :=
  ["keep-alive"; "proxy-connection"; "proxy-authenticate"; "proxy-authorization"; "te"; "trailer"; "transfer-encoding"].
Definition upgrade_header (name : string) : bool := String.eqb name "connection" || String.eqb name "upgrade".
Definition strip_hop_by_hop_headers (h : Headers) (preserve_upgrade : bool) : Headers :=
  let h := foldl (fun h name => if preserve_upgrade && upgrade_header name then h else remove_all name h) h
             (connection_headers h) in
  let h := foldl (fun h name => remove_all name h) h HOP_BY_HOP in
  if preserve_upgrade then h else remove_all "upgrade" (remove_all "connection" h).

Definition requested_upgrade (h : Headers) : option string :=
  connection ← head (get_all "connection" h) ≫= header_to_str;
  let offers_upgrade := existsb (fun token => eq_ignore_ascii_case (str_trim token) "upgrade") (str_split "," connection) in
  if negb offers_upgrade then None else head (get_all "upgrade" h).

(** ** Forwarding ([proxy_request]) *)

(** A request with the extensions read here: the client's address and fingerprint. *)
Record Request : Type := {
  rq_uri : Uri; rq_headers : Headers; rq_addr : option SocketAddr; rq_tls : option TlsFingerprint }.
(** How a request leaves: through the pooled client, on a connection of its own for
    an upgrade, or on one that opens with a preamble. *)
Inductive Route : Type :=
| Pooled | Upgraded (preamble : option ProxyProtocolVersion) | Preamble (version : ProxyProtocolVersion).
Record Outgoing : Type := { og_uri : Uri; og_headers : Headers; og_route : Route }.

Definition set_host (backend : Backend) (uri : Uri) (h : Headers) : Headers :=
  match be_host backend with
  | Some host_override => hm_insert "host" host_override h
  | None =>
      match get_all "host" h, uri_authority uri ≫= header_value with
      | [], Some authority => hm_insert "host" authority h
      | _, _ => h
      end
  end.
Definition set_address (backend : Backend) (addr : option SocketAddr) (h : Headers) : Headers :=
  match be_ip_header backend, addr with
  | Some ip_header, Some addr => hm_insert ip_header (show_ip (sa_ip addr)) h
  | _, _ => h
  end.
Definition set_ja4_header (tls : option TlsFingerprint) (h : Headers) : Headers :=
  match tls with
  | Some fp => match native fp with
               | Complete hello => match header_value (ja4 hello) with
                                   | Some v => hm_insert "x-bagel-ja4" v h
                                   | None => h
                                   end
               | _ => h
               end
  | None => h
  end.
(** The header rewriting, in its order; [bagel_id] is the random identifier. *)
Definition upstream_headers (backend : Backend) (bagel_id : string) (upgrade : bool) (req : Request) : Headers :=
  let h := set_host backend (rq_uri req) (rq_headers req) in
  let h := set_address backend (rq_addr req) h in
  let h := strip_hop_by_hop_headers h upgrade in
  let h := match header_value bagel_id with Some v => hm_insert "x-bagel-id" v h | None => h end in
  set_ja4_header (rq_tls req) (remove_all "x-bagel-ja4" h).

(** The request as it is handed to a connection; [None] is the bad gateway of a URI
    that does not build. *)
Definition proxy_request (backend : Backend) (bagel_id : string) (req : Request) : option Outgoing :=
  let target := be_target backend in
  let path_and_query := default "/" (uri_path_and_query (rq_uri req)) in
  let upgrade := requested_upgrade (rq_headers req) in
  let out := bk_proxy_out (be_config backend) in
  new_uri ← (if is_some upgrade || is_some out then Some (uri_of_path path_and_query)
             else uri_build (uri_scheme target) (uri_authority target) path_and_query);
  Some {| og_uri := new_uri;
          og_headers := upstream_headers backend bagel_id (is_some upgrade) req;
          og_route := if is_some upgrade then Upgraded out
                      else match out with Some version => Preamble version | None => Pooled end |}.

(** [backend_address], of the target's authority. *)
Definition backend_address (target : Uri) : string :=
  default "" (uri_host target) +:+ ":" +:+ show_N (default 80 (uri_port target)).
(** The bytes of [write_proxy_header], from what the stream says of its two ends. *)
Definition proxy_header_bytes (local_addr peer_addr : option SocketAddr) (client : option SocketAddr)
    (version : ProxyProtocolVersion) : list N :=
  let unspecified := {| sa_ip := V4 0; sa_port := 0 |} in
  let local_addr := default unspecified local_addr in
  let client_addr := default local_addr client in
  let dst_addr := default unspecified peer_addr in
  match version with
  | PV1 => Bytes.string_bytes (build_v1 client_addr dst_addr)
  | PV2 => build_v2 client_addr dst_addr
  end.
(** The headers of [finish]. *)
Definition finish_headers (h : Headers) : Headers := hm_insert "via" "bagel/0.1" (strip_hop_by_hop_headers h false).

End Proxy.
