(* ===== verification/Document.v ===== *)
(** * Configuration documents

    What the program relies on of the [knead] crate, and the decoders of
    [crates/bagel-config/src/decode] that are written by hand: a node is decoded by a
    function on the state of a [Decoder], which hands out the arguments, properties
    and children not read yet. The decoders that [knead_derive] generates are
    instances of [Decode] the reader of a document is given. *)

From S2P Require Import Prelude Core.

Local Open Scope N_scope.

(** Where something stands in the text: its offset and length. *)
Notation Span := (N * N)%type.
Inductive ErrorKind : Type := Missing | Conversion | TypeMismatch | Unexpected | Unsupported | OtherKind (kind : N).
#[global] Instance error_kind_eq_dec : EqDecision ErrorKind.
Proof. solve_decision. Defined.
Record DecodeError : Type := { de_kind : ErrorKind; de_span : Span; de_message : string }.
(** The literals of [knead::ast] the program tells apart, and scalar values. *)
Inductive Literal : Type :=
| LString (text : string) | LDecimal (text : string) | LInteger (number : Z) | LBool (flag : bool) | LNull | LOther.
Record Scalar : Type := { sv_type : option (string * Span); sv_literal : Literal; sv_span : Span }.

(** Nodes and decoders. [kn_run] is [Decode::decode_node] of a decoder. *)
Class Knead : Type := {
  Node : Type;
  node_name : Node -> string;
  node_span : Node -> Span;
  node_children : Node -> list Node;
  knead_parse : string -> result string (list Node);
  Decoder : Type;
  decoder_new : Node -> Decoder;
  (** The arguments not read yet, and the decoder after the first of them is. *)
  decoder_arguments : Decoder -> list Scalar;
  decoder_advance : Decoder -> Decoder;
  decoder_property : string -> Decoder -> option Scalar * Decoder;
  decoder_child : string -> Decoder -> result DecodeError (option Node) * Decoder;
  decoder_span : Decoder -> Span;
  decoder_name : Decoder -> string * Span;
  decoder_set_name : string * Span -> Decoder -> Decoder;
  decoder_finish : Decoder -> result DecodeError unit;
  kn_run : forall A, (Decoder -> result DecodeError A * Decoder) -> Node -> result DecodeError A;
  (** [Display] of an error. *)
  show_decode_error : DecodeError -> string;
}.
Definition node_offset `{Knead} (n : Node) : N := (node_span n).1.

(** A decoder, and one of a scalar. *)
Class Decode `{Knead} (A : Type) : Type := decode : Decoder -> result DecodeError A * Decoder.
Class DecodeScalar (A : Type) : Type := decode_scalar : Scalar -> result DecodeError A.

Section Document.
Context `{K : Knead}.

(** [Decoder::argument]. *)
Definition decoder_argument (d : Decoder) : option Scalar * Decoder :=
  match decoder_arguments d with [] => (None, d) | value :: _ => (Some value, decoder_advance d) end.

(** [decode::node]. *)
Definition decode_node {A} `{!Decode A} (node : Node) : Result A :=
  map_err (fun error => Error.config_at (de_span error).1
             ("invalid " +:+ node_name node +:+ " config, " +:+ show_decode_error error)) (kn_run A decode node).
(** [kdl::children]. *)
Definition children (node : Node) : list Node := node_children node.

(** Sequencing on the decoder; an error ends the decoding. *)
Definition dec_bind {A B} (m : Decoder -> result DecodeError A * Decoder) (f : A -> Decoder -> result DecodeError B * Decoder)
    (d : Decoder) : result DecodeError B * Decoder :=
  match m d with (Ok a, d) => f a d | (Err e, d) => (Err e, d) end.
Definition dec_lift {A} (r : result DecodeError A) (d : Decoder) : result DecodeError A * Decoder := (r, d).
(** [decoder.argument().ok_or_else(..)]. *)
Definition required_argument (message : string) (d : Decoder) : result DecodeError Scalar * Decoder :=
  let '(value, d) := decoder_argument d in
  (ok_or {| de_kind := Missing; de_span := decoder_span d; de_message := message |} value, d).

(** ** Wrappers ([decode/wrappers.rs]) *)

Record Argument (A : Type) : Type := MkArgument { argument_of : A }.
#[global] Instance argument_decode {A} `{!DecodeScalar A} : Decode (Argument A) :=
  dec_bind (required_argument "one argument is required")
    (fun value => dec_lift (MkArgument A <$> decode_scalar value)).

(** The loop of [Arguments]; [fuel] is the number of arguments left. *)
Record Arguments (A : Type) : Type := MkArguments { arguments_of : list A }.
Fixpoint decode_arguments {A} `{!DecodeScalar A} (fuel : nat) (d : Decoder) : result DecodeError (list A) * Decoder :=
  match fuel with
  | O => (Ok [], d)
  | S fuel =>
      match decoder_argument d with
      | (None, d) => (Ok [], d)
      | (Some value, d) =>
          dec_bind (dec_lift (decode_scalar value)) (fun a =>
            dec_bind (decode_arguments fuel) (fun l => dec_lift (Ok (a :: l)))) d
      end
  end.

#[global] Instance arguments_decode {A} `{!DecodeScalar A} : Decode (Arguments A) := fun d =>
  dec_bind (decode_arguments (length (decoder_arguments d))) (fun l => dec_lift (Ok (MkArguments A l))) d.

Record Named (A : Type) : Type := MkNamed { nm_name : string; nm_value : A }.
#[global] Instance named_decode {A} `{!DecodeScalar string, !Decode A} : Decode (Named A) :=
  dec_bind (required_argument "name argument is required") (fun argument =>
    dec_bind (dec_lift (decode_scalar argument)) (fun name =>
      dec_bind decode (fun value => dec_lift (Ok (MkNamed A name value))))).

Record Tagged (A : Type) : Type := MkTagged { tagged_of : A }.
(** The kind names the variant; a failed conversion of it is reported as an unknown
    kind. *)
#[global] Instance tagged_decode {A} `{!DecodeScalar string, !Decode A} : Decode (Tagged A) := fun d =>
  let '(kind, d) := decoder_property "kind" d in
  dec_bind (dec_lift (ok_or {| de_kind := Missing; de_span := decoder_span d; de_message := "kind property is required" |} kind))
    (fun kind => dec_bind (dec_lift (decode_scalar kind)) (fun name d =>
      let kind_span := sv_span kind in
      let '(r, d) := decode (A := A) (decoder_set_name (name, kind_span) d) in
      (match r with
       | Ok a => Ok (MkTagged A a)
       | Err error =>
           Err (if bool_decide (de_kind error = Conversion) && bool_decide (de_span error = kind_span) then
                  {| de_kind := Conversion; de_span := kind_span;
                     de_message := "unknown kind " +:+ debug_str (decoder_name d).1 +:+ ", " +:+ show_decode_error error |}
                else error)
       end, d))) d.
End Document.
Arguments MkArgument {A} _.
Arguments argument_of {A} _.
Arguments MkArguments {A} _.
Arguments arguments_of {A} _.
Arguments nm_name {A} _.
Arguments nm_value {A} _.
Arguments tagged_of {A} _.
