(* ===== verification/Policy.v ===== *)
(** * Policy documents

    [crates/bagel-config/src/web/policy]: what the sections of a policy decode to and
    what the configuration makes of it ([mod.rs], [decision.rs]), the merging of
    sections and files, and the reading of a directory of policies. The decoders of
    the input types are generated and come in as instances. *)

From S2P Require Import Prelude Core Strings Rule Scoring Challenge Maze Document.
From S2P Require Config.

Local Open Scope N_scope.

(** ** Configuration *)

Inductive NetworkFilter : Type := FilterJq (path : string) | FilterRegex (pattern : string) | FilterNone.
Inductive NetworkSource : Type :=
| SourceUrl (url : string) (filter : NetworkFilter)
| SourceFile (path : string) (filter : NetworkFilter)
| SourceAsn (number : N)
| SourceInline (prefixes : list string).
Record NetworkConfig : Type := { nw_name : string; nw_sources : list NetworkSource }.
Record PreludeConfig : Type := { pl_script : string }.
Record CrawlerConfig : Type := { cr_name : string; cr_suffixes : list string }.
(** Durations are in seconds. *)
Record RendererConfig : Type := {
  rd_name : string; rd_kind : string; rd_endpoint : string; rd_timeout : N; rd_max_body : N;
  rd_max_concurrency : N; rd_rate : N; rd_burst : N; rd_decoy_rate : N; rd_decoy_burst : N; rd_cooldown : N }.
Definition renderer_default : RendererConfig := {|
  rd_name := ""; rd_kind := ""; rd_endpoint := ""; rd_timeout := 2; rd_max_body := 262144;
  rd_max_concurrency := 128; rd_rate := 50; rd_burst := 200; rd_decoy_rate := 10; rd_decoy_burst := 40;
  rd_cooldown := 60 |}.
Definition maze_default : MazeConfig := {|
  mz_name := ""; mz_renderer := "builtin"; mz_token_ttl := 24 * 3600; mz_memory_ttl := 3600;
  mz_min_links := 8; mz_max_links := 16; mz_min_bytes := 8192; mz_max_bytes := 32768 |}.

(** [str::find] of the first byte that is no digit, and the two parts there. *)
Fixpoint split_digits (text : string) : string * string :=
  match text with
  | EmptyString => (EmptyString, EmptyString)
  | String c rest => if is_ascii_digit c then let '(ds, unit) := split_digits rest in (String c ds, unit) else (EmptyString, text)
  end.
Definition checked_mul (max a b : N) : option N := if a * b <=? max then Some (a * b) else None.
(** [parse_duration], in seconds. *)
Definition parse_duration (text : string) : option N :=
  let '(digits, unit) := split_digits text in
  if str_is_empty unit then None
  else
    value ← parse_unsigned u64_max digits;
    if String.eqb unit "s" then Some value
    else if String.eqb unit "m" then checked_mul u64_max value 60
    else if String.eqb unit "h" then checked_mul u64_max value 3600
    else if String.eqb unit "d" then checked_mul u64_max value 86400
    else None.
(** [FromStr for DurationArg]. *)
Definition duration_arg (text : string) : result string N :=
  ok_or ("invalid duration " +:+ debug_str text) (parse_duration text).

Record PolicyConfig : Type := {
  pc_networks : list NetworkConfig; pc_prelude : list PreludeConfig; pc_challenges : list ChallengeConfig;
  pc_rules : list RuleConfig; pc_scoring : option ScoringConfig; pc_mazes : list MazeConfig;
  pc_renderers : list RendererConfig; pc_crawlers : list CrawlerConfig }.
Definition policy_default : PolicyConfig := {|
  pc_networks := []; pc_prelude := []; pc_challenges := []; pc_rules := []; pc_scoring := None; pc_mazes := [];
  pc_renderers := []; pc_crawlers := [] |}.

(** [PolicyConfig::merge]. *)
Definition merge_scoring (scoring other : option ScoringConfig) : option ScoringConfig :=
  match other, scoring with
  | None, _ => scoring
  | Some other, Some scoring =>
      Some {| cfg_rate_capacity := match cfg_rate_capacity other with Some c => Some c | None => cfg_rate_capacity scoring end;
              cfg_scorecards := cfg_scorecards scoring ++ cfg_scorecards other |}
  | Some other, None => Some other
  end.
Definition policy_merge (self other : PolicyConfig) : PolicyConfig := {|
  pc_networks := pc_networks self ++ pc_networks other;
  pc_prelude := pc_prelude self ++ pc_prelude other;
  pc_challenges := pc_challenges self ++ pc_challenges other;
  pc_rules := pc_rules self ++ pc_rules other;
  pc_scoring := merge_scoring (pc_scoring self) (pc_scoring other);
  pc_mazes := pc_mazes self ++ pc_mazes other;
  pc_renderers := pc_renderers self ++ pc_renderers other;
  pc_crawlers := pc_crawlers self ++ pc_crawlers other |}.

(** [unique]: the first repeated name is an error. *)
Fixpoint unique_go {A} (offset : N) (what : string) (name : A -> string) (seen : gset string) (items : list A) : Result unit :=
  match items with
  | [] => Ok tt
  | item :: items =>
      if bool_decide (name item ∈ seen) then
        Err (Error.config_at offset ("duplicate " +:+ what +:+ " '" +:+ name item +:+ "'"))
      else unique_go offset what name ({[name item]} ∪ seen) items
  end.
Definition unique {A} (offset : N) (what : string) (items : list A) (name : A -> string) : Result (list A) :=
  unique_go offset what name ∅ items ;; Ok items.

(** ** Networks *)

Inductive NetworkSourceInput : Type :=
| UrlInput (url : string) (filter jq regex : option string)
| FileInput (path : string) (filter jq regex : option string)
| AsnInput (number : N)
| PrefixesInput (prefixes : list string).
Record NetworkInput : Type := { ni_name : string; ni_sources : list NetworkSourceInput }.
Record NetworksInput : Type := { networks_of : list NetworkInput }.

Definition convert_network_filter (offset : N) (name : string) (filter jq regex : option string) : Result NetworkFilter :=
  let refused := Err (Error.config_at offset ("policy: networks: network " +:+ debug_str name +:+
    ": filter must be jq with a jq property or regex with a regex property")) in
  match filter, jq, regex with
  | None, None, None => Ok FilterNone
  | Some f, Some path, None => if String.eqb f "jq" then Ok (FilterJq path) else refused
  | Some f, None, Some pattern => if String.eqb f "regex" then Ok (FilterRegex pattern) else refused
  | _, _, _ => refused
  end.
Definition convert_source (offset : N) (name : string) (source : NetworkSourceInput) : Result NetworkSource :=
  match source with
  | UrlInput url filter jq regex => SourceUrl url <$> convert_network_filter offset name filter jq regex
  | FileInput path filter jq regex => SourceFile path <$> convert_network_filter offset name filter jq regex
  | AsnInput number => Ok (SourceAsn number)
  | PrefixesInput [] => Err (Error.config_at offset ("policy: networks: network " +:+ debug_str name +:+
      ": prefixes: expected at least one prefix"))
  | PrefixesInput prefixes => Ok (SourceInline prefixes)
  end.
(** [NetworkInput::into_config]. *)
Definition network_config (offset : N) (input : NetworkInput) : Result NetworkConfig :=
  sources ← traverse (convert_source offset (ni_name input)) (ni_sources input);
  Ok {| nw_name := ni_name input; nw_sources := sources |}.

(** ** Scalars *)

Definition decode_error (kind : ErrorKind) (span : Span) (message : string) : DecodeError :=
  {| de_kind := kind; de_span := span; de_message := message |}.
(** [Weight]: a positive [u32], read by [u32]'s decoder. *)
Definition weight_decode (decode_u32 : Scalar -> result DecodeError N) (value : Scalar) : result DecodeError N :=
  n ← decode_u32 value;
  if n =? 0 then Err (decode_error Conversion (sv_span value) "a zero weight scores nothing, omit it to observe") else Ok n.
(** [RhaiExpression]. *)
Definition rhai_type_check (value : Scalar) : result DecodeError unit :=
  match sv_type value with
  | Some (type_name, span) =>
      if String.eqb type_name "rhai" then Ok tt else Err (decode_error TypeMismatch span "expected a rhai type annotation")
  | None => Ok tt
  end.
Definition rhai_decode (value : Scalar) : result DecodeError string :=
  rhai_type_check value ;;
  match sv_literal value with
  | LString text => Ok text
  | _ => Err (decode_error TypeMismatch (sv_span value) "expected a string")
  end.
(** [ParamValue]. *)
Definition param_decode (value : Scalar) : result DecodeError string :=
  match sv_literal value with
  | LString text | LDecimal text => Ok text
  | LInteger number => Ok (pretty number)
  | LBool flag => Ok (if flag then "true" else "false")
  | LNull => Err (decode_error Unsupported (sv_span value) "challenge parameters cannot be null")
  | LOther => Err (decode_error Unsupported (sv_span value) "unsupported challenge parameter")
  end.

(** ** Challenges, crawlers, renderers and mazes *)

Record ChallengeInput : Type := {
  ci_name : string; ci_runtime : string; ci_duration : N; ci_parameters : gmap string string }.
Record ChallengesInput : Type := { challenges_of : list ChallengeInput }.
Definition challenge_config (input : ChallengeInput) : ChallengeConfig := {|
  ch_name := ci_name input; ch_runtime := ci_runtime input; duration_secs := ci_duration input;
  parameters := ci_parameters input |}.
Record CrawlersInput : Type := { crawlers_of : list CrawlerConfig }.
(** [RendererInput] and [MazeInput] have the fields of what they become. *)
Definition RendererInput : Type := RendererConfig.
Record RenderersInput : Type := { renderers_of : list RendererInput }.
Definition renderer_config (input : RendererInput) : RendererConfig := input.
Definition MazeInput : Type := MazeConfig.
Record MazesInput : Type := { mazes_of : list MazeInput }.
Definition maze_config (input : MazeInput) : MazeConfig := input.

(** ** Rules and thresholds ([decision.rs]) *)

(** [Headers], in order, and [into_pairs]. *)
Notation HeadersInput := (list (string * string)).
Inductive RuleChild (R : Type) : Type :=
| ChildCondition (condition : string)
| ChildAction (action : string)
| ChildChallenges (challenges : list string)
| ChildHttpCode (code : N)
| ChildPassAction (action : string)
| ChildFailAction (action : string)
| ChildBackend (backend : string)
| ChildMatch (pattern : string)
| ChildRewrite (rewrite : string)
| ChildKind (kind : string)
| ChildDifficulty (difficulty : N)
| ChildRequestHeaders (headers : HeadersInput)
| ChildResponseHeaders (headers : HeadersInput)
| ChildRule (rule : R).
Arguments ChildCondition {R} _.
Arguments ChildAction {R} _.
Arguments ChildChallenges {R} _.
Arguments ChildHttpCode {R} _.
Arguments ChildPassAction {R} _.
Arguments ChildFailAction {R} _.
Arguments ChildBackend {R} _.
Arguments ChildMatch {R} _.
Arguments ChildRewrite {R} _.
Arguments ChildKind {R} _.
Arguments ChildDifficulty {R} _.
Arguments ChildRequestHeaders {R} _.
Arguments ChildResponseHeaders {R} _.
Arguments ChildRule {R} _.
Inductive RuleInput : Type := MkRuleInput {
  ri_name : string; ri_condition : option string; ri_action : string; ri_http_code : option N;
  ri_pass_action : option string; ri_fail_action : option string; ri_match_re : option string;
  ri_rewrite : option string; ri_backend : option string; ri_maze : option string; ri_kind : option string;
  ri_difficulty : option N; ri_children : list (RuleChild RuleInput) }.

(** Assignments to fields of the settings and of a rule. *)
Definition settings_with {R} (s : RuleSettings) (c : RuleChild R) : RuleSettings := {|
  http_code := match c with ChildHttpCode code => Some code | _ => http_code s end;
  pass_action := match c with ChildPassAction action => Some action | _ => pass_action s end;
  fail_action := match c with ChildFailAction action => Some action | _ => fail_action s end;
  response_headers := match c with ChildResponseHeaders headers => headers | _ => response_headers s end;
  request_headers := match c with ChildRequestHeaders headers => headers | _ => request_headers s end;
  match_re := match c with ChildMatch pattern => Some pattern | _ => match_re s end;
  rewrite := match c with ChildRewrite rewrite => Some rewrite | _ => rewrite s end;
  backend := match c with ChildBackend backend => Some backend | _ => backend s end;
  maze := maze s;
  kind := match c with ChildKind kind => Some kind | _ => kind s end;
  Rule.difficulty := match c with ChildDifficulty difficulty => Some difficulty | _ => Rule.difficulty s end |}.
(** One pass of the loop over the children, [nested] what a nested rule becomes. *)
Definition rule_with {R} (nested : option RuleConfig) (rule : RuleConfig) (c : RuleChild R) : RuleConfig := {|
  rc_name := rc_name rule;
  rc_condition := match c with ChildCondition condition => Some condition | _ => rc_condition rule end;
  rc_action := match c with ChildAction action => action | _ => rc_action rule end;
  rc_challenges := match c with ChildChallenges challenges => rc_challenges rule ++ challenges | _ => rc_challenges rule end;
  rc_settings := settings_with (rc_settings rule) c;
  rc_children := rc_children rule ++ option_list nested |}.
(** [From<RuleInput> for RuleConfig]. *)
Definition rule_start (i : RuleInput) : RuleConfig := {|
  rc_name := ri_name i; rc_condition := ri_condition i; rc_action := ri_action i; rc_challenges := [];
  rc_settings := {|
    http_code := ri_http_code i; pass_action := ri_pass_action i; fail_action := ri_fail_action i;
    response_headers := []; request_headers := []; match_re := ri_match_re i; rewrite := ri_rewrite i;
    backend := ri_backend i; maze := ri_maze i; kind := ri_kind i; Rule.difficulty := ri_difficulty i |};
  rc_children := [] |}.
Fixpoint rule_config (i : RuleInput) : RuleConfig :=
  (fix go (children : list (RuleChild RuleInput)) (rule : RuleConfig) : RuleConfig :=
     match children with
     | [] => rule
     | c :: children =>
         go children (rule_with (match c with ChildRule child => Some (rule_config child) | _ => None end) rule c)
     end) (ri_children i) (rule_start i).

Inductive ThresholdChild : Type :=
| ThresholdChallenges (challenges : list string)
| ThresholdHttpCode (code : N)
| ThresholdPassAction (action : string)
| ThresholdFailAction (action : string)
| ThresholdDifficulty (difficulty : N).
Record ThresholdInput : Type := {
  ti_value : N; ti_action : string; ti_http_code : option N; ti_pass_action : option string;
  ti_fail_action : option string; ti_match_re : option string; ti_rewrite : option string;
  ti_backend : option string; ti_maze : option string; ti_kind : option string; ti_difficulty : option N;
  ti_children : list ThresholdChild }.
Definition threshold_with (t : ThresholdConfig) (c : ThresholdChild) : ThresholdConfig :=
  let s := tc_settings t in {|
  tc_value := tc_value t; tc_action := tc_action t;
  tc_challenges := match c with ThresholdChallenges challenges => tc_challenges t ++ challenges | _ => tc_challenges t end;
  tc_settings := {|
    http_code := match c with ThresholdHttpCode code => Some code | _ => http_code s end;
    pass_action := match c with ThresholdPassAction action => Some action | _ => pass_action s end;
    fail_action := match c with ThresholdFailAction action => Some action | _ => fail_action s end;
    response_headers := response_headers s; request_headers := request_headers s; match_re := match_re s;
    rewrite := rewrite s; backend := backend s; maze := maze s; kind := kind s;
    Rule.difficulty := match c with ThresholdDifficulty difficulty => Some difficulty | _ => Rule.difficulty s end |} |}.
(** [From<ThresholdInput> for ThresholdConfig]. *)
Definition threshold_config (i : ThresholdInput) : ThresholdConfig :=
  foldl threshold_with {|
    tc_value := ti_value i; tc_action := ti_action i; tc_challenges := [];
    tc_settings := {|
      http_code := ti_http_code i; pass_action := ti_pass_action i; fail_action := ti_fail_action i;
      response_headers := []; request_headers := []; match_re := ti_match_re i; rewrite := ti_rewrite i;
      backend := ti_backend i; maze := ti_maze i; kind := ti_kind i; Rule.difficulty := ti_difficulty i |} |}
    (ti_children i).

(** ** Scorecards *)

Inductive ScorecardChild : Type := ChildSignal (signal : SignalConfig) | ChildThreshold (threshold : ThresholdInput).
Record ScorecardInput : Type := {
  si_name : string; si_condition : option string; si_mode : option string; si_entries : list ScorecardChild }.
Record ScoringInput : Type := { si_rate_capacity : option N; scorecards_of : list ScorecardInput }.
(** [ScorecardInput::into_config]. *)
Definition scorecard_config (offset : N) (i : ScorecardInput) : Result ScorecardConfig :=
  let signals := omap (fun e => match e with ChildSignal signal => Some signal | _ => None end) (si_entries i) in
  let thresholds :=
    omap (fun e => match e with ChildThreshold threshold => Some (threshold_config threshold) | _ => None end) (si_entries i) in
  signals ← unique offset "signal" signals sc_name;
  Ok {| cc_name := si_name i; cc_condition := si_condition i; cc_mode := si_mode i; cc_signals := signals;
        cc_thresholds := thresholds |}.
Record RulesInput : Type := { rules_of : list RuleInput }.

(** ** Sections *)

(** What a directory holds: the names of its entries and their texts, or why they
    cannot be read. *)
Notation ReadDir := (string -> result string (list (string * result string string))).

(** The generated decoders of the sections. *)
Class SectionDecoders `{Knead} : Type := {
  networks_decode :: Decode NetworksInput;
  prelude_decode :: Decode PreludeConfig;
  challenges_decode :: Decode ChallengesInput;
  rules_decode :: Decode RulesInput;
  scoring_decode :: Decode ScoringInput;
  mazes_decode :: Decode MazesInput;
  renderers_decode :: Decode RenderersInput;
  crawlers_decode :: Decode CrawlersInput;
}.

Section Sections.
Context `{K : Knead} {SD : SectionDecoders}.

(** [PolicyConfig::from_section]. *)
Definition from_section (node : Node) : Result PolicyConfig :=
  let offset := node_offset node in
  let name := node_name node in
  let only networks prelude challenges rules scoring mazes renderers crawlers := Ok {|
    pc_networks := networks; pc_prelude := prelude; pc_challenges := challenges; pc_rules := rules;
    pc_scoring := scoring; pc_mazes := mazes; pc_renderers := renderers; pc_crawlers := crawlers |} in
  if String.eqb name "networks" then
    input ← decode_node (A := NetworksInput) node;
    networks ← unique offset "network" (networks_of input) ni_name;
    networks ← traverse (network_config offset) networks;
    only networks [] [] [] None [] [] []
  else if String.eqb name "prelude" then
    input ← decode_node (A := PreludeConfig) node;
    only [] [input] [] [] None [] [] []
  else if String.eqb name "challenges" then
    input ← decode_node (A := ChallengesInput) node;
    challenges ← unique offset "challenge" (challenges_of input) ci_name;
    only [] [] (challenge_config <$> challenges) [] None [] [] []
  else if String.eqb name "rules" then
    input ← decode_node (A := RulesInput) node;
    rules ← unique offset "rule" (rules_of input) ri_name;
    only [] [] [] (rule_config <$> rules) None [] [] []
  else if String.eqb name "scoring" then
    input ← decode_node (A := ScoringInput) node;
    scorecards ← unique offset "scorecard" (scorecards_of input) si_name;
    scorecards ← traverse (scorecard_config offset) scorecards;
    only [] [] [] [] (Some {| cfg_rate_capacity := si_rate_capacity input; cfg_scorecards := scorecards |}) [] [] []
  else if String.eqb name "mazes" then
    input ← decode_node (A := MazesInput) node;
    mazes ← unique offset "maze" (mazes_of input) mz_name;
    only [] [] [] [] None (maze_config <$> mazes) [] []
  else if String.eqb name "renderers" then
    input ← decode_node (A := RenderersInput) node;
    renderers ← unique offset "renderer" (renderers_of input) rd_name;
    only [] [] [] [] None [] (renderer_config <$> renderers) []
  else if String.eqb name "crawlers" then
    input ← decode_node (A := CrawlersInput) node;
    crawlers ← unique offset "crawler" (crawlers_of input) cr_name;
    only [] [] [] [] None [] [] crawlers
  else Err (Error.config_at offset ("unknown policy section '" +:+ name +:+ "'")).

(** [PolicyConfig::from_kdl]. *)
Fixpoint from_children (seen : gset string) (policy : PolicyConfig) (nodes : list Node) : Result PolicyConfig :=
  match nodes with
  | [] => Ok policy
  | child :: nodes =>
      if bool_decide (node_name child ∈ seen) then
        Err (Error.config_at (node_offset child) ("duplicate policy section '" +:+ node_name child +:+ "'"))
      else
        section ← from_section child;
        from_children ({[node_name child]} ∪ seen) (policy_merge policy section) nodes
  end.
Definition from_kdl (node : Node) : Result PolicyConfig := from_children ∅ policy_default (children node).

(** ** Directories *)

(** [Path::extension] of a file name. *)
Definition path_extension (name : string) : option string :=
  match rev (str_split "." name) with
  | after :: (_ :: _) as pieces =>
      if str_is_empty (str_join "." (rev (tail pieces))) then None else Some after
  | _ => None
  end.
(** [sort_by_key] on the file names, which compare by their bytes. *)
Fixpoint insert_by_name (e : string * result string string) (l : list (string * result string string)) :
    list (string * result string string) :=
  match l with
  | [] => [e]
  | e' :: l => if String.leb e.1 e'.1 then e :: e' :: l else e' :: insert_by_name e l
  end.
Definition sort_by_name (l : list (string * result string string)) : list (string * result string string) :=
  foldr insert_by_name [] l.

(** The nodes of one file, and the files in order. *)
Fixpoint load_nodes (text path : string) (merged : PolicyConfig) (nodes : list Node) : Result PolicyConfig :=
  match nodes with
  | [] => Ok merged
  | node :: nodes =>
      snippet ← map_err (Config.relocate text path)
                  (if String.eqb (node_name node) "policy" then from_kdl node else from_section node);
      load_nodes text path (policy_merge merged snippet) nodes
  end.
Fixpoint load_files (dir : string) (merged : PolicyConfig) (entries : list (string * result string string)) : Result PolicyConfig :=
  match entries with
  | [] => Ok merged
  | (name, content) :: entries =>
      let path := Config.path_join dir name in
      text ← map_err (fun err => Error.Config ("failed to read policy file " +:+ path +:+ ": " +:+ err)) content;
      nodes ← map_err (fun err => Error.ConfigParse path err) (knead_parse text);
      merged ← load_nodes text path merged nodes;
      load_files dir merged entries
  end.
(** [PolicyConfig::load_dir]. *)
Definition load_dir (read_dir : ReadDir) (dir : string) : Result PolicyConfig :=
  entries ← map_err (fun err => Error.Config ("failed to read policy dir " +:+ dir +:+ ": " +:+ err)) (read_dir dir);
  let entries := List.filter (fun e => bool_decide (path_extension e.1 = Some "kdl")) entries in
  load_files dir policy_default (sort_by_name entries).
End Sections.
