(* ===== verification/Networks.v ===== *)
(** * Networks

    [crates/bagel-web/src/net/loader.rs], [net/radb.rs], [cache.rs] and the trie of
    [net/mod.rs]: the lists of prefixes a policy names, from where they are fetched,
    through the filters and the cache, to the sets of networks conditions ask. What a
    request, a whois server and a file give is an argument; so are the parser of
    [ip_network] and the table of [ip_network_table]. *)

From S2P Require Import Prelude Core ThirdParty Strings Ip Bytes Url Policy.

Local Open Scope N_scope.

(** ** Other crates *)

(** [regex::captures_iter], with the named groups and the first group of each match. *)
Class RegexIter {RX : RegexApi} : Type := {
  regex_captures_iter : Regex -> string -> list (Captures * option string) }.
(** The message of [serde_json]'s error for a text that is not JSON. *)
Class JsonMessage : Type := { json_message : string -> string }.
(** [ip_network::IpNetwork], with [new] for a single address, and [IpNetworkTable]. *)
Class PrefixTable : Type := {
  IpNet : Type;
  ipnet_parse : string -> option IpNet;
  ipnet_single : IpAddr -> IpNet;
  Table : Type;
  table_new : Table;
  table_insert : IpNet -> Table -> Table;
  table_longest_match : Table -> IpAddr -> option IpNet }.

(** ** Sets of networks ([IpNetTrie]) *)

Section Trie.
Context {PT : PrefixTable}.
Record IpNetTrie : Type := { table : Table; len : N }.
Definition trie_new : IpNetTrie := {| table := table_new; len := 0 |}.
Definition trie_add (t : IpNetTrie) (net : IpNet) : IpNetTrie :=
  {| table := table_insert net (table t); len := len t + 1 |}.
(** [from_prefixes], which skips what is neither a network nor an address. *)
Definition add_prefix (t : IpNetTrie) (prefix : string) : IpNetTrie :=
  match ipnet_parse prefix with
  | Some net => trie_add t net
  | None => match parse_ip prefix with Some ip => trie_add t (ipnet_single ip) | None => t end
  end.
Definition from_prefixes (prefixes : list string) : IpNetTrie := foldl add_prefix trie_new prefixes.
Definition trie_contains (t : IpNetTrie) (ip : IpAddr) : bool := is_some (table_longest_match (table t) ip).
(** What [load_networks] accepts. *)
Definition is_prefix (prefix : string) : bool := is_some (ipnet_parse prefix) || is_some (parse_ip prefix).
End Trie.

(** ** Filters *)

(** [str::lines]: a final line feed ends a line, and a carriage return before one
    belongs to it. *)
Fixpoint drop_last_empty (l : list string) : list string :=
  match l with
  | [] => []
  | [s] => if str_is_empty s then [] else [s]
  | s :: l => s :: drop_last_empty l
  end.
Definition line_feed : ascii := ascii_of_N 10.
Definition carriage_return : string := bytes_string [13].
(** Of the last piece, which no line feed ends, the carriage return stays. *)
Fixpoint strip_returns (l : list string) : list string :=
  match l with
  | [] => []
  | [s] => [s]
  | s :: l => default s (strip_suffix carriage_return s) :: strip_returns l
  end.
Definition str_lines (s : string) : list string := drop_last_empty (strip_returns (str_split line_feed s)).

(** [split_jq_segments], by positions: [start] is where the segment begins and [idx]
    where the loop is. *)
Fixpoint split_jq_go (path : string) (start idx : nat) (rest : string) (segments : list string) : list string * nat :=
  match rest with
  | EmptyString => (segments, start)
  | String c rest =>
      if char_eqb c "." && (start <? idx)%nat
      then split_jq_go path (S idx) (S idx) rest (segments ++ [String.substring start (idx - start) path])
      else if char_eqb c "." && (idx =? start)%nat then split_jq_go path (S idx) (S idx) rest segments
      else split_jq_go path start (S idx) rest segments
  end.
Definition split_jq_segments (path : string) : list string :=
  let '(segments, start) := split_jq_go path 0 0 path [] in
  if (start <? String.length path)%nat
  then segments ++ [String.substring start (String.length path - start) path] else segments.

(** [trim_start_matches('.')]. *)
Fixpoint trim_dots (s : string) : string :=
  match s with String c rest => if char_eqb c "." then trim_dots rest else s | EmptyString => EmptyString end.
(** [Value::get] with a key. *)
Definition value_get (v : Value) (key : string) : option Value :=
  match v with VObject m => assoc key m | _ => None end.
Definition jq_step (segment : string) (v : Value) : list Value :=
  match strip_suffix "[]" segment with
  | Some field =>
      let target := if str_is_empty field then v else default VNull (value_get v field) in
      match target with VArray l => l | _ => [] end
  | None => match value_get v segment with Some sub => [sub] | None => [] end
  end.
Definition value_string (v : Value) : option string := match v with VString s => Some s | _ => None end.
Definition extract_jq_path (v : Value) (path : string) : list string :=
  omap value_string (foldl (fun results segment => mjoin (jq_step segment <$> results)) [v]
                       (split_jq_segments (trim_dots path))).

Section Load.
Context {RX : RegexApi} {RI : RegexIter} {JA : JsonApi} {JM : JsonMessage} {PT : PrefixTable}.

Definition capture_prefix (c : Captures * option string) : option string :=
  match c.1 "prefix" with Some text => Some text | None => c.2 end.
Definition is_entry (line : string) : bool := negb (str_is_empty line) && negb (starts_with "#" line).
(** [apply_filter]. *)
Definition apply_filter (body : string) (filter : NetworkFilter) : Result (list string) :=
  match filter with
  | FilterNone => Ok (List.filter is_entry (str_trim <$> str_lines body))
  | FilterRegex pattern =>
      match regex_new pattern with
      | Err err => Err (Error.Config ("invalid network filter regex: " +:+ err))
      | Ok re => Ok (omap capture_prefix (regex_captures_iter re body))
      end
  | FilterJq path =>
      match json_from_str body with
      | None => Err (Error.Config ("network source body is not valid JSON: " +:+ json_message body))
      | Some json => Ok (extract_jq_path json path)
      end
  end.

(** ** The cache *)

Variable sha256 : list N -> N.
(** [FileCache]: its files by name, with their contents and when they were written. *)
Record FileCache : Type := { fc_ttl : N; fc_files : gmap string (string * N) }.
Definition cache_path (key : string) : string := hex_encode (take 8 (be_bytes 32 (sha256 (string_bytes key)))).
(** A file from the future has no age and is not used. *)
Definition cache_get (key : string) (now : N) (c : FileCache) : option string :=
  '(contents, modified) ← fc_files c !! cache_path key;
  if now <? modified then None
  else if fc_ttl c <? now - modified then None else Some contents.
Definition cache_set (key data : string) (now : N) (c : FileCache) : FileCache :=
  {| fc_ttl := fc_ttl c; fc_files := <[cache_path key := (data, now)]> (fc_files c) |}.

(** ** Sources *)

(** What a request for a list comes to. *)
Inductive Fetched : Type :=
| FetchRefused (message : string)
| FetchStatus (status : string)
| FetchBroken (message : string)
| FetchTimedOut
| FetchBody (bytes : list N).
Definition MAX_NETWORK_SOURCE_BODY : N := 16777216.
(** The time of the load; requests, whois lines - of which each can fail -, files and
    whether the cache can be written. *)
Record Outside : Type := {
  out_now : N; out_get : string -> Fetched; out_whois : N -> Result (list (Result string));
  out_read : string -> Result string; out_writable : bool }.
Variable out : Outside.

(** [query_asn_routes] on the lines of the answer. *)
Definition route_prefix (line : string) : option string :=
  str_trim <$> match strip_prefix "route:" line with Some p => Some p | None => strip_prefix "route6:" line end.
Fixpoint routes (lines : list (Result string)) : Result (list string) :=
  match lines with
  | [] => Ok []
  | line :: lines =>
      line ← line; rest ← routes lines;
      Ok (match route_prefix line with Some p => p :: rest | None => rest end)
  end.
Definition query_asn_routes (asn : N) : Result (list string) := lines ← out_whois out asn; routes lines.

Definition fetched_body (f : Fetched) : Result string :=
  match f with
  | FetchRefused m => Err (Error.Other ("request: " +:+ m))
  | FetchStatus s => Err (Error.Other ("network source returned HTTP " +:+ s))
  | FetchBroken m => Err (Error.Other ("body: " +:+ m))
  | FetchTimedOut => Err (Error.Other "network source timed out")
  | FetchBody bytes =>
      if MAX_NETWORK_SOURCE_BODY <? N.of_nat (length bytes)
      then Err (Error.Other "body: length limit exceeded") else Ok (from_utf8_lossy bytes)
  end.

(** The cache as [load_source] uses it, which is there or not. *)
Notation C := (option FileCache).
Definition cached (key : string) (c : C) : option string := c ← c; cache_get key (out_now out) c.
Definition store (key data : string) : st C unit :=
  modify (fun c => if out_writable out then cache_set key data (out_now out) <$> c else c).
Definition source_key (source : NetworkSource) : option string :=
  match source with
  | SourceUrl url _ => Some url | SourceAsn asn => Some ("asn:" +:+ show_N asn) | _ => None
  end.
Definition newline : string := String line_feed "".
Definition load_source (source : NetworkSource) : st C (list string) :=
  match source with
  | SourceUrl url filter =>
      c ← get;
      match cached url c with
      | Some text => lift (apply_filter text filter)
      | None =>
          body ← lift (fetched_body (out_get out url));
          store url body ;;
          lift (apply_filter body filter)
      end
  | SourceFile path filter => body ← lift (out_read out path); lift (apply_filter body filter)
  | SourceAsn asn =>
      let key := "asn:" +:+ show_N asn in
      c ← get;
      match cached key c with
      | Some text => mret (str_lines text)
      | None =>
          prefixes ← lift (query_asn_routes asn);
          store key (str_join newline prefixes) ;;
          mret prefixes
      end
  | SourceInline prefixes => mret prefixes
  end.

(** ** [load_networks] *)

Definition named (name : string) (e : Error.t) : Error.t :=
  Error.Config ("network '" +:+ name +:+ "': failed to load source: " +:+ show_error e).
Definition st_map_err {S A} (f : Error.t -> Error.t) (m : st S A) : st S A :=
  fun s => let '(r, s) := m s in (map_err f r, s).
Fixpoint load_sources (name : string) (sources : list NetworkSource) : st C (list string) :=
  match sources with
  | [] => mret []
  | source :: sources =>
      prefixes ← st_map_err (named name) (load_source source);
      rest ← load_sources name sources;
      mret (prefixes ++ rest)
  end.
Definition check_prefix (name prefix : string) : Result unit :=
  if is_prefix prefix then Ok tt
  else Err (Error.Config ("network '" +:+ name +:+ "': invalid IP prefix " +:+ debug_str prefix)).
Definition load_network (cfg : NetworkConfig) : st C IpNetTrie :=
  all_prefixes ← load_sources (nw_name cfg) (nw_sources cfg);
  lift (for_each (check_prefix (nw_name cfg)) all_prefixes) ;;
  mret (from_prefixes all_prefixes).
Fixpoint load_each (configs : list NetworkConfig) (networks : gmap string IpNetTrie) : st C (gmap string IpNetTrie) :=
  match configs with
  | [] => mret networks
  | cfg :: configs => trie ← load_network cfg; load_each configs (<[nw_name cfg := trie]> networks)
  end.
(** [roots] is what the client's root certificates give. *)
Definition load_networks (roots : result string unit) (configs : list NetworkConfig) : st C (gmap string IpNetTrie) :=
  lift (map_err (fun err => Error.Config ("native root certificates unavailable: " +:+ err)) roots) ;;
  load_each configs ∅.
End Load.
