(* ===== verification/Renderer.v ===== *)
(** * Renderers of mazes

    [crates/bagel-web/src/maze/renderer.rs] and [render_maze] of [server/maze.rs]: a
    renderer with its budgets, cooldowns and places, and the page of a maze from it or
    from the engine. A call of [render] is interleaved with others between its locks,
    the semaphore and the request; each part is a step, at the time it reads the clock.
    An instant is a number of nanoseconds. *)

From S2P Require Import Prelude Core Strings Ip Bytes Rate Pending Url.
From S2P Require Import Tls Float Maze Policy Census Deception.

Local Open Scope N_scope.

Definition BUDGET_CAPACITY : N := 65536.
Definition SECOND : N := 1000000000.

Record BudgetKey : Type := { bk_host : string; bk_maze : string; bk_source : option SourceNetwork }.
#[global] Instance budget_key_eq_dec : EqDecision BudgetKey.
Proof. solve_decision. Defined.
#[global] Instance budget_key_countable : Countable BudgetKey.
Proof.
  refine (inj_countable' (fun k => (bk_host k, bk_maze k, bk_source k))
            (fun t => {| bk_host := t.1.1; bk_maze := t.1.2; bk_source := t.2 |}) _).
  by intros [].
Defined.

(** ** Budgets *)

Record TokenBucket : Type := { tb_tokens : f64; tb_last : N }.
Definition bucket_new (burst : f64) (now : N) : TokenBucket := {| tb_tokens := burst; tb_last := now |}.
(** [TokenBucket::take]. *)
Definition bucket_take (rate burst : f64) (now : N) (b : TokenBucket) : bool * TokenBucket :=
  let elapsed := as_secs_f64 (now - tb_last b) in
  let tokens := f64_min (f64_mul_add elapsed rate (tb_tokens b)) burst in
  if SpecFloat.SFleb (f64_of 1) tokens
  then (true, {| tb_tokens := f64_sub tokens (f64_of 1); tb_last := now |})
  else (false, {| tb_tokens := tokens; tb_last := now |}).
Record Buckets : Type := { general : TokenBucket; decoy : TokenBucket }.

(** [min_by_key]: the first of the least, in the order of the table. *)
Definition least {V} (f : V -> N) (m : gmap BudgetKey V) : option BudgetKey :=
  fst <$> foldr (fun e best => match best with
                               | Some b => if f b.2 <? f e.2 then Some b else Some e
                               | None => Some e end) None (map_to_list m).
Definition remove_least {V} (f : V -> N) (m : gmap BudgetKey V) : gmap BudgetKey V :=
  match least f m with Some k => delete k m | None => m end.
Definition full {V} (m : gmap BudgetKey V) : bool := BUDGET_CAPACITY <=? N.of_nat (size m).

(** [take_budget], on the table of buckets. *)
Definition bucket_age (b : Buckets) : N := tb_last (general b).
Definition make_bucket_room (key : BudgetKey) (now : N) (m : gmap BudgetKey Buckets) : gmap BudgetKey Buckets :=
  let absent m := negb (is_some ((m : gmap BudgetKey Buckets) !! key)) in
  let m := if full m && absent m
           then filter (fun e => (now - bucket_age e.2) / SECOND < 600) m else m in
  if full m && absent m then remove_least bucket_age m else m.
Definition take_budget (config : RendererConfig) (key : BudgetKey) (is_decoy : bool) (now : N)
    (m : gmap BudgetKey Buckets) : bool * gmap BudgetKey Buckets :=
  let m := make_bucket_room key now m in
  let bucket := default {| general := bucket_new (f64_of (rd_burst config)) now;
                           decoy := bucket_new (f64_of (rd_decoy_burst config)) now |} (m !! key) in
  let '(general_ok, g) := bucket_take (f64_of (rd_rate config)) (f64_of (rd_burst config)) now (general bucket) in
  let '(decoy_ok, d) :=
    if is_decoy then bucket_take (f64_of (rd_decoy_rate config)) (f64_of (rd_decoy_burst config)) now (decoy bucket)
    else (true, decoy bucket) in
  (general_ok && decoy_ok, <[key := {| general := g; decoy := d |}]> m).

(** ** Cooldowns *)

Definition in_cooldown (key : BudgetKey) (now : N) (m : gmap BudgetKey N) : bool :=
  match m !! key with Some until => now <? until | None => false end.
Definition start_cooldown (config : RendererConfig) (key : BudgetKey) (now : N) (m : gmap BudgetKey N) : gmap BudgetKey N :=
  let m := if full m then filter (fun e => now < e.2) m else m in
  let m := if full m then remove_least id m else m in
  <[key := now + rd_cooldown config * SECOND]> m.

(** ** Requests *)

Record RenderPayload : Type := { rp_seed : string; rp_host : string; rp_path : string; rp_links : list string }.
Inductive RenderAttempt : Type := RBody (html : string) | RFallback (label : string).
(** What becomes of a request to an endpoint: it is not built or not answered, or the
    status succeeds or not and the body ends or not. *)
Inductive Exchange : Type :=
| ExFailed
| ExReplied (success : bool) (body : option (list N)).
(** The two backends: an endpoint, or a page of the deceiver at hand. *)
Inductive RenderBackend : Type := Iocaine (exchange : Exchange) | MarkovBackend (page : string).
(** [request]. *)
Definition request (config : RendererConfig) (backend : RenderBackend) : result string string :=
  match backend with
  | MarkovBackend page => if rd_max_body config <? N.of_nat (String.length page) then Err "oversized" else Ok page
  | Iocaine ExFailed => Err "error"
  | Iocaine (ExReplied success body) =>
      if negb success then Err "status"
      else match body with
           | None => Err "oversized"
           | Some bytes =>
               if rd_max_body config <? N.of_nat (length bytes) then Err "oversized"
               else if is_utf8 bytes then Ok (bytes_string bytes) else Err "utf8"
           end
  end.

(** ** Calls of [render] *)

(** Where a call is: before the cooldown is looked at, before the budget, over it,
    before the semaphore, requesting, failed with its place still held, or done. *)
Inductive Phase : Type :=
| Entering | Allowed | OverBudget | Budgeted | Requesting | Failing (label : string) | Finished (attempt : RenderAttempt)
| Cancelled.
Record Call : Type := { rc_key : BudgetKey; rc_decoy : bool; rc_phase : Phase }.
(** The renderer, with the cooldowns it ever started for the theorems. *)
Record Renderer : Type := {
  rn_clock : N; rn_buckets : gmap BudgetKey Buckets; rn_cooldowns : gmap BudgetKey N; rn_permits : N;
  rn_calls : list Call; rn_cooled : list (BudgetKey * N) }.
Definition renderer_new (config : RendererConfig) (now : N) : Renderer := {|
  rn_clock := now; rn_buckets := ∅; rn_cooldowns := ∅; rn_permits := rd_max_concurrency config; rn_calls := []; rn_cooled := [] |}.
Definition with_buckets (m : gmap BudgetKey Buckets) (r : Renderer) : Renderer := {|
  rn_clock := rn_clock r; rn_buckets := m; rn_cooldowns := rn_cooldowns r; rn_permits := rn_permits r;
  rn_calls := rn_calls r; rn_cooled := rn_cooled r |}.
Definition with_permits (n : N) (r : Renderer) : Renderer := {|
  rn_clock := rn_clock r; rn_buckets := rn_buckets r; rn_cooldowns := rn_cooldowns r; rn_permits := n;
  rn_calls := rn_calls r; rn_cooled := rn_cooled r |}.
Definition cooled (config : RendererConfig) (key : BudgetKey) (now : N) (r : Renderer) : Renderer := {|
  rn_clock := rn_clock r; rn_buckets := rn_buckets r; rn_cooldowns := start_cooldown config key now (rn_cooldowns r);
  rn_permits := rn_permits r; rn_calls := rn_calls r; rn_cooled := (key, now) :: rn_cooled r |}.
Definition with_calls (now : N) (calls : list Call) (r : Renderer) : Renderer := {|
  rn_clock := now; rn_buckets := rn_buckets r; rn_cooldowns := rn_cooldowns r; rn_permits := rn_permits r;
  rn_calls := calls; rn_cooled := rn_cooled r |}.

(** One part of a call. The outcome of a request is what its backend gave, or [None]
    for one that ran out of time; a call that is cancelled gives its place back. *)
Definition advance (config : RendererConfig) (c : Call) (now : N) (outcome : option RenderBackend) (r : Renderer) :
    option (Phase * Renderer) :=
  match rc_phase c with
  | Entering => Some (if in_cooldown (rc_key c) now (rn_cooldowns r) then Finished (RFallback "cooldown") else Allowed, r)
  | Allowed =>
      let '(ok, m) := take_budget config (rc_key c) (rc_decoy c) now (rn_buckets r) in
      Some (if (ok : bool) then Budgeted else OverBudget, with_buckets m r)
  | OverBudget => Some (Finished (RFallback "over_budget"), cooled config (rc_key c) now r)
  | Budgeted =>
      Some (if rn_permits r =? 0 then (Finished (RFallback "concurrency"), r)
            else (Requesting, with_permits (rn_permits r - 1) r))
  | Requesting =>
      Some match outcome with
           | Some backend =>
               match request config backend with
               | Ok body => (Finished (RBody body), with_permits (rn_permits r + 1) r)
               | Err label => (Failing label, r)
               end
           | None => (Failing "timeout", r)
           end
  | Failing label => Some (Finished (RFallback label), with_permits (rn_permits r + 1) (cooled config (rc_key c) now r))
  | Finished _ | Cancelled => None
  end.
Inductive RenderEvent : Type :=
| Enter (key : BudgetKey) (is_decoy : bool)
| Move (call : nat) (now : N) (outcome : option RenderBackend)
| Cancel (call : nat).
Definition set_phase (p : Phase) (c : Call) : Call := {| rc_key := rc_key c; rc_decoy := rc_decoy c; rc_phase := p |}.
Definition render_step (config : RendererConfig) (e : RenderEvent) (r : Renderer) : option Renderer :=
  match e with
  | Enter key is_decoy =>
      Some (with_calls (rn_clock r) (rn_calls r ++ [{| rc_key := key; rc_decoy := is_decoy; rc_phase := Entering |}]) r)
  | Move i now outcome =>
      c ← rn_calls r !! i;
      if now <? rn_clock r then None
      else '(p, r') ← advance config c now outcome r; Some (with_calls now (<[i := set_phase p c]> (rn_calls r)) r')
  | Cancel i =>
      c ← rn_calls r !! i;
      match rc_phase c with
      | Requesting => Some (with_calls (rn_clock r) (<[i := set_phase Cancelled c]> (rn_calls r)) (with_permits (rn_permits r + 1) r))
      | _ => None
      end
  end.
Fixpoint render_run (config : RendererConfig) (es : list RenderEvent) (r : Renderer) : option Renderer :=
  match es with
  | [] => Some r
  | e :: es => r ← render_step config e r; render_run config es r
  end.

(** ** Pages ([render_maze]) *)

Section Maze.
Context `{MA : MazeApi}.

(** [MazeRender], and what [render_maze] gives: the page, who made it and how. *)
Record MazeRender : Type := {
  mn_host : string; mn_source : option SourceNetwork; mn_budget_source : SourceNetwork; mn_authenticated : bool;
  mn_seed_input : list N; mn_payload_path : string }.
Record RenderedMaze : Type := { rm_html : string; rm_renderer : string; rm_result : string }.
Definition maze_seed (runtime : MazeRuntime) (req : MazeRender) : list N :=
  page_seed (if mn_authenticated req then render_key (mr_keys runtime) else decoy_key (mr_keys runtime)) (mn_seed_input req).
Definition maze_budget (runtime : MazeRuntime) : RenderBudget := {|
  min_links := mz_min_links (mr_config runtime); max_links := mz_max_links (mr_config runtime);
  min_bytes := mz_min_bytes (mr_config runtime); max_bytes := mz_max_bytes (mr_config runtime) |}.
(** The address of the [i]th link that is made, with its nonce. *)
Definition maze_mint (runtime : MazeRuntime) (req : MazeRender) (now : N) (nonces : nat -> list N) (i : nat) (path : string) : string :=
  mint_link (mr_keys runtime) (mn_authenticated req) (mn_source req) (now + mz_token_ttl (mr_config runtime)) (nonces i) path.
Definition maze_payload (runtime : MazeRuntime) (req : MazeRender) (now : N) (nonces : nat -> list N) : RenderPayload := {|
  rp_seed := b32_encode (maze_seed runtime req); rp_host := mn_host req; rp_path := mn_payload_path req;
  rp_links := imap (maze_mint runtime req now nonces) (plan_links (maze_seed runtime req) (maze_budget runtime)) |}.
Definition maze_budget_key (runtime : MazeRuntime) (req : MazeRender) : BudgetKey := {|
  bk_host := mn_host req; bk_maze := mr_name runtime; bk_source := Some (mn_budget_source req) |}.
(** A renderer that is configured gives its kind and what its [render] came to; the
    engine draws its own nonces. *)
Definition render_maze (renderer : option (string * (BudgetKey -> RenderPayload -> bool -> RenderAttempt)))
    (runtime : MazeRuntime) (req : MazeRender) (now : N) (nonces nonces' : nat -> list N) : option RenderedMaze :=
  let engine who how :=
    '(html, _) ← render_page (maze_seed runtime req) (maze_budget runtime) (maze_mint runtime req now nonces');
    Some {| rm_html := html; rm_renderer := who; rm_result := how |} in
  match renderer with
  | Some (kind, render) =>
      match render (maze_budget_key runtime req) (maze_payload runtime req now nonces) (negb (mn_authenticated req)) with
      | RBody html => Some {| rm_html := html; rm_renderer := kind; rm_result := "ok" |}
      | RFallback label => engine kind label
      end
  | None => engine "builtin" "ok"
  end.
End Maze.

(** * What a renderer cannot exceed

    However the calls of [render] interleave: no more requests at once than the
    configuration allows, no table over its capacity, no body over its limit, and no
    new request for a key that failed until its cooldown is over. *)

Local Open Scope N_scope.

(** ** Tables *)

Section Tables.
Context {V : Type} (f : V -> N).
Implicit Types m : gmap BudgetKey V.

Lemma least_some m : m <> ∅ -> exists k, least f m = Some k /\ is_Some (m !! k).
Proof.
  intros Hm. unfold least.
  assert (Hf : forall l : list (BudgetKey * V), l <> [] -> exists e, foldr (fun e best => match best with
      | Some b => if f b.2 <? f e.2 then Some b else Some e | None => Some e end) None l = Some e /\ e ∈ l).
  { clear. intros l. induction l as [|x l IH]; [done|]. intros _. cbn. destruct l as [|y l]; [exists x; split; [done|by left]|].
    destruct (IH ltac:(done)) as (e & -> & He). destruct (f e.2 <? f x.2); [exists e; split; [done|by right]|exists x; split; [done|by left]]. }
  destruct (Hf (map_to_list m)) as (e & -> & He); [intros E; apply map_to_list_empty_iff in E; done|].
  exists e.1. split; [done|]. destruct e as [k v]. apply elem_of_map_to_list in He. by exists v.
Qed.
Lemma full_not_empty m : full m = true -> m <> ∅.
Proof. intros H ->. unfold full in H. by rewrite map_size_empty in H. Qed.
Lemma remove_least_size m : full m = true -> (size (remove_least f m) < size m)%nat.
Proof.
  intros H. unfold remove_least. destruct (least_some m (full_not_empty m H)) as (k & -> & Hk).
  rewrite map_size_delete_Some by done. apply full_not_empty in H.
  assert (size m <> 0)%nat; [|lia]. intros E. by apply map_size_empty_iff in E.
Qed.
Lemma filter_size (P : BudgetKey * V -> Prop) `{!forall x, Decision (P x)} m : (size (filter P m) <= size m)%nat.
Proof. rewrite <-!size_dom. apply subseteq_size, dom_filter_subseteq. Qed.
Lemma insert_size k v m : (size (<[k := v]> m) <= S (size m))%nat.
Proof. destruct (m !! k) eqn:E; [rewrite map_size_insert_Some by (by eexists); lia|rewrite map_size_insert_None by done; lia]. Qed.
Lemma not_full m : full m = false -> N.of_nat (size m) < BUDGET_CAPACITY.
Proof. unfold full. by rewrite N.leb_gt. Qed.
(** Room for one entry, made by dropping some and then the least. *)
Lemma room_size (P : BudgetKey * V -> Prop) `{!forall x, Decision (P x)} m k v :
  N.of_nat (size m) <= BUDGET_CAPACITY ->
  N.of_nat (size (<[k := v]> (let m := if full m then filter P m else m in if full m then remove_least f m else m))) <= BUDGET_CAPACITY.
Proof.
  intros Hm. cbv zeta. set (m1 := if full m then filter P m else m).
  assert (H1 : N.of_nat (size m1) <= BUDGET_CAPACITY).
  { unfold m1. destruct (full m); [|done]. pose proof (filter_size P m). lia. }
  destruct (full m1) eqn:E.
  - pose proof (remove_least_size m1 E). pose proof (insert_size k v (remove_least f m1)). lia.
  - apply not_full in E. pose proof (insert_size k v m1). lia.
Qed.
End Tables.

Lemma take_budget_size config key d now m ok m' :
  N.of_nat (size m) <= BUDGET_CAPACITY -> take_budget config key d now m = (ok, m') -> N.of_nat (size m') <= BUDGET_CAPACITY.
Proof.
  intros Hm. unfold take_budget. destruct (bucket_take _ _ _ _) as [g_ok g]. destruct (if d then _ else _) as [d_ok b].
  intros [= _ <-]. set (v := {| general := g; decoy := b |}). clearbody v. unfold make_bucket_room. cbv zeta.
  set (P := fun e : BudgetKey * Buckets => (now - bucket_age e.2) / SECOND < 600).
  destruct (m !! key) as [x|] eqn:Ex.
  - cbn [is_some negb]. rewrite !andb_false_r, Ex. cbn [is_some negb]. rewrite andb_false_r.
    by rewrite map_size_insert_Some by (by eexists).
  - cbn [is_some negb]. rewrite !andb_true_r.
    assert (En : forall m1, m1 = (if full m then filter P m else m) -> m1 !! key = None).
    { intros m1 ->. destruct (full m); [|done]. apply map_lookup_filter_None. by left. }
    specialize (En _ eq_refl). fold P. rewrite En. cbn [is_some negb]. rewrite andb_true_r. by apply (room_size bucket_age P).
Qed.
Lemma start_cooldown_size config key now m :
  N.of_nat (size m) <= BUDGET_CAPACITY -> N.of_nat (size (start_cooldown config key now m)) <= BUDGET_CAPACITY.
Proof. intros Hm. unfold start_cooldown. by apply (room_size id (fun e : BudgetKey * N => now < e.2)). Qed.
(** While the table is not full a cooldown displaces none. *)
Lemma start_cooldown_lookup config key now m k :
  N.of_nat (size m) < BUDGET_CAPACITY ->
  start_cooldown config key now m !! k = if base.decide (k = key) then Some (now + rd_cooldown config * SECOND) else m !! k.
Proof.
  intros Hm. unfold start_cooldown. assert (full m = false) as E by (unfold full; by apply N.leb_gt).
  cbv zeta. rewrite E, E. destruct (base.decide (k = key)) as [->|]; [by rewrite lookup_insert_eq|by rewrite lookup_insert_ne].
Qed.

(** ** Calls *)

Definition holding (c : Call) : nat := match rc_phase c with Requesting | Failing _ => 1 | _ => 0 end.
Definition held (calls : list Call) : nat := sum_list_with holding calls.
Lemma held_calls_cons c calls : held (c :: calls) = (holding c + held calls)%nat.
Proof. done. Qed.
Lemma held_insert calls i c c' :
  calls !! i = Some c -> (held (<[i := c']> calls) + holding c = held calls + holding c')%nat.
Proof.
  revert i. induction calls as [|x l IH]; intros [|i] H; try done.
  - apply (inj Some) in H as ->. cbn [insert list_insert]. rewrite !held_calls_cons. lia.
  - cbn in H. specialize (IH i H). change (<[S i := c']> (x :: l)) with (x :: <[i := c']> l). rewrite !held_calls_cons. lia.
Qed.
Definition body_ok (config : RendererConfig) (c : Call) : Prop :=
  match rc_phase c with Finished (RBody html) => N.of_nat (String.length html) <= rd_max_body config | _ => True end.
(** A call that ended with a failure of its own has started a cooldown. *)
Definition failed_cools (cooled : list (BudgetKey * N)) (c : Call) : Prop :=
  match rc_phase c with
  | Finished (RFallback label) => label = "cooldown" \/ label = "concurrency" \/ exists t, (rc_key c, t) ∈ cooled
  | _ => True
  end.
Record renderer_ok (config : RendererConfig) (keys : gset BudgetKey) (r : Renderer) : Prop := {
  ro_permits : rn_permits r + N.of_nat (held (rn_calls r)) = rd_max_concurrency config;
  ro_buckets : N.of_nat (size (rn_buckets r)) <= BUDGET_CAPACITY;
  ro_cooldowns : N.of_nat (size (rn_cooldowns r)) <= BUDGET_CAPACITY;
  ro_bodies : Forall (body_ok config) (rn_calls r);
  ro_failed : Forall (failed_cools (rn_cooled r)) (rn_calls r);
  ro_keys : Forall (fun c => rc_key c ∈ keys) (rn_calls r);
  ro_cooled_keys : dom (rn_cooldowns r) ⊆ keys;
  ro_past key t : (key, t) ∈ rn_cooled r -> t <= rn_clock r;
  ro_cooled key t : (key, t) ∈ rn_cooled r -> N.of_nat (size keys) < BUDGET_CAPACITY ->
    exists until, rn_cooldowns r !! key = Some until /\ t + rd_cooldown config * SECOND <= until }.

Lemma bytes_string_length l : String.length (bytes_string l) = length l.
Proof. unfold bytes_string. induction l as [|b l IH]; [done|]. cbn in *. by rewrite IH. Qed.
Lemma request_body config backend body : request config backend = Ok body -> N.of_nat (String.length body) <= rd_max_body config.
Proof.
  unfold request. destruct backend as [[|success o]|page]; [done| |].
  - destruct success; [|done]. cbn [negb]. destruct o as [bs|]; [|done]. destruct (N.ltb_spec (rd_max_body config) (N.of_nat (length bs))); [done|].
    destruct (is_utf8 bs); [|done]. intros [= <-]. by rewrite bytes_string_length.
  - destruct (N.ltb_spec (rd_max_body config) (N.of_nat (String.length page))); [done|]. by intros [= <-].
Qed.

Lemma remove_least_dom {V} (f : V -> N) (m : gmap BudgetKey V) : dom (remove_least f m) ⊆ dom m.
Proof. unfold remove_least. destruct (least f m); [set_solver|done]. Qed.
Lemma start_cooldown_dom config key now m : dom (start_cooldown config key now m) ⊆ {[key]} ∪ dom m.
Proof.
  unfold start_cooldown. cbv zeta. rewrite dom_insert.
  set (m1 := if full m then filter _ m else m).
  assert (dom m1 ⊆ dom m) by (unfold m1; destruct (full m); [apply dom_filter_subseteq|done]).
  pose proof (remove_least_dom id m1). destruct (full m1); set_solver.
Qed.

(** What one part of a call changes. *)
Ltac changes :=
  unfold holding, body_ok, failed_cools; cbn; repeat split;
  first [done | lia | by left | by right | by right; left | by right; right; eexists; left | idtac].
Lemma advance_changes config c now outcome r p r' :
  advance config c now outcome r = Some (p, r') -> N.of_nat (size (rn_buckets r)) <= BUDGET_CAPACITY ->
  rn_calls r' = rn_calls r /\ rn_permits r' + N.of_nat (holding (set_phase p c)) = rn_permits r + N.of_nat (holding c)
  /\ N.of_nat (size (rn_buckets r')) <= BUDGET_CAPACITY /\ body_ok config (set_phase p c)
  /\ failed_cools (rn_cooled r') (set_phase p c)
  /\ (rn_cooldowns r' = rn_cooldowns r /\ rn_cooled r' = rn_cooled r
      \/ rn_cooldowns r' = start_cooldown config (rc_key c) now (rn_cooldowns r)
         /\ rn_cooled r' = (rc_key c, now) :: rn_cooled r).
Proof.
  unfold advance. destruct c as [k d ph]. cbn [rc_phase rc_key rc_decoy]. intros H Hb.
  destruct ph; [| | | | | |done|done].
  - apply (inj Some) in H. injection H as <- <-. destruct (in_cooldown _ _ _); changes.
  - destruct (take_budget _ _ _ _ _) as [ok m] eqn:Et. apply (inj Some) in H. injection H as <- <-.
    pose proof (take_budget_size _ _ _ _ _ _ _ Hb Et). destruct ok; changes.
  - apply (inj Some) in H. injection H as <- <-. changes.
  - apply (inj Some) in H. destruct (N.eqb_spec (rn_permits r) 0) as [E|E]; injection H as <- <-; changes.
  - apply (inj Some) in H. destruct outcome as [b|]; [|injection H as <- <-; changes].
    destruct (request config b) as [body|l] eqn:Er; injection H as <- <-; [|by changes].
    pose proof (request_body _ _ _ Er). changes.
  - apply (inj Some) in H. injection H as <- <-. changes.
Qed.

Definition event_in (keys : gset BudgetKey) (e : RenderEvent) : Prop :=
  match e with Enter key _ => key ∈ keys | _ => True end.
Lemma failed_cools_mono cooled cooled' calls :
  cooled ⊆ cooled' -> Forall (failed_cools cooled) calls -> Forall (failed_cools cooled') calls.
Proof.
  intros Hs H. apply (Forall_impl _ _ _ H). intros c. unfold failed_cools. destruct (rc_phase c) as [| | | | | |[|l]|]; try done.
  intros [?|[?|[t Ht]]]; eauto.
Qed.
Lemma render_step_ok config keys e r r' :
  event_in keys e -> renderer_ok config keys r -> render_step config e r = Some r' -> renderer_ok config keys r'.
Proof.
  intros He [Hp Hb Hc Ho Hf Hk Hd Ht Hu] H. destruct e as [key d|i now outcome|i]; cbn in H.
  - apply (inj Some) in H as <-. split; cbn; try done.
    + unfold held in *. rewrite sum_list_with_app. cbn. lia.
    + apply Forall_app. split; [done|by repeat constructor].
    + apply Forall_app. split; [done|by repeat constructor].
    + apply Forall_app. split; [done|by repeat constructor].
  - destruct (rn_calls r !! i) as [c|] eqn:Ec; cbn in H; [|done]. destruct (N.ltb_spec now (rn_clock r)); [done|].
    destruct (advance config c now outcome r) as [[p r1]|] eqn:Ea; cbn in H; [|done]. apply (inj Some) in H as <-.
    destruct (advance_changes _ _ _ _ _ _ _ Ea Hb) as (E1 & Hp1 & Hb1 & Ho1 & Hf1 & Hc1).
    pose proof (held_insert _ _ _ (set_phase p c) Ec) as Hh.
    pose proof (Forall_lookup_1 _ _ _ _ Hk Ec) as Hkc. cbn in Hkc.
    split; cbn [with_calls with_permits rn_clock rn_buckets rn_cooldowns rn_permits rn_calls rn_cooled]; try done.
    + lia.
    + destruct Hc1 as [[-> _]|[-> _]]; [done|by apply start_cooldown_size].
    + by apply Forall_insert.
    + apply Forall_insert; [|done]. apply (failed_cools_mono (rn_cooled r)); [|done].
      destruct Hc1 as [[_ ->]|[_ ->]]; set_solver.
    + by apply Forall_insert.
    + destruct Hc1 as [[-> _]|[-> _]]; [done|]. pose proof (start_cooldown_dom config (rc_key c) now (rn_cooldowns r)). set_solver.
    + intros key t. destruct Hc1 as [[_ ->]|[_ ->]]; [intros Hin; specialize (Ht key t Hin); lia|].
      intros Hin. apply elem_of_cons in Hin as [[= -> ->]|Hin]; [lia|specialize (Ht key t Hin); lia].
    + intros key t Hin Hs. destruct Hc1 as [[-> E]|[-> E]]; rewrite E in Hin; [by apply Hu|].
      assert (Hlt : N.of_nat (size (rn_cooldowns r)) < BUDGET_CAPACITY).
      { rewrite <-size_dom. pose proof (subseteq_size _ _ Hd). lia. }
      rewrite (start_cooldown_lookup _ _ _ _ _ Hlt). apply elem_of_cons in Hin as [[= -> ->]|Hin].
      * rewrite decide_True by done. eexists. split; [done|lia].
      * specialize (Ht _ _ Hin). destruct (base.decide (key = rc_key c)); [eexists; split; [done|lia]|by apply Hu].
  - destruct (rn_calls r !! i) as [c|] eqn:Ec; cbn in H; [|done]. destruct (rc_phase c) eqn:Ep; try done.
    apply (inj Some) in H as <-. pose proof (held_insert _ _ _ (set_phase Cancelled c) Ec) as Hh.
    assert (holding c = 1%nat) as E1 by (unfold holding; by rewrite Ep).
    assert (holding (set_phase Cancelled c) = 0%nat) as E2 by done.
    split; cbn [with_calls with_permits rn_clock rn_buckets rn_cooldowns rn_permits rn_calls rn_cooled]; try done.
    + lia.
    + by apply Forall_insert.
    + by apply Forall_insert.
    + apply Forall_insert; [done|]. exact (Forall_lookup_1 _ _ _ _ Hk Ec).
Qed.
Lemma renderer_new_ok config keys now : renderer_ok config keys (renderer_new config now).
Proof. split; cbn; try done; try (constructor); try lia; try set_solver. Qed.
Lemma render_run_ok config keys es r r' :
  Forall (event_in keys) es -> renderer_ok config keys r -> render_run config es r = Some r' -> renderer_ok config keys r'.
Proof.
  intros He. revert r. induction He as [|e es He _ IH]; intros r Hr H; cbn in H; [by apply (inj Some) in H as <-|].
  destruct (render_step config e r) as [r1|] eqn:Es; cbn in H; [|done].
  apply (IH r1); [by apply (render_step_ok config keys e r)|done].
Qed.

(** ** What holds however calls interleave *)

Definition in_flight (r : Renderer) : nat :=
  length (List.filter (fun c => match rc_phase c with Requesting => true | _ => false end) (rn_calls r)).
Lemma in_flight_held r : (in_flight r <= held (rn_calls r))%nat.
Proof.
  unfold in_flight. induction (rn_calls r) as [|[k d p] l IH]; [done|]. rewrite held_calls_cons. destruct p; cbn in *; lia.
Qed.

(** C40: However the calls of [render] interleave, whatever the endpoints answer and
    whenever the requests of calls are cancelled: there are never more requests at once
    than [max_concurrency]; the tables of budgets and of cooldowns hold at most
    [BUDGET_CAPACITY] keys; no page handed out is longer than [max_body]; and every call
    that ended in a failure of its own, anything but a cooldown or a full semaphore, has
    put its key in a cooldown. While the keys in use are fewer than the capacity, a call
    passes the check of the cooldowns only when every cooldown started for its key before
    that check has run out; a call that passed it earlier goes on. How many calls a
    budget lets through is not part of this. *)
Theorem renderer_bounded config start keys es r :
  Forall (event_in keys) es -> render_run config es (renderer_new config start) = Some r ->
  N.of_nat (in_flight r) <= rd_max_concurrency config
  /\ N.of_nat (size (rn_buckets r)) <= BUDGET_CAPACITY /\ N.of_nat (size (rn_cooldowns r)) <= BUDGET_CAPACITY
  /\ (forall i c, rn_calls r !! i = Some c ->
      match rc_phase c with
      | Finished (RBody html) => N.of_nat (String.length html) <= rd_max_body config
      | Finished (RFallback label) => label = "cooldown" \/ label = "concurrency" \/ exists t, (rc_key c, t) ∈ rn_cooled r
      | Entering => N.of_nat (size keys) < BUDGET_CAPACITY -> forall now outcome r',
          render_step config (Move i now outcome) r = Some r' -> rc_phase <$> rn_calls r' !! i = Some Allowed ->
          forall t, (rc_key c, t) ∈ rn_cooled r -> t + rd_cooldown config * SECOND <= now
      | _ => True
      end).
Proof.
  intros He H. destruct (render_run_ok config keys es _ r He (renderer_new_ok config keys start) H) as [Hp Hb Hc Ho Hf _ _ _ Hu].
  pose proof (in_flight_held r). repeat split; try done; [lia|]. intros i c Ec.
  pose proof (Forall_lookup_1 _ _ _ _ Ho Ec) as Hoc. pose proof (Forall_lookup_1 _ _ _ _ Hf Ec) as Hfc.
  unfold body_ok in Hoc. unfold failed_cools in Hfc. destruct (rc_phase c) as [| | | | | |[]|] eqn:Ep; try done.
  intros Hs now outcome r' Hr Hal t Hin. destruct (Hu _ _ Hin Hs) as (until & Eu & Hle).
  cbn in Hr. rewrite Ec in Hr. cbn in Hr. destruct (now <? rn_clock r); [done|]. unfold advance in Hr. rewrite Ep in Hr. cbn in Hr.
  apply (inj Some) in Hr as <-. cbn in Hal. rewrite list_lookup_insert_eq in Hal by (by eapply lookup_lt_Some).
  cbn in Hal. unfold in_cooldown in Hal. rewrite Eu in Hal. destruct (N.ltb_spec now until); [done|lia].
Qed.

(** ** Two sources on one renderer *)

Module RendererExample.
(** One request at a time, two in a row, pages up to twenty bytes, ten seconds of cooldown. *)
Definition config : RendererConfig := {|
  rd_name := "mk"; rd_kind := "markov"; rd_endpoint := ""; rd_timeout := 2; rd_max_body := 20;
  rd_max_concurrency := 1; rd_rate := 1; rd_burst := 2; rd_decoy_rate := 1; rd_decoy_burst := 1; rd_cooldown := 10 |}.
Definition key (host : string) : BudgetKey := {| bk_host := host; bk_maze := "m"; bk_source := None |}.
Definition keys : gset BudgetKey := {[key "a"; key "b"]}.
Definition at_ (t : N) (i : nat) : RenderEvent := Move i (t * SECOND) None.
Definition page (t : N) (i : nat) (html : string) : RenderEvent := Move i (t * SECOND) (Some (MarkovBackend html)).
(** The first call holds the only place, so the second is turned away without a
    cooldown; the page is then too long and the key cools down; a third call finds the
    cooldown, and a fourth, later, gets its page. *)
Definition events : list RenderEvent := [
  Enter (key "a") false; at_ 0 0; at_ 0 0; at_ 0 0;
  Enter (key "b") true; at_ 1 1; at_ 1 1; at_ 1 1;
  page 2 0 "a page that is longer than its limit"; at_ 2 0;
  Enter (key "a") false; at_ 3 2;
  Enter (key "a") false; at_ 12 3; at_ 12 3; at_ 12 3; page 13 3 "<p>a page</p>"].
Definition ends (r : Renderer) : list Phase := rc_phase <$> rn_calls r.
Example run_ends :
  ends <$> render_run config events (renderer_new config 0) =
  Some [Finished (RFallback "oversized"); Finished (RFallback "concurrency"); Finished (RFallback "cooldown");
        Finished (RBody "<p>a page</p>")].
Proof. vm_refl. Qed.
(** Three calls at once of one key: the third is over its budget of two. *)
Example third_is_over_budget :
  ends <$> render_run {| rd_name := "mk"; rd_kind := "markov"; rd_endpoint := ""; rd_timeout := 2; rd_max_body := 20;
      rd_max_concurrency := 9; rd_rate := 1; rd_burst := 2; rd_decoy_rate := 1; rd_decoy_burst := 1; rd_cooldown := 10 |}
    [Enter (key "a") false; at_ 0 0; at_ 0 0; Enter (key "a") false; at_ 0 1; at_ 0 1;
     Enter (key "a") false; at_ 0 2; at_ 0 2; at_ 0 2] (renderer_new config 0) =
  Some [Budgeted; Budgeted; Finished (RFallback "over_budget")].
Proof. vm_refl. Qed.
(** A decoy that is refused by the bucket of the decoys has still taken from the other. *)
Example refused_decoy_pays :
  (fun b => (tb_tokens (general b), tb_tokens (decoy b))) <$>
    (take_budget config (key "a") true 0 (take_budget config (key "a") true 0 ∅).2).2 !! key "a" =
  Some (f64_of 0, f64_of 0).
Proof. vm_refl. Qed.
End RendererExample.

Lemma renderer_bounded_witness :
  exists r, render_run RendererExample.config RendererExample.events (renderer_new RendererExample.config 0) = Some r
  /\ N.of_nat (in_flight r) <= 1.
Proof.
  destruct (render_run RendererExample.config RendererExample.events (renderer_new RendererExample.config 0)) as [r|] eqn:E.
  - exists r. split; [done|].
    exact (proj1 (renderer_bounded RendererExample.config 0 RendererExample.keys RendererExample.events r
      ltac:(repeat constructor; cbn; try done; unfold RendererExample.keys; set_solver) E)).
  - exfalso. assert (E' : is_some (render_run RendererExample.config RendererExample.events (renderer_new RendererExample.config 0)) = true)
      by vm_refl. by rewrite E in E'.
Defined.
