(* ===== verification/NetworksFacts.v ===== *)
(** * What networks are loaded

    Facts about [Networks]: the path of a JSON filter is read at its dots, a set of
    networks holds exactly the addresses of its prefixes, loading is all or nothing,
    and within its time the cache stands for the sources. *)

From S2P Require Import Prelude Core ThirdParty Strings Ip Bytes Url Policy.
From S2P Require Import Networks.

Local Open Scope N_scope.

(** ** Paths *)

Lemma substring_here a b c : String.substring (String.length a) (String.length b) (a +:+ b +:+ c) = b.
Proof.
  induction a as [|x a IH].
  - change ("" +:+ b +:+ c) with (b +:+ c). induction b as [|x b IH]; [by destruct c|].
    change (String.substring (String.length "") (String.length (String x b)) (String x b +:+ c))
      with (String x (String.substring 0 (String.length b) (b +:+ c))). f_equal. exact IH.
  - exact IH.
Qed.

Definition nonempty_pieces (s : string) : list string :=
  List.filter (fun piece => negb (str_is_empty piece)) (str_split "." s).
Lemma pieces_dot b rest :
  str_any (char_eqb ".") b = false ->
  nonempty_pieces (b +:+ String "." rest) = (if str_is_empty b then [] else [b]) ++ nonempty_pieces rest.
Proof.
  intros Hb. unfold nonempty_pieces. rewrite str_split_app, str_split_none by done. cbn [app List.filter]. by destruct b.
Qed.
Lemma pieces_none b : str_any (char_eqb ".") b = false -> nonempty_pieces b = if str_is_empty b then [] else [b].
Proof. intros Hb. unfold nonempty_pieces. rewrite str_split_none by done. by destruct b. Qed.

Lemma split_jq_go_spec a b rest segments :
  str_any (char_eqb ".") b = false ->
  let path := a +:+ b +:+ rest in
  let '(segs, start) := split_jq_go path (String.length a) (String.length a + String.length b) rest segments in
  segs ++ (if (start <? String.length path)%nat then [String.substring start (String.length path - start) path] else []) =
  segments ++ nonempty_pieces (b +:+ rest).
Proof.
  intros Hb. cbv zeta. revert a b segments Hb. induction rest as [|c rest IH]; intros a b segments Hb; cbn [split_jq_go].
  - rewrite string_app_nil_r, pieces_none by done. f_equal. rewrite string_length_app. destruct b as [|x b].
    + by rewrite Nat.add_0_r, Nat.ltb_irrefl.
    + assert ((String.length a <? String.length a + String.length (String x b))%nat = true) as -> by (apply Nat.ltb_lt; cbn; lia).
      replace (String.length a + String.length (String x b) - String.length a)%nat with (String.length (String x b)) by lia.
      pose proof (substring_here a (String x b) "") as Hs. rewrite string_app_nil_r in Hs. by rewrite Hs.
  - destruct (char_eqb c ".") eqn:Ec.
    + unfold char_eqb in Ec. apply Ascii.eqb_eq in Ec as ->. rewrite pieces_dot by done. cbn [andb].
      assert (Ea : String.length (a +:+ b +:+ ".") = S (String.length a + String.length b)).
      { rewrite !string_length_app. cbn. lia. }
      assert (Ep : (a +:+ b +:+ ".") +:+ "" +:+ rest = a +:+ b +:+ String "." rest) by by rewrite !string_app_assoc.
      specialize (IH (a +:+ b +:+ ".") ""). rewrite Ep, Ea in IH. cbn [String.length] in IH. rewrite Nat.add_0_r in IH.
      change ("" +:+ rest) with rest in IH. destruct b as [|x b].
      * cbn [String.length]. rewrite !Nat.add_0_r in *. rewrite Nat.ltb_irrefl, Nat.eqb_refl.
        cbn [str_is_empty]. rewrite app_nil_l. by apply IH.
      * assert ((String.length a <? String.length a + String.length (String x b))%nat = true) as -> by (apply Nat.ltb_lt; cbn; lia).
        replace (String.length a + String.length (String x b) - String.length a)%nat with (String.length (String x b)) by lia.
        rewrite substring_here. cbn [str_is_empty]. rewrite app_assoc. by apply IH.
    + cbn [andb]. assert (Eb : (String.length a + String.length (b +:+ String c ""))%nat = S (String.length a + String.length b)).
      { rewrite string_length_app. cbn. lia. }
      assert (Ep : (b +:+ String c "") +:+ rest = b +:+ String c rest) by by rewrite string_app_assoc.
      specialize (IH a (b +:+ String c "") segments). rewrite Eb, Ep in IH. apply IH.
      rewrite str_any_app, Hb. cbn. unfold char_eqb in *. rewrite orb_false_r. destruct (Ascii.eqb_spec "." c) as [<-|]; [|done].
      by rewrite Ascii.eqb_refl in Ec.
Qed.

(** The loop over positions gives the pieces between dots that are not empty. *)
Theorem split_jq_pieces path : split_jq_segments path = nonempty_pieces path.
Proof.
  unfold split_jq_segments. pose proof (split_jq_go_spec "" "" path [] eq_refl) as H. cbv zeta in H.
  change ("" +:+ "" +:+ path) with path in H. change ("" +:+ path) with path in H. cbn [String.length Nat.add] in H.
  destruct (split_jq_go path 0 0 path []) as [segs start]. rewrite app_nil_l in H. rewrite <-H.
  destruct (_ <? _)%nat; [done|by rewrite app_nil_r].
Qed.

(** ** Sets of networks *)

(** Which addresses a network holds, and what is promised of the table. *)
Class PrefixLaws {PT : PrefixTable} : Type := {
  ipnet_contains : IpNet -> IpAddr -> bool;
  longest_new ip : table_longest_match table_new ip = None;
  longest_insert net t ip :
    is_some (table_longest_match (table_insert net t) ip) = ipnet_contains net ip || is_some (table_longest_match t ip);
  single_contains a b : ipnet_contains (ipnet_single a) b = bool_decide (a = b) }.

Section Tries.
Context {PT : PrefixTable} {PL : PrefixLaws}.
(** The addresses a prefix stands for, as a network or else as an address. *)
Definition prefix_covers (prefix : string) (ip : IpAddr) : bool :=
  match ipnet_parse prefix with
  | Some net => ipnet_contains net ip
  | None => match parse_ip prefix with Some a => bool_decide (a = ip) | None => false end
  end.
Lemma add_prefix_contains t prefix ip : trie_contains (add_prefix t prefix) ip = prefix_covers prefix ip || trie_contains t ip.
Proof.
  unfold add_prefix, prefix_covers, trie_contains. destruct (ipnet_parse prefix) as [net|]; [apply longest_insert|].
  destruct (parse_ip prefix) as [a|]; [|done]. cbn [trie_add table]. by rewrite longest_insert, single_contains.
Qed.
Lemma trie_contains_spec prefixes ip : trie_contains (from_prefixes prefixes) ip = existsb (fun p => prefix_covers p ip) prefixes.
Proof.
  unfold from_prefixes. enough (H : forall t, trie_contains (foldl add_prefix t prefixes) ip =
    existsb (fun p => prefix_covers p ip) prefixes || trie_contains t ip).
  { rewrite H. unfold trie_contains, trie_new. cbn [table]. by rewrite longest_new, orb_false_r. }
  induction prefixes as [|p prefixes IH]; intros t; [done|]. cbn [foldl existsb]. rewrite IH, add_prefix_contains.
  by destruct (prefix_covers p ip), (existsb _ prefixes).
Qed.
End Tries.

(** ** Loading *)

Section Loading.
Context {RX : RegexApi} {RI : RegexIter} {JA : JsonApi} {JM : JsonMessage} {PT : PrefixTable}.
Variable sha256 : list N -> N.
Variable out : Outside.
Notation load_source := (load_source sha256 out).
Notation load_sources := (load_sources sha256 out).
Notation load_network := (load_network sha256 out).
Notation load_each := (load_each sha256 out).
Notation load_networks := (load_networks sha256 out).
Notation C := (option FileCache).

Lemma st_bind_err {S A B} (m : st S A) (f : A -> st S B) s e s' :
  (m ≫= f) s = (Err e, s') <-> m s = (Err e, s') \/ exists a s1, m s = (Ok a, s1) /\ f a s1 = (Err e, s').
Proof.
  unfold mbind, st_bind. destruct (m s) as [[a|e'] s1]; split.
  - intros H. right. eauto.
  - intros [H|(? & ? & [= <- <-] & H)]; [done|exact H].
  - intros [= <- <-]. by left.
  - intros [[= <- <-]|(? & ? & ? & _)]; done.
Qed.
Lemma for_each_err {E A} (f : A -> result E unit) l e : for_each f l = Err e -> exists a, a ∈ l /\ f a = Err e.
Proof.
  induction l as [|a l IH]; cbn; [done|]. destruct (f a) as [[]|e'] eqn:Ef.
  - intros (b & Hb & Hf)%IH. exists b. split; [by right|done].
  - intros [= <-]. exists a. split; [left|done].
Qed.

(** *** What a source stands for *)

(** What a source that is kept in the cache gave of its own. *)
Definition gave (source : NetworkSource) (text : string) : Prop :=
  match source with
  | SourceUrl url _ => fetched_body (out_get out url) = Ok text
  | SourceAsn asn => exists prefixes, query_asn_routes out asn = Ok prefixes /\ text = str_join newline prefixes
  | _ => False
  end.
Section Meaning.
(** The sources of the policy, and the cache before they are loaded. *)
Variables (all : list NetworkSource) (c0 : C).
(** The texts a key may be answered with: one kept before that is young enough, or one
    that a source of the policy gave whose file in the cache has the same name. *)
Definition text_for (key text : string) : Prop :=
  cached sha256 out key c0 = Some text \/
  exists source key', source ∈ all /\ source_key source = Some key' /\
    cache_path sha256 key' = cache_path sha256 key /\ gave source text.
(** What a source comes to: the prefixes of its list, or what went wrong with it. *)
Definition comes_to (source : NetworkSource) (r : Result (list string)) : Prop :=
  match source with
  | SourceUrl url filter =>
      (exists e, fetched_body (out_get out url) = Err e /\ r = Err e) \/
      exists text, text_for url text /\ r = apply_filter text filter
  | SourceFile path filter => r = (body ← out_read out path; apply_filter body filter)
  | SourceAsn asn => r = query_asn_routes out asn \/ exists text, text_for ("asn:" +:+ show_N asn) text /\ r = Ok (str_lines text)
  | SourceInline prefixes => r = Ok prefixes
  end.
(** The cache while the sources are loaded. *)
Definition cache_ok (c : C) : Prop := forall key text, cached sha256 out key c = Some text -> text_for key text.

Lemma cached_set key key' data c text :
  cached sha256 out key (cache_set sha256 key' data (out_now out) <$> c) = Some text ->
  cached sha256 out key c = Some text \/ cache_path sha256 key' = cache_path sha256 key /\ text = data.
Proof.
  destruct c as [c|]; [|by left]. unfold cached, cache_get, cache_set. cbn [fmap option_fmap option_map mbind option_bind fc_files fc_ttl].
  destruct (base.decide (cache_path sha256 key' = cache_path sha256 key)) as [E|Hne].
  - rewrite E, lookup_insert_eq. cbn [mbind option_bind]. destruct (_ <? _); [done|]. destruct (_ <? _); [done|]. intros [= <-]. by right.
  - rewrite lookup_insert_ne by done. by left.
Qed.
Lemma store_ok source key data c :
  source ∈ all -> source_key source = Some key -> gave source data -> cache_ok c -> cache_ok (store sha256 out key data c).2.
Proof.
  intros Hin Hk Hg Hc key' text. cbn. destruct (out_writable out); [|apply Hc].
  intros [H|[Hp ->]]%cached_set; [by apply Hc|]. right. by exists source, key.
Qed.
Lemma load_source_ok source c r c' :
  source ∈ all -> cache_ok c -> load_source source c = (r, c') -> comes_to source r /\ cache_ok c'.
Proof.
  intros Hin Hc. destruct source as [url filter|path filter|asn|prefixes]; cbn [Networks.load_source comes_to];
    unfold mbind, st_bind, get, lift, mret, st_ret.
  - destruct (cached sha256 out url c) as [text|] eqn:E; [intros [= <- <-]; split; [right; eauto|done]|].
    destruct (fetched_body (out_get out url)) as [body|e] eqn:Eb; [|intros [= <- <-]; eauto].
    pose proof (store_ok (SourceUrl url filter) url body c Hin eq_refl Eb Hc) as Hs.
    destruct (store sha256 out url body c) as [[[]|e] c1] eqn:Es; [|done]. intros [= <- <-]. split; [|exact Hs].
    right. exists body. split; [|done]. right. by exists (SourceUrl url filter), url.
  - destruct (out_read out path) as [body|e]; by intros [= <- <-].
  - destruct (cached sha256 out _ c) as [text|] eqn:E; [intros [= <- <-]; split; [right; eauto|done]|].
    destruct (query_asn_routes out asn) as [ps|e] eqn:Eb; [|intros [= <- <-]; eauto].
    pose proof (store_ok (SourceAsn asn) _ (str_join newline ps) c Hin eq_refl (ex_intro _ ps (conj Eb eq_refl)) Hc) as Hs.
    destruct (store sha256 out _ _ c) as [[[]|e] c1] eqn:Es; [|done]. intros [= <- <-]. split; [by left|exact Hs].
  - by intros [= <- <-].
Qed.

(** The sources of a network, one after the other. *)
Lemma load_sources_inv name sources c r c' :
  (forall source, source ∈ sources -> source ∈ all) -> cache_ok c -> load_sources name sources c = (r, c') ->
  cache_ok c' /\
  match r with
  | Ok ps => exists pss, Forall2 (fun source ps => comes_to source (Ok ps)) sources pss /\ ps = mjoin pss
  | Err e => exists source e0, source ∈ sources /\ comes_to source (Err e0) /\ e = named name e0
  end.
Proof.
  revert c c' r. induction sources as [|source sources IH]; intros c c' r Hin Hc; cbn [Networks.load_sources].
  { intros [= <- <-]. split; [done|]. exists []. by split; [constructor|]. }
  unfold mbind at 1, st_bind at 1, st_map_err. destruct (load_source source c) as [r1 c1] eqn:E1.
  apply load_source_ok in E1 as [H1 Hc1]; [|apply Hin; left|done]. destruct r1 as [ps|e]; cbn [map_err].
  - unfold mbind, st_bind. destruct (load_sources name sources c1) as [r2 c2] eqn:E2.
    apply IH in E2 as [Hc2 H2]; [|intros x Hx; apply Hin; by right|done]. destruct r2 as [qs|e]; intros [= <- <-]; (split; [done|]).
    + destruct H2 as (pss & Hp & ->). exists (ps :: pss). split; [by constructor|done].
    + destruct H2 as (src & e0 & Hs & He & ->). exists src, e0. split; [by right|done].
  - intros [= <- <-]. split; [done|]. exists source, e. split; [left|done].
Qed.

(** What the conditions are to see of a network: each of its sources came to a list, all of their
    prefixes are prefixes, and the set holds the addresses they stand for and no others. *)
Definition as_configured {PL : PrefixLaws} (cfg : NetworkConfig) (trie : IpNetTrie) : Prop :=
  exists pss, Forall2 (fun source ps => comes_to source (Ok ps)) (nw_sources cfg) pss /\
    Forall (fun p => is_prefix p = true) (mjoin pss) /\
    forall ip, trie_contains trie ip = existsb (fun p => prefix_covers p ip) (mjoin pss).
(** Why a network was not loaded. *)
Inductive refused (cfg : NetworkConfig) : Error.t -> Prop :=
| refused_source source e :
    source ∈ nw_sources cfg -> comes_to source (Err e) -> refused cfg (named (nw_name cfg) e)
| refused_prefix pss prefix :
    Forall2 (fun source ps => comes_to source (Ok ps)) (nw_sources cfg) pss -> prefix ∈ mjoin pss -> is_prefix prefix = false ->
    refused cfg (Error.Config ("network '" +:+ nw_name cfg +:+ "': invalid IP prefix " +:+ debug_str prefix)).

Lemma load_network_inv {PL : PrefixLaws} cfg c r c' :
  (forall source, source ∈ nw_sources cfg -> source ∈ all) -> cache_ok c -> load_network cfg c = (r, c') ->
  cache_ok c' /\ match r with Ok trie => as_configured cfg trie | Err e => refused cfg e end.
Proof.
  intros Hin Hc. unfold Networks.load_network, mbind, st_bind, lift, mret, st_ret.
  destruct (load_sources (nw_name cfg) (nw_sources cfg) c) as [r1 c1] eqn:E1.
  apply load_sources_inv in E1 as [Hc1 H1]; [|done..]. destruct r1 as [ps|e].
  - destruct H1 as (pss & Hp & ->). destruct (for_each _ (mjoin pss)) as [[]|e] eqn:Ef; intros [= <- <-]; (split; [done|]).
    + apply for_each_ok in Ef. exists pss. split; [done|]. split; [|apply trie_contains_spec].
      eapply Forall_impl; [exact Ef|]. intros p. unfold check_prefix. by destruct (is_prefix p).
    + apply for_each_err in Ef as (p & Hin' & Ef). unfold check_prefix in Ef. destruct (is_prefix p) eqn:Ep; [done|].
      injection Ef as <-. by apply (refused_prefix _ pss).
  - intros [= <- <-]. split; [done|]. destruct H1 as (source & e0 & Hs & He & ->). by eapply refused_source.
Qed.

Lemma load_each_inv {PL : PrefixLaws} configs m c r c' :
  (forall cfg source, cfg ∈ configs -> source ∈ nw_sources cfg -> source ∈ all) -> cache_ok c ->
  load_each configs m c = (r, c') -> NoDup (nw_name <$> configs) ->
  match r with
  | Ok m' => (forall cfg, cfg ∈ configs -> exists trie, m' !! nw_name cfg = Some trie /\ as_configured cfg trie) /\
             forall name, name ∉ nw_name <$> configs -> m' !! name = m !! name
  | Err e => exists cfg, cfg ∈ configs /\ refused cfg e
  end.
Proof.
  revert m c. induction configs as [|cfg configs IH]; intros m c Hin Hc; cbn [Networks.load_each].
  - intros [= <- <-] _. split; [by intros ? ?%not_elem_of_nil|done].
  - intros H Hd. rewrite fmap_cons in Hd. apply NoDup_cons in Hd as [Hni Hd]. unfold mbind, st_bind in H.
    destruct (load_network cfg c) as [r1 c1] eqn:E1.
    apply load_network_inv in E1 as [Hc1 H1]; [|intros source; apply Hin; left|done]. destruct r1 as [trie|e].
    + apply IH in H; [|intros x source Hx; apply Hin; by right|done|done]. destruct r as [m'|e].
      * destruct H as [Hall Hout]. split.
        -- intros cfg' [->|Hcfg]%elem_of_cons; [|by apply Hall]. exists trie. split; [|done].
           rewrite Hout by done. apply lookup_insert_eq.
        -- intros name Hn. rewrite fmap_cons, not_elem_of_cons in Hn. destruct Hn as [Hn Hn'].
           rewrite Hout by done. by apply lookup_insert_ne.
      * destruct H as (cfg' & Hx & He). exists cfg'. split; [by right|done].
    + injection H as <- <-. exists cfg. split; [left|done].
Qed.
End Meaning.

(** The sources of a policy. *)
Definition sources_of (configs : list NetworkConfig) : list NetworkSource := mjoin (nw_sources <$> configs).
(** C34: The networks of a policy are loaded all or not at all. When they load there is
    one set for each section and no other, and it holds exactly the addresses that
    the prefixes of its sources stand for, all of which are networks or addresses. A source's
    prefixes are those written inline, in its file, in the body that was fetched, in the routes the
    whois server named, or in a text the cache has for it: one that was young enough before the
    load, or that a source of the policy was just given which has the same file in the cache. When they do
    not load, the error is that of the root certificates, or it names a network with the error of one of
    its sources, or names a network and a prefix of its sources that is none. *)
Theorem networks_all_or_nothing {PL : PrefixLaws} roots configs c r c' :
  load_networks roots configs c = (r, c') -> NoDup (nw_name <$> configs) ->
  match r with
  | Ok networks =>
      (forall cfg, cfg ∈ configs -> exists trie, networks !! nw_name cfg = Some trie /\ as_configured (sources_of configs) c cfg trie) /\
      forall name, name ∉ nw_name <$> configs -> networks !! name = None
  | Err e =>
      (exists m, roots = Err m /\ e = Error.Config ("native root certificates unavailable: " +:+ m) /\ c' = c) \/
      exists cfg, cfg ∈ configs /\ refused (sources_of configs) c cfg e
  end.
Proof.
  unfold Networks.load_networks. intros H Hd. destruct roots as [u|m].
  - apply (load_each_inv (sources_of configs) c) in H; [| |by intros key text; left|done].
    + destruct r; [|by right]. destruct H as [Hin Hout]. split; [done|]. intros name Hn. rewrite Hout by done. apply lookup_empty.
    + intros cfg source Hcfg Hs. unfold sources_of. apply list_elem_of_join. exists (nw_sources cfg). split; [done|].
      by apply list_elem_of_fmap_2.
  - injection H as <- <-. left. by exists m.
Qed.
End Loading.

(** ** The cache *)

(** What trimming leaves does not end in a carriage return, as far as lines go. *)
Lemma trimmed_no_return s : trimmed s -> strip_suffix carriage_return s = None.
Proof.
  intros [_ He]. unfold stuck in He. rewrite first_prefix_none in He. unfold strip_suffix.
  rewrite (He (str_rev carriage_return)); [done|]. apply list_elem_of_fmap. exists carriage_return. split; [done|].
  unfold white_space, carriage_return. repeat (first [by left|right]).
Qed.

Lemma drop_last_kept l : Forall (fun s => str_is_empty s = false) l -> drop_last_empty l = l.
Proof.
  induction 1 as [|s l Hs Hl IH]; [done|]. destruct l as [|s' l]; cbn [drop_last_empty]; [by rewrite Hs|]. f_equal. exact IH.
Qed.
Lemma strip_returns_kept l : Forall (fun s => strip_suffix carriage_return s = None) l -> strip_returns l = l.
Proof.
  induction 1 as [|s l Hs Hl IH]; [done|]. destruct l as [|s' l]; [done|]. cbn [strip_returns]. rewrite Hs. by f_equal.
Qed.
(** Lines come back from a text they were joined in. *)
Definition is_line (s : string) : Prop :=
  str_any (char_eqb line_feed) s = false /\ strip_suffix carriage_return s = None /\ str_is_empty s = false.
Lemma lines_joined l : Forall is_line l -> str_lines (str_join newline l) = l.
Proof.
  intros H. unfold str_lines, newline. destruct (base.decide (l = [])) as [->|Hn]; [done|].
  rewrite split_join; [|done|]; [|by eapply Forall_impl; [exact H|intros s (? & _)]].
  rewrite strip_returns_kept; [|by eapply Forall_impl; [exact H|intros s (_ & ? & _)]].
  apply drop_last_kept. by eapply Forall_impl; [exact H|intros s (_ & _ & ?)].
Qed.

Section Cache.
Context {RX : RegexApi} {RI : RegexIter} {JA : JsonApi} {JM : JsonMessage}.
Variable sha256 : list N -> N.
Notation load_source out := (load_source sha256 out).

Lemma cache_get_set key data now now' c :
  now <= now' -> now' - now <= fc_ttl c ->
  cache_get sha256 key now' (cache_set sha256 key data now c) = Some data.
Proof.
  intros H1 H2. unfold cache_get, cache_set. cbn [fc_files fc_ttl]. rewrite lookup_insert_eq. cbn [mbind option_bind].
  by rewrite (proj2 (N.ltb_ge now' now)), (proj2 (N.ltb_ge (fc_ttl c) (now' - now))).
Qed.

(** The lines of a whois answer are lines, and of the prefixes in them none is empty. *)
Definition whois_clean (out : Outside) : Prop :=
  forall asn lines, out_whois out asn = Ok lines ->
    Forall (fun line => forall s, line = Ok s -> str_any (char_eqb line_feed) s = false /\
                        forall p, route_prefix s = Some p -> str_is_empty p = false) lines.

Lemma routes_lines lines ps :
  Forall (fun line : Result string => forall s, line = Ok s -> str_any (char_eqb line_feed) s = false /\
            forall p, route_prefix s = Some p -> str_is_empty p = false) lines ->
  routes lines = Ok ps -> Forall is_line ps.
Proof.
  intros Hl. revert ps. induction Hl as [|line lines Hline Hl IH]; intros ps; cbn [routes]; [by intros [= <-]|].
  intros (s & -> & (rest & Hr & H)%bind_ok)%bind_ok. specialize (IH rest Hr). destruct (Hline s eq_refl) as [Hs He].
  destruct (route_prefix s) as [p|] eqn:Ep; injection H as <-; [|done]. constructor; [|done].
  pose proof (He p eq_refl) as Hp. unfold route_prefix in Ep.
  assert (exists q, str_trim q = p /\ str_any (char_eqb line_feed) q = false) as (q & <- & Hq).
  { destruct (strip_prefix "route:" s) as [q|] eqn:E1.
    - apply strip_prefix_some in E1 as ->. injection Ep as <-. exists q. split; [done|].
      by rewrite str_any_app, orb_false_iff in Hs; destruct Hs.
    - destruct (strip_prefix "route6:" s) as [q|] eqn:E2; [|done]. apply strip_prefix_some in E2 as ->.
      injection Ep as <-. exists q. split; [done|]. by rewrite str_any_app, orb_false_iff in Hs; destruct Hs. }
  split; [by apply str_any_trim|]. split; [apply trimmed_no_return, str_trim_trimmed|done].
Qed.

(** Within its time the cache stands for the source. A list that was fetched, or
    asked of a whois server, and kept, gives the same prefixes until its time is up,
    whatever the network answers by then, and nothing is written. *)
Theorem cache_stands_in out out' source key c ps c' :
  source_key source = Some key -> cached sha256 out key (Some c) = None -> out_writable out = true -> whois_clean out ->
  load_source out source (Some c) = (Ok ps, c') ->
  out_now out <= out_now out' -> out_now out' - out_now out <= fc_ttl c ->
  load_source out' source c' = (Ok ps, c').
Proof.
  intros Hk Hc Hw Hl H Hn Ht. destruct source as [url filter|path filter|asn|prefixes]; try done; injection Hk as <-;
    cbn [Networks.load_source] in *; apply st_bind_ok in H as (c0 & c1 & [= <- <-] & H); rewrite Hc in H.
  - apply st_bind_ok in H as (body & c2 & Hb & H). injection Hb as Hb <-. apply st_bind_ok in H as ([] & c3 & Hs & H).
    unfold store, modify in Hs. rewrite Hw in Hs. injection Hs as <-. injection H as H <-.
    unfold mbind, st_bind, get. unfold cached. cbn [mbind option_bind]. rewrite cache_get_set by done.
    unfold lift. by rewrite H.
  - apply st_bind_ok in H as (prefixes & c2 & Hp & H). injection Hp as Hp <-. apply st_bind_ok in H as ([] & c3 & Hs & H).
    unfold store, modify in Hs. rewrite Hw in Hs. injection Hs as <-. injection H as <- <-.
    unfold mbind, st_bind, get. unfold cached. cbn [mbind option_bind]. rewrite cache_get_set by done.
    unfold query_asn_routes in Hp. apply bind_ok in Hp as (lines & Hlines & Hp).
    by rewrite lines_joined by (eapply routes_lines; [by eapply Hl|exact Hp]).
Qed.
(** And a body its filter refuses is kept like any other: the network stays refused
    until its time is up, though the source may be right again. *)
Lemma refused_body_kept out out' url filter body c e c' :
  cached sha256 out url (Some c) = None -> out_writable out = true ->
  fetched_body (out_get out url) = Ok body -> apply_filter body filter = Err e ->
  load_source out (SourceUrl url filter) (Some c) = (Err e, c') ->
  out_now out <= out_now out' -> out_now out' - out_now out <= fc_ttl c ->
  load_source out' (SourceUrl url filter) c' = (Err e, c').
Proof.
  intros Hc Hw Hb He H Hn Ht. cbn [Networks.load_source] in *. unfold mbind, st_bind, get, lift, store, modify in H |- *.
  rewrite Hc, Hb, Hw, He in H. injection H as <-. unfold cached. cbn [mbind option_bind fmap option_fmap option_map].
  rewrite cache_get_set by done. by rewrite He.
Qed.
End Cache.

(** ** Examples *)

Module NetworksExample.
#[export] Existing Instances Literal.regex Literal.json.
#[export] Instance iter : RegexIter := {| regex_captures_iter := fun _ _ => [] |}.
#[export] Instance json_texts : JsonMessage := {| json_message := fun _ => "" |}.
(** One network has a spelling; a table is the networks put in it. *)
Definition documentation (ip : IpAddr) : bool :=
  match ip with V4 bits => N.shiftr bits 8 =? of_be_bytes [192; 0; 2] | V6 _ => false end.
#[export] Instance table : PrefixTable := {|
  IpNet := IpAddr -> bool;
  ipnet_parse := fun s => if String.eqb s "192.0.2.0/24" then Some documentation else None;
  ipnet_single := fun a b => bool_decide (a = b);
  Table := list (IpAddr -> bool);
  table_new := []; table_insert := cons;
  table_longest_match := fun t ip => head (List.filter (fun net => net ip) t) |}.
#[export] Instance laws : PrefixLaws.
Proof.
  refine {| ipnet_contains := fun (net : @IpNet table) ip => net ip |}; [done| |done].
  intros net t ip. cbn. by destruct (net ip).
Defined.

Definition sha (m : list N) : N := N.of_nat (length m).
Definition files : FileCache := {| fc_ttl := 86400; fc_files := ∅ |}.
Definition whois (lines : list string) : Outside := {|
  out_now := 1000; out_get := fun _ => FetchTimedOut; out_whois := fun _ => Ok (Ok <$> lines);
  out_read := fun _ => Err (Error.Io "not found"); out_writable := true |}.
Definition answered : Outside := whois ["route:      192.0.2.0/24"; "origin:     AS64496"; "route6:     2001:db8::1"].
Definition silent : Outside := {|
  out_now := 2000; out_get := fun _ => FetchTimedOut; out_whois := fun _ => Err (Error.Io "timed out");
  out_read := fun _ => Err (Error.Io "not found"); out_writable := true |}.
Definition config : NetworkConfig := {| nw_name := "as"; nw_sources := [SourceAsn 64496; SourceInline ["203.0.113.7"]] |}.
Definition loaded_once := load_networks sha answered (Ok tt) [config] (Some files).
Definition holds (r : Result (gmap string IpNetTrie) * option FileCache) (ip : IpAddr) : option bool :=
  match r.1 with Ok networks => (fun t => trie_contains t ip) <$> networks !! "as" | Err _ => None end.
Example loaded_sets :
  holds loaded_once <$> [V4 (of_be_bytes [192; 0; 2; 9]); V4 (of_be_bytes [203; 0; 113; 7]); V4 (of_be_bytes [203; 0; 113; 8])] =
    [Some true; Some true; Some false] /\
  holds (load_networks sha silent (Ok tt) [config] loaded_once.2) (V4 (of_be_bytes [192; 0; 2; 9])) = Some true /\
  holds (load_networks sha silent (Ok tt) [config] (Some files)) (V4 (of_be_bytes [192; 0; 2; 9])) = None.
Proof. split_and!; vm_refl. Qed.

(** A route without a prefix fails the load, and once it is cached it does not. *)
Definition nameless : NetworkConfig := {| nw_name := "as"; nw_sources := [SourceAsn 64496] |}.
Definition refused_once := load_networks sha (whois ["route:"]) (Ok tt) [nameless] (Some files).
Example nameless_route_cached :
  is_ok refused_once.1 = false /\ is_ok (load_networks sha silent (Ok tt) [nameless] refused_once.2).1 = true.
Proof. split; vm_refl. Qed.

Definition ranges : Value :=
  VObject [("prefixes", VArray [VObject [("ip_prefix", VString "192.0.2.0/24")]; VNull; VObject [("ip_prefix", VString "203.0.113.0/24")]])].
Example extracted :
  extract_jq_path ranges ".prefixes[].ip_prefix" = ["192.0.2.0/24"; "203.0.113.0/24"] /\
  split_jq_segments "a..b[]." = ["a"; "b[]"] /\
  apply_filter (bytes_string [35; 120; 10; 32; 97; 13; 10; 10; 98]) FilterNone = Ok ["a"; "b"].
Proof. split_and!; vm_refl. Qed.
End NetworksExample.

Import NetworksExample.
Lemma networks_all_or_nothing_witness :
  exists e, (load_networks sha silent (Ok tt) [config] (Some files)).1 = Err e /\
    refused sha silent (sources_of [config]) (Some files) config e.
Proof.
  destruct (load_networks sha silent (Ok tt) [config] (Some files)) as [r c'] eqn:E.
  assert (Hr : is_ok (load_networks sha silent (Ok tt) [config] (Some files)).1 = false) by vm_refl. rewrite E in Hr.
  pose proof (networks_all_or_nothing sha silent (Ok tt) [config] (Some files) r c' E) as H.
  destruct r as [networks|e]; [discriminate Hr|]. exists e. split; [reflexivity|].
  destruct H as [(m & Hm & _ & _)|(cfg & Hc & He)].
  - repeat constructor. apply not_elem_of_nil.
  - discriminate Hm.
  - apply list_elem_of_singleton in Hc as ->. exact He.
Defined.
Definition route_list : list string := ["192.0.2.0/24"; "2001:db8::1"].
Definition after_load : option FileCache := (load_source sha answered (SourceAsn 64496) (Some files)).2.
Lemma cache_stands_in_witness : load_source sha silent (SourceAsn 64496) after_load = (Ok route_list, after_load).
Proof.
  apply (cache_stands_in sha answered silent (SourceAsn 64496) "asn:64496" files route_list after_load).
  - vm_refl.
  - vm_refl.
  - reflexivity.
  - intros asn lines [= <-]. repeat (apply Forall_cons; split); try (apply Forall_nil_2);
      intros s [= <-]; (split; [vm_refl|]); intros p Hp; vm_compute in Hp; by simplify_eq.
  - vm_refl.
  - vm_compute. discriminate.
  - vm_compute. discriminate.
Defined.
