(* ===== verification/WebConfig.v ===== *)
(** * The web plane's configuration

    [crates/bagel-config/src/web/mod.rs], [bind.rs] and [backend.rs]: the settings of
    the web plane with their defaults and checks, the decoders written by hand, and
    how the nodes of a document become a configuration. *)

From S2P Require Import Prelude Core Strings Config Validation Url TlsEdge.
From S2P Require Import Rule Scoring Proxy Document Policy.

Local Open Scope N_scope.

(** ** The header that relays TLS fingerprints *)

Record ClientTlsInput : Type := { cti_name : string; cti_cloudflare_token_sha256 : option string }.
(** A byte a header name may hold. *)
Definition is_token_char (c : ascii) : bool :=
  is_ascii_alphanumeric c || str_any (char_eqb c) "!#$%&'*+-.^_`|~".
(** The pairs of digits of a digest. *)
Fixpoint hex_pairs (s : string) : list N :=
  match s with
  | String h (String l s) => (default 0 (hex_nibble h) * 16 + default 0 (hex_nibble l)) :: hex_pairs s
  | _ => []
  end.
(** [TryFrom<ClientTlsInput> for ClientTlsHeader]. *)
Definition client_tls_header (input : ClientTlsInput) : Result ClientTlsHeader :=
  if str_is_empty (cti_name input) || eq_ignore_ascii_case (cti_name input) "x-bagel-origin-token"
     || negb (str_all is_token_char (cti_name input)) then
    Err (Error.Config "invalid client TLS header name")
  else
    token ← match cti_cloudflare_token_sha256 input with
            | None => Ok None
            | Some encoded =>
                if negb (String.length encoded =? 64)%nat || negb (str_all is_ascii_hexdigit encoded) then
                  Err (Error.Config "cloudflare-token-sha256 requires a 32-byte hexadecimal SHA-256 digest")
                else Ok (Some (hex_pairs encoded))
            end;
    Ok {| th_name := cti_name input; cloudflare_token_sha256 := token |}.

(** ** Themes *)

Record LinkConfig : Type := { lk_name : string; lk_url : string }.

Definition is_hex_color (value : string) : bool :=
  let digits := default "" (strip_prefix "#" value) in
  existsb (Nat.eqb (String.length digits)) [3; 4; 6; 8]%nat && str_all is_ascii_hexdigit digits.
Definition first_suffix (suffixes : list string) (value : string) : option string :=
  first_some (fun suffix => strip_suffix suffix value) suffixes.
Definition is_css_length (value : string) : bool :=
  if String.eqb value "0" then true
  else
    let number := default "" (first_suffix ["px"; "rem"; "em"; "%"] value) in
    if str_is_empty number then false
    else
      let digits s := negb (str_is_empty s) && str_all is_ascii_digit s in
      match str_split "." number with
      | [whole] => digits whole
      | [whole; fraction] => digits whole && digits fraction
      | _ => false
      end.

Definition custom_theme_default : CustomTheme := {| ct_vars := []; ct_light := []; ct_dark := [] |}.
(** [CustomTheme::is_empty], [get] and [get_for_scheme]. *)
Definition theme_is_empty (t : CustomTheme) : bool :=
  bool_decide (ct_vars t = []) && bool_decide (ct_light t = []) && bool_decide (ct_dark t = []).
Definition last_var (name : string) (vars : list ThemeVar) : option string :=
  tv_value <$> list_find_bool (fun var => String.eqb (tv_name var) name) (rev vars).
Definition theme_get (t : CustomTheme) (name : string) : option string := last_var name (ct_vars t).
Definition theme_get_for_scheme (t : CustomTheme) (name scheme : string) : option string :=
  let selected :=
    let chosen := default scheme (theme_get t "color-scheme") in
    if String.eqb chosen "light" then ct_light t
    else if String.eqb chosen "dark" then ct_dark t
    else if String.eqb scheme "light" then ct_light t
    else ct_dark t in
  match last_var name selected with Some v => Some v | None => theme_get t name end.

Definition COLORS : list string := ["fg"; "bg"; "accent"; "card-bg"; "border"; "error"; "title-color"; "link-color"].
Definition is_font_char (c : ascii) : bool :=
  is_ascii_alphanumeric c || existsb (N.eqb (byte_of c)) [32; 44; 39; 34; 45; 95].
(** [CustomTheme::validate]. *)
Definition theme_validate (name value : string) : Result unit :=
  let checked ok :=
    if (ok : bool) then Ok tt
    else Err (Error.Config ("challenge-template: invalid value " +:+ debug_str value +:+ " for property " +:+ debug_str name)) in
  if str_mem name COLORS then checked (is_hex_color value)
  else if String.eqb name "radius" then checked (is_css_length value)
  else if String.eqb name "font" then checked (negb (str_is_empty value) && str_all is_font_char value)
  else if String.eqb name "color-scheme" then checked (str_mem value ["light"; "dark"; "light dark"])
  else Err (Error.Config ("challenge-template: unknown property " +:+ debug_str name +:+
    ", expected one of fg, bg, accent, card-bg, border, error, title-color, link-color, radius, font, color-scheme")).

(** ** Deception and smear *)

Record DeceptionConfig : Type := {
  dc_corpora : option string; dc_scripts : option string; dc_server : string; dc_not_found_pct : N; dc_forbidden_pct : N }.
Definition deception_default : DeceptionConfig := {|
  dc_corpora := None; dc_scripts := None; dc_server := "nginx/1.24.0"; dc_not_found_pct := 20; dc_forbidden_pct := 8 |}.
Definition deception_validate (d : DeceptionConfig) : Result unit :=
  fail_if (100 <? dc_not_found_pct d + dc_forbidden_pct d) "deception: not-found-pct plus forbidden-pct exceeds 100".

Record SmearConfig : Type := {
  sm_min_delay_ms : N; sm_max_delay_ms : N; sm_max_secs : N; sm_chunk_min : N; sm_chunk_max : N; sm_max_concurrent : N }.
Definition smear_default : SmearConfig := {|
  sm_min_delay_ms := 1000; sm_max_delay_ms := 15000; sm_max_secs := 600; sm_chunk_min := 64; sm_chunk_max := 1400;
  sm_max_concurrent := 4096 |}.
Definition smear_validate (s : SmearConfig) : Result unit :=
  validate_dribble "smear" (sm_min_delay_ms s) (sm_max_delay_ms s) (sm_chunk_min s) (sm_chunk_max s) ;;
  fail_if (sm_max_concurrent s =? 0) "smear: max-concurrent must not be zero" ;;
  fail_if (negb ((1 <=? sm_max_secs s) && (sm_max_secs s <=? 24 * 60 * 60)))
    "smear: max-secs must be between 1 second and 24 hours".

(** ** The bind address ([bind.rs]) *)

Inductive TlsConfig : Type :=
| TlsNone
| TlsAcme (directory_url : string) (domains contact : list string)
| TlsManual (cert_path key_path : string).
(** What the variants decode to, before the kind is checked. *)
Inductive TlsInput : Type :=
| TlsInputNone
| TlsInputAcme (directory_url : string) (domains contact : list string)
| TlsInputManual (cert_path key_path : string).
Inductive BindNetwork : Type := BindTcp | BindUnix.
#[global] Instance bind_network_eq_dec : EqDecision BindNetwork.
Proof. solve_decision. Defined.

(** [u32::from_str_radix(_, 8)]. *)
Fixpoint octal_go (acc : N) (s : string) : option N :=
  match s with
  | EmptyString => Some acc
  | String c s =>
      let d := byte_of c - 48 in
      if (byte_of c <? 48) || (55 <? byte_of c) then None
      else if 4294967295 <? acc * 8 + d then None else octal_go (acc * 8 + d) s
  end.
Definition parse_octal (s : string) : option N :=
  match s with
  | EmptyString => None
  | String c rest =>
      if char_eqb c "+" then (if str_is_empty rest then None else octal_go 0 rest) else octal_go 0 s
  end.
(** [FromStr for SocketMode]. *)
Definition socket_mode (value : string) : Result N :=
  mode ← ok_or (Error.Config "socket-mode must be an octal string") (parse_octal value);
  if 4095 <? mode then Err (Error.Config "socket-mode must be between 0000 and 7777") else Ok mode.

Record BindConfig : Type := {
  bd_network : BindNetwork; bd_address : string; bd_socket_mode : option N; bd_tls : TlsConfig;
  bd_proxy_protocol : bool; bd_passthrough : bool }.
Definition bind_default : BindConfig := {|
  bd_network := BindTcp; bd_address := ":8080"; bd_socket_mode := None; bd_tls := TlsNone;
  bd_proxy_protocol := false; bd_passthrough := false |}.
(** [BindInput] has the fields of what it becomes. *)
Record BindInput : Type := { bind_fields : BindConfig }.
(** [BindConfig::socket_addr]. *)
Definition socket_addr (b : BindConfig) : string :=
  match bd_network b with
  | BindUnix => bd_address b
  | BindTcp => if starts_with ":" (bd_address b) then "0.0.0.0" +:+ bd_address b else bd_address b
  end.

(** ** The configuration *)

Record WebConfig : Type := {
  wc_bind : BindConfig; wc_challenge_http_code : N; wc_cache_dir : option string;
  wc_client_ip_header : option string; wc_client_tls_header : option ClientTlsHeader;
  wc_trusted_proxies : option (list string); wc_backends : list BackendConfig; wc_policy : PolicyConfig;
  wc_strings : gmap string string; wc_links : list LinkConfig; wc_logo : option string; wc_theme : option string;
  wc_template : CustomTheme; wc_deception : DeceptionConfig; wc_smear : SmearConfig }.
Definition web_default : WebConfig := {|
  wc_bind := bind_default; wc_challenge_http_code := 418; wc_cache_dir := None; wc_client_ip_header := None;
  wc_client_tls_header := None; wc_trusted_proxies := None; wc_backends := []; wc_policy := policy_default;
  wc_strings := ∅; wc_links := []; wc_logo := None; wc_theme := None; wc_template := custom_theme_default;
  wc_deception := deception_default; wc_smear := smear_default |}.

(** ** Decoders *)

Record LinkList : Type := { links_of : list LinkConfig }.
Record BackendList : Type := { backends_of : list BackendConfig }.
Record StringEntry : Type := { se_key : string; se_value : string }.
Record StringList : Type := { entries_of : list StringEntry }.

(** The generated decoders of the web plane, and those of scalars. *)
Class WebDecoders `{Knead} : Type := {
  client_tls_decode :: Decode ClientTlsInput;
  link_list_decode :: Decode LinkList;
  backend_list_decode :: Decode BackendList;
  string_list_decode :: Decode StringList;
  deception_decode :: Decode DeceptionConfig;
  smear_decode :: Decode SmearConfig;
  tls_input_decode :: Decode TlsInput;
  bind_input_decode :: Decode BindInput;
  string_decode :: DecodeScalar string;
  u16_decode :: DecodeScalar N;
}.

Section Decoding.
Context `{K : Knead} {SD : SectionDecoders} {WD : WebDecoders}.

(** The variables of one scheme, each checked. *)
Definition decode_vars : Decoder -> result DecodeError (list ThemeVar) * Decoder :=
  dec_bind (decode (A := StringList)) (fun list d =>
    (traverse (fun entry =>
       map_err (fun error => decode_error Conversion (decoder_span d)
                  match error with Error.Config message => "config error: " +:+ message | _ => "" end)
         (theme_validate (se_key entry) (se_value entry)) ;;
       Ok {| tv_name := se_key entry; tv_value := se_value entry |}) (entries_of list), d)).
(** A child node of its own for a scheme. *)
Definition decode_scheme (scheme : string) : Decoder -> result DecodeError (list ThemeVar) * Decoder :=
  dec_bind (decoder_child scheme) (fun node =>
    dec_lift match node with
             | None => Ok []
             | Some node =>
                 let '(vars, variant) := decode_vars (decoder_new node) in
                 vars ← vars; decoder_finish variant ;; Ok vars
             end).
#[global] Instance custom_theme_decode : Decode CustomTheme :=
  dec_bind (decode_scheme "light") (fun light =>
    dec_bind (decode_scheme "dark") (fun dark =>
      dec_bind decode_vars (fun vars => dec_lift (Ok {| ct_vars := vars; ct_light := light; ct_dark := dark |})))).
#[global] Instance tls_config_decode : Decode TlsConfig :=
  dec_bind (required_argument "tls requires a kind argument") (fun kind =>
    dec_bind (dec_lift (decode_scalar kind)) (fun name d =>
      dec_bind (decode (A := TlsInput)) (fun input =>
        dec_lift (Ok match input with
                     | TlsInputNone => TlsNone
                     | TlsInputAcme directory_url domains contact => TlsAcme directory_url domains contact
                     | TlsInputManual cert_path key_path => TlsManual cert_path key_path
                     end)) (decoder_set_name (name, sv_span kind) d))).
#[global] Instance bind_config_decode : Decode BindConfig :=
  dec_bind (decode (A := BindInput)) (fun input d =>
    let b := bind_fields input in
    (if is_some (bd_socket_mode b) && negb (bool_decide (bd_network b = BindUnix)) then
       Err (decode_error Unexpected (decoder_name d).2 "socket-mode requires a Unix listener")
     else Ok b, d)).

(** ** Nodes *)

(** One field of the configuration replaced. *)
Inductive Setting : Type :=
| SetBind (b : BindConfig) | SetHttpCode (code : N) | SetIpHeader (header : string)
| SetTlsHeader (header : ClientTlsHeader) | SetProxies (proxies : list string) | SetCache (directory : string)
| SetBackends (backends : list BackendConfig) | SetPolicy (policy : PolicyConfig) | MergePolicy (policy : PolicyConfig)
| ExtendStrings (entries : list StringEntry) | ExtendLinks (links : list LinkConfig) | SetTheme (theme : string)
| SetTemplate (template : CustomTheme) | SetLogo (logo : string) | SetDeception (d : DeceptionConfig) | SetSmear (s : SmearConfig).
Definition assign (c : WebConfig) (s : Setting) : WebConfig := {|
  wc_bind := match s with SetBind b => b | _ => wc_bind c end;
  wc_challenge_http_code := match s with SetHttpCode code => code | _ => wc_challenge_http_code c end;
  wc_cache_dir := match s with SetCache directory => Some directory | _ => wc_cache_dir c end;
  wc_client_ip_header := match s with SetIpHeader header => Some header | _ => wc_client_ip_header c end;
  wc_client_tls_header := match s with SetTlsHeader header => Some header | _ => wc_client_tls_header c end;
  wc_trusted_proxies := match s with SetProxies proxies => Some proxies | _ => wc_trusted_proxies c end;
  wc_backends := match s with SetBackends backends => backends | _ => wc_backends c end;
  wc_policy := match s with
               | SetPolicy policy => policy
               | MergePolicy policy => policy_merge (wc_policy c) policy
               | _ => wc_policy c
               end;
  wc_strings := match s with
                | ExtendStrings entries => foldl (fun m e => <[se_key e := se_value e]> m) (wc_strings c) entries
                | _ => wc_strings c
                end;
  wc_links := match s with ExtendLinks links => wc_links c ++ links | _ => wc_links c end;
  wc_logo := match s with SetLogo logo => Some logo | _ => wc_logo c end;
  wc_theme := match s with SetTheme theme => Some theme | _ => wc_theme c end;
  wc_template := match s with SetTemplate template => template | _ => wc_template c end;
  wc_deception := match s with SetDeception d => d | _ => wc_deception c end;
  wc_smear := match s with SetSmear s => s | _ => wc_smear c end |}.

Variable read_dir : ReadDir.

(** What a node sets; [None] for a name that is no setting of the web plane. *)
Definition node_setting (node : Node) : Result (option Setting) :=
  let offset := node_offset node in
  let name := node_name node in
  let text f := arg ← decode_node (A := Argument string) node; Ok (Some (f (argument_of arg))) in
  if String.eqb name "bind" then b ← decode_node (A := BindConfig) node; Ok (Some (SetBind b))
  else if String.eqb name "challenge-http-code" then
    arg ← decode_node (A := Argument N) node;
    let code := argument_of arg in
    if negb ((100 <=? code) && (code <=? 999)) then
      Err (Error.config_at offset ("challenge-http-code: " +:+ show_N code +:+ " is out of range"))
    else Ok (Some (SetHttpCode code))
  else if String.eqb name "client-ip-header" then text SetIpHeader
  else if String.eqb name "client-tls-header" then
    input ← decode_node (A := ClientTlsInput) node; header ← client_tls_header input; Ok (Some (SetTlsHeader header))
  else if String.eqb name "trusted-proxies" then
    arg ← decode_node (A := Arguments string) node;
    match arguments_of arg with
    | [] => Err (Error.config_at offset "trusted-proxies: list at least one network or omit the node")
    | proxies => Ok (Some (SetProxies proxies))
    end
  else if String.eqb name "cache" then text SetCache
  else if String.eqb name "backends" then list ← decode_node (A := BackendList) node; Ok (Some (SetBackends (backends_of list)))
  else if String.eqb name "policy" then policy ← from_kdl node; Ok (Some (SetPolicy policy))
  else if String.eqb name "policy-dir" then
    arg ← decode_node (A := Argument string) node;
    policy ← load_dir read_dir (argument_of arg); Ok (Some (MergePolicy policy))
  else if String.eqb name "strings" then list ← decode_node (A := StringList) node; Ok (Some (ExtendStrings (entries_of list)))
  else if String.eqb name "links" then
    list ← decode_node (A := LinkList) node;
    if existsb (fun link => str_is_empty (lk_name link) || str_is_empty (lk_url link)) (links_of list) then
      Err (Error.config_at offset "links: link: name and URL must not be empty")
    else Ok (Some (ExtendLinks (links_of list)))
  else if String.eqb name "challenge-template-theme" then
    arg ← decode_node (A := Argument string) node;
    let theme := argument_of arg in
    if String.eqb theme "gruvbox" || String.eqb theme "minimal" then Ok (Some (SetTheme theme))
    else Err (Error.config_at offset ("challenge-template-theme: unknown theme " +:+ debug_str theme))
  else if String.eqb name "challenge-template" then
    template ← decode_node (A := CustomTheme) node; Ok (Some (SetTemplate template))
  else if String.eqb name "challenge-template-logo" then text SetLogo
  else if String.eqb name "deception" then d ← decode_node (A := DeceptionConfig) node; Ok (Some (SetDeception d))
  else if String.eqb name "smear" then s ← decode_node (A := SmearConfig) node; Ok (Some (SetSmear s))
  else Ok None.
(** [Config::apply_node]: the configuration after the node, and whether it was one
    of the web plane's. *)
Definition apply_node (config : WebConfig) (node : Node) : Result (WebConfig * bool) :=
  setting ← node_setting node;
  Ok match setting with Some s => (assign config s, true) | None => (config, false) end.

(** [reject_repeated]. *)
Definition reject_repeated (seen : gset string) (node : Node) : Result (gset string) :=
  let name := node_name node in
  if String.eqb name "policy-dir" then Ok seen
  else if bool_decide (name ∈ seen) then
    Err (Error.config_at (node_offset node) ("'" +:+ name +:+ "' may appear only once"))
  else Ok ({[name]} ∪ seen).
Definition unknown_key (node : Node) : Error.t :=
  Error.config_at (node_offset node) ("unknown top-level config key '" +:+ node_name node +:+ "'").

(** [Config::parse] of the web plane alone. *)
Fixpoint apply_nodes (seen : gset string) (config : WebConfig) (nodes : list Node) : Result WebConfig :=
  match nodes with
  | [] => Ok config
  | node :: nodes =>
      seen ← reject_repeated seen node;
      '(config, known) ← apply_node config node;
      if (known : bool) then apply_nodes seen config nodes else Err (unknown_key node)
  end.
Definition web_parse (text path : string) : Result WebConfig :=
  nodes ← map_err (Error.ConfigParse path) (knead_parse text);
  map_err (relocate text path) (apply_nodes ∅ web_default nodes).
Definition web_load (read_file : string -> result string string) (path : string) : Result WebConfig :=
  text ← map_err (fun err => Error.Config ("failed to read config file " +:+ path +:+ ": " +:+ err)) (read_file path);
  web_parse text path.
End Decoding.
