(* ===== verification/Kdl.v ===== *)
(** * The defense plane's document and the whole configuration

    [crates/bagel-config/src/kdl.rs] and [decode/defense.rs]: what a [defense] node
    becomes; and [Bagel] of [lib.rs], which reads a document for both planes, layers
    command-line overrides and checks the result. *)

From S2P Require Import Prelude Core Strings Ip ThirdParty Config Validation Document.
From S2P Require Import TlsEdge Policy WebConfig.

Local Open Scope N_scope.

(** ** Policies of the defense plane ([decode/defense.rs]) *)

Record Equality : Type := { eq_pointer : string; eq_literal : string }.
Inductive DetectorInput : Type :=
| RegexInput (prefilter : option string) (patterns context_patterns : list string)
    (max_context_lines context_window_secs : N) (ignore_patterns : list string)
    (address_capture : string) (timestamp_capture timestamp_format : option string)
| JsonInput (equals : list Equality) (address_pointer : string)
    (timestamp_pointer group_key_pointer timestamp_format : option string).
(** [collect] into a [BTreeMap]: of equal keys the last wins. *)
Definition bt_of_list {V} (l : list (string * V)) : list (string * V) :=
  foldl (fun m e => bt_insert e.1 e.2 m) [] l.
Definition detector_of_input (input : DetectorInput) : Detector.t :=
  match input with
  | RegexInput prefilter patterns context_patterns lines window ignore_patterns address capture format =>
      Detector.Regex prefilter patterns context_patterns lines window ignore_patterns address capture format
  | JsonInput equals address timestamp group_key format =>
      Detector.Json (bt_of_list ((fun e => (eq_pointer e, eq_literal e)) <$> equals)) address timestamp group_key format
  end.
Record BanInput : Type := {
  bi_duration_secs : option N; bi_permanent : bool; bi_factor : N; bi_multipliers : list N; bi_jitter_secs : N;
  bi_max_duration_secs : N; bi_overall : bool }.
Record PolicyInput : Type := {
  pi_source : string; pi_max_attempts : N; pi_findtime_secs : N; pi_ignore_networks : list string;
  pi_detector : Tagged DetectorInput; pi_ban : BanSchedule; pi_action : Tagged Action.t }.
Definition policy_of_input (input : PolicyInput) : Config.Policy := {|
  p_source := pi_source input; p_detector := detector_of_input (tagged_of (pi_detector input));
  p_ignore_networks := pi_ignore_networks input; p_max_attempts := pi_max_attempts input;
  p_findtime_secs := pi_findtime_secs input; p_ban := pi_ban input; p_action := tagged_of (pi_action input) |}.
(** [Decode for BanSchedule]. *)
Definition ban_schedule_decode `{Knead} (decode_input : Decode BanInput) : Decode BanSchedule :=
  dec_bind decode_input (fun input d =>
    (if bi_permanent input && is_some (bi_duration_secs input) then
       Err (decode_error Unexpected (decoder_name d).2 "duration-secs and permanent are exclusive")
     else Ok {|
       Config.duration_secs := if bi_permanent input then None
                        else match bi_duration_secs input with Some n => Some n | None => Config.duration_secs default_ban_schedule end;
       factor := bi_factor input; multipliers := bi_multipliers input; jitter_secs := bi_jitter_secs input;
       max_duration_secs := bi_max_duration_secs input; overall := bi_overall input |}, d)).

(** ** The [defense] node ([kdl.rs]) *)

Record TarpitInput : Type := {
  tp_min_delay_ms : N; tp_max_delay_ms : N; tp_max_tarpit_secs : N; tp_chunk_min_bytes : N; tp_chunk_max_bytes : N;
  tp_write_timeout_secs : N; tp_max_conns : N; tp_max_conns_per_ip : N }.
Definition tarpit_default (config : Config) : TarpitInput := {|
  tp_min_delay_ms := min_delay_ms config; tp_max_delay_ms := max_delay_ms config;
  tp_max_tarpit_secs := max_tarpit_secs config; tp_chunk_min_bytes := tarpit_chunk_min_bytes config;
  tp_chunk_max_bytes := tarpit_chunk_max_bytes config; tp_write_timeout_secs := tarpit_write_timeout_secs config;
  tp_max_conns := max_tarpit_conns config; tp_max_conns_per_ip := max_tarpit_conns_per_ip config |}.
Record DefenseInput : Type := {
  di_metrics_addr : string; di_disable_metrics : bool; di_admin_socket : string; di_disable_admin : bool;
  di_store : string; di_history_retention_secs : N; di_journalctl : string; di_nft : string;
  di_protected_networks : list string; di_no_block_networks : list string; di_whitelist_networks : list string;
  di_trap_patterns : list string; di_trap_user_agents : list string; di_max_connections : N;
  di_drain_timeout_secs : N; di_proxy_protocol : bool; di_firewall : bool; di_data_dir : string; di_cache_dir : string;
  di_tarpit : TarpitInput; di_enforcement : Enforcement; di_verified_crawlers : option (list VerifiedCrawler);
  di_sources : list (Named (Tagged Source.t)); di_listeners : list Listener; di_policies : list (Named PolicyInput) }.

Section Defense.
Context `{K : Knead} {DD : Decode DefenseInput}.
Variable default_dirs : string * string.

(** The loops that insert by name. *)
Fixpoint insert_named {A V} (offset : N) (what : string) (value : A -> V) (m : list (string * V)) (l : list (Named A)) :
    Result (list (string * V)) :=
  match l with
  | [] => Ok m
  | named :: l =>
      if is_some (assoc (nm_name named) m) then
        Err (Error.config_at offset ("duplicate " +:+ what +:+ " " +:+ debug_str (nm_name named)))
      else insert_named offset what value (bt_insert (nm_name named) (value (nm_value named)) m) l
  end.
(** [parse_defense]. *)
Definition parse_defense (node : Node) : Result Config :=
  if negb (String.eqb (node_name node) "defense") then
    Err (Error.config_at (node_offset node) ("expected defense node, found " +:+ debug_str (node_name node)))
  else
    input ← decode_node (A := DefenseInput) node;
    let offset := node_offset node in
    sources ← insert_named offset "source" tagged_of [] (di_sources input);
    policies ← insert_named offset "policy" policy_of_input [] (di_policies input);
    let defaults := default_config default_dirs in
    Ok {|
      metrics_addr := di_metrics_addr input; disable_metrics := di_disable_metrics input;
      admin_socket := di_admin_socket input; disable_admin := di_disable_admin input;
      listeners := di_listeners input; sources := sources; policies := policies;
      enforcement := di_enforcement input; database_path := di_store input;
      history_retention_secs := di_history_retention_secs input; journalctl_path := di_journalctl input;
      nft_path := di_nft input; protected_networks := di_protected_networks input;
      min_delay_ms := tp_min_delay_ms (di_tarpit input); max_delay_ms := tp_max_delay_ms (di_tarpit input);
      max_tarpit_secs := tp_max_tarpit_secs (di_tarpit input);
      tarpit_chunk_min_bytes := tp_chunk_min_bytes (di_tarpit input);
      tarpit_chunk_max_bytes := tp_chunk_max_bytes (di_tarpit input);
      max_tarpit_conns := tp_max_conns (di_tarpit input); max_tarpit_conns_per_ip := tp_max_conns_per_ip (di_tarpit input);
      tarpit_write_timeout_secs := tp_write_timeout_secs (di_tarpit input);
      max_connections := di_max_connections input; drain_timeout_secs := di_drain_timeout_secs input;
      proxy_protocol := di_proxy_protocol input; trusted_proxies := trusted_proxies defaults;
      enable_firewall := di_firewall input; trap_patterns := di_trap_patterns input;
      trap_user_agents := di_trap_user_agents input; whitelist_networks := di_whitelist_networks input;
      verified_crawlers := default (verified_crawlers defaults) (di_verified_crawlers input);
      no_block_networks := di_no_block_networks input;
      corpora_dir := corpora_dir defaults; scripts_dir := scripts_dir defaults;
      data_dir := di_data_dir input; cache_dir := di_cache_dir input |}.
End Defense.

(** ** Both planes ([lib.rs]) *)

Record Bagel : Type := { bg_web : WebConfig; bg_defense : Config }.
(** What [validate_web_trust] reads of the web plane. *)
Definition web_trust (web : WebConfig) : WebTrust := {|
  wt_trusted_proxies := wc_trusted_proxies web; wt_client_ip_header := wc_client_ip_header web;
  wt_client_tls_header := th_name <$> wc_client_tls_header web;
  wt_bind_proxy_protocol := bd_proxy_protocol (wc_bind web) |}.
Definition with_trusted_proxies (c : Config) (proxies : list string) : Config := {|
  metrics_addr := metrics_addr c; disable_metrics := disable_metrics c; admin_socket := admin_socket c;
  disable_admin := disable_admin c; listeners := listeners c; sources := sources c; policies := policies c;
  enforcement := enforcement c; database_path := database_path c; history_retention_secs := history_retention_secs c;
  journalctl_path := journalctl_path c; nft_path := nft_path c; protected_networks := protected_networks c;
  min_delay_ms := min_delay_ms c; max_delay_ms := max_delay_ms c; max_tarpit_secs := max_tarpit_secs c;
  tarpit_chunk_min_bytes := tarpit_chunk_min_bytes c; tarpit_chunk_max_bytes := tarpit_chunk_max_bytes c;
  max_tarpit_conns := max_tarpit_conns c; max_tarpit_conns_per_ip := max_tarpit_conns_per_ip c;
  tarpit_write_timeout_secs := tarpit_write_timeout_secs c; max_connections := max_connections c;
  drain_timeout_secs := drain_timeout_secs c; proxy_protocol := proxy_protocol c; trusted_proxies := proxies;
  enable_firewall := enable_firewall c; trap_patterns := trap_patterns c; trap_user_agents := trap_user_agents c;
  whitelist_networks := whitelist_networks c; verified_crawlers := verified_crawlers c;
  no_block_networks := no_block_networks c; corpora_dir := corpora_dir c; scripts_dir := scripts_dir c;
  data_dir := data_dir c; cache_dir := cache_dir c |}.
Definition with_web_proxies (w : WebConfig) (proxies : option (list string)) (d : DeceptionConfig) : WebConfig := {|
  wc_bind := wc_bind w; wc_challenge_http_code := wc_challenge_http_code w; wc_cache_dir := wc_cache_dir w;
  wc_client_ip_header := wc_client_ip_header w; wc_client_tls_header := wc_client_tls_header w;
  wc_trusted_proxies := proxies; wc_backends := wc_backends w; wc_policy := wc_policy w; wc_strings := wc_strings w;
  wc_links := wc_links w; wc_logo := wc_logo w; wc_theme := wc_theme w; wc_template := wc_template w;
  wc_deception := d; wc_smear := wc_smear w |}.
(** [share_plane_settings]. *)
Definition share_plane_settings (b : Bagel) : Bagel :=
  let d := wc_deception (bg_web b) in
  let keep old dir := match old with Some _ => old | None => Some dir end in {|
  bg_web := with_web_proxies (bg_web b) (wc_trusted_proxies (bg_web b)) {|
    dc_corpora := keep (dc_corpora d) (corpora_dir (bg_defense b));
    dc_scripts := keep (dc_scripts d) (scripts_dir (bg_defense b));
    dc_server := dc_server d; dc_not_found_pct := dc_not_found_pct d; dc_forbidden_pct := dc_forbidden_pct d |};
  bg_defense := with_trusted_proxies (bg_defense b) (default [] (wc_trusted_proxies (bg_web b))) |}.

Section Reading.
Context `{K : Knead} {SD : SectionDecoders} {WD : WebDecoders} {DD : Decode DefenseInput}.
Context {NA : IpNetworkApi} {RX : RegexApi}.
Variables (default_dirs : string * string) (read_dir : ReadDir) (read_file : string -> result string string).

(** [Bagel::parse], [load] and [resolve]. *)
Fixpoint bagel_nodes (seen : gset string) (web : WebConfig) (defense : Config) (nodes : list Node) : Result Bagel :=
  match nodes with
  | [] => Ok {| bg_web := web; bg_defense := defense |}
  | node :: nodes =>
      seen ← reject_repeated seen node;
      if String.eqb (node_name node) "defense" then
        defense ← parse_defense default_dirs node;
        bagel_nodes seen web defense nodes
      else
        '(web, known) ← apply_node read_dir web node;
        if (known : bool) then bagel_nodes seen web defense nodes else Err (unknown_key node)
  end.
Definition bagel_parse (text path : string) : Result Bagel :=
  nodes ← map_err (Error.ConfigParse path) (knead_parse text);
  map_err (relocate text path) (bagel_nodes ∅ web_default (default_config default_dirs) nodes).
Definition bagel_load (path : string) : Result Bagel :=
  text ← map_err (fun err => Error.Config ("failed to read config file " +:+ path +:+ ": " +:+ err)) (read_file path);
  bagel_parse text path.
Definition bagel_resolve (args : Args) : Result Bagel :=
  b ← match a_config args with
      | Some path => bagel_load path
      | None => Ok {| bg_web := web_default; bg_defense := default_config default_dirs |}
      end;
  let web := match a_trusted_proxy args with
             | [] => bg_web b
             | proxies => with_web_proxies (bg_web b) (Some proxies) (wc_deception (bg_web b))
             end in
  let b := share_plane_settings {| bg_web := web; bg_defense := apply_args (bg_defense b) args |} in
  validate_config (bg_defense b) ;;
  validate_planes (web_trust (bg_web b)) (bg_defense b) ;;
  Ok b.
End Reading.
