(* ===== verification/State.v ===== *)
(** * The compiled web configuration

    [crates/bagel-web/src/state_validation.rs], the part of [state.rs] that compiles
    a configuration, [validate_bind] of [tls/mod.rs] and the reading of the [rhai]
    prelude ([rule/condition.rs]): every check a configuration passes before the web
    plane serves it, in the order they are made. *)

From S2P Require Import Prelude Core Strings Ip ThirdParty Validation Proto Host Url.
From S2P Require Import Rule Scoring Challenge Maze Proxy Rate TlsEdge.
From S2P Require Import Policy WebConfig Kdl.

Local Open Scope N_scope.

(** The loops over the named items of a section: the name is checked, must not be
    one of an earlier item, and then the item is. *)
Section EachNamed.
Context {A B : Type} (name : A -> string) (what : string) (valid : A -> bool) (check : A -> Result B).
Fixpoint each_named (names : gset string) (items : list A) : Result (list B) :=
  match items with
  | [] => Ok []
  | item :: items =>
      fail_if (negb (valid item)) ("invalid " +:+ what +:+ " name '" +:+ name item +:+ "'") ;;
      fail_if (bool_decide (name item ∈ names)) ("duplicate " +:+ what +:+ " '" +:+ name item +:+ "'") ;;
      checked ← check item;
      rest ← each_named ({[name item]} ∪ names) items;
      Ok (checked :: rest)
  end.
End EachNamed.

(** ** The prelude of the conditions *)

(** The top level of a script. *)
Inductive Stmt : Type := StmtVar (constant : bool) (name position : string) | StmtOther.

(** [rhai]: a script compiled and run gives its statements and the scope of its
    constants; compiled again over that scope it gives its functions. The
    signatures are those of the engine once the constants are its globals. *)
Class RhaiScript {RH : RhaiApi} : Type := {
  run_script : string -> result string (list Stmt * Constants);
  compile_functions : Constants -> string -> result string AST;
  gen_fn_signatures : Constants -> list string;
  iter_functions : AST -> list (string * N);
}.

(** The characters of the parameter list, in [signature_arity]. A signature is
    ASCII. *)
Definition opens_type (c : ascii) : bool := str_any (char_eqb c) "(<[".
Definition closes_type (c : ascii) : bool := str_any (char_eqb c) ")>]".
Definition is_ascii_space (c : ascii) : bool := (byte_of c =? 32) || in_range 9 13 c.
Fixpoint count_params (rest : list ascii) (depth params : N) (seen_param : bool) : N :=
  match rest with
  | [] => params + (if seen_param then 1 else 0)
  | ch :: rest =>
      if opens_type ch then count_params rest (depth + 1) params seen_param
      else if closes_type ch && (0 <? depth) then count_params rest (depth - 1) params seen_param
      else if char_eqb ch ")" then params + (if seen_param then 1 else 0)
      else if char_eqb ch "," && (depth =? 0) then count_params rest depth (params + 1) seen_param
      else if negb (is_ascii_space ch) then count_params rest depth params true
      else count_params rest depth params seen_param
  end.
Definition signature_arity (signature : string) : option (string * N) :=
  '(name, rest) ← split_once "(" signature;
  Some (name, count_params (string_chars rest) 0 0 false).

Section Prelude_new.
Context {RH : RhaiApi} {RS : @RhaiScript RH}.

(** The names the statements declare. *)
Fixpoint declared_constants (names : list string) (statements : list Stmt) : result string (list string) :=
  match statements with
  | [] => Ok names
  | StmtOther :: statements => declared_constants names statements
  | StmtVar constant name position :: statements =>
      if negb constant then
        Err ("prelude: '" +:+ name +:+ "' is a variable at " +:+ position
             +:+ ", the top level may only declare const and fn")
      else if str_mem name names then
        Err ("prelude: duplicate constant '" +:+ name +:+ "' at " +:+ position)
      else declared_constants (name :: names) statements
  end.
Definition newline : string := String (ascii_of_N 10) "".
(** [Prelude::new]. *)
Definition prelude_new (sources : list PreludeConfig) : result string Rule.Prelude :=
  let script := str_join newline (pl_script <$> sources) in
  let prefix err := "prelude: " +:+ err in
  '(statements, constants) ← map_err prefix (run_script script);
  constant_names ← declared_constants [] statements;
  lib ← map_err prefix (compile_functions constants script);
  let functions := omap signature_arity (gen_fn_signatures constants) ++ iter_functions lib in
  let prelude := {| Rule.constants := constants; constant_names := constant_names;
                    Rule.functions := functions; Rule.lib := lib |} in
  map_err prefix (check prelude lib) ;;
  Ok prelude.
End Prelude_new.

(** ** The listener ([validate_bind]) *)

Section Checks.
Context {U : UriApi} {UP : UriParts}.
(** The build's features. *)
Variables acme fcrdns : bool.

Definition http_scheme (uri : Uri) : bool :=
  match uri_scheme uri with Some s => String.eqb s "http" || String.eqb s "https" | None => false end.
(** The URI parser's message is left out of the error's text. *)
Definition validate_bind (config : BindConfig) : Result unit :=
  match bd_tls config with
  | TlsAcme directory_url domains _ =>
      fail_if (negb acme) "ACME TLS requires the acme feature" ;;
      fail_if (negb (bool_decide (bd_network config = BindTcp))) "ACME TLS requires a TCP listener" ;;
      fail_if (bool_decide (length domains = 0%nat)) "ACME TLS requires at least one domain" ;;
      directory ← ok_or (Error.Config ("invalid ACME directory URL " +:+ directory_url)) (uri_parse directory_url);
      fail_if (negb (http_scheme directory) || negb (is_some (uri_host directory)))
        "ACME directory requires an absolute HTTP or HTTPS URL"
  | _ => Ok tt
  end.

(** ** Crawlers *)

Definition trim_dots (suffix : string) : string := trim_start_of ["."] suffix.
Definition crawler_error (name what : string) : Error.t := Error.Config ("crawler '" +:+ name +:+ "'" +:+ what).
Definition normalize_suffix (name suffix : string) : Result string :=
  host ← map_err (fun err => crawler_error name (": invalid suffix '" +:+ suffix +:+ "': " +:+ err))
           (host_parse (trim_dots suffix));
  if is_ip host then Err (crawler_error name (": suffix '" +:+ suffix +:+ "' must be a DNS name"))
  else Ok ("." +:+ host_text host).
Definition normalize_crawler (crawler : CrawlerConfig) : Result CrawlerConfig :=
  fail_if (bool_decide (length (cr_suffixes crawler) = 0%nat))
    ("crawler '" +:+ cr_name crawler +:+ "' requires at least one DNS suffix") ;;
  suffixes ← traverse (normalize_suffix (cr_name crawler)) (cr_suffixes crawler);
  Ok {| cr_name := cr_name crawler; cr_suffixes := suffixes |}.
Definition normalize_crawler_providers (config : WebConfig) : Result (list CrawlerConfig) :=
  each_named cr_name "crawler" (fun crawler => is_valid_maze_name (cr_name crawler)) normalize_crawler ∅
    (pc_crawlers (wc_policy config)).

(** ** Renderers *)

Definition within (lo hi n : N) : bool := (lo <=? n) && (n <=? hi).
Definition renderer_text (renderer : RendererConfig) (message : string) : string :=
  "renderer '" +:+ rd_name renderer +:+ "': " +:+ message.
Definition validate_renderer_limits (r : RendererConfig) : Result unit :=
  fail_if ((rd_timeout r =? 0) || (60 <? rd_timeout r)) (renderer_text r "timeout must be between 1 and 60 seconds") ;;
  fail_if ((rd_cooldown r =? 0) || (3600 <? rd_cooldown r))
    (renderer_text r "cooldown must be between 1 second and 1 hour") ;;
  fail_if (negb (within 1024 8388608 (rd_max_body r))) (renderer_text r "max-body must be between 1024 and 8388608") ;;
  fail_if (negb (within 1 4096 (rd_max_concurrency r))) (renderer_text r "max-concurrency must be between 1 and 4096") ;;
  fail_if ((rd_rate r =? 0) || (rd_burst r =? 0) || (rd_decoy_rate r =? 0) || (rd_decoy_burst r =? 0))
    (renderer_text r "rates and bursts must be positive").
(** The URL of a renderer reached over HTTP. *)
Definition validate_endpoint (r : RendererConfig) : Result unit :=
  uri ← ok_or (Error.Config (renderer_text r "invalid endpoint")) (uri_parse (rd_endpoint r));
  fail_if (negb (http_scheme uri)) (renderer_text r "endpoint must be an HTTP or HTTPS URL") ;;
  fail_if (match uri_authority uri with Some a => str_contains_char "@" a | None => true end)
    (renderer_text r "endpoint must not contain credentials").
Definition validate_renderer (r : RendererConfig) : Result unit :=
  if String.eqb (rd_kind r) "iocaine" then validate_endpoint r ;; validate_renderer_limits r
  else if String.eqb (rd_kind r) "markov" then
    fail_if (negb (str_is_empty (rd_endpoint r)))
      (renderer_text r "markov renderers run in-process and take no endpoint") ;;
    validate_renderer_limits r
  else Err (Error.Config (renderer_text r ("unknown renderer kind '" +:+ rd_kind r +:+ "'"))).
Definition valid_renderer_name (r : RendererConfig) : bool :=
  negb (String.eqb (rd_name r) "builtin") && is_valid_maze_name (rd_name r).
Definition validate_renderers (config : WebConfig) : Result unit :=
  each_named rd_name "renderer" valid_renderer_name validate_renderer ∅ (pc_renderers (wc_policy config)) ;;
  Ok tt.

(** ** Mazes *)

Definition maze_text (maze : MazeConfig) (message : string) : string :=
  "maze '" +:+ mz_name maze +:+ "': " +:+ message.
Definition range_text (lo hi : N) : string := show_N lo +:+ ".." +:+ show_N hi.
Definition validate_maze (renderers : list RendererConfig) (maze : MazeConfig) : Result unit :=
  fail_if (negb (String.eqb (mz_renderer maze) "builtin")
           && negb (existsb (fun r => String.eqb (rd_name r) (mz_renderer maze)) renderers))
    (maze_text maze ("unknown renderer '" +:+ mz_renderer maze +:+ "'")) ;;
  fail_if (negb (within 60 (7 * 86400) (mz_token_ttl maze)))
    (maze_text maze ("token-ttl " +:+ show_N (mz_token_ttl maze) +:+ "s is outside 60 seconds through seven days")) ;;
  fail_if ((mz_memory_ttl maze =? 0) || (8760 * 3600 <? mz_memory_ttl maze))
    (maze_text maze "memory-ttl must be between 1 second and 365 days") ;;
  fail_if ((mz_min_links maze =? 0) || (64 <? mz_max_links maze) || (mz_max_links maze <? mz_min_links maze))
    (maze_text maze ("link limits " +:+ range_text (mz_min_links maze) (mz_max_links maze)
                     +:+ " are outside 1..=64 or inverted")) ;;
  fail_if ((mz_min_bytes maze <? 1024) || (1048576 <? mz_max_bytes maze) || (mz_max_bytes maze <? mz_min_bytes maze))
    (maze_text maze ("byte limits " +:+ range_text (mz_min_bytes maze) (mz_max_bytes maze)
                     +:+ " are outside 1024..=1048576 or inverted")).
Definition validate_mazes (config : WebConfig) (seed_persistent : bool) : Result unit :=
  match pc_mazes (wc_policy config) with
  | [] => Ok tt
  | mazes =>
      each_named mz_name "maze" (fun maze => is_valid_maze_name (mz_name maze))
        (validate_maze (pc_renderers (wc_policy config))) ∅ mazes ;;
      fail_if (negb seed_persistent)
        "maze support requires a persistent key seed (--key-seed or --key-seed-file), since restarting must never silently change live maze routes" ;;
      fail_if (bd_passthrough (wc_bind config)) "passthrough and maze support cannot both be enabled"
  end.
End Checks.

(** ** What the actions refer to *)

Section References.
Context {RX : RegexApi} {HA : HeaderApi} {RH : RhaiApi}.
Context {U : UriApi} {UP : UriParts} {HT : HeaderText}.

Definition tarpit_maze_known (maze_name : string) (mazes : list MazeConfig) (site : string) : Result unit :=
  if existsb (fun maze => String.eqb (mz_name maze) maze_name) mazes then Ok tt
  else Err (Error.Config (site +:+ ": references unknown maze '" +:+ maze_name +:+ "'")).
Definition maze_references (action : Action) : list string :=
  match action with
  | ATarpit maze | ALure maze => [maze]
  | AChallenge (MkChallengeAction _ _ _ pass fail) | ACheck (MkChallengeAction _ _ _ pass fail) =>
      omap (fun sub => match sub with ATarpit maze => Some maze | _ => None end) [pass; fail]
  | _ => []
  end.
Definition rule_site (name : string) : string := "rule '" +:+ name +:+ "'".
Definition threshold_site (card : string) (value : N) : string :=
  "scorecard '" +:+ card +:+ "' threshold " +:+ show_N value.
Definition mazes_known (mazes : list MazeConfig) (site : string) (action : Action) : Result unit :=
  for_each (fun maze => tarpit_maze_known maze mazes site) (maze_references action).

(** The walk over a tree of rules, each before its children. *)
Fixpoint walk_rule (visit : string -> Action -> Result unit) (rule : RuleState) : Result unit :=
  visit (rule_site (Rule.name rule)) (Rule.action rule) ;;
  for_each (walk_rule visit) (Rule.children rule).
Definition walk (visit : string -> Action -> Result unit) (rules : list RuleState) : Result unit :=
  for_each (walk_rule visit) rules.
(** The loop over every threshold of every card. *)
Definition each_threshold (visit : ScorecardState -> ThresholdState -> Result unit) (scoring : option ScoringState) : Result unit :=
  match scoring with
  | Some scoring => for_each (fun card => for_each (visit card) (thresholds card)) (scorecards scoring)
  | None => Ok tt
  end.

Definition validate_tarpit_references (rules : list RuleState) (scoring : option ScoringState) (mazes : list MazeConfig) :
    Result unit :=
  walk (mazes_known mazes) rules ;;
  each_threshold (fun card threshold =>
    mazes_known mazes (threshold_site (sd_name card) (value threshold)) (th_action threshold)) scoring.

Definition proxy_backend (action : Action) : option string :=
  match action with AProxy _ _ backend => Some backend | _ => None end.
Definition backend_known (backends : BackendPool) (message : string -> string) (action : Action) : Result unit :=
  match proxy_backend action with
  | Some backend => fail_if (negb (is_some (pool_by_name backends backend))) (message backend)
  | None => Ok tt
  end.
Definition validate_proxy_backends (rules : list RuleState) (backends : BackendPool) : Result unit :=
  walk (fun site => backend_known backends (fun backend =>
    site +:+ ": proxy action references unknown backend '" +:+ backend +:+ "'")) rules.
(** The same for thresholds, in [compile]. *)
Definition validate_threshold_backends (scoring : option ScoringState) (backends : BackendPool) : Result unit :=
  each_threshold (fun card threshold => backend_known backends (fun backend =>
    "scorecard '" +:+ sd_name card +:+ "': threshold " +:+ show_N (value threshold)
    +:+ " references unknown backend '" +:+ backend +:+ "'") (th_action threshold)) scoring.

(** *** Challenges *)

Notation Registry := (gmap string ChallengeRegistration).
Definition is_blocking (c : ChallengeClass) : bool := match c with Blocking => true | Transparent => false end.
Definition validate_difficulty (site name : string) (r : ChallengeRegistration) (difficulty : option N) : Result unit :=
  match difficulty with
  | None => Ok tt
  | Some difficulty =>
      match runtime r with
      | CPow _ =>
          fail_if (negb (in_difficulty_range difficulty))
            (site +:+ " sets difficulty " +:+ show_N difficulty +:+ " for '" +:+ name +:+ "', outside 1..=32")
      | _ => Err (Error.Config (site +:+ " sets a difficulty for '" +:+ name +:+ "', which is not a proof of work"))
      end
  end.
Definition validate_challenge (registry : Registry) (site : string) (check : bool) (difficulty : option N) (name : string) :
    Result unit :=
  registration ← ok_or (Error.Config (site +:+ " references unknown challenge '" +:+ name +:+ "'")) (registry !! name);
  fail_if (check && is_blocking (class registration) && negb (supports_background (runtime registration)))
    (site +:+ " uses blocking challenge '" +:+ name +:+ "' with check") ;;
  validate_difficulty site name registration difficulty.
Definition validate_action (registry : Registry) (site : string) (action : Action) : Result unit :=
  match action with
  | AChallenge (MkChallengeAction names _ difficulty _ _) =>
      for_each (validate_challenge registry site false difficulty) names
  | ACheck (MkChallengeAction names _ difficulty _ _) =>
      for_each (validate_challenge registry site true difficulty) names
  | _ => Ok tt
  end.
Definition validate_challenge_references (rules : list RuleState) (scoring : option ScoringState) (registry : Registry) :
    Result unit :=
  walk (validate_action registry) rules ;;
  each_threshold (fun card threshold =>
    validate_action registry (threshold_site (sd_name card) (value threshold)) (th_action threshold)) scoring.

(** ** Compiling a configuration *)

Context {NA : IpNetworkApi} {RS : RhaiScript}.
Variables acme fcrdns : bool.

Record Compiled : Type := {
  cp_prelude : Rule.Prelude; cp_rules : list RuleState; cp_backends : BackendPool; cp_scoring : option ScoringState;
  cp_challenges : Registry; cp_crawlers : list CrawlerConfig; cp_client_ip : ClientIpPolicy }.

(** [ScoringState::build] where there is a [scoring] section. *)
Definition build_scoring (config : WebConfig) (prelude : Rule.Prelude) : Result (option ScoringState) :=
  match pc_scoring (wc_policy config) with
  | Some scoring => Some <$> scoring_build scoring prelude (wc_challenge_http_code config)
  | None => Ok None
  end.
Definition crawler_providers (config : WebConfig) : Result (list CrawlerConfig) :=
  match pc_crawlers (wc_policy config) with
  | [] => Ok []
  | _ =>
      if fcrdns then normalize_crawler_providers config
      else Err (Error.Config "crawlers need the 'fcrdns' feature, which this build lacks, so no crawler would ever verify")
  end.
(** The parser's message is left out of the error's text. *)
Definition compile_client_ip (config : WebConfig) : Result ClientIpPolicy :=
  map_err (fun _ => Error.Config "trusted-proxies: invalid network")
    (client_ip_policy_new (wc_client_ip_header config) (wc_trusted_proxies config)).
Definition state_compile (config : WebConfig) (seed_persistent : bool) : Result Compiled :=
  let policy := wc_policy config in
  validate_bind acme (wc_bind config) ;;
  prelude ← map_err Error.Config (prelude_new (pc_prelude policy));
  rules ← build_rules prelude (pc_rules policy) (wc_challenge_http_code config) "";
  backends ← pool_build (wc_backends config) (wc_template config);
  validate_proxy_backends rules backends ;;
  scoring ← build_scoring config prelude;
  validate_threshold_backends scoring backends ;;
  validate_renderers config ;;
  validate_web_trust (web_trust config) ;;
  client_ip ← compile_client_ip config;
  crawlers ← crawler_providers config;
  deception_validate (wc_deception config) ;;
  smear_validate (wc_smear config) ;;
  validate_mazes config seed_persistent ;;
  validate_tarpit_references rules scoring (pc_mazes policy) ;;
  challenges ← registry_build (pc_challenges policy);
  validate_challenge_references rules scoring challenges ;;
  Ok {| cp_prelude := prelude; cp_rules := rules; cp_backends := backends; cp_scoring := scoring;
        cp_challenges := challenges; cp_crawlers := crawlers; cp_client_ip := client_ip |}.
(** [validate_config]. *)
Definition web_validate_config (config : WebConfig) (seed_persistent : bool) : Result unit :=
  state_compile config seed_persistent ;; Ok tt.
End References.
