(* ===== verification/ConfigFacts.v ===== *)
(** * Reading configurations: theorems

    The order of the nodes of a document does not matter but for where [policy] and
    [policy-dir] stand; the order in which a directory lists its policies does not
    matter; durations are read exactly; what [Bagel::resolve] accepts is validated as
    a whole. *)

From S2P Require Import Prelude Core Strings Ip ThirdParty Config Validation Document.
From S2P Require Import TlsEdge Proxy Challenge Maze Scoring Rule Policy WebConfig Kdl.
From S2P Require Import Firewall Store StoreFacts StoreSpec Detector Defense.
From S2P Require Import DefenseFacts ValidationFacts.

Local Open Scope N_scope.

(** ** Documents *)

Section Nodes.
Context `{K : Knead} {SD : SectionDecoders} {WD : WebDecoders} {DD : Decode DefenseInput}.
Variables (default_dirs : string * string) (read_dir : ReadDir).

(** What a node does to the configuration. *)
Definition Effect : Type := Setting + Config.
Definition effect_apply (b : Bagel) (e : Effect) : Bagel :=
  match e with
  | inl s => {| bg_web := assign (bg_web b) s; bg_defense := bg_defense b |}
  | inr d => {| bg_web := bg_web b; bg_defense := d |}
  end.
Definition node_effect (node : Node) : Result Effect :=
  if String.eqb (node_name node) "defense" then inr <$> parse_defense default_dirs node
  else s ← node_setting read_dir node; match s with Some s => Ok (inl s) | None => Err (unknown_key node) end.

(** The names that may appear once are not repeated. *)
Definition is_dir (n : Node) : bool := String.eqb (node_name n) "policy-dir".
Definition once (seen : gset string) (nodes : list Node) : Prop :=
  NoDup (node_name <$> List.filter (fun n => negb (is_dir n)) nodes) /\
  Forall (fun n => is_dir n = true \/ node_name n ∉ seen) nodes.

Lemma bagel_step seen b n nodes :
  bagel_nodes default_dirs read_dir seen (bg_web b) (bg_defense b) (n :: nodes) =
  (seen ← reject_repeated seen n; e ← (node_effect n);
   (let b := effect_apply b e in bagel_nodes default_dirs read_dir seen (bg_web b) (bg_defense b) nodes)).
Proof.
  cbn [bagel_nodes]. unfold node_effect, apply_node. destruct (reject_repeated seen n) as [seen'|e]; [|done].
  cbn [mbind result_bind]. destruct (String.eqb (node_name n) "defense").
  - by destruct (parse_defense default_dirs n).
  - destruct (node_setting read_dir n) as [[s|]|]; done.
Qed.
Lemma reject_repeated_ok seen n seen' :
  reject_repeated seen n = Ok seen' <->
  (is_dir n = true /\ seen' = seen) \/ (is_dir n = false /\ (node_name n ∉ seen) /\ seen' = {[node_name n]} ∪ seen).
Proof.
  unfold reject_repeated, is_dir. destruct (String.eqb _ _).
  - naive_solver.
  - case_bool_decide as Hs; naive_solver.
Qed.
Lemma once_cons seen n nodes :
  once seen (n :: nodes) <->
  exists seen', reject_repeated seen n = Ok seen' /\ once seen' nodes.
Proof.
  unfold once. cbn [List.filter]. setoid_rewrite reject_repeated_ok. destruct (is_dir n) eqn:Hd; cbn [negb].
  - rewrite Forall_cons. split.
    + intros (Hn & _ & Hf). exists seen. split; [by left|done].
    + intros (seen' & [[_ ->]|[? _]] & Hn & Hf); [|congruence]. split; [done|]. split; [by left|done].
  - rewrite fmap_cons, NoDup_cons, Forall_cons. split.
    + intros ([Hn Hnd] & [?|Hs] & Hf); [congruence|]. exists ({[node_name n]} ∪ seen). split; [by right|]. split; [done|].
      rewrite Forall_forall in *. intros m Hm. destruct (Hf m Hm) as [Hm'|Hm']; [by left|].
      destruct (is_dir m) eqn:Hdm; [by left|right]. rewrite not_elem_of_union, not_elem_of_singleton. split; [|done].
      intros He. apply Hn, list_elem_of_fmap. exists m. split; [done|].
      apply list_elem_of_In, filter_In. split; [by apply list_elem_of_In|]. by rewrite Hdm.
    + intros (seen' & [[? _]|(_ & Hs & ->)] & Hnd & Hf); [congruence|]. split; [split; [|done]|split; [by right|]].
      * intros (m & He & Hm)%list_elem_of_fmap. apply list_elem_of_In, filter_In in Hm as [Hm Hdm].
        rewrite Forall_forall in Hf. apply list_elem_of_In in Hm. destruct (Hf m Hm) as [Hm'|Hm']; [by rewrite Hm' in Hdm|].
        apply Hm'. rewrite <- He. set_solver.
      * eapply Forall_impl; [exact Hf|]. intros m [?|Hm]; [by left|right]. set_solver.
Qed.

(** Reading a document is applying what each node does, in order. *)
Lemma bagel_nodes_effects seen b nodes b' :
  bagel_nodes default_dirs read_dir seen (bg_web b) (bg_defense b) nodes = Ok b' <->
  once seen nodes /\ exists es, Forall2 (fun n e => node_effect n = Ok e) nodes es /\ b' = foldl effect_apply b es.
Proof.
  revert seen b. induction nodes as [|n nodes IH]; intros seen b.
  { cbn. split.
    - intros [= <-]. split; [by repeat constructor|]. exists []. split; [constructor|]. by destruct b.
    - intros (_ & es & Hes & ->). inversion Hes; subst. by destruct b. }
  rewrite bagel_step, once_cons, bind_ok. split.
  - intros (seen' & Hr & He). apply bind_ok in He as (e & He & H). apply IH in H as (Ho & es & Hes & ->).
    split; [by exists seen'|]. exists (e :: es). split; [by constructor|done].
  - intros ((seen' & Hr & Ho) & es & Hes & ->). inversion Hes as [|? e ? es' He Hes']; subst.
    exists seen'. split; [done|]. rewrite He. cbn [mbind result_bind]. apply IH. split; [done|]. by exists es'.
Qed.

(** ** Order *)

(** The name a setting comes from. *)
Definition setting_name (s : Setting) : string :=
  match s with
  | SetBind _ => "bind" | SetHttpCode _ => "challenge-http-code" | SetIpHeader _ => "client-ip-header"
  | SetTlsHeader _ => "client-tls-header" | SetProxies _ => "trusted-proxies" | SetCache _ => "cache"
  | SetBackends _ => "backends" | SetPolicy _ => "policy" | MergePolicy _ => "policy-dir"
  | ExtendStrings _ => "strings" | ExtendLinks _ => "links" | SetTheme _ => "challenge-template-theme"
  | SetTemplate _ => "challenge-template" | SetLogo _ => "challenge-template-logo" | SetDeception _ => "deception"
  | SetSmear _ => "smear"
  end.
Lemma node_setting_name n s : node_setting read_dir n = Ok (Some s) -> node_name n = setting_name s.
Proof.
  unfold node_setting. cbv zeta.
  repeat match goal with
  | |- (if String.eqb (node_name n) ?name then _ else _) = _ -> _ =>
      destruct (String.eqb_spec (node_name n) name) as [->|]; [intros H; inv_all; repeat case_match; by simplify_eq|]
  end.
  done.
Qed.
Definition effect_name (e : Effect) : string := match e with inl s => setting_name s | inr _ => "defense" end.
Lemma node_effect_name n e : node_effect n = Ok e -> node_name n = effect_name e.
Proof.
  unfold node_effect. destruct (String.eqb_spec (node_name n) "defense") as [->|].
  - by destruct (parse_defense default_dirs n) as [d|]; intros [= <-].
  - intros H. apply bind_ok in H as ([s|] & Hs & H); [|done]. injection H as <-. by apply node_setting_name.
Qed.
(** [policy] and [policy-dir] are one setting. *)
Definition policy_name (name : string) : bool := String.eqb name "policy" || String.eqb name "policy-dir".
Lemma effects_commute e f b :
  effect_name e <> effect_name f -> policy_name (effect_name e) && policy_name (effect_name f) = false ->
  effect_apply (effect_apply b e) f = effect_apply (effect_apply b f) e.
Proof.
  destruct e as [s|d], f as [t|d']; [|done..]. intros Hn Hp. cbn. f_equal.
  destruct s, t; try reflexivity; by destruct Hn.
Qed.

Definition is_policy (n : Node) : bool := policy_name (node_name n).
(** The nodes of two documents in another order, but for those of the policy. *)
Definition reordered (ns ns' : list Node) : Prop :=
  Permutation ns ns' /\ List.filter is_policy ns = List.filter is_policy ns'.

Lemma foldl_move e es b :
  Forall (fun f => forall b, effect_apply (effect_apply b f) e = effect_apply (effect_apply b e) f) es ->
  effect_apply (foldl effect_apply b es) e = foldl effect_apply (effect_apply b e) es.
Proof.
  intros H. revert b. induction H as [|f es Hf _ IH]; intros b; [done|]. cbn. by rewrite IH, Hf.
Qed.
(** Where the first node of the other document stands, and that what is in front of
    it commutes with it. *)
Lemma reordered_split ns n ns' :
  reordered ns (n :: ns') -> once ∅ ns ->
  exists a b, ns = a ++ n :: b /\ reordered (a ++ b) ns' /\
    Forall (fun m => node_name m <> node_name n /\ is_policy m && is_policy n = false) a.
Proof.
  intros [Hp Hf] [Hnd _]. cbn in Hf. destruct (is_policy n) eqn:Hn.
  - assert (H : exists a b, ns = a ++ n :: b /\ List.filter is_policy a = [] /\ List.filter is_policy b = List.filter is_policy ns').
    { clear Hp Hnd. induction ns as [|m ns IH]; [done|]. cbn in Hf. destruct (is_policy m) eqn:Hm.
      - injection Hf as -> Hf. by exists [], ns.
      - destruct (IH Hf) as (a & b & -> & Ha & Hb). exists (m :: a), b. cbn. by rewrite Hm. }
    destruct H as (a & b & -> & Ha & Hb). exists a, b. split; [done|]. split.
    + split; [by apply (Permutation_cons_inv (a := n)); rewrite Permutation_middle|]. by rewrite List.filter_app, Ha.
    + apply Forall_forall. intros m Hm. destruct (is_policy m) eqn:E.
      { exfalso. assert (Hin : m ∈ List.filter is_policy a) by (apply list_elem_of_In, filter_In; split; [by apply list_elem_of_In|done]).
        rewrite Ha in Hin. by apply elem_of_nil in Hin. }
      split; [|done]. intros He. unfold is_policy in *. by rewrite He, Hn in E.
  - assert (Hin : n ∈ ns) by (rewrite Hp; left). apply list_elem_of_split in Hin as (a & b & ->).
    exists a, b. split; [done|]. rewrite List.filter_app in Hf. cbn in Hf. rewrite Hn in Hf. split.
    + split; [by apply (Permutation_cons_inv (a := n)); rewrite Permutation_middle|]. by rewrite List.filter_app.
    + apply Forall_forall. intros m Hm. rewrite andb_false_r. split; [|done]. intros He.
      assert (Hd : is_dir n = false /\ is_dir m = false).
      { unfold is_dir, is_policy, policy_name in *. rewrite He. apply orb_false_iff in Hn as [_ ->]. done. }
      rewrite List.filter_app in Hnd. cbn in Hnd. rewrite (proj1 Hd) in Hnd. cbn in Hnd. rewrite fmap_app, NoDup_app in Hnd.
      destruct Hnd as (_ & Hnd & _). apply (Hnd (node_name n)); [|left].
      rewrite <- He. apply list_elem_of_fmap. exists m. split; [done|]. apply list_elem_of_In, filter_In.
      split; [by apply list_elem_of_In|]. by rewrite (proj2 Hd).
Qed.
Lemma once_permutation ns ns' : Permutation ns ns' -> once ∅ ns -> once ∅ ns'.
Proof.
  intros Hp [Hnd _]. split.
  - assert (H : Permutation (List.filter (fun n => negb (is_dir n)) ns) (List.filter (fun n => negb (is_dir n)) ns')).
    { clear Hnd. induction Hp as [|x l l' _ IH|x y l|l l' l'' _ IH1 _ IH2]; cbn; repeat case_match; rewrite ?IH, ?IH1; try done; constructor. }
    by rewrite <- H.
  - apply Forall_forall. intros m _. right. apply not_elem_of_empty.
Qed.
Lemma reordered_effects ns ns' es b :
  reordered ns ns' -> once ∅ ns -> Forall2 (fun n e => node_effect n = Ok e) ns es ->
  exists es', Forall2 (fun n e => node_effect n = Ok e) ns' es' /\ foldl effect_apply b es' = foldl effect_apply b es.
Proof.
  revert ns es b. induction ns' as [|n ns' IH]; intros ns es b Hr Ho Hes.
  { destruct Hr as [Hp _]. apply Permutation_nil_r in Hp as ->. inversion Hes; subst. exists []. by split; [constructor|]. }
  destruct (reordered_split ns n ns' Hr Ho) as (a & c & -> & Hr' & Ha).
  apply Forall2_app_inv_l in Hes as (ea & e' & Hea & Hec & ->). inversion Hec as [|? e ? ec He Hec']; subst.
  assert (Ho' : once ∅ (a ++ c)).
  { destruct Hr' as [Hp' _]. assert (Hp : Permutation (a ++ n :: c) (n :: a ++ c)) by (by rewrite Permutation_middle).
    apply (once_permutation _ _ Hp) in Ho. apply once_cons in Ho as (seen & Hs & [Hnd _]). split; [done|].
    apply Forall_forall. intros m _. right. apply not_elem_of_empty. }
  destruct (IH (a ++ c) (ea ++ ec) (effect_apply b e) Hr' Ho') as (es' & Hes' & Hfold); [by apply Forall2_app|].
  exists (e :: es'). split; [by constructor|]. cbn [foldl]. rewrite Hfold, !foldl_app. cbn [foldl]. f_equal. symmetry.
  apply foldl_move. clear - Hea Ha He. induction Hea as [|m f a ea Hf _ IH]; [constructor|].
  apply Forall_cons in Ha as [[Hn Hp] Ha]. constructor; [|by apply IH]. intros b0.
  apply effects_commute; rewrite <- (node_effect_name _ _ He), <- (node_effect_name _ _ Hf); [done|exact Hp].
Qed.

(** The order of the nodes of a configuration does not matter. A document that
    is accepted gives the same configuration of both planes with its nodes in any
    other order, as long as [policy] and [policy-dir] nodes stay in theirs. *)
Theorem document_order ns ns' b :
  bagel_nodes default_dirs read_dir ∅ web_default (default_config default_dirs) ns = Ok b -> reordered ns ns' ->
  bagel_nodes default_dirs read_dir ∅ web_default (default_config default_dirs) ns' = Ok b.
Proof.
  intros H Hr. set (b0 := {| bg_web := web_default; bg_defense := default_config default_dirs |}).
  change (bagel_nodes default_dirs read_dir ∅ (bg_web b0) (bg_defense b0) ns = Ok b) in H.
  apply bagel_nodes_effects in H as (Ho & es & Hes & ->). destruct (reordered_effects ns ns' es b0 Hr Ho Hes) as (es' & Hes' & Hf).
  apply (bagel_nodes_effects ∅ b0). split; [eapply once_permutation; [apply Hr|done]|]. by exists es'.
Qed.

(** ** A [policy] node replaces *)

Definition same_but_policy (b b' : Bagel) : Prop :=
  bg_defense b = bg_defense b' /\ assign (bg_web b) (SetPolicy policy_default) = assign (bg_web b') (SetPolicy policy_default).
Lemma effect_same b b' e : same_but_policy b b' -> same_but_policy (effect_apply b e) (effect_apply b' e).
Proof.
  intros [Hd Hw]. destruct b as [w d], b' as [w' d']. cbn in *. subst d'. injection Hw as H. destruct w, w'; cbn in *. subst.
  destruct e as [s|d']; [|done]. split; [done|]. by destruct s.
Qed.
Lemma set_policy_same b b' p : same_but_policy b b' -> effect_apply b (inl (SetPolicy p)) = effect_apply b' (inl (SetPolicy p)).
Proof.
  intros [Hd Hw]. destruct b as [w d], b' as [w' d']. cbn in *. subst d'. injection Hw as H. destruct w, w'; cbn in *. by subst.
Qed.
Lemma foldl_same es b b' : same_but_policy b b' -> same_but_policy (foldl effect_apply b es) (foldl effect_apply b' es).
Proof. revert b b'. induction es as [|e es IH]; intros b b' H; [done|]. cbn. by apply IH, effect_same. Qed.
(** What a [policy-dir] node loads is lost when the [policy] node comes after it:
    the configuration is the one of the document without the [policy-dir] node. *)
Theorem policy_dir_discarded before dir between policy after b :
  bagel_nodes default_dirs read_dir ∅ web_default (default_config default_dirs)
    (before ++ dir :: between ++ policy :: after) = Ok b ->
  node_name dir = "policy-dir" -> node_name policy = "policy" ->
  bagel_nodes default_dirs read_dir ∅ web_default (default_config default_dirs)
    (before ++ between ++ policy :: after) = Ok b.
Proof.
  intros H Hd Hp. set (b0 := {| bg_web := web_default; bg_defense := default_config default_dirs |}).
  apply (bagel_nodes_effects ∅ b0) in H as (Ho & es & Hes & ->). apply (bagel_nodes_effects ∅ b0). split.
  - destruct Ho as [Hnd _]. split; [|apply Forall_forall; intros m _; right; apply not_elem_of_empty].
    rewrite List.filter_app in Hnd. cbn in Hnd. unfold is_dir in Hnd at 2. rewrite Hd in Hnd. cbn in Hnd. by rewrite List.filter_app.
  - apply Forall2_app_inv_l in Hes as (e1 & e' & H1 & Hes & ->). inversion Hes as [|? ed ? e2' Hed Hes']; subst.
    apply Forall2_app_inv_l in Hes' as (e2 & e'' & H2 & Hes' & ->). inversion Hes' as [|? ep ? e3 Hep H3]; subst.
    exists (e1 ++ e2 ++ ep :: e3). split; [by repeat (apply Forall2_app || constructor)|].
    rewrite !foldl_app. cbn [foldl]. rewrite !foldl_app. cbn [foldl]. f_equal.
    pose proof (node_effect_name _ _ Hed) as Nd. pose proof (node_effect_name _ _ Hep) as Np. rewrite Hd in Nd. rewrite Hp in Np.
    destruct ed as [[]|], ep as [[]|]; try done. apply set_policy_same, foldl_same.
    split; [done|]. cbn. by destruct (bg_web _).
Qed.
End Nodes.

(** ** Directories *)

Section Directories.
Context `{K : Knead} {SD : SectionDecoders}.
Notation File := (string * result string string)%type.

Definition name_le (e e' : File) : Prop := String.le e.1 e'.1.
Lemma insert_by_name_perm e l : Permutation (insert_by_name e l) (e :: l).
Proof. induction l as [|e' l IH]; cbn; [done|]. destruct (String.leb _ _); [done|]. rewrite IH. constructor. Qed.
Lemma sort_by_name_perm l : Permutation (sort_by_name l) l.
Proof. induction l as [|e l IH]; cbn; [done|]. by rewrite insert_by_name_perm, IH. Qed.
Lemma name_total e e' : String.leb e.1 e'.1 = false -> name_le e' e.
Proof. unfold name_le, String.le. intros H. destruct (String.leb_total e.1 e'.1) as [H'|H']; [congruence|]. by rewrite H'. Qed.
Lemma name_trans a b c : name_le a b -> name_le b c -> name_le a c.
Proof. unfold name_le. apply transitivity. Qed.
Lemma insert_by_name_sorted e l : StronglySorted name_le l -> StronglySorted name_le (insert_by_name e l).
Proof.
  induction 1 as [|x xs Hs IH Hx]; [repeat constructor|]. cbn [insert_by_name]. destruct (String.leb e.1 x.1) eqn:E.
  - assert (Hex : name_le e x) by (unfold name_le, String.le; by rewrite E).
    constructor; [by constructor|]. constructor; [done|]. eapply Forall_impl; [exact Hx|]. intros y. by apply name_trans.
  - constructor; [done|]. rewrite insert_by_name_perm. constructor; [by apply name_total|done].
Qed.
Lemma sort_by_name_sorted l : StronglySorted name_le (sort_by_name l).
Proof. induction l as [|e l IH]; cbn; [constructor|]. by apply insert_by_name_sorted. Qed.
Lemma elem_name_inj (l : list File) e e' : NoDup l.*1 -> e ∈ l -> e' ∈ l -> e.1 = e'.1 -> e = e'.
Proof.
  intros Hnd He He' Hn. destruct e as [n t], e' as [n' t']. cbn in Hn. subst n'.
  apply (assoc_nodup n) in He, He'; [|done..]. congruence.
Qed.
Lemma sort_by_name_unique l l' : Permutation l l' -> NoDup l.*1 -> sort_by_name l = sort_by_name l'.
Proof.
  intros Hp Hnd. eapply (StronglySorted_unique_strong name_le); try apply sort_by_name_sorted.
  - intros e e' He He' H1 H2. rewrite sort_by_name_perm in He, He'. rewrite <- Hp in He'.
    eapply elem_name_inj; [done|done|done|]. unfold name_le in *. by apply (anti_symm String.le).
  - by rewrite !sort_by_name_perm.
Qed.
Lemma list_filter_perm {A} (p : A -> bool) l l' : Permutation l l' -> Permutation (List.filter p l) (List.filter p l').
Proof. induction 1 as [|x l l' _ IH|x y l|l l' l'' _ IH1 _ IH2]; cbn; repeat case_match; rewrite ?IH, ?IH1; try done; constructor. Qed.
Lemma filter_names (p : File -> bool) l : NoDup l.*1 -> NoDup (List.filter p l).*1.
Proof.
  induction l as [|e l IH]; cbn; [done|]. intros [Hn Hnd]%NoDup_cons. destruct (p e); cbn; [|auto].
  constructor; [|auto]. intros (e' & He & Hin)%list_elem_of_fmap. apply Hn, list_elem_of_fmap. exists e'. split; [done|].
  apply list_elem_of_In, filter_In in Hin as [Hin _]. by apply list_elem_of_In.
Qed.

(** The policies of a directory do not depend on the order in which the file
    system lists it: they are merged in the order of their names, and files that are
    no [.kdl] files play no part, not even when they cannot be read. *)
Theorem load_dir_order (read_dir read_dir' : ReadDir) dir l l' :
  read_dir dir = Ok l -> read_dir' dir = Ok l' -> NoDup l.*1 ->
  Permutation (List.filter (fun e => bool_decide (path_extension e.1 = Some "kdl")) l)
    (List.filter (fun e => bool_decide (path_extension e.1 = Some "kdl")) l') ->
  load_dir read_dir dir = load_dir read_dir' dir.
Proof.
  intros Hr Hr' Hnd Hp. unfold load_dir. rewrite Hr, Hr'. cbn. f_equal.
  apply sort_by_name_unique; [done|]. by apply filter_names.
Qed.
End Directories.

(** ** Durations *)

Definition unit_seconds (unit : string) : option N :=
  if String.eqb unit "s" then Some 1 else if String.eqb unit "m" then Some 60
  else if String.eqb unit "h" then Some 3600 else if String.eqb unit "d" then Some 86400 else None.
Lemma unit_seconds_some unit k :
  unit_seconds unit = Some k ->
  unit = "s" /\ k = 1 \/ unit = "m" /\ k = 60 \/ unit = "h" /\ k = 3600 \/ unit = "d" /\ k = 86400.
Proof.
  unfold unit_seconds. repeat match goal with
  | |- (if String.eqb unit ?x then _ else _) = _ -> _ => destruct (String.eqb_spec unit x) as [->|]; [intros [= <-]; tauto|]
  end. done.
Qed.
Lemma split_digits_spec s digits unit :
  split_digits s = (digits, unit) <->
  s = digits +:+ unit /\ str_all is_ascii_digit digits = true /\
  match unit with EmptyString => True | String c _ => is_ascii_digit c = false end.
Proof.
  revert digits unit. induction s as [|c s IH]; intros digits unit; cbn.
  - split; [by intros [= <- <-]|]. intros (H & _ & _). by destruct digits, unit.
  - destruct (is_ascii_digit c) eqn:Hc.
    + destruct (split_digits s) as [ds u] eqn:E. destruct (proj1 (IH ds u) eq_refl) as (-> & Hds & Hu). split.
      * intros [= <- <-]. cbn [str_all]. by rewrite Hc.
      * intros (He & Hd & Hu'). destruct digits as [|d digits].
        { change ("" +:+ unit) with unit in He. subst unit. by rewrite Hc in Hu'. }
        change (String d digits +:+ unit) with (String d (digits +:+ unit)) in He. injection He as -> He. cbn in Hd. apply andb_true_iff in Hd as [_ Hd].
        assert (H : (ds, u) = (digits, unit)) by (apply IH; done). by injection H as <- <-.
    + split.
      * intros [= <- <-]. done.
      * intros (He & Hd & _). destruct digits as [|d digits]; [change ("" +:+ unit) with unit in He; by subst|].
        change (String d digits +:+ unit) with (String d (digits +:+ unit)) in He. cbn in Hd. injection He as -> _. by rewrite Hc in Hd.
Qed.

(** Durations are read exactly, and never overflow. A text is the duration of [n]
    seconds when it is digits whose value fits 64 bits in front of a unit, and the
    product, which is [n], fits them too; anything else is refused. What is printed
    with a unit is read back. *)
Theorem parse_duration_exact text n :
  (parse_duration text = Some n <->
   exists digits unit value k, text = digits +:+ unit /\ str_all is_ascii_digit digits = true /\
     parse_unsigned u64_max digits = Some value /\ unit_seconds unit = Some k /\ value * k <= u64_max /\ n = value * k) /\
  forall unit k value, unit_seconds unit = Some k -> value * k <= u64_max ->
    parse_duration (show_N value +:+ unit) = Some (value * k).
Proof.
  assert (H : forall text n, parse_duration text = Some n <->
    exists digits unit value k, text = digits +:+ unit /\ str_all is_ascii_digit digits = true /\
     parse_unsigned u64_max digits = Some value /\ unit_seconds unit = Some k /\ value * k <= u64_max /\ n = value * k).
  { clear. intros text n. unfold parse_duration. destruct (split_digits text) as [digits unit] eqn:E.
    pose proof E as (Ht & Hd & Hu)%split_digits_spec. split.
    - destruct (str_is_empty unit); [done|]. destruct (parse_unsigned u64_max digits) as [value|] eqn:Ev; [|done]. cbn.
      intros H. exists digits, unit, value. unfold unit_seconds. repeat case_match; try done.
      + injection H as <-. pose proof (Literal.parse_unsigned_le _ _ _ Ev). exists 1. repeat split; try done; lia.
      + unfold checked_mul in H. destruct (N.leb_spec (value * 60) u64_max); [|done]. injection H as <-. eauto 10.
      + unfold checked_mul in H. destruct (N.leb_spec (value * 3600) u64_max); [|done]. injection H as <-. eauto 10.
      + unfold checked_mul in H. destruct (N.leb_spec (value * 86400) u64_max); [|done]. injection H as <-. eauto 10.
    - intros (ds & u & value & k & Ht' & Hds & Hv & Hk & Hle & ->).
      apply unit_seconds_some in Hk.
      assert (E' : split_digits text = (ds, u)) by (apply split_digits_spec; repeat split; [done..|by naive_solver]).
      rewrite E in E'. injection E' as -> ->. unfold checked_mul. rewrite Hv.
      destruct Hk as [[-> ->]|[[-> ->]|[[-> ->]|[-> ->]]]]; cbn -[N.mul N.leb u64_max];
        rewrite ?(proj2 (N.leb_le _ _) Hle), ?N.mul_1_r; done. }
  split; [apply H|]. intros unit k value Hk Hle. apply H. exists (show_N value), unit, value, k.
  split; [done|]. split; [apply show_N_digits|]. split; [|done]. apply parse_show_N.
  apply unit_seconds_some in Hk. nia.
Qed.

(** ** The resolved configuration *)

Section Resolve.
Context `{K : Knead} {SD : SectionDecoders} {WD : WebDecoders} {DD : Decode DefenseInput}.
Context {NA : IpNetworkApi} {NL : IpNetworkLaws} {RX : RegexApi} {RL : RegexLaws}.
Context {JS : JsonApi} {TM : TimeApi} {SC : StoreCodec} {SL : StoreCodecLaws}.
Variables (default_dirs : string * string) (read_dir : ReadDir) (read_file : string -> result string string).

Lemma key_sorted_nodup_names (l : list string) : StronglySorted key_lt l -> NoDup l.
Proof.
  induction 1 as [|x l _ IH Hx]; constructor; [|done]. intros Hin.
  rewrite Forall_forall in Hx. by destruct (Hx x Hin) as [? []].
Qed.
Lemma insert_named_sorted {A V} offset what (value : A -> V) m l m' :
  insert_named offset what value m l = Ok m' -> bt_sorted m -> bt_sorted m'.
Proof.
  revert m. induction l as [|x l IH]; intros m; cbn; [by intros [= <-]|].
  destruct (is_some _); [done|]. intros H Hm. eapply IH; [exact H|]. by apply bt_insert_sorted.
Qed.
(** The sources and policies of a document have one entry for each name. *)
Definition maps_sorted (d : Config) : Prop := bt_sorted (sources d) /\ bt_sorted (policies d).
Lemma parse_defense_sorted node d : parse_defense default_dirs node = Ok d -> maps_sorted d.
Proof.
  unfold parse_defense. destruct (negb _); [done|]. intros H. inv_result.
  split; (eapply insert_named_sorted; [eassumption|constructor]).
Qed.
Lemma bagel_nodes_sorted seen web d nodes b :
  bagel_nodes default_dirs read_dir seen web d nodes = Ok b -> maps_sorted d -> maps_sorted (bg_defense b).
Proof.
  revert seen web d. induction nodes as [|n nodes IH]; intros seen web d; cbn; [by intros [= <-]|].
  destruct (reject_repeated seen n) as [seen'|]; [|done]. cbn. destruct (String.eqb _ _).
  - intros H Hd. apply bind_ok in H as (d' & Hp & H). eapply IH; [exact H|]. by eapply parse_defense_sorted.
  - intros H Hd. apply bind_ok in H as ([w known] & Hp & H). destruct known; [|done]. by eapply IH.
Qed.
Lemma default_sorted : maps_sorted (default_config default_dirs).
Proof. unfold maps_sorted, default_config. destruct default_dirs. split; constructor. Qed.

Lemma proxy_protocol_trusted config :
  validate_config config = Ok tt -> proxy_protocol config = true -> trusted_proxies config <> [].
Proof.
  unfold validate_config. intros H Hp. do 5 (apply bind_ok in H as (? & _ & H)).
  apply bind_ok in H as (? & Ht%fail_if_ok & _). rewrite Hp in Ht. by apply bool_decide_eq_false in Ht.
Qed.

Definition layered (b : Bagel) (args : Args) : Bagel := share_plane_settings {|
  bg_web := match a_trusted_proxy args with
            | [] => bg_web b
            | proxies => with_web_proxies (bg_web b) (Some proxies) (wc_deception (bg_web b))
            end;
  bg_defense := apply_args (bg_defense b) args |}.
Lemma resolve_layers args b :
  bagel_resolve default_dirs read_dir read_file args = Ok b ->
  exists b0, maps_sorted (bg_defense b0) /\ b = layered b0 args /\
    validate_config (bg_defense b) = Ok tt /\ validate_planes (web_trust (bg_web b)) (bg_defense b) = Ok tt.
Proof.
  unfold bagel_resolve. intros H. apply bind_ok in H as (b0 & Hb0 & H).
  apply bind_ok in H as ([] & Hv & H). apply bind_ok in H as ([] & Hp & H). injection H as <-.
  exists b0. split; [|by split].
  destruct (a_config args) as [path|]; [|injection Hb0 as <-; apply default_sorted].
  unfold bagel_load, bagel_parse in Hb0. apply bind_ok in Hb0 as (text & _ & Hb0). apply bind_ok in Hb0 as (nodes & _ & Hb0).
  destruct (bagel_nodes _ _ _ _ _ _) as [b1|] eqn:E; [|done]. injection Hb0 as <-.
  eapply bagel_nodes_sorted; [exact E|apply default_sorted].
Qed.

(** What [Bagel::resolve] accepts is consistent across the planes. Both planes
    trust the same proxies, those of the command line when it names any; a forwarded
    address, a relayed fingerprint or a PROXY header is only read with proxies to
    trust; the defense plane is validated as a whole, its names are unique, and it
    has one web source at most; the deception directories are set. *)
Theorem resolve_consistent args b :
  bagel_resolve default_dirs read_dir read_file args = Ok b ->
  trusted_proxies (bg_defense b) = default [] (wc_trusted_proxies (bg_web b)) /\
  (a_trusted_proxy args <> [] -> wc_trusted_proxies (bg_web b) = Some (a_trusted_proxy args)) /\
  (wc_trusted_proxies (bg_web b) = None ->
   wc_client_ip_header (bg_web b) = None /\ wc_client_tls_header (bg_web b) = None /\
   bd_proxy_protocol (wc_bind (bg_web b)) = false /\ proxy_protocol (bg_defense b) = false) /\
  validate_config (bg_defense b) = Ok tt /\
  NoDup (sources (bg_defense b)).*1 /\ NoDup (policies (bg_defense b)).*1 /\
  (length (List.filter (fun ns => is_web ns.2) (sources (bg_defense b))) <= 1)%nat /\
  is_Some (dc_corpora (wc_deception (bg_web b))) /\ is_Some (dc_scripts (wc_deception (bg_web b))).
Proof.
  intros H. apply resolve_layers in H as (b0 & [Hs Hp] & Hb & Hv & Hpl).
  unfold validate_planes in Hpl. apply bind_ok in Hpl as ([] & Ht & Hw%fail_if_ok).
  split; [by rewrite Hb|]. split; [rewrite Hb; cbn; by destruct (a_trusted_proxy args)|]. split; [|split; [done|]].
  - intros Hnone. unfold validate_web_trust in Ht. cbn in Ht. rewrite Hnone in Ht.
    apply bind_ok in Ht as ([] & H1%fail_if_ok & Ht). apply bind_ok in Ht as ([] & H2%fail_if_ok & Ht%fail_if_ok).
    apply bool_decide_eq_false, eq_None_not_Some in H1, H2.
    split; [exact H1|]. split; [by destruct (wc_client_tls_header _)|]. split; [exact Ht|].
    destruct (proxy_protocol (bg_defense b)) eqn:E; [|done]. exfalso. apply (proxy_protocol_trusted _ Hv E).
    rewrite Hb. cbn. rewrite Hb in Hnone. cbn in Hnone. by rewrite Hnone.
  - rewrite Hb. cbn. split; [by apply key_sorted_nodup_names|]. split; [by apply key_sorted_nodup_names|].
    rewrite Hb in Hw. cbn in Hw. apply N.ltb_ge in Hw. split; [lia|]. split; by case_match; eexists.
Qed.

(** The defense plane of what [Bagel::resolve] accepts starts: it opens on every
    database the store can reach, and every listener with a policy can then record
    an offense. *)
Theorem resolved_daemon_starts args b db :
  bagel_resolve default_dirs read_dir read_file args = Ok b -> formats_known (bg_defense b) -> store_reachable db ->
  exists d, defense_open (bg_defense b) db = Ok d /\
    forall listener p env locals address, listener ∈ listeners (bg_defense b) -> l_policy listener = Some p ->
      env_local env = Ok locals -> exists event d', listener_event env p address d = (Ok event, d').
Proof.
  intros H Hf Hr. apply resolve_layers in H as (b0 & [Hs _] & Hb & Hv & _).
  destruct (defense_open_ok (bg_defense b) db Hv Hf) as [d Hd]; [by apply reachable_wf|].
  exists d. split; [done|]. intros listener p env locals address Hl Hp He.
  eapply listener_records; [exact Hv| |exact Hd|done|done|done]. rewrite Hb. cbn. by apply key_sorted_nodup_names.
Qed.
End Resolve.

(** ** Names *)

Section Names.
Context `{K : Knead} {SD : SectionDecoders}.

Lemma unique_go_ok {A} offset what (name : A -> string) seen items u :
  unique_go offset what name seen items = Ok u <-> NoDup (name <$> items) /\ Forall (fun a => name a ∉ seen) items.
Proof.
  destruct u. revert seen. induction items as [|a items IH]; intros seen; cbn; [split; [by repeat constructor|done]|].
  rewrite NoDup_cons, Forall_cons. case_bool_decide as Ha; [naive_solver|]. rewrite IH. split.
  - intros [Hnd Hf]. rewrite Forall_forall in Hf. split; [split; [|done]|split; [done|]].
    + intros (a' & He & Ha')%list_elem_of_fmap. apply (Hf a' Ha'). rewrite <- He. set_solver.
    + apply Forall_forall. intros a' Ha'. specialize (Hf a' Ha'). set_solver.
  - intros ([Hn Hnd] & _ & Hf). split; [done|]. rewrite Forall_forall in *. intros a' Ha'.
    rewrite not_elem_of_union, not_elem_of_singleton. split; [|by apply Hf]. intros He. apply Hn.
    rewrite <- He. by apply list_elem_of_fmap_2.
Qed.
Lemma unique_ok {A} offset what (items items' : list A) name :
  unique offset what items name = Ok items' <-> items' = items /\ NoDup (name <$> items).
Proof.
  unfold unique. split.
  - intros H. apply bind_ok in H as ([] & [Hnd _]%unique_go_ok & [= <-]). done.
  - intros [-> Hnd]. rewrite (proj2 (unique_go_ok offset what name ∅ items tt)); [done|]. split; [done|].
    apply Forall_forall. intros a _. apply not_elem_of_empty.
Qed.
Lemma unique_error {A} offset what (items : list A) name e :
  unique offset what items name = Err e -> ~ NoDup (name <$> items) /\ exists message, e = Error.config_at offset message.
Proof.
  intros H. split.
  - intros Hnd. by rewrite (proj2 (unique_ok offset what items items name)) in H.
  - unfold unique in H. assert (Hg : forall seen, unique_go offset what name seen items = Err e ->
      exists message, e = Error.config_at offset message).
    { clear H. induction items as [|a items IH]; intros seen; cbn; [done|]. case_bool_decide; [intros [= <-]; by eexists|apply IH]. }
    destruct (unique_go offset what name ∅ items) eqn:E; [done|]. injection H as <-. by eapply Hg.
Qed.

(** The names a policy defines, of each kind. *)
Definition names_unique (p : PolicyConfig) : Prop :=
  NoDup (nw_name <$> pc_networks p) /\ NoDup (ch_name <$> pc_challenges p) /\ NoDup (rc_name <$> pc_rules p) /\
  NoDup (cc_name <$> from_option cfg_scorecards [] (pc_scoring p)) /\ NoDup (mz_name <$> pc_mazes p) /\
  NoDup (rd_name <$> pc_renderers p) /\ NoDup (cr_name <$> pc_crawlers p) /\
  Forall (fun card => NoDup (sc_name <$> cc_signals card)) (from_option cfg_scorecards [] (pc_scoring p)).

Lemma rule_config_name i : rc_name (rule_config i) = ri_name i.
Proof.
  destruct i as [name c a h pa fa m r b z k d children]. cbn [rule_config ri_children ri_name].
  match goal with |- rc_name (?go children ?start) = _ =>
    assert (H : forall rule, rc_name (go children rule) = rc_name rule); [|apply H] end.
  induction children as [|x children IH]; intros rule; [done|]. cbn. by rewrite IH.
Qed.
Lemma traverse_names {A B} (f : A -> Result B) (n : A -> string) (n' : B -> string) l l' :
  (forall a b, f a = Ok b -> n' b = n a) -> traverse f l = Ok l' -> n' <$> l' = n <$> l.
Proof.
  intros Hf H%traverse_ok. induction H as [|a b l l' Hab _ IH]; [done|]. cbn. by rewrite IH, (Hf _ _ Hab).
Qed.
(** A section fills one field of a policy. *)
Definition section_of (name : string) (p : PolicyConfig) : Prop :=
  (name <> "networks" -> pc_networks p = []) /\ (name <> "challenges" -> pc_challenges p = []) /\
  (name <> "rules" -> pc_rules p = []) /\ (name <> "scoring" -> pc_scoring p = None) /\
  (name <> "mazes" -> pc_mazes p = []) /\ (name <> "renderers" -> pc_renderers p = []) /\
  (name <> "crawlers" -> pc_crawlers p = []).
Lemma network_config_name offset a b : network_config offset a = Ok b -> nw_name b = ni_name a.
Proof. unfold network_config. intros H. by inv_result. Qed.
Lemma scorecard_config_name offset a b :
  scorecard_config offset a = Ok b -> cc_name b = si_name a /\ NoDup (sc_name <$> cc_signals b).
Proof. unfold scorecard_config. intros H. apply bind_ok in H as (s & [-> Hs]%unique_ok & [= <-]). done. Qed.
Lemma from_section_unique node p : from_section node = Ok p -> section_of (node_name node) p /\ names_unique p.
Proof.
  unfold from_section, section_of, names_unique. cbv zeta.
  repeat match goal with
  | |- (if String.eqb (node_name node) ?name then _ else _) = _ -> _ =>
      destruct (String.eqb_spec (node_name node) name) as [->|];
        [intros H; repeat match type of H with (_ ≫= _) = Ok _ => apply bind_ok in H as (? & ? & H) end; injection H as <-;
         cbn; repeat match goal with H : unique _ _ _ _ = Ok _ |- _ => apply unique_ok in H as [-> ?] end;
         (split; [naive_solver|]); repeat split; try apply NoDup_nil_2; try done|]
  end; [..|done].
  - by erewrite traverse_names; [|apply network_config_name|eassumption].
  - by rewrite <- list_fmap_compose.
  - rewrite <- list_fmap_compose. erewrite list_fmap_ext; [eassumption|]. intros i r _. apply rule_config_name.
  - by erewrite (traverse_names (scorecard_config (node_offset node)) si_name);
      [|intros a b Hab; by apply (scorecard_config_name _ _ _ Hab)|eassumption].
  - match goal with H : traverse _ _ = Ok _ |- _ => apply traverse_ok in H; revert H end.
    clear. intros Ht. induction Ht as [|? ? ? ? Hab]; [constructor|]. constructor; [|done].
    by apply scorecard_config_name in Hab as [_ Hs].
  - by rewrite <- list_fmap_compose.
  - by rewrite <- list_fmap_compose.
Qed.

Lemma merge_names (name : string) policy section :
  section_of name section -> names_unique policy -> names_unique section ->
  (name = "networks" -> pc_networks policy = []) -> (name = "challenges" -> pc_challenges policy = []) ->
  (name = "rules" -> pc_rules policy = []) -> (name = "scoring" -> pc_scoring policy = None) ->
  (name = "mazes" -> pc_mazes policy = []) -> (name = "renderers" -> pc_renderers policy = []) ->
  (name = "crawlers" -> pc_crawlers policy = []) ->
  names_unique (policy_merge policy section).
Proof.
  intros (S1 & S2 & S3 & S4 & S5 & S6 & S7) (P1 & P2 & P3 & P4 & P5 & P6 & P7 & P8) (Q1 & Q2 & Q3 & Q4 & Q5 & Q6 & Q7 & Q8).
  intros E1 E2 E3 E4 E5 E6 E7. unfold names_unique. cbn [policy_merge pc_networks pc_challenges pc_rules pc_scoring pc_mazes pc_renderers pc_crawlers].
  assert (Hone : forall {A} (k : string) (l l' : list A) (n : A -> string), (name <> k -> l' = []) -> (name = k -> l = []) ->
    NoDup (n <$> l) -> NoDup (n <$> l') -> NoDup (n <$> (l ++ l'))).
  { intros A k l l' n H1 H2 Hl Hl'. destruct (decide (name = k)) as [Hk|Hk].
    - by rewrite (H2 Hk).
    - by rewrite (H1 Hk), app_nil_r. }
  split; [by eapply (Hone _ "networks")|]. split; [by eapply (Hone _ "challenges")|]. split; [by eapply (Hone _ "rules")|].
  assert (Hs : merge_scoring (pc_scoring policy) (pc_scoring section) = pc_scoring policy \/
               merge_scoring (pc_scoring policy) (pc_scoring section) = pc_scoring section).
  { destruct (decide (name = "scoring")) as [Hk|Hk].
    - rewrite (E4 Hk). right. by destruct (pc_scoring section).
    - rewrite (S4 Hk). by left. }
  split; [by destruct Hs as [->| ->]|]. split; [by eapply (Hone _ "mazes")|]. split; [by eapply (Hone _ "renderers")|].
  split; [by eapply (Hone _ "crawlers")|]. by destruct Hs as [->| ->].
Qed.
(** What the sections read so far have filled. *)
Definition filled_by (seen : gset string) (p : PolicyConfig) : Prop := forall name, name ∉ seen ->
  (name = "networks" -> pc_networks p = []) /\ (name = "challenges" -> pc_challenges p = []) /\
  (name = "rules" -> pc_rules p = []) /\ (name = "scoring" -> pc_scoring p = None) /\
  (name = "mazes" -> pc_mazes p = []) /\ (name = "renderers" -> pc_renderers p = []) /\
  (name = "crawlers" -> pc_crawlers p = []).
Lemma filled_merge seen name policy section :
  filled_by seen policy -> section_of name section -> filled_by ({[name]} ∪ seen) (policy_merge policy section).
Proof.
  intros Hf (S1 & S2 & S3 & S4 & S5 & S6 & S7) k Hk. apply not_elem_of_union in Hk as [Hk Hs].
  rewrite not_elem_of_singleton in Hk. destruct (Hf k Hs) as (F1 & F2 & F3 & F4 & F5 & F6 & F7).
  cbn. repeat split; intros ->; rewrite ?S1, ?S2, ?S3, ?S4, ?S5, ?S6, ?S7, ?app_nil_r by congruence; auto.
Qed.
Lemma from_children_unique seen policy nodes p :
  from_children seen policy nodes = Ok p -> names_unique policy -> filled_by seen policy -> names_unique p.
Proof.
  revert seen policy. induction nodes as [|n nodes IH]; intros seen policy; cbn; [by intros [= <-]|].
  case_bool_decide as Hn; [done|]. intros H Hp Hf. apply bind_ok in H as (section & Hs & H).
  apply from_section_unique in Hs as [Hsec Hu]. eapply IH; [exact H| |by apply filled_merge].
  destruct (Hf _ Hn) as (F1 & F2 & F3 & F4 & F5 & F6 & F7). by eapply merge_names.
Qed.

(** A policy has unique names. In what a [policy] node becomes no two networks,
    challenges, rules, scorecards, mazes, renderers or crawlers share a name, nor do
    two signals of a scorecard. *)
Theorem policy_names_unique node p : from_kdl node = Ok p -> names_unique p.
Proof.
  intros H. eapply from_children_unique; [exact H| |].
  - repeat split; constructor.
  - intros name _. by repeat split.
Qed.
End Names.

(** ** Examples

    A document is one node named by its whole text, without arguments; a node of the
    examples has text arguments and children. *)

Module TextDocument.
Inductive Toy : Type := MkToy (name : string) (offset : N) (args : list string) (nodes : list Toy).
Definition toy_name (t : Toy) : string := match t with MkToy name _ _ _ => name end.
Definition toy_args (t : Toy) : list string := match t with MkToy _ _ args _ => args end.
Definition toy_nodes (t : Toy) : list Toy := match t with MkToy _ _ _ nodes => nodes end.
Definition toy_span (t : Toy) : Span := match t with MkToy name offset _ _ => (offset, N.of_nat (String.length name)) end.
Definition scalar (s : string) : Scalar := {| sv_type := None; sv_literal := LString s; sv_span := (0, N.of_nat (String.length s)) |}.
Definition document : Knead := {|
  Node := Toy; node_name := toy_name; node_span := toy_span; node_children := toy_nodes;
  knead_parse := fun text => Ok [MkToy text 0 [] []];
  Decoder := Toy; decoder_new := fun n => n;
  decoder_arguments := fun d => scalar <$> toy_args d;
  decoder_advance := fun d => match d with MkToy name offset args nodes => MkToy name offset (tail args) nodes end;
  decoder_property := fun _ d => (None, d);
  decoder_child := fun _ d => (Ok None, d);
  decoder_span := toy_span;
  decoder_name := fun d => (toy_name d, toy_span d);
  decoder_set_name := fun n d => match d with MkToy _ offset args nodes => MkToy n.1 offset args nodes end;
  decoder_finish := fun _ => Ok tt;
  kn_run := fun A f n => (f n).1;
  show_decode_error := de_message |}.
#[export] Existing Instance document.
Definition refused {A} : Decode A := fun d => (Err (decode_error Missing (toy_span d) "no such input"), d).
(** A rule for each child of a section. *)
Definition plain_rule (name : string) : RuleInput :=
  MkRuleInput name None "deny" None None None None None None None None None [].
Definition sections : SectionDecoders := {|
  networks_decode := refused; prelude_decode := refused; challenges_decode := refused;
  rules_decode := fun d => (Ok {| rules_of := plain_rule <$> (toy_name <$> toy_nodes d) |}, d);
  scoring_decode := refused; mazes_decode := fun d => (Ok {| mazes_of := [] |}, d); renderers_decode := refused;
  crawlers_decode := refused |}.
#[export] Existing Instance sections.
Definition text_scalar : DecodeScalar string :=
  fun v => match sv_literal v with LString s => Ok s | _ => Err (decode_error TypeMismatch (sv_span v) "text") end.
Definition web : WebDecoders := {|
  client_tls_decode := refused; link_list_decode := refused; backend_list_decode := refused; string_list_decode := refused;
  deception_decode := refused; smear_decode := refused; tls_input_decode := refused; bind_input_decode := refused;
  string_decode := text_scalar;
  u16_decode := fun v => match sv_literal v with
                         | LString s => ok_or (decode_error TypeMismatch (sv_span v) "number") (parse_unsigned 65535 s)
                         | _ => Err (decode_error TypeMismatch (sv_span v) "number") end |}.
#[export] Existing Instance web.
(** The defense plane of the examples of [DefenseFacts]. *)
Definition defense_input : DefenseInput := {|
  di_metrics_addr := metrics_addr example_config; di_disable_metrics := false; di_admin_socket := "/run/admin.sock";
  di_disable_admin := false; di_store := database_path example_config;
  di_history_retention_secs := history_retention_secs example_config; di_journalctl := "journalctl"; di_nft := "nft";
  di_protected_networks := protected_networks example_config; di_no_block_networks := no_block_networks example_config;
  di_whitelist_networks := whitelist_networks example_config; di_trap_patterns := []; di_trap_user_agents := [];
  di_max_connections := max_connections example_config; di_drain_timeout_secs := 10; di_proxy_protocol := false;
  di_firewall := true; di_data_dir := "/d"; di_cache_dir := "/c"; di_tarpit := tarpit_default example_config;
  di_enforcement := enforcement example_config; di_verified_crawlers := None;
  di_sources := [{| nm_name := "tarpit"; nm_value := {| tagged_of := Source.Listener "ssh" |} |}];
  di_listeners := listeners example_config;
  di_policies := [{| nm_name := "trap"; nm_value := {|
    pi_source := "tarpit"; pi_max_attempts := 1; pi_findtime_secs := 600; pi_ignore_networks := [];
    pi_detector := {| tagged_of := JsonInput [] "/address" None None None |}; pi_ban := steady_schedule;
    pi_action := {| tagged_of := Action.Drop Tcp [22] |} |} |}] |}.
Definition defense : Decode DefenseInput := fun d => (Ok defense_input, d).
#[export] Existing Instance defense.

Definition dirs : string * string := ("/run/bagel", "/var/cache/bagel").
Definition directory : ReadDir := fun _ => Ok [("b.kdl", Ok "mazes"); ("README", Err "denied"); ("a.kdl", Ok "rules")].
Definition relisted : ReadDir := fun _ => Ok [("a.kdl", Ok "rules"); ("b.kdl", Ok "mazes")].
Definition rules_node : Toy := MkToy "policy" 7 [] [MkToy "rules" 9 [] [MkToy "probe" 12 [] []; MkToy "wp" 20 [] []]].
Definition dir_node : Toy := MkToy "policy-dir" 0 ["/etc/bagel"] [].
Definition code_node : Toy := MkToy "challenge-http-code" 3 ["403"] [].
Definition read (ns : list Toy) : Result Bagel :=
  bagel_nodes dirs (fun _ => Ok [("a.kdl", Ok "rules")]) ∅ web_default (default_config dirs) ns.
Definition code_of (r : Result Bagel) : option (N * list string) :=
  match r with Ok b => Some (wc_challenge_http_code (bg_web b), rc_name <$> pc_rules (wc_policy (bg_web b))) | Err _ => None end.
Example documents :
  code_of (read [code_node; rules_node]) = Some (403, ["probe"; "wp"]) /\
  code_of (read [rules_node; rules_node]) = None /\
  code_of (read [dir_node; dir_node; code_node]) = Some (403, []) /\
  map parse_duration ["90s"; "2h"; "h"; "7w"; "400000000000000000000s"; "18446744073709551615m"] =
    [Some 90; Some 7200; None; None; None; None].
Proof. repeat split; vm_refl. Qed.
End TextDocument.

Section ConfigWitness.
Import TextDocument.
#[local] Existing Instances cidr_api cidr_laws Literal.regex Literal.regex_laws Literal.json Literal.time
  TextCodec.codec TextCodec.codec_laws.

Lemma document_order_witness :
  read [rules_node; code_node] = Ok (from_ok (read [code_node; rules_node]) ltac:(vm_refl)).
Proof.
  apply (document_order (K := document) (SD := sections) (WD := web) (DD := defense) dirs _ [code_node; rules_node]); [reflexivity|].
  split; [|reflexivity]. constructor.
Defined.
Lemma policy_dir_discarded_witness :
  read ([] ++ [code_node] ++ rules_node :: []) = Ok (from_ok (read [dir_node; code_node; rules_node]) ltac:(vm_refl)).
Proof.
  apply (policy_dir_discarded (K := document) (SD := sections) (WD := web) (DD := defense) dirs _ [] dir_node [code_node] rules_node []);
    reflexivity.
Defined.
Lemma load_dir_order_witness : load_dir directory "/etc/bagel" = load_dir relisted "/etc/bagel".
Proof.
  apply (load_dir_order (K := document) (SD := sections) directory relisted "/etc/bagel" _ _ eq_refl eq_refl).
  - cbn. repeat (constructor; [set_solver|]). constructor.
  - constructor.
Defined.
Lemma policy_names_unique_witness :
  rc_name <$> pc_rules (from_ok (from_kdl rules_node) ltac:(vm_refl)) = ["probe"; "wp"] /\
  names_unique (from_ok (from_kdl rules_node) ltac:(vm_refl)).
Proof.
  split; [reflexivity|]. apply (policy_names_unique (K := document) (SD := sections) rules_node). reflexivity.
Defined.

Definition example_args : Args := {|
  a_config := Some "/etc/bagel.kdl"; a_check_config := false; a_generate_key := false; a_key_seed := None;
  a_key_seed_file := None; a_metrics_addr := None; a_disable_metrics := false; a_admin_socket := None;
  a_disable_admin := false; a_min_delay_ms := None; a_max_delay_ms := None; a_max_tarpit_secs := None;
  a_max_tarpit_conns := None; a_max_connections := None; a_proxy_protocol := false; a_trusted_proxy := ["10.0.0.0/8"];
  a_disable_firewall := false; a_base_dir := None; a_log_level := "info" |}.
Definition example_bagel : Bagel :=
  from_ok (bagel_resolve dirs directory (fun _ => Ok "defense") example_args) ltac:(vm_refl).
Lemma resolve_consistent_witness :
  wc_trusted_proxies (bg_web example_bagel) = Some ["10.0.0.0/8"] /\ (sources (bg_defense example_bagel)).*1 = ["tarpit"].
Proof.
  destruct (resolve_consistent dirs directory (fun _ => Ok "defense") example_args example_bagel) as (_ & H & _); [reflexivity|].
  split; [by apply H|reflexivity].
Defined.
Lemma resolved_daemon_starts_witness :
  exists d, defense_open (bg_defense example_bagel) example_db2 = Ok d.
Proof.
  destruct (resolved_daemon_starts dirs directory (fun _ => Ok "defense") example_args example_bagel example_db2) as (d & Hd & _);
    [reflexivity|by repeat constructor|exact example_reachable|]. by exists d.
Defined.
End ConfigWitness.
