(* ===== verification/ProxyFacts.v ===== *)
(** * Backends and forwarded requests: theorems

    Which backend a host gets, which headers reach it, and what a client can and
    cannot say in the headers that bagel writes. *)

From S2P Require Import Prelude Core Strings Ip Proto Url Host.
From S2P Require Import Rule Wire Tls TlsEdge Proxy.

Local Open Scope N_scope.

(** ** The pool *)

(** The hosts a pattern covers, and how narrowly. *)
Definition covers (p : HostPattern) (host : string) : bool :=
  match p with AnyHost => true | Suffix s => ends_with s host | OneHost s => String.eqb s host end.
Definition rank (p : HostPattern) : nat :=
  match p with AnyHost => 0 | Suffix s => S (String.length s) | OneHost s => S (S (String.length s)) end.

Lemma ends_with_app s host : ends_with s host = true -> exists r, host = r +:+ s.
Proof.
  unfold ends_with. destruct (strip_suffix s host) as [r|] eqn:E; [|done]. intros _. exists r. by apply strip_suffix_some.
Qed.
Lemma suffix_unique s t host :
  ends_with s host = true -> ends_with t host = true -> String.length s = String.length t -> s = t.
Proof.
  intros (r & ->)%ends_with_app (q & H)%ends_with_app Hl. apply (f_equal string_chars) in H.
  rewrite !string_chars_app in H. apply app_inj_2 in H as [_ H].
  - by rewrite <- (chars_string_chars s), H, chars_string_chars.
  - by rewrite !length_string_chars.
Qed.

Section Pool.
Context {U : UriApi} {UP : UriParts} {HA : HeaderApi} {HT : HeaderText}.
Variable default_theme : CustomTheme.

(** What a configuration becomes. *)
Definition entry_of (cfg : BackendConfig) (e : HostPattern * Backend) : Prop :=
  host_pattern (bk_name cfg) = Ok e.1 /\ backend_of default_theme cfg = Ok e.2.
Definition exact_of (e : HostPattern * Backend) : option (string * Backend) :=
  match e.1 with OneHost s => Some (s, e.2) | _ => None end.
Definition suffix_of (e : HostPattern * Backend) : option (string * Backend) :=
  match e.1 with Suffix s => Some (s, e.2) | _ => None end.
Definition fallback_of (e : HostPattern * Backend) : option Backend :=
  match e.1 with AnyHost => Some e.2 | _ => None end.

Lemma backend_of_config cfg b : backend_of default_theme cfg = Ok b -> be_config b = cfg.
Proof.
  unfold backend_of. intros (target & _ & H)%bind_ok. destruct (_ || _); [done|]. destruct (_ || _); [done|].
  apply bind_ok in H as (h & _ & H). by apply bind_ok in H as (i & _ & [= <-]).
Qed.

(** The pool after a list of configurations, none of whose keys repeats. *)
Lemma add_backends_entries b configs b' :
  add_backends default_theme b configs = Ok b' ->
  exists es, Forall2 entry_of configs es /\
    bp_exact (bd_pool b') = bp_exact (bd_pool b) ++ omap exact_of es /\
    bp_wildcard (bd_pool b') = bp_wildcard (bd_pool b) ++ omap suffix_of es /\
    (bp_fallback (bd_pool b') = None <-> bp_fallback (bd_pool b) = None /\ omap fallback_of es = []) /\
    (forall f, bp_fallback (bd_pool b') = Some f -> bp_fallback (bd_pool b) = Some f \/ f ∈ omap fallback_of es) /\
    NoDup ((fun e => pattern_key e.1) <$> es) /\
    forall e, e ∈ es -> pattern_key e.1 ∉ bd_seen b.
Proof.
  revert b. induction configs as [|cfg configs IH]; intros b; cbn [add_backends].
  - intros [= <-]. exists []. cbn. rewrite !app_nil_r. repeat split; try done; try tauto; [constructor|].
    by intros e ?%elem_of_nil.
  - intros (b1 & H1 & H2)%bind_ok. unfold add_backend in H1.
    apply bind_ok in H1 as (backend & Hb & H1). apply bind_ok in H1 as (pattern & Hp & H1).
    case_bool_decide as Hs; [done|]. injection H1 as <-.
    destruct (IH _ H2) as (es & Hes & He & Hw & Hf & Hf' & Hn & Hseen). clear IH H2.
    cbn [bd_pool bd_seen] in *. exists ((pattern, backend) :: es).
    split; [by constructor|]. repeat split.
    + rewrite He. by destruct pattern; cbn; rewrite <- ?app_assoc.
    + rewrite Hw. by destruct pattern; cbn; rewrite <- ?app_assoc.
    + destruct pattern; cbn in *; naive_solver.
    + destruct pattern; cbn in *; naive_solver.
    + intros [Hf1 Hf2]. apply Hf. destruct pattern; cbn in *; naive_solver.
    + intros f Hff. destruct (Hf' f Hff) as [H|H]; destruct pattern; cbn in *; try (by left); try (by right).
      * injection H as <-. right. by left.
      * right. by right.
    + rewrite fmap_cons. constructor; [|done]. intros (e & Hk & Hin)%list_elem_of_fmap.
      apply (Hseen e Hin). rewrite <- Hk. set_solver.
    + intros e [->|Hin]%elem_of_cons; [done|]. intros Hin'. apply (Hseen e Hin). set_solver.
Qed.

Lemma insert_by_length_perm x l : Permutation (insert_by_length x l) (x :: l).
Proof. induction l as [|y l IH]; cbn; [done|]. destruct (_ <=? _)%nat; [done|]. rewrite IH. constructor. Qed.
Lemma sort_by_length_perm l : Permutation (sort_by_length l) l.
Proof. induction l as [|x l IH]; [done|]. cbn. by rewrite insert_by_length_perm, IH. Qed.

Definition longer (x y : string * Backend) : Prop := (String.length y.1 <= String.length x.1)%nat.
Lemma insert_by_length_sorted x l : StronglySorted longer l -> StronglySorted longer (insert_by_length x l).
Proof.
  induction 1 as [|y l Hs IH Hy]; cbn; [by repeat constructor|].
  destruct (Nat.leb_spec (String.length y.1) (String.length x.1)) as [Hl|Hl].
  - repeat constructor; [done|done|done|]. eapply Forall_impl; [exact Hy|]. unfold longer. intros z ?. lia.
  - constructor; [done|]. rewrite insert_by_length_perm. constructor; [unfold longer; lia|done].
Qed.
Lemma sort_by_length_sorted l : StronglySorted longer (sort_by_length l).
Proof. induction l as [|x l IH]; cbn; [constructor|by apply insert_by_length_sorted]. Qed.

(** In a sorted list the first of a predicate is among the longest. *)
Lemma find_longest (p : string * Backend -> bool) l e :
  StronglySorted longer l -> list_find_bool p l = Some e -> forall e', e' ∈ l -> p e' = true -> longer e e'.
Proof.
  intros Hs. induction Hs as [|x l Hs IH Hx]; cbn; [done|]. destruct (p x) eqn:Ep.
  - intros [= <-] e' [->|Hin]%elem_of_cons _; [unfold longer; lia|]. by apply (proj1 (Forall_forall _ _) Hx).
  - intros Hf e' [->|Hin]%elem_of_cons Hp; [congruence|]. by apply IH.
Qed.

(** The entries a pool was built from. *)
Lemma pool_build_entries configs pool :
  pool_build configs default_theme = Ok pool ->
  exists es, Forall2 entry_of configs es /\ NoDup ((fun e => pattern_key e.1) <$> es) /\
    bp_exact pool = omap exact_of es /\ bp_wildcard pool = sort_by_length (omap suffix_of es) /\
    (bp_fallback pool = None <-> omap fallback_of es = []) /\
    (forall f, bp_fallback pool = Some f -> f ∈ omap fallback_of es).
Proof.
  unfold pool_build. intros (b & Hb & [= <-])%bind_ok.
  destruct (add_backends_entries _ _ _ Hb) as (es & Hes & He & Hw & Hf & Hf' & Hn & _). cbn in *.
  exists es. rewrite Hw, He. repeat split; try done; [tauto|tauto|]. intros f [H|H]%Hf'; [done|done].
Qed.

Lemma elem_of_exact (es : list (HostPattern * Backend)) s (b : Backend) : (s, b) ∈ omap exact_of es <-> (OneHost s, b) ∈ es.
Proof.
  rewrite list_elem_of_omap. split; [|by intros H; exists (OneHost s, b)].
  intros ([p b'] & Hin & H). destruct p; cbn in H; [done|done|]. by injection H as -> ->.
Qed.
Lemma elem_of_suffix (es : list (HostPattern * Backend)) s (b : Backend) : (s, b) ∈ omap suffix_of es <-> (Suffix s, b) ∈ es.
Proof.
  rewrite list_elem_of_omap. split; [|by intros H; exists (Suffix s, b)].
  intros ([p b'] & Hin & H). destruct p; cbn in H; [done| |done]. by injection H as -> ->.
Qed.
Lemma elem_of_fallback (es : list (HostPattern * Backend)) (b : Backend) : b ∈ omap fallback_of es <-> (AnyHost, b) ∈ es.
Proof.
  rewrite list_elem_of_omap. split; [|by intros H; exists (AnyHost, b)].
  intros ([p b'] & Hin & H). destruct p; cbn in H; [|done|done]. by injection H as ->.
Qed.
Lemma key_unique (es : list (HostPattern * Backend)) e e' :
  NoDup ((fun e => pattern_key e.1) <$> es) -> e ∈ es -> e' ∈ es -> pattern_key e.1 = pattern_key e'.1 -> e = e'.
Proof.
  intros Hn [i Hi]%list_elem_of_lookup [j Hj]%list_elem_of_lookup Hk.
  assert (i = j) as ->; [|congruence]. eapply NoDup_lookup; [exact Hn| |].
  - rewrite list_lookup_fmap, Hi. done.
  - rewrite list_lookup_fmap, Hj. cbn. by rewrite Hk.
Qed.

(** What is found among entries: the one that covers the host most narrowly. *)
Definition most_specific (es : list (HostPattern * Backend)) (host : string) (b : Backend) : Prop :=
  exists p, (p, b) ∈ es /\ covers p host = true /\
    forall e, e ∈ es -> covers e.1 host = true -> e = (p, b) \/ (rank e.1 < rank p)%nat.

Lemma covers_rank p host : covers p host = true -> (rank p <= S (S (String.length host)))%nat.
Proof.
  destruct p as [|s|s]; cbn; [lia| |].
  - intros (r & ->)%ends_with_app. rewrite string_length_app. lia.
  - intros ->%String.eqb_eq. lia.
Qed.
Lemma covers_suffix_rank s host : ends_with s host = true -> (rank (Suffix s) < S (S (String.length host)))%nat.
Proof. cbn. intros (r & ->)%ends_with_app. rewrite string_length_app. lia. Qed.

Lemma select_entry configs pool es host :
  NoDup ((fun e => pattern_key e.1) <$> es) ->
  bp_exact pool = omap exact_of es -> bp_wildcard pool = sort_by_length (omap suffix_of es) ->
  (bp_fallback pool = None <-> omap fallback_of es = []) ->
  (forall f, bp_fallback pool = Some f -> f ∈ omap fallback_of es) ->
  Forall2 entry_of configs es ->
  match pool_select pool host with
  | Some b => most_specific es host b
  | None => forall e, e ∈ es -> covers e.1 host = false
  end.
Proof.
  intros Hn He Hw Hf0 Hf Hes. unfold pool_select. rewrite He, Hw.
  destruct (list_find_bool _ (omap exact_of es)) as [[s b]|] eqn:E1.
  { apply list_find_bool_some in E1 as [Hin Hs]. apply elem_of_exact in Hin. apply String.eqb_eq in Hs. cbn in *.
    subst s. exists (OneHost host). split; [done|]. split; [apply String.eqb_refl|]. intros e Hin' Hc.
    destruct e as [p' b']. destruct p' as [|t|t]; cbn in Hc |- *; [right; lia| |].
    - right. apply covers_suffix_rank in Hc. cbn in Hc. lia.
    - left. apply (key_unique _ _ _ Hn Hin' Hin). cbn. by apply String.eqb_eq. }
  pose proof (proj1 (list_find_bool_none _ _) E1) as Hx.
  assert (Hx' : forall t b, (OneHost t, b) ∈ es -> String.eqb t host = false).
  { intros t b Hin. apply (Hx (t, b)). by apply elem_of_exact. }
  destruct (list_find_bool _ (sort_by_length _)) as [[s b]|] eqn:E2.
  { pose proof (find_longest _ _ _ (sort_by_length_sorted _) E2) as Hl.
    apply list_find_bool_some in E2 as [Hin Hs]. rewrite sort_by_length_perm in Hin.
    apply elem_of_suffix in Hin. cbn in *. exists (Suffix s). split; [done|]. split; [done|].
    intros e Hin' Hc. destruct e as [p' b']. destruct p' as [|t|t]; cbn in Hc |- *; [right; lia| |].
    - assert (Ht : longer (s, b) (t, b')).
      { apply Hl; [|done]. rewrite sort_by_length_perm. by apply elem_of_suffix. }
      unfold longer in Ht. cbn in Ht.
      destruct (decide (String.length t = String.length s)) as [Heq|Hne]; [left|right; lia].
      apply (key_unique _ _ _ Hn Hin' Hin). cbn. by apply (suffix_unique t s host).
    - by rewrite (Hx' t b') in Hc. }
  pose proof (proj1 (list_find_bool_none _ _) E2) as Hy.
  assert (Hy' : forall t b, (Suffix t, b) ∈ es -> ends_with t host = false).
  { intros t b Hin. apply (Hy (t, b)). rewrite sort_by_length_perm. by apply elem_of_suffix. }
  destruct (bp_fallback pool) as [b|] eqn:E3.
  - specialize (Hf b eq_refl). apply elem_of_fallback in Hf. exists AnyHost. split; [done|]. split; [done|].
    intros [p' b'] Hin' Hc. destruct p' as [|t|t]; cbn in Hc |- *.
    + left. apply (key_unique _ _ _ Hn Hin' Hf). done.
    + by rewrite (Hy' t b') in Hc.
    + by rewrite (Hx' t b') in Hc.
  - destruct Hf0 as [Hf0 _]. specialize (Hf0 eq_refl). intros [p' b'] Hin'.
    destruct p' as [|t|t]; cbn; [|by apply (Hy' t b')|by apply (Hx' t b')].
    apply elem_of_fallback in Hin'. rewrite Hf0 in Hin'. by apply elem_of_nil in Hin'.
Qed.

Lemma entries_of_configs configs es cfg :
  Forall2 entry_of configs es -> cfg ∈ configs -> exists e, e ∈ es /\ entry_of cfg e.
Proof.
  intros Hes [i Hi]%list_elem_of_lookup. destruct (Forall2_lookup_l _ _ _ _ _ Hes Hi) as (e & He & H).
  exists e. split; [by eapply list_elem_of_lookup_2|done].
Qed.
Lemma configs_of_entries configs es e :
  Forall2 entry_of configs es -> e ∈ es -> exists cfg, cfg ∈ configs /\ entry_of cfg e.
Proof.
  intros Hes [i Hi]%list_elem_of_lookup. destruct (Forall2_lookup_r _ _ _ _ _ Hes Hi) as (c & Hc & H).
  exists c. split; [by eapply list_elem_of_lookup_2|done].
Qed.

(** A host goes to the backend whose pattern covers it most narrowly, whatever
    the order of the configuration: its own name before any wildcard, of the
    wildcards the longest, the fallback last; every other backend that covers the
    host covers it less narrowly, and there is none only when no pattern does. *)
Theorem backend_most_specific configs pool host :
  pool_build configs default_theme = Ok pool ->
  match pool_select pool host with
  | Some b =>
      be_config b ∈ configs /\ backend_of default_theme (be_config b) = Ok b /\
      exists p, host_pattern (bk_name (be_config b)) = Ok p /\ covers p host = true /\
        forall cfg q, cfg ∈ configs -> host_pattern (bk_name cfg) = Ok q -> covers q host = true ->
          cfg = be_config b \/ (rank q < rank p)%nat
  | None => forall cfg p, cfg ∈ configs -> host_pattern (bk_name cfg) = Ok p -> covers p host = false
  end.
Proof.
  intros (es & Hes & Hn & He & Hw & Hf0 & Hf)%pool_build_entries.
  pose proof (select_entry configs pool es host Hn He Hw Hf0 Hf Hes) as H.
  destruct (pool_select pool host) as [b|].
  - destruct H as (p & Hin & Hc & Hmost). destruct (configs_of_entries _ _ _ Hes Hin) as (cfg & Hcfg & Hp & Hb).
    cbn in Hp, Hb. rewrite (backend_of_config _ _ Hb). split; [done|]. split; [done|]. exists p.
    split; [done|]. split; [done|]. intros cfg' q Hcfg' Hq Hcq.
    destruct (entries_of_configs _ _ _ Hes Hcfg') as ([q' b'] & Hin' & Hq' & Hb'). cbn in Hq', Hb'.
    rewrite Hq in Hq'. injection Hq' as <-. destruct (Hmost _ Hin' Hcq) as [[= -> ->]|Hr]; [|by right].
    left. by rewrite <- (backend_of_config _ _ Hb'), (backend_of_config _ _ Hb).
  - intros cfg p Hcfg Hp. destruct (entries_of_configs _ _ _ Hes Hcfg) as ([q b'] & Hin & Hq & _). cbn in Hq.
    rewrite Hp in Hq. injection Hq as <-. by apply (H (p, b')).
Qed.

Lemma pool_backends_entries configs pool es b :
  Forall2 entry_of configs es ->
  bp_exact pool = omap exact_of es -> bp_wildcard pool = sort_by_length (omap suffix_of es) ->
  (bp_fallback pool = None <-> omap fallback_of es = []) ->
  (forall f, bp_fallback pool = Some f -> f ∈ omap fallback_of es) ->
  NoDup ((fun e => pattern_key e.1) <$> es) ->
  b ∈ pool_backends pool <-> b ∈ es.*2.
Proof.
  intros Hes He Hw Hf0 Hf Hn. unfold pool_backends. rewrite He, Hw, !elem_of_app, !list_elem_of_fmap. split.
  - intros [[([s b'] & -> & Hin)|([s b'] & -> & Hin)]|Hin].
    + apply elem_of_exact in Hin. by eexists (_, _).
    + rewrite sort_by_length_perm in Hin. apply elem_of_suffix in Hin. by eexists (_, _).
    + destruct (bp_fallback pool) as [f|] eqn:E; [|by apply elem_of_nil in Hin].
      apply list_elem_of_singleton in Hin as ->. specialize (Hf f eq_refl). apply elem_of_fallback in Hf. by eexists (_, _).
  - intros ([p b'] & -> & Hin). destruct p as [|s|s].
    + right. destruct (bp_fallback pool) as [f|] eqn:E.
      * specialize (Hf f eq_refl). apply elem_of_fallback in Hf.
        assert ((AnyHost, b') = (AnyHost, f)) as [= ->] by (by apply (key_unique _ _ _ Hn)).
        cbn. by apply list_elem_of_singleton.
      * apply elem_of_fallback in Hin. rewrite (proj1 Hf0 eq_refl) in Hin. by apply elem_of_nil in Hin.
    + left. right. exists (s, b'). split; [done|]. rewrite sort_by_length_perm. by apply elem_of_suffix.
    + left. left. exists (s, b'). split; [done|]. by apply elem_of_exact.
Qed.

(** A rule finds the backend it names exactly when one is configured under that
    name, and it is the backend that configuration describes. *)
Theorem backend_by_name configs pool name :
  pool_build configs default_theme = Ok pool ->
  match pool_by_name pool name with
  | Some b => be_config b ∈ configs /\ bk_name (be_config b) = name /\ backend_of default_theme (be_config b) = Ok b
  | None => forall cfg, cfg ∈ configs -> bk_name cfg <> name
  end.
Proof.
  intros (es & Hes & Hn & He & Hw & Hf0 & Hf)%pool_build_entries. unfold pool_by_name.
  pose proof (fun b => pool_backends_entries configs pool es b Hes He Hw Hf0 Hf Hn) as Hall.
  destruct (list_find_bool _ _) as [b|] eqn:E.
  - apply list_find_bool_some in E as [Hin Hname]. apply Hall, list_elem_of_fmap in Hin as ([p b'] & -> & Hin).
    apply String.eqb_eq in Hname. destruct (configs_of_entries _ _ _ Hes Hin) as (cfg & Hcfg & _ & Hb). cbn in *.
    by rewrite (backend_of_config _ _ Hb) in *.
  - intros cfg Hcfg <-. destruct (entries_of_configs _ _ _ Hes Hcfg) as (e & Hin & _ & Hb).
    pose proof (proj1 (list_find_bool_none _ _) E e.2) as H. cbn beta in H.
    rewrite (backend_of_config _ _ Hb), String.eqb_refl in H. discriminate H.
    apply Hall, list_elem_of_fmap. by exists e.
Qed.
End Pool.

(** ** Headers *)

(** Header names are compared in lower case. *)
Notation same_name := eq_ignore_ascii_case.

Lemma get_all_remove n name h : get_all n (remove_all name h) = if same_name n name then [] else get_all n h.
Proof.
  unfold get_all, remove_all, same_name. set (a := to_ascii_lowercase n). set (b := to_ascii_lowercase name).
  induction h as [|[k v] h IH]; cbn [List.filter fst]; [by destruct (_ =? _)%string|].
  destruct (String.eqb_spec k b) as [Hkb|Hkb]; cbn [negb List.filter fst]; destruct (String.eqb_spec k a) as [Hka|Hka];
    rewrite ?fmap_cons, IH; destruct (String.eqb_spec a b) as [Hab|Hab]; try done; congruence.
Qed.
Lemma get_all_app n h k : get_all n (h ++ k) = get_all n h ++ get_all n k.
Proof. unfold get_all. by rewrite List.filter_app, fmap_app. Qed.

Section Headers.
Context {U : UriApi} {UP : UriParts} {HA : HeaderApi} {HT : HeaderText}.

Lemma get_all_insert n name v h :
  get_all n (hm_insert name v h) = if same_name n name then [v] else get_all n h.
Proof.
  unfold hm_insert. rewrite get_all_app, get_all_remove. unfold get_all, same_name. cbn [List.filter fst].
  rewrite (String.eqb_sym (to_ascii_lowercase name)). destruct (_ =? _)%string; cbn; [done|apply app_nil_r].
Qed.
Lemma get_all_foldl n (keep : string -> bool) names h :
  get_all n (foldl (fun h name => if keep name then h else remove_all name h) h names) =
  if existsb (fun name => negb (keep name) && same_name n name) names then [] else get_all n h.
Proof.
  revert h. induction names as [|name names IH]; intros h; [done|]. cbn [foldl existsb]. rewrite IH.
  destruct (keep name); cbn; [done|]. rewrite get_all_remove.
  by destruct (same_name n name), (existsb _ names).
Qed.

(** What does not pass a hop, of the headers of a request. *)
Definition hop_by_hop (h : Headers) (preserve_upgrade : bool) (name : string) : bool :=
  existsb (fun listed => negb (preserve_upgrade && upgrade_header listed) && same_name name listed) (connection_headers h)
  || existsb (same_name name) HOP_BY_HOP
  || (negb preserve_upgrade && (same_name name "connection" || same_name name "upgrade")).

(** Stripping takes exactly the hop-by-hop headers: what any [Connection] header
    lists and the fixed names, the two of an upgrade excepted when there is one, are
    gone, and every other header keeps all its values. *)
Theorem strip_hop_by_hop_exact h preserve_upgrade name :
  get_all name (strip_hop_by_hop_headers h preserve_upgrade) =
  if hop_by_hop h preserve_upgrade name then [] else get_all name h.
Proof.
  unfold strip_hop_by_hop_headers, hop_by_hop.
  pose proof (fun h => get_all_foldl name (fun _ => false) HOP_BY_HOP h) as Hhop. cbn [negb andb] in Hhop.
  change (existsb (fun name0 => same_name name name0) HOP_BY_HOP) with (existsb (same_name name) HOP_BY_HOP) in Hhop.
  pose proof (get_all_foldl name (fun name => preserve_upgrade && upgrade_header name) (connection_headers h) h) as Hcon.
  destruct preserve_upgrade; cbn [negb andb] in *.
  - rewrite Hhop, Hcon, orb_false_r. by destruct (existsb _ (connection_headers h)), (existsb _ HOP_BY_HOP).
  - rewrite !get_all_remove, Hhop, Hcon.
    by destruct (same_name name "upgrade"), (same_name name "connection"), (existsb _ (connection_headers h)),
      (existsb _ HOP_BY_HOP).
Qed.

(** The values of [Host] and of the address header before stripping. *)
Definition host_values (backend : Backend) (req : Request) : list string :=
  match be_host backend with
  | Some host_override => [host_override]
  | None =>
      match get_all "host" (rq_headers req), uri_authority (rq_uri req) ≫= header_value with
      | [], Some authority => [authority]
      | values, _ => values
      end
  end.
Definition ja4_values (tls : option TlsFingerprint) : list string :=
  match tls with
  | Some fp => match native fp with Complete hello => option_list (header_value (ja4 hello)) | _ => [] end
  | None => []
  end.
Definition is_address_header (backend : Backend) (req : Request) (name : string) : bool :=
  match be_ip_header backend, rq_addr req with Some ip_header, Some _ => same_name name ip_header | _, _ => false end.
(** What the backend is sent under a name. *)
Definition values_sent (backend : Backend) (bagel_id : string) (upgrade : bool) (req : Request) (name : string) :
    list string :=
  if same_name name "x-bagel-ja4" then ja4_values (rq_tls req)
  else if same_name name "x-bagel-id" then [bagel_id]
  else if hop_by_hop (rq_headers req) upgrade name then []
  else if is_address_header backend req name then show_ip <$> option_list (sa_ip <$> rq_addr req)
  else if same_name name "host" then host_values backend req
  else get_all name (rq_headers req).

Lemma get_set_host backend req name :
  get_all name (set_host backend (rq_uri req) (rq_headers req)) =
  if same_name name "host" then host_values backend req else get_all name (rq_headers req).
Proof.
  assert (Hh : same_name name "host" = true -> get_all name (rq_headers req) = get_all "host" (rq_headers req)).
  { unfold same_name, get_all. by intros ->%String.eqb_eq. }
  unfold set_host, host_values. destruct (be_host backend) as [o|]; [apply get_all_insert|].
  destruct (get_all "host" (rq_headers req)) as [|v vs] eqn:E.
  - destruct (uri_authority (rq_uri req) ≫= header_value) as [a|]; [apply get_all_insert|].
    destruct (same_name name "host"); [by apply Hh|done].
  - destruct (uri_authority (rq_uri req) ≫= header_value); (destruct (same_name name "host"); [by apply Hh|done]).
Qed.
Lemma get_set_address backend req name h :
  get_all name (set_address backend (rq_addr req) h) =
  if is_address_header backend req name then show_ip <$> option_list (sa_ip <$> rq_addr req) else get_all name h.
Proof.
  unfold set_address, is_address_header. destruct (be_ip_header backend), (rq_addr req); try done. apply get_all_insert.
Qed.
Lemma connection_headers_ext h k :
  get_all "connection" h = get_all "connection" k -> connection_headers h = connection_headers k.
Proof. unfold connection_headers. by intros ->. Qed.
Lemma get_set_ja4 tls name h :
  get_all name (set_ja4_header tls (remove_all "x-bagel-ja4" h)) =
  if same_name name "x-bagel-ja4" then ja4_values tls else get_all name h.
Proof.
  unfold set_ja4_header, ja4_values. destruct tls as [fp|]; [|apply get_all_remove].
  destruct (native fp) as [| |hello]; try apply get_all_remove.
  destruct (header_value (ja4 hello)); [|apply get_all_remove].
  rewrite get_all_insert, get_all_remove. by destruct (same_name _ _).
Qed.

(** C32: what a backend is sent, header by header. The fingerprint is what bagel's own
    listener saw, or absent, whatever the client wrote; the identifier is bagel's;
    no hop-by-hop header passes; the address is the one bagel resolved, alone; and
    the other headers are the client's. But the hop-by-hop headers go last, so what
    the client lists in [Connection] takes the address and the host too. *)
Theorem forwarded_headers_exact backend bagel_id upgrade req name :
  header_value bagel_id = Some bagel_id -> is_address_header backend req "connection" = false ->
  get_all name (upstream_headers backend bagel_id upgrade req) = values_sent backend bagel_id upgrade req name.
Proof.
  intros Hid Hconn. unfold upstream_headers, values_sent. rewrite Hid, get_set_ja4.
  destruct (same_name name "x-bagel-ja4"); [done|]. rewrite get_all_insert.
  destruct (same_name name "x-bagel-id"); [done|]. rewrite strip_hop_by_hop_exact.
  assert (Hc : connection_headers (set_address backend (rq_addr req) (set_host backend (rq_uri req) (rq_headers req))) =
               connection_headers (rq_headers req)).
  { apply connection_headers_ext. rewrite get_set_address, Hconn, get_set_host. done. }
  unfold hop_by_hop. rewrite Hc. destruct (_ || _ || _); [done|]. by rewrite get_set_address, get_set_host.
Qed.

(** ** The request line and the way out *)

(** A request that asks for no upgrade, to a backend that expects no preamble,
    goes through the pool to that backend and to no other, with the client's path
    and query; an upgrade or a preamble takes a connection of its own, in origin
    form, and an upgrade is preserved only when [Connection] and [Upgrade] agree. *)
Theorem proxy_request_routes backend bagel_id req out :
  proxy_request backend bagel_id req = Some out ->
  let path := default "/" (uri_path_and_query (rq_uri req)) in
  match og_route out with
  | Pooled =>
      requested_upgrade (rq_headers req) = None /\ bk_proxy_out (be_config backend) = None /\
      uri_build (uri_scheme (be_target backend)) (uri_authority (be_target backend)) path = Some (og_uri out)
  | Upgraded preamble =>
      preamble = bk_proxy_out (be_config backend) /\ og_uri out = uri_of_path path /\
      (exists c t, head (get_all "connection" (rq_headers req)) = Some c /\ header_to_str c = Some t /\
         existsb (fun token => eq_ignore_ascii_case (str_trim token) "upgrade") (str_split "," t) = true) /\
      get_all "upgrade" (rq_headers req) <> []
  | Preamble version =>
      requested_upgrade (rq_headers req) = None /\ bk_proxy_out (be_config backend) = Some version /\
      og_uri out = uri_of_path path
  end.
Proof.
  unfold proxy_request. destruct (requested_upgrade (rq_headers req)) as [u|] eqn:Eu; cbn [is_some orb].
  - cbn. intros [= <-]. cbn. split; [done|]. split; [done|]. unfold requested_upgrade in Eu.
    apply bind_Some in Eu as (t & (c & Hc & Ht)%bind_Some & Eu). destruct (existsb _ _) eqn:E; [|done]. cbn in Eu.
    split; [by exists c, t|]. by destruct (get_all "upgrade" (rq_headers req)).
  - destruct (bk_proxy_out _) as [version|] eqn:Ev; cbn [is_some].
    + cbn. intros [= <-]. done.
    + intros (uri & Hu & [= <-])%bind_Some. done.
Qed.
End Headers.

(** ** Examples *)

Module ProxyExample.
(** URIs of the form [http://host] in front of a path, held as their parts. *)
Record Parts : Type := { p_host : option string; p_path : string; p_query : option string }.
Definition path_of (p : Parts) : string :=
  p_path p +:+ match p_query p with Some q => "?" +:+ q | None => "" end.
Definition of_path (s : string) : Parts :=
  match split_once "?" s with
  | Some (a, b) => {| p_host := None; p_path := a; p_query := Some b |}
  | None => {| p_host := None; p_path := s; p_query := None |}
  end.
Definition set_parts_host (h : option string) (p : Parts) : Parts :=
  {| p_host := h; p_path := p_path p; p_query := p_query p |}.
Definition uri : UriApi := {|
  Uri := Parts; uri_scheme := fun p => (fun _ => "http") <$> p_host p; uri_authority := p_host;
  uri_path := p_path; uri_query := p_query; uri_show := path_of;
  uri_build := fun _ authority path => Some (set_parts_host authority (of_path path)) |}.
Definition parse_uri (s : string) : option Parts :=
  rest ← strip_prefix "http://" s;
  match split_once "/" rest with
  | Some (host, path) => Some (set_parts_host (Some host) (of_path ("/" +:+ path)))
  | None => Some {| p_host := Some rest; p_path := "/"; p_query := None |}
  end.
Definition parts : @UriParts uri := {|
  uri_parse := parse_uri : string -> option (@Uri uri); uri_host := p_host : @Uri uri -> _;
  uri_port := (fun _ => None) : @Uri uri -> _;
  uri_path_and_query := (fun p => Some (path_of p)) : @Uri uri -> _;
  uri_of_path := of_path : _ -> @Uri uri |}.
Definition visible (c : ascii) : bool := in_range 32 126 c.
Definition token_char (c : ascii) : bool := is_ascii_alphanumeric c || char_eqb c "-".
Definition text_of (s : string) : option string := if str_all visible s then Some s else None.
Definition http : HeaderApi := {|
  header_name := fun s => if negb (str_is_empty s) && str_all token_char s then Some (to_ascii_lowercase s) else None;
  header_value := text_of |}.
Definition text : HeaderText := {| header_to_str := text_of |}.

Definition theme : CustomTheme := {| ct_vars := []; ct_light := []; ct_dark := [] |}.
Definition config (name url : string) (ip_header : option string) : BackendConfig :=
  {| bk_name := name; bk_url := url; bk_host := None; bk_ip_header := ip_header; bk_proxy_out := None;
     bk_template := None |}.
Definition configs : list BackendConfig :=
  [config "*" "http://any" None; config "*.example.com" "http://wild" None;
   config "*.a.example.com" "http://narrow" None; config "Git.Example.com:443" "http://forge" (Some "X-Real-IP")].
Definition built : Result BackendPool := @pool_build uri parts http configs theme.
Definition pool : BackendPool := match built with Ok p => p | Err _ => empty_pool end.
Example selections :
  (fun host => (fun b => bk_url (be_config b)) <$> pool_select pool host) <$>
    ["git.example.com"; "b.example.com"; "b.a.example.com"; "example.com"; "elsewhere.org"] =
  [Some "http://forge"; Some "http://wild"; Some "http://narrow"; Some "http://any"; Some "http://any"].
Proof. vm_refl. Qed.
Example refused :
  (fun c => is_ok (@pool_build uri parts http c theme)) <$>
    [[config "a.com" "https://x" None]; [config "a.com" "http://x/path" None];
     [config "a.com" "http://x" None; config "A.com." "http://y" None]; [config "a b" "http://x" None];
     [config "a.com" "http://x" (Some "X Real")]; []] =
  [false; false; false; false; false; true].
Proof. vm_refl. Qed.

Definition forge : Backend := {|
  be_config := config "git.example.com" "http://forge" (Some "X-Real-IP");
  be_target := {| p_host := Some "forge"; p_path := "/"; p_query := None |} : @Uri uri;
  be_host := None; be_ip_header := Some "x-real-ip"; be_theme := theme |}.
Definition request (h : Headers) : @Request uri := {|
  rq_uri := of_path "/repo?tab=code" : @Uri uri; rq_headers := h;
  rq_addr := Some {| sa_ip := V4 (of_be_bytes [203; 0; 113; 7]); sa_port := 4711 |}; rq_tls := None |}.
Definition id : string := "00112233445566aa".
(** An address the client writes is replaced by the one bagel resolved. *)
Example address_replaced :
  get_all "X-Real-IP" (@upstream_headers uri http text forge id false
    (request [("x-real-ip", "127.0.0.1"); ("host", "git.example.com"); ("x-bagel-ja4", "forged")])) = ["203.0.113.7"].
Proof. vm_refl. Qed.
(** But a client that lists the address header in [Connection] has it removed after
    bagel wrote it, and so reaches the backend without an address; and without
    [Host] when it lists that. *)
Example address_suppressed :
  let h := [("connection", "close, X-Real-IP, Host"); ("host", "git.example.com")] in
  get_all "X-Real-IP" (@upstream_headers uri http text forge id false (request h)) = [] /\
  get_all "Host" (@upstream_headers uri http text forge id false (request h)) = [].
Proof. split; vm_refl. Qed.
Example upgrades :
  (fun h => og_route <$> @proxy_request uri parts http text forge id (request h)) <$>
    [[]; [("connection", "keep-alive, Upgrade"); ("upgrade", "websocket")]; [("upgrade", "websocket")];
     [("connection", "upgrade")]] =
  [Some Pooled; Some (Upgraded None); Some Pooled; Some Pooled].
Proof. vm_refl. Qed.
End ProxyExample.

Lemma backend_most_specific_witness :
  be_config (default ProxyExample.forge (pool_select ProxyExample.pool "b.a.example.com")) ∈ ProxyExample.configs.
Proof.
  assert (H : @pool_build ProxyExample.uri ProxyExample.parts ProxyExample.http ProxyExample.configs
                ProxyExample.theme = Ok ProxyExample.pool) by vm_refl.
  pose proof (@backend_most_specific ProxyExample.uri ProxyExample.parts ProxyExample.http ProxyExample.theme
    ProxyExample.configs ProxyExample.pool "b.a.example.com" H) as Hs.
  destruct (pool_select ProxyExample.pool "b.a.example.com") as [b|] eqn:E.
  - exact (proj1 Hs).
  - discriminate E.
Defined.
Lemma backend_by_name_witness :
  (fun b => bk_url (be_config b)) <$> pool_by_name ProxyExample.pool "*.example.com" = Some "http://wild" /\
  exists b, pool_by_name ProxyExample.pool "*.example.com" = Some b /\ be_config b ∈ ProxyExample.configs.
Proof.
  assert (H : @pool_build ProxyExample.uri ProxyExample.parts ProxyExample.http ProxyExample.configs
                ProxyExample.theme = Ok ProxyExample.pool) by vm_refl.
  split; [vm_refl|].
  pose proof (@backend_by_name ProxyExample.uri ProxyExample.parts ProxyExample.http ProxyExample.theme
    ProxyExample.configs ProxyExample.pool "*.example.com" H) as Hs.
  destruct (pool_by_name ProxyExample.pool "*.example.com") as [b|] eqn:E.
  - exists b. split; [done|exact (proj1 Hs)].
  - discriminate E.
Defined.
Lemma forwarded_headers_exact_witness :
  get_all "x-real-ip" (@upstream_headers ProxyExample.uri ProxyExample.http ProxyExample.text ProxyExample.forge ProxyExample.id false
    (ProxyExample.request [("x-real-ip", "10.0.0.1")])) =
  @values_sent ProxyExample.uri ProxyExample.http ProxyExample.text ProxyExample.forge ProxyExample.id false
    (ProxyExample.request [("x-real-ip", "10.0.0.1")]) "x-real-ip".
Proof. apply forwarded_headers_exact; vm_refl. Defined.
Lemma proxy_request_routes_witness :
  exists out, @proxy_request ProxyExample.uri ProxyExample.parts ProxyExample.http ProxyExample.text ProxyExample.forge ProxyExample.id
    (ProxyExample.request []) = Some out /\ og_route out = Pooled /\
  bk_proxy_out (be_config ProxyExample.forge) = None.
Proof.
  destruct (@proxy_request ProxyExample.uri ProxyExample.parts ProxyExample.http ProxyExample.text ProxyExample.forge ProxyExample.id
    (ProxyExample.request [])) as [out|] eqn:E; [|discriminate E].
  pose proof (@proxy_request_routes ProxyExample.uri ProxyExample.parts ProxyExample.http ProxyExample.text _ _ _ _ E) as H.
  exists out. assert (Hr : og_route out = Pooled) by (by injection E as <-). rewrite Hr in H.
  split; [done|]. split; [done|]. exact (proj1 (proj2 H)).
Defined.
