(* ===== verification/StateFacts.v ===== *)
(** * What a compiled web configuration guarantees

    The checks of [State] against what they mean: exact readings of the renderer
    and maze sections, pages that stay within what a section allows, and references
    of actions, nested ones included, that all resolve. *)

From S2P Require Import Prelude Core Strings Ip ThirdParty Validation Proto Host Url.
From S2P Require Import Rule Scoring Challenge Maze MazeFacts Proxy ProxyFacts Rate TlsEdge.
From S2P Require Import Policy WebConfig Kdl State.

Local Open Scope N_scope.

(** ** Named items *)

Section EachNamedFacts.
Context {A B : Type} (name : A -> string) (what : string) (valid : A -> bool) (check : A -> Result B).

Lemma each_named_ok names items out :
  each_named name what valid check names items = Ok out <->
  Forall (fun a => valid a = true) items /\ NoDup (name <$> items) /\
  Forall (fun a => name a ∉ names) items /\ Forall2 (fun a b => check a = Ok b) items out.
Proof.
  revert names out. induction items as [|a items IH]; intros names out; cbn [each_named].
  - split; [intros [= <-]; split_and!; constructor|by intros (_ & _ & _ & ->%Forall2_nil_inv_l)].
  - rewrite !Forall_cons, fmap_cons, NoDup_cons. split.
    + intros ([] & Hv%fail_if_ok & ([] & Hn%fail_if_ok & (b & Hc & (rest & Hr & [= <-])%bind_ok)%bind_ok)%bind_ok)%bind_ok.
      apply negb_false_iff in Hv. apply bool_decide_eq_false in Hn. apply IH in Hr as (? & Hd & Hi & ?).
      rewrite Forall_forall in Hi. split_and!; try done.
      * intros (a' & E & Hin)%list_elem_of_fmap. apply (Hi _ Hin). rewrite <- E. set_solver.
      * apply Forall_forall. intros a' Hin. specialize (Hi _ Hin). set_solver.
      * by constructor.
    + intros ([Hv Hvs] & [Hni Hnd] & [Hn Hns] & H2). apply Forall2_cons_inv_l in H2 as (b & rest & Hc & Hr & ->).
      rewrite Hv, Hc. cbn. rewrite bool_decide_eq_false_2 by done. cbn.
      rewrite (proj2 (IH ({[name a]} ∪ names) rest)); [done|]. split_and!; try done.
      rewrite Forall_forall in Hns |- *. intros a' Hin. specialize (Hns _ Hin).
      rewrite not_elem_of_union, not_elem_of_singleton. split; [|done]. intros E. apply Hni, list_elem_of_fmap. by exists a'.
Qed.
(** A section whose items need nothing else. *)
Lemma each_named_empty items out :
  each_named name what valid check ∅ items = Ok out <->
  Forall (fun a => valid a = true) items /\ NoDup (name <$> items) /\ Forall2 (fun a b => check a = Ok b) items out.
Proof.
  rewrite each_named_ok. split; [tauto|]. intros (? & ? & ?). split_and!; try done.
  apply Forall_forall. set_solver.
Qed.
End EachNamedFacts.

Lemma forall2_unit {A} (check : A -> Result unit) items out :
  Forall2 (fun a b => check a = Ok b) items out -> Forall (fun a => check a = Ok tt) items.
Proof. induction 1 as [|a [] items out H _ IH]; by constructor. Qed.
Lemma each_unit {A} name what valid (check : A -> Result unit) items :
  (exists out, each_named name what valid check ∅ items = Ok out) <->
  Forall (fun a => valid a = true) items /\ NoDup (name <$> items) /\ Forall (fun a => check a = Ok tt) items.
Proof.
  setoid_rewrite each_named_empty. split.
  - intros (out & ? & ? & H%forall2_unit). done.
  - intros (? & ? & H). exists ((fun _ => tt) <$> items). split_and!; try done.
    apply Forall2_fmap_r, Forall_Forall2_diag, H.
Qed.

(** ** Sections *)

Section Sections.
Context {U : UriApi} {UP : UriParts}.

Lemma within_spec lo hi n : within lo hi n = true <-> lo <= n <= hi.
Proof. unfold within. rewrite andb_true_iff, !N.leb_le. done. Qed.

(** What a maze section may say. *)
Definition maze_accepted (renderers : list RendererConfig) (maze : MazeConfig) : Prop :=
  (mz_renderer maze = "builtin" \/ mz_renderer maze ∈ rd_name <$> renderers) /\
  60 <= mz_token_ttl maze <= 604800 /\ 1 <= mz_memory_ttl maze <= 31536000 /\
  1 <= mz_min_links maze <= mz_max_links maze /\ mz_max_links maze <= 64 /\
  1024 <= mz_min_bytes maze <= mz_max_bytes maze /\ mz_max_bytes maze <= 1048576.

Lemma renderer_known renderers maze :
  negb (String.eqb (mz_renderer maze) "builtin") && negb (existsb (fun r => String.eqb (rd_name r) (mz_renderer maze)) renderers)
    = false <-> mz_renderer maze = "builtin" \/ mz_renderer maze ∈ rd_name <$> renderers.
Proof.
  rewrite andb_false_iff, !negb_false_iff, String.eqb_eq, existsb_elem, list_elem_of_fmap.
  setoid_rewrite String.eqb_eq. split; (intros [?|(r & ? & ?)]; [by left|right; exists r; by split]).
Qed.
Lemma validate_maze_ok renderers maze :
  validate_maze renderers maze = Ok tt <-> maze_accepted renderers maze.
Proof.
  unfold validate_maze, maze_accepted. rewrite <- renderer_known. destruct (_ && _) eqn:E; cbn [fail_if mbind result_bind].
  { split; [done|by intros [? _]]. }
  split.
  - intros ([] & H1%fail_if_ok & ([] & H2%fail_if_ok & ([] & H3%fail_if_ok & H4%fail_if_ok)%bind_ok)%bind_ok)%bind_ok.
    apply negb_false_iff, within_spec in H1. rewrite !orb_false_iff, !N.eqb_neq, !N.ltb_ge in *. lia.
  - intros (_ & H1 & H2 & H3 & H4 & H5 & H6). rewrite (proj2 (within_spec 60 (7 * 86400) _)) by lia. cbn [negb fail_if mbind result_bind].
    rewrite !(proj2 (orb_false_iff _ _)); [done|..]; rewrite ?orb_false_iff, ?N.eqb_neq, ?N.ltb_ge; lia.
Qed.

(** When the maze sections of a configuration are accepted: each one is alone in
    its name and within its limits, and with any at all the key seed is persistent
    and connections are not passed through. *)
Lemma mazes_accepted_exactly config seed_persistent :
  validate_mazes config seed_persistent = Ok tt <->
  let mazes := pc_mazes (wc_policy config) in
  Forall (fun maze => is_valid_maze_name (mz_name maze) = true) mazes /\ NoDup (mz_name <$> mazes) /\
  Forall (maze_accepted (pc_renderers (wc_policy config))) mazes /\
  (mazes <> [] -> seed_persistent = true /\ bd_passthrough (wc_bind config) = false).
Proof.
  unfold validate_mazes. cbv zeta. destruct (pc_mazes (wc_policy config)) as [|m mazes].
  { split; [|done]. intros _. split_and!; try done; constructor. }
  set (all := m :: mazes). set (check := validate_maze _). set (valid := fun maze => is_valid_maze_name _).
  assert (Hf : forall l, Forall (fun a => check a = Ok tt) l <-> Forall (maze_accepted (pc_renderers (wc_policy config))) l).
  { intros l. unfold check. rewrite !Forall_forall. by setoid_rewrite validate_maze_ok. }
  rewrite bind_ok. rewrite <- Hf. split.
  - intros (out & Hout & ([] & Hs%fail_if_ok & Hp%fail_if_ok)%bind_ok). apply negb_false_iff in Hs.
    destruct (proj1 (each_unit _ _ _ _ _) (ex_intro _ out Hout)) as (? & ? & ?). by split_and!.
  - intros (H1 & H2 & H3 & H4). destruct (H4 ltac:(done)) as [-> ->].
    destruct (proj2 (each_unit mz_name "maze" valid check all) (conj H1 (conj H2 H3))) as (out & ->). by exists out.
Qed.

(** What a renderer section may say. *)
Definition limits_accepted (r : RendererConfig) : Prop :=
  1 <= rd_timeout r <= 60 /\ 1 <= rd_cooldown r <= 3600 /\ 1024 <= rd_max_body r <= 8388608 /\
  1 <= rd_max_concurrency r <= 4096 /\ 0 < rd_rate r /\ 0 < rd_burst r /\ 0 < rd_decoy_rate r /\ 0 < rd_decoy_burst r.
Definition endpoint_accepted (endpoint : string) : Prop :=
  exists uri, uri_parse endpoint = Some uri /\
    (uri_scheme uri = Some "http" \/ uri_scheme uri = Some "https") /\
    exists authority, uri_authority uri = Some authority /\ str_contains_char "@" authority = false.
Definition renderer_accepted (r : RendererConfig) : Prop :=
  limits_accepted r /\
  ((rd_kind r = "markov" /\ rd_endpoint r = "") \/ (rd_kind r = "iocaine" /\ endpoint_accepted (rd_endpoint r))).

Lemma limits_ok r : validate_renderer_limits r = Ok tt <-> limits_accepted r.
Proof.
  unfold validate_renderer_limits, limits_accepted. split.
  - intros ([] & H1%fail_if_ok & ([] & H2%fail_if_ok & ([] & H3%fail_if_ok & ([] & H4%fail_if_ok & H5%fail_if_ok)%bind_ok)%bind_ok)%bind_ok)%bind_ok.
    apply negb_false_iff, within_spec in H3, H4. rewrite !orb_false_iff, !N.eqb_neq, ?N.ltb_ge in *. lia.
  - intros (H1 & H2 & H3 & H4 & H5). rewrite (proj2 (within_spec _ _ _) H3), (proj2 (within_spec _ _ _) H4).
    rewrite !(proj2 (orb_false_iff _ _)); [done|..]; rewrite ?orb_false_iff, ?N.eqb_neq, ?N.ltb_ge; lia.
Qed.
Lemma http_scheme_spec uri :
  http_scheme uri = true <-> uri_scheme uri = Some "http" \/ uri_scheme uri = Some "https".
Proof.
  unfold http_scheme. destruct (uri_scheme uri) as [s|]; [|split; [done|by intros [?|?]]].
  rewrite orb_true_iff, !String.eqb_eq. split; intros [H|H]; (by left; congruence) || (right; congruence).
Qed.
Lemma endpoint_ok r : validate_endpoint r = Ok tt <-> endpoint_accepted (rd_endpoint r).
Proof.
  unfold validate_endpoint, endpoint_accepted. destruct (uri_parse _) as [uri|]; cbn [ok_or mbind result_bind].
  2: { split; [done|by intros (? & ? & _)]. }
  split.
  - intros ([] & H1%fail_if_ok & H2%fail_if_ok)%bind_ok. apply negb_false_iff, http_scheme_spec in H1.
    exists uri. split_and!; try done. destruct (uri_authority uri) as [a|]; [|done]. by exists a.
  - intros (u & [= <-] & H1%http_scheme_spec & a & Ha & Hc). rewrite H1, Ha, Hc. done.
Qed.
Lemma validate_renderer_ok r : validate_renderer r = Ok tt <-> renderer_accepted r.
Proof.
  unfold validate_renderer, renderer_accepted. rewrite <- limits_ok, <- endpoint_ok.
  destruct (String.eqb_spec (rd_kind r) "iocaine") as [->|H1].
  { destruct (validate_endpoint r) as [[]|e]; cbn; [|split; [done|by intros (_ & [[? _]|[_ ?]])]].
    split; [by auto|by intros [? _]]. }
  destruct (String.eqb_spec (rd_kind r) "markov") as [->|H2].
  - destruct (rd_endpoint r) as [|c s]; cbn; [|split; [done|by intros (_ & [[_ ?]|[? _]])]].
    split; [by auto|by intros [? _]].
  - split; [done|]. by intros (_ & [[? _]|[? _]]).
Qed.

(** When the renderer sections of a configuration are accepted: each is alone in
    a valid name that is not [builtin], every limit is within its range and every rate
    is positive, and it runs in the process without an endpoint or is reached at
    an HTTP URL that holds no credentials. *)
Theorem renderers_accepted_exactly config :
  validate_renderers config = Ok tt <->
  let renderers := pc_renderers (wc_policy config) in
  NoDup (rd_name <$> renderers) /\
  Forall (fun r => rd_name r <> "builtin" /\ is_valid_maze_name (rd_name r) = true /\ renderer_accepted r) renderers.
Proof.
  unfold validate_renderers. cbv zeta. set (all := pc_renderers _). rewrite bind_ok.
  assert (H : (exists out, each_named rd_name "renderer" valid_renderer_name validate_renderer ∅ all = Ok out) <->
    NoDup (rd_name <$> all) /\
    Forall (fun r => rd_name r <> "builtin" /\ is_valid_maze_name (rd_name r) = true /\ renderer_accepted r) all).
  { rewrite each_unit, !Forall_forall. setoid_rewrite validate_renderer_ok. unfold valid_renderer_name.
    setoid_rewrite andb_true_iff. setoid_rewrite negb_true_iff. setoid_rewrite String.eqb_neq. split.
    - intros (H1 & H2 & H3). split; [done|]. intros r Hr. destruct (H1 r Hr). split_and!; [done..|by apply H3].
    - intros (H1 & H2). split_and!; [|done|]; intros r Hr; destruct (H2 r Hr) as (? & ? & ?); done. }
  rewrite <- H. split; [intros (out & ? & _); by exists out|intros (out & ?); by exists out].
Qed.
End Sections.

(** ** Pages of a configured maze *)

Definition budget_of (maze : MazeConfig) : RenderBudget := {|
  min_links := mz_min_links maze; max_links := mz_max_links maze;
  min_bytes := mz_min_bytes maze; max_bytes := mz_max_bytes maze |}.

(** C28: The built-in generator finishes a page for every maze of an accepted
    configuration. Whatever the seed of the page, rendering it to the section's limits
    ends within its fuel, asks for at most the section's links and at most 64, and the
    page is less than one pass and the closing tags (885 bytes and a link) over the
    section's greatest number of bytes; it has the section's least numbers of links and
    bytes, or it was cut within 50 bytes of that greatest number. Pages of a configured
    renderer are not this generator's. *)
Theorem configured_pages_finish `{MA : MazeApi} config seed_persistent maze seed mint_link l :
  validate_mazes config seed_persistent = Ok tt -> maze ∈ pc_mazes (wc_policy config) -> links_within mint_link l ->
  exists html calls, render_page seed (budget_of maze) mint_link = Some (html, calls) /\
    N.of_nat calls <= mz_max_links maze <= 64 /\
    str_len html < mz_max_bytes maze + 885 + N.of_nat l /\ mz_max_bytes maze <= 1048576 /\
    ((mz_min_bytes maze <= str_len html /\ mz_min_links maze <= N.of_nat calls) \/
     mz_max_bytes maze <= str_len html + 50).
Proof.
  intros (_ & _ & Hall & _)%mazes_accepted_exactly Hin Hl.
  destruct (proj1 (Forall_forall _ _) Hall _ Hin) as (_ & _ & _ & Hk & Hk' & Hb & Hb').
  destruct (render_page_within seed (budget_of maze) mint_link l Hl) as (html & calls & Hr & H1 & H2 & H3);
    [cbn; lia..|].
  exists html, calls. cbn in H1, H2, H3. split_and!; try done; lia.
Qed.

(** ** References *)

Section References.
Context {RX : RegexApi} {HA : HeaderApi} {RH : RhaiApi}.
Context {U : UriApi} {UP : UriParts} {HT : HeaderText}.

Section RuleStateInd.
Variable P : RuleState -> Prop.
Hypothesis step : forall r, Forall P (Rule.children r) -> P r.
Fixpoint rule_state_ind (r : RuleState) : P r :=
  step r ((fix go l : Forall P l :=
    match l with
    | [] => List.Forall_nil P
    | c :: l => List.Forall_cons P c l (rule_state_ind c) (go l)
    end) (Rule.children r)).
End RuleStateInd.

(** A rule of a tree, and the actions a configuration may run. *)
Inductive in_tree (r : RuleState) : list RuleState -> Prop :=
| InHere rules : r ∈ rules -> in_tree r rules
| InChild parent rules : parent ∈ rules -> in_tree r (Rule.children parent) -> in_tree r rules.
Definition runs (rules : list RuleState) (scoring : option ScoringState) (a : Action) : Prop :=
  (exists r, in_tree r rules /\ Rule.action r = a) \/
  (exists st card t, scoring = Some st /\ card ∈ scorecards st /\ t ∈ thresholds card /\ th_action t = a).
(** An action and everything it may end in. *)
Inductive part_of (b : Action) : Action -> Prop :=
| PartSelf : part_of b b
| PartChallenge names code d pass fail :
    part_of b pass \/ part_of b fail -> part_of b (AChallenge (MkChallengeAction names code d pass fail))
| PartCheck names code d pass fail :
    part_of b pass \/ part_of b fail -> part_of b (ACheck (MkChallengeAction names code d pass fail)).

Lemma walk_rule_all visit r :
  walk_rule visit r = Ok tt ->
  visit (rule_site (Rule.name r)) (Rule.action r) = Ok tt /\
  forall r', in_tree r' (Rule.children r) -> visit (rule_site (Rule.name r')) (Rule.action r') = Ok tt.
Proof.
  induction r as [r IH] using rule_state_ind. destruct r as [nm cond act kids]. cbn in *.
  intros ([] & Hv & Hk%for_each_ok)%bind_ok. split; [done|]. intros r' Hin.
  inversion Hin as [? Hr|parent ? Hp Hc]; subst.
  - destruct (proj1 (Forall_forall _ _) IH _ Hr) as [H _]; [|done]. by apply (proj1 (Forall_forall _ _) Hk).
  - destruct (proj1 (Forall_forall _ _) IH _ Hp) as [_ H]; [|by apply H]. by apply (proj1 (Forall_forall _ _) Hk).
Qed.
Lemma walk_all visit rules r :
  walk visit rules = Ok tt -> in_tree r rules -> visit (rule_site (Rule.name r)) (Rule.action r) = Ok tt.
Proof.
  intros Hw%for_each_ok. rewrite Forall_forall in Hw. intros Hin. inversion Hin as [? Hr|parent ? Hp Hc]; subst.
  - by destruct (walk_rule_all visit r (Hw _ Hr)).
  - by destruct (walk_rule_all visit parent (Hw _ Hp)) as [_ H]; apply H.
Qed.
Lemma each_threshold_all visit scoring st card t :
  each_threshold visit scoring = Ok tt -> scoring = Some st -> card ∈ scorecards st -> t ∈ thresholds card ->
  visit card t = Ok tt.
Proof.
  intros H ->. cbn in H. apply for_each_ok in H. rewrite Forall_forall in H. intros Hc Ht.
  specialize (H _ Hc). apply for_each_ok in H. by apply (proj1 (Forall_forall _ _) H).
Qed.
(** A check made of every rule and of every threshold holds of what may run. *)
Lemma checked_everywhere visit visit' rules scoring (P : Action -> Prop) a :
  walk visit rules = Ok tt -> each_threshold visit' scoring = Ok tt ->
  (forall site b, visit site b = Ok tt -> P b) -> (forall card t, visit' card t = Ok tt -> P (th_action t)) ->
  runs rules scoring a -> P a.
Proof.
  intros Hw Ht Hv Hv' [(r & Hin & <-)|(st & card & t & Hs & Hc & Hth & <-)].
  - eapply Hv. by eapply walk_all.
  - eapply Hv'. by eapply each_threshold_all.
Qed.

(** What the actions that compile may end in. *)
Lemma built_actions p parent cfgs rules r :
  Forall2 (built p parent) cfgs rules -> in_tree r rules -> action_wf (Rule.action r).
Proof.
  intros Hb Hin. revert p parent cfgs Hb. induction Hin as [rules Hr|up rules Hup Hin IH]; intros p parent cfgs Hb.
  - apply list_elem_of_lookup in Hr as [i Hi]. destruct (Forall2_lookup_r _ _ _ _ _ Hb Hi) as (c & _ & Hbc). by inversion Hbc.
  - apply list_elem_of_lookup in Hup as [i Hi]. destruct (Forall2_lookup_r _ _ _ _ _ Hb Hi) as (c & _ & Hbc).
    inversion Hbc; subst. by eapply IH.
Qed.
Lemma runs_wf prelude cfgs code rules scfg scoring a :
  build_rules prelude cfgs code "" = Ok rules ->
  (forall st, scoring = Some st -> exists c, scoring_build c prelude scfg = Ok st) -> runs rules scoring a -> action_wf a.
Proof.
  intros Hr Hs [(r & Hin & <-)|(st & card & t & E & Hc & Ht & <-)].
  - apply traverse_ok in Hr. eapply (built_actions prelude "" cfgs); [|exact Hin].
    eapply Forall2_impl; [exact Hr|]. intros c r'. apply build_rule_built.
  - destruct (Hs st E) as (c & (_ & _ & Hcards & _)%scoring_build_ok).
    destruct (proj1 (Forall_forall _ _) Hcards _ Hc) as (_ & _ & _ & _ & Hths).
    by destruct (proj1 (Forall_forall _ _) Hths _ Ht) as (_ & Hwf & _).
Qed.

(** A part of an action that compiled is the action or one it runs in the end. *)
Lemma part_of_sub b a : sub_action_wf a -> part_of b a -> b = a.
Proof. intros Hw Hp. by inversion Hp; subst. Qed.
Lemma part_of_wf b a :
  action_wf a -> part_of b a ->
  b = a \/ exists names code d pass fail,
    (a = AChallenge (MkChallengeAction names code d pass fail) \/ a = ACheck (MkChallengeAction names code d pass fail)) /\
    (b = pass \/ b = fail) /\ sub_action_wf b.
Proof.
  intros Hw Hp. inversion Hp as [|names code d pass fail H|names code d pass fail H]; subst; [by left|right..].
  all: exists names, code, d, pass, fail; destruct Hw as [Hp1 Hf1].
  all: destruct H as [H|H]; [pose proof (part_of_sub _ _ Hp1 H) as ->|pose proof (part_of_sub _ _ Hf1 H) as ->];
    split_and!; auto.
Qed.

Context {NA : IpNetworkApi} {RS : RhaiScript} {MA : MazeApi}.
Variables acme fcrdns : bool.

(** What each step of compiling produced. *)
Lemma state_compile_parts config seed_persistent c :
  state_compile acme fcrdns config seed_persistent = Ok c ->
  build_rules (cp_prelude c) (pc_rules (wc_policy config)) (wc_challenge_http_code config) "" = Ok (cp_rules c) /\
  pool_build (wc_backends config) (wc_template config) = Ok (cp_backends c) /\
  build_scoring config (cp_prelude c) = Ok (cp_scoring c) /\
  registry_build (pc_challenges (wc_policy config)) = Ok (cp_challenges c) /\
  validate_proxy_backends (cp_rules c) (cp_backends c) = Ok tt /\
  validate_threshold_backends (cp_scoring c) (cp_backends c) = Ok tt /\
  validate_mazes config seed_persistent = Ok tt /\
  validate_tarpit_references (cp_rules c) (cp_scoring c) (pc_mazes (wc_policy config)) = Ok tt /\
  validate_challenge_references (cp_rules c) (cp_scoring c) (cp_challenges c) = Ok tt /\
  crawler_providers fcrdns config = Ok (cp_crawlers c) /\
  compile_client_ip config = Ok (cp_client_ip c).
Proof.
  unfold state_compile. intros H. cbv zeta in H. inv_result. cbn.
  repeat match goal with x : unit |- _ => destruct x end. by split_and!.
Qed.

Lemma compiled_wf config seed_persistent c a :
  state_compile acme fcrdns config seed_persistent = Ok c -> runs (cp_rules c) (cp_scoring c) a -> action_wf a.
Proof.
  intros (Hr & _ & Hs & _)%state_compile_parts. apply (runs_wf _ _ _ _ (wc_challenge_http_code config) _ _ Hr).
  intros st E. unfold build_scoring in Hs. destruct (pc_scoring _) as [sc|]; [|by rewrite E in Hs].
  destruct (scoring_build sc _ _) as [st'|] eqn:Es; [|done]. cbn in Hs. injection Hs as Hs. rewrite E in Hs.
  injection Hs as <-. by exists sc.
Qed.

Lemma backend_known_ok backends message re rw b :
  backend_known backends message (AProxy re rw b) = Ok tt -> is_Some (pool_by_name backends b).
Proof. cbn. intros H%fail_if_ok. apply negb_false_iff, is_some_spec in H. done. Qed.
Lemma mazes_known_ok mazes site a m :
  mazes_known mazes site a = Ok tt -> m ∈ maze_references a -> m ∈ mz_name <$> mazes.
Proof.
  intros H%for_each_ok Hin. pose proof (proj1 (Forall_forall _ _) H _ Hin) as Hk. cbn beta in Hk. unfold tarpit_maze_known in Hk.
  destruct (existsb _ _) eqn:E; [|done].
  apply existsb_elem in E as (maze & Hm & Hn). apply String.eqb_eq in Hn as <-. apply list_elem_of_fmap. by exists maze.
Qed.

(** A registered challenge an action may issue. *)
Definition challenge_usable (registry : gmap string ChallengeRegistration) (check : bool) (difficulty : option N) (name : string) : Prop :=
  exists r, registry !! name = Some r /\
    (check = true -> class r = Blocking -> exists p, runtime r = CPow p) /\
    (forall d, difficulty = Some d -> 1 <= d <= 32 /\ exists p, runtime r = CPow p).
Lemma validate_challenge_ok registry site check difficulty name :
  validate_challenge registry site check difficulty name = Ok tt -> challenge_usable registry check difficulty name.
Proof.
  unfold validate_challenge, challenge_usable. destruct (registry !! name) as [r|]; cbn [ok_or mbind result_bind]; [|done].
  intros ([] & Hb%fail_if_ok & Hd)%bind_ok. exists r. split_and!; [done|..].
  - intros -> Hc. rewrite Hc in Hb. cbn in Hb. apply negb_false_iff in Hb. destruct (runtime r); try done. by eexists.
  - intros d ->. cbn in Hd. destruct (runtime r); try done. apply fail_if_ok, negb_false_iff in Hd.
    unfold in_difficulty_range in Hd. rewrite andb_true_iff, !N.leb_le in Hd. split; [done|by eexists].
Qed.

(** What an action names that a configuration must have. *)
Definition resolves (config : WebConfig) (c : Compiled) (a : Action) : Prop :=
  (forall re rw b, a = AProxy re rw b -> exists backend, pool_by_name (cp_backends c) b = Some backend /\
     bk_name (be_config backend) = b /\ be_config backend ∈ wc_backends config) /\
  (forall m, a = ATarpit m \/ a = ALure m ->
     exists maze, maze ∈ pc_mazes (wc_policy config) /\ mz_name maze = m /\
       forall master host table, build_table master host (pc_mazes (wc_policy config)) = Ok table ->
         exists rt, by_name m table = Some rt /\ mr_config rt = maze) /\
  (forall names code d pass fail, a = AChallenge (MkChallengeAction names code d pass fail) ->
     Forall (challenge_usable (cp_challenges c) false d) names) /\
  (forall names code d pass fail, a = ACheck (MkChallengeAction names code d pass fail) ->
     Forall (challenge_usable (cp_challenges c) true d) names).

Lemma table_finds config seed_persistent maze master host table :
  validate_mazes config seed_persistent = Ok tt -> maze ∈ pc_mazes (wc_policy config) ->
  build_table master host (pc_mazes (wc_policy config)) = Ok table ->
  exists rt, by_name (mz_name maze) table = Some rt /\ mr_config rt = maze.
Proof.
  intros (_ & Hnd & _)%mazes_accepted_exactly Hin Hb.
  destruct (build_table_spec master host (pc_mazes (wc_policy config))) as [Hok Herr].
  destruct (decide (NoDup (maze_prefix master host <$> pc_mazes (wc_policy config)))) as [Hp|Hp].
  2: { destruct (Herr Hp) as [e He]. congruence. }
  destruct (Hok Hp) as (table' & Hb' & _ & Hname & Hsome). rewrite Hb in Hb'. injection Hb' as <-.
  destruct (Hsome _ Hin) as [rt Hrt]. exists rt. split; [done|].
  destruct (Hname _ _ Hrt) as (maze' & Hin' & E & ->). cbn. symmetry. revert Hnd Hin Hin' E. clear.
  generalize (pc_mazes (wc_policy config)). induction l as [|m l IH]; [by intros _ ?%elem_of_nil|].
  rewrite fmap_cons, NoDup_cons. intros [Hm Hnd] Hi Hi' E. apply elem_of_cons in Hi as [->|Hi], Hi' as [->|Hi']; [done|..].
  - exfalso. apply Hm. rewrite <- E. by apply list_elem_of_fmap_2.
  - exfalso. apply Hm. rewrite E. by apply list_elem_of_fmap_2.
  - by apply IH.
Qed.

Lemma compiled_resolves config seed_persistent c a :
  state_compile acme fcrdns config seed_persistent = Ok c -> runs (cp_rules c) (cp_scoring c) a ->
  (forall m, m ∈ maze_references a -> exists maze, maze ∈ pc_mazes (wc_policy config) /\ mz_name maze = m) /\
  resolves config c a.
Proof.
  intros (_ & Hpool & _ & _ & Hpr & Hpt & Hm & Ht & Hc & _)%state_compile_parts Hruns.
  assert (Hb : forall re rw b, a = AProxy re rw b -> is_Some (pool_by_name (cp_backends c) b)).
  { refine (checked_everywhere _ _ _ _ (fun a => forall re rw b, a = AProxy re rw b -> is_Some (pool_by_name (cp_backends c) b))
      a Hpr Hpt _ _ Hruns).
    - intros site b Hk re rw name ->. by eapply backend_known_ok.
    - intros card t Hk re rw name E. rewrite E in Hk. by eapply backend_known_ok. }
  unfold validate_tarpit_references in Ht. apply bind_ok in Ht as ([] & Hw & Hth).
  assert (Hmz : forall m, m ∈ maze_references a -> m ∈ mz_name <$> pc_mazes (wc_policy config)).
  { refine (checked_everywhere _ _ _ _ (fun a => forall m, m ∈ maze_references a -> m ∈ mz_name <$> pc_mazes (wc_policy config))
      a Hw Hth _ _ Hruns); intros; by eapply mazes_known_ok. }
  assert (Hmaze : forall m, m ∈ maze_references a -> exists maze, maze ∈ pc_mazes (wc_policy config) /\ mz_name maze = m).
  { intros m (maze & -> & Hin)%Hmz%list_elem_of_fmap. by exists maze. }
  unfold validate_challenge_references in Hc. apply bind_ok in Hc as ([] & Hcw & Hct).
  assert (Hv : exists site, validate_action (cp_challenges c) site a = Ok tt).
  { refine (checked_everywhere _ _ _ _ (fun a => exists site, validate_action (cp_challenges c) site a = Ok tt) a
      Hcw Hct _ _ Hruns); intros; by eexists. }
  destruct Hv as [site Hv]. split; [done|]. unfold resolves. split_and!.
  - intros re rw b E. destruct (Hb _ _ _ E) as [bk Hbk]. exists bk. split; [done|].
    pose proof (backend_by_name _ _ _ b Hpool) as H. rewrite Hbk in H. by destruct H as (? & ? & _).
  - intros m Hm'. destruct (Hmaze m) as (maze & Hin & <-); [destruct Hm' as [-> | ->]; by left|].
    exists maze. split_and!; [done..|]. intros master host table. by eapply table_finds.
  - intros names code d pass fail ->. cbn in Hv. apply for_each_ok in Hv. eapply Forall_impl; [exact Hv|].
    intros name. apply validate_challenge_ok.
  - intros names code d pass fail ->. cbn in Hv. apply for_each_ok in Hv. eapply Forall_impl; [exact Hv|].
    intros name. apply validate_challenge_ok.
Qed.

Lemma compiled_parts_resolve config seed_persistent c a b :
  state_compile acme fcrdns config seed_persistent = Ok c -> runs (cp_rules c) (cp_scoring c) a -> part_of b a ->
  resolves config c b.
Proof.
  intros Hc Hr Hp. destruct (compiled_resolves config seed_persistent c a Hc Hr) as [Hm Hres].
  destruct (part_of_wf b a (compiled_wf _ _ _ _ Hc Hr) Hp) as [->|(names & code & d & pass & fail & Ea & Eb & Hw)]; [done|].
  unfold resolves. split_and!; try (intros; subst b; done).
  intros m Hb. destruct (Hm m) as (maze & Hin & <-).
  - assert (b = ATarpit m) as -> by (destruct Hb; [done|by subst]).
    destruct Ea as [-> | ->]; cbn; destruct Eb as [<- | <-]; cbn; [by left|..|by left|];
      destruct pass; cbn; set_solver.
  - exists maze. split_and!; [done..|]. intros master host table.
    apply (table_finds config seed_persistent maze); [|done]. by apply state_compile_parts in Hc as (_ & _ & _ & _ & _ & _ & ? & _).
Qed.
(** C27: everything a compiled configuration may run refers to things it has. For
    every action of a rule at any depth or of a threshold, and for every action such an
    action may end in, a proxied request finds the configured backend it names, a
    tarpit or a lure names a configured maze that every table of a host has under that
    name, challenges are registered and, when checked in the background, able
    to run there, and a difficulty is one a proof of work can demand. *)
Theorem compiled_references config seed_persistent c a b :
  state_compile acme fcrdns config seed_persistent = Ok c -> runs (cp_rules c) (cp_scoring c) a -> part_of b a ->
  resolves config c b.
Proof. apply compiled_parts_resolve. Qed.
End References.

(** ** A configuration that uses all of it *)

Module StateExample.
#[export] Existing Instance Literal.regex.
#[export] Existing Instance LiteralRule.rhai.
#[export] Existing Instance ProxyExample.uri.
#[export] Existing Instance ProxyExample.parts.
#[export] Existing Instance ProxyExample.http.
#[export] Existing Instance ProxyExample.text.
#[export] Existing Instance cidr_api.
#[export] Existing Instance Toy.toy.
#[export] Existing Instance Toy.toy_laws.
(** A script is the name of its one constant. *)
#[export] Instance script : RhaiScript := {|
  run_script := fun s => Ok ((if str_is_empty s then [] else [StmtVar true s "1:7"]), tt);
  compile_functions := fun _ _ => Ok "path";
  gen_fn_signatures := fun _ => ["starts_with(string: string, match_string: string) -> bool"; "now()"];
  iter_functions := fun _ => [] |}.

Example signatures :
  signature_arity <$>
    ["starts_with(string: string, match_string: string) -> bool"; "now()"; "pick(map: Map<K, V>, n: i64)"; "odd"] =
  [Some ("starts_with", 2); Some ("now", 0); Some ("pick", 2); None].
Proof. vm_refl. Qed.
Example constants_once :
  declared_constants [] [StmtVar true "a" "1:7"; StmtOther; StmtVar true "a" "2:7"] =
    Err "prelude: duplicate constant 'a' at 2:7".
Proof. vm_refl. Qed.

Definition settings (backend maze : option string) (difficulty : option N) : RuleSettings := {|
  http_code := None; pass_action := Some "pass"; fail_action := maze ≫= fun _ => Some "tarpit";
  response_headers := []; request_headers := []; match_re := None; rewrite := None; backend := backend;
  maze := maze; kind := None; Rule.difficulty := difficulty |}.
Definition rules : list RuleConfig :=
  [MkRuleConfig "bots" (Some "path") "check" ["pow"] (settings None (Some "garden") (Some 7))
     [MkRuleConfig "lead" None "lure" [] (settings None (Some "garden") None) [];
      MkRuleConfig "forge" None "proxy" [] (settings (Some "*.example.com") None None) []]].
Definition challenges : list ChallengeConfig :=
  [{| ch_name := "pow"; ch_runtime := "pow-scratch"; duration_secs := 3600; parameters := {["memory" := "512"]} |}].
Definition renderer : RendererConfig := {|
  rd_name := "words"; rd_kind := "iocaine"; rd_endpoint := "http://render/page"; rd_timeout := 2; rd_max_body := 262144;
  rd_max_concurrency := 128; rd_rate := 50; rd_burst := 200; rd_decoy_rate := 10; rd_decoy_burst := 40;
  rd_cooldown := 60 |}.
Definition config_with (rules : list RuleConfig) (crawlers : list CrawlerConfig) : WebConfig := {|
  wc_bind := bind_default; wc_challenge_http_code := 418; wc_cache_dir := None; wc_client_ip_header := None;
  wc_client_tls_header := None; wc_trusted_proxies := None; wc_backends := ProxyExample.configs;
  wc_policy := {| pc_networks := []; pc_prelude := [{| pl_script := "lim" |}]; pc_challenges := challenges;
    pc_rules := rules; pc_scoring := None; pc_mazes := [Toy.garden]; pc_renderers := [renderer]; pc_crawlers := crawlers |};
  wc_strings := ∅; wc_links := []; wc_logo := None; wc_theme := None; wc_template := ProxyExample.theme;
  wc_deception := deception_default; wc_smear := smear_default |}.
Definition config : WebConfig := config_with rules [{| cr_name := "goog"; cr_suffixes := ["..Googlebot.com"] |}].
Definition compiled : Compiled := from_ok (state_compile false true config true) ltac:(vm_refl).

(** The crawler's suffix is normalised; a build without the feature refuses it, an
    ephemeral seed refuses mazes, and a reference that does not resolve is refused
    wherever it is. *)
Example normalized : cr_suffixes <$> cp_crawlers compiled = [[".googlebot.com"]].
Proof. vm_refl. Qed.
Example refused_configs :
  (fun r => match r with Ok _ => "" | Err (Error.Config m) => m | Err _ => "?" end) <$>
    [(state_compile false true config false ;; Ok tt);
     (state_compile false true (config_with [MkRuleConfig "a" None "none" [] LiteralRule.no_settings
        [MkRuleConfig "b" None "tarpit" [] (settings None (Some "lawn") None) []]] []) true ;; Ok tt);
     (state_compile false true (config_with [MkRuleConfig "a" None "challenge" ["pow"] (settings None (Some "lawn") None) []] []) true ;; Ok tt);
     (state_compile false true (config_with [MkRuleConfig "a" None "proxy" [] (settings (Some "git") None None) []] []) true ;; Ok tt)] =
  ["maze support requires a persistent key seed (--key-seed or --key-seed-file), since restarting must never silently change live maze routes";
   "rule 'a/b': references unknown maze 'lawn'"; "rule 'a': references unknown maze 'lawn'";
   "rule 'a': proxy action references unknown backend 'git'"].
Proof. vm_refl. Qed.
End StateExample.
Import StateExample.

Lemma compiled_references_witness :
  exists maze, maze ∈ pc_mazes (wc_policy StateExample.config) /\ mz_name maze = "garden".
Proof.
  assert (H : state_compile false true StateExample.config true = Ok StateExample.compiled) by apply from_ok_eq.
  destruct (cp_rules StateExample.compiled) as [|r rs] eqn:E; [discriminate E|].
  assert (Ha : runs (cp_rules StateExample.compiled) (cp_scoring StateExample.compiled) (Rule.action r)).
  { left. exists r. split; [|reflexivity]. rewrite E. constructor. left. }
  assert (Hp : part_of (ATarpit "garden") (Rule.action r)).
  { injection E as <- _. apply PartCheck. right. apply PartSelf. }
  destruct (compiled_references false true StateExample.config true StateExample.compiled (Rule.action r)
              (ATarpit "garden") H Ha Hp) as (_ & Hm & _).
  destruct (Hm "garden" (or_introl eq_refl)) as (maze & Hin & Hn & _). exists maze. split; assumption.
Defined.
Lemma configured_pages_finish_witness :
  exists html calls, render_page Toy.seed (budget_of Toy.garden) Toy.plain_link = Some (html, calls) /\ N.of_nat calls <= 64.
Proof.
  assert (H : validate_mazes StateExample.config true = Ok tt) by vm_refl.
  assert (Hin : Toy.garden ∈ pc_mazes (wc_policy StateExample.config)) by (left).
  destruct (configured_pages_finish StateExample.config true Toy.garden Toy.seed Toy.plain_link 2 H Hin)
    as (html & calls & Hr & Hc & _); [intros call path _; by vm_compute; lia|].
  exists html, calls. split; [exact Hr|lia].
Defined.
