(* ===== verification/Crawler.v ===== *)
(** * Verified crawlers

    [crates/bagel-web/src/crawler.rs]: a client that claims to be a crawler is
    believed when its address resolves to a name of a configured provider that
    resolves back to the address. Verdicts are cached and look-ups run as tasks, one
    per address and 64 in all; a caller's progress is a state machine whose steps
    interleave with every other's, each a single access to the state that is shared. *)

From S2P Require Import Prelude WebConfig Proxy ProxyFacts State StateFacts Core Strings.
From S2P Require Import Ip Host Url Rule Policy Census.

Local Open Scope N_scope.

Definition SECOND : N := 1000000000.
Definition POSITIVE_TTL : N := 3600 * SECOND.
Definition NEGATIVE_TTL : N := 300 * SECOND.
Definition MAX_CONCURRENT_LOOKUPS : nat := 64.

(** What DNS answered during one look-up ([ReverseDns]): the names of the address, and
    the addresses of a name; a failure is an empty answer. *)
Record Answers : Type := { reverse : list string; forward : string -> list IpAddr }.

(** ** The check *)

(** A suffix has a leading dot. *)
Definition after_dot (suffix : string) : string := match suffix with String _ rest => rest | EmptyString => "" end.
Definition suffix_matches (name suffix : string) : bool :=
  ends_with suffix name || String.eqb name (after_dot suffix).
Definition dns_name (name : string) : string := to_lowercase (trim_end_of ["."] name).
Definition provider_matches (providers : list CrawlerConfig) (name : string) : bool :=
  existsb (fun provider => existsb (suffix_matches name) (cr_suffixes provider)) providers.
(** The loop over the names stops at the first that is confirmed. *)
Fixpoint check_names (providers : list CrawlerConfig) (forward : string -> list IpAddr) (ip : IpAddr) (names : list string) :
    bool :=
  match names with
  | [] => false
  | name :: names =>
      let name := dns_name name in
      if provider_matches providers name && existsb (fun a => bool_decide (a = ip)) (forward name) then true
      else check_names providers forward ip names
  end.
Definition check (providers : list CrawlerConfig) (dns : Answers) (ip : IpAddr) : bool :=
  check_names providers (forward dns) ip (reverse dns).

(** ** Look-ups *)

(** How far a call of [verify], or the task it spawned, has come. *)
Inductive Call : Type :=
| Asked (ip : IpAddr)
| Missed (ip : IpAddr)                              (* not in the cache *)
| Claimed (ip : IpAddr)                             (* put into [pending] *)
| Denied (ip : IpAddr)                              (* no permit was left *)
| Looking (ip : IpAddr)                             (* the task holds a permit *)
| Found (ip : IpAddr) (verified : bool) (dns : Answers)
| Stored (ip : IpAddr) (verified : bool) (dns : Answers)
| Released (ip : IpAddr) (verified : bool) (dns : Answers)  (* out of [pending] *)
| Done (ip : IpAddr) (verified : bool) (dns : Answers)
| Cached (ip : IpAddr) (verified : bool) (at_ : N)   (* answered from the cache *)
| Refused (ip : IpAddr)                             (* answered [false] without a look-up *)
| Panicked (ip : IpAddr).                           (* in [set_with_ttl]; the permit is dropped *)

(** The history of stored positive verdicts is kept for the theorems. *)
Record Verifier : Type := {
  vf_clock : N; vf_cache : DecayMap IpAddr bool; vf_pending : gset IpAddr; vf_permits : nat;
  vf_calls : list Call; vf_verified : list (IpAddr * Answers * N) }.
Definition verifier_new (now : N) : Verifier := {|
  vf_clock := now; vf_cache := decay_new POSITIVE_TTL; vf_pending := ∅; vf_permits := MAX_CONCURRENT_LOOKUPS;
  vf_calls := []; vf_verified := [] |}.

(** A new call, or the next access of one, at the time it reads the clock; a look-up
    that ends has the answers it got, or ran out of time. *)
Inductive Event : Type :=
| Ask (ip : IpAddr)
| Move (call : nat) (now : N) (answers : option Answers).

Definition with_calls (v : Verifier) (now : N) (calls : list Call) : Verifier := {|
  vf_clock := now; vf_cache := vf_cache v; vf_pending := vf_pending v; vf_permits := vf_permits v;
  vf_calls := calls; vf_verified := vf_verified v |}.
Definition with_pending (v : Verifier) (pending : gset IpAddr) : Verifier := {|
  vf_clock := vf_clock v; vf_cache := vf_cache v; vf_pending := pending; vf_permits := vf_permits v;
  vf_calls := vf_calls v; vf_verified := vf_verified v |}.
Definition with_permits (v : Verifier) (permits : nat) : Verifier := {|
  vf_clock := vf_clock v; vf_cache := vf_cache v; vf_pending := vf_pending v; vf_permits := permits;
  vf_calls := vf_calls v; vf_verified := vf_verified v |}.
Definition with_cache (v : Verifier) (cache : DecayMap IpAddr bool) (verified : list (IpAddr * Answers * N)) : Verifier := {|
  vf_clock := vf_clock v; vf_cache := cache; vf_pending := vf_pending v; vf_permits := vf_permits v;
  vf_calls := vf_calls v; vf_verified := verified |}.

Section Verify.
Variable providers : list CrawlerConfig.

(** The verdict stored: [set] or [set_with_ttl], which may panic. *)
Definition store_verdict (ip : IpAddr) (verified : bool) (now : N) (cache : DecayMap IpAddr bool) :
    option (DecayMap IpAddr bool) :=
  if verified then Some (decay_set ip true now cache) else decay_set_with_ttl ip false NEGATIVE_TTL now now cache.
(** One access of a call: where it is afterwards and what it changed. *)
Definition advance (call : Call) (now : N) (answers : option Answers) (v : Verifier) : option (Call * Verifier) :=
  match call with
  | Asked ip =>
      Some match decay_get ip now (vf_cache v) with
           | Some cached => (Cached ip cached now, v)
           | None => (Missed ip, v)
           end
  | Missed ip =>
      Some (if bool_decide (ip ∈ vf_pending v) then (Refused ip, v)
            else (Claimed ip, with_pending v ({[ip]} ∪ vf_pending v)))
  | Claimed ip =>
      Some match vf_permits v with
           | O => (Denied ip, v)
           | S permits => (Looking ip, with_permits v permits)
           end
  | Denied ip => Some (Refused ip, with_pending v (vf_pending v ∖ {[ip]}))
  | Looking ip =>
      Some match answers with
           | Some dns => (Found ip (check providers dns ip) dns, v)
           | None => (Found ip false {| reverse := []; forward := fun _ => [] |}, v)
           end
  | Found ip verified dns =>
      Some match store_verdict ip verified now (vf_cache v) with
           | Some cache =>
               (Stored ip verified dns,
                with_cache v cache (if verified then (ip, dns, now) :: vf_verified v else vf_verified v))
           | None => (Panicked ip, with_permits v (S (vf_permits v)))
           end
  | Stored ip verified dns => Some (Released ip verified dns, with_pending v (vf_pending v ∖ {[ip]}))
  | Released ip verified dns => Some (Done ip verified dns, with_permits v (S (vf_permits v)))
  | Done _ _ _ | Cached _ _ _ | Refused _ | Panicked _ => None
  end.
Definition step (e : Event) (v : Verifier) : option Verifier :=
  match e with
  | Ask ip => Some (with_calls v (vf_clock v) (vf_calls v ++ [Asked ip]))
  | Move i now answers =>
      call ← vf_calls v !! i;
      if now <? vf_clock v then None
      else
        '(call, v') ← advance call now answers v;
        Some (with_calls v' now (<[i := call]> (vf_calls v)))
  end.
Fixpoint run (es : list Event) (v : Verifier) : option Verifier :=
  match es with
  | [] => Some v
  | e :: es => v ← step e v; run es v
  end.
End Verify.

(** What the caller may be told: within its budget the task's verdict, and otherwise
    [false]. *)
Definition may_answer (call : Call) (answer : bool) : Prop :=
  match call with
  | Cached _ verified _ => answer = verified
  | Done _ verified _ => answer = verified \/ answer = false
  | Looking _ | Found _ _ _ | Stored _ _ _ | Released _ _ _ => answer = false
  | Refused _ | Panicked _ => answer = false
  | Asked _ | Missed _ | Claimed _ | Denied _ => False
  end.
Definition call_ip (call : Call) : IpAddr :=
  match call with
  | Asked ip | Missed ip | Claimed ip | Denied ip | Looking ip | Refused ip | Panicked ip => ip
  | Found ip _ _ | Stored ip _ _ | Released ip _ _ | Done ip _ _ | Cached ip _ _ => ip
  end.

(** * What a verified crawler is

    The check of [Crawler] against forward-confirmed reverse DNS, names matched at
    label boundaries, and the invariants of interleaved look-ups. *)

Local Open Scope N_scope.

(** ** The check *)

(** A name at or below a domain. *)
Definition below (domain name : string) : Prop := name = domain \/ exists sub, name = sub +:+ "." +:+ domain.

Lemma ends_with_spec suffix name : ends_with suffix name = true <-> exists sub, name = sub +:+ suffix.
Proof.
  split; [apply ends_with_app|]. intros [sub ->]. unfold ends_with. by rewrite strip_suffix_app.
Qed.
Lemma suffix_matches_spec domain name : suffix_matches name ("." +:+ domain) = true <-> below domain name.
Proof.
  unfold suffix_matches, below. rewrite orb_true_iff, ends_with_spec, String.eqb_eq. cbn [after_dot String.append].
  tauto.
Qed.

Lemma check_names_spec providers fwd ip names :
  check_names providers fwd ip names = true <->
  exists name, name ∈ names /\ provider_matches providers (dns_name name) = true /\ ip ∈ fwd (dns_name name).
Proof.
  induction names as [|n names IH]; cbn [check_names].
  { split; [done|]. by intros (? & ?%elem_of_nil & _). }
  destruct (_ && _) eqn:E.
  - apply andb_true_iff in E as [Hp He]. apply existsb_elem in He as (a & Ha & ->%bool_decide_eq_true).
    split; [|done]. intros _. exists n. split; [by left|done].
  - rewrite IH. split; [intros (m & ? & ?); exists m; split; [by right|done]|].
    intros (m & [->|Hm]%elem_of_cons & Hp & Hf); [|by exists m]. exfalso. rewrite Hp in E. cbn in E.
    apply not_true_iff_false in E. apply E, existsb_elem. exists ip. split; [done|by apply bool_decide_eq_true].
Qed.

Lemma normalized_suffix name suffix s :
  normalize_suffix name suffix = Ok s -> exists domain, s = "." +:+ domain /\ is_valid_dns_name domain = true.
Proof.
  unfold normalize_suffix. intros (h & Hh & H)%bind_ok. apply map_err_ok, host_parse_canonical in Hh.
  unfold is_ip, canonical in *. destruct (host_ip h); [done|]. injection H as <-. by exists (host_text h).
Qed.
Lemma normalized_suffixes config providers p s :
  normalize_crawler_providers config = Ok providers -> p ∈ providers -> s ∈ cr_suffixes p ->
  exists domain, s = "." +:+ domain /\ is_valid_dns_name domain = true.
Proof.
  intros (_ & _ & H2)%each_named_empty Hp Hs. apply list_elem_of_lookup in Hp as [i Hi].
  destruct (Forall2_lookup_r _ _ _ _ _ H2 Hi) as (c & _ & Hc). unfold normalize_crawler in Hc. inv_result. cbn in Hs.
  match goal with H : traverse _ _ = Ok _ |- _ => apply traverse_ok in H; rename H into Ht end.
  apply list_elem_of_lookup in Hs as [j Hj]. destruct (Forall2_lookup_r _ _ _ _ _ Ht Hj) as (x & _ & Hx).
  by eapply normalized_suffix.
Qed.

(** A crawler is verified by forward-confirmed reverse DNS within a configured
    domain. With the providers of an accepted configuration, the check of an address
    succeeds exactly when one of the names the address resolves to is, without
    final dots and in lower case, a configured provider's domain or below it at a
    label boundary, and resolves back to the address; each such domain is a valid DNS
    name. *)
Theorem crawler_check_exact config providers dns ip :
  normalize_crawler_providers config = Ok providers ->
  (check providers dns ip = true <->
   exists name domain p, name ∈ reverse dns /\ p ∈ providers /\ "." +:+ domain ∈ cr_suffixes p /\
     is_valid_dns_name domain = true /\ below domain (dns_name name) /\ ip ∈ forward dns (dns_name name)).
Proof.
  intros Hn. unfold check. rewrite check_names_spec. unfold provider_matches. split.
  - intros (name & Hin & Hm & Hf). apply existsb_elem in Hm as (p & Hp & Hm). apply existsb_elem in Hm as (s & Hs & Hm).
    destruct (normalized_suffixes _ _ _ _ Hn Hp Hs) as (domain & -> & Hd). apply suffix_matches_spec in Hm.
    exists name, domain, p. by split_and!.
  - intros (name & domain & p & Hin & Hp & Hs & _ & Hb & Hf). exists name. split_and!; [done| |done].
    apply existsb_elem. exists p. split; [done|]. apply existsb_elem. exists ("." +:+ domain). split; [done|].
    by apply suffix_matches_spec.
Qed.

(** ** Interleavings *)

Definition claims (ip : IpAddr) (c : Call) : nat :=
  match c with
  | Claimed i | Denied i | Looking i | Found i _ _ | Stored i _ _ | Panicked i => if bool_decide (i = ip) then 1 else 0
  | _ => 0
  end%nat.
Definition permit (c : Call) : nat := match c with Looking _ | Found _ _ _ | Stored _ _ _ | Released _ _ _ => 1 | _ => 0 end%nat.
Definition total (f : Call -> nat) (calls : list Call) : nat := sum_list_with f calls.

Lemma total_calls_app f l k : total f (l ++ k) = (total f l + total f k)%nat.
Proof. unfold total. by rewrite sum_list_with_app. Qed.
Lemma total_insert f calls i c c' :
  calls !! i = Some c -> (total f (<[i := c']> calls) + f c = total f calls + f c')%nat.
Proof.
  unfold total. revert i. induction calls as [|x l IH]; intros [|i] H; try done; simpl in *; [injection H as ->; lia|].
  specialize (IH _ H). lia.
Qed.
Lemma total_member f calls i c : calls !! i = Some c -> (f c <= total f calls)%nat.
Proof.
  unfold total. revert i. induction calls as [|x l IH]; intros [|i] H; try done; cbn in *; [injection H as ->; lia|].
  specialize (IH _ H). lia.
Qed.
Lemma total_two f calls i j c c' :
  i <> j -> calls !! i = Some c -> calls !! j = Some c' -> (f c + f c' <= total f calls)%nat.
Proof.
  revert i j. induction calls as [|x l IH]; intros [|i] [|j] Hne H H'; try done; unfold total in *; cbn in *.
  - injection H as ->. pose proof (total_member f l j c' H'). unfold total in *. lia.
  - injection H' as ->. pose proof (total_member f l i c H). unfold total in *. lia.
  - specialize (IH i j ltac:(congruence) H H'). unfold total in *. lia.
Qed.

Lemma decay_put_lookup (k k' : IpAddr) (b : bool) stamp now (m : DecayMap IpAddr bool) e :
  dm_inner (decay_put k b stamp now m) !! k' = Some e -> (k' = k /\ e = (b, stamp)) \/ dm_inner m !! k' = Some e.
Proof.
  unfold decay_put, decay_retain. cbn [dm_inner with_inner]. destruct (_ || _).
  - rewrite lookup_insert_Some. intros [[<- <-]|[_ H]]; [by left|right]. by apply map_lookup_filter_Some in H as [H _].
  - intros H. right. by apply map_lookup_filter_Some in H as [H _].
Qed.
Lemma decay_put_ttl (k : IpAddr) (b : bool) stamp now (m : DecayMap IpAddr bool) : dm_ttl (decay_put k b stamp now m) = dm_ttl m.
Proof. done. Qed.
Lemma decay_get_live (ip : IpAddr) now (m : DecayMap IpAddr bool) b :
  decay_get ip now m = Some b -> exists s, dm_inner m !! ip = Some (b, s) /\ now <= s + dm_ttl m.
Proof.
  unfold decay_get. destruct (dm_inner m !! ip) as [[v s]|]; cbn; [|done]. destruct (N.ltb_spec (dm_ttl m) (now - s)); [done|].
  intros [= ->]. exists s. split; [done|lia].
Qed.
Lemma store_lookup ip verified now cache cache' k b s :
  store_verdict ip verified now cache = Some cache' -> dm_inner cache' !! k = Some (b, s) ->
  (k = ip /\ b = verified /\ (verified = true -> s = now)) \/ dm_inner cache !! k = Some (b, s).
Proof.
  unfold store_verdict, decay_set, decay_set_with_ttl. destruct verified.
  - intros [= <-] H%decay_put_lookup. naive_solver.
  - destruct (_ <? _); [done|]. destruct (_ <? _); [done|]. intros [= <-] H%decay_put_lookup. naive_solver.
Qed.
Lemma store_ttl ip verified now cache cache' : store_verdict ip verified now cache = Some cache' -> dm_ttl cache' = dm_ttl cache.
Proof.
  unfold store_verdict, decay_set, decay_set_with_ttl. destruct verified; [by intros [= <-]|].
  destruct (_ <? _); [done|]. destruct (_ <? _); [done|]. by intros [= <-].
Qed.

Section Invariant.
Variable providers : list CrawlerConfig.

(** What is known of a call that has a positive verdict. *)
Definition justified (clock : N) (verified : list (IpAddr * Answers * N)) (c : Call) : Prop :=
  match c with
  | Found ip true dns => check providers dns ip = true
  | Stored ip true dns | Released ip true dns | Done ip true dns => exists s, (ip, dns, s) ∈ verified
  | Cached ip true t => t <= clock /\ exists dns s, (ip, dns, s) ∈ verified /\ s <= t <= s + POSITIVE_TTL
  | _ => True
  end.
Record invariant (v : Verifier) : Prop := {
  inv_pending ip : total (claims ip) (vf_calls v) = if bool_decide (ip ∈ vf_pending v) then 1%nat else 0%nat;
  inv_permits : (vf_permits v + total permit (vf_calls v) = MAX_CONCURRENT_LOOKUPS)%nat;
  inv_ttl : dm_ttl (vf_cache v) = POSITIVE_TTL;
  inv_cache ip s : dm_inner (vf_cache v) !! ip = Some (true, s) -> exists dns, (ip, dns, s) ∈ vf_verified v;
  inv_verified ip dns s : (ip, dns, s) ∈ vf_verified v -> check providers dns ip = true /\ s <= vf_clock v;
  inv_calls : Forall (justified (vf_clock v) (vf_verified v)) (vf_calls v) }.

Lemma justified_mono clock clock' verified verified' c :
  clock <= clock' -> (forall x, x ∈ verified -> x ∈ verified') -> justified clock verified c -> justified clock' verified' c.
Proof.
  intros Hc Hv. destruct c as [| | | | |? [] ?|? [] ?|? [] ?|? [] ?|? [] ?| |]; cbn; try done; try naive_solver.
  intros [? (dns & s & ? & ?)]. split; [lia|]. exists dns, s. split; [by apply Hv|done].
Qed.

Lemma invariant_new now : invariant (verifier_new now).
Proof.
  split; try done. intros ip dns s H. by apply elem_of_nil in H.
Qed.

Ltac fields := cbn [with_calls with_pending with_permits with_cache vf_clock vf_cache vf_pending vf_permits vf_calls vf_verified].
(** A step that changes one call, the set of pending addresses and the permits. *)
Lemma invariant_move v v' i c c' now :
  invariant v -> vf_calls v !! i = Some c -> vf_clock v <= now ->
  vf_cache v' = vf_cache v -> vf_verified v' = vf_verified v ->
  (forall ip, (claims ip c' + if bool_decide (ip ∈ vf_pending v) then 1 else 0) =
              (claims ip c + if bool_decide (ip ∈ vf_pending v') then 1 else 0))%nat ->
  (vf_permits v' + permit c' = vf_permits v + permit c)%nat ->
  justified now (vf_verified v) c' ->
  invariant (with_calls v' now (<[i := c']> (vf_calls v))).
Proof.
  intros [Hp Hn Ht Hc Hv Hj] Hi Hclock Ecache Ever Hpend Hperm Hjc. split; fields; rewrite ?Ecache, ?Ever.
  - intros ip. specialize (Hp ip). specialize (Hpend ip). pose proof (total_insert (claims ip) _ _ _ c' Hi).
    repeat case_bool_decide; lia.
  - pose proof (total_insert permit _ _ _ c' Hi). lia.
  - done.
  - done.
  - intros ip dns s Hin. destruct (Hv _ _ _ Hin). split; [done|lia].
  - apply Forall_insert; [|done]. eapply Forall_impl; [exact Hj|]. intros x. by apply justified_mono.
Qed.

(** Storing a verdict. *)
Lemma invariant_store v i ip verified dns now cache :
  invariant v -> vf_calls v !! i = Some (Found ip verified dns) -> vf_clock v <= now ->
  store_verdict ip verified now (vf_cache v) = Some cache ->
  invariant (with_calls (with_cache v cache (if verified then (ip, dns, now) :: vf_verified v else vf_verified v)) now
    (<[i := Stored ip verified dns]> (vf_calls v))).
Proof.
  intros [Hp Hn Ht Hc Hv Hj] Hi Hclock Hs.
  assert (Hmore : forall x, x ∈ vf_verified v -> x ∈ (if verified then (ip, dns, now) :: vf_verified v else vf_verified v)).
  { intros x Hx. destruct verified; [by right|done]. }
  assert (Hf : verified = true -> check providers dns ip = true).
  { intros ->. apply (Forall_lookup_1 _ _ _ _ Hj Hi). }
  split; fields.
  - intros ip'. pose proof (total_insert (claims ip') _ _ _ (Stored ip verified dns) Hi). rewrite <- (Hp ip'). cbn in *. lia.
  - pose proof (total_insert permit _ _ _ (Stored ip verified dns) Hi). cbn in *. lia.
  - by rewrite (store_ttl _ _ _ _ _ Hs).
  - intros ip' s Hl. destruct (store_lookup _ _ _ _ _ _ _ _ Hs Hl) as [(-> & <- & Hst)|Hold].
    + rewrite (Hst eq_refl). exists dns. by left.
    + destruct (Hc _ _ Hold) as [d Hd]. exists d. by apply Hmore.
  - intros ip' dns' s Hin. destruct verified; [apply elem_of_cons in Hin as [[= -> -> ->]|Hin]|].
    + split; [by apply Hf|done].
    + destruct (Hv _ _ _ Hin). split; [done|lia].
    + destruct (Hv _ _ _ Hin). split; [done|lia].
  - apply Forall_insert; [|destruct verified; [exists now; by left|done]].
    eapply Forall_impl; [exact Hj|]. intros x. by apply justified_mono.
Qed.

(** The sets and permits an access leaves agree with where its call is. *)
Lemma step_ask ip v : invariant v -> invariant (with_calls v (vf_clock v) (vf_calls v ++ [Asked ip])).
Proof.
  intros [Hp Hn Ht Hc Hv Hj]. split; fields; try done.
  - intros ip'. rewrite total_calls_app, Hp. cbn. lia.
  - rewrite total_calls_app. cbn. lia.
  - apply Forall_app. split; [done|by repeat constructor].
Qed.
Lemma claims_self ip c c' :
  claims ip c' = claims ip c -> forall (p : gset IpAddr),
  (claims ip c' + (if bool_decide (ip ∈ p) then 1 else 0) = claims ip c + (if bool_decide (ip ∈ p) then 1 else 0))%nat.
Proof. intros -> p. done. Qed.
(** Leaves what is not evident of the sets, the permits and the verdict. *)
Ltac moved Hinv Hi Hclock :=
  match goal with |- invariant (with_calls ?v' _ _) =>
    refine (invariant_move _ v' _ _ _ _ Hinv Hi Hclock eq_refl eq_refl _ _ _) end; fields;
  [try (intros ip'; by apply claims_self)|cbn; try lia|try done].
Lemma step_invariant e v v' : invariant v -> step providers e v = Some v' -> invariant v'.
Proof.
  intros Hinv. destruct e as [ip|i now answers]; cbn [step].
  { intros [= <-]. by apply step_ask. }
  destruct (vf_calls v !! i) as [c|] eqn:Hi; cbn [mbind option_bind]; [|done].
  destruct (N.ltb_spec now (vf_clock v)) as [?|Hclock]; [done|].
  pose proof (Forall_lookup_1 _ _ _ _ (inv_calls _ Hinv) Hi) as Hj.
  destruct c as [ip|ip|ip|ip|ip|ip b dns|ip b dns|ip b dns| | | |]; cbn [advance mbind option_bind]; try done.
  - destruct (decay_get _ _ _) as [b|] eqn:Eg; intros [= <-]; moved Hinv Hi Hclock.
    destruct b; [|done]. apply decay_get_live in Eg as (s & Hs & Hle). split; [done|].
    destruct (inv_cache _ Hinv _ _ Hs) as [d Hd]. destruct (inv_verified _ Hinv _ _ _ Hd).
    rewrite (inv_ttl _ Hinv) in Hle. exists d, s. split; [done|lia].
  - case_bool_decide as Hin; intros [= <-]; moved Hinv Hi Hclock; intros ip'; cbn; repeat case_bool_decide; set_solver.
  - destruct (vf_permits v) as [|permits] eqn:E; intros [= <-]; moved Hinv Hi Hclock.
  - intros [= <-]. moved Hinv Hi Hclock. intros ip'. cbn.
    pose proof (inv_pending _ Hinv ip) as Hip. pose proof (total_member (claims ip) _ _ _ Hi) as Hm.
    cbn in Hm. repeat case_bool_decide; set_solver by lia.
  - destruct answers as [dns|]; intros [= <-]; moved Hinv Hi Hclock. cbn. by destruct (check _ _ _) eqn:E.
  - destruct (store_verdict _ _ _ _) as [cache|] eqn:Es; intros [= <-].
    + by apply (invariant_store v i ip b dns).
    + moved Hinv Hi Hclock.
  - intros [= <-]. moved Hinv Hi Hclock. intros ip'. cbn.
    pose proof (inv_pending _ Hinv ip) as Hip. pose proof (total_member (claims ip) _ _ _ Hi) as Hm.
    cbn in Hm. repeat case_bool_decide; set_solver by lia.
  - intros [= <-]. moved Hinv Hi Hclock.
Qed.
Lemma run_invariant es v v' : invariant v -> run providers es v = Some v' -> invariant v'.
Proof.
  revert v. induction es as [|e es IH]; intros v Hinv; cbn [run]; [by intros [= <-]|].
  destruct (step providers e v) as [w|] eqn:E; cbn [mbind option_bind]; [|done]. apply IH. by eapply step_invariant.
Qed.

Definition running (c : Call) : bool := match c with Looking _ | Found _ _ _ | Stored _ _ _ => true | _ => false end.
Definition final (c : Call) : bool := match c with Done _ _ _ | Cached _ _ _ | Refused _ | Panicked _ => true | _ => false end.
Lemma running_claims c : running c = true -> claims (call_ip c) c = 1%nat /\ permit c = 1%nat.
Proof. destruct c; try done; intros _; cbn; by rewrite bool_decide_eq_true_2. Qed.
Lemma running_total calls : (length (List.filter running calls) <= total permit calls)%nat.
Proof.
  induction calls as [|c l IH]; [done|]. cbn. destruct (running c) eqn:E; cbn; [|unfold total in *; lia].
  destruct (running_claims c E) as [_ Hp]. unfold total in *. lia.
Qed.
Lemma moves_on v i c now answers :
  vf_calls v !! i = Some c -> final c = false -> vf_clock v <= now ->
  exists v', step providers (Move i now answers) v = Some v'.
Proof.
  intros Hi Hf Hn. cbn [step]. rewrite Hi. cbn [mbind option_bind]. destruct (N.ltb_spec now (vf_clock v)); [lia|].
  assert (exists p, advance providers c now answers v = Some p) as [[c' v'] ->]; [|by eexists].
  destruct c; try done; cbn [advance]; by eexists.
Qed.

(** C29: however calls interleave, a client is a crawler only by a check that succeeded
    for its address, and within an hour when the verdict was cached; never are more than 64
    look-ups under way nor two for one address; and a call that is not over can always
    go on. *)
Theorem crawler_lookups es now v :
  run providers es (verifier_new now) = Some v ->
  (forall c, c ∈ vf_calls v -> may_answer c true ->
     exists dns s, (call_ip c, dns, s) ∈ vf_verified v /\ check providers dns (call_ip c) = true /\ s <= vf_clock v /\
       forall ip b t, c = Cached ip b t -> s <= t <= s + POSITIVE_TTL) /\
  (length (List.filter running (vf_calls v)) <= MAX_CONCURRENT_LOOKUPS)%nat /\
  (forall i j c c', i <> j -> vf_calls v !! i = Some c -> vf_calls v !! j = Some c' ->
     running c = true -> running c' = true -> call_ip c <> call_ip c') /\
  (forall i c later answers, vf_calls v !! i = Some c -> final c = false -> vf_clock v <= later ->
     exists v', step providers (Move i later answers) v = Some v').
Proof.
  intros [Hp Hn Ht Hc Hv Hj]%run_invariant; [|apply invariant_new]. split_and!.
  - intros c Hin Ha. pose proof (proj1 (Forall_forall _ _) Hj _ Hin) as H.
    destruct c as [| | | | | | | |ip b dns|ip b t| |]; cbn in Ha; try done; cbn in *.
    + destruct Ha as [<- | ?]; [|done]. destruct H as [s Hs]. exists dns, s. destruct (Hv _ _ _ Hs). by split_and!.
    + subst b. destruct H as [_ (dns & s & Hs & Hst)]. exists dns, s. destruct (Hv _ _ _ Hs). split_and!; try done.
      intros ? ? ? [= <- <- <-]. done.
  - pose proof (running_total (vf_calls v)). lia.
  - intros i j c c' Hne Hi Hk Hr Hr' E. destruct (running_claims _ Hr) as [H1 _], (running_claims _ Hr') as [H2 _].
    pose proof (total_two (claims (call_ip c)) _ _ _ _ _ Hne Hi Hk) as H. rewrite E in H1, H. rewrite H1, H2, Hp in H.
    case_bool_decide; lia.
  - intros i c later answers. apply moves_on.
Qed.
End Invariant.

(** ** An example *)

Module CrawlerExample.
Definition config : WebConfig := StateExample.config.
Definition providers : list CrawlerConfig := cp_crawlers StateExample.compiled.
Definition ip (last : N) : IpAddr := V4 (of_be_bytes [66; 249; 66; last]).
Definition dns (name : string) (addresses : list IpAddr) : Answers :=
  {| reverse := [name]; forward := fun n => if String.eqb n (dns_name name) then addresses else [] |}.
(** Another address, another domain, the domain itself, and spelled with capitals. *)
Example checks :
  (fun d => check providers d (ip 1)) <$>
    [dns "crawl.googlebot.com" [ip 2]; dns "evilgooglebot.com" [ip 1]; dns "googlebot.com" [ip 1];
     dns "Crawl-1.GoogleBot.com." [ip 2; ip 1]] = [false; false; true; true].
Proof. vm_refl. Qed.
(** Two calls for one address: the second is refused while the first looks up, a third
    is answered from the cache. *)
Definition good : option Answers := Some (dns "crawl.googlebot.com" [ip 1]).
Definition events : list Event :=
  [Ask (ip 1); Ask (ip 1); Move 0 10 None; Move 1 10 None; Move 0 11 None; Move 1 12 None; Move 0 13 None;
   Move 0 20 good; Move 0 21 None; Ask (ip 1); Move 2 30 None; Move 0 31 None; Move 0 32 None].
Definition after : option Verifier := Crawler.run providers events (verifier_new 0).
Example answered :
  (fun v => (fun c => match c with Done _ b _ => Some b | Cached _ b _ => Some b | Refused _ => Some false | _ => None end)
              <$> vf_calls v) <$> after = Some [Some true; Some false; Some true].
Proof. vm_refl. Qed.
End CrawlerExample.

Lemma crawler_check_exact_witness :
  exists domain, below domain (dns_name "Crawl-1.GoogleBot.com.").
Proof.
  assert (H : normalize_crawler_providers CrawlerExample.config = Ok CrawlerExample.providers) by vm_refl.
  destruct (crawler_check_exact CrawlerExample.config CrawlerExample.providers
              (CrawlerExample.dns "Crawl-1.GoogleBot.com." [CrawlerExample.ip 1]) (CrawlerExample.ip 1) H) as [Hc _].
  destruct (Hc ltac:(vm_refl)) as (name & domain & p & Hin & _ & _ & _ & Hb & _).
  exists domain. apply list_elem_of_singleton in Hin. rewrite <- Hin. exact Hb.
Defined.
Lemma crawler_lookups_witness :
  match CrawlerExample.after with Some v => (length (List.filter running (vf_calls v)) <= 64)%nat | None => False end.
Proof.
  destruct CrawlerExample.after as [v|] eqn:E.
  - apply (crawler_lookups CrawlerExample.providers CrawlerExample.events 0 v E).
  - discriminate E.
Defined.
