(* ===== verification/Reload.v ===== *)
(** * Building and reloading the web state

    [crates/bagel-web/src/state.rs]: [StateInner::rebuild] with what it builds and
    what it takes over from the state before. What lives behind an [Arc] is a
    location, taken over when the location is; the one thing a reload changes
    in place, the poison memory, is in the world that calls share. *)

From S2P Require Import Prelude Core Strings Ip ThirdParty Validation Proto Host Url.
From S2P Require Import Rule Scoring Challenge Maze Proxy Rate TlsEdge.
From S2P Require Import Policy WebConfig Kdl State.

Local Open Scope N_scope.

Notation Loc := N.

#[global] Instance renderer_config_eq_dec : EqDecision RendererConfig.
Proof. solve_decision. Defined.
#[global] Instance crawler_config_eq_dec : EqDecision CrawlerConfig.
Proof. solve_decision. Defined.
#[global] Instance deception_config_eq_dec : EqDecision DeceptionConfig.
Proof. solve_decision. Defined.

(** ** The world, and calls that may fail *)

(** The next location, [POLICY_REVISION], and what the poison stores hold. *)
Record World : Type := { w_next : Loc; w_revision : N; w_poison : gmap Loc PoisonStore }.
Definition M (A : Type) : Type := World -> Result A * World.
#[global] Instance m_ret : MRet M := fun A a w => (Ok a, w).
#[global] Instance m_bind : MBind M := fun A B f m w =>
  match m w with
  | (Ok a, w) => f a w
  | (Err e, w) => (Err e, w)
  end.
Definition lift {A} (r : Result A) : M A := fun w => (r, w).
(** [Arc::new]. *)
Definition alloc : M Loc := fun w =>
  (Ok (w_next w), {| w_next := w_next w + 1; w_revision := w_revision w; w_poison := w_poison w |}).
(** [fetch_add(1) + 1], in [u64]. *)
Definition next_revision : M N := fun w =>
  let revision := (w_revision w + 1) mod 2 ^ 64 in
  (Ok revision, {| w_next := w_next w; w_revision := revision; w_poison := w_poison w |}).
Definition set_poison (l : Loc) (store : PoisonStore) : M unit := fun w =>
  (Ok tt, {| w_next := w_next w; w_revision := w_revision w; w_poison := <[l := store]> (w_poison w) |}).
Definition update_poison (l : Loc) (f : PoisonStore -> PoisonStore) : M unit := fun w =>
  set_poison l (f (default ∅ (w_poison w !! l))) w.
(** What is taken over, and otherwise new. *)
Definition carried_or_new (carried : option Loc) : M Loc :=
  match carried with Some l => mret l | None => alloc end.

(** ** The state *)

(** A rate tracker with its capacity; a renderer with its configuration and, in the
    process, the deceiver it draws from. *)
Record Tracker : Type := { tk_loc : Loc; tk_capacity : N }.
Record Renderer : Type := { re_loc : Loc; re_config : RendererConfig; re_deceiver : option Loc }.

Section State.
Context {RX : RegexApi} {HA : HeaderApi} {RH : RhaiApi} {RS : RhaiScript}.
Context {U : UriApi} {UP : UriParts} {HT : HeaderText} {NA : IpNetworkApi} {MA : MazeApi}.
(** Features, and what the machine supplies: a key pair read from its seed, the roots
    a renderer trusts, the system's resolver, the network lists and the workers that
    prepare solvers. *)
Variables acme fcrdns : bool.
Context {Key Networks : Type}.
Variables (from_pkcs8 : list N -> option Key) (tls_roots : result string unit) (system_dns : result string unit)
          (load_networks : list NetworkConfig -> Result Networks) (start_solvers : bool).

Record StateInner : Type := {
  si_config : WebConfig; si_compiled : Compiled; si_networks : Networks; si_revision : N;
  si_maze_tables : gmap string MazeTable; si_wildcard_tables : gmap string (option MazeTable);
  si_rate : Tracker; si_solve : Loc; si_census : Loc; si_visits : Loc; si_pending : Loc; si_solvers : option Loc;
  si_poison : Loc; si_renderers : gmap string Renderer; si_crawlers : option Loc; si_deceiver : Loc; si_smear : Loc;
  si_key : Key; si_seed : list N; si_master : list N; si_seed_persistent : bool; si_hooks : Loc }.

(** *** Renderers *)

Definition is_markov (r : RendererConfig) : bool := String.eqb (rd_kind r) "markov".
Definition carried_renderer (prev : option StateInner) (deceiver : Loc) (r : RendererConfig) : option Renderer :=
  prev ← prev;
  existing ← si_renderers prev !! rd_name r;
  if bool_decide (re_config existing = r) && (negb (is_markov r) || bool_decide (si_deceiver prev = deceiver))
  then Some existing else None.
Definition new_renderer (deceiver : Loc) (r : RendererConfig) : M Renderer :=
  if is_markov r then loc ← alloc; mret {| re_loc := loc; re_config := r; re_deceiver := Some deceiver |}
  else
    lift (map_err (fun err => Error.Config ("renderer '" +:+ rd_name r +:+ "': TLS roots unavailable: " +:+ err)) tls_roots) ;;
    loc ← alloc; mret {| re_loc := loc; re_config := r; re_deceiver := None |}.
Fixpoint build_renderers_go (prev : option StateInner) (deceiver : Loc) (renderers : gmap string Renderer)
    (configs : list RendererConfig) : M (gmap string Renderer) :=
  match configs with
  | [] => mret renderers
  | r :: configs =>
      renderer ← match carried_renderer prev deceiver r with
                 | Some renderer => mret renderer
                 | None => new_renderer deceiver r
                 end;
      build_renderers_go prev deceiver (<[rd_name r := renderer]> renderers) configs
  end.
Definition build_renderers (config : WebConfig) (prev : option StateInner) (deceiver : Loc) : M (gmap string Renderer) :=
  build_renderers_go prev deceiver ∅ (pc_renderers (wc_policy config)).

(** *** Maze tables *)

Fixpoint build_maze_tables_go (master : list N) (mazes : list MazeConfig) (tables : gmap string MazeTable)
    (backends : list BackendConfig) : Result (gmap string MazeTable) :=
  match backends with
  | [] => Ok tables
  | backend :: backends =>
      if String.eqb (bk_name backend) "*" || starts_with "*." (bk_name backend) then
        build_maze_tables_go master mazes tables backends
      else
        host ← map_err (fun err => Error.Config ("backend '" +:+ bk_name backend +:+ "': " +:+ err)) (host_parse (bk_name backend));
        table ← map_err Error.Config (build_table master (host_text host) mazes);
        build_maze_tables_go master mazes (<[host_text host := table]> tables) backends
  end.
Definition build_maze_tables (master : list N) (config : WebConfig) : Result (gmap string MazeTable) :=
  match pc_mazes (wc_policy config) with
  | [] => Ok ∅
  | mazes => build_maze_tables_go master mazes ∅ (wc_backends config)
  end.

(** *** What is taken over *)

Definition tracker_for (prev : option StateInner) (capacity : N) : M Tracker :=
  match (prev ← prev; if tk_capacity (si_rate prev) =? capacity then Some (si_rate prev) else None) with
  | Some tracker => mret tracker
  | None => loc ← alloc; mret {| tk_loc := loc; tk_capacity := capacity |}
  end.
Definition issues_pow (challenges : gmap string ChallengeRegistration) : bool :=
  existsb (fun r => match runtime r with CPow _ => true | _ => false end) (map_to_list challenges).*2.
Definition solvers_for (prev : option StateInner) (challenges : gmap string ChallengeRegistration) : M (option Loc) :=
  match prev ≫= si_solvers with
  | Some pool => mret (Some pool)
  | None => if issues_pow challenges && start_solvers then loc ← alloc; mret (Some loc) else mret None
  end.
Definition crawlers_for (prev : option StateInner) (config : WebConfig) : M (option Loc) :=
  match pc_crawlers (wc_policy config) with
  | [] => mret None
  | crawlers =>
      match (prev ← prev; verifier ← si_crawlers prev;
             if bool_decide (pc_crawlers (wc_policy (si_config prev)) = crawlers) then Some verifier else None) with
      | Some verifier => mret (Some verifier)
      | None => lift (map_err Error.Config system_dns) ;; loc ← alloc; mret (Some loc)
      end
  end.
Definition retained (mazes : list MazeConfig) (old : MazeConfig) : bool :=
  existsb (fun new => String.eqb (mz_name new) (mz_name old) && (mz_memory_ttl new =? mz_memory_ttl old)) mazes.
Fixpoint purge_dropped (mazes : list MazeConfig) (l : Loc) (olds : list MazeConfig) : M unit :=
  match olds with
  | [] => mret tt
  | old :: olds =>
      (if retained mazes old then mret tt else update_poison l (purge_maze (mz_name old))) ;;
      purge_dropped mazes l olds
  end.
Definition poison_for (prev : option StateInner) (config : WebConfig) : M Loc :=
  match prev with
  | None => loc ← alloc; set_poison loc ∅ ;; mret loc
  | Some prev =>
      purge_dropped (pc_mazes (wc_policy config)) (si_poison prev) (pc_mazes (wc_policy (si_config prev))) ;;
      mret (si_poison prev)
  end.

(** [StateInner::rebuild]. *)
Definition rebuild (config : WebConfig) (pkcs8_seed : list N) (seed_persistent : bool) (prev : option StateInner) :
    M StateInner :=
  compiled ← lift (state_compile acme fcrdns config seed_persistent);
  key ← lift (ok_or (Error.Config "invalid Ed25519 PKCS8 seed") (from_pkcs8 pkcs8_seed));
  rate ← tracker_for prev (match cp_scoring compiled with Some s => rate_capacity s | None => DEFAULT_CAPACITY end);
  solve ← carried_or_new (si_solve <$> prev);
  census ← carried_or_new (si_census <$> prev);
  visits ← carried_or_new (si_visits <$> prev);
  revision ← next_revision;
  pending ← carried_or_new (si_pending <$> prev);
  solvers ← solvers_for prev (cp_challenges compiled);
  deceiver ← carried_or_new (prev ← prev;
    if bool_decide (wc_deception (si_config prev) = wc_deception config) then Some (si_deceiver prev) else None);
  smear ← carried_or_new (prev ← prev;
    if sm_max_concurrent (wc_smear (si_config prev)) =? sm_max_concurrent (wc_smear config) then Some (si_smear prev) else None);
  hooks ← carried_or_new (si_hooks <$> prev);
  renderers ← build_renderers config prev deceiver;
  let master := poison_master pkcs8_seed in
  tables ← lift (build_maze_tables master config);
  crawlers ← crawlers_for prev config;
  networks ← lift (load_networks (pc_networks (wc_policy config)));
  poison ← poison_for prev config;
  mret {| si_config := config; si_compiled := compiled; si_networks := networks; si_revision := revision;
          si_maze_tables := tables; si_wildcard_tables := ∅; si_rate := rate; si_solve := solve; si_census := census;
          si_visits := visits; si_pending := pending; si_solvers := solvers; si_poison := poison;
          si_renderers := renderers; si_crawlers := crawlers; si_deceiver := deceiver; si_smear := smear;
          si_key := key; si_seed := pkcs8_seed; si_master := master; si_seed_persistent := seed_persistent;
          si_hooks := hooks |}.
(** [StateInner::build_with_seed]. *)
Definition build_with_seed (config : WebConfig) (pkcs8_seed : list N) : M StateInner := rebuild config pkcs8_seed true None.

(** ** Mazes of a state *)

Definition state_maze_lookup (s : StateInner) (host : string) (cache : gmap string (option MazeTable)) :
    MazeLookup * gmap string (option MazeTable) :=
  maze_lookup (pc_mazes (wc_policy (si_config s))) (si_master s) (si_maze_tables s) host cache.
Definition maze_by_name (s : StateInner) (host name : string) (cache : gmap string (option MazeTable)) : option MazeRuntime :=
  match (state_maze_lookup s host cache).1 with
  | Table table => by_name name table
  | NoMazes | Refused => None
  end.
End State.
