(* ===== verification/Control.v ===== *)
(** * The server's state

    The parts of [crates/bagel-web/src/server/listen.rs] that build and replace the
    state a server shares: the key seed and its text, [build_shared] and
    [reload_shared], with [StateInner::build] of [state.rs] and [hex_decode] of
    [lib.rs]. The state is that of [Reload]. *)

From S2P Require Import Prelude Core ThirdParty Strings Ip Bytes Url Proto.
From S2P Require Import Rule Maze Proxy Policy WebConfig State Reload.

Local Open Scope N_scope.

(** ** Hexadecimal seeds *)

Definition hex_value (c : ascii) : option N :=
  let b := byte_of c in
  if in_range 48 57 c then Some (b - 48)
  else if in_range 97 102 c then Some (b - 87)
  else if in_range 65 70 c then Some (b - 55) else None.
(** [u8::from_str_radix(_, 16)] on two bytes: a sign is taken for the first. *)
Definition from_str_radix_16 (a b : ascii) : option N :=
  if char_eqb a "+" then hex_value b
  else high ← hex_value a; low ← hex_value b; Some (16 * high + low).
(** What decoding comes to: slicing a text inside a character panics. *)
Inductive Decoded : Type := HexBytes (bytes : list N) | HexInvalid | HexPanics.
Definition starts_character (l : list ascii) : bool :=
  match l with c :: _ => negb (in_range 128 191 c) | [] => true end.
Fixpoint hex_decode_go (l : list ascii) : Decoded :=
  match l with
  | a :: b :: rest =>
      if negb (starts_character rest) then HexPanics
      else
        match from_str_radix_16 a b with
        | None => HexInvalid
        | Some byte =>
            match hex_decode_go rest with HexBytes bytes => HexBytes (byte :: bytes) | other => other end
        end
  | [] => HexBytes []
  | [_] => HexInvalid
  end.
(** [hex_decode]; the text has an even number of bytes. *)
Definition hex_decode (hex : string) : Decoded :=
  if Nat.even (String.length hex) then hex_decode_go (string_chars hex) else HexInvalid.

(** [key_seed_hex]; [read] is [fs::read_to_string]. *)
Definition key_seed_hex (read : string -> result string string) (inline file : option string) : Result (option string) :=
  match inline, file with
  | Some _, Some _ =>
      Err (Error.Config "exactly one key seed input may be active, not both --key-seed and --key-seed-file")
  | Some seed, None => Ok (Some seed)
  | None, Some path =>
      seed ← map_err (fun err => Error.Config ("cannot read key seed file " +:+ path +:+ ": " +:+ err)) (read path);
      Ok (Some (str_trim seed))
  | None, None => Ok None
  end.
(** [Ed25519KeyPair::generate_pkcs8] gives [pkcs8], or fails. *)
Definition generated (pkcs8 : option (list N)) : Result (list N) :=
  ok_or (Error.Config "failed to generate Ed25519 keypair") pkcs8.
Definition generate_key_seed_hex (pkcs8 : option (list N)) : Result string :=
  pkcs8 ← generated pkcs8; Ok (hex_encode pkcs8).

(** ** Building and reloading *)

#[global] Instance tls_config_eq_dec : EqDecision TlsConfig.
Proof. solve_decision. Defined.

Section Shared.
Context {RX : RegexApi} {HA : HeaderApi} {RH : RhaiApi} {RS : RhaiScript}.
Context {U : UriApi} {UP : UriParts} {HT : HeaderText} {NA : IpNetworkApi} {MA : MazeApi}.
Variables acme fcrdns : bool.
Context {Key Networks : Type}.
Variables (from_pkcs8 : list N -> option Key) (tls_roots : result string unit) (system_dns : result string unit)
          (load_networks : list NetworkConfig -> Result Networks) (start_solvers : bool).
Notation rebuild := (Reload.rebuild acme fcrdns from_pkcs8 tls_roots system_dns load_networks start_solvers).
Notation build_with_seed := (Reload.build_with_seed acme fcrdns from_pkcs8 tls_roots system_dns load_networks start_solvers).
Notation Snapshot := (StateInner (Key := Key) (Networks := Networks)).

(** [StateInner::build], which [new_shared_state] shares. *)
Definition new_shared_state (config : WebConfig) (pkcs8 : option (list N)) : M Snapshot :=
  pkcs8 ← lift (generated pkcs8); rebuild config pkcs8 false None.
(** [build_shared]; no computation is a panic. *)
Definition build_shared (config : WebConfig) (seed_hex : option string) (pkcs8 : option (list N)) : option (M Snapshot) :=
  match seed_hex with
  | Some seed_hex =>
      match hex_decode seed_hex with
      | HexBytes seed => Some (build_with_seed config seed)
      | HexInvalid => Some (lift (Err (Error.Config "invalid hex in key seed")))
      | HexPanics => None
      end
  | None => Some (new_shared_state config pkcs8)
  end.

(** What a reload may not change. *)
Definition same_listener (old_bind new_bind : BindConfig) : bool :=
  bool_decide (bd_network old_bind = bd_network new_bind) && String.eqb (bd_address old_bind) (bd_address new_bind) &&
  bool_decide (bd_socket_mode old_bind = bd_socket_mode new_bind) && bool_decide (bd_tls old_bind = bd_tls new_bind).
(** [reload_shared]: the state that is served afterwards, and the world. *)
Definition reload_shared (config : WebConfig) (shared : Snapshot * World) : Snapshot * World :=
  let '(old_state, w) := shared in
  if negb (same_listener (wc_bind (si_config old_state)) (wc_bind config)) then (old_state, w)
  else
    match rebuild config (si_seed old_state) (si_seed_persistent old_state) (Some old_state) w with
    | (Ok new_inner, w) => (new_inner, w)
    | (Err _, w) => (old_state, w)
    end.
End Shared.
