(* ===== verification/ReloadFacts.v ===== *)
(** * What a reload keeps

    What [Reload.rebuild] takes over and what it makes anew, the poison memory after it,
    reloads that fail, and the mazes of the states that are served. *)

From S2P Require Import Prelude Strings Bytes Census Control Core Ip.
From S2P Require Import ThirdParty Validation Proto Host Url Rule Scoring Challenge.
From S2P Require Import Maze MazeFacts Proxy ProxyFacts Rate TlsEdge Policy WebConfig.
From S2P Require Import Kdl State StateFacts Reload.

Local Open Scope N_scope.

(** ** Calls *)

Lemma m_bind_ok {A B} (m : M A) (f : A -> M B) w b w' :
  (m ≫= f) w = (Ok b, w') <-> exists a w1, m w = (Ok a, w1) /\ f a w1 = (Ok b, w').
Proof.
  unfold mbind, m_bind. destruct (m w) as [[a|e] w1]; split.
  - intros H. by exists a, w1.
  - by intros (? & ? & [= <- <-] & ?).
  - done.
  - by intros (? & ? & ? & _).
Qed.
Lemma m_lift_ok {A} (r : Result A) w a w' : lift r w = (Ok a, w') <-> r = Ok a /\ w = w'.
Proof. unfold lift. split; [by intros [= -> ->]|by intros [-> ->]]. Qed.

(** A call that may make new locations and changes nothing else, and one that at most
    fails to leave the poison memory as it was. *)
Definition quiet {A} (m : M A) : Prop :=
  forall w r w', m w = (r, w') -> w_poison w' = w_poison w /\ w_next w <= w_next w' /\ w_revision w' = w_revision w.
Definition quiet_failure {A} (m : M A) : Prop := forall w e w', m w = (Err e, w') -> w_poison w' = w_poison w.

Lemma quiet_ret {A} (a : A) : quiet (mret a : M A).
Proof. intros w r w' [= <- <-]. by split. Qed.
Lemma quiet_lift {A} (r : Result A) : quiet (lift r).
Proof. intros w r' w' [= <- <-]. by split. Qed.
Lemma quiet_alloc : quiet alloc.
Proof. intros w r w' [= <- <-]. cbn. split_and!; [done|lia|done]. Qed.
Lemma quiet_bind {A B} (m : M A) (f : A -> M B) : quiet m -> (forall a, quiet (f a)) -> quiet (m ≫= f).
Proof.
  intros Hm Hf w r w'. unfold mbind, m_bind. destruct (m w) as [[a|e] w1] eqn:E; apply Hm in E as (E1 & E2 & E3).
  - intros H. apply Hf in H as (H1 & H2 & H3). split_and!; [congruence|lia|congruence].
  - intros [= <- <-]. by split.
Qed.
Lemma failure_bind {A B} (m : M A) (f : A -> M B) :
  (forall w r w', m w = (r, w') -> w_poison w' = w_poison w) -> (forall a, quiet_failure (f a)) -> quiet_failure (m ≫= f).
Proof.
  intros Hm Hf w e w'. unfold mbind, m_bind. destruct (m w) as [[a|e'] w1] eqn:E; apply Hm in E as E1.
  - intros H. rewrite (Hf _ _ _ _ H). done.
  - by intros [= <- <-].
Qed.
Lemma quiet_then_failure {A B} (m : M A) (f : A -> M B) : quiet m -> (forall a, quiet_failure (f a)) -> quiet_failure (m ≫= f).
Proof. intros Hm. apply failure_bind. by intros w r w' (? & _)%Hm. Qed.
Create HintDb quiet.
#[export] Hint Resolve quiet_ret quiet_lift quiet_alloc quiet_bind : quiet.
Lemma quiet_carried o : quiet (carried_or_new o).
Proof. destruct o; cbn; eauto with quiet. Qed.
#[export] Hint Resolve quiet_carried : quiet.

(** Opens one call of a sequence, keeping what it leaves of the world. *)
Ltac step_call H :=
  let a := fresh "a" in let w1 := fresh "w" in let Hm := fresh "Hm" in
  apply m_bind_ok in H as (a & w1 & Hm & H).

(** Opens a rebuild into its calls. *)
Ltac open_rebuild H :=
  unfold Reload.rebuild in H;
  step_call H; match goal with E : lift (state_compile _ _ _ _) _ = _ |- _ => apply m_lift_ok in E as [? <-] end;
  step_call H; match goal with E : lift (ok_or _ _) _ = _ |- _ => apply m_lift_ok in E as [? <-] end;
  do 11 step_call H; cbv zeta in H;
  step_call H; match goal with E : lift (build_maze_tables _ _) _ = _ |- _ => apply m_lift_ok in E as [? <-] end;
  step_call H; step_call H; match goal with E : lift _ _ = (Ok _, _) |- _ => apply m_lift_ok in E as [? <-] end;
  step_call H; injection H as <- <-.

Section Facts.
Context {RX : RegexApi} {HA : HeaderApi} {RH : RhaiApi} {RS : RhaiScript}.
Context {U : UriApi} {UP : UriParts} {HT : HeaderText} {NA : IpNetworkApi} {MA : MazeApi}.
Variables acme fcrdns : bool.
Context {Key Networks : Type}.
Variables (from_pkcs8 : list N -> option Key) (tls_roots : result string unit) (system_dns : result string unit)
          (load_networks : list NetworkConfig -> Result Networks) (start_solvers : bool).
Notation rebuild := (rebuild acme fcrdns from_pkcs8 tls_roots system_dns load_networks start_solvers).
Notation Snapshot := (StateInner (Key := Key) (Networks := Networks)).

Lemma quiet_tracker (prev : option Snapshot) c : quiet (tracker_for prev c).
Proof. unfold tracker_for. case_match; eauto with quiet. Qed.
Lemma quiet_solvers (prev : option Snapshot) cs : quiet (solvers_for start_solvers prev cs).
Proof. unfold solvers_for. repeat case_match; eauto with quiet. Qed.
Lemma quiet_crawlers (prev : option Snapshot) config : quiet (crawlers_for system_dns prev config).
Proof. unfold crawlers_for. repeat case_match; eauto with quiet. Qed.
Lemma quiet_new_renderer deceiver r : quiet (new_renderer tls_roots deceiver r).
Proof. unfold new_renderer. case_match; eauto with quiet. Qed.
Lemma quiet_renderers config (prev : option Snapshot) deceiver : quiet (build_renderers tls_roots config prev deceiver).
Proof.
  unfold build_renderers. generalize (∅ : gmap string Renderer). induction (pc_renderers _) as [|r l IH]; intros m; cbn; [eauto with quiet|].
  apply quiet_bind; [|done]. case_match; [eauto with quiet|apply quiet_new_renderer].
Qed.
#[local] Hint Resolve quiet_tracker quiet_solvers quiet_crawlers quiet_renderers : quiet.

(** *** The poison memory *)

(** What a purge for dropped mazes leaves of an entry. *)
Definition dropped (olds news : list MazeConfig) (name : string) : Prop :=
  exists old, old ∈ olds /\ mz_name old = name /\ retained news old = false.
Definition store_of (w : World) (l : Loc) : PoisonStore := default ∅ (w_poison w !! l).

Lemma purge_dropped_ok news l olds w :
  exists w', purge_dropped news l olds w = (Ok tt, w') /\
    (forall l', l' <> l -> w_poison w' !! l' = w_poison w !! l') /\
    forall id e, store_of w' l !! id = Some e <-> store_of w l !! id = Some e /\ ~ dropped olds news (en_maze e).
Proof.
  revert w. induction olds as [|old olds IH]; intros w; cbn [purge_dropped].
  { exists w. split_and!; try done. intros id e. split; [|by intros [? _]]. intros H. split; [done|].
    intros (o & Ho & _). by apply elem_of_nil in Ho. }
  assert (Hsplit : forall name, dropped (old :: olds) news name <->
            (mz_name old = name /\ retained news old = false) \/ dropped olds news name).
  { intros name. unfold dropped. setoid_rewrite elem_of_cons. split.
    - intros (o & [->|Ho] & Hn & Hr); [by left|right; by exists o].
    - intros [[? ?]|(o & ? & ? & ?)]; [exists old|exists o]; auto. }
  destruct (retained news old) eqn:Er.
  - destruct (IH w) as (w' & Hw & Hframe & Hstore). exists w'. split_and!; [exact Hw|done|].
    intros id e. rewrite Hstore, Hsplit. naive_solver.
  - set (w1 := snd (update_poison l (purge_maze (mz_name old)) w)).
    destruct (IH w1) as (w' & Hw & Hframe & Hstore). exists w'. split_and!; [exact Hw| |].
    + intros l' Hne. rewrite Hframe by done. cbn. by rewrite lookup_insert_ne.
    + intros id e. rewrite Hstore, Hsplit. unfold store_of at 1. cbn. rewrite lookup_insert_eq. cbn.
      fold (store_of w l). unfold purge_maze. rewrite map_lookup_filter_Some. cbn. naive_solver.
Qed.
Lemma poison_for_ok (prev : option Snapshot) config w : exists l w', poison_for prev config w = (Ok l, w').
Proof.
  destruct prev as [prev|]; [|by eexists _, _]. cbn [poison_for].
  destruct (purge_dropped_ok (pc_mazes (wc_policy config)) (si_poison prev) (pc_mazes (wc_policy (si_config prev))) w)
    as (w' & Hw & _). exists (si_poison prev), w'. apply m_bind_ok. by exists tt, w'.
Qed.

Lemma rebuild_quiet_failure config seed persistent (prev : option Snapshot) : quiet_failure (rebuild config seed persistent prev).
Proof.
  unfold Reload.rebuild.
  repeat (first [apply quiet_then_failure; [solve [eauto with quiet]|intros ?]
                |apply (failure_bind next_revision); [by intros w r w' [= _ <-]|intros ?]]).
  intros w e w'. destruct (poison_for_ok prev config w) as (l & w1 & Hl). unfold mbind, m_bind. by rewrite Hl.
Qed.

(** *** What is taken over *)

Definition taken (w : World) (old : option Loc) (l : Loc) : Prop :=
  match old with Some l0 => l = l0 | None => w_next w <= l end.
Lemma carried_ok o w0 w l w' : carried_or_new o w = (Ok l, w') -> w_next w0 <= w_next w -> taken w0 o l.
Proof. destruct o; cbn; by intros [= <- <-]. Qed.
Lemma tracker_ok (prev : Snapshot) capacity w t w' :
  tracker_for (Some prev) capacity w = (Ok t, w') ->
  tk_capacity t = capacity /\ taken w (if tk_capacity (si_rate prev) =? capacity then Some (tk_loc (si_rate prev)) else None) (tk_loc t).
Proof.
  unfold tracker_for. cbn [mbind option_bind]. destruct (N.eqb_spec (tk_capacity (si_rate prev)) capacity) as [<-|Hne].
  - intros [= <- <-]. by split.
  - intros H. step_call H. apply carried_ok with (o := None) (w0 := w) in Hm; [|lia]. injection H as <- <-. by split.
Qed.
Lemma solvers_ok (prev : Snapshot) challenges w l w' :
  solvers_for start_solvers (Some prev) challenges w = (Ok l, w') -> forall pool, si_solvers prev = Some pool -> l = Some pool.
Proof. unfold solvers_for. cbn. intros H pool E. rewrite E in H. by injection H as <- <-. Qed.
Lemma crawlers_ok (prev : Snapshot) config w o w' w0 :
  crawlers_for system_dns (Some prev) config w = (Ok o, w') -> w_next w0 <= w_next w ->
  match o with
  | None => pc_crawlers (wc_policy config) = []
  | Some l => pc_crawlers (wc_policy config) <> [] /\
      taken w0 (if bool_decide (pc_crawlers (wc_policy (si_config prev)) = pc_crawlers (wc_policy config))
                then si_crawlers prev else None) l
  end.
Proof.
  unfold crawlers_for. cbn [mbind option_bind]. destruct (pc_crawlers (wc_policy config)) as [|c cs] eqn:E; [by intros [= <- <-]|].
  intros H Hw. destruct (si_crawlers prev) as [v|]; [case_bool_decide|]; cbn in H.
  - injection H as <- <-. by split.
  - step_call H. apply m_lift_ok in Hm as [_ <-]. step_call H.
    apply carried_ok with (o := None) (w0 := w0) in Hm; [|done]. injection H as <- <-. by split.
  - step_call H. apply m_lift_ok in Hm as [_ <-]. step_call H.
    apply carried_ok with (o := None) (w0 := w0) in Hm; [|done]. injection H as <- <-. by case_bool_decide.
Qed.

(** Each call of a rebuild, with the worlds they start from. *)
Definition same_or {A} (b : bool) (old : A) : option A := if b then Some old else None.
Definition capacity_of (c : Compiled) : N := match cp_scoring c with Some s => rate_capacity s | None => DEFAULT_CAPACITY end.
Inductive rebuilt (config : WebConfig) (seed : list N) (persistent : bool) (prev : option Snapshot) (w : World) (s : Snapshot) (w' : World) : Prop :=
| Rebuilt w1 w2 w3 w4 w5 w6 w7 w8 w9 w10 w11 w12 :
    state_compile acme fcrdns config persistent = Ok (si_compiled s) -> si_config s = config ->
    tracker_for prev (capacity_of (si_compiled s)) w = (Ok (si_rate s), w1) ->
    carried_or_new (si_solve <$> prev) w1 = (Ok (si_solve s), w2) ->
    carried_or_new (si_census <$> prev) w2 = (Ok (si_census s), w3) ->
    carried_or_new (si_visits <$> prev) w3 = (Ok (si_visits s), w4) ->
    next_revision w4 = (Ok (si_revision s), w5) ->
    carried_or_new (si_pending <$> prev) w5 = (Ok (si_pending s), w6) ->
    solvers_for start_solvers prev (cp_challenges (si_compiled s)) w6 = (Ok (si_solvers s), w7) ->
    carried_or_new (prev ← prev; if bool_decide (wc_deception (si_config prev) = wc_deception config)
                                 then Some (si_deceiver prev) else None) w7 = (Ok (si_deceiver s), w8) ->
    carried_or_new (prev ← prev; if sm_max_concurrent (wc_smear (si_config prev)) =? sm_max_concurrent (wc_smear config)
                                 then Some (si_smear prev) else None) w8 = (Ok (si_smear s), w9) ->
    carried_or_new (si_hooks <$> prev) w9 = (Ok (si_hooks s), w10) ->
    build_renderers tls_roots config prev (si_deceiver s) w10 = (Ok (si_renderers s), w11) ->
    si_master s = poison_master seed -> build_maze_tables (si_master s) config = Ok (si_maze_tables s) ->
    crawlers_for system_dns prev config w11 = (Ok (si_crawlers s), w12) ->
    poison_for prev config w12 = (Ok (si_poison s), w') -> si_wildcard_tables s = ∅ ->
    rebuilt config seed persistent prev w s w'.

Lemma rebuild_parts config seed persistent (prev : option Snapshot) w s w' :
  rebuild config seed persistent prev w = (Ok s, w') -> rebuilt config seed persistent prev w s w'.
Proof.
  intros H. open_rebuild H. econstructor; cbn; try eassumption; done.
Qed.

Lemma still {A} (m : M A) w a w' : quiet m -> m w = (Ok a, w') -> w_poison w' = w_poison w /\ w_next w <= w_next w' /\ w_revision w' = w_revision w.
Proof. intros Hq H. exact (Hq _ _ _ H). Qed.
(** The worlds of a rebuild, in order. *)
Ltac order_worlds :=
  repeat match goal with
  | H : next_revision ?w = (_, ?w1) |- _ => injection H as H; subst w1
  | H : ?m ?w = (Ok _, ?w1) |- _ =>
      lazymatch m with
      | poison_for _ _ => fail
      | _ => let E := fresh "E" in let L := fresh "L" in let R := fresh "R" in
             destruct (still m w _ w1 ltac:(eauto with quiet) H) as (E & L & R); revert H
      end
  end; intros.

(** What a successful reload takes over. Rate windows are kept exactly when the
    configured capacity is the same; solve counts, the census, visits, pending challenges,
    hooks and the poison memory always; the deceiver, the smear slots and the crawler verifier
    exactly when their sections are unchanged, and prepared solvers whenever there are
    any. Everything else is new, the table cache of wildcard hosts is empty, the
    revision is the next one, and the poison memory has lost exactly the entries of
    mazes that are gone or keep their entries for another time. *)
Theorem reload_takes_over config seed persistent (prev : Snapshot) w s w' :
  rebuild config seed persistent (Some prev) w = (Ok s, w') ->
  let capacity := capacity_of (si_compiled s) in
  state_compile acme fcrdns config persistent = Ok (si_compiled s) /\ si_config s = config /\ si_wildcard_tables s = ∅ /\
  (si_solve s = si_solve prev /\ si_census s = si_census prev /\ si_visits s = si_visits prev /\
   si_pending s = si_pending prev /\ si_hooks s = si_hooks prev /\ si_poison s = si_poison prev) /\
  (tk_capacity (si_rate s) = capacity /\
   taken w (same_or (tk_capacity (si_rate prev) =? capacity) (tk_loc (si_rate prev))) (tk_loc (si_rate s))) /\
  taken w (same_or (bool_decide (wc_deception (si_config prev) = wc_deception config)) (si_deceiver prev)) (si_deceiver s) /\
  taken w (same_or (sm_max_concurrent (wc_smear (si_config prev)) =? sm_max_concurrent (wc_smear config)) (si_smear prev)) (si_smear s) /\
  match si_crawlers s with
  | None => pc_crawlers (wc_policy config) = []
  | Some l => pc_crawlers (wc_policy config) <> [] /\
      taken w (if bool_decide (pc_crawlers (wc_policy (si_config prev)) = pc_crawlers (wc_policy config))
               then si_crawlers prev else None) l
  end /\
  (forall pool, si_solvers prev = Some pool -> si_solvers s = Some pool) /\
  si_revision s = (w_revision w + 1) mod 2 ^ 64 /\
  (forall id e, store_of w' (si_poison prev) !! id = Some e <->
     store_of w (si_poison prev) !! id = Some e /\
     ~ dropped (pc_mazes (wc_policy (si_config prev))) (pc_mazes (wc_policy config)) (en_maze e)).
Proof.
  intros H%rebuild_parts. destruct H as [w1 w2 w3 w4 w5 w6 w7 w8 w9 w10 w11 w12 Hc Hcfg Hrate Hsolve Hcen Hvis Hrev Hpen Hsol
    Hdec Hsm Hhk Hren Hmaster Htab Hcr Hpoi Hwild]. cbv zeta.
  pose proof (tracker_ok _ _ _ _ _ Hrate) as [Hcap Htk]. pose proof (solvers_ok _ _ _ _ _ Hsol) as Hpool.
  assert (Hr : si_revision s = (w_revision w4 + 1) mod 2 ^ 64) by (by injection Hrev).
  assert (Hw5 : w_poison w5 = w_poison w4 /\ w_next w5 = w_next w4) by (by injection Hrev as _ <-).
  destruct Hw5 as [Hw5 Hw5']. clear Hrev.
  cbn [mbind option_bind fmap option_fmap option_map carried_or_new] in Hdec, Hsm, Hsolve, Hcen, Hvis, Hpen, Hhk.
  order_worlds.
  pose proof (crawlers_ok _ _ _ _ _ w Hcr ltac:(lia)) as Hv.
  cbn [poison_for] in Hpoi. apply m_bind_ok in Hpoi as ([] & wp & Hp & [= <- <-]).
  destruct (purge_dropped_ok (pc_mazes (wc_policy config)) (si_poison prev) (pc_mazes (wc_policy (si_config prev))) w12)
    as (w' & Hp' & _ & Hstore). rewrite Hp in Hp'. injection Hp' as ->.
  split_and!; try done.
  1-5: match goal with |- ?x = _ => match goal with H : _ = (Ok x, _) |- _ => by injection H end end.
  1-2: match goal with |- taken _ _ ?x => match goal with H : _ = (Ok x, _) |- _ =>
         exact (carried_ok _ w _ _ _ H ltac:(lia)) end end.
  - rewrite Hr. by repeat match goal with H : w_revision _ = w_revision _ |- _ => rewrite H; clear H end.
  - intros id e. rewrite Hstore. unfold store_of. by replace (w_poison w12) with (w_poison w) by congruence.
Qed.

(** *** Renderers *)

Definition draws_from (deceiver : Loc) (re : Renderer) : Prop :=
  re_deceiver re = if is_markov (re_config re) then Some deceiver else None.
Definition renderers_ok (s : Snapshot) : Prop :=
  forall name re, si_renderers s !! name = Some re -> draws_from (si_deceiver s) re.

Lemma new_renderer_ok deceiver r w re w' :
  new_renderer tls_roots deceiver r w = (Ok re, w') -> re_config re = r /\ draws_from deceiver re /\ re_loc re = w_next w.
Proof.
  unfold new_renderer, draws_from. destruct (is_markov r) eqn:E; intros H; step_call H.
  - injection Hm as <- <-. injection H as <- <-. cbn. by rewrite E.
  - apply m_lift_ok in Hm as [_ <-]. step_call H. injection Hm as <- <-. injection H as <- <-. cbn. by rewrite E.
Qed.
Lemma carried_renderer_ok (prev : option Snapshot) deceiver r re :
  (forall p, prev = Some p -> renderers_ok p) -> carried_renderer prev deceiver r = Some re ->
  re_config re = r /\ draws_from deceiver re.
Proof.
  intros Hok. unfold carried_renderer. destruct prev as [p|]; cbn; [|done].
  destruct (si_renderers p !! rd_name r) as [e|] eqn:E; cbn; [|done]. case_bool_decide as Hc; cbn; [|done].
  destruct (negb (is_markov r) || _) eqn:Em; [|done]. intros [= <-]. split; [done|].
  pose proof (Hok p eq_refl _ _ E) as Hd. unfold draws_from in *. rewrite Hc in *.
  destruct (is_markov r); [|done]. apply bool_decide_eq_true in Em. by rewrite <- Em.
Qed.

(** The renderer of a section: the one taken over, or a new one. *)
Definition renderer_of (prev : option Snapshot) (deceiver : Loc) (w : World) (r : RendererConfig) (re : Renderer) : Prop :=
  re_config re = r /\ draws_from deceiver re /\
  match carried_renderer prev deceiver r with Some old => re = old | None => w_next w <= re_loc re end.
Lemma build_renderers_go_ok (prev : option Snapshot) deceiver configs m w0 w m' w' :
  (forall p, prev = Some p -> renderers_ok p) -> w_next w0 <= w_next w ->
  build_renderers_go tls_roots prev deceiver m configs w = (Ok m', w') -> NoDup (rd_name <$> configs) ->
  (forall name, name ∉ rd_name <$> configs -> m' !! name = m !! name) /\
  (forall r, r ∈ configs -> exists re, m' !! rd_name r = Some re /\ renderer_of prev deceiver w0 r re).
Proof.
  intros Hok. revert m w. induction configs as [|r configs IH]; intros m w Hw; cbn [build_renderers_go].
  { intros [= <- <-] _. split; [done|]. by intros r ?%elem_of_nil. }
  intros H [Hni Hnd]%NoDup_cons. step_call H. rename a into re.
  assert (Hre : renderer_of prev deceiver w0 r re /\ w_next w <= w_next w1).
  { unfold renderer_of. destruct (carried_renderer prev deceiver r) as [old|] eqn:Ec.
    - injection Hm as <- <-. destruct (carried_renderer_ok _ _ _ _ Hok Ec). by split_and!.
    - destruct (quiet_new_renderer _ _ _ _ _ Hm) as (_ & Hle & _). apply new_renderer_ok in Hm as (? & ? & ?).
      split_and!; try done. lia. }
  destruct Hre as [Hre Hle]. destruct (IH _ w1 ltac:(lia) H Hnd) as [Hother Hall]. split.
  - intros name Hn. rewrite Hother; [|set_solver]. apply lookup_insert_ne. set_solver.
  - intros r' [->|Hin]%elem_of_cons; [|by apply Hall]. exists re. split; [|done].
    rewrite Hother by done. apply lookup_insert_eq.
Qed.

(** The states a daemon serves: the first one, and those it reloads into. *)
Inductive served : Snapshot -> Prop :=
| ServedFirst config seed persistent w s w' : rebuild config seed persistent None w = (Ok s, w') -> served s
| ServedNext prev config w s w' :
    served prev -> rebuild config (si_seed prev) (si_seed_persistent prev) (Some prev) w = (Ok s, w') -> served s.

Lemma compiled_renderer_names config persistent c :
  state_compile acme fcrdns config persistent = Ok c -> NoDup (rd_name <$> pc_renderers (wc_policy config)).
Proof.
  unfold state_compile. intros H. cbv zeta in H. inv_result. repeat match goal with x : unit |- _ => destruct x end.
  match goal with H : validate_renderers _ = Ok _ |- _ => unfold validate_renderers in H; apply bind_ok in H as (out & Ho & _) end.
  apply each_named_empty in Ho. tauto.
Qed.
Lemma rebuilt_renderers config seed persistent (prev : option Snapshot) w s w' :
  (forall p, prev = Some p -> renderers_ok p) -> rebuild config seed persistent prev w = (Ok s, w') ->
  (forall name, name ∉ rd_name <$> pc_renderers (wc_policy config) -> si_renderers s !! name = None) /\
  (forall r, r ∈ pc_renderers (wc_policy config) ->
     exists re, si_renderers s !! rd_name r = Some re /\ re_config re = r /\ draws_from (si_deceiver s) re /\
       match carried_renderer prev (si_deceiver s) r with Some old => re = old | None => True end).
Proof.
  intros Hok H%rebuild_parts. destruct H as [w1 w2 w3 w4 w5 w6 w7 w8 w9 w10 w11 w12 Hc _ _ _ _ _ _ _ _ _ _ _ Hren _ _ _ _ _].
  destruct (build_renderers_go_ok prev _ _ ∅ w10 w10 _ _ Hok ltac:(lia) Hren (compiled_renderer_names _ _ _ Hc)) as [Hn Hall].
  split; [intros name Hni; rewrite Hn by done; apply lookup_empty|].
  intros r Hin. destruct (Hall r Hin) as (re & Hl & Hcf & Hd & Hcar). exists re. split_and!; try done.
  by destruct (carried_renderer _ _ _).
Qed.
Lemma rebuilt_ok config seed persistent (prev : option Snapshot) w s w' :
  (forall p, prev = Some p -> renderers_ok p) -> rebuild config seed persistent prev w = (Ok s, w') ->
  renderers_ok s.
Proof.
  intros Hok H. destruct (rebuilt_renderers _ _ _ _ _ _ _ Hok H) as [Hn Hall]. intros name re Hl.
  destruct (decide (name ∈ rd_name <$> pc_renderers (wc_policy config))) as [Hin|Hni].
  - apply list_elem_of_fmap in Hin as (r & -> & Hin). destruct (Hall r Hin) as (re' & Hl' & _ & Hd & _).
    rewrite Hl in Hl'. by injection Hl' as ->.
  - rewrite Hn in Hl by done. done.
Qed.
Lemma served_renderers s : served s -> renderers_ok s.
Proof.
  induction 1 as [config seed persistent w s w' H|prev config w s w' _ IH H]; eapply rebuilt_ok; try exact H; [done|].
  by intros p [= <-].
Qed.

(** Across any number of reloads, the renderers follow the configuration: there is one
    for each section and no other, with exactly the section's settings; one that runs in
    the process draws from the deceiver that is served with it, never from one of an
    older configuration, and an unchanged one, under an unchanged deceiver if it
    draws from it, is the one served before, with its budgets and cooldowns. *)
Theorem renderers_follow_config prev config w s w' :
  served prev -> rebuild config (si_seed prev) (si_seed_persistent prev) (Some prev) w = (Ok s, w') ->
  (forall name, name ∉ rd_name <$> pc_renderers (wc_policy config) -> si_renderers s !! name = None) /\
  (forall r, r ∈ pc_renderers (wc_policy config) ->
     exists re, si_renderers s !! rd_name r = Some re /\ re_config re = r /\
       re_deceiver re = (if is_markov r then Some (si_deceiver s) else None) /\
       forall old, si_renderers prev !! rd_name r = Some old -> re_config old = r ->
         (is_markov r = true -> si_deceiver s = si_deceiver prev) -> re = old).
Proof.
  intros Hs H. destruct (rebuilt_renderers config _ _ (Some prev) w s w' ltac:(by intros p [= <-]; apply served_renderers) H) as [Hn Hall].
  split; [done|]. intros r Hin. destruct (Hall r Hin) as (re & Hl & Hc & Hd & Hcar). exists re. split_and!; [done|done|by rewrite <- Hc|].
  intros old Ho Eo Hm. unfold carried_renderer in Hcar. cbn [mbind option_bind] in Hcar. rewrite Ho in Hcar. cbn [mbind option_bind] in Hcar.
  rewrite bool_decide_eq_true_2 in Hcar by done. destruct (is_markov r); cbn in Hcar; [|done].
  by rewrite bool_decide_eq_true_2 in Hcar by (symmetry; by apply Hm).
Qed.

(** A reload that fails leaves what the served state shares as it was: the poison
    memory loses nothing, and when the configuration does not compile nothing
    changes at all. *)
Theorem failed_reload_harmless config seed persistent (prev : option Snapshot) w e w' :
  rebuild config seed persistent prev w = (Err e, w') ->
  w_poison w' = w_poison w /\
  (forall e', state_compile acme fcrdns config persistent = Err e' -> e = e' /\ w' = w).
Proof.
  intros H. split; [by eapply rebuild_quiet_failure|]. intros e' Hc. unfold Reload.rebuild in H. rewrite Hc in H.
  by injection H as <- <-.
Qed.

(** *** Mazes *)

Definition exact_backend (backend : BackendConfig) : Prop :=
  String.eqb (bk_name backend) "*" || starts_with "*." (bk_name backend) = false.
Lemma build_maze_tables_go_ok master mazes tables backends tables' :
  build_maze_tables_go master mazes tables backends = Ok tables' ->
  (forall host table, tables !! host = Some table -> build_table master host mazes = Ok table) ->
  (forall host table, tables' !! host = Some table -> build_table master host mazes = Ok table) /\
  (forall host, is_Some (tables !! host) -> is_Some (tables' !! host)) /\
  (forall backend, backend ∈ backends -> exact_backend backend ->
     exists h, host_parse (bk_name backend) = Ok h /\ is_Some (tables' !! host_text h)).
Proof.
  revert tables. induction backends as [|b backends IH]; intros tables; cbn [build_maze_tables_go].
  { intros [= <-] Ht. split_and!; try done. by intros b ?%elem_of_nil. }
  destruct (_ || _) eqn:E; intros H Ht.
  - destruct (IH _ H Ht) as (H1 & H2 & H3). split_and!; try done. intros b' [->|Hin]%elem_of_cons He; [|by apply H3].
    unfold exact_backend in He. congruence.
  - apply bind_ok in H as (h & Hh%map_err_ok & H). apply bind_ok in H as (table & Htable%map_err_ok & H).
    destruct (IH _ H) as (H1 & H2 & H3).
    { intros host t. rewrite lookup_insert_Some. intros [[<- <-]|[_ ?]]; [done|by apply Ht]. }
    split_and!; [done| |].
    + intros host Hs. apply H2. destruct (decide (host = host_text h)) as [->|Hne].
      * rewrite lookup_insert_eq. by eexists.
      * by rewrite lookup_insert_ne.
    + intros b' [->|Hin]%elem_of_cons He; [|by apply H3]. exists h. split; [done|]. apply H2. rewrite lookup_insert_eq. by eexists.
Qed.

(** A tarpit or lure of a state that is served always has its maze. On the
    host of any backend named exactly, whatever was looked up before, the look-up by the
    name the action gives, at any depth of the rules or of an action, finds
    the maze of the section with that name. *)
Theorem tarpits_find_mazes config seed persistent (prev : option Snapshot) w s w' a m backend cache :
  rebuild config seed persistent prev w = (Ok s, w') ->
  runs (cp_rules (si_compiled s)) (cp_scoring (si_compiled s)) a -> part_of (ATarpit m) a \/ part_of (ALure m) a ->
  backend ∈ wc_backends config -> exact_backend backend ->
  exists h maze rt, host_parse (bk_name backend) = Ok h /\ maze ∈ pc_mazes (wc_policy config) /\ mz_name maze = m /\
    maze_by_name s (host_text h) m cache = Some rt /\ mr_config rt = maze.
Proof.
  intros H%rebuild_parts Hr Hp Hin He.
  destruct H as [w1 w2 w3 w4 w5 w6 w7 w8 w9 w10 w11 w12 Hc Hcfg _ _ _ _ _ _ _ _ _ _ _ Hmaster Htab _ _ _].
  assert (Hres : exists b, (b = ATarpit m \/ b = ALure m) /\ resolves config (si_compiled s) b).
  { destruct Hp as [Hp|Hp]; [exists (ATarpit m)|exists (ALure m)]; (split; [by auto|]).
    all: exact (compiled_parts_resolve acme fcrdns config persistent _ a _ Hc Hr Hp). }
  destruct Hres as (b & Hb & _ & Hm & _). destruct (Hm m Hb) as (maze & Hmz & Hn & Htables).
  unfold build_maze_tables in Htab. destruct (pc_mazes (wc_policy config)) as [|m0 mazes] eqn:Em; [by apply elem_of_nil in Hmz|].
  destruct (build_maze_tables_go_ok _ _ _ _ _ Htab) as (H1 & _ & H3); [intros ? ?; by rewrite lookup_empty|].
  destruct (H3 backend Hin He) as (h & Hh & [table Ht]). destruct (Htables _ _ _ (H1 _ _ Ht)) as (rt & Hrt & Hcf).
  exists h, maze, rt. split_and!; try done. unfold maze_by_name, state_maze_lookup. rewrite Hcfg, Em. unfold maze_lookup.
  by rewrite Ht.
Qed.
End Facts.

(** ** An example *)

Module ReloadExample.
Import StateExample.
(** Every seed is a key and there are no network lists. *)
Definition from_pkcs8 (seed : list N) : option (list N) := Some seed.
Definition load (_ : list NetworkConfig) : Result unit := Ok tt.
Definition seed : list N := [1; 2; 3].
Notation rebuild := (Reload.rebuild false true from_pkcs8 (Ok tt) (Ok tt) load true).
Definition world : World := {| w_next := 0; w_revision := 7; w_poison := ∅ |}.
Definition first : StateInner :=
  from_ok (rebuild config seed true None world).1 ltac:(vm_refl).
Definition world1 : World := (rebuild config seed true None world).2.
Lemma first_built : rebuild config seed true None world = (Ok first, world1).
Proof. unfold first, world1. rewrite (surjective_pairing (rebuild _ _ _ _ _)) at 1. f_equal. Qed.
(** The same without the maze, with one entry for it in the memory. *)
Definition poisoned : World := {|
  w_next := w_next world1; w_revision := w_revision world1;
  w_poison := <[si_poison first := {[ [9] := {| en_expires := 100; en_maze := "garden" |} ]}]> (w_poison world1) |}.
Definition shorter : WebConfig := {|
  wc_bind := bind_default; wc_challenge_http_code := 418; wc_cache_dir := None; wc_client_ip_header := None;
  wc_client_tls_header := None; wc_trusted_proxies := None; wc_backends := ProxyExample.configs;
  wc_policy := {| pc_networks := []; pc_prelude := []; pc_challenges := challenges; pc_rules := []; pc_scoring := None;
    pc_mazes := []; pc_renderers := [renderer]; pc_crawlers := [] |};
  wc_strings := ∅; wc_links := []; wc_logo := None; wc_theme := None; wc_template := ProxyExample.theme;
  wc_deception := deception_default; wc_smear := smear_default |}.
Example purged :
  match rebuild shorter seed true (Some first) poisoned with
  | (Ok s, w) => Some (si_revision s, map_to_list (store_of w (si_poison s)), si_renderers s !! "words", si_crawlers s)
  | _ => None
  end = Some (9, [], si_renderers first !! "words", None).
Proof. vm_refl. Qed.
Definition second : StateInner := from_ok (rebuild shorter seed true (Some first) poisoned).1 ltac:(vm_refl).
Definition world2 : World := (rebuild shorter seed true (Some first) poisoned).2.
Lemma second_built : rebuild shorter seed true (Some first) poisoned = (Ok second, world2).
Proof. unfold second, world2. rewrite (surjective_pairing (rebuild _ _ _ _ _)) at 1. f_equal. Qed.
End ReloadExample.
Import StateExample ReloadExample.

Lemma reload_takes_over_witness : si_poison second = si_poison first /\ si_revision second = 9.
Proof.
  destruct (reload_takes_over false true from_pkcs8 (Ok tt) (Ok tt) load true shorter ReloadExample.seed true first poisoned second world2
              second_built) as (_ & _ & _ & (_ & _ & _ & _ & _ & Hp) & _ & _ & _ & _ & _ & Hr & _).
  split; [exact Hp|]. rewrite Hr. vm_refl.
Defined.
Lemma renderers_follow_config_witness : is_some (si_renderers second !! "words") = true.
Proof.
  assert (Hs : served false true from_pkcs8 (Ok tt) (Ok tt) load true first) by (eapply ServedFirst; exact first_built).
  assert (H : rebuild shorter (si_seed first) (si_seed_persistent first) (Some first) poisoned = (Ok second, world2)).
  { exact second_built. }
  destruct (renderers_follow_config false true from_pkcs8 (Ok tt) (Ok tt) load true first shorter poisoned second world2 Hs H) as [_ Hall].
  destruct (Hall renderer ltac:(left)) as (re & Hl & _). change (rd_name renderer) with "words" in Hl. rewrite Hl. reflexivity.
Defined.
Lemma failed_reload_harmless_witness :
  (rebuild config ReloadExample.seed false (Some first) poisoned).2 = poisoned.
Proof.
  destruct (rebuild config ReloadExample.seed false (Some first) poisoned) as [[s|e] w] eqn:E; [|].
  - assert (H : is_ok (rebuild config ReloadExample.seed false (Some first) poisoned).1 = false) by vm_refl.
    rewrite E in H. discriminate H.
  - destruct (failed_reload_harmless false true from_pkcs8 (Ok tt) (Ok tt) load true config ReloadExample.seed false (Some first)
                poisoned e w E) as [_ Hc].
    destruct (state_compile false true config false) as [c|e'] eqn:Ec.
    + assert (H : is_ok (state_compile false true config false) = false) by vm_refl. rewrite Ec in H. discriminate H.
    + apply (Hc e' eq_refl).
Defined.
Lemma tarpits_find_mazes_witness :
  exists rt, maze_by_name first "git.example.com" "garden" ∅ = Some rt /\ mr_config rt = Toy.garden.
Proof.
  assert (Ha : exists a, runs (cp_rules (si_compiled first)) (cp_scoring (si_compiled first)) a /\ part_of (ATarpit "garden") a).
  { assert (Ec : si_compiled first = compiled) by vm_refl. rewrite Ec.
    destruct (cp_rules compiled) as [|r rs] eqn:E; [discriminate E|].
    exists (Rule.action r). split; [left; exists r; split; [constructor; left|reflexivity]|].
    injection E as <- _. apply PartCheck. right. apply PartSelf. }
  destruct Ha as (a & Hr & Hp).
  destruct (tarpits_find_mazes false true from_pkcs8 (Ok tt) (Ok tt) load true config ReloadExample.seed true None world first world1
              a "garden" (ProxyExample.config "Git.Example.com:443" "http://forge" (Some "X-Real-IP")) ∅
              first_built Hr (or_introl Hp)) as (h & maze & rt & Hh & Hin & Hn & Hl & Hc).
  - right. right. right. left.
  - unfold exact_backend; vm_refl.
  - assert (Eh : h = {| host_text := "git.example.com"; host_ip := None |}).
    { assert (H : host_parse "Git.Example.com:443" = Ok {| host_text := "git.example.com"; host_ip := None |}) by vm_refl.
      cbn [bk_name ProxyExample.config] in Hh. rewrite H in Hh. injection Hh as <-. reflexivity. }
    subst h. apply list_elem_of_singleton in Hin as ->. exists rt. split; [exact Hl|exact Hc].
Defined.

(** * What reloads keep

    Facts about [Control]: a key seed survives its text and its file, and whatever the
    configurations it is reloaded with, a server keeps its listener, its keys and what
    its clients hold. *)

Local Open Scope N_scope.

(** ** The text of a seed *)

Lemma hex_pair a b : a < 16 -> b < 16 -> from_str_radix_16 (hex_digit a) (hex_digit b) = Some (16 * a + b).
Proof.
  assert (Hall : forall n m : N, n < 16 -> m < 16 -> from_str_radix_16 (hex_digit n) (hex_digit m) = Some (16 * n + m)).
  { intros n m Hn Hm. assert (Hv : forall x, x < 16 -> hex_value (hex_digit x) = Some x /\ char_eqb (hex_digit x) "+" = false).
    { intros x Hx. assert (exists i, x = N.of_nat i /\ (i < 16)%nat) as (i & -> & Hi) by (exists (N.to_nat x); lia).
      do 16 (destruct i as [|i]; [split; vm_refl|]). lia. }
    unfold from_str_radix_16. destruct (Hv n Hn) as [E ->], (Hv m Hm) as [E' _]. rewrite E. cbn [mbind option_bind]. by rewrite E'. }
  by apply Hall.
Qed.
Lemma hex_starts l : bytes l -> starts_character (string_chars (hex_encode l)) = true.
Proof.
  intros H. pose proof (hex_encode_chars l H) as Hc. destruct H as [|b l Hb Hl]; [done|]. rewrite hex_encode_cons in Hc |- *.
  cbn [str_all] in Hc. apply andb_true_iff in Hc as [Hc _]. cbn [string_chars starts_character]. revert Hc.
  generalize (hex_digit (b / 16)). intros c. destruct c as [[] [] [] [] [] [] [] []]; vm_compute; done.
Qed.
Lemma hex_decode_encode l : bytes l -> hex_decode (hex_encode l) = HexBytes l.
Proof.
  intros H. unfold hex_decode. rewrite hex_encode_length, Nat.even_mul. cbn [Nat.even orb].
  induction H as [|b l Hb Hl IH]; [done|]. rewrite hex_encode_cons. cbn [string_chars hex_decode_go].
  rewrite hex_starts by done. cbn [negb]. unfold is_byte in Hb.
  rewrite hex_pair by (apply N.Div0.div_lt_upper_bound || apply N.mod_lt; lia). rewrite IH. by rewrite <-N.div_mod by lia.
Qed.

(** No white space starts with a character of a seed, nor ends with one. *)
Definition unlike (c : ascii) (pats : list string) : bool :=
  forallb (fun p => match p with String d _ => negb (char_eqb d c) | EmptyString => false end) pats.
Lemma hexdigit_unlike c :
  is_ascii_hexdigit c = true -> unlike c white_space = true /\ unlike c (str_rev <$> white_space) = true.
Proof. destruct c as [[] [] [] [] [] [] [] []]; vm_compute; intros H; split; done. Qed.
Lemma unlike_stuck c s pats : unlike c pats = true -> stuck pats (String c s).
Proof.
  intros H. unfold stuck. apply first_prefix_none. intros p Hp. unfold unlike in H. rewrite forallb_forall in H.
  specialize (H p ltac:(by apply list_elem_of_In)). destruct p as [|d p]; [done|]. cbn [strip_prefix].
  unfold char_eqb in *. by destruct (Ascii.eqb_spec d c).
Qed.
Lemma hex_stuck s :
  str_all is_ascii_hexdigit s = true -> s <> "" -> trimmed s.
Proof.
  intros H Hn. split.
  - destruct s as [|c s]; [done|]. cbn [str_all] in H. apply andb_true_iff in H as [H _]. by apply unlike_stuck, hexdigit_unlike.
  - assert (Hr : str_all is_ascii_hexdigit (str_rev s) = true).
    { apply str_all_forall in H. apply str_all_forall. unfold str_rev. rewrite string_chars_string. by apply Forall_rev. }
    destruct (str_rev s) as [|c r] eqn:E.
    + exfalso. apply Hn. by rewrite <-(str_rev_involutive s), E.
    + cbn [str_all] in Hr. apply andb_true_iff in Hr as [Hr _]. by apply unlike_stuck, hexdigit_unlike.
Qed.
Definition newline : string := bytes_string [10].
(** A file may end in a newline. *)
Lemma trim_line s : str_all is_ascii_hexdigit s = true -> s <> "" -> str_trim (s +:+ newline) = s.
Proof.
  intros H Hn. destruct (hex_stuck s H Hn) as [Hs He]. unfold str_trim, trim_end_of, trim_start_of.
  destruct s as [|c s]; [done|]. cbn [str_all] in H. apply andb_true_iff in H as [Hc _].
  rewrite (trim_start_go_fixed white_space) by (apply unlike_stuck, hexdigit_unlike, Hc).
  rewrite str_rev_app. change (str_rev newline) with newline.
  change (trim_start_go (str_rev <$> white_space) (String.length (newline +:+ str_rev (String c s)))
            (newline +:+ str_rev (String c s)))
    with (trim_start_go (str_rev <$> white_space) (String.length (str_rev (String c s))) (str_rev (String c s))).
  rewrite trim_start_go_fixed by done. apply str_rev_involutive.
Qed.

(** ** Building and reloading *)

Section Facts.
Context {RX : RegexApi} {HA : HeaderApi} {RH : RhaiApi} {RS : RhaiScript}.
Context {U : UriApi} {UP : UriParts} {HT : HeaderText} {NA : IpNetworkApi} {MA : MazeApi}.
Variables acme fcrdns : bool.
Context {Key Networks : Type}.
Variables (from_pkcs8 : list N -> option Key) (tls_roots : result string unit) (system_dns : result string unit)
          (load_networks : list NetworkConfig -> Result Networks) (start_solvers : bool).
Notation rebuild := (Reload.rebuild acme fcrdns from_pkcs8 tls_roots system_dns load_networks start_solvers).
Notation build_with_seed := (Reload.build_with_seed acme fcrdns from_pkcs8 tls_roots system_dns load_networks start_solvers).
Notation build_shared := (build_shared acme fcrdns from_pkcs8 tls_roots system_dns load_networks start_solvers).
Notation reload := (reload_shared acme fcrdns from_pkcs8 tls_roots system_dns load_networks start_solvers).
Notation served := (served acme fcrdns from_pkcs8 tls_roots system_dns load_networks start_solvers).
Notation Snapshot := (StateInner (Key := Key) (Networks := Networks)).

(** A seed generated as text, given back inline or in a file with or without a
    newline at its end, builds the state of the seed itself, which is persistent. *)
Lemma key_seed_roundtrip read path pkcs8 text config random :
  bytes pkcs8 -> pkcs8 <> [] -> generate_key_seed_hex (Some pkcs8) = Ok text ->
  read path = Ok text \/ read path = Ok (text +:+ newline) ->
  key_seed_hex read (Some text) None = Ok (Some text) /\ key_seed_hex read None (Some path) = Ok (Some text) /\
  build_shared config (Some text) random = Some (build_with_seed config pkcs8).
Proof.
  intros Hb Hn [= <-] Hr. assert (Hne : hex_encode pkcs8 <> "").
  { intros E. apply (f_equal String.length) in E. rewrite hex_encode_length in E. destruct pkcs8; [done|]. cbn in E. lia. }
  pose proof (hex_encode_chars pkcs8 Hb) as Hc. split; [done|]. split.
  - unfold key_seed_hex. destruct Hr as [-> | ->]; cbn [map_err mbind result_bind].
    + by rewrite trimmed_fixed by by apply hex_stuck.
    + by rewrite trim_line.
  - unfold Control.build_shared. by rewrite hex_decode_encode.
Qed.

(** What a rebuild writes of the keys. *)
Lemma rebuild_keys config seed persistent (prev : option Snapshot) w s w' :
  rebuild config seed persistent prev w = (Ok s, w') ->
  from_pkcs8 seed = Some (si_key s) /\ si_seed s = seed /\ si_seed_persistent s = persistent /\
  si_master s = poison_master seed /\ si_config s = config.
Proof.
  intros H. open_rebuild H.
  cbn. split; [|done]. by destruct (from_pkcs8 seed); simplify_eq/=.
Qed.

(** What stays the same from one state to the next. *)
Record kept (s s' : Snapshot) : Prop := {
  kept_listener : same_listener (wc_bind (si_config s)) (wc_bind (si_config s')) = true;
  kept_keys : si_key s' = si_key s /\ si_seed s' = si_seed s /\ si_seed_persistent s' = si_seed_persistent s /\
              si_master s' = si_master s;
  kept_memory : si_solve s' = si_solve s /\ si_census s' = si_census s /\ si_visits s' = si_visits s /\
                si_pending s' = si_pending s /\ si_poison s' = si_poison s /\ si_hooks s' = si_hooks s }.

Lemma same_listener_spec a b :
  same_listener a b = true <->
  bd_network a = bd_network b /\ bd_address a = bd_address b /\ bd_socket_mode a = bd_socket_mode b /\ bd_tls a = bd_tls b.
Proof. unfold same_listener. rewrite !andb_true_iff, !bool_decide_eq_true, String.eqb_eq. tauto. Qed.
Lemma kept_refl s : kept s s.
Proof. split; [by apply same_listener_spec|done..]. Qed.
Lemma kept_trans s s' s'' : kept s s' -> kept s' s'' -> kept s s''.
Proof.
  intros [L (K1 & K2 & K3 & K4) (M1 & M2 & M3 & M4 & M5 & M6)] [L' (K1' & K2' & K3' & K4') (M1' & M2' & M3' & M4' & M5' & M6')].
  split; [|split_and!; congruence..]. apply same_listener_spec in L, L'. apply same_listener_spec. intuition congruence.
Qed.
#[local] Instance kept_preorder : PreOrder kept.
Proof. split; [exact kept_refl|exact kept_trans]. Qed.

Lemma served_keys s : served s -> from_pkcs8 (si_seed s) = Some (si_key s) /\ si_master s = poison_master (si_seed s).
Proof. induction 1; destruct (rebuild_keys _ _ _ _ _ _ _ ltac:(eassumption)) as (? & -> & _ & ? & _); done. Qed.

Lemma reload_step config s w :
  served s -> served (reload config (s, w)).1 /\ kept s (reload config (s, w)).1.
Proof.
  intros Hs. unfold reload_shared. destruct (same_listener _ _) eqn:El; [|by split; [|reflexivity]]. cbn [negb].
  destruct (rebuild config _ _ _ w) as [[s'|e] w'] eqn:E; [|by split; [|reflexivity]]. cbn [fst].
  split; [by eapply ServedNext|]. destruct (served_keys s Hs) as [Hk Hm].
  destruct (rebuild_keys _ _ _ _ _ _ _ E) as (Hk' & Hseed & Hp & Hm' & Hc).
  apply rebuild_parts in E.
  destruct E as [w1 w2 w3 w4 w5 w6 w7 w8 w9 w10 w11 w12 _ _ _ E1 E2 E3 _ E4 _ _ _ E5 _ _ _ _ E6 _]. split; [by rewrite Hc|split_and!; congruence|].
  injection E1 as <- <-; injection E2 as <- <-; injection E3 as <- <-; injection E4 as <- <-; injection E5 as <- <-.
  split_and!; try done. unfold poison_for in E6. step_call E6. by injection E6 as <- <-.
Qed.

(** *** What a reload leaves of the memory of mazes *)

Definition mazes_of (config : WebConfig) : list MazeConfig := pc_mazes (wc_policy config).
Lemma dropped_self mazes name : ~ dropped mazes mazes name.
Proof.
  intros (old & Hin & _ & Hr). unfold retained in Hr. apply not_true_iff_false in Hr. apply Hr, existsb_exists.
  exists old. split; [by apply list_elem_of_In|]. by rewrite String.eqb_refl, N.eqb_refl.
Qed.
(** A configuration with the maze of a name, kept for a time. *)
Definition has_maze (name : string) (ttl : N) (config : WebConfig) : Prop :=
  (exists maze, maze ∈ mazes_of config /\ mz_name maze = name) /\
  forall maze, maze ∈ mazes_of config -> mz_name maze = name -> mz_memory_ttl maze = ttl.
Lemma has_maze_kept name ttl old new :
  has_maze name ttl old -> has_maze name ttl new -> ~ dropped (mazes_of old) (mazes_of new) name.
Proof.
  intros [_ Ho] [(mz & Hm & Hn) Hnew] (o & Hin & Hname & Hr). unfold retained in Hr. apply not_true_iff_false in Hr.
  apply Hr, existsb_exists. exists mz. split; [by apply list_elem_of_In|].
  by rewrite Hname, Hn, String.eqb_refl, (Hnew mz Hm Hn), (Ho o Hin Hname), N.eqb_refl.
Qed.
Lemma reload_memory config (s : Snapshot) w :
  let '(s', w') := reload config (s, w) in
  (forall id e, store_of w' (si_poison s') !! id = Some e <->
     store_of w (si_poison s) !! id = Some e /\ ~ dropped (mazes_of (si_config s)) (mazes_of (si_config s')) (en_maze e)) /\
  (tk_capacity (si_rate s) = capacity_of (si_compiled s') -> si_rate s' = si_rate s).
Proof.
  assert (Hsame : forall w', w_poison w' = w_poison w ->
    (forall id e, store_of w' (si_poison s) !! id = Some e <->
       store_of w (si_poison s) !! id = Some e /\ ~ dropped (mazes_of (si_config s)) (mazes_of (si_config s)) (en_maze e)) /\
    (tk_capacity (si_rate s) = capacity_of (si_compiled s) -> si_rate s = si_rate s)).
  { intros w' E. split; [|done]. intros id e. unfold store_of. rewrite E. pose proof (dropped_self (mazes_of (si_config s)) (en_maze e)). tauto. }
  unfold reload_shared. destruct (same_listener _ _); [|by apply Hsame]. cbn [negb].
  destruct (rebuild config _ _ _ w) as [[s'|e] w'] eqn:E.
  - apply reload_takes_over in E as (_ & Hc & _ & (_ & _ & _ & _ & _ & Hp) & [Hcap Htk] & _ & _ & _ & _ & _ & Hst). split.
    + intros id e. rewrite Hp, Hst, Hc. done.
    + intros Hcap'. rewrite Hcap', N.eqb_refl in Htk. cbn in Htk. destruct (si_rate s), (si_rate s'); cbn in *; congruence.
  - apply Hsame. eapply failed_reload_harmless. exact E.
Qed.

(** C26: However often a server is reloaded, and with whatever configurations, it keeps
    its listener - network, address, socket mode and TLS -, its keys, and the places
    where it keeps solve counts, the census, visits, pending challenges, the mazes' memory and
    the hooks of the daemon. No entry of the mazes' memory is added; and one is still
    there when every configuration, the first included, has its maze with the same time
    to keep entries. Each further reload serves the new configuration, or what was served
    before, and it is what was served when the listener would change; it takes
    out of the mazes' memory exactly the entries of mazes that are gone or keep entries for another
    time, and takes over the rate windows when the capacity asked for is the same. *)
Theorem reloads_keep_identity s w configs :
  served s ->
  let '(s', w') := foldl (fun shared config => reload config shared) (s, w) configs in
  served s' /\ kept s s' /\
  (forall id e, store_of w' (si_poison s') !! id = Some e -> store_of w (si_poison s) !! id = Some e) /\
  (forall id e ttl, store_of w (si_poison s) !! id = Some e ->
     Forall (has_maze (en_maze e) ttl) (si_config s :: configs) -> store_of w' (si_poison s') !! id = Some e) /\
  forall config w',
    let '(s'', w'') := reload config (s', w') in
    (si_config s'' = config \/ s'' = s') /\
    (same_listener (wc_bind (si_config s)) (wc_bind config) = false -> (s'', w'') = (s', w')) /\
    (forall id e, store_of w'' (si_poison s'') !! id = Some e <->
       store_of w' (si_poison s') !! id = Some e /\
       ~ dropped (mazes_of (si_config s')) (mazes_of (si_config s'')) (en_maze e)) /\
    (tk_capacity (si_rate s') = capacity_of (si_compiled s'') -> si_rate s'' = si_rate s').
Proof.
  intros Hs.
  assert (Hnext : forall s' config w', kept s s' -> let '(s'', w'') := reload config (s', w') in
    (si_config s'' = config \/ s'' = s') /\ (same_listener (wc_bind (si_config s)) (wc_bind config) = false -> (s'', w'') = (s', w'))).
  { intros s' config w' [L _ _]. unfold reload_shared. destruct (same_listener (wc_bind (si_config s')) (wc_bind config)) eqn:E.
    - assert (H : same_listener (wc_bind (si_config s)) (wc_bind config) = true).
      { apply same_listener_spec in L, E. apply same_listener_spec. intuition congruence. }
      rewrite H. cbn [negb]. destruct (rebuild config _ _ _ w') as [[s2|e] w2] eqn:Er; split; try done; [|by right]. left.
      by destruct (rebuild_keys _ _ _ _ _ _ _ Er) as (_ & _ & _ & _ & ?).
    - cbn [negb]. split; [by right|done]. }
  assert (Hall : forall configs st, served st.1 -> kept s st.1 ->
    let '(s', w') := foldl (fun shared config => reload config shared) st configs in
    served s' /\ kept s s' /\
    (forall id e, store_of w' (si_poison s') !! id = Some e -> store_of st.2 (si_poison st.1) !! id = Some e) /\
    (forall id e ttl, store_of st.2 (si_poison st.1) !! id = Some e ->
       Forall (has_maze (en_maze e) ttl) (si_config st.1 :: configs) -> store_of w' (si_poison s') !! id = Some e)).
  { clear configs. induction configs as [|config configs IH]; intros [s1 w1] H1 K1; cbn [foldl fst snd] in *; [done|].
    destruct (reload_step config s1 w1 H1) as [H2 K2]. pose proof (reload_memory config s1 w1) as Hmem.
    pose proof (Hnext s1 config w1 K1) as Hn. specialize (IH (reload config (s1, w1)) H2 ltac:(by etrans)).
    destruct (reload config (s1, w1)) as [s2 w2]. cbn [fst snd] in *. destruct Hn as [Hcfg _], Hmem as [Hmem _].
    destruct (foldl _ _ configs) as [s' w']. destruct IH as (H3 & K3 & Hold & Hnew). split_and!; try done.
    - intros id e H. by apply Hold, Hmem in H as [? _].
    - intros id e ttl H [Hc1 [Hc2 Hcs]%Forall_cons]%Forall_cons.
      assert (Hc : has_maze (en_maze e) ttl (si_config s2)) by (destruct Hcfg as [-> | ->]; done).
      apply (Hnew id e ttl); [|by constructor]. apply Hmem. split; [done|]. by apply (has_maze_kept _ ttl). }
  specialize (Hall configs (s, w) Hs (kept_refl s)). destruct (foldl _ _ configs) as [s' w'].
  destruct Hall as (H1 & H2 & H3 & H4). split_and!; try done. intros config w1.
  pose proof (Hnext s' config w1 H2) as Hn. pose proof (reload_memory config s' w1) as Hm.
  destruct (reload config (s', w1)) as [s'' w'']. tauto.
Qed.
End Facts.

(** ** Examples *)

Import StateExample ReloadExample.
Lemma reloads_keep_identity_witness :
  si_poison (reload_shared false true from_pkcs8 (Ok tt) (Ok tt) load true shorter (first, poisoned)).1 = si_poison first.
Proof.
  assert (Hs : served false true from_pkcs8 (Ok tt) (Ok tt) load true first) by (eapply ServedFirst; exact first_built).
  pose proof (reloads_keep_identity false true from_pkcs8 (Ok tt) (Ok tt) load true first poisoned [shorter] Hs) as H.
  cbn [foldl] in H.
  destruct (reload_shared false true from_pkcs8 (Ok tt) (Ok tt) load true shorter (first, poisoned)) as [s' w'].
  destruct H as (_ & [_ _ (_ & _ & _ & _ & Hp & _)] & _). exact Hp.
Defined.
(** The shorter configuration is served then: the listener is that of the first. *)
Example reloaded_is_served :
  si_revision (reload_shared false true from_pkcs8 (Ok tt) (Ok tt) load true shorter (first, poisoned)).1 = 9.
Proof. vm_refl. Qed.

(** A seed with a character of more than one byte is refused, or brings the server down
    as it starts, by where the character stands; and signs are taken for digits. *)
Example seeds_that_are_not_hexadecimal :
  hex_decode (bytes_string [195; 169; 48; 48]) = HexInvalid /\
  hex_decode (bytes_string [48; 195; 169; 48]) = HexPanics /\
  hex_decode "+f+0" = HexBytes [15; 0].
Proof. split_and!; vm_refl. Qed.
