(* ===== verification/Session.v ===== *)
(** * Challenge sessions

    [crates/bagel-web/src/challenge/token.rs] and the cookie side of
    [challenge/mod.rs]: how the state of a client's challenges is sealed into a
    cookie, opened from the headers of a request, and kept from the backend
    ([strip_bagel_cookies] of [server/pipeline_evaluate.rs]). Serialisation,
    compression, signatures and encryption are an interface. *)

From S2P Require Import Prelude Core Strings Ip Bytes Url Rate Pending.
From S2P Require Import Rule Challenge Date.

Local Open Scope N_scope.

(** ** Sealing *)

(** [serde_json], [flate2], [ring] and [data_encoding], with errors as they are
    printed; that of [deflate] names the step, writing or finishing. Keys of the signature are the server's; an encryption takes a key
    and a nonce. *)
Class SealApi : Type := {
  token_json : Token -> result string (list N);
  token_of_json : list N -> result string Token;
  deflate : list N -> result string (list N);
  inflate : list N -> result string (list N);
  sign : list N -> list N;
  verify_signature : list N -> list N -> bool;
  aead_seal : list N -> list N -> list N -> option (list N);
  aead_open : list N -> list N -> list N -> option (list N);
  b64_encode : list N -> string;
  b64_decode : string -> result string (list N) }.

(** What is encoded, compressed or encrypted comes back; a signature made is
    accepted; base64url uses its alphabet. *)
Class SealLaws `{!SealApi} : Prop := {
  json_back t b : token_json t = Ok b -> token_of_json b = Ok t;
  inflate_back b c : deflate b = Ok c -> inflate c = Ok b;
  signature_ok m : verify_signature m (sign m) = true;
  aead_back k n m c : aead_seal k n m = Some c -> aead_open k n c = Some m;
  b64_back b : b64_decode (b64_encode b) = Ok b;
  b64_alphabet b :
    str_all (fun c => is_ascii_alphanumeric c || char_eqb c "-" || char_eqb c "_") (b64_encode b) = true }.

(** Authenticated encryption: what was sealed under a key opens under no other. *)
Class SealBinding `{!SealApi} : Prop :=
  aead_key_bound k k' n m c : aead_seal k n m = Some c -> k' <> k -> aead_open k' n c = None.

Section Seal.
Context `{SealApi}.

Definition crypto {A} (message : string) : Result A := Err (Error.Crypto message).
Definition crypto_err {A} (what : string) (r : result string A) : Result A :=
  map_err (fun e => Error.Crypto (what +:+ ": " +:+ e)) r.
Definition crypto_opt {A} (message : string) (o : option A) : Result A :=
  ok_or (Error.Crypto message) o.

(** [seal_token]; [random] is the twelve bytes of the random source, if it works. *)
Definition seal_token (random : option (list N)) (t : Token) (key : list N) : Result string :=
  json ← crypto_err "token serialize" (token_json t);
  compressed ← map_err Error.Crypto (deflate json);
  let signature := sign compressed in
  (if (length key =? 32)%nat then Ok tt else crypto "invalid AES key") ;;
  nonce ← crypto_opt "failed to generate random nonce" random;
  sealed ← crypto_opt "AES-GCM encrypt failed" (aead_seal key nonce compressed);
  Ok (b64_encode signature +:+ "." +:+ b64_encode nonce +:+ "." +:+ b64_encode sealed).

(** [splitn(3, '.')] into exactly three parts. *)
Definition three_parts (s : string) : option (string * string * string) :=
  '(a, rest) ← split_once "." s; '(b, c) ← split_once "." rest; Some (a, b, c).

Definition open_token (now : Z) (value : string) (key : list N) : Result Token :=
  '(sig, nonce, ciphertext) ← crypto_opt "invalid token format: expected 3 parts" (three_parts value);
  sig ← crypto_err "signature decode" (b64_decode sig);
  nonce ← crypto_err "nonce decode" (b64_decode nonce);
  ciphertext ← crypto_err "ciphertext decode" (b64_decode ciphertext);
  (if (length nonce =? 12)%nat then Ok tt else crypto "invalid nonce length") ;;
  (if (length key =? 32)%nat then Ok tt else crypto "invalid AES key") ;;
  compressed ← crypto_opt "AES-GCM decrypt failed" (aead_open key nonce ciphertext);
  (if verify_signature compressed sig then Ok tt else crypto "signature verification failed") ;;
  json ← crypto_err "deflate decompress" (inflate compressed);
  t ← crypto_err "token parse" (token_of_json json);
  (if (tk_exp t <? now)%Z then crypto "token expired" else Ok tt) ;;
  if (now <? tk_nbf t)%Z then crypto "token not yet valid" else Ok t.
End Seal.

(** ** Keys and names *)

Definition derive_cookie_key (sha256 : list N -> N) (host network_prefix : string)
    (server_key : list N) : list N :=
  be_bytes 32 (sha256 (string_bytes host ++ string_bytes network_prefix ++ server_key ++
                       string_bytes "1.0/DEFLATE")).
Definition derive_pending_key (sha256 : list N -> N) (host : string) (server_key : list N) : list N :=
  derive_cookie_key sha256 host "pending" server_key.
Definition cookie_name (sha256 : list N -> N) (host : string) : string :=
  ".bagel-" +:+ hex_encode (take 3 (be_bytes 32 (sha256 (string_bytes host)))) +:+ "-state".

(** ** Cookies of a request *)

(** [Display] of an optional address's network, as [map_or_else(Default::default, ..)]. *)
Definition client_prefix (ip : option IpAddr) : string :=
  match ip with Some ip => network_prefix (from_ip ip) | None => "" end.

(** A cookie of the name, in the text of a Cookie header. *)
Definition cookie_pair (name cookie : string) : option string :=
  '(n, value) ← split_once "=" cookie;
  if String.eqb (str_trim n) name then Some (str_trim value) else None.
Definition find_cookie (name : string) (headers : list string) : option string :=
  first_some (cookie_pair name) (str_trim <$> mjoin (str_split ";" <$> headers)).

Section Cookies.
Context `{SealApi}.
Variables (sha256 : list N -> N) (server_key : list N).

Definition no_state : RequestChallengeState := {| token := None; modified := false; injections := [] |}.

(** [RequestChallengeState::from_headers] on the Cookie headers that are text. *)
Definition open_cookie (now : Z) (host : string) (ip : option IpAddr) (value : string) : option Token :=
  match open_token now value (derive_cookie_key sha256 host (client_prefix ip) server_key) with
  | Ok t => Some t
  | Err _ =>
      match open_token now value (derive_pending_key sha256 host server_key) with
      | Ok t => if tk_pending t then Some t else None
      | Err _ => None
      end
  end.
Definition from_headers (now : Z) (headers : list string) (host : string) (ip : option IpAddr) :
    RequestChallengeState :=
  match find_cookie (cookie_name sha256 host) headers with
  | Some value =>
      match open_cookie now host ip value with
      | Some t => {| token := Some t; modified := false; injections := [] |}
      | None => no_state
      end
  | None => no_state
  end.

(** The date of a cookie; a year is counted off for each of these rounds. *)
Definition cookie_date (secs : Z) : string :=
  default "" (Token.format_http_date (S (Z.to_nat (secs / 86400 / 365))) secs).
Definition cookie_text (host : string) (host_is_ip : bool) (sealed : string) (exp : Z) : string :=
  let domain := if host_is_ip then "" else " Domain=" +:+ host +:+ ";" in
  cookie_name sha256 host +:+ "=" +:+ sealed +:+ "; Path=/;" +:+ domain +:+ " Expires=" +:+
  cookie_date exp +:+ "; HttpOnly; SameSite=Lax".

(** [RequestChallengeState::seal_cookie]. *)
Definition seal_cookie (random : option (list N)) (s : RequestChallengeState) (host : string)
    (host_is_ip : bool) (ip : option IpAddr) : Result (option string) :=
  match token s with
  | Some t =>
      if modified s then
        let key := if tk_pending t then derive_pending_key sha256 host server_key
                   else derive_cookie_key sha256 host (client_prefix ip) server_key in
        sealed ← seal_token random t key;
        Ok (Some (cookie_text host host_is_ip sealed (tk_exp t)))
      else Ok None
  | None => Ok None
  end.

(** [strip_bagel_cookies] on the Cookie headers of a request, in order; the flag
    of a header says its value is text. The first one is cleaned and takes the
    place of all. *)
Definition clean_cookies (name text : string) : list string :=
  List.filter (fun cookie => match split_once "=" cookie with
                             | Some (n, _) => negb (String.eqb (str_trim n) name)
                             | None => true
                             end) (str_trim <$> str_split ";" text).
Definition strip_bagel_cookies (valid : string -> bool) (host : string) (headers : list (string * bool))
    : list (string * bool) :=
  match headers with
  | (text, true) :: _ =>
      match clean_cookies (cookie_name sha256 host) text with
      | [] => []
      | cleaned =>
          let new_cookie := str_join "; " cleaned in
          if valid new_cookie then [(new_cookie, true)] else headers
      end
  | _ => headers
  end.
End Cookies.

(** ** Facts *)

(** Trimming changes nothing in a string of graphic characters. *)
Lemma first_some_all_none {A B} (f : A -> option B) l : Forall (fun a => f a = None) l -> first_some f l = None.
Proof. induction 1 as [|a l Ha Hl IH]; [done|]. cbn. by rewrite Ha. Qed.

Lemma trim_go_graphic pats fuel s :
  forallb (fun p => match p with String c _ => negb (is_ascii_graphic c) | EmptyString => false end) pats = true ->
  str_all is_ascii_graphic s = true -> trim_start_go pats fuel s = s.
Proof.
  intros Hp Hs. destruct fuel as [|fuel]; [done|]. cbn [trim_start_go].
  rewrite first_some_all_none; [done|]. apply Forall_forall. intros p Hin%list_elem_of_In.
  pose proof (proj1 (forallb_forall _ _) Hp p Hin) as Hc. destruct p as [|c p]; [done|].
  destruct (strip_prefix (String c p) s) as [r|] eqn:E; [|done]. apply strip_prefix_some in E as ->.
  change (is_ascii_graphic c && str_all is_ascii_graphic (p +:+ r) = true) in Hs.
  apply andb_true_iff in Hs as [Hs _]. by rewrite Hs in Hc.
Qed.

Lemma str_all_rev p s : str_all p (str_rev s) = str_all p s.
Proof.
  apply eq_true_iff_eq. rewrite !str_all_forall. unfold str_rev. rewrite string_chars_string.
  split; intros H; [rewrite <- (rev_involutive (string_chars s))|]; by apply Forall_rev.
Qed.

Lemma str_trim_graphic s : str_all is_ascii_graphic s = true -> str_trim s = s.
Proof.
  intros H. unfold str_trim, trim_end_of, trim_start_of.
  rewrite (trim_go_graphic white_space); [|vm_refl|done].
  rewrite trim_go_graphic; [apply str_rev_involutive|vm_refl|by rewrite str_all_rev].
Qed.

(** The characters of cookie names and sealed values. *)
Definition cookie_char (c : ascii) : bool :=
  is_ascii_alphanumeric c || char_eqb c "-" || char_eqb c "_" || char_eqb c ".".
Lemma cookie_char_graphic s : str_all cookie_char s = true -> str_all is_ascii_graphic s = true.
Proof. apply str_all_impl. intros c. by_char c. Qed.
Lemma cookie_char_free d s :
  (d = ";"%char \/ d = "="%char) -> str_all cookie_char s = true -> str_any (char_eqb d) s = false.
Proof. intros Hd. apply str_all_not_any. intros c. destruct Hd as [-> | ->]; by_char c. Qed.

Lemma cookie_name_chars sha256 host : str_all cookie_char (cookie_name sha256 host) = true.
Proof.
  unfold cookie_name. rewrite !str_all_app.
  assert (H : str_all cookie_char (hex_encode (take 3 (be_bytes 32 (sha256 (string_bytes host))))) = true).
  { eapply str_all_impl; [|apply hex_encode_chars, Forall_take, be_bytes_bytes].
    intros c. by_char c. }
  by rewrite H.
Qed.

Section SealFacts.
Context `{SealLaws}.

(** What opens is valid now. *)
Lemma open_token_valid now value key t :
  open_token now value key = Ok t -> (tk_nbf t <= now <= tk_exp t)%Z.
Proof.
  unfold open_token. intros Ho. inv_all.
  repeat match goal with Hx : (if ?c then _ else _) = Ok _ |- _ => destruct c eqn:?; try done end.
  inv_result. split; by apply Z.ltb_ge.
Qed.

Lemma from_headers_valid sha256 server_key now headers host ip t :
  token (from_headers sha256 server_key now headers host ip) = Some t ->
  (tk_nbf t <= now <= tk_exp t)%Z.
Proof.
  unfold from_headers. destruct (find_cookie _ headers) as [v|]; [|done].
  unfold open_cookie. destruct (open_token now v (derive_cookie_key _ _ _ _)) as [t'|] eqn:E1.
  { intros [= <-]. by eapply open_token_valid. }
  destruct (open_token now v (derive_pending_key _ _ _)) as [t'|] eqn:E2; [|done].
  destruct (tk_pending t'); [|done]. intros [= <-]. by eapply open_token_valid.
Qed.

Lemma three_parts_of a b c :
  str_any (char_eqb ".") a = false -> str_any (char_eqb ".") b = false ->
  three_parts (a +:+ "." +:+ b +:+ "." +:+ c) = Some (a, b, c).
Proof.
  intros Ha Hb. unfold three_parts.
  change (a +:+ "." +:+ b +:+ "." +:+ c) with (a +:+ String "." (b +:+ String "." c)).
  rewrite split_once_app by done. cbn [mbind option_bind]. by rewrite split_once_app.
Qed.

Lemma b64_dotless b : str_any (char_eqb ".") (b64_encode b) = false.
Proof. eapply str_all_not_any; [|apply b64_alphabet]. intros c. by_char c. Qed.
Lemma b64_cookie b : str_all cookie_char (b64_encode b) = true.
Proof. eapply str_all_impl; [|apply b64_alphabet]. intros c. unfold cookie_char. intros ->. done. Qed.

Lemma seal_token_chars random t key sealed :
  seal_token random t key = Ok sealed -> str_all cookie_char sealed = true.
Proof. unfold seal_token. intros Hs. inv_all. by rewrite !str_all_app, !b64_cookie. Qed.

(** What is sealed with a key opens with it to what it is at the time. *)
Lemma open_sealed_at random t key sealed now :
  seal_token random t key = Ok sealed ->
  match random with Some nonce => length nonce = 12%nat | None => True end ->
  open_token now sealed key =
    if (tk_exp t <? now)%Z then crypto "token expired"
    else if (now <? tk_nbf t)%Z then crypto "token not yet valid" else Ok t.
Proof.
  intros Hs Hr. unfold seal_token in Hs. apply bind_ok in Hs as (json & Hj & Hs).
  unfold crypto_err in Hj. destruct (token_json t) as [json'|] eqn:Ej; [|done]. injection Hj as ->.
  apply bind_ok in Hs as (comp & Hc & Hs). destruct (deflate json) as [comp'|] eqn:Ed; [|done].
  injection Hc as ->. apply bind_ok in Hs as ([] & Hk & Hs).
  apply bind_ok in Hs as (nonce & Hn & Hs). destruct random as [nonce'|]; [|done]. injection Hn as ->.
  apply bind_ok in Hs as (ct & Hct & [= <-]). unfold crypto_opt in Hct.
  destruct (aead_seal key nonce comp) as [ct'|] eqn:Es; [|done]. injection Hct as ->.
  unfold open_token. rewrite three_parts_of by apply b64_dotless. unfold crypto_err, crypto_opt.
  cbn [ok_or mbind result_bind]. rewrite !b64_back. cbn [map_err mbind result_bind].
  rewrite Hr, Nat.eqb_refl, Hk. cbn [mbind result_bind].
  rewrite (aead_back _ _ _ _ Es). cbn [ok_or mbind result_bind]. rewrite signature_ok. cbn [mbind result_bind].
  rewrite (inflate_back _ _ Ed). cbn [map_err mbind result_bind]. rewrite (json_back _ _ Ej).
  cbn [map_err mbind result_bind]. by destruct (tk_exp t <? now)%Z.
Qed.

(** While it is valid it opens whole, and no longer. *)
Lemma open_sealed_token random t key sealed now :
  seal_token random t key = Ok sealed ->
  match random with Some nonce => length nonce = 12%nat | None => True end ->
  (tk_nbf t <= now <= tk_exp t)%Z ->
  open_token now sealed key = Ok t.
Proof.
  intros Hs Hr Hnow. rewrite (open_sealed_at _ _ _ _ _ Hs Hr).
  destruct (Z.ltb_spec (tk_exp t) now); [lia|].
  by destruct (Z.ltb_spec now (tk_nbf t)); [lia|].
Qed.
Lemma open_sealed_late random t key sealed now :
  seal_token random t key = Ok sealed ->
  match random with Some nonce => length nonce = 12%nat | None => True end ->
  (tk_exp t < now)%Z -> is_ok (open_token now sealed key) = false.
Proof. intros Hs Hr Hlt. by rewrite (open_sealed_at _ _ _ _ _ Hs Hr), (proj2 (Z.ltb_lt _ _) Hlt). Qed.

(** Under another key it does not. *)
Lemma open_sealed_other `{!SealBinding} random t key key' sealed now :
  seal_token random t key = Ok sealed -> key' <> key -> is_ok (open_token now sealed key') = false.
Proof.
  intros Hs Hk. unfold seal_token in Hs. apply bind_ok in Hs as (json & _ & Hs).
  apply bind_ok in Hs as (comp & _ & Hs). apply bind_ok in Hs as ([] & _ & Hs).
  apply bind_ok in Hs as (nonce & _ & Hs). apply bind_ok in Hs as (ct & Hct & [= <-]).
  unfold crypto_opt in Hct. destruct (aead_seal key nonce comp) as [ct'|] eqn:Es; [|done]. injection Hct as ->.
  unfold open_token. rewrite three_parts_of by apply b64_dotless. unfold crypto_err, crypto_opt.
  cbn [ok_or mbind result_bind]. rewrite !b64_back. cbn [map_err mbind result_bind].
  rewrite (aead_key_bound _ _ _ _ _ Es Hk). by repeat case_match.
Qed.

Section RoundTrip.
Variables (sha256 : list N -> N) (server_key : list N).

(** The pair a browser keeps of a Set-Cookie header, and what it sends back. *)
Lemma cookie_text_pair host host_is_ip sealed exp :
  str_all cookie_char sealed = true ->
  exists attributes, split_once ";" (cookie_text sha256 host host_is_ip sealed exp) =
    Some (cookie_name sha256 host +:+ "=" +:+ sealed, attributes).
Proof.
  intros Hs. unfold cookie_text. eexists.
  set (name := cookie_name sha256 host).
  match goal with |- split_once _ (name +:+ "=" +:+ sealed +:+ "; Path=/;" +:+ ?r) = _ =>
    replace (name +:+ "=" +:+ sealed +:+ "; Path=/;" +:+ r)
      with ((name +:+ "=" +:+ sealed) +:+ String ";" (" Path=/;" +:+ r)) end.
  - apply split_once_app. rewrite !str_any_app. subst name.
    by rewrite (cookie_char_free ";" _ (or_introl eq_refl) (cookie_name_chars sha256 host)),
      (cookie_char_free ";" sealed (or_introl eq_refl) Hs).
  - rewrite !string_app_assoc. done.
Qed.

Lemma cookie_pair_found host sealed :
  str_all cookie_char sealed = true ->
  let pair := cookie_name sha256 host +:+ "=" +:+ sealed in
  find_cookie (cookie_name sha256 host) [pair] = Some sealed /\
  clean_cookies (cookie_name sha256 host) pair = [].
Proof.
  intros Hs. pose proof (cookie_name_chars sha256 host) as Hn. cbv zeta.
  set (name := cookie_name sha256 host) in *. change (name +:+ "=" +:+ sealed) with (name +:+ String "=" sealed).
  assert (Hsplit : str_split ";" (name +:+ String "=" sealed) = [name +:+ String "=" sealed]).
  { apply str_split_none. rewrite str_any_app. cbn [str_any].
    by rewrite (cookie_char_free ";" name (or_introl eq_refl) Hn),
      (cookie_char_free ";" sealed (or_introl eq_refl) Hs). }
  assert (Htrim : str_trim (name +:+ String "=" sealed) = name +:+ String "=" sealed).
  { apply str_trim_graphic. rewrite str_all_app. cbn [str_all].
    by rewrite (cookie_char_graphic name Hn), (cookie_char_graphic sealed Hs). }
  assert (Hone : split_once "=" (name +:+ String "=" sealed) = Some (name, sealed)).
  { apply split_once_app. apply cookie_char_free; [by right|done]. }
  unfold find_cookie, clean_cookies. cbn [fmap list_fmap mjoin list_join]. rewrite Hsplit.
  cbn [app fmap list_fmap first_some List.filter]. rewrite Htrim. unfold cookie_pair. rewrite Hone.
  cbn [mbind option_bind]. rewrite (str_trim_graphic name), (str_trim_graphic sealed), String.eqb_refl
    by (by apply cookie_char_graphic). done.
Qed.

(** What the key of a network's cookies is the digest of. *)
Definition key_message (host prefix : string) : list N :=
  string_bytes host ++ string_bytes prefix ++ server_key ++ string_bytes "1.0/DEFLATE".

Lemma key_message_inj host p p' : key_message host p = key_message host p' -> p = p'.
Proof. intros H1%app_inv_head. apply app_inv_tail in H1. by apply string_bytes_inj. Qed.

(** C8: A client's challenge state survives the trip through its cookie: what a
    response seals is, in the pair a browser keeps of it, found and, while it is
    valid, opened whole in a later request - from the same network once a challenge
    has been passed, from any network before. From another network a state with a
    passed challenge is not opened, and the request has none: the key of the cookie
    is the digest of a text the network is part of, so this needs two different
    texts to have two digests, and the encryption to refuse another key. When the
    first Cookie header of a request is this pair alone, the request goes to the
    backend without any Cookie header. *)
Theorem session_roundtrip `{!SealBinding} random s t host host_is_ip ip ip' now cookie :
  match random with Some nonce => length nonce = 12%nat | None => True end ->
  token s = Some t ->
  seal_cookie sha256 server_key random s host host_is_ip ip = Ok (Some cookie) ->
  (tk_nbf t <= now <= tk_exp t)%Z ->
  exists pair attributes sealed,
    split_once ";" cookie = Some (pair, attributes) /\
    find_cookie (cookie_name sha256 host) [pair] = Some sealed /\
    (forall valid rest, strip_bagel_cookies sha256 valid host ((pair, true) :: rest) = []) /\
    (tk_pending t = true \/ client_prefix ip' = client_prefix ip ->
     from_headers sha256 server_key now [pair] host ip' =
       {| token := Some t; modified := false; injections := [] |}) /\
    (tk_pending t = false -> client_prefix ip' <> client_prefix ip ->
     let mine := key_message host (client_prefix ip) in
     let theirs := key_message host (client_prefix ip') in
     theirs <> mine /\
     (be_bytes 32 (sha256 theirs) <> be_bytes 32 (sha256 mine) ->
      from_headers sha256 server_key now [pair] host ip' = no_state)).
Proof.
  intros Hr Ht Hs Hnow. unfold seal_cookie in Hs. rewrite Ht in Hs. destruct (modified s); [|done].
  apply bind_ok in Hs as (sealed & Hseal & [= <-]).
  pose proof (open_sealed_token _ _ _ _ now Hseal Hr Hnow) as Ho.
  pose proof (seal_token_chars _ _ _ _ Hseal) as Hc.
  destruct (cookie_text_pair host host_is_ip sealed (tk_exp t) Hc) as [attributes Ha].
  destruct (cookie_pair_found host sealed Hc) as [Hf Hclean].
  eexists _, attributes, sealed. split_and!; [exact Ha|exact Hf|..].
  - intros valid rest. unfold strip_bagel_cookies. by rewrite Hclean.
  - intros Hkey. unfold from_headers. rewrite Hf. unfold open_cookie. destruct (tk_pending t) eqn:Ep.
    + destruct (decide (derive_cookie_key sha256 host (client_prefix ip') server_key =
        derive_pending_key sha256 host server_key)) as [E|Hne]; [by rewrite E, Ho|].
      pose proof (open_sealed_other _ _ _ _ _ now Hseal Hne) as Hno.
      destruct (open_token now sealed (derive_cookie_key _ _ _ _)) as [t'|e]; [done|]. by rewrite Ho, Ep.
    + destruct Hkey as [|Hkey]; [done|]. by rewrite Hkey, Ho.
  - intros Ep Hip. cbv zeta. split; [intros E%key_message_inj; done|]. intros Hne.
    rewrite Ep in Hseal, Ho. unfold from_headers. rewrite Hf. unfold open_cookie.
    pose proof (open_sealed_other _ _ _ _ _ now Hseal Hne) as Hno. unfold derive_cookie_key at 1.
    unfold key_message in Hno.
    destruct (open_token now sealed (be_bytes 32 _)) as [t'|e]; [done|].
    destruct (decide (derive_pending_key sha256 host server_key =
      derive_cookie_key sha256 host (client_prefix ip) server_key)) as [E|Hn]; [by rewrite E, Ho, Ep|].
    pose proof (open_sealed_other _ _ _ _ _ now Hseal Hn) as Hno'.
    by destruct (open_token now sealed (derive_pending_key _ _ _)).
Qed.
End RoundTrip.
End SealFacts.

(** ** A concrete instance, for the examples *)

Module Plain.

#[global] Instance token_challenge_eq_dec : EqDecision TokenChallenge.
Proof. solve_decision. Defined.
#[global] Instance token_eq_dec : EqDecision Token.
Proof. solve_decision. Defined.

Definition token : Token := {|
  session := replicate 32 5; tk_state := ∅; tk_pending := false; tk_exp := 2000; tk_nbf := 1000;
  tk_iat := 1000 |}.

(** A number in binary, least digit first. *)
Fixpoint pos_chars (p : positive) : list ascii :=
  match p with xH => [] | xO p => "a"%char :: pos_chars p | xI p => "b"%char :: pos_chars p end.
Definition number_chars (n : N) : list ascii :=
  match n with N0 => ["d"%char] | Npos p => pos_chars p ++ ["c"%char] end.
Fixpoint of_chars (k : positive -> positive) (l : list ascii) : list N :=
  match l with
  | [] => []
  | c :: l =>
      if char_eqb c "a" then of_chars (fun p => k (xO p)) l
      else if char_eqb c "b" then of_chars (fun p => k (xI p)) l
      else (if char_eqb c "c" then Npos (k xH) else 0) :: of_chars id l
  end.
Definition frame (k : list N) : list N := N.of_nat (length k) :: k.
Definition unframe (k c : list N) : option (list N) :=
  if bool_decide (take (S (length k)) c = frame k) then Some (drop (S (length k)) c) else None.

(** The tokens of a list, by their position. *)
Definition api (tokens : list Token) : SealApi := {|
  token_json t := match list_find (fun x => t = x) tokens with
                  | Some (i, _) => Ok [N.of_nat i] | None => Err "unsupported" end;
  token_of_json b := match b with
                     | [i] => ok_or "unsupported" (tokens !! N.to_nat i) | _ => Err "unsupported" end;
  deflate := Ok; inflate := Ok;
  sign m := m; verify_signature m s := bool_decide (s = m);
  aead_seal k n m := Some (frame k ++ m); aead_open k n c := unframe k c;
  b64_encode b := chars_string (mjoin (number_chars <$> b));
  b64_decode s := Ok (of_chars id (string_chars s)) |}.

Lemma of_pos_chars k p l : of_chars k (pos_chars p ++ "c"%char :: l) = Npos (k p) :: of_chars id l.
Proof.
  revert k. induction p as [p IH|p IH|]; intros k; [..|done].
  - exact (IH (fun q => k (xI q))).
  - exact (IH (fun q => k (xO q))).
Qed.

Lemma laws tokens : @SealLaws (api tokens).
Proof.
  split; cbn.
  - intros t b. destruct (list_find _ tokens) as [[i x]|] eqn:E; [|done]. intros [= <-].
    apply list_find_Some in E as (Hi & -> & _). by rewrite Nat2N.id, Hi.
  - by intros b c [= ->].
  - intros m. by apply bool_decide_eq_true_2.
  - intros k n m c [= <-]. unfold unframe, frame. cbn [app length take drop].
    rewrite take_app_length, bool_decide_eq_true_2 by done. by rewrite drop_app_length.
  - intros b. f_equal. rewrite string_chars_string. induction b as [|n b IH]; [done|].
    change (of_chars id (number_chars n ++ mjoin (number_chars <$> b)) = n :: b).
    destruct n as [|p]; [change (0 :: of_chars id (mjoin (number_chars <$> b)) = 0 :: b); by rewrite IH|].
    unfold number_chars at 1. rewrite <- app_assoc. change (["c"%char] ++ ?l) with ("c"%char :: l).
    by rewrite of_pos_chars, IH.
  - intros b. apply str_all_forall. rewrite string_chars_string. induction b as [|n b IH]; [constructor|].
    apply Forall_app_2; [|exact IH]. destruct n as [|p]; [by repeat constructor|].
    apply Forall_app_2; [|by repeat constructor]. induction p; by repeat constructor.
Qed.

Lemma binding tokens : @SealBinding (api tokens).
Proof.
  intros k k' n m c [= <-] Hk. change (unframe k' (frame k ++ m) = None). unfold unframe.
  rewrite bool_decide_eq_false_2; [done|]. intros E. apply Hk. unfold frame in E.
  rewrite <- app_comm_cons in E. cbn [take] in E. injection E as El E. apply Nat2N.inj in El.
  by rewrite <- El, take_app_length in E.
Qed.

Definition state : RequestChallengeState := {| Challenge.token := Some token; modified := true; injections := [] |}.
Definition hash (l : list N) : N := foldl (fun acc b => (acc * 31 + b) mod 2 ^ 16) 7 l.
Definition cookie : string :=
  match @seal_cookie (api [token]) hash [9] (Some (replicate 12 0)) state "a.example" false (Some (V4 0xC0000201)) with
  | Ok (Some cookie) => cookie
  | _ => ""
  end.

End Plain.

Lemma session_roundtrip_witness :
  exists pair attributes sealed,
    split_once ";" Plain.cookie = Some (pair, attributes) /\
    find_cookie (cookie_name Plain.hash "a.example") [pair] = Some sealed /\
    @from_headers (Plain.api [Plain.token]) Plain.hash [9] 1500 [pair] "a.example" (Some (V4 0xC6336402)) = no_state.
Proof.
  destruct (@session_roundtrip (Plain.api [Plain.token]) (Plain.laws _) Plain.hash [9] (Plain.binding _)
    (Some (replicate 12 0)) Plain.state
    Plain.token "a.example" false (Some (V4 0xC0000201)) (Some (V4 0xC6336402)) 1500 Plain.cookie)
    as (pair & attributes & sealed & H1 & H2 & _ & _ & H3); [done|done|vm_compute; done|by vm_compute|].
  exists pair, attributes, sealed. split_and!; [exact H1|exact H2|].
  destruct H3 as [_ H3]; [done|by vm_compute|]. apply H3. by vm_compute.
Defined.

(** With two Cookie headers, as HTTP/2 allows, the cookies of the second never
    reach the backend. *)
Example second_cookie_header_lost :
  strip_bagel_cookies Plain.hash (fun _ => true) "a.example" [("a=1", true); ("b=2", true)] =
    [("a=1", true)].
Proof. vm_refl. Qed.
