(* ===== verification/Evaluate.v ===== *)
(** * Rule evaluation

    [crates/bagel-web/src/server/pipeline_evaluate.rs] and the part of
    [pipeline.rs] that decides a request: the rule tree, challenges issued on
    the way, and the candidate of the scorecard; and, from [tag_fetcher.rs], the request
    for the tags of the origin's page that a blocking challenge makes. What the request reads from
    outside is a [Req]. Pages are named by what they are made of, not rendered;
    metrics and log lines are left out. *)

From S2P Require Import Prelude Core Ip ThirdParty Rate Rule Scoring Pending.
From S2P Require Import Bytes Strings Url Solver Condition Challenge Census Proxy.

Local Open Scope N_scope.

(** ** Tags of the origin ([tag_fetcher.rs]) *)

(** [Regex::captures_iter]: the groups of each match, the whole match first; and
    [str::to_lowercase]. *)
Class RegexGroups : Type := {
  captures_groups : string -> string -> list (list (option string));
  to_lowercase : string -> string }.

Definition TAG_RE : string := "(?i)<(meta|link)\s([^>]*)/??>".
Definition ATTR_RE : string :=
  let quote := bytes_string [34] in
  "(?i)(\w[\w-]*)=(?:" +:+ quote +:+ "([^" +:+ quote +:+ "]*)" +:+ quote +:+ "|'([^']*)'|(\S+))".
(** In milliseconds, and in bytes. *)
Definition TAG_FETCH_TIMEOUT : N := 5000.
Definition TAG_FETCH_LIMIT : N := 256 * 1024.

(** The attributes of a tag by name. *)
Definition Attrs : Type := list (string * string).
Record HtmlTag : Type := { ht_tag : string; ht_attrs : list (string * string) }.
Notation TagCache := (DecayMap string (list HtmlTag)).

Definition SAFE_META_PREFIXES : list string := ["og:"; "fb:"; "twitter:"; "profile:"; "vcs:"; "forge:"; "citation_"].
Definition SAFE_META_NAMES : list string := [
  "theme-color"; "color-scheme"; "origin-trials"; "application-name"; "origin"; "author"; "creator"; "contact"; "title";
  "description"; "thumbnail"; "rating"; "license"; "license:uri"; "rights"; "rights-standard"; "go-import"; "go-source";
  "apple-itunes-app"; "appstore:bundle_id"; "appstore:developer_url"; "appstore:store_id"; "google-play-app"; "verify-v1";
  "google-site-verification"; "p:domain_verify"; "yandex-verification"; "alexaverifyid"; "keywords"; "robots"; "google";
  "googlebot"; "bingbot"; "pinterest"; "Slurp"].
Definition SAFE_LINK_RELS : list string := [
  "icon"; "shortcut icon"; "apple-touch-icon"; "apple-touch-icon-precomposed"; "alternate"; "canonical"; "manifest"; "author";
  "me"; "license"; "copyright"; "privacy-policy"; "terms-of-service"; "search"; "dns-prefetch"; "preconnect"].
Definition SAFE_ATTRIBUTES : list string := [
  "name"; "property"; "content"; "charset"; "http-equiv"; "rel"; "href"; "type"; "hreflang"; "media"; "sizes"; "crossorigin"].
Definition is_safe_meta_name (name : string) : bool :=
  if str_is_empty name then false
  else existsb (fun prefix => starts_with prefix name) SAFE_META_PREFIXES || str_mem name SAFE_META_NAMES.

(** [windows(n).position(..)]: the bytes from the first window that equals [p] but for
    case, and the ones before it. *)
Definition windows_like (p s : string) : bool := starts_with (to_ascii_lowercase p) (to_ascii_lowercase s).
Fixpoint split_like (p s : string) : option (string * string) :=
  if windows_like p s then Some ("", s)
  else match s with EmptyString => None | String c s => '(a, b) ← split_like p s; Some (String c a, b) end.
(** [extract_head]. *)
Definition extract_head (html : string) : option string :=
  '(_, from) ← split_like "<head" html;
  '(_, content) ← split_once ">" from;
  '(head, _) ← split_like "</head>" content;
  Some head.

(** The attribute maps of the templates: by key, the last value of each. *)
Definition btree_collect (l : list (string * string)) : Attrs := foldl (fun m kv => bt_insert kv.1 kv.2 m) [] l.
Definition attrs_of (tag : string) (tags : list HtmlTag) : list Attrs :=
  (fun t => btree_collect (ht_attrs t)) <$> List.filter (fun t => String.eqb (ht_tag t) tag) tags.
Definition tags_to_template_values (tags : list HtmlTag) : list Attrs * list Attrs :=
  (attrs_of "meta" tags, attrs_of "link" tags).

Section Tags.
Context {RG : RegexGroups}.

(** A group that a match has; indexing one it has not panics. *)
Definition group (cap : list (option string)) (i : nat) : option string := mjoin (cap !! i).
Definition attribute (cap : list (option string)) : option (string * string) :=
  key ← group cap 1;
  let value := default "" (first_some (group cap) [2; 3; 4]%nat) in
  Some (to_lowercase key, value).
Definition first_value (p : string -> bool) (attrs : list (string * string)) : string :=
  default "" (snd <$> list_find_bool (fun kv => p kv.1) attrs).
Definition safe_attrs (attrs : list (string * string)) : list (string * string) :=
  List.filter (fun kv => str_mem kv.1 SAFE_ATTRIBUTES) attrs.
(** One tag that [TAG_RE] found: [None] for a panic, and nothing for one that is not
    repeated. *)
Definition extract_tag (cap : list (option string)) : option (option HtmlTag) :=
  tag_name ← group cap 1;
  attr_str ← group cap 2;
  raw_attrs ← mapM attribute (captures_groups ATTR_RE attr_str);
  let keep tag attrs := match attrs with [] => None | _ => Some {| ht_tag := tag; ht_attrs := attrs |} end in
  Some (
    if String.eqb (to_lowercase tag_name) "meta" then
      let name := first_value (fun key => String.eqb key "name" || String.eqb key "property") raw_attrs in
      if negb (is_safe_meta_name name) then None else keep "meta" (safe_attrs raw_attrs)
    else if String.eqb (to_lowercase tag_name) "link" then
      let rel := first_value (String.eqb "rel") raw_attrs in
      if negb (str_mem rel SAFE_LINK_RELS) then None
      else keep "link" (List.filter (fun kv => str_mem kv.1 SAFE_ATTRIBUTES || String.eqb kv.1 "href" || String.eqb kv.1 "rel") raw_attrs)
    else None).
Definition extract_tags (html_body : string) : option (list HtmlTag) :=
  let body := default html_body (extract_head html_body) in
  found ← mapM extract_tag (captures_groups TAG_RE body);
  Some (omap id found).

(** What the origin answers to the request for its root. *)
Inductive OriginReply : Type :=
| NoReply
| OriginReplied (content_type : option string) (body : option (list N)).
Context {U : UriApi} {UP : UriParts} {HA : HeaderApi} {HT : HeaderText}.
(** The request for the origin's root: a GET with these headers and no body. *)
Record TagRequest : Type := { tr_uri : Uri; tr_headers : list (string * string) }.
Definition tag_request (uri : Uri) (host : string) : TagRequest :=
  {| tr_uri := uri; tr_headers := [("host", host); ("user-agent", "bagel/0.1 (tag-fetcher)")] |}.
(** The origin's root, as it is put together. *)
Definition origin_root (backend : Uri) : string :=
  default "http" (uri_scheme backend) +:+ "://" +:+ default "localhost" (uri_authority backend) +:+ "/".
(** [fetch_tags]; the body is [None] when it is late, fails or is over the limit, and
    the last value is what the origin was asked. A panic gives [None]. *)
Definition fetch_tags (origin : TagRequest -> OriginReply) (host : string) (cache : TagCache) (backend : Uri) (now : N)
    : option (list HtmlTag * TagCache * option TagRequest) :=
  match decay_get host now cache with
  | Some tags => Some (tags, cache, None)
  | None =>
      let empty := ([] : list HtmlTag) in
      match uri_parse (origin_root backend) with
      | None => Some (empty, cache, None)
      | Some uri =>
          match header_value host with
          | None => Some (empty, cache, None)
          | Some host_value =>
              let asked := tag_request uri host_value in
              match origin asked with
              | NoReply => Some (empty, cache, Some asked)
              | OriginReplied content_type body =>
                  if negb (str_contains "text/html" (default "" (t ← content_type; header_to_str t))) then
                    Some (empty, decay_set host empty now cache, Some asked)
                  else match body with
                       | None => Some (empty, decay_set host empty now cache, Some asked)
                       | Some bytes =>
                           tags ← extract_tags (from_utf8_lossy bytes);
                           Some (tags, decay_set host tags now cache, Some asked)
                       end
              end
          end
      end
  end.
End Tags.

(** ** Responses *)

Inductive Body : Type :=
| BEmpty
| BText (text : string)
| BErrorPage (title message : string)
| BChallengePage (challenge : string) (key : N) (meta_tags link_tags : list Attrs)
| BMaze (maze : string)
| BSmear (path : string).

(** A response with the extensions the pipeline reads. *)
Record Response : Type := {
  status : N; rs_headers : HeaderMap; rs_body : Body;
  pass_marker : bool; proxy_marker : option (string * option string);
  pending_request : option HeaderMap; pending_response : option HeaderMap;
  terminal_info : option (string * string) }.

Definition response (status : N) (headers : HeaderMap) (body : Body) : Response := {|
  status := status; rs_headers := headers; rs_body := body; pass_marker := false;
  proxy_marker := None; pending_request := None; pending_response := None;
  terminal_info := None |}.

(** [StatusCode::from_u16(code).unwrap_or(fallback)]. *)
Definition status_or (fallback code : N) : N :=
  if (100 <=? code) && (code <=? 999) then code else fallback.
(** [body::status], [body::text] and [body::html]. *)
Definition body_status (code : N) : Response := response code [] BEmpty.
Definition html_type : string * string := ("content-type", "text/html; charset=utf-8").
Definition body_text (code : N) (text : string) : Response :=
  response code [("content-type", "text/plain; charset=utf-8")] (BText text).
Definition body_html (code : N) (body : Body) : Response := response code [html_type] body.

(** [pass_response]. *)
Definition pass_response : Response := {|
  status := 200; rs_headers := []; rs_body := BEmpty; pass_marker := true; proxy_marker := None;
  pending_request := None; pending_response := None; terminal_info := None |}.

Inductive RuleOutcome : Type := Continue | Handled (resp : Response) | Drop.

(** [RuleOutcome::tagged]. *)
Definition tagged (o : RuleOutcome) (rule action : string) : RuleOutcome :=
  match o with
  | Handled r =>
      match terminal_info r with
      | Some _ => Handled r
      | None => Handled {| status := status r; rs_headers := rs_headers r; rs_body := rs_body r;
          pass_marker := pass_marker r; proxy_marker := proxy_marker r;
          pending_request := pending_request r; pending_response := pending_response r;
          terminal_info := Some (rule, action) |}
      end
  | o => o
  end.

(** [error_response], [deny_response] and [block_response]. *)
Definition error_response (code : N) (title message : string) : RuleOutcome :=
  Handled (body_html (status_or 403 code) (BErrorPage title message)).
Definition deny_response (code : N) : RuleOutcome :=
  error_response code "Access Denied" "Your request has been denied.".
Definition block_response (code : N) : RuleOutcome :=
  error_response code "Blocked" "Your request has been blocked.".

(** ** Offenses *)

Inductive OffenseKind : Type :=
| ODrop | OSmear | OTarpit | OPoisonReturn | OScore (score : N) | OReport (kind : string).
Record Offense : Type := {
  of_address : IpAddr; of_network : SourceNetwork; of_host : string; of_rule : option string;
  of_detail : string; of_kind : OffenseKind; of_group_key : option string }.

(** [repository_key]: the iterator over the segments is consumed by the tests. *)
Definition repository_key (host path : string) : option string :=
  let segments := List.filter (fun s => negb (str_is_empty s)) (str_split "/" path) in
  '(owner, repository) ←
    match segments with
    | [] => None
    | first :: rest =>
        if String.eqb first "api" then
          match rest with
          | [] => None
          | s :: rest =>
              if String.eqb s "v1" then
                match rest with
                | [] => None
                | s :: rest =>
                    if String.eqb s "repos" then
                      match rest with owner :: repo :: _ => Some (owner, repo) | _ => None end
                    else match rest with repo :: _ => Some (first, repo) | [] => None end
                end
              else match rest with repo :: _ => Some (first, repo) | [] => None end
          end
        else match rest with repo :: _ => Some (first, repo) | [] => None end
    end;
  let repository := trim_end_of [".git"] repository in
  if str_is_empty repository then None
  else Some (host +:+ "/" +:+ owner +:+ "/" +:+ repository).

(** ** The request and the world *)

(** [Regex::captures] on a text then [Captures::expand] of a template. *)
Class RegexExpand `{!RegexApi} : Type := { regex_expand : Regex -> string -> string -> option string }.

Section Requests.
Context {U : UriApi} {UP : UriParts}.
(** What one request brings and reads from outside: its clocks, random draws,
    verdicts of DNS blocklists, the target of the host's backend and what it answers to
    the request for its tags, the status and headers of the mazes' and the smear's
    pages and what links into the mazes. *)
Record Req : Type := {
  rq_host : string; rq_path : string; rq_uri : string; rq_user_agent : string;
  rq_now : Z; rq_tick : N; rq_instant : N;
  rq_registry : gmap string ChallengeRegistration; rq_fingerprint : list N; rq_revision : N;
  rq_sha256 : list N -> N; rq_hash : RateKey -> N;
  rq_session : option (list N); rq_draws : string -> list N;
  rq_dnsbl : string -> option bool;
  rq_maze : string -> option (N * HeaderMap); rq_lure : string -> option string;
  rq_smear : N * HeaderMap; rq_offense_sink : bool;
  rq_target : option Uri; rq_origin : TagRequest -> OriginReply }.
End Requests.

Section Evaluate.
Context {RX : RegexApi} {RE : RegexExpand} {HA : HeaderApi} {RH : RhaiApi} {SA : ScopeApi}.
Context {U : UriApi} {UP : UriParts} {HT : HeaderText} {RG : RegexGroups}.

(** What evaluation changes. *)
Record World : Type := {
  w_scope : Scope; w_cs : RequestChallengeState; w_pending : PendingChallenges; w_slots : N;
  w_offenses : list Offense; w_tags : TagCache; w_asked : list TagRequest }.
Definition set_scope (w : World) (s : Scope) : World := {|
  w_scope := s; w_cs := w_cs w; w_pending := w_pending w; w_slots := w_slots w;
  w_offenses := w_offenses w; w_tags := w_tags w; w_asked := w_asked w |}.
Definition set_cs (w : World) (c : RequestChallengeState) : World := {|
  w_scope := w_scope w; w_cs := c; w_pending := w_pending w; w_slots := w_slots w;
  w_offenses := w_offenses w; w_tags := w_tags w; w_asked := w_asked w |}.
Definition set_pending (w : World) (p : PendingChallenges) : World := {|
  w_scope := w_scope w; w_cs := w_cs w; w_pending := p; w_slots := w_slots w;
  w_offenses := w_offenses w; w_tags := w_tags w; w_asked := w_asked w |}.
Definition set_slots (w : World) (n : N) : World := {|
  w_scope := w_scope w; w_cs := w_cs w; w_pending := w_pending w; w_slots := n;
  w_offenses := w_offenses w; w_tags := w_tags w; w_asked := w_asked w |}.
Definition add_offense (w : World) (o : Offense) : World := {|
  w_scope := w_scope w; w_cs := w_cs w; w_pending := w_pending w; w_slots := w_slots w;
  w_offenses := w_offenses w ++ [o]; w_tags := w_tags w; w_asked := w_asked w |}.
(** The cache of tags, and a request that was sent for them. *)
Definition set_tags (w : World) (cache : TagCache) (asked : option TagRequest) : World := {|
  w_scope := w_scope w; w_cs := w_cs w; w_pending := w_pending w; w_slots := w_slots w;
  w_offenses := w_offenses w; w_tags := cache; w_asked := w_asked w ++ option_list asked |}.
Definition inject (w : World) (f : Fragment) : World :=
  set_cs w {| token := token (w_cs w); modified := modified (w_cs w);
              injections := injections (w_cs w) ++ [f] |}.

Variable req : Req.

(** [emit_offense], up to the channel that may be full. *)
Definition emit_offense (ip : option IpAddr) (rule : option string) (detail : string)
    (kind : OffenseKind) (group_key : option string) (w : World) : World :=
  match ip with
  | None => w
  | Some ip =>
      if rq_offense_sink req then
        add_offense w {| of_address := ip; of_network := from_ip ip; of_host := rq_host req;
          of_rule := rule; of_detail := detail; of_kind := kind; of_group_key := group_key |}
      else w
  end.

(** [smear_response]: a slot is held until the body is gone. *)
Definition smear_response (w : World) : RuleOutcome * World :=
  if w_slots w =? 0 then (Drop, w)
  else (Handled (response (rq_smear req).1 (rq_smear req).2 (BSmear (rq_path req))), set_slots w (w_slots w - 1)).
(** [tarpit_response]. *)
Definition tarpit_response (maze : string) : Response :=
  match rq_maze req maze with
  | Some (status, headers) => response status headers (BMaze maze)
  | None => body_text 503 ("service unavailable" +:+ bytes_string [10])
  end.

(** [proxy_outcome]. *)
Definition proxy_outcome (re : option Regex) (rewrite backend : string) : RuleOutcome :=
  let rewritten := r ← re; regex_expand r (rq_path req) rewrite in
  Handled {| status := 200; rs_headers := []; rs_body := BEmpty; pass_marker := false;
    proxy_marker := Some (backend, rewritten); pending_request := None; pending_response := None;
    terminal_info := None |}.

(** [dispatch_sub_action]. *)
Definition dispatch_sub_action (a : Action) (w : World) : RuleOutcome * World :=
  match a with
  | ATarpit maze => (Handled (tarpit_response maze), w)
  | ADeny code => (deny_response code, w)
  | ABlock code => (block_response code, w)
  | ADrop => (Drop, w)
  | ASmear => smear_response w
  | _ => (Handled pass_response, w)
  end.

(** ** Challenges *)

Inductive IssueResult : Type := Passed | Failed | IResponse (resp : Response) | Skip.

Definition no_cache : string * string := ("cache-control", "no-cache, no-store, must-revalidate").

(** [ChallengeRuntime::issue] for a client at an address, a blocklist answering
    from its cache or by DNS. *)
Definition runtime_issue (rt : ChallengeRuntime) (name : string) (key : N) (ip : option IpAddr)
    (http_code : N) (meta_tags link_tags : list Attrs) : IssueResult :=
  let verify := verify_url name (hex_encode (key_bytes key)) (rq_uri req) in
  match rt with
  | CCookie => IResponse (response 307 [("location", verify); no_cache] BEmpty)
  | CRefresh mode =>
      IResponse (response (status_or 418 http_code)
        ([html_type; no_cache] ++
         match mode with RHeader => [("refresh", "0; url=" +:+ verify)] | _ => [] end)
        (BChallengePage name key meta_tags link_tags))
  | CPow _ => IResponse (response (status_or 418 http_code) [html_type; no_cache]
                (BChallengePage name key meta_tags link_tags))
  | CDnsbl _ _ =>
      match ip with
      | None => Skip
      | Some _ => match rq_dnsbl req name with
                  | Some true => Failed | Some false => Passed | None => Skip
                  end
      end
  end.

(** The level a request has to prove. *)
Definition required_level (reg : ChallengeRegistration) (override : option N) : N :=
  match runtime reg with CPow p => default (difficulty p) override | _ => 0 end.

(** The key shown to the client: the pass key itself for challenges settled by
    the server, a fresh pending one otherwise. *)
Definition issue_key (name : string) (reg : ChallengeRegistration) (ip : option IpAddr) (lvl : N)
    (w : World) : result Response N * World :=
  let key := current_key (rq_sha256 req) (rq_fingerprint req) reg name ip (rq_now req) in
  match redemption (runtime reg) with
  | NoRedemption => (Ok key, w)
  | _ =>
      match ip with
      | None => (Err (body_status 400), w)
      | Some address =>
          match ensure_session (rq_now req) (rq_session req) (duration reg) (w_cs w) with
          | (Err _, cs) => (Err (body_status 500), set_cs w cs)
          | (Ok session, cs) =>
              let w := set_cs w cs in
              let binding := binding_new (rq_sha256 req) session (rq_host req) address name
                               (string_bytes (rq_user_agent req)) (rq_revision req) in
              let gpu := match runtime reg with CPow p => pow_gpu_level p lvl | _ => None end in
              let '(r, p) := issue (rq_hash req) (w_pending w) (rq_tick req) (rq_instant req)
                               (rq_draws req name) binding key lvl gpu
                               (duration reg * 1000000000) in
              (match r with
               | Ok k => Ok k
               | Err Limited => Err (body_status 429)
               | Err Full => Err (body_status 503)
               | Err Random => Err (body_status 500)
               end, set_pending w p)
          end
      end
  end.

(** The tags a blocking challenge shows, from the page of the host's backend. *)
Definition challenge_tags (reg : ChallengeRegistration) (w : World) : option (list Attrs * list Attrs * World) :=
  match class reg, rq_target req with
  | Blocking, Some target =>
      '(tags, cache, asked) ← fetch_tags (rq_origin req) (rq_host req) (w_tags w) target (rq_instant req);
      Some (tags_to_template_values tags, set_tags w cache asked)
  | _, _ => Some ([], [], w)
  end.

(** [evaluate_challenge_action], over the challenges still to go. A panic of
    [fetch_tags], for a match without its groups, ends the connection as a drop does. *)
Fixpoint challenge_loop (ip : option IpAddr) (stack : option string) (http_code : N)
    (override : option N) (pass fail : Action) (check : bool) (names : list string) (w : World) :
    RuleOutcome * World :=
  match names with
  | [] => if check then (Continue, w) else dispatch_sub_action pass w
  | name :: names =>
      let continue := challenge_loop ip stack http_code override pass fail check names in
      match rq_registry req !! name with
      | None => continue w
      | Some reg =>
          let lvl := required_level reg override in
          if already_passed (rq_sha256 req) (rq_fingerprint req) reg name ip stack lvl
               (rq_now req) (w_cs w)
          then continue w
          else
            match challenge_tags reg w with
            | None => (Drop, w)
            | Some (meta_tags, link_tags, w) =>
                match issue_key name reg ip lvl w with
                | (Err resp, w) => (Handled resp, w)
                | (Ok key, w) =>
                    if check && supports_background (runtime reg) then continue (inject w (FWidget name key))
                    else
                      match runtime_issue (runtime reg) name key ip http_code meta_tags link_tags with
                      | IResponse resp => if check then continue w else (Handled resp, w)
                      | Passed =>
                          match issue_challenge (rq_now req) (rq_session req) name
                                  (current_key (rq_sha256 req) (rq_fingerprint req) reg name ip (rq_now req))
                                  (duration reg) (w_cs w) with
                          | (Err _, cs) => (Handled (body_status 500), set_cs w cs)
                          | (Ok _, cs) => continue (set_cs w cs)
                          end
                      | Failed => if check then continue w else dispatch_sub_action fail w
                      | Skip => continue w
                      end
                end
            end
      end
  end.
Definition evaluate_challenge_action (ctx : ConditionContext) (ca : ChallengeAction)
    (check : bool) (w : World) : RuleOutcome * World :=
  match ca with
  | MkChallengeAction challenges http_code override pass fail =>
      challenge_loop (remote_ip ctx) (stack ctx) http_code override pass fail check challenges w
  end.

(** [apply_candidate_action]. *)
Definition apply_candidate_action (ctx : ConditionContext) (a : Action) (w : World) :
    RuleOutcome * World :=
  match a with
  | AProxy re rewrite backend => (proxy_outcome re rewrite backend, w)
  | AChallenge ca => evaluate_challenge_action ctx ca false w
  | ATarpit maze => (Handled (tarpit_response maze), w)
  | AReport _ | ALure _ | ABeacon => (Continue, w)
  | other => dispatch_sub_action other w
  end.

(** ** Rules *)

(** The context's headers on the outcome of its subtree: pending for the
    upstream when the request is proxied, on the response otherwise. *)
Definition apply_pending (pending : option (HeaderMap * HeaderMap)) (r : Response) : Response :=
  match pending with
  | None => r
  | Some (request, resp) =>
      if pass_marker r || is_some (proxy_marker r) then {|
        status := status r; rs_headers := rs_headers r; rs_body := rs_body r;
        pass_marker := pass_marker r; proxy_marker := proxy_marker r;
        pending_request := Some (default request (pending_request r));
        pending_response := Some (header_extend resp (default [] (pending_response r)));
        terminal_info := terminal_info r |}
      else {|
        status := status r; rs_headers := header_extend resp (rs_headers r); rs_body := rs_body r;
        pass_marker := pass_marker r; proxy_marker := proxy_marker r;
        pending_request := pending_request r; pending_response := pending_response r;
        terminal_info := terminal_info r |}
  end.

(** [eval_children], for a way to evaluate one child. *)
Fixpoint eval_children (eval : RuleState -> World -> RuleOutcome * World)
    (pending : option (HeaderMap * HeaderMap)) (children : list RuleState) (w : World) :
    RuleOutcome * World :=
  match children with
  | [] => (Continue, w)
  | child :: children =>
      match eval child w with
      | (Continue, w) => eval_children eval pending children w
      | (Drop, w) => (Drop, w)
      | (Handled r, w) => (Handled (apply_pending pending r), w)
      end
  end.

(** Whether the condition of a rule holds. *)
Definition rule_holds (c : option AST) (w : World) : bool * World :=
  match c with
  | None => (true, w)
  | Some ast =>
      match eval_ast_with_scope (w_scope w) ast with
      | (Ok b, s) => (b, set_scope w s)
      | (Err _, s) => (false, set_scope w s)
      end
  end.

(** [evaluate_rule_recursive]. *)
Fixpoint evaluate_rule (ctx : ConditionContext) (headers : HeaderMap) (rule : RuleState)
    (w : World) {struct rule} : RuleOutcome * World :=
  let '(holds, w) := rule_holds (condition rule) w in
  if negb holds then (Continue, w)
  else
    let tag (r : RuleOutcome * World) : RuleOutcome * World :=
      (tagged r.1 (name rule) (label (action rule)), r.2) in
    match action rule with
    | ANone => eval_children (evaluate_rule ctx headers) None (children rule) w
    | APass => tag (Handled pass_response, w)
    | ADeny code => tag (deny_response code, w)
    | ABlock code => tag (block_response code, w)
    | ACode code => tag (Handled (body_status (status_or 403 code)), w)
    | ADrop => (Drop, w)
    | ATarpit maze => tag (Handled (tarpit_response maze), w)
    | ASmear => tag (smear_response w)
    | ALure maze =>
        (Continue, match rq_lure req maze with Some p => inject w (FLure maze p) | None => w end)
    | ABeacon =>
        (Continue,
         match token (w_cs w) with
         | Some t => if match visit ctx with Some v => rendered v | None => false end then w
                     else inject w (FBeacon (session t) (rq_host req))
         | None => w
         end)
    | AReport kind =>
        (Continue, emit_offense (remote_ip ctx) (Some (name rule)) (name rule) (OReport kind)
                     (repository_key (rq_host req) (rq_path req)) w)
    | AContext resp request =>
        let child_ctx := with_request_headers ctx request in
        let merged := header_extend request headers in
        let '(o, w') := eval_children (evaluate_rule child_ctx merged) (Some (merged, resp))
                          (children rule) (set_scope w (ctx_scope child_ctx)) in
        (o, set_scope w' (w_scope w))
    | AProxy re rewrite backend => tag (proxy_outcome re rewrite backend, w)
    | AChallenge ca => tag (evaluate_challenge_action ctx ca false w)
    | ACheck ca => tag (evaluate_challenge_action ctx ca true w)
    end.

(** ** The decision ([handle_request]) *)

Inductive Terminal : Type := TNone | THandled (resp : Response) | TDropped (rule : option string).

(** The loop over the rules of the policy. *)
Fixpoint eval_rules (ctx : ConditionContext) (rules : list RuleState) (w : World) :
    Terminal * World :=
  match rules with
  | [] => (TNone, w)
  | rule :: rules =>
      match evaluate_rule ctx [] rule w with
      | (Continue, w) => eval_rules ctx rules w
      | (Handled r, w) => (THandled r, w)
      | (Drop, w) => (TDropped (Some (name rule)), w)
      end
  end.

Inductive CandidateStatus : Type :=
| NoScorecard | NoCandidate | SuppressedByRule | Observed | Applied.

Definition candidate_status (score : option ScoreResult) (t : Terminal) : CandidateStatus :=
  match score with
  | None => NoScorecard
  | Some r =>
      match candidate r, t with
      | None, _ => NoCandidate
      | Some _, TNone => match mode (scorecard r) with Observe => Observed | Enforce => Applied end
      | Some _, _ => SuppressedByRule
      end
  end.

(** Scoring, the rules, then the candidate. *)
Definition decide_request (scoring : option ScoringState) (rules : list RuleState)
    (ctx : ConditionContext) (w : World) : Terminal * CandidateStatus * World :=
  let '(score, w) :=
    match scoring with
    | Some st => let '(r, s) := scoring_evaluate st (w_scope w) in (r, set_scope w s)
    | None => (None, w)
    end in
  let '(t, w) := eval_rules ctx rules w in
  let st := candidate_status score t in
  match st, r ← score; candidate r with
  | Applied, Some threshold =>
      match apply_candidate_action ctx (th_action threshold) w with
      | (Continue, w) => (t, st, w)
      | (Handled r, w) => (THandled r, st, w)
      | (Drop, w) => (TDropped None, st, w)
      end
  | _, _ => (t, st, w)
  end.

(** The action a decision amounts to, for metrics and offenses. *)
Definition effective_action (t : Terminal) (st : CandidateStatus) (score : option ScoreResult) :
    string :=
  match t with
  | TDropped _ => "drop"
  | TNone => "proxy"
  | THandled r =>
      if pass_marker r then "pass"
      else if is_some (proxy_marker r) then "proxy"
      else match st with
           | Applied => match r ← score; candidate r with Some th => th_kind th | None => "unknown" end
           | _ => match terminal_info r with Some (_, action) => action | None => "unknown" end
           end
  end.

(** The offense a decision is recorded as. *)
Definition decision_offense (ctx : ConditionContext) (rules_terminal t : Terminal)
    (st : CandidateStatus) (score : option ScoreResult) (w : World) : World :=
  let action := effective_action t st score in
  let rule := match rules_terminal with
              | THandled r => fst <$> terminal_info r
              | TDropped rule => rule
              | TNone => None
              end in
  match (if String.eqb action "drop" then Some ODrop
         else if String.eqb action "smear" then Some OSmear
         else if String.eqb action "tarpit" then Some OTarpit else None) with
  | None => w
  | Some kind =>
      match st, score with
      | Applied, Some r =>
          emit_offense (remote_ip ctx) (Some (sd_name (scorecard r))) action (OScore (Scoring.score r))
            None w
      | _, _ => emit_offense (remote_ip ctx) rule action kind None w
      end
  end.
End Evaluate.

(** ** Facts *)

Section EvaluateFacts.
Context {RX : RegexApi} {RE : RegexExpand} {HA : HeaderApi} {RH : RhaiApi} {SA : ScopeApi}.
Context {U : UriApi} {UP : UriParts} {HT : HeaderText} {RG : RegexGroups}.
Variable req : Req.

(** The request goes on to an origin. *)
Definition proxied (o : RuleOutcome) : bool :=
  match o with Handled r => pass_marker r || is_some (proxy_marker r) | _ => false end.

Lemma smear_not_proxied w : proxied (smear_response req w).1 = false.
Proof. unfold smear_response. by destruct (_ =? _). Qed.
Lemma tarpit_not_proxied maze : proxied (Handled (tarpit_response req maze)) = false.
Proof. unfold tarpit_response. by destruct (rq_maze req maze) as [[]|]. Qed.

(** Of the actions after a challenge, only a pass goes on. *)
Lemma sub_action_not_proxied a w :
  sub_action_wf a -> a <> APass -> proxied (dispatch_sub_action req a w).1 = false.
Proof.
  destruct a; cbn; intros Hwf Hne; try done; [apply tarpit_not_proxied|apply smear_not_proxied].
Qed.

(** ** Passes are not lost on the way *)

Lemma ensure_session_passed now rnd d s key lvl name stack t r s' :
  ensure_session t rnd d s = (r, s') ->
  is_challenge_passed now s' name key lvl stack = is_challenge_passed now s name key lvl stack.
Proof.
  unfold ensure_session, is_challenge_passed. destruct (token s) as [tk|] eqn:E.
  - intros [= _ <-]. destruct (_ <? _)%Z; [|by rewrite E]. cbn. done.
  - destruct rnd; intros [= _ <-]; cbn; [by rewrite lookup_empty|by rewrite E].
Qed.

Lemma issue_challenge_passed now t rnd other k d s name key lvl stack r s' :
  other <> name -> issue_challenge t rnd other k d s = (r, s') ->
  is_challenge_passed now s' name key lvl stack = is_challenge_passed now s name key lvl stack.
Proof.
  intros Hne. unfold issue_challenge. destruct (ensure_session t rnd d s) as [[x|e] s1] eqn:E;
    pose proof (ensure_session_passed now _ _ _ key lvl name stack _ _ _ E) as Hs; [|by intros [= _ <-]].
  unfold is_challenge_passed in *. destruct (token s1) as [tk|] eqn:Et.
  - intros [= _ <-]. rewrite <- Hs. cbn. by rewrite lookup_insert_ne by done.
  - intros [= _ <-]. by rewrite Et.
Qed.

(** A challenge that does not stand between the request and its pass action. *)
Definition cleared (ip : option IpAddr) (stack : option string) (override : option N)
    (cs : RequestChallengeState) (name : string) : Prop :=
  match rq_registry req !! name with
  | None => True
  | Some reg =>
      already_passed (rq_sha256 req) (rq_fingerprint req) reg name ip stack
        (required_level reg override) (rq_now req) cs = true \/
      redemption (runtime reg) = NoRedemption /\
      (ip = None \/ rq_dnsbl req name <> Some true)
  end.

Lemma cleared_other ip stack override w rnd other d k r cs name reg :
  rq_registry req !! other = Some reg -> redemption (runtime reg) = NoRedemption ->
  ip = None \/ rq_dnsbl req other <> Some true ->
  issue_challenge (rq_now req) rnd other k d (w_cs (RH := RH) w) = (r, cs) ->
  cleared ip stack override cs name -> cleared ip stack override (w_cs w) name.
Proof.
  intros Hreg Hred Hdns Hi. unfold cleared. destruct (decide (other = name)) as [->|Hne].
  - rewrite Hreg. auto.
  - destruct (rq_registry req !! name) as [reg'|]; [|done]. unfold already_passed.
    by rewrite !(issue_challenge_passed _ _ _ _ _ _ _ _ _ _ _ _ _ Hne Hi).
Qed.

(** A refusal to issue is an error page, never a pass. *)
Lemma issue_key_error name reg ip lvl w resp w' :
  issue_key (RH := RH) req name reg ip lvl w = (Err resp, w') -> proxied (Handled resp) = false.
Proof.
  unfold issue_key. destruct (redemption _); [| |by intros [=]].
  all: destruct ip; [|by intros [= <- _]].
  all: destruct (ensure_session _ _ _ _) as [[s|e] cs]; [|by intros [= <- _]].
  all: destruct (issue _ _ _ _ _ _ _ _ _) as [[k|[]] p]; by intros [= <- _].
Qed.
Lemma issue_key_none name reg ip lvl w key w' :
  redemption (runtime reg) = NoRedemption ->
  issue_key (RH := RH) req name reg ip lvl w = (Ok key, w') -> w' = w.
Proof. unfold issue_key. intros ->. by intros [= _ <-]. Qed.

(** Fetching tags changes the cache and nothing else. *)
Lemma challenge_tags_rest reg w meta links w' :
  challenge_tags req reg w = Some (meta, links, w') ->
  w_cs w' = w_cs w /\ w_scope w' = w_scope w /\ w_pending w' = w_pending w /\ w_slots w' = w_slots w /\
  w_offenses w' = w_offenses w.
Proof.
  unfold challenge_tags. destruct (class reg), (rq_target req) as [target|]; try by intros [= _ _ <-].
  destruct (fetch_tags _ _ _ _ _) as [[[tags cache] asked]|]; [|done]. cbn. by intros [= _ _ <-].
Qed.

(** The loop reaches the pass action only past every challenge. *)
Lemma challenge_loop_guards ip stack code override pass fail names w o w' :
  sub_action_wf fail -> fail <> APass ->
  challenge_loop req ip stack code override pass fail false names w = (o, w') ->
  proxied o = true -> Forall (cleared ip stack override (w_cs w)) names.
Proof.
  intros Hwf Hne. revert w. induction names as [|name names IH]; intros w; cbn; [constructor|].
  destruct (rq_registry req !! name) as [reg|] eqn:Er.
  2: { intros H Hp. constructor; [by unfold cleared; rewrite Er|by eapply IH]. }
  destruct (already_passed _ _ _ _ _ _ _ _ _) eqn:Ep.
  { intros H Hp. constructor; [unfold cleared; rewrite Er; auto|by eapply IH]. }
  destruct (challenge_tags req reg w) as [[[meta links] wt]|] eqn:Et; [|by intros [= <- <-] Hp].
  apply challenge_tags_rest in Et as [Ecs _]. rewrite <- Ecs. clear dependent w. rename wt into w.
  destruct (issue_key req name reg ip _ w) as [[key|resp] w1] eqn:Ek.
  2: { intros [= <- <-] Hp. by rewrite (issue_key_error _ _ _ _ _ _ _ Ek) in Hp. }
  destruct (decide (redemption (runtime reg) = NoRedemption)) as [Hred|Hred].
  - apply issue_key_none in Ek as ->; [|done].
    destruct (runtime reg) as [| |h ttl|p] eqn:Hrt; try discriminate Hred. cbn [runtime_issue andb].
    destruct ip as [ip|].
    2: { intros H Hp. constructor; [|by eapply IH]. unfold cleared. rewrite Er, Hrt. auto. }
    destruct (rq_dnsbl req name) as [[]|] eqn:Ed.
    + intros H Hp. pose proof (sub_action_not_proxied fail w Hwf Hne) as Hn. rewrite H in Hn.
      cbn [fst] in Hn. congruence.
    + destruct (issue_challenge _ _ _ _ _ _) as [[u|e] cs] eqn:Ei; [|by intros [= <- <-] Hp].
      intros H Hp. constructor; [unfold cleared; rewrite Er, Hrt, Ed; auto|].
      eapply Forall_impl; [by eapply (IH (set_cs w cs))|]. intros n. cbn.
      eapply cleared_other; eauto; [by rewrite Hrt|]. right. by rewrite Ed.
    + intros H Hp. constructor; [|by eapply IH]. unfold cleared. rewrite Er, Hrt, Ed. auto.
  - cbn [andb]. destruct (runtime reg) as [|m|h ttl|p] eqn:Hrt; try by destruct Hred.
    all: cbn [runtime_issue]; intros [= <- <-] Hp; done.
Qed.

(** A challenge guards the origin. When a challenge whose failure does not
    pass lets a request through to an origin, every registered challenge it
    lists was cleared: the request's token holds a pass for it, at the level
    asked or above, under a current key of the client's network, or it is a
    blocklist that did not list the client. Nothing the client is sent along the
    way, and no failure to issue, lets it through. *)
Theorem challenge_guards_origin ctx challenges code override pass fail w o w' :
  action_wf (AChallenge (MkChallengeAction challenges code override pass fail)) -> fail <> APass ->
  evaluate_challenge_action req ctx (MkChallengeAction challenges code override pass fail) false w
    = (o, w') ->
  proxied o = true ->
  Forall (cleared (remote_ip ctx) (stack ctx) override (w_cs w)) challenges.
Proof. intros [_ Hf] Hne. by apply challenge_loop_guards. Qed.

(** A check never drops or passes a request, unless the tags' expressions match without
    their groups: it goes on, or cannot be issued. *)
Lemma check_continues ip stack code override pass fail names w :
  match (challenge_loop req ip stack code override pass fail true names w).1 with
  | Continue => True
  | Handled r => status r ∈ [400; 429; 500; 503] /\ proxied (Handled r) = false
  | Drop => exists reg w', challenge_tags req reg w' = None
  end.
Proof.
  revert w. induction names as [|name names IH]; intros w; cbn; [done|].
  destruct (rq_registry req !! name) as [reg|]; [|apply IH].
  destruct (already_passed _ _ _ _ _ _ _ _ _); [apply IH|].
  destruct (challenge_tags req reg w) as [[[meta links] wt]|] eqn:Et; [|by exists reg, w].
  destruct (issue_key req name reg ip _ wt) as [[key|resp] w1] eqn:Ek.
  - destruct (supports_background _); [apply IH|].
    destruct (runtime_issue _ _ _ _ _ _ _ _); [|apply IH..].
    destruct (issue_challenge _ _ _ _ _ _) as [[u|e] cs]; [apply IH|].
    cbn. split; [|done]. rewrite !elem_of_cons. auto.
  - split; [|by eapply issue_key_error]. cbn. revert Ek. unfold issue_key.
    destruct (redemption _); [| |by intros [=]].
    all: destruct ip; [|intros [= <- _]; rewrite !elem_of_cons; cbn; auto].
    all: destruct (ensure_session _ _ _ _) as [[s|e] cs];
      [|intros [= <- _]; rewrite !elem_of_cons; cbn; auto].
    all: destruct (issue _ _ _ _ _ _ _ _ _) as [[k|[]] p]; intros [= <- _];
      rewrite !elem_of_cons; cbn; auto.
Qed.

(** ** The candidate *)

(** Enforcement at a threshold. A deny, block, drop, tarpit or smear
    threshold always ends the request before the origin. A code threshold does
    not: the request is passed to the origin as if no threshold had been
    reached. *)
Theorem threshold_enforced ctx a w :
  (label a ∈ ["deny"; "block"; "drop"; "tarpit"; "smear"] ->
   let o := (apply_candidate_action req ctx a w).1 in o <> Continue /\ proxied o = false) /\
  (forall code, a = ACode code ->
   apply_candidate_action req ctx a w = (Handled pass_response, w)).
Proof.
  split; [|by intros code ->]. intros Hl. destruct a; cbn.
  all: try (exfalso; revert Hl; cbn; rewrite !elem_of_cons, elem_of_nil; by intuition discriminate).
  all: try (split; [done|]; try done; apply tarpit_not_proxied).
  split; [|apply smear_not_proxied]. unfold smear_response. by destruct (_ =? _).
Qed.

(** C18: rules come before scores. A scorecard changes the outcome of a request
    only when every rule let it continue, its card enforces, and the score
    reached the threshold applied; otherwise the request ends as the rules
    decided, and what evaluation changed is what the rules changed. *)
Theorem decide_respects_rules scoring rules ctx w :
  let score := match scoring with Some st => (scoring_evaluate st (w_scope w)).1 | None => None end in
  let w1 := match scoring with
            | Some st => set_scope w (scoring_evaluate st (w_scope w)).2 | None => w end in
  let '(t0, w0) := eval_rules req ctx rules w1 in
  let '(t, st, w') := decide_request req scoring rules ctx w in
  (st = Applied ->
   t0 = TNone /\ exists r th, score = Some r /\ mode (scorecard r) = Enforce /\
     candidate r = Some th /\ value th <= Scoring.score r /\
     apply_candidate_action req ctx (th_action th) w0 =
       (match t with TNone => Continue | THandled r => Handled r | TDropped _ => Drop end, w')) /\
  (st <> Applied -> t = t0 /\ w' = w0).
Proof.
  cbv zeta. unfold decide_request.
  destruct scoring as [st|]; [destruct (scoring_evaluate st (w_scope w)) as [score s] eqn:Es|];
    cbn [fst snd].
  2: { destruct (eval_rules _ _ _ _) as [t0 w0]. by split. }
  destruct (eval_rules _ _ _ _) as [t0 w0].
  destruct score as [r|]; [|by split]. cbn [mbind option_bind candidate_status].
  destruct (candidate r) as [th|] eqn:Ec; [|by split].
  destruct t0; [|by split..]. destruct (mode (scorecard r)) eqn:Em; [by split|].
  assert (Hv : value th <= Scoring.score r).
  { unfold scoring_evaluate in Es. destruct (find_card _ _) as [[card|] s1]; [|done].
    destruct (run_signals s1 0 (signals card)) as [[[total m] e] s2]. injection Es as <- _.
    cbn in Ec. apply list_find_bool_some in Ec as [_ Hle]. by apply N.leb_le. }
  destruct (apply_candidate_action req ctx (th_action th) w0) as [[|resp|] w2] eqn:Ea;
    (split; [|done]); intros _; (split; [done|]); exists r, th; by rewrite Ea.
Qed.
End EvaluateFacts.

(** ** Examples *)

#[local] Existing Instance Literal.regex.
#[local] Existing Instance LiteralRule.rhai.
#[local] Existing Instance LiteralRule.headers.
#[local] Instance example_expand : RegexExpand := {| regex_expand := fun _ _ _ => None |}.
(** Addresses as they are written, and an expression that finds one link. *)
Module PlainWeb.
#[export] Instance uri : UriApi := {|
  Uri := string; uri_scheme _ := None; uri_authority u := Some u; uri_path _ := "/"; uri_query _ := None; uri_show u := u;
  uri_build _ _ p := Some p |}.
#[export] Instance uri_parts : UriParts := {|
  uri_parse := Some; uri_host u := Some u; uri_port _ := None; uri_path_and_query _ := None; uri_of_path p := p |}.
#[export] Instance header_text : HeaderText := {| header_to_str := Some |}.
(** The matches of [<link rel="icon" rel="stylesheet" href="/x">]. *)
#[export] Instance matches : RegexGroups := {|
  captures_groups re text :=
    if String.eqb re TAG_RE then [[Some text; Some "link"; Some "attributes"]]
    else [[Some ""; Some "rel"; Some "icon"; None; None]; [Some ""; Some "rel"; Some "stylesheet"; None; None];
          [Some ""; Some "href"; Some "/x"; None; None]];
  to_lowercase := to_ascii_lowercase |}.
End PlainWeb.
#[local] Existing Instances PlainWeb.uri PlainWeb.uri_parts PlainWeb.header_text PlainWeb.matches.
#[local] Instance example_scope : ScopeApi := {|
  scope_of := fun l => (fun e => e.1) <$> List.filter
    (fun e => match e.2 with DStr s => negb (str_is_empty s) | _ => false end) l |}.

Definition example_req : Req := {|
  rq_host := "example.org"; rq_path := "/"; rq_uri := "/"; rq_user_agent := "curl";
  rq_now := 10000; rq_tick := 10000; rq_instant := 10000;
  rq_registry := {["pow" := example_registration]}; rq_fingerprint := []; rq_revision := 1;
  rq_sha256 := example_sha256; rq_hash := fun _ => 0; rq_session := Some [1]; rq_draws := fun _ => [5];
  rq_dnsbl := fun _ => None; rq_maze := fun _ => None; rq_lure := fun _ => None;
  rq_smear := (200, []); rq_offense_sink := true; rq_target := Some ("back.end" : Uri);
  rq_origin := fun _ => OriginReplied (Some "text/html") (Some (string_bytes "<head><link></head>")) |}.
Definition example_ctx : ConditionContext := {|
  host := "example.org"; method := "GET"; path := "/"; query := ""; user_agent := "curl";
  remote_address := ""; remote_ip := None; http_version := "HTTP/1.1";
  headers := {["host" := "EXAMPLE.org"]}; fp := ∅; fp_identity := None; stack := None;
  claim := None; census := None; probe := None; pow_level := None; probe_census := None;
  network_results := ∅; rate := None; solves := None; visit := None; poison_returned := false;
  crawler_verified := false; lease_active := false; trap := None |}.
Definition example_world : World := {|
  w_scope := ["host"]; w_cs := example_token 7000 7100; w_pending := pending_default; w_slots := 0;
  w_offenses := []; w_tags := decay_new 3600000; w_asked := [] |}.

Lemma challenge_guards_origin_witness :
  Forall (cleared example_req None None None (example_token 7000 7100)) ["pow"].
Proof.
  apply (challenge_guards_origin example_req example_ctx ["pow"] 418 None APass (ADeny 403)
           example_world (Handled pass_response) example_world);
    [done|discriminate|vm_refl|done].
Defined.

(** Without a pass the client is sent the challenge, under a fresh key and with the tags
    of the origin's page, which was asked for them. *)
Example challenge_is_issued :
  let w := set_cs example_world {| token := None; modified := false; injections := [] |} in
  let ip := Some (V4 16909060) in
  (match challenge_loop example_req ip None 418 None APass (ADeny 403) false ["pow"] w with
   | (Handled r, w') => Some (status r, rs_body r, size (challenges (pending (w_pending w'))), tr_headers <$> w_asked w')
   | _ => None
   end) = Some (418, BChallengePage "pow" 5 [] [[("href", "/x"); ("rel", "stylesheet")]], 1%nat,
                [[("host", "example.org"); ("user-agent", "bagel/0.1 (tag-fetcher)")]]).
Proof. cbv zeta. vm_refl. Qed.

(** A path under [/api] that is not Gitea's names its third segment. *)
Example repository_key_skips :
  repository_key "git.example.org" "/api/tool/issues" = Some "git.example.org/api/issues" /\
  repository_key "git.example.org" "/owner/repo.git/info" = Some "git.example.org/owner/repo".
Proof. split; vm_refl. Qed.
