(* ===== verification/Finalize.v ===== *)
(** * Finishing a request

    The end of [crates/bagel-web/src/server/pipeline.rs]: [finalize_response] with
    [proxy_to_named], [inject_fragments] and [merge_vary], what [proxy/mod.rs] makes
    of an answer, and the bodies of [body.rs]. What is handed to a backend is
    recorded; a backend's answer, the text of a fragment and random bytes are
    arguments. Pages are named, not rendered. *)

From S2P Require Import Prelude Strings Date Host ProxyFacts Core Ip.
From S2P Require Import Bytes Url Proto Rule TlsEdge Proxy Challenge Session.
From S2P Require Import Evaluate.

Local Open Scope N_scope.

(** ** Bodies *)

Inductive Frame : Type := FData (bytes : list N) | FTrailers (trailers : Headers).
(** [Poll<Option<Result<Frame<Bytes>, BodyError>>>]. *)
Inductive Polled : Type := PolledPending | PolledFrame (f : Frame) | PolledError (error : string) | PolledEnd.

(** [TimeoutBody] without the body inside: when its timer is due, and its limits. *)
Definition BODY_IDLE_TIMEOUT : N := 30 * 1000000000.
Definition BODY_TOTAL_TIMEOUT : N := 300 * 1000000000.
Record TimeoutBody : Type := { to_due : N; to_timeout : N; to_deadline : N }.
Definition timeout_body_new (timeout now now' : N) : TimeoutBody :=
  {| to_due := now + timeout; to_timeout := timeout; to_deadline := now' + BODY_TOTAL_TIMEOUT |}.
(** [poll_frame] on what the body inside answers, with the clock read before it is
    asked and after. *)
Definition timeout_poll (now now' : N) (inner : Polled) (b : TimeoutBody) : Polled * TimeoutBody :=
  if to_deadline b <=? now then (PolledError "body total timeout", b)
  else match inner with
  | PolledFrame f =>
      (PolledFrame f, {| to_due := now' + to_timeout b; to_timeout := to_timeout b; to_deadline := to_deadline b |})
  | PolledPending => (if to_due b <=? now' then PolledError "body idle timeout" else PolledPending, b)
  | other => (other, b)
  end.

(** [Appended::poll_frame]. *)
Definition appended_poll (inner : Polled) (tail : option (list N)) : Polled * option (list N) :=
  match inner with
  | PolledEnd => (match tail with Some bytes => PolledFrame (FData bytes) | None => PolledEnd end, None)
  | other => (other, tail)
  end.
(** What is seen of it, given what the body inside answers to each poll. *)
Fixpoint appended_polls (inner : list Polled) (tail : option (list N)) : list Polled :=
  match inner with
  | [] => []
  | answer :: inner => let '(seen, tail) := appended_poll answer tail in seen :: appended_polls inner tail
  end.

(** ** Replies *)

(** A page by name, the bytes of one or of what a backend sends, or either with
    fragments behind it. *)
Inductive Payload : Type :=
| PPage (page : Body) | PBytes (bytes : list N) | PAppended (inner : Payload) (tail : list N).
Record Reply : Type := { rp_status : N; rp_headers : Headers; rp_body : Payload }.
Definition reply_with_headers (h : Headers) (r : Reply) : Reply :=
  {| rp_status := rp_status r; rp_headers := h; rp_body := rp_body r |}.
Definition reply_of (r : Response) : Reply :=
  {| rp_status := status r; rp_headers := rs_headers r; rp_body := PPage (rs_body r) |}.

(** More of [http::Uri]: the parser of a path and query, and [Uri::from_parts] of it
    and the other parts of a URI. *)
Class UriRewrite {U : UriApi} : Type := { uri_rewrite : Uri -> string -> option Uri }.

Section Finalize.
Context {U : UriApi} {UP : UriParts} {UR : UriRewrite} {HA : HeaderApi} {HT : HeaderText} {SA : SealApi}.

(** ** [Vary] *)

Definition VARY_FIELDS : list string := ["Cookie"; "Accept"; "Accept-Encoding"; "Accept-Language"; "User-Agent"].
(** The fields the text values of a [Vary] list. *)
Definition vary_fields (h : Headers) : list string :=
  List.filter (fun field => negb (str_is_empty field))
    (str_trim <$> mjoin (str_split "," <$> omap header_to_str (get_all "vary" h))).
Definition listed (field : string) (fields : list string) : bool :=
  existsb (fun have => eq_ignore_ascii_case have field) fields.
Definition merged_fields (existing : list string) : list string :=
  existing ++ List.filter (fun field => negb (listed field existing)) VARY_FIELDS.
Definition merge_vary (h : Headers) : Headers :=
  let existing := vary_fields h in
  if existsb (String.eqb "*") existing then h
  else match header_value (str_join ", " (merged_fields existing)) with
       | Some value => hm_insert "vary" value h
       | None => h
       end.

(** ** Fragments *)

Variable fragment_text : Fragment -> string.

Definition is_html (h : Headers) : bool :=
  match head (get_all "content-type" h) ≫= header_to_str with
  | Some ct => starts_with "text/html" ct
  | None => false
  end.
Definition injectable (r : Reply) : bool :=
  (rp_status r =? 200) && is_html (rp_headers r) && bool_decide (get_all "content-encoding" (rp_headers r) = []).
Definition fragments_tail (fragments : list Fragment) : list N :=
  mjoin ((fun f => string_bytes (fragment_text f)) <$> fragments).
Definition content_length (h : Headers) : option N :=
  text ← head (get_all "content-length" h) ≫= header_to_str; parse_unsigned u64_max text.
Definition lengthened (added : N) (h : Headers) : Headers :=
  match content_length h with
  | Some len =>
      if u64_max <? len + added then remove_all "content-length" h
      else hm_insert "content-length" (show_N (len + added)) h
  | None => h
  end.
Definition inject_fragments (fragments : list Fragment) (r : Reply) : Reply :=
  if injectable r then
    let tail := fragments_tail fragments in
    {| rp_status := rp_status r; rp_headers := lengthened (N.of_nat (length tail)) (rp_headers r);
       rp_body := PAppended (rp_body r) tail |}
  else r.

(** ** Backends *)

(** What a backend answers, or that it cannot be reached or gives none in time. *)
Variable exchange : Backend -> Outgoing -> option Reply.
Variable bagel_id : string.

Definition bad_gateway : Reply := reply_of (body_text 502 "bad gateway").
(** [finish]: its body is relayed under the time limits of [TimeoutBody]. *)
Definition finish (r : Reply) : Reply := reply_with_headers (finish_headers (rp_headers r)) r.
(** What is made of the answer on each route. *)
Definition relay (route : Route) (r : Reply) : Reply :=
  match route with
  | Upgraded _ =>
      if rp_status r =? 101
      then {| rp_status := 101; rp_headers := rp_headers r; rp_body := PPage BEmpty |} else finish r
  | _ => finish r
  end.
(** [proxy_request] whole: what is sent, and the reply either way. *)
Definition proxy (backend : Backend) (req : Request) : list (Backend * Outgoing) * Reply :=
  match proxy_request backend bagel_id req with
  | None => ([], bad_gateway)
  | Some out =>
      ([(backend, out)], match exchange backend out with Some r => relay (og_route out) r | None => bad_gateway end)
  end.

Definition request_with_uri (uri : Uri) (req : Request) : Request :=
  {| Proxy.rq_uri := uri; rq_headers := rq_headers req; rq_addr := rq_addr req; rq_tls := rq_tls req |}.
Definition request_with_headers (h : Headers) (req : Request) : Request :=
  {| Proxy.rq_uri := Proxy.rq_uri req; rq_headers := h; rq_addr := rq_addr req; rq_tls := rq_tls req |}.

(** The path and query a rule's rewrite makes. *)
Definition rewritten_target (path : string) (uri : Uri) : string :=
  if str_contains_char "?" path then path
  else match uri_query uri with Some query => path +:+ "?" +:+ query | None => path end.
Definition proxy_to_named (pool : BackendPool) (marker : string * option string) (req : Request) :
    list (Backend * Outgoing) * Reply :=
  match pool_by_name pool marker.1 with
  | None => ([], bad_gateway)
  | Some backend =>
      match marker.2 with
      | None => proxy backend req
      | Some path =>
          match uri_rewrite (Proxy.rq_uri req) (rewritten_target path (Proxy.rq_uri req)) with
          | Some uri => proxy backend (request_with_uri uri req)
          | None => ([], bad_gateway)
          end
      end
  end.

(** ** [finalize_response] *)

Variables (sha256 : list N -> N) (server_key : list N) (pool : BackendPool).

(** [strip_bagel_cookies] on the header map. *)
Definition cookie_values (h : Headers) : list (string * bool) :=
  (fun value => match header_to_str value with Some text => (text, true) | None => (value, false) end) <$>
    get_all "cookie" h.
Definition strip_cookie_headers (host : string) (h : Headers) : Headers :=
  remove_all "cookie" h ++
  ((fun cookie => ("cookie", cookie.1)) <$>
     strip_bagel_cookies sha256 (fun text => is_some (header_value text)) host (cookie_values h)).

Record FinalizeContext : Type := {
  fc_backend : Backend; fc_host : string; fc_host_is_ip : bool; fc_client_ip : option IpAddr; fc_drop_handle : bool }.
(** The connection is reset, a reply is sent, or the [expect] on the cookie fails. *)
Inductive Outcome : Type := Reset | Replied (r : Reply) | Panicked.
Record Finished : Type := { fi_sent : list (Backend * Outgoing); fi_outcome : Outcome }.

Definition insert_headers (add h : Headers) : Headers := foldl (fun h kv => hm_insert kv.1 kv.2 h) h add.
Definition PRIVATE : string := "private, no-store".

(** The request as a backend may see it. *)
Definition cleaned_request (fc : FinalizeContext) (cs : RequestChallengeState) (req : Request) : Request :=
  let h := strip_cookie_headers (fc_host fc) (rq_headers req) in
  request_with_headers (match injections cs with [] => h | _ => remove_all "accept-encoding" h end)
    (request_with_uri (strip_bagel_params (Proxy.rq_uri req)) req).
(** What the markers of a rule's response ask for. *)
Definition rule_reply (fc : FinalizeContext) (resp : Response) (req : Request) : list (Backend * Outgoing) * Reply :=
  let req := request_with_headers (insert_headers (default [] (pending_request resp)) (rq_headers req)) req in
  let '(sent, reply) :=
    match proxy_marker resp with
    | Some marker => proxy_to_named pool marker req
    | None => if pass_marker resp then proxy (fc_backend fc) req else ([], reply_of resp)
    end in
  (sent, reply_with_headers (insert_headers (default [] (pending_response resp)) (rp_headers reply)) reply).
Definition seal_reply (random : option (list N)) (fc : FinalizeContext) (cs : RequestChallengeState) (reply : Reply) :
    Outcome :=
  match seal_cookie sha256 server_key random cs (fc_host fc) (fc_host_is_ip fc) (fc_client_ip fc) with
  | Ok (Some cookie) =>
      match header_value cookie with
      | Some value =>
          Replied (reply_with_headers (hm_insert "cache-control" PRIVATE (rp_headers reply ++ [("set-cookie", value)])) reply)
      | None => Panicked
      end
  | Ok None => Replied reply
  | Err _ => Replied (reply_of (body_status 500))
  end.
(** Fragments, then [Vary]. *)
Definition decorate (cs : RequestChallengeState) (reply : Reply) : Reply :=
  let reply := match injections cs with
               | [] => reply
               | fragments =>
                   let reply := inject_fragments fragments reply in
                   reply_with_headers (hm_insert "cache-control" PRIVATE (rp_headers reply)) reply
               end in
  reply_with_headers (merge_vary (rp_headers reply)) reply.

Definition finalize_response (random : option (list N)) (fc : FinalizeContext) (terminal : Terminal)
    (cs : RequestChallengeState) (req : Request) : Finished :=
  match terminal with
  | TDropped _ =>
      {| fi_sent := [];
         fi_outcome := if fc_drop_handle fc then Reset else Replied (reply_of (body_status 500)) |}
  | TNone =>
      let '(sent, reply) := proxy (fc_backend fc) (cleaned_request fc cs req) in
      {| fi_sent := sent; fi_outcome := seal_reply random fc cs (decorate cs reply) |}
  | THandled resp =>
      let '(sent, reply) := rule_reply fc resp (cleaned_request fc cs req) in
      {| fi_sent := sent; fi_outcome := seal_reply random fc cs (decorate cs reply) |}
  end.
End Finalize.

(** * What a finished request has shown and kept

    Backends see neither bagel's cookie nor its parameters, a reply that carries a
    client's state is private, [Vary] keeps what the backend declared, fragments
    follow the body they are appended to, and the cookie always fits a header. *)

Local Open Scope N_scope.

(** ** Laws of [http] *)

(** Visible ASCII and the tab, which [HeaderValue::to_str] accepts. *)
Definition header_text_char (c : ascii) : bool := in_range 32 126 c || (byte_of c =? 9).
Class HeaderTextLaws {HA : HeaderApi} {HT : HeaderText} : Prop := {
  header_value_same s v : header_value s = Some v -> v = s;
  header_value_text s : str_all header_text_char s = true -> header_value s = Some s;
  header_to_str_spec v : header_to_str v = if str_all header_text_char v then Some v else None }.
(** The query of a path and query is what follows its first question mark, and no
    path holds one. *)
Definition query_of (path_and_query : string) : option string := snd <$> split_once "?" path_and_query.
Class UriQueryLaws {U : UriApi} {UP : UriParts} {UR : UriRewrite} : Prop := {
  path_unmarked u : str_any (char_eqb "?") (uri_path u) = false;
  build_query s a pq u : uri_build s a pq = Some u -> uri_query u = query_of pq;
  parts_query u pq : uri_path_and_query u = Some pq -> uri_query u = query_of pq;
  of_path_query pq : uri_query (uri_of_path pq) = query_of pq;
  rewrite_query u pq u' : uri_rewrite u pq = Some u' -> uri_query u' = query_of pq }.

(** ** [Vary] *)

Section Vary.
Context {HA : HeaderApi} {HT : HeaderText} {HL : HeaderTextLaws}.

(** A field as it is read from a list and written into one. *)
Definition field_ok (f : string) : Prop :=
  (str_any (char_eqb ",") f = false /\ str_trim f = f) /\ str_is_empty f = false /\ str_all header_text_char f = true.

Lemma vary_fields_ok h : Forall field_ok (vary_fields h).
Proof.
  apply Forall_forall. intros f Hf. unfold vary_fields in Hf.
  apply list_elem_of_In, filter_In in Hf as [Hf%list_elem_of_In He]. apply negb_true_iff in He.
  apply list_elem_of_fmap in Hf as (p & -> & Hp). apply list_elem_of_join in Hp as (ps & Hp & Hps).
  apply list_elem_of_fmap in Hps as (t & -> & Ht).
  apply list_elem_of_omap in Ht as (v & _ & Ht). rewrite header_to_str_spec in Ht.
  destruct (str_all _ v) eqn:Hv; [|done]. injection Ht as ->.
  split_and!; [by apply str_any_trim, (str_split_pieces "," t)|apply str_trim_idem|done|].
  apply str_all_trim. by eapply str_all_pieces.
Qed.
Lemma vary_own_ok : Forall field_ok VARY_FIELDS.
Proof. repeat constructor. Qed.
Lemma merged_fields_ok h : Forall field_ok (merged_fields (vary_fields h)).
Proof.
  apply Forall_app. split; [apply vary_fields_ok|]. apply Forall_forall. intros f Hf.
  apply list_elem_of_In, filter_In in Hf as [Hf _]. eapply Forall_forall; [apply vary_own_ok|by apply list_elem_of_In].
Qed.
Lemma merged_fields_nonempty fields : merged_fields fields <> [].
Proof.
  unfold merged_fields. intros [-> H]%app_eq_nil. revert H. cbn [listed existsb negb List.filter]. discriminate.
Qed.
Lemma join_text l : Forall field_ok l -> str_all header_text_char (str_join ", " l) = true.
Proof. intros Hl. apply str_all_join; [done|]. eapply Forall_impl; [exact Hl|]. by intros f (_ & _ & H). Qed.
Lemma filter_nonempty l : Forall field_ok l -> List.filter (fun f => negb (str_is_empty f)) l = l.
Proof. induction 1 as [|f l (_ & Hf & _) Hl IH]; [done|]. cbn [List.filter]. by rewrite Hf, IH. Qed.

(** What is written is read back. *)
Lemma vary_fields_written l h :
  l <> [] -> Forall field_ok l -> vary_fields (hm_insert "vary" (str_join ", " l) h) = l.
Proof.
  intros Hne Hl. unfold vary_fields. rewrite get_all_insert.
  change (eq_ignore_ascii_case "vary" "vary") with true. cbn [omap list_omap].
  rewrite header_to_str_spec, join_text by done. cbn [fmap list_fmap mjoin list_join]. rewrite app_nil_r.
  assert (H : str_trim <$> str_split "," (str_join ", " l) = l).
  { apply split_join_trim; [done|done|]. eapply Forall_impl; [exact Hl|]. by intros f [H _]. }
  rewrite H. by apply filter_nonempty.
Qed.

Lemma listed_merged fields field : field ∈ VARY_FIELDS -> listed field (merged_fields fields) = true.
Proof.
  intros Hin. unfold merged_fields, listed. rewrite existsb_app. destruct (existsb _ fields) eqn:E; [done|].
  apply existsb_elem. exists field. split; [|by apply String.eqb_refl].
  apply list_elem_of_In, filter_In. split; [by apply list_elem_of_In|]. unfold listed. by rewrite E.
Qed.

Lemma merged_twice fields : merged_fields (merged_fields fields) = merged_fields fields.
Proof.
  assert (H : forall l, (forall f, f ∈ l -> listed f (merged_fields fields) = true) ->
                List.filter (fun f => negb (listed f (merged_fields fields))) l = []).
  { induction l as [|f l IH]; intros Hl; [done|]. cbn [List.filter]. rewrite (Hl f) by left. cbn [negb].
    apply IH. intros g Hg. apply Hl. by right. }
  unfold merged_fields at 1. rewrite H by (apply listed_merged). apply app_nil_r.
Qed.

(** Caches are told what bagel's answers depend on. When the backend's own [Vary]
    is not [*], the reply has one [Vary] header, which lists the backend's fields in
    their order and then each of bagel's that was missing; no other header changes,
    and merging again would add nothing. *)
Theorem vary_merged h :
  let fields := vary_fields h in
  let h' := merge_vary h in
  if existsb (String.eqb "*") fields then h' = h
  else
    (exists value, get_all "vary" h' = [value]) /\
    vary_fields h' = fields ++ List.filter (fun field => negb (listed field fields)) VARY_FIELDS /\
    Forall (fun field => listed field (vary_fields h') = true) VARY_FIELDS /\
    merged_fields (vary_fields h') = vary_fields h' /\
    (forall name, eq_ignore_ascii_case name "vary" = false -> get_all name h' = get_all name h).
Proof.
  cbv zeta. unfold merge_vary. destruct (existsb _ _) eqn:Estar; [done|].
  pose proof (merged_fields_ok h) as Hok. pose proof (merged_fields_nonempty (vary_fields h)) as Hne.
  rewrite header_value_text by (by apply join_text). split_and!.
  - eexists. by rewrite get_all_insert.
  - by apply vary_fields_written.
  - rewrite vary_fields_written by done. apply Forall_forall. intros f. apply listed_merged.
  - rewrite vary_fields_written by done. apply merged_twice.
  - intros name Hn. by rewrite get_all_insert, Hn.
Qed.
End Vary.

(** ** What a backend sees *)

(** No cookie of a value bears a name, and no parameter of a query is bagel's. *)
Definition cookie_free (name value : string) : Prop :=
  Forall (fun cookie => cookie_pair name cookie = None) (str_trim <$> str_split ";" value).
Definition param_free (query : option string) : Prop :=
  match query with
  | Some q => Forall (fun pair => bagel_param pair = false) (str_split "&" q)
  | None => True
  end.

Section Origin.
Context {U : UriApi} {UP : UriParts} {UR : UriRewrite} {HA : HeaderApi} {HT : HeaderText} {SA : SealApi}.
Context {HL : HeaderTextLaws} {UL : UriQueryLaws}.
Variables (fragment_text : Fragment -> string) (exchange : Backend -> Outgoing -> option Reply) (bagel_id : string).
Variables (sha256 : list N -> N) (server_key : list N) (pool : BackendPool).

(** *** Cookies *)

Lemma clean_cookies_ok name text :
  Forall (fun c => (str_any (char_eqb ";") c = false /\ str_trim c = c) /\ cookie_pair name c = None)
    (clean_cookies name text).
Proof.
  apply Forall_forall. intros c Hc. unfold clean_cookies in Hc. apply list_elem_of_In, filter_In in Hc as [Hc Hn].
  apply list_elem_of_In, list_elem_of_fmap in Hc as (p & -> & Hp). split; [split|].
  - by apply str_any_trim, (str_split_pieces ";" text).
  - apply str_trim_idem.
  - unfold cookie_pair. destruct (split_once "=" _) as [[n v]|]; [|done]. cbn. by destruct (String.eqb _ name).
Qed.
Lemma clean_cookies_text name text :
  str_all header_text_char text = true ->
  Forall (fun c => str_all header_text_char c = true) (clean_cookies name text).
Proof.
  intros Ht. apply Forall_forall. intros c Hc. unfold clean_cookies in Hc.
  apply list_elem_of_In, filter_In in Hc as [Hc _]. apply list_elem_of_In, list_elem_of_fmap in Hc as (p & -> & Hp).
  apply str_all_trim. by eapply str_all_pieces.
Qed.
Lemma cleaned_free name text :
  clean_cookies name text <> [] -> cookie_free name (str_join "; " (clean_cookies name text)).
Proof.
  intros Hne. unfold cookie_free. rewrite split_join_trim; [|done|done|].
  - eapply Forall_impl; [apply clean_cookies_ok|]. by intros c [_ H].
  - eapply Forall_impl; [apply clean_cookies_ok|]. by intros c [H _].
Qed.

Definition text_cookies (h : Headers) : Prop := Forall (fun v => str_all header_text_char v = true) (get_all "cookie" h).
Lemma get_all_named (name : string) (l : list (string * bool)) :
  to_ascii_lowercase name = name -> get_all name ((fun c => (name, c.1)) <$> l) = l.*1.
Proof.
  intros Hn. unfold get_all. rewrite Hn. induction l as [|c l IH]; [done|]. rewrite !fmap_cons. cbn [List.filter fst].
  rewrite String.eqb_refl, fmap_cons. by rewrite IH.
Qed.
Lemma stripped_cookies host h :
  text_cookies h ->
  Forall (cookie_free (cookie_name sha256 host)) (get_all "cookie" (strip_cookie_headers sha256 host h)).
Proof.
  intros Ht. unfold strip_cookie_headers. rewrite get_all_app, get_all_remove, get_all_named by done.
  change (eq_ignore_ascii_case "cookie" "cookie") with true. cbn [app]. unfold cookie_values, text_cookies in *.
  destruct Ht as [|v vs Hv _]; [constructor|]. rewrite fmap_cons, header_to_str_spec, Hv.
  unfold strip_bagel_cookies. set (name := cookie_name _ _).
  pose proof (cleaned_free name v) as Hf. pose proof (clean_cookies_text name v Hv) as Htext.
  destruct (clean_cookies name v) as [|c cs]; [constructor|]. specialize (Hf ltac:(done)).
  rewrite header_value_text by (by apply str_all_join). repeat constructor. exact Hf.
Qed.
Lemma stripped_other host h name :
  eq_ignore_ascii_case name "cookie" = false -> get_all name (strip_cookie_headers sha256 host h) = get_all name h.
Proof.
  intros Hn. unfold strip_cookie_headers. rewrite get_all_app, get_all_remove, Hn. unfold get_all at 2.
  unfold eq_ignore_ascii_case in Hn. change (to_ascii_lowercase "cookie") with "cookie" in Hn.
  assert (H : forall l : list (string * bool), List.filter (fun kv => String.eqb kv.1 (to_ascii_lowercase name))
                ((fun c => ("cookie", c.1)) <$> l) = []).
  { induction l as [|c l IH]; [done|]. rewrite fmap_cons. cbn [List.filter fst].
    by rewrite String.eqb_sym, Hn, IH. }
  rewrite H. apply app_nil_r.
Qed.

(** *** Parameters *)

Lemma split_once_path (p q : string) :
  str_any (char_eqb "?") p = false -> query_of (p +:+ "?" +:+ q) = Some q.
Proof. intros Hp. unfold query_of. change (p +:+ "?" +:+ q) with (p +:+ String "?" q). by rewrite split_once_app. Qed.
Lemma query_of_path (p : string) : str_any (char_eqb "?") p = false -> query_of p = None.
Proof. intros Hp. unfold query_of. by rewrite split_once_none. Qed.

(** What is left of a URI's path and query, and that a URI can be built of it. *)
Definition kept_params (query : string) : list string :=
  List.filter (fun pair => negb (bagel_param pair)) (str_split "&" query).
Definition kept_target (uri : Uri) (query : string) : string :=
  match kept_params query with
  | [] => uri_path uri
  | _ => uri_path uri +:+ "?" +:+ str_join "&" (kept_params query)
  end.
Definition strippable (uri : Uri) : Prop :=
  forall query, uri_query uri = Some query ->
  is_Some (uri_build (uri_scheme uri) (uri_authority uri) (kept_target uri query)).
Lemma stripped_params uri : strippable uri -> param_free (uri_query (strip_bagel_params uri)).
Proof.
  intros Hb. unfold strip_bagel_params. destruct (uri_query uri) as [query|] eqn:Eq; [|by rewrite Eq].
  specialize (Hb query Eq) as [u Hu]. unfold kept_target in Hu. fold (kept_params query). rewrite Hu.
  change (default uri (Some u)) with u. rewrite (build_query _ _ _ _ Hu).
  assert (Hc : Forall (fun pair => bagel_param pair = false /\ str_any (char_eqb "&") pair = false) (kept_params query)).
  { apply Forall_forall. intros pair Hp. apply list_elem_of_In, filter_In in Hp as [Hp Hn].
    apply negb_true_iff in Hn. split; [done|]. apply list_elem_of_In in Hp. by eapply str_split_pieces. }
  destruct (kept_params query) as [|c cs].
  - by rewrite query_of_path by apply path_unmarked.
  - rewrite split_once_path by apply path_unmarked. cbn [param_free]. rewrite (split_join "&").
    + eapply Forall_impl; [exact Hc|]. by intros p [H _].
    + done.
    + eapply Forall_impl; [exact Hc|]. by intros p [_ H].
Qed.

(** *** Through the proxy *)

(** The backend's address header is not one of the names at hand. *)
Definition plain_backend (backend : Backend) : Prop :=
  match be_ip_header backend with
  | Some name => eq_ignore_ascii_case "cookie" name = false /\ eq_ignore_ascii_case "connection" name = false
  | None => True
  end.
Lemma proxied_request backend req sent reply b out :
  header_value bagel_id = Some bagel_id -> plain_backend backend ->
  proxy exchange bagel_id backend req = (sent, reply) -> (b, out) ∈ sent ->
  sent = [(backend, out)] /\ b = backend /\
  (get_all "cookie" (og_headers out) = [] \/
   get_all "cookie" (og_headers out) = get_all "cookie" (rq_headers req)) /\
  (param_free (uri_query (Proxy.rq_uri req)) -> param_free (uri_query (og_uri out))).
Proof.
  intros Hid Hplain. unfold proxy. destruct (proxy_request backend bagel_id req) as [o|] eqn:Ep.
  2: { intros [= <- _] Hin. by apply not_elem_of_nil in Hin. }
  intros [= <- _] [= -> ->]%list_elem_of_singleton. split_and!; [done|done| |].
  - assert (Ho : og_headers o = upstream_headers backend bagel_id (is_some (requested_upgrade (rq_headers req))) req).
    { unfold proxy_request in Ep. by apply bind_Some in Ep as (u & _ & [= <-]). }
    assert (Hname : forall name, name = "cookie" \/ name = "connection" -> is_address_header backend req name = false).
    { intros name Hn. unfold is_address_header, plain_backend in *. destruct (be_ip_header backend); [|done].
      destruct (rq_addr req); [|done]. destruct Hn as [-> | ->]; tauto. }
    rewrite Ho, forwarded_headers_exact by (done || (apply Hname; by right)). unfold values_sent.
    change (eq_ignore_ascii_case "cookie" "x-bagel-ja4") with false.
    change (eq_ignore_ascii_case "cookie" "x-bagel-id") with false.
    change (eq_ignore_ascii_case "cookie" "host") with false. cbv iota.
    destruct (hop_by_hop _ _ _); [by left|]. rewrite Hname by (by left). by right.
  - intros Hq. pose proof (proxy_request_routes _ _ _ _ Ep) as Hr. cbv zeta in Hr.
    assert (Hd : param_free (query_of (default "/" (uri_path_and_query (Proxy.rq_uri req))))).
    { destruct (uri_path_and_query (Proxy.rq_uri req)) as [pq|] eqn:E; [|done].
      change (default "/" (Some pq)) with pq. by rewrite <- (parts_query _ _ E). }
    destruct (og_route o).
    + destruct Hr as (_ & _ & Hb). by rewrite (build_query _ _ _ _ Hb).
    + destruct Hr as (_ & -> & _). by rewrite of_path_query.
    + destruct Hr as (_ & _ & ->). by rewrite of_path_query.
Qed.

Lemma get_insert_headers name add h :
  Forall (fun kv => eq_ignore_ascii_case name kv.1 = false) add ->
  get_all name (insert_headers add h) = get_all name h.
Proof.
  unfold insert_headers. intros Ha. revert h. induction Ha as [|kv add Hkv Ha IH]; intros h; [done|]. cbn [foldl].
  by rewrite IH, get_all_insert, Hkv.
Qed.

(** A rule's request headers do not set a cookie, and its rewrite gives a path alone. *)
Definition plain_rule (resp : Response) : Prop :=
  Forall (fun kv => eq_ignore_ascii_case "cookie" kv.1 = false) (default [] (pending_request resp)) /\
  match proxy_marker resp with Some (_, Some path) => str_any (char_eqb "?") path = false | _ => True end.
Definition plain_terminal (t : Terminal) : Prop := match t with THandled resp => plain_rule resp | _ => True end.
(** The decisions that let a request go on. *)
Definition goes_on (t : Terminal) : bool :=
  match t with TNone => true | THandled resp => proxied (Handled resp) | TDropped _ => false end.

Definition free_request (host : string) (req : Request) : Prop :=
  Forall (cookie_free (cookie_name sha256 host)) (get_all "cookie" (rq_headers req)) /\
  param_free (uri_query (Proxy.rq_uri req)).
Lemma cleaned_free_request fc cs req :
  text_cookies (rq_headers req) -> strippable (Proxy.rq_uri req) ->
  free_request (fc_host fc) (cleaned_request sha256 fc cs req).
Proof.
  intros Ht Hs. split; [|by apply stripped_params]. unfold cleaned_request. cbn [rq_headers request_with_headers].
  destruct (injections cs); [by apply stripped_cookies|]. rewrite get_all_remove. by apply stripped_cookies.
Qed.

Lemma rewritten_free path uri :
  str_any (char_eqb "?") path = false -> param_free (uri_query uri) -> param_free (query_of (rewritten_target path uri)).
Proof.
  intros Hp Hq. unfold rewritten_target. destruct (str_contains_char "?" path) eqn:E.
  - by rewrite query_of_path.
  - destruct (uri_query uri); [by rewrite split_once_path|by rewrite query_of_path].
Qed.

(** What goes through the proxy of a clean request is clean. *)
Definition clean_sent (host : string) (sent : list (Backend * Outgoing)) (out : Outgoing) : Prop :=
  length sent = 1%nat /\
  Forall (cookie_free (cookie_name sha256 host)) (get_all "cookie" (og_headers out)) /\
  param_free (uri_query (og_uri out)).
Lemma proxy_clean host backend req sent reply b out :
  header_value bagel_id = Some bagel_id -> plain_backend backend -> free_request host req ->
  proxy exchange bagel_id backend req = (sent, reply) -> (b, out) ∈ sent -> clean_sent host sent out.
Proof.
  intros Hid Hb [Hc Hq] Hp Hin. destruct (proxied_request _ _ _ _ _ _ Hid Hb Hp Hin) as (-> & _ & Hk & Hu).
  split_and!; [done| |by apply Hu]. destruct Hk as [-> | ->]; [constructor|done].
Qed.

Lemma proxy_to_named_clean host marker req sent reply b out :
  header_value bagel_id = Some bagel_id -> Forall plain_backend (pool_backends pool) -> free_request host req ->
  match marker.2 with Some path => str_any (char_eqb "?") path = false | None => True end ->
  proxy_to_named exchange bagel_id pool marker req = (sent, reply) -> (b, out) ∈ sent -> clean_sent host sent out.
Proof.
  intros Hid Hpool Hreq Hpath. unfold proxy_to_named.
  destruct (pool_by_name pool marker.1) as [backend|] eqn:Eb; [|by intros [= <- _] Hin%not_elem_of_nil].
  apply list_find_bool_some in Eb as [Hin _]. rewrite Forall_forall in Hpool. specialize (Hpool _ Hin).
  destruct marker.2 as [path|]; [|by apply proxy_clean].
  destruct (uri_rewrite _ _) as [uri|] eqn:Eu; [|by intros [= <- _] H%not_elem_of_nil].
  apply proxy_clean; [done..|]. destruct Hreq as [Hc Hq]. split; [exact Hc|].
  cbn [Proxy.rq_uri request_with_uri]. rewrite (rewrite_query _ _ _ Eu). by apply rewritten_free.
Qed.

(** C20: At most one request leaves, and only when the decision lets it go on; no
    cookie of it bears the name of bagel's for the host and no parameter of it is
    bagel's. This is for a client whose Cookie headers hold only visible characters, and
    whose target without bagel's parameters is a target again; where no rule sets a
    Cookie header or rewrites to a path with a query; and where no backend is told the
    address in the Cookie or Connection header. ([FinalizeExample.unclean_cookie] is a
    cookie that is not text.) *)
Theorem origin_sees_no_state random fc terminal cs req b out :
  header_value bagel_id = Some bagel_id -> Forall plain_backend (fc_backend fc :: pool_backends pool) ->
  text_cookies (rq_headers req) -> strippable (Proxy.rq_uri req) -> plain_terminal terminal ->
  let sent := fi_sent (finalize_response fragment_text exchange bagel_id sha256 server_key pool random fc terminal cs req) in
  (b, out) ∈ sent ->
  goes_on terminal = true /\ length sent = 1%nat /\
  Forall (cookie_free (cookie_name sha256 (fc_host fc))) (get_all "cookie" (og_headers out)) /\
  param_free (uri_query (og_uri out)).
Proof.
  intros Hid [Hb Hpool]%Forall_cons Ht Hs Hplain sent. subst sent.
  pose proof (cleaned_free_request fc cs req Ht Hs) as [Hc Hq]. unfold finalize_response.
  destruct terminal as [|resp|rule]; [| |by intros Hin%not_elem_of_nil].
  - destruct (proxy _ _ _ _) as [sent reply] eqn:Ep. cbn [fi_sent]. intros Hin. split; [done|].
    by eapply proxy_clean.
  - destruct (rule_reply _ _ _ _ _ _) as [sent reply] eqn:Er. cbn [fi_sent]. intros Hin. destruct Hplain as [Hpend Hpath].
    unfold rule_reply in Er. set (req' := request_with_headers _ _) in Er.
    assert (Hreq : free_request (fc_host fc) req').
    { split; [|exact Hq]. subst req'. cbn [rq_headers request_with_headers]. by rewrite get_insert_headers. }
    cbn [goes_on proxied]. destruct (proxy_marker resp) as [marker|] eqn:Em.
    + destruct (proxy_to_named _ _ _ _ _) as [sent' reply'] eqn:En. injection Er as <- _.
      split; [by rewrite orb_true_r|]. eapply proxy_to_named_clean; eauto. by destruct marker as [name [path|]].
    + destruct (pass_marker resp); [|injection Er as <- _; by apply not_elem_of_nil in Hin].
      destruct (proxy _ _ _ _) as [sent' reply'] eqn:Ep. injection Er as <- _. split; [done|]. by eapply proxy_clean.
Qed.
End Origin.

(** ** What the client gets *)

(** The characters of a date. *)
Lemma show_Z_text w z : str_all header_text_char (pad_Z w z) = true.
Proof.
  assert (Hz : forall n, str_all header_text_char (zeros n) = true) by (by induction n).
  assert (Hn : forall w n, str_all header_text_char (pad_N w n) = true).
  { intros w' n. unfold pad_N. rewrite str_all_app, Hz. cbn [andb].
    eapply str_all_impl; [|apply show_N_digits]. intros c. by_char c. }
  unfold pad_Z. destruct (z <? 0)%Z; [|apply Hn]. rewrite str_all_app, Hn. done.
Qed.
Lemma nth_text l i : Forall (fun s => str_all header_text_char s = true) l -> str_all header_text_char (nth i l "") = true.
Proof. intros Hl. revert i. induction Hl as [|s l Hs Hl IH]; intros [|i]; cbn; auto. Qed.
Lemma date_text_chars weekday day month year hr min sec :
  str_all header_text_char weekday = true ->
  str_all header_text_char (date_text weekday day month year hr min sec) = true.
Proof.
  intros Hw. unfold date_text. rewrite !str_all_app, !show_Z_text, Hw, nth_text; [done|]. by repeat constructor.
Qed.
Lemma cookie_date_chars secs : str_all header_text_char (cookie_date secs) = true.
Proof.
  unfold cookie_date, Token.format_http_date. destruct (Token.year_loop _ _ _) as [[year days]|]; [|done].
  cbn [mbind option_bind]. destruct (Token.month_loop _ _ _) as [month days'].
  change (default "" (Some ?d)) with d. apply date_text_chars, nth_text. by repeat constructor.
Qed.

Section Client.
Context {U : UriApi} {UP : UriParts} {UR : UriRewrite} {HA : HeaderApi} {HT : HeaderText} {SA : SealApi}.
Context {HL : HeaderTextLaws}.
Variables (fragment_text : Fragment -> string) (exchange : Backend -> Outgoing -> option Reply) (bagel_id : string).
Variables (sha256 : list N -> N) (server_key : list N) (pool : BackendPool).

(** *** The cookie *)

Lemma cookie_text_chars host host_is_ip sealed exp :
  str_all host_char host = true -> str_all cookie_char sealed = true ->
  str_all header_text_char (cookie_text sha256 host host_is_ip sealed exp) = true.
Proof.
  intros Hh Hs. unfold cookie_text. rewrite !str_all_app, cookie_date_chars.
  rewrite (str_all_impl cookie_char _ (cookie_name sha256 host)); [|intros c; by_char c|apply cookie_name_chars].
  rewrite (str_all_impl cookie_char _ sealed); [|intros c; by_char c|done].
  assert (Hd : str_all header_text_char (if host_is_ip then "" else " Domain=" +:+ host +:+ ";") = true).
  { destruct host_is_ip; [done|]. rewrite !str_all_app.
    rewrite (str_all_impl host_char _ host); [done|intros c; by_char c|done]. }
  rewrite Hd. done.
Qed.

(** Sealing cannot fail the request's task. The cookie of a canonical host is
    always a valid header value, so the [expect] on it does not panic, whatever the
    state, the keys, the random bytes and the clock; a reply is a reset only for a
    drop on a connection that has a handle, on which nothing is answered. *)
Theorem finalize_answers {SL : SealLaws} random fc terminal cs req raw host :
  host_parse raw = Ok host -> fc_host fc = host_text host ->
  let outcome := fi_outcome
    (finalize_response fragment_text exchange bagel_id sha256 server_key pool random fc terminal cs req) in
  outcome <> Panicked /\
  (outcome = Reset <-> (exists rule, terminal = TDropped rule) /\ fc_drop_handle fc = true).
Proof.
  intros Hparse Hhost outcome. pose proof (canonical_chars _ (host_parse_canonical _ _ Hparse)) as Hchars.
  assert (Hseal : forall reply, exists r, seal_reply sha256 server_key random fc cs reply = Replied r).
  { intros reply. unfold seal_reply, seal_cookie. destruct (token cs) as [t|]; [|by eexists].
    destruct (modified cs); [|by eexists]. destruct (seal_token _ _ _) as [sealed|e] eqn:Es; [|by eexists].
    cbn [mbind result_bind]. rewrite header_value_text; [by eexists|]. apply cookie_text_chars; [by rewrite Hhost|].
    by eapply seal_token_chars. }
  subst outcome. unfold finalize_response. destruct terminal as [|resp|rule].
  - destruct (proxy _ _ _ _) as [sent reply]. cbn [fi_outcome]. destruct (Hseal (decorate fragment_text cs reply)) as [r ->].
    split; [done|]. split; [done|]. by intros [[rule ?] _].
  - destruct (rule_reply _ _ _ _ _ _) as [sent reply]. cbn [fi_outcome].
    destruct (Hseal (decorate fragment_text cs reply)) as [r ->]. split; [done|]. split; [done|]. by intros [[rule ?] _].
  - cbn [fi_outcome]. destruct (fc_drop_handle fc); (split; [done|]); split; try done; [by eauto|by intros [_ ?]].
Qed.

(** *** Caches *)

(** The reply carries a session that changed, or fragments made for this client. *)
Definition personal (cs : RequestChallengeState) : Prop :=
  injections cs <> [] \/ (is_Some (token cs) /\ modified cs = true).

Lemma merge_vary_other h name :
  eq_ignore_ascii_case name "vary" = false -> get_all name (merge_vary h) = get_all name h.
Proof.
  intros Hn. unfold merge_vary. destruct (existsb _ _); [done|]. destruct (header_value _); [|done].
  by rewrite get_all_insert, Hn.
Qed.
Lemma decorate_private cs reply :
  injections cs <> [] -> get_all "cache-control" (rp_headers (decorate fragment_text cs reply)) = [PRIVATE].
Proof.
  intros Hi. unfold decorate. destruct (injections cs); [done|]. cbn [rp_headers reply_with_headers].
  rewrite merge_vary_other by done. by rewrite get_all_insert.
Qed.

(** C22: what is made for one client is not stored for others. Whenever a reply carries
    a client's session or fragments, its one Cache-Control is private and no-store,
    whatever the rule or the backend said; and a session that cannot be sealed is
    answered with a bare error in place of the page. *)
Theorem personal_replies_private random fc terminal cs req r :
  goes_on terminal = true \/ (exists resp, terminal = THandled resp) -> personal cs ->
  fi_outcome (finalize_response fragment_text exchange bagel_id sha256 server_key pool random fc terminal cs req)
    = Replied r ->
  get_all "cache-control" (rp_headers r) = [PRIVATE] \/ r = reply_of (body_status 500).
Proof.
  intros Ht Hp. assert (Hseal : forall reply, seal_reply sha256 server_key random fc cs (decorate fragment_text cs reply)
    = Replied r -> get_all "cache-control" (rp_headers r) = [PRIVATE] \/ r = reply_of (body_status 500)).
  { intros reply. unfold seal_reply. destruct (seal_cookie _ _ _ _ _ _ _) as [[cookie|]|e] eqn:Es.
    - destruct (header_value cookie); [|done]. intros [= <-]. left. cbn [rp_headers reply_with_headers].
      by rewrite get_all_insert.
    - intros [= <-]. left. apply decorate_private. destruct Hp as [Hi|[[t Ht'] Hm]]; [done|].
      unfold seal_cookie in Es. rewrite Ht', Hm in Es. by destruct (seal_token _ _ _).
    - intros [= <-]. by right. }
  unfold finalize_response. destruct terminal as [|resp|rule].
  - destruct (proxy _ _ _ _) as [sent reply]. apply Hseal.
  - destruct (rule_reply _ _ _ _ _ _) as [sent reply]. apply Hseal.
  - by destruct Ht as [?|[? ?]].
Qed.
End Client.

(** ** Fragments *)

Section Fragments.
Context {HA : HeaderApi} {HT : HeaderText} {HL : HeaderTextLaws}.
Variable fragment_text : Fragment -> string.
(** The text of the pages bagel makes. *)
Variable page_data : Body -> list N.

Fixpoint payload_data (p : Payload) : list N :=
  match p with
  | PPage page => page_data page
  | PBytes data => data
  | PAppended inner tail => payload_data inner ++ tail
  end.
Definition payload_len (r : Reply) : N := N.of_nat (length (payload_data (rp_body r))).

Lemma content_length_insert n h :
  n <= u64_max -> content_length (hm_insert "content-length" (show_N n) h) = Some n.
Proof.
  intros Hn. unfold content_length. rewrite get_all_insert.
  change (eq_ignore_ascii_case "content-length" "content-length") with true.
  cbn [head mbind option_bind]. rewrite header_to_str_spec.
  rewrite (str_all_impl is_ascii_digit _ (show_N n)); [|intros c; by_char c|apply show_N_digits].
  by apply parse_show_N.
Qed.
Lemma lengthened_other added name h :
  eq_ignore_ascii_case name "content-length" = false -> get_all name (lengthened added h) = get_all name h.
Proof.
  intros Hn. unfold lengthened. destruct (content_length h) as [len|]; [|done].
  destruct (_ <? _); [by rewrite get_all_remove, Hn|by rewrite get_all_insert, Hn].
Qed.

(** Fragments follow the page they are for. Only an uncompressed page of HTML with
    status 200 gets them, after its last byte; its declared length, when it is right,
    stays right, or is withdrawn when it no longer fits 64 bits, and no other
    header changes. Any other reply is left as it is. *)
Theorem fragments_follow fragments r :
  let r' := inject_fragments fragment_text fragments r in
  let tail := fragments_tail fragment_text fragments in
  if injectable r then
    rp_status r' = 200 /\
    payload_data (rp_body r') = payload_data (rp_body r) ++ tail /\
    (content_length (rp_headers r) = Some (payload_len r) ->
     if u64_max <? payload_len r' then get_all "content-length" (rp_headers r') = []
     else content_length (rp_headers r') = Some (payload_len r')) /\
    (forall name, eq_ignore_ascii_case name "content-length" = false ->
     get_all name (rp_headers r') = get_all name (rp_headers r))
  else r' = r.
Proof.
  cbv zeta. unfold inject_fragments. destruct (injectable r) eqn:Ei; [|done].
  set (tail := fragments_tail _ _). cbn [rp_status rp_body rp_headers payload_data].
  assert (Hlen : payload_len {| rp_status := rp_status r; rp_headers := lengthened (N.of_nat (length tail)) (rp_headers r);
                   rp_body := PAppended (rp_body r) tail |} = payload_len r + N.of_nat (length tail)).
  { unfold payload_len. cbn [rp_body payload_data]. rewrite length_app. lia. }
  split_and!; [|done| |].
  - unfold injectable in Ei. rewrite !andb_true_iff in Ei. destruct Ei as [[Hst _] _]. by apply N.eqb_eq.
  - intros Hl. rewrite Hlen. unfold lengthened. rewrite Hl.
    destruct (N.ltb_spec u64_max (payload_len r + N.of_nat (length tail))) as [H|H].
    + rewrite get_all_remove. done.
    + by apply content_length_insert.
  - intros name Hn. by apply lengthened_other.
Qed.
End Fragments.

(** What is polled of a body with a tail: everything the body gives, then the tail
    once, then the end. *)
Lemma appended_polls_tail answers ends tail :
  Forall (fun a => a <> PolledEnd) answers -> Forall (eq PolledEnd) ends ->
  appended_polls (answers ++ PolledEnd :: ends) (Some tail) = answers ++ PolledFrame (FData tail) :: ends.
Proof.
  intros Ha He. induction Ha as [|a answers Ha _ IH]; cbn [app appended_polls].
  - f_equal. induction He as [|e ends <- _ IH]; [done|]. cbn [appended_polls appended_poll]. by rewrite IH.
  - destruct a; cbn [appended_poll]; try (by rewrite IH). done.
Qed.

(** ** Examples *)

Module FinalizeExample.
(** URIs as their path and query. *)
Definition uri : UriApi := {|
  Uri := string; uri_scheme := fun _ => None; uri_authority := fun _ => None;
  uri_path := fun s => match split_once "?" s with Some (p, _) => p | None => s end; uri_query := query_of;
  uri_show := fun s => s; uri_build := fun _ _ pq => Some pq |}.
Definition parts : @UriParts uri := {|
  uri_parse := (fun s => Some s) : string -> option (@Uri uri); uri_host := fun _ => Some "forge";
  uri_port := fun _ => None; uri_path_and_query := (fun s => Some s) : @Uri uri -> option string;
  uri_of_path := (fun s => s) : string -> @Uri uri |}.
Definition rewrite : @UriRewrite uri := {| uri_rewrite := (fun _ pq => Some pq) : @Uri uri -> string -> option (@Uri uri) |}.
Definition text_of (s : string) : option string := if str_all header_text_char s then Some s else None.
Definition http : HeaderApi := {| header_name := fun s => Some (to_ascii_lowercase s); header_value := text_of |}.
Definition text : HeaderText := {| header_to_str := text_of |}.
Lemma text_laws : @HeaderTextLaws http text.
Proof.
  split; cbn; unfold text_of.
  - intros s v. destruct (str_all _ s); [by intros [= ->]|done].
  - by intros s ->.
  - done.
Qed.
Lemma uri_laws : @UriQueryLaws uri parts rewrite.
Proof.
  split; cbn.
  - intros u. destruct (split_once "?" u) as [[p q]|] eqn:E; [by apply split_once_some in E as [_ ?]|].
    induction u as [|c u IH]; [done|]. cbn [split_once] in E. cbn [str_any].
    destruct (char_eqb c "?") eqn:Ec; [done|]. destruct (split_once "?" u) as [[a b]|]; [done|].
    rewrite IH by done. unfold char_eqb in *. by rewrite Ascii.eqb_sym, Ec.
  - by intros _ _ pq u [= ->].
  - by intros u pq [= ->].
  - done.
  - by intros _ pq u' [= ->].
Qed.
#[export] Existing Instance uri.
#[export] Existing Instance parts.
#[export] Existing Instance rewrite.
#[export] Existing Instance http.
#[export] Existing Instance text.
#[export] Existing Instance text_laws.
#[export] Existing Instance uri_laws.
#[export] Instance seal : SealApi := Plain.api [Plain.token].
#[export] Instance seal_laws : SealLaws := Plain.laws [Plain.token].

Definition backend : Backend := {|
  be_config := {| bk_name := "a.example"; bk_url := "http://forge"; bk_host := None; bk_ip_header := Some "x-real-ip";
                  bk_proxy_out := None; bk_template := None |};
  be_target := "/" : Uri; be_host := None; be_ip_header := Some "x-real-ip";
  be_theme := {| ct_vars := []; ct_light := []; ct_dark := [] |} |}.
Definition pool : BackendPool := {| bp_exact := [("a.example", backend)]; bp_wildcard := []; bp_fallback := None |}.
(** A page that says how long it is. *)
Definition answer : Reply := {|
  rp_status := 200;
  rp_headers := [("content-type", "text/html"); ("content-length", "5"); ("vary", "Origin, accept");
                 ("cache-control", "public, max-age=600")];
  rp_body := PBytes [104; 101; 108; 108; 111] |}.
Definition fc (handle : bool) : FinalizeContext := {|
  fc_backend := backend; fc_host := "a.example"; fc_host_is_ip := false; fc_client_ip := Some (V4 0xC0000201);
  fc_drop_handle := handle |}.
Definition request : Request := {|
  Proxy.rq_uri := "/repo?__bagel_token=1&tab=code" : Uri;
  rq_headers := [("cookie", cookie_name Plain.hash "a.example" +:+ "=sealed; theme=dark"); ("host", "a.example")];
  rq_addr := None; rq_tls := None |}.
Definition fragment_text (f : Fragment) : string := "<!-- -->".
(** A session that changed, with a widget for the page. *)
Definition cs : RequestChallengeState := {|
  Challenge.token := Some Plain.token; modified := true; injections := [FWidget "pow" 7] |}.
Definition finished (terminal : Terminal) : Finished :=
  finalize_response fragment_text (fun _ _ => Some answer) "00112233445566aa" Plain.hash [9] pool
    (Some (replicate 12 0)) (fc true) terminal cs request.

Example finished_proxy :
  match finished TNone with
  | {| fi_sent := [(_, out)]; fi_outcome := Replied r |} =>
      Some (get_all "cookie" (og_headers out), og_uri out,
            (fun name => get_all name (rp_headers r)) <$> ["vary"; "content-length"; "cache-control"; "via"],
            length (get_all "set-cookie" (rp_headers r)), payload_data (fun _ => []) (rp_body r))
  | _ => None
  end = Some (["theme=dark"], "/repo?tab=code",
              [["Origin, accept, Cookie, Accept-Encoding, Accept-Language, User-Agent"]; ["13"];
               ["private, no-store"]; ["bagel/0.1"]], 1%nat,
              [104; 101; 108; 108; 111] ++ string_bytes "<!-- -->").
Proof. vm_refl. Qed.
Definition sent_out : Outgoing :=
  match fi_sent (finished TNone) with
  | (_, out) :: _ => out
  | [] => {| og_uri := "/" : Uri; og_headers := []; og_route := Pooled |}
  end.
Definition reply_out : Reply := match fi_outcome (finished TNone) with Replied r => r | _ => answer end.
Example finished_otherwise :
  (fun t => let f := finished t in (length (fi_sent f), match fi_outcome f with Replied r => Some (rp_status r) | _ => None end)) <$>
    [TDropped None; THandled (body_status 403); THandled pass_response;
     THandled {| status := 200; rs_headers := []; rs_body := BEmpty; pass_marker := false;
                 proxy_marker := Some ("elsewhere", None); pending_request := None; pending_response := None;
                 terminal_info := None |}] =
  [(0%nat, None); (0%nat, Some 403); (1%nat, Some 200); (0%nat, Some 502)].
Proof. vm_refl. Qed.

(** A body that ends with trailers has its fragments after them, where no protocol
    takes data any more. *)
Example fragments_after_trailers :
  appended_polls [PolledFrame (FData [104]); PolledFrame (FTrailers [("x-checksum", "1")]); PolledEnd] (Some [60]) =
    [PolledFrame (FData [104]); PolledFrame (FTrailers [("x-checksum", "1")]); PolledFrame (FData [60])].
Proof. vm_refl. Qed.
(** A cookie that is not visible ASCII keeps its whole header from being cleaned, and
    bagel's cookie in it goes to the backend. *)
Example unclean_cookie :
  let cookie := cookie_name Plain.hash "a.example" +:+ "=sealed; name=" +:+ bytes_string [195; 169] in
  get_all "cookie" (strip_cookie_headers Plain.hash "a.example" [("cookie", cookie)]) = [cookie].
Proof. cbv zeta. vm_refl. Qed.
(** Limits of a body: idle for thirty seconds, and five minutes in all. *)
Example body_limits :
  let b := timeout_body_new BODY_IDLE_TIMEOUT 0 0 in
  let s := 1000000000 in
  (timeout_poll (29 * s) (29 * s) PolledPending b).1 = PolledPending /\
  (timeout_poll (30 * s) (30 * s) PolledPending b).1 = PolledError "body idle timeout" /\
  (timeout_poll (31 * s) (31 * s) PolledPending (timeout_poll (10 * s) (10 * s) (PolledFrame (FData [])) b).2).1 = PolledPending /\
  (timeout_poll (300 * s) (300 * s) (PolledFrame (FData [])) b).1 = PolledError "body total timeout".
Proof. by vm_compute. Qed.
End FinalizeExample.
Import FinalizeExample.

Lemma vary_merged_witness :
  vary_fields (merge_vary (rp_headers answer)) =
    ["Origin"; "accept"; "Cookie"; "Accept-Encoding"; "Accept-Language"; "User-Agent"] /\
  Forall (fun field => listed field (vary_fields (merge_vary (rp_headers answer))) = true) VARY_FIELDS.
Proof.
  pose proof (vary_merged (rp_headers answer)) as H. cbv zeta in H.
  change (existsb (String.eqb "*") (vary_fields (rp_headers answer))) with false in H.
  destruct H as (_ & Hf & Hl & _). split; [exact Hf|exact Hl].
Defined.

Lemma origin_sees_no_state_witness :
  (backend, sent_out) ∈ fi_sent (finished TNone) /\ get_all "cookie" (og_headers sent_out) = ["theme=dark"] /\
  Forall (cookie_free (cookie_name Plain.hash "a.example")) (get_all "cookie" (og_headers sent_out)) /\
  param_free (uri_query (og_uri sent_out)).
Proof.
  assert (Hs : fi_sent (finished TNone) = [(backend, sent_out)]) by vm_refl.
  assert (Hin : (backend, sent_out) ∈ fi_sent (finished TNone)) by (rewrite Hs; apply list_elem_of_singleton; reflexivity).
  split; [exact Hin|]. split; [vm_refl|].
  refine (proj2 (proj2 (origin_sees_no_state fragment_text (fun _ _ => Some answer) "00112233445566aa" Plain.hash [9] pool
    (Some (replicate 12 0)) (fc true) TNone cs request backend sent_out _ _ _ _ _ Hin))).
  - vm_refl.
  - by repeat constructor.
  - by repeat constructor.
  - intros query _. eexists. reflexivity.
  - exact I.
Defined.

Lemma finalize_answers_witness :
  fi_outcome (finished TNone) <> Panicked /\ fi_outcome (finished (TDropped None)) = Reset.
Proof.
  assert (Hhost : host_parse "A.Example." = Ok {| host_text := "a.example"; host_ip := None |}) by vm_refl.
  split.
  - refine (proj1 (finalize_answers fragment_text (fun _ _ => Some answer) "00112233445566aa" Plain.hash [9] pool
      (Some (replicate 12 0)) (fc true) TNone cs request _ _ Hhost _)). done.
  - refine (proj2 (proj2 (finalize_answers fragment_text (fun _ _ => Some answer) "00112233445566aa" Plain.hash [9] pool
      (Some (replicate 12 0)) (fc true) (TDropped None) cs request _ _ Hhost _)) _); [done|]. split; [by exists None|done].
Defined.

Lemma personal_replies_private_witness :
  fi_outcome (finished TNone) = Replied reply_out /\ rp_status reply_out = 200 /\
  (get_all "cache-control" (rp_headers reply_out) = [PRIVATE] \/ reply_out = reply_of (body_status 500)).
Proof.
  assert (Hr : fi_outcome (finished TNone) = Replied reply_out) by vm_refl.
  split; [exact Hr|]. split; [vm_refl|].
  refine (personal_replies_private fragment_text (fun _ _ => Some answer) "00112233445566aa" Plain.hash [9] pool
    (Some (replicate 12 0)) (fc true) TNone cs request reply_out _ _ Hr); [left; reflexivity|left; discriminate].
Defined.

Lemma fragments_follow_witness :
  let r' := inject_fragments fragment_text [FWidget "pow" 7] answer in
  payload_data (fun _ => []) (rp_body r') = [104; 101; 108; 108; 111] ++ string_bytes "<!-- -->" /\
  content_length (rp_headers r') = Some 13.
Proof.
  pose proof (fragments_follow fragment_text (fun _ => []) [FWidget "pow" 7] answer) as H. cbv zeta in H.
  change (injectable answer) with true in H. destruct H as (_ & Hd & Hl & _). split; [exact Hd|].
  apply Hl. vm_refl.
Defined.
