(* ===== verification/Pipeline.v ===== *)
(** * The request pipeline

    [handle_request] of [crates/bagel-web/src/server/pipeline.rs] from the request a
    connection hands over to the reply and what reached a backend, with
    [request_context], [classify_request], [StateInner::client_ip] and
    [ConditionContext::from_request]. The state of the server is that of [Reload];
    what lives behind its locations is a [Plane], which requests change. *)

From S2P Require Import Prelude Core ThirdParty Strings Ip Bytes Url Host.
From S2P Require Import Proto Wire Http2 Tls Traps Rate Rule Scoring.
From S2P Require Import Pending Maze Condition Census Challenge TlsEdge Proxy WebConfig.
From S2P Require Import State Reload Session Evaluate Finalize.

Local Open Scope N_scope.

(** ** A request *)

Record ConnectionPeer : Type := { cp_transport : option SocketAddr; cp_forwarded : option SocketAddr }.
Inductive HttpVersion : Type := Http09 | Http10V | Http11V | Http2V | Http3V | HttpOther.
Definition version_text (v : HttpVersion) : string :=
  match v with
  | Http09 => "HTTP/0.9" | Http10V => "HTTP/1.0" | Http11V => "HTTP/1.1" | Http2V => "HTTP/2.0"
  | Http3V => "HTTP/3.0" | HttpOther => "unknown"
  end.

(** [RateTracker::peek]. *)
Definition tracker_peek {K} `{!EqDecision K} (hash : K -> N) (t : RateTracker K) (k : K) (tick : N) : RateSnapshot :=
  peek_at (default shard_default (shards t !! N.to_nat (hash k mod SHARD_COUNT))) k tick.

Section Pipeline.
Context {RX : RegexApi} {RSA : RegexSetApi} {RE : RegexExpand} {RG : RegexGroups} {RH : RhaiApi} {SC : ScopeApi}.
Context {U : UriApi} {UP : UriParts} {UR : UriRewrite} {HA : HeaderApi} {HT : HeaderText}.
Context {NA : IpNetworkApi} {MA : MazeApi} {SA : SealApi}.
Context {Key Trie : Type}.
Notation Networks := (gmap string Trie).
(** [IpNetTrie::contains], hashes and decoders of other crates. *)
Variable trie_contains : Trie -> IpAddr -> bool.
Variables (sha1 : list N -> list N) (sha256 : list N -> N).
Variables (base64_decode : string -> option (list N)) (hex_decode : list N -> option (list N)).

Notation ServerState := (StateInner (Key := Key) (Networks := Networks)).
Notation policy_config s := (si_config s).

(** A request with what its connection knows: its ends, what was seen of its
    handshakes, and whether it can be reset. *)
Record HttpRequest : Type := {
  hr_method : string; hr_uri : Uri; hr_version : HttpVersion; hr_headers : Headers;
  hr_peer : option ConnectionPeer; hr_tls : option TlsFingerprint; hr_http2 : option (Capture Http2Fingerprint);
  hr_addr : option SocketAddr; hr_drop_handle : bool }.
Definition header_text (name : string) (h : Headers) : option string := head (get_all name h) ≫= header_to_str.
Definition to_proxy (req : HttpRequest) : Request :=
  {| Proxy.rq_uri := hr_uri req; rq_headers := hr_headers req; rq_addr := hr_addr req; rq_tls := hr_tls req |}.

(** [StateInner::client_ip]. *)
Definition state_client_ip (policy : ClientIpPolicy) (peer : IpAddr) (req : HttpRequest) : IpAddr :=
  match hr_peer req ≫= cp_forwarded with
  | Some source => sa_ip source
  | None =>
      match header policy with
      | None => resolve policy peer None
      | Some name =>
          let joined := str_join ", " (omap header_to_str (get_all name (hr_headers req))) in
          resolve policy peer (if str_is_empty joined then None else Some joined)
      end
  end.

(** [capture_client_tls] on a request. *)
Definition with_client_tls (s : ServerState) (addr : SocketAddr) (req : HttpRequest) : HttpRequest :=
  let transport := transport_ip ((fun peer => sa_ip <$> cp_transport peer) <$> hr_peer req) (sa_ip addr) in
  let '(tls, h) :=
    capture_client_tls sha256 header_to_str base64_decode hex_decode (wc_client_tls_header (si_config s))
      (trusts (cp_client_ip (si_compiled s)) transport) (hr_tls req) (hr_headers req) in
  {| hr_method := hr_method req; hr_uri := hr_uri req; hr_version := hr_version req; hr_headers := h;
     hr_peer := hr_peer req; hr_tls := tls; hr_http2 := hr_http2 req; hr_addr := hr_addr req;
     hr_drop_handle := hr_drop_handle req |}.
(** And the address put in its place. *)
Definition captured (s : ServerState) (addr : SocketAddr) (resolved : IpAddr) (req : HttpRequest) : HttpRequest :=
  let req := with_client_tls s addr req in
  {| hr_method := hr_method req; hr_uri := hr_uri req; hr_version := hr_version req; hr_headers := hr_headers req;
     hr_peer := hr_peer req; hr_tls := hr_tls req; hr_http2 := hr_http2 req;
     hr_addr := Some {| sa_ip := resolved; sa_port := sa_port addr |}; hr_drop_handle := hr_drop_handle req |}.

(** ** The context of conditions *)

(** The header map as a map: the last value of a name, empty when it is not text. *)
Definition header_map (h : Headers) : gmap string string :=
  foldl (fun m kv => <[kv.1 := default "" (header_to_str kv.2)]> m) ∅ h.
Definition http2_fields (capture : Capture Http2Fingerprint) : gmap string string :=
  match capture with Complete connection => http2_policy_fields connection | _ => ∅ end.
(** [ConditionContext::from_request]. *)
Definition from_request (req : HttpRequest) : ConditionContext :=
  let headers := header_map (hr_headers req) in
  let ua := default "" (headers !! "user-agent") in
  let tls := default tls_default (hr_tls req) in
  let http2 := default Unavailable (hr_http2 req) in
  {| host := default "" (headers !! "host"); method := hr_method req; path := uri_path (hr_uri req);
     query := default "" (uri_query (hr_uri req)); user_agent := ua;
     remote_address := match hr_addr req with Some sa => show_ip (sa_ip sa) | None => "" end;
     remote_ip := sa_ip <$> hr_addr req; http_version := version_text (hr_version req); headers := headers;
     fp := http2_fields http2 ∪ <["http2_status" := show_capture http2]> (tls_policy_fields sha1 sha256 tls);
     fp_identity := hr_tls req ≫= identity sha256; stack := hr_tls req ≫= tls_stack sha1; claim := claim_parse ua;
     census := None; probe := None; pow_level := None; probe_census := None; network_results := ∅; rate := None;
     solves := None; visit := None; poison_returned := false; crawler_verified := false; lease_active := false;
     trap := None |}.

(** The passes of a token, in the order its table yields them. *)
Definition passes (t : Token) : list TokenChallenge := (map_to_list (tk_state t)).*2.
Definition token_pow_level (now : Z) (t : Token) : option N :=
  foldl (fun best p => Some (match best with Some b => b `max` tc_level p | None => tc_level p end)) None
    (List.filter (fun p => tc_ok p && (0 <? tc_level p) && (now <? tc_exp p)%Z) (passes t)).
(** [max_by_key] keeps the last of equal keys. *)
Definition latest_pass (l : list TokenChallenge) : option TokenChallenge :=
  foldl (fun best p => match best with
                       | Some b => if (tc_iat b <=? tc_iat p)%Z then Some p else Some b
                       | None => Some p
                       end) None l.
Definition token_probe (t : Token) : option N :=
  p ← latest_pass (List.filter (fun p => tc_ok p && (length (tc_result p) =? 16)%nat) (passes t));
  Some (of_be_bytes (drop 8 (tc_result p))).

(** [classify_request]. *)
Definition no_verdict : TrapVerdict := {| trap_reason := None; trap_category := None |}.
Definition classify_request (c : Classifier) (req : HttpRequest) (ip : IpAddr) : TrapVerdict :=
  match trap_classify c (uri_path (hr_uri req)) (header_text "user-agent" (hr_headers req)) ip with
  | VProxy | VTarpit TrapRate => no_verdict
  | VTarpit (TrapPath _) =>
      {| trap_reason := Some "path";
         trap_category := Category.category_label <$> categorize (decode_path (uri_path (hr_uri req))) |}
  | VTarpit (TrapUserAgent _) => {| trap_reason := Some "user_agent"; trap_category := Some "scraper" |}
  | VTarpit (TrapImpersonator _) => {| trap_reason := Some "impersonator"; trap_category := Some "scraper" |}
  end.

(** ** What requests share *)

(** The contents of the state's locations, with the offenses and the requests for tags
    that were sent. *)
Record Plane : Type := {
  pl_rate : RateTracker RateKey; pl_solve : RateTracker RateKey; pl_census : Generations; pl_visits : VisitTracker;
  pl_poison : PoisonStore; pl_wildcards : gmap string (option MazeTable); pl_pending : PendingChallenges;
  pl_slots : N; pl_offenses : list Offense; pl_tags : TagCache; pl_asked : list TagRequest }.
(** What a request finds outside: the hooks of the daemon, clocks, hash, the crawler
    verifier, and the rest of what evaluation reads. The instants are those of the
    reads and of the writes of stores that lock twice. *)
Record Env : Type := {
  ev_classifier : option Classifier; ev_leases : option (IpAddr -> bool); ev_crawler : option (IpAddr -> bool);
  ev_now : Z; ev_tick : N; ev_instant : N; ev_instant' : N; ev_hash : RateKey -> N; ev_outside : Req;
  ev_seal_random : option (list N); ev_bagel_id : string }.

Definition with_visits (p : Plane) (v : VisitTracker) : Plane := {|
  pl_rate := pl_rate p; pl_solve := pl_solve p; pl_census := pl_census p; pl_visits := v; pl_poison := pl_poison p;
  pl_wildcards := pl_wildcards p; pl_pending := pl_pending p; pl_slots := pl_slots p; pl_offenses := pl_offenses p;
  pl_tags := pl_tags p; pl_asked := pl_asked p |}.
Definition with_rate (p : Plane) (r : RateTracker RateKey) : Plane := {|
  pl_rate := r; pl_solve := pl_solve p; pl_census := pl_census p; pl_visits := pl_visits p; pl_poison := pl_poison p;
  pl_wildcards := pl_wildcards p; pl_pending := pl_pending p; pl_slots := pl_slots p; pl_offenses := pl_offenses p;
  pl_tags := pl_tags p; pl_asked := pl_asked p |}.
Definition with_census (p : Plane) (c : Generations) : Plane := {|
  pl_rate := pl_rate p; pl_solve := pl_solve p; pl_census := c; pl_visits := pl_visits p; pl_poison := pl_poison p;
  pl_wildcards := pl_wildcards p; pl_pending := pl_pending p; pl_slots := pl_slots p; pl_offenses := pl_offenses p;
  pl_tags := pl_tags p; pl_asked := pl_asked p |}.
Definition with_wildcards (p : Plane) (w : gmap string (option MazeTable)) : Plane := {|
  pl_rate := pl_rate p; pl_solve := pl_solve p; pl_census := pl_census p; pl_visits := pl_visits p;
  pl_poison := pl_poison p; pl_wildcards := w; pl_pending := pl_pending p; pl_slots := pl_slots p;
  pl_offenses := pl_offenses p;
  pl_tags := pl_tags p; pl_asked := pl_asked p |}.

Variable s : ServerState.
Variable ev : Env.

(** ** [request_context] *)

(** A page is asked for, or it is not known what is. *)
Definition asks_document (h : Headers) : bool :=
  match header_text "sec-fetch-dest" h with Some dest => String.eqb dest "document" | None => true end.
Definition observed_visit (t : option Token) (h : Headers) (p : Plane) : option VisitSnapshot * Plane :=
  match t with
  | Some t =>
      let '(snap, v) := visits_record (session t) (asks_document h) (ev_instant ev) (ev_instant' ev) (pl_visits p) in
      (Some snap, with_visits p v)
  | None => (None, p)
  end.
Definition observed_rate (hst : string) (network : SourceNetwork) (p : Plane) : RateSnapshot * Plane :=
  let '(snap, r) := tracker_record (ev_hash ev) (pl_rate p) (hst, network) (ev_tick ev) in (snap, with_rate p r).
(** One count of the census, where there is a claim and something to count it with. *)
Definition observed_census (claim : option Claim) (fingerprint : option string) (network : SourceNetwork) (p : Plane) :
    option CensusSnapshot * Plane :=
  match claim, fingerprint with
  | Some claim, Some fingerprint =>
      let '(snap, c) := observe (claim_key claim) fingerprint network (ev_instant ev) (pl_census p) in
      (snap, with_census p c)
  | _, _ => (None, p)
  end.
(** [StateInner::poison_returned], which looks the host up again. *)
Definition observed_poison (hst : string) (network : SourceNetwork) (p : Plane) : bool * Plane :=
  let '(lookup, w) := state_maze_lookup s hst (pl_wildcards p) in
  (Maze.poison_returned lookup hst network (ev_instant ev) (pl_poison p), with_wildcards p w).

Definition challenge_state (req : HttpRequest) (hst : string) (ip : IpAddr) : RequestChallengeState :=
  from_headers sha256 (si_seed s) (ev_now ev) (omap header_to_str (get_all "cookie" (hr_headers req))) hst (Some ip).

(** For a client whose address resolved, as in [handle_request]; the crawlers' verdict
    is filled in where the verifier is. *)
Definition request_context (req : HttpRequest) (hst : string) (ip : IpAddr) (p : Plane) :
    RequestChallengeState * ConditionContext * Plane :=
  let cs := challenge_state req hst ip in
  let network := from_ip ip in
  let base := from_request req in
  let probe := token cs ≫= token_probe in
  let '(visit, p) := observed_visit (token cs) (hr_headers req) p in
  let '(rate, p) := observed_rate hst network p in
  let solves := tracker_peek (ev_hash ev) (pl_solve p) (hst, network) (ev_tick ev) in
  let '(poison, p) := observed_poison hst network p in
  let '(census, p) := observed_census (claim base) (fp_identity base) network p in
  let '(probe_census, p) := observed_census (claim base) ((fun n => "probe:" +:+ hex16 n) <$> probe) network p in
  (cs,
   {| host := hst; method := method base; path := path base; query := query base; user_agent := user_agent base;
      remote_address := show_ip ip; remote_ip := Some ip; http_version := http_version base; headers := headers base;
      fp := fp base; fp_identity := fp_identity base; stack := stack base; claim := claim base; census := census;
      probe := probe; pow_level := token cs ≫= token_pow_level (ev_now ev); probe_census := probe_census;
      network_results := (fun trie => trie_contains trie ip) <$> si_networks s; rate := Some rate;
      solves := Some solves; visit := visit; poison_returned := poison;
      crawler_verified := match ev_crawler ev with Some verify => verify ip | None => false end;
      lease_active := match ev_leases ev with Some contains => contains ip | None => false end;
      trap := (fun c => classify_request c req ip) <$> ev_classifier ev |},
   p).

(** ** Mazes *)

Definition answered (r : Reply) : Finished := {| fi_sent := []; fi_outcome := Replied r |}.
(** [maze_envelope]. *)
Definition maze_envelope (html : string) (head_only : bool) : Reply := {|
  rp_status := 200;
  rp_headers := [("content-type", "text/html; charset=utf-8"); ("cache-control", "no-store");
                 ("referrer-policy", "no-referrer"); ("content-length", show_N (N.of_nat (String.length html)))];
  rp_body := if head_only then PPage BEmpty else PBytes (string_bytes html) |}.
(** The page [render_maze] makes, by itself or by an external renderer. *)
Variable render_maze : MazeServe -> Served -> string.

(** The maze a path is in: that of the prefix that is its first segment. *)
Definition first_segment (raw_path : string) : option string :=
  path ← strip_prefix "/" raw_path; head (str_split "/" path).
Definition maze_route (table : MazeTable) (raw_path : string) : option MazeRuntime :=
  segment ← first_segment raw_path; table !! segment.
Definition get_or_head (m : string) : bool := String.eqb m "GET" || String.eqb m "HEAD".
Definition maze_request (runtime : MazeRuntime) (hst : string) (ip : IpAddr) (req : HttpRequest) : MazeServe :=
  {| ms_runtime := runtime; ms_host := hst; ms_client_ip := Some ip; ms_source := Some (from_ip ip);
     ms_readable := get_or_head (hr_method req); ms_raw_path := uri_path (hr_uri req) |}.
(** [serve_maze] with its reply. *)
Definition maze_offense (runtime : MazeRuntime) (hst : string) (ip : IpAddr) : Offense := {|
  of_address := ip; of_network := from_ip ip; of_host := hst; of_rule := Some (mr_name runtime);
  of_detail := "valid_return"; of_kind := OPoisonReturn; of_group_key := None |}.
Definition answer_maze (runtime : MazeRuntime) (hst : string) (ip : IpAddr) (req : HttpRequest) (p : Plane) :
    Finished * Plane :=
  let ms := maze_request runtime hst ip req in
  let served := serve_maze ms (Z.to_N (ev_now ev mod 2 ^ 64)) (ev_instant ev) (ev_instant' ev) (pl_poison p) in
  (answered (maze_envelope (render_maze ms served) (String.eqb (hr_method req) "HEAD")),
   {| pl_rate := pl_rate p; pl_solve := pl_solve p; pl_census := pl_census p; pl_visits := pl_visits p;
      pl_poison := se_poison served; pl_wildcards := pl_wildcards p; pl_pending := pl_pending p;
      pl_slots := pl_slots p;
      pl_offenses := pl_offenses p ++
        (if se_offense served && rq_offense_sink (ev_outside ev) then [maze_offense runtime hst ip] else []);
      pl_tags := pl_tags p; pl_asked := pl_asked p |}).

(** ** [handle_request] *)

Variable fragment_text : Fragment -> string.
Variable exchange : Backend -> Outgoing -> option Reply.

(** What evaluation reads, of the request, the state and the outside. *)
Definition evaluation_request (req : HttpRequest) (hst : string) : Req :=
  let out := ev_outside ev in {|
  rq_host := hst; rq_path := uri_path (hr_uri req); Evaluate.rq_uri := uri_show (hr_uri req);
  rq_user_agent := default "unknown" (header_text "user-agent" (hr_headers req));
  rq_now := ev_now ev; rq_tick := ev_tick ev; rq_instant := ev_instant ev;
  rq_registry := cp_challenges (si_compiled s); rq_fingerprint := rq_fingerprint out; rq_revision := si_revision s;
  rq_sha256 := sha256; rq_hash := ev_hash ev; rq_session := rq_session out; rq_draws := rq_draws out;
  rq_dnsbl := rq_dnsbl out; rq_maze := rq_maze out; rq_lure := rq_lure out; rq_smear := rq_smear out;
  rq_offense_sink := rq_offense_sink out;
  rq_target := be_target <$> pool_select (cp_backends (si_compiled s)) hst; rq_origin := rq_origin out |}.

Definition evaluation_world (cs : RequestChallengeState) (ctx : ConditionContext) (p : Plane) : Evaluate.World := {|
  w_scope := ctx_scope ctx; w_cs := cs; Evaluate.w_pending := pl_pending p; w_slots := pl_slots p;
  w_offenses := pl_offenses p; w_tags := pl_tags p; w_asked := pl_asked p |}.
(** The decision, and the offense it is recorded as. *)
Definition decide (req : HttpRequest) (hst : string) (cs : RequestChallengeState) (ctx : ConditionContext) (p : Plane) :
    Terminal * Evaluate.World :=
  let rq := evaluation_request req hst in
  let w := evaluation_world cs ctx p in
  let scoring := cp_scoring (si_compiled s) in
  let rules := cp_rules (si_compiled s) in
  let score := match scoring with Some st => (scoring_evaluate st (w_scope w)).1 | None => None end in
  let w1 := match scoring with Some st => set_scope w (scoring_evaluate st (w_scope w)).2 | None => w end in
  let rules_terminal := (eval_rules rq ctx rules w1).1 in
  let '(t, st, w) := decide_request rq scoring rules ctx w in
  (t, decision_offense rq ctx rules_terminal t st score w).

(** A request that is neither refused nor a maze's nor passed through. *)
Definition evaluate_and_finish (backend : Backend) (canonical : CanonicalHost) (ip : IpAddr) (req : HttpRequest)
    (p : Plane) : Finished * Plane :=
  let hst := host_text canonical in
  let '(cs, ctx, p) := request_context req hst ip p in
  let '(terminal, w) := decide req hst cs ctx p in
  (finalize_response fragment_text exchange (ev_bagel_id ev) sha256 (si_seed s) (cp_backends (si_compiled s))
     (ev_seal_random ev)
     {| fc_backend := backend; fc_host := hst; fc_host_is_ip := is_some (host_ip canonical); fc_client_ip := Some ip;
        fc_drop_handle := hr_drop_handle req |}
     terminal (w_cs w) (to_proxy req),
   {| pl_rate := pl_rate p; pl_solve := pl_solve p; pl_census := pl_census p; pl_visits := pl_visits p;
      pl_poison := pl_poison p; pl_wildcards := pl_wildcards p; pl_pending := Evaluate.w_pending w; pl_slots := w_slots w;
      pl_offenses := w_offenses w; pl_tags := w_tags w; pl_asked := w_asked w |}).

Definition no_backend : Reply :=
  reply_of (body_html 503 (BErrorPage "Service Unavailable" "No backend configured for this host.")).
Definition newline : string := bytes_string [10].
Definition handle_request (addr : SocketAddr) (req : HttpRequest) (p : Plane) : Finished * Plane :=
  match canonicalize_authority (uri_authority (hr_uri req)) (header_text "host" (hr_headers req)) with
  | Err _ => (answered (reply_of (body_text 400 ("invalid request authority" +:+ newline))), p)
  | Ok canonical =>
      let hst := host_text canonical in
      let ip := state_client_ip (cp_client_ip (si_compiled s)) (sa_ip addr) req in
      let req := captured s addr ip req in
      match pool_select (cp_backends (si_compiled s)) hst with
      | None => (answered no_backend, p)
      | Some backend =>
          let '(lookup, wildcards) := state_maze_lookup s hst (pl_wildcards p) in
          let p := with_wildcards p wildcards in
          match lookup with
          | Refused => (answered (reply_of (body_text 503 ("service unavailable" +:+ newline))), p)
          | NoMazes | Table _ =>
              match (match lookup with Table table => maze_route table (uri_path (hr_uri req)) | _ => None end) with
              | Some runtime => answer_maze runtime hst ip req p
              | None =>
                  if bd_passthrough (wc_bind (si_config s)) then
                    let '(sent, reply) := proxy exchange (ev_bagel_id ev) backend (to_proxy req) in
                    ({| fi_sent := sent; fi_outcome := Replied reply |}, p)
                  else evaluate_and_finish backend canonical ip req p
              end
          end
      end
  end.
End Pipeline.
