(* ===== verification/PipelineFacts.v ===== *)
(** * What the pipeline keeps

    A maze route is served apart from the policy, a request is counted once and sent
    at most once, and a challenge in front of a policy stands between every client
    and every backend. *)

From S2P Require Import Prelude Core ThirdParty Strings Ip Bytes Url Host.
From S2P Require Import Proto Wire Http2 Tls Traps Rate Rule Scoring.
From S2P Require Import Pending Maze Condition Census Challenge TlsEdge Proxy WebConfig.
From S2P Require Import State Reload Session Evaluate Finalize Pipeline.
From S2P Require Import MazeFacts ProxyFacts StateFacts Kdl Policy.

Local Open Scope N_scope.

(** ** Challenges end a request *)

Section Ending.
Context {RX : RegexApi} {RE : RegexExpand} {HA : HeaderApi} {RH : RhaiApi} {SA : ScopeApi}.
Context {U : UriApi} {UP : UriParts} {HT : HeaderText} {RG : RegexGroups}.
Variable req : Req.

Lemma sub_action_ends a w : (dispatch_sub_action req a w).1 <> Continue.
Proof. destruct a; cbn; try done. unfold smear_response. by destruct (_ =? _). Qed.
Lemma challenge_ends ip stack code override pass fail names w :
  (challenge_loop req ip stack code override pass fail false names w).1 <> Continue.
Proof.
  revert w. induction names as [|name names IH]; intros w; cbn [challenge_loop]; [apply sub_action_ends|].
  destruct (rq_registry req !! name) as [reg|]; [|apply IH]. cbv zeta.
  destruct (already_passed _ _ _ _ _ _ _ _ _); [apply IH|].
  destruct (challenge_tags req reg w) as [[[meta links] wt]|]; [|done].
  destruct (issue_key req name reg ip _ wt) as [[key|resp] w1]; [|done]. cbn [andb].
  destruct (runtime_issue _ _ _ _ _ _ _ _); [|apply sub_action_ends|done|apply IH].
  destruct (issue_challenge _ _ _ _ _ _) as [[u|e] cs]; [apply IH|done].
Qed.

(** What evaluation asks of the origin by itself: its root, for the tags of its page. *)
Definition for_tags (r : TagRequest) : Prop :=
  exists target uri host, rq_target req = Some target /\ uri_parse (origin_root target) = Some uri /\
    header_value (rq_host req) = Some host /\ r = tag_request uri host.
Definition asks (w w' : World) : Prop := exists l, w_asked w' = w_asked w ++ l /\ Forall for_tags l.
#[export] Instance asks_preorder : PreOrder asks.
Proof.
  split.
  - intros w. exists []. by rewrite app_nil_r.
  - intros w1 w2 w3 (l & H & Hl) (k & H' & Hk). exists (l ++ k). rewrite H', H, app_assoc. split; [done|]. by apply Forall_app.
Qed.
Lemma asks_same w w' : w_asked w' = w_asked w -> asks w w'.
Proof. intros H. exists []. by rewrite H, app_nil_r. Qed.
Lemma fetch_tags_asks host cache target now tags cache' asked :
  fetch_tags (rq_origin req) host cache target now = Some (tags, cache', asked) ->
  match asked with
  | Some r => exists uri hv, uri_parse (origin_root target) = Some uri /\ header_value host = Some hv /\ r = tag_request uri hv
  | None => True
  end.
Proof.
  unfold fetch_tags. destruct (decay_get host now cache); [by intros [= _ _ <-]|].
  destruct (uri_parse _) as [uri|] eqn:Eu; [|by intros [= _ _ <-]]. destruct (header_value host) as [hv|] eqn:Eh; [|by intros [= _ _ <-]].
  intros H. assert (Ha : asked = Some (tag_request uri hv)).
  { destruct (rq_origin req _) as [|ct body]; [by injection H|]. destruct (negb _); [by injection H|].
    destruct body; [|by injection H]. destruct (extract_tags _); [by injection H|done]. }
  rewrite Ha. eauto.
Qed.
Lemma challenge_tags_asks reg w meta links w' : challenge_tags req reg w = Some (meta, links, w') -> asks w w'.
Proof.
  unfold challenge_tags. destruct (class reg), (rq_target req) as [target|] eqn:Et; try by intros [= _ _ <-].
  destruct (fetch_tags _ _ _ _ _) as [[[tags cache] asked]|] eqn:E; [|done]. cbn. intros [= _ _ <-].
  apply fetch_tags_asks in E. exists (option_list asked). split; [done|]. destruct asked as [r|]; [|by constructor].
  destruct E as (uri & hv & Hu & Hh & ->). apply Forall_singleton. by exists target, uri, hv.
Qed.
Lemma issue_key_asked name reg ip lvl w : w_asked (issue_key req name reg ip lvl w).2 = w_asked w.
Proof.
  unfold issue_key. destruct (redemption _), ip; try done.
  all: destruct (ensure_session _ _ _ _) as [[session|e] cs]; [|done].
  all: by destruct (issue _ _ _ _ _ _ _ _ _).
Qed.
Lemma sub_action_asked a w : w_asked (dispatch_sub_action req a w).2 = w_asked w.
Proof. destruct a; try done. cbn. unfold smear_response. by destruct (_ =? _). Qed.
Lemma challenge_loop_asks ip stack code override pass fail check names w :
  asks w (challenge_loop req ip stack code override pass fail check names w).2.
Proof.
  revert w. induction names as [|name names IH]; intros w; cbn [challenge_loop].
  { destruct check; [done|]. apply asks_same, sub_action_asked. }
  destruct (rq_registry req !! name) as [reg|]; [|apply IH]. cbv zeta.
  destruct (already_passed _ _ _ _ _ _ _ _ _); [apply IH|].
  destruct (challenge_tags req reg w) as [[[meta links] wt]|] eqn:Et; [|done].
  apply challenge_tags_asks in Et. rewrite Et.
  pose proof (issue_key_asked name reg ip (required_level reg override) wt) as Hk. apply asks_same in Hk.
  destruct (issue_key req name reg ip _ wt) as [[key|resp] w1]; cbn [snd] in *; [|done]. rewrite Hk.
  destruct (check && _); [rewrite <-IH; by apply asks_same|].
  destruct (runtime_issue _ _ _ _ _ _ _ _); [|destruct check; [apply IH|apply asks_same, sub_action_asked]|by destruct check|apply IH].
  destruct (issue_challenge _ _ _ _ _ _) as [[u|e] cs]; [|by apply asks_same]. rewrite <-IH. by apply asks_same.
Qed.
Lemma eval_children_asks eval pending l w :
  Forall (fun child => forall w, asks w (eval child w).2) l -> asks w (eval_children eval pending l w).2.
Proof.
  intros H. revert w. induction H as [|child l Hc _ IH]; intros w; [done|]. cbn. specialize (Hc w).
  destruct (eval child w) as [[|r|] w1]; cbn [snd] in *; [by rewrite Hc|done..].
Qed.
Lemma rule_holds_asked c w : w_asked (rule_holds c w).2 = w_asked w.
Proof. destruct c as [ast|]; [|done]. cbn. by destruct (eval_ast_with_scope _ _) as [[]]. Qed.
Lemma emit_offense_asked ip rule detail kind key w : w_asked (emit_offense req ip rule detail kind key w) = w_asked w.
Proof. destruct ip; [|done]. cbn. by destruct (rq_offense_sink req). Qed.
Lemma evaluate_rule_asks ctx headers rule w : asks w (evaluate_rule req ctx headers rule w).2.
Proof.
  revert ctx headers w. induction rule as [rule IH] using rule_state_ind. intros ctx headers w.
  destruct rule as [name condition action children]. cbn [Rule.children] in IH.
  cbn [evaluate_rule Rule.condition Rule.action Rule.name Rule.children].
  pose proof (rule_holds_asked condition w) as Hh. destruct (rule_holds condition w) as [holds w1]. cbn [snd] in Hh.
  apply asks_same in Hh. rewrite Hh. clear Hh. destruct holds; [|done]. cbn [negb].
  destruct action; cbn [snd]; try done.
  - apply eval_children_asks. eapply Forall_impl; [exact IH|]. auto.
  - unfold smear_response. destruct (_ =? _); [done|by apply asks_same].
  - destruct (rq_lure req maze); [by apply asks_same|done].
  - destruct (token (w_cs w1)); [|done]. destruct (match visit ctx with Some v => _ | None => _ end); [done|by apply asks_same].
  - set (child := with_request_headers ctx request_headers). set (merged := header_extend request_headers headers).
    pose proof (eval_children_asks (evaluate_rule req child merged) (Some (merged, response_headers)) children
      (set_scope w1 (ctx_scope child))) as H.
    destruct (eval_children _ _ _ _) as [o w']. cbn [snd] in *. apply H. eapply Forall_impl; [exact IH|]. auto.
  - destruct ca. apply challenge_loop_asks.
  - destruct ca. apply challenge_loop_asks.
  - apply asks_same, emit_offense_asked.
Qed.
Lemma eval_rules_asks ctx rules w : asks w (eval_rules req ctx rules w).2.
Proof.
  revert w. induction rules as [|rule rules IH]; intros w; [done|]. cbn.
  pose proof (evaluate_rule_asks ctx [] rule w) as H. destruct (evaluate_rule req ctx [] rule w) as [[|r|] w1]; cbn [snd] in *; [by rewrite H|done..].
Qed.
Lemma candidate_asks ctx a w : asks w (apply_candidate_action req ctx a w).2.
Proof.
  destruct a; cbn [apply_candidate_action]; try done; try (apply asks_same, sub_action_asked).
  destruct ca. apply challenge_loop_asks.
Qed.
Lemma decide_request_asks scoring rules ctx w : asks w (decide_request req scoring rules ctx w).2.
Proof.
  unfold decide_request.
  assert (H : forall score (w1 : World), asks w w1 -> asks w (
    let '(t, w) := eval_rules req ctx rules w1 in
    let st := candidate_status score t in
    match st, r ← score; candidate r with
    | Applied, Some threshold =>
        match apply_candidate_action req ctx (th_action threshold) w with
        | (Continue, w) => (t, st, w)
        | (Handled r, w) => (THandled r, st, w)
        | (Drop, w) => (TDropped None, st, w)
        end
    | _, _ => (t, st, w)
    end).2).
  { intros score w1 H1. pose proof (eval_rules_asks ctx rules w1) as H2. destruct (eval_rules req ctx rules w1) as [t w2].
    cbn [snd] in H2. rewrite H1, H2. cbv zeta. destruct (candidate_status score t), (r ← score; candidate r) as [th|]; try done.
    pose proof (candidate_asks ctx (th_action th) w2) as H3. by destruct (apply_candidate_action _ _ _ _) as [[|r|] w3]. }
  destruct scoring as [st|]; [|by apply H]. destruct (scoring_evaluate st (w_scope w)) as [score scope]. apply H. by apply asks_same.
Qed.
Lemma decision_offense_asks ctx t0 t st score w : asks w (decision_offense req ctx t0 t st score w).
Proof. apply asks_same. unfold decision_offense. repeat case_match; done || apply emit_offense_asked. Qed.

Lemma tagged_proxied o rule action : proxied (tagged o rule action) = proxied o.
Proof. destruct o as [|r|]; [done| |done]. cbn. by destruct (terminal_info r). Qed.
Lemma tagged_continue o rule action : tagged o rule action = Continue -> o = Continue.
Proof. destruct o as [|r|]; [done| |done]. cbn. by destruct (terminal_info r). Qed.

(** A challenge without a condition in front of the rules decides every request that
    goes on: whatever is behind it, the scorecard included, is not reached. *)
Lemma front_challenge_decides scoring rule rest ctx w challenges code override pass fail :
  condition rule = None -> action rule = AChallenge (MkChallengeAction challenges code override pass fail) ->
  sub_action_wf fail -> fail <> APass ->
  let '(t, st, w') := decide_request req scoring (rule :: rest) ctx w in
  goes_on t = true -> Forall (cleared req (remote_ip ctx) (stack ctx) override (w_cs w)) challenges.
Proof.
  intros Hcond Hact Hwf Hfail. unfold decide_request.
  set (sw := match scoring with Some st => _ | None => _ end).
  assert (Hcs : w_cs sw.2 = w_cs w).
  { subst sw. destruct scoring as [st|]; [|done]. by destruct (scoring_evaluate st (w_scope w)). }
  destruct sw as [score w0]. cbn [snd] in Hcs. cbn [eval_rules].
  assert (He : evaluate_rule req ctx [] rule w0 =
    (tagged (challenge_loop req (remote_ip ctx) (stack ctx) code override pass fail false challenges w0).1 (name rule)
       (label (action rule)), (challenge_loop req (remote_ip ctx) (stack ctx) code override pass fail false challenges w0).2)).
  { destruct rule as [n c a ch]. cbn in Hcond, Hact. subst c a. reflexivity. }
  rewrite He. destruct (challenge_loop _ _ _ _ _ _ _ _ _ _) as [o w1] eqn:El. cbn [fst snd].
  pose proof (challenge_ends (remote_ip ctx) (stack ctx) code override pass fail challenges w0) as Hends.
  rewrite El in Hends. cbn [fst] in Hends.
  assert (Hp : proxied o = true -> Forall (cleared req (remote_ip ctx) (stack ctx) override (w_cs w)) challenges).
  { rewrite <- Hcs. intros Hp. by eapply challenge_loop_guards. }
  destruct (tagged o _ _) as [|r|] eqn:Et; [by apply tagged_continue in Et| |].
  - assert (Hr : proxied (Handled r) = proxied o) by (by rewrite <- Et, tagged_proxied).
    assert (Hst : candidate_status score (THandled r) <> Applied).
    { unfold candidate_status. destruct score as [sc|]; [|done]. by destruct (candidate sc). }
    destruct (candidate_status score (THandled r)) eqn:Es; try done; intros H; apply Hp; by rewrite <- Hr.
  - assert (Hst : candidate_status score (TDropped (Some (name rule))) <> Applied).
    { unfold candidate_status. destruct score as [sc|]; [|done]. by destruct (candidate sc). }
    by destruct (candidate_status score (TDropped (Some (name rule)))).
Qed.
End Ending.

Section Facts.
Context {RX : RegexApi} {RSA : RegexSetApi} {RE : RegexExpand} {RG : RegexGroups} {RH : RhaiApi} {SC : ScopeApi}.
Context {U : UriApi} {UP : UriParts} {UR : UriRewrite} {HA : HeaderApi} {HT : HeaderText}.
Context {NA : IpNetworkApi} {MA : MazeApi} {SA : SealApi}.
Context {Key Trie : Type}.
Variable trie_contains : Trie -> IpAddr -> bool.
Variables (sha1 : list N -> list N) (sha256 : list N -> N).
Variables (base64_decode : string -> option (list N)) (hex_decode : list N -> option (list N)).
Notation ServerState := (StateInner (Key := Key) (Networks := gmap string Trie)).
Variables (s : ServerState) (ev : Env).
Variable render_maze : MazeServe -> Served -> string.
Variable fragment_text : Fragment -> string.
Variable exchange : Backend -> Outgoing -> option Reply.
Notation handle := (handle_request trie_contains sha1 sha256 base64_decode hex_decode s ev render_maze fragment_text exchange).
Notation context := (request_context trie_contains sha1 sha256 s ev).
Notation capture := (captured sha256 base64_decode hex_decode s).

(** The host a request is for, the address it comes from and the backend it is for. *)
Definition request_host (req : HttpRequest) : result string CanonicalHost :=
  canonicalize_authority (uri_authority (hr_uri req)) (header_text "host" (hr_headers req)).
Definition request_ip (addr : SocketAddr) (req : HttpRequest) : IpAddr :=
  state_client_ip (cp_client_ip (si_compiled s)) (sa_ip addr) req.
Definition request_backend (hst : CanonicalHost) : option Backend :=
  pool_select (cp_backends (si_compiled s)) (host_text hst).
Definition request_mazes (hst : CanonicalHost) (p : Plane) : MazeLookup :=
  (state_maze_lookup s (host_text hst) (pl_wildcards p)).1.
(** The maze a request is in, as far as its host has mazes. *)
Definition request_maze (hst : CanonicalHost) (req : HttpRequest) (p : Plane) : option MazeRuntime :=
  match request_mazes hst p with Table table => maze_route table (uri_path (hr_uri req)) | _ => None end.

(** What the counters of a request's plane are. *)
Definition same_counters (p p' : Plane) : Prop :=
  pl_rate p' = pl_rate p /\ pl_solve p' = pl_solve p /\ pl_census p' = pl_census p /\ pl_visits p' = pl_visits p /\
  pl_pending p' = pl_pending p /\ pl_slots p' = pl_slots p /\ pl_tags p' = pl_tags p /\ pl_asked p' = pl_asked p.

Lemma captured_uri addr ip req : hr_uri (capture addr ip req) = hr_uri req.
Proof. unfold captured, with_client_tls. by destruct (TlsEdge.capture_client_tls _ _ _ _ _ _ _ _). Qed.
Lemma captured_method addr ip req : hr_method (capture addr ip req) = hr_method req.
Proof. unfold captured, with_client_tls. by destruct (TlsEdge.capture_client_tls _ _ _ _ _ _ _ _). Qed.

(** C21: a maze is served apart from the policy. A request in a maze of its host gets a
    page of the maze, in the same envelope whatever was asked and however; no
    backend sees it, no rule, score or count does, and it leaves a mark in the poison
    memory and an offense only when its token is a valid return. *)
Theorem maze_routes_apart addr req p hst backend runtime :
  request_host req = Ok hst -> request_backend hst = Some backend -> request_maze hst req p = Some runtime ->
  let ip := request_ip addr req in
  let class := (serve_class (maze_request runtime (host_text hst) ip req) (Z.to_N (ev_now ev mod 2 ^ 64))).1 in
  let '(f, p') := handle addr req p in
  (exists html, f = answered (maze_envelope html (String.eqb (hr_method req) "HEAD"))) /\
  same_counters p p' /\
  (class <> ValidReturn -> pl_poison p' = pl_poison p /\ pl_offenses p' = pl_offenses p).
Proof.
  intros Hh Hb Hm ip class. unfold handle_request, request_host in *. rewrite Hh. cbv zeta.
  unfold request_backend in Hb. rewrite Hb. unfold request_maze, request_mazes in Hm.
  destruct (state_maze_lookup s (host_text hst) (pl_wildcards p)) as [lookup wildcards]. cbn [fst] in Hm.
  destruct lookup as [|table|]; [done| |done]. rewrite captured_uri, Hm. unfold answer_maze.
  rewrite captured_method. cbn [hr_uri hr_method]. split; [by eexists|]. split; [by split_and!|].
  intros Hc. assert (Hr : maze_request runtime (host_text hst) ip (capture addr ip req) =
                     maze_request runtime (host_text hst) ip req).
  { unfold maze_request. by rewrite captured_method, captured_uri. }
  fold (request_ip addr req) in *. fold ip. rewrite Hr. cbn [pl_poison pl_offenses with_wildcards].
  unfold serve_maze. fold class in Hc |- *. subst class.
  destruct (serve_class _ _) as [class path]. cbn [fst] in Hc.
  assert (Ha : is_authenticated class = false) by (by destruct class). rewrite Ha. cbn. by rewrite app_nil_r.
Qed.

(** *** What the context takes and leaves *)

Lemma observed_visit_rest t h p v p' :
  observed_visit ev t h p = (v, p') -> exists visits, p' = with_visits p visits.
Proof.
  unfold observed_visit. destruct t as [t|].
  - destruct (visits_record _ _ _ _ _) as [snap visits]. intros [= _ <-]. by exists visits.
  - intros [= _ <-]. exists (pl_visits p). by destruct p.
Qed.
Lemma observed_census_rest claim fingerprint network p v p' :
  observed_census ev claim fingerprint network p = (v, p') -> exists census, p' = with_census p census.
Proof.
  unfold observed_census. assert (H : exists census, p = with_census p census).
  { exists (pl_census p). by destruct p. }
  destruct claim as [claim|]; [|by intros [= _ <-]]. destruct fingerprint; [|by intros [= _ <-]].
  destruct (observe _ _ _ _ _) as [snap census]. intros [= _ <-]. by exists census.
Qed.

Lemma context_spec req hst ip p cs ctx p' :
  context req hst ip p = (cs, ctx, p') ->
  cs = challenge_state sha256 s ev req hst ip /\ remote_ip ctx = Some ip /\
  stack ctx = hr_tls req ≫= tls_stack sha1 /\
  pl_rate p' = (tracker_record (ev_hash ev) (pl_rate p) (hst, from_ip ip) (ev_tick ev)).2 /\
  pl_solve p' = pl_solve p /\ pl_poison p' = pl_poison p /\ pl_pending p' = pl_pending p /\
  pl_slots p' = pl_slots p /\ pl_offenses p' = pl_offenses p.
Proof.
  unfold request_context. destruct (observed_visit _ _ _ _) as [visit p1] eqn:E1.
  apply observed_visit_rest in E1 as [visits ->]. unfold observed_rate. cbn [pl_rate with_visits].
  destruct (tracker_record _ _ _ _) as [rate tr] eqn:Er. unfold observed_poison.
  destruct (state_maze_lookup _ _ _) as [lookup wildcards].
  destruct (observed_census _ _ _ _ _) as [census p2] eqn:E2.
  apply observed_census_rest in E2 as [c2 ->]. destruct (observed_census _ _ _ _ _) as [census' p3] eqn:E3.
  apply observed_census_rest in E3 as [c3 ->]. intros [= <- <- <-]. by split_and!.
Qed.

(** *** Once each *)

Lemma proxy_once backend req : (length (proxy exchange (ev_bagel_id ev) backend req).1 <= 1)%nat.
Proof. unfold proxy. destruct (proxy_request _ _ _); cbn; lia. Qed.
Lemma named_once pool marker req : (length (proxy_to_named exchange (ev_bagel_id ev) pool marker req).1 <= 1)%nat.
Proof.
  unfold proxy_to_named. destruct (pool_by_name _ _) as [backend|]; [|cbn; lia].
  destruct marker.2; [|apply proxy_once]. destruct (uri_rewrite _ _); [apply proxy_once|cbn; lia].
Qed.
Lemma finalize_once key pool random fc t cs req :
  (length (fi_sent (finalize_response fragment_text exchange (ev_bagel_id ev) sha256 key pool random fc t cs req)) <= 1)%nat
  /\ (fi_sent (finalize_response fragment_text exchange (ev_bagel_id ev) sha256 key pool random fc t cs req) <> [] ->
      goes_on t = true).
Proof.
  unfold finalize_response. destruct t as [|resp|rule]; [| |by (cbn; split; [lia|])].
  - pose proof (proxy_once (fc_backend fc) (cleaned_request sha256 fc cs req)) as H.
    destruct (proxy _ _ _ _) as [sent reply]. by split.
  - unfold rule_reply. cbn [goes_on proxied]. set (req' := request_with_headers _ _).
    destruct (proxy_marker resp) as [marker|].
    + pose proof (named_once pool marker req') as H. destruct (proxy_to_named _ _ _ _ _) as [sent reply].
      split; [exact H|]. by rewrite orb_true_r.
    + destruct (pass_marker resp); [|cbn; split; [lia|done]].
      pose proof (proxy_once (fc_backend fc) req') as H. destruct (proxy _ _ _ _) as [sent reply]. by split.
Qed.

(** The host and network a request counts for: one that reaches the policy. *)
Definition counted_for (addr : SocketAddr) (req : HttpRequest) (p : Plane) : option RateKey :=
  match request_host req with
  | Ok hst =>
      match request_backend hst, request_mazes hst p, request_maze hst req p with
      | Some _, (NoMazes | Table _), None =>
          if bd_passthrough (wc_bind (si_config s)) then None
          else Some (host_text hst, from_ip (request_ip addr req))
      | _, _, _ => None
      end
  | Err _ => None
  end.

Lemma handle_policed addr req p hst backend :
  request_host req = Ok hst -> request_backend hst = Some backend -> counted_for addr req p <> None ->
  exists wildcards, handle addr req p =
    evaluate_and_finish trie_contains sha1 sha256 s ev fragment_text exchange backend hst (request_ip addr req)
      (capture addr (request_ip addr req) req) (with_wildcards p wildcards).
Proof.
  intros Hh Hb. unfold counted_for. rewrite Hh, Hb. unfold handle_request. unfold request_host in Hh. rewrite Hh. cbv zeta.
  unfold request_backend in Hb. rewrite Hb. unfold request_maze, request_mazes.
  destruct (state_maze_lookup s (host_text hst) (pl_wildcards p)) as [lookup wildcards]. cbn [fst].
  destruct lookup as [|table|]; [| |done].
  - destruct (bd_passthrough _); [done|]. intros _. by exists wildcards.
  - rewrite captured_uri. destruct (maze_route _ _); [done|]. destruct (bd_passthrough _); [done|]. intros _. by exists wildcards.
Qed.

(** One request, one count and at most one message to a backend. A request is
    counted exactly once, for its canonical host and the network of its resolved
    address, when it reaches the policy - not when its authority is refused, no
    backend is configured, it is in a maze, its host's mazes cannot be built, or all
    requests are passed through - and no request is counted as solved. *)
Theorem request_counted_once addr req p :
  let '(f, p') := handle addr req p in
  (length (fi_sent f) <= 1)%nat /\ pl_solve p' = pl_solve p /\
  pl_rate p' = match counted_for addr req p with
               | Some key => (tracker_record (ev_hash ev) (pl_rate p) key (ev_tick ev)).2
               | None => pl_rate p
               end.
Proof.
  destruct (counted_for addr req p) as [key|] eqn:Ec.
  - destruct (request_host req) as [hst|e] eqn:Eh; [|by (unfold counted_for in Ec; rewrite Eh in Ec)].
    destruct (request_backend hst) as [backend|] eqn:Eb; [|by (unfold counted_for in Ec; rewrite Eh, Eb in Ec)].
    destruct (handle_policed addr req p hst backend Eh Eb) as [wildcards ->]; [by rewrite Ec|].
    assert (Hk : key = (host_text hst, from_ip (request_ip addr req))).
    { unfold counted_for in Ec. rewrite Eh, Eb in Ec. destruct (request_mazes hst p), (request_maze hst req p); try done;
        destruct (bd_passthrough _); congruence. }
    unfold evaluate_and_finish. destruct (context _ _ _ _) as [[cs ctx] p1] eqn:E.
    apply context_spec in E as (_ & _ & _ & Hr & Hs & _). destruct (decide _ _ _ _ _ _ _) as [t w].
    split; [apply finalize_once|]. split; [exact Hs|]. by rewrite Hk.
  - unfold counted_for in Ec. unfold handle_request. fold (request_host req).
    destruct (request_host req) as [hst|e]; [|cbn; by split_and!; [lia| |]]. cbv zeta. fold (request_backend hst).
    destruct (request_backend hst) as [backend|]; [|cbn; by split_and!; [lia| |]].
    unfold request_maze, request_mazes in Ec.
    destruct (state_maze_lookup s (host_text hst) (pl_wildcards p)) as [lookup wildcards]. cbn [fst] in Ec.
    rewrite captured_uri. destruct lookup as [|table|]; [| |cbn; by split_and!; [lia| |]].
    + destruct (bd_passthrough _); [|done]. pose proof (proxy_once backend (to_proxy (capture addr (request_ip addr req) req))) as H.
      unfold request_ip in H. destruct (proxy _ _ _ _) as [sent reply]. by split_and!.
    + destruct (maze_route _ _); [cbn; by split_and!; [lia| |]|]. destruct (bd_passthrough _); [|done].
      pose proof (proxy_once backend (to_proxy (capture addr (request_ip addr req) req))) as H.
      unfold request_ip in H. destruct (proxy _ _ _ _) as [sent reply]. by split_and!.
Qed.

(** ** The gate *)

(** The policy starts with a challenge that every request meets. *)
Definition gated (rules : list RuleState) (challenges : list string) (override : option N) : Prop :=
  exists rule rest code pass fail,
    rules = rule :: rest /\ condition rule = None /\
    action rule = AChallenge (MkChallengeAction challenges code override pass fail) /\
    sub_action_wf fail /\ fail <> APass.

Lemma decision_offense_cs rq ctx t0 t st score w : w_cs (decision_offense rq ctx t0 t st score w) = w_cs w.
Proof.
  unfold decision_offense. assert (H : forall ip rule detail kind group, w_cs (emit_offense rq ip rule detail kind group w) = w_cs w).
  { intros [ip|] rule detail kind group; [|done]. cbn. by destruct (rq_offense_sink rq). }
  repeat case_match; done || apply H.
Qed.
Lemma decide_gated req hst cs ctx p challenges override :
  gated (cp_rules (si_compiled s)) challenges override ->
  let '(t, w) := decide sha256 s ev req hst cs ctx p in
  goes_on t = true ->
  Forall (cleared (evaluation_request sha256 s ev req hst) (remote_ip ctx) (stack ctx) override cs) challenges.
Proof.
  intros (rule & rest & code & pass & fail & Hr & Hc & Ha & Hwf & Hf). unfold decide. rewrite Hr.
  pose proof (front_challenge_decides (evaluation_request sha256 s ev req hst) (cp_scoring (si_compiled s)) rule rest ctx
    (evaluation_world cs ctx p) challenges code override pass fail Hc Ha Hwf Hf) as H.
  cbv zeta. destruct (decide_request _ _ _ _ _) as [[t st] w]. exact H.
Qed.

(** What goes to a backend for the client is past the gate. *)
Lemma gate_sent addr req p challenges override message :
  gated (cp_rules (si_compiled s)) challenges override -> bd_passthrough (wc_bind (si_config s)) = false ->
  message ∈ fi_sent (handle addr req p).1 ->
  exists hst, request_host req = Ok hst /\
    let ip := request_ip addr req in
    let seen := capture addr ip req in
    Forall (cleared (evaluation_request sha256 s ev seen (host_text hst)) (Some ip) (hr_tls seen ≫= tls_stack sha1) override
              (challenge_state sha256 s ev seen (host_text hst) ip)) challenges.
Proof.
  intros Hg Hp Hin. destruct (request_host req) as [hst|e] eqn:Eh.
  2: { unfold handle_request in Hin. fold (request_host req) in Hin. rewrite Eh in Hin. by apply not_elem_of_nil in Hin. }
  exists hst. split; [done|]. cbv zeta.
  destruct (request_backend hst) as [backend|] eqn:Eb.
  2: { unfold handle_request in Hin. fold (request_host req) in Hin. rewrite Eh in Hin. cbv zeta in Hin.
       fold (request_backend hst) in Hin. rewrite Eb in Hin. by apply not_elem_of_nil in Hin. }
  destruct (counted_for addr req p) as [key|] eqn:Ec.
  - destruct (handle_policed addr req p hst backend Eh Eb) as [wildcards Hh]; [by rewrite Ec|]. rewrite Hh in Hin.
    unfold evaluate_and_finish in Hin. destruct (context _ _ _ _) as [[cs ctx] p1] eqn:E.
    apply context_spec in E as (-> & Hip & Hst & _).
    pose proof (decide_gated (capture addr (request_ip addr req) req) (host_text hst)
      (challenge_state sha256 s ev (capture addr (request_ip addr req) req) (host_text hst) (request_ip addr req)) ctx p1
      challenges override Hg) as Hd.
    destruct (decide _ _ _ _ _ _ _) as [t w]. cbn [fst] in Hin. rewrite Hip, Hst in Hd. apply Hd.
    eapply finalize_once. intros Hnil. rewrite Hnil in Hin. by apply not_elem_of_nil in Hin.
  - exfalso. unfold counted_for in Ec. rewrite Eh, Eb in Ec. unfold handle_request in Hin.
    fold (request_host req) in Hin. rewrite Eh in Hin. cbv zeta in Hin. fold (request_backend hst) in Hin. rewrite Eb in Hin.
    unfold request_maze, request_mazes in Ec.
    destruct (state_maze_lookup s (host_text hst) (pl_wildcards p)) as [lookup wildcards]. cbn [fst] in Ec.
    rewrite captured_uri, Hp in Hin. rewrite Hp in Ec. destruct lookup as [|table|]; [done| |by apply not_elem_of_nil in Hin].
    destruct (maze_route _ _); [by apply not_elem_of_nil in Hin|done].
Qed.
(** What is asked of a backend for no client: its root, for the host of the request. *)
Definition root_asked (req : HttpRequest) (r : TagRequest) : Prop :=
  exists hst backend uri name,
    request_host req = Ok hst /\ request_backend hst = Some backend /\
    uri_parse (origin_root (be_target backend)) = Some uri /\ header_value (host_text hst) = Some name /\
    r = tag_request uri name.
Lemma context_asked req hst ip p cs ctx p' : context req hst ip p = (cs, ctx, p') -> pl_asked p' = pl_asked p.
Proof.
  unfold request_context. destruct (observed_visit _ _ _ _) as [visit p1] eqn:E1.
  apply observed_visit_rest in E1 as [visits ->]. unfold observed_rate. cbn [pl_rate with_visits].
  destruct (tracker_record _ _ _ _) as [rate tr]. unfold observed_poison.
  destruct (state_maze_lookup _ _ _) as [lookup wildcards].
  destruct (observed_census _ _ _ _ _) as [census p2] eqn:E2.
  apply observed_census_rest in E2 as [c2 ->]. destruct (observed_census _ _ _ _ _) as [census' p3] eqn:E3.
  apply observed_census_rest in E3 as [c3 ->]. by intros [= _ _ <-].
Qed.
Lemma decide_asks req hst cs ctx p : asks (evaluation_request sha256 s ev req hst) (evaluation_world cs ctx p) (decide sha256 s ev req hst cs ctx p).2.
Proof.
  unfold decide. cbv zeta. set (rq := evaluation_request _ _ _ _ _). set (w := evaluation_world cs ctx p).
  pose proof (decide_request_asks rq (cp_scoring (si_compiled s)) (cp_rules (si_compiled s)) ctx w) as H.
  destruct (decide_request _ _ _ _ _) as [[t st] w']. cbn [snd] in *. rewrite H. apply decision_offense_asks.
Qed.
Lemma handle_asks addr req p :
  exists l, pl_asked (handle addr req p).2 = pl_asked p ++ l /\ Forall (root_asked req) l.
Proof.
  assert (Hnone : forall p', pl_asked p' = pl_asked p -> exists l, pl_asked p' = pl_asked p ++ l /\ Forall (root_asked req) l).
  { intros p' ->. exists []. by rewrite app_nil_r. }
  unfold handle_request. fold (request_host req). destruct (request_host req) as [hst|e] eqn:Eh; [|by apply Hnone].
  cbv zeta. fold (request_backend hst). destruct (request_backend hst) as [backend|] eqn:Eb; [|by apply Hnone].
  destruct (state_maze_lookup s (host_text hst) (pl_wildcards p)) as [lookup wildcards].
  assert (Hin : forall backend' ip req', exists l, pl_asked (evaluate_and_finish trie_contains sha1 sha256 s ev fragment_text exchange
      backend' hst ip req' (with_wildcards p wildcards)).2 = pl_asked p ++ l /\ Forall (root_asked req) l).
  { intros backend' ip req'. unfold evaluate_and_finish.
    destruct (context _ _ _ _) as [[cs ctx] p1] eqn:E. apply context_asked in E. cbn [pl_asked with_wildcards] in E.
    pose proof (decide_asks req' (host_text hst) cs ctx p1) as (l & Hl & Hf). destruct (decide _ _ _ _ _ _ _) as [t w].
    cbn [snd pl_asked] in *. exists l. rewrite Hl. cbn [w_asked evaluation_world]. rewrite E. split; [done|].
    eapply Forall_impl; [exact Hf|]. intros r (target & uri & name & Ht & Hu & Hn & ->).
    cbn [rq_target evaluation_request] in Ht. fold (request_backend hst) in Ht. rewrite Eb in Ht. injection Ht as <-.
    by exists hst, backend, uri, name. }
  destruct lookup as [|table|].
  - destruct (bd_passthrough _); [|apply Hin]. destruct (proxy _ _ _ _). by apply Hnone.
  - destruct (maze_route _ _) as [runtime|]; [by apply Hnone|].
    destruct (bd_passthrough _); [|apply Hin]. destruct (proxy _ _ _ _). by apply Hnone.
  - by apply Hnone.
Qed.

(** C19: nothing of a client gets past the gate. Let the policy start with a challenge
    that has no condition and whose fail action is one a challenge may have and is not
    pass, and let there be no passthrough.
    Then, whatever a client sends, a request of its that reaches a backend is for a host
    bagel accepts, and the token sealed in the request's own cookie, opened for
    that host and the network of the resolved address, holds a pass for every challenge
    the rule lists, at its level or above, under a current key - but for those that are
    not registered, and blocklists that did not say the address is listed, because it is not or
    because the look-up failed. The only other thing a backend is sent is bagel's own request for
    its root, for the tags of its page, with nothing of the client's in it but the
    canonical host. *)
Theorem challenge_gate addr req p challenges override :
  gated (cp_rules (si_compiled s)) challenges override -> bd_passthrough (wc_bind (si_config s)) = false ->
  let '(f, p') := handle addr req p in
  (forall message, message ∈ fi_sent f ->
   exists hst, request_host req = Ok hst /\
    let ip := request_ip addr req in
    let seen := capture addr ip req in
    Forall (cleared (evaluation_request sha256 s ev seen (host_text hst)) (Some ip) (hr_tls seen ≫= tls_stack sha1) override
              (challenge_state sha256 s ev seen (host_text hst) ip)) challenges) /\
  (exists l, pl_asked p' = pl_asked p ++ l /\ Forall (root_asked req) l).
Proof.
  intros Hg Hp. pose proof (fun message => gate_sent addr req p challenges override message Hg Hp) as Hs.
  pose proof (handle_asks addr req p) as Ha. destruct (handle addr req p) as [f p']. by split.
Qed.
End Facts.

(** ** Examples *)

Module PipelineExample.
Import StateExample.
#[export] Existing Instance StateExample.script.
#[export] Instance expand : RegexExpand := {| regex_expand := fun _ _ _ => None |}.
#[export] Existing Instance PlainWeb.matches.
#[export] Instance regex_set : @RegexSetApi Literal.regex := {| regex_set_matches := fun _ _ => [] |}.
#[export] Instance scope : ScopeApi := {|
  scope_of := fun l => (fun e => e.1) <$> List.filter
    (fun e => match e.2 with DStr s => negb (str_is_empty s) | _ => false end) l |}.
#[export] Instance uri_rewrite : UriRewrite := {| Finalize.uri_rewrite := fun _ _ => None |}.

(** A policy that is a challenge, and a maze. *)
Definition gate : list RuleConfig := [MkRuleConfig "gate" None "challenge" ["pow"] (settings None None (Some 7)) []].
Definition no_networks (_ : list NetworkConfig) : Result (gmap string unit) := Ok ∅.
Notation ServerState := (StateInner (Key := list N) (Networks := gmap string unit)).
Definition built : Result ServerState :=
  (Reload.rebuild false true (fun seed => Some seed) (Ok tt) (Ok tt) no_networks true
     (config_with gate []) [1; 2; 3] true None {| w_next := 0; w_revision := 7; w_poison := ∅ |}).1.
Definition server : ServerState := from_ok built ltac:(vm_refl).

Definition now : Z := 10000.
Definition client : IpAddr := V4 (of_be_bytes [203; 0; 113; 7]).
Definition addr : SocketAddr := {| sa_ip := client; sa_port := 4711 |}.
Definition registration : ChallengeRegistration :=
  default example_registration (cp_challenges (si_compiled server) !! "pow").
(** A token with a pass for the challenge, sealed and sent back. *)
Definition pass : TokenChallenge := {|
  tc_key := key_bytes (current_key example_sha256 [] registration "pow" (Some client) now);
  tc_result := []; tc_level := 7; tc_stack := ""; tc_ok := true; tc_exp := 13000; tc_nbf := 9000; tc_iat := 9000 |}.
Definition token : Token := {|
  session := replicate 32 5; tk_state := {["pow" := pass]}; tk_pending := false; tk_exp := 20000; tk_nbf := 1000;
  tk_iat := 1000 |}.
(** The token of a client that comes without one. *)
Definition fresh : Token :=
  default token (Challenge.token (ensure_session now (Some (replicate 32 6)) (duration registration) no_state).2).
#[export] Instance seal : SealApi := Plain.api [token; fresh].
Definition cookie : string :=
  match seal_cookie example_sha256 (si_seed server) (Some (replicate 12 0))
          {| Challenge.token := Some token; modified := true; injections := [] |} "git.example.com" false (Some client) with
  | Ok (Some text) => default "" (head (str_split ";" text))
  | _ => ""
  end.

Definition outside : Req := {|
  rq_host := ""; rq_path := ""; Evaluate.rq_uri := ""; rq_user_agent := ""; rq_now := 0; rq_tick := 0; rq_instant := 0;
  rq_registry := ∅; rq_fingerprint := []; rq_revision := 0; rq_sha256 := example_sha256; rq_hash := fun _ => 0;
  rq_session := Some (replicate 32 6); rq_draws := fun _ => [5]; rq_dnsbl := fun _ => None; rq_maze := fun _ => None;
  rq_lure := fun _ => None; rq_smear := (200, []); rq_offense_sink := true;
  rq_target := None; rq_origin := fun _ => NoReply |}.
Definition env : Env := {|
  ev_classifier := None; ev_leases := None; ev_crawler := None; ev_now := now; ev_tick := 10000; ev_instant := 10000;
  ev_instant' := 10001; ev_hash := fun _ => 0; ev_outside := outside; ev_seal_random := Some (replicate 12 0);
  ev_bagel_id := "00112233445566aa" |}.
Definition plane : Plane := {|
  pl_rate := tracker_new 1024; pl_solve := tracker_new 1024; pl_census := census_new 0; pl_visits := visits_new;
  pl_poison := ∅; pl_wildcards := ∅; pl_pending := pending_default; pl_slots := 1; pl_offenses := [];
  pl_tags := decay_new 3600000000000; pl_asked := [] |}.
Definition answer : Reply := {|
  rp_status := 200; rp_headers := [("content-type", "text/html")]; rp_body := PBytes [104; 105] |}.
Definition request (path : string) (h : Headers) : HttpRequest := {|
  hr_method := "GET"; hr_uri := ProxyExample.of_path path : Uri; hr_version := Http11V;
  hr_headers := ("host", "Git.Example.com:443") :: h; hr_peer := None; hr_tls := None; hr_http2 := None; hr_addr := None;
  hr_drop_handle := true |}.
Definition handled (req : HttpRequest) : Finished * Plane :=
  handle_request (fun _ _ => false) (fun l => l) example_sha256 (fun _ => None) (fun _ => None) server env
    (fun _ _ => "<html>") (fun _ => "") (fun _ _ => Some answer) addr req plane.
Definition shown (req : HttpRequest) : nat * option N :=
  let f := (handled req).1 in (length (fi_sent f), match fi_outcome f with Replied r => Some (rp_status r) | _ => None end).

Definition forge_backend : Backend :=
  default ProxyExample.forge (pool_select (cp_backends (si_compiled server)) "git.example.com").
(** A request with the pass, as it is seen, and what it sends. *)
Definition passing : HttpRequest := request "/repo" [("cookie", cookie)].
Definition capture (req : HttpRequest) : HttpRequest :=
  captured example_sha256 (fun _ => None) (fun _ => None) server addr client req.
Definition sent_message : Backend * Outgoing :=
  default (forge_backend, {| og_uri := ProxyExample.of_path "/" : Uri; og_headers := []; og_route := Pooled |})
    (head (fi_sent (handled passing).1)).
Definition gate_rule : RuleState :=
  MkRuleState "gate" None (AChallenge (MkChallengeAction ["pow"] 418 (Some 7) APass (ADeny 403))) [].
(** The route of the host's maze. *)
Definition runtime : MazeRuntime :=
  default Toy.garden_runtime (maze_by_name server "git.example.com" "garden" ∅).
Definition maze_path : string := "/" +:+ route_prefix (mr_keys runtime) +:+ "/nothing".

(** With the pass the request goes on, without it the challenge is sent; the maze
    answers by itself; and an authority that is not one is refused. *)
Example handled_requests :
  shown <$> [request "/repo" [("cookie", cookie)]; request "/repo" []; request maze_path [];
             request "/repo" [("cookie", "a=b; " +:+ cookie)];
             {| hr_method := "GET"; hr_uri := ProxyExample.of_path "/" : Uri; hr_version := Http11V;
                hr_headers := [("host", "user@git.example.com")]; hr_peer := None; hr_tls := None; hr_http2 := None;
                hr_addr := None; hr_drop_handle := true |}] =
  [(1%nat, Some 200); (0%nat, Some 418); (0%nat, Some 200); (1%nat, Some 200); (0%nat, Some 400)].
Proof. vm_refl. Qed.
End PipelineExample.

(** ** Witnesses *)

Import StateExample PipelineExample.

Lemma maze_routes_apart_witness :
  let req := request maze_path [] in
  exists html, (handled req).1 = answered (maze_envelope html false) /\
  same_counters plane (handled req).2 /\ pl_offenses (handled req).2 = [].
Proof.
  cbv zeta. set (req := request maze_path []).
  pose proof (maze_routes_apart (fun _ _ => false) (fun l => l) example_sha256 (fun _ => None) (fun _ => None) server env
    (fun _ _ => "<html>") (fun _ => "") (fun _ _ => Some answer) addr req plane
    {| host_text := "git.example.com"; host_ip := None |} forge_backend runtime) as H.
  specialize (H ltac:(vm_refl) ltac:(vm_refl) ltac:(vm_refl)). cbv zeta in H.
  change (handle_request _ _ _ _ _ _ _ _ _ _ addr req plane) with (handled req) in H.
  destruct (handled req) as [f p']. destruct H as ([html Hf] & Hs & Hp). exists html.
  split; [exact Hf|]. split; [exact Hs|]. apply Hp. vm_compute. discriminate.
Defined.

Lemma challenge_gate_witness :
  sent_message ∈ fi_sent (handled passing).1 /\
  exists hst, host_text hst = "git.example.com" /\
    Forall (cleared (evaluation_request example_sha256 server env (capture passing) (host_text hst)) (Some client) None
              (Some 7) (challenge_state example_sha256 server env (capture passing) (host_text hst) client)) ["pow"].
Proof.
  assert (Hs : fi_sent (handled passing).1 = [sent_message]) by vm_refl.
  assert (Hin : sent_message ∈ fi_sent (handled passing).1) by (rewrite Hs; apply list_elem_of_singleton; reflexivity).
  split; [exact Hin|].
  assert (Hg : gated (cp_rules (si_compiled server)) ["pow"] (Some 7)).
  { exists gate_rule, [], 418, APass, (ADeny 403). split_and!; [vm_refl|vm_refl|vm_refl|done|discriminate]. }
  pose proof (challenge_gate (fun _ _ => false) (fun l => l) example_sha256 (fun _ => None) (fun _ => None) server env
    (fun _ _ => "<html>") (fun _ => "") (fun _ _ => Some answer) addr passing plane ["pow"] (Some 7) Hg ltac:(vm_refl)) as H.
  change (handle_request _ _ _ _ _ _ _ _ _ _ _ _ _) with (handled passing) in H.
  destruct (handled passing) as [f p']. cbn [fst] in Hin. destruct (proj1 H sent_message Hin) as (hst & Hh & Hc).
  exists hst. split; [|exact Hc].
  assert (Ht : (fun h => host_text h) <$> request_host passing = Ok "git.example.com") by vm_refl.
  rewrite Hh in Ht. injection Ht as Ht. exact Ht.
Defined.
