(* ===== verification/Listen.v ===== *)
(** * Connections

    [crates/bagel-web/src/tls/peek.rs] and [crates/bagel-web/src/server/listen.rs]:
    the stream that replays what was looked at, the PROXY header and the ClientHello
    read from it, [serve_stream] up to the connection it serves, and the slots of the
    accept loop. A socket is what its reads will find, in order; the parser of PROXY
    headers and the TLS handshakes are those of other crates. *)

From S2P Require Import Prelude TlsFacts Core ThirdParty Strings Ip Bytes Url.
From S2P Require Import Proto Wire Hpack Http2 Tls TlsEdge Proxy WebConfig.
From S2P Require Import Pipeline.

Local Open Scope N_scope.

(** ** Sockets *)

(** Bytes that arrive together, a read that fails, or a pause that outlasts the time
    limit it falls in. After the last of them the peer has closed. *)
Inductive Segment : Type :=
| Arrives (bytes : list N)
| Breaks
| Stalls.
Definition Socket : Type := list Segment.

(** What awaiting a read gives: nothing when the limit runs out first. *)
Notation Timed A := (option A).

(** A read into a buffer of [max] bytes; no bytes is the end of the stream. What does
    not fit is left for the next read. *)
Fixpoint socket_read (max : N) (s : Socket) : Timed (result unit (list N)) * Socket :=
  match s with
  | [] => (Some (Ok []), [])
  | Arrives [] :: s => socket_read max s
  | Arrives bytes :: s =>
      if blen bytes <=? max then (Some (Ok bytes), s)
      else (Some (Ok (take (N.to_nat max) bytes)), Arrives (drop (N.to_nat max) bytes) :: s)
  | Breaks :: s => (Some (Err tt), s)
  | Stalls :: s => (None, s)
  end.
(** All that a socket will ever give. *)
Definition segment_bytes (g : Segment) : list N := match g with Arrives bytes => bytes | _ => [] end.
Definition socket_bytes (s : Socket) : list N := mjoin (segment_bytes <$> s).

(** ** [PeekStream] *)

Record PeekStream : Type := { ps_inner : Socket; ps_buffer : list N; ps_replay_pos : nat; ps_peeked : bool }.
Definition peek_new (inner : Socket) : PeekStream :=
  {| ps_inner := inner; ps_buffer := []; ps_replay_pos := 0; ps_peeked := false |}.
Definition with_inner (st : PeekStream) (inner : Socket) : PeekStream :=
  {| ps_inner := inner; ps_buffer := ps_buffer st; ps_replay_pos := ps_replay_pos st; ps_peeked := ps_peeked st |}.

(** [PeekStream::peek], which puts what it reads in place of the buffer. *)
Definition peek (max_bytes : N) (st : PeekStream) : Timed (result unit N) * PeekStream :=
  match socket_read max_bytes (ps_inner st) with
  | (Some (Ok buf), inner) =>
      (Some (Ok (blen buf)),
       {| ps_inner := inner; ps_buffer := buf; ps_replay_pos := ps_replay_pos st; ps_peeked := true |})
  | (Some (Err e), inner) => (Some (Err e), with_inner st inner)
  | (None, inner) => (None, with_inner st inner)
  end.
(** [PeekStream::peek_more], which appends it. *)
Definition peek_more (max_bytes : N) (st : PeekStream) : Timed (result unit N) * PeekStream :=
  match socket_read max_bytes (ps_inner st) with
  | (Some (Ok buf), inner) =>
      (Some (Ok (blen buf)),
       {| ps_inner := inner; ps_buffer := ps_buffer st ++ buf; ps_replay_pos := ps_replay_pos st; ps_peeked := true |})
  | (Some (Err e), inner) => (Some (Err e), with_inner st inner)
  | (None, inner) => (None, with_inner st inner)
  end.
(** [PeekStream::advance]. *)
Definition advance (n : nat) (st : PeekStream) : PeekStream := {|
  ps_inner := ps_inner st;
  ps_buffer := if (length (ps_buffer st) <=? n)%nat then [] else drop n (ps_buffer st);
  ps_replay_pos := 0; ps_peeked := ps_peeked st |}.
(** [poll_read] into a buffer with room for [remaining] bytes. *)
Definition poll_read (remaining : N) (st : PeekStream) : Timed (result unit (list N)) * PeekStream :=
  if (ps_replay_pos st <? length (ps_buffer st))%nat then
    let left := drop (ps_replay_pos st) (ps_buffer st) in
    let to_copy := N.to_nat (blen left `min` remaining) in
    (Some (Ok (take to_copy left)),
     {| ps_inner := ps_inner st; ps_buffer := ps_buffer st; ps_replay_pos := ps_replay_pos st + to_copy;
        ps_peeked := ps_peeked st |})
  else let '(r, inner) := socket_read remaining (ps_inner st) in (r, with_inner st inner).
(** All that the stream will ever give its reader. *)
Definition to_deliver (st : PeekStream) : list N :=
  drop (ps_replay_pos st) (ps_buffer st) ++ socket_bytes (ps_inner st).

(** ** What a connection says first *)

Definition MAX_WEB_CONNECTIONS : N := 8192.
Definition PROXY_HEADER_CAP : N := 536.

Section Listen.
Context {NA : IpNetworkApi}.
Variable ppp : list N -> HeaderResult.
Variable sha256 : list N -> N.

(** [take_proxy_header]. A pass that goes on has read a byte or more, so more passes
    than the socket has bytes are never needed. *)
Fixpoint proxy_header_go (fuel : nat) (st : PeekStream) : option (Timed (option SocketAddr) * PeekStream) :=
  match proxy_parse ppp (ps_buffer st) with
  | Proto.Complete source consumed => Some (Some source, advance consumed st)
  | NotProxy => Some (Some None, st)
  | Proto.Incomplete =>
      if PROXY_HEADER_CAP <=? blen (ps_buffer st) then Some (Some None, st)
      else
        match fuel with
        | O => None
        | S fuel =>
            match peek_more 512 st with
            | (None, st) => Some (None, st)
            | (Some (Ok n), st) => if 0 <? n then proxy_header_go fuel st else Some (Some None, st)
            | (Some (Err _), st) => Some (Some None, st)
            end
        end
  end.
Definition passes_enough (st : PeekStream) : nat := S (length (socket_bytes (ps_inner st))).
Definition take_proxy_header (st : PeekStream) : Timed (option SocketAddr) * PeekStream :=
  default (Some None, st) (proxy_header_go (passes_enough st) st).

(** [trusts_proxy_peer], and the choice for a peer without an address. *)
Definition trusts_proxy_peer (bind : BindConfig) (policy : ClientIpPolicy) (peer : IpAddr) : bool :=
  bd_proxy_protocol bind && trusts policy peer.
Definition proxy_allowed (bind : BindConfig) (policy : ClientIpPolicy) (peer : option SocketAddr) : bool :=
  match peer with
  | None => bd_proxy_protocol bind
  | Some peer_addr => trusts_proxy_peer bind policy (sa_ip peer_addr)
  end.

(** [fill_client_hello]: the loop, and what its time limit makes of it. *)
Fixpoint client_hello_go (fuel : nat) (st : PeekStream) : option (Timed (Capture ClientHello) * PeekStream) :=
  match hello_try_from sha256 (ps_buffer st) with
  | Ok fields => Some (Some (Complete fields), st)
  | Err Incomplete =>
      let have := blen (ps_buffer st) in
      if MAX_CAPTURE <=? have then Some (Some (Failed Limited), st)
      else
        match fuel with
        | O => None
        | S fuel =>
            match peek_more (4096 `min` (MAX_CAPTURE - have)) st with
            | (None, st) => Some (None, st)
            | (Some r, st) =>
                if match r with Ok n => n =? 0 | Err _ => true end then Some (Some (Failed Incomplete), st)
                else client_hello_go fuel st
            end
        end
  | Err error => Some (Some (Failed error), st)
  end.
Definition fill_client_hello (st : PeekStream) : Capture ClientHello * PeekStream :=
  let '(r, st) := default (None, st) (client_hello_go (passes_enough st) st) in
  (default (Failed Incomplete) r, st).

(** ** [serve_stream] *)

Definition localhost : SocketAddr := {| sa_ip := V4 2130706433; sa_port := 0 |}.
(** The preface: a look at the first bytes, and the PROXY header where one may stand.
    No result when it runs out of time. *)
Definition preface (allowed : bool) (peer : option SocketAddr) (stream : Socket) :
    Timed (SocketAddr * ConnectionPeer * PeekStream) :=
  let addr := default localhost peer in
  let connection_peer := {| cp_transport := peer; cp_forwarded := None |} in
  match peek 1500 (peek_new stream) with
  | (None, _) => None
  | (Some (Err _), st) => Some (addr, connection_peer, st)
  | (Some (Ok _), st) =>
      if allowed then
        match take_proxy_header st with
        | (None, _) => None
        | (Some (Some proxy_addr), st) =>
            Some (proxy_addr, {| cp_transport := peer; cp_forwarded := Some proxy_addr |}, st)
        | (Some None, st) => Some (addr, connection_peer, st)
        end
      else Some (addr, connection_peer, st)
  end.
(** [TlsFingerprint::from]. *)
Definition tls_from (hello : Capture ClientHello) : TlsFingerprint :=
  {| native := hello; proxied := Unavailable; cloudflare := Unavailable |}.

(** The acceptors of [tokio_rustls] and [bagel_tls::acme], which get the stream at the
    first byte of the handshake. *)
Context {Conn Start : Type}.
Inductive Tls : Type :=
| TlsOff
| TlsManual (accept : PeekStream -> Timed (result string Conn))
| TlsAcme (start : PeekStream -> Timed (result string Start)) (is_tls_alpn_challenge : Start -> bool)
          (into_stream : Start -> Timed (result string Conn)).
Definition tls_off (tls : Tls) : bool := match tls with TlsOff => true | _ => false end.
Inductive Stream : Type := PlainStream (st : PeekStream) | TlsStream (c : Conn).

(** What the connection is served with: the stream, and what its requests carry. *)
Record Connected : Type := {
  co_stream : Stream; co_addr : SocketAddr; co_peer : ConnectionPeer; co_fingerprint : TlsFingerprint }.

(** The stream as the handshake finds it, with what is known by then. *)
Definition opened (tls_off allowed : bool) (peer : option SocketAddr) (stream : Socket) :
    option (SocketAddr * ConnectionPeer * TlsFingerprint * PeekStream) :=
  '(addr, connection_peer, st) ← preface allowed peer stream;
  if tls_off then Some (addr, connection_peer, tls_default, st)
  else let '(hello, st) := fill_client_hello st in Some (addr, connection_peer, tls_from hello, st).
Definition handshake (tls : Tls) (st : PeekStream) : option Stream :=
  match tls with
  | TlsOff => Some (PlainStream st)
  | TlsManual accept => match accept st with Some (Ok c) => Some (TlsStream c) | _ => None end
  | TlsAcme start is_tls_alpn_challenge into_stream =>
      match start st with
      | Some (Ok start) =>
          if is_tls_alpn_challenge start then None
          else match into_stream start with Some (Ok c) => Some (TlsStream c) | _ => None end
      | _ => None
      end
  end.
Definition serve_stream (tls : Tls) (bind : BindConfig) (policy : ClientIpPolicy) (peer : option SocketAddr)
    (stream : Socket) : option Connected :=
  '(addr, connection_peer, fingerprint, st) ← opened (tls_off tls) (proxy_allowed bind policy peer) peer stream;
  c ← handshake tls st;
  Some {| co_stream := c; co_addr := addr; co_peer := connection_peer; co_fingerprint := fingerprint |}.
End Listen.

(** ** The accept loop *)

(** [serve_tcp] and [serve_unix]: what the listener sees, and the slots in use. *)
Inductive Accept : Type := AcceptFailed | Accepted | ConnectionEnded.
Definition accept_step (used : N) (event : Accept) : N * bool :=
  match event with
  | AcceptFailed => (used, false)
  | Accepted => if used <? MAX_WEB_CONNECTIONS then (used + 1, true) else (used, false)
  | ConnectionEnded => (N.pred used, false)
  end.

(** ** The requests of a connection *)

Section Serve.
Context {U : UriApi}.

(** What [serve_one_connection] adds to a request: the connection can always be reset
    by the handle, and the HTTP/2 capture is as far as it has got. *)
Definition connection_request (c : SocketAddr * ConnectionPeer * TlsFingerprint) (http2 : Capture Http2Fingerprint)
    (method : string) (uri : Uri) (version : HttpVersion) (headers : Headers) : HttpRequest :=
  let '(addr, peer, fingerprint) := c in {|
  hr_method := method; hr_uri := uri; hr_version := version; hr_headers := headers; hr_peer := Some peer;
  hr_tls := Some fingerprint; hr_http2 := Some http2; hr_addr := Some addr; hr_drop_handle := true |}.
End Serve.

(** * What connections are handed over with

    Facts about [Listen]: the bytes a server or a handshake reads are those of the
    socket after exactly the PROXY header, and what is read from the first bytes does
    not depend on how they are cut into segments. *)

Local Open Scope N_scope.

(** ** Sockets *)

Lemma socket_read_bytes max s r s' :
  socket_read max s = (r, s') ->
  match r with Some (Ok b) => socket_bytes s = b ++ socket_bytes s' | _ => socket_bytes s' = socket_bytes s end.
Proof.
  induction s as [|[[|b bytes]| |] s IH]; cbn [socket_read]; [by intros [= <- <-]|exact IH| |by intros [= <- <-]..].
  destruct (_ <=? max); intros [= <- <-]; [done|].
  change (socket_bytes (Arrives ?x :: s)) with (x ++ socket_bytes s). by rewrite app_assoc, take_drop.
Qed.

(** A socket whose bytes arrive in time. *)
Definition quiet (s : Socket) : Prop := Forall (fun g => exists b, g = Arrives b) s.

Lemma quiet_read max s :
  quiet s -> 0 < max ->
  exists b s', socket_read max s = (Some (Ok b), s') /\ quiet s' /\ blen b <= max /\ (b = [] -> socket_bytes s = []).
Proof.
  intros Hq Hm. induction Hq as [|g s [b ->] Hq IH]; [exists [], []; split; [done|]; split; [apply Forall_nil_2|]; split; [apply N.le_0_l|done]|]. destruct b as [|b bytes]; [exact IH|].
  cbn [socket_read]. destruct (N.leb_spec (blen (b :: bytes)) max) as [H|H].
  - by exists (b :: bytes), s.
  - eexists _, _. split_and!; [done| |unfold blen in *; rewrite length_take; lia|].
    + apply Forall_cons. eauto.
    + destruct (N.to_nat max) eqn:E; [lia|done].
Qed.

(** ** The replaying stream *)

Lemma poll_read_delivers remaining st r st' :
  poll_read remaining st = (r, st') ->
  match r with Some (Ok b) => to_deliver st = b ++ to_deliver st' | _ => to_deliver st' = to_deliver st end.
Proof.
  unfold poll_read, to_deliver. destruct (Nat.ltb_spec (ps_replay_pos st) (length (ps_buffer st))) as [H|H].
  - intros [= <- <-]. cbn. rewrite app_assoc. f_equal. by rewrite <-drop_drop, take_drop.
  - destruct (socket_read _ _) as [r' inner] eqn:E. intros [= <- <-]. cbn.
    rewrite !(drop_ge (ps_buffer st)) by done. by apply socket_read_bytes in E.
Qed.

(** Nothing has been read yet. *)
Definition fresh (st : PeekStream) : Prop := ps_replay_pos st = 0%nat.
Lemma to_deliver_fresh st : fresh st -> to_deliver st = ps_buffer st ++ socket_bytes (ps_inner st).
Proof. unfold fresh, to_deliver. by intros ->. Qed.

Lemma peek_more_keeps max st r st' :
  peek_more max st = (r, st') -> fresh st ->
  fresh st' /\ to_deliver st' = to_deliver st /\ ps_buffer st `prefix_of` ps_buffer st'.
Proof.
  unfold peek_more. intros H Hf. destruct (socket_read _ _) as [[[b|e]|] inner] eqn:E;
    apply socket_read_bytes in E; injection H as <- <-; (split; [done|]);
    rewrite !to_deliver_fresh by done; cbn [ps_buffer ps_inner with_inner]; (split; [|first [by eexists | reflexivity]]);
    rewrite ?E, <-?app_assoc; done.
Qed.
Lemma peek_more_quiet max st :
  quiet (ps_inner st) -> 0 < max ->
  exists b st', peek_more max st = (Some (Ok (blen b)), st') /\ quiet (ps_inner st') /\ ps_buffer st' = ps_buffer st ++ b /\
    blen b <= max /\ socket_bytes (ps_inner st) = b ++ socket_bytes (ps_inner st') /\
    (b = [] -> socket_bytes (ps_inner st) = []).
Proof.
  intros Hq Hm. destruct (quiet_read _ _ Hq Hm) as (b & s' & E & Hq' & Hb & He). unfold peek_more. rewrite E.
  apply socket_read_bytes in E. eexists b, _. by split_and!.
Qed.

Lemma advance_delivers n st : (n <= length (ps_buffer st))%nat -> fresh st -> to_deliver (advance n st) = drop n (to_deliver st).
Proof.
  intros H Hf. rewrite (to_deliver_fresh st), drop_app_le by done. unfold to_deliver, advance. cbn. f_equal.
  destruct (Nat.leb_spec (length (ps_buffer st)) n); [by rewrite (drop_ge (ps_buffer st) n) by lia|done].
Qed.

(** ** The reader of hellos *)

Section Hellos.
Variable sha256 : list N -> N.

(** Whatever is wrong with a header is wrong in its five bytes. *)
Lemma record_header_more input more :
  (blen input <? 5) = false ->
  record_header (input ++ more) = match record_header input with Ok (n, rest) => Ok (n, rest ++ more) | Err e => Err e end.
Proof.
  intros H. destruct input as [|a [|b [|c [|d [|e rest]]]]]; try (unfold blen in H; cbn in H; done).
  assert (Hone : forall x l, read_byte (x :: l) = Ok (of_be_bytes [x], l)) by
    (intros; unfold read_byte, uint, take_; cbn [length]; destruct (N.leb_spec 1 (N.of_nat (S (length l)))); [done|lia]).
  assert (Htwo : forall x y l, take_ 2 (x :: y :: l) = Ok ([x; y], l)) by
    (intros; unfold take_; cbn [length]; destruct (N.leb_spec 2 (N.of_nat (S (S (length l))))); [done|lia]).
  unfold record_header. cbn [app]. rewrite !Hone. cbn [mbind result_bind]. destruct (negb _); [done|].
  rewrite !Htwo. cbn [mbind result_bind]. unfold u16, uint. rewrite !Htwo. cbn [mbind result_bind].
  by destruct (negb _).
Qed.

(** A verdict does not change when more bytes come. *)
Lemma records_more fuel position handshake input more :
  records_go sha256 fuel position handshake input <> Err Incomplete -> (length input <= fuel)%nat ->
  forall fuel', (length (input ++ more) <= fuel')%nat ->
  records_go sha256 fuel' position handshake (input ++ more) = records_go sha256 fuel position handshake input.
Proof.
  revert position handshake input. induction fuel as [|fuel IH]; intros position handshake input Hr Hf fuel' Hf'.
  { destruct input; [by cbn in Hr|cbn in Hf; lia]. }
  cbn [records_go] in Hr |- *. destruct (blen input <? 5) eqn:E5; [done|].
  destruct fuel' as [|fuel']; [rewrite length_app in Hf'; apply N.ltb_ge in E5; unfold blen in E5; lia|].
  cbn [records_go]. assert ((blen (input ++ more) <? 5) = false) as ->.
  { apply N.ltb_ge in E5. apply N.ltb_ge. unfold blen in *. rewrite length_app. lia. }
  rewrite record_header_more by done. destruct (record_header input) as [[n rest]|e] eqn:Eh; [|done].
  cbn [mbind result_bind] in Hr |- *. apply record_header_length in Eh as [El _].
  destruct (MAX_CAPTURE <? _); [done|]. destruct (take_ n rest) as [[fragment rest']|e] eqn:Et; [|done].
  rewrite (take_more _ _ _ _ more Et). apply take_length_rest in Et.
  destruct (message sha256 (handshake ++ fragment)) as [[h|]|e]; [done| |done]. cbn [mbind result_bind] in Hr |- *.
  apply IH; [done|lia|]. rewrite length_app in Hf' |- *. lia.
Qed.
Lemma hello_more data more :
  hello_try_from sha256 data <> Err Incomplete -> hello_try_from sha256 (data ++ more) = hello_try_from sha256 data.
Proof.
  unfold hello_try_from. destruct (blen data <? 11) eqn:E; [done|]. intros H.
  assert ((blen (data ++ more) <? 11) = false) as ->.
  { apply N.ltb_ge in E. apply N.ltb_ge. unfold blen in *. rewrite length_app. lia. }
  by apply records_more.
Qed.
End Hellos.

(** ** The loops over the first bytes *)

Section Loops.
Context {NA : IpNetworkApi}.
Variable ppp : list N -> HeaderResult.
Variable sha256 : list N -> N.

(** What is promised of the parser of headers: a verdict does not change when more
    bytes come, and a header is all that is needed to read it. *)
Class PppLaws : Prop := {
  ppp_stable buf more : ppp buf <> HIncomplete -> ppp (buf ++ more) = ppp buf;
  ppp_within buf a len : ppp buf = HComplete a len -> (len <= length buf)%nat;
  ppp_local buf a len : ppp buf = HComplete a len -> ppp (take len buf) = HComplete a len }.

Lemma parse_incomplete buf : proxy_parse ppp buf = Proto.Incomplete <-> ppp buf = HIncomplete.
Proof. unfold proxy_parse. destruct (ppp buf) as [|[]|]; split; try done. Qed.
Lemma parse_complete buf source n :
  proxy_parse ppp buf = Proto.Complete source n -> exists a, ppp buf = HComplete a n.
Proof. unfold proxy_parse. destruct (ppp buf) as [|[] len|]; try done; intros [= <- <-]; eauto. Qed.

(** *** Any socket *)

(** What the loop over the header leaves: everything, or everything after a header
    the parser took, with the source in it. *)
Definition header_taken (st : PeekStream) (r : Timed (option SocketAddr)) (st' : PeekStream) : Prop :=
  to_deliver st' = to_deliver st /\ default None r = None \/
  exists source header, r = Some source /\ to_deliver st = header ++ to_deliver st' /\
    exists buf, header `prefix_of` buf /\ buf `prefix_of` to_deliver st /\
      proxy_parse ppp buf = Proto.Complete source (length header).

Lemma proxy_header_go_keeps (L : PppLaws) fuel st r st' :
  proxy_header_go ppp fuel st = Some (r, st') -> fresh st -> fresh st' /\ header_taken st r st'.
Proof.
  revert st. induction fuel as [|fuel IH]; intros st; cbn [proxy_header_go];
    destruct (proxy_parse ppp (ps_buffer st)) as [source n| |] eqn:Ep; intros H Hf.
  1,4: injection H as <- <-; split; [done|]; right; apply parse_complete in Ep as Ep'; destruct Ep' as [a Ha];
    apply ppp_within in Ha; exists source, (take n (ps_buffer st)); split; [done|];
    rewrite advance_delivers by done; rewrite (to_deliver_fresh st), drop_app_le by done;
    rewrite app_assoc, take_drop; split; [done|]; exists (ps_buffer st);
    rewrite length_take_le by done; split; [by exists (drop n (ps_buffer st)); rewrite take_drop|];
    split; [by eexists|done].
  2,4: injection H as <- <-; split; [done|by left].
  - destruct (PROXY_HEADER_CAP <=? _); [|done]. injection H as <- <-. split; [done|by left].
  - destruct (PROXY_HEADER_CAP <=? _); [injection H as <- <-; split; [done|by left]|].
    destruct (peek_more 512 st) as [[[n|e]|] st1] eqn:E; apply peek_more_keeps in E as (Hf1 & Hd & _); try done.
    + destruct (0 <? n); [|injection H as <- <-; split; [done|by left]].
      destruct (IH _ H Hf1) as [Hf2 Ht]. split; [done|]. unfold header_taken in *. by rewrite Hd in Ht.
    + injection H as <- <-. split; [done|by left].
    + injection H as <- <-. split; [done|by left].
Qed.
Lemma client_hello_go_keeps fuel st r st' :
  client_hello_go sha256 fuel st = Some (r, st') -> fresh st -> fresh st' /\ to_deliver st' = to_deliver st.
Proof.
  revert st. induction fuel as [|fuel IH]; intros st H Hf; cbn [client_hello_go] in H;
    destruct (hello_try_from sha256 (ps_buffer st)) as [h|[]]; try (injection H as <- <-; done);
    destruct (MAX_CAPTURE <=? _); try (injection H as <- <-; done); [done|].
  destruct (peek_more _ st) as [[r1|] st1] eqn:E; apply peek_more_keeps in E as (Hf1 & Hd & _); try done;
    [|by injection H as <- <-].
  destruct (match r1 with Ok n => n =? 0 | Err _ => true end); [by injection H as <- <-|].
  destruct (IH _ H Hf1) as [? Hd']. split; [done|]. by rewrite Hd'.
Qed.

(** *** The fuel is enough *)

Lemma peek_more_reads max st n st' :
  peek_more max st = (Some (Ok n), st') ->
  N.of_nat (length (socket_bytes (ps_inner st))) = n + N.of_nat (length (socket_bytes (ps_inner st'))).
Proof.
  unfold peek_more. destruct (socket_read _ _) as [[[b|e]|] inner] eqn:E; try done. apply socket_read_bytes in E.
  intros [= <- <-]. rewrite E, length_app. unfold blen. cbn [ps_inner]. lia.
Qed.
Lemma proxy_header_go_total fuel st :
  (length (socket_bytes (ps_inner st)) < fuel)%nat -> is_Some (proxy_header_go ppp fuel st).
Proof.
  revert st. induction fuel as [|fuel IH]; intros st Hl; [lia|]. cbn [proxy_header_go].
  destruct (proxy_parse _ _); try done. destruct (PROXY_HEADER_CAP <=? _); [done|].
  destruct (peek_more 512 st) as [[[n|e]|] st1] eqn:E; try done. destruct (0 <? n) eqn:En; [|done].
  apply peek_more_reads in E. apply N.ltb_lt in En. apply IH. lia.
Qed.
Lemma client_hello_go_total fuel st :
  (length (socket_bytes (ps_inner st)) < fuel)%nat -> is_Some (client_hello_go sha256 fuel st).
Proof.
  revert st. induction fuel as [|fuel IH]; intros st Hl; [lia|]. cbn [client_hello_go].
  destruct (hello_try_from _ _) as [h|[]]; try done. destruct (MAX_CAPTURE <=? _); [done|].
  destruct (peek_more _ st) as [[[n|e]|] st1] eqn:E; try done. destruct (n =? 0) eqn:En; [done|].
  apply peek_more_reads in E. apply N.eqb_neq in En. apply IH. lia.
Qed.
Lemma take_proxy_header_go st : proxy_header_go ppp (passes_enough st) st = Some (take_proxy_header ppp st).
Proof.
  unfold take_proxy_header. destruct (proxy_header_go_total (passes_enough st) st (Nat.lt_succ_diag_r _)) as [r ->]. done.
Qed.
Lemma fill_client_hello_go st :
  exists r st', client_hello_go sha256 (passes_enough st) st = Some (r, st') /\
    fill_client_hello sha256 st = (default (Failed Incomplete) r, st').
Proof.
  unfold fill_client_hello. destruct (client_hello_go_total (passes_enough st) st (Nat.lt_succ_diag_r _)) as [[r st'] E].
  exists r, st'. by rewrite E.
Qed.

Lemma fill_client_hello_keeps st hello st' :
  fill_client_hello sha256 st = (hello, st') -> fresh st -> fresh st' /\ to_deliver st' = to_deliver st.
Proof.
  destruct (fill_client_hello_go st) as (r & st1 & E & ->). intros [= _ <-] Hf. exact (client_hello_go_keeps _ _ _ _ E Hf).
Qed.

(** *** What was seen first *)

Lemma peek_first max s r st :
  peek max (peek_new s) = (r, st) -> fresh st /\ to_deliver st = socket_bytes s.
Proof.
  unfold peek. destruct (socket_read _ _) as [[[b|e]|] inner] eqn:E; apply socket_read_bytes in E;
    intros [= <- <-]; (split; [done|]); rewrite to_deliver_fresh by done; cbn [ps_buffer ps_inner with_inner peek_new]; done.
Qed.

(** Nothing of a connection is lost or read twice: what the handshake, or else the
    server, will read is all that came after the PROXY header; where there was none,
    or the peer may not send one, it is all that came. *)
Definition handed_over (allowed : bool) (peer : option SocketAddr) (s : Socket) (addr : SocketAddr)
    (cp : ConnectionPeer) (st : PeekStream) : Prop :=
  fresh st /\ cp_transport cp = peer /\ addr = default (default localhost peer) (cp_forwarded cp) /\
  (to_deliver st = socket_bytes s /\ cp_forwarded cp = None \/
   allowed = true /\ exists header buf,
     socket_bytes s = header ++ to_deliver st /\ header `prefix_of` buf /\ buf `prefix_of` socket_bytes s /\
     proxy_parse ppp buf = Proto.Complete (cp_forwarded cp) (length header)).

Lemma preface_handed (L : PppLaws) allowed peer s addr cp st :
  preface ppp allowed peer s = Some (addr, cp, st) -> handed_over allowed peer s addr cp st.
Proof.
  unfold preface. destruct (peek 1500 (peek_new s)) as [[[n|e]|] st1] eqn:Ep; apply peek_first in Ep as [Hf Hd]; try done.
  2: intros [= <- <- <-]; split_and!; try done; by left.
  destruct allowed; [|intros [= <- <- <-]; split_and!; try done; by left].
  pose proof (take_proxy_header_go st1) as E. destruct (take_proxy_header ppp st1) as [r st2].
  apply proxy_header_go_keeps in E as [Hf2 [[Hd2 Hr]|(source & header & -> & Hd2 & buf & Hb & Hb' & Hp)]]; try done.
  - destruct r as [[a|]|]; try done. intros [= <- <- <-]. split_and!; try done. left. by rewrite Hd2.
  - rewrite Hd in Hd2, Hb'. destruct source as [a|]; intros [= <- <- <-]; (split_and!; try done);
      right; (split; [done|]); by exists header, buf.
Qed.

(** *** Sockets whose bytes come in time *)

(** What the header says and what follows it, and what is captured of a hello, with
    all the bytes at hand. *)
Definition header_spec (bytes : list N) : option SocketAddr * list N :=
  match proxy_parse ppp bytes with
  | Proto.Complete source n => (source, drop n bytes)
  | _ => (None, bytes)
  end.
Definition capture_spec (bytes : list N) : Capture ClientHello :=
  match hello_try_from sha256 (take (N.to_nat MAX_CAPTURE) bytes) with
  | Ok fields => Complete fields
  | Err Incomplete => Failed (if MAX_CAPTURE <=? blen bytes then Limited else Incomplete)
  | Err error => Failed error
  end.

Lemma capture_of_prefix buf more :
  blen buf <= MAX_CAPTURE -> hello_try_from sha256 buf <> Err Incomplete ->
  hello_try_from sha256 (take (N.to_nat MAX_CAPTURE) (buf ++ more)) = hello_try_from sha256 buf.
Proof. unfold blen. intros Hb Hi. rewrite take_app_ge by lia. by apply hello_more. Qed.

Lemma client_hello_go_quiet fuel st :
  quiet (ps_inner st) -> fresh st -> blen (ps_buffer st) <= MAX_CAPTURE ->
  (length (socket_bytes (ps_inner st)) < fuel)%nat ->
  exists st', client_hello_go sha256 fuel st = Some (Some (capture_spec (to_deliver st)), st').
Proof.
  revert st. induction fuel as [|fuel IH]; intros st Hq Hf Hb Hl; [lia|].
  rewrite to_deliver_fresh by done. cbn [client_hello_go].
  pose proof (capture_of_prefix (ps_buffer st) (socket_bytes (ps_inner st)) Hb) as Hp.
  destruct (hello_try_from sha256 (ps_buffer st)) as [h|e] eqn:E.
  { exists st. unfold capture_spec. by rewrite Hp. }
  destruct (base.decide (e = Incomplete)) as [->|He].
  2: { exists st. unfold capture_spec. rewrite Hp by congruence. by destruct e. }
  destruct (MAX_CAPTURE <=? blen (ps_buffer st)) eqn:Em; [apply N.leb_le in Em|apply N.leb_gt in Em].
  { exists st. unfold capture_spec. rewrite take_app_le, take_ge by (unfold blen in *; lia). rewrite E.
    assert ((MAX_CAPTURE <=? blen (ps_buffer st ++ socket_bytes (ps_inner st))) = true) as ->; [|done].
    apply N.leb_le. unfold blen in *. rewrite length_app. lia. }
  destruct (peek_more_quiet (4096 `min` (MAX_CAPTURE - blen (ps_buffer st))) st Hq) as
    (b & st1 & Er & Hq1 & Hbuf & Hlen & Hbytes & Hend); [lia|]. rewrite Er.
  apply peek_more_keeps in Er as (Hf1 & Hd1 & _); [|done]. destruct (blen b =? 0) eqn:Eb.
  - exists st1. destruct b; [|done]. rewrite Hend, app_nil_r by done. unfold capture_spec.
    rewrite take_ge by (unfold blen in *; lia). rewrite E. by destruct (N.leb_spec MAX_CAPTURE (blen (ps_buffer st))); [lia|].
  - rewrite <-to_deliver_fresh, <-Hd1 by done. apply N.eqb_neq in Eb. apply IH; try done.
    + rewrite Hbuf. unfold blen in *. rewrite length_app. lia.
    + rewrite Hbytes, length_app in Hl. unfold blen in Eb. lia.
Qed.

(** With all of a header of at most [PROXY_HEADER_CAP] bytes in the buffer, the
    verdict on it is that on everything. *)
Lemma parse_of_prefix (L : PppLaws) buf more :
  ppp buf <> HIncomplete -> proxy_parse ppp (buf ++ more) = proxy_parse ppp buf.
Proof. intros H. unfold proxy_parse. by rewrite ppp_stable. Qed.
Lemma complete_by_cap (L : PppLaws) buf more a n :
  ppp (buf ++ more) = HComplete a n -> (n <= length buf)%nat -> ppp buf = HComplete a n.
Proof.
  intros H Hn. apply ppp_local in H. rewrite take_app_le in H by done.
  rewrite <-(take_drop n buf), ppp_stable; [done|]. by rewrite H.
Qed.

Definition header_within (bytes : list N) : Prop :=
  forall a n, ppp bytes = HComplete a n -> N.of_nat n <= PROXY_HEADER_CAP.
Lemma proxy_header_go_quiet (L : PppLaws) fuel st :
  quiet (ps_inner st) -> fresh st -> blen (ps_buffer st) <= 2048 -> header_within (to_deliver st) ->
  (length (socket_bytes (ps_inner st)) < fuel)%nat ->
  exists st', proxy_header_go ppp fuel st = Some (Some (header_spec (to_deliver st)).1, st') /\
    to_deliver st' = (header_spec (to_deliver st)).2 /\ fresh st' /\ quiet (ps_inner st') /\ blen (ps_buffer st') <= 2048.
Proof.
  revert st. induction fuel as [|fuel IH]; intros st Hq Hf Hb Hw Hl; [lia|]. cbn [proxy_header_go].
  pose proof (to_deliver_fresh st Hf) as Hd.
  assert (ppp (ps_buffer st) = HIncomplete \/ ppp (ps_buffer st) <> HIncomplete) as [Ei|Ei] by (destruct (ppp (ps_buffer st)); auto).
  2: { pose proof (parse_of_prefix L _ (socket_bytes (ps_inner st)) Ei) as Hp. rewrite <-Hd in Hp.
    unfold header_spec. rewrite Hp. destruct (proxy_parse ppp (ps_buffer st)) as [source n| |] eqn:Ep.
    - exists (advance n st). split; [done|]. apply parse_complete in Ep as [a Ha]. apply ppp_within in Ha.
      split; [by rewrite advance_delivers|]. split_and!; try done. unfold blen, advance in *. cbn [ps_buffer].
      destruct (_ <=? _)%nat; cbn [length]; rewrite ?length_drop; lia.
    - by apply parse_incomplete in Ep.
    - by exists st. }
  assert (proxy_parse ppp (ps_buffer st) = Proto.Incomplete) as -> by by apply parse_incomplete.
  assert (Hnone : PROXY_HEADER_CAP <= blen (ps_buffer st) \/ socket_bytes (ps_inner st) = [] ->
    header_spec (to_deliver st) = (None, to_deliver st)).
  { intros Hor. unfold header_spec. destruct (proxy_parse ppp (to_deliver st)) as [source n| |] eqn:Ep; try done.
    apply parse_complete in Ep as [a Ha]. pose proof (Hw _ _ Ha) as Hn. pose proof (ppp_within _ _ _ Ha) as Hn'.
    rewrite Hd in Ha, Hn'. apply (complete_by_cap L) in Ha; [congruence|]. destruct Hor as [Hc|He].
    - unfold blen in Hc. lia.
    - by rewrite He, app_nil_r in Hn'. }
  destruct (PROXY_HEADER_CAP <=? blen (ps_buffer st)) eqn:Ec; [apply N.leb_le in Ec|apply N.leb_gt in Ec].
  { exists st. by rewrite Hnone by auto. }
  destruct (peek_more_quiet 512 st Hq) as (b & st1 & Er & Hq1 & Hbuf & Hlen & Hbytes & Hend); [lia|]. rewrite Er.
  apply peek_more_keeps in Er as (Hf1 & Hd1 & _); [|done]. 
  assert (blen (ps_buffer st1) <= 2048) as Hb1.
  { rewrite Hbuf. unfold blen, PROXY_HEADER_CAP in *. rewrite length_app. lia. }
  destruct (0 <? blen b) eqn:Eb.
  - rewrite <-Hd1 in Hw |- *. apply N.ltb_lt in Eb. apply IH; try done.
    rewrite Hbytes, length_app in Hl. unfold blen in Eb. lia.
  - exists st1. destruct b; [|done]. rewrite Hnone by auto. by rewrite Hd1.
Qed.

(** The connection as it would be with all its bytes at hand. *)
Definition opened_spec (off allowed : bool) (peer : option SocketAddr) (bytes : list N) :
    SocketAddr * ConnectionPeer * TlsFingerprint * list N :=
  let '(source, rest) := if allowed then header_spec bytes else (None, bytes) in
  (default (default localhost peer) source, {| cp_transport := peer; cp_forwarded := source |},
   if off then tls_default else tls_from (capture_spec rest), rest).

Lemma peek_first_quiet s :
  quiet s -> exists n st, peek 1500 (peek_new s) = (Some (Ok n), st) /\ quiet (ps_inner st) /\ blen (ps_buffer st) <= 2048.
Proof.
  intros Hq. destruct (quiet_read 1500 s Hq) as (b & s' & E & Hq' & Hb & _); [lia|]. unfold peek.
  cbn [peek_new ps_inner]. rewrite E. eexists _, _. split; [done|]. split; [done|]. cbn [ps_buffer]. lia.
Qed.
Lemma preface_quiet (L : PppLaws) allowed peer s :
  quiet s -> (allowed = true -> header_within (socket_bytes s)) ->
  let hs := if allowed then header_spec (socket_bytes s) else (None, socket_bytes s) in
  exists st, preface ppp allowed peer s =
      Some (default (default localhost peer) hs.1, {| cp_transport := peer; cp_forwarded := hs.1 |}, st) /\
    to_deliver st = hs.2 /\ fresh st /\ quiet (ps_inner st) /\ blen (ps_buffer st) <= 2048.
Proof.
  intros Hq Hw. destruct (peek_first_quiet s Hq) as (n & st & Ep & Hqi & Hb). unfold preface. rewrite Ep.
  apply peek_first in Ep as [Hf Hd]. destruct allowed; [|by exists st]. specialize (Hw eq_refl).
  rewrite <-Hd in Hw |- *. destruct (proxy_header_go_quiet L (passes_enough st) st) as (st' & E & Hs); try done.
  { apply Nat.lt_succ_diag_r. }
  rewrite take_proxy_header_go in E. injection E as ->.
  destruct (header_spec (to_deliver st)).1 as [a|]; by exists st'.
Qed.
Lemma opened_quiet (L : PppLaws) off allowed peer s :
  quiet s -> (allowed = true -> header_within (socket_bytes s)) ->
  exists addr cp fp st, opened ppp sha256 off allowed peer s = Some (addr, cp, fp, st) /\
    (addr, cp, fp, to_deliver st) = opened_spec off allowed peer (socket_bytes s) /\ fresh st.
Proof.
  intros Hq Hw. destruct (preface_quiet L allowed peer s Hq Hw) as (st & E & Hd & Hf & Hqi & Hb).
  unfold opened, opened_spec. rewrite E. cbn [mbind option_bind].
  destruct (if allowed then header_spec (socket_bytes s) else (None, socket_bytes s)) as [source rest]. cbn in Hd |- *.
  destruct off; [eexists _, _, _, st; by rewrite Hd|].
  destruct (client_hello_go_quiet (passes_enough st) st) as [st' Eg]; try done; [unfold MAX_CAPTURE; lia|apply Nat.lt_succ_diag_r|].
  unfold fill_client_hello. rewrite Eg. cbn. apply client_hello_go_keeps in Eg as [Hf' Hd']; [|done].
  eexists _, _, _, st'. by rewrite Hd', Hd.
Qed.

(** ** Reading what is handed over *)

(** What reads into buffers of these sizes give, in order. *)
Fixpoint poll_reads (sizes : list N) (st : PeekStream) : list N * PeekStream :=
  match sizes with
  | [] => ([], st)
  | size :: sizes =>
      let '(r, st) := poll_read size st in
      let '(l, st) := poll_reads sizes st in
      (match r with Some (Ok b) => b ++ l | _ => l end, st)
  end.
Lemma poll_reads_deliver sizes st : to_deliver st = (poll_reads sizes st).1 ++ to_deliver (poll_reads sizes st).2.
Proof.
  revert st. induction sizes as [|size sizes IH]; intros st; [done|]. cbn [poll_reads].
  destruct (poll_read size st) as [r st1] eqn:E. apply poll_read_delivers in E. specialize (IH st1).
  destruct (poll_reads sizes st1) as [l st2]. cbn [fst snd] in *.
  destruct r as [[b|]|]; [by rewrite <-app_assoc, <-IH|by rewrite <-E..].
Qed.

Context {Conn Start : Type}.
Implicit Types (tls : Listen.Tls (Conn := Conn) (Start := Start)).

(** C23: Whatever a socket does, nothing of a connection is lost, read twice or taken
    from elsewhere: what the server or the TLS handshake reads, however it reads, is in
    order the bytes that came, all of them or those after one PROXY header that
    the peer was trusted to send; and only such a header changes the address the
    requests are served under. *)
Theorem connection_bytes_exact (L : PppLaws) tls bind policy peer s c :
  serve_stream ppp sha256 tls bind policy peer s = Some c ->
  cp_transport (co_peer c) = peer /\ co_addr c = default (default localhost peer) (cp_forwarded (co_peer c)) /\
  exists st header, handshake tls st = Some (co_stream c) /\
    (forall sizes, socket_bytes s = header ++ (poll_reads sizes st).1 ++ to_deliver (poll_reads sizes st).2) /\
    (header = [] /\ cp_forwarded (co_peer c) = None \/
     proxy_allowed bind policy peer = true /\
     exists buf, header `prefix_of` buf /\ buf `prefix_of` socket_bytes s /\
       proxy_parse ppp buf = Proto.Complete (cp_forwarded (co_peer c)) (length header)).
Proof.
  unfold serve_stream, opened. intros ([[[addr cp] fp] st] & Ho & (conn & Hh & [= <-])%bind_Some)%bind_Some.
  apply bind_Some in Ho as ([[addr' cp'] st1] & Hp & Ho). apply (preface_handed L) in Hp as (Hf & Ht & Ha & Hor).
  assert (addr = addr' /\ cp = cp' /\ to_deliver st = to_deliver st1) as (-> & -> & Hd).
  { destruct (tls_off tls); [by injection Ho as <- <- <- <-|].
    destruct (fill_client_hello sha256 st1) as [hello st2] eqn:E. injection Ho as <- <- <- <-.
    by apply fill_client_hello_keeps in E as [_ ->]. }
  cbn [co_peer co_addr co_stream]. split; [done|]. split; [done|].
  destruct Hor as [[Hs Hn]|(Hal & header & buf & Hs & Hrest)].
  - exists st, []. split; [done|]. split; [|by left]. intros sizes. by rewrite <-Hs, <-Hd, <-poll_reads_deliver.
  - exists st, header. split; [done|]. split; [|right; split; [done|by exists buf]].
    intros sizes. by rewrite <-poll_reads_deliver, Hd.
Qed.

(** C24: However the bytes of a connection are cut into segments, the connection is
    served the same - the source of its PROXY header, the fingerprint of its hello up
    to 65536 bytes and the bytes that follow are those read from all the bytes at once -
    when every segment comes in time and, on a connection that may carry one, the PROXY
    header is at most 536 bytes long. (A longer one is accepted or refused by how it is
    cut: [long_header_depends_on_segments].) *)
Theorem segments_do_not_matter (L : PppLaws) tls bind policy peer s :
  quiet s -> (proxy_allowed bind policy peer = true -> header_within (socket_bytes s)) ->
  exists addr cp fp st,
    (addr, cp, fp, to_deliver st) = opened_spec (tls_off tls) (proxy_allowed bind policy peer) peer (socket_bytes s) /\
    serve_stream ppp sha256 tls bind policy peer s =
      (fun stream => {| co_stream := stream; co_addr := addr; co_peer := cp; co_fingerprint := fp |}) <$> handshake tls st.
Proof.
  intros Hq Hw. destruct (opened_quiet L (tls_off tls) _ peer s Hq Hw) as (addr & cp & fp & st & E & Hs & _).
  exists addr, cp, fp, st. split; [done|]. unfold serve_stream. rewrite E. cbn. by destruct (handshake tls st).
Qed.
End Loops.

(** ** Slots *)

(** Connections served at the same time keep within the slots, and one that finds none
    is closed. *)
Lemma slots_bounded used events :
  used <= MAX_WEB_CONNECTIONS -> foldl (fun used e => (accept_step used e).1) used events <= MAX_WEB_CONNECTIONS.
Proof.
  revert used. induction events as [|e events IH]; intros used Hu; [done|]. cbn [foldl]. apply IH.
  destruct e; cbn; [done| |lia]. destruct (N.ltb_spec used MAX_WEB_CONNECTIONS); cbn [fst]; lia.
Qed.

(** ** Examples *)

Module ListenExample.
#[local] Existing Instances cidr_api.
Lemma example_laws : PppLaws example_ppp.
Proof.
  split; intros buf.
  - intros more. destruct buf as [|x [|y buf]]; done.
  - intros a len. destruct buf as [|x [|y buf]]; cbn; try done. destruct (x =? 7); [|done]. intros [= <- <-]. lia.
  - intros a len. destruct buf as [|x [|y buf]]; cbn; try done. destruct (x =? 7) eqn:E; [|done]. intros [= <- <-].
    cbn. by rewrite E.
Qed.
Definition bind : BindConfig := {|
  bd_network := BindUnix; bd_address := "/run/bagel"; bd_socket_mode := None; bd_tls := TlsNone;
  bd_proxy_protocol := true; bd_passthrough := false |}.
Definition sha (_ : list N) : N := 0.
Definition manual : Listen.Tls (Conn := list N) (Start := unit) := TlsManual (fun st => Some (Ok (to_deliver st))).
(** The header comes in two segments, and the hello in three, with a pause. *)
Definition hello_bytes : list N := mjoin (write_record <$> small_fragments).
Definition cut : list N := Eval vm_compute in 7 :: 2 :: hello_bytes.
Definition socket : Socket := [Arrives [7]; Arrives [2; 22]; Arrives (drop 3 cut)].
Definition policy : ClientIpPolicy := {| header := None; trusted := None |}.
Definition connected : option (Connected (Conn := list N)) := serve_stream example_ppp sha manual bind policy None socket.
Definition the_connection : Connected (Conn := list N) :=
  Eval vm_compute in default {| co_stream := TlsStream []; co_addr := localhost; co_peer := {| cp_transport := None; cp_forwarded := None |};
    co_fingerprint := tls_default |} connected.
Lemma connected_is : serve_stream example_ppp sha manual bind policy None socket = Some the_connection.
Proof. vm_refl. Qed.
End ListenExample.

Lemma connection_bytes_exact_witness :
  co_addr ListenExample.the_connection = {| sa_ip := V4 1; sa_port := 80 |} /\
  cp_transport (co_peer ListenExample.the_connection) = None.
Proof.
  split; [vm_refl|].
  exact (proj1 (connection_bytes_exact example_ppp ListenExample.sha ListenExample.example_laws _ _ _ _ _ _ ListenExample.connected_is)).
Defined.
Lemma segments_do_not_matter_witness :
  exists addr cp fp st,
    (addr, cp, fp, to_deliver st) =
      opened_spec example_ppp ListenExample.sha false true None ListenExample.cut /\
    serve_stream example_ppp ListenExample.sha ListenExample.manual ListenExample.bind ListenExample.policy None ListenExample.socket =
      (fun stream => {| co_stream := stream; co_addr := addr; co_peer := cp; co_fingerprint := fp |}) <$>
      handshake ListenExample.manual st.
Proof.
  apply (segments_do_not_matter example_ppp ListenExample.sha ListenExample.example_laws ListenExample.manual
           ListenExample.bind ListenExample.policy None ListenExample.socket).
  - repeat (apply Forall_cons; split; [by eexists|]). apply Forall_nil_2.
  - intros _ a n H. injection H as _ <-. vm_compute. discriminate.
Defined.

(** A header longer than the cap is taken when it comes in one piece and not when it
    comes in two. *)
Definition long_ppp (buf : list N) : HeaderResult :=
  if blen buf <? 600 then HIncomplete else HComplete (PppV4 9 443) 600.
Definition long_forwarded (s : Socket) : option (option SocketAddr) :=
  (fun c => cp_forwarded (c.1.2)) <$> preface long_ppp true None s.
Example long_header_depends_on_segments :
  long_forwarded [Arrives (replicate 600 8)] = Some (Some {| sa_ip := V4 9; sa_port := 443 |}) /\
  long_forwarded [Arrives (replicate 540 8); Arrives (replicate 60 8)] = Some None.
Proof. split; vm_refl. Qed.
(** The hello of the example is read from its three segments. *)
Example hello_in_segments :
  show_capture (native (co_fingerprint ListenExample.the_connection)) = "complete".
Proof. vm_refl. Qed.
