(* ===== verification/Offense.v ===== *)
(** * The offense channel

    [crates/bagel-runtime/src/offense.rs]: the offenses of the web plane become
    numbered records in a bounded channel the defense loop reads, and no later run of
    the program mistakes them for replays. *)

From S2P Require Import Prelude Core Strings Ip ThirdParty Config Store StoreFacts.
From S2P Require Import StoreSpec Defense Pending Evaluate.

Local Open Scope N_scope.

(** [OffenseKind::label]. *)
Definition offense_label (k : OffenseKind) : string :=
  match k with
  | ODrop => "drop" | OSmear => "smear" | OTarpit => "tarpit" | OPoisonReturn => "poison_return"
  | OScore _ => "score" | OReport kind => kind
  end.
(** [SourceNetwork::to_ip_network], which has a valid prefix. *)
Definition to_ip_network `{IpNetworkApi} (n : SourceNetwork) : option IpNetwork :=
  match n with
  | SN4 oct => net_new (V4 (of_be_bytes oct)) 24
  | SN6 oct => net_new (V6 (of_be_bytes oct)) 64
  end.

(** [WebOffenseSource]: its counter, and its channel as the records waiting in it,
    how many it holds, and whether the defense loop still receives from it. *)
Record WebOffenseSource : Type := {
  wo_name : string; wo_sequence : N; wo_queue : list SourceRecord; wo_capacity : nat; wo_open : bool }.
Definition web_offense_new (name : string) (capacity : nat) (last_sequence : N) : WebOffenseSource := {|
  wo_name := name; wo_sequence := last_sequence; wo_queue := []; wo_capacity := capacity; wo_open := true |}.
(** The 64 bits of a [u32] as a float, which is exact, and its JSON number. *)
Definition f64_of_u32 (n : N) : N :=
  if n =? 0 then 0 else let e := N.log2 n in (e + 1023) * 2 ^ 52 + (n - 2 ^ e) * 2 ^ (52 - e).
Definition u32_value (n : N) : Value :=
  VNumber {| num_i64 := Some (Z.of_N n); num_u64 := Some n; num_f64 := Some (f64_of_u32 n) |}.
Definition optional_value (s : option string) : Value := match s with Some s => VString s | None => VNull end.
(** [json!], whose members are in the order of their names. *)
Definition offense_payload `{IpNetworkApi} (o : Offense) : Value :=
  VObject [("address", VString (show_ip (of_address o))); ("detail", VString (of_detail o));
           ("group_key", optional_value (of_group_key o)); ("host", VString (of_host o));
           ("kind", VString (offense_label (of_kind o))); ("network", VString (default "" (net_show <$> to_ip_network (of_network o))));
           ("rule", optional_value (of_rule o));
           ("score", match of_kind o with OScore score => u32_value score | _ => VNull end)].
(** [fetch_add] wraps; [value_to_string] prints a value. *)
Definition emit `{IpNetworkApi} (value_to_string : Value -> string) (now : N) (o : Offense) (w : WebOffenseSource) :
    bool * WebOffenseSource :=
  let sequence := sat_add u64_max (wo_sequence w) 1 in
  let record := {|
    sr_source := wo_name w; sr_id := "listener:" +:+ wo_name w +:+ ":" +:+ show_N sequence;
    sr_payload := value_to_string (offense_payload o); sr_correlation := None; sr_observed_at := now;
    sr_checkpoint := Checkpoint.Listener sequence; sr_oversized := false |} in
  let sent := wo_open w && (length (wo_queue w) <? wo_capacity w)%nat in
  (sent, {| wo_name := wo_name w; wo_sequence := (wo_sequence w + 1) mod (u64_max + 1);
            wo_queue := if sent then wo_queue w ++ [record] else wo_queue w;
            wo_capacity := wo_capacity w; wo_open := wo_open w |}).
(** The defense loop takes a record, or stops receiving. *)
Definition offense_recv (w : WebOffenseSource) : option SourceRecord * WebOffenseSource :=
  match wo_queue w with
  | [] => (None, w)
  | r :: queue => (Some r, {| wo_name := wo_name w; wo_sequence := wo_sequence w; wo_queue := queue;
                              wo_capacity := wo_capacity w; wo_open := wo_open w |})
  end.
Definition offense_close (w : WebOffenseSource) : WebOffenseSource := {|
  wo_name := wo_name w; wo_sequence := wo_sequence w; wo_queue := []; wo_capacity := wo_capacity w; wo_open := false |}.

(** ** Theorems *)

Section Offenses.
Context {NA : IpNetworkApi} (value_to_string : Value -> string).

(** What happens to the source while the program runs. *)
Inductive OffenseEvent : Type := Emit (now : N) (o : Offense) | Recv | Close.
Definition offense_step (w : WebOffenseSource) (e : OffenseEvent) : WebOffenseSource * list SourceRecord :=
  match e with
  | Emit now o => ((emit value_to_string now o w).2, [])
  | Recv => let '(r, w) := offense_recv w in (w, option_list r)
  | Close => (offense_close w, [])
  end.
(** The records received, in order. *)
Fixpoint offense_run (w : WebOffenseSource) (events : list OffenseEvent) : WebOffenseSource * list SourceRecord :=
  match events with
  | [] => (w, [])
  | e :: events =>
      let '(w, received) := offense_step w e in
      let '(w, more) := offense_run w events in (w, received ++ more)
  end.

(** The sequence number of a record. *)
Definition sequence_of (r : SourceRecord) : N :=
  match sr_checkpoint r with Checkpoint.Listener n => n | _ => 0 end.
Definition numbered (name : string) (r : SourceRecord) : Prop :=
  exists n, n <= u64_max /\ sr_checkpoint r = Checkpoint.Listener n /\ sr_source r = name /\
    sr_id r = listener_prefix name +:+ show_N n.
Fixpoint emits (events : list OffenseEvent) : N :=
  match events with
  | [] => 0
  | Emit _ _ :: events => 1 + emits events
  | _ :: events => emits events
  end.
(** What waits is above [low], in order. *)
Definition numbers_ok (low : N) (w : WebOffenseSource) : Prop :=
  low <= wo_sequence w /\ Forall (numbered (wo_name w)) (wo_queue w) /\
  StronglySorted N.lt (low :: (sequence_of <$> wo_queue w)) /\
  Forall (fun r => sequence_of r <= wo_sequence w) (wo_queue w) /\
  (length (wo_queue w) <= wo_capacity w)%nat.

Lemma sorted_snoc (R : N -> N -> Prop) l x : StronglySorted R l -> Forall (fun y => R y x) l -> StronglySorted R (l ++ [x]).
Proof.
  induction 1 as [|y l Hs IH Hy]; intros HF; [repeat constructor|]. apply Forall_cons in HF as [Hx HF].
  cbn. constructor; [by apply IH|]. apply Forall_app. split; [done|]. by constructor.
Qed.
Lemma sorted_head (l : list N) low high : low < high -> StronglySorted N.lt (high :: l) -> StronglySorted N.lt (low :: high :: l).
Proof.
  intros H Hs. constructor; [done|]. apply StronglySorted_inv in Hs as [_ Hs]. constructor; [done|].
  eapply Forall_impl; [exact Hs|]. cbn. lia.
Qed.

Lemma emit_numbers low w now o :
  numbers_ok low w -> wo_sequence w < u64_max ->
  let w' := (emit value_to_string now o w).2 in
  numbers_ok low w' /\ wo_sequence w' = wo_sequence w + 1 /\ wo_name w' = wo_name w.
Proof.
  intros (Hlow & Hn & Hs & Hle & Hcap) Hmax. cbn. rewrite N.mod_small, sat_add_exact by lia.
  split; [|done]. unfold numbers_ok. cbn.
  assert (Hle' : Forall (fun r => sequence_of r <= wo_sequence w + 1) (wo_queue w))
    by (eapply Forall_impl; [exact Hle|]; intros r Hr; cbn beta in *; lia).
  destruct (wo_open w && _) eqn:Hsent; [|repeat split; (done || lia)].
  apply andb_true_iff in Hsent as [_ Hroom]. apply Nat.ltb_lt in Hroom.
  rewrite length_app, fmap_app. cbn. split; [lia|]. split; [|split; [|split; [|lia]]].
  - apply Forall_app. split; [done|]. apply Forall_singleton. exists (wo_sequence w + 1). cbn. split; [lia|]. do 2 (split; [done|]). unfold listener_prefix. by rewrite !string_app_assoc.
  - apply (sorted_snoc N.lt (low :: (sequence_of <$> wo_queue w))); [done|]. constructor; [cbn; lia|].
    apply Forall_fmap. eapply Forall_impl; [exact Hle|]. intros r Hr. unfold compose, sequence_of, sat_add in *. cbn. lia.
  - apply Forall_app. split; [done|]. apply Forall_singleton. cbn. lia.
Qed.

Lemma offense_run_numbers events low w :
  numbers_ok low w -> wo_sequence w + emits events <= u64_max ->
  let '(w', received) := offense_run w events in
  StronglySorted N.lt (low :: (sequence_of <$> received)) /\ Forall (numbered (wo_name w)) received /\
  (length (wo_queue w') <= wo_capacity w')%nat.
Proof.
  revert low w. induction events as [|e events IH]; intros low w Hok Hmax.
  { cbn. destruct Hok as (_ & _ & _ & _ & Hcap). repeat constructor. done. }
  destruct e as [now o| |]; cbn [offense_run offense_step].
  - cbn in Hmax. destruct (emit_numbers low w now o Hok) as (Hok' & Hseq & Hname); [lia|].
    specialize (IH low _ Hok'). rewrite Hseq, Hname in IH. cbn zeta. destruct (offense_run _ events) as [w' received].
    apply IH. lia.
  - cbn in Hmax.
    pose proof Hok as (Hlow & Hn & Hs & Hle & Hcap). unfold offense_recv. destruct (wo_queue w) as [|r queue] eqn:Eq; cbn.
    { specialize (IH low w). destruct (offense_run w events) as [w' received]. by apply IH. }
    apply Forall_cons in Hn as [Hr Hn], Hle as [Hle1 Hle]. cbn in Hs. apply StronglySorted_inv in Hs as [Hs Hlow'].
    apply Forall_cons in Hlow' as [Hlt _].
    specialize (IH (sequence_of r) {| wo_name := wo_name w; wo_sequence := wo_sequence w; wo_queue := queue;
                              wo_capacity := wo_capacity w; wo_open := wo_open w |}).
    destruct (offense_run _ events) as [w' received]. cbn in *. destruct IH as (Hsort & Hnum & Hlen); [|done|].
    { repeat split; try done. cbn. lia. }
    split; [by apply sorted_head|]. split; [by constructor|done].
  - cbn in Hmax.
    specialize (IH low (offense_close w)). destruct (offense_run (offense_close w) events) as [w' received]. apply IH; [|done].
    destruct Hok as (Hlow & _). unfold numbers_ok. cbn. split; [lia|]. split; [constructor|]. split; [repeat constructor|]. split; [constructor|lia].
Qed.

(** The offenses of the web plane are never mistaken for replays, within a run or
    across restarts. A source that resumes above the sequence numbers of the store
    hands the defense loop records whose numbers increase, whose identifiers are
    distinct and not among the events of the store; it never holds more of them than
    its channel has room for, whatever is dropped. *)
Theorem offense_records_fresh name capacity last_sequence events db :
  last_sequence + emits events <= u64_max -> last_listener_sequence name db <= last_sequence ->
  let '(w, received) := offense_run (web_offense_new name capacity last_sequence) events in
  StronglySorted N.lt (last_sequence :: (sequence_of <$> received)) /\ NoDup (sr_id <$> received) /\
  (forall r, r ∈ received -> (sr_source r, sr_id r) ∉ (event_key <$> Store.events db)) /\
  (length (wo_queue w) <= wo_capacity w)%nat.
Proof.
  intros Hmax Hdb. pose proof (offense_run_numbers events last_sequence (web_offense_new name capacity last_sequence)) as H.
  destruct (offense_run _ events) as [w received]. cbn in H. destruct H as (Hs & Hn & Hcap); [|done|].
  { unfold numbers_ok. cbn. split; [lia|]. split; [constructor|]. split; [repeat constructor|]. split; [constructor|lia]. }
  split; [done|]. apply StronglySorted_inv in Hs as [Hs Hlow]. split; [|split; [|done]].
  - clear Hlow. induction received as [|r l IH]; [constructor|]. apply Forall_cons in Hn as [Hr Hn].
    cbn in Hs. apply StronglySorted_inv in Hs as [Hs Hlt]. cbn. constructor; [|by apply IH].
    intros (r' & He & Hr')%list_elem_of_fmap. rewrite Forall_fmap, Forall_forall in Hlt. specialize (Hlt r' Hr'). cbn in Hlt.
    rewrite Forall_forall in Hn. destruct Hr as (n & Hmn & Hc & _ & Hi), (Hn r' Hr') as (n' & Hmn' & Hc' & _ & Hi').
    unfold sequence_of in Hlt. rewrite Hc, Hc' in Hlt.
    assert (E : event_sequence name (sr_id r) = event_sequence name (sr_id r')) by (by rewrite He).
    unfold event_sequence in E. rewrite Hi, Hi', !strip_prefix_app in E. cbn [mbind option_bind] in E.
    rewrite !parse_show_N in E by done. injection E as ->. lia.
  - intros r Hr. rewrite Forall_forall in Hn. destruct (Hn r Hr) as (n & Hmn & Hc & -> & ->).
    apply listener_sequence_fresh. rewrite Forall_fmap, Forall_forall in Hlow. specialize (Hlow r Hr).
    cbn in Hlow. unfold sequence_of in Hlow. rewrite Hc in Hlow. lia.
Qed.
End Offenses.

(** ** Examples *)

Module OffenseExample.
Definition offense : Offense := {|
  of_address := V4 3405803783; of_network := from_ip (V4 3405803783); of_host := "example.test";
  of_rule := Some "probe"; of_detail := "smear"; of_kind := OScore 120; of_group_key := None |}.
Definition recorded : Db := set_events empty_db
  [{| e_source := "bagel-web"; e_event_id := "listener:bagel-web:41"; e_observed_at := 3 |}].
Definition to_text (v : Value) : string := "{}".
Definition traffic : list OffenseEvent := [Emit 5 offense; Emit 5 offense; Recv; Emit 6 offense; Recv].
#[local] Existing Instances cidr_api.
(** The record of an offense dropped for want of room leaves a gap in the numbers. *)
Example dropped :
  sr_id <$> (offense_run to_text (web_offense_new "bagel-web" 1 41) traffic).2 =
    ["listener:bagel-web:42"; "listener:bagel-web:44"] /\
  f64_of_u32 120 = 4638144666238189568.
Proof. split; vm_refl. Qed.
End OffenseExample.

Lemma offense_records_fresh_witness :
  @last_listener_sequence "bagel-web" OffenseExample.recorded <= 41 /\
  NoDup (sr_id <$> (offense_run (NA := cidr_api) OffenseExample.to_text (web_offense_new "bagel-web" 1 41) OffenseExample.traffic).2).
Proof.
  assert (H : last_listener_sequence "bagel-web" OffenseExample.recorded <= 41) by (vm_compute; done).
  split; [exact H|].
  refine (proj1 (proj2 (offense_records_fresh (NA := cidr_api) OffenseExample.to_text "bagel-web" 1 41 OffenseExample.traffic
    OffenseExample.recorded _ H))). vm_compute. done.
Defined.
