(* ===== verification/Verify.v ===== *)
(** * Verification routes

    The endpoints of [crates/bagel-web/src/routes.rs] that settle challenges:
    [handle_verify] for redirects, [handle_pow_verify] for posted solutions, the
    client they admit, the pass they seal, and [PowChallenge::verify] of
    [challenge/pow.rs]. A request is what the handlers read of it; the server is
    the counters and the pending challenges they change. *)

From S2P Require Import Prelude Core Strings Ip Bytes Solver Host.
From S2P Require Import Url Rate Pending Rule Challenge Date Session ThirdParty.
From S2P Require Import Scoring Condition Evaluate.

Local Open Scope N_scope.

(** ** The proof of work *)

(** The handoff of [PowChallenge::widget]. The levels fit a byte by the checks of
    the registry. *)
Definition pow_handoff (p : PowChallenge) (challenge_key lvl : N) : Handoff := {|
  h_key := key_bytes challenge_key; h_kind := pow_kind p; h_difficulty := lvl;
  h_blocks_log2 := blocks_log2 p;
  h_gpu_difficulty := if gpu_required p then lvl else default 0 (pow_gpu_level p lvl) |}.

(** [PowChallenge::verify]; the hash of the first kind is [ring]'s. *)
Definition pow_verify (sha : list N -> N) (p : PowChallenge) (key : list N) (nonce difficulty : N) : bool :=
  match pow_kind p with
  | Sha256 => leading_zero_bits (be_bytes 32 (sha (key ++ be_bytes 8 nonce))) difficulty
  | Scratch =>
      let pad := replicate (N.to_nat (2 ^ blocks_log2 p)) (replicate 32 0) in
      (pad_satisfies pad (key_block_new key) nonce (blocks_log2 p) difficulty).1.1
  end.

(** ** Requests *)

(** How the rules and how the routes read a User-Agent header; [to_str] is
    [HeaderValue::to_str]. *)
Definition evaluation_agent (to_str : list N -> option string) (header : option (list N)) : list N :=
  string_bytes (default "unknown" (header ≫= to_str)).
Definition admission_agent (header : option (list N)) : list N :=
  default (string_bytes "unknown") header.

Inductive Collected : Type := Body_ (bytes : list N) | TooLarge | TimedOut.

(** The request: query, authority of the URI, Host header, Cookie headers that are
    text, User-Agent, body, the client address the proxies vouch for, the TLS
    stack; and the clocks, the random source and whether a verification slot is
    free. The handlers read the time more than once; one value stands for all of a
    request. *)
Record VerifyRequest : Type := {
  vr_query : option string; vr_authority : option string; vr_host : option string;
  vr_cookies : list string; vr_agent : option (list N); vr_body : Collected;
  vr_ip : option IpAddr; vr_stack : option string;
  vr_now : Z; vr_tick : N; vr_instant : N; vr_random : option (list N); vr_slot : bool }.

Record Server : Type := {
  sv_rates : RateTracker RateKey; sv_solves : RateTracker RateKey; sv_pending : PendingChallenges }.

(** [HEXLOWER.decode] of [data_encoding]. *)
Class HexApi : Type := { hexlower_decode : string -> option (list N) }.
Class HexLaws `{!HexApi} : Prop := { hex_back b : bytes b -> hexlower_decode (hex_encode b) = Some b }.

Section Verify.
Context {SA : SealApi} {HX : HexApi}.

(** What the handlers share and do not change. *)
Record Shared : Type := {
  sh_sha256 : list N -> N; sh_hash : RateKey -> N; sh_server_key : list N;
  sh_registry : gmap string ChallengeRegistration; sh_revision : N;
  sh_backend : string -> bool }.
Variable sh : Shared.

Definition trackers_record (t : RateTracker RateKey) (host : string) (ip : IpAddr) (tick : N) :
    RateTracker RateKey := (tracker_record (sh_hash sh) t (host, from_ip ip) tick).2.

Definition carried (req : VerifyRequest) (host : string) (ip : IpAddr) : RequestChallengeState :=
  from_headers (sh_sha256 sh) (sh_server_key sh) (vr_now req) (vr_cookies req) host (Some ip).

(** [Client::admit]. *)
Definition client_admit (req : VerifyRequest) (host : CanonicalHost) (ip : IpAddr) (challenge : string)
    (sv : Server) : result Response ChallengeBinding * Server :=
  if negb (sh_backend sh (host_text host)) then (Err (body_status 400), sv)
  else
    let rates := trackers_record (sv_rates sv) (host_text host) ip (vr_tick req) in
    let '(ok, pending) :=
      admit_verification (sh_hash sh) (sv_pending sv) (vr_tick req) (host_text host) ip in
    let sv := {| sv_rates := rates; sv_solves := sv_solves sv; sv_pending := pending |} in
    if negb ok then (Err (body_status 429), sv)
    else
      match token (carried req (host_text host) ip) with
      | None => (Err (body_text 403 "missing challenge session"), sv)
      | Some t =>
          (Ok (binding_new (sh_sha256 sh) (session t) (host_text host) ip challenge
                 (admission_agent (vr_agent req)) (sh_revision sh)), sv)
      end.

(** The token [seal_pass] seals: the pass added to what the client carried. *)
Definition with_pass (t : Token) (challenge : string) (key : N) (res : list N) (lvl : N)
    (stack : option string) (now expiry : Z) : Token := {|
  session := session t;
  tk_state := <[challenge := {| tc_key := key_bytes key; tc_result := res; tc_level := lvl;
     tc_stack := default "" stack; tc_ok := true; tc_exp := expiry; tc_nbf := now; tc_iat := now |}]>
     (tk_state t);
  tk_pending := false;
  tk_exp := if (tk_exp t <? expiry)%Z then expiry else tk_exp t;
  tk_nbf := tk_nbf t; tk_iat := tk_iat t |}.

(** [seal_pass]. *)
Definition seal_pass (req : VerifyRequest) (host : CanonicalHost) (ip : IpAddr) (challenge : string)
    (key : N) (res : list N) (lvl duration : N) : result Response string :=
  let now := vr_now req in
  let expiry := add_secs now duration in
  t ← ok_or (body_text 403 "missing challenge session") (token (carried req (host_text host) ip));
  let t := with_pass t challenge key res lvl (vr_stack req) now expiry in
  let cookie_key := derive_cookie_key (sh_sha256 sh) (host_text host) (network_prefix (from_ip ip))
                      (sh_server_key sh) in
  match seal_token (vr_random req) t cookie_key with
  | Ok sealed => Ok (cookie_text (sh_sha256 sh) (host_text host) (is_ip host) sealed (tk_exp t))
  | Err _ => Err (body_text 500 "token error")
  end.

(** Answers early with the response of an error. *)
Definition or_respond {A} (r : result Response A * Server) (k : A -> Server -> Response * Server) :
    Response * Server :=
  match r with (Ok a, sv) => k a sv | (Err resp, sv) => (resp, sv) end.

Definition key_of_bytes (b : list N) : option N :=
  if (length b =? 32)%nat then Some (of_be_bytes b) else None.

Definition redeem_pending (sv : Server) (req : VerifyRequest) (key : N) (binding : ChallengeBinding)
    (lvl : N) : option N * Server :=
  let '(pass, table) := redeem (pending (sv_pending sv)) (vr_instant req) key binding lvl in
  (pass, {| sv_rates := sv_rates sv; sv_solves := sv_solves sv;
            sv_pending := {| pending := table; issuance := issuance (sv_pending sv);
                             verification := verification (sv_pending sv) |} |}).

(** The steps of [handle_verify] once the query, the challenge and the client are
    known. *)
Definition settle_redirect (req : VerifyRequest) (challenge token_hex redirect : string)
    (reg : ChallengeRegistration) (host : CanonicalHost) (ip : IpAddr) (sv : Server) : Response * Server :=
  if negb (bool_decide (redemption (runtime reg) = Redirect))
  then (body_text 400 "challenge needs a posted solution", sv)
  else or_respond (client_admit req host ip challenge sv) (fun binding sv =>
    match hexlower_decode token_hex ≫= key_of_bytes with
    | None => (body_text 400 "invalid token", sv)
    | Some key =>
        match redeem_pending sv req key binding 0 with
        | (None, sv) => (body_text 403 "invalid token", sv)
        | (Some challenge_key, sv) =>
            match seal_pass req host ip challenge challenge_key [] 0 (duration reg) with
            | Err resp => (resp, sv)
            | Ok cookie =>
                (response 307 [("location", redirect); ("set-cookie", cookie); no_cache] BEmpty, sv)
            end
        end
    end).

(** [handle_verify]. *)
Definition handle_verify (challenge : string) (req : VerifyRequest) (sv : Server) : Response * Server :=
  match query_param (vr_query req) "__bagel_token" with
  | None => (body_text 400 "missing token", sv)
  | Some token_hex =>
      let redirect := match query_param (vr_query req) "__bagel_redirect" with
                      | Some raw => percent_decode raw | None => "/" end in
      match safe_redirect redirect with
      | None => (body_text 400 "invalid redirect", sv)
      | Some redirect =>
          match sh_registry sh !! challenge, canonical_request_host (vr_authority req) (vr_host req),
                vr_ip req with
          | None, _, _ => (body_text 404 "unknown challenge", sv)
          | _, None, _ => (body_text 400 "invalid host", sv)
          | _, _, None => (body_text 400 "missing client address", sv)
          | Some reg, Some host, Some ip => settle_redirect req challenge token_hex redirect reg host ip sv
          end
      end
  end.

(** [trim_ascii]: the white space of [u8::is_ascii_whitespace]. *)
Definition is_ascii_whitespace (b : N) : bool :=
  (b =? 9) || (b =? 10) || (b =? 12) || (b =? 13) || (b =? 32).
Fixpoint trim_ascii_start (l : list N) : list N :=
  match l with b :: rest => if is_ascii_whitespace b then trim_ascii_start rest else l | [] => [] end.
Definition trim_ascii (l : list N) : list N := rev (trim_ascii_start (rev (trim_ascii_start l))).

(** The steps of [handle_pow_verify] once the client is admitted. *)
Definition settle_solution (req : VerifyRequest) (challenge : string) (reg : ChallengeRegistration)
    (p : PowChallenge) (host : CanonicalHost) (ip : IpAddr) (binding : ChallengeBinding) (sv : Server) :
    Response * Server :=
  match vr_body req with
  | TooLarge => (body_text 400 "body too large", sv)
  | TimedOut => (body_status 408, sv)
  | Body_ collected =>
      match match b64_decode (bytes_string (trim_ascii collected)) with
            | Ok blob => unpack_solution blob | Err _ => None end with
      | None => (body_text 400 "invalid solution", sv)
      | Some solution =>
          let lvl := s_difficulty solution in
          if negb (in_difficulty_range lvl) then (body_text 400 "invalid difficulty", sv)
          else if negb (vr_slot req) then (body_status 503, sv)
          else
            match redeem_pending sv req (of_be_bytes (s_key solution)) binding lvl with
            | (None, sv) => (body_text 403 "invalid or spent challenge", sv)
            | (Some challenge_key, sv) =>
                if negb (pow_verify (sh_sha256 sh) p (s_key solution) (s_nonce solution) lvl)
                then (body_text 403 "invalid proof of work", sv)
                else
                  let res := be_bytes 8 (s_nonce solution) ++ be_bytes 8 (s_probe solution) in
                  match seal_pass req host ip challenge challenge_key res lvl (duration_for reg lvl) with
                  | Err resp => (resp, sv)
                  | Ok cookie =>
                      (response 200 [("set-cookie", cookie); ("cache-control", "private, no-store");
                                     ("content-type", "application/json")]
                         (BText ("{" +:+ debug_str "ok" +:+ ":true}")),
                       {| sv_rates := sv_rates sv;
                          sv_solves := trackers_record (sv_solves sv) (host_text host) ip (vr_tick req);
                          sv_pending := sv_pending sv |})
                  end
            end
      end
  end.

(** [handle_pow_verify]; that the task of the proof itself fails is left out. *)
Definition handle_pow_verify (challenge : string) (req : VerifyRequest) (sv : Server) : Response * Server :=
  match sh_registry sh !! challenge, canonical_request_host (vr_authority req) (vr_host req),
        vr_ip req with
  | None, _, _ => (body_text 404 "unknown challenge", sv)
  | _, None, _ => (body_text 400 "invalid host", sv)
  | _, _, None => (body_text 400 "missing client address", sv)
  | Some reg, Some host, Some ip =>
      match runtime reg with
      | CPow p =>
          or_respond (client_admit req host ip challenge sv)
            (settle_solution req challenge reg p host ip)
      | _ => (body_text 400 "not a PoW challenge", sv)
      end
  end.

(** ** What a pass costs *)

Lemma admit_inv req host ip challenge sv r sv' :
  client_admit req host ip challenge sv = (r, sv') ->
  pending (sv_pending sv') = pending (sv_pending sv) /\
  match r with
  | Err resp => status resp <> 200 /\ status resp <> 307
  | Ok binding => exists t, token (carried req (host_text host) ip) = Some t /\
      binding = binding_new (sh_sha256 sh) (session t) (host_text host) ip challenge
                  (admission_agent (vr_agent req)) (sh_revision sh)
  end.
Proof.
  unfold client_admit, admit_verification. destruct (negb (sh_backend sh _)); [by intros [= <- <-]|].
  destruct (tracker_record _ _ _ _) as [rate ver]. destruct (negb (within_rate rate)); [by intros [= <- <-]|].
  destruct (token (carried _ _ _)) as [t|] eqn:E; intros [= <- <-]; (split; [done|]); [|done].
  by exists t.
Qed.

Lemma seal_pass_inv req host ip challenge key res lvl duration r :
  seal_pass req host ip challenge key res lvl duration = r ->
  match r with
  | Err resp => status resp <> 200 /\ status resp <> 307
  | Ok cookie => exists t sealed,
      token (carried req (host_text host) ip) = Some t /\
      let t' := with_pass t challenge key res lvl (vr_stack req) (vr_now req)
                  (add_secs (vr_now req) duration) in
      seal_token (vr_random req) t' (derive_cookie_key (sh_sha256 sh) (host_text host)
        (network_prefix (from_ip ip)) (sh_server_key sh)) = Ok sealed /\
      cookie = cookie_text (sh_sha256 sh) (host_text host) (is_ip host) sealed (tk_exp t')
  end.
Proof.
  unfold seal_pass. destruct (token (carried _ _ _)) as [t|]; [|by intros <-]. cbn [ok_or mbind result_bind].
  destruct (seal_token _ _ _) as [sealed|] eqn:E; intros <-; [|done]. by exists t, sealed.
Qed.

Lemma redeem_pending_inv sv req key binding lvl r sv' :
  redeem_pending sv req key binding lvl = (r, sv') ->
  match r with
  | None => True
  | Some pass => exists c,
      challenges (pending_expire (pending (sv_pending sv)) (vr_instant req)) !! key = Some c /\
      pc_binding c = b_digest binding /\ (level c = lvl \/ gpu_level c = Some lvl) /\
      pass_key c = pass /\ challenges (pending (sv_pending sv')) !! key = None
  end.
Proof.
  unfold redeem_pending. destruct (redeem _ _ _ _ _) as [pass table] eqn:E. intros [= <- <-].
  destruct pass as [pass|]; [|done]. apply redeem_inv in E as (c & Hc & Hb & Hl & Hp & ->).
  exists c. split_and!; try done. cbn. apply lookup_delete_eq.
Qed.

(** C5: A posted solution earns a pass only for work. When the endpoint answers
    200, the body was a solution in range whose proof holds at its level; its key
    was that of a live pending challenge bound to the client's session, host,
    network, user agent and the policy, at a level that was offered; the key is
    spent; and the cookie seals what the client carried with exactly that pass. *)
Theorem pow_pass_earned challenge req sv resp sv' :
  handle_pow_verify challenge req sv = (resp, sv') -> status resp = 200 ->
  exists reg p host ip t solution c body sealed,
    sh_registry sh !! challenge = Some reg /\ runtime reg = CPow p /\
    canonical_request_host (vr_authority req) (vr_host req) = Some host /\ vr_ip req = Some ip /\
    vr_body req = Body_ body /\
    (exists blob, b64_decode (bytes_string (trim_ascii body)) = Ok blob /\
                  unpack_solution blob = Some solution) /\
    let lvl := s_difficulty solution in
    let key := of_be_bytes (s_key solution) in
    1 <= lvl <= 32 /\ pow_verify (sh_sha256 sh) p (s_key solution) (s_nonce solution) lvl = true /\
    token (carried req (host_text host) ip) = Some t /\
    challenges (pending_expire (pending (sv_pending sv)) (vr_instant req)) !! key = Some c /\
    pc_binding c = b_digest (binding_new (sh_sha256 sh) (session t) (host_text host) ip challenge
                               (admission_agent (vr_agent req)) (sh_revision sh)) /\
    (level c = lvl \/ gpu_level c = Some lvl) /\
    challenges (pending (sv_pending sv')) !! key = None /\
    let t' := with_pass t challenge (pass_key c)
                (be_bytes 8 (s_nonce solution) ++ be_bytes 8 (s_probe solution)) lvl (vr_stack req)
                (vr_now req) (add_secs (vr_now req) (duration_for reg lvl)) in
    seal_token (vr_random req) t' (derive_cookie_key (sh_sha256 sh) (host_text host)
      (network_prefix (from_ip ip)) (sh_server_key sh)) = Ok sealed /\
    assoc "set-cookie" (rs_headers resp) =
      Some (cookie_text (sh_sha256 sh) (host_text host) (is_ip host) sealed (tk_exp t')).
Proof.
  intros H Hst. unfold handle_pow_verify in H.
  destruct (sh_registry sh !! challenge) as [reg|] eqn:Ereg; [|by injection H as <- <-].
  destruct (canonical_request_host _ _) as [host|] eqn:Eh; [|by injection H as <- <-].
  destruct (vr_ip req) as [ip|] eqn:Eip; [|by injection H as <- <-].
  destruct (runtime reg) as [| | |p] eqn:Ert; try by injection H as <- <-.
  unfold or_respond in H. destruct (client_admit _ _ _ _ _) as [[binding|r] sv1] eqn:Ea;
    apply admit_inv in Ea as [Hpend Ha]; [|injection H as <- <-; by destruct Ha].
  destruct Ha as (t & Ht & ->). unfold settle_solution in H.
  destruct (vr_body req) as [body| |] eqn:Eb; try by injection H as <- <-.
  destruct (b64_decode _) as [blob|] eqn:Ed; [|by injection H as <- <-].
  destruct (unpack_solution blob) as [solution|] eqn:Eu; [|by injection H as <- <-].
  destruct (in_difficulty_range (s_difficulty solution)) eqn:Er; [|by injection H as <- <-].
  destruct (vr_slot req); [|by injection H as <- <-]. cbn [negb] in H.
  destruct (redeem_pending _ _ _ _ _) as [[pass|] sv2] eqn:Ep; [|by injection H as <- <-].
  apply redeem_pending_inv in Ep as (c & Hc & Hbind & Hlvl & Hpass & Hgone).
  destruct (pow_verify _ _ _ _ _) eqn:Ev; [|by injection H as <- <-]. cbn [negb] in H.
  destruct (seal_pass _ _ _ _ _ _ _ _) as [cookie|r] eqn:Es; apply seal_pass_inv in Es;
    [|injection H as <- <-; by destruct Es].
  destruct Es as (t1 & sealed & Ht1 & Hs & ->). rewrite Ht in Ht1. injection Ht1 as <-.
  injection H as <- <-. rewrite Hpend in Hc. subst pass.
  exists reg, p, host, ip, t, solution, c, body, sealed. cbv zeta.
  unfold in_difficulty_range in Er. apply andb_true_iff in Er as [E1%N.leb_le E2%N.leb_le].
  split_and!; try done. by exists blob.
Qed.

(** ** What a pass is worth *)

Lemma str_is_empty_true s : str_is_empty s = true <-> s = "".
Proof. by destruct s. Qed.

(** A request after [seal_pass] that shows its cookie from the same network has
    the token sealed, or none once that is over. *)
Lemma sealed_state {SL : SealLaws} {SB : SealBinding} req t sealed host ip ip' now pair :
  let key := derive_cookie_key (sh_sha256 sh) host (client_prefix (Some ip)) (sh_server_key sh) in
  seal_token (vr_random req) t key = Ok sealed ->
  match vr_random req with Some nonce => length nonce = 12%nat | None => True end ->
  client_prefix ip' = client_prefix (Some ip) -> (tk_nbf t <= now)%Z ->
  find_cookie (cookie_name (sh_sha256 sh) host) [pair] = Some sealed ->
  token (from_headers (sh_sha256 sh) (sh_server_key sh) now [pair] host ip') =
    if (now <=? tk_exp t)%Z then Some t else None.
Proof.
  cbv zeta. intros Hseal Hr Hip Hnbf Hf. unfold from_headers. rewrite Hf. unfold open_cookie. rewrite Hip.
  destruct (Z.leb_spec now (tk_exp t)) as [Hle|Hlt].
  { by rewrite (open_sealed_token _ _ _ _ now Hseal Hr (conj Hnbf Hle)). }
  assert (Hno : forall key t', open_token now sealed key <> Ok t').
  { intros key t' Ho. destruct (decide (key = derive_cookie_key (sh_sha256 sh) host (client_prefix (Some ip))
      (sh_server_key sh))) as [->|Hne].
    - pose proof (open_sealed_late _ _ _ _ now Hseal Hr Hlt) as Hn. by rewrite Ho in Hn.
    - pose proof (open_sealed_other _ _ _ _ _ now Hseal Hne) as Hn. by rewrite Ho in Hn. }
  destruct (open_token now sealed (derive_cookie_key _ _ _ _)) as [t'|] eqn:E1; [by apply Hno in E1|].
  destruct (open_token now sealed (derive_pending_key _ _ _)) as [t'|] eqn:E2; [by apply Hno in E2|done].
Qed.

(** C6: A sealed pass is worth what it says, and no more. The cookie of
    [seal_pass], presented again from the same network, passes its challenge
    exactly while the pass has not expired and the challenge is checked under the
    key the pass was sealed with, at its level or a lower one, on the stack it was
    earned on (any stack, where none was seen); and until then every other pass
    the client carried counts as it did. Which keys the challenge is checked
    under moves on with the hours ([Challenge.already_passed]), so that a pass can
    be refused earlier ([Challenge.pass_lost_early]). The sealing takes twelve
    random bytes and refuses other keys. *)
Theorem sealed_pass_counts {SL : SealLaws} {SB : SealBinding}
    req host ip ip' challenge key res lvl duration cookie :
  seal_pass req host ip challenge key res lvl duration = Ok cookie ->
  match vr_random req with Some nonce => length nonce = 12%nat | None => True end ->
  client_prefix ip' = client_prefix (Some ip) ->
  exists pair attributes,
    split_once ";" cookie = Some (pair, attributes) /\
    forall now, (vr_now req <= now)%Z ->
    let later := from_headers (sh_sha256 sh) (sh_server_key sh) now [pair] (host_text host) ip' in
    (forall key' lvl' stack,
       is_challenge_passed now later challenge key' lvl' stack = true <->
       (now < add_secs (vr_now req) duration)%Z /\ key_bytes key' = key_bytes key /\ lvl' <= lvl /\
       (default "" (vr_stack req) = "" \/ stack_matches (default "" (vr_stack req)) stack = true)) /\
    ((now < add_secs (vr_now req) duration)%Z ->
     forall name k l stack, name <> challenge ->
       is_challenge_passed now later name k l stack =
       is_challenge_passed now (carried req (host_text host) ip) name k l stack).
Proof.
  intros Hs Hr Hip. apply seal_pass_inv in Hs as (t & sealed & Ht & Hseal & ->).
  set (t' := with_pass t challenge key res lvl (vr_stack req) (vr_now req) _) in *.
  pose proof (from_headers_valid _ _ _ _ _ _ _ Ht) as Hvalid.
  pose proof (seal_token_chars _ _ _ _ Hseal) as Hc.
  destruct (cookie_text_pair (sh_sha256 sh) (host_text host) (is_ip host) sealed (tk_exp t') Hc) as [a Ha].
  destruct (cookie_pair_found (sh_sha256 sh) (host_text host) sealed Hc) as [Hf _].
  eexists _, a. split; [exact Ha|]. cbv zeta. intros now Hnow.
  assert (Htok := sealed_state req t' sealed (host_text host) ip ip' now _ Hseal Hr Hip
    ltac:(unfold t', with_pass; cbn [tk_nbf]; lia) Hf).
  unfold is_challenge_passed. rewrite Htok, Ht.
  assert (Hexp : (add_secs (vr_now req) duration <= tk_exp t')%Z).
  { unfold t', with_pass. cbn [tk_exp]. destruct (Z.ltb_spec (tk_exp t) (add_secs (vr_now req) duration)); lia. }
  split.
  - intros key' lvl' stack. destruct (Z.leb_spec now (tk_exp t')); [|by split; [|lia]].
    unfold t' at 1, with_pass. cbn [mbind option_bind tk_state].
    rewrite lookup_insert_eq. cbn [tc_ok tc_exp tc_level tc_stack tc_key].
    rewrite !andb_true_iff, Z.ltb_lt, N.leb_le, orb_true_iff, bool_decide_eq_true, str_is_empty_true.
    split; [intros ((((_ & ?) & ?) & ?) & ?)|intros (? & ? & ? & ?)]; by split_and!.
  - intros Hlt name k l stack Hne. destruct (Z.leb_spec now (tk_exp t')); [|lia]. unfold t', with_pass.
    cbn [mbind option_bind tk_state]. by rewrite lookup_insert_ne.
Qed.

End Verify.

(** ** What the solver finds, the server accepts *)

Lemma key_bytes_length k : length (key_bytes k) = 32%nat.
Proof. apply be_bytes_length. Qed.

Lemma pow_verify_accepts sha p k nonce lvl :
  (forall m, be_bytes 32 (sha m) = sha256 m) -> length k = 32%nat ->
  pow_verify sha p k nonce lvl = proof_accepts (pow_kind p) k (blocks_log2 p) nonce lvl.
Proof.
  intros Hsha Hk. unfold pow_verify, proof_accepts. destruct (pow_kind p); [by rewrite Hsha|].
  edestruct (pad_satisfies_spec k (replicate (N.to_nat (2 ^ blocks_log2 p)) (replicate 32 0))
    (key_block_new k) nonce (blocks_log2 p) lvl) as (p' & -> & _); [done|by apply key_block_new_for| |done].
  rewrite length_replicate, N2Nat.id. done.
Qed.

(** C7: The two ends of a proof of work agree. From any sound state of the solver,
    the handoff of a challenge is understood; and whatever nonce the search comes
    back with, sealed at the level of the challenge, is a solution the server
    reads, with the key of the challenge, and accepts. *)
Theorem solved_challenge_verifies sha p challenge_key lvl st iv iv' start count hi lo :
  (forall m, be_bytes 32 (sha m) = sha256 m) ->
  (pow_kind p = Scratch -> blocks_log2 p <= MAX_BLOCKS_LOG2) -> 1 <= lvl <= 32 ->
  solver_wf st -> length iv = IV_LEN -> hi <= u32_max -> lo <= u32_max ->
  exists levels st1,
    Exports.unpack (N.of_nat HANDOFF_LEN)
      (Exports.host_write (pack_handoff iv (pow_handoff p challenge_key lvl)) st) = (levels, st1) /\
    (0 <= levels)%Z /\
    forall nonce, (Exports.solve start count st1).1 = Z.of_N nonce ->
      let '(len, st3) := Exports.seal nonce iv' hi lo lvl (Exports.solve start count st1).2 in
      exists s, unpack_solution (take (N.to_nat len) (Exports.buf st3)) = Some s /\
        s_key s = key_bytes challenge_key /\ s_nonce s = nonce /\ s_difficulty s = lvl /\
        pow_verify sha p (s_key s) (s_nonce s) (s_difficulty s) = true.
Proof.
  intros Hsha Hblocks Hlvl Hst Hiv Hhi Hlo. set (h := pow_handoff p challenge_key lvl).
  assert (Hh : handoff_wf h) by (split; [apply key_bytes_length|exact Hblocks]).
  eexists _, _. split; [by apply unpack_written|]. split; [lia|]. intros nonce Hn.
  match goal with |- context [Exports.solve start count ?s] => set (st1 := s) in * end.
  assert (Hw1 : solver_wf st1).
  { pose proof (unpack_wf (N.of_nat HANDOFF_LEN) (Exports.host_write (pack_handoff iv h) st)) as Hw.
    rewrite unpack_written in Hw by done. apply Hw, host_write_wf; [|done].
    destruct (unpack_pack_handoff_eq iv h Hiv (proj1 Hh)) as [_ ->]. vm_compute. lia. }
  destruct (solve_search start count st1 Hw1) as [Hr Hw2]. rewrite Hr in Hn.
  assert (Hhand : Exports.handoff (Exports.solve start count st1).2 = h).
  { unfold Exports.solve. by destruct (match h_kind _ with Sha256 => _ | Scratch => _ end). }
  destruct (first_from _ _ start) as [x|] eqn:Ef; [|lia].
  destruct (N.leb_spec x i64_max) as [Hx|]; [|lia]. apply N2Z.inj in Hn as <-.
  apply first_from_some in Ef as (_ & Hok & _).
  pose proof (seal_wf x iv' hi lo lvl _ Hw2 ltac:(unfold i64_max, u64_max in *; lia) Hhi Hlo) as Hseal.
  destruct (Exports.seal _ _ _ _ _ _) as [len st3]. destruct Hseal as [Hu _].
  eexists. split; [exact Hu|]. unfold Exports.seal_solution. cbn [s_key s_nonce s_difficulty]. rewrite Hhand.
  rewrite N.min_l by lia. split_and!; [done..|].
  rewrite pow_verify_accepts by (done || apply key_bytes_length). exact Hok.
Qed.

(** ** A concrete exchange, for the examples *)

Module Exchange.

Definition sha (m : list N) : N := of_be_bytes (sha256 m).
Lemma sha_is_sha256 m : be_bytes 32 (sha m) = sha256 m.
Proof. unfold sha. rewrite <- (sha256_length m) at 1. apply of_be_bytes_inv, sha_bytes_spec. Qed.

Definition pow : PowChallenge := {|
  pow_kind := Sha256; difficulty := 2; blocks_log2 := 0; gpu_difficulty := None;
  gpu_required := false; embed_card := false |}.
Definition reg : ChallengeRegistration := {|
  class := Blocking; duration := 3600; gpu_duration := None; runtime := CPow pow |}.
Definition ip : IpAddr := V4 0xC0000201.
Definition host : CanonicalHost := {| host_text := "a.example"; host_ip := None |}.
Definition tokens (now : Z) (nonce : N) : list Token :=
  [Plain.token; with_pass Plain.token "pow" 42 (be_bytes 8 nonce ++ be_bytes 8 0) 2 None now (now + 3600)].
Definition api : SealApi := Plain.api (tokens 1500 2).
Definition hex : HexApi := {| hexlower_decode _ := None |}.
Definition shared : Shared := {|
  sh_sha256 := Plain.hash; sh_hash _ := 0; sh_server_key := [9]; sh_registry := {["pow" := reg]};
  sh_revision := 1; sh_backend _ := true |}.

(** The client's session, and the challenge pending for it. *)
Definition session_cookie : string :=
  match @seal_token api (Some (replicate 12 0)) Plain.token
          (derive_cookie_key Plain.hash "a.example" (network_prefix (from_ip ip)) [9]) with
  | Ok sealed => cookie_name Plain.hash "a.example" +:+ "=" +:+ sealed
  | Err _ => ""
  end.
Definition binding : ChallengeBinding :=
  binding_new Plain.hash (session Plain.token) "a.example" ip "pow" (string_bytes "unknown") 1.
Definition server : Server := {|
  sv_rates := tracker_new 16; sv_solves := tracker_new 16;
  sv_pending := {| pending := (issue_table table_default 0 [5] binding 42 2 None 3600000000000).2;
                   issuance := tracker_new 16; verification := tracker_new 16 |} |}.

(** The solution the solver posts. *)
Definition posted (nonce : N) : list N :=
  string_bytes (@b64_encode api (pack_solution [1; 2; 3; 4]
    {| s_key := key_bytes 5; s_nonce := nonce; s_difficulty := 2; s_probe := 0 |})).
Definition request (nonce : N) : VerifyRequest := {|
  vr_query := None; vr_authority := None; vr_host := Some "A.Example:443";
  vr_cookies := [session_cookie]; vr_agent := None; vr_body := Body_ (posted nonce); vr_ip := Some ip;
  vr_stack := None; vr_now := 1500; vr_tick := 0; vr_instant := 1000;
  vr_random := Some (replicate 12 1); vr_slot := true |}.

End Exchange.

Lemma pow_pass_earned_witness :
  let r := @handle_pow_verify Exchange.api Exchange.shared "pow" (Exchange.request 2) Exchange.server in
  status r.1 = 200 /\ challenges (pending (sv_pending r.2)) !! 5 = None.
Proof.
  cbv zeta.
  destruct (@handle_pow_verify Exchange.api Exchange.shared "pow" (Exchange.request 2) Exchange.server)
    as [resp sv'] eqn:E.
  assert (Hst : status resp = 200).
  { assert (Hr : status (@handle_pow_verify Exchange.api Exchange.shared "pow" (Exchange.request 2)
                           Exchange.server).1 = 200) by vm_refl.
    by rewrite E in Hr. }
  split; [exact Hst|].
  destruct (@pow_pass_earned Exchange.api Exchange.shared "pow" (Exchange.request 2) Exchange.server
    resp sv' E Hst) as (reg & p & host & ip & t & s & c & body & sealed & _ & _ & _ & _ & Hb & Hs & H).
  injection Hb as <-. destruct Hs as (blob & Hd & Hu).
  assert (Hk : match match @b64_decode Exchange.api (bytes_string (trim_ascii (Exchange.posted 2))) with
                     | Ok b => unpack_solution b | Err _ => None end with
               | Some s => of_be_bytes (s_key s) | None => 0 end = 5) by vm_refl.
  rewrite Hd, Hu in Hk. destruct H as (_ & _ & _ & _ & _ & _ & Hgone & _). by rewrite Hk in Hgone.
Defined.

Lemma sealed_pass_counts_witness :
  match @seal_pass Exchange.api Exchange.shared (Exchange.request 2) Exchange.host Exchange.ip "pow" 42
          (be_bytes 8 2 ++ be_bytes 8 0) 2 3600 with
  | Ok cookie => exists pair attributes, split_once ";" cookie = Some (pair, attributes) /\
      let passed now key lvl := is_challenge_passed now
        (@from_headers Exchange.api Plain.hash [9] now [pair] "a.example" (Some Exchange.ip)) "pow" key lvl (Some "tls") in
      passed 2000%Z 42 1 = true /\ passed 5100%Z 42 1 <> true
  | Err _ => False
  end.
Proof.
  destruct (@seal_pass Exchange.api Exchange.shared (Exchange.request 2) Exchange.host Exchange.ip "pow" 42
    (be_bytes 8 2 ++ be_bytes 8 0) 2 3600) as [cookie|resp] eqn:E.
  - destruct (@sealed_pass_counts Exchange.api Exchange.shared (Plain.laws _) (Plain.binding _) (Exchange.request 2)
      Exchange.host Exchange.ip (Some Exchange.ip) "pow" 42 _ 2 3600 cookie E) as (pair & a & Ha & Hn);
      [done|done|].
    exists pair, a. split; [exact Ha|]. cbv zeta. split.
    + destruct (Hn 2000%Z) as [Hp _]; [vm_compute; congruence|]. apply Hp. vm_compute.
      split_and!; [done|done|congruence|by left].
    + destruct (Hn 5100%Z) as [Hp _]; [vm_compute; congruence|]. intros [Hlt _]%Hp. by vm_compute in Hlt.
  - assert (Hok : is_ok (@seal_pass Exchange.api Exchange.shared (Exchange.request 2) Exchange.host
      Exchange.ip "pow" 42 (be_bytes 8 2 ++ be_bytes 8 0) 2 3600) = true) by vm_refl.
    by rewrite E in Hok.
Defined.

Lemma solved_challenge_verifies_witness :
  exists nonce, pow_verify Exchange.sha Exchange.pow (key_bytes 5) nonce 2 = true.
Proof.
  destruct (solved_challenge_verifies Exchange.sha Exchange.pow 5 2 example_solver [1; 2; 3; 4] 7 0 10 0 0
    Exchange.sha_is_sha256) as (levels & st1 & Hu & _ & Hn); [done|lia|apply example_solver_wf|done|
    vm_compute; congruence|vm_compute; congruence|].
  assert (Hs : (Exports.solve 0 10 (Exports.unpack (N.of_nat HANDOFF_LEN)
    (Exports.host_write (pack_handoff [1; 2; 3; 4] (pow_handoff Exchange.pow 5 2)) example_solver)).2).1 = 2%Z)
    by vm_refl.
  rewrite Hu in Hs. specialize (Hn 2 Hs). destruct (Exports.seal _ _ _ _ _ _) as [len st3].
  destruct Hn as (s & _ & Hk & Hx & Hl & Hv). exists 2. by rewrite Hk, Hx, Hl in Hv.
Defined.

(** A User-Agent that is not text binds differently when the challenge is issued
    and when it is redeemed. *)
Lemma opaque_agent_mismatch to_str agent :
  to_str agent = None -> agent <> string_bytes "unknown" ->
  evaluation_agent to_str (Some agent) <> admission_agent (Some agent).
Proof. intros E Hne. unfold evaluation_agent. cbn [mbind option_bind]. rewrite E. by intros H. Qed.
