(* ===== verification/Page.v ===== *)
(** * Challenge and error pages

    [crates/bagel-web/src/template.rs], and what fills it: the chrome and the pages of
    [challenge/types.rs], [refresh.rs], [cookie.rs] and [pow.rs]. A template is the
    markup it stands for ([Html.Node]); the stylesheets and the address of the runtime
    are arguments, and so is the base64 of another crate. *)

From S2P Require Import Prelude Host Core Ip Strings Bytes Url Solver.
From S2P Require Import Document Policy Proxy WebConfig Rule Scoring Pending Condition.
From S2P Require Import Challenge Evaluate Verify Html.

Local Open Scope N_scope.

(** ** Themes *)

Module Theme.
Inductive t : Type := Gruvbox | Minimal.
Definition as_str (x : t) : string := match x with Gruvbox => "gruvbox" | Minimal => "minimal" end.
Definition light_theme_color (x : t) : string := match x with Gruvbox => "#fbf1c7" | Minimal => "#ffffff" end.
Definition dark_theme_color (x : t) : string := match x with Gruvbox => "#282828" | Minimal => "#ffffff" end.
Definition from (name : option string) : t :=
  match name with Some n => if String.eqb n "minimal" then Minimal else Gruvbox | None => Gruvbox end.
End Theme.

(** [theme_var]. *)
Definition theme_var (name : string) : option string :=
  if str_mem name ["fg"; "bg"; "accent"; "card-bg"; "border"; "error"; "title-color"; "link-color"; "radius"; "font"]
  then Some ("--bagel-" +:+ name) else None.
(** [append] of [theme_style]: the declarations of one rule. *)
Definition theme_declaration (var : ThemeVar) : string :=
  match (match theme_var (tv_name var) with
         | Some property => Some property
         | None => if String.eqb (tv_name var) "color-scheme" then Some "color-scheme" else None
         end) with
  | Some property => property +:+ ":" +:+ tv_value var +:+ ";"
  | None => ""
  end.
Definition theme_rule (vars : list ThemeVar) : string :=
  ".bagel-widget[data-theme]{" +:+ str_join "" (theme_declaration <$> vars) +:+ "}".
Definition scheme_rule (custom : CustomTheme) (scheme : string) (vars : list ThemeVar) : string :=
  match vars with
  | [] => ""
  | _ =>
      match theme_get custom "color-scheme" with
      | Some chosen =>
          if str_mem chosen ["light"; "dark"] then if String.eqb chosen scheme then theme_rule vars else ""
          else "@media(prefers-color-scheme:" +:+ scheme +:+ "){" +:+ theme_rule vars +:+ "}"
      | None => "@media(prefers-color-scheme:" +:+ scheme +:+ "){" +:+ theme_rule vars +:+ "}"
      end
  end.
Definition theme_style (custom : CustomTheme) : string :=
  match ct_vars custom with [] => "" | vars => theme_rule vars end +:+
  scheme_rule custom "light" (ct_light custom) +:+ scheme_rule custom "dark" (ct_dark custom).

(** ** Widgets *)

Module Presentation.
Inductive t : Type := Card | Hidden.
End Presentation.
Definition is_hidden (p : Presentation.t) : bool := match p with Presentation.Hidden => true | Presentation.Card => false end.
Record LoaderData : Type := { ld_payload : string; ld_verify_url : string; ld_solver_url : string; ld_background : bool }.
Record Widget : Type := {
  wd_body : list Node; wd_presentation : Presentation.t; wd_script : option string; wd_loader : option LoaderData }.
Definition widget_card (body : list Node) : Widget :=
  {| wd_body := body; wd_presentation := Presentation.Card; wd_script := None; wd_loader := None |}.
Definition widget_hidden : Widget :=
  {| wd_body := []; wd_presentation := Presentation.Hidden; wd_script := None; wd_loader := None |}.
Definition driven_by (script : string) (loader : LoaderData) (w : Widget) : Widget :=
  {| wd_body := wd_body w; wd_presentation := wd_presentation w; wd_script := Some script; wd_loader := Some loader |}.

Record Chrome : Type := { ch_title : string; ch_message : string; ch_links : list LinkConfig; ch_logo : option string }.
Definition NOSCRIPT : string :=
  "JavaScript is required to complete this challenge. Please enable JavaScript and reload the page.".

(** [card]. *)
Definition attr (name value : string) : Attr := (name, Some value).
Definition card (chrome : Chrome) (extra : list Node) : list Node := [
  NElem "div" [attr "class" "card"] (
    match ch_logo chrome with
    | Some logo =>
        if str_is_empty logo then []
        else [NVoid "img" [attr "class" "logo"; attr "src" logo; attr "alt" "Logo"; attr "decoding" "async"]]
    | None => []
    end ++
    [NElem "h1" [] [NText (ch_title chrome)];
     NElem "div" [attr "class" "spinner"; attr "role" "status"; attr "aria-label" "Verifying"] [];
     NElem "p" [] [NText (ch_message chrome)];
     NElem "noscript" [] [NElem "p" [] [NText NOSCRIPT]]] ++
    extra ++
    match ch_links chrome with
    | [] => []
    | links =>
        [NElem "nav" [attr "class" "links"; attr "aria-label" "Related links"]
           ((fun link => NElem "a" [attr "href" (lk_url link)] [NText (lk_name link)]) <$> links)]
    end)].

(** [host] and [script_tag]. *)
Definition data_attr (name : string) (v : option string) : list Attr :=
  match v with Some v => [attr name v] | None => [] end.
Definition host (widget : Widget) (shadow : option (list Node)) : Node :=
  NElem "bagel-challenge"
    ((if is_hidden (wd_presentation widget) then [("hidden", None)] else []) ++
     data_attr "data-p" (ld_payload <$> wd_loader widget) ++ data_attr "data-v" (ld_verify_url <$> wd_loader widget) ++
     data_attr "data-s" (ld_solver_url <$> wd_loader widget) ++
     data_attr "data-mode" (loader ← wd_loader widget; if ld_background loader then Some "background" else None))
    (default (wd_body widget) shadow).
Definition script_tag (widget : Widget) : list Node :=
  match wd_script widget with Some src => [NRaw "script" [attr "type" "module"; attr "src" src] ""] | None => [] end.

(** ** Tags of the origin *)

(** The attributes of a tag, in the order of their names. *)
Definition render_attr (a : string * string) : string :=
  if is_attr_name a.1 then " " +:+ a.1 +:+ "=" +:+ dquote +:+ escape a.2 +:+ dquote else "".
Definition render_tag (name : string) (attrs : Attrs) : string := "<" +:+ name +:+ str_join "" (render_attr <$> attrs) +:+ ">".
Definition render_tags (name : string) (tags : list Attrs) : string := str_join "" (render_tag name <$> tags).

(** ** Documents *)

Section Page.
Variables (DOCUMENT_CSS WIDGET_CSS : string).

Definition doctype : Node := NPre "<!DOCTYPE html>".
Definition meta (l : list Attr) : Node := NVoid "meta" l.
(** The [head] both documents begin with. *)
Definition head_nodes (theme : Theme.t) (custom : CustomTheme) (title : string) : list Node := [
  meta [attr "charset" "utf-8"];
  meta [attr "name" "viewport"; attr "content" "width=device-width, initial-scale=1"];
  meta [attr "name" "color-scheme"; attr "content" (default "light dark" (theme_get custom "color-scheme"))];
  meta [attr "name" "theme-color"; attr "media" "(prefers-color-scheme: light)";
        attr "content" (default (Theme.light_theme_color theme) (theme_get_for_scheme custom "bg" "light"))];
  meta [attr "name" "theme-color"; attr "media" "(prefers-color-scheme: dark)";
        attr "content" (default (Theme.dark_theme_color theme) (theme_get_for_scheme custom "bg" "dark"))];
  NElem "title" [] [NText title];
  NRaw "style" [] (DOCUMENT_CSS +:+ WIDGET_CSS +:+ theme_style custom)].
Definition body_node (theme : Theme.t) (children : list Node) : Node :=
  NElem "body" [attr "class" "bagel-widget"; attr "data-theme" (Theme.as_str theme)] children.

Record ChallengePage : Type := {
  cp_title : string; cp_meta_tags : list Attrs; cp_link_tags : list Attrs; cp_widget : Widget }.
Definition document_nodes (theme : Theme.t) (custom : CustomTheme) (page : ChallengePage) : list Node := [
  doctype;
  NElem "html" [attr "lang" "en"] [
    NElem "head" [] (head_nodes theme custom (cp_title page) ++
      [NPre (render_tags "meta" (cp_meta_tags page)); NPre (render_tags "link" (cp_link_tags page))]);
    body_node theme (host (cp_widget page) None :: script_tag (cp_widget page))]].
Definition render_document (theme : Theme.t) (custom : CustomTheme) (page : ChallengePage) : string :=
  serialize_all (document_nodes theme custom page).

Definition embed_nodes (theme : Theme.t) (custom : CustomTheme) (widget : Widget) : list Node :=
  let shadow :=
    match wd_presentation widget with
    | Presentation.Card =>
        Some [NElem "template" [attr "shadowrootmode" "open"] [
          NRaw "style" [] (WIDGET_CSS +:+ theme_style custom);
          NElem "div" [attr "class" "bagel-widget"; attr "data-theme" (Theme.as_str theme)] (wd_body widget)]]
    | Presentation.Hidden => None
    end in
  host widget shadow :: script_tag widget.
Definition render_embed (theme : Theme.t) (custom : CustomTheme) (widget : Widget) : string :=
  serialize_all (embed_nodes theme custom widget).

Definition error_nodes (theme : Theme.t) (custom : CustomTheme) (status_code : N) (title message : string)
    (error : option string) : list Node := [
  doctype;
  NElem "html" [attr "lang" "en"] [
    NElem "head" [] (head_nodes theme custom title);
    body_node theme [
      NElem "main" [attr "class" "card"] (
        [NElem "div" [attr "class" "code"] [NText (show_N status_code)];
         NElem "h1" [] [NText title]; NElem "p" [] [NText message]] ++
        match error with
        | Some detail => if str_is_empty detail then [] else [NElem "p" [attr "class" "detail"] [NText detail]]
        | None => []
        end)]]].
Definition render_error (theme : Theme.t) (custom : CustomTheme) (status_code : N) (title message : string)
    (error : option string) : string :=
  serialize_all (error_nodes theme custom status_code title message error).

(** ** The pages of challenges *)

(** [ChallengeContext]; what no page shows is left out. *)
Record PageContext : Type := {
  px_name : string; px_key : N; px_request_uri : string; px_meta_tags : list Attrs; px_link_tags : list Attrs;
  px_strings : gmap string string; px_links : list LinkConfig; px_logo : option string; px_difficulty : option N;
  px_solver_url : string }.
(** [chrome] and [challenge_page]. *)
Definition chrome (ctx : PageContext) : Chrome := {|
  ch_title := default "Checking your browser..." (px_strings ctx !! "title-challenge");
  ch_message := default "This is an automated check. Please wait a moment." (px_strings ctx !! "message-challenge");
  ch_links := px_links ctx; ch_logo := px_logo ctx |}.
Definition challenge_page (ctx : PageContext) (extra_meta : list Attrs) (title : string) (widget : Widget) : ChallengePage := {|
  cp_title := title; cp_meta_tags := px_meta_tags ctx ++ extra_meta; cp_link_tags := px_link_tags ctx; cp_widget := widget |}.

(** The address a page sends the client to. *)
Definition page_verify (ctx : PageContext) : string :=
  verify_url (px_name ctx) (hex_encode (key_bytes (px_key ctx))) (px_request_uri ctx).
(** [RefreshChallenge::issue], the page of it. *)
Definition refresh_meta (mode : RefreshMode) (verify : string) : list Attrs :=
  match mode with RMeta => [[("content", "0;url=" +:+ verify); ("http-equiv", "refresh")]] | _ => [] end.
Definition refresh_extra (mode : RefreshMode) (verify : string) : list Node :=
  match mode with RJavascript => [NRaw "script" [] ("window.location.href='" +:+ verify +:+ "';")] | _ => [] end.
Definition refresh_page (ctx : PageContext) (mode : RefreshMode) : ChallengePage :=
  let verify := page_verify ctx in
  let c := chrome ctx in
  challenge_page ctx (refresh_meta mode verify) (ch_title c) (widget_card (card c (refresh_extra mode verify))).

(** [PowChallenge::widget], [issue] and [embed_widget]. *)
Variables (base64url : list N -> string) (RUNTIME_URL : string).
Definition pow_widget (p : PowChallenge) (iv : list N) (ctx : PageContext) (presentation : Presentation.t) (background : bool) : Widget :=
  let level := default (difficulty p) (px_difficulty ctx) in
  let loader := {|
    ld_payload := base64url (pack_handoff iv (pow_handoff p (px_key ctx) level));
    ld_verify_url := "/__bagel/" +:+ px_name ctx +:+ "/verify";
    ld_solver_url := px_solver_url ctx; ld_background := background |} in
  driven_by RUNTIME_URL loader
    match presentation with
    | Presentation.Hidden => widget_hidden
    | Presentation.Card =>
        widget_card (card (chrome ctx)
          [NElem "p" [attr "class" "bagel-status"; attr "role" "status"; attr "aria-live" "polite"] [NText "Solving challenge..."]])
    end.
Definition pow_page (p : PowChallenge) (iv : list N) (ctx : PageContext) : ChallengePage :=
  challenge_page ctx [] (ch_title (chrome ctx)) (pow_widget p iv ctx Presentation.Card false).
(** The page of a challenge, for those that show one. *)
Definition issued_page (rt : ChallengeRuntime) (iv : list N) (ctx : PageContext) : option ChallengePage :=
  match rt with
  | CRefresh mode => Some (refresh_page ctx mode)
  | CPow p => Some (pow_page p iv ctx)
  | CCookie | CDnsbl _ _ => None
  end.
Definition embed_presentation (p : PowChallenge) : Presentation.t := if embed_card p then Presentation.Card else Presentation.Hidden.
Definition embed_widget (rt : ChallengeRuntime) (iv : list N) (ctx : PageContext) : option Widget :=
  match rt with CPow p => Some (pow_widget p iv ctx (embed_presentation p) true) | _ => None end.
End Page.

(** * Pages that keep their structure

    What the configuration, the origin and the client put into a challenge page, an
    error page or an embedded widget is text and values in it: the page reads back as
    its template, element by element. *)

Local Open Scope N_scope.

(** ** Styles *)

Lemma no_lt_app s t : no_lt (s +:+ t) = no_lt s && no_lt t.
Proof. apply str_all_app. Qed.
Lemma no_lt_join l : Forall (fun s => no_lt s = true) l -> no_lt (str_join "" l) = true.
Proof. by apply str_all_join. Qed.
Lemma no_lt_impl (p : ascii -> bool) s :
  (forall c, p c = true -> negb (byte_of c =? 60) = true) -> str_all p s = true -> no_lt s = true.
Proof. apply str_all_impl. Qed.
Lemma hex_no_lt s : str_all is_ascii_hexdigit s = true -> no_lt s = true.
Proof. apply str_all_impl. intros c. by_char c. Qed.

Lemma hex_color_no_lt v : is_hex_color v = true -> no_lt v = true.
Proof.
  unfold is_hex_color. intros [H Hd]%andb_true_iff. destruct (strip_prefix "#" v) as [r|] eqn:E; [|done].
  apply strip_prefix_some in E as ->. rewrite no_lt_app. by apply hex_no_lt.
Qed.
Lemma first_suffix_some l v r : first_suffix l v = Some r -> exists p, p ∈ l /\ v = r +:+ p.
Proof.
  unfold first_suffix. induction l as [|p l IH]; [done|]. cbn. destruct (strip_suffix p v) as [x|] eqn:E.
  - intros [= ->]. exists p. split; [left|by apply strip_suffix_some].
  - intros (q & Hq & ->)%IH. exists q. split; [by right|done].
Qed.
Lemma css_length_no_lt v : is_css_length v = true -> no_lt v = true.
Proof.
  unfold is_css_length. destruct (String.eqb_spec v "0") as [->|_]; [done|].
  destruct (first_suffix ["px"; "rem"; "em"; "%"] v) as [r|] eqn:E; [|done].
  change (default "" (Some r)) with r. cbv zeta. destruct (str_is_empty r) eqn:Er; [done|]. intros H.
  apply first_suffix_some in E as (p & Hp & ->). rewrite no_lt_app.
  assert (no_lt p = true) as ->.
  { repeat (apply elem_of_cons in Hp as [->|Hp]; [done|]). by apply elem_of_nil in Hp. }
  rewrite andb_true_r.
  assert (Hd : forall s, negb (str_is_empty s) && str_all is_ascii_digit s = true -> str_all is_ascii_digit s = true)
    by (intros s [_ Hs]%andb_true_iff; exact Hs).
  apply (no_lt_impl (fun c => is_ascii_digit c || char_eqb c ".")); [intros c; by_char c|].
  apply str_all_split. destruct (str_split "." r) as [|w [|f [|? ?]]]; try discriminate H.
  - apply Hd in H. cbn. by rewrite H.
  - apply andb_true_iff in H as [Hw Hf]. apply Hd in Hw, Hf. cbn. by rewrite Hw, Hf.
Qed.
(** A value the configuration lets through cannot leave the style element. *)
Lemma validated_no_lt n v : theme_validate n v = Ok tt -> no_lt v = true.
Proof.
  unfold theme_validate. destruct (str_mem n COLORS).
  { destruct (is_hex_color v) eqn:E; [|done]. intros _. by apply hex_color_no_lt. }
  destruct (String.eqb n "radius").
  { destruct (is_css_length v) eqn:E; [|done]. intros _. by apply css_length_no_lt. }
  destruct (String.eqb n "font").
  { destruct (str_is_empty v); [done|]. cbn. destruct (str_all is_font_char v) eqn:E; [|done]. intros _.
    revert E. apply no_lt_impl. intros c. by_char c. }
  destruct (String.eqb n "color-scheme"); [|done].
  destruct (str_mem v ["light"; "dark"; "light dark"]) eqn:E; [|done]. intros _.
  unfold str_mem in E. cbn in E. rewrite !orb_true_iff in E.
  by destruct E as [->%String.eqb_eq|[->%String.eqb_eq|[->%String.eqb_eq|E]]].
Qed.

(** What [CustomTheme::decode] returns: every value was validated. *)
Definition var_ok (var : ThemeVar) : Prop := theme_validate (tv_name var) (tv_value var) = Ok tt.
Definition theme_ok (custom : CustomTheme) : Prop :=
  Forall var_ok (ct_vars custom) /\ Forall var_ok (ct_light custom) /\ Forall var_ok (ct_dark custom).

Section Loaded.
Context `{K : Knead} {SD : SectionDecoders} {WD : WebDecoders}.
Lemma decode_vars_ok d vars d' : decode_vars d = (Ok vars, d') -> Forall var_ok vars.
Proof.
  unfold decode_vars, dec_bind. destruct (decode _) as [[list|e] d1]; [|done]. intros [= H <-]. revert vars H.
  induction (entries_of list) as [|x l IH]; intros vars H; cbn in H; [by injection H as <-|].
  destruct (theme_validate (se_key x) (se_value x)) as [[]|] eqn:E; [|done]. cbn in H.
  destruct (traverse _ l) as [ys|]; [|done]. cbn in H. injection H as <-. constructor; [exact E|by apply IH].
Qed.
Lemma decode_scheme_ok scheme d vars d' : decode_scheme scheme d = (Ok vars, d') -> Forall var_ok vars.
Proof.
  unfold decode_scheme, dec_bind, dec_lift. destruct (decoder_child scheme d) as [[node|] d1]; [|done].
  intros [= H _]. destruct node as [node|]; [|injection H as <-; constructor].
  destruct (decode_vars (decoder_new node)) as [[v|] d2] eqn:E; [|done]. cbn in H.
  destruct (decoder_finish d2); [|done]. injection H as <-. by eapply decode_vars_ok.
Qed.
Lemma custom_theme_ok d custom d' : decode (A := CustomTheme) d = (Ok custom, d') -> theme_ok custom.
Proof.
  unfold decode, custom_theme_decode, dec_bind.
  destruct (decode_scheme "light" d) as [[light|] d1] eqn:E1; [|done].
  destruct (decode_scheme "dark" d1) as [[dark|] d2] eqn:E2; [|done].
  destruct (decode_vars d2) as [[vars|] d3] eqn:E3; [|done]. intros [= <- _].
  split_and!; [by eapply decode_vars_ok|by eapply decode_scheme_ok..].
Qed.
End Loaded.
Lemma theme_var_no_lt n p : theme_var n = Some p -> no_lt p = true.
Proof.
  unfold theme_var. destruct (str_mem n _) eqn:E; [|done]. intros [= <-].
  unfold str_mem in E. cbn in E. rewrite !orb_true_iff in E.
  repeat destruct E as [->%String.eqb_eq|E]; done.
Qed.
Lemma declaration_no_lt var : var_ok var -> no_lt (theme_declaration var) = true.
Proof.
  intros Hv%validated_no_lt. unfold theme_declaration.
  destruct (theme_var (tv_name var)) as [p|] eqn:E.
  - apply theme_var_no_lt in E. by rewrite !no_lt_app, E, Hv.
  - destruct (String.eqb _ _); [|done]. by rewrite !no_lt_app, Hv.
Qed.
Lemma rule_no_lt vars : Forall var_ok vars -> no_lt (theme_rule vars) = true.
Proof.
  intros H. unfold theme_rule. rewrite !no_lt_app, no_lt_join; [done|].
  apply Forall_fmap. by apply (Forall_impl _ _ _ H), declaration_no_lt.
Qed.
Lemma scheme_no_lt custom scheme vars :
  no_lt scheme = true -> Forall var_ok vars -> no_lt (scheme_rule custom scheme vars) = true.
Proof.
  intros Hs H. pose proof (rule_no_lt vars H) as Hr. unfold scheme_rule.
  assert (Hm : no_lt ("@media(prefers-color-scheme:" +:+ scheme +:+ "){" +:+ theme_rule vars +:+ "}") = true)
    by by rewrite !no_lt_app, Hs, Hr.
  destruct vars as [|x vars]; [done|]. destruct (theme_get custom "color-scheme") as [chosen|]; [|done].
  destruct (str_mem _ _); [|done]. by destruct (String.eqb _ _).
Qed.
Lemma style_no_lt custom : theme_ok custom -> no_lt (theme_style custom) = true.
Proof.
  intros (Hv & Hl & Hd). unfold theme_style. rewrite !no_lt_app, !scheme_no_lt by done.
  rewrite !andb_true_r. pose proof (rule_no_lt _ Hv). by destruct (ct_vars custom).
Qed.

(** ** Tags of the origin *)

(** A tag keeps the attributes whose names are names. *)
Fixpoint kept (attrs : Attrs) : Attrs :=
  match attrs with
  | [] => []
  | a :: attrs => if is_attr_name a.1 then a :: kept attrs else kept attrs
  end.
Lemma render_tag_open name attrs :
  render_tag name attrs = open_tag name ((fun a => (a.1, Some a.2)) <$> kept attrs).
Proof.
  unfold render_tag, open_tag. do 2 f_equal. f_equal. induction attrs as [|[k v] attrs IH]; [done|].
  rewrite fmap_cons, join_cons, IH. unfold render_attr at 1. cbn [kept fst snd].
  destruct (is_attr_name k); [|done]. symmetry. exact (join_cons (show_attr (k, Some v)) _).
Qed.
Lemma kept_ok attrs : attrs_ok ((fun a => (a.1, Some a.2)) <$> kept attrs) = true.
Proof.
  unfold attrs_ok. induction attrs as [|a attrs IH]; [done|]. cbn [kept].
  destruct (is_attr_name a.1) eqn:H; [|exact IH]. rewrite fmap_cons. cbn [forallb fst]. by rewrite H.
Qed.
Definition tag_tokens (name : string) (tags : list Attrs) : list Tok := (fun attrs => TOpen name (kept attrs)) <$> tags.
Lemma render_tags_reads name tags :
  is_element name = true -> is_raw name = false -> reads (render_tags name tags) (tag_tokens name tags).
Proof.
  intros Hn Hr. unfold render_tags. induction tags as [|attrs tags IH]; [done|].
  rewrite fmap_cons, join_cons. apply (reads_app _ _ [TOpen name (kept attrs)]); [|exact IH].
  rewrite render_tag_open.
  assert (E : attr_value <$> ((fun a : string * string => (a.1, Some a.2)) <$> kept attrs) = kept attrs).
  { rewrite <-list_fmap_compose. rewrite <-(list_fmap_id (kept attrs)) at 2. apply list_fmap_ext. by intros ? [? ?]. }
  rewrite <-E at 2. apply reads_open; [done..|]. by apply attrs_ok_forall, kept_ok.
Qed.

(** ** Elements of markup *)

Fixpoint node_elements (t : Node) : list (string * list string) :=
  match t with
  | NText _ => []
  | NElem n l children => (n, l.*1) :: mjoin (node_elements <$> children)
  | NVoid n l | NRaw n l _ => [(n, l.*1)]
  | NPre s => elements (run HData s).2
  end.
Definition all_elements (l : list Node) : list (string * list string) := mjoin (node_elements <$> l).
Lemma attr_value_names l : (attr_value <$> l).*1 = l.*1.
Proof. rewrite <-list_fmap_compose. by apply list_fmap_ext. Qed.
Lemma elements_open n l u : elements (TOpen n (attr_value <$> l) :: u) = (n, l.*1) :: elements u.
Proof. change (elements (?x :: u)) with ((n, (attr_value <$> l).*1) :: elements u). by rewrite attr_value_names. Qed.
Fixpoint elements_node (t : Node) : elements (tokens t) = node_elements t.
Proof.
  destruct t as [s|n l children|n l|n l s|s]; cbn [tokens node_elements].
  - apply elements_chars.
  - rewrite elements_open, elements_app, app_nil_r. f_equal.
    induction children as [|t children IH]; [done|]. cbn [fmap list_fmap mjoin list_join].
    rewrite elements_app. f_equal; [apply elements_node|exact IH].
  - by rewrite elements_open.
  - by rewrite elements_open, elements_app, elements_chars.
  - done.
Qed.
Lemma elements_all l : elements (tokens_all l) = all_elements l.
Proof.
  unfold tokens_all, all_elements. induction l as [|t l IH]; [done|].
  cbn [fmap list_fmap mjoin list_join]. rewrite elements_app, elements_node. f_equal. exact IH.
Qed.
Lemma all_elements_app a b : all_elements (a ++ b) = all_elements a ++ all_elements b.
Proof. unfold all_elements. by rewrite fmap_app, join_app. Qed.
Lemma all_elements_cons t l : all_elements (t :: l) = node_elements t ++ all_elements l.
Proof. done. Qed.
Lemma all_ok_cons t l : forallb node_ok (t :: l) = node_ok t && forallb node_ok l.
Proof. done. Qed.
Lemma elem_ok n l children :
  node_ok (NElem n l children) = is_element n && negb (is_raw n) && attrs_ok l && forallb node_ok children.
Proof. done. Qed.
Lemma elem_elements n l children : node_elements (NElem n l children) = (n, l.*1) :: all_elements children.
Proof. done. Qed.

(** ** What the pages are made of *)

Lemma tags_node name tags :
  is_element name = true -> is_raw name = false ->
  node_ok (NPre (render_tags name tags)) = true /\
  node_elements (NPre (render_tags name tags)) = (fun attrs => (name, (kept attrs).*1)) <$> tags.
Proof.
  intros Hn Hr. pose proof (render_tags_reads name tags Hn Hr) as H. unfold reads in H. cbn [node_ok node_elements].
  rewrite H. split; [done|]. cbn [snd]. clear H. induction tags as [|attrs tags IH]; [done|].
  unfold tag_tokens in *. rewrite !fmap_cons. cbn. f_equal. exact IH.
Qed.

Definition filled (logo : option string) : bool := match logo with Some s => negb (str_is_empty s) | None => false end.
(** The elements of a card, of the head of a document and of the script. *)
Definition card_elements (logo : bool) (links : nat) (extra : list (string * list string)) : list (string * list string) :=
  [("div", ["class"])] ++ (if logo then [("img", ["class"; "src"; "alt"; "decoding"])] else []) ++
  [("h1", []); ("div", ["class"; "role"; "aria-label"]); ("p", []); ("noscript", []); ("p", [])] ++ extra ++
  (match links with O => [] | S _ => ("nav", ["class"; "aria-label"]) :: repeat ("a", ["href"]) links end).
Definition head_elements : list (string * list string) := [
  ("meta", ["charset"]); ("meta", ["name"; "content"]); ("meta", ["name"; "content"]);
  ("meta", ["name"; "media"; "content"]); ("meta", ["name"; "media"; "content"]); ("title", []); ("style", [])].
Definition loader_names : list string := ["data-p"; "data-v"; "data-s"].
Definition module_script : list (string * list string) := [("script", ["type"; "src"])].
Definition status_line : list (string * list string) := [("p", ["class"; "role"; "aria-live"])].

Definition link_nodes (l : list LinkConfig) : list Node :=
  (fun link => NElem "a" [attr "href" (lk_url link)] [NText (lk_name link)]) <$> l.
Lemma links_are l : forallb node_ok (link_nodes l) = true /\ all_elements (link_nodes l) = repeat ("a", ["href"]) (length l).
Proof.
  induction l as [|x l [IH1 IH2]]; [done|]. unfold link_nodes in *. rewrite fmap_cons. split; [exact IH1|].
  rewrite all_elements_cons, IH2. done.
Qed.
(** The parts of a card: its logo and its links. *)
Definition logo_nodes (logo : option string) : list Node :=
  match logo with
  | Some logo =>
      if str_is_empty logo then []
      else [NVoid "img" [attr "class" "logo"; attr "src" logo; attr "alt" "Logo"; attr "decoding" "async"]]
  | None => []
  end.
Definition nav_nodes (links : list LinkConfig) : list Node :=
  match links with
  | [] => []
  | links => [NElem "nav" [attr "class" "links"; attr "aria-label" "Related links"] (link_nodes links)]
  end.
Lemma logo_are logo :
  forallb node_ok (logo_nodes logo) = true /\
  all_elements (logo_nodes logo) = if filled logo then [("img", ["class"; "src"; "alt"; "decoding"])] else [].
Proof. destruct logo as [logo|]; [|done]. cbn [logo_nodes filled]. by destruct (str_is_empty logo). Qed.
Lemma nav_are links :
  forallb node_ok (nav_nodes links) = true /\
  all_elements (nav_nodes links) =
    match length links with O => [] | S _ => ("nav", ["class"; "aria-label"]) :: repeat ("a", ["href"]) (length links) end.
Proof.
  destruct links as [|x links]; [done|]. destruct (links_are (x :: links)) as [H1 H2].
  change (nav_nodes (x :: links)) with
    [NElem "nav" [attr "class" "links"; attr "aria-label" "Related links"] (link_nodes (x :: links))].
  split; [cbn [forallb node_ok]; by rewrite H1|]. rewrite all_elements_cons, elem_elements, H2.
  change (all_elements []) with (@nil (string * list string)). by rewrite app_nil_r.
Qed.
Lemma card_are c extra :
  forallb node_ok extra = true ->
  forallb node_ok (card c extra) = true /\
  all_elements (card c extra) = card_elements (filled (ch_logo c)) (length (ch_links c)) (all_elements extra).
Proof.
  intros He. destruct (logo_are (ch_logo c)) as [L1 L2], (nav_are (ch_links c)) as [N1 N2].
  assert (card c extra = [NElem "div" [attr "class" "card"] (logo_nodes (ch_logo c) ++
    [NElem "h1" [] [NText (ch_title c)];
     NElem "div" [attr "class" "spinner"; attr "role" "status"; attr "aria-label" "Verifying"] [];
     NElem "p" [] [NText (ch_message c)];
     NElem "noscript" [] [NElem "p" [] [NText NOSCRIPT]]] ++ extra ++ nav_nodes (ch_links c))]) as -> by (destruct c as [? ? [|? ?] ?]; reflexivity).
  split.
  - cbn [forallb node_ok]. rewrite !forallb_app, L1, He, N1. done.
  - rewrite all_elements_cons, elem_elements, !all_elements_app, L2, N2.
    change (all_elements []) with (@nil (string * list string)). rewrite app_nil_r. done.
Qed.

(** ** Documents *)

Section Documents.
Variables (DOCUMENT_CSS WIDGET_CSS : string).
Hypothesis (document_css : no_lt DOCUMENT_CSS = true) (widget_css : no_lt WIDGET_CSS = true).

Lemma head_are theme custom title :
  theme_ok custom ->
  forallb node_ok (head_nodes DOCUMENT_CSS WIDGET_CSS theme custom title) = true /\
  all_elements (head_nodes DOCUMENT_CSS WIDGET_CSS theme custom title) = head_elements.
Proof.
  intros Hs%style_no_lt. split; [|done]. unfold head_nodes. cbn [forallb node_ok].
  rewrite !no_lt_app, document_css, widget_css, Hs. done.
Qed.

Definition widget_loads (w : Widget) : list string := match wd_loader w with Some loader =>
  loader_names ++ (if ld_background loader then ["data-mode"] else []) | None => [] end.
Definition script_elements (w : Widget) : list (string * list string) := if wd_script w is Some _ then module_script else [].
Lemma host_are w shadow :
  forallb node_ok (default (wd_body w) shadow) = true ->
  forallb node_ok (host w shadow :: script_tag w) = true /\
  all_elements (host w shadow :: script_tag w) =
    ("bagel-challenge", (if is_hidden (wd_presentation w) then ["hidden"] else []) ++ widget_loads w) ::
    all_elements (default (wd_body w) shadow) ++ script_elements w.
Proof.
  intros H. unfold host, widget_loads, script_elements, script_tag. rewrite all_elements_cons, elem_elements.
  destruct w as [body [] script loader]; cbn [wd_body wd_presentation wd_script wd_loader] in *;
    destruct loader as [[p v s []]|], script as [src|]; (split; [cbn [forallb node_ok]; by rewrite H|]);
    rewrite <-app_comm_cons; reflexivity.
Qed.

(** A document reads back as its template. *)
Definition tag_elements (name : string) (tags : list Attrs) : list (string * list string) :=
  (fun attrs => (name, (kept attrs).*1)) <$> tags.
Definition document_elements (page : ChallengePage) : list (string * list string) :=
  [("html", ["lang"]); ("head", [])] ++ head_elements ++
  tag_elements "meta" (cp_meta_tags page) ++ tag_elements "link" (cp_link_tags page) ++
  [("body", ["class"; "data-theme"])] ++
  all_elements (host (cp_widget page) None :: script_tag (cp_widget page)).
Lemma document_are theme custom page :
  theme_ok custom -> forallb node_ok (wd_body (cp_widget page)) = true ->
  forallb node_ok (document_nodes DOCUMENT_CSS WIDGET_CSS theme custom page) = true /\
  all_elements (document_nodes DOCUMENT_CSS WIDGET_CSS theme custom page) = document_elements page.
Proof.
  intros Ht Hw. destruct (head_are theme custom (cp_title page) Ht) as [H1 H2].
  destruct (host_are (cp_widget page) None Hw) as [H3 _].
  destruct (tags_node "meta" (cp_meta_tags page) eq_refl eq_refl) as [M1 M2].
  destruct (tags_node "link" (cp_link_tags page) eq_refl eq_refl) as [K1 K2].
  unfold document_nodes, body_node, document_elements. split.
  - rewrite !all_ok_cons, !elem_ok, !all_ok_cons, !elem_ok, forallb_app, H1, !all_ok_cons, M1, K1.
    rewrite <-(all_ok_cons (host _ _)), H3. done.
  - rewrite !all_elements_cons, !elem_elements, !all_elements_cons, !elem_elements, all_elements_app, H2,
      !all_elements_cons, M2, K2.
    change (all_elements []) with (@nil (string * list string)). rewrite !app_nil_r.
    change (node_elements doctype) with (@nil (string * list string)). unfold tag_elements.
    rewrite app_nil_l, <-(app_comm_cons (head_elements ++ _)), <-!app_assoc. done.
Qed.
Lemma reads_nodes l e :
  forallb node_ok l = true -> all_elements l = e -> reads (serialize_all l) (tokens_all l) /\ elements (tokens_all l) = e.
Proof. intros H <-. split; [by apply nodes_read|apply elements_all]. Qed.

Definition shadow_of (theme : Theme.t) (custom : CustomTheme) (w : Widget) : option (list Node) :=
  match wd_presentation w with
  | Presentation.Card =>
      Some [NElem "template" [attr "shadowrootmode" "open"] [
        NRaw "style" [] (WIDGET_CSS +:+ theme_style custom);
        NElem "div" [attr "class" "bagel-widget"; attr "data-theme" (Theme.as_str theme)] (wd_body w)]]
  | Presentation.Hidden => None
  end.
(** What an embedded widget holds beside its host. *)
Definition embed_elements (w : Widget) : list (string * list string) :=
  ("bagel-challenge", (if is_hidden (wd_presentation w) then ["hidden"] else []) ++ widget_loads w) ::
  (if is_hidden (wd_presentation w) then []
   else [("template", ["shadowrootmode"]); ("style", []); ("div", ["class"; "data-theme"])]) ++
  all_elements (wd_body w) ++ script_elements w.
Lemma embed_are theme custom w :
  theme_ok custom -> forallb node_ok (wd_body w) = true ->
  forallb node_ok (embed_nodes WIDGET_CSS theme custom w) = true /\
  all_elements (embed_nodes WIDGET_CSS theme custom w) = embed_elements w.
Proof.
  intros Hs%style_no_lt Hw. change (embed_nodes WIDGET_CSS theme custom w) with (host w (shadow_of theme custom w) :: script_tag w).
  destruct (host_are w (shadow_of theme custom w)) as [H1 H2].
  - unfold shadow_of. destruct (wd_presentation w); [|exact Hw].
    change (default ?x (Some ?y)) with y. rewrite !all_ok_cons, elem_ok, !all_ok_cons, elem_ok, Hw.
    cbn [node_ok]. rewrite no_lt_app, widget_css, Hs. done.
  - split; [exact H1|]. rewrite H2. unfold embed_elements, shadow_of. f_equal.
    destruct (wd_presentation w); [|done]. change (default ?x (Some ?y)) with y.
    rewrite !all_elements_cons, elem_elements, !all_elements_cons, elem_elements.
    change (all_elements []) with (@nil (string * list string)). rewrite !app_nil_r. done.
Qed.
(** The elements of an error page. *)
Definition error_elements (detail : bool) : list (string * list string) :=
  [("html", ["lang"]); ("head", [])] ++ head_elements ++
  [("body", ["class"; "data-theme"]); ("main", ["class"]); ("div", ["class"]); ("h1", []); ("p", [])] ++
  (if detail then [("p", ["class"])] else []).
Lemma error_are theme custom code title message e :
  theme_ok custom ->
  forallb node_ok (error_nodes DOCUMENT_CSS WIDGET_CSS theme custom code title message e) = true /\
  all_elements (error_nodes DOCUMENT_CSS WIDGET_CSS theme custom code title message e) = error_elements (filled e).
Proof.
  intros Ht. destruct (head_are theme custom title Ht) as [H1 H2]. unfold error_nodes, body_node, error_elements. split.
  - rewrite !all_ok_cons, !elem_ok, !all_ok_cons, !elem_ok, H1. destruct e as [e|]; [|done]. by destruct (str_is_empty e).
  - rewrite !all_elements_cons, !elem_elements, !all_elements_cons, !elem_elements, H2.
    destruct e as [e|]; [|done]. cbn [filled]. by destruct (str_is_empty e).
Qed.

(** ** Challenges *)

Variables (base64url : list N -> string) (RUNTIME_URL : string).

Lemma verify_no_lt ctx : no_lt (px_name ctx) = true -> no_lt (page_verify ctx) = true.
Proof.
  intros Hn. unfold page_verify, verify_url. rewrite !no_lt_app, Hn.
  rewrite (hex_no_lt (hex_encode (key_bytes (px_key ctx)))) by apply hex_encode_chars, be_bytes_bytes.
  apply (no_lt_impl (fun c => url_safe c || char_eqb c "%")); [intros c; by_char c|apply percent_encode_chars].
Qed.
(** The elements of a challenge page, by the kind of challenge. *)
Definition challenge_elements (rt : ChallengeRuntime) (ctx : PageContext) : list (string * list string) :=
  [("html", ["lang"]); ("head", [])] ++ head_elements ++ tag_elements "meta" (px_meta_tags ctx) ++
  match rt with CRefresh RMeta => [("meta", ["content"; "http-equiv"])] | _ => [] end ++
  tag_elements "link" (px_link_tags ctx) ++ [("body", ["class"; "data-theme"])] ++
  match rt with
  | CPow _ =>
      ("bagel-challenge", loader_names) ::
      card_elements (filled (px_logo ctx)) (length (px_links ctx)) status_line ++ module_script
  | CRefresh RJavascript =>
      ("bagel-challenge", []) :: card_elements (filled (px_logo ctx)) (length (px_links ctx)) [("script", [])]
  | _ => ("bagel-challenge", []) :: card_elements (filled (px_logo ctx)) (length (px_links ctx)) []
  end.
Definition pow_status : list Node :=
  [NElem "p" [attr "class" "bagel-status"; attr "role" "status"; attr "aria-live" "polite"] [NText "Solving challenge..."]].
Lemma issued_are rt iv ctx page :
  no_lt (px_name ctx) = true -> issued_page base64url RUNTIME_URL rt iv ctx = Some page ->
  forallb node_ok (wd_body (cp_widget page)) = true /\ document_elements page = challenge_elements rt ctx.
Proof.
  intros Hn Hp. unfold issued_page in Hp. destruct rt as [|mode| |p]; try discriminate Hp; injection Hp as <-.
  - assert (Hx : forallb node_ok (refresh_extra mode (page_verify ctx)) = true).
    { destruct mode; [done..|]. cbn. rewrite !no_lt_app, (verify_no_lt _ Hn). done. }
    destruct (card_are (chrome ctx) _ Hx) as [H1 H2]. split; [exact H1|].
    destruct (host_are (widget_card (card (chrome ctx) (refresh_extra mode (page_verify ctx)))) None H1) as [_ H4].
    unfold document_elements, refresh_page, challenge_page. cbn [cp_meta_tags cp_link_tags cp_widget].
    rewrite H4. unfold tag_elements. rewrite fmap_app, <-app_assoc. unfold script_elements, widget_card. cbn [wd_script wd_body].
    change (default ?x None) with x. rewrite H2, (app_nil_r (card_elements _ _ _)).
    destruct mode; reflexivity.
  - destruct (card_are (chrome ctx) pow_status eq_refl) as [H1 H2]. split; [exact H1|].
    destruct (host_are (pow_widget base64url RUNTIME_URL p iv ctx Presentation.Card false) None H1) as [_ H4].
    unfold document_elements, pow_page, challenge_page. cbn [cp_meta_tags cp_link_tags cp_widget].
    rewrite H4. unfold tag_elements. rewrite app_nil_r. change (default ?x None) with x.
    change (wd_body (pow_widget base64url RUNTIME_URL p iv ctx Presentation.Card false)) with (card (chrome ctx) pow_status).
    rewrite H2. reflexivity.
Qed.
Lemma embed_widget_ok rt iv ctx w :
  embed_widget base64url RUNTIME_URL rt iv ctx = Some w -> forallb node_ok (wd_body w) = true.
Proof.
  destruct rt as [|mode| |p]; try done. intros [= <-]. unfold pow_widget, embed_presentation.
  destruct (embed_card p); [|done]. exact (proj1 (card_are (chrome ctx) pow_status eq_refl)).
Qed.
End Documents.

(** ** The theorem *)

(** C37: Whatever the origin, the client and the error texts contain, the pages keep
    their structure: a challenge page, an error page and an embedded widget each read, in
    a reader of HTML, as the nodes their template is made of, with every string a text or
    a value, and the elements and attributes they hold depend only on the kind of
    challenge, on whether there is a logo and a detail, on the number of links and on the
    names in the tags of the origin. This is for a challenge whose name, which goes
    unescaped into the scripts of a refresh page, has no "<"; for theme values that
    loading validated; and for built-in style sheets without "<". *)
Theorem pages_keep_structure (DOCUMENT_CSS WIDGET_CSS RUNTIME_URL : string) (base64url : list N -> string) theme custom :
  no_lt DOCUMENT_CSS = true -> no_lt WIDGET_CSS = true -> theme_ok custom ->
  (forall rt iv ctx page,
     no_lt (px_name ctx) = true -> issued_page base64url RUNTIME_URL rt iv ctx = Some page ->
     let toks := tokens_all (document_nodes DOCUMENT_CSS WIDGET_CSS theme custom page) in
     reads (render_document DOCUMENT_CSS WIDGET_CSS theme custom page) toks /\
     elements toks = challenge_elements rt ctx) /\
  (forall rt iv ctx w,
     embed_widget base64url RUNTIME_URL rt iv ctx = Some w ->
     let toks := tokens_all (embed_nodes WIDGET_CSS theme custom w) in
     reads (render_embed WIDGET_CSS theme custom w) toks /\ elements toks = embed_elements w) /\
  (forall code title message detail,
     let toks := tokens_all (error_nodes DOCUMENT_CSS WIDGET_CSS theme custom code title message detail) in
     reads (render_error DOCUMENT_CSS WIDGET_CSS theme custom code title message detail) toks /\
     elements toks = error_elements (filled detail)).
Proof.
  intros Hd Hw Ht. split_and!.
  - intros rt iv ctx page Hn Hp. destruct (issued_are _ _ rt iv ctx page Hn Hp) as [Hb <-].
    apply reads_nodes; by apply document_are.
  - intros rt iv ctx w He%embed_widget_ok. apply reads_nodes; by apply embed_are.
  - intros code title message detail. apply reads_nodes; by apply error_are.
Qed.

(** ** An attempt at markup in every string *)

Module PageExample.
Definition theme : CustomTheme := {|
  ct_vars := [{| tv_name := "accent"; tv_value := "#d65d0e" |}; {| tv_name := "radius"; tv_value := "0.5rem" |}];
  ct_light := [{| tv_name := "font"; tv_value := "'Fira Sans'" |}]; ct_dark := [] |}.
Definition hostile : string := "</style><script>alert(1)</script>".
Definition ctx : PageContext := {|
  px_name := "pow"; px_key := 7; px_request_uri := "/?q=" +:+ hostile;
  px_meta_tags := [[("content", hostile); ("x onload=", hostile)]]; px_link_tags := [];
  px_strings := <["title-challenge" := hostile]> ∅; px_links := [{| lk_name := hostile; lk_url := hostile |}];
  px_logo := Some hostile; px_difficulty := None; px_solver_url := "/s.js" |}.
Lemma theme_checked : theme_ok theme.
Proof. unfold theme_ok, theme, var_ok. cbn. split_and!; repeat (apply Forall_cons; split); try apply Forall_nil_2; vm_refl. Qed.
Definition shown (rt : ChallengeRuntime) : list (string * list string) :=
  match issued_page (fun _ => "") "/r.js" rt [] ctx with
  | Some page => elements (run HData (render_document "a{}" "b{}" Theme.Minimal theme page)).2
  | None => []
  end.
Example hostile_page : shown (CRefresh RJavascript) = challenge_elements (CRefresh RJavascript) ctx.
Proof. vm_refl. Qed.
End PageExample.

Lemma pages_keep_structure_witness :
  let page := default (challenge_page PageExample.ctx [] "" widget_hidden)
    (issued_page (fun _ => "") "/r.js" (CRefresh RMeta) [] PageExample.ctx) in
  let toks := tokens_all (document_nodes "a{}" "b{}" Theme.Gruvbox PageExample.theme page) in
  reads (render_document "a{}" "b{}" Theme.Gruvbox PageExample.theme page) toks /\
  elements toks = challenge_elements (CRefresh RMeta) PageExample.ctx.
Proof.
  apply (proj1 (pages_keep_structure "a{}" "b{}" "/r.js" (fun _ => "") Theme.Gruvbox PageExample.theme
    eq_refl eq_refl PageExample.theme_checked) (CRefresh RMeta) [] PageExample.ctx _ eq_refl eq_refl).
Defined.
