(* ===== verification/Lookups.v ===== *)
(** * What a challenge looks up elsewhere

    [crates/bagel-web/src/challenge/dnsbl.rs], the address that is asked of a blocklist,
    and what holds of the tags of the origin's own page that a challenge page repeats
    (fetched in [Evaluate]), each kept for a while in a map that expires. What the origin
    and the resolver answer is an argument, and so are the matches of the two expressions. *)

From S2P Require Import Prelude Census Scoring Crawler Page Core Ip.
From S2P Require Import Strings Bytes Url Rate Pending ThirdParty Condition Rule Evaluate.
From S2P Require Import Census Proxy Challenge Html Page.

Local Open Scope N_scope.

(** ** Blocklists ([challenge/dnsbl.rs]) *)

Record DnsblChallenge : Type := { db_host : string; db_cache : DecayMap IpAddr bool; db_timeout : N }.
Definition dnsbl_new (dnsbl_host : string) (ttl : N) : DnsblChallenge :=
  {| db_host := dnsbl_host; db_cache := decay_new ttl; db_timeout := 1000 |}.
(** [build_dnsbl_query]. *)
Definition build_dnsbl_query (ip : IpAddr) (dnsbl_host : string) : string :=
  match ip with
  | V4 bits => str_join "." ((show_N <$> rev (v4_octets bits)) ++ [dnsbl_host])
  | V6 bits =>
      str_join "" ((fun byte => String (hex_digit (N.land byte 15)) ("." +:+ String (hex_digit (N.land (N.shiftr byte 4) 15)) "."))
        <$> rev (v6_octets bits)) +:+ dnsbl_host
  end.
(** What [lookup_host] resolves a name to, [None] when it is late. *)
Definition Resolver : Type := string -> option (result string (list SocketAddr)).
Inductive Verdict : Type := VPassed | VFailed | VSkip.
Definition verdict (listed : bool) : Verdict := if listed then VFailed else VPassed.
(** [DnsblChallenge::issue], and the name that was looked up. *)
Definition dnsbl_issue (resolver : Resolver) (client_ip : option IpAddr) (now : N) (c : DnsblChallenge)
    : Verdict * DnsblChallenge * option string :=
  match client_ip with
  | None => (VSkip, c, None)
  | Some ip =>
      match decay_get ip now (db_cache c) with
      | Some listed => (verdict listed, c, None)
      | None =>
          let query := build_dnsbl_query ip (db_host c) +:+ ":0" in
          match resolver query with
          | None => (VSkip, c, Some query)
          | Some answer =>
              let listed := match answer with Ok (_ :: _) => true | _ => false end in
              (verdict listed,
               {| db_host := db_host c; db_cache := decay_set ip listed now (db_cache c); db_timeout := db_timeout c |},
               Some query)
          end
      end
  end.

(** * What a challenge repeats and what it believes

    Only tags that the lists of [tag_fetcher.rs] name pass from the origin's page to a
    challenge page, and a verdict of a blocklist is the answer to the one question that
    was asked about the address. *)

Local Open Scope N_scope.

(** ** Tags *)

(** What the filter promises of a tag: its kind, the names of its attributes, and the
    value the filter judged it by. *)
Definition meta_name (t : HtmlTag) : string :=
  first_value (fun key => String.eqb key "name" || String.eqb key "property") (ht_attrs t).
Definition link_rel (t : HtmlTag) : string := first_value (String.eqb "rel") (ht_attrs t).
Record tag_safe (t : HtmlTag) : Prop := {
  ts_kind : (ht_tag t = "meta" /\ is_safe_meta_name (meta_name t) = true) \/
            (ht_tag t = "link" /\ str_mem (link_rel t) SAFE_LINK_RELS = true);
  ts_keys : Forall (fun kv => kv.1 ∈ SAFE_ATTRIBUTES) (ht_attrs t) }.

Lemma find_filter {A} (p q : A -> bool) l :
  (forall x, p x = true -> q x = true) -> list_find_bool p (List.filter q l) = list_find_bool p l.
Proof.
  intros H. unfold list_find_bool. induction l as [|x l IH]; [done|]. cbn. destruct (q x) eqn:Eq; cbn.
  - by rewrite IH.
  - destruct (p x) eqn:Ep; [|exact IH]. apply H in Ep. congruence.
Qed.
Lemma first_safe p attrs :
  (forall k, p k = true -> str_mem k SAFE_ATTRIBUTES = true) -> first_value p (safe_attrs attrs) = first_value p attrs.
Proof. intros H. unfold first_value, safe_attrs. rewrite find_filter; [done|]. intros [k v]. apply H. Qed.
Lemma safe_attrs_keys attrs : Forall (fun kv => kv.1 ∈ SAFE_ATTRIBUTES) (safe_attrs attrs).
Proof.
  apply Forall_forall. intros kv Hin. unfold safe_attrs in Hin. apply list_elem_of_In, filter_In in Hin as [_ H].
  by apply str_mem_spec in H.
Qed.
(** The filter of links is the filter of metas: [href] and [rel] are in the list. *)
Lemma link_filter attrs :
  List.filter (fun kv : string * string => str_mem kv.1 SAFE_ATTRIBUTES || String.eqb kv.1 "href" || String.eqb kv.1 "rel") attrs =
  safe_attrs attrs.
Proof.
  unfold safe_attrs. apply filter_ext. intros [k v]. cbn [fst].
  destruct (String.eqb_spec k "href") as [->|]; [done|]. destruct (String.eqb_spec k "rel") as [->|]; [done|].
  by rewrite !orb_false_r.
Qed.

Section Tags.
Context {RG : RegexGroups}.

Lemma extract_tag_safe cap t : extract_tag cap = Some (Some t) -> tag_safe t.
Proof.
  unfold extract_tag. destruct (group cap 1) as [name|]; [|done]. destruct (group cap 2) as [attrs|]; [|done].
  cbn [mbind option_bind]. destruct (mapM attribute _) as [raw|]; [|done]. intros H. apply (inj Some) in H.
  assert (Hsafe : forall tag, match safe_attrs raw with [] => None | _ => Some {| ht_tag := tag; ht_attrs := safe_attrs raw |} end = Some t ->
      t = {| ht_tag := tag; ht_attrs := safe_attrs raw |}) by (intros tag; destruct (safe_attrs raw); [done|]; by intros [= <-]).
  destruct (String.eqb _ "meta").
  - destruct (is_safe_meta_name _) eqn:E; [|done]. apply Hsafe in H as ->. split; [left|apply safe_attrs_keys].
    split; [done|]. unfold meta_name. cbn [ht_attrs]. rewrite first_safe; [exact E|].
    intros k [->%String.eqb_eq| ->%String.eqb_eq]%orb_true_iff; done.
  - destruct (String.eqb _ "link"); [|done]. destruct (str_mem _ SAFE_LINK_RELS) eqn:E; [|done].
    cbn [negb] in H. rewrite link_filter in H. apply Hsafe in H as ->. split; [right|apply safe_attrs_keys].
    split; [done|]. unfold link_rel. cbn [ht_attrs]. rewrite first_safe; [exact E|].
    by intros k <-%String.eqb_eq.
Qed.
Lemma extract_tags_safe html tags : extract_tags html = Some tags -> Forall tag_safe tags.
Proof.
  unfold extract_tags. destruct (mapM extract_tag _) as [found|] eqn:E; [|done]. intros [= <-].
  apply mapM_Some in E. induction E as [|cap o caps os Ho _ IH]; [constructor|]. cbn. destruct o as [t|]; [|exact IH].
  constructor; [by eapply extract_tag_safe|exact IH].
Qed.

Section Fetch.
Context {U : UriApi} {UP : UriParts} {HA : HeaderApi} {HT : HeaderText}.
Definition cache_safe (cache : DecayMap string (list HtmlTag)) : Prop :=
  forall host tags stamp, dm_inner cache !! host = Some (tags, stamp) -> Forall tag_safe tags.
Lemma cache_safe_set host tags now cache :
  cache_safe cache -> Forall tag_safe tags -> cache_safe (decay_set host tags now cache).
Proof.
  intros Hc Ht k l stamp H. unfold decay_set, decay_put in H. cbn [dm_inner with_inner] in H.
  assert (Hk : forall e, decay_retain now (dm_ttl cache) (dm_inner cache) !! k = Some e -> Forall tag_safe e.1).
  { intros [w s] [He _]%retain_lookup. by eapply Hc. }
  destruct (_ || _); [|by apply (Hk (l, stamp))].
  apply lookup_insert_Some in H as [[_ [= <- _]]|[_ H]]; [done|by apply (Hk (l, stamp))].
Qed.
Lemma fetch_tags_safe origin host cache backend now tags cache' asked :
  cache_safe cache -> fetch_tags origin host cache backend now = Some (tags, cache', asked) ->
  Forall tag_safe tags /\ cache_safe cache'.
Proof.
  intros Hc. unfold fetch_tags. destruct (decay_get host now cache) as [cached|] eqn:E.
  { intros [= <- <- _]. split; [|done]. unfold decay_get in E. destruct (dm_inner cache !! host) as [[v s]|] eqn:El; [|done].
    cbn in E. destruct (_ <? _); [done|]. injection E as ->. by eapply Hc. }
  destruct (uri_parse _) as [uri|]; [|by intros [= <- <- _]]. destruct (header_value host) as [hv|]; [|by intros [= <- <- _]].
  destruct (origin (tag_request uri hv)) as [|ct body]; [by intros [= <- <- _]|].
  destruct (negb _). { intros [= <- <- _]. split; [done|]. by apply cache_safe_set. }
  destruct body as [bytes|]; [|intros [= <- <- _]; split; [done|]; by apply cache_safe_set].
  destruct (extract_tags (from_utf8_lossy bytes)) as [ts|] eqn:Et; [|done]. intros [= <- <- _].
  apply extract_tags_safe in Et. split; [done|]. by apply cache_safe_set.
Qed.
(** What the origin said is not asked for again while the map keeps it. *)
Lemma fetch_tags_once origin origin' host cache backend backend' now later tags cache' asked (keys : gset string) :
  fetch_tags origin host cache backend now = Some (tags, cache', Some asked) ->
  cache' <> cache -> later - now <= dm_ttl cache ->
  dom (dm_inner cache) ⊆ keys -> host ∈ keys -> N.of_nat (size keys) <= MAX_ENTRIES ->
  fetch_tags origin' host cache' backend' later = Some (tags, cache', None).
Proof.
  intros H Hne Ht Hd Hk Hs.
  assert (Hset : cache' = decay_set host tags now cache).
  { revert H. unfold fetch_tags. destruct (decay_get host now cache); [done|].
    destruct (uri_parse _) as [uri|]; [|done]. destruct (header_value host) as [hv|]; [|done].
    destruct (origin (tag_request uri hv)) as [|ct body]; [by intros [= <- <-]|]. destruct (negb _); [by intros [= <- <-]|].
    destruct body as [bytes|]; [|by intros [= <- <-]]. destruct (extract_tags _) as [ts|]; [|done]. by intros [= <- <-]. }
  subst cache'. unfold fetch_tags. rewrite (get_set_same host tags now later cache keys) by done.
  destruct (N.ltb_spec (dm_ttl cache) (later - now)); [lia|done].
Qed.
End Fetch.
End Tags.

(** What a template is given: maps with safe keys, each once. *)
Lemma btree_collect_keys l m x :
  x ∈ (foldl (fun (m : Attrs) (kv : string * string) => bt_insert kv.1 kv.2 m) m l).*1 <-> x ∈ m.*1 \/ x ∈ l.*1.
Proof.
  revert m. induction l as [|[k v] l IH]; intros m; cbn; [rewrite elem_of_nil; tauto|].
  rewrite IH, bt_insert_keys, elem_of_cons. tauto.
Qed.
Lemma btree_collect_sorted l m : bt_sorted m -> bt_sorted (foldl (fun (m : Attrs) (kv : string * string) => bt_insert kv.1 kv.2 m) m l).
Proof. revert m. induction l as [|[k v] l IH]; intros m H; [done|]. apply IH. by apply bt_insert_sorted. Qed.
Lemma kept_all m : Forall (fun kv : string * string => is_attr_name kv.1 = true) m -> kept m = m.
Proof. induction 1 as [|a m Ha _ IH]; [done|]. cbn. by rewrite Ha, IH. Qed.
Lemma safe_names : Forall (fun k => is_attr_name k = true) SAFE_ATTRIBUTES.
Proof. unfold SAFE_ATTRIBUTES. repeat (apply Forall_cons; split); [vm_refl..|apply Forall_nil_2]. Qed.
Record map_safe (m : Attrs) : Prop := {
  ms_keys : Forall (fun kv => kv.1 ∈ SAFE_ATTRIBUTES) m; ms_sorted : bt_sorted m; ms_kept : kept m = m }.
Lemma collected_safe t : tag_safe t -> map_safe (btree_collect (ht_attrs t)).
Proof.
  intros [_ Hk].
  assert (H : Forall (fun kv => kv.1 ∈ SAFE_ATTRIBUTES) (btree_collect (ht_attrs t))).
  { apply Forall_forall. intros kv Hin. assert (Hin' : kv.1 ∈ (btree_collect (ht_attrs t)).*1) by (apply list_elem_of_fmap; eauto).
    apply btree_collect_keys in Hin'. clear Hin. rename Hin' into Hin.
    destruct Hin as [Hin%elem_of_nil|(a & -> & Ha)%list_elem_of_fmap]; [done|]. by eapply Forall_forall in Hk. }
  split; [done|apply btree_collect_sorted; constructor|]. apply kept_all. eapply Forall_impl; [exact H|].
  intros kv Hin. by eapply Forall_forall in Hin; [|apply safe_names].
Qed.

(** C38: What passes from the origin's page to a challenge page. Whatever the origin
    serves and whatever the two expressions match, a fetch over a safe cache gives tags
    that are [meta] or [link], whose first name or property, or whose first relation, is on
    the lists, and whose attributes all have listed names, and it leaves the cache safe.
    The maps made of them hold each key once, in order, and the page repeats exactly
    them; of a key that a tag repeats they hold the last value, which the filter did not
    look at. When the origin was asked and its answer was put in the cache, and the
    hosts it is used for fit the cache, the origin is not asked again while the answer is young
    enough. *)
Theorem origin_tags_are_safe `{RG : RegexGroups} {U : UriApi} {UP : UriParts} {HA : HeaderApi} {HT : HeaderText}
    origin host cache backend now tags cache' asked :
  cache_safe cache -> fetch_tags origin host cache backend now = Some (tags, cache', asked) ->
  Forall tag_safe tags /\ cache_safe cache' /\
  Forall map_safe ((tags_to_template_values tags).1 ++ (tags_to_template_values tags).2) /\
  (forall origin' backend' later (keys : gset string),
     asked <> None -> cache' <> cache -> later - now <= dm_ttl cache ->
     dom (dm_inner cache) ⊆ keys -> host ∈ keys -> N.of_nat (size keys) <= MAX_ENTRIES ->
     fetch_tags origin' host cache' backend' later = Some (tags, cache', None)).
Proof.
  intros Hc H. destruct (fetch_tags_safe _ _ _ _ _ _ _ _ Hc H) as [Ht Hc']. split_and!; [done|done| |].
  - assert (Hm : forall tag, Forall map_safe (attrs_of tag tags)).
    { intros tag. unfold attrs_of. apply Forall_fmap, Forall_forall. intros t Hin.
      apply list_elem_of_In, filter_In in Hin as [Hin _]. apply collected_safe.
      eapply Forall_forall in Ht; [exact Ht|by apply list_elem_of_In]. }
    apply Forall_app. split; apply Hm.
  - intros origin' backend' later keys Ha Hne Hl Hd Hk Hs. destruct asked as [r|]; [|done]. by eapply fetch_tags_once.
Qed.

(** ** Blocklists *)

(** The labels before the blocklist's own name. *)
Definition query_labels (ip : IpAddr) : list string :=
  match ip with
  | V4 bits => show_N <$> rev (v4_octets bits)
  | V6 bits => mjoin ((fun byte => [String (hex_digit (N.land byte 15)) ""; String (hex_digit (N.land (N.shiftr byte 4) 15)) ""])
                        <$> rev (v6_octets bits))
  end.
Definition dotted (labels : list string) : string := str_join "" ((fun s => s +:+ ".") <$> labels).
Lemma dotted_cons s l : dotted (s :: l) = s +:+ String "." (dotted l).
Proof. unfold dotted. rewrite fmap_cons, join_cons. by rewrite string_app_assoc. Qed.
Lemma query_dotted ip host : build_dnsbl_query ip host = dotted (query_labels ip) +:+ host.
Proof.
  destruct ip as [bits|bits]; cbn [build_dnsbl_query query_labels].
  - induction (rev (v4_octets bits)) as [|x l IH]; [done|]. rewrite fmap_cons, dotted_cons, string_app_assoc.
    change (String "." (dotted (show_N <$> l)) +:+ host) with ("." +:+ (dotted (show_N <$> l) +:+ host)).
    rewrite <-IH. cbn [app]. by destruct l.
  - reflexivity.
Qed.
Lemma split_dotted l : Forall (fun s => str_any (char_eqb ".") s = false) l -> str_split "." (dotted l) = l ++ [""].
Proof.
  induction 1 as [|s l Hs _ IH]; [done|]. rewrite dotted_cons, str_split_app, IH, str_split_none by done. done.
Qed.
Lemma hex_digit_plain d : d < 16 -> str_any (char_eqb ".") (String (hex_digit d) "") = false.
Proof.
  intros H. assert (exists i, d = N.of_nat i /\ (i < 16)%nat) as (i & -> & Hi) by (exists (N.to_nat d); lia).
  do 16 (destruct i as [|i]; [vm_refl|]). lia.
Qed.
Lemma land_15 b : N.land b 15 = b mod 16.
Proof. change 15 with (N.ones 4). by rewrite N.land_ones. Qed.
Lemma labels_plain ip : Forall (fun s => str_any (char_eqb ".") s = false) (query_labels ip).
Proof.
  destruct ip as [bits|bits]; cbn [query_labels].
  - apply Forall_fmap, Forall_true. intros n. cbn.
    eapply str_all_not_any; [|apply show_N_digits]. intros c. by_char c.
  - induction (rev (v6_octets bits)) as [|x l IH]; [constructor|]. rewrite fmap_cons. cbn [mjoin list_join app].
    repeat (apply Forall_cons; split); [..|exact IH]; rewrite land_15; apply hex_digit_plain, N.mod_lt; lia.
Qed.
Lemma nibbles_inj l k : bytes l -> bytes k ->
  mjoin ((fun byte => [String (hex_digit (N.land byte 15)) ""; String (hex_digit (N.land (N.shiftr byte 4) 15)) ""]) <$> l) =
  mjoin ((fun byte => [String (hex_digit (N.land byte 15)) ""; String (hex_digit (N.land (N.shiftr byte 4) 15)) ""]) <$> k) -> l = k.
Proof.
  intros Hl. revert k. induction Hl as [|x l Hx _ IH]; intros k Hk; destruct Hk as [|y k Hy Hk]; try done.
  rewrite !fmap_cons. cbn [mjoin list_join app]. intros H. injection H as H1 H2 H3. f_equal; [|by apply IH].
  rewrite !land_15, !N.shiftr_div_pow2 in *. change (2 ^ 4) with 16 in *.
  apply hex_digit_inj in H1; [|apply N.mod_lt; lia..]. apply hex_digit_inj in H2; [|apply N.mod_lt; lia..].
  cbn in Hx, Hy. assert (x / 16 < 16 /\ y / 16 < 16) as [Hx' Hy'] by (split; apply N.Div0.div_lt_upper_bound; lia).
  rewrite !(N.mod_small (_ / 16)) in H2 by lia. rewrite (N.div_mod x 16), (N.div_mod y 16) by lia. congruence.
Qed.

Definition ip_fits (ip : IpAddr) : Prop := match ip with V4 b => b < 2 ^ 32 | V6 b => b < 2 ^ 128 end.
Lemma labels_inj ip ip' : ip_fits ip -> ip_fits ip' -> query_labels ip = query_labels ip' -> ip = ip'.
Proof.
  destruct ip as [b|b], ip' as [c|c]; cbn [ip_fits query_labels]; intros Hb Hc H.
  - apply (inj (fmap show_N)) in H.
    apply (f_equal (@rev N)) in H. rewrite !rev_involutive in H. f_equal. by apply (be_bytes_inj 4).
  - exfalso. apply (f_equal length) in H. discriminate H.
  - exfalso. apply (f_equal length) in H. discriminate H.
  - apply nibbles_inj in H; [|apply Forall_rev, be_bytes_bytes..].
    apply (f_equal (@rev N)) in H. rewrite !rev_involutive in H. f_equal. by apply (be_bytes_inj 16).
Qed.
(** No two addresses share a question. *)
Lemma query_inj ip ip' host :
  ip_fits ip -> ip_fits ip' -> build_dnsbl_query ip host = build_dnsbl_query ip' host -> ip = ip'.
Proof.
  intros Hi Hi' H. rewrite !query_dotted in H. apply string_app_inv_tail in H. apply labels_inj; [done..|].
  apply (f_equal (str_split ".")) in H. rewrite !split_dotted in H by apply labels_plain. by apply app_inv_tail in H.
Qed.

(** A history of requests: what each was answered, with the question it asked. The
    resolver may say different things at different times. *)
Section History.
Variable resolver : N -> Resolver.
Record Asked : Type := { ak_ip : option IpAddr; ak_now : N; ak_verdict : Verdict; ak_query : option string }.
Definition dnsbl_step (s : DnsblChallenge * list Asked) (e : option IpAddr * N) : DnsblChallenge * list Asked :=
  let '(v, c, q) := dnsbl_issue (resolver e.2) e.1 e.2 s.1 in
  (c, s.2 ++ [{| ak_ip := e.1; ak_now := e.2; ak_verdict := v; ak_query := q |}]).
Definition dnsbl_history (c : DnsblChallenge) (es : list (option IpAddr * N)) : DnsblChallenge * list Asked :=
  foldl dnsbl_step (c, []) es.

Definition query_for (host : string) (ip : IpAddr) : string := build_dnsbl_query ip host +:+ ":0".
Definition listed (answer : result string (list SocketAddr)) : bool := match answer with Ok (_ :: _) => true | _ => false end.
(** An address that was asked about, with its answer. *)
Definition answered (host : string) (log : list Asked) (ip : IpAddr) (s : N) (answer : result string (list SocketAddr)) : Prop :=
  {| ak_ip := Some ip; ak_now := s; ak_verdict := verdict (listed answer); ak_query := Some (query_for host ip) |} ∈ log /\
  resolver s (query_for host ip) = Some answer.
(** What an entry of the log must be. *)
Definition entry_ok (host : string) (ttl : N) (log : list Asked) (a : Asked) : Prop :=
  match ak_ip a with
  | None => ak_verdict a = VSkip /\ ak_query a = None
  | Some ip =>
      (ak_verdict a = VSkip /\ resolver (ak_now a) (query_for host ip) = None /\ ak_query a = Some (query_for host ip)) \/
      (exists s answer, answered host log ip s answer /\ ak_now a - s <= ttl /\ ak_verdict a = verdict (listed answer) /\
         (ak_query a = None \/ (s = ak_now a /\ ak_query a = Some (query_for host ip))))
  end.
Record history_ok (host : string) (ttl : N) (keys : gset IpAddr) (c : DnsblChallenge) (log : list Asked) (now : N) : Prop := {
  ho_host : db_host c = host; ho_ttl : dm_ttl (db_cache c) = ttl;
  ho_keys : dom (dm_inner (db_cache c)) ⊆ keys;
  ho_cache ip b s : dm_inner (db_cache c) !! ip = Some (b, s) -> exists answer, answered host log ip s answer /\ b = listed answer;
  ho_log : Forall (entry_ok host ttl log) log;
  ho_kept ip s answer t : answered host log ip s answer -> now <= t -> t - s <= ttl -> is_Some (decay_get ip t (db_cache c));
  ho_once j b ip s answer : log !! j = Some b -> ak_ip b = Some ip -> is_Some (ak_query b) ->
    answered host (take j log) ip s answer -> ttl < ak_now b - s }.

Lemma answered_app host log x ip s answer : answered host log ip s answer -> answered host (log ++ [x]) ip s answer.
Proof. intros [H1 H2]. split; [apply elem_of_app; by left|done]. Qed.
Lemma entry_app host ttl log x a : entry_ok host ttl log a -> entry_ok host ttl (log ++ [x]) a.
Proof.
  unfold entry_ok. destruct (ak_ip a); [|done]. intros [H|(s & ans & H & Hr)]; [by left|right].
  exists s, ans. split; [by apply answered_app|done].
Qed.
Lemma answered_snoc host log x ip s answer :
  answered host (log ++ [x]) ip s answer ->
  answered host log ip s answer \/
  (x = {| ak_ip := Some ip; ak_now := s; ak_verdict := verdict (listed answer); ak_query := Some (query_for host ip) |} /\
   resolver s (query_for host ip) = Some answer).
Proof.
  intros [H1 H2]. apply elem_of_app in H1 as [H1| ->%list_elem_of_singleton]; [left; by split|by right].
Qed.
(** What an entry that asked nothing new leaves as it was. *)
Lemma history_quiet host ttl keys c log now x :
  history_ok host ttl keys c log now -> now <= ak_now x -> entry_ok host ttl (log ++ [x]) x ->
  (forall ip s answer, answered host (log ++ [x]) ip s answer -> answered host log ip s answer) ->
  (is_Some (ak_query x) -> forall ip, ak_ip x = Some ip -> decay_get ip (ak_now x) (db_cache c) = None) ->
  history_ok host ttl keys c (log ++ [x]) (ak_now x).
Proof.
  intros [H1 H2 H3 H4 H5 H6 H7] Hn Hx Hans Hq. split; try done.
  - intros ip b s Hl. destruct (H4 ip b s Hl) as (ans & Ha & ->). exists ans. split; [by apply answered_app|done].
  - apply Forall_app. split; [|by constructor]. eapply Forall_impl; [exact H5|]. intros a. apply entry_app.
  - intros ip s ans t Ha Ht. apply (H6 ip s ans t); [by apply Hans|lia].
  - intros j b ip s ans Hj Hb Hs Ha. destruct (decide (j < length log)%nat) as [Hl|Hl].
    + rewrite lookup_app_l in Hj by done. rewrite take_app_le in Ha by lia. by eapply H7.
    + assert (j = length log) as -> by (apply lookup_lt_Some in Hj; rewrite length_app in Hj; cbn in Hj; lia).
      rewrite list_lookup_middle in Hj by done. injection Hj as <-. rewrite take_app_length in Ha.
      apply N.nle_gt. intros Hle. destruct (H6 ip s ans (ak_now x) Ha Hn Hle) as [? E]. by rewrite (Hq Hs ip Hb) in E.
Qed.
(** An answer, and what is kept of it. *)
Lemma history_asked host ttl (keys : gset IpAddr) c log now ip t answer :
  history_ok host ttl keys c log now -> now <= t -> ip ∈ keys -> N.of_nat (size keys) <= MAX_ENTRIES ->
  decay_get ip t (db_cache c) = None -> resolver t (query_for host ip) = Some answer ->
  let x := {| ak_ip := Some ip; ak_now := t; ak_verdict := verdict (listed answer); ak_query := Some (query_for host ip) |} in
  history_ok host ttl keys
    {| db_host := host; db_cache := decay_set ip (listed answer) t (db_cache c); db_timeout := db_timeout c |} (log ++ [x]) t.
Proof.
  intros [H1 H2 H3 H4 H5 H6 H7] Hn Hk Hs Hg Hr x.
  assert (Hx : answered host (log ++ [x]) ip t answer) by (split; [apply elem_of_app; right; by left|done]).
  split; cbn [db_host db_cache]; [done|done|..].
  - intros k Hin%elem_of_dom. unfold decay_set in Hin. apply put_keys in Hin as [->|Hin]; [done|]. by apply H3, elem_of_dom.
  - intros k b s Hl. unfold decay_set in Hl. apply decay_put_lookup in Hl as [[-> [= -> ->]]|Hl]; [by exists answer|].
    destruct (H4 k b s Hl) as (ans & Ha & ->). exists ans. split; [by apply answered_app|done].
  - apply Forall_app. split; [eapply Forall_impl; [exact H5|]; intros a; apply entry_app|].
    constructor; [|done]. right. exists t, answer. split; [done|]. cbn. split; [lia|by split; [|right]].
  - intros k s ans u Ha Hu Ht. unfold decay_set. destruct (decide (k = ip)) as [->|Hne].
    + fold (decay_set ip (listed answer) t (db_cache c)). rewrite (get_set_same ip (listed answer) t u (db_cache c) keys) by done.
      rewrite H2. apply answered_snoc in Ha as [Ha|[E _]].
      * exfalso. destruct (decide (t - s <= ttl)) as [Hle|Hle]; [|lia].
        destruct (H6 ip s ans t Ha Hn Hle) as [? E]. congruence.
      * assert (s = t) as -> by (unfold x in E; by injection E). destruct (N.ltb_spec ttl (u - t)); [lia|by eexists].
    + rewrite get_set_other by done. apply answered_snoc in Ha as [Ha|[E _]]; [apply (H6 k s ans); [done|lia..]|].
      exfalso. unfold x in E. by injection E as E1 _ _ _.
  - intros j b k s ans Hj Hb Hq Ha. destruct (decide (j < length log)%nat) as [Hl|Hl].
    + rewrite lookup_app_l in Hj by done. rewrite take_app_le in Ha by lia. by eapply H7.
    + assert (j = length log) as -> by (apply lookup_lt_Some in Hj; rewrite length_app in Hj; cbn in Hj; lia).
      rewrite list_lookup_middle in Hj by done. injection Hj as <-. rewrite take_app_length in Ha.
      apply N.nle_gt. intros Hle. cbn in Hb, Hle. injection Hb as <-.
      destruct (H6 ip s ans t Ha Hn Hle) as [? E]. congruence.
Qed.
Lemma history_step host ttl (keys : gset IpAddr) c log now e :
  history_ok host ttl keys c log now -> now <= e.2 -> (forall ip, e.1 = Some ip -> ip ∈ keys) ->
  N.of_nat (size keys) <= MAX_ENTRIES ->
  history_ok host ttl keys (dnsbl_step (c, log) e).1 (dnsbl_step (c, log) e).2 e.2.
Proof.
  intros H Hn Hk Hs. destruct e as [ip t]. cbn [fst snd] in *. unfold dnsbl_step, dnsbl_issue. cbn [fst snd].
  destruct ip as [ip|]; cbn [fst snd].
  2: { refine (history_quiet _ _ _ _ _ now {| ak_ip := _; ak_now := t; ak_verdict := _; ak_query := _ |} H Hn _ _ _); [by split| |by intros [? [=]]].
       intros ip s ans [?|[[=] _]]%answered_snoc; done. }
  pose proof (ho_host _ _ _ _ _ _ H) as Eh. pose proof (ho_ttl _ _ _ _ _ _ H) as Et.
  destruct (decay_get ip t (db_cache c)) as [b|] eqn:Eg; cbn [fst snd].
  - unfold decay_get in Eg. destruct (dm_inner (db_cache c) !! ip) as [[v s]|] eqn:El; [|done]. cbn in Eg.
    destruct (N.ltb_spec (dm_ttl (db_cache c)) (t - s)) as [|Hle]; [done|]. injection Eg as ->.
    destruct (ho_cache _ _ _ _ _ _ H ip b s El) as (ans & Ha & ->).
    refine (history_quiet _ _ _ _ _ now {| ak_ip := _; ak_now := t; ak_verdict := _; ak_query := _ |} H Hn _ _ _);
      [|by intros ? ? ? [?|[[=] _]]%answered_snoc|by intros [? [=]]].
    right. exists s, ans. split; [by apply answered_app|]. cbn. split; [by rewrite <-Et|by split; [|left]].
  - fold (query_for (db_host c) ip). rewrite Eh. destruct (resolver t (query_for host ip)) as [ans|] eqn:Er; cbn [fst snd].
    + fold (listed ans). apply history_asked with (now := now); auto.
    + refine (history_quiet _ _ _ _ _ now {| ak_ip := _; ak_now := t; ak_verdict := _; ak_query := _ |} H Hn _ _ _); [by left; split_and!| |].
      * intros ip' s ans [?|[[= E1 E2 E3 E4] E]]%answered_snoc; [done|]. exfalso. subst. congruence.
      * intros _ ip' [= <-]. exact Eg.
Qed.
Lemma history_runs host ttl (keys : gset IpAddr) es c log now :
  history_ok host ttl keys c log now -> StronglySorted N.le (now :: es.*2) ->
  (forall ip, Some ip ∈ es.*1 -> ip ∈ keys) -> N.of_nat (size keys) <= MAX_ENTRIES ->
  exists now', history_ok host ttl keys (foldl dnsbl_step (c, log) es).1 (foldl dnsbl_step (c, log) es).2 now'.
Proof.
  revert c log now. induction es as [|e es IH]; intros c log now H Hs Hk Hsize; [by exists now|].
  cbn [foldl]. destruct (dnsbl_step (c, log) e) as [c' log'] eqn:E. inversion_clear Hs as [|? ? Hs' Hle]; subst.
  apply (IH c' log' e.2); [|exact Hs'| |done].
  - pose proof (history_step host ttl keys c log now e) as Hstep. rewrite E in Hstep. apply Hstep; [done| | |done].
    + by apply Forall_cons in Hle as [? _].
    + intros ip Hip. apply Hk. rewrite fmap_cons, Hip. by left.
  - intros ip Hip. apply Hk. rewrite fmap_cons. by right.
Qed.
End History.

(** Over any history of requests in the order of time, whatever the resolver says
    and when it is late, the blocklist challenge is sound and asks no more than it
    must. A request without an address is skipped and asks nothing; one with an address
    is skipped only when the resolver was late for it; any other verdict is the answer
    to the question about that very address, asked at most a TTL before. An address
    that was answered is not asked about again within the TTL (while the addresses of
    the history fit the map), and no two addresses share a question. *)
Theorem blocklist_verdicts (resolver : N -> Resolver) host ttl (es : list (option IpAddr * N)) :
  StronglySorted N.le es.*2 ->
  N.of_nat (size (list_to_set (omap id es.*1) : gset IpAddr)) <= MAX_ENTRIES ->
  let log := (dnsbl_history resolver (dnsbl_new host ttl) es).2 in
  (fun a => (ak_ip a, ak_now a)) <$> log = es /\
  Forall (entry_ok resolver host ttl log) log /\
  (forall j b ip s answer, log !! j = Some b -> ak_ip b = Some ip -> is_Some (ak_query b) ->
     answered resolver host (take j log) ip s answer -> ttl < ak_now b - s) /\
  (forall ip ip', ip_fits ip -> ip_fits ip' -> query_for host ip = query_for host ip' -> ip = ip').
Proof.
  intros Hs Hsize log.
  assert (Hnew : history_ok resolver host ttl (list_to_set (omap id es.*1)) (dnsbl_new host ttl) [] 0).
  { split; [done|done|cbn; set_solver| |done| |].
    - intros ip b s Hl. cbn in Hl. by rewrite lookup_empty in Hl.
    - intros ip s answer t [Hin _] _ _. by apply elem_of_nil in Hin.
    - intros [|j] b ip s answer Hj; done. }
  destruct (history_runs resolver host ttl _ es _ _ _ Hnew) as [now H]; [| |exact Hsize|].
  - constructor; [done|]. apply Forall_true. intros. lia.
  - intros ip Hin. apply elem_of_list_to_set, list_elem_of_omap. by exists (Some ip).
  - split_and!; [|apply (ho_log _ _ _ _ _ _ _ H)|apply (ho_once _ _ _ _ _ _ _ H)|].
    + unfold log, dnsbl_history. clear. generalize (dnsbl_new host ttl) as c.
      enough (forall (l : list Asked) c, (fun a => (ak_ip a, ak_now a)) <$> (foldl (dnsbl_step resolver) (c, l) es).2 =
        ((fun a => (ak_ip a, ak_now a)) <$> l) ++ es) as Hrun by (intros c; by apply (Hrun [])).
      induction es as [|e es IH]; intros l c; [by rewrite app_nil_r|]. cbn [foldl]. unfold dnsbl_step at 2.
      cbn [fst snd]. destruct (dnsbl_issue _ _ _ _) as [[v c'] q]. rewrite IH, fmap_app, <-app_assoc.
      cbn. by destruct e.
    + intros ip ip' Hi Hi' E. apply (query_inj ip ip' host); [done..|]. unfold query_for in E. by apply string_app_inv_tail in E.
Qed.

(** ** A listed address, and a relation that hides behind another *)

Module LookupExample.
Definition listing (now : N) : Resolver := fun query =>
  if now =? 3 then None
  else Some (if String.eqb query "2.0.0.127.bl.example:0" then Ok [{| sa_ip := V4 2130706434; sa_port := 0 |}] else Err "no").
Definition requests : list (option IpAddr * N) :=
  [(Some (V4 2130706434), 0); (None, 1); (Some (V4 2130706434), 2); (Some (V4 1), 3); (Some (V4 1), 4); (Some (V4 2130706434), 9)].
Example verdicts :
  (fun a => (ak_verdict a, is_some (ak_query a))) <$> (dnsbl_history listing (dnsbl_new "bl.example" 5) requests).2 =
  [(VFailed, true); (VSkip, false); (VFailed, false); (VSkip, true); (VPassed, true); (VFailed, true)].
Proof. vm_refl. Qed.
Example question_v6 : build_dnsbl_query (V6 1) "x" =
  "1.0.0.0.0.0.0.0.0.0.0.0.0.0.0.0.0.0.0.0.0.0.0.0.0.0.0.0.0.0.0.0.x".
Proof. vm_refl. Qed.

#[export] Existing Instances PlainWeb.uri PlainWeb.uri_parts PlainWeb.header_text PlainWeb.matches.
Definition shown_links : option (list Attrs) := (fun tags => (tags_to_template_values tags).2) <$> extract_tags "<head><link></head>".
Example last_relation_shown : shown_links = Some [[("href", "/x"); ("rel", "stylesheet")]].
Proof. vm_refl. Qed.
(** [windows] finds any tag that starts as [<head] does. *)
Example header_is_head : extract_head "<HEADER id=a>x</header><p></head>" = Some "x</header><p>".
Proof. vm_refl. Qed.

#[export] Instance header_api : HeaderApi := {| header_name := Some; header_value := Some |}.
Definition back_end : Uri := "back.end".
Definition page (_ : TagRequest) : OriginReply := OriginReplied (Some "text/html; charset=utf-8") (Some (byte_of <$> string_chars "<head><link></head>")).
Definition tags : list HtmlTag := default [] (extract_tags "<head><link></head>").
Definition kept_cache : DecayMap string (list HtmlTag) := decay_set "a.org" tags 0 (decay_new 10).
Definition root_request : TagRequest := tag_request ("http://back.end/" : Uri) "a.org".
Lemma fetched : fetch_tags page "a.org" (decay_new 10) back_end 0 = Some (tags, kept_cache, Some root_request).
Proof. unfold kept_cache. vm_refl. Qed.
End LookupExample.
Import LookupExample.

Lemma origin_tags_are_safe_witness :
  Forall tag_safe LookupExample.tags /\ cache_safe LookupExample.kept_cache /\
  Forall map_safe ((tags_to_template_values LookupExample.tags).1 ++ (tags_to_template_values LookupExample.tags).2) /\
  fetch_tags (fun _ => NoReply) "a.org" LookupExample.kept_cache back_end 10 =
    Some (LookupExample.tags, LookupExample.kept_cache, None).
Proof.
  assert (Hc : cache_safe (decay_new 10)) by (intros h t s H; cbn in H; by rewrite lookup_empty in H).
  destruct (origin_tags_are_safe LookupExample.page "a.org" (decay_new 10) back_end 0
    LookupExample.tags LookupExample.kept_cache (Some root_request) Hc LookupExample.fetched) as (H1 & H2 & H3 & H4).
  split_and!; [exact H1|exact H2|exact H3|].
  apply (H4 (fun _ => NoReply) back_end 10 {["a.org"]}); [done| |cbn; lia|cbn; set_solver|set_solver|rewrite size_singleton; vm_compute; by intros].
  intros E. apply (f_equal (fun c => is_some (dm_inner c !! "a.org"))) in E. vm_compute in E. discriminate E.
Defined.
Lemma blocklist_verdicts_witness :
  let log := (dnsbl_history LookupExample.listing (dnsbl_new "bl.example" 5) LookupExample.requests).2 in
  Forall (entry_ok LookupExample.listing "bl.example" 5 log) log.
Proof.
  apply (blocklist_verdicts LookupExample.listing "bl.example" 5 LookupExample.requests).
  - unfold LookupExample.requests. cbn. repeat constructor; lia.
  - vm_compute. by intros.
Defined.
