(* ===== verification/Routes.v ===== *)
(** * Routes

    [dispatch] of [crates/bagel-web/src/routes.rs]: the endpoints bagel answers itself,
    the assets of the challenge page, the solver of [solver_delivery.rs], the beacons
    and the verifications of [Verify], and for every other path the pipeline. The
    files a build embeds and the pool of solver variants are arguments. *)

From S2P Require Import Prelude Core ThirdParty Strings Ip Bytes Url Host.
From S2P Require Import Proto Wire Http2 Tls Traps Rate Rule Scoring.
From S2P Require Import Pending Maze Condition Census Challenge TlsEdge Proxy WebConfig.
From S2P Require Import State Reload Session Evaluate Finalize Pipeline Verify.

Local Open Scope N_scope.

(** ** Assets *)

(** What the build embeds, and the headers and codings [vela] gives a solver. *)
Record Assets : Type := {
  as_widget_css : list N; as_runtime_mjs : list N; as_worker_mjs : list N; as_gpu_mjs : list N;
  as_static_wasm : list N; as_static_brotli : list N;
  as_cache_control : string; as_vary : string; as_content_type : string;
  as_content_encoding : bool -> option string }.
(** [Pool::get] on the text of an id: the bytes in either coding. *)
Definition VariantPool : Type := string -> option (bool -> list N).

Definition asset (content : list N) (content_type : string) : Reply := {|
  rp_status := 200;
  rp_headers := [("content-type", content_type); ("cache-control", "public, max-age=31536000, immutable")];
  rp_body := PBytes content |}.
Definition method_not_allowed (allow : string) : Reply := {|
  rp_status := 405; rp_headers := [("allow", allow)]; rp_body := PPage BEmpty |}.

Section Solver.
Context {HT : HeaderText}.
Variable assets : Assets.

(** [accepts_brotli]. *)
Definition accepts_item (item : string) : bool :=
  let '(coding, weight) := default (item, "") (split_once ";" item) in
  eq_ignore_ascii_case (str_trim coding) "br" && negb (eq_ignore_ascii_case (str_trim weight) "q=0").
Definition accepts_brotli (h : Headers) : bool :=
  existsb accepts_item (mjoin (str_split "," <$> omap header_to_str (get_all "accept-encoding" h))).
(** [solver_delivery::serve]. *)
Definition serve_solver (pool : option VariantPool) (variant : option string) (head_only : bool) (h : Headers) : Reply :=
  let brotli := accepts_brotli h in
  let found := id ← variant; pool ← pool; pool id in
  let '(content, cache_control) :=
    match found with
    | Some bytes => (bytes brotli, as_cache_control assets)
    | None => (if brotli then as_static_brotli assets else as_static_wasm assets, "public, max-age=31536000, immutable")
    end in {|
  rp_status := 200;
  rp_headers :=
    [("cache-control", cache_control); ("vary", as_vary assets); ("content-type", as_content_type assets);
     ("content-length", show_N (N.of_nat (length content)))] ++
    match as_content_encoding assets brotli with Some value => [("content-encoding", value)] | None => [] end;
  rp_body := if head_only then PPage BEmpty else PBytes content |}.
End Solver.

Definition quote : string := bytes_string [34].
Definition quoted (s : string) : string := quote +:+ s +:+ quote.
Definition BEACON_SVG : list N :=
  string_bytes ("<svg xmlns=" +:+ quoted "http://www.w3.org/2000/svg" +:+ " width=" +:+ quoted "1" +:+ " height=" +:+
                quoted "1" +:+ "/>").
Definition beacon_reply : Reply := {|
  rp_status := 200; rp_headers := [("content-type", "image/svg+xml"); ("cache-control", "private, no-store")];
  rp_body := PBytes BEACON_SVG |}.

(** ** Dispatch *)

Section Routes.
Context {RX : RegexApi} {RSA : RegexSetApi} {RE : RegexExpand} {RG : RegexGroups} {RH : RhaiApi} {SC : ScopeApi}.
Context {U : UriApi} {UP : UriParts} {UR : UriRewrite} {HA : HeaderApi} {HT : HeaderText}.
Context {NA : IpNetworkApi} {MA : MazeApi} {SA : SealApi} {HX : HexApi}.
Context {Key Trie : Type}.
Variable trie_contains : Trie -> IpAddr -> bool.
Variables (sha1 : list N -> list N) (sha256 : list N -> N).
Variables (base64_decode : string -> option (list N)) (hex_decode : list N -> option (list N)).
Notation ServerState := (StateInner (Key := Key) (Networks := gmap string Trie)).
Variables (assets : Assets) (variants : option VariantPool).
Variable s : ServerState.
Variable ev : Env.

(** [client_ip_for]. *)
Definition client_ip_for (req : HttpRequest) : option IpAddr :=
  (fun peer => state_client_ip (cp_client_ip (si_compiled s)) (sa_ip peer) req) <$> hr_addr req.
Definition route_host (req : HttpRequest) : option CanonicalHost :=
  canonical_request_host (uri_authority (hr_uri req)) (header_text "host" (hr_headers req)).
Definition cookies (req : HttpRequest) : list string := omap header_to_str (get_all "cookie" (hr_headers req)).

(** [handle_beacon]. *)
Definition beacon_session (hst : string) (req : HttpRequest) : option (list N) :=
  session <$> token (from_headers sha256 (si_seed s) (ev_now ev) (cookies req) hst (client_ip_for req)).
Definition fetched_beacon (id : string) (req : HttpRequest) : option (list N * BeaconKind) :=
  hst ← route_host req;
  session ← beacon_session (host_text hst) req;
  kind ← classify_beacon sha256 (si_seed s) session (host_text hst) (Z.to_N (ev_now ev mod 2 ^ 64)) id;
  Some (session, kind).
Definition handle_beacon (id : string) (req : HttpRequest) (p : Plane) : Finished * Plane :=
  (answered beacon_reply,
   match fetched_beacon id req with
   | Some (session, kind) =>
       with_visits p (record_beacon session kind (ev_instant ev) (ev_instant' ev) (pl_visits p))
   | None => p
   end).

(** *** Verifications *)

(** What the handlers of [Verify] read of a request, of the state and of its plane.
    [slot] is whether a verification could start. *)
Definition verify_request (req : HttpRequest) (body : Collected) (slot : bool) : VerifyRequest := {|
  vr_query := uri_query (hr_uri req); vr_authority := uri_authority (hr_uri req);
  vr_host := header_text "host" (hr_headers req); vr_cookies := cookies req;
  vr_agent := string_bytes <$> head (get_all "user-agent" (hr_headers req)); vr_body := body;
  vr_ip := client_ip_for req; vr_stack := hr_tls req ≫= tls_stack sha1;
  vr_now := ev_now ev; vr_tick := ev_tick ev; vr_instant := ev_instant ev; vr_random := ev_seal_random ev;
  vr_slot := slot |}.
Definition verify_shared : Shared := {|
  sh_sha256 := sha256; sh_hash := ev_hash ev; sh_server_key := si_seed s;
  sh_registry := cp_challenges (si_compiled s); sh_revision := si_revision s;
  sh_backend := fun hst => is_some (pool_select (cp_backends (si_compiled s)) hst) |}.
Definition plane_server (p : Plane) : Server :=
  {| sv_rates := pl_rate p; sv_solves := pl_solve p; sv_pending := pl_pending p |}.
Definition with_server (p : Plane) (sv : Server) : Plane := {|
  pl_rate := sv_rates sv; pl_solve := sv_solves sv; pl_census := pl_census p; pl_visits := pl_visits p;
  pl_poison := pl_poison p; pl_wildcards := pl_wildcards p; pl_pending := sv_pending sv; pl_slots := pl_slots p;
  pl_offenses := pl_offenses p; pl_tags := pl_tags p; pl_asked := pl_asked p |}.
Definition verified (p : Plane) (r : Response * Server) : Finished * Plane :=
  (answered (reply_of r.1), with_server p r.2).

(** *** [dispatch] *)

Variable render_maze : MazeServe -> Served -> string.
Variable fragment_text : Fragment -> string.
Variable exchange : Backend -> Outgoing -> option Reply.

(** An internal endpoint. *)
Definition answer_internal (route : Internal) (addr : SocketAddr) (req : HttpRequest) (body : Collected) (slot : bool)
    (p : Plane) : Finished * Plane :=
  let readable := get_or_head (hr_method req) in
  let posted := String.eqb (hr_method req) "POST" in
  let javascript := "application/javascript; charset=utf-8" in
  let or_refuse (r : Finished * Plane) := if readable then r else (answered (method_not_allowed "GET,HEAD"), p) in
  match route with
  | RCss => or_refuse (answered (asset (as_widget_css assets) "text/css; charset=utf-8"), p)
  | RRuntime => or_refuse (answered (asset (as_runtime_mjs assets) javascript), p)
  | RWorker => or_refuse (answered (asset (as_worker_mjs assets) javascript), p)
  | RGpu => or_refuse (answered (asset (as_gpu_mjs assets) javascript), p)
  | RSolver =>
      or_refuse (answered (serve_solver assets variants (query_param (uri_query (hr_uri req)) "variant")
                             (String.eqb (hr_method req) "HEAD") (hr_headers req)), p)
  | RBeacon id => or_refuse (handle_beacon id req p)
  | RVerify name =>
      let req := with_client_tls sha256 base64_decode hex_decode s addr req in
      let vr := verify_request req body slot in
      if readable then verified p (handle_verify verify_shared name vr (plane_server p))
      else if posted then verified p (handle_pow_verify verify_shared name vr (plane_server p))
      else (answered (method_not_allowed "GET,HEAD,POST"), p)
  end.
Definition dispatch (addr : SocketAddr) (req : HttpRequest) (body : Collected) (slot : bool) (p : Plane) :
    Finished * Plane :=
  match internal_route (uri_path (hr_uri req)) with
  | None =>
      handle_request trie_contains sha1 sha256 base64_decode hex_decode s ev render_maze fragment_text exchange addr req p
  | Some route => answer_internal route addr req body slot p
  end.
End Routes.
