(* ===== verification/RoutesFacts.v ===== *)
(** * What the routes promise

    Facts about [Routes]: the endpoints bagel answers itself stand apart from policy and
    backends, and a beacon a page carries counts for the session it was written for. *)

From S2P Require Import Prelude Core ThirdParty Strings Ip Bytes Url Host.
From S2P Require Import Proto Wire Http2 Tls Traps Rate Rule Scoring.
From S2P Require Import Pending Maze Condition Census Challenge TlsEdge Proxy WebConfig.
From S2P Require Import State Reload Session Evaluate Finalize Pipeline Verify Routes.
From S2P Require Import ProxyFacts StateFacts Census PipelineFacts.

Local Open Scope N_scope.

Section Facts.
Context {RX : RegexApi} {RSA : RegexSetApi} {RE : RegexExpand} {RG : RegexGroups} {RH : RhaiApi} {SC : ScopeApi}.
Context {U : UriApi} {UP : UriParts} {UR : UriRewrite} {HA : HeaderApi} {HT : HeaderText}.
Context {NA : IpNetworkApi} {MA : MazeApi} {SA : SealApi} {HX : HexApi}.
Context {Key Trie : Type}.
Variable trie_contains : Trie -> IpAddr -> bool.
Variables (sha1 : list N -> list N) (sha256 : list N -> N).
Variables (base64_decode : string -> option (list N)) (hex_decode : list N -> option (list N)).
Notation ServerState := (StateInner (Key := Key) (Networks := gmap string Trie)).
Variables (assets : Assets) (variants : option VariantPool).
Variable ev : Env.
Variable render_maze : MazeServe -> Served -> string.
Variable fragment_text : Fragment -> string.
Variable exchange : Backend -> Outgoing -> option Reply.
Notation dispatch s := (dispatch trie_contains sha1 sha256 base64_decode hex_decode assets variants s ev render_maze fragment_text exchange).

(** What the endpoints read of a state: its seed, its revision, its challenges and
    backends, and whom it believes about a client's address and handshake. *)
Definition endpoints_agree (s s' : ServerState) : Prop :=
  si_seed s = si_seed s' /\ si_revision s = si_revision s' /\
  wc_client_tls_header (si_config s) = wc_client_tls_header (si_config s') /\
  cp_client_ip (si_compiled s) = cp_client_ip (si_compiled s') /\
  cp_backends (si_compiled s) = cp_backends (si_compiled s') /\
  cp_challenges (si_compiled s) = cp_challenges (si_compiled s').

(** C25: No policy can shadow the endpoints bagel answers itself. Their answers are the
    same under any rules, scorecards, mazes, networks and passthrough; they reach no
    backend, raise no offense, and leave the census and the poison memory alone. A
    verification leaves visits alone, a beacon counts and challenges, and an
    asset everything. *)
Theorem internal_endpoints_apart s addr req body slot p route :
  internal_route (uri_path (hr_uri req)) = Some route ->
  (forall s', endpoints_agree s s' -> dispatch s' addr req body slot p = dispatch s addr req body slot p) /\
  let '(f, p') := dispatch s addr req body slot p in
  fi_sent f = [] /\ (exists reply, fi_outcome f = Replied reply) /\
  pl_census p' = pl_census p /\ pl_poison p' = pl_poison p /\ pl_wildcards p' = pl_wildcards p /\
  pl_slots p' = pl_slots p /\ pl_offenses p' = pl_offenses p /\ pl_tags p' = pl_tags p /\ pl_asked p' = pl_asked p /\
  match route with
  | RVerify _ => pl_visits p' = pl_visits p
  | RBeacon _ => pl_rate p' = pl_rate p /\ pl_solve p' = pl_solve p /\ pl_pending p' = pl_pending p
  | _ => p' = p
  end.
Proof.
  intros Hr. unfold Routes.dispatch. rewrite Hr. split.
  - intros s' (E1 & E2 & E3 & E4 & E5 & E6). unfold answer_internal, handle_beacon, fetched_beacon, beacon_session,
      client_ip_for, verify_shared, verify_request, client_ip_for, with_client_tls.
    by rewrite E1, E2, E3, E4, E5, E6.
  - unfold answer_internal, verified. destruct route; try (destruct (get_or_head _); cbn; split_and!; eauto; done).
    + destruct (get_or_head _); [|cbn; split_and!; eauto; done]. unfold handle_beacon.
      destruct (fetched_beacon _ _ _ _ _) as [[session kind]|]; cbn; split_and!; eauto.
    + destruct (get_or_head _); [cbn; split_and!; eauto; done|]. destruct (String.eqb _ "POST"); cbn; split_and!; eauto; done.
Qed.

(** ** Beacons *)

(** A beacon of a page written for a session, fetched with the session's cookie until the
    end of the next ten-minute span, is recorded for the session as the kind it was
    written as; and whatever is asked of the beacons' endpoint, by whomever, the answer
    is the same. *)
Theorem beacon_counts (s : ServerState) addr req body slot p hst session kind written :
  let now := Z.to_N (ev_now ev mod 2 ^ 64) in
  uri_path (hr_uri req) = beacon_url sha256 (si_seed s) session (host_text hst) written kind ->
  get_or_head (hr_method req) = true -> route_host req = Some hst ->
  beacon_session sha256 s ev (host_text hst) req = Some session -> length session = 32%nat ->
  written <= now <= u64_max -> current_bucket now <= current_bucket written + 1 ->
  let '(f, p') := dispatch s addr req body slot p in
  f = answered beacon_reply /\
  (p' = with_visits p (record_beacon session kind (ev_instant ev) (ev_instant' ev) (pl_visits p)) \/ short_collision sha256).
Proof.
  intros now Hp Hm Hh Hs Hl Hw Hb.
  destruct (beacon_roundtrip sha256 (si_seed s) session (host_text hst) kind written now Hl Hw Hb) as (Hr & Hc & _).
  unfold Routes.dispatch. rewrite Hp, Hr. unfold answer_internal. rewrite Hm. unfold handle_beacon, fetched_beacon.
  rewrite Hh. cbn [mbind option_bind]. rewrite Hs. cbn [mbind option_bind]. fold now. split; [done|].
  destruct Hc as [-> | Hc]; [by left|by right].
Qed.
End Facts.

(** ** Examples *)

Module RoutesExample.
Import StateExample PipelineExample.
#[export] Instance hex : HexApi := {| hexlower_decode := fun _ => None |}.
Definition assets : Assets := {|
  as_widget_css := [99]; as_runtime_mjs := [114]; as_worker_mjs := [119]; as_gpu_mjs := [103];
  as_static_wasm := [0; 97; 115; 109]; as_static_brotli := [1];
  as_cache_control := "private"; as_vary := "accept-encoding"; as_content_type := "application/wasm";
  as_content_encoding := fun brotli : bool => if brotli then Some "br" else None |}.
Definition pool : VariantPool := fun id => if String.eqb id "7" then Some (fun brotli : bool => if brotli then [2] else [3; 4]) else None.
Definition dispatched (m path : string) (h : Headers) : Finished * Plane :=
  dispatch (fun _ _ => false) (fun l => l) example_sha256 (fun _ => None) (fun _ => None) assets (Some pool) server env
    (fun _ _ => "<html>") (fun _ => "") (fun _ _ => Some answer) addr
    {| hr_method := m; hr_uri := ProxyExample.of_path path : Uri; hr_version := Http11V;
       hr_headers := ("host", "Git.Example.com:443") :: h; hr_peer := None; hr_tls := None; hr_http2 := None;
       hr_addr := Some addr; hr_drop_handle := true |} (Body_ []) true plane.
Definition shown (r : Finished * Plane) : option (N * option string * nat) :=
  match fi_outcome r.1 with
  | Replied rp => Some (rp_status rp, head (get_all "content-type" (rp_headers rp)), length (fi_sent r.1))
  | _ => None
  end.
Example dispatched_requests :
  shown <$> [dispatched "GET" "/__bagel/static/widget.css" []; dispatched "POST" "/__bagel/static/gpu.mjs" [];
             dispatched "GET" "/__bagel/static/solver.wasm" [("accept-encoding", "gzip, BR;q=1")];
             dispatched "GET" "/__bagel/static/t/00112233445566778899aabbccddeeff.svg" [];
             dispatched "GET" "/__bagel/pow/verify" []; dispatched "DELETE" "/__bagel/pow/verify" [];
             dispatched "POST" "/__bagel/absent/verify" []; dispatched "POST" "/__bagel/pow/verify" [];
             dispatched "POST" "/__bagel/pow/verify" [("cookie", cookie)]; dispatched "GET" "/repo" [("cookie", cookie)]] =
  [Some (200, Some "text/css; charset=utf-8", 0%nat); Some (405, None, 0%nat); Some (200, Some "application/wasm", 0%nat);
   Some (200, Some "image/svg+xml", 0%nat); Some (400, Some "text/plain; charset=utf-8", 0%nat); Some (405, None, 0%nat);
   Some (404, Some "text/plain; charset=utf-8", 0%nat); Some (403, Some "text/plain; charset=utf-8", 0%nat);
   Some (400, Some "text/plain; charset=utf-8", 0%nat); Some (200, Some "text/html", 1%nat)].
Proof. vm_refl. Qed.
End RoutesExample.

Import StateExample PipelineExample RoutesExample.
Lemma internal_endpoints_apart_witness :
  pl_visits (RoutesExample.dispatched "POST" "/__bagel/pow/verify" [("cookie", cookie)]).2 = pl_visits plane.
Proof.
  unfold RoutesExample.dispatched.
  match goal with |- context [dispatch _ _ _ _ _ _ _ _ _ _ _ _ ?a ?r ?b ?sl ?p] =>
    pose proof (internal_endpoints_apart (fun _ _ => false) (fun l => l) example_sha256 (fun _ => None) (fun _ => None)
      RoutesExample.assets (Some RoutesExample.pool) env (fun _ _ => "<html>") (fun _ => "") (fun _ _ => Some answer)
      server a r b sl p (RVerify "pow") ltac:(vm_refl)) as [_ H];
    destruct (dispatch _ _ _ _ _ _ _ _ _ _ _ _ a r b sl p) as [f p']
  end.
  destruct H as (_ & _ & _ & _ & _ & _ & _ & _ & _ & Hv). exact Hv.
Defined.
