(* ===== verification/Monitor.v ===== *)
(** * The metrics server

    [crates/bagel-runtime/src/metrics.rs]: what its HTTP server answers, and the
    connections it handles at once. The text of the metrics and of JSON are parameters,
    a request is what the reads of its head give. *)

From S2P Require Import Prelude Core Ip ThirdParty Config Firewall Store Detector.
From S2P Require Import Defense Traps Admission Proto Endpoints Admin Float.

Local Open Scope N_scope.

Definition crlf2 : string := bytes_string [13; 10; 13; 10].
Definition line_end : string := bytes_string [13; 10].

(** ** The status *)

(** The 64 bits of a positive float. *)
Definition f64_bits (x : f64) : N :=
  match x with
  | SpecFloat.S754_finite false m e =>
      if N.pos m <? 2 ^ 52 then N.pos m else Z.to_N (e + 1075) * 2 ^ 52 + (N.pos m - 2 ^ 52)
  | _ => 0
  end.
Definition count_value (n : N) : Value :=
  VNumber {| num_i64 := if n <? 2 ^ 63 then Some (Z.of_N n) else None; num_u64 := Some n; num_f64 := Some (f64_bits (f64_of n)) |}.
(** [Serialize for EndpointStatus], and the object [status_json] writes; the members
    of both are in the order of their names. *)
Definition endpoint_value (e : EndpointStatus) : Value :=
  VObject [("accepted", count_value (et_accepted e)); ("active", count_value (et_active e));
           ("available_tarpit_capacity", count_value (et_available e)); ("bytes_sent", count_value (et_bytes_sent e));
           ("closed", count_value (et_closed e)); ("listen_addr", VString (et_listen_addr e)); ("name", VString (et_name e));
           ("ready", VBool (et_ready e)); ("rejected", count_value (et_rejected e));
           ("tarpit_capacity", count_value (et_tarpit_capacity e)); ("trapped_seconds", count_value (et_trapped_seconds e))].
Definition status_value (endpoints : list EndpointStatus) (bans : list Ban) : Value :=
  VObject [("active_bans", count_value (N.of_nat (length bans)));
           ("active_connections", count_value (sum_of et_active endpoints));
           ("blocked_ips", count_value (N.of_nat (size (blocked_networks bans))));
           ("endpoints", VArray (endpoint_value <$> endpoints)); ("status", VString "running");
           ("version", VString CARGO_PKG_VERSION)].

(** ** Requests *)

(** The connections [serve] handles at once; one more is dropped. *)
Definition MONITOR_HANDLERS : N := 128.
Inductive MonitorEvent : Type := MonitorAccept | MonitorDone.
Definition monitor_step (handling : N) (e : MonitorEvent) : option N :=
  match e with
  | MonitorAccept => Some (if handling <? MONITOR_HANDLERS then handling + 1 else handling)
  | MonitorDone => if handling =? 0 then None else Some (handling - 1)
  end.

Record MonitorReply : Type := { mp_status : string; mp_content_type : string; mp_body : string }.
Definition plain_reply (status body : string) : MonitorReply :=
  {| mp_status := status; mp_content_type := "text/plain"; mp_body := body +:+ nl |}.
Definition reply_text (r : MonitorReply) : string :=
  "HTTP/1.1 " +:+ mp_status r +:+ line_end +:+ "Content-Type: " +:+ mp_content_type r +:+ line_end +:+
  "Content-Length: " +:+ show_N (N.of_nat (String.length (mp_body r))) +:+ line_end +:+ "Connection: close" +:+ crlf2 +:+ mp_body r.

Section Monitor.
Context {NA : IpNetworkApi} {RX : RegexApi} {RS : RegexSetApi} {JS : JsonApi} {TM : TimeApi} {SC : StoreCodec}.
(** [PrometheusHandle::render] and [Value::to_string]. *)
Variables (render : string) (json_text : Value -> string) (httparse : list N -> option HttpRequest).

Definition endpoints_ready (s : Server) : bool := forallb (fun e => et_ready (snapshot (ep_stats e))) (sv_endpoints s).
Definition monitor_ready (s : Server) : bool := is_ready (sv_defense s) && endpoints_ready s.
(** The answer to a path, [s] being the daemon when the head has been read and
    [later] when the leases have been. *)
Definition monitor_answer (env : Env) (s later : Server) (target : string) : MonitorReply :=
  let path := default "/" (head (str_split "?" target)) in
  if String.eqb path "/metrics" then {| mp_status := "200 OK"; mp_content_type := "text/plain; version=0.0.4"; mp_body := render |}
  else if String.eqb path "/status" then
    match bans env (sv_defense s) with
    | Ok bans =>
        {| mp_status := "200 OK"; mp_content_type := "application/json";
           mp_body := json_text (status_value (snapshot ∘ ep_stats <$> sv_endpoints later) bans) |}
    | Err error => plain_reply "500 Internal Server Error" ("cannot query defense state: " +:+ show_error error)
    end
  else if String.eqb path "/healthz" then plain_reply "200 OK" "ok"
  else if String.eqb path "/readyz" then
    if monitor_ready s then plain_reply "200 OK" "ready" else plain_reply "503 Service Unavailable" "not ready"
  else if String.eqb path "/" then plain_reply "200 OK" "bagel tarpit running"
  else plain_reply "404 Not Found" "not found".
(** [handle_conn]: [None] while the head is read; nothing is sent without a head. *)
Definition monitor_handle (env : Env) (rounds : list HeadRound) (s later : Server) : option (option string) :=
  head ← read_head_full httparse [] rounds;
  Some match head with
       | Ok (Some head) => Some (reply_text (monitor_answer env s later (h_path head)))
       | _ => None
       end.
End Monitor.
