(* ===== verification/EndpointsFacts.v ===== *)
(** * What the tarpit's endpoints promise

    Facts about [Endpoints]: in whatever order the accept loops and connections run,
    the slots, permits and counters agree with the connections there are; and, below,
    facts about [Admin] and [Monitor], which show the daemon to its operator. *)

From S2P Require Import Prelude Url Tls Admin Float StoreFacts StoreSpec Monitor.
From S2P Require Import Core Ip ThirdParty Config Firewall Store Detector Validation.
From S2P Require Import Defense Traps Admission Proto StoreSpec ValidationFacts DefenseFacts Endpoints.

Local Open Scope N_scope.

(** ** Counting connections *)

Definition conns (m : gmap N Conn) : list Conn := (map_to_list m).*2.
Definition count (P : Conn -> bool) (m : gmap N Conn) : N := N.of_nat (length (List.filter P (conns m))).
Definition one (b : bool) : N := if b then 1 else 0.

Lemma conns_take m id c : m !! id = Some c -> conns m ≡ₚ c :: conns (delete id m).
Proof. intros H. unfold conns. by rewrite <-(map_to_list_delete m id c H). Qed.
Lemma conns_put m id c : conns (<[id := c]> m) ≡ₚ c :: conns (delete id m).
Proof. rewrite (conns_take (<[id := c]> m) id c) by apply lookup_insert_eq. by rewrite delete_insert_eq. Qed.

Lemma filter_length_perm {A} (P : A -> bool) l k : l ≡ₚ k -> length (List.filter P l) = length (List.filter P k).
Proof.
  induction 1 as [|x l k _ IH|x y l|l k j _ IH1 _ IH2]; cbn; [done|destruct (P x); cbn; lia| |lia].
  by destruct (P x), (P y).
Qed.
Lemma count_take P m id c : m !! id = Some c -> count P m = one (P c) + count P (delete id m).
Proof. intros H. unfold count. rewrite (filter_length_perm P _ _ (conns_take m id c H)). cbn. destruct (P c); cbn [length one]; lia. Qed.
Lemma count_put P m id c : count P (<[id := c]> m) = one (P c) + count P (delete id m).
Proof. unfold count. rewrite (filter_length_perm P _ _ (conns_put m id c)). cbn. destruct (P c); cbn [length one]; lia. Qed.
Lemma count_new P m id c : m !! id = None -> count P (<[id := c]> m) = one (P c) + count P m.
Proof. intros H. by rewrite count_put, (delete_id _ _ H). Qed.
Lemma count_mono P Q m : (forall c, P c = true -> Q c = true) -> count P m <= count Q m.
Proof.
  intros H. unfold count. generalize (conns m) as l. induction l as [|c l IH]; [done|]. cbn.
  specialize (H c). destruct (P c), (Q c); cbn [length]; lia.
Qed.

(** ** The invariant *)

(** The address a connection holds a place of. *)
Definition guard (c : Conn) : option IpAddr :=
  match cn_phase c with
  | Placed ip | Entered ip | Held ip | Closing ip | Unslotted ip | Unmarked ip => Some ip
  | _ => None
  end.
Definition held (m : gmap N Conn) : list IpAddr := omap guard (conns m).
(** The address a connection was found to come from. *)
Definition found (c : Conn) : option IpAddr :=
  match cn_phase c with
  | Opening | Refused | Leaving => None
  | Hit ip | Recorded ip | Slotted ip | Placed ip | Entered ip | Held ip | Closing ip
  | Unslotted ip | Unmarked ip | Unplaced ip => Some ip
  end.
Definition at_endpoint (i : nat) (c : Conn) : bool := (cn_endpoint c =? i)%nat.
Definition slot_phase (p : Phase) : bool :=
  match p with Slotted _ | Placed _ | Entered _ | Held _ | Closing _ | Refused => true | _ => false end.
Definition mark_phase (p : Phase) : bool := match p with Held _ | Closing _ | Unslotted _ => true | _ => false end.
Definition open_phase (p : Phase) : bool :=
  match p with
  | Opening | Hit _ | Recorded _ | Slotted _ | Placed _ | Entered _ | Held _ => true
  | _ => false
  end.
(** Still counted as active while its slot is free again. *)
Definition late_phase (p : Phase) : bool := match p with Unslotted _ => true | _ => false end.
Definition count_phase (p : Phase) : bool :=
  match p with Entered _ | Held _ | Closing _ | Unslotted _ | Unmarked _ | Unplaced _ => true | _ => false end.
Definition has_slot (i : nat) (c : Conn) : bool := at_endpoint i c && slot_phase (cn_phase c).
Definition is_marked (i : nat) (c : Conn) : bool := at_endpoint i c && mark_phase (cn_phase c).
Definition unfinished (i : nat) (c : Conn) : bool := at_endpoint i c && open_phase (cn_phase c).
Definition is_late (i : nat) (c : Conn) : bool := at_endpoint i c && late_phase (cn_phase c).
(** Counted by the state ([active_count]). *)
Definition is_counted (c : Conn) : bool := count_phase (cn_phase c).
Lemma at_endpoint_here i peer p : at_endpoint i {| cn_endpoint := i; cn_peer := peer; cn_phase := p |} = true.
Proof. apply Nat.eqb_refl. Qed.
Lemma has_slot_here i peer p : has_slot i {| cn_endpoint := i; cn_peer := peer; cn_phase := p |} = slot_phase p.
Proof. unfold has_slot. by rewrite at_endpoint_here. Qed.
Lemma is_marked_here i peer p : is_marked i {| cn_endpoint := i; cn_peer := peer; cn_phase := p |} = mark_phase p.
Proof. unfold is_marked. by rewrite at_endpoint_here. Qed.
Lemma unfinished_here i peer p : unfinished i {| cn_endpoint := i; cn_peer := peer; cn_phase := p |} = open_phase p.
Proof. unfold unfinished. by rewrite at_endpoint_here. Qed.

Lemma late_bound i m : count (is_marked i) m <= count (has_slot i) m + count (is_late i) m.
Proof.
  unfold count. generalize (conns m) as l. induction l as [|c l IH]; [done|]. cbn.
  unfold is_marked, has_slot, is_late. destruct (at_endpoint i c); cbn [andb]; [|exact IH].
  destruct (cn_phase c); cbn [slot_phase mark_phase late_phase length]; unfold is_marked, has_slot, is_late in IH; lia.
Qed.

Section Facts.
Context {NA : IpNetworkApi} {RX : RegexApi} {RS : RegexSetApi} {JS : JsonApi} {TM : TimeApi} {SC : StoreCodec}.
Variable ppp : list N -> HeaderResult.
Variable hd : Handles.
Notation act := (act ppp hd).
Notation act_all := (act_all ppp hd).
Notation conn_act := (conn_act ppp hd).
Notation cap := (max_tarpit_conns_per_ip (hd_config hd)).

(** The counters of an endpoint with the connections there are; [n] bounds what was
    accepted. *)
Record ep_ok (n : N) (i : nat) (l : Listener) (e : Endpoint) (m : gmap N Conn) : Prop := {
  ok_capacity : es_capacity (ep_stats e) = listener_cap l (max_tarpit_conns (hd_config hd));
  ok_policy : es_policy (ep_stats e) = l_policy l;
  ok_slots : ep_slots e + count (has_slot i) m = es_capacity (ep_stats e);
  ok_active : es_active (ep_stats e) = count (is_marked i) m;
  ok_settled : es_rejected (ep_stats e) + es_closed (ep_stats e) + count (unfinished i) m <= es_accepted (ep_stats e);
  ok_accepted : es_accepted (ep_stats e) <= n }.

(** Where the address of a connection comes from: its peer or a proxy that is trusted. *)
Definition source_ok (c : Conn) : Prop :=
  forall ip, found c = Some ip ->
    is_whitelisted (hd_classifier hd) ip = false /\
    (ip = cn_peer c \/ proxy_protocol (hd_config hd) = true /\ trusted_contains (hd_trusted hd) (cn_peer c) = true).

Definition permits (l : list Endpoint) : N := N.of_nat (length (List.filter ep_permit l)).

Record server_ok (n : N) (s : Server) : Prop := {
  ok_length : length (sv_endpoints s) = length (listeners (hd_config hd));
  ok_endpoints i l e :
    listeners (hd_config hd) !! i = Some l -> sv_endpoints s !! i = Some e -> ep_ok n i l e (sv_conns s);
  ok_places : places_ok cap (active_by_ip (sv_state s)) (held (sv_conns s));
  ok_total : active (sv_state s) = count is_counted (sv_conns s);
  ok_free : sv_free s + permits (sv_endpoints s) + count (fun _ => true) (sv_conns s) = max_connections (hd_config hd);
  ok_conns id c :
    sv_conns s !! id = Some c ->
    id < sv_next s /\ (cn_endpoint c < length (listeners (hd_config hd)))%nat /\ source_ok c }.

(** A connection's own step: it goes on in another phase or is gone. *)
Definition moved (id : N) (c : Conn) (p : option Phase) (m : gmap N Conn) : gmap N Conn :=
  match p with Some p => <[id := in_phase c p]> m | None => delete id m end.
Lemma count_moved P m id c p :
  m !! id = Some c ->
  count P (moved id c p m) + one (P c) = count P m + match p with Some p => one (P (in_phase c p)) | None => 0 end.
Proof. intros H. rewrite (count_take P m id c H). destruct p; cbn [moved]; [rewrite count_put|]; lia. Qed.
(** Counts of another endpoint do not see it. *)
Lemma count_elsewhere (P : Conn -> bool) m id c p :
  m !! id = Some c -> P c = false -> (forall p, P (in_phase c p) = false) -> count P (moved id c p m) = count P m.
Proof.
  intros H Hc Hp. pose proof (count_moved P m id c p H) as E. rewrite Hc in E. destruct p as [p|]; [rewrite Hp in E|];
    cbn [one] in E; lia.
Qed.
Lemma ep_ok_elsewhere n i l e m id c p :
  m !! id = Some c -> cn_endpoint c <> i -> ep_ok n i l e m -> ep_ok n i l e (moved id c p m).
Proof.
  intros H Hi [H1 H2 H3 H4 H5 H6].
  assert (Hat : at_endpoint i c = false) by (unfold at_endpoint; by apply Nat.eqb_neq).
  assert (Hat' : forall p, at_endpoint i (in_phase c p) = false) by done.
  split; [done|done|..|done]; rewrite (count_elsewhere _ _ _ c); try done;
    unfold has_slot, is_marked, unfinished; rewrite ?Hat; intros; by rewrite ?Hat'.
Qed.
Lemma ep_ok_weaken n n' i l e m : n <= n' -> ep_ok n i l e m -> ep_ok n' i l e m.
Proof. intros Hn []. split; try done. lia. Qed.
Lemma server_ok_weaken n n' s : n <= n' -> server_ok n s -> server_ok n' s.
Proof. intros Hn []. split; try done. intros. eapply ep_ok_weaken; eauto. Qed.

Lemma filter_insert_set {A} (f : A -> bool) i x y l :
  l !! i = Some x -> (length (List.filter f (<[i := y]> l)) + (if f x then 1 else 0) =
  length (List.filter f l) + (if f y then 1 else 0))%nat.
Proof.
  revert i. induction l as [|a l IH]; intros [|i] H; try done.
  - injection H as ->. cbn. destruct (f x), (f y); cbn; lia.
  - specialize (IH i H). change (<[S i := y]> (a :: l)) with (a :: <[i := y]> l). cbn [List.filter].
    destruct (f a); cbn [length]; lia.
Qed.
Lemma permits_set i e e' l :
  l !! i = Some e -> permits (<[i := e']> l) + one (ep_permit e) = permits l + one (ep_permit e').
Proof. intros H. pose proof (filter_insert_set ep_permit i e e' l H). unfold permits, one. destruct (ep_permit e), (ep_permit e'); lia. Qed.

(** What a connection's step has to show. *)
Lemma conn_step_ok n s s' id c e e' p l :
  server_ok n s -> sv_conns s !! id = Some c -> sv_endpoints s !! cn_endpoint c = Some e ->
  listeners (hd_config hd) !! cn_endpoint c = Some l ->
  sv_endpoints s' = <[cn_endpoint c := e']> (sv_endpoints s) -> sv_conns s' = moved id c p (sv_conns s) ->
  sv_next s' = sv_next s -> sv_free s' = sv_free s + match p with Some _ => 0 | None => 1 end ->
  ep_permit e' = ep_permit e ->
  match p with Some p => source_ok (in_phase c p) | None => True end ->
  (ep_ok n (cn_endpoint c) l e (sv_conns s) -> ep_ok n (cn_endpoint c) l e' (moved id c p (sv_conns s))) ->
  places_ok cap (active_by_ip (sv_state s')) (held (moved id c p (sv_conns s))) ->
  active (sv_state s') = count is_counted (moved id c p (sv_conns s)) -> server_ok n s'.
Proof.
  intros [H1 H2 H3 Ht H4 H5] Hc He Hl E1 E2 E3 E4 Hp Hs Hep Ha Hn.
  destruct (H5 id c Hc) as (Hid & Hi & Hsrc).
  split; rewrite ?E1, ?E2, ?E3 in *.
  - by rewrite length_insert.
  - intros i l' e'' Hl' He''. destruct (base.decide (i = cn_endpoint c)) as [->|Hne].
    + rewrite list_lookup_insert_eq in He'' by (by eapply lookup_lt_Some). simplify_eq. auto.
    + rewrite list_lookup_insert_ne in He'' by done. apply ep_ok_elsewhere; auto.
  - done.
  - done.
  - pose proof (permits_set (cn_endpoint c) e e' _ He) as Hps. rewrite Hp in Hps.
    pose proof (count_moved (fun _ => true) _ id c p Hc) as Hcnt. cbn [one] in Hcnt.
    rewrite E4. destruct p; cbn [one] in Hcnt; lia.
  - intros id' c'. destruct p as [p|]; cbn [moved].
    + destruct (base.decide (id' = id)) as [->|Hne].
      * rewrite lookup_insert_eq. intros [= <-]. done.
      * rewrite lookup_insert_ne by done. apply H5.
    + intros [_ H]%lookup_delete_Some. by apply H5.
Qed.

(** ** Counters and places *)

Lemma fetch_add_exact a b : a + b < 2 ^ 64 -> fetch_add a b = a + b.
Proof. intros H. unfold fetch_add. by apply N.mod_small. Qed.
Lemma fetch_sub_exact a b : b <= a -> a < 2 ^ 64 -> fetch_sub a b = a - b.
Proof.
  intros H1 H2. unfold fetch_sub. replace (a + 2 ^ 64 - b) with ((a - b) + 1 * 2 ^ 64) by lia.
  rewrite N.Div0.mod_add, N.mod_small; lia.
Qed.

Lemma omap_perm {A B} (f : A -> option B) l k : l ≡ₚ k -> omap f l ≡ₚ omap f k.
Proof. intros H. by rewrite H. Qed.
Lemma held_cons c l : omap guard (c :: l) = option_list (guard c) ++ omap guard l.
Proof. cbn. by destruct (guard c). Qed.
Lemma held_take m id c : m !! id = Some c -> held m ≡ₚ option_list (guard c) ++ held (delete id m).
Proof. intros H. unfold held. rewrite (omap_perm guard _ _ (conns_take m id c H)). by rewrite held_cons. Qed.
Lemma held_put m id c : held (<[id := c]> m) ≡ₚ option_list (guard c) ++ held (delete id m).
Proof. unfold held. rewrite (omap_perm guard _ _ (conns_put m id c)). by rewrite held_cons. Qed.
Lemma held_moved m id c p :
  m !! id = Some c -> from_option (fun p => guard (in_phase c p)) None p = guard c -> held (moved id c p m) ≡ₚ held m.
Proof.
  intros H Hg. rewrite (held_take m id c H). destruct p; cbn [moved from_option] in *; [rewrite held_put|]; by rewrite <-?Hg.
Qed.
Lemma places_perm m l k : l ≡ₚ k -> places_ok cap m l -> places_ok cap m k.
Proof.
  intros H H2 ip. specialize (H2 ip). unfold count_of in *. by rewrite <-(filter_length_perm _ l k H).
Qed.
Lemma places_moved s id c p :
  places_ok cap (active_by_ip (sv_state s)) (held (sv_conns s)) -> sv_conns s !! id = Some c ->
  from_option (fun p => guard (in_phase c p)) None p = guard c ->
  places_ok cap (active_by_ip (sv_state s)) (held (moved id c p (sv_conns s))).
Proof. intros H Hc Hg. eapply places_perm; [|exact H]. symmetry. by apply held_moved. Qed.

(** ** Steps of connections *)

(** What validation promises of the limits ([validated_limits] below). *)
Hypothesis cap_some : cap <> 0.
Hypothesis capacities : Forall (fun l => listener_cap l (max_tarpit_conns (hd_config hd)) < 2 ^ 64) (listeners (hd_config hd)).
Hypothesis few : max_connections (hd_config hd) + 1 < 2 ^ 64.

Lemma places_taken s st id c ip b :
  places_ok cap (active_by_ip (sv_state s)) (held (sv_conns s)) -> sv_conns s !! id = Some c -> guard c = None ->
  take_place (sv_state s) ip cap = (b, st) ->
  places_ok cap (active_by_ip st) (held (<[id := in_phase c (if b then Placed ip else Refused)]> (sv_conns s))) /\
  active st = active (sv_state s).
Proof.
  intros H Hc Hg Ht. destruct (take_place_ok cap _ _ _ _ _ cap_some H Ht) as (_ & Ea & Ho). split; [|done].
  eapply places_perm; [|exact Ho]. destruct b; by rewrite held_put, (held_take _ _ _ Hc), Hg.
Qed.
Lemma places_left s id c ip p :
  places_ok cap (active_by_ip (sv_state s)) (held (sv_conns s)) -> sv_conns s !! id = Some c -> guard c = Some ip ->
  guard (in_phase c p) = None ->
  places_ok cap (active_by_ip (free_place (sv_state s) ip)) (held (<[id := in_phase c p]> (sv_conns s))).
Proof.
  intros H Hc Hg Hp. rewrite <-(app_nil_l (held _)).
  eapply places_perm; [|apply (free_place_ok cap _ ip [] (held (delete id (sv_conns s))))].
  - by rewrite held_put, Hp.
  - eapply places_perm; [|exact H]. by rewrite (held_take _ _ _ Hc), Hg.
Qed.

(** The counts of a connection's endpoint before and after its step. *)
Ltac counts i id c p m Hc :=
  let H1 := fresh "Hslot" in let H2 := fresh "Hmark" in let H3 := fresh "Hunf" in
  pose proof (count_moved (has_slot i) m id c p Hc) as H1;
  pose proof (count_moved (is_marked i) m id c p Hc) as H2;
  pose proof (count_moved (unfinished i) m id c p Hc) as H3;
  unfold moved, in_phase in *; cbn [cn_endpoint cn_peer] in *;
  rewrite ?has_slot_here in H1; rewrite ?is_marked_here in H2; rewrite ?unfinished_here in H3;
  cbn [slot_phase mark_phase open_phase one] in H1, H2, H3.

Lemma client_address_source peer reads ip :
  client_address ppp hd peer reads = Some (Some ip) ->
  ip = peer \/ proxy_protocol (hd_config hd) = true /\ trusted_contains (hd_trusted hd) peer = true.
Proof.
  unfold client_address. destruct (proxy_protocol _) eqn:E1, (trusted_contains _ _) eqn:E2; cbn; auto; intros [= ->]; by left.
Qed.

(** A step that moves the connection to [p] and its endpoint to [e']: its counters are
    right when the sums are. *)
Ltac settle Hc p :=
  match type of Hc with sv_conns ?s !! ?id = Some ?c =>
    let i := eval cbn in (cn_endpoint c) in
    intros _; counts i id c p (sv_conns s) Hc; split; cbn in *;
    rewrite ?fetch_add_exact, ?fetch_sub_exact in * by lia; first [done | lia]
  end.
(** The state counts the connections it did, or one more or less. *)
Ltac totals Hok Hc p :=
  match type of Hc with sv_conns ?s !! ?id = Some ?c =>
    pose proof (count_moved is_counted (sv_conns s) id c p Hc); pose proof (ok_total _ _ Hok);
    unfold moved, in_phase in *; cbn [is_counted count_phase cn_phase cn_endpoint cn_peer one] in *; cbn; lia
  end.
Ltac goes Hok Hc He Hl e' p :=
  match type of Hc with sv_conns ?s !! ?id = Some ?c =>
  match type of Hok with server_ok ?n _ =>
  match type of He with _ = Some ?e =>
  match type of Hl with _ = Some ?l =>
    apply (conn_step_ok n s _ id c e e' p l Hok Hc He Hl);
      [try reflexivity; try (symmetry; by apply list_insert_id)|reflexivity|reflexivity|cbn; lia|reflexivity
      |first [done|by intros ? [= <-]|idtac]|settle Hc p|try exact (places_moved s id c p (ok_places _ _ Hok) Hc eq_refl)
      |try totals Hok Hc p] end end end end.

Lemma conn_act_ok n a id c e s s' :
  server_ok n s -> n < 2 ^ 64 -> sv_conns s !! id = Some c -> sv_endpoints s !! cn_endpoint c = Some e ->
  conn_act a id c e s = Some s' -> server_ok n s'.
Proof.
  intros Hok Hn Hc He H. pose proof Hok as [H1 H2 H3 Ht H4 H5]. destruct (H5 id c Hc) as (Hid & Hi & Hsrc).
  destruct (listeners (hd_config hd) !! cn_endpoint c) as [l|] eqn:Hl; [|apply lookup_ge_None in Hl; lia].
  pose proof (H2 _ _ _ Hl He) as [P1 P2 P3 P4 P5 P6]. rewrite Forall_lookup in capacities.
  pose proof (capacities _ _ Hl) as Hcapl. cbn in Hcapl.
  pose proof (count_take (fun _ => true) _ id c Hc) as Hone. cbn [one] in Hone.
  pose proof (count_mono (is_marked (cn_endpoint c)) (fun _ => true) (sv_conns s) ltac:(done)) as Hall.
  destruct c as [i peer ph]. cbn [cn_endpoint cn_peer] in *.
  destruct a, ph; cbn [Endpoints.conn_act cn_phase cn_endpoint cn_peer] in H; try discriminate H.
  - destruct (client_address ppp hd peer reads) as [[ip|]|] eqn:Ea; cbn in H; [|injection H as <-|done].
    + apply client_address_source in Ea. destruct (is_whitelisted _ ip) eqn:Ew; injection H as <-.
      * goes Hok Hc He Hl e (@None Phase).
      * goes Hok Hc He Hl e (Some (Hit ip)).
    + goes Hok Hc He Hl e (@None Phase).
  - destruct (record_hit env persist envs _ ip (sv_defense s)) as [d|]; [|done]. injection H as <-.
    goes Hok Hc He Hl e (Some (Recorded ip)).
  - destruct (N.eqb_spec (ep_slots e) 0); injection H as <-.
    + goes Hok Hc He Hl (with_stats reject e) (Some Leaving).
    + goes Hok Hc He Hl (with_slots (ep_slots e - 1) e) (Some (Slotted ip)).
  - destruct (take_place _ ip cap) as [b st] eqn:Et.
    destruct (places_taken s st id _ ip b H3 Hc eq_refl Et) as [Hp Ea]. destruct b; injection H as <-.
    + goes Hok Hc He Hl e (Some (Placed ip)). exact Hp.
    + goes Hok Hc He Hl (with_stats reject e) (Some Refused). exact Hp.
  - injection H as <-. goes Hok Hc He Hl e (Some (Entered ip)).
  - injection H as <-. goes Hok Hc He Hl (with_stats mark_active e) (Some (Held ip)).
  - rewrite Hl in H. cbn in H. destruct (forallb _ rounds); [|done]. injection H as <-.
    goes Hok Hc He Hl (with_stats (finish_stats (ssh_sent rounds) secs) e) (Some (Closing ip)).
  - injection H as <-. goes Hok Hc He Hl (with_slots (ep_slots e + 1) e) (Some (Unslotted ip)).
  - injection H as <-. goes Hok Hc He Hl (with_stats unmark_active e) (Some (Unmarked ip)).
  - injection H as <-. goes Hok Hc He Hl e (Some (Unplaced ip)).
    exact (places_left s id _ ip (Unplaced ip) H3 Hc eq_refl eq_refl).
  - injection H as <-. goes Hok Hc He Hl e (Some Leaving).
  - injection H as <-. goes Hok Hc He Hl (with_slots (ep_slots e + 1) e) (Some Leaving).
  - injection H as <-. goes Hok Hc He Hl e (@None Phase).
Qed.

(** ** Steps of accept loops *)

(** What an accept loop's step has to show when it brings no connection. *)
Lemma loop_step_ok n s i e e' free :
  server_ok n s -> sv_endpoints s !! i = Some e -> ep_stats e' = ep_stats e -> ep_slots e' = ep_slots e ->
  free + one (ep_permit e') = sv_free s + one (ep_permit e) -> server_ok n (set_free free (set_endpoint i e' s)).
Proof.
  intros [H1 H2 H3 Ht H4 H5] He Est Esl Hf. split; cbn.
  - by rewrite length_insert.
  - intros j l e'' Hl He''. destruct (base.decide (j = i)) as [->|Hne].
    + rewrite list_lookup_insert_eq in He'' by (by eapply lookup_lt_Some). injection He'' as <-.
      destruct (H2 _ _ _ Hl He). split; by rewrite ?Est, ?Esl.
    + rewrite list_lookup_insert_ne in He'' by done. auto.
  - done.
  - done.
  - pose proof (permits_set i e e' _ He). lia.
  - exact H5.
Qed.
Lemma accept_ok n s s' i e peer :
  server_ok n s -> n + 1 < 2 ^ 64 -> sv_endpoints s !! i = Some e -> loop_act (Accept i peer) i e s = Some s' -> server_ok (n + 1) s'.
Proof.
  intros [H1 H2 H3 Ht H4 H5] Hn He H. unfold loop_act in H. destruct (ep_stopped e); [done|].
  destruct (ep_permit e) eqn:Ep; [|done]. injection H as <-.
  assert (Hnew : sv_conns s !! sv_next s = None).
  { destruct (sv_conns s !! sv_next s) eqn:E; [|done]. apply H5 in E as [E _]. lia. }
  split; cbn.
  - by rewrite length_insert.
  - intros j l e' Hl He'. destruct (base.decide (j = i)) as [->|Hne].
    + rewrite list_lookup_insert_eq in He' by (by eapply lookup_lt_Some). injection He' as <-.
      destruct (H2 _ _ _ Hl He) as [P1 P2 P3 P4 P5 P6]. split; cbn;
        rewrite ?count_new by done; rewrite ?has_slot_here, ?is_marked_here, ?unfinished_here;
        cbn [slot_phase mark_phase open_phase one]; try done; rewrite ?fetch_add_exact by lia; lia.
    + rewrite list_lookup_insert_ne in He' by done. destruct (H2 _ _ _ Hl He') as [P1 P2 P3 P4 P5 P6].
      assert (Hat : at_endpoint j {| cn_endpoint := i; cn_peer := peer; cn_phase := Opening |} = false) by (by apply Nat.eqb_neq).
      
      assert (has_slot j {| cn_endpoint := i; cn_peer := peer; cn_phase := Opening |} = false) as E1 by (unfold has_slot; by rewrite Hat).
      assert (is_marked j {| cn_endpoint := i; cn_peer := peer; cn_phase := Opening |} = false) as E2 by (unfold is_marked; by rewrite Hat).
      assert (unfinished j {| cn_endpoint := i; cn_peer := peer; cn_phase := Opening |} = false) as E3 by (unfold unfinished; by rewrite Hat).
      split; rewrite ?count_new by done; rewrite ?E1, ?E2, ?E3; cbn [one]; first [done|lia].
  - eapply places_perm; [|exact H3]. rewrite held_put. by rewrite (delete_id _ _ Hnew).
  - rewrite count_new by done. cbn [is_counted count_phase cn_phase one]. lia.
  - rewrite count_new by done. pose proof (permits_set i e (with_permit false (with_stats add_accepted e)) _ He) as Hp.
    rewrite Ep in Hp. cbn [one ep_permit with_permit] in *. lia.
  - intros id c. destruct (base.decide (id = sv_next s)) as [->|Hne].
    + rewrite lookup_insert_eq. intros [= <-]. cbn. split; [lia|]. split; [|done].
      rewrite <-H1. by eapply lookup_lt_Some.
    + rewrite lookup_insert_ne by done. intros (? & ? & ?)%H5. split; [lia|done].
Qed.

Lemma act_ok n a s s' : server_ok n s -> n + 1 < 2 ^ 64 -> act a s = Some s' -> server_ok (n + 1) s'.
Proof.
  intros Hok Hn H.
  assert (Hconn : forall id, action_conn a = Some id -> (c ← sv_conns s !! id; e ← sv_endpoints s !! cn_endpoint c; conn_act a id c e s) = Some s' -> server_ok (n + 1) s').
  { intros id _ Hc. destruct (sv_conns s !! id) as [c|] eqn:Ec; [|done]. cbn in Hc.
    destruct (sv_endpoints s !! cn_endpoint c) as [e|] eqn:Ee; [|done]. cbn in Hc.
    apply (server_ok_weaken n); [lia|]. eapply conn_act_ok; eauto. lia. }
  assert (Hloop : forall i, action_loop a = Some i -> (e ← sv_endpoints s !! i; loop_act a i e s) = Some s' -> server_ok (n + 1) s').
  { intros i Ha Hl. destruct (sv_endpoints s !! i) as [e|] eqn:Ee; [|done]. cbn in Hl.
    destruct a; try discriminate Ha; injection Ha as ->; [| |by eapply accept_ok|];
      apply (server_ok_weaken n); try lia; unfold loop_act in Hl; destruct (ep_stopped e); try done.
    - destruct (ep_permit e) eqn:Ep; [done|]. destruct (N.eqb_spec (sv_free s) 0); [done|]. injection Hl as <-.
      apply (loop_step_ok n s i e); try done. rewrite Ep. cbn. lia.
    - destruct (ep_permit e) eqn:Ep; [|done]. injection Hl as <-. apply (loop_step_ok n s i e); try done. rewrite Ep. cbn. lia.
    - destruct (sv_shutdown s); [|done]. injection Hl as <-. apply (loop_step_ok n s i e); try done.
      destruct (ep_permit e); cbn; lia. }
  destruct a; cbn [Endpoints.act action_loop action_conn] in H;
    first [by eapply Hloop|by eapply Hconn|idtac]; apply (server_ok_weaken n); try lia.
  - injection H as <-. by destruct Hok.
  - destruct (sv_shutdown s); [|done]. injection H as <-. destruct Hok as [H1 H2 H3 Ht H4 H5]. split; cbn; try done.
    + by rewrite length_fmap.
    + intros i l e Hl He. rewrite list_lookup_fmap in He. destruct (sv_endpoints s !! i) as [e0|] eqn:Ee; [|done].
      injection He as <-. by destruct (H2 _ _ _ Hl Ee).
    + rewrite <-H4. do 2 f_equal. unfold permits. f_equal. clear. induction (sv_endpoints s) as [|e l IH]; [done|].
      cbn. destruct (ep_permit e); cbn [length]; by rewrite IH.
Qed.

Lemma act_all_ok n l s s' : server_ok n s -> n + N.of_nat (length l) < 2 ^ 64 -> act_all l s = Some s' -> server_ok (n + N.of_nat (length l)) s'.
Proof.
  revert n s. induction l as [|a l IH]; intros n s Hok Hn H; cbn [Endpoints.act_all length] in *.
  - injection H as <-. by rewrite N.add_0_r.
  - destruct (act a s) as [s1|] eqn:Ea; [|done]. cbn in H. rewrite Nat2N.inj_succ in *.
    replace (n + N.succ (N.of_nat (length l))) with (n + 1 + N.of_nat (length l)) by lia.
    apply IH with s1; [|lia|done]. eapply act_ok; [exact Hok|lia|exact Ea].
Qed.

(** Bound sockets leave fresh counters. *)
Lemma bind_all_ok bind ls stats stats' :
  bind_all bind ls stats = (stats', Ok tt) -> length stats = length ls -> stats' = set_ready true <$> stats.
Proof.
  revert stats stats'. induction ls as [|l ls IH]; intros [|e stats] stats' H Hlen; try done; cbn in *; [by injection H as <-|].
  destruct (bind (l_listen_addr l)) as [u|err]; [|done]. destruct (bind_all bind ls stats) as [rest r] eqn:E.
  injection H as <- ->. injection Hlen as Hlen. by rewrite (IH _ _ E Hlen).
Qed.
Lemma count_empty P : count P ∅ = 0.
Proof. unfold count, conns. by rewrite map_to_list_empty. Qed.
Lemma server_new_ok d : server_ok 0 (server_new hd d (set_ready true <$> endpoint_stats (hd_config hd))).
Proof.
  split; cbn.
  - unfold endpoint_stats. by rewrite !length_fmap.
  - intros i l e Hl. unfold endpoint_stats. rewrite !list_lookup_fmap, Hl. intros [= <-].
    split; cbn; rewrite ?count_empty; try done; lia.
  - unfold held, conns. rewrite map_to_list_empty. apply (admission_init cap).
  - by rewrite count_empty.
  - rewrite count_empty. enough (permits (endpoint_new <$> (set_ready true <$> endpoint_stats (hd_config hd))) = 0) as -> by lia.
    unfold permits, endpoint_stats. generalize (listeners (hd_config hd)) as ls.
    induction ls as [|l ls IH]; [done|]. exact IH.
  - intros id c. by rewrite lookup_empty.
Qed.
Lemma endpoints_run_ok bind d l s :
  endpoints_run ppp hd bind d l = Some (Ok s) -> N.of_nat (length l) < 2 ^ 64 -> server_ok (N.of_nat (length l)) s.
Proof.
  unfold endpoints_run. destruct (bind_all _ _ _) as [stats [[]|err]] eqn:E; [|done]. intros H Hl.
  apply bind_all_ok in E as ->; [|by unfold endpoint_stats; rewrite length_fmap].
  destruct (Endpoints.act_all ppp hd l _) as [s'|] eqn:Ea; [|done]. injection H as <-.
  change (N.of_nat (length l)) with (0 + N.of_nat (length l)).
  eapply act_all_ok; [apply server_new_ok|done|exact Ea].
Qed.
End Facts.

(** ** Validated configurations *)

Section Sound.
Context {NA : IpNetworkApi} {RX : RegexApi} {RS : RegexSetApi} {JS : JsonApi} {TM : TimeApi} {SC : StoreCodec}.
Variable ppp : list N -> HeaderResult.
Variable hd : Handles.
Notation config := (hd_config hd).

Lemma validated_limits :
  validate_config config = Ok tt -> max_connections config < usize_max ->
  max_tarpit_conns_per_ip config <> 0 /\
  Forall (fun l => listener_cap l (max_tarpit_conns config) < 2 ^ 64) (listeners config).
Proof.
  intros Hv Hm. split.
  - unfold validate_config in Hv. do 3 (apply bind_ok in Hv as (? & _ & Hv)).
    apply bind_ok in Hv as ([] & Hz%for_each_ok & _). rewrite Forall_forall in Hz.
    specialize (Hz ("max_tarpit_conns_per_ip", max_tarpit_conns_per_ip config) ltac:(right; left)).
    by apply fail_if_ok, N.eqb_neq in Hz.
  - apply validate_config_inv in Hv as [(cap & Hl%validate_listeners_ok & _) _]. destruct Hl as (_ & _ & Hf & _).
    eapply Forall_impl; [exact Hf|]. cbn. intros l (_ & _ & _ & _ & H). unfold usize_max, u64_max in Hm. lia.
Qed.

Lemma usize_fits n : n < usize_max -> n + 1 < 2 ^ 64.
Proof. unfold usize_max, u64_max. lia. Qed.

(** C36: Whatever the sockets, the scheduler and the defense do, the counters of an
    endpoint are those of the connections it holds. It counts as active exactly the
    connections between [ActiveEndpoint::new] and its drop; its free slots and the
    connections with a slot are its capacity; and since the slot is dropped first, it can
    count more as active than its capacity, by those that are between the two drops and
    no others; when there are none, active and available are the capacity. Its rejected,
    closed and open connections are no more than it accepted; all
    connections together fit the budget, and no address has more places than its cap. An
    address that was found is on no whitelist and is the peer's own unless a trusted proxy named
    it. When all connections are gone everything is free again. *)
Theorem endpoints_account bind d l s :
  validate_config config = Ok tt -> max_connections config < usize_max -> N.of_nat (length l) < 2 ^ 64 ->
  endpoints_run ppp hd bind d l = Some (Ok s) ->
  (forall i e, sv_endpoints s !! i = Some e ->
     let status := snapshot (ep_stats e) in
     et_active status = count (is_marked i) (sv_conns s) /\
     ep_slots e + count (has_slot i) (sv_conns s) = et_tarpit_capacity status /\
     et_active status <= et_tarpit_capacity status + count (is_late i) (sv_conns s) /\
     (count (is_late i) (sv_conns s) = 0 -> et_active status + et_available status = et_tarpit_capacity status) /\
     et_rejected status + et_closed status + count (unfinished i) (sv_conns s) <= et_accepted status) /\
  count (fun _ => true) (sv_conns s) <= max_connections config /\
  active (sv_state s) = count is_counted (sv_conns s) /\
  (forall ip, count_of ip (held (sv_conns s)) <= max_tarpit_conns_per_ip config) /\
  (forall id c, sv_conns s !! id = Some c -> source_ok hd c) /\
  (sv_conns s = ∅ ->
     Forall (fun e => es_active (ep_stats e) = 0 /\ ep_slots e = es_capacity (ep_stats e)) (sv_endpoints s) /\
     active (sv_state s) = 0 /\ active_by_ip (sv_state s) = ∅ /\
     sv_free s + permits (sv_endpoints s) = max_connections config).
Proof.
  intros Hv Hm Hl H. destruct (validated_limits Hv Hm) as [Hcap Hslots]. pose proof (usize_fits _ Hm) as Hfew.
  pose proof (endpoints_run_ok ppp hd Hcap Hslots Hfew bind d l s H Hl) as [H1 H2 H3 Ht H4 H5].
  assert (Hep : forall i e, sv_endpoints s !! i = Some e -> exists x, ep_ok hd (N.of_nat (length l)) i x e (sv_conns s)).
  { intros i e He. destruct (listeners config !! i) as [x|] eqn:Ex; [eauto|].
    apply lookup_ge_None in Ex. apply lookup_lt_Some in He. lia. }
  split; [|split; [lia|split; [done|split; [apply H3|split; [apply H5|]]]]].
  - intros i e He. destruct (Hep i e He) as (x & [P1 P2 P3 P4 P5 P6]). cbn.
    pose proof (late_bound i (sv_conns s)). split_and!; try done; lia.
  - intros E. rewrite E in *. rewrite count_empty in Ht, H4. split; [|split; [done|split; [|lia]]].
    + apply Forall_lookup. intros i e He. destruct (Hep i e He) as (x & [P1 P2 P3 P4 P5 P6]).
      rewrite count_empty in P3, P4. split; [done|lia].
    + apply map_empty. intros ip. destruct (H3 ip) as [_ H3ip]. rewrite H3ip.
      unfold held, conns. by rewrite map_to_list_empty.
Qed.

(** Nobody who is on the whitelist is reported: what changes the defense is the policy
    of an endpoint recording an address that was found and is not on it. *)
Lemma only_traps_recorded bind d l s a s' :
  validate_config config = Ok tt -> max_connections config < usize_max -> N.of_nat (length l) < 2 ^ 64 ->
  endpoints_run ppp hd bind d l = Some (Ok s) -> act ppp hd a s = Some s' ->
  sv_defense s' = sv_defense s \/
  exists id c ip policy env persist envs r,
    sv_conns s !! id = Some c /\ found c = Some ip /\ is_whitelisted (hd_classifier hd) ip = false /\
    record_listener env persist envs policy ip (sv_defense s) = Some (r, sv_defense s').
Proof.
  intros Hv Hm Hl H Ha. destruct (validated_limits Hv Hm) as [Hcap Hslots].
  pose proof (endpoints_run_ok ppp hd Hcap Hslots (usize_fits _ Hm) bind d l s H Hl) as [_ _ _ _ _ H5].
  destruct a; cbn [act action_loop action_conn mbind option_bind] in Ha;
    try (destruct (sv_conns s !! id) as [c|] eqn:Ec; [|done]; destruct (H5 id c Ec) as (_ & _ & Hsrc); cbn in Ha);
    try (destruct (sv_endpoints s !! _) as [e|] eqn:Ee; [|done]; cbn in Ha); unfold conn_act, loop_act in Ha.
  all: try (left; unfold mbind, option_bind in Ha; repeat case_match; simplify_eq/=; done).
  destruct (cn_phase c) as [|ip| | | | | | | | | | |] eqn:Ep; try done. unfold record_hit in Ha.
  destruct (es_policy (ep_stats e)) as [policy|]; cbn in Ha; [|left; by injection Ha as <-].
  destruct (record_listener env persist envs policy ip (sv_defense s)) as [[r d']|] eqn:Er; cbn in Ha; [|done]. injection Ha as <-.
  right. exists id, c, ip, policy, env, persist, envs, r. unfold found. rewrite Ep.
  split_and!; try done. apply (Hsrc ip). unfold found. by rewrite Ep.
Qed.

(** ** Nobody is stuck *)

(** A connection whose address is recorded has its next step, whatever the others do. *)
Lemma next_step bind d l s id c :
  validate_config config = Ok tt -> max_connections config < usize_max -> N.of_nat (length l) < 2 ^ 64 ->
  endpoints_run ppp hd bind d l = Some (Ok s) -> sv_conns s !! id = Some c ->
  match cn_phase c with Opening | Hit _ => False | _ => True end ->
  exists a s', action_conn a = Some id /\ act ppp hd a s = Some s' /\
    match cn_phase c, sv_conns s' !! id with
    | _, None => True
    | Recorded ip, Some c' => cn_phase c' = Slotted ip \/ cn_phase c' = Leaving
    | Slotted ip, Some c' => cn_phase c' = Placed ip \/ cn_phase c' = Refused
    | Placed ip, Some c' => cn_phase c' = Entered ip
    | Entered ip, Some c' => cn_phase c' = Held ip
    | Held ip, Some c' => cn_phase c' = Closing ip
    | Closing ip, Some c' => cn_phase c' = Unslotted ip
    | Unslotted ip, Some c' => cn_phase c' = Unmarked ip
    | Unmarked ip, Some c' => cn_phase c' = Unplaced ip
    | Unplaced _, Some c' | Refused, Some c' => cn_phase c' = Leaving
    | _, Some _ => False
    end.
Proof.
  intros Hv Hm Hl H Hc Hp. destruct (validated_limits Hv Hm) as [Hcap Hslots].
  pose proof (endpoints_run_ok ppp hd Hcap Hslots (usize_fits _ Hm) bind d l s H Hl) as [H1 _ _ _ _ H5].
  destruct (H5 id c Hc) as (_ & Hi & _). destruct (listeners config !! cn_endpoint c) as [x|] eqn:Ex; [|apply lookup_ge_None in Ex; lia].
  destruct (sv_endpoints s !! cn_endpoint c) as [e|] eqn:Ee; [|apply lookup_ge_None in Ee; lia].
  assert (Hact : forall a, action_conn a = Some id -> action_loop a = None -> act ppp hd a s = conn_act ppp hd a id c e s).
  { intros a Ha Hn. destruct a; try discriminate Ha; try discriminate Hn; injection Ha as ->; cbn; by rewrite Hc; cbn; rewrite Ee. }
  set (mine := sv_conns s) in *.
  destruct (cn_phase c) as [| |ip|ip|ip|ip|ip|ip|ip|ip|ip| |] eqn:Ep; try done.
  3: exists (CountIn id). 4: exists (Hold id). 5: exists (Finish id [] 0).
  1: exists (TakeSlot id).
  2: exists (TakePlace id); destruct (take_place (sv_state s) ip (max_tarpit_conns_per_ip config)) as [b st] eqn:Et.
  6-11: exists (Release id).
  all: eexists; (split; [done|]); rewrite Hact by done; cbn [conn_act]; rewrite Ep, ?Ex, ?Et; (split; [reflexivity|]).
  1: destruct (ep_slots e =? 0). 3: destruct b.
  all: cbn; rewrite ?lookup_insert_eq, ?lookup_delete_eq; auto.
Qed.
End Sound.

(** ** An endpoint at work *)

Module EndpointsExample.
#[export] Existing Instances cidr_api cidr_laws Literal.regex Literal.json Literal.time TextCodec.codec.
#[export] Instance sets : @RegexSetApi Literal.regex := {| regex_set_matches := fun _ _ => [] |}.
Definition handles : Handles := {|
  hd_config := example_config;
  hd_classifier := from_ok (classifier_new [] [] ["192.0.2.0/24"]) ltac:(vm_refl); hd_trusted := [] |}.
Definition no_header (buf : list N) : HeaderResult := HInvalid.
Definition bound (addr : string) : result string unit := Ok tt.
Definition friend : IpAddr := V4 (of_be_bytes [192; 0; 2; 7]).
(** Two visitors, one of them on the whitelist, and the time the other is held. *)
Definition visits : list Action := [
  Permit 0; Accept 0 example_client; Permit 0; Accept 0 friend;
  Opened 0 []; Opened 1 []; RecordHit 0 example_env 1 [example_env]; TakeSlot 0; TakePlace 0; CountIn 0; Hold 0].
Definition farewell : list Action := [Finish 0 [([72; 105], true); ([33], true)] 12; Release 0; Release 0; Release 0; Release 0; Release 0].
Definition run_endpoints (l : list Action) : option (result string Server) :=
  endpoints_run no_header handles bound example_defense l.
Definition status_of (r : option (result string Server)) : option (N * N * N * N * N * N) :=
  match r with
  | Some (Ok s) =>
      (fun e => let t := snapshot (ep_stats e) in
        (et_accepted t, et_active t, et_available t, et_closed t, et_bytes_sent t, et_trapped_seconds t)) <$> sv_endpoints s !! 0%nat
  | _ => None
  end.
Example visit_counted :
  status_of (run_endpoints visits) = Some (2, 1, 63, 0, 0, 0) /\
  status_of (run_endpoints (visits ++ farewell)) = Some (2, 0, 64, 1, 5, 12).
Proof. split; vm_refl. Qed.
(** Two visitors of an endpoint with one slot: the second gets the slot of the first and is
    marked while the first still is. *)
Definition narrow : Handles := {|
  hd_config := config_with {|
    l_name := "ssh"; l_listen_addr := "0.0.0.0:2222"; l_policy := Some "trap"; l_max_tarpit_conns := Some 1;
    l_min_delay_ms := None; l_max_delay_ms := None; l_max_tarpit_secs := None; l_line_length := None |};
  hd_classifier := hd_classifier handles; hd_trusted := [] |}.
Definition overlap : list Action := [
  Permit 0; Accept 0 example_client; Permit 0; Accept 0 example_client; Opened 0 []; Opened 1 [];
  RecordHit 0 example_env 1 [example_env]; RecordHit 1 example_env 1 [example_env];
  TakeSlot 0; TakePlace 0; CountIn 0; Hold 0; Finish 0 [] 0; Release 0; TakeSlot 1; TakePlace 1; CountIn 1; Hold 1].
Example active_over_capacity :
  match endpoints_run no_header narrow bound example_defense overlap with
  | Some (Ok s) => (fun e => let t := snapshot (ep_stats e) in (et_active t, et_tarpit_capacity t, et_available t)) <$> sv_endpoints s !! 0%nat
  | _ => None
  end = Some (2, 1, 0).
Proof. vm_refl. Qed.
End EndpointsExample.
Import EndpointsExample.
Lemma run_finished {E A} (r : option (result E A)) (a : A) :
  match r with Some (Ok _) => true | _ => false end = true -> r = Some (Ok match r with Some (Ok a) => a | _ => a end).
Proof. by destruct r as [[]|]. Qed.
Definition visited : Server :=
  match endpoints_run no_header handles bound example_defense visits with
  | Some (Ok s) => s
  | _ => server_new handles example_defense []
  end.
Lemma visits_run : endpoints_run no_header handles bound example_defense visits = Some (Ok visited).
Proof. apply run_finished. vm_refl. Qed.
Lemma endpoints_account_witness :
  count (fun _ => true) (sv_conns visited) <= 8192 /\ active (sv_state visited) = count is_counted (sv_conns visited) /\
  forall id c, sv_conns visited !! id = Some c -> source_ok handles c.
Proof.
  destruct (endpoints_account no_header handles bound example_defense visits visited) as (_ & H & Ha & _ & Hs & _).
  - vm_refl.
  - vm_compute. reflexivity.
  - vm_compute. reflexivity.
  - exact visits_run.
  - split; [exact H|split; [exact Ha|exact Hs]].
Defined.

(** * What the control socket answers

    Facts about [Admin]: a request is its line however it arrives, and an answer says
    what became of the leases. *)

Local Open Scope N_scope.

(** ** Requests *)

Lemma until_newline_app a b :
  until_newline (a ++ b) =
  let '(l, found) := until_newline a in
  if (found : bool) then (l, true) else let '(k, f) := until_newline b in (a ++ k, f).
Proof.
  induction a as [|x a IH]; [cbn; by destruct (until_newline b)|]. cbn. destruct (x =? 10); [done|]. rewrite IH.
  destruct (until_newline a) as [l []]; [done|]. by destruct (until_newline b).
Qed.
Lemma until_newline_all a l : until_newline a = (l, false) -> l = a.
Proof.
  revert l. induction a as [|x a IH]; intros l; cbn; [by intros [= <-]|]. destruct (x =? 10); [done|].
  destruct (until_newline a) as [k f]. intros [= <- ->]. by rewrite (IH k eq_refl).
Qed.
Lemma read_request_line buffered chunks :
  Forall (fun c => c <> []) chunks -> (length buffered <= MAX_REQUEST)%nat ->
  read_request buffered (RData <$> chunks) =
  let '(l, found) := until_newline (mjoin chunks) in
  if (MAX_REQUEST <? length buffered + length l)%nat then Some None
  else if (found : bool) then Some (Some (buffered ++ l)) else None.
Proof.
  intros H. revert buffered. induction H as [|c chunks Hc _ IH]; intros buffered Hb; cbn [fmap list_fmap read_request].
  - cbn [until_newline mjoin list_join length]. rewrite Nat.add_0_r. destruct (Nat.ltb_spec MAX_REQUEST (length buffered)); [lia|done].
  - destruct c as [|x c]; [done|]. set (k := x :: c) in *. change (mjoin (k :: chunks)) with (k ++ mjoin chunks).
    rewrite until_newline_app. destruct (until_newline k) as [l [|]] eqn:El.
    + done.
    + apply until_newline_all in El as ->. destruct (until_newline (mjoin chunks)) as [m f] eqn:Em.
      destruct (Nat.ltb_spec MAX_REQUEST (length buffered + length k)).
      * rewrite length_app. destruct (Nat.ltb_spec MAX_REQUEST (length buffered + (length k + length m))); [done|lia].
      * rewrite IH by (rewrite length_app; lia). rewrite !length_app, Nat.add_assoc, <-app_assoc. done.
Qed.
(** A request is the first line of what the client sends, however it is cut, or nothing
    when that line is longer than the limit. *)
Lemma request_is_a_line chunks :
  Forall (fun c => c <> []) chunks ->
  read_request [] (RData <$> chunks) =
  let '(l, found) := until_newline (mjoin chunks) in
  if (MAX_REQUEST <? length l)%nat then Some None else if (found : bool) then Some (Some l) else None.
Proof. intros H. rewrite read_request_line by (done || cbn; lia). done. Qed.

(** ** Reconciliation leaves the leases what they are *)

Section AdminFacts.
Context {NA : IpNetworkApi} {NL : IpNetworkLaws} {RX : RegexApi} {RS : RegexSetApi} {JS : JsonApi} {TM : TimeApi}.
Context {SC : StoreCodec} {SL : StoreCodecLaws}.

Definition settled_copy (r r' : LeaseRow) : Prop := r' = set_apply r (r_apply_state r') (r_apply_error r').
#[local] Instance settled_refl : Reflexive settled_copy.
Proof. by intros []. Qed.
#[local] Instance settled_trans : Transitive settled_copy.
Proof. unfold settled_copy. intros r r' r'' H H'. rewrite H' at 1. by rewrite H at 1. Qed.
Lemma settled_apply r s e : settled_copy r (set_apply r s e).
Proof. done. Qed.

Notation rows d := (leases (df_store d)).

Lemma update_settles p s e db : Forall2 settled_copy (leases db) (leases (update_leases p (fun r => set_apply r s e) db).2).
Proof.
  cbn. induction (leases db) as [|r l IH]; [constructor|]. cbn. constructor; [|exact IH]. by destruct (p r).
Qed.
Lemma begin_settles now db : Forall2 settled_copy (leases db) (leases (begin_reconcile now db).2).
Proof. unfold begin_reconcile. destruct (sql_time now); [|reflexivity]. apply update_settles. Qed.
Lemma mark_results_settles outcomes db u db' : mark_results outcomes db = Ok (u, db') -> Forall2 settled_copy (leases db) (leases db').
Proof.
  revert db. induction outcomes as [|[id o] l IH]; intros db; cbn; [by intros [= _ <-]|].
  destruct (outcome_state o) as [s e]. intros H. inv_result. etransitivity; [|exact (IH _ H)]. apply (update_settles _ s e).
Qed.
Lemma mark_settles outcomes db : Forall2 settled_copy (leases db) (leases (mark_apply_results outcomes db).2).
Proof.
  unfold mark_apply_results, transaction. destruct (mark_results outcomes db) as [[u db']|] eqn:E; [|reflexivity].
  by apply mark_results_settles in E.
Qed.
(** What both of its operations on the tables keep, reconciliation keeps. *)
Lemma reconcile_store (R : relation Db) env d :
  (forall db, R db db) -> (forall a b c, R a b -> R b c -> R a c) ->
  (forall now db, R db (begin_reconcile now db).2) -> (forall outcomes db, R db (mark_apply_results outcomes db).2) ->
  R (df_store d) (df_store (reconcile env d).2).
Proof.
  intros Hrefl Htrans Hb Hm.
  assert (Hon : forall A (f : Db -> Result A * Db) x, (forall db, R db (f db).2) -> R (df_store d) (df_store x) ->
    forall r s, on_store f x = (r, s) -> R (df_store d) (df_store s)).
  { intros A f x Hf H r s. unfold on_store. specialize (Hf (df_store x)).
    destruct (f (df_store x)) as [r' db]. intros [= <- <-]. eapply Htrans; [exact H|exact Hf]. }
  pose proof (Hrefl (df_store d)) as H0.
  unfold reconcile. apply st_bind_inv; [intros r s1; apply (Hon _ _ _ (Hb _) H0)|].
  intros n d1 H1. apply (Hon _ _ _ (Hb _) H0) in H1. clear H0.
  apply st_bind_inv; [by intros ? ? [= <- <-]|]. intros ? ? [= <- <-].
  apply st_bind_inv; [by intros ? ? [= <- <-]|]. intros ls ? [_ ->]%lift_ok.
  apply st_bind_inv; [by intros ? ? [= <- <-]|]. intros plan ? [_ ->]%lift_ok.
  apply st_bind_inv; [by intros ? ? [= <- <-]|]. intros ? ? [= <- <-].
  apply st_bind_inv; [by intros ? ? [= <- <-]|]. intros ? ? [= <- <-].
  destruct (firewall_reconcile _ _ _) as [fw result].
  apply st_bind_inv; [by intros ? ? [= <- <-]|]. intros ? ? [= <- <-].
  apply st_bind_inv; [intros r s1; by apply (Hon _ _ _ (Hm _))|].
  intros u d2 H2. apply (Hon _ _ _ (Hm _)) in H2; [|done]. exact H2.
Qed.
Lemma reconcile_leases env d : Forall2 settled_copy (rows d) (rows (reconcile env d).2).
Proof.
  apply (reconcile_store (fun db db' => Forall2 settled_copy (leases db) (leases db')));
    [reflexivity|intros; by etransitivity|apply begin_settles|apply mark_settles].
Qed.
Lemma reconcile_wf env d : store_wf (df_store d) -> store_wf (df_store (reconcile env d).2).
Proof.
  apply (reconcile_store (fun db db' => store_wf db -> store_wf db')); [done|auto| |].
  - intros. by apply begin_reconcile_wf.
  - intros. apply transaction_wf; [intros; by eapply mark_results_wf|done].
Qed.

(** A lease and its copy after a reconciliation. *)
Lemma settled_decode r r' l : settled_copy r r' -> decode_lease r = Ok l ->
  exists l', decode_lease r' = Ok l' /\ lease_network l' = lease_network l /\ lease_manual l' = lease_manual l /\
    lease_action l' = lease_action l /\ lease_expires_at l' = lease_expires_at l.
Proof.
  intros -> H. unfold decode_lease in *. inv_result. cbn. rewrite Ha, Ha0, Ha1, Ha2, Ha3. cbn. eauto 6.
Qed.
Lemma settled_active now r r' : settled_copy r r' -> row_active now r' = row_active now r.
Proof. by intros ->. Qed.
#[local] Instance settled_sym : Symmetric settled_copy.
Proof. unfold settled_copy. intros r r' H. rewrite H. cbn. by destruct r. Qed.
(** What a reconciliation does not touch of a lease. *)
Definition same_lease (l l' : Lease) : Prop :=
  lease_network l' = lease_network l /\ lease_manual l' = lease_manual l /\ lease_action l' = lease_action l /\
  lease_expires_at l' = lease_expires_at l.
Lemma settled_lease now db db' l ls ls' :
  store_wf db -> store_wf db' -> Forall2 settled_copy (leases db) (leases db') ->
  active_leases now db = Ok ls -> active_leases now db' = Ok ls' -> l ∈ ls -> exists l', l' ∈ ls' /\ same_lease l l'.
Proof.
  intros Hwf Hwf' H2 Hls Hls' (r & Hr & Ha & Hd)%(active_leases_elem _ _ _ _ Hwf Hls).
  apply list_elem_of_lookup in Hr as [k Hk]. apply (Forall2_lookup_l _ _ _ _ _ H2) in Hk as (r' & Hr' & Hs).
  destruct (settled_decode r r' l Hs Hd) as (l' & Hd' & E1 & E2 & E3 & E4). exists l'. split; [|by split_and!].
  apply (active_leases_elem _ _ _ _ Hwf' Hls'). exists r'. split; [by eapply list_elem_of_lookup_2|].
  by rewrite (settled_active _ _ _ Hs).
Qed.
Lemma active_now now db ls : active_leases now db = Ok ls -> now <= i64_max.
Proof. unfold active_leases. intros H. inv_result. by apply sql_time_ok in Ha as [? _]. Qed.
Lemma lease_survives env d l ls :
  store_wf (df_store d) -> active_leases (env_now env) (df_store d) = Ok ls -> l ∈ ls ->
  exists ls' l', active_leases (env_now env) (df_store (reconcile env d).2) = Ok ls' /\ l' ∈ ls' /\ same_lease l l'.
Proof.
  intros Hwf Hls Hl. pose proof (reconcile_wf env d Hwf) as Hwf'. pose proof (active_now _ _ _ Hls) as Hn.
  destruct (active_leases_total (env_now env) _ Hwf' Hn) as (_ & ls' & Hls' & _).
  destruct (settled_lease _ _ _ l ls ls' Hwf Hwf' (reconcile_leases env d) Hls Hls' Hl) as (l' & H). by exists ls', l'.
Qed.
Lemma lease_absent env d n ls :
  store_wf (df_store d) -> active_leases (env_now env) (df_store d) = Ok ls -> Forall (fun l => lease_network l <> n) ls ->
  exists ls', active_leases (env_now env) (df_store (reconcile env d).2) = Ok ls' /\ Forall (fun l => lease_network l <> n) ls'.
Proof.
  intros Hwf Hls Hl. pose proof (reconcile_wf env d Hwf) as Hwf'. pose proof (active_now _ _ _ Hls) as Hn.
  destruct (active_leases_total (env_now env) _ Hwf' Hn) as (_ & ls' & Hls' & _). exists ls'. split; [done|].
  apply Forall_forall. intros l' Hl'. pose proof (reconcile_leases env d) as H2. apply symmetry in H2.
  destruct (settled_lease _ _ _ l' ls' ls Hwf' Hwf H2 Hls' Hls Hl') as (l & Hin & E & _). rewrite <-E.
  by apply (proj1 (Forall_forall _ _) Hl).
Qed.

(** ** What the firewall was told *)

(** When enforcement is required, [nft] has accepted a ruleset made of the leases: each
    that may be enforced and blocks a packet has a member that drops or rejects it, and
    every member is for the network of one of them. *)
Definition told (env : Env) (d : Defense) (ls : list Lease) : Prop :=
  fw_required (df_firewall d) = true ->
  exists members ruleset,
    render_ruleset (fw_table (df_firewall d)) (fw_priority (df_firewall d)) members = Ok ruleset /\
    env_nft env (fw_nft_path (df_firewall d)) ruleset = Ok tt /\
    (forall l p, l ∈ ls -> is_protected env d (lease_network l) = Ok false ->
       is_no_block_network d (lease_network l) = false -> net_contains (lease_network l) (pk_source p) = true ->
       action_blocks (lease_action l) p = true ->
       exists m, m ∈ members /\ member_matches m p = true /\ is_block_verdict (s_verdict (m_scope m)) = true) /\
    (forall m, m ∈ members -> exists l, l ∈ ls /\ m_network m = lease_network l).
(** The leases a reconciliation leaves in force are those it told the firewall, settled. *)
Lemma reconcile_told env d d' :
  store_wf (df_store d) -> reconcile env d = (Ok tt, d') ->
  exists ls, active_leases (env_now env) (df_store d') = Ok ls /\ told env d ls /\
    Forall (fun l => lease_apply_state l = Observed \/ lease_apply_state l = Applied /\ fw_required (df_firewall d) = true) ls.
Proof.
  intros Hwf H. pose proof H as (n & db1 & ls1 & plan & fw & db2 & Hb & Hl & Hp & Hf & Hm & _ & Hst & _)%reconcile_inv.
  pose proof (begin_reconcile_wf (env_now env) _ Hwf) as Hwf1. rewrite Hb in Hwf1. cbn in Hwf1.
  pose proof (reconcile_wf env d Hwf) as Hwf2. rewrite H in Hwf2. cbn in Hwf2.
  destruct (active_leases_total (env_now env) _ Hwf2 (active_now _ _ _ Hl)) as (_ & ls & Hls & _).
  assert (H2 : Forall2 settled_copy (leases db1) (leases (df_store d'))).
  { pose proof (mark_settles (lease_outcome (fw_required fw) plan (Ok tt) <$> ls1) db1) as H2. rewrite Hm in H2. by rewrite Hst. }
  exists ls. split; [done|]. split.
  - intros Hreq. unfold firewall_reconcile in Hf. rewrite Hreq in Hf. cbn in Hf.
    destruct (render_ruleset _ _ _) as [ruleset|] eqn:Hr; [|done]. injection Hf as _ Hn.
    exists (pl_memberships plan), ruleset. split; [done|]. split; [done|]. split.
    + intros l p Hin Hnp Hnb Hc Ha. symmetry in H2.
      destruct (settled_lease _ _ _ l ls ls1 Hwf2 Hwf1 H2 Hls Hl Hin) as (l1 & Hin1 & E1 & _ & E3 & _).
      rewrite <-E1 in Hnp, Hnb, Hc. rewrite <-E3 in Ha.
      destruct (plan_leases_complete env (set_store d db1) ls1 empty_plan plan l1 Hp Hin1 Hnp Hnb) as (m & Hmem & Hx).
      destruct (membership_blocks _ _ _ p Hmem Ha Hc) as (x & -> & ? & ?). eauto.
    + intros m Hin. destruct (plan_leases_in _ _ _ _ _ _ Hp Hin) as [?%elem_of_nil|(l1 & Hl1 & _ & _ & Hmem)]; [done|].
      destruct (settled_lease _ _ _ l1 ls1 ls Hwf1 Hwf2 H2 Hl Hls Hl1) as (l & Hl' & E & _). exists l. split; [done|].
      by rewrite E, (membership_network _ _ _ Hmem).
  - apply Forall_forall. intros l (r & Hr & Ha & Hd)%(active_leases_elem _ _ _ _ Hwf2 Hls).
    destruct (reconcile_settles env d d' r Hwf H Hr Ha) as [_ Hset].
    assert (E : lease_apply_state l = r_apply_state r) by (unfold decode_lease in Hd; by inv_result).
    by rewrite E.
Qed.

(** ** Answers *)

(** The leases in force after a reconciliation that succeeded. *)
Definition settled (env : Env) (d d' : Defense) (ls : list Lease) : Prop :=
  active_leases (env_now env) (df_store d') = Ok ls /\ told env d ls /\
  Forall (fun l => lease_apply_state l = Observed \/ lease_apply_state l = Applied /\ fw_required (df_firewall d) = true) ls.
(** The networks an operator may block. *)
Definition blockable (env : Env) (d : Defense) (raw : string) (duration : option N) (n : IpNetwork) : Prop :=
  duration <> Some 0 /\ network_from raw = Ok n /\ is_protected env d n = Ok false /\ is_no_block_network d n = false.

Lemma block_manually_inv env raw duration d r d' :
  block_manually env raw duration d = (r, d') ->
  (exists e, r = Err e /\ d' = d) \/
  exists n, blockable env d raw duration n /\
    let '(b, db) := manual_block n Action.DropAll (env_now env) duration (df_store d) in
    match b with
    | Ok _ => reconcile env (set_store d db) = (r, d')
    | Err e => r = Err e /\ d' = set_store d db
    end.
Proof.
  unfold block_manually, mbind, st_bind, lift, get, on_store, fail_if.
  destruct (bool_decide (duration = Some 0)) eqn:E0; [intros [= <- <-]; eauto|]. apply bool_decide_eq_false in E0.
  destruct (network_from raw) as [n|e] eqn:En; [|intros [= <- <-]; eauto].
  destruct (is_protected env d n) as [[]|e] eqn:Ep; [intros [= <- <-]; eauto| |intros [= <- <-]; eauto].
  destruct (is_no_block_network d n) eqn:Eb; [intros [= <- <-]; eauto|].
  intros H. right. exists n. split; [done|]. destruct (manual_block n _ _ duration (df_store d)) as [[l|e] db]; [exact H|].
  by injection H as <- <-.
Qed.
Lemma unblock_inv env raw d r d' :
  unblock env raw d = (r, d') ->
  (exists e, r = Err e /\ network_from raw = Err e /\ d' = d) \/
  exists n, network_from raw = Ok n /\
    let '(c, db) := manual_unblock n (env_now env) (df_store d) in
    match c with
    | Ok c => exists q, reconcile env (set_store d db) = (q, d') /\ r = (fun _ => c) <$> q
    | Err e => r = Err e /\ d' = set_store d db
    end.
Proof.
  unfold unblock, mbind, st_bind, lift, on_store. destruct (network_from raw) as [n|e]; [|intros [= <- <-]; eauto].
  intros H. right. exists n. split; [done|]. destruct (manual_unblock n _ (df_store d)) as [[c|e] db]; [|by injection H as <- <-].
  destruct (reconcile env (set_store d db)) as [q d2]. exists q.
  destruct q as [[]|e]; injection H as <- <-; done.
Qed.

Lemma transaction_err {A} (body : Db -> Result (A * Db)) db e db' : transaction body db = (Err e, db') -> db' = db.
Proof. unfold transaction. destruct (body db) as [[a d]|e']; [done|by intros [= _ <-]]. Qed.
Lemma manual_block_lease n a now duration db l db' :
  manual_block n a now duration db = (Ok l, db') ->
  lease_network l = n /\ lease_manual l = true /\ lease_action l = a /\ lease_expires_at l = sat_add u64_max now <$> duration.
Proof. intros H. unfold manual_block in H. apply transaction_ok in H. apply bind_ok in H as (t & _ & H). cbn in H. by inv_all. Qed.
Lemma set_store_same d : set_store d (df_store d) = d.
Proof. by destruct d. Qed.

Lemma blocked_le uptime s l : su_blocked_ips (Admin.status_of uptime s l) <= su_active_bans (Admin.status_of uptime s l).
Proof.
  cbn. cut (size (blocked_networks l) <= length l)%nat; [lia|]. unfold blocked_networks.
  induction l as [|b l IH]; [done|]. cbn [List.filter length]. destruct (_ && _); [|lia]. cbn [fmap list_fmap].
  rewrite list_to_set_cons. pose proof (size_union_alt {[ban_network b]} (list_to_set (C := gset string) (ban_network <$> List.filter (fun ban => bool_decide (ban_state ban = Applied) && ban_blocking ban) l))) as Hu.
  rewrite Hu, size_singleton. etransitivity; [|apply le_n_S, IH]. apply le_n_S. apply subseteq_size. set_solver.
Qed.

Lemma told_store env d db ls : told env (set_store d db) ls <-> told env d ls.
Proof. done. Qed.
(** A block that succeeded, and an unblock. *)
Lemma acknowledged_block env raw duration d d' n l db :
  store_wf (df_store d) -> blockable env d raw duration n ->
  manual_block n Action.DropAll (env_now env) duration (df_store d) = (Ok l, db) ->
  reconcile env (set_store d db) = (Ok tt, d') ->
  exists n ls l, blockable env d raw duration n /\ settled env d d' ls /\ l ∈ ls /\
    lease_network l = n /\ lease_manual l = true /\ lease_action l = Action.DropAll /\
    lease_expires_at l = sat_add u64_max (env_now env) <$> duration /\
    (fw_required (df_firewall d) = true -> exists members ruleset,
       render_ruleset (fw_table (df_firewall d)) (fw_priority (df_firewall d)) members = Ok ruleset /\
       env_nft env (fw_nft_path (df_firewall d)) ruleset = Ok tt /\
       forall p, net_contains n (pk_source p) = true ->
         exists m, m ∈ members /\ member_matches m p = true /\ is_block_verdict (s_verdict (m_scope m)) = true).
Proof.
  intros Hwf Hn Eb Hm.
  destruct (manual_block_in_force _ _ _ _ _ _ _ Hwf Eb ltac:(apply Hn)) as (ls & Hls & Hl & _).
  pose proof (manual_block_wf n Action.DropAll (env_now env) duration _ Hwf) as Hwf'. rewrite Eb in Hwf'.
  destruct (lease_survives env (set_store d db) l ls Hwf' Hls Hl) as (ls' & l' & H1 & H2 & H3 & H4 & H5 & H6).
  destruct (reconcile_told env (set_store d db) d' Hwf' Hm) as (ls'' & Hls'' & Ht & Hset).
  rewrite Hm in H1. cbn [snd] in H1. rewrite Hls'' in H1. injection H1 as ->. apply told_store in Ht.
  apply manual_block_lease in Eb as (En & Em & Ea & Ee). rewrite En in H3. rewrite Em in H4. rewrite Ea in H5. rewrite Ee in H6.
  exists n, ls', l'. split_and!; try done. intros Hreq. destruct (Ht Hreq) as (members & ruleset & Hr & Hnft & Hb & _).
  exists members, ruleset. split; [done|]. split; [done|]. intros p Hp. destruct Hn as (_ & _ & Hnp & Hnb).
  apply (Hb l' p H2); rewrite ?H3, ?H5; done.
Qed.
Lemma acknowledged_unblock env raw d d' n k db :
  store_wf (df_store d) -> network_from raw = Ok n -> manual_unblock n (env_now env) (df_store d) = (Ok k, db) ->
  reconcile env (set_store d db) = (Ok tt, d') ->
  exists n ls, network_from raw = Ok n /\ settled env d d' ls /\ Forall (fun l => lease_network l <> n) ls.
Proof.
  intros Hwf Hn Eu Hq. assert (Hnow : env_now env <= i64_max).
  { unfold manual_unblock in Eu. destruct (sql_time (env_now env)) eqn:Et; [|done]. by apply sql_time_ok in Et as []. }
  destruct (manual_unblock_clears n (env_now env) (df_store d) Hwf Hnow) as (ls & Hls & Hnone).
  pose proof (manual_unblock_wf n (env_now env) _ Hwf) as Hwf'. rewrite Eu in Hls, Hwf'.
  destruct (lease_absent env (set_store d db) n ls Hwf' Hls Hnone) as (ls' & H1 & H2).
  destruct (reconcile_told env (set_store d db) d' Hwf' Hq) as (ls'' & Hls'' & Ht).
  rewrite Hq in H1. cbn [snd] in H1. rewrite Hls'' in H1. injection H1 as ->. by exists n, ls'.
Qed.

(** C35: What an answer of the control socket means. A block is acknowledged only for a network
    that may be blocked; then a manual lease that drops everything from it is in force,
    for the time that was asked for, and, where enforcement is required, [nft] has accepted a
    ruleset that drops every packet from the network. After an acknowledged unblock no
    lease of the network is in force. After each of the two, and after a
    reconciliation, every lease in force is settled, and the accepted ruleset was made of
    the leases in force and of nothing else. A refused block changed nothing unless the network could be
    blocked and the reconciliation after it failed; an error is that of the operation asked for;
    and questions change nothing, a status counting the bans it would list. *)
Theorem admin_answers env uptime request s response s' :
  store_wf (df_store (sv_defense s)) -> dispatch env uptime request s = (response, s') ->
  s' = set_defense (sv_defense s') s /\
  let d := sv_defense s in let d' := sv_defense s' in
  match request, response with
  | RqBlock raw duration, RsOk _ =>
      exists n ls l, blockable env d raw duration n /\ settled env d d' ls /\ l ∈ ls /\
        lease_network l = n /\ lease_manual l = true /\ lease_action l = Action.DropAll /\
        lease_expires_at l = sat_add u64_max (env_now env) <$> duration /\
        (fw_required (df_firewall d) = true -> exists members ruleset,
           render_ruleset (fw_table (df_firewall d)) (fw_priority (df_firewall d)) members = Ok ruleset /\
           env_nft env (fw_nft_path (df_firewall d)) ruleset = Ok tt /\
           forall p, net_contains n (pk_source p) = true ->
             exists m, m ∈ members /\ member_matches m p = true /\ is_block_verdict (s_verdict (m_scope m)) = true)
  | RqBlock raw duration, RsError m =>
      exists e, block_manually env raw duration d = (Err e, d') /\ m = show_error e /\
        (d' = d \/ exists n db, blockable env d raw duration n /\ reconcile env (set_store d db) = (Err e, d'))
  | RqUnblock raw, RsOk _ =>
      exists n ls, network_from raw = Ok n /\ settled env d d' ls /\ Forall (fun l => lease_network l <> n) ls
  | RqUnblock raw, RsError m => exists e, unblock env raw d = (Err e, d') /\ m = show_error e
  | RqReconcile, RsOk _ => exists ls, settled env d d' ls
  | RqReconcile, RsError m => exists e, reconcile env d = (Err e, d') /\ m = show_error e
  | RqStatus, RsStatus status =>
      s' = s /\ exists l, bans env d = Ok l /\ su_active_bans status = N.of_nat (length l) /\
        su_blocked_ips status <= su_active_bans status
  | RqListBans, RsBans l => s' = s /\ bans env d = Ok l
  | RqListPolicies, RsPolicies l => s' = s /\ l = policy_statuses d
  | RqStatus, RsError m | RqListBans, RsError m => s' = s /\ exists e, bans env d = Err e /\ m = show_error e
  | _, _ => False
  end.
Proof.
  intros Hwf H. assert (Hs : s = set_defense (sv_defense s) s) by by destruct s.
  destruct request as [|raw duration|raw| | |]; cbn in H; unfold answer in H.
  - destruct (bans env (sv_defense s)) as [l|e] eqn:El; injection H as <- <-; (split; [exact Hs|]); cbv zeta; (split; [done|]).
    + exists l. split; [done|]. split; [done|]. apply blocked_le.
    + by exists e.
  - destruct (block_manually env raw duration (sv_defense s)) as [r d'] eqn:E. injection H as <- <-. split; [done|]. cbn.
    pose proof E as Ei. apply block_manually_inv in Ei as [(e & -> & ->)|(n & Hn & Hm)]; [eauto 10|].
    destruct (manual_block n Action.DropAll (env_now env) duration (sv_defense s).(df_store)) as [[l|e] db] eqn:Eb.
    + destruct r as [[]|e]; [|eauto 10]. exact (acknowledged_block env raw duration _ d' n l db Hwf Hn Eb Hm).
    + destruct Hm as [-> ->]. unfold manual_block in Eb. apply transaction_err in Eb as ->. rewrite set_store_same in E |- *.
      exists e. auto.
  - destruct (unblock env raw (sv_defense s)) as [r d'] eqn:E. injection H as <- <-. split; [done|]. cbn.
    pose proof E as Ei. apply unblock_inv in Ei as [(e & -> & _)|(n & Hn & Hm)]; [eauto 10|].
    destruct r as [c|e]; [|eauto 10].
    destruct (manual_unblock n (env_now env) (df_store (sv_defense s))) as [[k|e] db] eqn:Eu; [|by destruct Hm].
    destruct Hm as (q & Hq & Hc). destruct q as [[]|e]; [|discriminate Hc].
    exact (acknowledged_unblock env raw _ d' n k db Hwf Hn Eu Hq).
  - destruct (bans env (sv_defense s)) as [l|e] eqn:El; injection H as <- <-; (split; [exact Hs|]); [done|]. split; [done|]. by exists e.
  - injection H as <- <-. by split; [exact Hs|].
  - destruct (reconcile env (sv_defense s)) as [[[]|e] d'] eqn:E; injection H as <- <-; (split; [done|]); cbn; [|by eauto].
    exact (reconcile_told env _ d' Hwf E).
Qed.
End AdminFacts.

(** ** An administrator at work *)

Module AdminExample.
Import EndpointsExample.
#[export] Existing Instances TextCodec.codec_laws.
Definition desk : Server := server_new handles example_defense (endpoint_stats example_config).
(** An operator blocks a network and asks for the bans. *)
Definition blocked_desk : Response * Server := dispatch example_env 3700 (RqBlock "203.0.113.9" (Some 3600)) desk.
Example block_listed :
  blocked_desk.1 = RsOk "blocked 203.0.113.9" /\
  (fun r => match r with RsBans l => ban_manual <$> l | _ => [] end) (dispatch example_env 3700 RqListBans blocked_desk.2).1 = [false; true].
Proof. split; vm_refl. Qed.
Lemma fst_known {A B} (p : A * B) (a : A) : p.1 = a -> p = (a, p.2).
Proof. destruct p. cbn. by intros ->. Qed.
Lemma desk_answered : dispatch example_env 3700 (RqBlock "203.0.113.9" (Some 3600)) desk = (RsOk "blocked 203.0.113.9", blocked_desk.2).
Proof. exact (fst_known blocked_desk _ (proj1 block_listed)). Qed.
(** The text of [bar] and of the percentage. *)
Example capacity_text :
  show_tenths (f64_mul (used_ratio 53 64) (f64_of 100)) = "82.8" /\
  bar (used_ratio 53 64) 24 = repeat_str full_block 20 +:+ repeat_str light_shade 4 /\
  format_uptime 90061 = "1d 1h 1m" /\ pad_left 5 "7.5" = "  7.5".
Proof. split_and!; vm_refl. Qed.
End AdminExample.

(** The expiry of a ban in force, which is still to come, is always shown as a moment
    that has just passed. *)
Lemma expiry_shown_as_past now ts : now <= ts -> rel now ts = "0s ago".
Proof. intros H. unfold rel. by replace (now - ts) with 0 by lia. Qed.

Import EndpointsExample AdminExample.
Lemma admin_answers_witness :
  exists n ls l, network_from "203.0.113.9" = Ok n /\
    active_leases 1020 (df_store (sv_defense blocked_desk.2)) = Ok ls /\ l ∈ ls /\ lease_network l = n /\ lease_manual l = true.
Proof.
  destruct (admin_answers example_env 3700 (RqBlock "203.0.113.9" (Some 3600)) desk (RsOk "blocked 203.0.113.9") blocked_desk.2)
    as (_ & n & ls & l & (_ & Hn & _) & (Hls & _) & Hl & En & Em & _ & _ & Hfw).
  - exact example_wf.
  - exact desk_answered.
  - exists n, ls, l. split; [exact Hn|split; [exact Hls|split; [exact Hl|split; [exact En|exact Em]]]].
Defined.

(** * When the daemon says it is ready

    Facts about [Monitor]: the probe of readiness follows the defense and the sockets
    of the endpoints. *)

Local Open Scope N_scope.

Section Facts.
Context {NA : IpNetworkApi} {RX : RegexApi} {RS : RegexSetApi} {JS : JsonApi} {TM : TimeApi} {SC : StoreCodec}.
Variables (ppp : list N -> HeaderResult) (hd : Handles) (render : string) (json_text : Value -> string)
          (httparse : list N -> option HttpRequest).
Notation act := (act ppp hd).
Notation act_all := (act_all ppp hd).
Notation endpoints_run := (endpoints_run ppp hd).

(** ** Readiness of the endpoints *)

Definition readiness (s : Server) : list bool := es_ready ∘ ep_stats <$> sv_endpoints s.
Lemma endpoints_ready_all s : endpoints_ready s = forallb id (readiness s).
Proof. unfold endpoints_ready, readiness. induction (sv_endpoints s) as [|e l IH]; [done|]. cbn in *. by f_equal. Qed.
Lemma readiness_kept i e e' (l : list Endpoint) :
  l !! i = Some e -> es_ready (ep_stats e') = es_ready (ep_stats e) ->
  es_ready ∘ ep_stats <$> <[i := e']> l = es_ready ∘ ep_stats <$> l.
Proof.
  intros H E. rewrite list_fmap_insert. apply list_insert_id.
  rewrite list_lookup_fmap, H. cbn. by rewrite E.
Qed.
Lemma act_readiness a s s' :
  act a s = Some s' -> readiness s' = match a with Unready => (fun _ => false) <$> readiness s | _ => readiness s end.
Proof.
  assert (Hloop : forall i, (e ← sv_endpoints s !! i; loop_act a i e s) = Some s' -> a <> Unready -> readiness s' = readiness s).
  { intros i H _. destruct (sv_endpoints s !! i) as [e|] eqn:Ee; [|done]. cbn in H. unfold loop_act in H.
    destruct (ep_stopped e); [done|]. destruct a; try done; repeat case_match; try done; apply (inj Some) in H as <-; by apply (readiness_kept _ e). }
  assert (Hconn : forall id, (c ← sv_conns s !! id; e ← sv_endpoints s !! cn_endpoint c; conn_act ppp hd a id c e s) = Some s' ->
    readiness s' = readiness s).
  { intros id H. destruct (sv_conns s !! id) as [c|]; [|done]. cbn in H. destruct (sv_endpoints s !! cn_endpoint c) as [e|] eqn:Ee; [|done].
    cbn in H. unfold conn_act in H. destruct a, (cn_phase c); try done; cbn in H.
    - destruct (client_address _ _ _) as [[ip|]|]; cbn in H; [|by apply (inj Some) in H as <-|done].
      destruct (is_whitelisted _ _); by apply (inj Some) in H as <-.
    - destruct (record_hit _ _ _ _ _ _); [|done]. by apply (inj Some) in H as <-.
    - destruct (ep_slots e =? 0); apply (inj Some) in H as <-; by apply (readiness_kept _ e).
    - destruct (take_place _ _ _) as [[] st]; apply (inj Some) in H as <-; [done|by apply (readiness_kept _ e)].
    - by apply (inj Some) in H as <-.
    - apply (inj Some) in H as <-. by apply (readiness_kept _ e).
    - destruct (listeners _ !! _); [|done]. cbn in H. destruct (forallb _ _); [|done]. apply (inj Some) in H as <-. by apply (readiness_kept _ e).
    - apply (inj Some) in H as <-. by apply (readiness_kept _ e).
    - apply (inj Some) in H as <-. by apply (readiness_kept _ e).
    - by apply (inj Some) in H as <-.
    - by apply (inj Some) in H as <-.
    - apply (inj Some) in H as <-. by apply (readiness_kept _ e).
    - by apply (inj Some) in H as <-. }
  intros H. unfold Endpoints.act in H.
  destruct a; cbn [action_loop action_conn] in H;
    try (by eapply Hloop; [exact H|done]); try (by eapply Hconn; exact H); [by apply (inj Some) in H as <-|].
  destruct (sv_shutdown s); [|done]. apply (inj Some) in H as <-. unfold readiness. cbn.
  by rewrite <-!list_fmap_compose.
Qed.
Definition unreadied (l : list Action) : bool := existsb (fun a => match a with Unready => true | _ => false end) l.
Lemma act_all_readiness l s s' :
  act_all l s = Some s' -> readiness s' = if unreadied l then (fun _ => false) <$> readiness s else readiness s.
Proof.
  revert s. induction l as [|a l IH]; intros s H; cbn [Endpoints.act_all] in H; [by apply (inj Some) in H as <-|].
  destruct (act a s) as [s1|] eqn:Ea; [|done]. cbn in H. rewrite (IH _ H). apply act_readiness in Ea. rewrite Ea.
  unfold unreadied. cbn [existsb]. destruct a; cbn [orb]; try done.
  destruct (existsb _ l); [|done]. by rewrite <-list_fmap_compose.
Qed.
(** A socket that cannot be bound leaves an endpoint that is not ready. *)
Lemma bind_all_failed bind ls stats stats' error :
  Forall (fun e => es_ready e = false) stats -> bind_all bind ls stats = (stats', Err error) -> forallb es_ready stats' = false.
Proof.
  revert stats stats'. induction ls as [|l ls IH]; intros [|e stats] stats' Hf H; try done; cbn in H.
  apply Forall_cons in Hf as [He Hf]. destruct (bind (l_listen_addr l)) as [u|err].
  - destruct (bind_all bind ls stats) as [rest r] eqn:E. injection H as <- ->. cbn. by apply (IH stats).
  - injection H as <- _. cbn. by rewrite He.
Qed.
Lemma stats_unready config : Forall (fun e => es_ready e = false) (endpoint_stats config).
Proof. unfold endpoint_stats. apply Forall_fmap, Forall_forall. done. Qed.
Lemma new_readiness d stats : readiness (server_new hd d stats) = es_ready <$> stats.
Proof. unfold readiness. cbn. by rewrite <-list_fmap_compose. Qed.
Lemma all_false {A} (l : list A) : forallb id ((fun _ => false) <$> l) = bool_decide (l = []).
Proof. by destruct l. Qed.

(** The probe of readiness. Whatever the tasks of the server have done, [/readyz]
    is answered with 200 exactly when the firewall is in place, the processing of
    records works, every source is live, and the sockets of all endpoints are bound and
    not given up; when one of them cannot be bound it is answered with 503. *)
Theorem readiness_probe bind d env later query :
  let status s := mp_status (monitor_answer render json_text env s later ("/readyz" +:+ query)) in
  (query = "" \/ exists rest, query = String "?" rest) ->
  (forall l s, endpoints_run bind d l = Some (Ok s) ->
     status s = if is_ready (sv_defense s) && (negb (unreadied l) || bool_decide (listeners (hd_config hd) = []))
                then "200 OK" else "503 Service Unavailable") /\
  (forall stats error, bind_all bind (listeners (hd_config hd)) (endpoint_stats (hd_config hd)) = (stats, Err error) ->
     status (server_new hd d stats) = "503 Service Unavailable").
Proof.
  intros status Hq.
  assert (Hs : forall s, status s = if monitor_ready s then "200 OK" else "503 Service Unavailable").
  { intros s. unfold status, monitor_answer.
    assert (E : default "/" (head (str_split "?" ("/readyz" +:+ query))) = "/readyz") by (by destruct Hq as [->|[rest ->]]).
    rewrite E. cbn. by destruct (monitor_ready s). }
  split.
  - intros l s H. rewrite Hs. unfold monitor_ready. rewrite endpoints_ready_all. unfold Endpoints.endpoints_run in H.
    destruct (bind_all _ _ _) as [stats [u|e]] eqn:Eb; [|done]. destruct u.
    assert (Hl : length (endpoint_stats (hd_config hd)) = length (listeners (hd_config hd))) by apply length_fmap.
    rewrite (bind_all_ok _ _ _ _ Eb Hl) in H. destruct (act_all l _) as [s1|] eqn:Ea; [|done]. apply (inj Some) in H. injection H as <-.
    rewrite (act_all_readiness _ _ _ Ea), new_readiness.
    assert (Ht : es_ready <$> (set_ready true <$> endpoint_stats (hd_config hd)) = (fun _ => true) <$> listeners (hd_config hd)).
    { unfold endpoint_stats. by rewrite <-!list_fmap_compose. }
    rewrite Ht. f_equal. destruct (unreadied l); cbn [negb orb].
    + rewrite <-list_fmap_compose. by destruct (listeners (hd_config hd)).
    + replace (forallb id _) with true; [by rewrite andb_true_r|].
      generalize (listeners (hd_config hd)). intros ls. by induction ls.
  - intros stats error Eb. rewrite Hs. unfold monitor_ready. rewrite endpoints_ready_all, new_readiness.
    pose proof (bind_all_failed _ _ _ _ _ (stats_unready _) Eb) as Hf.
    replace (forallb id (es_ready <$> stats)) with false; [by rewrite andb_false_r|].
    rewrite <-Hf. clear. induction stats as [|e l IH]; [done|]. cbn. by rewrite IH.
Qed.
End Facts.

(** ** Probes of an endpoint at work *)

Module MonitorExample.
Import EndpointsExample.
#[export] Existing Instances cidr_api cidr_laws Literal.regex Literal.json Literal.time TextCodec.codec.
(** A head is taken as one read, its second word being the target. *)
Definition words (buf : list N) : option HttpRequest :=
  match str_split " " (bytes_string buf) with
  | m :: p :: _ => Some {| hr_method := Some m; hr_path := Some p; hr_headers := []; hr_len := length buf |}
  | _ => None
  end.
Definition ask (line : string) (s : Server) : option (option string) :=
  monitor_handle "" (fun _ => "{}") words example_env
    [{| hd_spent := false; hd_read := RData (byte_of <$> string_chars line); hd_spent_after := false |}] s s.
Example answers :
  ask "GET /healthz?verbose x" visited =
    Some (Some ("HTTP/1.1 200 OK" +:+ line_end +:+ "Content-Type: text/plain" +:+ line_end +:+ "Content-Length: 3" +:+
                line_end +:+ "Connection: close" +:+ crlf2 +:+ "ok" +:+ nl)) /\
  (fun p => mp_status (monitor_answer "" (fun _ => "{}") example_env visited visited p)) <$>
    ["/metrics"; "/status?x"; "/readyz"; "/"; "/readyz/"; ""] =
    ["200 OK"; "200 OK"; "200 OK"; "200 OK"; "404 Not Found"; "404 Not Found"] /\
  ask "GET" visited = None /\
  foldl (fun n e => n ← n; monitor_step n e) (Some 127) [MonitorAccept; MonitorAccept; MonitorDone; MonitorDone] = Some 126.
Proof. repeat split; vm_refl. Qed.
Example count_bits : f64_bits (f64_of 120) = 4638144666238189568.
Proof. vm_refl. Qed.
End MonitorExample.
Import EndpointsExample.

Lemma readiness_probe_witness :
  mp_status (monitor_answer "" (fun _ => "{}") example_env visited visited "/readyz?full") =
    (if is_ready (sv_defense visited) then "200 OK" else "503 Service Unavailable").
Proof.
  destruct (readiness_probe no_header handles "" (fun _ => "{}") bound example_defense example_env visited "?full" (or_intror (ex_intro _ "full" eq_refl)))
    as [H _].
  specialize (H visits visited). rewrite andb_true_r in H. apply H. exact visits_run.
Defined.
