(* ===== verification/Daemon.v ===== *)
(** * The daemon

    [crates/bagel-daemon/src/main.rs]: from the arguments to the services that run,
    the end of the process, and a hang-up. What is read and built is that of the
    other files, in their order here; the machine's part is arguments: the directories,
    the recorder of metrics, the database, a new key pair and the clock with nft. *)

From S2P Require Import Prelude Core Strings Ip ThirdParty Config Validation Document.
From S2P Require Import Bytes Url Proto Host Rule Maze Proxy Policy WebConfig Kdl State.
From S2P Require Import Firewall Store Detector Defense Traps Admission Endpoints Reload Control.

Local Open Scope N_scope.

(** What a start can come to: a key seed for its user, a configuration that is in
    order, a panic over a seed, or services. *)
Inductive Service : Type := DefenseService | MetricsService | WebService | AdminService | EndpointService.
#[global] Instance service_eq_dec : EqDecision Service.
Proof. solve_decision. Defined.

Section Daemon.
Context `{K : Knead} {SD : SectionDecoders} {WD : WebDecoders} {DD : Decode DefenseInput}.
Context {RX : RegexApi} {HA : HeaderApi} {RH : RhaiApi} {RS : RhaiScript} {ST : RegexSetApi}.
Context {U : UriApi} {UP : UriParts} {HT : HeaderText} {NA : IpNetworkApi} {MA : MazeApi}.
Context {JS : JsonApi} {TM : TimeApi} {SC : StoreCodec}.
Variables acme fcrdns : bool.
Context {Key Networks : Type}.
Variables (from_pkcs8 : list N -> option Key) (tls_roots : result string unit) (system_dns : result string unit)
          (load_networks : list NetworkConfig -> Result Networks) (start_solvers : bool).
Variables (default_dirs : string * string) (read_dir : ReadDir) (read_file : string -> result string string).
(** [Ed25519KeyPair::generate_pkcs8], [create_dir_all], [install_recorder] and [Store::open]. *)
Variables (pkcs8 : option (list N)) (create_dir : string -> result string unit) (recorder : result string unit)
          (open_database : string -> Result Db).
Notation Snapshot := (StateInner (Key := Key) (Networks := Networks)).
Notation bagel_resolve := (Kdl.bagel_resolve default_dirs read_dir read_file).
Notation build_shared := (Control.build_shared acme fcrdns from_pkcs8 tls_roots system_dns load_networks start_solvers).
Notation reload_shared := (Control.reload_shared acme fcrdns from_pkcs8 tls_roots system_dns load_networks start_solvers).

Record Daemon : Type := {
  dm_config : Config; dm_web : option Snapshot; dm_handles : Handles; dm_defense : Defense;
  dm_offenses : option (string * N); dm_stats : list EndpointStats; dm_services : list Service }.
Inductive Outcome : Type := KeyPrinted (text : string) | Checked | Panicked | Serving (d : Daemon).

(** [Config::ensure_dirs]. *)
Definition ensure_dirs (config : Config) : Result unit :=
  for_each (fun dir => map_err Error.Io (create_dir dir))
    [data_dir config; cache_dir config; corpora_dir config; scripts_dir config].
Definition crawler_policy (config : Config) : list (string * string * list string) :=
  (fun c => (Config.vc_name c, Config.vc_ua_pattern c, Config.vc_networks c)) <$> verified_crawlers config.
Definition daemon_handles (config : Config) : Result Handles :=
  classifier ← classifier_new (trap_patterns config) (trap_user_agents config) (whitelist_networks config);
  classifier ← with_crawler_policy classifier (crawler_policy config);
  trusted ← trusted_new (trusted_proxies config);
  Ok {| hd_config := config; hd_classifier := classifier; hd_trusted := trusted |}.
(** The defense, opened and put in force. *)
Definition daemon_defense (env : Env) (config : Config) : Result Defense :=
  (if disable_metrics config then Ok tt else map_err Error.Config recorder) ;;
  db ← open_database (database_path config);
  d ← defense_open config db;
  let '(r, d) := initialize env d in r ;; Ok d.
(** The first web source takes the offenses of the web plane, when there is one. *)
Definition attach_web (config : Config) : st Defense (option (string * N)) :=
  match list_find_bool (fun ns => match ns.2 with Source.Web => true | _ => false end) (sources config) with
  | Some (name, _) => source ← web_source name; mret (Some source)
  | None => mret None
  end.
Definition service_list (config : Config) (web : bool) : list Service :=
  [DefenseService] ++ (if disable_metrics config then [] else [MetricsService]) ++
  (if web then [WebService] else []) ++ (if disable_admin config then [] else [AdminService]) ++ [EndpointService].
(** [main] from the configurations on. *)
Definition start_planes (env : Env) (config : Config) (web : option Snapshot) : Result Outcome :=
  ensure_dirs config ;;
  handles ← daemon_handles config;
  d ← daemon_defense env config;
  let '(r, d) := match web with Some _ => attach_web config d | None => (Ok None, d) end in
  offenses ← r;
  Ok (Serving {| dm_config := config; dm_web := web; dm_handles := handles; dm_defense := d; dm_offenses := offenses;
                 dm_stats := endpoint_stats config; dm_services := service_list config (is_some web) |}).
Definition start_web (web : WebConfig) (seed_hex : option string) : option (M (option Snapshot)) :=
  match wc_backends web with
  | [] => Some (mret None)
  | _ => (fun build => state ← build; mret (Some state)) <$> build_shared web seed_hex pkcs8
  end.
Definition daemon_main (env : Env) (args : Args) : M Outcome :=
  if a_generate_key args then seed ← Reload.lift (generate_key_seed_hex pkcs8); mret (KeyPrinted seed)
  else
    bagel ← Reload.lift (bagel_resolve args);
    seed_hex ← Reload.lift (key_seed_hex read_file (a_key_seed args) (a_key_seed_file args));
    if a_check_config args then
      Reload.lift (web_validate_config acme fcrdns (bg_web bagel) (is_some seed_hex)) ;; mret Checked
    else
      match start_web (bg_web bagel) seed_hex with
      | None => mret Panicked
      | Some build => web ← build; Reload.lift (start_planes env (bg_defense bagel) web)
      end.

(** A hang-up ([spawn_web_reload]): the arguments are resolved again. *)
Definition hang_up (args : Args) (shared : Snapshot * World) : Snapshot * World :=
  match bagel_resolve args with
  | Ok bagel => reload_shared (bg_web bagel) shared
  | Err _ => shared
  end.
End Daemon.

(** ** The end *)

(** [Result::and], and [drain_services] over the services in the order they end. *)
Definition result_and {E} (r s : result E unit) : result E unit := match r with Ok _ => s | Err e => Err e end.
Definition drain_services (ends : list (result string unit)) : result string unit := foldl result_and (Ok tt) ends.
(** The end of [main]: the first service to end shuts the others down; the rest end
    within the time for draining, or [late] is set. *)
Definition daemon_end (first : result string unit) (rest : list (result string unit)) (late : bool) : result string unit :=
  result_and first (if late then Err "service shutdown exceeded" else drain_services rest).
