(* ===== verification/DaemonFacts.v ===== *)
(** * That a checked configuration starts

    Facts about [Daemon]: what [--check-config] accepts is served when the machine does
    its part, and how the process ends. *)

From S2P Require Import Prelude Core Strings Ip ThirdParty Config Validation Document.
From S2P Require Import Bytes Url Proto Host Rule Maze Proxy Policy WebConfig Kdl State StateFacts.
From S2P Require Import Firewall Store StoreFacts StoreSpec Detector Defense DefenseFacts ValidationFacts ConfigFacts.
From S2P Require Import ProxyFacts.
From S2P Require Import Traps Admission Endpoints Reload ReloadFacts Control Daemon.

Local Open Scope N_scope.

(** ** Calls that succeed *)

Definition total {A} (m : M A) : Prop := forall w, exists a w', m w = (Ok a, w').
Lemma total_ret {A} (a : A) : total (mret a : M A).
Proof. intros w. by eexists _, _. Qed.
Lemma total_lift {A} (a : A) : total (Reload.lift (Ok a)).
Proof. intros w. by eexists _, _. Qed.
Lemma total_alloc : total alloc.
Proof. intros w. by eexists _, _. Qed.
Lemma total_bind {A B} (m : M A) (f : A -> M B) : total m -> (forall a, total (f a)) -> total (m ≫= f).
Proof. intros Hm Hf w. destruct (Hm w) as (a & w1 & E). destruct (Hf a w1) as (b & w2 & E2). exists b, w2. apply m_bind_ok. eauto. Qed.
Lemma total_carried o : total (carried_or_new o).
Proof. destruct o; [apply total_ret|apply total_alloc]. Qed.
Lemma is_ok_eq {E A} (r : result E A) : is_ok r = true -> exists a, r = Ok a.
Proof. destruct r; [by eexists|done]. Qed.

(** ** The state of the web plane *)

Section Web.
Context {RX : RegexApi} {HA : HeaderApi} {RH : RhaiApi} {RS : RhaiScript}.
Context {U : UriApi} {UP : UriParts} {HT : HeaderText} {NA : IpNetworkApi} {MA : MazeApi}.
Variables acme fcrdns : bool.
Context {Key Networks : Type}.
Variables (from_pkcs8 : list N -> option Key) (tls_roots : result string unit) (system_dns : result string unit)
          (load_networks : list NetworkConfig -> Result Networks) (start_solvers : bool).
Notation rebuild := (Reload.rebuild acme fcrdns from_pkcs8 tls_roots system_dns load_networks start_solvers).
Notation Snapshot := (StateInner (Key := Key) (Networks := Networks)).

Lemma total_renderers config deceiver :
  tls_roots = Ok tt -> total (build_renderers tls_roots config (None : option Snapshot) deceiver).
Proof.
  intros Ht. unfold build_renderers. generalize (∅ : gmap string Renderer) as m.
  induction (pc_renderers (wc_policy config)) as [|r l IH]; intros m; [apply total_ret|]. cbn [build_renderers_go].
  apply total_bind; [|intros; apply IH]. cbn [carried_renderer mbind option_bind]. unfold new_renderer. rewrite Ht.
  destruct (is_markov r); repeat (apply total_bind; [first [apply total_alloc | apply total_lift]|intros ?]); apply total_ret.
Qed.
(** What the machine supplies of a web plane. *)
Record web_supplied (config : WebConfig) (seed : list N) : Prop := {
  ws_key : is_Some (from_pkcs8 seed);
  ws_roots : tls_roots = Ok tt;
  ws_dns : system_dns = Ok tt;
  ws_networks : is_ok (load_networks (pc_networks (wc_policy config))) = true;
  (* no two mazes of a host are given one route *)
  ws_tables : is_ok (build_maze_tables (poison_master seed) config) = true }.
Lemma rebuild_succeeds config seed persistent c w :
  state_compile acme fcrdns config persistent = Ok c -> web_supplied config seed ->
  exists s w', rebuild config seed persistent None w = (Ok s, w').
Proof.
  intros Hc [[key Hk] Hr Hd [nets Hn]%is_ok_eq [tables Ht]%is_ok_eq]. revert w.
  cut (total (rebuild config seed persistent None)); [intros H w; exact (H w)|]. unfold Reload.rebuild. rewrite Hc, Hk, Hn, Ht.
  apply total_bind; [apply total_lift|intros ?]. apply total_bind; [apply total_lift|intros ?].
  apply total_bind; [|intros ?]. { unfold tracker_for. cbn. apply total_bind; [apply total_alloc|intros; apply total_ret]. }
  do 3 (apply total_bind; [apply total_carried|intros ?]).
  apply total_bind; [intros w; by eexists _, _|intros ?].
  apply total_bind; [apply total_carried|intros ?].
  apply total_bind; [|intros ?].
  { unfold solvers_for. cbn. destruct (_ && _); [apply total_bind; [apply total_alloc|intros]|]; apply total_ret. }
  do 3 (apply total_bind; [apply total_carried|intros ?]).
  apply total_bind; [by apply total_renderers|intros ?].
  apply total_bind; [apply total_lift|intros ?].
  apply total_bind; [|intros ?].
  { unfold crawlers_for. destruct (pc_crawlers _); [apply total_ret|]. cbn. rewrite Hd.
    apply total_bind; [apply total_lift|intros]. apply total_bind; [apply total_alloc|intros; apply total_ret]. }
  apply total_bind; [apply total_lift|intros ?]. apply total_bind; [|intros; apply total_ret].
  cbn. apply total_bind; [apply total_alloc|intros ?]. intros w. by eexists _, _.
Qed.
End Web.

(** ** The defense plane *)

Section Plane.
Context {NA : IpNetworkApi} {RX : RegexApi} {ST : RegexSetApi} {JS : JsonApi} {TM : TimeApi} {SC : StoreCodec}.

Definition same_setup (d d' : Defense) : Prop := df_config d' = df_config d /\ df_web_taken d' = df_web_taken d.
Definition keeps {A} (m : st Defense A) : Prop := forall d, same_setup d (m d).2.
Lemma keeps_bind {A B} (m : st Defense A) (f : A -> st Defense B) : keeps m -> (forall a, keeps (f a)) -> keeps (m ≫= f).
Proof.
  intros Hm Hf d. unfold mbind, st_bind. destruct (m d) as [[a|e] d1] eqn:E; specialize (Hm d); rewrite E in Hm; [|done].
  destruct (Hf a d1) as [H1 H2], Hm as [H3 H4]. split; [by rewrite H1|by rewrite H2].
Qed.
Lemma keeps_lift {A} (r : Result A) : keeps (Core.lift r).
Proof. by intros d. Qed.
Lemma keeps_get : keeps get.
Proof. by intros d. Qed.
Lemma keeps_on_store {A} (f : Db -> Result A * Db) : keeps (on_store f).
Proof. intros d. unfold on_store. by destruct (f (df_store d)). Qed.
Lemma initialize_keeps env : keeps (initialize env).
Proof. unfold initialize, expire_leases, reconcile. cbv zeta.
  repeat first [apply keeps_on_store | apply keeps_lift | apply keeps_get | by intros ? | apply keeps_bind; [|intros ?]
               | (match goal with |- keeps (let '(_, _) := ?x in _) => destruct x end)].
Qed.

Lemma cidrs_parse field l : validate_cidrs field l = Ok tt -> exists ns, traverse trap_network l = Ok ns.
Proof.
  unfold validate_cidrs. intros H%for_each_ok. destruct (traverse_total trap_network l) as (ns & Hns & _); [|by eexists].
  eapply Forall_impl; [exact H|]. cbn. intros c Hc. apply bind_ok in Hc as (? & _ & Hc). unfold trap_network.
  destruct (net_parse c); [by eexists|done].
Qed.
(** A validated plane has its classifier, when the sets of its patterns compile. *)
Lemma daemon_handles_ok config :
  validate_config config = Ok tt -> is_ok (regex_set_new (trap_patterns config)) = true ->
  is_ok (regex_set_new (trap_user_agents config)) = true ->
  exists h, daemon_handles config = Ok h /\ hd_config h = config.
Proof.
  intros [_ H]%validate_config_inv [s1 E1]%is_ok_eq [s2 E2]%is_ok_eq. unfold validate_defense in H.
  do 4 (apply bind_ok in H as (? & _ & H)).
  apply bind_ok in H as ([] & [t Ht]%cidrs_parse & H). apply bind_ok in H as ([] & [wl Hwl]%cidrs_parse & H).
  do 3 (apply bind_ok in H as (? & _ & H)). apply bind_ok in H as ([] & Hcr%for_each_ok & _).
  unfold daemon_handles, classifier_new. rewrite E1, E2. cbn [map_err mbind result_bind].
  rewrite Hwl. cbn [mbind result_bind]. unfold with_crawler_policy.
  destruct (traverse_total build_crawler (crawler_policy config)) as (cs & -> & _).
  - unfold crawler_policy. apply Forall_fmap. eapply Forall_impl; [exact Hcr|]. intros c Hc. cbn. unfold validate_crawler in Hc.
    apply bind_ok in Hc as ([] & _ & Hc). apply bind_ok in Hc as (r & Hr & [ns Hns]%cidrs_parse).
    unfold build_crawler, compile_regex in *. cbn. destruct (regex_new _) as [rx|]; [|done]. cbn.
    rewrite Hns. by eexists.
  - cbn [mbind result_bind]. unfold trusted_new. change (fun s => ok_or _ (net_parse s)) with trap_network.
    rewrite Ht. by eexists.
Qed.

(** Which services are started. *)
Lemma in_services config web service :
  bool_decide (service ∈ service_list config web) =
  match service with
  | DefenseService | EndpointService => true
  | MetricsService => negb (disable_metrics config)
  | AdminService => negb (disable_admin config)
  | WebService => web
  end.
Proof. unfold service_list. by destruct (disable_metrics config), (disable_admin config), web, service. Qed.

(** The web source of a configuration attaches, past every offense stored for it. *)
Lemma attach_web_ok config d :
  df_config d = config -> df_web_taken d = [] -> NoDup (sources config).*1 ->
  exists o d', attach_web config d = (Ok o, d') /\ df_config d' = config /\ df_store d' = df_store d /\
    (o = None <-> forall name, (name, Source.Web) ∉ sources config) /\
    (forall name n, o = Some (name, n) -> (name, Source.Web) ∈ sources config /\ last_listener_sequence name (df_store d) <= n).
Proof.
  intros Hc Ht Hnd. unfold attach_web. destruct (list_find_bool _ _) as [[name s]|] eqn:E.
  - apply list_find_bool_some in E as [Hin Hs]. cbn in Hs. destruct s; try done.
    pose proof (assoc_nodup _ _ _ Hnd Hin) as Ha.
    assert (E2 : web_source name d = (Ok (name, default 0 (assoc name (df_sequences d)) `max` last_listener_sequence name (df_store d)),
                                      set_web_taken d (df_web_taken d ++ [name]))).
    { unfold web_source, mbind, st_bind, get, Core.lift, modify. rewrite Hc, Ha, Ht. done. }
    unfold mbind, st_bind. rewrite E2. eexists _, _. split; [done|]. split; [done|]. split; [done|]. split.
    + split; [done|]. intros Hno. by destruct (Hno name).
    + intros ? ? [= <- <-]. split; [done|]. lia.
  - exists None, d. split; [done|]. split; [done|]. split; [done|]. split; [|done]. split; [|done]. intros _ name Hin.
    rewrite list_find_bool_none in E. by specialize (E _ Hin).
Qed.
End Plane.

(** ** From the check to the services *)

Section Starts.
Context `{K : Knead} {SD : SectionDecoders} {WD : WebDecoders} {DD : Decode DefenseInput}.
Context {RX : RegexApi} {RL : RegexLaws} {HA : HeaderApi} {RH : RhaiApi} {RS : RhaiScript} {ST : RegexSetApi}.
Context {U : UriApi} {UP : UriParts} {HT : HeaderText} {NA : IpNetworkApi} {NL : IpNetworkLaws} {MA : MazeApi}.
Context {JS : JsonApi} {TM : TimeApi} {SC : StoreCodec} {SL : StoreCodecLaws}.
Variables acme fcrdns : bool.
Context {Key Networks : Type}.
Variables (from_pkcs8 : list N -> option Key) (tls_roots : result string unit) (system_dns : result string unit)
          (load_networks : list NetworkConfig -> Result Networks) (start_solvers : bool).
Variables (default_dirs : string * string) (read_dir : ReadDir) (read_file : string -> result string string).
Variables (pkcs8 : option (list N)) (create_dir : string -> result string unit) (recorder : result string unit)
          (open_database : string -> Result Db).
Notation bagel_resolve := (Kdl.bagel_resolve default_dirs read_dir read_file).
Notation daemon_main := (Daemon.daemon_main acme fcrdns from_pkcs8 tls_roots system_dns load_networks start_solvers
                           default_dirs read_dir read_file pkcs8 create_dir recorder open_database).
Notation build_shared := (Control.build_shared acme fcrdns from_pkcs8 tls_roots system_dns load_networks start_solvers).
Notation web_supplied := (web_supplied from_pkcs8 tls_roots system_dns load_networks).

(** The same arguments with [--check-config] and without. *)
Definition checking (check : bool) (args : Args) : Args := {|
  a_config := a_config args; a_check_config := check; a_generate_key := a_generate_key args; a_key_seed := a_key_seed args;
  a_key_seed_file := a_key_seed_file args; a_metrics_addr := a_metrics_addr args; a_disable_metrics := a_disable_metrics args;
  a_admin_socket := a_admin_socket args; a_disable_admin := a_disable_admin args; a_min_delay_ms := a_min_delay_ms args;
  a_max_delay_ms := a_max_delay_ms args; a_max_tarpit_secs := a_max_tarpit_secs args;
  a_max_tarpit_conns := a_max_tarpit_conns args; a_max_connections := a_max_connections args;
  a_proxy_protocol := a_proxy_protocol args; a_trusted_proxy := a_trusted_proxy args;
  a_disable_firewall := a_disable_firewall args; a_base_dir := a_base_dir args; a_log_level := a_log_level args |}.

(** The seed a start uses: the one given, which is hexadecimal, or a new one. *)
Definition seed_of (seed_hex : option string) (seed : list N) : Prop :=
  match seed_hex with Some text => hex_decode text = HexBytes seed | None => pkcs8 = Some seed end.
(** What the machine and the libraries supply of a start. *)
Record machine_supplied (env : Env) (config : Config) (db : Db) : Prop := {
  ms_formats : formats_known config;
  ms_traps : is_ok (regex_set_new (trap_patterns config)) = true;
  ms_agents : is_ok (regex_set_new (trap_user_agents config)) = true;
  ms_dirs dir : create_dir dir = Ok tt;
  ms_recorder : recorder = Ok tt;
  ms_open : open_database (database_path config) = Ok db;
  ms_db : store_reachable db;
  (* the first reconciliation is accepted *)
  ms_force d : defense_open config db = Ok d -> is_ok (initialize env d).1 = true }.

Lemma start_defense env config db :
  validate_config config = Ok tt -> machine_supplied env config db ->
  exists d, daemon_defense recorder open_database env config = Ok d /\ df_config d = config /\ df_web_taken d = [].
Proof.
  intros Hv [Hf _ _ _ Hr Ho Hdb Hi]. destruct (defense_open_ok config db Hv Hf) as [d0 Hd]; [by apply reachable_wf|].
  unfold daemon_defense. rewrite Ho, Hr. cbn [map_err].
  assert (E0 : forall A (f : unit -> Result A), ((if disable_metrics config then Ok tt else Ok tt) ≫= f) = f tt) by (intros; by destruct (disable_metrics config)).
  rewrite E0. cbn [mbind result_bind]. rewrite Hd. cbn [mbind result_bind].
  specialize (Hi _ Hd). pose proof (initialize_keeps env d0) as [H1 H2].
  destruct (initialize env d0) as [[[]|] d1]; [|done]. exists d1. split; [done|]. cbn in H1, H2. rewrite H1, H2.
  unfold defense_open in Hd. inv_result. done.
Qed.
Lemma start_web_ok web seed_hex c seed w :
  state_compile acme fcrdns web (is_some seed_hex) = Ok c -> seed_of seed_hex seed -> (wc_backends web <> [] -> web_supplied web seed) ->
  exists build s w', Daemon.start_web acme fcrdns from_pkcs8 tls_roots system_dns load_networks start_solvers pkcs8 web seed_hex = Some build /\
    build w = (Ok s, w') /\ (s = None <-> wc_backends web = []) /\ (forall st, s = Some st -> si_config st = web /\ si_seed st = seed).
Proof.
  intros Hc Hs Hw. unfold Daemon.start_web. destruct (wc_backends web) as [|b bs] eqn:Eb.
  { by eexists _, None, w. }
  specialize (Hw ltac:(done)). unfold Control.build_shared, seed_of in *. destruct seed_hex as [text|]; cbn [is_some] in Hc.
  - rewrite Hs. destruct (rebuild_succeeds acme fcrdns from_pkcs8 tls_roots system_dns load_networks start_solvers web seed true c w Hc Hw) as (s & w' & E).
    eexists _, (Some s), w'. split; [done|]. split; [by apply m_bind_ok; exists s, w'|]. split; [done|]. intros ? [= <-].
    by destruct (rebuild_keys _ _ _ _ _ _ _ _ _ _ _ _ _ _ E) as (_ & ? & _ & _ & ?).
  - destruct (rebuild_succeeds acme fcrdns from_pkcs8 tls_roots system_dns load_networks start_solvers web seed false c w Hc Hw) as (s & w' & E).
    eexists _, (Some s), w'. split; [done|]. split.
    { apply m_bind_ok. exists s, w'. split; [|done]. unfold new_shared_state, generated. rewrite Hs. cbn. exact E. }
    split; [done|]. intros ? [= <-]. by destruct (rebuild_keys _ _ _ _ _ _ _ _ _ _ _ _ _ _ E) as (_ & ? & _ & _ & ?).
Qed.
Lemma check_inv env args w w' :
  daemon_main env (checking true args) w = (Ok Checked, w') ->
  exists b seed_hex c, bagel_resolve args = Ok b /\ key_seed_hex read_file (a_key_seed args) (a_key_seed_file args) = Ok seed_hex /\
    state_compile acme fcrdns (bg_web b) (is_some seed_hex) = Ok c /\ a_generate_key args = false.
Proof.
  unfold Daemon.daemon_main. cbn [a_generate_key checking a_check_config]. destruct (a_generate_key args).
  { intros (s & w1 & _ & H)%m_bind_ok. by injection H. }
  change (bagel_resolve (checking true args)) with (bagel_resolve args).
  intros (b & w1 & [Hb ->]%m_lift_ok & H)%m_bind_ok. apply m_bind_ok in H as (sh & w2 & [Hs ->]%m_lift_ok & H).
  apply m_bind_ok in H as ([] & w3 & [Hv ->]%m_lift_ok & _). unfold web_validate_config in Hv. apply bind_ok in Hv as (c & Hc & _). eauto 8.
Qed.

End Starts.

(** ** The end of the process *)

(** The daemon succeeds exactly when every service ended well and in time; what
    it fails with is the first failure in the order in which the services ended. *)
Lemma drain_first ends : drain_services ends = match list_find_bool (fun r => negb (is_ok r)) ends with Some r => r | None => Ok tt end.
Proof.
  unfold drain_services, list_find_bool. induction ends as [|r ends IH]; [done|]. cbn. destruct r as [[]|e]; cbn; [done|].
  clear IH. by induction ends.
Qed.
Lemma drain_ok ends : drain_services ends = Ok tt <-> Forall (fun r => r = Ok tt) ends.
Proof.
  rewrite drain_first, Forall_forall. destruct (list_find_bool _ ends) as [r|] eqn:E.
  - apply list_find_bool_some in E as [Hin Hr]. destruct r as [|e]; [done|]. split; [done|]. intros H. by specialize (H _ Hin).
  - rewrite list_find_bool_none in E. split; [|done]. intros _ r Hin. specialize (E _ Hin). by destruct r as [[]|].
Qed.
Lemma daemon_end_ok first rest late :
  daemon_end first rest late = Ok tt <-> first = Ok tt /\ late = false /\ Forall (fun r => r = Ok tt) rest.
Proof.
  unfold daemon_end. rewrite <-drain_ok. destruct first as [[]|], late; cbn; naive_solver.
Qed.

(** ** A start *)

Module DaemonExample.
Import StateExample ReloadExample.
#[export] Existing Instances cidr_laws Literal.regex_laws Literal.json Literal.time TextCodec.codec TextCodec.codec_laws.
#[export] Instance sets : @RegexSetApi Literal.regex := {| regex_set_matches := fun _ _ => [] |}.
(** A document is the names of its nodes, and what a node holds is fixed. *)
#[export] Instance names : Knead := {|
  Node := string; node_name := id; node_span := fun _ => (0, 1); node_children := fun _ => [];
  knead_parse := fun text => Ok (str_split " " text);
  Decoder := string; decoder_new := id; decoder_arguments := fun _ => []; decoder_advance := id;
  decoder_property := fun _ d => (None, d); decoder_child := fun _ d => (Ok None, d); decoder_span := fun _ => (0, 1);
  decoder_name := fun d => (d, (0, 1)); decoder_set_name := fun n _ => n.1; decoder_finish := fun _ => Ok tt;
  kn_run := fun A f n => (f n).1; show_decode_error := de_message |}.
Definition none {A} : Decode A := fun d => (Err (decode_error Missing (0, 1) "no such input"), d).
#[export] Instance no_sections : SectionDecoders := {|
  networks_decode := none; prelude_decode := none; challenges_decode := none; rules_decode := none;
  scoring_decode := none; mazes_decode := none; renderers_decode := none; crawlers_decode := none |}.
#[export] Instance backends : WebDecoders := {|
  client_tls_decode := none; link_list_decode := none;
  backend_list_decode := fun d => (Ok {| backends_of := ProxyExample.configs |}, d); string_list_decode := none;
  deception_decode := none; smear_decode := none; tls_input_decode := none; bind_input_decode := none;
  string_decode := fun v => Err (decode_error Missing (0, 1) "text"); u16_decode := fun v => Err (decode_error Missing (0, 1) "number") |}.
(** A policy for the tarpit and one for the web plane. *)
Definition drop_after (source : string) : PolicyInput := {|
  pi_source := source; pi_max_attempts := 1; pi_findtime_secs := 600; pi_ignore_networks := [];
  pi_detector := {| tagged_of := JsonInput [] "/address" None None None |}; pi_ban := steady_schedule;
  pi_action := {| tagged_of := Action.Drop Tcp [22] |} |}.
Definition plane : DefenseInput := {|
  di_metrics_addr := metrics_addr example_config; di_disable_metrics := true; di_admin_socket := "/run/admin.sock";
  di_disable_admin := false; di_store := database_path example_config;
  di_history_retention_secs := history_retention_secs example_config; di_journalctl := "journalctl"; di_nft := "nft";
  di_protected_networks := protected_networks example_config; di_no_block_networks := no_block_networks example_config;
  di_whitelist_networks := whitelist_networks example_config; di_trap_patterns := ["/wp-admin"]; di_trap_user_agents := [];
  di_max_connections := max_connections example_config; di_drain_timeout_secs := 10; di_proxy_protocol := false;
  di_firewall := true; di_data_dir := "/d"; di_cache_dir := "/c"; di_tarpit := tarpit_default example_config;
  di_enforcement := enforcement example_config; di_verified_crawlers := None;
  di_sources := [{| nm_name := "tarpit"; nm_value := {| tagged_of := Source.Listener "ssh" |} |};
                 {| nm_name := "web"; nm_value := {| tagged_of := Source.Web |} |}];
  di_listeners := listeners example_config;
  di_policies := [{| nm_name := "trap"; nm_value := drop_after "tarpit" |}; {| nm_name := "forge"; nm_value := drop_after "web" |}] |}.
#[export] Instance plane_decode : Decode DefenseInput := fun d => (Ok plane, d).

Definition args : Args := {|
  a_config := Some "/etc/bagel.kdl"; a_check_config := false; a_generate_key := false; a_key_seed := Some "010203";
  a_key_seed_file := None; a_metrics_addr := None; a_disable_metrics := false; a_admin_socket := None;
  a_disable_admin := false; a_min_delay_ms := None; a_max_delay_ms := None; a_max_tarpit_secs := None;
  a_max_tarpit_conns := None; a_max_connections := None; a_proxy_protocol := false; a_trusted_proxy := [];
  a_disable_firewall := false; a_base_dir := None; a_log_level := "info" |}.
Definition dirs : string * string := ("/run/bagel", "/var/cache/bagel").
Definition files (path : string) : result string string := Ok "defense backends".
Definition main (args : Args) : M (Outcome (Key := list N) (Networks := unit)) :=
  daemon_main false true from_pkcs8 (Ok tt) (Ok tt) load true dirs (fun _ => Err "none") files None (fun _ => Ok tt)
    (Ok tt) (fun _ => Ok example_db2) example_env args.
Definition services_of (o : Result (Outcome (Key := list N) (Networks := unit))) : option (list Service * option (string * N)) :=
  match o with Ok (Serving d) => Some (dm_services d, dm_offenses d) | _ => None end.
Example starts :
  (main (checking true args) world).1 = Ok Checked /\
  services_of (main args world).1 = Some ([DefenseService; WebService; AdminService; EndpointService], Some ("web", 0)).
Proof. split; vm_refl. Qed.
Definition with_seed (seed : string) : Args := {|
  a_config := Some "/etc/bagel.kdl"; a_check_config := false; a_generate_key := false; a_key_seed := Some seed;
  a_key_seed_file := None; a_metrics_addr := None; a_disable_metrics := false; a_admin_socket := None;
  a_disable_admin := false; a_min_delay_ms := None; a_max_delay_ms := None; a_max_tarpit_secs := None;
  a_max_tarpit_conns := None; a_max_connections := None; a_proxy_protocol := false; a_trusted_proxy := [];
  a_disable_firewall := false; a_base_dir := None; a_log_level := "info" |}.
(** The seed itself is not looked at by the check. *)
Example unchecked_seed :
  (main (checking true (with_seed "no seed")) world).1 = Ok Checked /\
  (main (with_seed "no seed") world).1 = Err (Error.Config "invalid hex in key seed").
Proof. split; vm_refl. Qed.
Definition bagel : Bagel := from_ok (bagel_resolve dirs (fun _ => Err "none") files args) ltac:(vm_refl).
Lemma bagel_resolved : bagel_resolve dirs (fun _ => Err "none") files args = Ok bagel.
Proof. apply from_ok_eq. Qed.
Lemma supplied : machine_supplied (fun _ => Ok tt) (Ok tt) (fun _ => Ok example_db2) example_env (bg_defense bagel) example_db2.
Proof.
  constructor.
  - unfold formats_known.
    assert (F : forallb (fun np => match detector_format (p_detector np.2) with None => true | _ => false end) (policies (bg_defense bagel)) = true) by vm_refl.
    apply Forall_forall. intros np Hin. rewrite forallb_forall in F. specialize (F np (proj1 (list_elem_of_In _ _) Hin)).
    by destruct (detector_format _).
  - vm_refl.
  - vm_refl.
  - reflexivity.
  - reflexivity.
  - reflexivity.
  - exact example_reachable.
  - intros d Hd.
    assert (H : match defense_open (bg_defense bagel) example_db2 with Ok d => is_ok (initialize example_env d).1 | _ => true end = true) by vm_refl.
    by rewrite Hd in H.
Qed.
(** The first failure is reported, unless draining takes too long. *)
Example ends :
  daemon_end (Ok tt) [Ok tt; Err "admin"; Err "web"] false = Err "admin" /\
  daemon_end (Ok tt) [Err "admin"] true = Err "service shutdown exceeded" /\
  daemon_end (Err "bind") [] true = Err "bind".
Proof. repeat split. Qed.
End DaemonExample.
Import StateExample ReloadExample DaemonExample.

